(* ===== verification/_CoqProject ===== *)
-Q . S2P
Prelude.v
Msgpack.v
Sexpr.v
Keys.v
Pages.v
FlatLeaf.v
PageCache.v
NewestWins.v
Memtable.v
MinHeap.v
Hydrated.v
Cursors.v
MergedCursor.v
ActiveScan.v
BlobStore.v
PageStore.v
PageTree.v
PageCommit.v
Gc.v
PageCursor.v
Journal.v
Wal.v
KvStore.v
KvSpec.v
KvScan.v
Anchor.v
Resolver.v
KeyStore.v
Engine.v
EngineSpec.v
Numfmt.v
Txw.v
QueryStore.v
QuerySpec.v
KvEngine.v
Edn.v
Sorting.v
Ranges.v
Scanner.v
ScannerSpec.v
Float64.v
Scheme.v
SchemeSpec.v
HostFns.v
HostSpec.v
Tx.v
TxLookup.v
Session.v
TxSpec.v
Datalog.v
Planner.v
PlannerSpec.v
SchemeCompile.v
CompileSpec.v
Stats.v
DatalogSpec.v
Frames.v
Replication.v
Replica.v
ReplicaSpec.v
Downstream.v
Runner.v
RunnerSpec.v
Transactor.v
Gateway.v
S3.v
BlobJournal.v
Client.v
Texts.v
Loader.v
Repl.v
