(* ===== verification/Prelude.v ===== *)
(** * Verification of the Go implementation of eavt-sql

    eavt-sql stores datoms (entity, attribute, value, transaction) as ordered
    byte keys in four index families (EAVT, AEVT, AVET, VAET) of a key-value
    store, and answers datalog queries from scans of those keys. All paths below
    are under src/go/internal.

    ** The system and the files that model it

    A write turns datoms into keys (eavt/keys.go, Keys.v), appends them to the
    write-ahead log (wal/wal.go, Wal.v, in the record format of
    kvstore/kvstore.go, Journal.v) and to the memtable (memtable/memtable.go,
    Memtable.v). A flush freezes the memtable, merges its runs into
    copy-on-write trees of pages (pagestore/store.go, PageStore.v, over the page
    formats of pagestore/pages.go, Pages.v) kept in a blob store
    (blobstore/blobstore.go, BlobStore.v), publishes the new root and lets the
    log drop what became durable. kvstore/kvstore.go (KvStore.v) puts the three
    together. A read merges cursors over the pages and the runs
    (cursor/cursor.go; Cursors.v, MinHeap.v, MergedCursor.v, PageCursor.v),
    keeps the newest version of each datom (eavt/eavt.go, ActiveScan.v) or is
    served by the hydrated cache of whole entities (hydrated/hydrated.go,
    Hydrated.v). Names of attributes and entity identifiers come from the
    resolver (eavt/resolver.go, Resolver.v), and unique values find their entity
    in the anchor index (anchor/anchor.go, Anchor.v). Old roots are collected by
    pagestore/gc.go (Gc.v). The datom engine (eavt/eavt.go, eavt/write.go;
    Engine.v) puts scans, writes, schema and caches together over the interface
    of KeyStore.v, which the key-value store keeps (KvEngine.v). Above it the
    query store (engine/write.go, QueryStore.v) saves and looks up values,
    transactions are interpreted (query/edn_tx.go, Tx.v), queries are read,
    planned from a snapshot of the schema and compiled to programs (datalog/;
    Datalog.v, Stats.v, Planner.v, SchemeCompile.v), and programs run in
    sessions (engine/engine.go, Session.v) on a small virtual machine
    (scheme/scheme.go; Ranges.v, Scheme.v) whose host functions
    (query/hostfns.go, HostFns.v) open scanners (query/scanner.go, Scanner.v) and
    join them.

    Four processes share this code. The transactor owns the store: it answers
    requests (transactor/server.go, Transactor.v), flushes and collects in a
    goroutine of its own (Runner.v), and streams the records of its log, its
    seals and its roots to subscribers (replication/replication.go,
    Replication.v). A query server keeps a read-only replica of the store
    (replica/replica.go, Replica.v) up to date over one multiplexed connection,
    which also carries the requests it forwards (downstream/downstream.go,
    Downstream.v), and runs queries on it; a front compiles queries and sends the
    programs to a query server (querysrv/, front/; Gateway.v). All of them speak
    in length-prefixed frames (Frames.v). A client (client/, Client.v) sends
    requests and reads rows for a shell (repl/repl.go, Repl.v) and for a bulk
    loader that turns tables into transactions (loader/receita.go, Loader.v).
    Instead of files the blobs may be objects of an S3 bucket (blobstore/s3.go,
    blobstore/sigv4.go, S3.v).

    Values and programs travel as MessagePack, s-expressions and EDN (msgpack/, Msgpack.v; sexpr/, Sexpr.v;
    scheme/txw.go, Txw.v; edn/, Edn.v; numfmt/, Numfmt.v).

    - Prelude.v: outcomes of Go code, machine integers, byte strings and their
      order, ascending lists, tactics and hints.
    - Msgpack.v, Sexpr.v, Keys.v, Pages.v, FlatLeaf.v, Journal.v: formats.
    - NewestWins.v: logs read newest first, shared by the memtable and its drains.
    - Memtable.v, Hydrated.v, PageCache.v, MinHeap.v, Anchor.v, Resolver.v:
      in-memory structures.
    - Cursors.v (class [Cursor] and its laws [CursorLaws]), MergedCursor.v,
      PageCursor.v, ActiveScan.v: reads.
    - BlobStore.v (class [BlobStore] and its laws [BlobLaws], discharged by the
      file backend), PageStore.v (definitions), PageTree.v, PageCommit.v
      (proofs), Gc.v: durable storage.
    - Wal.v, KvStore.v, KvSpec.v, KvScan.v: the store as a whole.
    - KeyStore.v (class [KeyStore] and its laws), Engine.v, EngineSpec.v,
      KvEngine.v: the datom engine, and the key-value store as what is below it.
    - Txw.v, QueryStore.v, QuerySpec.v: transactions on the wire, saves and
      lookups.
    - Edn.v, Numfmt.v, Float64.v, Sorting.v: texts, numbers and the library
      functions the rest uses.
    - Ranges.v, Scheme.v (class [HostFns]), SchemeSpec.v: the virtual machine.
    - Scanner.v, ScannerSpec.v, HostFns.v (class [EngineOps]), HostSpec.v: the
      scanners programs open and the functions they call.
    - Tx.v, TxLookup.v (the lookups of a transaction and whom they belong to),
      Session.v (the query store as an [EngineOps]), TxSpec.v: transactions and
      sessions.
    - Datalog.v (texts and statistics), Stats.v (the snapshot the engine keeps),
      Planner.v, PlannerSpec.v, SchemeCompile.v, CompileSpec.v, DatalogSpec.v:
      queries, from the text to the rows.
    - Frames.v, Replication.v, Replica.v, ReplicaSpec.v, Downstream.v, Runner.v,
      RunnerSpec.v, Transactor.v, Gateway.v: the processes and the connections between them.
    - S3.v (class [S3Laws], the documented service with its own definition of
      Signature Version 4; record [s3_configured], the configurations covered; and
      the backend as a second instance of [BlobLaws]), BlobJournal.v: the other blob
      stores.
    - Client.v, Texts.v, Loader.v (class [Txer]), Repl.v: the client and its tools.

    ** How the code is rendered

    A Go function is a Rocq function of the same name. A method that changes its
    receiver takes the state and returns the new one; a function that can fail
    returns [res]: a value, a returned error, a panic, or the exhaustion of the
    fuel a loop was given. Bytes and strings are lists of [Z]; machine integers
    are [Z] with the wrap-around written out ([u8], [u32], [u64], [i64]). Maps
    are [gmap]; where the code ranges over a Go map, its order is a parameter or
    the result does not depend on it. Locks do not appear: the order in which
    locked sections run is the order of operations in a run of a machine
    (Wal.v, KvSpec.v, Replication.v). Where goroutines meet over channels, each
    send, receive and turn of a goroutine is a step, and the theorems hold for
    every order of the steps (Downstream.v, Runner.v, Gateway.v). The page cursor keeps the state it has when an error
    occurs, because its caller goes on with it, and so is in a state-and-error
    monad (PageCursor.v).

    Evaluation keeps the state an error happened in as well, since writes made
    before it stay (Scheme.v, HostFns.v); a scanner that several iterators share
    is named by its place in the list of scanners.

    Parameters: the texts of error messages where only the presence of an error
    matters, and those of the status reports; the zstd codec (class [Zstd], law: decoding undoes encoding),
    the conversions of strconv between floats and decimals, the NaN of the
    machine and its conversions of floats out of range, and the clock and random
    identifiers, which are arguments; the digests, URLs and XML of the S3 backend
    and the service it talks to, whose documented behaviour is [S3Laws]; the
    quoting of JSON; the archives the loader reads. Any blob store that keeps
    [BlobLaws], the files and the bucket both, will do for the page store and what
    is above it.

    ** What is proved

    - Storage. The store is a machine whose steps are journalled writes, reads,
      the three phases of a flush, turns of the log and crashes that keep only
      blobs and segments; it refines the set of entries written (KvSpec.v), no
      state of it is stuck, a flush makes the log dispensable, and a scan
      returns the entries in order while trees have at most one index level, which
      is how far the page cursor reads (KvScan.v). The other write path, the one of
      the datom engine, which journals the first family only, is a step of the
      machine of the transactor (RunnerSpec.v). The parts have their own
      theorems: the memtable refines a pair of maps per family under any
      sequence of operations; a commit merges exactly and keeps old trees
      readable; collection keeps what the kept roots reach and nothing else; the
      log replays what it was given in spite of failing writes; the journal
      reader finds every record.
    - Reads. The merged cursor reads the ascending union of any lawful sources;
      page and run cursors are lawful; the newest-version filter keeps exactly
      the live assertions; a hydrated entity answers as that filter would.
    - Naming. The anchor index, with its tombstones, slot reuse, arena and
      evictions, refines a recency list with a byte budget while budget and keys stay
      below two gigabytes, and a hit is never stale; the resolver never gives out an
      identifier twice and keeps what was declared, with the conditions on what it
      is given stated.
    - The engine. In every state reached by its operations (with new versions
      written and new identifiers given out) an active scan gives the live datoms, with the cache or without it (EngineSpec.v), also over the
      key-value store with its flushes and crashes (KvEngine.v); saving a value
      replaces the live one (QuerySpec.v).
    - Queries. A scanner stands on the first live datom under its prefix from
      where it was sought, for any lawful cursor, and reads its fields as they
      were written (ScannerSpec.v); converged scanners agree (HostSpec.v); the
      loop of a compiled query yields the values of its iterator, batches compose
      and fuel does not matter (SchemeSpec.v); the intervals of a condition with its
      equality first, or of a list of admitted values, hold exactly the values that
      meet it (Ranges.v); the EDN reader reads a grammar written without it (Edn.v).
    - Compilation. The planner's branch-and-bound search accounts for every
      order of the variables it may take and chooses one whose cost none of them
      undercuts (PlannerSpec.v); a compiled program undoes every prefix it pushes
      on a scanner, on every path (CompileSpec.v); schema snapshots survive the
      wire, and whole programs are checked against the texts of the repository's
      golden vectors (DatalogSpec.v).
    - Transactions. An accepted transaction is written with its tempids and
      references resolved: a tempid to the entity of the report, a reference that is the
      only lookup of its operation to the entity its own unique value finds; a refused
      transaction that declares no attribute writes nothing (TxSpec.v).
    - Replication. Whatever the order of records, responses, seals, roots, pumps
      and failing writes, what a subscriber receives is a prefix of what the hub
      was told, in its order, with every response after the records of its request
      (Replication.v); the link hands the events on in the order it heard them and
      each response to the request it answers (Downstream.v), and the two compose
      (Gateway.v). A replica that gets records, seals and roots in the order they are
      made holds what it was sent, and all the transactor wrote where the two agree
      on the attributes; a record that overtakes a seal is lost (ReplicaSpec.v).
    - The processes. Every request of the transactor is answered under its id or
      the ways in which it is not are stated, and a schema reply reads back as the
      snapshot built (Transactor.v); a flush and a collection never overlap
      (Runner.v), the store under the engine and its runner loses no entry that was
      logged, in spite of crashes, and the runner serves what was asked of it in a bounded number of
      steps (RunnerSpec.v); a query through the front gives the rows the query server gives
      for the text (Gateway.v).
    - Blobs in a bucket. Over a service that keeps [S3Laws] the S3 backend keeps the
      laws of a blob store: its requests carry the authorization the documentation
      defines for them, keys are escaped so that the service reads them back, and a
      listing is whole however it is broken into pages (S3.v).
    - The tools. The client reads the rows of a dump and the batches of the query
      server, whole and in order, and stands at the next response (Client.v); the loader sends only batches that
      conform to its schema and refer to nothing outside themselves (Loader.v); a
      statement over several lines runs once, when it is complete (Repl.v).
    - Formats. Keys order as the values they encode; pages, roots, journal
      records, MessagePack and s-expressions read back what was written; the
      decoders terminate without panics on any input, or the inputs on which
      they do not are stated.
    - Where the code does not do what it means to, a theorem or a worked example
      states what it does: page counts that wrap, a retention limit in the wrong
      unit, a collection that loses pages below a damaged index page, a page
      cursor that cannot leave a leaf below two index levels, fields of VAET
      keys read four bytes off, torn records read as entries, attributes that
      lose what was written before they were declared, a save that loses the value
      it repeats, joins that give up, disjunctions that stop early, booleans that
      all read as true, assignments that decide the form around them,
      operations whose two references become one entity, and joins whose inner
      loop finds nothing the second time; replicas that lose a record which comes
      before a seal it does not belong to, a link that a failed relay stops for good, acknowledgements that
      overtake the writes they acknowledge, requests with an id of their own that
      are never answered, and requests for a family that is not there; a client
      that stops in the middle of a response, and a shell that an empty line stops.

    ** Bounds and fuel

    Loops over a buffer or a list recurse on it, or on fuel that a lemma shows
    to be enough: the length of the data for parsers (every turn consumes a
    byte), the number of keys still to be read for the merged cursor, the number
    of levels for trees. A theorem about such a loop says that it returns. The
    log's drain needs two turns, one up to the seal and one after it. Page keys
    have between 9 and 65535 bytes (shorter ones let a 16-bit count wrap),
    column families of datoms are 0 to 3, and trees stay below 256 levels, which
    follows from a bound on the number of keys.

    ** Not modelled

    The file system beyond the contents of files (opening and removing never
    fail), fsync and loss of a machine's page cache, sockets below frames
    (dialling, deadlines and reconnection are steps that happen or do not), timers
    except as steps, logging, counters and the reports made of them, the terminal
    of the shell, what the loader prints and its closing probe, negative batch
    sizes and limits of the loader, and the entry points of the programs. What
    print and dbg-scanners write is left out. *)

From stdpp Require Export base list numbers gmap sorting strings.
From Stdlib Require Export Lia ZifyBool.

#[global] Set Default Goal Selector "!".
#[global] Open Scope Z_scope.

(** A Go [byte] is a [Z] in [0, 256); a Go [[]byte] and a Go [string] are
    their byte sequence. *)
Abbreviation bytes := (list Z).

(** The bytes of an ASCII literal. *)
Definition bs (s : string) : bytes :=
  map (fun c => Z.of_N (Ascii.N_of_ascii c)) (String.list_ascii_of_string s).

(** ** Outcomes of Go code *)

(** [Err] is a returned error, [Panic] a run-time panic, [Diverge] the outcome
    of a loop that ran out of the fuel it was given. *)
Inductive res (A : Type) : Type :=
| Ok (a : A)
| Err (msg : string)
| Panic
| Diverge.
Arguments Ok {A} a.
Arguments Err {A} msg.
Arguments Panic {A}.
Arguments Diverge {A}.

#[export] Instance res_ret : MRet res := fun A a => Ok a.
#[export] Instance res_bind : MBind res := fun A B f m =>
  match m with
  | Ok a => f a
  | Err e => Err e
  | Panic => Panic
  | Diverge => Diverge
  end.

(** A blob-store or page operation gives no value: errors of the source are
    first-class, so a caller can be proved to pass them on unchanged. *)
Lemma res_bind_Ok {A B} (f : A → res B) (m : res A) b :
  m ≫= f = Ok b ↔ ∃ a, m = Ok a ∧ f a = Ok b.
Proof.
  destruct m; simpl; split; try (by intros (?&?&?)); try done; eauto.
  intros (?&[= ->]&?); done.
Qed.

(** Stepping with a lemma keeps the kernel from comparing the two binds. *)
Lemma res_bind_ret {A B} (f : A → res B) a : Ok a ≫= f = f a.
Proof. reflexivity. Qed.

(** A loop that stops at the first failure. *)
Fixpoint foldRes {A X} (f : A → X → res A) (l : list X) (a : A) : res A :=
  match l with
  | [] => Ok a
  | x :: l' => a ← f a x; foldRes f l' a
  end.

Definition res_map {A B} (f : A → B) (m : res A) : res B :=
  a ← m; Ok (f a).

(** ** Machine integers *)

Definition u8 (z : Z) : Z := z `mod` 256.
Definition u16 (z : Z) : Z := z `mod` 2 ^ 16.
Definition u32 (z : Z) : Z := z `mod` 2 ^ 32.
Definition u64 (z : Z) : Z := z `mod` 2 ^ 64.
Definition i64 (z : Z) : Z := (z + 2 ^ 63) `mod` 2 ^ 64 - 2 ^ 63.
Definition i32 (z : Z) : Z := (z + 2 ^ 31) `mod` 2 ^ 32 - 2 ^ 31.
Definition i16 (z : Z) : Z := (z + 2 ^ 15) `mod` 2 ^ 16 - 2 ^ 15.
Definition i8 (z : Z) : Z := (z + 2 ^ 7) `mod` 2 ^ 8 - 2 ^ 7.

Definition is_u8 (z : Z) : Prop := 0 ≤ z < 256.
Definition is_u32 (z : Z) : Prop := 0 ≤ z < 2 ^ 32.
Definition is_u64 (z : Z) : Prop := 0 ≤ z < 2 ^ 64.
Definition is_i64 (z : Z) : Prop := - 2 ^ 63 ≤ z < 2 ^ 63.
Definition bytes_ok (b : bytes) : Prop := Forall is_u8 b.

(** Powers of two the arithmetic lemmas below keep folded. *)
Ltac unfold_ints :=
  unfold u8, u16, u32, u64, i64, i32, i16, i8, is_u8, is_u32, is_u64, is_i64 in *.

(** [lia] with quotients and remainders by constants. *)
Ltac mlia := unfold_ints; Z.to_euclidean_division_equations; lia.

Lemma u64_small z : is_u64 z → u64 z = z.
Proof. unfold_ints. intros. by apply Z.mod_small. Qed.

Lemma i64_small z : is_i64 z → i64 z = z.
Proof. unfold_ints. intros. rewrite Z.mod_small; lia. Qed.

Lemma u64_range z : is_u64 (u64 z).
Proof. unfold_ints. apply Z.mod_pos_bound. lia. Qed.

Lemma i64_range z : is_i64 (i64 z).
Proof. unfold_ints. pose proof (Z.mod_pos_bound (z + 2 ^ 63) (2 ^ 64)). lia. Qed.

Lemma u64_i64 z : i64 (u64 z) = i64 z.
Proof.
  unfold_ints. f_equal. by rewrite Z.add_mod_idemp_l.
Qed.

Lemma i64_u64 z : is_i64 z → i64 (u64 z) = z.
Proof. intros. by rewrite u64_i64, i64_small. Qed.

Lemma u64_eq z : is_i64 z → u64 z = if bool_decide (0 ≤ z) then z else z + 2 ^ 64.
Proof.
  unfold_ints. intros. case_bool_decide.
  - apply Z.mod_small. lia.
  - symmetry. apply Z.mod_unique with (-1); lia.
Qed.

(** Writing low bits under high ones, and masking them off. *)
Lemma lor_low a n k : 0 ≤ k → 0 ≤ n < 2 ^ k → Z.lor (a * 2 ^ k) n = a * 2 ^ k + n.
Proof.
  intros Hk Hn. rewrite <- Z.shiftl_mul_pow2 by done.
  assert (Z.land (Z.shiftl a k) n = 0) as H0.
  { apply Z.bits_inj'. intros i Hi. rewrite Z.land_spec, Z.bits_0, Z.shiftl_spec by done.
    destruct (decide (i < k)); [by rewrite Z.testbit_neg_r by lia|].
    rewrite <- (Z.mod_small n (2 ^ k)) by done.
    rewrite Z.mod_pow2_bits_high by lia. apply andb_false_r. }
  rewrite <- Z.lxor_lor, <- Z.add_nocarry_lxor by done. done.
Qed.

Lemma land_low a n k m :
  0 ≤ k → 0 ≤ n < 2 ^ k → m = 2 ^ k - 1 → Z.land (a * 2 ^ k + n) m = n.
Proof.
  intros Hk Hn ->. replace (2 ^ k - 1) with (Z.ones k) by (rewrite Z.ones_equiv; lia).
  rewrite Z.land_ones, Z.add_comm, Z.mod_add, Z.mod_small; lia.
Qed.

(** ** Big-endian integers (encoding/binary.BigEndian) *)

(** [be_put n v]: the [n] low bytes of [v], most significant first. *)
Fixpoint be_put (n : nat) (v : Z) : bytes :=
  match n with
  | O => []
  | S k => (v / 2 ^ (8 * Z.of_nat k)) `mod` 256 :: be_put k v
  end.

Definition be_get (b : bytes) : Z := fold_left (fun v x => 256 * v + x) b 0.

Lemma length_be_put n v : length (be_put n v) = n.
Proof. induction n; simpl; auto. Qed.

Lemma be_put_ok n v : bytes_ok (be_put n v).
Proof.
  induction n; simpl; constructor; auto. by apply Z.mod_pos_bound.
Qed.

Lemma be_get_acc b a :
  fold_left (fun v x => 256 * v + x) b a = a * 2 ^ (8 * Z.of_nat (length b)) + be_get b.
Proof.
  unfold be_get. revert a. induction b as [|x b IH]; intros a; simpl fold_left.
  - simpl. lia.
  - rewrite IH, (IH (256 * 0 + x)). cbn [length].
    replace (8 * Z.of_nat (S (length b))) with (8 + 8 * Z.of_nat (length b)) by lia.
    rewrite Z.pow_add_r by lia. change (2 ^ 8) with 256. ring.
Qed.

Lemma be_get_cons x b : be_get (x :: b) = x * 2 ^ (8 * Z.of_nat (length b)) + be_get b.
Proof. unfold be_get at 1. simpl fold_left. rewrite be_get_acc. f_equal. Qed.

Lemma be_get_bound b : bytes_ok b → 0 ≤ be_get b < 2 ^ (8 * Z.of_nat (length b)).
Proof.
  induction 1 as [|x b Hx Hb IH]; [done|].
  rewrite be_get_cons. cbn [length]. unfold is_u8 in Hx.
  replace (8 * Z.of_nat (S (length b))) with (8 + 8 * Z.of_nat (length b)) by lia.
  rewrite Z.pow_add_r by lia. change (2 ^ 8) with 256. nia.
Qed.

Lemma be_get_put n v : be_get (be_put n v) = v `mod` 2 ^ (8 * Z.of_nat n).
Proof.
  induction n as [|n IH]; [simpl; by rewrite Z.mod_1_r|].
  cbn [be_put]. rewrite be_get_cons, length_be_put, IH.
  set (p := 2 ^ (8 * Z.of_nat n)). assert (0 < p) by (apply Z.pow_pos_nonneg; lia).
  replace (8 * Z.of_nat (S n)) with (8 * Z.of_nat n + 8) by lia.
  rewrite Z.pow_add_r by lia. fold p. change (2 ^ 8) with 256.
  rewrite Z.rem_mul_r by lia. lia.
Qed.

Lemma be_put_get b : bytes_ok b → be_put (length b) (be_get b) = b.
Proof.
  intros Hok. assert (∀ h, be_put (length b) (h * 2 ^ (8 * Z.of_nat (length b)) + be_get b) = b) as G.
  { induction Hok as [|x b Hx Hb IH]; intros h; [done|].
    rewrite be_get_cons. cbn [length be_put].
    pose proof (be_get_bound b Hb) as Hbd. unfold is_u8 in Hx.
    set (p := 2 ^ (8 * Z.of_nat (length b))) in *.
    replace (8 * Z.of_nat (S (length b))) with (8 * Z.of_nat (length b) + 8) by lia.
    rewrite Z.pow_add_r by lia. fold p. change (2 ^ 8) with 256. f_equal.
    - replace (h * (p * 256) + (x * p + be_get b)) with ((h * 256 + x) * p + be_get b) by ring.
      rewrite Z.div_add_l, Z.div_small, Z.add_0_r by lia.
      rewrite Z.add_comm, Z.mod_add, Z.mod_small; lia.
    - replace (h * (p * 256) + (x * p + be_get b)) with ((h * 256 + x) * p + be_get b) by ring.
      apply IH. }
  by apply (G 0).
Qed.

Lemma be_put_mod n v : be_put n (v `mod` 2 ^ (8 * Z.of_nat n)) = be_put n v.
Proof.
  rewrite <- be_get_put. pose proof (be_put_get (be_put n v) (be_put_ok n v)) as H.
  by rewrite length_be_put in H.
Qed.

(** Bytes assembled and taken apart with shifts. *)
Lemma be_put_shift2 n : [u8 (Z.shiftr n 8); u8 n] = be_put 2 n.
Proof.
  cbn [be_put]. rewrite Z.shiftr_div_pow2 by lia. unfold u8. simpl. by rewrite Z.div_1_r.
Qed.

Lemma be_put_shift4 n :
  [u8 (Z.shiftr n 24); u8 (Z.shiftr n 16); u8 (Z.shiftr n 8); u8 n] = be_put 4 n.
Proof.
  cbn [be_put]. rewrite !Z.shiftr_div_pow2 by lia. unfold u8. simpl. by rewrite Z.div_1_r.
Qed.

Lemma lor_bytes2 r1 r2 : 0 ≤ r2 < 256 → Z.lor (Z.shiftl r1 8) r2 = r1 * 256 + r2.
Proof. intros. rewrite Z.shiftl_mul_pow2 by lia. by rewrite (lor_low r1 r2 8) by lia. Qed.

Lemma lor_bytes4 r1 r2 r3 r4 :
  0 ≤ r2 < 256 → 0 ≤ r3 < 256 → 0 ≤ r4 < 256 →
  Z.lor (Z.lor (Z.lor (Z.shiftl r1 24) (Z.shiftl r2 16)) (Z.shiftl r3 8)) r4
  = ((r1 * 256 + r2) * 256 + r3) * 256 + r4.
Proof.
  intros. rewrite !Z.shiftl_mul_pow2 by lia.
  rewrite (lor_low r1 (r2 * 2 ^ 16) 24) by lia.
  replace (r1 * 2 ^ 24 + r2 * 2 ^ 16) with ((r1 * 256 + r2) * 2 ^ 16) by lia.
  rewrite (lor_low _ (r3 * 2 ^ 8) 16) by lia.
  replace ((r1 * 256 + r2) * 2 ^ 16 + r3 * 2 ^ 8) with (((r1 * 256 + r2) * 256 + r3) * 2 ^ 8) by lia.
  by rewrite (lor_low _ r4 8) by lia.
Qed.

(** ** Lexicographic order on byte strings *)

Fixpoint bcmp (a b : bytes) : comparison :=
  match a, b with
  | [], [] => Eq
  | [], _ :: _ => Lt
  | _ :: _, [] => Gt
  | x :: a', y :: b' =>
      match x ?= y with Eq => bcmp a' b' | c => c end
  end.

Definition blt (a b : bytes) : Prop := bcmp a b = Lt.
Definition ble (a b : bytes) : Prop := bcmp a b ≠ Gt.

Declare Scope bytes_scope.
Delimit Scope bytes_scope with B.
Notation "a <b b" := (blt a b) (at level 70) : bytes_scope.
Notation "a <=b b" := (ble a b) (at level 70) : bytes_scope.
#[global] Open Scope bytes_scope.

#[export] Instance blt_dec : RelDecision blt.
Proof. intros a b. unfold blt. solve_decision. Defined.
#[export] Instance ble_dec : RelDecision ble.
Proof. intros a b. unfold ble. solve_decision. Defined.

Lemma bcmp_refl a : bcmp a a = Eq.
Proof. induction a; simpl; [done|]. by rewrite Z.compare_refl. Qed.

Lemma bcmp_Eq a b : bcmp a b = Eq ↔ a = b.
Proof.
  split; [|intros ->; apply bcmp_refl]. revert b.
  induction a as [|x a IH]; intros [|y b]; simpl; try done.
  destruct (x ?= y) eqn:E; try done. apply Z.compare_eq in E. intros ?%IH. congruence.
Qed.

Lemma bcmp_opp a b : bcmp b a = CompOpp (bcmp a b).
Proof.
  revert b. induction a as [|x a IH]; intros [|y b]; simpl; try done.
  rewrite (Z.compare_antisym x y). destruct (x ?= y); simpl; auto.
Qed.

Lemma blt_trans a b c : a <b b → b <b c → a <b c.
Proof.
  unfold blt. revert b c. induction a as [|x a IH]; intros [|y b] [|z c]; simpl; try done.
  destruct (Z.compare_spec x y), (Z.compare_spec y z), (Z.compare_spec x z);
    subst; try done; try lia; eauto.
Qed.

#[export] Instance blt_strict : StrictOrder blt.
Proof.
  split.
  - intros a. unfold complement, blt. by rewrite bcmp_refl.
  - intros a b c. apply blt_trans.
Qed.

Lemma ble_lt_eq a b : a <=b b ↔ a <b b ∨ a = b.
Proof.
  unfold ble, blt. rewrite <- bcmp_Eq. destruct (bcmp a b); intuition congruence.
Qed.

Lemma blt_not_le a b : a <b b ↔ ¬ b <=b a.
Proof.
  unfold ble, blt. rewrite (bcmp_opp a b). destruct (bcmp a b); simpl; naive_solver.
Qed.

Lemma ble_not_lt a b : a <=b b ↔ ¬ b <b a.
Proof.
  unfold ble, blt. rewrite (bcmp_opp a b). destruct (bcmp a b); simpl; naive_solver.
Qed.

Lemma blt_le a b : a <b b → a <=b b.
Proof. rewrite ble_lt_eq. auto. Qed.

Lemma ble_refl a : a <=b a.
Proof. apply ble_lt_eq. auto. Qed.

Lemma ble_lt_trans a b c : a <=b b → b <b c → a <b c.
Proof. rewrite ble_lt_eq. intros [?| ->]; [by apply blt_trans|done]. Qed.

Lemma blt_le_trans a b c : a <b b → b <=b c → a <b c.
Proof. rewrite ble_lt_eq. intros ? [?| <-]; [by eapply blt_trans|done]. Qed.

Lemma ble_trans a b c : a <=b b → b <=b c → a <=b c.
Proof. rewrite !ble_lt_eq. intros [?| ->] [?| <-]; eauto using blt_trans. Qed.

#[export] Instance ble_preorder : PreOrder ble.
Proof. split; [exact ble_refl|exact ble_trans]. Qed.

#[export] Instance ble_antisymm : AntiSymm (=) ble.
Proof.
  intros a b. rewrite !ble_lt_eq. intros [H|H] [H'|H']; auto.
  pose proof (blt_trans _ _ _ H H') as Habs. unfold blt in Habs. by rewrite bcmp_refl in Habs.
Qed.

Lemma ble_total a b : a <=b b ∨ b <b a.
Proof. destruct (decide (b <b a)); [auto|]. left. by apply ble_not_lt. Qed.

Lemma blt_irrefl a : ¬ a <b a.
Proof. unfold blt. by rewrite bcmp_refl. Qed.

Lemma blt_ne a b : a <b b → a ≠ b.
Proof. intros H ->. by apply blt_irrefl in H. Qed.

Lemma bcmp_app_same p a b : bcmp (p ++ a) (p ++ b) = bcmp a b.
Proof. induction p; simpl; [done|]. by rewrite Z.compare_refl. Qed.

(** Two strings of one length that differ decide the comparison. *)
Lemma bcmp_app_ne a b x y :
  length a = length b → a ≠ b → bcmp (a ++ x) (b ++ y) = bcmp a b.
Proof.
  revert b. induction a as [|h a IH]; intros [|k b]; simpl; try done.
  intros Hl Hne. destruct (h ?= k) eqn:E; try done.
  apply Z.compare_eq in E as ->. apply IH; [lia|congruence].
Qed.

Lemma ble_prefix p a : p <=b (p ++ a).
Proof.
  unfold ble. rewrite <- (app_nil_r p) at 1. rewrite bcmp_app_same. by destruct a.
Qed.

(** Big-endian encodings of one width order as the integers do. *)
Lemma bcmp_be_put n a b :
  0 ≤ a < 2 ^ (8 * Z.of_nat n) → 0 ≤ b < 2 ^ (8 * Z.of_nat n) →
  bcmp (be_put n a) (be_put n b) = (a ?= b).
Proof.
  revert a b. induction n as [|n IH]; intros a b Ha Hb.
  - simpl in *. by replace a with b by lia; rewrite Z.compare_refl.
  - cbn [be_put bcmp]. set (p := 2 ^ (8 * Z.of_nat n)) in *.
    assert (0 < p) by (apply Z.pow_pos_nonneg; lia).
    replace (8 * Z.of_nat (S n)) with (8 * Z.of_nat n + 8) in Ha, Hb by lia.
    rewrite Z.pow_add_r in Ha, Hb by lia. fold p in Ha, Hb. change (2 ^ 8) with 256 in *.
    rewrite <- (be_put_mod n a), <- (be_put_mod n b). fold p.
    rewrite IH by (apply Z.mod_pos_bound; lia).
    pose proof (Z.div_mod a p) as Ea. pose proof (Z.div_mod b p) as Eb.
    pose proof (Z.mod_pos_bound a p) as Ma. pose proof (Z.mod_pos_bound b p) as Mb.
    rewrite !(Z.mod_small (_ / p) 256) by (split; [apply Z.div_pos; lia|apply Z.div_lt_upper_bound; lia]).
    destruct (Z.compare_spec (a / p) (b / p)) as [E|E|E];
      destruct (Z.compare_spec (a `mod` p) (b `mod` p)) as [F|F|F];
      destruct (Z.compare_spec a b); try done; nia.
Qed.

(** ** Binary search

    The source writes one loop many times:
    [for lo < hi { mid := (lo+hi)>>1; if p(mid) { lo = mid+1 } else { hi = mid } }]. *)
Fixpoint bsearch_loop (fuel : nat) (p : nat → bool) (lo hi : nat) : nat :=
  match fuel with
  | O => lo
  | S fuel' =>
      if Nat.ltb lo hi then
        let mid := Nat.div2 (lo + hi) in
        if p mid then bsearch_loop fuel' p (S mid) hi
        else bsearch_loop fuel' p lo mid
      else lo
  end.

(** The window halves at each turn, so [n] turns are enough for [n] slots. *)
Definition bsearch (p : nat → bool) (n : nat) : nat := bsearch_loop n p 0 n.

Definition downward (p : nat → bool) (n : nat) : Prop :=
  ∀ i j : nat, (i ≤ j)%nat → (j < n)%nat → p j = true → p i = true.

Lemma bsearch_loop_spec fuel p n lo hi :
  downward p n → (lo ≤ hi ≤ n)%nat → (hi - lo ≤ fuel)%nat →
  (∀ i, (i < lo)%nat → p i = true) → (∀ i, (hi ≤ i < n)%nat → p i = false) →
  (lo ≤ bsearch_loop fuel p lo hi ≤ hi)%nat
  ∧ (∀ i, (i < bsearch_loop fuel p lo hi)%nat → p i = true)
  ∧ (∀ i, (bsearch_loop fuel p lo hi ≤ i < n)%nat → p i = false).
Proof.
  intros Hd. revert lo hi. induction fuel as [|fuel IH]; intros lo hi Hle Hf Hlo Hhi; simpl.
  - split_and!; [lia|lia|auto|]. intros i Hi. apply Hhi. lia.
  - destruct (Nat.ltb_spec lo hi) as [Hlt|Hge].
    2:{ split_and!; [lia|lia|auto|]. intros i Hi. apply Hhi. lia. }
    pose proof (Nat.div2_odd (lo + hi)) as Hm.
    assert (lo ≤ Nat.div2 (lo + hi) < hi)%nat as Hmid by (destruct (Nat.odd (lo + hi)); simpl in *; lia).
    destruct (p (Nat.div2 (lo + hi))) eqn:E.
    + assert (∀ i, (i < S (Nat.div2 (lo + hi)))%nat → p i = true) as Hlo'.
      { intros i Hi. apply (Hd i (Nat.div2 (lo + hi))); [lia|lia|done]. }
      destruct (IH (S (Nat.div2 (lo + hi))) hi ltac:(lia) ltac:(lia) Hlo' Hhi) as (?&?&?).
      split_and!; [lia|lia|auto|auto].
    + assert (∀ i, (Nat.div2 (lo + hi) ≤ i < n)%nat → p i = false) as Hhi'.
      { intros i Hi. destruct (p i) eqn:F; [|done].
        rewrite (Hd (Nat.div2 (lo + hi)) i) in E; [done|lia|lia|done]. }
      destruct (IH lo (Nat.div2 (lo + hi)) ltac:(lia) ltac:(lia) Hlo Hhi') as (?&?&?).
      split_and!; [lia|lia|auto|auto].
Qed.

Lemma bsearch_spec p n :
  downward p n →
  (bsearch p n ≤ n)%nat
  ∧ (∀ i, (i < bsearch p n)%nat → p i = true)
  ∧ (∀ i, (bsearch p n ≤ i < n)%nat → p i = false).
Proof.
  intros Hd. unfold bsearch.
  destruct (bsearch_loop_spec n p n 0 n Hd) as (?&?&?);
    [lia|lia|intros; lia|intros; lia|]. split_and!; [lia|auto|auto].
Qed.

Lemma bsearch_unique p n r :
  downward p n → (r ≤ n)%nat →
  (∀ i, (i < r)%nat → p i = true) → (∀ i, (r ≤ i < n)%nat → p i = false) →
  bsearch p n = r.
Proof.
  intros Hd Hr Ht Hf. destruct (bsearch_spec p n Hd) as (Hb&Ht'&Hf').
  destruct (Nat.lt_trichotomy (bsearch p n) r) as [H|[H|H]]; [|done|].
  - specialize (Ht (bsearch p n) H). rewrite (Hf' (bsearch p n)) in Ht; [done|lia].
  - specialize (Ht' r H). rewrite (Hf r) in Ht'; [done|lia].
Qed.

(** ** Slices *)

(** Go's [data[lo:hi]]: a panic unless [0 <= lo <= hi <= len(data)]. *)
Definition slice {A} (data : list A) (lo hi : Z) : res (list A) :=
  if bool_decide (0 ≤ lo ∧ lo ≤ hi ∧ hi ≤ Z.of_nat (length data)) then
    Ok (take (Z.to_nat (hi - lo)) (drop (Z.to_nat lo) data))
  else Panic.

Lemma slice_app {A} (pre mid post : list A) lo hi :
  lo = Z.of_nat (length pre) → hi = lo + Z.of_nat (length mid) →
  slice (pre ++ mid ++ post) lo hi = Ok mid.
Proof.
  intros -> ->. unfold slice. rewrite bool_decide_true by (rewrite !length_app; lia).
  rewrite Nat2Z.id, drop_app_length. f_equal.
  replace (Z.to_nat _) with (length mid) by lia. by rewrite take_app_length.
Qed.

Lemma drop_nonnil {A} n (l : list A) : (n < length l)%nat → drop n l ≠ [].
Proof. intros Hl Habs. apply (f_equal length) in Habs. rewrite length_drop in Habs. simpl in Habs. lia. Qed.

(** [strings.HasPrefix] / [bytes.HasPrefix]. *)
Definition has_prefix (k p : bytes) : bool := bool_decide (take (length p) k = p).

Lemma has_prefix_spec k p : has_prefix k p = true ↔ ∃ s, k = p ++ s.
Proof.
  unfold has_prefix. rewrite bool_decide_eq_true. split.
  - intros H. exists (drop (length p) k). by rewrite <- H at 1; rewrite take_drop.
  - intros [s ->]. by rewrite take_app_length.
Qed.

(** Between a prefix and one of its extensions, every string has the prefix. *)
Lemma has_prefix_between p k k' : p <=b k → k <=b k' → has_prefix k' p = true → has_prefix k p = true.
Proof.
  intros H1 H2 [s ->]%has_prefix_spec. apply has_prefix_spec. revert k H1 H2.
  induction p as [|x p IH]; intros k H1 H2; [by exists k|]. destruct k as [|y k]; [done|].
  unfold ble in H1, H2. cbn [app bcmp] in H1, H2. rewrite Z.compare_antisym in H2.
  destruct (Z.compare_spec x y) as [<-|?|?]; cbn [CompOpp] in H2; [|done..].
  destruct (IH k H1 H2) as [s' ->]. by exists s'.
Qed.

(** ** Filters *)

Lemma elem_of_concat {A} (ls : list (list A)) x : x ∈ concat ls ↔ ∃ i l, ls !! i = Some l ∧ x ∈ l.
Proof.
  rewrite list_elem_of_In, in_concat. split.
  - intros (l&Hl&Hx). apply list_elem_of_In in Hl, Hx. apply list_elem_of_lookup in Hl as [i Hi]. eauto.
  - intros (i&l&Hl&Hx). exists l. split; apply list_elem_of_In; [by eapply list_elem_of_lookup_2|done].
Qed.

Lemma filter_all {A} (P : A → Prop) `{!∀ x, Decision (P x)} l : Forall P l → filter P l = l.
Proof. induction 1; [done|]. rewrite filter_cons_True by done. by f_equal. Qed.

Lemma filter_none {A} (P : A → Prop) `{!∀ x, Decision (P x)} l : Forall (fun x => ¬ P x) l → filter P l = [].
Proof. induction 1; [done|]. by rewrite filter_cons_False. Qed.

Lemma Forall_filter_keep {A} (P Q : A → Prop) `{!∀ x, Decision (P x)} l : Forall Q l → Forall Q (filter P l).
Proof. rewrite !Forall_forall. intros HQ x [_ ?]%list_elem_of_filter. by apply HQ. Qed.

Lemma Forall_filter_all {A} (P : A → Prop) `{!∀ x, Decision (P x)} l : Forall P (filter P l).
Proof. apply Forall_forall. by intros x [? _]%list_elem_of_filter. Qed.

Lemma StronglySorted_filter {A} (R : relation A) (P : A → Prop) `{!∀ x, Decision (P x)} l :
  StronglySorted R l → StronglySorted R (filter P l).
Proof.
  induction 1 as [|p l Hl IH Hp]; [constructor|]. rewrite filter_cons. case_decide; [|done].
  constructor; [done|]. by apply Forall_filter_keep.
Qed.

(** ** Strictly ascending key lists *)

Definition ascending (l : list bytes) : Prop := StronglySorted blt l.

Lemma ascending_cons k l : ascending (k :: l) ↔ Forall (blt k) l ∧ ascending l.
Proof. apply StronglySorted_cons. Qed.

(** A strictly ascending list is determined by its elements. *)
Lemma ascending_app l1 l2 :
  ascending (l1 ++ l2) ↔ ascending l1 ∧ ascending l2 ∧ ∀ a b, a ∈ l1 → b ∈ l2 → a <b b.
Proof.
  induction l1 as [|k l1 IH]; cbn [app].
  - split; [|naive_solver]. intros H. split_and!; [constructor|done|]. by intros a b Ha%not_elem_of_nil.
  - rewrite !ascending_cons, Forall_app, IH, !Forall_forall. setoid_rewrite elem_of_cons. naive_solver.
Qed.

Lemma ascending_ext l1 l2 :
  ascending l1 → ascending l2 → (∀ k, k ∈ l1 ↔ k ∈ l2) → l1 = l2.
Proof.
  unfold ascending. revert l2. induction l1 as [|a l1 IH]; intros [|b l2] H1 H2 Hiff.
  - done.
  - exfalso. assert (b ∈ []) as Hb by (apply Hiff; left). inversion Hb.
  - exfalso. assert (a ∈ []) as Ha by (apply Hiff; left). inversion Ha.
  - apply StronglySorted_cons in H1 as [F1 S1]. apply StronglySorted_cons in H2 as [F2 S2].
    rewrite Forall_forall in F1, F2.
    assert (a = b) as ->.
    { assert (a ∈ b :: l2) as Ha by (apply Hiff; left).
      assert (b ∈ a :: l1) as Hb by (apply Hiff; left).
      apply elem_of_cons in Ha as [?|Ha]; [done|].
      apply elem_of_cons in Hb as [?|Hb]; [done|].
      exfalso. apply (blt_irrefl a). eapply blt_trans; eauto. }
    f_equal. apply IH; [done..|]. intros k. specialize (Hiff k).
    rewrite !elem_of_cons in Hiff. split; intros Hk.
    + destruct (proj1 Hiff) as [->|?]; auto. exfalso. by apply (blt_irrefl b), F1.
    + destruct (proj2 Hiff) as [->|?]; auto. exfalso. by apply (blt_irrefl b), F2.
Qed.

Lemma ascending_NoDup l : ascending l → NoDup l.
Proof.
  induction 1 as [|k l Hl IH Hk]; constructor; auto.
  intros Hin. rewrite Forall_forall in Hk. by apply (blt_irrefl k), Hk.
Qed.

Lemma ascending_lookup l i j ki kj :
  ascending l → (i < j)%nat → l !! i = Some ki → l !! j = Some kj → ki <b kj.
Proof.
  intros Hs. revert i j. induction Hs as [|k l Hl IH Hk]; intros [|i] [|j] Hij; simpl; try done; try lia.
  - intros [= <-] Hj. rewrite Forall_forall in Hk. apply Hk. by eapply list_elem_of_lookup_2.
  - intros ??. eapply (IH i j); [lia|done|done].
Qed.

Lemma ascending_sublist l1 l2 : l1 `sublist_of` l2 → ascending l2 → ascending l1.
Proof.
  induction 1 as [|k l1 l2 Hs IH|k l1 l2 Hs IH]; [done| |].
  - intros [Hk Hl]%ascending_cons. apply ascending_cons. split; [|by apply IH].
    rewrite Forall_forall in *. intros x Hx. apply Hk. by eapply elem_of_sublist.
  - intros [_ Hl]%ascending_cons. by apply IH.
Qed.

(** ** Hints *)

Create HintDb eavt.
Create Rewrite HintDb eavt.
#[export] Hint Resolve u64_range i64_range be_put_ok ble_refl blt_le blt_trans : eavt.
#[export] Hint Rewrite @length_app @length_be_put : eavt.
