(* ===== verification/Msgpack.v ===== *)
(** * MessagePack (go/internal/msgpack)

    The value tree, the encoder, the fail-loud decoder and the zero-copy map
    helpers of msgpack.go and scan.go.  The encoder's growing buffer is the
    byte string it holds; the decoder is the record of its three fields. *)

From S2P Require Import Prelude.

Definition ExtSymbol : Z := 5.
Definition ExtKeyword : Z := 6.

(** [Float] holds the IEEE-754 bit pattern of the [float64]. *)
Inductive value : Type :=
| Nil
| Bool (b : bool)
| Int (z : Z)
| Float (bits : Z)
| Str (s : bytes)
| Bin (b : bytes)
| Array (l : list value)
| Map (m : list (value * value))
| Ext (ty : Z) (data : bytes)
| Raw (b : bytes).

(** ** Encoding *)
Module Encoder.

Definition be16 (v : Z) : bytes := be_put 2 v.
Definition be32 (v : Z) : bytes := be_put 4 v.
Definition be64 (v : Z) : bytes := be_put 8 v.

Definition encodeInt (v : Z) : bytes :=
  if (0 <=? v) && (v <=? 0x7f) then [u8 v]
  else if (v <? 0) && (-32 <=? v) then [u8 (i8 v)]
  else if (0 <=? v) && (v <=? 0xff) then 0xcc :: [u8 v]
  else if (v <? 0) && (-128 <=? v) then 0xd0 :: [u8 (i8 v)]
  else if (0 <=? v) && (v <=? 0xffff) then 0xcd :: be16 (u16 v)
  else if (v <? 0) && (-32768 <=? v) then 0xd1 :: be16 (u16 (i16 v))
  else if (0 <=? v) && (v <=? 0xffffffff) then 0xce :: be32 (u32 v)
  else if (v <? 0) && (-2147483648 <=? v) then 0xd2 :: be32 (u32 (i32 v))
  else 0xd3 :: be64 (u64 v).

Definition strHeader (n : Z) : bytes :=
  if n <=? 31 then [Z.lor 0xa0 (u8 n)]
  else if n <=? 0xff then 0xd9 :: [u8 n]
  else if n <=? 0xffff then 0xda :: be16 (u16 n)
  else 0xdb :: be32 (u32 n).

Definition encodeStr (s : bytes) : bytes := strHeader (Z.of_nat (length s)) ++ s.

Definition binHeader (n : Z) : bytes :=
  if n <=? 0xff then 0xc4 :: [u8 n]
  else if n <=? 0xffff then 0xc5 :: be16 (u16 n)
  else 0xc6 :: be32 (u32 n).

Definition encodeBin (b : bytes) : bytes := binHeader (Z.of_nat (length b)) ++ b.

Definition EncodeArrayHeader (n : Z) : bytes :=
  if n <=? 15 then [Z.lor 0x90 (u8 n)]
  else if n <=? 0xffff then 0xdc :: be16 (u16 n)
  else 0xdd :: be32 (u32 n).

Definition EncodeMapHeader (n : Z) : bytes :=
  if n <=? 15 then [Z.lor 0x80 (u8 n)]
  else if n <=? 0xffff then 0xde :: be16 (u16 n)
  else 0xdf :: be32 (u32 n).

Definition encodeExt (ty : Z) (data : bytes) : bytes :=
  let n := Z.of_nat (length data) in
  let fixext base := base :: u8 (Z.land ty 0xff) :: data in
  if n =? 1 then fixext 0xd4
  else if n =? 2 then fixext 0xd5
  else if n =? 4 then fixext 0xd6
  else if n =? 8 then fixext 0xd7
  else if n =? 16 then fixext 0xd8
  else
    (if n <=? 0xff then 0xc7 :: [u8 n]
     else if n <=? 0xffff then 0xc8 :: be16 (u16 n)
     else 0xc9 :: be32 (u32 n)) ++ u8 (Z.land ty 0xff) :: data.

Fixpoint Encode (v : value) : bytes :=
  match v with
  | Nil => [0xc0]
  | Bool b => [if b then 0xc3 else 0xc2]
  | Int z => encodeInt z
  | Float f => 0xcb :: be64 f
  | Str s => encodeStr s
  | Bin b => encodeBin b
  | Array l => EncodeArrayHeader (Z.of_nat (length l)) ++ flat_map Encode l
  | Map m =>
      EncodeMapHeader (Z.of_nat (length m))
      ++ flat_map (fun '(k, x) => Encode k ++ Encode x) m
  | Ext ty data => encodeExt ty data
  | Raw b => b
  end.

End Encoder.

Definition Marshal (v : value) : bytes := Encoder.Encode v.

(** ** Decoding *)

Record decoder : Type := { buf : bytes; pos : Z; limit : Z }.

Definition NewDecoder (b : bytes) : decoder :=
  {| buf := b; pos := 0; limit := Z.of_nat (length b) |}.
Definition NewDecoderAt (b : bytes) (start limit : Z) : decoder :=
  {| buf := b; pos := start; limit := limit |}.

(** [float64(math.Float32frombits(v))] on bit patterns. *)
Definition float64_of_float32 (v : Z) : Z :=
  let s := v / 2 ^ 31 in
  let e := (v / 2 ^ 23) `mod` 2 ^ 8 in
  let m := v `mod` 2 ^ 23 in
  let body :=
    if e =? 255 then
      2047 * 2 ^ 52 + (if m =? 0 then 0 else Z.lor (m * 2 ^ 29) (2 ^ 51))
    else if e =? 0 then
      if m =? 0 then 0
      else let k := Z.log2 m in (k - 149 + 1023) * 2 ^ 52 + (m - 2 ^ k) * 2 ^ (52 - k)
    else (e - 127 + 1023) * 2 ^ 52 + m * 2 ^ 29 in
  s * 2 ^ 63 + body.

Module Decoder.

Definition truncated {A} : res A := Err "truncated".

(** [n] bytes at the read position; a panic if the buffer is shorter than the
    decoder's limit says. *)
Definition read (n : Z) (d : decoder) : res (bytes * decoder) :=
  b ← slice (buf d) (pos d) (pos d + n);
  Ok (b, {| buf := buf d; pos := pos d + n; limit := limit d |}).

Definition read_be (n : Z) (d : decoder) : res (Z * decoder) :=
  if pos d + n >? limit d then truncated
  else '(b, d) ← read n d; Ok (be_get b, d).

Definition u8 (d : decoder) : res (Z * decoder) :=
  if pos d >=? limit d then truncated
  else '(b, d) ← read 1 d; Ok (be_get b, d).
Definition u16 : decoder → res (Z * decoder) := read_be 2.
Definition u32 : decoder → res (Z * decoder) := read_be 4.
Definition u64 : decoder → res (Z * decoder) := read_be 8.

Definition take (n : Z) (d : decoder) : res (bytes * decoder) :=
  if (n <? 0) || (pos d + n >? limit d) then truncated else read n d.

Definition lenOf (b : Z) (d : decoder) : res (Z * decoder) :=
  if bool_decide (b ∈ [0xc4; 0xc7; 0xd9]) then u8 d
  else if bool_decide (b ∈ [0xc5; 0xc8; 0xda; 0xdc; 0xde]) then u16 d
  else if bool_decide (b ∈ [0xc6; 0xc9; 0xdb; 0xdd; 0xdf]) then u32 d
  else Err "bad length header".

Definition decodeExtN (n : Z) (d : decoder) : res (value * decoder) :=
  '(ty, d) ← u8 d;
  '(body, d) ← take n d;
  Ok (Ext ty body, d).

Definition decodeInt (conv : Z → Z) (rd : decoder → res (Z * decoder)) (d : decoder)
  : res (value * decoder) :=
  '(v, d) ← rd d; Ok (Int (conv v), d).

(** [for i := 0; i < n; i++ { item }]: every item takes a byte, so the loop
    runs at most once per byte left, plus the failing turn. *)
Fixpoint items {A} (item : decoder → res (A * decoder)) (fuel : nat) (n : Z) (d : decoder)
  : res (list A * decoder) :=
  if n <=? 0 then Ok ([], d)
  else match fuel with
       | O => Diverge
       | S fuel' =>
           '(x, d) ← item d;
           '(l, d) ← items item fuel' (n - 1) d;
           Ok (x :: l, d)
       end.

Definition left (d : decoder) : nat := Z.to_nat (limit d - pos d).

Definition decodeArray (item : decoder → res (value * decoder)) (n : Z) (d : decoder)
  : res (value * decoder) :=
  if n <? 0 then Err "negative array length"
  else '(l, d) ← items item (S (left d)) n d; Ok (Array l, d).

Definition decodePair (item : decoder → res (value * decoder)) (d : decoder)
  : res (value * value * decoder) :=
  '(k, d) ← item d; '(v, d) ← item d; Ok (k, v, d).

Definition decodeMap (item : decoder → res (value * decoder)) (n : Z) (d : decoder)
  : res (value * decoder) :=
  if n <? 0 then Err "negative map length"
  else '(l, d) ← items (decodePair item) (S (left d)) n d; Ok (Map l, d).

Fixpoint DecodeValue (fuel : nat) (d : decoder) : res (value * decoder) :=
  match fuel with
  | O => Diverge
  | S fuel' =>
    let item := DecodeValue fuel' in
    '(b, d) ← u8 d;
    if b <=? 0x7f then Ok (Int b, d)
    else if 0xe0 <=? b then Ok (Int (i8 b), d)
    else if (0x90 <=? b) && (b <=? 0x9f) then decodeArray item (Z.land b 0x0f) d
    else if (0xa0 <=? b) && (b <=? 0xbf) then
      '(s, d) ← take (Z.land b 0x1f) d; Ok (Str s, d)
    else if (0x80 <=? b) && (b <=? 0x8f) then decodeMap item (Z.land b 0x0f) d
    else if b =? 0xc0 then Ok (Nil, d)
    else if b =? 0xc2 then Ok (Bool false, d)
    else if b =? 0xc3 then Ok (Bool true, d)
    else if bool_decide (b ∈ [0xc4; 0xc5; 0xc6]) then
      '(n, d) ← lenOf b d; '(body, d) ← take n d; Ok (Bin body, d)
    else if bool_decide (b ∈ [0xc7; 0xc8; 0xc9]) then
      '(n, d) ← lenOf b d; decodeExtN n d
    else if b =? 0xca then
      '(v, d) ← u32 d; Ok (Float (float64_of_float32 v), d)
    else if b =? 0xcb then '(v, d) ← u64 d; Ok (Float v, d)
    else if b =? 0xcc then decodeInt id u8 d
    else if b =? 0xcd then decodeInt id u16 d
    else if b =? 0xce then decodeInt id u32 d
    else if b =? 0xcf then decodeInt i64 u64 d
    else if b =? 0xd0 then decodeInt i8 u8 d
    else if b =? 0xd1 then decodeInt i16 u16 d
    else if b =? 0xd2 then decodeInt i32 u32 d
    else if b =? 0xd3 then decodeInt i64 u64 d
    else if (0xd4 <=? b) && (b <=? 0xd8) then decodeExtN (Z.shiftl 1 (b - 0xd4)) d
    else if bool_decide (b ∈ [0xd9; 0xda; 0xdb]) then
      '(n, d) ← lenOf b d; '(body, d) ← take n d; Ok (Str body, d)
    else if bool_decide (b ∈ [0xdc; 0xdd]) then
      '(n, d) ← lenOf b d; decodeArray item n d
    else if bool_decide (b ∈ [0xde; 0xdf]) then
      '(n, d) ← lenOf b d; decodeMap item n d
    else Err "unknown format byte"
  end.

End Decoder.

(** Nesting consumes a byte per level, so one unit of fuel per byte of input
    is enough ([DecodeValue_total]). *)
Definition Unmarshal (b : bytes) : res value :=
  '(v, d) ← Decoder.DecodeValue (S (length b)) (NewDecoder b);
  if pos d =? Z.of_nat (length b) then Ok v else Err "trailing content".

(** ** Map access *)

(** [Equal]: structural equality on the inspected subset, [false] elsewhere.
    A float equals another by IEEE comparison: zeros of either sign are equal
    and a NaN equals nothing. *)
Definition float_isNaN (x : Z) : bool :=
  (Z.land (Z.shiftr x 52) 0x7ff =? 0x7ff) && negb (Z.land x (2 ^ 52 - 1) =? 0).
Definition float_eqb (x y : Z) : bool :=
  negb (float_isNaN x) && negb (float_isNaN y)
  && ((x =? y) || ((Z.land x (2 ^ 63 - 1) =? 0) && (Z.land y (2 ^ 63 - 1) =? 0))).

Definition Equal (a b : value) : bool :=
  match a, b with
  | Str x, Str y => bool_decide (x = y)
  | Int x, Int y => x =? y
  | Bool x, Bool y => Bool.eqb x y
  | Nil, Nil => true
  | Float x, Float y => float_eqb x y
  | Bin x, Bin y => bool_decide (x = y)
  | Ext t x, Ext u y => (t =? u) && bool_decide (x = y)
  | _, _ => false
  end.

Fixpoint Member (m : list (value * value)) (key : value) : option value :=
  match m with
  | [] => None
  | (k, v) :: m' => if Equal k key then Some v else Member m' key
  end.

(** ** scan.go *)

Definition mapCountAndHeaderLen (raw : bytes) : option (Z * nat) :=
  match raw with
  | [] => None
  | b :: tl =>
      if (0x80 <=? b) && (b <=? 0x8f) then Some (Z.land b 0x0f, 1%nat)
      else if b =? 0xde then
        match tl with
        | r1 :: r2 :: _ => Some (Z.lor (Z.shiftl r1 8) r2, 3%nat)
        | _ => None
        end
      else if b =? 0xdf then
        match tl with
        | r1 :: r2 :: r3 :: r4 :: _ =>
            Some (Z.lor (Z.lor (Z.lor (Z.shiftl r1 24) (Z.shiftl r2 16)) (Z.shiftl r3 8)) r4, 5%nat)
        | _ => None
        end
      else None
  end.

(** The package-level [encodeStr] of scan.go. *)
Definition encodeStr (s : bytes) : bytes :=
  let n := Z.of_nat (length s) in
  if n <? 32 then Z.lor 0xa0 (u8 n) :: s
  else if n <=? 0xff then 0xd9 :: u8 n :: s
  else if n <=? 0xffff then 0xda :: u8 (Z.shiftr n 8) :: u8 n :: s
  else 0xdb :: u8 (Z.shiftr n 24) :: u8 (Z.shiftr n 16) :: u8 (Z.shiftr n 8) :: u8 n :: s.

Definition InjectTopPair (raw key val : bytes) : res bytes :=
  match mapCountAndHeaderLen raw with
  | None => Err "msgpack: not a top-level map (or truncated header)"
  | Some (count, hdr) =>
      header ←
        (if Nat.eqb hdr 1 then
           if count <? 15 then Ok [u8 (Z.lor 0x80 (count + 1))]
           else Ok [0xde; 0x00; 0x10]
         else if Nat.eqb hdr 3 then
           if count <? 0xffff then
             Ok [0xde; u8 (Z.shiftr (count + 1) 8); u8 (count + 1)]
           else Ok [0xdf; 0x00; 0x01; 0x00; 0x00]
         else if count =? 2 ^ 32 - 1 then Err "msgpack: map32 count overflow"
         else
           let n := u32 (count + 1) in
           Ok [0xdf; u8 (Z.shiftr n 24); u8 (Z.shiftr n 16); u8 (Z.shiftr n 8); u8 n]);
      Ok (header ++ drop hdr raw ++ encodeStr key ++ encodeStr val)
  end.

(** ** Induction and well-formedness *)

Section value_induction.
Variable P : value → Prop.
Hypotheses (HNil : P Nil) (HBool : ∀ b, P (Bool b)) (HInt : ∀ z, P (Int z))
  (HFloat : ∀ f, P (Float f)) (HStr : ∀ s, P (Str s)) (HBin : ∀ b, P (Bin b))
  (HArray : ∀ l, Forall P l → P (Array l))
  (HMap : ∀ m, Forall (fun kv => P kv.1 ∧ P kv.2) m → P (Map m))
  (HExt : ∀ t d, P (Ext t d)) (HRaw : ∀ b, P (Raw b)).

Fixpoint value_nested_ind (v : value) : P v :=
  match v with
  | Nil => HNil
  | Bool b => HBool b
  | Int z => HInt z
  | Float f => HFloat f
  | Str s => HStr s
  | Bin b => HBin b
  | Array l =>
      HArray l ((fix go l : Forall P l :=
        match l with
        | [] => Forall_nil_2 _
        | x :: l' => Forall_cons_2 _ _ _ (value_nested_ind x) (go l')
        end) l)
  | Map m =>
      HMap m ((fix go m : Forall (fun kv => P kv.1 ∧ P kv.2) m :=
        match m with
        | [] => Forall_nil_2 _
        | (k, x) :: m' =>
            Forall_cons_2 _ (k, x) _
              (conj (value_nested_ind k) (value_nested_ind x)) (go m')
        end) m)
  | Ext t d => HExt t d
  | Raw b => HRaw b
  end.
End value_induction.

Definition len32 {A} (l : list A) : bool := Z.of_nat (length l) <? 2 ^ 32.

(** What the Go types and the 32-bit length fields guarantee: 64-bit integers
    and floats, lengths below 2^32, one-byte extension types.  [Raw] bytes are
    not a tree, so they are left out of the round trip. *)
Fixpoint wf (v : value) : bool :=
  match v with
  | Nil | Bool _ => true
  | Int z => (- 2 ^ 63 <=? z) && (z <? 2 ^ 63)
  | Float f => (0 <=? f) && (f <? 2 ^ 64)
  | Str s => len32 s
  | Bin b => len32 b
  | Array l => len32 l && forallb wf l
  | Map m => len32 m && forallb (fun '(k, x) => wf k && wf x) m
  | Ext t d => (0 <=? t) && (t <? 256) && len32 d
  | Raw _ => false
  end.

(** ** Reading back what was written *)

(** A decoder over a whole buffer that has read [pre] and has [post] left. *)
Definition at_ (pre post : bytes) : decoder :=
  {| buf := pre ++ post; pos := Z.of_nat (length pre);
     limit := Z.of_nat (length (pre ++ post)) |}.

Lemma at_app pre b post : at_ pre (b ++ post) = {|
  buf := (pre ++ b) ++ post; pos := Z.of_nat (length pre);
  limit := Z.of_nat (length ((pre ++ b) ++ post)) |}.
Proof. unfold at_. by rewrite app_assoc. Qed.

Lemma read_at n pre b post :
  n = Z.of_nat (length b) →
  Decoder.read n (at_ pre (b ++ post)) = Ok (b, at_ (pre ++ b) post).
Proof.
  intros ->. unfold Decoder.read, at_. simpl.
  rewrite slice_app by done. simpl. do 2 f_equal.
  rewrite !length_app, <- app_assoc. f_equal; lia.
Qed.

Lemma take_at n pre b post :
  n = Z.of_nat (length b) →
  Decoder.take n (at_ pre (b ++ post)) = Ok (b, at_ (pre ++ b) post).
Proof.
  intros Hn. unfold Decoder.take. rewrite <- read_at with (n := n) by done.
  replace (_ || _) with false; [done|].
  symmetry. apply orb_false_iff. unfold at_; cbn [buf pos limit]. rewrite !length_app. lia.
Qed.

Lemma u8_at x pre post :
  Decoder.u8 (at_ pre (x :: post)) = Ok (x, at_ (pre ++ [x]) post).
Proof.
  unfold Decoder.u8. change (x :: post) with ([x] ++ post).
  rewrite read_at by done. simpl.
  replace (_ >=? _) with false; [done|].
  unfold at_; cbn [buf pos limit]. rewrite !length_app. simpl. lia.
Qed.

Lemma read_be_at (n : nat) v pre post :
  0 ≤ v < 2 ^ (8 * Z.of_nat n) →
  Decoder.read_be (Z.of_nat n) (at_ pre (be_put n v ++ post))
  = Ok (v, at_ (pre ++ be_put n v) post).
Proof.
  intros Hv. unfold Decoder.read_be.
  rewrite read_at by (by rewrite length_be_put). simpl.
  replace (_ >? _) with false.
  - by rewrite be_get_put, Z.mod_small.
  - unfold at_; cbn [buf pos limit]. rewrite !length_app, length_be_put. lia.
Qed.

(** The header [lenOf] reads after the format byte. *)
Lemma lenOf_at b n pre post :
  (b ∈ [0xc4; 0xc7; 0xd9] → 0 ≤ n < 2 ^ 8) →
  (b ∈ [0xc5; 0xc8; 0xda; 0xdc; 0xde] → 0 ≤ n < 2 ^ 16) →
  (b ∈ [0xc6; 0xc9; 0xdb; 0xdd; 0xdf] → 0 ≤ n < 2 ^ 32) →
  ∀ k, k = (if bool_decide (b ∈ [0xc4; 0xc7; 0xd9]) then 1%nat
            else if bool_decide (b ∈ [0xc5; 0xc8; 0xda; 0xdc; 0xde]) then 2%nat else 4%nat) →
  b ∈ [0xc4; 0xc7; 0xd9; 0xc5; 0xc8; 0xda; 0xdc; 0xde; 0xc6; 0xc9; 0xdb; 0xdd; 0xdf] →
  Decoder.lenOf b (at_ pre (be_put k n ++ post)) = Ok (n, at_ (pre ++ be_put k n) post).
Proof.
  intros H1 H2 H4 k -> Hin. unfold Decoder.lenOf.
  case_bool_decide as C1; [|case_bool_decide as C2; [|case_bool_decide as C3]].
  - specialize (H1 C1). change (be_put 1 n ++ post) with ((n / 1) `mod` 256 :: post).
    assert ((n / 1) `mod` 256 = n) as E by (rewrite Z.div_1_r; apply Z.mod_small; lia).
    change (be_put 1 n) with [(n / 1) `mod` 256]. by rewrite E, u8_at.
  - apply (read_be_at 2). exact (H2 C2).
  - apply (read_be_at 4). exact (H4 C3).
  - exfalso. set_solver.
Qed.

(** [DecodeValue] by the class of the format byte it reads. *)
Section format_byte.
Context (fuel : nat) (pre post : bytes) (c : Z).
Abbreviation item := (Decoder.DecodeValue fuel).
Abbreviation start := (at_ pre (c :: post)).
Abbreviation next := (at_ (pre ++ [c]) post).

Ltac by_byte :=
  cbn [Decoder.DecodeValue]; rewrite u8_at; cbn [mbind res_bind];
  repeat match goal with
    | |- context [?x <=? ?y] =>
        first [ replace (x <=? y) with true by lia | replace (x <=? y) with false by lia ]
    end; reflexivity.

Ltac by_list :=
  intros Hc; cbn [Decoder.DecodeValue]; rewrite u8_at; cbn [mbind res_bind];
  repeat (apply elem_of_cons in Hc as [->|Hc]; [reflexivity|]); by inversion Hc.

Lemma DecodeValue_posfixint : 0 ≤ c ≤ 0x7f → Decoder.DecodeValue (S fuel) start = Ok (Int c, next).
Proof. intros. by_byte. Qed.

Lemma DecodeValue_negfixint :
  0xe0 ≤ c → Decoder.DecodeValue (S fuel) start = Ok (Int (i8 c), next).
Proof. intros. by_byte. Qed.

Lemma DecodeValue_fixarray :
  0x90 ≤ c ≤ 0x9f →
  Decoder.DecodeValue (S fuel) start = Decoder.decodeArray item (Z.land c 0x0f) next.
Proof. intros. by_byte. Qed.

Lemma DecodeValue_fixstr :
  0xa0 ≤ c ≤ 0xbf →
  Decoder.DecodeValue (S fuel) start
  = '(s, d) ← Decoder.take (Z.land c 0x1f) next; Ok (Str s, d).
Proof. intros. by_byte. Qed.

Lemma DecodeValue_fixmap :
  0x80 ≤ c ≤ 0x8f →
  Decoder.DecodeValue (S fuel) start = Decoder.decodeMap item (Z.land c 0x0f) next.
Proof. intros. by_byte. Qed.

Lemma DecodeValue_bin :
  c ∈ [0xc4; 0xc5; 0xc6] →
  Decoder.DecodeValue (S fuel) start
  = '(n, d) ← Decoder.lenOf c next; '(b, d) ← Decoder.take n d; Ok (Bin b, d).
Proof. by_list. Qed.

Lemma DecodeValue_ext :
  c ∈ [0xc7; 0xc8; 0xc9] →
  Decoder.DecodeValue (S fuel) start
  = '(n, d) ← Decoder.lenOf c next; Decoder.decodeExtN n d.
Proof. by_list. Qed.

Lemma DecodeValue_fixext :
  c ∈ [0xd4; 0xd5; 0xd6; 0xd7; 0xd8] →
  Decoder.DecodeValue (S fuel) start = Decoder.decodeExtN (Z.shiftl 1 (c - 0xd4)) next.
Proof. by_list. Qed.

Lemma DecodeValue_str :
  c ∈ [0xd9; 0xda; 0xdb] →
  Decoder.DecodeValue (S fuel) start
  = '(n, d) ← Decoder.lenOf c next; '(b, d) ← Decoder.take n d; Ok (Str b, d).
Proof. by_list. Qed.

Lemma DecodeValue_array :
  c ∈ [0xdc; 0xdd] →
  Decoder.DecodeValue (S fuel) start
  = '(n, d) ← Decoder.lenOf c next; Decoder.decodeArray item n d.
Proof. by_list. Qed.

Lemma DecodeValue_map :
  c ∈ [0xde; 0xdf] →
  Decoder.DecodeValue (S fuel) start
  = '(n, d) ← Decoder.lenOf c next; Decoder.decodeMap item n d.
Proof. by_list. Qed.
End format_byte.

Lemma Encode_nonempty v : wf v = true → (1 ≤ length (Encoder.Encode v))%nat.
Proof.
  destruct v as [| |z|f|s|b|l|m|t d|b]; simpl; try lia; intros _;
    unfold Encoder.encodeInt, Encoder.encodeStr, Encoder.strHeader, Encoder.encodeBin,
      Encoder.binHeader, Encoder.EncodeArrayHeader, Encoder.EncodeMapHeader, Encoder.encodeExt;
    repeat case_match; rewrite ?length_app; simpl; lia.
Qed.

(** One element: what [DecodeValue] with this fuel makes of its encoding. *)
Definition decodes (fuel : nat) (v : value) : Prop :=
  ∀ pre post,
    Decoder.DecodeValue fuel (at_ pre (Encoder.Encode v ++ post))
    = Ok (v, at_ (pre ++ Encoder.Encode v) post).

Lemma items_at {A} (item : decoder → res (A * decoder)) (enc : A → bytes) l :
  Forall (fun x => ∀ pre post, item (at_ pre (enc x ++ post)) = Ok (x, at_ (pre ++ enc x) post)) l →
  ∀ fuel pre post, (length l ≤ fuel)%nat →
  Decoder.items item fuel (Z.of_nat (length l)) (at_ pre (flat_map enc l ++ post))
  = Ok (l, at_ (pre ++ flat_map enc l) post).
Proof.
  induction 1 as [|x l Hx Hl IH]; intros fuel pre post Hf.
  - destruct fuel; simpl; by rewrite app_nil_r.
  - destruct fuel as [|fuel]; simpl in Hf; [lia|]. cbn [Decoder.items flat_map].
    replace (_ <=? 0) with false by (cbn [length]; lia).
    rewrite <- app_assoc, Hx. simpl.
    replace (Z.of_nat (S (length l)) - 1) with (Z.of_nat (length l)) by lia.
    rewrite IH by lia. simpl. by rewrite <- app_assoc.
Qed.

Lemma decodeInt_at conv (n : nat) w pre post :
  0 ≤ w < 2 ^ (8 * Z.of_nat n) →
  Decoder.decodeInt conv (Decoder.read_be (Z.of_nat n)) (at_ pre (be_put n w ++ post))
  = Ok (Int (conv w), at_ (pre ++ be_put n w) post).
Proof. intros. unfold Decoder.decodeInt. by rewrite read_be_at. Qed.

(** Peel the format byte off and read the big-endian field after it. *)
Ltac read_int n :=
  cbn [app]; cbn [Decoder.DecodeValue]; rewrite u8_at;
  etransitivity; [apply (decodeInt_at _ n); mlia|];
  rewrite <- app_assoc; simpl app.

Lemma decodes_int z fuel : is_i64 z → decodes (S fuel) (Int z).
Proof.
  unfold is_i64. intros Hz pre post. cbn [Encoder.Encode].
  unfold Encoder.encodeInt, Encoder.be16, Encoder.be32, Encoder.be64.
  destruct ((0 <=? z) && (z <=? 0x7f)) eqn:C1.
  { cbn [app]. assert (u8 z = z) as -> by (mlia).
    by rewrite DecodeValue_posfixint by lia. }
  destruct ((z <? 0) && (-32 <=? z)) eqn:C2.
  { cbn [app]. assert (u8 (i8 z) = z + 256) as -> by (mlia).
    rewrite DecodeValue_negfixint by lia. do 3 f_equal. mlia. }
  destruct ((0 <=? z) && (z <=? 0xff)) eqn:C3.
  { cbn [app Decoder.DecodeValue]. rewrite u8_at. cbn. unfold Decoder.decodeInt.
    rewrite u8_at. cbn. rewrite <- app_assoc. do 3 f_equal. unfold id; mlia. }
  destruct ((z <? 0) && (-128 <=? z)) eqn:C4.
  { cbn [app Decoder.DecodeValue]. rewrite u8_at. cbn. unfold Decoder.decodeInt.
    rewrite u8_at. cbn. rewrite <- app_assoc. do 3 f_equal. mlia. }
  destruct ((0 <=? z) && (z <=? 0xffff)) eqn:C5.
  { read_int 2%nat. do 3 f_equal. unfold id; mlia. }
  destruct ((z <? 0) && (-32768 <=? z)) eqn:C6.
  { read_int 2%nat. do 3 f_equal. mlia. }
  destruct ((0 <=? z) && (z <=? 0xffffffff)) eqn:C7.
  { read_int 4%nat. do 3 f_equal. unfold id; mlia. }
  destruct ((z <? 0) && (-2147483648 <=? z)) eqn:C8.
  { read_int 4%nat. do 3 f_equal. mlia. }
  read_int 8%nat. do 3 f_equal. mlia.
Qed.

Lemma be_put_1 n : be_put 1 n = [u8 n].
Proof. unfold be_put, u8. by rewrite Z.div_1_r. Qed.

(** The three length fields, after their format byte. *)
Lemma lenOf_8 b n pre post :
  b ∈ [0xc4; 0xc7; 0xd9] → 0 ≤ n ≤ 0xff →
  Decoder.lenOf b (at_ pre (u8 n :: post)) = Ok (n, at_ (pre ++ [u8 n]) post).
Proof.
  intros Hb Hn. rewrite <- be_put_1.
  change (u8 n :: post) with ([u8 n] ++ post). rewrite <- be_put_1.
  apply lenOf_at; [lia| | | |set_solver].
  - intros Hc. exfalso. set_solver.
  - intros Hc. exfalso. set_solver.
  - by rewrite bool_decide_true.
Qed.

Lemma lenOf_16 b n pre post :
  b ∈ [0xc5; 0xc8; 0xda; 0xdc; 0xde] → 0 ≤ n ≤ 0xffff →
  Decoder.lenOf b (at_ pre (be_put 2 (u16 n) ++ post)) = Ok (n, at_ (pre ++ be_put 2 (u16 n)) post).
Proof.
  intros Hb Hn. assert (u16 n = n) as -> by mlia.
  apply lenOf_at; [|lia| | |set_solver].
  - intros Hc. exfalso. set_solver.
  - intros Hc. exfalso. set_solver.
  - rewrite bool_decide_false by set_solver. by rewrite bool_decide_true.
Qed.

Lemma lenOf_32 b n pre post :
  b ∈ [0xc6; 0xc9; 0xdb; 0xdd; 0xdf] → 0 ≤ n < 2 ^ 32 →
  Decoder.lenOf b (at_ pre (be_put 4 (u32 n) ++ post)) = Ok (n, at_ (pre ++ be_put 4 (u32 n)) post).
Proof.
  intros Hb Hn. assert (u32 n = n) as -> by mlia.
  apply lenOf_at; [| |lia| |set_solver].
  - intros Hc. exfalso. set_solver.
  - intros Hc. exfalso. set_solver.
  - rewrite bool_decide_false by set_solver. by rewrite bool_decide_false by set_solver.
Qed.

Ltac in_list := repeat first [left; reflexivity | right].

Lemma decodes_str s fuel : len32 s = true → decodes (S fuel) (Str s).
Proof.
  unfold len32. intros Hl pre post. cbn [Encoder.Encode].
  unfold Encoder.encodeStr, Encoder.strHeader, Encoder.be16, Encoder.be32.
  set (n := Z.of_nat (length s)) in *.
  destruct (n <=? 31) eqn:C1; [|destruct (n <=? 0xff) eqn:C2; [|destruct (n <=? 0xffff) eqn:C3]];
    cbn [app].
  - assert (Z.lor 0xa0 (u8 n) = 5 * 2 ^ 5 + n) as ->.
    { replace (u8 n) with n by mlia. apply (lor_low 5 n 5); lia. }
    rewrite DecodeValue_fixstr by lia. rewrite (land_low 5 n 5) by lia.
    rewrite take_at by done. cbn. by rewrite <- app_assoc.
  - rewrite DecodeValue_str by in_list. rewrite lenOf_8; [|in_list|lia]. cbn.
    rewrite take_at by done. cbn. by rewrite <- !app_assoc.
  - rewrite DecodeValue_str by in_list. rewrite <- app_assoc, lenOf_16; [|in_list|lia].
    cbn -[be_put]. rewrite take_at by done. cbn -[be_put]. by rewrite <- !app_assoc.
  - rewrite DecodeValue_str by in_list. rewrite <- app_assoc, lenOf_32; [|in_list|lia].
    cbn -[be_put]. rewrite take_at by done. cbn -[be_put]. by rewrite <- !app_assoc.
Qed.

Lemma decodes_bin s fuel : len32 s = true → decodes (S fuel) (Bin s).
Proof.
  unfold len32. intros Hl pre post. cbn [Encoder.Encode].
  unfold Encoder.encodeBin, Encoder.binHeader, Encoder.be16, Encoder.be32.
  set (n := Z.of_nat (length s)) in *.
  destruct (n <=? 0xff) eqn:C2; [|destruct (n <=? 0xffff) eqn:C3];
    cbn [app].
  - rewrite DecodeValue_bin by in_list. rewrite lenOf_8; [|in_list|lia]. cbn.
    rewrite take_at by done. cbn. by rewrite <- !app_assoc.
  - rewrite DecodeValue_bin by in_list. rewrite <- app_assoc, lenOf_16; [|in_list|lia].
    cbn -[be_put]. rewrite take_at by done. cbn -[be_put]. by rewrite <- !app_assoc.
  - rewrite DecodeValue_bin by in_list. rewrite <- app_assoc, lenOf_32; [|in_list|lia].
    cbn -[be_put]. rewrite take_at by done. cbn -[be_put]. by rewrite <- !app_assoc.
Qed.

Lemma decodeExtN_at n t d pre post :
  n = Z.of_nat (length d) →
  Decoder.decodeExtN n (at_ pre (t :: d ++ post)) = Ok (Ext t d, at_ (pre ++ t :: d) post).
Proof.
  intros ->. unfold Decoder.decodeExtN. rewrite u8_at. cbn.
  rewrite take_at by done. cbn. by rewrite <- app_assoc.
Qed.

Lemma decodes_ext t d fuel : 0 ≤ t < 256 → len32 d = true → decodes (S fuel) (Ext t d).
Proof.
  unfold len32. intros Ht Hl pre post. cbn [Encoder.Encode].
  unfold Encoder.encodeExt, Encoder.be16, Encoder.be32.
  assert (u8 (Z.land t 0xff) = t) as ->.
  { rewrite <- (Z.add_0_l t) at 1. change 0 with (0 * 2 ^ 8).
    rewrite (land_low 0 t 8) by lia. mlia. }
  set (n := Z.of_nat (length d)) in *.
  destruct (n =? 1) eqn:E1; [|destruct (n =? 2) eqn:E2; [|destruct (n =? 4) eqn:E3;
    [|destruct (n =? 8) eqn:E4; [|destruct (n =? 16) eqn:E5;
    [|destruct (n <=? 0xff) eqn:C1; [|destruct (n <=? 0xffff) eqn:C2]]]]]]; cbn [app].
  1-5: rewrite DecodeValue_fixext by in_list; rewrite decodeExtN_at by (symmetry; apply Z.eqb_eq; assumption);
       by rewrite <- app_assoc.
  - rewrite DecodeValue_ext by in_list. rewrite lenOf_8; [|in_list|lia]. cbn.
    rewrite decodeExtN_at by done. by rewrite <- !app_assoc.
  - rewrite DecodeValue_ext by in_list. rewrite <- app_assoc, lenOf_16; [|in_list|lia].
    cbn -[be_put]. rewrite decodeExtN_at by done. by rewrite <- !app_assoc.
  - rewrite DecodeValue_ext by in_list. rewrite <- app_assoc, lenOf_32; [|in_list|lia].
    cbn -[be_put]. rewrite decodeExtN_at by done. by rewrite <- !app_assoc.
Qed.

(** ** Containers *)

Lemma DecodeValue_array_header fuel n pre post :
  0 ≤ n < 2 ^ 32 →
  Decoder.DecodeValue (S fuel) (at_ pre (Encoder.EncodeArrayHeader n ++ post))
  = Decoder.decodeArray (Decoder.DecodeValue fuel) n (at_ (pre ++ Encoder.EncodeArrayHeader n) post).
Proof.
  intros Hn. unfold Encoder.EncodeArrayHeader, Encoder.be16, Encoder.be32.
  destruct (n <=? 15) eqn:C1; [|destruct (n <=? 0xffff) eqn:C2]; cbn [app].
  - assert (Z.lor 0x90 (u8 n) = 9 * 2 ^ 4 + n) as ->.
    { replace (u8 n) with n by mlia. apply (lor_low 9 n 4); lia. }
    rewrite DecodeValue_fixarray by lia. by rewrite (land_low 9 n 4) by lia.
  - rewrite DecodeValue_array by in_list. rewrite lenOf_16; [|in_list|lia].
    cbn -[be_put Decoder.decodeArray]. by rewrite <- app_assoc.
  - rewrite DecodeValue_array by in_list. rewrite lenOf_32; [|in_list|lia].
    cbn -[be_put Decoder.decodeArray]. by rewrite <- app_assoc.
Qed.

Lemma DecodeValue_map_header fuel n pre post :
  0 ≤ n < 2 ^ 32 →
  Decoder.DecodeValue (S fuel) (at_ pre (Encoder.EncodeMapHeader n ++ post))
  = Decoder.decodeMap (Decoder.DecodeValue fuel) n (at_ (pre ++ Encoder.EncodeMapHeader n) post).
Proof.
  intros Hn. unfold Encoder.EncodeMapHeader, Encoder.be16, Encoder.be32.
  destruct (n <=? 15) eqn:C1; [|destruct (n <=? 0xffff) eqn:C2]; cbn [app].
  - assert (Z.lor 0x80 (u8 n) = 8 * 2 ^ 4 + n) as ->.
    { replace (u8 n) with n by mlia. apply (lor_low 8 n 4); lia. }
    rewrite DecodeValue_fixmap by lia. by rewrite (land_low 8 n 4) by lia.
  - rewrite DecodeValue_map by in_list. rewrite lenOf_16; [|in_list|lia].
    cbn -[be_put Decoder.decodeMap]. by rewrite <- app_assoc.
  - rewrite DecodeValue_map by in_list. rewrite lenOf_32; [|in_list|lia].
    cbn -[be_put Decoder.decodeMap]. by rewrite <- app_assoc.
Qed.

Lemma header_nonempty n :
  (1 ≤ length (Encoder.EncodeArrayHeader n) ∧ 1 ≤ length (Encoder.EncodeMapHeader n))%nat.
Proof.
  unfold Encoder.EncodeArrayHeader, Encoder.EncodeMapHeader. repeat case_match; simpl; lia.
Qed.

Lemma length_flat_map_ge {A} (enc : A → bytes) l :
  Forall (fun x => 1 ≤ length (enc x))%nat l → (length l ≤ length (flat_map enc l))%nat.
Proof.
  induction 1; [done|]. cbn [flat_map length]. rewrite length_app. lia.
Qed.

Lemma length_flat_map_elem {A} (enc : A → bytes) l x :
  x ∈ l → (length (enc x) ≤ length (flat_map enc l))%nat.
Proof.
  induction 1; cbn [flat_map]; rewrite length_app; lia.
Qed.

(** The whole list between a header and what follows. *)
Lemma items_whole {A} (item : decoder → res (A * decoder)) (enc : A → bytes) l pre post :
  Forall (fun x => ∀ pre post, item (at_ pre (enc x ++ post)) = Ok (x, at_ (pre ++ enc x) post)) l →
  Forall (fun x => 1 ≤ length (enc x))%nat l →
  Decoder.items item (S (Decoder.left (at_ pre (flat_map enc l ++ post)))) (Z.of_nat (length l))
    (at_ pre (flat_map enc l ++ post))
  = Ok (l, at_ (pre ++ flat_map enc l) post).
Proof.
  intros Hi Hn. apply items_at; [done|].
  unfold Decoder.left, at_; cbn [pos limit]. rewrite !length_app.
  pose proof (length_flat_map_ge enc l Hn). lia.
Qed.

Definition encPair (kv : value * value) : bytes :=
  Encoder.Encode kv.1 ++ Encoder.Encode kv.2.

Lemma flat_map_encPair m :
  flat_map (fun '(k, x) => Encoder.Encode k ++ Encoder.Encode x) m = flat_map encPair m.
Proof. induction m as [|[k x] m IH]; [done|]. cbn [flat_map]. by rewrite IH. Qed.

Lemma decodes_array fuel l :
  len32 l = true → Forall (fun x => (1 ≤ length (Encoder.Encode x))%nat ∧ decodes fuel x) l →
  decodes (S fuel) (Array l).
Proof.
  unfold len32. intros Hl Hf pre post. cbn [Encoder.Encode]. rewrite <- app_assoc.
  rewrite DecodeValue_array_header by lia. unfold Decoder.decodeArray.
  replace (_ <? 0) with false by lia.
  rewrite (items_whole _ Encoder.Encode); [cbn; by rewrite <- app_assoc|..].
  - eapply Forall_impl; [exact Hf|]. by intros x [_ ?].
  - eapply Forall_impl; [exact Hf|]. by intros x [? _].
Qed.

Lemma decodes_map fuel m :
  len32 m = true →
  Forall (fun kv => (1 ≤ length (encPair kv))%nat ∧ decodes fuel kv.1 ∧ decodes fuel kv.2) m →
  decodes (S fuel) (Map m).
Proof.
  unfold len32. intros Hl Hf pre post. cbn [Encoder.Encode]. rewrite flat_map_encPair, <- app_assoc.
  rewrite DecodeValue_map_header by lia. unfold Decoder.decodeMap.
  replace (_ <? 0) with false by lia.
  rewrite (items_whole _ encPair); [cbn; by rewrite <- app_assoc|..].
  - eapply Forall_impl; [exact Hf|]. intros [k x] (_ & Hk & Hx) pre' post'.
    unfold Decoder.decodePair, encPair. cbn [fst snd] in *.
    rewrite <- app_assoc, Hk. cbn. rewrite Hx. cbn. by rewrite <- app_assoc.
  - eapply Forall_impl; [exact Hf|]. by intros x [? _].
Qed.

Lemma decodes_wf v :
  wf v = true → ∀ fuel, (length (Encoder.Encode v) < fuel)%nat → decodes fuel v.
Proof.
  induction v as [|b|z|f|s|b|l IH|m IH|t d|b] using value_nested_ind; intros Hw [|fuel] Hf;
    try lia; cbn [wf] in Hw.
  - intros pre post. cbn [Encoder.Encode app Decoder.DecodeValue]. by rewrite u8_at.
  - intros pre post. cbn [Encoder.Encode app Decoder.DecodeValue]. rewrite u8_at. by destruct b.
  - apply decodes_int. unfold is_i64. lia.
  - intros pre post. cbn [Encoder.Encode app Decoder.DecodeValue]. rewrite u8_at.
    cbn -[Decoder.u64 be_put]. unfold Encoder.be64, Decoder.u64.
    rewrite (read_be_at 8) by lia. cbn -[be_put]. by rewrite <- app_assoc.
  - by apply decodes_str.
  - by apply decodes_bin.
  - apply andb_prop in Hw as [Hl Hw]. apply decodes_array; [done|].
    cbn [Encoder.Encode] in Hf. rewrite length_app in Hf.
    pose proof (header_nonempty (Z.of_nat (length l))) as [Hh _].
    rewrite Forall_forall in IH |- *. intros x Hx.
    assert (wf x = true) as Hwx by (eapply forallb_forall; [exact Hw|by apply list_elem_of_In]).
    split; [by apply Encode_nonempty|]. apply IH; [done|done|].
    pose proof (length_flat_map_elem Encoder.Encode l x Hx). lia.
  - apply andb_prop in Hw as [Hl Hw]. apply decodes_map; [done|].
    cbn [Encoder.Encode] in Hf. rewrite flat_map_encPair, length_app in Hf.
    pose proof (header_nonempty (Z.of_nat (length m))) as [_ Hh].
    rewrite Forall_forall in IH |- *. intros [k x] Hx. specialize (IH (k, x) Hx).
    assert (wf k && wf x = true) as [Hwk Hwx]%andb_prop.
    { rewrite forallb_forall in Hw. apply (Hw (k, x)). by apply list_elem_of_In. }
    pose proof (length_flat_map_elem encPair m (k, x) Hx) as Hlen.
    unfold encPair in *. cbn [fst snd] in *. rewrite length_app in Hlen.
    pose proof (Encode_nonempty k Hwk). destruct IH as [IHk IHx].
    split_and!; [rewrite length_app; lia|apply IHk; [done|lia]|apply IHx; [done|lia]].
  - apply decodes_ext; [lia|]. by destruct (len32 d); [|lia].
  - done.
Qed.

(** Every well-formed tree is read back as written. *)
Lemma unmarshal_marshal v : wf v = true → Unmarshal (Marshal v) = Ok v.
Proof.
  intros Hw. unfold Unmarshal, Marshal.
  pose proof (decodes_wf v Hw (S (length (Encoder.Encode v))) ltac:(lia) [] []) as H.
  rewrite !app_nil_r, app_nil_l in H. cbn [app] in H.
  change (at_ [] (Encoder.Encode v)) with (NewDecoder (Encoder.Encode v)) in H.
  rewrite H. cbn. by rewrite Z.eqb_refl.
Qed.

(** ** Totality: on any input the decoder returns a value or an error *)

Definition decoder_ok (d : decoder) : Prop :=
  0 ≤ pos d ≤ limit d ∧ limit d ≤ Z.of_nat (length (buf d)).

(** The outcome is no panic and no exhausted loop, and a success has moved at
    least [k] bytes forward within the limit. *)
Definition within {A} (k : Z) (d : decoder) (r : res (A * decoder)) : Prop :=
  match r with
  | Ok (_, d') => buf d' = buf d ∧ limit d' = limit d ∧ pos d + k ≤ pos d' ≤ limit d
  | Err _ => True
  | Panic | Diverge => False
  end.

Lemma within_ok {A} k d (a : A) d' :
  0 ≤ k → decoder_ok d → within k d (Ok (a, d')) → decoder_ok d'.
Proof. unfold decoder_ok. intros ?? (->&->&?). lia. Qed.

Lemma within_bind {A B} k j d (m : res (A * decoder)) (f : A * decoder → res (B * decoder)) :
  0 ≤ k → decoder_ok d → within k d m →
  (∀ a d', decoder_ok d' → within k d (Ok (a, d')) → within j d' (f (a, d'))) →
  within (k + j) d (m ≫= f).
Proof.
  intros Hk Hd Hm Hf. destruct m as [[a d']| | |]; cbn; try done.
  specialize (Hf a d' (within_ok _ _ _ _ Hk Hd Hm) Hm). destruct Hm as (Hb&Hl&Hp).
  unfold within in *. destruct (f (a, d')) as [[b d'']| | |]; try done.
  rewrite <- Hb, <- Hl. destruct Hf as (->&->&?). split_and!; [done|done|lia|lia].
Qed.

Lemma within_read n d :
  0 ≤ n → decoder_ok d → pos d + n ≤ limit d → within n d (Decoder.read n d).
Proof.
  unfold decoder_ok, Decoder.read, slice. intros Hn Hd Hl.
  rewrite bool_decide_true by lia. cbn. split_and!; [done|done|lia|lia].
Qed.

Lemma within_u8 d : decoder_ok d → within 1 d (Decoder.u8 d).
Proof.
  intros Hd. unfold Decoder.u8. destruct (pos d >=? limit d) eqn:E; [done|].
  replace 1 with (1 + 0) at 1 by lia. apply within_bind; [lia|done|by apply within_read; [|done|lia]|].
  intros b d' Hd' _. unfold decoder_ok in *. cbn. split_and!; [done|done|lia|lia].
Qed.

Lemma within_ret {A} d (a : A) : decoder_ok d → within 0 d (Ok (a, d)).
Proof. unfold decoder_ok, within. intros. split_and!; [done|done|lia|lia]. Qed.

Lemma within_weaken {A} k j d (r : res (A * decoder)) : j ≤ k → within k d r → within j d r.
Proof. unfold within. destruct r as [[a d']| | |]; try done. intros ? (->&->&?). split_and!; [done|done|lia|lia]. Qed.

(** Sequencing when progress is not tracked. *)
Lemma within_then {A B} d (m : res (A * decoder)) (f : A * decoder → res (B * decoder)) :
  decoder_ok d → within 0 d m →
  (∀ a d', decoder_ok d' → within 0 d' (f (a, d'))) → within 0 d (m ≫= f).
Proof.
  intros Hd Hm Hf. replace 0 with (0 + 0) by lia. apply within_bind; auto; lia.
Qed.

Lemma within_read_be n d : 0 ≤ n → decoder_ok d → within 0 d (Decoder.read_be n d).
Proof.
  intros Hn Hd. unfold Decoder.read_be. destruct (pos d + n >? limit d) eqn:E; [done|].
  apply within_then; [done|by apply (within_weaken n); [|apply within_read; [|done|lia]]|].
  intros; by apply within_ret.
Qed.

Lemma within_take n d : decoder_ok d → within 0 d (Decoder.take n d).
Proof.
  intros Hd. unfold Decoder.take. destruct ((n <? 0) || (pos d + n >? limit d)) eqn:E; [done|].
  apply (within_weaken n); [lia|]. apply within_read; [lia|done|lia].
Qed.

Lemma within_u8_0 d : decoder_ok d → within 0 d (Decoder.u8 d).
Proof. intros. apply (within_weaken 1); [lia|]. by apply within_u8. Qed.

Lemma within_lenOf b d : decoder_ok d → within 0 d (Decoder.lenOf b d).
Proof.
  intros Hd. unfold Decoder.lenOf.
  repeat case_bool_decide; [by apply within_u8_0|by apply within_read_be..|done].
Qed.

Lemma within_decodeExtN n d : decoder_ok d → within 0 d (Decoder.decodeExtN n d).
Proof.
  intros Hd. apply within_then; [done|by apply within_u8_0|]. intros t d' Hd'.
  apply within_then; [done|by apply within_take|]. intros; by apply within_ret.
Qed.

Lemma within_decodeInt conv rd d :
  decoder_ok d → within 0 d (rd d) → within 0 d (Decoder.decodeInt conv rd d).
Proof. intros Hd Hr. apply within_then; [done|done|]. intros; by apply within_ret. Qed.

Lemma within_items {A} (item : decoder → res (A * decoder)) :
  ∀ fuel n d,
    decoder_ok d → (Decoder.left d < fuel)%nat →
    (∀ d', decoder_ok d' → (Decoder.left d' ≤ Decoder.left d)%nat → within 1 d' (item d')) →
    within 0 d (Decoder.items item fuel n d).
Proof.
  induction fuel as [|fuel IH]; intros n d Hd Hf Hi; [lia|].
  cbn [Decoder.items]. destruct (n <=? 0); [by apply within_ret|].
  apply (within_weaken (1 + 0)); [lia|]. apply within_bind; [lia|done|by apply Hi|].
  intros x d' Hd' (Hb&Hl&Hp).
  assert (Decoder.left d' < Decoder.left d)%nat by (unfold Decoder.left, decoder_ok in *; lia).
  apply within_then; [done| |intros; by apply within_ret].
  apply IH; [done|lia|]. intros d'' ??. apply Hi; [done|lia].
Qed.

(** With more fuel than bytes left, decoding neither panics nor runs out. *)
Lemma DecodeValue_within fuel d :
  decoder_ok d → (Decoder.left d < fuel)%nat → within 1 d (Decoder.DecodeValue fuel d).
Proof.
  revert d. induction fuel as [|fuel IH]; intros d Hd Hf; [lia|].
  cbn [Decoder.DecodeValue]. replace 1 with (1 + 0) by lia.
  apply within_bind; [lia|done|by apply within_u8|]. intros b d1 Hd1 (Hb&Hl&Hp).
  assert (Decoder.left d1 < Decoder.left d)%nat as Hlt by (unfold Decoder.left, decoder_ok in *; lia).
  assert (∀ n d2, decoder_ok d2 → (Decoder.left d2 ≤ Decoder.left d1)%nat →
    within 0 d2 (Decoder.decodeArray (Decoder.DecodeValue fuel) n d2)
    ∧ within 0 d2 (Decoder.decodeMap (Decoder.DecodeValue fuel) n d2)) as Hc.
  { intros n d2 Hd2 Hle. unfold Decoder.decodeArray, Decoder.decodeMap.
    destruct (n <? 0); [done|]. split.
    all: apply within_then; [done| |intros; by apply within_ret].
    all: apply within_items; [done|lia|]. all: intros d3 Hd3 Hle3.
    - apply IH; [done|lia].
    - apply (within_weaken (1 + 1)); [lia|].
      apply within_bind; [lia|done|apply IH; [done|lia]|]. intros k d4 Hd4 (?&?&?).
      replace 1 with (1 + 0) by lia. apply within_bind; [lia|done| |intros; by apply within_ret].
      apply IH; [done|]. unfold Decoder.left, decoder_ok in *; lia. }
  assert (∀ n d2, decoder_ok d2 → (Decoder.left d2 ≤ Decoder.left d1)%nat →
    within 0 d2 (Decoder.lenOf n d2 ≫= fun '(n, d) => Decoder.decodeArray (Decoder.DecodeValue fuel) n d)
    ∧ within 0 d2 (Decoder.lenOf n d2 ≫= fun '(n, d) => Decoder.decodeMap (Decoder.DecodeValue fuel) n d)) as Hlc.
  { intros n d2 Hd2 Hle. split; replace 0 with (0 + 0) by lia.
    all: apply within_bind; [lia|done|by apply within_lenOf|].
    all: intros m d3 Hd3 (?&?&?); apply Hc; [done|unfold Decoder.left, decoder_ok in *; lia]. }
  repeat match goal with
    | |- within 0 _ (if ?c then _ else _) => destruct c
    | |- within 0 _ (Ok _) => by apply within_ret
    | |- within 0 _ (Err _) => done
    | |- within 0 _ (Decoder.decodeArray _ _ _) => by apply Hc
    | |- within 0 _ (Decoder.decodeMap _ _ _) => by apply Hc
    | |- within 0 _ (Decoder.decodeExtN _ _) => by apply within_decodeExtN
    | |- within 0 _ (Decoder.decodeInt _ _ _) => apply within_decodeInt; [done|]
    | |- within 0 _ (Decoder.u8 _) => by apply within_u8_0
    | |- within 0 _ (Decoder.u16 _) => by apply within_read_be
    | |- within 0 _ (Decoder.u32 _) => by apply within_read_be
    | |- within 0 _ (Decoder.u64 _) => by apply within_read_be
    | |- within 0 _ (Decoder.take _ _) => by apply within_take
    | |- within 0 _ (Decoder.lenOf _ _) => by apply within_lenOf
    | |- within 0 _ (_ ≫= _) =>
        first [ by apply Hlc | apply within_then; [done| |intros ? ? ?] ]
    end.
Qed.

Lemma msgpack_total b : (∃ v, Unmarshal b = Ok v) ∨ (∃ e, Unmarshal b = Err e).
Proof.
  unfold Unmarshal.
  assert (decoder_ok (NewDecoder b)) as Hd by (unfold decoder_ok; cbn; lia).
  pose proof (DecodeValue_within (S (length b)) (NewDecoder b) Hd) as Hw.
  unfold within in Hw. unfold Decoder.left in Hw. cbn [pos limit NewDecoder] in Hw.
  specialize (Hw ltac:(lia)).
  destruct (Decoder.DecodeValue _ _) as [[v d]|e| |]; try done; cbn [mbind res_bind]; [|eauto].
  destruct (pos d =? _); eauto.
Qed.

(** ** InjectTopPair *)

(** The two string encoders of the package agree. *)
Lemma encodeStr_eq s : len32 s = true → encodeStr s = Encoder.encodeStr s.
Proof.
  unfold len32. intros Hl. unfold encodeStr, Encoder.encodeStr, Encoder.strHeader.
  set (n := Z.of_nat (length s)) in *.
  replace (n <? 32) with (n <=? 31) by lia.
  destruct (n <=? 31); [done|]. destruct (n <=? 0xff); [done|].
  destruct (n <=? 0xffff) eqn:C; cbn [app].
  - unfold Encoder.be16. replace (u16 n) with n by mlia. by rewrite <- be_put_shift2.
  - unfold Encoder.be32. replace (u32 n) with n by mlia. by rewrite <- be_put_shift4.
Qed.

(** The header reader on a header the encoder wrote. *)
Lemma mapCount_header n post :
  0 ≤ n < 2 ^ 32 →
  mapCountAndHeaderLen (Encoder.EncodeMapHeader n ++ post)
  = Some (n, length (Encoder.EncodeMapHeader n)).
Proof.
  intros Hn. unfold Encoder.EncodeMapHeader, Encoder.be16, Encoder.be32.
  destruct (n <=? 15) eqn:C1; [|destruct (n <=? 0xffff) eqn:C2].
  - cbn [app]. assert (Z.lor 0x80 (u8 n) = 8 * 2 ^ 4 + n) as ->.
    { replace (u8 n) with n by mlia. apply (lor_low 8 n 4); lia. }
    unfold mapCountAndHeaderLen. replace (_ && _) with true by lia.
    rewrite (land_low 8 n 4) by lia. done.
  - replace (u16 n) with n by mlia. rewrite <- be_put_shift2. cbn -[u8 Z.lor Z.shiftl Z.shiftr].
    rewrite lor_bytes2 by mlia. rewrite Z.shiftr_div_pow2 by lia. do 2 f_equal. mlia.
  - replace (u32 n) with n by mlia. rewrite <- be_put_shift4. cbn -[u8 Z.lor Z.shiftl Z.shiftr].
    rewrite lor_bytes4 by mlia. rewrite !Z.shiftr_div_pow2 by lia. do 2 f_equal. mlia.
Qed.

(** The patched header is the header of one more pair. *)
Lemma InjectTopPair_header n post key val :
  0 ≤ n < 2 ^ 32 - 1 →
  InjectTopPair (Encoder.EncodeMapHeader n ++ post) key val
  = Ok (Encoder.EncodeMapHeader (n + 1) ++ post ++ encodeStr key ++ encodeStr val).
Proof.
  intros Hn. unfold InjectTopPair. rewrite mapCount_header by lia.
  rewrite drop_app_length.
  unfold Encoder.EncodeMapHeader at 1 2 3, Encoder.be16, Encoder.be32.
  destruct (n <=? 15) eqn:C1; [|destruct (n <=? 0xffff) eqn:C2].
  - cbn [length Nat.eqb]. destruct (n <? 15) eqn:C3.
    + cbn [mbind res_bind]. unfold Encoder.EncodeMapHeader. replace (n + 1 <=? 15) with true by lia.
      replace (u8 (n + 1)) with (n + 1) by mlia.
      assert (Z.lor 0x80 (n + 1) = 8 * 2 ^ 4 + (n + 1)) as -> by (apply (lor_low 8 _ 4); lia).
      replace (u8 (8 * 2 ^ 4 + (n + 1))) with (8 * 2 ^ 4 + (n + 1)) by mlia. done.
    + assert (n = 15) as -> by lia. done.
  - cbn [length]. rewrite length_be_put. cbn [Nat.eqb]. destruct (n <? 0xffff) eqn:C3.
    + cbn [mbind res_bind]. unfold Encoder.EncodeMapHeader, Encoder.be16.
      replace (n + 1 <=? 15) with false by lia. replace (n + 1 <=? 0xffff) with true by lia.
      replace (u16 (n + 1)) with (n + 1) by mlia. by rewrite <- be_put_shift2.
    + assert (n = 0xffff) as -> by lia. done.
  - cbn [length]. rewrite length_be_put. cbn [Nat.eqb]. replace (n =? 2 ^ 32 - 1) with false by lia.
    cbn [mbind res_bind]. unfold Encoder.EncodeMapHeader, Encoder.be32.
    replace (n + 1 <=? 15) with false by lia. replace (n + 1 <=? 0xffff) with false by lia.
    cbv zeta. replace (u32 (n + 1)) with (n + 1) by mlia. by rewrite <- be_put_shift4.
Qed.

(** ** Properties *)

(** C35. [Unmarshal] reads back every value tree [Marshal] writes: 64-bit integers and
    floats, strings, byte strings and extensions up to 32-bit lengths, arrays
    and maps nested to any depth. *)
Theorem msgpack_roundtrip v : wf v = true → Unmarshal (Marshal v) = Ok v.
Proof. apply unmarshal_marshal. Qed.

Definition sample : value :=
  Map [(Str [113], Array [Int (-40); Int 70000; Float 0; Ext ExtSymbol [97; 98; 99]]);
       (Int (-5), Array [Nil; Bool true; Bin [1; 2]])].

Lemma msgpack_roundtrip_witness : wf sample = true ∧ Unmarshal (Marshal sample) = Ok sample.
Proof. split; [reflexivity|apply (msgpack_roundtrip sample); reflexivity]. Defined.

(** Decoding is fail-loud and total: on every byte string [Unmarshal] returns a value
    or an error; it neither panics on a slice bound nor loops. *)
Theorem msgpack_decode_total b :
  (∃ v, Unmarshal b = Ok v) ∨ (∃ e, Unmarshal b = Err e).
Proof. apply msgpack_total. Qed.

(** [InjectTopPair] on an encoded map is the encoding of the map with the string pair
    appended, at every header width (fixmap, map16, map32 and the two
    promotions between them), without decoding the payload. *)
Theorem InjectTopPair_correct m key val :
  Z.of_nat (length m) < 2 ^ 32 - 1 → len32 key = true → len32 val = true →
  InjectTopPair (Marshal (Map m)) key val = Ok (Marshal (Map (m ++ [(Str key, Str val)]))).
Proof.
  intros Hm Hk Hv. unfold Marshal. cbn [Encoder.Encode].
  rewrite InjectTopPair_header, !encodeStr_eq by (done || lia).
  rewrite length_app, flat_map_app. cbn [length flat_map]. do 2 f_equal.
  - f_equal. lia.
  - by rewrite app_nil_r.
Qed.

Lemma InjectTopPair_correct_witness :
  InjectTopPair (Marshal (Map (replicate 15 (Int 1, Nil)))) [107] [118]
  = Ok (Marshal (Map (replicate 15 (Int 1, Nil) ++ [(Str [107], Str [118])]))).
Proof. apply (InjectTopPair_correct (replicate 15 (Int 1, Nil))); reflexivity. Defined.
