(* ===== verification/Sexpr.v ===== *)
(** * Scheme S-expressions and their wire form (go/internal/sexpr)

    The AST every layer above the store exchanges, its MessagePack wire form
    (symbols and keywords as extension types) and the depth-limited reader. *)

From S2P Require Import Prelude Msgpack.

Module sexpr.
(** [Float] holds the bit pattern of the [float64]. *)
Inductive Expr : Type :=
| Int (z : Z)
| Float (bits : Z)
| Str (s : bytes)
| Bool (b : bool)
| Void
| Bytes (b : bytes)
| Symbol (s : bytes)
| Keyword (s : bytes)
| List (l : list Expr)
| Resource (r : Z).
End sexpr.

Abbreviation Expr := sexpr.Expr.

Definition MaxWireDepth : Z := 64.

(** A [Resource] handle panics: it never travels. *)
Fixpoint encodeWire (e : Expr) : res bytes :=
  match e with
  | sexpr.Int x => Ok (Encoder.Encode (Int x))
  | sexpr.Float x => Ok (Encoder.Encode (Float x))
  | sexpr.Str x => Ok (Encoder.Encode (Str x))
  | sexpr.Bool x => Ok (Encoder.Encode (Bool x))
  | sexpr.Void => Ok (Encoder.Encode Nil)
  | sexpr.Symbol x => Ok (Encoder.Encode (Ext ExtSymbol x))
  | sexpr.Keyword x => Ok (Encoder.Encode (Ext ExtKeyword x))
  | sexpr.Bytes x => Ok (Encoder.Encode (Bin x))
  | sexpr.List l =>
      body ← (fix go (l : list Expr) : res bytes :=
                match l with
                | [] => Ok []
                | x :: l' => a ← encodeWire x; b ← go l'; Ok (a ++ b)
                end) l;
      Ok (Encoder.EncodeArrayHeader (Z.of_nat (length l)) ++ body)
  | sexpr.Resource _ => Panic
  end.

Definition ToWire (e : Expr) : res bytes := encodeWire e.

Fixpoint wireFromValue (v : value) (depth : Z) : res Expr :=
  if depth >? MaxWireDepth then Err "wire node nesting deeper than 64"
  else
    match v with
    | Int x => Ok (sexpr.Int x)
    | Float x => Ok (sexpr.Float x)
    | Str x => Ok (sexpr.Str x)
    | Bool x => Ok (sexpr.Bool x)
    | Nil => Ok sexpr.Void
    | Bin x => Ok (sexpr.Bytes x)
    | Array l =>
        items ← (fix go (l : list value) : res (list Expr) :=
                   match l with
                   | [] => Ok []
                   | x :: l' => a ← wireFromValue x (depth + 1); b ← go l'; Ok (a :: b)
                   end) l;
        Ok (sexpr.List items)
    | Ext ty data =>
        if ty =? ExtSymbol then Ok (sexpr.Symbol data)
        else if ty =? ExtKeyword then Ok (sexpr.Keyword data)
        else Err "unknown ext type in wire program"
    | Map _ => Err "maps are not allowed inside a wire program"
    | Raw _ => Err "unexpected value in wire program"
    end.

Definition UnmarshalWire (data : bytes) : res Expr :=
  v ← Unmarshal data; wireFromValue v 0.

(** Response rows: symbols and keywords degrade to strings. *)
Fixpoint ToPlainValue (e : Expr) : value :=
  match e with
  | sexpr.Int x => Int x
  | sexpr.Float x => Float x
  | sexpr.Str x => Str x
  | sexpr.Symbol x => Str x
  | sexpr.Keyword x => Str x
  | sexpr.Bool x => Bool x
  | sexpr.Bytes x => Bin x
  | sexpr.Void => Nil
  | sexpr.List l => Array (map ToPlainValue l)
  | sexpr.Resource _ => Nil
  end.

(** ** The value tree of an expression *)

Fixpoint wireValue (e : Expr) : value :=
  match e with
  | sexpr.Int x => Int x
  | sexpr.Float x => Float x
  | sexpr.Str x => Str x
  | sexpr.Bool x => Bool x
  | sexpr.Void => Nil
  | sexpr.Symbol x => Ext ExtSymbol x
  | sexpr.Keyword x => Ext ExtKeyword x
  | sexpr.Bytes x => Bin x
  | sexpr.List l => Array (map wireValue l)
  | sexpr.Resource _ => Nil
  end.

(** No handle anywhere, machine-width numbers, 32-bit lengths. *)
Fixpoint sendable (e : Expr) : bool :=
  match e with
  | sexpr.List l => len32 l && forallb sendable l
  | sexpr.Resource _ => false
  | _ => wf (wireValue e)
  end.

(** Lists nested inside the expression. *)
Fixpoint nesting (e : Expr) : nat :=
  match e with
  | sexpr.List l => foldr (fun x n => Nat.max (S (nesting x)) n) 0%nat l
  | _ => 0%nat
  end.

Section expr_induction.
Variable P : Expr → Prop.
Hypothesis Hleaf : ∀ e, (∀ l, e ≠ sexpr.List l) → P e.
Hypothesis Hlist : ∀ l, Forall P l → P (sexpr.List l).

Fixpoint expr_nested_ind (e : Expr) : P e.
Proof.
  destruct e as [z|f|s|b| |b|s|s|l|r].
  9:{ apply Hlist. induction l as [|x l IHl].
      - constructor.
      - constructor; [exact (expr_nested_ind x)|exact IHl]. }
  all: apply Hleaf; discriminate.
Defined.
End expr_induction.

Lemma encodeWire_list l :
  encodeWire (sexpr.List l)
  = (body ← mapM encodeWire l;
     Ok (Encoder.EncodeArrayHeader (Z.of_nat (length l)) ++ concat body)).
Proof.
  cbn [encodeWire].
  assert (∀ l, (fix go (l : list Expr) : res bytes :=
                match l with
                | [] => Ok []
                | x :: l' => a ← encodeWire x; b ← go l'; Ok (a ++ b)
                end) l = (body ← mapM encodeWire l; Ok (concat body))) as ->.
  { clear l. induction l as [|x l IH]; [done|]. cbn [mapM].
    rewrite IH. destruct (encodeWire x), (mapM encodeWire l); done. }
  by destruct (mapM encodeWire l).
Qed.

Lemma wireFromValue_array l depth :
  wireFromValue (Array l) depth
  = if depth >? MaxWireDepth then Err "wire node nesting deeper than 64"
    else (items ← mapM (fun v => wireFromValue v (depth + 1)) l; Ok (sexpr.List items)).
Proof.
  cbn [wireFromValue]. destruct (depth >? MaxWireDepth); [done|].
  assert (∀ l, (fix go (l : list value) : res (list Expr) :=
                   match l with
                   | [] => Ok []
                   | x :: l' => a ← wireFromValue x (depth + 1); b ← go l'; Ok (a :: b)
                   end) l = mapM (fun v => wireFromValue v (depth + 1)) l) as ->; [|done].
  clear l. induction l as [|x l IH]; [done|]. cbn [mapM]. rewrite IH.
  by destruct (wireFromValue x (depth + 1)), (mapM _ l).
Qed.

Lemma sendable_wf e : sendable e = true → wf (wireValue e) = true.
Proof.
  induction e as [e Hl|l IH] using expr_nested_ind; intros Hs.
  - destruct e; try done. by destruct (Hl l).
  - cbn [sendable wireValue wf] in *. apply andb_prop in Hs as [Hl Hs].
    unfold len32 in *. rewrite length_map. apply andb_true_intro. split; [done|].
    apply forallb_forall. intros v [x [<- Hx]]%in_map_iff.
    rewrite Forall_forall in IH. apply IH; [by apply list_elem_of_In|].
    rewrite forallb_forall in Hs. by apply Hs.
Qed.

Lemma ToWire_eq e : sendable e = true → ToWire e = Ok (Marshal (wireValue e)).
Proof.
  unfold ToWire, Marshal. induction e as [e Hl|l IH] using expr_nested_ind; intros Hs.
  - destruct e; try done. by destruct (Hl l).
  - rewrite encodeWire_list. cbn [sendable wireValue] in *. apply andb_prop in Hs as [_ Hs].
    assert (mapM encodeWire l = Ok (map (fun x => Encoder.Encode (wireValue x)) l)) as ->.
    { rewrite forallb_forall in Hs. rewrite Forall_forall in IH.
      induction l as [|x l IHl]; [done|]. cbn [mapM map].
      rewrite IH by (left || (apply Hs; left; done)). cbn.
      rewrite IHl; [done| |].
      - intros y Hy. apply IH. by right.
      - intros y Hy. apply Hs. by right. }
    cbn. rewrite length_map. f_equal. f_equal. rewrite flat_map_concat_map, map_map. done.
Qed.

(** What the reader makes of the tree: the expression, or the depth error. *)
Lemma wireFromValue_eq e depth :
  sendable e = true → 0 ≤ depth →
  wireFromValue (wireValue e) depth
  = if depth + Z.of_nat (nesting e) >? MaxWireDepth
    then Err "wire node nesting deeper than 64" else Ok e.
Proof.
  revert depth. induction e as [e Hl|l IH] using expr_nested_ind; intros depth Hs Hd.
  - destruct e; cbn [wireValue nesting wireFromValue] in *;
      try (replace (depth + Z.of_nat 0) with depth by lia); try done.
    by destruct (Hl l).
  - cbn [wireValue]. rewrite wireFromValue_array. cbn [sendable] in Hs.
    apply andb_prop in Hs as [_ Hs]. unfold MaxWireDepth in *.
    destruct (depth >? 64) eqn:C.
    { replace (_ >? _) with true by lia. done. }
    assert (mapM (fun v => wireFromValue v (depth + 1)) (map wireValue l)
      = if depth + Z.of_nat (nesting (sexpr.List l)) >? 64
        then Err "wire node nesting deeper than 64" else Ok l) as ->.
    { cbn [nesting]. induction l as [|x l IHl]; [cbn; by replace (_ >? _) with false by lia|].
      cbn [forallb] in Hs. apply andb_prop in Hs as [Hx Hs].
      apply Forall_cons in IH as [IHx IH]. cbn [map mapM foldr].
      rewrite IHx, IHl by (done || lia). clear IHx IHl IH.
      set (m := foldr _ _ l). destruct (depth + 1 + Z.of_nat (nesting x) >? 64) eqn:C1.
      - cbn [mbind res_bind]. replace (_ >? _) with true by lia. done.
      - cbn [mbind res_bind]. destruct (depth + Z.of_nat m >? 64) eqn:C2.
        + replace (_ >? _) with true by lia. done.
        + replace (_ >? _) with false by lia. done. }
    by destruct (depth + Z.of_nat (nesting (sexpr.List l)) >? 64).
Qed.

(** ** Properties *)

(** The wire form round-trips exactly up to the depth limit: a program whose lists
    nest at most 64 deep is read back as sent, and any deeper one is refused
    with the nesting error. *)
Theorem wire_roundtrip e :
  sendable e = true →
  (w ← ToWire e; UnmarshalWire w)
  = if Z.of_nat (nesting e) >? MaxWireDepth
    then Err "wire node nesting deeper than 64" else Ok e.
Proof.
  intros Hs. rewrite ToWire_eq by done. cbn [mbind res_bind]. unfold UnmarshalWire.
  rewrite unmarshal_marshal by (by apply sendable_wf). cbn [mbind res_bind].
  by rewrite wireFromValue_eq by (done || lia).
Qed.

Definition sample_program : Expr :=
  sexpr.List [sexpr.Symbol [102; 111; 114]; sexpr.List [sexpr.Keyword [97]; sexpr.Int (-3)];
              sexpr.Void; sexpr.Bytes [0; 255]].

Lemma wire_roundtrip_witness :
  (w ← ToWire sample_program; UnmarshalWire w)
  = if Z.of_nat (nesting sample_program) >? MaxWireDepth
    then Err "wire node nesting deeper than 64" else Ok sample_program.
Proof. apply (wire_roundtrip sample_program). reflexivity. Defined.

(** Whatever bytes arrive, [UnmarshalWire] returns an expression or an error, and an
    expression it returns holds no resource handle. *)
Theorem wire_read_safe data :
  (∃ e, UnmarshalWire data = Ok e ∧ ToWire e ≠ Panic) ∨ (∃ m, UnmarshalWire data = Err m).
Proof.
  unfold UnmarshalWire. assert (∀ v depth,
    (∃ e, wireFromValue v depth = Ok e ∧ ∃ w, encodeWire e = Ok w)
    ∨ (∃ m, wireFromValue v depth = Err m)) as Hv.
  { induction v as [|b|z|f|s|b|l IH|m IH|t d|b] using value_nested_ind; intros depth;
      try (cbn [wireFromValue]; repeat case_match; eauto 6; fail).
    rewrite wireFromValue_array. destruct (depth >? _); [eauto|].
    assert ((∃ es, mapM (fun v => wireFromValue v (depth + 1)) l = Ok es
                   ∧ ∃ ws, mapM encodeWire es = Ok ws)
            ∨ ∃ m, mapM (fun v => wireFromValue v (depth + 1)) l = Err m)
      as [(es&->&ws&Hw)|[m ->]]; [..|cbn; eauto].
    { induction IH as [|x l Hx Hl IHl]; [left; exists []; cbn; eauto|]. cbn [mapM].
      destruct (Hx (depth + 1)) as [(e&->&w&Hw)|[m ->]]; [|cbn; eauto].
      destruct IHl as [(es&->&ws&Hws)|[m ->]]; [|cbn; eauto].
      left. exists (e :: es). cbn. rewrite Hw. cbn. rewrite Hws. cbn. eauto. }
    left. exists (sexpr.List es). split; [done|]. rewrite encodeWire_list, Hw. cbn. eauto. }
  destruct (msgpack_total data) as [[v ->]|[m ->]]; [|cbn; eauto].
  cbn. destruct (Hv v 0) as [(e&->&w&Hw)|[m ->]]; [|eauto].
  left. exists e. split; [done|]. unfold ToWire. by rewrite Hw.
Qed.
