(* ===== verification/Keys.v ===== *)
(** * Datom keys (go/internal/eavt/keys.go)

    The order-preserving value encodings, the four index-key builders and the
    field decoders, with [DeriveIndexKeys] (eavt.go) and the field split of
    [ScanDatoms] (write.go), which read the same layouts. *)

From S2P Require Import Prelude Msgpack Sexpr.

(** ** Value-type ids (resolver.go) *)
Definition DbTypeString : Z := 20.
Definition DbTypeRef : Z := 21.
Definition DbTypeLong : Z := 22.
Definition DbTypeKeyword : Z := 23.
Definition DbTypeBoolean : Z := 24.
Definition DbTypeInstant : Z := 25.
Definition DbTypeBytes : Z := 26.
Definition DbTypeFloat : Z := 27.
Definition DbTypeBlob : Z := 28.

Inductive EncodeMode : Type := EmRef | EmVariable | EmBlob | EmFixed.

#[export] Instance EncodeMode_eq_dec : EqDecision EncodeMode.
Proof. solve_decision. Defined.

(** ** Suffix *)

Definition EncodeSuffix (t : Z) (retracted : bool) : Z :=
  let s := u64 (Z.shiftl (u64 t) 1) in
  if retracted then Z.lor s 1 else s.

Definition DecodeSuffix (encoded : Z) : Z * bool :=
  (i64 (Z.shiftr encoded 1), negb (Z.land encoded 1 =? 0)).

(** ** Value encodings *)

Definition signBit : Z := 2 ^ 63.

Definition EncodeInt (n : Z) : bytes := be_put 8 (Z.lxor (u64 n) signBit).
Definition EncodeEid (eid : Z) : bytes := EncodeInt eid.

(** On the bit pattern of the [float64]. *)
Definition EncodeFloat (f : Z) : bytes :=
  let x := f in
  be_put 8 (if Z.shiftr x 63 =? 1 then Z.lxor x (2 ^ 64 - 1) else Z.lxor x signBit).

Fixpoint firstNul (s : bytes) : nat :=
  match s with
  | [] => 0
  | b :: s' => if b =? 0 then 0 else S (firstNul s')
  end.

(** The 8-byte block loop; one block per turn, so the length is fuel enough. *)
Fixpoint encodeBlocks (fuel : nat) (s : bytes) : bytes :=
  match fuel with
  | O => []
  | S fuel' =>
      match s with
      | [] => []
      | _ :: _ =>
          if Nat.ltb 8 (length s) then
            take 8 s ++ 0xff :: encodeBlocks fuel' (drop 8 s)
          else s ++ replicate (8 - length s) 0 ++ [Z.of_nat (length s)]
      end
  end.

Definition EncodeVariable (s : bytes) : bytes :=
  let n := firstNul s in encodeBlocks n (take n s).

Definition EncodeVariableUnordered (data : bytes) : bytes :=
  be_put 4 (u32 (Z.of_nat (length data))) ++ data.

(** [strconv.ParseInt(s, 10, 64)]: [None] is any error (syntax or range). *)
Definition digit (b : Z) : bool := (48 <=? b) && (b <=? 57).
Definition decimal (s : bytes) : Z := fold_left (fun n b => 10 * n + (b - 48)) s 0.
Definition ParseInt (s : bytes) : option Z :=
  let '(neg, ds) :=
    match s with
    | b :: s' => if b =? 45 then (true, s') else if b =? 43 then (false, s') else (false, s)
    | [] => (false, [])
    end in
  if bool_decide (ds = []) || negb (forallb digit ds) then None
  else
    let n := if neg then - decimal ds else decimal ds in
    if (- 2 ^ 63 <=? n) && (n <? 2 ^ 63) then Some n else None.

Section EncodeValue.
(** [strconv.ParseFloat(s, 64)], as the bit pattern; [None] is an error. *)
Variable ParseFloat : bytes → option Z.

Definition EncodeValue (v : bytes) (mode : EncodeMode) (refEid : Z) : res bytes :=
  match mode with
  | EmRef => Ok (EncodeEid refEid)
  | EmVariable => Ok (EncodeVariable v)
  | EmBlob => Ok (EncodeVariableUnordered v)
  | EmFixed =>
      if bool_decide (v = bs "true") then Ok (EncodeInt 1)
      else if bool_decide (v = bs "false") then Ok (EncodeInt 0)
      else match ParseInt v with
           | Some n => Ok (EncodeInt n)
           | None =>
               match ParseFloat v with
               | Some f => Ok (EncodeFloat f)
               | None => Err "cannot encode fixed value (not int/float)"
               end
           end
  end.
End EncodeValue.

(** ** Key builders *)

Definition BuildEavtKey (eid attr : Z) (valueEncoded : bytes) (t : Z) (retracted : bool) : bytes :=
  EncodeEid eid ++ be_put 4 attr ++ valueEncoded ++ be_put 8 (EncodeSuffix t retracted).

Definition BuildAevtKey (attr eid : Z) (valueEncoded : bytes) (t : Z) (retracted : bool) : bytes :=
  be_put 4 attr ++ EncodeEid eid ++ valueEncoded ++ be_put 8 (EncodeSuffix t retracted).

Definition BuildAvetKey (attr : Z) (valueEncoded : bytes) (eid t : Z) (retracted : bool) : bytes :=
  be_put 4 attr ++ valueEncoded ++ EncodeEid eid ++ be_put 8 (EncodeSuffix t retracted).

Definition BuildVaetKey (valueEncoded : bytes) (attr eid t : Z) (retracted : bool) : bytes :=
  valueEncoded ++ be_put 4 attr ++ EncodeEid eid ++ be_put 8 (EncodeSuffix t retracted).

Record EavtEntry : Type := { CF : Z; Key : bytes }.

(** [copy(p[off:], b)] into a buffer it fits in. *)
Definition store (p : bytes) (off : nat) (b : bytes) : bytes :=
  take off p ++ b ++ drop (off + length b) p.
Definition storeBE64 (p : bytes) (off : nat) (v : Z) : bytes := store p off (be_put 8 v).
Definition storeBE32 (p : bytes) (off : nat) (v : Z) : bytes := store p off (be_put 4 v).

(** The write path fills preallocated buffers in place. *)
Definition BuildEavtEntries (eid attr : Z) (encodedValue : bytes) (t : Z) (retracted : bool)
    (mode : EncodeMode) (indexed : bool) : list EavtEntry :=
  let sf := EncodeSuffix t retracted in
  let ex := Z.lxor (u64 eid) signBit in
  let vlen := length encodedValue in
  let klen := (8 + 4 + vlen + 8)%nat in
  let p := replicate klen 0 in
  let p0 := storeBE64 (store (storeBE32 (storeBE64 p 0 ex) 8 attr) 12 encodedValue) (12 + vlen) sf in
  let p1 := storeBE64 (store (storeBE64 (storeBE32 p 0 attr) 4 ex) 12 encodedValue) (12 + vlen) sf in
  let out := [{| CF := 0; Key := p0 |}; {| CF := 1; Key := p1 |}] in
  let p2 := storeBE64 (storeBE64 (store (storeBE32 p 0 attr) 4 encodedValue) (4 + vlen) ex) (12 + vlen) sf in
  let avet := [{| CF := 2; Key := p2 |}] in
  if bool_decide (mode = EmRef) then
    let p3 := storeBE64 (storeBE64 (storeBE32 (store p 0 encodedValue) vlen attr) (vlen + 4) ex) (vlen + 12) sf in
    out ++ [{| CF := 3; Key := p3 |}] ++ (if indexed then avet else [])
  else if indexed then out ++ avet
  else out.

(** ** Decoding *)

Definition DecodeInt64 (raw : Z) : Z := i64 (Z.lxor raw signBit).
Definition DecodeEid (raw : Z) : Z := DecodeInt64 raw.

Definition DecodeFloat64 (raw : Z) : Z :=
  if Z.shiftr raw 63 =? 1 then Z.lxor raw signBit else Z.lxor raw (2 ^ 64 - 1).

(** Indexing past the end panics. *)
Fixpoint beLoop (width : Z) (n : nat) (v : Z) (data : bytes) : res Z :=
  match n with
  | O => Ok v
  | S n' =>
      match data with
      | [] => Panic
      | b :: data' => beLoop width n' (Z.lor ((Z.shiftl v 8) `mod` 2 ^ width) b) data'
      end
  end.
Definition BeUint64 (data : bytes) (start : nat) : res Z := beLoop 64 8 0 (drop start data).
Definition BeUint32 (data : bytes) (start : nat) : res Z := beLoop 32 4 0 (drop start data).

Fixpoint decodeBlocks (fuel : nat) (data b : bytes) : bytes :=
  match fuel with
  | O => b
  | S fuel' =>
      if Nat.leb 9 (length data) then
        let control := nth 8 data 0 in
        let b := b ++ take 8 data in
        if negb (control =? 0xff) then
          if control <? 8 then take (length b - Z.to_nat (8 - control)) b else b
        else decodeBlocks fuel' (drop 9 data) b
      else b
  end.
Definition DecodeVariableStr (data : bytes) (start : nat) : bytes :=
  decodeBlocks (length data) (drop start data) [].

Definition DecodeStoredValue (data : bytes) (vt : Z) : res Expr :=
  let int (f : Z → Expr) (zero : Expr) : res Expr :=
    if Nat.leb 8 (length data) then x ← BeUint64 data 0; Ok (f x) else Ok zero in
  if vt =? DbTypeRef then int (fun x => sexpr.Int (DecodeInt64 x)) (sexpr.Int 0)
  else if vt =? DbTypeBoolean then
    int (fun x => sexpr.Bool (negb (DecodeInt64 x =? 0))) (sexpr.Bool false)
  else if (vt =? DbTypeLong) || (vt =? DbTypeInstant) then
    int (fun x => sexpr.Int (DecodeInt64 x)) (sexpr.Int 0)
  else if vt =? DbTypeFloat then int (fun x => sexpr.Float (DecodeFloat64 x)) (sexpr.Float 0)
  else if (vt =? DbTypeBytes) || (vt =? DbTypeBlob) then
    match data with
    | d0 :: d1 :: d2 :: d3 :: _ =>
        let n := Z.lor (Z.lor (Z.lor (Z.shiftl d0 24) (Z.shiftl d1 16)) (Z.shiftl d2 8)) d3 in
        let m := Z.min n (Z.of_nat (length data) - 4) in
        b ← slice data 4 (4 + m); Ok (sexpr.Bytes b)
    | _ => Ok (sexpr.Bytes [])
    end
  else Ok (sexpr.Str (DecodeVariableStr data 0)).

(** The encodings the scanner builds its bounds with. *)
Definition EncodeFixed (val : Expr) : bytes :=
  match val with
  | sexpr.Int v => be_put 8 (Z.lxor (u64 v) signBit)
  | sexpr.Float x =>
      be_put 8 (if Z.shiftr x 63 =? 1 then Z.lxor x (2 ^ 64 - 1) else Z.lxor x signBit)
  | sexpr.Bool true => 0x80 :: replicate 7 0
  | _ => replicate 8 0
  end.

Definition EncodeBoundValue (val : Expr) : bytes :=
  match val with
  | sexpr.Str v => EncodeVariable v
  | sexpr.Keyword v => EncodeVariable v
  | sexpr.Bytes v => EncodeVariableUnordered v
  | _ => EncodeFixed val
  end.

(** [strings.ToLower]; only the Latin letters matter for the names compared. *)
Definition toLower (s : bytes) : bytes :=
  map (fun b => if (65 <=? b) && (b <=? 90) then b + 32 else b) s.

Definition CfNameToID (name : bytes) : Z :=
  let n := toLower name in
  if bool_decide (n = bs "eavt") then 0
  else if bool_decide (n = bs "aevt") then 1
  else if bool_decide (n = bs "avet") then 2
  else if bool_decide (n = bs "vaet") then 3
  else 0.

Definition IndexOrder (index : bytes) : list bytes :=
  let n := toLower index in
  if bool_decide (n = bs "eavt") then [bs "e"; bs "a"; bs "v"]
  else if bool_decide (n = bs "aevt") then [bs "a"; bs "e"; bs "v"]
  else if bool_decide (n = bs "avet") then [bs "a"; bs "v"; bs "e"]
  else if bool_decide (n = bs "vaet") then [bs "v"; bs "a"; bs "e"]
  else [bs "e"; bs "a"; bs "v"].

(** ** eavt.go: index keys derived from a CF-0 key *)

Definition DeriveIndexKeys (k : bytes) (indexed isRef : bool) : res (list EavtEntry) :=
  let n := Z.of_nat (length k) in
  if n <? 20 then Ok []
  else
    aid ← BeUint32 k 8;
    let a := [u8 (Z.shiftr aid 24); u8 (Z.shiftr aid 16); u8 (Z.shiftr aid 8); u8 aid] in
    e ← slice k 0 8;
    rest ← slice k 12 n;
    v ← slice k 12 (n - 8);
    sf ← slice k (n - 8) n;
    Ok ([{| CF := 1; Key := a ++ e ++ rest |}]
        ++ (if indexed then [{| CF := 2; Key := a ++ v ++ e ++ sf |}] else [])
        ++ (if isRef then [{| CF := 3; Key := v ++ a ++ e ++ sf |}] else [])).

(** ** write.go: the field split of [ScanDatoms] *)

(** [(eid, aid, vStart, vEnd)] for an index key; [None] for another family. *)
Definition datomFields (cf : Z) (key : bytes) : res (option (Z * Z * Z * Z)) :=
  let n := Z.of_nat (length key) in
  let at_ (off : Z) := Z.to_nat off in
  if cf =? 0 then
    e ← BeUint64 key (at_ 0); a ← BeUint32 key (at_ 8);
    Ok (Some (DecodeEid e, a, 12, n - 8))
  else if cf =? 1 then
    a ← BeUint32 key (at_ 0); e ← BeUint64 key (at_ 4);
    Ok (Some (DecodeEid e, a, 12, n - 8))
  else if cf =? 2 then
    a ← BeUint32 key (at_ 0); e ← BeUint64 key (at_ (n - 16));
    Ok (Some (DecodeEid e, a, 4, n - 16))
  else if cf =? 3 then
    e ← BeUint64 key (at_ (n - 12)); a ← BeUint32 key (at_ (n - 16));
    Ok (Some (DecodeEid e, a, 0, n - 20))
  else Ok None.

(** ** Integers *)

Lemma lxor_signBit n : is_i64 n → Z.lxor (u64 n) signBit = n + 2 ^ 63.
Proof.
  intros Hn. rewrite u64_eq by done. unfold is_i64, signBit in *. case_bool_decide.
  - rewrite Z.lxor_comm, Z.lxor_lor.
    + change (2 ^ 63) with (1 * 2 ^ 63). rewrite lor_low; lia.
    + apply Z.bits_inj'. intros i Hi. rewrite Z.land_spec, Z.bits_0.
      destruct (decide (i = 63)) as [->|]; [|by rewrite Z.pow2_bits_false].
      rewrite <- (Z.mod_small n (2 ^ 63)) by lia. rewrite Z.mod_pow2_bits_high by lia.
      apply andb_false_r.
  - replace (n + 2 ^ 64) with (1 * 2 ^ 63 + (n + 2 ^ 63)) by lia.
    rewrite <- (lor_low 1 (n + 2 ^ 63) 63) by lia.
    rewrite <- Z.lxor_lor.
    + rewrite Z.mul_1_l, (Z.lxor_comm (2 ^ 63)), Z.lxor_assoc, Z.lxor_nilpotent. apply Z.lxor_0_r.
    + apply Z.bits_inj'. intros i Hi. rewrite Z.mul_1_l, Z.land_spec, Z.bits_0.
      destruct (decide (i = 63)) as [->|]; [|by rewrite Z.pow2_bits_false].
      rewrite <- (Z.mod_small (n + 2 ^ 63) (2 ^ 63)) by lia. rewrite Z.mod_pow2_bits_high by lia.
      apply andb_false_r.
Qed.

Lemma EncodeInt_eq n : is_i64 n → EncodeInt n = be_put 8 (n + 2 ^ 63).
Proof. intros. unfold EncodeInt. by rewrite lxor_signBit. Qed.

Lemma length_EncodeInt n : length (EncodeInt n) = 8%nat.
Proof. apply length_be_put. Qed.

Lemma bcmp_EncodeInt a b :
  is_i64 a → is_i64 b → bcmp (EncodeInt a) (EncodeInt b) = (a ?= b).
Proof.
  intros Ha Hb. rewrite !EncodeInt_eq by done. unfold is_i64 in *.
  rewrite bcmp_be_put by lia. destruct (Z.compare_spec a b), (Z.compare_spec (a + 2 ^ 63) (b + 2 ^ 63)); lia || done.
Qed.

(** Reading a big-endian field out of a key. *)
Lemma beLoop_get width n v :
  width = 8 * Z.of_nat n →
  ∀ post k, (k ≤ n)%nat → 0 ≤ v < 2 ^ (8 * Z.of_nat k) →
  ∀ c, length c = (n - k)%nat → bytes_ok c →
  beLoop width (n - k) v (c ++ post) = Ok (v * 2 ^ (8 * Z.of_nat (n - k)) + be_get c).
Proof.
  intros -> post k. remember (n - k)%nat as j eqn:Ej. revert v k Ej.
  induction j as [|j IH]; intros v k Ej Hk Hv c Hc Hok.
  - apply nil_length_inv in Hc as ->. cbn. f_equal. lia.
  - destruct c as [|x c]; [done|]. apply Forall_cons in Hok as [Hx Hok].
    injection Hc as Hc. cbn [app beLoop].
    assert (Z.lor (Z.shiftl v 8 `mod` 2 ^ (8 * Z.of_nat n)) x = v * 2 ^ 8 + x) as ->.
    { rewrite Z.shiftl_mul_pow2 by lia. unfold is_u8 in Hx.
      rewrite Z.mod_small; [by apply lor_low; lia|]. split; [lia|].
      replace (8 * Z.of_nat n) with (8 + 8 * Z.of_nat k + 8 * Z.of_nat (n - k - 1)) by lia.
      rewrite Z.pow_add_r, Z.pow_add_r by lia.
      assert (1 ≤ 2 ^ (8 * Z.of_nat (n - k - 1))) by (apply Z.pow_le_mono_r with (b := 0); lia).
      nia. }
    rewrite (IH _ (S k)); [|lia|lia| |done|done].
    + rewrite be_get_cons, Hc. f_equal.
      replace (8 * Z.of_nat (S j)) with (8 + 8 * Z.of_nat j) by lia.
      rewrite Z.pow_add_r by lia. lia.
    + unfold is_u8 in Hx. replace (8 * Z.of_nat (S k)) with (8 + 8 * Z.of_nat k) by lia.
      rewrite Z.pow_add_r by lia. change (2 ^ 8) with 256. nia.
Qed.

Lemma BeUint64_at start pre b post :
  start = length pre → length b = 8%nat → bytes_ok b →
  BeUint64 (pre ++ b ++ post) start = Ok (be_get b).
Proof.
  intros -> Hl Hok. unfold BeUint64. rewrite drop_app_length.
  etransitivity; [exact (beLoop_get 64 8 0 eq_refl post 0 ltac:(lia) ltac:(simpl; lia) b Hl Hok)|].
  f_equal.
Qed.

Lemma BeUint32_at start pre b post :
  start = length pre → length b = 4%nat → bytes_ok b →
  BeUint32 (pre ++ b ++ post) start = Ok (be_get b).
Proof.
  intros -> Hl Hok. unfold BeUint32. rewrite drop_app_length.
  etransitivity; [exact (beLoop_get 32 4 0 eq_refl post 0 ltac:(lia) ltac:(simpl; lia) b Hl Hok)|].
  f_equal.
Qed.

Lemma DecodeInt64_get n : is_i64 n → DecodeInt64 (be_get (EncodeInt n)) = n.
Proof.
  intros Hn. unfold DecodeInt64, EncodeInt.
  rewrite be_get_put, Z.mod_small.
  - unfold signBit. rewrite Z.lxor_assoc, Z.lxor_nilpotent, Z.lxor_0_r. by apply i64_u64.
  - rewrite lxor_signBit by done. unfold is_i64 in Hn. change (8 * Z.of_nat 8) with 64. lia.
Qed.

Lemma EncodeSuffix_eq t retracted :
  0 ≤ t < 2 ^ 63 → EncodeSuffix t retracted = 2 * t + Z.b2z retracted.
Proof.
  intros Ht. unfold EncodeSuffix. rewrite Z.shiftl_mul_pow2 by lia.
  rewrite (u64_small t) by (unfold is_u64; lia).
  rewrite (u64_small (t * 2 ^ 1)) by (unfold is_u64; lia).
  destruct retracted; cbn [Z.b2z]; [rewrite lor_low|]; lia.
Qed.

Lemma DecodeSuffix_Encode t retracted :
  0 ≤ t < 2 ^ 63 → DecodeSuffix (EncodeSuffix t retracted) = (t, retracted).
Proof.
  intros Ht. rewrite EncodeSuffix_eq by done. unfold DecodeSuffix.
  rewrite Z.shiftr_div_pow2 by lia. change 1 with (Z.ones 1) at 2. rewrite Z.land_ones by lia.
  assert (0 ≤ Z.b2z retracted < 2) by (destruct retracted; cbn; lia).
  replace ((2 * t + Z.b2z retracted) / 2 ^ 1) with t by mlia.
  replace ((2 * t + Z.b2z retracted) `mod` 2 ^ 1) with (Z.b2z retracted) by mlia.
  rewrite i64_small by (unfold is_i64; lia). by destruct retracted.
Qed.

(** ** Strings *)

(** What [EncodeVariable] keeps of a string: the bytes before the first NUL. *)
Definition cut (s : bytes) : bytes := take (firstNul s) s.
Definition nulfree (s : bytes) : Prop := Forall (fun b => 0 < b) s.

Lemma firstNul_le s : (firstNul s ≤ length s)%nat.
Proof. induction s as [|b s IH]; simpl; [done|]. case_match; lia. Qed.

Lemma length_cut s : length (cut s) = firstNul s.
Proof. unfold cut. rewrite length_take. pose proof (firstNul_le s). lia. Qed.

Lemma cut_nulfree s : bytes_ok s → nulfree (cut s).
Proof.
  unfold cut, nulfree. induction 1 as [|b s Hb Hs IH]; simpl; [done|].
  destruct (b =? 0) eqn:E; cbn [take]; constructor; auto. unfold is_u8 in Hb. lia.
Qed.

Lemma cut_id s : nulfree s → cut s = s.
Proof.
  unfold cut. induction 1 as [|b s Hb Hs IH]; simpl; [done|].
  replace (b =? 0) with false by lia. cbn [take]. by rewrite IH.
Qed.

(** Padding short strings with NULs keeps their order. *)
Lemma bcmp_pad k s t x y :
  nulfree s → nulfree t → (length s ≤ k)%nat → (length t ≤ k)%nat →
  bcmp (s ++ replicate (k - length s) 0 ++ x) (t ++ replicate (k - length t) 0 ++ y)
  = match bcmp s t with Eq => bcmp x y | c => c end.
Proof.
  revert s t. induction k as [|k IH]; intros s t Hs Ht Ls Lt.
  - apply Nat.le_0_r, nil_length_inv in Ls as ->. by apply Nat.le_0_r, nil_length_inv in Lt as ->.
  - destruct Hs as [|a s Ha Hs], Ht as [|b t Hb Ht]; cbn [length app] in *.
    + cbn [Nat.sub replicate app bcmp].
      specialize (IH [] [] ltac:(constructor) ltac:(constructor) ltac:(simpl; lia) ltac:(simpl; lia)).
      by rewrite !Nat.sub_0_r in IH.
    + cbn [Nat.sub replicate app bcmp]. destruct (Z.compare_spec 0 b); [lia|done|lia].
    + cbn [Nat.sub replicate app bcmp]. destruct (Z.compare_spec a 0); [lia|lia|done].
    + cbn [Nat.sub bcmp]. destruct (a ?= b); [|done|done]. apply IH; try done; lia.
Qed.

(** A string that outlasts a different one compares by its head. *)
Lemma bcmp_app_long a b t :
  (length t ≤ length a)%nat → a ≠ t → bcmp (a ++ b) t = bcmp a t.
Proof.
  revert t. induction a as [|x a IH]; intros [|y t] Hl Hne; cbn [length app bcmp] in *; try done; try lia.
  destruct (Z.compare_spec x y) as [->| |]; [|done|done]. apply IH; [lia|congruence].
Qed.

Lemma nulfree_split n s : nulfree s → nulfree (take n s) ∧ nulfree (drop n s).
Proof. intros H. split; [by apply Forall_take|by apply Forall_drop]. Qed.

(** A long block against a final one. *)
Lemma bcmp_long_short s t x y :
  nulfree s → nulfree t → (8 < length s)%nat → (length t ≤ 8)%nat →
  bcmp (take 8 s ++ 0xff :: x) (t ++ replicate (8 - length t) 0 ++ Z.of_nat (length t) :: y)
  = bcmp s t ∧ s ≠ t.
Proof.
  intros Hs Ht Ls Lt.
  pose proof (bcmp_pad 8 (take 8 s) t (0xff :: x) (Z.of_nat (length t) :: y)
    (proj1 (nulfree_split 8 s Hs)) Ht) as P.
  assert (length (take 8 s) = 8)%nat as L8 by (rewrite length_take; lia).
  rewrite L8 in P. cbn [Nat.sub replicate app] in P.
  rewrite P by lia. clear P.
  split; [|by intros ->; lia].
  destruct (decide (take 8 s = t)) as [<-|Hne].
  - rewrite bcmp_refl, L8. cbn [bcmp].
    assert (bcmp s (take 8 s) = Gt) as ->; [|done].
    rewrite <- (take_drop 8 s) at 1. rewrite <- (app_nil_r (take 8 s)) at 2.
    rewrite bcmp_app_same. destruct (drop 8 s) eqn:E; [|done].
    by apply drop_nonnil in E.
  - rewrite <- (take_drop 8 s) at 2. rewrite bcmp_app_long; [|lia|done].
    destruct (bcmp (take 8 s) t) eqn:E; [|done|done]. by apply bcmp_Eq in E.
Qed.

(** Inside a key, distinct non-empty strings order as the strings do, whatever
    follows their encodings. *)
Lemma bcmp_encodeBlocks f g s t x y :
  nulfree s → nulfree t → s ≠ [] → t ≠ [] → (length s ≤ f)%nat → (length t ≤ g)%nat →
  bcmp (encodeBlocks f s ++ x) (encodeBlocks g t ++ y)
  = match bcmp s t with Eq => bcmp x y | c => c end.
Proof.
  revert g s t. induction f as [|f IH]; intros g s t Hs Ht Ns Nt Ls Lt.
  { apply Nat.le_0_r, nil_length_inv in Ls. done. }
  destruct g as [|g]; [apply Nat.le_0_r, nil_length_inv in Lt; done|].
  destruct s as [|a s]; [done|]. destruct t as [|b t]; [done|].
  cbn [encodeBlocks]. set (S := a :: s) in *. set (T := b :: t) in *.
  destruct (Nat.ltb_spec 8 (length S)) as [LS|LS], (Nat.ltb_spec 8 (length T)) as [LT|LT];
    rewrite <- ?app_assoc; cbn [app].
  - assert (length (take 8 S) = length (take 8 T)) as E8 by (rewrite !length_take; lia).
    destruct (decide (take 8 S = take 8 T)) as [E|E].
    + rewrite E, bcmp_app_same. cbn [bcmp]. rewrite Z.compare_refl.
      rewrite IH; [|by apply nulfree_split|by apply nulfree_split|by apply drop_nonnil|by apply drop_nonnil
                  |rewrite length_drop; lia|rewrite length_drop; lia].
      rewrite <- (take_drop 8 S) at 2. rewrite <- (take_drop 8 T) at 2.
      by rewrite E, bcmp_app_same.
    + rewrite bcmp_app_ne by done.
      rewrite <- (take_drop 8 S) at 2. rewrite <- (take_drop 8 T) at 2.
      rewrite bcmp_app_ne by done.
      destruct (bcmp (take 8 S) (take 8 T)) eqn:C; [by apply bcmp_Eq in C|done|done].
  - edestruct (bcmp_long_short S T) as [-> Hne]; [done..|].
    destruct (bcmp S T) eqn:C; [by apply bcmp_Eq in C|done|done].
  - rewrite bcmp_opp. edestruct (bcmp_long_short T S) as [-> Hne]; [done..|].
    rewrite (bcmp_opp T S). destruct (bcmp T S) eqn:C; [by apply bcmp_Eq in C|done|done].
  - rewrite bcmp_pad by done. destruct (bcmp S T) eqn:C; [|done|done].
    apply bcmp_Eq in C. rewrite C. cbn [bcmp]. by rewrite Z.compare_refl.
Qed.

Lemma decodeBlocks_encode f g s acc post :
  s ≠ [] → (length s ≤ f)%nat → (length s ≤ g)%nat →
  decodeBlocks g (encodeBlocks f s ++ post) acc = acc ++ s.
Proof.
  revert g s acc. induction f as [|f IH]; intros g s acc Ns Ls Lg.
  { apply Nat.le_0_r, nil_length_inv in Ls. done. }
  destruct g as [|g]; [apply Nat.le_0_r, nil_length_inv in Lg; done|].
  destruct s as [|a s]; [done|]. cbn [encodeBlocks decodeBlocks]. set (S := a :: s) in *.
  destruct (Nat.ltb_spec 8 (length S)) as [L|L].
  - assert (length (take 8 S) = 8)%nat as L8 by (rewrite length_take; lia).
    rewrite <- app_assoc. cbn [app].
    set (R := 0xff :: encodeBlocks f (drop 8 S) ++ post).
    assert (length (take 8 S ++ R) = 8 + length R)%nat as -> by (rewrite length_app; lia).
    replace (Nat.leb 9 (8 + length R)) with true by (symmetry; apply Nat.leb_le; unfold R; cbn [length]; lia).
    rewrite app_nth2 by lia. rewrite L8. cbn [Nat.sub nth R negb Z.eqb Pos.eqb].
    replace (drop 9 (take 8 S ++ R)) with (encodeBlocks f (drop 8 S) ++ post).
    2:{ rewrite drop_app_ge by lia. by rewrite L8. }
    rewrite IH; [|by apply drop_nonnil
                |rewrite length_drop; lia|rewrite length_drop; lia].
    rewrite take_app_le by lia. rewrite (take_ge (take 8 S)) by lia.
    by rewrite <- app_assoc, take_drop.
  - set (P := replicate (8 - length S) 0). assert (length P = 8 - length S)%nat as LP by apply length_replicate.
    replace ((S ++ P ++ [Z.of_nat (length S)]) ++ post)
      with ((S ++ P) ++ Z.of_nat (length S) :: post) by (by rewrite <- !app_assoc).
    assert (length (S ++ P) = 8)%nat as LSP by (rewrite length_app; lia).
    replace (Nat.leb 9 _) with true by (symmetry; apply Nat.leb_le; rewrite length_app; cbn [length]; lia).
    rewrite app_nth2, LSP by lia. cbn [Nat.sub nth].
    assert (length S ≠ 0)%nat by (subst S; cbn; lia).
    replace (negb _) with true by lia.
    rewrite (take_app_le (S ++ P)), (take_ge (S ++ P)) by lia.
    destruct (Z.ltb_spec (Z.of_nat (length S)) 8) as [H8|H8].
    + rewrite app_assoc. rewrite take_app_le by (rewrite !length_app; lia).
      apply take_ge. rewrite !length_app. lia.
    + assert (P = []) as -> by (apply nil_length_inv; lia). by rewrite app_nil_r.
Qed.

(** ** Floats *)

(** The value of a finite or infinite [float64], scaled by 2^1074 so that it
    is an integer; an infinity lies beyond every finite value. *)
Definition float_mag (m : Z) : Z :=
  let e := m / 2 ^ 52 in
  let f := m `mod` 2 ^ 52 in
  if e =? 0 then f else (2 ^ 52 + f) * 2 ^ (e - 1).
Definition float_num (x : Z) : Z :=
  if x <? 2 ^ 63 then float_mag x else - float_mag (x - 2 ^ 63).

Lemma float_mag_mono a b : 0 ≤ a < b → float_mag a < float_mag b.
Proof.
  intros Hab. unfold float_mag.
  pose proof (Z.div_mod a (2 ^ 52) ltac:(lia)) as Ea. pose proof (Z.div_mod b (2 ^ 52) ltac:(lia)) as Eb.
  pose proof (Z.mod_pos_bound a (2 ^ 52) ltac:(lia)) as Ma. pose proof (Z.mod_pos_bound b (2 ^ 52) ltac:(lia)) as Mb.
  assert (0 ≤ a / 2 ^ 52) as Da by (apply Z.div_pos; lia).
  assert (a / 2 ^ 52 ≤ b / 2 ^ 52) as Dab by (apply Z.div_le_mono; lia).
  set (ea := a / 2 ^ 52) in *. set (eb := b / 2 ^ 52) in *.
  set (ma := a `mod` 2 ^ 52) in *. set (mb := b `mod` 2 ^ 52) in *.
  clearbody ea eb ma mb.
  assert (eb ≠ 0 → 0 < 2 ^ (eb - 1)) as Hp by (intros; apply Z.pow_pos_nonneg; lia).
  destruct (Z.eqb_spec ea 0) as [Za|Za], (Z.eqb_spec eb 0) as [Zb|Zb]; [lia| |lia|].
  { specialize (Hp Zb). revert Hp. generalize (2 ^ (eb - 1)). intros P HP. nia. }
  destruct (decide (ea = eb)) as [E|Hne].
  - rewrite E. specialize (Hp Zb). apply Zmult_lt_compat_r; lia.
  - replace (eb - 1) with ((ea - 1) + (1 + (eb - ea - 1))) by lia.
    rewrite !Z.pow_add_r by lia. change (2 ^ 1) with 2.
    assert (0 < 2 ^ (ea - 1)) as HP by (apply Z.pow_pos_nonneg; lia).
    assert (1 ≤ 2 ^ (eb - ea - 1)) as HQ by (apply (Z.pow_le_mono_r 2 0); lia).
    revert HP HQ. generalize (2 ^ (ea - 1)), (2 ^ (eb - ea - 1)). intros P Q HP HQ.
    assert ((2 ^ 52 + ma) * P < 2 ^ 53 * P) by (apply Zmult_lt_compat_r; lia).
    assert (2 ^ 53 * P ≤ (2 ^ 52 + mb) * (P * (2 * Q))); [|lia].
    assert (P * 2 ≤ P * (2 * Q)) by (apply Z.mul_le_mono_nonneg_l; lia).
    nia.
Qed.

Lemma float_mag_nonneg a : 0 ≤ a → 0 ≤ float_mag a.
Proof.
  intros Ha. destruct (decide (a = 0)) as [->|]; [done|].
  pose proof (float_mag_mono 0 a). change (float_mag 0) with 0 in *. lia.
Qed.

Lemma float_mag_le a b : 0 ≤ a → 0 ≤ b → float_mag a < float_mag b → a < b.
Proof.
  intros Ha Hb Hlt. destruct (decide (a < b)); [done|].
  destruct (decide (a = b)) as [->|]; [lia|]. pose proof (float_mag_mono b a). lia.
Qed.

Lemma lxor_ones64 x : is_u64 x → Z.lxor x (2 ^ 64 - 1) = 2 ^ 64 - 1 - x.
Proof.
  unfold is_u64. intros Hx.
  apply Z.bits_inj'. intros i Hi. rewrite Z.lxor_spec.
  change (2 ^ 64 - 1) with (Z.ones 64).
  replace (Z.ones 64 - x) with (Z.lnot x + 1 * 2 ^ 64) by (unfold Z.lnot; rewrite Z.ones_equiv; lia).
  destruct (decide (i < 64)).
  + rewrite Z.ones_spec_low by lia. rewrite <- (Z.mod_pow2_bits_low (Z.lnot x + 1 * 2 ^ 64) 64) by lia.
    rewrite Z.mod_add, Z.mod_pow2_bits_low, Z.lnot_spec by lia. by destruct (Z.testbit x i).
  + rewrite Z.ones_spec_high by lia.
    rewrite <- (Z.mod_small x (2 ^ 64)) at 1 by lia. rewrite Z.mod_pow2_bits_high by lia.
    rewrite <- (Z.mod_small (Z.lnot x + 1 * 2 ^ 64) (2 ^ 64)).
    * by rewrite Z.mod_pow2_bits_high by lia.
    * unfold Z.lnot. lia.
Qed.

Lemma EncodeFloat_eq x :
  is_u64 x → EncodeFloat x = be_put 8 (if x <? 2 ^ 63 then x + 2 ^ 63 else 2 ^ 64 - 1 - x).
Proof.
  unfold is_u64. intros Hx. unfold EncodeFloat. rewrite Z.shiftr_div_pow2 by lia. f_equal.
  destruct (Z.ltb_spec x (2 ^ 63)).
  - rewrite Z.div_small by lia. cbn [Z.eqb].
    rewrite <- (u64_small x) at 1 by (unfold is_u64; lia).
    rewrite lxor_signBit by (unfold is_i64; lia). done.
  - assert (x / 2 ^ 63 = 1) as -> by mlia. cbn [Z.eqb Pos.eqb].
    by apply lxor_ones64.
Qed.

(** ** Keys *)

Lemma store_next p off b k :
  off = length k → store (k ++ p) off b = k ++ b ++ drop (length b) p.
Proof.
  intros ->. unfold store. rewrite take_app_length. f_equal. f_equal.
  rewrite drop_app_ge by lia. f_equal. lia.
Qed.


Lemma BuildEavtEntries_keys eid attr v t retracted mode indexed :
  BuildEavtEntries eid attr v t retracted mode indexed
  = [{| CF := 0; Key := BuildEavtKey eid attr v t retracted |};
     {| CF := 1; Key := BuildAevtKey attr eid v t retracted |}]
    ++ (if bool_decide (mode = EmRef)
        then [{| CF := 3; Key := BuildVaetKey v attr eid t retracted |}] else [])
    ++ (if indexed then [{| CF := 2; Key := BuildAvetKey attr v eid t retracted |}] else []).
Proof.
  unfold BuildEavtEntries, BuildEavtKey, BuildAevtKey, BuildAvetKey, BuildVaetKey, EncodeEid, EncodeInt,
    storeBE64, storeBE32. cbv zeta.
  set (ex := Z.lxor (u64 eid) signBit). set (sf := EncodeSuffix t retracted).
  assert (∀ a b c d : bytes, (length a + length b + length c + length d = 8 + 4 + length v + 8)%nat →
    ∀ o1 o2 o3, o1 = length a → o2 = (length a + length b)%nat → o3 = (length a + length b + length c)%nat →
    store (store (store (store (replicate (8 + 4 + length v + 8) 0) 0 a) o1 b) o2 c) o3 d = a ++ b ++ c ++ d) as G.
  { intros a b c d Hl o1 o2 o3 -> -> ->. change (replicate _ 0) with ([] ++ replicate (8 + 4 + length v + 8) 0).
    rewrite store_next by done. cbn [app]. rewrite store_next by done.
    rewrite app_assoc, store_next by (by rewrite length_app).
    rewrite app_assoc, store_next by (rewrite !length_app; lia).
    rewrite !drop_drop. rewrite drop_ge by (rewrite length_replicate; lia).
    by rewrite app_nil_r, <- !app_assoc. }
  rewrite !G by (rewrite ?length_be_put; lia).
  case_bool_decide; destruct indexed; done.
Qed.

Lemma EncodeInt_ok n : bytes_ok (EncodeInt n).
Proof. apply be_put_ok. Qed.

Lemma BeUint64_eid start pre eid post :
  start = length pre → is_i64 eid →
  (e ← BeUint64 (pre ++ EncodeEid eid ++ post) start; Ok (DecodeEid e)) = Ok eid.
Proof.
  intros Hs He. unfold EncodeEid.
  rewrite BeUint64_at by (apply length_EncodeInt || apply EncodeInt_ok || done).
  cbn [mbind res_bind]. unfold DecodeEid. by rewrite DecodeInt64_get.
Qed.

Lemma BeUint64_eid_raw start pre eid post :
  start = length pre → is_i64 eid →
  ∃ e, BeUint64 (pre ++ EncodeEid eid ++ post) start = Ok e ∧ DecodeEid e = eid.
Proof.
  intros Hs He. pose proof (BeUint64_eid start pre eid post Hs He) as H.
  destruct (BeUint64 _ _) as [e| | |]; cbn in H; [|done..]. exists e. split; congruence.
Qed.

Lemma BeUint32_attr start pre attr post :
  start = length pre → is_u32 attr →
  BeUint32 (pre ++ be_put 4 attr ++ post) start = Ok attr.
Proof.
  intros Hs Ha. rewrite BeUint32_at by (apply length_be_put || apply be_put_ok || done).
  rewrite be_get_put. unfold is_u32 in Ha. by rewrite Z.mod_small by (simpl; lia).
Qed.

Lemma BeUint32_attr0 attr post :
  is_u32 attr → BeUint32 (be_put 4 attr ++ post) 0 = Ok attr.
Proof. exact (BeUint32_attr 0 [] attr post eq_refl). Qed.

Lemma length_key_parts eid attr (v : bytes) t r :
  (length (EncodeEid eid) = 8 ∧ length (be_put 4 attr) = 4
   ∧ length (be_put 8 (EncodeSuffix t r)) = 8)%nat.
Proof. unfold EncodeEid. by rewrite length_EncodeInt, !length_be_put. Qed.

(** [DeriveIndexKeys] on a CF-0 key the builder made. *)
Lemma DeriveIndexKeys_built eid attr v t r indexed isRef :
  is_u32 attr →
  DeriveIndexKeys (BuildEavtKey eid attr v t r) indexed isRef
  = Ok ([{| CF := 1; Key := BuildAevtKey attr eid v t r |}]
        ++ (if indexed then [{| CF := 2; Key := BuildAvetKey attr v eid t r |}] else [])
        ++ (if isRef then [{| CF := 3; Key := BuildVaetKey v attr eid t r |}] else [])).
Proof.
  intros Ha. unfold DeriveIndexKeys, BuildEavtKey, BuildAevtKey, BuildAvetKey, BuildVaetKey.
  destruct (length_key_parts eid attr v t r) as (Le&La&Ls).
  set (E := EncodeEid eid) in *. set (A := be_put 4 attr) in *. set (F := be_put 8 (EncodeSuffix t r)) in *.
  assert (Z.of_nat (length (E ++ A ++ v ++ F)) = 20 + Z.of_nat (length v)) as Ln
    by (rewrite !length_app; lia).
  replace (_ <? 20) with false by lia. rewrite Ln.
  assert (BeUint32 (E ++ A ++ v ++ F) 8 = Ok attr) as -> by (apply BeUint32_attr; [lia|done]).
  rewrite ?res_bind_ret.
  assert (slice (E ++ A ++ v ++ F) 0 8 = Ok E) as ->
    by (apply (slice_app [] E (A ++ v ++ F)); cbn; lia).
  assert (slice (E ++ A ++ v ++ F) 12 (20 + Z.of_nat (length v)) = Ok (v ++ F)) as ->.
  { replace (E ++ A ++ v ++ F) with ((E ++ A) ++ (v ++ F) ++ []) by (by rewrite app_nil_r, <- app_assoc).
    apply slice_app; rewrite !length_app; lia. }
  assert (slice (E ++ A ++ v ++ F) 12 (20 + Z.of_nat (length v) - 8) = Ok v) as ->.
  { rewrite app_assoc. apply slice_app; rewrite ?length_app; lia. }
  assert (slice (E ++ A ++ v ++ F) (20 + Z.of_nat (length v) - 8) (20 + Z.of_nat (length v)) = Ok F) as ->.
  { replace (E ++ A ++ v ++ F) with ((E ++ A ++ v) ++ F ++ []) by (by rewrite app_nil_r, <- !app_assoc).
    apply slice_app; rewrite ?length_app; lia. }
  rewrite ?res_bind_ret.
  rewrite be_put_shift4. fold A. by destruct indexed, isRef.
Qed.

(** ** Properties *)

(** [EncodeInt] sorts: comparing two encodings byte by byte is comparing the int64s,
    over the whole signed range. *)
Theorem int_key_order a b :
  is_i64 a → is_i64 b → bcmp (EncodeInt a) (EncodeInt b) = (a ?= b).
Proof. apply bcmp_EncodeInt. Qed.

Lemma int_key_order_witness : bcmp (EncodeInt (-1)) (EncodeInt 7) = Lt.
Proof. rewrite (int_key_order (-1) 7); [reflexivity|unfold is_i64; lia|unfold is_i64; lia]. Defined.

(** [EncodeFloat] sorts by value: if one float64 is numerically below another (both
    given by their bit patterns, infinities included), its encoding is below;
    and [DecodeFloat64] recovers the bits from the encoding. *)
Theorem float_key_order x y :
  is_u64 x → is_u64 y → float_num x < float_num y →
  EncodeFloat x <b EncodeFloat y ∧ DecodeFloat64 (be_get (EncodeFloat x)) = x.
Proof.
  intros Hx Hy Hlt. rewrite !EncodeFloat_eq by done. unfold is_u64 in *. split.
  - unfold blt. rewrite bcmp_be_put by (change (8 * Z.of_nat 8) with 64; case_match; lia).
    apply Z.compare_lt_iff. unfold float_num in Hlt.
    destruct (Z.ltb_spec x (2 ^ 63)), (Z.ltb_spec y (2 ^ 63)); [|..|].
    + apply float_mag_le in Hlt; lia.
    + pose proof (float_mag_nonneg x). pose proof (float_mag_nonneg (y - 2 ^ 63)). lia.
    + lia.
    + assert (float_mag (y - 2 ^ 63) < float_mag (x - 2 ^ 63)) as H1 by lia.
      apply float_mag_le in H1; lia.
  - rewrite be_get_put, Z.mod_small by (change (8 * Z.of_nat 8) with 64; case_match; lia).
    unfold DecodeFloat64. rewrite Z.shiftr_div_pow2 by lia.
    destruct (Z.ltb_spec x (2 ^ 63)).
    + replace ((x + 2 ^ 63) / 2 ^ 63) with 1 by mlia. cbn [Z.eqb Pos.eqb].
      rewrite <- lxor_signBit by (unfold is_i64; lia).
      rewrite Z.lxor_assoc, Z.lxor_nilpotent, Z.lxor_0_r. apply u64_small. unfold is_u64. lia.
    + rewrite Z.div_small by lia. cbn [Z.eqb].
      rewrite <- lxor_ones64 by done.
      rewrite Z.lxor_assoc, Z.lxor_nilpotent. apply Z.lxor_0_r.
Qed.

(** -1.5 and 0.25. *)
Lemma float_key_order_witness :
  EncodeFloat 0xBFF8000000000000 <b EncodeFloat 0x3FD0000000000000
  ∧ DecodeFloat64 (be_get (EncodeFloat 0xBFF8000000000000)) = 0xBFF8000000000000.
Proof.
  apply (float_key_order 0xBFF8000000000000 0x3FD0000000000000);
    [unfold is_u64; lia|unfold is_u64; lia|vm_compute; reflexivity].
Defined.

(** [EncodeVariable] sorts inside a key: for two different non-empty strings, keys
    that continue with any bytes compare as the strings (cut at their first
    NUL) do, so neither encoding is a prefix of the other. *)
Theorem string_key_order s t x y :
  bytes_ok s → bytes_ok t → cut s ≠ [] → cut t ≠ [] → cut s ≠ cut t →
  bcmp (EncodeVariable s ++ x) (EncodeVariable t ++ y) = bcmp (cut s) (cut t).
Proof.
  intros Hs Ht Ns Nt Hne. unfold EncodeVariable. fold (cut s) (cut t).
  rewrite bcmp_encodeBlocks;
    [|by apply cut_nulfree|by apply cut_nulfree|done|done|by rewrite length_cut|by rewrite length_cut].
  destruct (bcmp (cut s) (cut t)) eqn:E; [by apply bcmp_Eq in E|done|done].
Qed.

Lemma string_key_order_witness :
  bcmp (EncodeVariable (bs "company-1") ++ [255]) (EncodeVariable (bs "company-10") ++ [0])
  = bcmp (cut (bs "company-1")) (cut (bs "company-10")).
Proof.
  apply (string_key_order (bs "company-1") (bs "company-10") [255] [0]).
  1-2: apply (bool_decide_unpack _); vm_compute; exact I.
  all: vm_compute; discriminate.
Defined.

(** [DecodeVariableStr] reads a stored string back from the middle of a key: whatever
    bytes follow, it returns the string up to its first NUL. *)
Theorem string_value_roundtrip s pre post :
  cut s ≠ [] → DecodeVariableStr (pre ++ EncodeVariable s ++ post) (length pre) = cut s.
Proof.
  intros Ns. unfold DecodeVariableStr, EncodeVariable. rewrite drop_app_length. fold (cut s).
  rewrite decodeBlocks_encode; [done|done|by rewrite length_cut|].
  assert (∀ f u, u ≠ [] → (length u ≤ f)%nat → (length u ≤ length (encodeBlocks f u))%nat) as G.
  { induction f as [|f IH]; intros u Nu Lu; [apply Nat.le_0_r, nil_length_inv in Lu; done|].
    destruct u as [|a u]; [done|]. cbn [encodeBlocks]. set (U := a :: u) in *.
    destruct (Nat.ltb_spec 8 (length U)) as [H8|H8]; rewrite !length_app; [|lia].
    cbn [length]. assert (length (drop 8 U) ≤ length (encodeBlocks f (drop 8 U)))%nat.
    { apply IH; [by apply drop_nonnil|rewrite length_drop; lia]. }
    rewrite length_take. rewrite length_drop in *. lia. }
  rewrite !length_app. specialize (G (firstNul s) (cut s) Ns). rewrite length_cut in *. lia.
Qed.

Lemma string_value_roundtrip_witness :
  DecodeVariableStr ([1; 2] ++ EncodeVariable (bs "exactly8exactly8") ++ [9]) (length [1; 2])
  = cut (bs "exactly8exactly8").
Proof. apply (string_value_roundtrip (bs "exactly8exactly8") [1; 2] [9]). vm_compute; discriminate. Defined.

(** Versions of one datom sort by transaction, and a retraction sorts just after an
    assertion of the same transaction; the suffix decodes to what was written. *)
Theorem version_order eid attr v t1 r1 t2 r2 :
  0 ≤ t1 < 2 ^ 63 → 0 ≤ t2 < 2 ^ 63 →
  bcmp (BuildEavtKey eid attr v t1 r1) (BuildEavtKey eid attr v t2 r2)
  = (2 * t1 + Z.b2z r1 ?= 2 * t2 + Z.b2z r2)
  ∧ DecodeSuffix (be_get (be_put 8 (EncodeSuffix t1 r1))) = (t1, r1).
Proof.
  intros H1 H2. unfold BuildEavtKey. rewrite !bcmp_app_same.
  assert (∀ r, 0 ≤ Z.b2z r < 2) as Hr by (intros []; cbn; lia).
  pose proof (Hr r1). pose proof (Hr r2).
  split.
  - rewrite !EncodeSuffix_eq by done. apply bcmp_be_put; change (8 * Z.of_nat 8) with 64; lia.
  - rewrite be_get_put, Z.mod_small by (rewrite EncodeSuffix_eq by done; change (8 * Z.of_nat 8) with 64; lia).
    by apply DecodeSuffix_Encode.
Qed.

Lemma version_order_witness :
  bcmp (BuildEavtKey 7 9 [1] 5 true) (BuildEavtKey 7 9 [1] 6 false)
  = (2 * 5 + Z.b2z true ?= 2 * 6 + Z.b2z false)
  ∧ DecodeSuffix (be_get (be_put 8 (EncodeSuffix 5 true))) = (5, true).
Proof. apply (version_order 7 9 [1] 5 true 6 false); lia. Defined.

(** Recovery agrees with the write path: the index keys [DeriveIndexKeys] rebuilds
    from a logged CF-0 key are, with that key, exactly the entries
    [BuildEavtEntries] wrote, for every mode and index flag. *)
Theorem derived_keys_match eid attr v t r mode indexed :
  is_u32 attr →
  ∃ ds, DeriveIndexKeys (BuildEavtKey eid attr v t r) indexed (bool_decide (mode = EmRef)) = Ok ds
        ∧ {| CF := 0; Key := BuildEavtKey eid attr v t r |} :: ds
          ≡ₚ BuildEavtEntries eid attr v t r mode indexed.
Proof.
  intros Ha. rewrite DeriveIndexKeys_built by done. eexists. split; [done|].
  rewrite BuildEavtEntries_keys. cbn [app]. do 2 apply perm_skip. apply Permutation_app_comm.
Qed.

Lemma derived_keys_match_witness :
  ∃ ds, DeriveIndexKeys (BuildEavtKey 70 101 (EncodeInt 5) 3 false) true (bool_decide (EmRef = EmRef)) = Ok ds
        ∧ {| CF := 0; Key := BuildEavtKey 70 101 (EncodeInt 5) 3 false |} :: ds
          ≡ₚ BuildEavtEntries 70 101 (EncodeInt 5) 3 false EmRef true.
Proof. apply (derived_keys_match 70 101 (EncodeInt 5) 3 false EmRef true). unfold is_u32; lia. Defined.

(** [datomFields] on each family, with the key left abstract. *)
Lemma datomFields_0 key :
  datomFields 0 key
  = (e ← BeUint64 key 0; a ← BeUint32 key 8;
     Ok (Some (DecodeEid e, a, 12, Z.of_nat (length key) - 8))).
Proof. reflexivity. Qed.

Lemma datomFields_1 key :
  datomFields 1 key
  = (a ← BeUint32 key 0; e ← BeUint64 key 4;
     Ok (Some (DecodeEid e, a, 12, Z.of_nat (length key) - 8))).
Proof. reflexivity. Qed.

Lemma datomFields_2 key :
  datomFields 2 key
  = (a ← BeUint32 key 0; e ← BeUint64 key (Z.to_nat (Z.of_nat (length key) - 16));
     Ok (Some (DecodeEid e, a, 4, Z.of_nat (length key) - 16))).
Proof. reflexivity. Qed.

Lemma datomFields_3 key :
  datomFields 3 key
  = (e ← BeUint64 key (Z.to_nat (Z.of_nat (length key) - 12));
     a ← BeUint32 key (Z.to_nat (Z.of_nat (length key) - 16));
     Ok (Some (DecodeEid e, a, 0, Z.of_nat (length key) - 20))).
Proof. reflexivity. Qed.

(** The EAVT, AEVT and AVET keys decode to the entity, attribute and value span they
    were built from. *)
Theorem datom_fields_roundtrip eid attr v t r :
  is_i64 eid → is_u32 attr →
  datomFields 0 (BuildEavtKey eid attr v t r) = Ok (Some (eid, attr, 12, 12 + Z.of_nat (length v)))
  ∧ datomFields 1 (BuildAevtKey attr eid v t r) = Ok (Some (eid, attr, 12, 12 + Z.of_nat (length v)))
  ∧ datomFields 2 (BuildAvetKey attr v eid t r) = Ok (Some (eid, attr, 4, 4 + Z.of_nat (length v))).
Proof.
  intros He Ha. destruct (length_key_parts eid attr v t r) as (Le&La&Ls).
  rewrite datomFields_0, datomFields_1, datomFields_2.
  unfold BuildEavtKey, BuildAevtKey, BuildAvetKey.
  set (F := be_put 8 (EncodeSuffix t r)) in *. rewrite !length_app, Le, La, Ls.
  split_and!.
  - destruct (BeUint64_eid_raw 0 [] eid (be_put 4 attr ++ v ++ F) eq_refl He) as (e&Hr&Hd).
    rewrite app_nil_l in Hr. rewrite Hr. rewrite ?res_bind_ret.
    rewrite (BeUint32_attr 8 (EncodeEid eid) attr (v ++ F)) by (lia || done).
    rewrite ?res_bind_ret. rewrite Hd. do 3 f_equal. lia.
  - rewrite BeUint32_attr0 by done. rewrite ?res_bind_ret.
    destruct (BeUint64_eid_raw 4 (be_put 4 attr) eid (v ++ F)) as (e&->&Hd); [lia|done|].
    rewrite ?res_bind_ret. rewrite Hd. do 3 f_equal. lia.
  - rewrite BeUint32_attr0 by done. rewrite ?res_bind_ret. rewrite app_assoc.
    destruct (BeUint64_eid_raw (4 + length v) (be_put 4 attr ++ v) eid F) as (e&Hr&Hd);
      [rewrite length_app; lia|done|].
    replace (Z.to_nat _) with (4 + length v)%nat by lia. rewrite Hr.
    rewrite ?res_bind_ret. rewrite Hd. do 3 f_equal. lia.
Qed.

Lemma datom_fields_roundtrip_witness :
  datomFields 0 (BuildEavtKey (-4) 101 [7; 7] 3 true) = Ok (Some (-4, 101, 12, 12 + Z.of_nat (length [7; 7])))
  ∧ datomFields 1 (BuildAevtKey 101 (-4) [7; 7] 3 true) = Ok (Some (-4, 101, 12, 12 + Z.of_nat (length [7; 7])))
  ∧ datomFields 2 (BuildAvetKey 101 [7; 7] (-4) 3 true) = Ok (Some (-4, 101, 4, 4 + Z.of_nat (length [7; 7]))).
Proof. apply (datom_fields_roundtrip (-4) 101 [7; 7] 3 true); unfold is_i64, is_u32; lia. Defined.

(** The VAET split reads four bytes too far: whatever the attribute, the attribute
    id it reports for a non-negative entity below 2^32 is 2^31 (the top half of
    the encoded entity id), so no reference datom of such an entity decodes to
    the attribute it was stored under. *)
Theorem vaet_fields_misread v attr eid t r :
  0 ≤ eid < 2 ^ 32 →
  ∃ e, datomFields 3 (BuildVaetKey v attr eid t r) = Ok (Some (e, 2 ^ 31, 0, Z.of_nat (length v))).
Proof.
  intros He. destruct (length_key_parts eid attr v t r) as (Le&La&Ls).
  assert (EncodeEid eid = be_put 4 (2 ^ 31) ++ be_put 4 eid) as EE.
  { unfold EncodeEid. rewrite EncodeInt_eq by (unfold is_i64; lia). cbn [be_put app].
    change (8 * Z.of_nat 7) with 56. change (8 * Z.of_nat 6) with 48. change (8 * Z.of_nat 5) with 40.
    change (8 * Z.of_nat 4) with 32. change (8 * Z.of_nat 3) with 24. change (8 * Z.of_nat 2) with 16.
    change (8 * Z.of_nat 1) with 8. change (8 * Z.of_nat 0) with 0.
    repeat (f_equal; [mlia|]). f_equal. rewrite !Z.div_1_r. mlia. }
  rewrite datomFields_3. unfold BuildVaetKey.
  set (F := be_put 8 (EncodeSuffix t r)) in *. rewrite !length_app, Le, La, Ls.
  assert (F = take 4 F ++ drop 4 F) as EF by (by rewrite take_drop).
  rewrite EE. replace (v ++ be_put 4 attr ++ (be_put 4 (2 ^ 31) ++ be_put 4 eid) ++ F)
    with ((v ++ be_put 4 attr ++ be_put 4 (2 ^ 31)) ++ (be_put 4 eid ++ take 4 F) ++ drop 4 F)
    by (rewrite EF at 3; by rewrite <- !app_assoc).
  rewrite BeUint64_at.
  2:{ rewrite !length_app, !length_be_put. lia. }
  2:{ rewrite length_app, length_be_put, length_take. lia. }
  2:{ apply Forall_app. split; [apply be_put_ok|]. apply Forall_take, be_put_ok. }
  rewrite ?res_bind_ret.
  replace ((v ++ be_put 4 attr ++ be_put 4 (2 ^ 31)) ++ (be_put 4 eid ++ take 4 F) ++ drop 4 F)
    with ((v ++ be_put 4 attr) ++ be_put 4 (2 ^ 31) ++ (be_put 4 eid ++ F))
    by (rewrite EF at 1; by rewrite <- !app_assoc).
  rewrite BeUint32_attr; [|rewrite length_app, length_be_put; lia|unfold is_u32; lia].
  rewrite ?res_bind_ret. eexists. do 4 f_equal. lia.
Qed.

Lemma vaet_fields_misread_witness :
  ∃ e, datomFields 3 (BuildVaetKey (EncodeInt 5) 101 70 3 false)
       = Ok (Some (e, 2 ^ 31, 0, Z.of_nat (length (EncodeInt 5)))).
Proof. apply (vaet_fields_misread (EncodeInt 5) 101 70 3 false). lia. Defined.
