(* ===== verification/Pages.v ===== *)
(** * Page formats (go/internal/pagestore: pages.go, types.go)

    Varints, prefix-compressed leaf pages, index pages, the root blob, page
    splitting and the prefix ranges of an index page. *)

From S2P Require Import Prelude.

(** ** types.go *)

(** [[16]byte]; the zero value marks an empty tree. *)
Abbreviation UUID := bytes (only parsing).
Definition zeroUUID : UUID := replicate 16 0.

Record CfTree : Type := { RootUUID : UUID; Height : Z; NumLeaves : Z }.

#[export] Instance CfTree_eq_dec : EqDecision CfTree.
Proof. solve_decision. Defined.

Definition rootMagic : bytes := [0x45; 0x56; 0x54; 0x31].
Definition rootVersion : Z := 2.
Definition IndexPageMaxSize : Z := 512 * 1024.
Definition MaxRawSize : Z := 512 * 1024.

Definition EmptyTree : CfTree := {| RootUUID := zeroUUID; Height := 0; NumLeaves := 0 |}.

Fixpoint CmpSeq (a b : bytes) : Z :=
  match a, b with
  | [], [] => 0
  | [], _ :: _ => -1
  | _ :: _, [] => 1
  | x :: a', y :: b' =>
      if x <? y then -1 else if x >? y then 1 else CmpSeq a' b'
  end.

Definition serializeTree (t : CfTree) : bytes :=
  RootUUID t ++ [Height t]
  ++ [u8 (Z.shiftr (NumLeaves t) 24); u8 (Z.shiftr (NumLeaves t) 16);
      u8 (Z.shiftr (NumLeaves t) 8); u8 (NumLeaves t)].

Definition SerializeRoot (trees : list CfTree) : bytes :=
  let nc := u16 (Z.of_nat (length trees)) in
  rootMagic
  ++ [u8 (Z.shiftr rootVersion 8); u8 rootVersion]
  ++ [u8 (Z.shiftr nc 8); u8 nc]
  ++ flat_map serializeTree trees.

Fixpoint deserializeTrees (n : nat) (data : bytes) : list CfTree :=
  match n with
  | O => []
  | S n' =>
      let at_ i := nth i data 0 in
      {| RootUUID := take 16 data; Height := at_ 16%nat;
         NumLeaves := Z.lor (Z.lor (Z.lor (Z.shiftl (at_ 17%nat) 24) (Z.shiftl (at_ 18%nat) 16))
                                (Z.shiftl (at_ 19%nat) 8)) (at_ 20%nat) |}
      :: deserializeTrees n' (drop 21 data)
  end.

Definition DeserializeRoot (data : bytes) : res (list CfTree) :=
  if (Z.of_nat (length data) <? 8) || negb (bool_decide (take 4 data = rootMagic)) then
    Err "invalid root magic"
  else
    let version := Z.lor (Z.shiftl (nth 4 data 0) 8) (nth 5 data 0) in
    if negb (version =? rootVersion) then Err "unsupported root version"
    else
      let numCf := Z.lor (Z.shiftl (nth 6 data 0) 8) (nth 7 data 0) in
      if Z.of_nat (length data) <? 8 + numCf * 21 then Err "truncated root"
      else Ok (deserializeTrees (Z.to_nat numCf) (drop 8 data)).

(** ** pages.go: varints *)

Fixpoint CommonPrefixLen (a b : bytes) : nat :=
  match a, b with
  | x :: a', y :: b' => if x =? y then S (CommonPrefixLen a' b') else 0
  | _, _ => 0
  end.

(** A uint64 has at most ten 7-bit groups. *)
Fixpoint varintLoop (fuel : nat) (v : Z) : bytes :=
  match fuel with
  | O => []
  | S fuel' =>
      let b := Z.land v 0x7f in
      let v' := Z.shiftr v 7 in
      if v' =? 0 then [b] else Z.lor b 0x80 :: varintLoop fuel' v'
  end.
Definition WriteVarint (buf : bytes) (value : Z) : bytes := buf ++ varintLoop 10 (u64 value).

(** The shift reaches 64 after ten groups, so ten turns are enough. *)
Fixpoint readVarintLoop (fuel : nat) (data : bytes) (offset : nat) (shift value : Z) : res (Z * nat) :=
  match fuel with
  | O => Diverge
  | S fuel' =>
      match data !! offset with
      | None => Err "truncated varint"
      | Some b =>
          let value := Z.lor value (i64 (Z.shiftl (Z.land b 0x7f) shift)) in
          if Z.land b 0x80 =? 0 then Ok (value, S offset)
          else if shift + 7 >=? 64 then Err "varint too long"
          else readVarintLoop fuel' data (S offset) (shift + 7) value
      end
  end.
Definition ReadVarint (data : bytes) (offset : nat) : res (Z * nat) :=
  readVarintLoop 10 data offset 0 0.

(** ** Prefix-compressed entries *)

(** The prefix length, suffix length and suffix every page entry starts with. *)
Definition writeKey (prev key : bytes) : bytes :=
  let plen := CommonPrefixLen prev key in
  let suffix := drop plen key in
  WriteVarint (WriteVarint [] (Z.of_nat plen)) (Z.of_nat (length suffix)) ++ suffix.

(** [tail] bytes must follow the suffix; a corrupt length panics at the slice. *)
Definition readKey (msg : string) (tail : Z) (data : bytes) (offset : nat) (prev : bytes)
  : res (bytes * nat) :=
  '(plenRaw, o1) ← ReadVarint data offset;
  '(slen, o2) ← ReadVarint data o1;
  if i64 (Z.of_nat o2 + slen + tail) >? Z.of_nat (length data) then Err msg
  else
    let plen := if plenRaw >? Z.of_nat (length prev) then Z.of_nat (length prev) else plenRaw in
    let extent := i64 (Z.of_nat o2 + slen) in
    p ← slice prev 0 plen;
    s ← slice data (Z.of_nat o2) extent;
    Ok (p ++ s, Z.to_nat extent).

Definition header16 (n : Z) : bytes := [u8 (Z.shiftr (u16 n) 8); u8 (u16 n)].
Definition count16 (data : bytes) : nat :=
  Z.to_nat (Z.lor (Z.shiftl (nth 0 data 0) 8) (nth 1 data 0)).

(** *** Key-only leaves *)

Fixpoint serializeKeys (prev : bytes) (keys : list bytes) : bytes :=
  match keys with
  | [] => []
  | key :: keys' => writeKey prev key ++ serializeKeys key keys'
  end.
Definition SerializePage (keys : list bytes) : bytes :=
  header16 (Z.of_nat (length keys)) ++ serializeKeys [] keys.

Fixpoint deserializeKeys (n : nat) (data : bytes) (offset : nat) (prev : bytes) : res (list bytes) :=
  match n with
  | O => Ok []
  | S n' =>
      '(key, offset) ← readKey "truncated key" 0 data offset prev;
      rest ← deserializeKeys n' data offset key;
      Ok (key :: rest)
  end.
Definition DeserializePage (data : bytes) : res (list bytes) :=
  if Nat.ltb (length data) 2 then Err "page too short"
  else deserializeKeys (count16 data) data 2 [].

(** *** Key-value leaves *)

Definition writePair (prev : bytes) (p : bytes * bytes) : bytes :=
  WriteVarint (writeKey prev p.1) (Z.of_nat (length p.2)) ++ p.2.
Fixpoint serializePairs (prev : bytes) (pairs : list (bytes * bytes)) : bytes :=
  match pairs with
  | [] => []
  | p :: pairs' => writePair prev p ++ serializePairs p.1 pairs'
  end.
Definition SerializePageKv (pairs : list (bytes * bytes)) : bytes :=
  header16 (Z.of_nat (length pairs)) ++ serializePairs [] pairs.

Definition readValue (data : bytes) (offset : nat) : res (bytes * nat) :=
  '(vlen, o3) ← ReadVarint data offset;
  let valEnd := i64 (Z.of_nat o3 + vlen) in
  if valEnd >? Z.of_nat (length data) then Err "truncated value"
  else value ← slice data (Z.of_nat o3) valEnd; Ok (value, Z.to_nat valEnd).

Fixpoint deserializePairs (n : nat) (data : bytes) (offset : nat) (prev : bytes)
  : res (list (bytes * bytes)) :=
  match n with
  | O => Ok []
  | S n' =>
      '(key, offset) ← readKey "truncated key" 0 data offset prev;
      '(value, offset) ← readValue data offset;
      rest ← deserializePairs n' data offset key;
      Ok ((key, value) :: rest)
  end.
Definition DeserializePageKv (data : bytes) : res (list (bytes * bytes)) :=
  if Nat.ltb (length data) 2 then Err "page too short"
  else deserializePairs (count16 data) data 2 [].

(** *** Index pages *)

Record IndexEntry : Type := { EKey : bytes; EUUID : UUID }.

#[export] Instance IndexEntry_eq_dec : EqDecision IndexEntry.
Proof. solve_decision. Defined.

Fixpoint serializeEntries (prev : bytes) (entries : list IndexEntry) : bytes :=
  match entries with
  | [] => []
  | e :: entries' => writeKey prev (EKey e) ++ EUUID e ++ serializeEntries (EKey e) entries'
  end.
Definition SerializeIndexPage (entries : list IndexEntry) : bytes :=
  header16 (Z.of_nat (length entries)) ++ serializeEntries [] entries.

Fixpoint deserializeEntries (n : nat) (data : bytes) (offset : nat) (prev : bytes)
  : res (list IndexEntry) :=
  match n with
  | O => Ok []
  | S n' =>
      '(key, offset) ← readKey "truncated index entry" 16 data offset prev;
      uuid ← slice data (Z.of_nat offset) (Z.of_nat offset + 16);
      rest ← deserializeEntries n' data (offset + 16) key;
      Ok ({| EKey := key; EUUID := uuid |} :: rest)
  end.
Definition DeserializeIndexPage (data : bytes) : res (list IndexEntry) :=
  if Nat.ltb (length data) 2 then Err "index page too short"
  else deserializeEntries (count16 data) data 2 [].

(** ** Splitting *)

(** Halving terminates: each half of two or more items is shorter. *)
Fixpoint splitHalves {A} (whole : list A → bool) (fuel : nat) (l : list A) : list (list A) :=
  match fuel with
  | O => []
  | S fuel' =>
      match l with
      | [] => []
      | _ =>
          if whole l then [l]
          else
            let mid := Nat.div2 (length l) in
            splitHalves whole fuel' (take mid l) ++ splitHalves whole fuel' (drop mid l)
      end
  end.

Definition sumLen {A} (weight : A → Z) (l : list A) : Z := foldr (fun x n => weight x + n) 0 l.
Definition keyLen (k : bytes) : Z := Z.of_nat (length k).
Definition pairLen (p : bytes * bytes) : Z := Z.of_nat (length p.1) + Z.of_nat (length p.2).

Definition pageWhole {A} (weight : A → Z) (l : list A) : bool :=
  Nat.eqb (length l) 1 || (sumLen weight l <=? MaxRawSize).

Definition BuildPages (keys : list bytes) : list (bytes * bytes) :=
  map (fun ks => (default [] (head ks), SerializePage ks))
    (splitHalves (pageWhole keyLen) (length keys) keys).

Definition BuildPagesKv (pairs : list (bytes * bytes)) : list (bytes * bytes) :=
  map (fun ps => (default [] (fst <$> head ps), SerializePageKv ps))
    (splitHalves (pageWhole pairLen) (length pairs) pairs).

Definition indexWhole (l : list IndexEntry) : bool :=
  (Z.of_nat (length (SerializeIndexPage l)) <=? IndexPageMaxSize) || Nat.eqb (length l) 1.

Definition SplitIndexEntries (entries : list IndexEntry) : list bytes :=
  map SerializeIndexPage (splitHalves indexWhole (length entries) entries).

(** ** Prefix ranges *)

(** The position of the first item whose key is not below [target]: the binary
    search the package and its clients write out for each kind of item. *)
Definition lowerBound {A} (key : A → bytes) (l : list A) (target : bytes) : nat :=
  bsearch (fun mid => match l !! mid with
                      | Some p => CmpSeq (key p) target <? 0
                      | None => false
                      end) (length l).

Definition partitionPoint (entries : list IndexEntry) (target : bytes) : nat :=
  lowerBound EKey entries target.

(** Drops trailing 0xff bytes, then adds one to the last byte left. *)
Fixpoint prefixEndRev (r : bytes) : option bytes :=
  match r with
  | [] => None
  | last :: r' => if last <? 0xff then Some ((last + 1) :: r') else prefixEndRev r'
  end.
Definition PrefixEnd (prefix : bytes) : option bytes := reverse <$> prefixEndRev (reverse prefix).

Definition FindPrefixRange (entries : list IndexEntry) (prefix : bytes) : nat * nat :=
  if Nat.eqb (length prefix) 0 then (0%nat, length entries)
  else
    let s := partitionPoint entries prefix in
    let startIdx := if Nat.ltb 0 s then (s - 1)%nat else 0%nat in
    let endIdx := match PrefixEnd prefix with
                  | Some pe => partitionPoint entries pe
                  | None => length entries
                  end in
    if Nat.ltb endIdx startIdx then (endIdx, endIdx) else (startIdx, endIdx).

(** ** Names *)

Definition hexDigit (n : Z) : Z := if n <? 10 then 48 + n else 87 + n.
Definition uuidToHex (u : UUID) : bytes :=
  flat_map (fun b => [hexDigit (Z.shiftr b 4); hexDigit (Z.land b 0x0f)]) u.

(** [fmt.Sprintf("%016x", neg)] for a uint64. *)
Definition hex16 (n : Z) : bytes :=
  flat_map (fun b => [hexDigit (Z.shiftr b 4); hexDigit (Z.land b 0x0f)]) (be_put 8 n).

(** [secs] and [nanos] are the clock: [time.Now().Unix()] and [.Nanosecond()]. *)
Definition MakeRootName (secs nanos : Z) : bytes :=
  let ts := i64 (secs * 1000000000 + nanos) in
  let neg := u64 (i64 (Z.lnot ts + 1)) in
  bs "root_" ++ hex16 neg.

Definition hexValue (b : Z) : option Z :=
  if (48 <=? b) && (b <=? 57) then Some (b - 48)
  else if (97 <=? b) && (b <=? 102) then Some (b - 87)
  else if (65 <=? b) && (b <=? 70) then Some (b - 55)
  else None.

(** [strconv.ParseUint(s, 16, 64)]. *)
Definition ParseUintHex (s : bytes) : option Z :=
  if bool_decide (s = []) then None
  else
    ds ← mapM hexValue s;
    let n := fold_left (fun n d => 16 * n + d) ds 0 in
    if n <? 2 ^ 64 then Some n else None.

Definition ParseRootUs (name : bytes) : Z :=
  if negb (has_prefix name (bs "root_")) then 0
  else match ParseUintHex (drop 5 name) with
       | None => 0
       | Some bits => i64 (- i64 bits)
       end.

(** ** Comparison *)

Definition cmpZ (c : comparison) : Z := match c with Lt => -1 | Eq => 0 | Gt => 1 end.

Lemma CmpSeq_bcmp a b : CmpSeq a b = cmpZ (bcmp a b).
Proof.
  revert b. induction a as [|x a IH]; intros [|y b]; cbn [CmpSeq bcmp]; try done.
  destruct (Z.ltb_spec x y), (Z.gtb_spec x y), (Z.compare_spec x y); try done; try lia.
Qed.

Lemma CmpSeq_lt a b : (CmpSeq a b <? 0) = bool_decide (a <b b).
Proof.
  rewrite CmpSeq_bcmp. destruct (bcmp a b) eqn:E; symmetry;
    [apply bool_decide_eq_false|apply bool_decide_eq_true|apply bool_decide_eq_false];
    unfold blt; by rewrite E.
Qed.

Lemma CmpSeq_eq a b : (CmpSeq a b =? 0) = bool_decide (a = b).
Proof.
  rewrite CmpSeq_bcmp. destruct (bcmp a b) eqn:E; symmetry.
  - apply bcmp_Eq in E as ->. by apply bool_decide_eq_true.
  - apply bool_decide_eq_false. intros ->. by rewrite bcmp_refl in E.
  - apply bool_decide_eq_false. intros ->. by rewrite bcmp_refl in E.
Qed.

Lemma CmpSeq_ge a b : (CmpSeq a b >=? 0) = bool_decide (b <=b a).
Proof.
  rewrite CmpSeq_bcmp. destruct (bcmp a b) eqn:E; symmetry;
    [apply bool_decide_eq_true|apply bool_decide_eq_false|apply bool_decide_eq_true];
    unfold ble; rewrite (bcmp_opp a b), E; naive_solver.
Qed.

Lemma CmpSeq_le a b : (CmpSeq a b <=? 0) = bool_decide (a <=b b).
Proof.
  rewrite CmpSeq_bcmp. destruct (bcmp a b) eqn:E; symmetry;
    [apply bool_decide_eq_true|apply bool_decide_eq_true|apply bool_decide_eq_false];
    unfold ble; rewrite E; naive_solver.
Qed.

Lemma CommonPrefixLen_spec a b :
  (CommonPrefixLen a b ≤ length a)%nat ∧ (CommonPrefixLen a b ≤ length b)%nat
  ∧ take (CommonPrefixLen a b) a = take (CommonPrefixLen a b) b.
Proof.
  revert b. induction a as [|x a IH]; intros [|y b]; cbn [CommonPrefixLen length]; try (split_and!; [lia..|done]).
  destruct (Z.eqb_spec x y) as [->|]; [|split_and!; [lia..|done]].
  destruct (IH b) as (?&?&E). split_and!; [lia..|]. cbn [take]. by rewrite E.
Qed.

(** ** Varints *)

Lemma varintLoop_nonempty fuel v : (1 ≤ fuel)%nat → (1 ≤ length (varintLoop fuel v))%nat.
Proof. destruct fuel; [lia|]. intros _. cbn [varintLoop]. case_match; cbn [length]; lia. Qed.

Lemma land7 v : Z.land v 0x7f = v `mod` 2 ^ 7.
Proof. change 0x7f with (Z.ones 7). by apply Z.land_ones. Qed.

(** Reading ends where writing did, with the bits or-ed under the shift. *)
Lemma readVarintLoop_at fuel v shift value pre post :
  (1 ≤ fuel)%nat → 0 ≤ v < 2 ^ (7 * Z.of_nat fuel) → 0 ≤ shift →
  0 ≤ value < 2 ^ shift → value + v * 2 ^ shift < 2 ^ 63 → shift + 7 * Z.of_nat fuel = 70 →
  readVarintLoop fuel (pre ++ varintLoop fuel v ++ post) (length pre) shift value
  = Ok (value + v * 2 ^ shift, (length pre + length (varintLoop fuel v))%nat).
Proof.
  revert v shift value pre. induction fuel as [|fuel IH]; intros v shift value pre Hf Hv Hs Hval Hmax Hsh; [lia|].
  cbn [readVarintLoop varintLoop]. rewrite land7, Z.shiftr_div_pow2 by lia.
  pose proof (Z.mod_pos_bound v (2 ^ 7) ltac:(lia)) as Hm.
  pose proof (Z.div_mod v (2 ^ 7) ltac:(lia)) as Hdm.
  assert (0 ≤ v / 2 ^ 7) as Hq by (apply Z.div_pos; lia).
  assert (0 < 2 ^ shift) as Hps by (apply Z.pow_pos_nonneg; lia).
  assert (∀ lo, 0 ≤ lo < 2 ^ 7 → lo * 2 ^ shift < 2 ^ 63 →
    Z.lor value (i64 (Z.shiftl lo shift)) = value + lo * 2 ^ shift) as Hor.
  { intros lo Hlo Hlt. rewrite Z.shiftl_mul_pow2 by lia. rewrite i64_small.
    - rewrite Z.lor_comm, lor_low by lia. lia.
    - unfold is_i64. nia. }
  assert ((v `mod` 2 ^ 7) * 2 ^ shift < 2 ^ 63) as Hlow.
  { assert (v `mod` 2 ^ 7 ≤ v) by lia. nia. }
  destruct (Z.eqb_spec (v / 2 ^ 7) 0) as [E|E]; cbn [app].
  - rewrite list_lookup_middle by done.
    rewrite land7, (Z.mod_small (v `mod` 2 ^ 7)) by lia. rewrite Hor by done.
    replace (Z.land (v `mod` 2 ^ 7) 0x80 =? 0) with true.
    { cbn [length]. do 2 f_equal; [|lia]. rewrite Hdm at 2. rewrite E. lia. }
    symmetry. apply Z.eqb_eq. apply Z.bits_inj'. intros i Hi. rewrite Z.land_spec, Z.bits_0.
    change 0x80 with (2 ^ 7). destruct (decide (i = 7)) as [->|]; [|by rewrite Z.pow2_bits_false, andb_false_r by lia].
    by rewrite Z.mod_pow2_bits_high by lia.
  - rewrite list_lookup_middle by done.
    assert (Z.lor (v `mod` 2 ^ 7) 0x80 = 1 * 2 ^ 7 + v `mod` 2 ^ 7) as ->
      by (rewrite Z.lor_comm; apply (lor_low 1 _ 7); lia).
    rewrite (land_low 1 (v `mod` 2 ^ 7) 7 0x7f) by lia. rewrite Hor by done.
    replace (Z.land (1 * 2 ^ 7 + v `mod` 2 ^ 7) 0x80 =? 0) with false.
    2:{ symmetry. apply Z.eqb_neq. intros Habs. apply (f_equal (fun z => Z.testbit z 7)) in Habs.
        rewrite Z.land_spec, Z.bits_0 in Habs. change 0x80 with (2 ^ 7) in Habs.
        rewrite Z.pow2_bits_true, andb_true_r in Habs by lia.
        apply not_true_iff_false in Habs. apply Habs, Z.testbit_true; [lia|].
        by replace ((1 * 2 ^ 7 + v `mod` 2 ^ 7) / 2 ^ 7) with 1 by mlia. }
    destruct fuel as [|fuel].
    { exfalso. apply E. apply Z.div_small. change (7 * Z.of_nat 1) with 7 in Hv. lia. }
    replace (shift + 7 >=? 64) with false by lia.
    change (pre ++ ?x :: ?y) with (pre ++ [x] ++ y). rewrite app_assoc.
    replace (S (length pre)) with (length (pre ++ [1 * 2 ^ 7 + v `mod` 2 ^ 7])) by (rewrite length_app; cbn; lia).
    rewrite IH; [|lia| |lia| | |lia].
    + rewrite length_app. cbn [length]. rewrite Z.pow_add_r by lia.
      do 2 f_equal; [|lia]. rewrite Hdm at 3. ring.
    + split; [done|]. apply Z.div_lt_upper_bound; [lia|]. rewrite <- Z.pow_add_r by lia.
      replace (7 + 7 * Z.of_nat (S fuel)) with (7 * Z.of_nat (S (S fuel))) by lia. lia.
    + rewrite Z.pow_add_r by lia. nia.
    + rewrite Z.pow_add_r by lia. nia.
Qed.

Lemma ReadVarint_at v pre post :
  0 ≤ v < 2 ^ 63 →
  ReadVarint (pre ++ varintLoop 10 v ++ post) (length pre)
  = Ok (v, (length pre + length (varintLoop 10 v))%nat).
Proof.
  intros Hv. unfold ReadVarint. rewrite readVarintLoop_at by lia.
  do 2 f_equal. lia.
Qed.

Lemma length_varintLoop fuel v : (length (varintLoop fuel v) ≤ fuel)%nat.
Proof.
  revert v. induction fuel as [|fuel IH]; intros v; cbn [varintLoop]; [done|].
  case_match; cbn [length]; [lia|]. specialize (IH (Z.shiftr v 7)). lia.
Qed.

(** ** Page entries *)

Lemma writeKey_eq prev key :
  Z.of_nat (length key) < 2 ^ 62 →
  writeKey prev key
  = varintLoop 10 (Z.of_nat (CommonPrefixLen prev key))
    ++ varintLoop 10 (Z.of_nat (length key - CommonPrefixLen prev key))
    ++ drop (CommonPrefixLen prev key) key.
Proof.
  intros Hk. destruct (CommonPrefixLen_spec prev key) as (_&Hc&_).
  unfold writeKey, WriteVarint. rewrite length_drop, !u64_small by (unfold is_u64; lia).
  by rewrite <- app_assoc.
Qed.

Lemma length_writeKey prev key :
  (length (writeKey prev key) ≤ 20 + length key)%nat.
Proof.
  unfold writeKey, WriteVarint. rewrite !length_app, length_drop. cbn [length].
  pose proof (length_varintLoop 10 (u64 (Z.of_nat (CommonPrefixLen prev key)))).
  pose proof (length_varintLoop 10 (u64 (Z.of_nat (length key - CommonPrefixLen prev key)))). lia.
Qed.

Lemma readKey_at msg tail prev key pre post :
  0 ≤ tail ≤ Z.of_nat (length post) →
  Z.of_nat (length (pre ++ writeKey prev key ++ post)) < 2 ^ 62 →
  Z.of_nat (length key) < 2 ^ 62 →
  readKey msg tail (pre ++ writeKey prev key ++ post) (length pre) prev
  = Ok (key, (length pre + length (writeKey prev key))%nat).
Proof.
  intros Htail Hsz Hk. destruct (CommonPrefixLen_spec prev key) as (Hp&Hc&Ht).
  revert Hsz. rewrite writeKey_eq by done.
  set (c := CommonPrefixLen prev key) in *.
  set (v1 := varintLoop 10 (Z.of_nat c)). set (v2 := varintLoop 10 (Z.of_nat (length key - c))).
  assert (∀ pre post, ReadVarint (pre ++ v1 ++ post) (length pre)
            = Ok (Z.of_nat c, (length pre + length v1)%nat)) as R1 by (intros; apply ReadVarint_at; lia).
  assert (∀ pre post, ReadVarint (pre ++ v2 ++ post) (length pre)
            = Ok (Z.of_nat (length key - c), (length pre + length v2)%nat)) as R2
    by (intros; apply ReadVarint_at; lia).
  clearbody v1 v2. intros Hsz. unfold readKey.
  rewrite <- (app_assoc v1), R1, res_bind_ret. cbv beta iota. rewrite (app_assoc pre v1).
  replace (length pre + length v1)%nat with (length (pre ++ v1)) by (by rewrite length_app).
  rewrite <- (app_assoc v2), R2, res_bind_ret. cbv beta iota.
  replace (length (pre ++ v1) + length v2)%nat with (length ((pre ++ v1) ++ v2)) by (by rewrite !length_app).
  rewrite (app_assoc (pre ++ v1) v2).
  rewrite !length_app, length_drop in Hsz.
  rewrite !i64_small by (unfold is_i64; rewrite !length_app; lia).
  replace (_ >? Z.of_nat (length _)) with false by (rewrite !length_app, length_drop; lia).
  replace (Z.of_nat c >? Z.of_nat (length prev)) with false by lia.
  replace (slice prev 0 (Z.of_nat c)) with (Ok (take c prev)).
  2:{ unfold slice. rewrite bool_decide_true by lia. rewrite drop_0. do 2 f_equal. lia. }
  rewrite res_bind_ret, slice_app by (rewrite ?length_drop; lia). rewrite res_bind_ret.
  do 2 f_equal; [by rewrite Ht, take_drop|]. rewrite !length_app, length_drop. lia.
Qed.

(** Too few bytes after the entry. *)
Lemma readKey_short msg tail prev key pre post :
  Z.of_nat (length post) < tail < 2 ^ 16 →
  Z.of_nat (length (pre ++ writeKey prev key ++ post)) < 2 ^ 62 →
  Z.of_nat (length key) < 2 ^ 62 →
  readKey msg tail (pre ++ writeKey prev key ++ post) (length pre) prev = Err msg.
Proof.
  intros Htail Hsz Hk. destruct (CommonPrefixLen_spec prev key) as (Hp&Hc&Ht).
  revert Hsz. rewrite writeKey_eq by done. unfold readKey. rewrite <- !app_assoc. intros Hsz.
  rewrite ReadVarint_at, res_bind_ret by lia. cbv beta iota. rewrite (app_assoc pre), <- length_app.
  rewrite ReadVarint_at, res_bind_ret by lia. cbv beta iota. rewrite !length_app, length_drop in Hsz.
  rewrite i64_small by (unfold is_i64; rewrite !length_app; lia).
  by replace (_ >? _) with true by (rewrite !length_app, length_drop; lia).
Qed.

Lemma header16_eq n : header16 n = be_put 2 n.
Proof.
  unfold header16, be_put. rewrite Z.shiftr_div_pow2 by lia.
  f_equal; [|f_equal]; change (8 * Z.of_nat 1) with 8; change (8 * Z.of_nat 0) with 0; mlia.
Qed.

Lemma count16_header n rest :
  count16 (header16 n ++ rest) = Z.to_nat (u16 n).
Proof.
  unfold count16, header16. cbn [app nth]. rewrite Z.shiftl_mul_pow2 by lia.
  rewrite lor_low by (unfold_ints; mlia). f_equal. rewrite Z.shiftr_div_pow2 by lia. mlia.
Qed.

(** What the 16-bit count of a page says of its items. *)
Definition counted {A} (l : list A) : nat := Z.to_nat (u16 (Z.of_nat (length l))).

Lemma counted_le {A} (l : list A) : (counted l ≤ length l)%nat.
Proof. unfold counted. mlia. Qed.

Lemma counted_small {A} (l : list A) : Z.of_nat (length l) < 65536 → take (counted l) l = l.
Proof. intros. apply take_ge. unfold counted, u16. rewrite Z.mod_small; lia. Qed.

Lemma header16_long n rest : Nat.ltb (length (header16 n ++ rest)) 2 = false.
Proof. unfold header16. cbn [app length]. apply Nat.ltb_ge. lia. Qed.

(** Bytes a page takes at most: each entry adds at most three varints and the
    sixteen bytes of a UUID to its payload. *)
Definition rawSize {A} (weight : A → Z) (l : list A) : Z := sumLen (fun x => 64 + weight x) l.

Lemma rawSize_nonneg {A} (weight : A → Z) l : (∀ x, 0 ≤ weight x) → 0 ≤ rawSize weight l.
Proof.
  intros Hw. unfold rawSize, sumLen. induction l as [|x l IH]; cbn [foldr]; [lia|]. specialize (Hw x). lia.
Qed.

Lemma rawSize_cons {A} (weight : A → Z) x l : rawSize weight (x :: l) = 64 + weight x + rawSize weight l.
Proof. done. Qed.

Lemma serializeKeys_size prev keys :
  Z.of_nat (length (serializeKeys prev keys)) ≤ rawSize keyLen keys.
Proof.
  revert prev. induction keys as [|k keys IH]; intros prev; cbn [serializeKeys]; [done|].
  rewrite rawSize_cons, length_app. specialize (IH k). pose proof (length_writeKey prev k).
  unfold keyLen at 1. lia.
Qed.

Lemma deserializeKeys_at m keys pre prev :
  (m ≤ length keys)%nat →
  Z.of_nat (length pre) + rawSize keyLen keys < 2 ^ 62 →
  deserializeKeys m (pre ++ serializeKeys prev keys) (length pre) prev = Ok (take m keys).
Proof.
  revert m pre prev. induction keys as [|k keys IH]; intros [|m] pre prev Hm Hsz; cbn [length] in Hm; try lia; try done.
  cbn [deserializeKeys serializeKeys]. rewrite rawSize_cons in Hsz.
  pose proof (rawSize_nonneg keyLen keys ltac:(unfold keyLen; lia)) as Hn.
  pose proof (serializeKeys_size k keys). pose proof (length_writeKey prev k). unfold keyLen in Hsz at 1.
  rewrite readKey_at, res_bind_ret by (rewrite ?length_app; lia). cbv beta iota.
  rewrite app_assoc.
  replace (length pre + length (writeKey prev k))%nat with (length (pre ++ writeKey prev k)) by (by rewrite length_app).
  rewrite IH, res_bind_ret by (rewrite ?length_app; lia). done.
Qed.

Lemma DeserializePage_Serialize keys :
  rawSize keyLen keys < 2 ^ 61 →
  DeserializePage (SerializePage keys) = Ok (take (counted keys) keys).
Proof.
  intros Hsz. unfold DeserializePage, SerializePage. rewrite header16_long, count16_header.
  rewrite (deserializeKeys_at _ _ (header16 (Z.of_nat (length keys))) []);
    [done|apply counted_le|unfold header16; cbn [length]; lia].
Qed.

Lemma serializePairs_size prev pairs :
  Z.of_nat (length (serializePairs prev pairs)) ≤ rawSize pairLen pairs.
Proof.
  revert prev. induction pairs as [|p pairs IH]; intros prev; cbn [serializePairs]; [done|].
  rewrite rawSize_cons. unfold writePair, WriteVarint. rewrite !length_app.
  specialize (IH p.1). pose proof (length_writeKey prev p.1).
  pose proof (length_varintLoop 10 (u64 (Z.of_nat (length p.2)))).
  unfold pairLen at 1. lia.
Qed.

Lemma readValue_at value pre post :
  Z.of_nat (length (pre ++ WriteVarint [] (Z.of_nat (length value)) ++ value ++ post)) < 2 ^ 62 →
  readValue (pre ++ WriteVarint [] (Z.of_nat (length value)) ++ value ++ post) (length pre)
  = Ok (value, (length pre + length (WriteVarint [] (Z.of_nat (length value))) + length value)%nat).
Proof.
  unfold WriteVarint. cbn [app]. rewrite !length_app. intros Hsz.
  rewrite !u64_small in * by (unfold is_u64; lia).
  unfold readValue. rewrite ReadVarint_at, res_bind_ret by lia. cbv beta iota.
  rewrite !i64_small by (unfold is_i64; lia).
  replace (_ >? Z.of_nat (length _)) with false by (rewrite !length_app; lia).
  rewrite app_assoc, slice_app, res_bind_ret by (rewrite ?length_app; lia). do 2 f_equal. lia.
Qed.

Lemma deserializePairs_at m pairs pre prev :
  (m ≤ length pairs)%nat →
  Z.of_nat (length pre) + rawSize pairLen pairs < 2 ^ 62 →
  deserializePairs m (pre ++ serializePairs prev pairs) (length pre) prev = Ok (take m pairs).
Proof.
  revert m pre prev. induction pairs as [|[k v] pairs IH]; intros [|m] pre prev Hm Hsz;
    cbn [length] in Hm; try lia; try done.
  cbn [deserializePairs serializePairs fst]. rewrite rawSize_cons in Hsz.
  pose proof (rawSize_nonneg pairLen pairs ltac:(unfold pairLen; lia)) as Hn.
  pose proof (serializePairs_size k pairs). pose proof (length_writeKey prev k).
  unfold pairLen in Hsz at 1. cbn [fst snd] in Hsz.
  pose proof (length_varintLoop 10 (u64 (Z.of_nat (length v)))).
  change (writePair prev (k, v)) with ((writeKey prev k ++ WriteVarint [] (Z.of_nat (length v))) ++ v).
  rewrite <- !app_assoc.
  assert (length (WriteVarint [] (Z.of_nat (length v))) ≤ 10)%nat by done.
  rewrite readKey_at, res_bind_ret by (rewrite ?length_app; lia). cbv beta iota.
  rewrite app_assoc.
  replace (length pre + length (writeKey prev k))%nat with (length (pre ++ writeKey prev k)) by (by rewrite length_app).
  rewrite readValue_at, res_bind_ret by (rewrite ?length_app; lia). cbv beta iota.
  rewrite (app_assoc (pre ++ _)), app_assoc.
  rewrite <- !length_app.
  rewrite IH, res_bind_ret by (rewrite ?length_app; lia). done.
Qed.

Lemma DeserializePageKv_Serialize pairs :
  rawSize pairLen pairs < 2 ^ 61 →
  DeserializePageKv (SerializePageKv pairs) = Ok (take (counted pairs) pairs).
Proof.
  intros Hsz. unfold DeserializePageKv, SerializePageKv. rewrite header16_long, count16_header.
  rewrite (deserializePairs_at _ _ (header16 (Z.of_nat (length pairs))) []);
    [done|apply counted_le|unfold header16; cbn [length]; lia].
Qed.

Definition entryLen (e : IndexEntry) : Z := Z.of_nat (length (EKey e)).
Definition entry_ok (e : IndexEntry) : Prop := length (EUUID e) = 16%nat.

Lemma serializeEntries_size prev entries :
  Forall entry_ok entries → Z.of_nat (length (serializeEntries prev entries)) ≤ rawSize entryLen entries.
Proof.
  intros Hok. revert prev. induction Hok as [|e entries He Hok IH]; intros prev; cbn [serializeEntries]; [done|].
  rewrite rawSize_cons, !length_app, He. specialize (IH (EKey e)). pose proof (length_writeKey prev (EKey e)).
  unfold entryLen at 1. lia.
Qed.

Lemma deserializeEntries_at m entries pre prev :
  Forall entry_ok entries → (m ≤ length entries)%nat →
  Z.of_nat (length pre) + rawSize entryLen entries < 2 ^ 62 →
  deserializeEntries m (pre ++ serializeEntries prev entries) (length pre) prev = Ok (take m entries).
Proof.
  intros Hok. revert m pre prev.
  induction Hok as [|e entries He Hok IH]; intros [|m] pre prev Hm Hsz; cbn [length] in Hm; try lia; try done.
  cbn [deserializeEntries serializeEntries]. rewrite rawSize_cons in Hsz.
  pose proof (rawSize_nonneg entryLen entries ltac:(unfold entryLen; lia)) as Hn.
  pose proof (serializeEntries_size (EKey e) entries Hok). pose proof (length_writeKey prev (EKey e)).
  unfold entryLen in Hsz at 1. unfold entry_ok in He.
  rewrite readKey_at, res_bind_ret by (rewrite ?length_app; lia). cbv beta iota.
  rewrite app_assoc, <- length_app. rewrite slice_app, res_bind_ret by lia.
  rewrite app_assoc. replace (length (pre ++ writeKey prev (EKey e)) + 16)%nat
    with (length ((pre ++ writeKey prev (EKey e)) ++ EUUID e)) by (rewrite !length_app; lia).
  rewrite IH, res_bind_ret by (rewrite ?length_app; lia). by destruct e.
Qed.

Lemma DeserializeIndexPage_Serialize entries :
  Forall entry_ok entries → rawSize entryLen entries < 2 ^ 61 →
  DeserializeIndexPage (SerializeIndexPage entries) = Ok (take (counted entries) entries).
Proof.
  intros Hok Hsz. unfold DeserializeIndexPage, SerializeIndexPage. rewrite header16_long, count16_header.
  rewrite (deserializeEntries_at _ _ (header16 (Z.of_nat (length entries))) []);
    [done|done|apply counted_le|unfold header16; cbn [length]; lia].
Qed.

(** ** Splitting *)

Lemma splitHalves_spec {A} (whole : list A → bool) fuel l :
  (∀ x, whole [x] = true) → (length l ≤ fuel)%nat →
  concat (splitHalves whole fuel l) = l
  ∧ Forall (fun p => p ≠ [] ∧ whole p = true) (splitHalves whole fuel l).
Proof.
  intros H1. revert l. induction fuel as [|fuel IH]; intros l Hl.
  { destruct l; cbn [length] in Hl; [|lia]. by split. }
  cbn [splitHalves]. destruct l as [|x l]; [by split|].
  destruct (whole (x :: l)) eqn:Ew.
  { split; [cbn [concat]; by rewrite app_nil_r|]. by repeat constructor. }
  set (xs := x :: l) in *. set (mid := Nat.div2 (length xs)).
  assert (2 ≤ length xs)%nat as H2.
  { destruct l; [|unfold xs; cbn [length]; lia]. unfold xs in Ew. by rewrite H1 in Ew. }
  pose proof (Nat.div2_odd (length xs)) as Hodd. fold mid in Hodd.
  assert (1 ≤ mid < length xs)%nat as Hmid by (destruct (Nat.odd (length xs)); cbn [Nat.b2n] in Hodd; lia).
  destruct (IH (take mid xs)) as [C1 F1]; [rewrite length_take; lia|].
  destruct (IH (drop mid xs)) as [C2 F2]; [rewrite length_drop; lia|].
  split; [by rewrite concat_app, C1, C2, take_drop|by apply Forall_app].
Qed.

Lemma mapM_Ok {A B} (f : A → res B) (g : A → B) l :
  Forall (fun x => f x = Ok (g x)) l → mapM f l = Ok (map g l).
Proof.
  induction 1 as [|x l Hx Hl IH]; [done|]. cbn [mapM]. by rewrite Hx, res_bind_ret, IH.
Qed.

Lemma Forall_concat {A} (P : A → Prop) ls : Forall P (concat ls) → Forall (Forall P) ls.
Proof. induction ls as [|l ls IH]; cbn [concat]; [done|]. rewrite Forall_app, Forall_cons. naive_solver. Qed.

Lemma rawSize_sum {A} (weight : A → Z) l : rawSize weight l = 64 * Z.of_nat (length l) + sumLen weight l.
Proof.
  unfold rawSize, sumLen. induction l as [|x l IH]; cbn [foldr length]; [done|]. rewrite IH. lia.
Qed.

Lemma sumLen_lower {A} (weight : A → Z) c l :
  Forall (fun x => c ≤ weight x) l → c * Z.of_nat (length l) ≤ sumLen weight l.
Proof. unfold sumLen. induction 1; cbn [foldr length]; lia. Qed.

(** A page that [pageWhole] accepts holds fewer than 65536 items of 9 bytes. *)
Lemma sumLen_concat keys : sumLen keyLen keys = Z.of_nat (length (concat keys)).
Proof.
  unfold sumLen, keyLen. induction keys as [|k keys IH]; [done|]. cbn [foldr concat]. rewrite IH, length_app. lia.
Qed.

Lemma pageWhole_small {A} (weight : A → Z) l :
  pageWhole weight l = true → Forall (fun x => 9 ≤ weight x < 2 ^ 60) l →
  Z.of_nat (length l) < 65536 ∧ rawSize weight l < 2 ^ 61.
Proof.
  intros Hw Hl. unfold pageWhole, MaxRawSize in Hw. apply orb_true_iff in Hw.
  rewrite rawSize_sum. destruct Hw as [H1|Hs].
  - apply Nat.eqb_eq in H1. destruct l as [|x [|??]]; try done.
    apply Forall_cons in Hl as [Hx _]. cbn beta in Hx. unfold sumLen. cbn [length foldr]. split; lia.
  - assert (9 * Z.of_nat (length l) ≤ sumLen weight l).
    { apply sumLen_lower. eapply Forall_impl; [exact Hl|]. cbn beta. lia. }
    lia.
Qed.

(** The pages of a build, as decoded. *)
Definition keyPages (keys : list bytes) : list (list bytes) :=
  splitHalves (pageWhole keyLen) (length keys) keys.
Definition pairPages (pairs : list (bytes * bytes)) : list (list (bytes * bytes)) :=
  splitHalves (pageWhole pairLen) (length pairs) pairs.

Lemma pageWhole_one {A} (weight : A → Z) x : pageWhole weight [x] = true.
Proof. done. Qed.

Lemma build_decode {A} (weight : A → Z) (encode : list A → bytes) (decode : bytes → res (list A))
    (first : list A → bytes) l :
  (∀ p, rawSize weight p < 2 ^ 61 → decode (encode p) = Ok (take (counted p) p)) →
  Forall (fun x => 9 ≤ weight x < 2 ^ 60) l →
  mapM (fun p => decode p.2)
    (map (fun ks => (first ks, encode ks)) (splitHalves (pageWhole weight) (length l) l))
  = Ok (splitHalves (pageWhole weight) (length l) l).
Proof.
  intros Hdec Hl. destruct (splitHalves_spec (pageWhole weight) (length l) l (pageWhole_one weight)) as [Hc Hf]; [lia|].
  set (ps := splitHalves _ _ _) in *. clearbody ps.
  rewrite <- Hc in Hl. apply Forall_concat in Hl. clear Hc.
  induction Hl as [|p ps Hp Hps IH]; [done|].
  apply Forall_cons in Hf as [[_ Hw] Hf]. cbn [map mapM snd].
  destruct (pageWhole_small weight p Hw Hp) as [Hlen Hraw].
  rewrite Hdec, res_bind_ret by done. rewrite counted_small by done.
  by rewrite IH.
Qed.

(** ** Prefix ranges *)

Lemma lowerBound_spec {A} (key : A → bytes) l target :
  ascending (map key l) →
  (lowerBound key l target ≤ length l)%nat
  ∧ (∀ i p, (i < lowerBound key l target)%nat → l !! i = Some p → key p <b target)
  ∧ (∀ i p, (lowerBound key l target ≤ i)%nat → l !! i = Some p → target <=b key p).
Proof.
  intros Ha. unfold lowerBound.
  set (f := fun mid => match l !! mid with Some e => CmpSeq (key e) target <? 0 | None => false end).
  assert (downward f (length l)) as Hd.
  { intros i j Hij Hj. unfold f. apply lookup_lt_is_Some in Hj as [ej Hej]. rewrite Hej.
    destruct (lookup_lt_is_Some_2 l i) as [ei Hei]; [apply lookup_lt_Some in Hej; lia|]. rewrite Hei.
    rewrite !CmpSeq_lt, !bool_decide_eq_true. intros Hlt.
    destruct (decide (i = j)) as [->|]; [congruence|].
    eapply blt_trans; [|exact Hlt].
    apply (ascending_lookup (map key l) i j); [done|lia|by rewrite list_lookup_fmap, Hei|by rewrite list_lookup_fmap, Hej]. }
  destruct (bsearch_spec f (length l) Hd) as (Hb&Ht&Hf). split_and!; [done| |].
  - intros i e Hi He. specialize (Ht i Hi). unfold f in Ht. rewrite He, CmpSeq_lt in Ht.
    by apply bool_decide_eq_true in Ht.
  - intros i e Hi He. pose proof (lookup_lt_Some _ _ _ He). specialize (Hf i ltac:(lia)).
    unfold f in Hf. rewrite He, CmpSeq_lt, bool_decide_eq_false in Hf. by apply ble_not_lt.
Qed.

Lemma partitionPoint_spec entries target :
  ascending (map EKey entries) →
  (partitionPoint entries target ≤ length entries)%nat
  ∧ (∀ i e, (i < partitionPoint entries target)%nat → entries !! i = Some e → EKey e <b target)
  ∧ (∀ i e, (partitionPoint entries target ≤ i)%nat → entries !! i = Some e → target <=b EKey e).
Proof. apply lowerBound_spec. Qed.

(** [PrefixEnd] is the least upper bound of the strings with the prefix. *)
Lemma prefixEndRev_spec r :
  bytes_ok r →
  match prefixEndRev r with
  | None => Forall (fun b => b = 255) r
  | Some e => ∃ ffs b r', r = ffs ++ b :: r' ∧ Forall (fun b => b = 255) ffs ∧ b < 255 ∧ e = (b + 1) :: r'
  end.
Proof.
  induction 1 as [|b r Hb Hr IH]; cbn [prefixEndRev]; [done|].
  destruct (Z.ltb_spec b 0xff) as [Hlt|Hge].
  { exists [], b, r. repeat split; [constructor|lia]. }
  assert (b = 255) by (unfold is_u8 in Hb; lia). subst b.
  destruct (prefixEndRev r) as [e|].
  - destruct IH as (ffs&b&r'&->&Hff&?&->). exists (255 :: ffs), b, r'. repeat split; [by constructor|done].
  - by constructor.
Qed.

Lemma blt_cons_lt x y a b : x < y → (x :: a) <b (y :: b).
Proof. intros. unfold blt. cbn [bcmp]. by rewrite (proj2 (Z.compare_lt_iff x y)). Qed.

Lemma blt_app_same p a b : (p ++ a) <b (p ++ b) ↔ a <b b.
Proof. unfold blt. by rewrite bcmp_app_same. Qed.

(** A string at or above the prefix that does not extend it is above every extension. *)
Lemma ff_top p k : Forall (fun b => b = 255) p → bytes_ok k → p <=b k → has_prefix k p = true.
Proof.
  intros Hp. revert k. induction Hp as [|b p -> Hp IH]; intros k Hk Hle; [done|].
  destruct k as [|x k]; [done|]. apply Forall_cons in Hk as [Hx Hk].
  unfold ble in Hle. cbn [bcmp] in Hle. unfold is_u8 in Hx.
  destruct (Z.compare_spec 255 x) as [<-|?|?]; [|lia|done].
  specialize (IH k Hk Hle). apply has_prefix_spec in IH as [s ->]. apply has_prefix_spec. by exists s.
Qed.

Lemma PrefixEnd_spec prefix k :
  bytes_ok prefix → bytes_ok k →
  has_prefix k prefix = true
  ↔ prefix <=b k ∧ match PrefixEnd prefix with Some e => k <b e | None => True end.
Proof.
  intros Hp Hk. unfold PrefixEnd.
  assert (bytes_ok (reverse prefix)) as Hr by (by apply Forall_reverse).
  pose proof (prefixEndRev_spec (reverse prefix) Hr) as Hs.
  destruct (prefixEndRev (reverse prefix)) as [e|]; cbn [fmap option_fmap option_map].
  - destruct Hs as (ffs&b&r'&Hrev&Hff&Hb&->).
    assert (prefix = reverse r' ++ b :: reverse ffs) as ->.
    { rewrite <- (reverse_involutive prefix), Hrev, reverse_app, reverse_cons, <- app_assoc. done. }
    rewrite reverse_cons. apply Forall_reverse in Hff. clear Hr Hrev.
    set (p := reverse r') in *. set (q := reverse ffs) in *. clearbody p q.
    split.
    + intros [s ->]%has_prefix_spec. split; [apply ble_prefix|].
      rewrite <- !app_assoc. apply blt_app_same, blt_cons_lt. lia.
    + intros [Hle Hlt]. revert k Hk Hle Hlt. induction p as [|x p IH]; intros k Hk Hle Hlt.
      * destruct k as [|y k]; [done|]. cbn [app] in *. unfold ble, blt in *. cbn [bcmp] in Hle, Hlt.
        apply Forall_cons in Hk as [Hy Hk].
        destruct (Z.compare_spec b y) as [<-|?|?]; [| |done].
        -- assert (has_prefix k q = true) as [s ->]%has_prefix_spec by (by apply ff_top).
           apply has_prefix_spec. by exists s.
        -- destruct (Z.compare_spec y (b + 1)) as [->|?|?]; [by destruct k|lia|done].
      * apply Forall_app in Hp as Hp'. destruct k as [|y k]; [done|].
        cbn [app] in *. unfold ble, blt in Hle, Hlt. cbn [bcmp] in Hle, Hlt. rewrite Z.compare_antisym in Hlt.
        apply Forall_cons in Hk as [Hy Hk]. apply Forall_cons in Hp as [? Hp].
        destruct (Z.compare_spec x y) as [<-|?|?]; cbn [CompOpp] in Hlt; [|done..].
        assert (has_prefix k (p ++ b :: q) = true) as [s ->]%has_prefix_spec by (by apply IH).
        apply has_prefix_spec. by exists s.
  - split; [|by intros [? _]; apply ff_top; [rewrite <- (reverse_involutive prefix); apply Forall_reverse|..]].
    intros [s ->]%has_prefix_spec. split; [apply ble_prefix|done].
Qed.

Lemma FindPrefixRange_bounds entries prefix s e :
  ascending (map EKey entries) → FindPrefixRange entries prefix = (s, e) →
  (s ≤ e ≤ length entries)%nat.
Proof.
  intros Ha. unfold FindPrefixRange. destruct (Nat.eqb_spec (length prefix) 0); [intros [= <- <-]; lia|].
  destruct (partitionPoint_spec entries prefix Ha) as (Hs&_&_).
  assert (match PrefixEnd prefix with Some pe => partitionPoint entries pe | None => length entries end
          ≤ length entries)%nat as He.
  { destruct (PrefixEnd prefix); [|lia]. by apply partitionPoint_spec. }
  cbv zeta. match goal with |- (if Nat.ltb ?x ?y then _ else _) = _ → _ => destruct (Nat.ltb_spec x y) end;
    intros [= <- <-]; lia.
Qed.

(** The child a key belongs to: the last entry that is not above it. *)
Definition routes (entries : list IndexEntry) (k : bytes) (i : nat) : Prop :=
  (∃ e, entries !! i = Some e ∧ EKey e <=b k)
  ∧ ∀ j e, (i < j)%nat → entries !! j = Some e → k <b EKey e.

Lemma FindPrefixRange_covers entries prefix k i s e :
  ascending (map EKey entries) → bytes_ok prefix → bytes_ok k →
  has_prefix k prefix = true → routes entries k i →
  FindPrefixRange entries prefix = (s, e) → (s ≤ i < e)%nat.
Proof.
  intros Ha Hp Hk Hpre [(ei&Hi&Hle) Hnext] Hr.
  pose proof (FindPrefixRange_bounds _ _ _ _ Ha Hr) as Hb. revert Hr.
  pose proof (lookup_lt_Some _ _ _ Hi) as Hlen. unfold FindPrefixRange.
  destruct (Nat.eqb_spec (length prefix) 0); [intros [= <- <-]; lia|].
  destruct (proj1 (PrefixEnd_spec prefix k Hp Hk) Hpre) as [Hlo Hhi].
  destruct (partitionPoint_spec entries prefix Ha) as (Hs&Hs1&_).
  assert (i < match PrefixEnd prefix with Some pe => partitionPoint entries pe | None => length entries end)%nat as Hend.
  { destruct (PrefixEnd prefix) as [pe|]; [|done].
    destruct (partitionPoint_spec entries pe Ha) as (_&_&He2).
    destruct (decide (partitionPoint entries pe ≤ i)%nat) as [Hge|]; [|lia].
    exfalso. specialize (He2 i ei Hge Hi). apply (blt_irrefl k).
    eapply blt_le_trans; [exact Hhi|]. by etrans. }
  assert ((if Nat.ltb 0 (partitionPoint entries prefix) then (partitionPoint entries prefix - 1)%nat else 0%nat) ≤ i)%nat as Hstart.
  { destruct (Nat.ltb_spec 0 (partitionPoint entries prefix)); [|lia].
    destruct (decide (partitionPoint entries prefix - 1 ≤ i)%nat) as [|Hgt]; [done|]. exfalso.
    destruct (lookup_lt_is_Some_2 entries (partitionPoint entries prefix - 1)) as [ej Hj]; [lia|].
    apply (blt_irrefl k). eapply blt_trans; [apply (Hnext (partitionPoint entries prefix - 1)%nat ej); [lia|done]|].
    eapply blt_le_trans; [eapply Hs1; [|exact Hj]; lia|done]. }
  cbv zeta. match goal with |- (if Nat.ltb ?x ?y then _ else _) = _ → _ => destruct (Nat.ltb_spec x y) end;
    intros [= <- <-]; lia.
Qed.

(** ** The root blob *)

Definition tree_ok (t : CfTree) : Prop :=
  length (RootUUID t) = 16%nat ∧ is_u8 (Height t) ∧ is_u32 (NumLeaves t).

Lemma deserializeTrees_at trees rest :
  Forall tree_ok trees → deserializeTrees (length trees) (flat_map serializeTree trees ++ rest) = trees.
Proof.
  induction 1 as [|t trees Ht Hts IH]; [done|].
  destruct t as [u h nl]. destruct Ht as (Hu&Hh&Hn). cbn [RootUUID Height NumLeaves] in *.
  do 16 (destruct u as [|? u]; [done|]). destruct u; [|done]. clear Hu.
  cbn [length deserializeTrees flat_map]. rewrite <- app_assoc.
  cbn [serializeTree RootUUID Height NumLeaves app nth take drop]. f_equal; [|exact IH].
  f_equal. rewrite lor_bytes4 by (apply Z.mod_pos_bound; lia).
  rewrite !Z.shiftr_div_pow2 by lia. mlia.
Qed.

Lemma DeserializeRoot_Serialize trees :
  Forall tree_ok trees → Z.of_nat (length trees) < 65536 →
  DeserializeRoot (SerializeRoot trees) = Ok trees.
Proof.
  intros Hok Hlen. unfold SerializeRoot. cbv zeta. rewrite be_put_shift2.
  set (n := u16 (Z.of_nat (length trees))).
  assert (n = Z.of_nat (length trees)) as Hn by (unfold n, u16; rewrite Z.mod_small; lia).
  clearbody n. subst n. rewrite <- be_put_shift2. cbn [app rootMagic].
  unfold DeserializeRoot. cbn [length take].
  assert (length (flat_map serializeTree trees) = (21 * length trees)%nat) as Hl.
  { clear Hlen. induction Hok as [|t ts (Hu&_&_) Hts IH]; [done|].
    cbn [flat_map length]. rewrite length_app, IH. unfold serializeTree.
    rewrite !length_app, Hu. cbn [length]. lia. }
  rewrite bool_decide_true by done. cbn [nth]. replace (_ <? 8) with false by lia. cbn [orb negb].
  change (Z.lor (u8 (rootVersion ≫ 8) ≪ 8) (u8 rootVersion) =? rootVersion) with true. cbn [negb].
  rewrite lor_bytes2 by (apply Z.mod_pos_bound; lia). rewrite Z.shiftr_div_pow2 by lia.
  replace (u8 (Z.of_nat (length trees) / 2 ^ 8) * 256 + u8 (Z.of_nat (length trees)))
    with (Z.of_nat (length trees)) by mlia.
  rewrite Hl. replace (_ <? _) with false by lia. cbn [drop].
  rewrite Nat2Z.id. f_equal. pose proof (deserializeTrees_at trees [] Hok) as H.
  rewrite app_nil_r in H. exact H.
Qed.

(** ** Root names *)

Definition hexByte (b : Z) : bytes := [hexDigit (Z.shiftr b 4); hexDigit (Z.land b 0x0f)].

Lemma nibbles b : Z.shiftr b 4 = b / 16 ∧ Z.land b 0x0f = b `mod` 16.
Proof.
  split; [by rewrite Z.shiftr_div_pow2|]. change 0x0f with (Z.ones 4). by rewrite Z.land_ones.
Qed.

Lemma hexByte_cmp x y a b :
  is_u8 x → is_u8 y →
  bcmp (hexByte x ++ a) (hexByte y ++ b) = match x ?= y with Eq => bcmp a b | c => c end.
Proof.
  intros Hx Hy. unfold hexByte. destruct (nibbles x) as [-> ->], (nibbles y) as [-> ->].
  cbn [app bcmp]. unfold hexDigit, is_u8 in *.
  pose proof (Z.div_mod x 16 ltac:(lia)). pose proof (Z.div_mod y 16 ltac:(lia)).
  pose proof (Z.mod_pos_bound x 16 ltac:(lia)). pose proof (Z.mod_pos_bound y 16 ltac:(lia)).
  set (qx := x / 16) in *. set (qy := y / 16) in *. set (rx := x `mod` 16) in *. set (ry := y `mod` 16) in *.
  clearbody qx qy rx ry.
  destruct (Z.ltb_spec qx 10), (Z.ltb_spec qy 10), (Z.ltb_spec rx 10), (Z.ltb_spec ry 10);
  match goal with |- match ?c with _ => _ end = _ => destruct c eqn:?E end;
  try match goal with |- match ?c with _ => _ end = match _ ?= _ with _ => _ end => destruct c eqn:?E end;
  rewrite ?Z.compare_eq_iff, ?Z.compare_lt_iff, ?Z.compare_gt_iff in *;
  destruct (Z.compare_spec x y); try done; lia.
Qed.

Lemma hex_cmp a b :
  bytes_ok a → bytes_ok b → bcmp (flat_map hexByte a) (flat_map hexByte b) = bcmp a b.
Proof.
  intros Ha. revert b. induction Ha as [|x a Hx Ha IH]; intros b Hb.
  - by destruct b.
  - destruct Hb as [|y b Hy Hb]; [done|]. cbn [flat_map]. rewrite hexByte_cmp by done.
    cbn [bcmp]. by rewrite IH.
Qed.

Lemma hexValue_hexDigit n : 0 ≤ n < 16 → hexValue (hexDigit n) = Some n.
Proof.
  intros Hn. unfold hexDigit, hexValue. destruct (Z.ltb_spec n 10).
  - replace ((48 <=? 48 + n) && (48 + n <=? 57)) with true by lia. f_equal. lia.
  - replace ((48 <=? 87 + n) && (87 + n <=? 57)) with false by lia.
    replace ((97 <=? 87 + n) && (87 + n <=? 102)) with true by lia. f_equal. lia.
Qed.

Lemma mapM_hex b :
  bytes_ok b →
  ∃ ds, mapM hexValue (flat_map hexByte b) = Some ds
    ∧ ∀ acc, fold_left (fun n d => 16 * n + d) ds acc = fold_left (fun v x => 256 * v + x) b acc.
Proof.
  induction 1 as [|x b Hx Hb (ds&E&F)]; [by exists []|]. unfold is_u8 in Hx.
  exists (x / 16 :: x `mod` 16 :: ds). split.
  - cbn [flat_map]. unfold hexByte at 1. destruct (nibbles x) as [-> ->]. cbn [app mapM].
    rewrite !hexValue_hexDigit by (Z.to_euclidean_division_equations; lia). cbn [mbind option_bind].
    by rewrite E.
  - intros acc. cbn [fold_left]. rewrite F. f_equal. Z.to_euclidean_division_equations; lia.
Qed.

Lemma ParseUintHex_hex16 n : is_u64 n → ParseUintHex (hex16 n) = Some n.
Proof.
  intros Hn. unfold ParseUintHex. rewrite bool_decide_false.
  2:{ intros H. apply (f_equal (@length Z)) in H. revert H. unfold hex16. cbn [be_put flat_map app length]. done. }
  destruct (mapM_hex (be_put 8 n) (be_put_ok 8 n)) as (ds&E&F).
  change (flat_map hexByte (be_put 8 n)) with (hex16 n) in E. rewrite E. cbn [mbind option_bind].
  rewrite F. change (fold_left _ (be_put 8 n) 0) with (be_get (be_put 8 n)). rewrite be_get_put.
  change (8 * Z.of_nat 8) with 64. unfold is_u64 in Hn. rewrite Z.mod_small by lia.
  by replace (n <? 2 ^ 64) with true by lia.
Qed.

Lemma MakeRootName_eq secs nanos :
  0 < secs * 1000000000 + nanos < 2 ^ 63 →
  MakeRootName secs nanos = bs "root_" ++ hex16 (2 ^ 64 - (secs * 1000000000 + nanos)).
Proof.
  intros Hts. unfold MakeRootName. cbv zeta. do 2 f_equal. set (ts := secs * 1000000000 + nanos) in *. clearbody ts.
  rewrite (i64_small ts) by (unfold is_i64; lia). unfold Z.lnot. rewrite i64_small by (unfold is_i64; lia).
  rewrite u64_eq by (unfold is_i64; lia). rewrite bool_decide_false by lia. lia.
Qed.

Lemma ParseRootUs_MakeRootName secs nanos :
  0 < secs * 1000000000 + nanos < 2 ^ 63 →
  ParseRootUs (MakeRootName secs nanos) = secs * 1000000000 + nanos.
Proof.
  intros Ht. rewrite MakeRootName_eq by done. set (t := secs * 1000000000 + nanos) in *. clearbody t.
  unfold ParseRootUs. replace (has_prefix _ _) with true by (symmetry; apply has_prefix_spec; by eexists).
  cbn [negb]. change 5%nat with (length (bs "root_")). rewrite drop_app_length.
  rewrite ParseUintHex_hex16 by (unfold is_u64; lia).
  replace (i64 (2 ^ 64 - t)) with (- t) by mlia. rewrite i64_small by (unfold is_i64; lia). lia.
Qed.

(** ** Index splits *)

Lemma serializeEntries_lower prev entries :
  Forall entry_ok entries → 18 * Z.of_nat (length entries) ≤ Z.of_nat (length (serializeEntries prev entries)).
Proof.
  intros Hok. revert prev. induction Hok as [|e entries He Hok IH]; intros prev; cbn [serializeEntries]; [done|].
  rewrite !length_app, He. specialize (IH (EKey e)). cbn [length].
  assert (2 ≤ length (writeKey prev (EKey e)))%nat; [|lia].
  unfold writeKey, WriteVarint. rewrite !length_app.
  pose proof (varintLoop_nonempty 10 (u64 (Z.of_nat (CommonPrefixLen prev (EKey e)))) ltac:(lia)).
  pose proof (varintLoop_nonempty 10 (u64 (Z.of_nat (length (drop (CommonPrefixLen prev (EKey e)) (EKey e))))) ltac:(lia)). lia.
Qed.

Lemma indexWhole_small l :
  indexWhole l = true → Forall entry_ok l → Z.of_nat (length l) < 65536.
Proof.
  intros Hw Hok. unfold indexWhole, SerializeIndexPage, IndexPageMaxSize in Hw.
  pose proof (serializeEntries_lower [] l Hok). rewrite length_app in Hw.
  apply orb_true_iff in Hw as [Hw|Hw]; [lia|]. apply Nat.eqb_eq in Hw. lia.
Qed.

Lemma SplitIndexEntries_decode entries :
  Forall entry_ok entries → Forall (fun e => entryLen e < 2 ^ 40) entries →
  mapM DeserializeIndexPage (SplitIndexEntries entries)
  = Ok (splitHalves indexWhole (length entries) entries).
Proof.
  intros Hok Hsz. unfold SplitIndexEntries.
  destruct (splitHalves_spec indexWhole (length entries) entries) as [Hc Hf];
    [intros; unfold indexWhole; by rewrite orb_true_r|lia|].
  set (ps := splitHalves _ _ _) in *. clearbody ps. rewrite <- Hc in Hok, Hsz.
  apply Forall_concat in Hok, Hsz. clear Hc.
  induction ps as [|p ps IH]; [done|]. apply Forall_cons in Hok as [Ho Hok], Hsz as [Hs Hsz], Hf as [[_ Hw] Hf].
  cbn [map mapM]. pose proof (indexWhole_small p Hw Ho) as Hp.
  rewrite DeserializeIndexPage_Serialize, res_bind_ret, counted_small; [by rewrite IH|done..|].
  rewrite rawSize_sum. assert (sumLen entryLen p ≤ 2 ^ 40 * Z.of_nat (length p)); [|lia].
  clear -Hs. unfold sumLen. induction Hs as [|e p He Hs IH]; cbn [foldr length]; lia.
Qed.

(** ** Properties *)

(** [BuildPages] and [BuildPagesKv] lose nothing when every item is at least nine
    bytes: each page [DeserializePage] (or [DeserializePageKv]) reads back to
    a non-empty run of items, and the runs in order are the input. *)
Theorem build_pages_complete keys pairs :
  Forall (fun k => 9 ≤ keyLen k < 2 ^ 60) keys →
  Forall (fun p => 9 ≤ pairLen p < 2 ^ 60) pairs →
  (∃ runs, mapM (fun p => DeserializePage p.2) (BuildPages keys) = Ok runs
     ∧ concat runs = keys ∧ Forall (fun r => r ≠ []) runs
     ∧ map fst (BuildPages keys) = map (fun r => default [] (head r)) runs)
  ∧ (∃ runs, mapM (fun p => DeserializePageKv p.2) (BuildPagesKv pairs) = Ok runs
     ∧ concat runs = pairs ∧ Forall (fun r => r ≠ []) runs
     ∧ map fst (BuildPagesKv pairs) = map (fun r => default [] (fst <$> head r)) runs).
Proof.
  intros Hk Hp. split.
  - exists (keyPages keys).
    destruct (splitHalves_spec (pageWhole keyLen) (length keys) keys (pageWhole_one _)) as [Hc Hf]; [lia|].
    split_and!; [|done|by eapply Forall_impl; [exact Hf|]; intros ? []|unfold BuildPages; by rewrite map_map].
    by apply build_decode; [apply DeserializePage_Serialize|].
  - exists (pairPages pairs).
    destruct (splitHalves_spec (pageWhole pairLen) (length pairs) pairs (pageWhole_one _)) as [Hc Hf]; [lia|].
    split_and!; [|done|by eapply Forall_impl; [exact Hf|]; intros ? []|unfold BuildPagesKv; by rewrite map_map].
    by apply build_decode; [apply DeserializePageKv_Serialize|].
Qed.

Lemma build_pages_complete_witness :
  ∃ runs, mapM (fun p => DeserializePage p.2) (BuildPages [bs "attribute-1"; bs "attribute-22"]) = Ok runs
     ∧ concat runs = [bs "attribute-1"; bs "attribute-22"].
Proof.
  destruct (build_pages_complete [bs "attribute-1"; bs "attribute-22"] [(bs "attribute", bs "v")])
    as [(runs&?&?&_) _]; [by repeat constructor|by repeat constructor|by exists runs].
Defined.

(** [SerializePage] writes its key count in sixteen bits while [BuildPages]
    limits a page by its bytes only: 65536 short keys go to one page, and that
    page reads back empty. *)
Theorem page_count_overflow keys :
  Z.of_nat (length keys) = 65536 → sumLen keyLen keys ≤ MaxRawSize →
  ∃ first page, BuildPages keys = [(first, page)] ∧ DeserializePage page = Ok [].
Proof.
  intros Hlen Hsum. unfold MaxRawSize in Hsum.
  exists (default [] (head keys)), (SerializePage keys). split.
  - unfold BuildPages. destruct (length keys) as [|n] eqn:E; [lia|]. cbn [splitHalves].
    destruct keys as [|k keys]; [done|]. unfold pageWhole, MaxRawSize.
    replace (sumLen keyLen (k :: keys) <=? _) with true by lia. by rewrite orb_true_r.
  - rewrite DeserializePage_Serialize by (rewrite rawSize_sum; lia).
    unfold counted. by rewrite Hlen.
Qed.

Lemma page_count_overflow_witness :
  ∃ first page, BuildPages (map (be_put 8) (seqZ 0 65536)) = [(first, page)] ∧ DeserializePage page = Ok [].
Proof.
  apply (page_count_overflow (map (be_put 8) (seqZ 0 65536))).
  - rewrite length_map, length_seqZ. reflexivity.
  - assert (∀ l, sumLen keyLen (map (be_put 8) l) = 8 * Z.of_nat (length l)) as ->.
    { unfold sumLen, keyLen. induction l as [|x l IH]; [done|]. cbn [map foldr]. rewrite IH, length_be_put. cbn [length]. lia. }
    rewrite length_seqZ. done.
Defined.

(** [SplitIndexEntries] loses no entry: the index pages read back to non-empty runs
    that concatenate to the input, and no page of two or more entries is over
    [IndexPageMaxSize]. *)
Theorem split_index_complete entries :
  Forall entry_ok entries → Forall (fun e => entryLen e < 2 ^ 40) entries →
  ∃ runs, mapM DeserializeIndexPage (SplitIndexEntries entries) = Ok runs
    ∧ concat runs = entries
    ∧ Forall (fun r => r ≠ [] ∧ ((2 ≤ length r)%nat →
        Z.of_nat (length (SerializeIndexPage r)) ≤ IndexPageMaxSize)) runs.
Proof.
  intros Hok Hsz. exists (splitHalves indexWhole (length entries) entries).
  split; [by apply SplitIndexEntries_decode|].
  destruct (splitHalves_spec indexWhole (length entries) entries) as [Hc Hf];
    [intros; unfold indexWhole; by rewrite orb_true_r|lia|].
  split; [done|]. eapply Forall_impl; [exact Hf|]. intros r [Hr Hw]. split; [done|].
  intros H2. unfold indexWhole in Hw. apply orb_true_iff in Hw as [Hw|Hw]; [lia|].
  apply Nat.eqb_eq in Hw. lia.
Qed.

Lemma split_index_complete_witness :
  ∃ runs, mapM DeserializeIndexPage (SplitIndexEntries
      [{| EKey := bs "a"; EUUID := zeroUUID |}; {| EKey := bs "ab"; EUUID := zeroUUID |}]) = Ok runs
    ∧ concat runs = [{| EKey := bs "a"; EUUID := zeroUUID |}; {| EKey := bs "ab"; EUUID := zeroUUID |}].
Proof.
  destruct (split_index_complete
    [{| EKey := bs "a"; EUUID := zeroUUID |}; {| EKey := bs "ab"; EUUID := zeroUUID |}]) as (runs&?&?&_);
    [by repeat constructor|by repeat constructor|by exists runs].
Defined.

(** The root blob of a store is read back as the trees it was written for. *)
Theorem root_roundtrip trees :
  Forall tree_ok trees → Z.of_nat (length trees) < 65536 →
  DeserializeRoot (SerializeRoot trees) = Ok trees.
Proof. apply DeserializeRoot_Serialize. Qed.

Lemma root_roundtrip_witness :
  DeserializeRoot (SerializeRoot [EmptyTree; {| RootUUID := replicate 16 7; Height := 2; NumLeaves := 70000 |}])
  = Ok [EmptyTree; {| RootUUID := replicate 16 7; Height := 2; NumLeaves := 70000 |}].
Proof. apply root_roundtrip; [by repeat constructor|done]. Defined.

(** The children [FindPrefixRange] names are enough: a key with the prefix belongs
    to a child of the range, and the range is within the page. *)
Theorem prefix_range_covers entries prefix k i s e :
  ascending (map EKey entries) → bytes_ok prefix → bytes_ok k →
  has_prefix k prefix = true → routes entries k i →
  FindPrefixRange entries prefix = (s, e) → (s ≤ i < e)%nat ∧ (e ≤ length entries)%nat.
Proof.
  intros Ha Hp Hk Hpre Hr Hf. split; [by apply (FindPrefixRange_covers entries prefix k i s e)|].
  by apply FindPrefixRange_bounds in Hf as [_ ?].
Qed.

Definition sampleIndex : list IndexEntry :=
  map (fun k => {| EKey := k; EUUID := zeroUUID |}) [bs "a"; bs "ab"; bs "b"; bs "c"].

Lemma prefix_range_covers_witness :
  FindPrefixRange sampleIndex (bs "ab") = (0%nat, 2%nat) ∧ (0 ≤ 1 < 2)%nat.
Proof.
  split; [by vm_compute|].
  apply (prefix_range_covers sampleIndex (bs "ab") (bs "abc") 1).
  - unfold ascending. cbn. repeat (constructor; [|by repeat constructor]). constructor.
  - by repeat constructor.
  - by repeat constructor.
  - by vm_compute.
  - split.
    + eexists. split; [reflexivity|]. by vm_compute.
    + intros [|[|[|[|j]]]] e Hj He; [lia|lia| | |by destruct j];
        injection He as <-; by vm_compute.
  - by vm_compute.
Defined.

(** [PrefixEnd] bounds a prefix scan exactly: a key has the prefix iff it is not
    below the prefix and below its end (unbounded when every byte is 0xff). *)
Theorem prefix_end_exact prefix k :
  bytes_ok prefix → bytes_ok k →
  has_prefix k prefix = true
  ↔ prefix <=b k ∧ match PrefixEnd prefix with Some e => k <b e | None => True end.
Proof. apply PrefixEnd_spec. Qed.

Lemma prefix_end_exact_witness :
  has_prefix [7; 255; 3] [7; 255] = true
  ↔ [7; 255] <=b [7; 255; 3] ∧ match PrefixEnd [7; 255] with Some e => [7; 255; 3] <b e | None => True end.
Proof. apply (prefix_end_exact [7; 255] [7; 255; 3]); by repeat constructor. Defined.

Lemma MakeRootName_lt s1 n1 s2 n2 :
  0 < s1 * 1000000000 + n1 < 2 ^ 63 → 0 < s2 * 1000000000 + n2 < 2 ^ 63 →
  MakeRootName s2 n2 <b MakeRootName s1 n1 ↔ s1 * 1000000000 + n1 < s2 * 1000000000 + n2.
Proof.
  intros H1 H2. rewrite !MakeRootName_eq by done.
  set (t1 := s1 * 1000000000 + n1) in *. set (t2 := s2 * 1000000000 + n2) in *. clearbody t1 t2.
  unfold blt. rewrite bcmp_app_same.
  change (hex16 ?n) with (flat_map hexByte (be_put 8 n)). rewrite hex_cmp by apply be_put_ok.
  rewrite bcmp_be_put by lia. rewrite Z.compare_lt_iff. lia.
Qed.

(** Root names sort newest first and carry their timestamp. *)
Theorem root_name_order s1 n1 s2 n2 :
  0 < s1 * 1000000000 + n1 < 2 ^ 63 → 0 < s2 * 1000000000 + n2 < 2 ^ 63 →
  (MakeRootName s2 n2 <b MakeRootName s1 n1 ↔ s1 * 1000000000 + n1 < s2 * 1000000000 + n2)
  ∧ ParseRootUs (MakeRootName s1 n1) = s1 * 1000000000 + n1.
Proof. intros H1 H2. split; [by apply MakeRootName_lt|by apply ParseRootUs_MakeRootName]. Qed.

Lemma root_name_order_witness :
  (MakeRootName 1700000001 0 <b MakeRootName 1700000000 5
    ↔ 1700000000 * 1000000000 + 5 < 1700000001 * 1000000000 + 0)
  ∧ ParseRootUs (MakeRootName 1700000000 5) = 1700000000000000005.
Proof. apply (root_name_order 1700000000 5 1700000001 0); lia. Defined.
