(* ===== verification/FlatLeaf.v ===== *)
(** * Flat leaves (go/internal/pagestore/flat.go)

    A decoded leaf as one arena and its offsets. The arena decoders are proved
    to agree with the nested decoders of pages.go on every input, corrupt ones
    included, and their accessors to return the decoded keys and values. *)

From S2P Require Import Prelude Pages.

Record FlatLeaf : Type := { buf : bytes; offs : list Z }.
Record FlatLeafKV : Type := { kbuf : bytes; vbuf : bytes; koffs : list Z; voffs : list Z }.

#[export] Instance FlatLeaf_eq_dec : EqDecision FlatLeaf.
Proof. solve_decision. Defined.
#[export] Instance FlatLeafKV_eq_dec : EqDecision FlatLeafKV.
Proof. solve_decision. Defined.

Definition maxInt (a b : Z) : Z := if a >? b then a else b.

(** An arena read: [buf[offs[i]:offs[i+1]]], a panic out of range. *)
Definition arenaAt (buf : bytes) (offs : list Z) (i : nat) : res bytes :=
  match offs !! i, offs !! S i with
  | Some lo, Some hi => slice buf lo hi
  | _, _ => Panic
  end.

Module flatLeaf.
Definition Count (f : option FlatLeaf) : Z :=
  match f with
  | None => 0
  | Some f => maxInt (Z.of_nat (length (offs f)) - 1) 0
  end.
Definition Key (f : FlatLeaf) (i : nat) : res bytes := arenaAt (buf f) (offs f) i.
Definition Bytes (f : FlatLeaf) : Z :=
  Z.of_nat (length (buf f)) + Z.of_nat (length (offs f)) * 4 + 48.
End flatLeaf.

Module flatLeafKV.
Definition Count (f : option FlatLeafKV) : Z :=
  match f with
  | None => 0
  | Some f => maxInt (Z.of_nat (length (koffs f)) - 1) 0
  end.
Definition Key (f : FlatLeafKV) (i : nat) : res bytes := arenaAt (kbuf f) (koffs f) i.
Definition Value (f : FlatLeafKV) (i : nat) : res bytes := arenaAt (vbuf f) (voffs f) i.
Definition Pair (f : FlatLeafKV) (i : Z) : res (option (bytes * bytes)) :=
  if (i <? 0) || (i + 1 >=? Z.of_nat (length (koffs f))) then Ok None
  else
    k ← Key f (Z.to_nat i);
    v ← Value f (Z.to_nat i);
    Ok (Some (k, v)).
Definition Bytes (f : FlatLeafKV) : Z :=
  Z.of_nat (length (kbuf f)) + Z.of_nat (length (vbuf f))
  + (Z.of_nat (length (koffs f)) + Z.of_nat (length (voffs f))) * 4 + 64.
End flatLeafKV.

(** ** Decoding *)

(** Appends a key whose prefix is read back from the arena. *)
Definition arenaKey (data : bytes) (offset : nat) (kb : bytes) (prevStart prevEnd : Z)
  : res (bytes * nat) :=
  '(plenRaw, o1) ← ReadVarint data offset;
  '(slen, o2) ← ReadVarint data o1;
  let extent := i64 (Z.of_nat o2 + slen) in
  if extent >? Z.of_nat (length data) then Err "truncated key"
  else
    let plen := if plenRaw >? prevEnd - prevStart then prevEnd - prevStart else plenRaw in
    p ← slice kb prevStart (prevStart + plen);
    s ← slice data (Z.of_nat o2) extent;
    Ok (kb ++ p ++ s, Z.to_nat extent).

Fixpoint decodeFlat (n : nat) (data : bytes) (offset : nat) (f : FlatLeaf) (prevStart prevEnd : Z)
  : res FlatLeaf :=
  match n with
  | O => Ok f
  | S n' =>
      let start := Z.of_nat (length (buf f)) in
      '(b, offset) ← arenaKey data offset (buf f) prevStart prevEnd;
      decodeFlat n' data offset
        {| buf := b; offs := offs f ++ [i32 (Z.of_nat (length b))] |}
        start (Z.of_nat (length b))
  end.

Definition DecodePageFlat (data : bytes) : res FlatLeaf :=
  if Nat.ltb (length data) 2 then Err "page too short"
  else decodeFlat (count16 data) data 2 {| buf := []; offs := [0] |} 0 0.

Fixpoint decodeFlatKv (n : nat) (data : bytes) (offset : nat) (f : FlatLeafKV) (prevStart prevEnd : Z)
  : res FlatLeafKV :=
  match n with
  | O => Ok f
  | S n' =>
      let kstart := Z.of_nat (length (kbuf f)) in
      '(kb, offset) ← arenaKey data offset (kbuf f) prevStart prevEnd;
      '(vlen, o3) ← ReadVarint data offset;
      let valEnd := i64 (Z.of_nat o3 + vlen) in
      if valEnd >? Z.of_nat (length data) then Err "truncated value"
      else
        v ← slice data (Z.of_nat o3) valEnd;
        let vb := vbuf f ++ v in
        decodeFlatKv n' data (Z.to_nat valEnd)
          {| kbuf := kb; vbuf := vb;
             koffs := koffs f ++ [i32 (Z.of_nat (length kb))];
             voffs := voffs f ++ [i32 (Z.of_nat (length vb))] |}
          kstart (Z.of_nat (length kb))
  end.

Definition DecodePageKvFlat (data : bytes) : res FlatLeafKV :=
  if Nat.ltb (length data) 2 then Err "page too short"
  else decodeFlatKv (count16 data) data 2 {| kbuf := []; vbuf := []; koffs := [0]; voffs := [0] |} 0 0.

Definition ToFlat (keys : list bytes) : FlatLeaf :=
  fold_left (fun f k =>
    let b := buf f ++ k in {| buf := b; offs := offs f ++ [i32 (Z.of_nat (length b))] |})
    keys {| buf := []; offs := [0] |}.

(** ** Arenas *)

(** The offsets an arena of these items has after [start] bytes. *)
Fixpoint offsFrom (start : nat) (items : list bytes) : list Z :=
  match items with
  | [] => []
  | k :: items' => i32 (Z.of_nat (start + length k)) :: offsFrom (start + length k) items'
  end.

Definition arena (items : list bytes) : bytes := concat items.
Definition arenaOffs (items : list bytes) : list Z := 0 :: offsFrom 0 items.

Lemma offsFrom_app start a b :
  offsFrom start (a ++ b) = offsFrom start a ++ offsFrom (start + length (arena a)) b.
Proof.
  revert start. induction a as [|k a IH]; intros start; cbn [app offsFrom]; [by rewrite Nat.add_0_r|].
  rewrite IH. unfold arena. cbn [concat]. rewrite length_app. do 3 f_equal. lia.
Qed.

Lemma arenaOffs_snoc items k :
  arenaOffs (items ++ [k]) = arenaOffs items ++ [i32 (Z.of_nat (length (arena items ++ k)))].
Proof. unfold arenaOffs. rewrite offsFrom_app. cbn [offsFrom]. by rewrite length_app. Qed.

Lemma arena_snoc items k : arena (items ++ [k]) = arena items ++ k.
Proof. unfold arena. rewrite concat_app. cbn [concat]. by rewrite app_nil_r. Qed.

Lemma length_offsFrom start items : length (offsFrom start items) = length items.
Proof. revert start. induction items as [|k items IH]; intros; cbn [offsFrom length]; [done|]. by rewrite IH. Qed.

Lemma offsFrom_lookup start items i :
  (i < length items)%nat →
  offsFrom start items !! i = Some (i32 (Z.of_nat (start + length (arena (take (S i) items))))).
Proof.
  revert start i. induction items as [|k items IH]; intros start i Hi; cbn [length] in Hi; [lia|].
  destruct i as [|i]; cbn [offsFrom lookup list_lookup take].
  - unfold arena. cbn [concat]. by rewrite app_nil_r.
  - rewrite IH by lia. unfold arena. cbn [concat]. rewrite length_app. do 3 f_equal. lia.
Qed.

Lemma arenaOffs_lookup items i :
  (i ≤ length items)%nat → Z.of_nat (length (arena items)) < 2 ^ 31 →
  arenaOffs items !! i = Some (Z.of_nat (length (arena (take i items)))).
Proof.
  intros Hi Hsz. destruct i as [|i]; [done|]. unfold arenaOffs. cbn [lookup list_lookup].
  rewrite offsFrom_lookup by lia. f_equal.
  assert (length (arena (take (S i) items)) ≤ length (arena items))%nat.
  { rewrite <- (take_drop (S i) items) at 2. unfold arena. rewrite concat_app, length_app. lia. }
  cbn [Nat.add]. unfold i32. rewrite Z.mod_small; lia.
Qed.

Lemma arenaAt_spec items i :
  Z.of_nat (length (arena items)) < 2 ^ 31 →
  arenaAt (arena items) (arenaOffs items) i
  = match items !! i with Some k => Ok k | None => Panic end.
Proof.
  intros Hsz. unfold arenaAt. destruct (items !! i) as [k|] eqn:E.
  - pose proof (lookup_lt_Some _ _ _ E) as Hi. rewrite !arenaOffs_lookup by (done || lia).
    pose proof (take_drop_middle items i k E) as Hm.
    rewrite (take_S_r _ _ k) by done. rewrite arena_snoc, length_app.
    rewrite <- Hm at 1. unfold arena at 1. rewrite concat_app. cbn [concat].
    apply slice_app; [done|]. unfold arena. lia.
  - apply lookup_ge_None in E. destruct (arenaOffs items !! i); [|done].
    by rewrite (lookup_ge_None_2 (arenaOffs items)) by (unfold arenaOffs; cbn [length]; rewrite length_offsFrom; lia).
Qed.

(** ** Agreement with the nested decoders *)

Lemma slice_shift {A} (pre prev : list A) plen :
  slice (pre ++ prev) (Z.of_nat (length pre)) (Z.of_nat (length pre) + plen) = slice prev 0 plen.
Proof.
  unfold slice. rewrite length_app, Nat2Z.id, drop_app_length, drop_0.
  replace (Z.of_nat (length pre) + plen - Z.of_nat (length pre)) with plen by lia.
  replace (plen - 0) with plen by lia.
  destruct (decide (0 ≤ plen ∧ plen ≤ Z.of_nat (length prev))).
  - rewrite !bool_decide_true by lia. done.
  - rewrite !bool_decide_false by lia. done.
Qed.

Lemma arenaKey_readKey data offset pre prev :
  arenaKey data offset (pre ++ prev) (Z.of_nat (length pre)) (Z.of_nat (length (pre ++ prev)))
  = '(k, o) ← readKey "truncated key" 0 data offset prev; Ok ((pre ++ prev) ++ k, o).
Proof.
  unfold arenaKey, readKey. destruct (ReadVarint data offset) as [[plenRaw o1]| | |]; try done.
  rewrite !res_bind_ret. destruct (ReadVarint data o1) as [[slen o2]| | |]; try done.
  rewrite !res_bind_ret. rewrite Z.add_0_r.
  replace (Z.of_nat (length (pre ++ prev)) - Z.of_nat (length pre)) with (Z.of_nat (length prev))
    by (rewrite length_app; lia).
  cbv zeta. case_match; [done|]. rewrite slice_shift.
  destruct (slice prev 0 _); try done. rewrite !res_bind_ret.
  by destruct (slice data (Z.of_nat o2) _).
Qed.

Lemma decodeFlat_spec n data offset pre prev :
  decodeFlat n data offset {| buf := arena pre ++ prev; offs := arenaOffs pre ++ [i32 (Z.of_nat (length (arena pre ++ prev)))] |}
    (Z.of_nat (length (arena pre))) (Z.of_nat (length (arena pre ++ prev)))
  = ks ← deserializeKeys n data offset prev;
    Ok {| buf := arena (pre ++ prev :: ks); offs := arenaOffs (pre ++ prev :: ks) |}.
Proof.
  revert offset pre prev. induction n as [|n IH]; intros offset pre prev; cbn [decodeFlat deserializeKeys].
  { rewrite res_bind_ret, arena_snoc, arenaOffs_snoc. done. }
  cbn [buf offs]. rewrite arenaKey_readKey.
  destruct (readKey _ _ data offset prev) as [[k o]| | |]; try done. rewrite !res_bind_ret. cbv beta iota.
  rewrite <- arenaOffs_snoc, <- arena_snoc. rewrite IH.
  destruct (deserializeKeys n data o k); try done. rewrite !res_bind_ret. by rewrite <- app_assoc.
Qed.

(** Items start after an empty key that both decoders take as the first [prev]. *)
Lemma arenaKey_first data offset :
  arenaKey data offset [] 0 0 = '(k, o) ← readKey "truncated key" 0 data offset []; Ok (k, o).
Proof. apply (arenaKey_readKey data offset [] []). Qed.

Lemma ToFlat_arena keys : ToFlat keys = {| buf := arena keys; offs := arenaOffs keys |}.
Proof.
  unfold ToFlat. change {| buf := []; offs := [0] |} with {| buf := arena []; offs := arenaOffs [] |}.
  rewrite <- (app_nil_l keys) at 2 3. generalize (@nil bytes) as done_.
  induction keys as [|k keys IH]; intros done_; cbn [fold_left]; [by rewrite app_nil_r|].
  cbv zeta. cbn [buf offs]. rewrite <- arenaOffs_snoc, <- arena_snoc, IH. by rewrite <- app_assoc.
Qed.

Lemma DecodePageFlat_eq data : DecodePageFlat data = res_map ToFlat (DeserializePage data).
Proof.
  unfold DecodePageFlat, DeserializePage. destruct (Nat.ltb (length data) 2); [done|].
  destruct (count16 data) as [|n]; [done|]. cbn [decodeFlat deserializeKeys buf offs].
  rewrite arenaKey_first. destruct (readKey _ _ data 2 []) as [[k o]| | |]; try done.
  rewrite !res_bind_ret. cbv beta iota.
  pose proof (decodeFlat_spec n data o [] k) as H. cbn [arena concat app length] in H.
  change (arenaOffs []) with [0] in H. cbn [app] in H. cbn [app length]. rewrite H.
  unfold res_map. destruct (deserializeKeys n data o k); try done.
  rewrite !res_bind_ret, ToFlat_arena. done.
Qed.

Definition flatKv (pairs : list (bytes * bytes)) : FlatLeafKV :=
  {| kbuf := arena (map fst pairs); vbuf := arena (map snd pairs);
     koffs := arenaOffs (map fst pairs); voffs := arenaOffs (map snd pairs) |}.

Lemma decodeFlatKv_spec n data offset pre prev v :
  decodeFlatKv n data offset (flatKv (pre ++ [(prev, v)]))
    (Z.of_nat (length (arena (map fst pre)))) (Z.of_nat (length (arena (map fst pre) ++ prev)))
  = ps ← deserializePairs n data offset prev; Ok (flatKv (pre ++ (prev, v) :: ps)).
Proof.
  revert offset pre prev v. induction n as [|n IH]; intros offset pre prev v; cbn [decodeFlatKv deserializePairs].
  { by rewrite res_bind_ret. }
  set (f := flatKv (pre ++ [(prev, v)])).
  assert (f = flatKv (pre ++ [(prev, v)])) as Hf by done. clearbody f. unfold flatKv in Hf. subst f.
  cbn [kbuf vbuf koffs voffs].
  rewrite !map_app. cbn [map fst snd]. rewrite !arena_snoc, arenaKey_readKey.
  destruct (readKey _ _ data offset prev) as [[k o]| | |]; try done. rewrite !res_bind_ret. cbv beta iota.
  unfold readValue. destruct (ReadVarint data o) as [[vlen o3]| | |]; try done. rewrite !res_bind_ret. cbv beta iota zeta.
  case_match; [done|]. destruct (slice data (Z.of_nat o3) _) as [v2| | |]; try done. rewrite !res_bind_ret. cbv beta iota.
  specialize (IH (Z.to_nat (i64 (Z.of_nat o3 + vlen))) (pre ++ [(prev, v)]) k v2).
  rewrite !map_app in IH. cbn [map fst snd] in IH. rewrite arena_snoc in IH.
  assert (flatKv ((pre ++ [(prev, v)]) ++ [(k, v2)])
    = {| kbuf := (arena (map fst pre) ++ prev) ++ k; vbuf := (arena (map snd pre) ++ v) ++ v2;
         koffs := arenaOffs (map fst pre ++ [prev]) ++ [i32 (Z.of_nat (length ((arena (map fst pre) ++ prev) ++ k)))];
         voffs := arenaOffs (map snd pre ++ [v]) ++ [i32 (Z.of_nat (length ((arena (map snd pre) ++ v) ++ v2)))] |}) as <-.
  { unfold flatKv. rewrite !map_app. cbn [map fst snd].
    rewrite (arenaOffs_snoc (map fst pre ++ [prev])), (arenaOffs_snoc (map snd pre ++ [v])).
    by rewrite !arena_snoc. }
  rewrite IH. destruct (deserializePairs n data _ k); try done. rewrite !res_bind_ret. by rewrite <- app_assoc.
Qed.

Lemma DecodePageKvFlat_eq data : DecodePageKvFlat data = res_map flatKv (DeserializePageKv data).
Proof.
  unfold DecodePageKvFlat, DeserializePageKv. destruct (Nat.ltb (length data) 2); [done|].
  destruct (count16 data) as [|n]; [done|]. cbn [decodeFlatKv deserializePairs kbuf vbuf koffs voffs].
  rewrite arenaKey_first. destruct (readKey _ _ data 2 []) as [[k o]| | |]; try done.
  rewrite !res_bind_ret. cbv beta iota.
  unfold readValue. destruct (ReadVarint data o) as [[vlen o3]| | |]; try done. rewrite !res_bind_ret. cbv beta iota zeta.
  case_match; [done|]. destruct (slice data (Z.of_nat o3) _) as [v2| | |]; try done. rewrite !res_bind_ret. cbv beta iota.
  pose proof (decodeFlatKv_spec n data (Z.to_nat (i64 (Z.of_nat o3 + vlen))) [] k v2) as Hs.
  unfold flatKv at 1 in Hs. cbn [arena concat app length map fst snd] in Hs. rewrite !app_nil_r in Hs.
  cbn [app length]. unfold arenaOffs in Hs at 1 2. cbn [offsFrom Nat.add app] in Hs. rewrite Hs.
  unfold res_map. destruct (deserializePairs n data _ k); try done.
Qed.

(** ** Properties *)

(** The arena decoders agree with the nested ones on every input, errors and panics
    included, and below 2 GB of keys (the 32-bit offsets) [Count] and [Key],
    [Value], [Pair] give exactly the decoded items. *)
Theorem flat_decode_agrees data keys pairs :
  Z.of_nat (length (concat keys)) < 2 ^ 31 →
  Z.of_nat (length (concat (map fst pairs))) < 2 ^ 31 →
  Z.of_nat (length (concat (map snd pairs))) < 2 ^ 31 →
  DecodePageFlat data = res_map ToFlat (DeserializePage data)
  ∧ (DeserializePage data = Ok keys →
     ∃ f, DecodePageFlat data = Ok f ∧ flatLeaf.Count (Some f) = Z.of_nat (length keys)
       ∧ ∀ i k, keys !! i = Some k → flatLeaf.Key f i = Ok k)
  ∧ (DeserializePageKv data = Ok pairs →
     ∃ f, DecodePageKvFlat data = Ok f ∧ flatLeafKV.Count (Some f) = Z.of_nat (length pairs)
       ∧ ∀ i : nat, flatLeafKV.Pair f (Z.of_nat i) = Ok (pairs !! i)).
Proof.
  intros Hk Hpk Hpv. split_and!; [apply DecodePageFlat_eq| |].
  - intros E. exists (ToFlat keys). rewrite DecodePageFlat_eq, E, ToFlat_arena. split; [by rewrite <- ToFlat_arena|].
    split.
    + unfold flatLeaf.Count, maxInt. cbn [offs]. unfold arenaOffs. cbn [length]. rewrite length_offsFrom.
      destruct (_ >? _) eqn:C; lia.
    + intros i k Hi. unfold flatLeaf.Key. cbn [buf offs]. rewrite arenaAt_spec by done. by rewrite Hi.
  - intros E. exists (flatKv pairs). rewrite DecodePageKvFlat_eq, E. split; [done|].
    assert (length (koffs (flatKv pairs)) = S (length pairs)) as Hlen.
    { unfold flatKv, arenaOffs. cbn [koffs length]. by rewrite length_offsFrom, length_map. }
    split.
    + unfold flatLeafKV.Count, maxInt. rewrite Hlen. destruct (_ >? _) eqn:C; lia.
    + intros i. unfold flatLeafKV.Pair. rewrite Hlen. replace (Z.of_nat i <? 0) with false by lia. cbn [orb].
      destruct (pairs !! i) as [[k v]|] eqn:Ei.
      * pose proof (lookup_lt_Some _ _ _ Ei). replace (_ >=? _) with false by lia.
        unfold flatLeafKV.Key, flatLeafKV.Value, flatKv. cbn [kbuf vbuf koffs voffs].
        rewrite Nat2Z.id, !arenaAt_spec by done. by rewrite !list_lookup_fmap, Ei.
      * apply lookup_ge_None in Ei. by replace (_ >=? _) with true by lia.
Qed.

Lemma flat_decode_agrees_witness :
  ∃ f, DecodePageFlat (SerializePage [bs "alpha"; bs "alphabet"]) = Ok f
    ∧ flatLeaf.Count (Some f) = 2
    ∧ ∀ i k, [bs "alpha"; bs "alphabet"] !! i = Some k → flatLeaf.Key f i = Ok k.
Proof.
  apply (flat_decode_agrees (SerializePage [bs "alpha"; bs "alphabet"]) [bs "alpha"; bs "alphabet"] []);
    by vm_compute.
Defined.
