(* ===== verification/PageCache.v ===== *)
(** * The page cache (go/internal/pagestore/cache.go)

    A map from page UUIDs to decoded pages under a byte budget, evicting the
    entry used longest ago. *)

From S2P Require Import Prelude Pages FlatLeaf.

(** [cacheEntry.kind] and the field it selects. *)
Inductive payload : Type :=
| ckBytes (data : bytes)
| ckIndex (entries : list IndexEntry)
| ckLeafKeys (leaf : FlatLeaf)
| ckLeafKV (leaf : FlatLeafKV).

Record cacheEntry : Type := { page : payload; size : Z; order : Z }.

Record pageCache : Type := {
  m : gmap bytes cacheEntry;
  maxBytes : Z;
  curBytes : Z;
  nextOrder : Z;
}.

Definition newPageCache (max : Z) : pageCache :=
  {| m := ∅; maxBytes := max; curBytes := 0; nextOrder := 1 |}.

(** The scan for the smallest order over the map in some iteration order. *)
Definition minStep (best : option (bytes * cacheEntry)) (kv : bytes * cacheEntry)
  : option (bytes * cacheEntry) :=
  match best with
  | None => Some kv
  | Some b => if order kv.2 <? order b.2 then Some kv else best
  end.
Definition minOrderKey (l : list (bytes * cacheEntry)) : option (bytes * cacheEntry) :=
  fold_left minStep l None.

Definition evictOne (c : pageCache) : pageCache :=
  match minOrderKey (map_to_list (m c)) with
  | Some (k, e) =>
      {| m := delete k (m c); maxBytes := maxBytes c;
         curBytes := curBytes c - size e; nextOrder := nextOrder c |}
  | None => c
  end.

(** Every turn drops an entry, so the size of the map bounds the loop. *)
Fixpoint evictLoop (fuel : nat) (c : pageCache) (incoming : Z) : pageCache :=
  match fuel with
  | O => c
  | S fuel' =>
      if (curBytes c + incoming >? maxBytes c) && negb (Nat.eqb (base.size (m c)) 0) then
        evictLoop fuel' (evictOne c) incoming
      else c
  end.
Definition evictToBudget (c : pageCache) (incoming : Z) : pageCache :=
  evictLoop (base.size (m c)) c incoming.

Definition slotFor (c : pageCache) (u : bytes) (sz : Z) : pageCache * bool :=
  let c' := match m c !! u with
            | Some e => {| m := delete u (m c); maxBytes := maxBytes c;
                           curBytes := curBytes c - size e; nextOrder := nextOrder c |}
            | None => c
            end in
  (evictToBudget c' sz, sz <=? maxBytes c).

Definition touch (c : pageCache) (u : bytes) (e : cacheEntry) : pageCache :=
  {| m := <[u := {| page := page e; size := size e; order := nextOrder c |}]> (m c);
     maxBytes := maxBytes c; curBytes := curBytes c; nextOrder := nextOrder c + 1 |}.

(** The part the four [put] methods share. *)
Definition put (c : pageCache) (u : bytes) (p : payload) (sz : Z) : pageCache :=
  let '(c, fits) := slotFor c u sz in
  if negb fits then c
  else {| m := <[u := {| page := p; size := sz; order := nextOrder c |}]> (m c);
          maxBytes := maxBytes c; curBytes := curBytes c + sz; nextOrder := nextOrder c + 1 |}.

Definition getBytes (c : pageCache) (u : bytes) : pageCache * option bytes :=
  match m c !! u with
  | Some e => match page e with ckBytes d => (touch c u e, Some d) | _ => (c, None) end
  | None => (c, None)
  end.
Definition putBytes (c : pageCache) (u data : bytes) : pageCache :=
  put c u (ckBytes data) (Z.of_nat (length data)).

Definition getIndex (c : pageCache) (u : bytes) : pageCache * option (list IndexEntry) :=
  match m c !! u with
  | Some e => match page e with ckIndex d => (touch c u e, Some d) | _ => (c, None) end
  | None => (c, None)
  end.
Definition putIndex (c : pageCache) (u : bytes) (entries : list IndexEntry) : pageCache :=
  put c u (ckIndex entries) (sumLen (fun e => Z.of_nat (length (EKey e)) + 16 + 32) entries).

Definition getLeafKeys (c : pageCache) (u : bytes) : pageCache * option FlatLeaf :=
  match m c !! u with
  | Some e => match page e with ckLeafKeys d => (touch c u e, Some d) | _ => (c, None) end
  | None => (c, None)
  end.
Definition putLeafKeys (c : pageCache) (u : bytes) (leaf : FlatLeaf) : pageCache :=
  put c u (ckLeafKeys leaf) (flatLeaf.Bytes leaf).

Definition getLeafKV (c : pageCache) (u : bytes) : pageCache * option FlatLeafKV :=
  match m c !! u with
  | Some e => match page e with ckLeafKV d => (touch c u e, Some d) | _ => (c, None) end
  | None => (c, None)
  end.
Definition putLeafKV (c : pageCache) (u : bytes) (leaf : FlatLeafKV) : pageCache :=
  put c u (ckLeafKV leaf) (flatLeafKV.Bytes leaf).

(** ** The invariant *)

Definition total (mp : gmap bytes cacheEntry) : Z := map_fold (fun _ e n => size e + n) 0 mp.

(** The account is the sum of the sizes and within the budget; orders are
    distinct and in the past. *)
Record cache_inv (c : pageCache) : Prop := {
  inv_account : curBytes c = total (m c);
  inv_budget : curBytes c ≤ maxBytes c;
  inv_sizes : map_Forall (fun _ e => 0 ≤ size e) (m c);
  inv_past : map_Forall (fun _ e => order e < nextOrder c) (m c);
  inv_distinct : ∀ u1 u2 e1 e2, m c !! u1 = Some e1 → m c !! u2 = Some e2 → order e1 = order e2 → u1 = u2;
}.

Lemma total_insert mp u e : mp !! u = None → total (<[u := e]> mp) = size e + total mp.
Proof.
  intros Hn. unfold total. rewrite map_fold_insert_L; [done| |done]. intros; lia.
Qed.

Lemma total_delete mp u e : mp !! u = Some e → total (delete u mp) = total mp - size e.
Proof.
  intros Hs. rewrite <- (insert_id mp u e) at 2 by done. rewrite <- insert_delete_eq.
  rewrite total_insert by apply lookup_delete_eq. lia.
Qed.

Lemma total_nonneg mp : map_Forall (fun _ e => 0 ≤ size e) mp → 0 ≤ total mp.
Proof.
  induction mp as [|u e mp Hn IH] using map_ind; [done|].
  intros [He Hf]%map_Forall_insert; [|done]. rewrite total_insert by done. specialize (IH Hf). lia.
Qed.

(** The scan finds an entry whose order is least. *)
Lemma minOrderKey_spec l best :
  match fold_left minStep l best with
  | Some r => (r ∈ l ∨ best = Some r) ∧ Forall (fun kv => order r.2 ≤ order kv.2) l
      ∧ (∀ b, best = Some b → order r.2 ≤ order b.2)
  | None => l = [] ∧ best = None
  end.
Proof.
  revert best. induction l as [|kv l IH]; intros best; cbn [fold_left].
  - destruct best as [b|]; [|done]. split_and!; [by right|constructor|by intros ? [= ->]].
  - set (best' := minStep best kv).
    assert (∀ b, best = Some b → ∃ b', best' = Some b' ∧ order b'.2 ≤ order b.2) as Hb.
    { intros b ->. unfold best', minStep. destruct (Z.ltb_spec (order kv.2) (order b.2)); eexists; split; [done|lia|done|lia]. }
    assert (∃ b', best' = Some b' ∧ order b'.2 ≤ order kv.2 ∧ (b' = kv ∨ best = Some b')) as (b'&Eb'&Hle&Hor).
    { unfold best', minStep. destruct best as [b|]; [destruct (Z.ltb_spec (order kv.2) (order b.2))|]; eexists;
        split_and!; try done; try lia; by (left + right). }
    specialize (IH best'). destruct (fold_left _ l best') as [r|]; [|naive_solver].
    destruct IH as (Hin&Hall&Hbest). specialize (Hbest b' Eb'). split_and!.
    + destruct Hin as [Hin|Hin]; [left; by right|]. rewrite Eb' in Hin. injection Hin as ->.
      destruct Hor as [->|Hor]; [left; left|by right].
    + constructor; [lia|done].
    + intros b Hbb. destruct (Hb b Hbb) as (b''&E&?). rewrite Eb' in E. injection E as <-. lia.
Qed.

Lemma evictOne_spec c :
  m c ≠ ∅ →
  ∃ u e, m c !! u = Some e ∧ m (evictOne c) = delete u (m c)
    ∧ curBytes (evictOne c) = curBytes c - size e
    ∧ maxBytes (evictOne c) = maxBytes c ∧ nextOrder (evictOne c) = nextOrder c
    ∧ map_Forall (fun _ e' => order e ≤ order e') (m c).
Proof.
  intros Hne. pose proof (minOrderKey_spec (map_to_list (m c)) None) as H.
  unfold evictOne, minOrderKey. destruct (fold_left _ _ None) as [[u e]|].
  - destruct H as ([Hin|]&Hall&_); [|done]. apply elem_of_map_to_list in Hin.
    exists u, e. split_and!; [done..|]. rewrite map_Forall_to_list. eapply Forall_impl; [exact Hall|]. by intros [].
  - destruct H as [H _]. by apply map_to_list_empty_iff in H.
Qed.

(** Least-recent first: what is dropped was used before what stays. *)
Definition lru (before after : gmap bytes cacheEntry) : Prop :=
  after ⊆ before
  ∧ ∀ u e u' e', before !! u = Some e → after !! u = None → after !! u' = Some e' → order e ≤ order e'.

Definition inv_but_budget (c : pageCache) : Prop :=
  curBytes c = total (m c) ∧ map_Forall (fun _ e => 0 ≤ size e) (m c)
  ∧ map_Forall (fun _ e => order e < nextOrder c) (m c)
  ∧ (∀ u1 u2 e1 e2, m c !! u1 = Some e1 → m c !! u2 = Some e2 → order e1 = order e2 → u1 = u2).

Lemma inv_but_budget_delete c u e :
  inv_but_budget c → m c !! u = Some e →
  inv_but_budget {| m := delete u (m c); maxBytes := maxBytes c;
                    curBytes := curBytes c - size e; nextOrder := nextOrder c |}.
Proof.
  intros (Ha&Hs&Hp&Hd) Hu. split_and!; cbn [m curBytes nextOrder].
  - by rewrite (total_delete _ u e), Ha.
  - by apply map_Forall_delete.
  - by apply map_Forall_delete.
  - intros u1 u2 e1 e2 [_ ?]%lookup_delete_Some [_ ?]%lookup_delete_Some. by apply Hd.
Qed.

Lemma evictLoop_spec fuel c incoming :
  inv_but_budget c → (base.size (m c) ≤ fuel)%nat →
  let c' := evictLoop fuel c incoming in
  inv_but_budget c' ∧ maxBytes c' = maxBytes c ∧ nextOrder c' = nextOrder c ∧ lru (m c) (m c')
  ∧ (curBytes c' + incoming ≤ maxBytes c ∨ m c' = ∅).
Proof.
  revert c. induction fuel as [|fuel IH]; intros c Hi Hf; cbn [evictLoop].
  - assert (m c = ∅) as He by (apply map_size_empty_iff; lia).
    split_and!; [done..|split; [done|]|by right]. intros ???? H1 H2. congruence.
  - destruct ((curBytes c + incoming >? maxBytes c) && _) eqn:Hc.
    + apply andb_true_iff in Hc as [_ Hn]. apply negb_true_iff, Nat.eqb_neq in Hn.
      destruct (evictOne_spec c) as (u&e&Hu&Hm&Hcur&Hmax&Hno&Hmin).
      { intros E. rewrite E, map_size_empty in Hn. done. }
      assert (evictOne c = {| m := delete u (m c); maxBytes := maxBytes c;
                    curBytes := curBytes c - size e; nextOrder := nextOrder c |}) as Hev.
      { destruct (evictOne c). cbn [m curBytes maxBytes nextOrder] in *. by subst. }
      destruct (IH (evictOne c)) as (Hi'&Hmax'&Hno'&[Hsub Hord]&Hbud).
      { rewrite Hev. by apply inv_but_budget_delete. }
      { rewrite Hm. rewrite map_size_delete, Hu. lia. }
      cbv zeta. split_and!; [done|congruence|congruence| |rewrite Hmax in Hbud; done].
      split.
      * etrans; [exact Hsub|]. rewrite Hm. apply delete_subseteq.
      * intros v ev v' ev' Hv Hv1 Hv2. destruct (decide (v = u)) as [->|Hne].
        -- assert (e = ev) as -> by congruence.
           apply (Hmin v'). eapply lookup_weaken; [exact Hv2|]. etrans; [exact Hsub|]. rewrite Hm. apply delete_subseteq.
        -- apply (Hord v ev v' ev'); [rewrite Hm; by rewrite lookup_delete_ne|done|done].
    + split_and!; [done..|split; [done|]|].
      * intros ???? H1 H2. congruence.
      * apply andb_false_iff in Hc as [Hc|Hc]; [left; lia|right].
        apply negb_false_iff, Nat.eqb_eq in Hc. by apply map_size_empty_iff.
Qed.

(** ** Operations *)

Lemma cache_inv_split c : cache_inv c ↔ inv_but_budget c ∧ curBytes c ≤ maxBytes c.
Proof. split; [by intros []|]. intros ((?&?&?&?)&?). by constructor. Qed.

Lemma slotFor_spec c u sz :
  cache_inv c → 0 ≤ sz →
  let c' := (slotFor c u sz).1 in
  inv_but_budget c' ∧ maxBytes c' = maxBytes c ∧ nextOrder c' = nextOrder c
  ∧ m c' !! u = None ∧ lru (delete u (m c)) (m c')
  ∧ curBytes c' ≤ maxBytes c
  ∧ (sz ≤ maxBytes c → curBytes c' + sz ≤ maxBytes c).
Proof.
  intros Hc Hsz. apply cache_inv_split in Hc as [Hi Hb]. unfold slotFor. cbn [fst].
  set (c0 := match m c !! u with Some e => _ | None => c end).
  assert (inv_but_budget c0 ∧ maxBytes c0 = maxBytes c ∧ nextOrder c0 = nextOrder c
    ∧ m c0 = delete u (m c) ∧ curBytes c0 ≤ maxBytes c) as (Hi0&Hmax&Hno&Hm&Hb0).
  { unfold c0. destruct (m c !! u) as [e|] eqn:E.
    - split_and!; [by apply inv_but_budget_delete|done..|]. cbn [curBytes].
      destruct Hi as (_&Hs&_). specialize (Hs u e E). cbn beta in Hs. lia.
    - split_and!; [done..| |done]. by rewrite delete_id. }
  clearbody c0. unfold evictToBudget.
  destruct (evictLoop_spec (base.size (m c0)) c0 sz Hi0) as (Hi'&Hmax'&Hno'&Hl&Hbud); [lia|].
  cbv zeta in *. set (c1 := evictLoop _ c0 sz) in *. clearbody c1. rewrite <- Hm.
  split_and!; [done|congruence|congruence| |done| |].
  - destruct Hl as [Hsub _]. destruct (m c1 !! u) eqn:E; [|done].
    eapply lookup_weaken in E; [|exact Hsub]. rewrite Hm, lookup_delete_eq in E. done.
  - destruct Hbud as [?|He]; [lia|]. destruct Hi' as (Ha&_). rewrite Ha, He.
    destruct Hi0 as (Ha0&Hs0&_). pose proof (total_nonneg _ Hs0). unfold total at 1. rewrite map_fold_empty. lia.
  - intros Hfit. destruct Hbud as [?|He]; [lia|]. destruct Hi' as (Ha&_). rewrite Ha, He.
    unfold total. rewrite map_fold_empty. lia.
Qed.

Lemma put_spec c u p sz :
  cache_inv c → 0 ≤ sz →
  let c' := put c u p sz in
  cache_inv c' ∧ maxBytes c' = maxBytes c
  ∧ lru (delete u (m c)) (delete u (m c'))
  ∧ m c' !! u = if sz <=? maxBytes c then Some {| page := p; size := sz; order := nextOrder c |} else None.
Proof.
  intros Hc Hsz. pose proof (slotFor_spec c u sz Hc Hsz) as H. unfold put.
  change (slotFor c u sz) with ((slotFor c u sz).1, sz <=? maxBytes c).
  cbv zeta in *. set (c1 := (slotFor c u sz).1) in *. clearbody c1.
  destruct H as (Hi&Hmax&Hno&Hu&Hl&Hb&Hfit). cbv iota beta.
  assert (delete u (m c1) = m c1) as Hdel by (by apply delete_id).
  destruct (Z.leb_spec sz (maxBytes c)) as [Hle|Hgt]; cbn [negb].
  - split_and!; [|done| |cbn [m]; rewrite lookup_insert_eq; by rewrite Hno].
    + apply cache_inv_split. destruct Hi as (Ha&Hs&Hp&Hd). cbn [m maxBytes curBytes nextOrder].
      split; [|lia]. split_and!.
      * cbn [m curBytes]. rewrite total_insert by done. cbn [size]. lia.
      * apply map_Forall_insert; [done|]. by split.
      * apply map_Forall_insert; [done|]. cbn [order nextOrder]. split; [lia|].
        eapply map_Forall_impl; [exact Hp|]. cbn beta. lia.
      * cbn [m]. intros u1 u2 e1 e2 H1 H2 E.
        apply lookup_insert_Some in H1 as [[<- <-]|[? H1]], H2 as [[<- <-]|[? H2]]; try done; cbn [order] in E.
        -- specialize (Hp u2 e2 H2). cbn beta in Hp. lia.
        -- specialize (Hp u1 e1 H1). cbn beta in Hp. lia.
        -- by eapply Hd.
    + cbn [m]. rewrite delete_insert_eq, Hdel. done.
  - split_and!; [apply cache_inv_split; split; [done|lia]|done| |done]. by rewrite Hdel.
Qed.

Lemma touch_inv c u e : cache_inv c → m c !! u = Some e → cache_inv (touch c u e).
Proof.
  intros [Ha Hb Hs Hp Hd] Hu. constructor; cbn [touch m maxBytes curBytes nextOrder].
  - rewrite <- insert_delete_eq, total_insert by apply lookup_delete_eq. cbn [size].
    rewrite (total_delete _ u e) by done. lia.
  - done.
  - intros v ev Hv. cbn [touch m] in Hv. apply lookup_insert_Some in Hv as [[<- <-]|[? Hv]]; [|by eapply Hs]. by apply (Hs u e).
  - intros v ev Hv. cbn [touch m] in Hv. apply lookup_insert_Some in Hv as [[<- <-]|[? Hv]]; cbn [order]; [lia|].
    specialize (Hp v ev Hv). cbn beta in Hp. lia.
  - intros u1 u2 e1 e2 H1 H2 E.
    apply lookup_insert_Some in H1 as [[<- <-]|[? H1]], H2 as [[<- <-]|[? H2]]; try done; cbn [order] in E.
    + specialize (Hp u2 e2 H2). cbn beta in Hp. lia.
    + specialize (Hp u1 e1 H1). cbn beta in Hp. lia.
    + by eapply Hd.
Qed.

(** The calls a client can make. *)
Inductive op : Type :=
| GetBytes (u : bytes) | PutBytes (u data : bytes)
| GetIndex (u : bytes) | PutIndex (u : bytes) (entries : list IndexEntry)
| GetLeafKeys (u : bytes) | PutLeafKeys (u : bytes) (leaf : FlatLeaf)
| GetLeafKV (u : bytes) | PutLeafKV (u : bytes) (leaf : FlatLeafKV).

Definition run1 (c : pageCache) (o : op) : pageCache :=
  match o with
  | GetBytes u => (getBytes c u).1
  | PutBytes u d => putBytes c u d
  | GetIndex u => (getIndex c u).1
  | PutIndex u d => putIndex c u d
  | GetLeafKeys u => (getLeafKeys c u).1
  | PutLeafKeys u d => putLeafKeys c u d
  | GetLeafKV u => (getLeafKV c u).1
  | PutLeafKV u d => putLeafKV c u d
  end.

(** The page an operation stores, if it stores one. *)
Definition stored (o : op) : option (bytes * payload) :=
  match o with
  | PutBytes u d => Some (u, ckBytes d)
  | PutIndex u d => Some (u, ckIndex d)
  | PutLeafKeys u d => Some (u, ckLeafKeys d)
  | PutLeafKV u d => Some (u, ckLeafKV d)
  | _ => None
  end.

(** What an operation leaves for a page: its own store, an older entry, or nothing. *)
Lemma run1_spec c o :
  cache_inv c →
  cache_inv (run1 c o) ∧ maxBytes (run1 c o) = maxBytes c
  ∧ ∀ u e, m (run1 c o) !! u = Some e →
      stored o = Some (u, page e) ∨ ∃ e', m c !! u = Some e' ∧ page e' = page e.
Proof.
  intros Hc.
  assert (∀ u p sz, 0 ≤ sz → cache_inv (put c u p sz) ∧ maxBytes (put c u p sz) = maxBytes c
    ∧ ∀ v e, m (put c u p sz) !! v = Some e → Some (u, p) = Some (v, page e) ∨ ∃ e', m c !! v = Some e' ∧ page e' = page e) as Hput.
  { intros u p sz Hsz. destruct (put_spec c u p sz Hc Hsz) as (Hi&Hmax&[Hsub _]&Hu). split_and!; [done..|].
    intros v e Hv. destruct (decide (v = u)) as [->|Hne].
    - left. rewrite Hu in Hv. destruct (_ <=? _); [|done]. by injection Hv as <-.
    - right. exists e. split; [|done]. rewrite <- (lookup_delete_ne _ u) in Hv by done.
      eapply lookup_weaken in Hv; [|exact Hsub]. by apply lookup_delete_Some in Hv as [_ ?]. }
  assert (∀ u e, m c !! u = Some e → cache_inv (touch c u e) ∧ maxBytes (touch c u e) = maxBytes c
    ∧ ∀ v e0, m (touch c u e) !! v = Some e0 → None = Some (v, page e0) ∨ ∃ e', m c !! v = Some e' ∧ page e' = page e0) as Htouch.
  { intros u e He. split_and!; [by apply touch_inv|done|]. intros v e0 Hv. right. cbn [touch m] in Hv.
    apply lookup_insert_Some in Hv as [[<- <-]|[? Hv]]; [by exists e|by exists e0]. }
  assert (cache_inv c ∧ maxBytes c = maxBytes c
    ∧ ∀ v e0, m c !! v = Some e0 → None = Some (v, page e0) ∨ ∃ e', m c !! v = Some e' ∧ page e' = page e0) as Hid
    by (split_and!; [done..|]; intros v e0 ?; right; by exists e0).
  destruct o; cbn [run1 stored];
    unfold getBytes, putBytes, getIndex, putIndex, getLeafKeys, putLeafKeys, getLeafKV, putLeafKV;
    try (destruct (m c !! u) as [e|] eqn:E; [destruct (page e); cbn [fst]; auto|done]);
    apply Hput; try lia.
  - pose proof (sumLen_lower (fun e => Z.of_nat (length (EKey e)) + 16 + 32) 0 entries). rewrite Z.mul_0_l in *.
    apply H. apply Forall_forall. intros; cbn beta; lia.
  - unfold flatLeaf.Bytes. lia.
  - unfold flatLeafKV.Bytes. lia.
Qed.

Definition run (max : Z) (ops : list op) : pageCache := fold_left run1 ops (newPageCache max).

Lemma newPageCache_inv max : 0 ≤ max → cache_inv (newPageCache max).
Proof.
  intros. constructor; cbn [newPageCache m curBytes maxBytes nextOrder]; done.
Qed.

Lemma run_snoc max ops o : run max (ops ++ [o]) = run1 (run max ops) o.
Proof. unfold run. by rewrite fold_left_app. Qed.

Lemma run_inv max ops : 0 ≤ max → cache_inv (run max ops) ∧ maxBytes (run max ops) = max.
Proof.
  intros Hm. induction ops as [|o ops IH] using rev_ind; [by split; [apply newPageCache_inv|]|].
  rewrite run_snoc. destruct IH as [Hc Hmax]. destruct (run1_spec (run max ops) o Hc) as (?&?&_). split; [done|congruence].
Qed.

(** ** Properties *)

(** C36. After any sequence of gets and puts the cache accounts for exactly its entries
    and stays within its byte budget, and a page it holds is one that some put
    stored under that UUID. *)
Theorem cache_within_budget max ops :
  0 ≤ max →
  curBytes (run max ops) = total (m (run max ops))
  ∧ curBytes (run max ops) ≤ max
  ∧ ∀ u e, m (run max ops) !! u = Some e → Some (u, page e) ∈ map stored ops.
Proof.
  intros Hm. destruct (run_inv max ops Hm) as [[Ha Hb _ _ _] Hmax]. split_and!; [done|lia|].
  clear Ha Hb Hmax. induction ops as [|o ops IH] using rev_ind; intros u e He.
  { unfold run in He. cbn [fold_left newPageCache m] in He. by rewrite lookup_empty in He. }
  rewrite run_snoc in He. destruct (run1_spec (run max ops) o) as (_&_&Hs); [by apply run_inv|].
  rewrite map_app. apply elem_of_app. destruct (Hs u e He) as [Hst|(e'&He'&<-)].
  - right. cbn [map]. rewrite Hst. by left.
  - left. by apply IH.
Qed.

Lemma cache_within_budget_witness :
  curBytes (run 10 [PutBytes [1] [7;7;7;7]; PutBytes [2] [8;8;8;8]; GetBytes [1]; PutBytes [3] [9;9;9;9]]) = 8
  ∧ curBytes (run 10 [PutBytes [1] [7;7;7;7]; PutBytes [2] [8;8;8;8]; GetBytes [1]; PutBytes [3] [9;9;9;9]]) ≤ 10.
Proof.
  split; [by vm_compute|].
  apply (cache_within_budget 10 [PutBytes [1] [7;7;7;7]; PutBytes [2] [8;8;8;8]; GetBytes [1]; PutBytes [3] [9;9;9;9]]).
  lia.
Defined.

(** A put drops the entries used longest ago first, keeps the new page iff it fits
    the whole budget, and a page that fits is returned by the next get. *)
Theorem cache_put_lru max ops u data :
  0 ≤ max →
  let c := run max ops in
  lru (delete u (m c)) (delete u (m (putBytes c u data)))
  ∧ (getBytes (putBytes c u data) u).2
    = if Z.of_nat (length data) <=? max then Some data else None.
Proof.
  intros Hm. cbv zeta. destruct (run_inv max ops Hm) as [Hc Hmax].
  destruct (put_spec (run max ops) u (ckBytes data) (Z.of_nat (length data)) Hc ltac:(lia)) as (_&_&Hl&Hu).
  split; [done|]. unfold getBytes. unfold putBytes. rewrite Hu, Hmax. by destruct (_ <=? max).
Qed.

Lemma cache_put_lru_witness :
  (getBytes (putBytes (run 10 [PutBytes [1] [7;7;7;7]; PutBytes [2] [8;8;8;8]; GetBytes [1]]) [3] [9;9;9;9]) [3]).2
  = Some [9;9;9;9].
Proof.
  apply (cache_put_lru 10 [PutBytes [1] [7;7;7;7]; PutBytes [2] [8;8;8;8]; GetBytes [1]] [3] [9;9;9;9]). lia.
Defined.
