(* ===== verification/NewestWins.v ===== *)
(** * Newest-wins logs

    The shared theory of write logs read newest first: the latest record of a
    key, tagged sorts with their last-of-group scan, binary search in a sorted
    run, and the k-way merge that drains runs. The memtable, its drains and
    the page-store merge are instances. *)

From S2P Require Import Prelude Pages.

Section keyed.
Context {A : Type} (key : A → bytes).

(** The last record of [k] in a log written oldest first. *)
Fixpoint latest (k : bytes) (l : list A) : option A :=
  match l with
  | [] => None
  | p :: l' => match latest k l' with
               | Some r => Some r
               | None => if decide (key p = k) then Some p else None
               end
  end.

Lemma latest_app k a b :
  latest k (a ++ b) = match latest k b with Some r => Some r | None => latest k a end.
Proof.
  induction a as [|p a IH]; cbn [app latest]; [by destruct (latest k b)|].
  rewrite IH. by destruct (latest k b).
Qed.

Lemma latest_key k l r : latest k l = Some r → key r = k ∧ r ∈ l.
Proof.
  induction l as [|p l IH]; cbn [latest]; [done|]. destruct (latest k l) as [r'|].
  - intros [= ->]. destruct (IH eq_refl). split; [done|by right].
  - destruct (decide (key p = k)); [|done]. intros [= ->]. split; [done|by left].
Qed.

Lemma latest_None k l : latest k l = None ↔ k ∉ map key l.
Proof.
  induction l as [|p l IH]; cbn [latest map]; [split; [intros _; apply not_elem_of_nil|done]|].
  rewrite not_elem_of_cons, <- IH. destruct (latest k l); [naive_solver|]. destruct (decide (key p = k)); naive_solver.
Qed.

Lemma latest_filter k l : latest k l = last (filter (fun p => key p = k) l).
Proof.
  induction l as [|p l IH]; cbn [latest]; [done|]. rewrite IH, filter_cons.
  destruct (decide (key p = k)); [|by destruct (last _)].
  rewrite last_cons. by destruct (last _).
Qed.

(** A log with distinct keys is read as a map. *)
Lemma latest_distinct k l r : NoDup (map key l) → r ∈ l → key r = k → latest k l = Some r.
Proof.
  induction l as [|p l IH]; cbn [map latest]; [by intros _ ?%elem_of_nil|].
  intros [Hnot Hnd]%NoDup_cons Hin Hk. apply elem_of_cons in Hin as [<-|Hin].
  - rewrite (proj2 (latest_None k l)) by (by rewrite <- Hk). by rewrite decide_True.
  - by rewrite IH.
Qed.

(** ** Last of each group *)

(** One pass over sorted records that keeps the last of each run of equal keys. *)
Fixpoint lastOfGroups (l : list A) : list A :=
  match l with
  | [] => []
  | p :: l' => match l' with
               | q :: _ => if CmpSeq (key p) (key q) =? 0 then lastOfGroups l' else p :: lastOfGroups l'
               | [] => [p]
               end
  end.

Lemma latest_lastOfGroups k l : latest k (lastOfGroups l) = latest k l.
Proof.
  induction l as [|p l IH]; [done|]. destruct l as [|q l]; [done|].
  set (t := q :: l) in *. change (lastOfGroups (p :: t))
    with (if CmpSeq (key p) (key q) =? 0 then lastOfGroups t else p :: lastOfGroups t).
  rewrite CmpSeq_eq. case_bool_decide as E.
  - rewrite IH. cbn [latest]. destruct (latest k t) eqn:Et; [done|].
    rewrite decide_False; [done|]. rewrite E. apply latest_None in Et. unfold t in Et. cbn [map] in Et.
    by apply not_elem_of_cons in Et as [??].
  - cbn [latest]. by rewrite IH.
Qed.

Lemma lastOfGroups_subset p l : p ∈ lastOfGroups l → p ∈ l.
Proof.
  induction l as [|x l IH]; [done|]. destruct l as [|q l]; [done|].
  set (t := q :: l) in *. change (lastOfGroups (x :: t))
    with (if CmpSeq (key x) (key q) =? 0 then lastOfGroups t else x :: lastOfGroups t).
  destruct (_ =? 0); rewrite ?elem_of_cons; naive_solver.
Qed.

Lemma lastOfGroups_ascending l :
  StronglySorted (fun a b => key a <=b key b) l → ascending (map key (lastOfGroups l)).
Proof.
  induction 1 as [|p l Hl IH Hp]; [constructor|]. destruct l as [|q l]; [by repeat constructor|].
  set (t := q :: l) in *. change (lastOfGroups (p :: t))
    with (if CmpSeq (key p) (key q) =? 0 then lastOfGroups t else p :: lastOfGroups t).
  rewrite CmpSeq_eq. case_bool_decide as E; [done|]. cbn [map]. apply ascending_cons. split; [|done].
  apply Forall_map, Forall_forall. intros r Hr%lastOfGroups_subset.
  assert (key p <b key q) as Hpq.
  { apply Forall_cons in Hp as [Hq _]. apply ble_lt_eq in Hq as [?|?]; done. }
  unfold t in Hr. apply elem_of_cons in Hr as [->|Hr]; [done|].
  eapply blt_le_trans; [exact Hpq|]. unfold t in Hl. apply StronglySorted_cons in Hl as [Hq _].
  rewrite Forall_forall in Hq. by apply Hq.
Qed.

(** ** Tagged sorts *)

(** The comparison of the source's [sort.Slice]: by key, then by tag. A strict
    total order on the records it meets has one sorted permutation, so any
    sorting algorithm gives this list. *)
Definition tagLe (a b : nat * A) : Prop :=
  key a.2 <b key b.2 ∨ key a.2 = key b.2 ∧ (a.1 ≤ b.1)%nat.

#[export] Instance tagLe_dec : RelDecision tagLe.
Proof. intros a b. unfold tagLe. solve_decision. Defined.

#[export] Instance tagLe_total : Total tagLe.
Proof.
  intros [i a] [j b]. unfold tagLe. cbn [fst snd].
  destruct (ble_total (key a) (key b)) as [H|H]; [|auto].
  apply ble_lt_eq in H as [?|H]; [auto|]. destruct (Nat.le_ge_cases i j); auto.
Qed.

#[export] Instance tagLe_trans : Transitive tagLe.
Proof.
  intros [i a] [j b] [k c]. unfold tagLe. cbn [fst snd].
  intros [H|[E ?]] [H'|[E' ?]]; [left; by eapply blt_trans|left; congruence|left; congruence|].
  right. split; [congruence|lia].
Qed.

Definition sortTagged (l : list (nat * A)) : list A := map snd (merge_sort tagLe l).

(** Tags grow along each key's records. *)
Definition tags_grow (l : list (nat * A)) : Prop :=
  ∀ k, StronglySorted (fun a b => (a.1 < b.1)%nat) (filter (fun p => key p.2 = k) l).

Lemma sortTagged_sorted l : StronglySorted (fun a b => key a <=b key b) (sortTagged l).
Proof.
  unfold sortTagged. pose proof (StronglySorted_merge_sort tagLe l) as H.
  induction H as [|p t Ht IH Hp]; cbn [map]; constructor; [done|].
  apply Forall_map. eapply Forall_impl; [exact Hp|]. intros q [H|[H _]]; [by apply blt_le|]. rewrite H. apply ble_refl.
Qed.

Lemma filter_map_snd k (l : list (nat * A)) :
  filter (fun p => key p = k) (map snd l) = map snd (filter (fun p => key p.2 = k) l).
Proof.
  induction l as [|p l IH]; [done|]. cbn [map]. rewrite !filter_cons. case_decide; cbn [map]; by rewrite IH.
Qed.

(** Sorting keeps the records of one key in log order. *)
Lemma latest_sortTagged k l : tags_grow l → latest k (sortTagged l) = latest k (map snd l).
Proof.
  intros Hg. rewrite !latest_filter. unfold sortTagged. rewrite !filter_map_snd. do 2 f_equal.
  set (P := fun p : nat * A => key p.2 = k).
  assert (StronglySorted (fun a b => (a.1 ≤ b.1)%nat) (filter P (merge_sort tagLe l))) as Hs.
  { pose proof (StronglySorted_filter tagLe P (merge_sort tagLe l) (StronglySorted_merge_sort tagLe l)) as H.
    assert (Forall P (filter P (merge_sort tagLe l))) as HP by apply Forall_filter_all.
    induction H as [|p t Ht IH Hp]; constructor.
    - apply IH. by apply Forall_cons in HP as [_ ?].
    - apply Forall_cons in HP as [Pp HP]. rewrite Forall_forall in *. intros q Hq.
      specialize (Hp q Hq). specialize (HP q Hq). unfold P in *.
      destruct Hp as [Hlt|[_ ?]]; [|done]. rewrite Pp, HP in Hlt. by apply blt_irrefl in Hlt. }
  specialize (Hg k). fold P in Hg.
  assert (filter P (merge_sort tagLe l) ≡ₚ filter P l) as Hperm by (by rewrite merge_sort_Permutation).
  revert Hs Hperm. generalize (filter P (merge_sort tagLe l)) as l1. clear -Hg.
  induction Hg as [|p t Ht IH Hp]; intros l1 Hs Hperm; [by apply Permutation_nil_r in Hperm|].
  destruct l1 as [|q l1]; [by apply Permutation_nil_l in Hperm|].
  apply StronglySorted_cons in Hs as [Hq Hs]. rewrite Forall_forall in Hp, Hq.
  assert (p = q) as ->.
  { assert (p ∈ q :: l1) as Hin by (rewrite Hperm; by left).
    assert (q ∈ p :: t) as Hin' by (rewrite <- Hperm; by left).
    apply elem_of_cons in Hin as [?|Hin]; [done|]. apply elem_of_cons in Hin' as [?|Hin']; [done|].
    specialize (Hq p Hin). specialize (Hp q Hin'). lia. }
  f_equal. apply IH; [done|]. by apply Permutation_cons_inv in Hperm.
Qed.

(** ** Binary search in a run *)

(** The slice from the bound on is the records not below the target. *)
Lemma lowerBound_drop l target :
  ascending (map key l) →
  drop (lowerBound key l target) l = filter (fun p => target <=b key p) l
  ∧ Forall (fun p => key p <b target) (take (lowerBound key l target) l).
Proof.
  intros Ha. destruct (lowerBound_spec key l target Ha) as (Hb&Hlo&Hhi).
  set (n := lowerBound key l target) in *. clearbody n.
  assert (Forall (fun p => key p <b target) (take n l)) as Hf.
  { apply Forall_lookup. intros i p Hi. apply lookup_take_Some in Hi as [??]. by eapply Hlo. }
  split; [|done]. rewrite <- (take_drop n l) at 2. rewrite filter_app.
  rewrite (filter_none _ (take n l)).
  - rewrite (filter_all _ (drop n l)); [done|]. apply Forall_lookup. intros i p Hi.
    rewrite lookup_drop in Hi. eapply Hhi; [|exact Hi]. lia.
  - eapply Forall_impl; [exact Hf|]. cbn beta. intros p Hp. by rewrite <- blt_not_le.
Qed.

Definition findSorted (l : list A) (k : bytes) : option A :=
  match l !! lowerBound key l k with
  | Some p => if CmpSeq (key p) k =? 0 then Some p else None
  | None => None
  end.

Lemma findSorted_latest l k : ascending (map key l) → findSorted l k = latest k l.
Proof.
  intros Ha. unfold findSorted. destruct (lowerBound_spec key l k Ha) as (Hb&Hlo&Hhi).
  pose proof (ascending_NoDup _ Ha) as Hnd.
  destruct (l !! lowerBound key l k) as [p|] eqn:E.
  - rewrite CmpSeq_eq. case_bool_decide as Hk.
    + symmetry. apply latest_distinct; [done|by eapply list_elem_of_lookup_2|done].
    + symmetry. apply latest_None. intros Hin. apply list_elem_of_fmap in Hin as (q&->&Hq).
      apply list_elem_of_lookup_1 in Hq as [i Hi].
      destruct (decide (i < lowerBound key l (key q))%nat) as [Hlt|Hge].
      { specialize (Hlo i q Hlt Hi). by apply blt_irrefl in Hlo. }
      destruct (decide (i = lowerBound key l (key q))) as [->|Hne]; [rewrite E in Hi; injection Hi as ->; done|].
      pose proof (Hhi _ _ (le_n _) E) as Hle.
      assert (key p <b key q) as Hlt.
      { apply (ascending_lookup (map key l) (lowerBound key l (key q)) i); [done|lia|by rewrite list_lookup_fmap, E|by rewrite list_lookup_fmap, Hi]. }
      by apply blt_not_le in Hlt.
  - symmetry. apply latest_None. intros Hin. apply list_elem_of_fmap in Hin as (q&->&Hq).
    apply list_elem_of_lookup_1 in Hq as [i Hi]. apply lookup_ge_None in E. pose proof (lookup_lt_Some _ _ _ Hi).
    specialize (Hlo i q ltac:(lia) Hi). by apply blt_irrefl in Hlo.
Qed.

(** ** K-way drain

    [heads[i]] of the source is kept as the records of run [i] still to drain. *)

Fixpoint scanBest (i : nat) (rests : list (list A)) (best : option (nat * A)) : option (nat * A) :=
  match rests with
  | [] => best
  | r :: rests' =>
      scanBest (S i) rests'
        (match r with
         | [] => best
         | p :: _ =>
             match best with
             | None => Some (i, p)
             | Some (b, q) =>
                 let c := CmpSeq (key p) (key q) in
                 if (c <? 0) || ((c =? 0) && Nat.ltb b i) then Some (i, p) else best
             end
         end)
  end.

Fixpoint skipEqual (win : A) (r : list A) : list A :=
  match r with
  | [] => []
  | p :: r' => if CmpSeq (key p) (key win) =? 0 then skipEqual win r' else r
  end.

Definition advanceHeads (best : nat) (win : A) (rests : list (list A)) : list (list A) :=
  imap (fun i r => if Nat.eqb i best then tail r else skipEqual win r) rests.

(** Each turn drains a record, so the number of records bounds the loop. *)
Fixpoint drainLoop (fuel : nat) (rests : list (list A)) : list A :=
  match fuel with
  | O => []
  | S fuel' =>
      match scanBest 0 rests None with
      | None => []
      | Some (best, win) => win :: drainLoop fuel' (advanceHeads best win rests)
      end
  end.
Definition drain (runs : list (list A)) : list A := drainLoop (length (concat runs)) runs.

(** The head that is read: least key, newest run among equals. *)
Definition is_best (rests : list (list A)) (b : nat) (win : A) : Prop :=
  (∃ t, rests !! b = Some (win :: t))
  ∧ ∀ i p t, rests !! i = Some (p :: t) → key win <=b key p ∧ ((b < i)%nat → key win <b key p).

Lemma scanBest_spec rests done_ best :
  match best with
  | None => Forall (fun r => r = []) done_
  | Some (b, q) => is_best done_ b q
  end →
  match scanBest (length done_) rests best with
  | None => Forall (fun r => r = []) (done_ ++ rests)
  | Some (b, q) => is_best (done_ ++ rests) b q
  end.
Proof.
  revert done_ best. induction rests as [|r rests IH]; intros done_ best Hb; cbn [scanBest].
  { by rewrite app_nil_r. }
  replace (S (length done_)) with (length (done_ ++ [r])) by (rewrite length_app; cbn [length]; lia).
  replace (done_ ++ r :: rests) with ((done_ ++ [r]) ++ rests) by (by rewrite <- app_assoc).
  apply IH. clear IH.
  assert (∀ i p t, (done_ ++ [r]) !! i = Some (p :: t) →
    (i < length done_)%nat ∧ done_ !! i = Some (p :: t) ∨ i = length done_ ∧ r = p :: t) as Hlook.
  { intros i p t Hi. apply lookup_app_Some in Hi as [Hi|[Hge Hi]].
    - left. split; [by eapply lookup_lt_Some|done].
    - right. apply list_lookup_singleton_Some in Hi as [? ->]. split; [lia|done]. }
  destruct r as [|p t].
  - destruct best as [[b q]|].
    + destruct Hb as [[t Ht] Hmin]. split; [exists t; by apply lookup_app_l_Some|].
      intros i p t' Hi. destruct (Hlook i p t' Hi) as [[_ ?]|[_ ?]]; [by eapply Hmin|done].
    + apply Forall_app. by repeat constructor.
  - assert ((done_ ++ [p :: t]) !! length done_ = Some (p :: t)) as Hlast by (by apply list_lookup_middle).
    destruct best as [[b q]|].
    + destruct Hb as [[tq Ht] Hmin]. rewrite CmpSeq_lt, CmpSeq_eq.
      assert (b < length done_)%nat as Hlt by (by eapply lookup_lt_Some).
      rewrite (proj2 (Nat.ltb_lt b (length done_))) by done. rewrite andb_true_r.
      destruct (bool_decide (key p <b key q) || bool_decide (key p = key q)) eqn:E.
      * assert (key p <=b key q) as Hpq.
        { apply ble_lt_eq. apply orb_true_iff in E as [E|E]; apply bool_decide_eq_true in E; auto. }
        split; [by eexists|]. intros i p' t' Hi. destruct (Hlook i p' t' Hi) as [[? Hi']|[? [= -> ->]]].
        -- destruct (Hmin i p' t' Hi') as [H1 _]. split; [by etrans|lia].
        -- split; [apply ble_refl|lia].
      * apply orb_false_iff in E as [E1 E2]. apply bool_decide_eq_false in E1, E2.
        assert (key q <b key p) as Hqp.
        { destruct (ble_total (key p) (key q)) as [H|?]; [|done]. apply ble_lt_eq in H. naive_solver. }
        split; [exists tq; by apply lookup_app_l_Some|].
        intros i p' t' Hi. destruct (Hlook i p' t' Hi) as [[? Hi']|[? [= -> ->]]]; [by eapply Hmin|].
        split; [by apply blt_le|done].
    + split; [by eexists|]. intros i p' t' Hi. destruct (Hlook i p' t' Hi) as [[? Hi']|[? [= -> ->]]].
      * rewrite Forall_lookup in Hb. by apply Hb in Hi'.
      * split; [apply ble_refl|lia].
Qed.

Lemma run_above r p t w :
  ascending (map key r) → r = p :: t → w <=b key p → Forall (fun q => w <=b key q) r ∧ Forall (fun q => w <b key q) t.
Proof.
  intros Ha -> Hw. cbn [map] in Ha. apply ascending_cons in Ha as [Hp _].
  assert (Forall (fun q => w <b key q) t) as Ht.
  { rewrite Forall_map in Hp. eapply Forall_impl; [exact Hp|]. cbn beta. intros q Hq. by eapply ble_lt_trans. }
  split; [|done]. constructor; [done|]. eapply Forall_impl; [exact Ht|]. intros q. apply blt_le.
Qed.

Lemma skipEqual_filter win r :
  ascending (map key r) → Forall (fun q => key win <=b key q) r →
  skipEqual win r = filter (fun q => key q ≠ key win) r.
Proof.
  induction r as [|p r IH]; [done|]. cbn [map]. intros [Hp Ha]%ascending_cons [Hw Hr]%Forall_cons.
  cbn [skipEqual]. rewrite CmpSeq_eq. case_bool_decide as E.
  - rewrite filter_cons_False by naive_solver. by apply IH.
  - rewrite filter_all; [done|]. constructor; [done|]. rewrite Forall_map in Hp.
    eapply Forall_impl; [exact Hp|]. cbn beta. intros q Hq Heq. rewrite Heq in Hq.
    apply blt_not_le in Hq. done.
Qed.

Lemma advanceHeads_filter rests b win :
  Forall (fun r => ascending (map key r)) rests → is_best rests b win →
  advanceHeads b win rests = map (filter (fun q => key q ≠ key win)) rests.
Proof.
  intros Ha [[t Ht] Hmin]. unfold advanceHeads. apply list_eq. intros i.
  rewrite list_lookup_imap, list_lookup_fmap. destruct (rests !! i) as [r|] eqn:Ei; [|done].
  cbn [fmap option_fmap option_map]. f_equal. rewrite Forall_lookup in Ha. specialize (Ha i r Ei).
  destruct (Nat.eqb_spec i b) as [->|Hne].
  - rewrite Ei in Ht. injection Ht as ->. cbn [tail].
    destruct (run_above _ win t (key win) Ha eq_refl (ble_refl _)) as [_ Hgt].
    rewrite filter_cons_False by naive_solver. rewrite filter_all; [done|].
    eapply Forall_impl; [exact Hgt|]. cbn beta. intros q Hq Heq. rewrite Heq in Hq. by apply blt_irrefl in Hq.
  - destruct r as [|p t']; [done|]. apply skipEqual_filter; [done|].
    eapply run_above; [done|done|]. by eapply Hmin.
Qed.

Lemma latest_filter_ne w k l :
  latest k (filter (fun q => key q ≠ w) l) = if decide (k = w) then None else latest k l.
Proof.
  induction l as [|p l IH]; cbn [latest]; [by case_decide|]. rewrite filter_cons.
  destruct (decide (k = w)) as [->|Hne].
  - case_decide; [|done]. cbn [latest]. rewrite IH. by rewrite decide_False.
  - case_decide as Hp; cbn [latest]; rewrite IH; [done|]. destruct (latest k l); [done|].
    rewrite decide_False; [done|]. congruence.
Qed.

Lemma concat_map_filter (P : A → Prop) `{!∀ x, Decision (P x)} ls :
  concat (map (filter P) ls) = filter P (concat ls).
Proof. induction ls as [|l ls IH]; [done|]. cbn [map concat]. by rewrite filter_app, IH. Qed.

(** The head that is read is its key's newest record. *)
Lemma is_best_latest rests b win :
  Forall (fun r => ascending (map key r)) rests → is_best rests b win →
  latest (key win) (concat rests) = Some win ∧ Forall (fun p => key win <=b key p) (concat rests).
Proof.
  intros Ha [[t Ht] Hmin]. rewrite Forall_lookup in Ha. split.
  - rewrite <- (take_drop_middle rests b _ Ht). rewrite concat_app. cbn [concat].
    rewrite !latest_app. rewrite (proj2 (latest_None _ _)).
    + cbn [latest]. rewrite (proj2 (latest_None _ t)); [by rewrite decide_True|].
      destruct (run_above _ win t (key win) (Ha _ _ Ht) eq_refl (ble_refl _)) as [_ Hgt].
      intros (q&Hq&Hin)%list_elem_of_fmap. rewrite Forall_forall in Hgt. specialize (Hgt q Hin).
      rewrite <- Hq in Hgt. by apply blt_irrefl in Hgt.
    + intros (q&Hq&Hin)%list_elem_of_fmap. apply list_elem_of_In, in_concat in Hin as (r&Hr&Hin).
      apply list_elem_of_In, list_elem_of_lookup_1 in Hr as [i Hi]. rewrite lookup_drop in Hi.
      destruct r as [|p t']; [done|]. destruct (Hmin _ p t' Hi) as [_ Hgt]. specialize (Hgt ltac:(lia)).
      assert (key win <b key q) as Hlt.
      { apply list_elem_of_In, elem_of_cons in Hin as [->|Hin]; [done|].
        destruct (run_above _ p t' (key win) (Ha _ _ Hi) eq_refl (blt_le _ _ Hgt)) as [_ Hall].
        rewrite Forall_forall in Hall. by apply Hall. }
      rewrite <- Hq in Hlt. by apply blt_irrefl in Hlt.
  - apply Forall_forall. intros q Hin. apply list_elem_of_In, in_concat in Hin as (r&Hr&Hin).
    apply list_elem_of_In, list_elem_of_lookup_1 in Hr as [i Hi]. apply list_elem_of_In in Hin.
    destruct r as [|p t']; [by apply elem_of_nil in Hin|].
    destruct (run_above _ p t' (key win) (Ha _ _ Hi) eq_refl) as [Hall _]; [by eapply Hmin|].
    rewrite Forall_forall in Hall. by apply Hall.
Qed.

Lemma drainLoop_spec fuel rests :
  Forall (fun r => ascending (map key r)) rests → (length (concat rests) ≤ fuel)%nat →
  ascending (map key (drainLoop fuel rests))
  ∧ (∀ k, latest k (drainLoop fuel rests) = latest k (concat rests)).
Proof.
  revert rests. induction fuel as [|fuel IH]; intros rests Ha Hf; cbn [drainLoop].
  { destruct (concat rests); cbn [length] in Hf; [|lia]. split; [constructor|done]. }
  pose proof (scanBest_spec rests [] None) as Hs. cbn [length app] in Hs.
  destruct (scanBest 0 rests None) as [[b win]|]; specialize (Hs (Forall_nil_2 _)).
  - destruct (is_best_latest rests b win Ha Hs) as [Hl Hall].
    rewrite (advanceHeads_filter rests b win Ha Hs).
    set (rests' := map _ rests). assert (Forall (fun r => ascending (map key r)) rests') as Ha'.
    { apply Forall_map. eapply Forall_impl; [exact Ha|]. cbn beta. intros r Hr.
      clear -Hr. induction r as [|p r IHr]; [constructor|]. cbn [map] in Hr. apply ascending_cons in Hr as [Hp Hr].
      rewrite filter_cons. case_decide; [|by apply IHr]. cbn [map]. apply ascending_cons. split; [|by apply IHr].
      apply Forall_map. rewrite Forall_map in Hp. by apply Forall_filter_keep. }
    assert (concat rests' = filter (fun q => key q ≠ key win) (concat rests)) as Hc by apply concat_map_filter.
    destruct (IH rests' Ha') as [Hasc Hlat].
    { rewrite Hc. assert (win ∈ concat rests) as Hin by (by apply latest_key in Hl as [_ ?]).
      assert (length (filter (fun q => key q ≠ key win) (concat rests)) < length (concat rests))%nat; [|lia].
      apply length_filter_lt with win; [done|naive_solver]. }
    assert (∀ k, latest k (drainLoop fuel rests') = if decide (k = key win) then None else latest k (concat rests)) as Hlat'.
    { intros k. by rewrite Hlat, Hc, latest_filter_ne. }
    split.
    + cbn [map]. apply ascending_cons. split; [|done]. apply Forall_forall. intros k Hk.
      destruct (latest k (drainLoop fuel rests')) as [q|] eqn:Eq.
      * rewrite Hlat' in Eq. case_decide; [done|]. destruct (latest_key _ _ _ Eq) as [<- Hin].
        rewrite Forall_forall in Hall. specialize (Hall q Hin). apply ble_lt_eq in Hall as [?|?]; [done|congruence].
      * by apply latest_None in Eq.
    + intros k. cbn [latest]. rewrite Hlat'. destruct (decide (k = key win)) as [->|Hne].
      * by rewrite decide_True.
      * destruct (latest k (concat rests)); [done|]. by rewrite decide_False.
  - assert (concat rests = []) as ->.
    { clear -Hs. induction Hs as [|r rs -> _ IH]; [done|]. exact IH. }
    split; [constructor|done].
Qed.

Lemma drain_spec runs :
  Forall (fun r => ascending (map key r)) runs →
  ascending (map key (drain runs)) ∧ (∀ k, latest k (drain runs) = latest k (concat runs)).
Proof. intros. by apply drainLoop_spec. Qed.

(** In a log with distinct keys, reading and membership agree. *)
Lemma elem_of_latest l p : ascending (map key l) → p ∈ l ↔ latest (key p) l = Some p.
Proof.
  intros Ha. split.
  - intros. by apply latest_distinct; [apply ascending_NoDup|..].
  - by intros [_ ?]%latest_key.
Qed.
End keyed.
