(* ===== verification/Memtable.v ===== *)
(** * The memtable (go/internal/memtable/memtable.go)

    The run ladder of each column family: an append buffer, frozen sorted
    runs, and the runs a flush is draining. It is proved to refine two finite
    maps per family, the live writes over the draining ones. *)

From S2P Require Import Prelude Pages NewestWins.

Definition MaxActiveRuns : Z := 8.
Definition MaxBufEntries : Z := 65536.

(** [Run]: records sorted by key. *)
Record Run : Type := { Records : list bytes; KV : bool }.

Inductive KvLookup : Type := KvAbsent | KvDeleted | KvValue.

#[export] Instance KvLookup_eq_dec : EqDecision KvLookup.
Proof. solve_decision. Defined.

(** One column family: index [cf] of the source's parallel slices. *)
Record cfState : Type := {
  runs : list Run;
  draining : list Run;
  buf : list bytes;
  cfSize : Z;
}.

(** [numCf] is the number of families. *)
Record MemTable : Type := { families : list cfState; gen : Z }.

Definition emptyCf : cfState := {| runs := []; draining := []; buf := []; cfSize := 0 |}.
Definition New (numCf : Z) : res MemTable :=
  if numCf <=? 0 then Panic
  else Ok {| families := replicate (Z.to_nat numCf) emptyCf; gen := 0 |}.

Definition NumCf (mt : MemTable) : nat := length (families mt).
Definition Gen (mt : MemTable) : Z := gen mt.

Definition RunCounts (mt : MemTable) : nat * nat :=
  fold_left (fun n s => (n.1 + length (runs s), n.2 + length (draining s))%nat) (families mt) (0%nat, 0%nat).

Definition sizeLocked (mt : MemTable) : Z :=
  u64 (fold_left (fun sz s => sz + cfSize s) (families mt) 0).
Definition Size (mt : MemTable) : Z := sizeLocked mt.

(** ** Records

    Byte 0 holds the flags, bytes 1 to 4 the key length, then the key, then for
    key-value records a value length and the value. *)

Definition be32At (p : bytes) (o : nat) : Z :=
  Z.lor (Z.lor (Z.lor (Z.shiftl (nth o p 0) 24) (Z.shiftl (nth (o + 1) p 0) 16))
               (Z.shiftl (nth (o + 2) p 0) 8)) (nth (o + 3) p 0).

(** Only [appendRecLocked] makes records, so the header is always there. *)
Definition recKlen (p : bytes) : nat := Z.to_nat (be32At p 1).
Definition recDeleted (p : bytes) : bool := negb (Z.land (nth 0 p 0) 1 =? 0).
Definition recKey (p : bytes) : bytes := take (recKlen p) (drop 5 p).

(** A key-only record has no value length: reading it is out of range. *)
Definition recVlen (p : bytes) : res nat :=
  let o := (5 + recKlen p)%nat in
  if Nat.ltb (o + 3) (length p) then Ok (Z.to_nat (be32At p o)) else Panic.
Definition recValue (p : bytes) : res bytes :=
  vlen ← recVlen p;
  let o := Z.of_nat (9 + recKlen p) in
  slice p o (o + Z.of_nat vlen).

Fixpoint CmpKeys (a b : bytes) : Z :=
  match a, b with
  | [], [] => 0
  | [], _ :: _ => -1
  | _ :: _, [] => 1
  | x :: a', y :: b' => if negb (x =? y) then if x <? y then -1 else 1 else CmpKeys a' b'
  end.
Definition CmpRec (a b : bytes) : Z := CmpKeys (recKey a) (recKey b).

Definition be32Bytes (n : Z) : bytes :=
  [u8 (Z.shiftr n 24); u8 (Z.shiftr n 16); u8 (Z.shiftr n 8); u8 n].

(** The record [appendRecLocked] builds; a family from 10 on holds values. *)
Definition newRec (cf : nat) (deleted : bool) (key value : bytes) : bytes :=
  let kv := Nat.leb 10 cf in
  [Z.lor (if deleted then 1 else 0) (if kv then 2 else 0)]
  ++ be32Bytes (Z.of_nat (length key)) ++ key
  ++ (if kv then be32Bytes (Z.of_nat (length value)) ++ value else []).

(** ** Materialize and merge *)

Definition sumKlen (l : list bytes) : Z := foldr (fun p n => Z.of_nat (recKlen p) + n) 0 l.

(** The boolean says whether the generation advanced. *)
Definition materializeCf (cf : nat) (s : cfState) : cfState * bool :=
  if Nat.eqb (length (buf s)) 0 then (s, false)
  else
    let bufSum := sumKlen (buf s) in
    let records := lastOfGroups recKey (sortTagged recKey (imap pair (buf s))) in
    let keptBytes := sumKlen records in
    ({| runs := runs s ++ [{| Records := records; KV := Nat.leb 10 cf |}];
        draining := draining s; buf := [];
        cfSize := cfSize s - (bufSum - keptBytes) |}, true).

(** The records of all runs with the index of their run. *)
Definition tagRuns (rs : list Run) : list (nat * bytes) :=
  concat (imap (fun ri r => map (pair ri) (Records r)) rs).

Definition maybeMergeCf (cf : nat) (s : cfState) : cfState * bool :=
  if Z.of_nat (length (runs s)) <=? MaxActiveRuns then (s, false)
  else
    let records := lastOfGroups recKey (sortTagged recKey (tagRuns (runs s))) in
    ({| runs := [{| Records := records; KV := Nat.leb 10 cf |}];
        draining := draining s; buf := buf s; cfSize := cfSize s |}, true).

Definition bump (b : bool) (g : Z) : Z := if b then u64 (g + 1) else g.

(** Runs a family function at index [cf]; an index out of range panics. *)
Definition onCf (f : nat → cfState → cfState * bool) (mt : MemTable) (cf : nat) : res MemTable :=
  match families mt !! cf with
  | None => Panic
  | Some s => let '(s', b) := f cf s in
              Ok {| families := <[cf := s']> (families mt); gen := bump b (gen mt) |}
  end.
Definition materializeLocked : MemTable → nat → res MemTable := onCf materializeCf.
Definition maybeMergeLocked : MemTable → nat → res MemTable := onCf maybeMergeCf.

Definition materializeMerge (mt : MemTable) (cf : nat) : res MemTable :=
  mt ← materializeLocked mt cf; maybeMergeLocked mt cf.

(** ** Writes *)

Definition appendCf (deleted : bool) (key value : bytes) (cf : nat) (s : cfState) : cfState * bool :=
  ({| runs := runs s; draining := draining s; buf := buf s ++ [newRec cf deleted key value];
      cfSize := cfSize s + Z.of_nat (length key) |}, false).

Definition bufFull (mt : MemTable) (cf : nat) : bool :=
  match families mt !! cf with
  | Some s => Z.of_nat (length (buf s)) >=? MaxBufEntries
  | None => false
  end.

Definition appendRecLocked (mt : MemTable) (cf : nat) (deleted : bool) (key value : bytes) : res MemTable :=
  mt ← onCf (appendCf deleted key value) mt cf;
  if bufFull mt cf then materializeMerge mt cf else Ok mt.

Definition Put (mt : MemTable) (cf : nat) (key : bytes) : res (MemTable * Z) :=
  mt ← appendRecLocked mt cf false key []; Ok (mt, sizeLocked mt).
Definition PutKv (mt : MemTable) (cf : nat) (key value : bytes) : res (MemTable * Z) :=
  mt ← appendRecLocked mt cf false key value; Ok (mt, sizeLocked mt).
Definition DeleteKv (mt : MemTable) (cf : nat) (key : bytes) : res MemTable :=
  appendRecLocked mt cf true key [].

(** Entries of an unknown family are skipped. *)
Fixpoint batchLoop (mt : MemTable) (entries : list (nat * bytes)) : res MemTable :=
  match entries with
  | [] => Ok mt
  | (cf, key) :: entries' =>
      if Nat.leb (NumCf mt) cf then batchLoop mt entries'
      else mt ← appendRecLocked mt cf false key []; batchLoop mt entries'
  end.
Definition Batch (mt : MemTable) (entries : list (nat * bytes)) : res (MemTable * Z) :=
  mt ← batchLoop mt entries; Ok (mt, sizeLocked mt).

(** ** Ladder transitions *)

Definition EnsureMaterialized : MemTable → nat → res MemTable := materializeMerge.

Definition MaybeCapBuf (mt : MemTable) (cf : nat) : res MemTable :=
  match families mt !! cf with
  | None => Panic
  | Some s => if Z.of_nat (length (buf s)) >=? MaxBufEntries then materializeMerge mt cf else Ok mt
  end.

Fixpoint materializeEach (mt : MemTable) (cfs : list nat) : res MemTable :=
  match cfs with
  | [] => Ok mt
  | cf :: cfs' => mt ← materializeMerge mt cf; materializeEach mt cfs'
  end.
Definition MaterializeAll (mt : MemTable) : res MemTable := materializeEach mt (seq 0 (NumCf mt)).

Definition SnapshotRuns (mt : MemTable) (cf : nat) : res (MemTable * list Run) :=
  mt ← materializeMerge mt cf;
  match families mt !! cf with
  | None => Panic
  | Some s => Ok (mt, draining s ++ runs s)
  end.

Definition freezeCf (s : cfState) : cfState :=
  {| runs := []; draining := runs s; buf := []; cfSize := 0 |}.
Definition FreezeAllCapture (mt : MemTable) : res (MemTable * list (list Run)) :=
  mt ← MaterializeAll mt;
  let mt := {| families := map freezeCf (families mt); gen := u64 (gen mt + 1) |} in
  Ok (mt, map draining (families mt)).

Definition publishCf (s : cfState) : cfState :=
  {| runs := runs s; draining := []; buf := buf s; cfSize := cfSize s |}.
Definition Publish (mt : MemTable) : MemTable :=
  {| families := map publishCf (families mt); gen := u64 (gen mt + 1) |}.

Definition Clear (mt : MemTable) : MemTable :=
  {| families := map (fun _ => emptyCf) (families mt); gen := u64 (gen mt + 1) |}.

(** ** Point lookups *)

(** The buffer is scanned from its newest record. *)
Fixpoint findNewest (l : list bytes) (key : bytes) : option bytes :=
  match l with
  | [] => None
  | p :: l' => if CmpKeys (recKey p) key =? 0 then Some p else findNewest l' key
  end.
Definition findBufLocked (s : cfState) (key : bytes) : option bytes := findNewest (reverse (buf s)) key.

Definition findRun (r : Run) (key : bytes) : option bytes := findSorted recKey (Records r) key.

(** Runs given newest first; [keep] is the test a hit must also pass. *)
Fixpoint findRuns (keep : bytes → bool) (rs : list Run) (key : bytes) : option bytes :=
  match rs with
  | [] => None
  | r :: rs' => match findRun r key with
                | Some p => if keep p then Some p else findRuns keep rs' key
                | None => findRuns keep rs' key
                end
  end.

Definition status (p : bytes) : KvLookup := if recDeleted p then KvDeleted else KvValue.

Definition lookupCf (s : cfState) (key : bytes) : KvLookup :=
  match findBufLocked s key with
  | Some p => status p
  | None =>
      match findRuns (fun _ => true) (reverse (runs s)) key with
      | Some p => status p
      | None =>
          match findRuns (fun _ => true) (reverse (draining s)) key with
          | Some p => status p
          | None => KvAbsent
          end
      end
  end.

Definition LookupKv (mt : MemTable) (cf : nat) (key : bytes) : res KvLookup :=
  match families mt !! cf with None => Panic | Some s => Ok (lookupCf s key) end.

Definition live (p : bytes) : bool := negb (recDeleted p).

Definition someValue (p : bytes) : res (option bytes) := v ← recValue p; Ok (Some v).

Definition valueCf (s : cfState) (key : bytes) : res (option bytes) :=
  if negb (bool_decide (lookupCf s key = KvValue)) then Ok None
  else
    match match findBufLocked s key with
          | Some p => if live p then Some p else None
          | None => None
          end with
    | Some p => someValue p
    | None =>
        match findRuns live (reverse (runs s)) key with
        | Some p => someValue p
        | None =>
            match findRuns live (reverse (draining s)) key with
            | Some p => someValue p
            | None => Ok None
            end
        end
    end.

Definition GetValue (mt : MemTable) (cf : nat) (key : bytes) : res (option bytes) :=
  match families mt !! cf with None => Panic | Some s => valueCf s key end.

Definition ContainsAny (mt : MemTable) (cf : nat) (key : bytes) : res bool :=
  l ← LookupKv mt cf key; Ok (negb (bool_decide (l = KvAbsent))).

(** ** Drains

    The [yield] callback only lets other goroutines run. *)

Definition DrainSorted (rs : list Run) : list bytes := map recKey (drain recKey (map Records rs)).

Fixpoint splitDrain (wins : list bytes) : res (list (bytes * bytes) * list bytes) :=
  match wins with
  | [] => Ok ([], [])
  | win :: wins' =>
      if recDeleted win then
        '(pairs, deleted) ← splitDrain wins'; Ok (pairs, recKey win :: deleted)
      else
        val ← recValue win;
        '(pairs, deleted) ← splitDrain wins'; Ok ((recKey win, val) :: pairs, deleted)
  end.
Definition DrainKvSorted (rs : list Run) : res (list (bytes * bytes) * list bytes) :=
  splitDrain (drain recKey (map Records rs)).

(** ** Records read back *)

Lemma CmpKeys_CmpSeq a b : CmpKeys a b = CmpSeq a b.
Proof.
  revert b. induction a as [|x a IH]; intros [|y b]; cbn [CmpKeys CmpSeq]; try done.
  destruct (Z.eqb_spec x y), (Z.ltb_spec x y), (Z.gtb_spec x y); cbn [negb]; try done; lia.
Qed.

Lemma nth_app_add {A} (pre l : list A) i d : nth (length pre + i) (pre ++ l) d = nth i l d.
Proof. rewrite app_nth2 by lia. f_equal. lia. Qed.

Lemma be32At_bytes pre n post :
  0 ≤ n < 2 ^ 32 → be32At (pre ++ be32Bytes n ++ post) (length pre) = n.
Proof.
  intros Hn. unfold be32At.
  replace (nth (length pre) _ 0) with (nth (length pre + 0) (pre ++ be32Bytes n ++ post) 0) by (by rewrite Nat.add_0_r).
  rewrite !nth_app_add. unfold be32Bytes. cbn [app nth].
  rewrite lor_bytes4 by (apply Z.mod_pos_bound; lia). rewrite !Z.shiftr_div_pow2 by lia. mlia.
Qed.

Section newRec.
Context (cf : nat) (d : bool) (k v : bytes).
Context (Hk : Z.of_nat (length k) < 2 ^ 32) (Hv : Z.of_nat (length v) < 2 ^ 32).
#[local] Definition flags : Z := Z.lor (if d then 1 else 0) (if Nat.leb 10 cf then 2 else 0).
#[local] Definition tail4 : bytes := if Nat.leb 10 cf then be32Bytes (Z.of_nat (length v)) ++ v else [].

Lemma newRec_klen : recKlen (newRec cf d k v) = length k.
Proof.
  unfold recKlen, newRec. rewrite (be32At_bytes [_]) by lia. apply Nat2Z.id.
Qed.

Lemma newRec_key : recKey (newRec cf d k v) = k.
Proof.
  unfold recKey. rewrite newRec_klen. unfold newRec, be32Bytes. cbn [app drop]. by rewrite drop_0, take_app_length.
Qed.

Lemma newRec_deleted : recDeleted (newRec cf d k v) = d.
Proof. unfold recDeleted, newRec. cbn [app nth]. by destruct d, (Nat.leb 10 cf). Qed.

Lemma newRec_value : (10 ≤ cf)%nat → recValue (newRec cf d k v) = Ok v.
Proof.
  intros Hcf. unfold recValue, recVlen. rewrite newRec_klen.
  set (pre := [flags] ++ be32Bytes (Z.of_nat (length k)) ++ k).
  assert (newRec cf d k v = pre ++ be32Bytes (Z.of_nat (length v)) ++ v) as Hrec.
  { unfold newRec, pre, flags. rewrite (proj2 (Nat.leb_le 10 cf)) by done. by rewrite <- !app_assoc. }
  assert (length pre = (5 + length k)%nat) as Hpre by done.
  rewrite Hrec. rewrite <- Hpre. rewrite (proj2 (Nat.ltb_lt _ _)) by (rewrite !length_app; cbn [be32Bytes length]; lia).
  pose proof (be32At_bytes pre (Z.of_nat (length v)) v) as Hbe. rewrite Hbe by lia. rewrite res_bind_ret, Nat2Z.id.
  rewrite app_assoc, <- (app_nil_r v). rewrite length_app. cbn [length]. rewrite Nat.add_0_r, app_nil_r.
  replace ((pre ++ be32Bytes (Z.of_nat (length v))) ++ v) with ((pre ++ be32Bytes (Z.of_nat (length v))) ++ v ++ [])
    by (by rewrite app_nil_r).
  apply slice_app; [|lia]. rewrite length_app, Hpre. cbn [be32Bytes length]. lia.
Qed.
End newRec.

(** ** The abstract table *)

Inductive entry : Type := Tomb | Live (v : bytes).

#[export] Instance entry_eq_dec : EqDecision entry.
Proof. solve_decision. Defined.

Definition entryOf (p : bytes) : entry :=
  if recDeleted p then Tomb
  else Live (match recValue p with Ok v => v | _ => [] end).

(** A family as two maps: the live writes and the ones being flushed. *)
Record absCf : Type := { hot : gmap bytes entry; cold : gmap bytes entry }.

Definition rec_ok (cf : nat) (p : bytes) : Prop :=
  ∃ d k v, p = newRec cf d k v ∧ Z.of_nat (length k) < 2 ^ 32 ∧ Z.of_nat (length v) < 2 ^ 32.

Definition run_ok (cf : nat) (r : Run) : Prop :=
  ascending (map recKey (Records r)) ∧ Forall (rec_ok cf) (Records r).

Definition hotLog (s : cfState) : list bytes := concat (map Records (runs s)) ++ buf s.
Definition coldLog (s : cfState) : list bytes := concat (map Records (draining s)).

(** Runs are sorted, records well formed, and [cfSize] bounds the key bytes held. *)
Record cf_inv (cf : nat) (s : cfState) : Prop := {
  inv_runs : Forall (run_ok cf) (runs s);
  inv_draining : Forall (run_ok cf) (draining s);
  inv_buf : Forall (rec_ok cf) (buf s);
  inv_size : sumKlen (hotLog s) ≤ cfSize s;
}.

Record refines (cf : nat) (s : cfState) (a : absCf) : Prop := {
  ref_inv : cf_inv cf s;
  ref_hot : ∀ k, hot a !! k = entryOf <$> latest recKey k (hotLog s);
  ref_cold : ∀ k, cold a !! k = entryOf <$> latest recKey k (coldLog s);
}.

(** ** Sorting a log *)

Lemma tags_grow_imap l : tags_grow recKey (imap pair l).
Proof.
  intros k. apply StronglySorted_filter.
  assert (∀ n, StronglySorted (fun a b : nat * bytes => (a.1 < b.1)%nat) (imap (fun i p => (n + i, p)%nat) l)
    ∧ Forall (fun a => (n ≤ a.1)%nat) (imap (fun i p => (n + i, p)%nat) l)) as H.
  { induction l as [|p l IH]; intros n; cbn [imap]; [by repeat constructor|].
    rewrite (imap_ext _ (fun i p => (S n + i, p)%nat)) by (intros; cbn; f_equal; lia).
    destruct (IH (S n)) as [H1 H2]. split; constructor; try done; cbn [fst]; try lia.
    - eapply Forall_impl; [exact H2|]. cbn beta. intros; lia.
    - eapply Forall_impl; [exact H2|]. cbn beta. intros; lia. }
  apply (H 0%nat).
Qed.

Lemma tags_grow_runs rs :
  Forall (fun r => ascending (map recKey (Records r))) rs → tags_grow recKey (tagRuns rs).
Proof.
  intros Ha k. unfold tagRuns.
  assert (∀ n, let l := filter (fun p => recKey p.2 = k)
      (concat (imap (fun ri r => map (pair (n + ri)%nat) (Records r)) rs)) in
    StronglySorted (fun a b : nat * bytes => (a.1 < b.1)%nat) l ∧ Forall (fun a => (n ≤ a.1)%nat) l) as H.
  { induction Ha as [|r rs Hr Ha IH]; intros n; cbn [imap concat]; [by repeat constructor|].
    rewrite (imap_ext _ (fun ri r => map (pair (S n + ri)%nat) (Records r))) by (intros; cbn; do 2 f_equal; lia).
    destruct (IH (S n)) as [H1 H2]. cbv zeta in H1, H2 |- *. rewrite filter_app, Nat.add_0_r.
    set (l2 := filter _ (concat _)) in *. clearbody l2.
    assert (filter (fun p => recKey p.2 = k) (map (pair n) (Records r)) = []
      ∨ ∃ q, filter (fun p => recKey p.2 = k) (map (pair n) (Records r)) = [(n, q)]) as [->|[q ->]].
    { apply ascending_NoDup in Hr. revert Hr. induction (Records r) as [|p t IHt]; [by left|].
      cbn [map]. intros [Hnot Hnd]%NoDup_cons. rewrite filter_cons. cbn [snd].
      case_decide as E; [|by apply IHt]. right. exists p. f_equal. apply filter_none.
      apply Forall_forall. intros x (y&->&Hy)%list_elem_of_fmap. cbn [snd]. intros Ey. apply Hnot.
      rewrite E, <- Ey. by apply list_elem_of_fmap_2. }
    - cbn [app]. split; [done|]. eapply Forall_impl; [exact H2|]. cbn beta. intros; lia.
    - cbn [app]. split; constructor; try done; cbn [fst]; try lia; (eapply Forall_impl; [exact H2|]); cbn beta; intros; lia. }
  apply (H 0%nat).
Qed.

Lemma map_snd_tagRuns rs : map snd (tagRuns rs) = concat (map Records rs).
Proof.
  unfold tagRuns. assert (∀ f : nat → nat,
    map snd (concat (imap (fun ri r => map (pair (f ri)) (Records r)) rs)) = concat (map Records rs)) as H;
    [|apply (H id)].
  induction rs as [|r rs IH]; intros f; [done|]. cbn [imap concat map].
  rewrite map_app, map_map. cbn [snd]. rewrite map_id. f_equal. apply (IH (f ∘ S)).
Qed.

Lemma map_snd_imap (l : list bytes) : map snd (imap pair l) = l.
Proof.
  assert (∀ f : nat → nat, map snd (imap (fun i (p : bytes) => (f i, p)) l) = l) as H; [|apply (H id)].
  induction l as [|p l IH]; intros f; [done|]. cbn [imap map snd]. f_equal. apply (IH (f ∘ S)).
Qed.

(** A sorted, deduplicated log reads as the log. *)
Lemma compact_spec cf l :
  tags_grow recKey l → Forall (rec_ok cf) (map snd l) →
  let records := lastOfGroups recKey (sortTagged recKey l) in
  ascending (map recKey records) ∧ Forall (rec_ok cf) records
  ∧ (∀ k, latest recKey k records = latest recKey k (map snd l))
  ∧ sumKlen records ≤ sumKlen (map snd l).
Proof.
  intros Hg Hok. cbv zeta. split_and!.
  - apply lastOfGroups_ascending, sortTagged_sorted.
  - rewrite Forall_forall in *. intros p Hp%lastOfGroups_subset. apply Hok. revert Hp. unfold sortTagged.
    by rewrite merge_sort_Permutation.
  - intros k. by rewrite latest_lastOfGroups, latest_sortTagged.
  - transitivity (sumKlen (sortTagged recKey l)).
    + generalize (sortTagged recKey l) as L. unfold sumKlen. induction L as [|p L IH]; [done|].
      destruct L as [|q L]; [done|]. set (t := q :: L) in *. change (lastOfGroups recKey (p :: t))
        with (if CmpSeq (recKey p) (recKey q) =? 0 then lastOfGroups recKey t else p :: lastOfGroups recKey t).
      destruct (_ =? 0); cbn [foldr]; cbn [foldr] in IH; lia.
    + apply Z.eq_le_incl. unfold sumKlen, sortTagged. apply (foldr_permutation eq); [intros ? ? ? ->; done| |].
      { intros j1 a1 j2 a2 b _ _ _. lia. } by rewrite merge_sort_Permutation.
Qed.

(** ** Transitions of one family *)

Lemma runs_ok_recs cf rs : Forall (run_ok cf) rs → Forall (rec_ok cf) (concat (map Records rs)).
Proof. induction 1 as [|r rs [_ Hr] _ IH]; [constructor|]. cbn [map concat]. by apply Forall_app. Qed.

Lemma runs_ok_asc cf rs : Forall (run_ok cf) rs → Forall (fun r => ascending (map recKey (Records r))) rs.
Proof. intros H. eapply Forall_impl; [exact H|]. by intros r []. Qed.

Lemma sumKlen_app a b : sumKlen (a ++ b) = sumKlen a + sumKlen b.
Proof. unfold sumKlen. induction a as [|p a IH]; cbn [app foldr]; lia. Qed.

Lemma sumKlen_nonneg l : 0 ≤ sumKlen l.
Proof. unfold sumKlen. induction l as [|p l IH]; cbn [foldr]; lia. Qed.

Lemma materializeCf_refines cf s a :
  refines cf s a → refines cf (materializeCf cf s).1 a ∧ buf (materializeCf cf s).1 = [].
Proof.
  intros [[Hr Hd Hb Hs] Hh Hc]. unfold materializeCf. destruct (Nat.eqb_spec (length (buf s)) 0) as [E|E].
  { apply nil_length_inv in E. by split. }
  destruct (compact_spec cf (imap pair (buf s)) (tags_grow_imap _)) as (Ha&Hok&Hl&Hsum); [by rewrite map_snd_imap|].
  cbv zeta in *. rewrite map_snd_imap in Hl, Hsum. cbn [fst]. split; [|done].
  set (records := lastOfGroups _ _) in *. clearbody records.
  split; [constructor|..]; cbn [runs draining buf cfSize]; try done.
  - apply Forall_app. split; [done|]. constructor; [by split|constructor].
  - revert Hs. unfold hotLog. cbn [runs buf]. rewrite map_app, concat_app. cbn [map concat].
    rewrite !app_nil_r, !sumKlen_app. cbn [Records]. lia.
  - intros k. rewrite Hh. f_equal. unfold hotLog. cbn [runs buf]. rewrite map_app, concat_app. cbn [map concat].
    by rewrite !app_nil_r, !latest_app, Hl.
Qed.

Lemma maybeMergeCf_refines cf s a :
  refines cf s a → refines cf (maybeMergeCf cf s).1 a ∧ buf (maybeMergeCf cf s).1 = buf s.
Proof.
  intros [[Hr Hd Hb Hs] Hh Hc]. unfold maybeMergeCf. destruct (_ <=? _); [by split|].
  destruct (compact_spec cf (tagRuns (runs s)) (tags_grow_runs _ (runs_ok_asc _ _ Hr))) as (Ha&Hok&Hl&Hsum).
  { rewrite map_snd_tagRuns. by apply runs_ok_recs. }
  cbv zeta in *. rewrite map_snd_tagRuns in Hl, Hsum. cbn [fst]. split; [|done].
  set (records := lastOfGroups _ _) in *. clearbody records.
  split; [constructor|..]; cbn [runs draining buf cfSize]; try done.
  - constructor; [by split|constructor].
  - revert Hs. unfold hotLog. cbn [runs buf map concat Records]. rewrite app_nil_r, !sumKlen_app. lia.
  - intros k. rewrite Hh. f_equal. unfold hotLog. cbn [runs buf map concat Records].
    by rewrite app_nil_r, !latest_app, Hl.
Qed.

Definition writeAbs (k : bytes) (e : entry) (a : absCf) : absCf := {| hot := <[k := e]> (hot a); cold := cold a |}.

(** What a write stores: key-only families keep no value. *)
Definition writeEntry (cf : nat) (d : bool) (v : bytes) : entry :=
  if d then Tomb else Live (if Nat.leb 10 cf then v else []).

Lemma entryOf_newRec cf d k v :
  Z.of_nat (length k) < 2 ^ 32 → Z.of_nat (length v) < 2 ^ 32 →
  entryOf (newRec cf d k v) = writeEntry cf d v.
Proof.
  intros Hk Hv. unfold entryOf, writeEntry. rewrite newRec_deleted. destruct d; [done|].
  destruct (Nat.leb_spec 10 cf) as [H|H]; [by rewrite newRec_value|].
  unfold recValue, recVlen. rewrite newRec_klen by done.
  rewrite (proj2 (Nat.ltb_ge _ _)); [done|]. unfold newRec. rewrite (proj2 (Nat.leb_gt 10 cf)) by done.
  rewrite app_nil_r, !length_app. cbn [be32Bytes length]. lia.
Qed.

Lemma appendCf_refines cf d k v s a :
  Z.of_nat (length k) < 2 ^ 32 → Z.of_nat (length v) < 2 ^ 32 →
  refines cf s a → refines cf (appendCf d k v cf s).1 (writeAbs k (writeEntry cf d v) a).
Proof.
  intros Hk Hv [[Hr Hd Hb Hs] Hh Hc]. cbn [appendCf fst].
  split; [constructor|..]; cbn [runs draining buf cfSize hot cold writeAbs]; try done.
  - apply Forall_app. split; [done|]. constructor; [by exists d, k, v|constructor].
  - revert Hs. unfold hotLog. cbn [runs buf]. rewrite !app_assoc, !sumKlen_app.
    unfold sumKlen at 5. cbn [foldr]. rewrite newRec_klen by done. lia.
  - intros k'. unfold hotLog. cbn [runs buf]. rewrite app_assoc, latest_app. cbn [latest].
    rewrite newRec_key by done. destruct (decide (k = k')) as [->|Hne].
    + rewrite lookup_insert_eq. cbn [fmap option_fmap option_map]. by rewrite entryOf_newRec.
    + rewrite lookup_insert_ne by done. apply Hh.
Qed.

Definition freezeAbs (a : absCf) : absCf := {| hot := ∅; cold := hot a |}.
Definition publishAbs (a : absCf) : absCf := {| hot := hot a; cold := ∅ |}.

Lemma freezeCf_refines cf s a : buf s = [] → refines cf s a → refines cf (freezeCf s) (freezeAbs a).
Proof.
  intros Hbuf [[Hr Hd Hb Hs] Hh Hc]. split; [constructor|..]; cbn [freezeCf runs draining buf cfSize]; try done.
  intros k. unfold coldLog. cbn [freezeCf draining freezeAbs cold]. rewrite Hh. unfold hotLog. by rewrite Hbuf, app_nil_r.
Qed.

Lemma publishCf_refines cf s a : refines cf s a → refines cf (publishCf s) (publishAbs a).
Proof. intros [[Hr Hd Hb Hs] Hh Hc]. by split; [constructor|..]. Qed.

Definition emptyAbs : absCf := {| hot := ∅; cold := ∅ |}.

Lemma emptyCf_refines cf : refines cf emptyCf emptyAbs.
Proof. by split; [constructor|..]. Qed.

(** ** Lookups *)

Lemma findNewest_latest l k : findNewest (reverse l) k = latest recKey k l.
Proof.
  induction l as [|p l IH] using rev_ind; [done|]. rewrite reverse_snoc, latest_app. cbn [findNewest latest].
  rewrite CmpKeys_CmpSeq, CmpSeq_eq. case_bool_decide; [by rewrite decide_True|]. by rewrite decide_False, IH.
Qed.

Lemma findRuns_latest rs k :
  Forall (fun r => ascending (map recKey (Records r))) rs →
  findRuns (fun _ => true) (reverse rs) k = latest recKey k (concat (map Records rs)).
Proof.
  induction rs as [|r rs IH] using rev_ind; [done|]. intros [Hrs Hr]%Forall_app. apply Forall_cons in Hr as [Hr _].
  rewrite reverse_snoc, map_app, concat_app, latest_app. cbn [findRuns map concat]. rewrite app_nil_r.
  unfold findRun. rewrite findSorted_latest by done. destruct (latest recKey k (Records r)); [done|]. by apply IH.
Qed.

(** Where the newest record of the key is live, the search for a live one finds it. *)
Lemma findRuns_live rs k p :
  findRuns (fun _ => true) rs k = Some p → live p = true → findRuns live rs k = Some p.
Proof.
  induction rs as [|r rs IH]; [done|]. cbn [findRuns]. destruct (findRun r k) as [q|]; [|by apply IH].
  intros [= ->] ->. done.
Qed.

Lemma findRuns_live_None rs k : findRuns (fun _ => true) rs k = None → findRuns live rs k = None.
Proof.
  induction rs as [|r rs IH]; [done|]. cbn [findRuns]. by destruct (findRun r k).
Qed.

(** The newest record of a key: live log first, then the draining one. *)
Definition newest (s : cfState) (k : bytes) : option bytes :=
  match latest recKey k (hotLog s) with Some p => Some p | None => latest recKey k (coldLog s) end.

Lemma lookupCf_newest cf s k :
  cf_inv cf s → lookupCf s k = match newest s k with Some p => status p | None => KvAbsent end.
Proof.
  intros [Hr Hd Hb _]. unfold lookupCf, newest, hotLog, coldLog, findBufLocked.
  rewrite findNewest_latest, !findRuns_latest by (by eapply runs_ok_asc). rewrite latest_app.
  destruct (latest recKey k (buf s)); [done|]. by destruct (latest recKey k (concat (map Records (runs s)))).
Qed.

Lemma valueCf_newest cf s k :
  cf_inv cf s →
  valueCf s k = match newest s k with
                | Some p => if recDeleted p then Ok None else someValue p
                | None => Ok None
                end.
Proof.
  intros Hi. unfold valueCf. rewrite (lookupCf_newest cf) by done. destruct Hi as [Hr Hd Hb _].
  destruct (newest s k) as [p|] eqn:En; [|done]. unfold status.
  destruct (recDeleted p) eqn:Edel; [done|]. cbn [negb]. rewrite bool_decide_true by done. cbn [negb].
  assert (live p = true) as Hlive by (unfold live; by rewrite Edel).
  unfold newest, hotLog, coldLog in En. rewrite latest_app, <- findNewest_latest in En.
  change (findNewest (reverse (buf s)) k) with (findBufLocked s k) in En.
  destruct (findBufLocked s k) as [q|]; [injection En as ->; by rewrite Hlive|].
  rewrite <- !findRuns_latest in En by (by eapply runs_ok_asc).
  destruct (findRuns (fun _ => true) (reverse (runs s)) k) as [q|] eqn:E1.
  - injection En as ->. by rewrite (findRuns_live _ _ p).
  - rewrite findRuns_live_None by done. by rewrite (findRuns_live _ _ p).
Qed.

(** What the maps of a family say of a key. *)
Definition absFind (a : absCf) (k : bytes) : option entry :=
  match hot a !! k with Some e => Some e | None => cold a !! k end.

Definition entryStatus (e : option entry) : KvLookup :=
  match e with None => KvAbsent | Some Tomb => KvDeleted | Some (Live _) => KvValue end.
Definition entryValue (e : option entry) : option bytes :=
  match e with Some (Live v) => Some v | _ => None end.

Lemma absFind_newest cf s a k : refines cf s a → absFind a k = entryOf <$> newest s k.
Proof.
  intros [_ Hh Hc]. unfold absFind, newest. rewrite Hh, Hc. by destruct (latest recKey k (hotLog s)).
Qed.

Lemma newest_ok cf s k p : cf_inv cf s → newest s k = Some p → rec_ok cf p.
Proof.
  intros [Hr Hd Hb _]. unfold newest.
  assert (Forall (rec_ok cf) (hotLog s)) as Hh by (apply Forall_app; split; [by apply runs_ok_recs|done]).
  assert (Forall (rec_ok cf) (coldLog s)) as Hc by (by apply runs_ok_recs).
  rewrite Forall_forall in Hh, Hc.
  destruct (latest recKey k (hotLog s)) eqn:E; [intros [= <-]|intros E2].
  - apply Hh. by apply latest_key in E as [_ ?].
  - apply Hc. by apply latest_key in E2 as [_ ?].
Qed.

Lemma lookupCf_refines cf s a k : refines cf s a → lookupCf s k = entryStatus (absFind a k).
Proof.
  intros Href. rewrite (lookupCf_newest cf) by apply Href. rewrite (absFind_newest cf s) by done.
  destruct (newest s k) as [p|]; [|done]. cbn [fmap option_fmap option_map]. unfold status, entryOf. by destruct (recDeleted p).
Qed.

Lemma valueCf_refines cf s a k :
  (10 ≤ cf)%nat → refines cf s a → valueCf s k = Ok (entryValue (absFind a k)).
Proof.
  intros Hcf Href. rewrite (valueCf_newest cf) by apply Href. rewrite (absFind_newest cf s) by done.
  destruct (newest s k) as [p|] eqn:E; [|done]. cbn [fmap option_fmap option_map].
  destruct (newest_ok cf s k p (ref_inv _ _ _ Href) E) as (d&k'&v&->&?&?).
  unfold entryOf, someValue. rewrite newRec_deleted, newRec_value by done. by destruct d.
Qed.

(** ** The whole table *)

Record mt_refines (mt : MemTable) (ab : list absCf) : Prop := {
  mtr_len : length (families mt) = length ab;
  mtr_cf : ∀ cf s a, families mt !! cf = Some s → ab !! cf = Some a → refines cf s a;
}.

Lemma onCf_refines f g mt ab cf :
  (∀ s a, refines cf s a → refines cf (f cf s).1 (g a)) →
  mt_refines mt ab → (cf < length ab)%nat →
  ∃ mt', onCf f mt cf = Ok mt' ∧ mt_refines mt' (alter g cf ab)
    ∧ (∀ s, families mt !! cf = Some s → families mt' !! cf = Some (f cf s).1)
    ∧ (∀ cf', cf' ≠ cf → families mt' !! cf' = families mt !! cf').
Proof.
  intros Hfg [Hlen Hcf] Hlt. unfold onCf.
  destruct (lookup_lt_is_Some_2 (families mt) cf) as [s Hs]; [lia|]. rewrite Hs.
  destruct (f cf s) as [s' b] eqn:Ef. eexists. split; [done|]. cbn [families]. split_and!.
  - constructor; cbn [families]; [by rewrite length_insert, length_alter|].
    intros cf' s0 a0 Hs0 Ha0. destruct (decide (cf' = cf)) as [->|Hne].
    + rewrite list_lookup_insert_eq in Hs0 by lia. injection Hs0 as <-.
      rewrite list_lookup_alter_eq in Ha0. apply fmap_Some in Ha0 as (a&Ha&->).
      specialize (Hfg s a (Hcf _ _ _ Hs Ha)). by rewrite Ef in Hfg.
    + rewrite list_lookup_insert_ne in Hs0 by done. rewrite list_lookup_alter_ne in Ha0 by done. by apply Hcf.
  - intros s0 [= <-]. rewrite list_lookup_insert_eq by lia. by rewrite Ef.
  - intros cf' Hne. by rewrite list_lookup_insert_ne.
Qed.

Lemma alter_id_list {A} (l : list A) i : alter id i l = l.
Proof. apply list_eq. intros j. destruct (decide (i = j)) as [->|]; [rewrite list_lookup_alter_eq; by destruct (l !! j)|by rewrite list_lookup_alter_ne]. Qed.

Lemma materializeMerge_refines mt ab cf :
  mt_refines mt ab → (cf < length ab)%nat →
  ∃ mt', materializeMerge mt cf = Ok mt' ∧ mt_refines mt' ab
    ∧ (∃ s, families mt' !! cf = Some s ∧ buf s = [])
    ∧ (∀ cf', cf' ≠ cf → families mt' !! cf' = families mt !! cf').
Proof.
  intros Hr Hlt. unfold materializeMerge.
  destruct (onCf_refines materializeCf id mt ab cf) as (mt1&E1&Hr1&Hs1&Ho1);
    [intros s a ?; by apply materializeCf_refines|done..|].
  rewrite alter_id_list in Hr1. unfold materializeLocked. rewrite E1, res_bind_ret.
  destruct (onCf_refines maybeMergeCf id mt1 ab cf) as (mt2&E2&Hr2&Hs2&Ho2);
    [intros s a ?; by apply maybeMergeCf_refines|done..|].
  rewrite alter_id_list in Hr2. exists mt2. split_and!; [done|done| |].
  - destruct (lookup_lt_is_Some_2 (families mt) cf) as [s Hs]; [rewrite (mtr_len _ _ Hr); lia|].
    destruct (lookup_lt_is_Some_2 ab cf) as [a Ha]; [done|].
    eexists. split; [by apply Hs2, Hs1|].
    destruct (materializeCf_refines cf s a) as [Hm Hbuf]; [by apply (mtr_cf mt ab)|].
    destruct (maybeMergeCf_refines cf _ a Hm) as [_ ->]. done.
  - intros cf' Hne. by rewrite Ho2, Ho1.
Qed.

Lemma appendRec_refines mt ab cf d k v :
  mt_refines mt ab → (cf < length ab)%nat →
  Z.of_nat (length k) < 2 ^ 32 → Z.of_nat (length v) < 2 ^ 32 →
  ∃ mt', appendRecLocked mt cf d k v = Ok mt'
    ∧ mt_refines mt' (alter (writeAbs k (writeEntry cf d v)) cf ab).
Proof.
  intros Hr Hlt Hk Hv. unfold appendRecLocked.
  destruct (onCf_refines (appendCf d k v) (writeAbs k (writeEntry cf d v)) mt ab cf) as (mt1&E1&Hr1&_&_);
    [intros s a ?; by apply appendCf_refines|done..|].
  rewrite E1, res_bind_ret. destruct (bufFull mt1 cf); [|by exists mt1].
  destruct (materializeMerge_refines mt1 _ cf Hr1) as (mt2&->&Hr2&_&_); [by rewrite length_alter|]. by exists mt2.
Qed.

Lemma materializeEach_refines cfs mt ab :
  mt_refines mt ab → Forall (fun cf => (cf < length ab)%nat) cfs →
  ∃ mt', materializeEach mt cfs = Ok mt' ∧ mt_refines mt' ab
    ∧ (∀ cf s, cf ∈ cfs → families mt' !! cf = Some s → buf s = [])
    ∧ (∀ cf s, families mt !! cf = Some s → buf s = [] → ∃ s', families mt' !! cf = Some s' ∧ buf s' = []).
Proof.
  revert mt. induction cfs as [|cf cfs IH]; intros mt Hr Hall; cbn [materializeEach].
  { exists mt. split_and!; [done|done|by intros ?? ?%elem_of_nil|eauto]. }
  apply Forall_cons in Hall as [Hlt Hall].
  destruct (materializeMerge_refines mt ab cf Hr Hlt) as (mt1&->&Hr1&(s1&Hs1&Hb1)&Ho1). rewrite res_bind_ret.
  destruct (IH mt1 Hr1 Hall) as (mt2&->&Hr2&Hin&Hkeep). exists mt2. split_and!; [done|done| |].
  - intros cf' s [->|Hin']%elem_of_cons Hs; [|by eapply Hin].
    destruct (Hkeep cf s1 Hs1 Hb1) as (s'&Hs'&Hb'). by simplify_eq.
  - intros cf' s Hs Hb. destruct (decide (cf' = cf)) as [->|Hne]; [by apply (Hkeep cf s1)|].
    rewrite <- Ho1 in Hs by done. by apply (Hkeep cf' s).
Qed.

Lemma map_refines f g mt ab :
  (∀ cf s a, families mt !! cf = Some s → refines cf s a → refines cf (f s) (g a)) →
  mt_refines mt ab → ∀ n, mt_refines {| families := map f (families mt); gen := n |} (map g ab).
Proof.
  intros Hfg [Hlen Hcf] n. constructor; cbn [families]; [by rewrite !length_map|].
  intros cf s a Hs Ha. rewrite list_lookup_fmap in Hs. rewrite list_lookup_fmap in Ha.
  apply fmap_Some in Hs as (s0&Hs0&->). apply fmap_Some in Ha as (a0&Ha0&->). eauto.
Qed.

(** ** Runs of operations *)

Inductive op : Type :=
| OPut (cf : nat) (k : bytes)
| OPutKv (cf : nat) (k v : bytes)
| ODeleteKv (cf : nat) (k : bytes)
| OBatch (entries : list (nat * bytes))
| OEnsureMaterialized (cf : nat)
| OMaybeCapBuf (cf : nat)
| OMaterializeAll
| OSnapshotRuns (cf : nat)
| OFreezeAllCapture
| OPublish
| OClear.

Definition run1 (mt : MemTable) (o : op) : res MemTable :=
  match o with
  | OPut cf k => res_map fst (Put mt cf k)
  | OPutKv cf k v => res_map fst (PutKv mt cf k v)
  | ODeleteKv cf k => DeleteKv mt cf k
  | OBatch es => res_map fst (Batch mt es)
  | OEnsureMaterialized cf => EnsureMaterialized mt cf
  | OMaybeCapBuf cf => MaybeCapBuf mt cf
  | OMaterializeAll => MaterializeAll mt
  | OSnapshotRuns cf => res_map fst (SnapshotRuns mt cf)
  | OFreezeAllCapture => res_map fst (FreezeAllCapture mt)
  | OPublish => Ok (Publish mt)
  | OClear => Ok (Clear mt)
  end.

Fixpoint run (mt : MemTable) (ops : list op) : res MemTable :=
  match ops with
  | [] => Ok mt
  | o :: ops' => mt ← run1 mt o; run mt ops'
  end.

Definition batchAbs (ab : list absCf) (es : list (nat * bytes)) : list absCf :=
  fold_left (fun ab '(cf, k) => alter (writeAbs k (writeEntry cf false [])) cf ab) es ab.

(** The same operation on the maps: writes insert, ladder moves change nothing,
    a freeze makes the live map the draining one, a publish drops that. *)
Definition abs1 (ab : list absCf) (o : op) : list absCf :=
  match o with
  | OPut cf k => alter (writeAbs k (writeEntry cf false [])) cf ab
  | OPutKv cf k v => alter (writeAbs k (writeEntry cf false v)) cf ab
  | ODeleteKv cf k => alter (writeAbs k Tomb) cf ab
  | OBatch es => batchAbs ab es
  | OEnsureMaterialized _ | OMaybeCapBuf _ | OMaterializeAll | OSnapshotRuns _ => ab
  | OFreezeAllCapture => map freezeAbs ab
  | OPublish => map publishAbs ab
  | OClear => map (fun _ => emptyAbs) ab
  end.

Definition key_ok (k : bytes) : Prop := Z.of_nat (length k) < 2 ^ 32.

(** Family in range and lengths that fit the 32-bit fields. *)
Definition op_ok (n : nat) (o : op) : Prop :=
  match o with
  | OPut cf k | ODeleteKv cf k => (cf < n)%nat ∧ key_ok k
  | OPutKv cf k v => (cf < n)%nat ∧ key_ok k ∧ key_ok v
  | OBatch es => Forall (fun e => key_ok e.2) es
  | OEnsureMaterialized cf | OMaybeCapBuf cf | OSnapshotRuns cf => (cf < n)%nat
  | OMaterializeAll | OFreezeAllCapture | OPublish | OClear => True
  end.

Lemma batch_refines es mt ab :
  mt_refines mt ab → Forall (fun e => key_ok e.2) es →
  ∃ mt', batchLoop mt es = Ok mt' ∧ mt_refines mt' (batchAbs ab es).
Proof.
  revert mt ab. induction es as [|[cf k] es IH]; intros mt ab Hr Hall; cbn [batchLoop]; [by exists mt|].
  apply Forall_cons in Hall as [Hk Hall]. unfold batchAbs. cbn [fold_left].
  destruct (Nat.leb_spec (NumCf mt) cf) as [Hge|Hlt]; unfold NumCf in *; rewrite (mtr_len _ _ Hr) in *.
  - replace (alter _ cf ab) with ab; [by apply IH|]. symmetry. apply list_eq. intros i.
    destruct (decide (cf = i)) as [->|]; [|by rewrite list_lookup_alter_ne].
    rewrite list_lookup_alter_eq. by rewrite lookup_ge_None_2.
  - destruct (appendRec_refines mt ab cf false k []) as (mt1&->&Hr1); [done..|].
    rewrite res_bind_ret. by apply IH.
Qed.

Lemma mt_refines_len_abs1 ab o : length (abs1 ab o) = length ab.
Proof.
  destruct o; cbn [abs1]; rewrite ?length_alter, ?length_map; try done.
  unfold batchAbs. revert ab. induction entries as [|[cf k] es IH]; intros ab; cbn [fold_left]; [done|].
  by rewrite IH, length_alter.
Qed.

Lemma MaterializeAll_refines mt ab :
  mt_refines mt ab →
  ∃ mt', MaterializeAll mt = Ok mt' ∧ mt_refines mt' ab ∧ ∀ cf s, families mt' !! cf = Some s → buf s = [].
Proof.
  intros Hr. unfold MaterializeAll, NumCf. rewrite (mtr_len _ _ Hr).
  destruct (materializeEach_refines (seq 0 (length ab)) mt ab Hr) as (mt'&->&Hr'&Hin&_).
  { apply Forall_forall. intros cf Hcf%elem_of_seq. lia. }
  exists mt'. split_and!; [done|done|]. intros cf s Hs. apply (Hin cf s); [|done].
  apply elem_of_seq. apply lookup_lt_Some in Hs. rewrite (mtr_len _ _ Hr') in Hs. lia.
Qed.

Lemma run1_refines mt ab o :
  mt_refines mt ab → op_ok (length ab) o → ∃ mt', run1 mt o = Ok mt' ∧ mt_refines mt' (abs1 ab o).
Proof.
  intros Hr Ho. destruct o; cbn [run1 abs1 op_ok] in *.
  - destruct Ho as [? ?]. destruct (appendRec_refines mt ab cf false k []) as (mt1&E&?); [done..|].
    unfold Put, res_map. rewrite E, !res_bind_ret. by exists mt1.
  - destruct Ho as (?&?&?). destruct (appendRec_refines mt ab cf false k v) as (mt1&E&?); [done..|].
    unfold PutKv, res_map. rewrite E, !res_bind_ret. by exists mt1.
  - destruct Ho as [? ?]. by apply appendRec_refines.
  - destruct (batch_refines entries mt ab Hr Ho) as (mt1&E&?).
    unfold Batch, res_map. rewrite E, !res_bind_ret. by exists mt1.
  - destruct (materializeMerge_refines mt ab cf Hr Ho) as (mt1&?&?&_). by exists mt1.
  - unfold MaybeCapBuf. destruct (lookup_lt_is_Some_2 (families mt) cf) as [s ->]; [by rewrite (mtr_len _ _ Hr)|].
    destruct (_ >=? _); [|by exists mt].
    destruct (materializeMerge_refines mt ab cf Hr Ho) as (mt1&?&?&_). by exists mt1.
  - destruct (MaterializeAll_refines mt ab Hr) as (mt1&?&?&_). by exists mt1.
  - destruct (materializeMerge_refines mt ab cf Hr Ho) as (mt1&E&?&(s&Hs&_)&_).
    unfold SnapshotRuns, res_map. rewrite E, res_bind_ret, Hs, res_bind_ret. by exists mt1.
  - destruct (MaterializeAll_refines mt ab Hr) as (mt1&E&Hr1&Hb).
    unfold FreezeAllCapture, res_map. rewrite E, !res_bind_ret. eexists. split; [done|]. cbn [fst].
    apply map_refines; [|done]. intros cf s a Hs. apply freezeCf_refines. by eapply Hb.
  - eexists. split; [done|]. apply map_refines; [|done]. intros cf s a _. apply publishCf_refines.
  - eexists. split; [done|]. apply map_refines; [|done]. intros cf s a _ _. apply emptyCf_refines.
Qed.

Lemma run_refines ops mt ab :
  mt_refines mt ab → Forall (op_ok (length ab)) ops →
  ∃ mt', run mt ops = Ok mt' ∧ mt_refines mt' (fold_left abs1 ops ab).
Proof.
  revert mt ab. induction ops as [|o ops IH]; intros mt ab Hr Hall; cbn [run fold_left]; [by exists mt|].
  apply Forall_cons in Hall as [Ho Hall]. destruct (run1_refines mt ab o Hr Ho) as (mt1&->&Hr1).
  rewrite res_bind_ret. apply IH; [done|]. by rewrite mt_refines_len_abs1.
Qed.

Lemma New_refines n :
  (0 < n)%nat → ∃ mt, New (Z.of_nat n) = Ok mt ∧ mt_refines mt (replicate n emptyAbs).
Proof.
  intros Hn. unfold New. replace (Z.of_nat n <=? 0) with false by lia. eexists. split; [done|].
  rewrite Nat2Z.id. constructor; cbn [families]; [by rewrite !length_replicate|].
  intros cf s a [-> _]%lookup_replicate [-> _]%lookup_replicate. apply emptyCf_refines.
Qed.

(** ** Drained runs *)

Definition livePair (w : bytes) : option (bytes * bytes) :=
  match entryOf w with Tomb => None | Live v => Some (recKey w, v) end.

Lemma splitDrain_eq cf wins :
  (10 ≤ cf)%nat → Forall (rec_ok cf) wins →
  splitDrain wins = Ok (omap livePair wins, map recKey (filter (fun w => recDeleted w = true) wins)).
Proof.
  intros Hcf. induction 1 as [|w wins (d&k&v&->&Hk&Hv) Hall IH]; [done|]. cbn [splitDrain omap list_omap].
  unfold livePair at 1. rewrite entryOf_newRec by done. unfold writeEntry.
  rewrite (proj2 (Nat.leb_le 10 cf)) by done. rewrite newRec_deleted, newRec_value, filter_cons by done.
  rewrite newRec_deleted. destruct d; rewrite ?res_bind_ret, IH, res_bind_ret; cbv beta iota.
  - by rewrite decide_True.
  - by rewrite decide_False.
Qed.

Lemma livePairs_sublist wins : map fst (omap livePair wins) `sublist_of` map recKey wins.
Proof.
  induction wins as [|w wins IH]; [constructor|]. cbn [omap list_omap map].
  unfold livePair at 1. destruct (entryOf w); cbn [map fst]; [by apply sublist_cons|by apply sublist_skip].
Qed.

Lemma deletedKeys_sublist wins :
  map recKey (filter (fun w => recDeleted w = true) wins) `sublist_of` map recKey wins.
Proof.
  induction wins as [|w wins IH]; [constructor|]. rewrite filter_cons. cbn [map].
  case_decide; cbn [map]; [by apply sublist_skip|by apply sublist_cons].
Qed.

Lemma entryOf_deleted w : recDeleted w = true ↔ entryOf w = Tomb.
Proof. unfold entryOf. by destruct (recDeleted w). Qed.

(** Draining sorted runs splits their newest-wins reading. *)
Lemma DrainKvSorted_spec cf rs :
  (10 ≤ cf)%nat → Forall (run_ok cf) rs →
  ∃ pairs deleted, DrainKvSorted rs = Ok (pairs, deleted)
    ∧ ascending (map fst pairs) ∧ ascending deleted
    ∧ (∀ k v, (k, v) ∈ pairs ↔ entryOf <$> latest recKey k (concat (map Records rs)) = Some (Live v))
    ∧ (∀ k, k ∈ deleted ↔ entryOf <$> latest recKey k (concat (map Records rs)) = Some Tomb).
Proof.
  intros Hcf Hok. destruct (drain_spec recKey (map Records rs)) as [Ha Hl].
  { rewrite Forall_map. by eapply runs_ok_asc. }
  unfold DrainKvSorted. set (wins := drain recKey (map Records rs)) in *. clearbody wins.
  assert (Forall (rec_ok cf) wins) as Hw.
  { apply Forall_forall. intros w Hw. apply (elem_of_latest recKey _ _ Ha) in Hw. rewrite Hl in Hw.
    apply latest_key in Hw as [_ Hin]. pose proof (runs_ok_recs cf rs Hok) as Hrs. rewrite Forall_forall in Hrs. by apply Hrs. }
  rewrite (splitDrain_eq cf) by done. eexists _, _. split; [done|].
  assert (∀ k e, (∃ w, w ∈ wins ∧ recKey w = k ∧ entryOf w = e)
    ↔ entryOf <$> latest recKey k (concat (map Records rs)) = Some e) as Hiff.
  { intros k e. rewrite <- Hl. split.
    - intros (w&Hin&<-&<-). apply (elem_of_latest recKey _ _ Ha) in Hin. by rewrite Hin.
    - intros (w&Hlat&->)%fmap_Some. apply latest_key in Hlat as [<- Hin]. by exists w. }
  split_and!.
  - eapply ascending_sublist; [apply livePairs_sublist|done].
  - eapply ascending_sublist; [apply deletedKeys_sublist|done].
  - intros k v. rewrite <- Hiff, list_elem_of_omap. split; intros (w&Hin&Hx); exists w.
    + revert Hx. unfold livePair. destruct (entryOf w); [done|]. by intros [= -> ->].
    + destruct Hx as [<- Hx]. split; [done|]. unfold livePair. by rewrite Hx.
  - intros k. rewrite <- Hiff, list_elem_of_fmap. split.
    + intros (w&->&Hin). apply list_elem_of_filter in Hin as [Hd Hin]. exists w. by rewrite <- entryOf_deleted.
    + intros (w&Hin&<-&Hd). exists w. split; [done|]. apply list_elem_of_filter. by rewrite entryOf_deleted.
Qed.

Lemma DrainSorted_spec cf rs :
  Forall (run_ok cf) rs →
  ascending (DrainSorted rs)
  ∧ ∀ k, k ∈ DrainSorted rs ↔ is_Some (latest recKey k (concat (map Records rs))).
Proof.
  intros Hok. destruct (drain_spec recKey (map Records rs)) as [Ha Hl].
  { rewrite Forall_map. by eapply runs_ok_asc. }
  split; [done|]. intros k. rewrite <- Hl. unfold DrainSorted.
  destruct (latest recKey k (drain recKey (map Records rs))) as [w|] eqn:E.
  - apply latest_key in E as [<- Hin]. split; [done|]. intros _. by apply list_elem_of_fmap_2.
  - apply latest_None in E. split; [done|by intros []].
Qed.

(** ** Properties *)

(** C4. The table behaves as maps: after any sequence of writes, batches, snapshots,
    freezes, publishes and clears (families in range), no operation panics, and
    [LookupKv] and [GetValue] answer as the last write to the key since the
    freeze before last, whatever was materialized or merged meanwhile. *)
Theorem memtable_refines_maps n ops :
  (0 < n)%nat → Forall (op_ok n) ops →
  ∃ mt0 mt, New (Z.of_nat n) = Ok mt0 ∧ run mt0 ops = Ok mt
    ∧ ∀ cf a k, fold_left abs1 ops (replicate n emptyAbs) !! cf = Some a →
        LookupKv mt cf k = Ok (entryStatus (absFind a k))
        ∧ ((10 ≤ cf)%nat → GetValue mt cf k = Ok (entryValue (absFind a k))).
Proof.
  intros Hn Hops. destruct (New_refines n Hn) as (mt0&E0&Hr0).
  destruct (run_refines ops mt0 (replicate n emptyAbs) Hr0) as (mt&E&Hr); [by rewrite length_replicate|].
  exists mt0, mt. split_and!; [done..|]. intros cf a k Ha.
  destruct (lookup_lt_is_Some_2 (families mt) cf) as [s Hs]; [rewrite (mtr_len _ _ Hr); by eapply lookup_lt_Some|].
  pose proof (mtr_cf _ _ Hr cf s a Hs Ha) as Href. unfold LookupKv, GetValue. rewrite Hs. split.
  - f_equal. by apply (lookupCf_refines cf).
  - intros. by apply (valueCf_refines cf).
Qed.

Definition sampleOps : list op :=
  [OPutKv 10 (bs "k") (bs "v1"); OSnapshotRuns 10; OPutKv 10 (bs "k") (bs "v2");
   OFreezeAllCapture; ODeleteKv 10 (bs "j"); OEnsureMaterialized 10].

Lemma memtable_refines_maps_witness :
  ∃ mt0 mt, New 11 = Ok mt0 ∧ run mt0 sampleOps = Ok mt
    ∧ GetValue mt 10 (bs "k") = Ok (Some (bs "v2")) ∧ LookupKv mt 10 (bs "j") = Ok KvDeleted.
Proof.
  destruct (memtable_refines_maps 11 sampleOps) as (mt0&mt&E0&E&H); [lia| |].
  - unfold sampleOps. repeat (constructor; [cbn [op_ok]; unfold key_ok; cbn [bs length]; repeat split; try lia; by vm_compute|]).
    constructor.
  - exists mt0, mt. split_and!; [done..| |].
    + destruct (H 10%nat _ (bs "k") eq_refl) as [_ Hv]. rewrite Hv by lia. by vm_compute.
    + destruct (H 10%nat _ (bs "j") eq_refl) as [Hl _]. rewrite Hl. by vm_compute.
Defined.

(** A freeze succeeds, makes the live maps the draining ones, and captures their
    runs. *)
Lemma FreezeAllCapture_spec mt ab :
  mt_refines mt ab →
  ∃ mt' captured, FreezeAllCapture mt = Ok (mt', captured) ∧ mt_refines mt' (map freezeAbs ab)
    ∧ length captured = length ab
    ∧ ∀ cf a, ab !! cf = Some a → ∃ rs, captured !! cf = Some rs ∧ Forall (run_ok cf) rs
        ∧ ∀ k, hot a !! k = entryOf <$> latest recKey k (concat (map Records rs)).
Proof.
  intros Hr. destruct (MaterializeAll_refines mt ab Hr) as (mt1&E&Hr1&Hb).
  unfold FreezeAllCapture. rewrite E, res_bind_ret. eexists _, _. split; [done|]. split.
  - apply map_refines; [|done]. intros cf s a Hs. apply freezeCf_refines. by eapply Hb.
  - split; [cbn [families]; rewrite !length_map; apply Hr1|]. intros cf a Ha. cbn [families].
    destruct (lookup_lt_is_Some_2 (families mt1) cf) as [s Hs]; [rewrite (mtr_len _ _ Hr1); by eapply lookup_lt_Some|].
    destruct (mtr_cf _ _ Hr1 cf s a Hs Ha) as [[Hrs _ _ _] Hh _].
    exists (runs s). split; [by rewrite !list_lookup_fmap, Hs|]. split; [done|].
    intros k. rewrite Hh. unfold hotLog. by rewrite (Hb cf s Hs), app_nil_r.
Qed.

(** A freeze captures exactly the live map: draining the captured runs of a
    key-value family gives its live pairs and its tombstones, each in ascending
    key order, and draining a key-only family gives its keys. *)
Theorem freeze_drain_exact mt ab cf a mt' captured :
  mt_refines mt ab → ab !! cf = Some a → FreezeAllCapture mt = Ok (mt', captured) →
  ∃ rs, captured !! cf = Some rs
    ∧ (ascending (DrainSorted rs) ∧ ∀ k, k ∈ DrainSorted rs ↔ is_Some (hot a !! k))
    ∧ ((10 ≤ cf)%nat → ∃ pairs deleted, DrainKvSorted rs = Ok (pairs, deleted)
        ∧ ascending (map fst pairs) ∧ ascending deleted
        ∧ (∀ k v, (k, v) ∈ pairs ↔ hot a !! k = Some (Live v))
        ∧ (∀ k, k ∈ deleted ↔ hot a !! k = Some Tomb)).
Proof.
  intros Hr Ha Hf. destruct (FreezeAllCapture_spec mt ab Hr) as (mt1&cap1&E&_&_&Hcap). rewrite E in Hf. injection Hf as -> ->.
  destruct (Hcap cf a Ha) as (rs&Hrs&Hok&Hhot). exists rs. split; [done|]. split.
  - destruct (DrainSorted_spec cf rs Hok) as [? Hk]. split; [done|]. intros k. rewrite Hk, Hhot. by rewrite fmap_is_Some.
  - intros Hcf. destruct (DrainKvSorted_spec cf rs Hcf Hok) as (pairs&deleted&?&?&?&Hp&Hd).
    exists pairs, deleted. split_and!; [done..| |]; intros; by rewrite Hhot.
Qed.

Lemma freeze_drain_exact_witness :
  ∃ mt0 mt mt' captured rs, New 11 = Ok mt0
    ∧ run mt0 [OPutKv 10 (bs "k") (bs "v1"); ODeleteKv 10 (bs "j")] = Ok mt
    ∧ FreezeAllCapture mt = Ok (mt', captured) ∧ captured !! 10%nat = Some rs
    ∧ ∃ pairs deleted, DrainKvSorted rs = Ok (pairs, deleted)
        ∧ (bs "k", bs "v1") ∈ pairs ∧ bs "j" ∈ deleted.
Proof.
  destruct (New_refines 11) as (mt0&E0&Hr0); [lia|].
  destruct (run_refines [OPutKv 10 (bs "k") (bs "v1"); ODeleteKv 10 (bs "j")] mt0 _ Hr0) as (mt&E&Hr).
  { rewrite length_replicate. repeat constructor; try lia; by vm_compute. }
  destruct (MaterializeAll_refines mt _ Hr) as (mt1&E1&_&_).
  assert (∃ mt' captured, FreezeAllCapture mt = Ok (mt', captured)) as (mt'&captured&Ef).
  { unfold FreezeAllCapture. rewrite E1, res_bind_ret. by eexists _, _. }
  destruct (freeze_drain_exact mt _ 10 _ mt' captured Hr eq_refl Ef) as (rs&Hrs&_&Hkv).
  destruct (Hkv ltac:(lia)) as (pairs&deleted&Hd&_&_&Hp&Hdel).
  exists mt0, mt, mt', captured, rs. split_and!; [done|done|done|done|].
  exists pairs, deleted. split_and!; [done|apply Hp; by vm_compute|apply Hdel; by vm_compute].
Defined.
