(* ===== verification/MinHeap.v ===== *)
(** * The binary heap of the merged cursor (go/internal/cursor/cursor.go)

    [push] sifts up and [pop] sifts down an array ordered by key. *)

From S2P Require Import Prelude Pages.

Record heapEntry : Type := { hkey : bytes; src : nat }.

(** [h.data[i], h.data[j] = h.data[j], h.data[i]]. *)
Definition swap (d : list heapEntry) (i j : nat) : list heapEntry :=
  match d !! i, d !! j with
  | Some a, Some b => <[i := b]> (<[j := a]> d)
  | _, _ => d
  end.

Definition less (d : list heapEntry) (i j : nat) : bool :=
  match d !! i, d !! j with
  | Some a, Some b => CmpSeq (hkey a) (hkey b) <? 0
  | _, _ => false
  end.

(** The index halves at each turn. *)
Fixpoint siftUp (fuel : nat) (d : list heapEntry) (i : nat) : list heapEntry :=
  match fuel with
  | O => d
  | S fuel' =>
      if Nat.ltb 0 i then
        let p := Nat.div2 (i - 1) in
        if less d i p then siftUp fuel' (swap d i p) p else d
      else d
  end.

Definition push (d : list heapEntry) (e : heapEntry) : list heapEntry :=
  let d := d ++ [e] in
  siftUp (length d) d (length d - 1).

(** The index grows at each turn, up to the length. *)
Fixpoint siftDown (fuel : nat) (d : list heapEntry) (i : nat) : list heapEntry :=
  match fuel with
  | O => d
  | S fuel' =>
      let l := (2 * i + 1)%nat in
      if Nat.leb (length d) l then d
      else
        let smallest := if less d l i then l else i in
        let r := (l + 1)%nat in
        let smallest := if Nat.ltb r (length d) && less d r smallest then r else smallest in
        if negb (Nat.eqb smallest i) then siftDown fuel' (swap d i smallest) smallest else d
  end.

(** An empty heap panics. *)
Definition pop (d : list heapEntry) : res (list heapEntry * heapEntry) :=
  match d, last d with
  | result :: _, Some z =>
      let d' := take (length d - 1) (<[0%nat := z]> d) in
      Ok (siftDown (length d') d' 0, result)
  | _, _ => Panic
  end.

(** ** Order *)

Definition child (i c : nat) : Prop := c = (2 * i + 1)%nat ∨ c = (2 * i + 2)%nat.

Definition edge (d : list heapEntry) (i c : nat) : Prop :=
  ∀ a b, d !! i = Some a → d !! c = Some b → hkey a <=b hkey b.

Definition heap_ok (d : list heapEntry) : Prop := ∀ i c, child i c → edge d i c.

Lemma less_spec d i j a b :
  d !! i = Some a → d !! j = Some b → less d i j = bool_decide (hkey a <b hkey b).
Proof. intros Ha Hb. unfold less. by rewrite Ha, Hb, CmpSeq_lt. Qed.

Lemma swap_lookup d i j a b k :
  d !! i = Some a → d !! j = Some b → i ≠ j →
  swap d i j !! k = if decide (k = i) then Some b else if decide (k = j) then Some a else d !! k.
Proof.
  intros Ha Hb Hne. unfold swap. rewrite Ha, Hb.
  pose proof (lookup_lt_Some _ _ _ Ha). pose proof (lookup_lt_Some _ _ _ Hb).
  destruct (decide (k = i)) as [->|]; [by rewrite list_lookup_insert_eq by (rewrite length_insert; lia)|].
  rewrite list_lookup_insert_ne by done.
  destruct (decide (k = j)) as [->|]; [by rewrite list_lookup_insert_eq|]. by rewrite list_lookup_insert_ne.
Qed.

Lemma swap_perm d i j : swap d i j ≡ₚ d.
Proof.
  unfold swap. destruct (d !! i) as [a|] eqn:Ha; [|done]. destruct (d !! j) as [b|] eqn:Hb; [|done].
  by apply Permutation_insert_swap.
Qed.

Lemma length_swap d i j : length (swap d i j) = length d.
Proof. by rewrite swap_perm. Qed.

Lemma child_lt i c : child i c → (i < c)%nat.
Proof. intros [-> | ->]; lia. Qed.

Lemma child_parent i c : (0 < c)%nat → child i c ↔ i = Nat.div2 (c - 1).
Proof.
  intros Hc. pose proof (Nat.div2_odd (c - 1)) as H.
  destruct (Nat.odd (c - 1)); cbn [Nat.b2n] in H; unfold child; lia.
Qed.

(** ** Sift up *)

(** The heap is in order but for the edge into [i]. *)
Record up_ok (d : list heapEntry) (i : nat) : Prop := {
  up_edges : ∀ p c, child p c → c ≠ i → edge d p c;
  up_skip : ∀ p c, child p i → child i c → edge d p c;
}.

Lemma siftUp_step d i p a b :
  up_ok d i → child p i → d !! i = Some a → d !! p = Some b → hkey a <b hkey b → up_ok (swap d i p) p.
Proof.
  intros [He Hs] Hpi Ha Hb Hlt. pose proof (child_lt _ _ Hpi) as Hpi'.
  assert (∀ k, swap d i p !! k = if decide (k = i) then Some b else if decide (k = p) then Some a else d !! k) as Hl
    by (intros k; by apply swap_lookup; [..|lia]).
  constructor.
  - intros q c Hqc Hne x y Hx Hy. pose proof (child_lt _ _ Hqc) as Hqc'. rewrite Hl in Hx, Hy.
    destruct (decide (c = i)) as [->|Hci].
    + assert (q = p) as -> by (apply child_parent in Hqc, Hpi; [congruence|lia..]).
      rewrite decide_False in Hx by lia. rewrite decide_True in Hx by done. simplify_eq. by apply blt_le.
    + rewrite (decide_False (P := c = p)) in Hy by done.
      destruct (decide (q = i)) as [->|Hqi]; [simplify_eq; by eapply (Hs p c)|].
      destruct (decide (q = p)) as [->|Hqp]; [|by eapply (He q c)].
      simplify_eq. etrans; [by apply blt_le|]. by eapply (He p c).
  - intros q c Hqp Hpc x y Hx Hy. pose proof (child_lt _ _ Hqp). pose proof (child_lt _ _ Hpc). rewrite Hl in Hx, Hy.
    rewrite !decide_False in Hx by lia.
    assert (hkey x <=b hkey b) as Hxb by (eapply (He q p); [done|lia|done|done]).
    destruct (decide (c = i)) as [->|Hci]; [by simplify_eq|].
    rewrite decide_False in Hy by lia. etrans; [exact Hxb|]. by eapply (He p c).
Qed.

Lemma siftUp_spec fuel d i :
  (i < fuel)%nat → (i < length d)%nat → up_ok d i → heap_ok (siftUp fuel d i) ∧ siftUp fuel d i ≡ₚ d.
Proof.
  revert d i. induction fuel as [|fuel IH]; intros d i Hf Hi Hu; [lia|]. cbn [siftUp].
  destruct (Nat.ltb_spec 0 i) as [H0|H0].
  - assert (child (Nat.div2 (i - 1)) i) as Hpi by (by apply child_parent). set (p := Nat.div2 (i - 1)) in *.
    pose proof (child_lt _ _ Hpi). destruct (lookup_lt_is_Some_2 d i Hi) as [a Ha].
    destruct (lookup_lt_is_Some_2 d p) as [b Hb]; [lia|]. rewrite (less_spec d i p a b) by done.
    case_bool_decide as Hlt.
    + destruct (IH (swap d i p) p) as [H1 H2]; [lia|rewrite length_swap; lia|by eapply siftUp_step|].
      split; [done|]. by rewrite H2, swap_perm.
    + split; [|done]. intros q c Hqc. destruct (decide (c = i)) as [->|]; [|by apply Hu].
      assert (q = p) as -> by (apply child_parent in Hqc, Hpi; [congruence|lia..]).
      intros x y ??. simplify_eq. by apply ble_not_lt.
  - assert (i = 0%nat) as -> by lia. split; [|done]. intros q c Hqc. apply Hu; [done|]. apply child_lt in Hqc. lia.
Qed.

Lemma push_spec d e : heap_ok d → heap_ok (push d e) ∧ push d e ≡ₚ e :: d.
Proof.
  intros Hd. unfold push. rewrite length_app. cbn [length].
  replace (length d + 1 - 1)%nat with (length d) by lia.
  destruct (siftUp_spec (length d + 1) (d ++ [e]) (length d)) as [H1 H2]; [lia|rewrite length_app; cbn [length]; lia| |].
  - assert (∀ k x, (d ++ [e]) !! k = Some x → k ≠ length d → d !! k = Some x) as Hl.
    { intros k x Hk Hne. apply lookup_app_Some in Hk as [?|[Hge Hk]]; [done|].
      apply list_lookup_singleton_Some in Hk as [? _]. lia. }
    constructor.
    + intros p c Hpc Hne x y Hx Hy. assert (c < length d)%nat.
      { apply lookup_lt_Some in Hy. rewrite length_app in Hy. cbn [length] in Hy. lia. }
      apply (Hd p c Hpc); apply Hl; try done. apply child_lt in Hpc. lia.
    + intros p c _ Hc x y _ Hy. apply child_lt in Hc. apply lookup_lt_Some in Hy. rewrite length_app in Hy.
      cbn [length] in Hy. lia.
  - split; [done|]. rewrite H2. by rewrite Permutation_app_comm.
Qed.

(** ** Sift down *)

(** The heap is in order but for the edges out of [i]. *)
Record down_ok (d : list heapEntry) (i : nat) : Prop := {
  down_edges : ∀ p c, child p c → p ≠ i → edge d p c;
  down_skip : ∀ p c, child p i → child i c → edge d p c;
}.

Lemma siftDown_step d i s a b :
  down_ok d i → child i s → d !! i = Some a → d !! s = Some b → hkey b <b hkey a →
  (∀ c y, child i c → d !! c = Some y → hkey b <=b hkey y) → down_ok (swap d i s) s.
Proof.
  intros [He Hs] His Ha Hb Hlt Hmin. pose proof (child_lt _ _ His) as His'.
  assert (∀ k, swap d i s !! k = if decide (k = i) then Some b else if decide (k = s) then Some a else d !! k) as Hl
    by (intros k; by apply swap_lookup; [..|lia]).
  constructor.
  - intros p c Hpc Hne x y Hx Hy. pose proof (child_lt _ _ Hpc). rewrite Hl in Hx, Hy.
    destruct (decide (p = i)) as [->|Hpi].
    + rewrite decide_False in Hy by lia. destruct (decide (c = s)) as [->|Hcs]; simplify_eq; [by apply blt_le|by eapply Hmin].
    + rewrite decide_False in Hx by done. destruct (decide (c = i)) as [->|Hci]; [simplify_eq; by eapply (Hs p s)|].
      destruct (decide (c = s)) as [->|Hcs]; [|by eapply (He p c)].
      exfalso. apply Hpi. apply child_parent in Hpc, His; [congruence|lia..].
  - intros p c Hps Hsc x y Hx Hy. pose proof (child_lt _ _ Hps). pose proof (child_lt _ _ Hsc).
    assert (p = i) as -> by (apply child_parent in Hps, His; [congruence|lia..]).
    rewrite Hl in Hx, Hy. rewrite decide_True in Hx by done. rewrite !decide_False in Hy by lia. simplify_eq.
    eapply (He s c); [done|lia|done|done].
Qed.

(** The smaller child of [i], or [i] where it is no larger than its children. *)
Lemma smallest_spec d i :
  (2 * i + 1 < length d)%nat →
  let l := (2 * i + 1)%nat in
  let s0 := if less d l i then l else i in
  let s := if Nat.ltb (l + 1) (length d) && less d (l + 1) s0 then (l + 1)%nat else s0 in
  ∃ a b, d !! i = Some a ∧ d !! s = Some b
    ∧ (s = i ∨ child i s ∧ hkey b <b hkey a)
    ∧ ∀ c y, child i c → d !! c = Some y → hkey b <=b hkey y.
Proof.
  intros Hl. cbv zeta. destruct (lookup_lt_is_Some_2 d i) as [a Ha]; [lia|].
  destruct (lookup_lt_is_Some_2 d (2 * i + 1)) as [x Hx]; [done|].
  rewrite (less_spec d _ i x a) by done.
  set (s0 := if bool_decide (hkey x <b hkey a) then (2 * i + 1)%nat else i).
  assert (∃ z, d !! s0 = Some z ∧ hkey z <=b hkey a ∧ hkey z <=b hkey x
    ∧ (s0 = i ∧ z = a ∨ s0 = (2 * i + 1)%nat ∧ hkey z <b hkey a)) as (z&Hz&Hza&Hzx&Hs0).
  { unfold s0. case_bool_decide as Hlt.
    - exists x. split_and!; [done|by apply blt_le|done|by right].
    - exists a. split_and!; [done|done|by apply ble_not_lt|by left]. }
  clearbody s0. destruct (Nat.ltb_spec (2 * i + 1 + 1) (length d)) as [Hr|Hr]; cbn [andb].
  - destruct (lookup_lt_is_Some_2 d (2 * i + 1 + 1) Hr) as [w Hw]. rewrite (less_spec d _ s0 w z) by done.
    case_bool_decide as Hlt.
    + exists a, w. split_and!; [done|done| |].
      * right. split; [right; lia|by eapply blt_le_trans].
      * intros c y [-> | ->] Hy.
        -- rewrite Hx in Hy. simplify_eq. apply blt_le. by eapply blt_le_trans.
        -- replace (2 * i + 2)%nat with (2 * i + 1 + 1)%nat in Hy by lia. rewrite Hw in Hy. by simplify_eq.
    + exists a, z. split_and!; [done|done| |].
      * destruct Hs0 as [[-> _]|[-> ?]]; [by left|right; split; [by left|done]].
      * intros c y [-> | ->] Hy; [by rewrite Hx in Hy; simplify_eq|].
        replace (2 * i + 2)%nat with (2 * i + 1 + 1)%nat in Hy by lia. rewrite Hw in Hy. simplify_eq. by apply ble_not_lt.
  - exists a, z. split_and!; [done|done| |].
    + destruct Hs0 as [[-> _]|[-> ?]]; [by left|right; split; [by left|done]].
    + intros c y [-> | ->] Hy; [by rewrite Hx in Hy; simplify_eq|]. apply lookup_lt_Some in Hy. lia.
Qed.

Lemma siftDown_spec fuel d i :
  (length d - i ≤ fuel)%nat → (i < length d)%nat → down_ok d i →
  heap_ok (siftDown fuel d i) ∧ siftDown fuel d i ≡ₚ d.
Proof.
  revert d i. induction fuel as [|fuel IH]; intros d i Hf Hi Hu; [lia|]. cbn [siftDown].
  destruct (Nat.leb_spec (length d) (2 * i + 1)) as [Hle|Hlt].
  - split; [|done]. intros p c Hpc. destruct (decide (p = i)) as [->|]; [|by apply Hu].
    intros x y _ Hy. apply lookup_lt_Some in Hy. destruct Hpc; lia.
  - destruct (smallest_spec d i Hlt) as (a&b&Ha&Hb&Hs&Hmin). cbv zeta in *.
    set (s := if Nat.ltb _ _ && _ then _ else _) in *. clearbody s.
    destruct (Nat.eqb_spec s i) as [->|Hne]; cbn [negb].
    + split; [|done]. simplify_eq. intros p c Hpc. destruct (decide (p = i)) as [->|]; [|by apply Hu].
      intros x y Hx Hy. simplify_eq. by eapply Hmin.
    + destruct Hs as [?|[Hc Hba]]; [done|]. pose proof (child_lt _ _ Hc). pose proof (lookup_lt_Some _ _ _ Hb).
      destruct (IH (swap d i s) s) as [H1 H2]; [rewrite length_swap; lia|rewrite length_swap; lia|by eapply siftDown_step|].
      split; [done|]. by rewrite H2, swap_perm.
Qed.

(** The root is least. *)
Lemma heap_root d e : heap_ok d → head d = Some e → Forall (fun x => hkey e <=b hkey x) d.
Proof.
  intros Hd He. apply Forall_lookup. intros i. induction i as [i IH] using lt_wf_ind. intros x Hx.
  destruct (decide (i = 0%nat)) as [->|Hne].
  { destruct d; [done|]. cbn in He, Hx. by simplify_eq. }
  assert (child (Nat.div2 (i - 1)) i) as Hc by (apply child_parent; lia). pose proof (child_lt _ _ Hc).
  destruct (lookup_lt_is_Some_2 d (Nat.div2 (i - 1))) as [y Hy]; [apply lookup_lt_Some in Hx; lia|].
  etrans; [apply (IH _ ltac:(done) y Hy)|]. by apply (Hd _ _ Hc).
Qed.

(** [pop] takes a least entry and leaves a heap of the others. *)
Lemma pop_spec d :
  heap_ok d → d ≠ [] →
  ∃ d' e, pop d = Ok (d', e) ∧ heap_ok d' ∧ e :: d' ≡ₚ d ∧ Forall (fun x => hkey e <=b hkey x) d.
Proof.
  intros Hd Hne. destruct d as [|e t]; [done|]. clear Hne.
  pose proof (heap_root (e :: t) e Hd eq_refl) as Hroot.
  destruct t as [|x t] using rev_ind.
  { exists [], e. split_and!; [done|by intros ? ? ? ? ? ?|done|done]. }
  clear IHt. unfold pop. change (e :: t ++ [x]) with ((e :: t) ++ [x]). rewrite last_snoc. cbn [app].
  set (d1 := take _ _).
  assert (d1 = x :: t) as ->.
  { unfold d1. cbn [insert list_insert length]. rewrite length_app. cbn [length].
    replace (S (length t + 1) - 1)%nat with (S (length t)) by lia. cbn [take]. by rewrite take_app_length. }
  assert (down_ok (x :: t) 0) as Hdown.
  { constructor.
    - intros p c Hpc Hp a b Ha Hb. apply (Hd p c Hpc).
      + destruct p; [done|]. cbn in Ha |- *. by apply lookup_app_l_Some.
      + destruct c; [apply child_lt in Hpc; lia|]. cbn in Hb |- *. by apply lookup_app_l_Some.
    - intros p c Hp. apply child_lt in Hp. lia. }
  destruct (siftDown_spec (length (x :: t)) (x :: t) 0) as [H1 H2]; [lia|cbn [length]; lia|done|].
  eexists _, e. split_and!; [done|done| |done]. rewrite H2. constructor. by rewrite Permutation_app_comm.
Qed.

(** ** Properties *)

(** The heap is a priority queue: [push] keeps the heap order and adds the entry,
    [pop] on a non-empty heap never panics, returns an entry of least key, and
    keeps the heap order on exactly the other entries. *)
Theorem min_heap_correct d e :
  heap_ok d →
  (heap_ok (push d e) ∧ push d e ≡ₚ e :: d)
  ∧ (d ≠ [] → ∃ d' x, pop d = Ok (d', x) ∧ heap_ok d' ∧ x :: d' ≡ₚ d
       ∧ Forall (fun y => hkey x <=b hkey y) d).
Proof. intros Hd. split; [by apply push_spec|by apply pop_spec]. Qed.

Lemma min_heap_correct_witness :
  let h := push (push [] {| hkey := [3]; src := 0 |}) {| hkey := [1]; src := 1 |} in
  heap_ok (push h {| hkey := [2]; src := 2 |}) ∧ res_map snd (pop h) = Ok {| hkey := [1]; src := 1 |}.
Proof.
  cbv zeta. split; [|by vm_compute]. apply min_heap_correct, push_spec, push_spec.
  intros ? ? ? ? ? Hx. by rewrite lookup_nil in Hx.
Defined.
