(* ===== verification/Hydrated.v ===== *)
(** * The hydrated set (go/internal/hydrated/hydrated.go)

    A cache of the complete active CF-0 key set of some entities, kept current
    by mirroring every write. Each entry packs its keys in one buffer that is
    edited in place; the edits are proved to be the list operations they stand
    for, and the mirror to be the map update a write means. *)

From S2P Require Import Prelude Pages Keys.

(** Go's [copy(dst[off:], src)]. *)
Definition copyTo (dst : bytes) (off : nat) (src : bytes) : bytes :=
  let n := Nat.min (length dst - off) (length src) in
  take off dst ++ take n src ++ drop (off + n) dst.

Definition zeros (n : nat) : bytes := replicate n 0.

Record entry : Type := { eid : Z; buf : bytes; offs : list Z; ebytes : Z }.

(** [lru] is the linked list between the sentinels, most recent first. *)
Record Set_ : Type := {
  index : gmap Z entry;
  lru : list Z;
  maxBytes : Z;
  curBytes : Z;
  hits : Z;
  misses : Z;
  hydrat : Z;
  rejected : Z;
  evict : Z;
}.

Definition New (max : Z) : Set_ :=
  {| index := ∅; lru := []; maxBytes := max; curBytes := 0;
     hits := 0; misses := 0; hydrat := 0; rejected := 0; evict := 0 |}.

Definition Len (h : Set_) : nat := size (index h).

Definition unlink (e : Z) (l : list Z) : list Z := filter (fun x => x ≠ e) l.
Definition pushFront (e : Z) (l : list Z) : list Z := e :: l.
Definition touch (e : Z) (l : list Z) : list Z := pushFront e (unlink e l).

(** ** Flat-buffer helpers *)

Definition keyStart (e : entry) (i : nat) : nat := Z.to_nat (nth i (offs e) 0).
Definition keyEnd (e : entry) (i : nat) : nat :=
  if Nat.ltb (i + 1) (length (offs e)) then Z.to_nat (nth (i + 1) (offs e) 0) else length (buf e).
Definition keyLenAt (e : entry) (i : nat) : Z := Z.of_nat (keyEnd e i) - Z.of_nat (keyStart e i).

(** The bytes of key [i], as the loops index them. *)
Definition keyBytes (e : entry) (i : nat) : bytes :=
  take (Z.to_nat (keyLenAt e i)) (drop (keyStart e i) (buf e)).

(** The comparison loop over the first [n] bytes of two keys of lengths [la], [lb]. *)
Fixpoint cmpLoop (n : nat) (a b : bytes) (la lb : Z) : Z :=
  match n, a, b with
  | S n', x :: a', y :: b' => if negb (x =? y) then if x <? y then -1 else 1 else cmpLoop n' a' b' la lb
  | _, _, _ => if la <? lb then -1 else if la >? lb then 1 else 0
  end.

Definition cmpFullAt (e : entry) (i : nat) (key : bytes) : Z :=
  let klen := keyLenAt e i in
  cmpLoop (Z.to_nat (Z.min klen (Z.of_nat (length key)))) (keyBytes e i) key klen (Z.of_nat (length key)).

(** Without the eight suffix bytes of each key. *)
Definition cmpPrefixAt (e : entry) (i : nat) (key : bytes) : Z :=
  let alen := keyLenAt e i - 8 in
  let blen := Z.of_nat (length key) - 8 in
  cmpLoop (Z.to_nat (Z.min alen blen)) (keyBytes e i) key alen blen.

Definition findKeyPos (e : entry) (key : bytes) : option nat :=
  let lo := bsearch (fun mid => cmpPrefixAt e mid key <? 0) (length (offs e)) in
  if Nat.ltb lo (length (offs e)) && (cmpPrefixAt e lo key =? 0) then Some lo else None.

(** Adds [delta] to the offsets from position [from] on. *)
Definition shiftOffs (from : nat) (delta : Z) (o : list Z) : list Z :=
  imap (fun j x => if Nat.leb from j then i32 (x + delta) else x) o.

Definition replaceKeyAt (e : entry) (pos : nat) (key : bytes) : entry :=
  let start := keyStart e pos in
  let next := keyEnd e pos in
  let delta := Z.of_nat (length key) - (Z.of_nat next - Z.of_nat start) in
  let '(b, o) :=
    if negb (delta =? 0) then
      let tail := (length (buf e) - next)%nat in
      let b := if delta >? 0 then buf e ++ zeros (Z.to_nat delta) else buf e in
      let b := if Nat.ltb 0 tail then
                 copyTo b (Z.to_nat (Z.of_nat next + delta)) (take tail (drop next b))
               else b in
      let b := if delta <? 0 then take (Z.to_nat (Z.of_nat (length b) + delta)) b else b in
      (b, shiftOffs (pos + 1) delta (offs e))
    else (buf e, offs e) in
  {| eid := eid e; buf := copyTo b start key; offs := o; ebytes := ebytes e |}.

Definition insertKeyAt (e : entry) (idx : nat) (key : bytes) : entry :=
  let ins := if Nat.ltb idx (length (offs e)) then keyStart e idx else length (buf e) in
  let b := buf e ++ zeros (length key) in
  let tail := (length b - ins - length key)%nat in
  let b := if Nat.ltb 0 tail then copyTo b (ins + length key) (take tail (drop ins b)) else b in
  let b := copyTo b ins key in
  let o := take idx (offs e) ++ i32 (Z.of_nat ins) :: drop idx (offs e) in
  {| eid := eid e; buf := b; offs := shiftOffs (idx + 1) (Z.of_nat (length key)) o; ebytes := ebytes e |}.

Definition removeKeyAt (e : entry) (pos : nat) : entry * Z :=
  let start := keyStart e pos in
  let next := keyEnd e pos in
  let oldLen := Z.of_nat next - Z.of_nat start in
  let tail := (length (buf e) - next)%nat in
  let b := if Nat.ltb 0 tail then copyTo (buf e) start (take tail (drop next (buf e))) else buf e in
  let b := take (Z.to_nat (Z.of_nat (length b) - oldLen)) b in
  let o := take pos (offs e) ++ drop (pos + 1) (offs e) in
  ({| eid := eid e; buf := b; offs := shiftOffs pos (- oldLen) o; ebytes := ebytes e |}, oldLen).

(** ** Reads *)

Definition Contains (h : Set_) (eid : Z) : bool := bool_decide (is_Some (index h !! eid)).

Definition Probe (h : Set_) (eid : Z) : Set_ * bool :=
  match index h !! eid with
  | Some _ =>
      ({| index := index h; lru := touch eid (lru h); maxBytes := maxBytes h; curBytes := curBytes h;
          hits := hits h + 1; misses := misses h; hydrat := hydrat h; rejected := rejected h;
          evict := evict h |}, true)
  | None =>
      ({| index := index h; lru := lru h; maxBytes := maxBytes h; curBytes := curBytes h;
          hits := hits h; misses := misses h + 1; hydrat := hydrat h; rejected := rejected h;
          evict := evict h |}, false)
  end.
Definition ProbeComplete (h : Set_) (eid : Z) : Set_ * bool := Probe h eid.

Definition EntryBytes (h : Set_) (eid : Z) : Z :=
  match index h !! eid with Some e => ebytes e | None => 0 end.
Definition KeyCount (h : Set_) (eid : Z) : nat :=
  match index h !! eid with Some e => length (offs e) | None => 0 end.

(** Both callers check the length first. *)
Definition beUint64 (b : bytes) (off : nat) : Z := be_get (take 8 (drop off b)).
Definition decodeEID (x : Z) : Z := i64 (Z.lxor x (2 ^ 63)).

Definition cmpAttrAt (e : entry) (i : nat) (pfx : bytes) : Z :=
  let klen := keyLenAt e i in
  let n := if 12 <? klen then 12 else klen in
  cmpLoop (Z.to_nat n) (keyBytes e i) pfx (if klen <? 12 then 0 else 1) 1.

Definition attrPrefix (eid aid : Z) : bytes :=
  let ex := Z.lxor (u64 eid) (2 ^ 63) in
  [u8 (Z.shiftr ex 56); u8 (Z.shiftr ex 48); u8 (Z.shiftr ex 40); u8 (Z.shiftr ex 32);
   u8 (Z.shiftr ex 24); u8 (Z.shiftr ex 16); u8 (Z.shiftr ex 8); u8 ex;
   u8 (Z.shiftr aid 24); u8 (Z.shiftr aid 16); u8 (Z.shiftr aid 8); u8 aid].

Definition HasAttrKey (h : Set_) (eid aid : Z) : bool :=
  match index h !! eid with
  | None => false
  | Some e =>
      let pfx := attrPrefix eid aid in
      let lo := bsearch (fun mid => cmpAttrAt e mid pfx <? 0) (length (offs e)) in
      Nat.ltb lo (length (offs e)) && (cmpAttrAt e lo pfx =? 0)
  end.

(** The keys from position [i] on, up to the first without the prefix. *)
Fixpoint collect (e : entry) (prefix : bytes) (n i : nat) : list bytes :=
  match n with
  | O => []
  | S n' =>
      if keyLenAt e i <? Z.of_nat (length prefix) then []
      else if negb (has_prefix (keyBytes e i) prefix) then []
      else keyBytes e i :: collect e prefix n' (S i)
  end.

Definition LookupRange (h : Set_) (eid : Z) (prefix : bytes) : list bytes :=
  match index h !! eid with
  | None => []
  | Some e =>
      let lo := bsearch (fun mid => cmpFullAt e mid prefix <? 0) (length (offs e)) in
      collect e prefix (length (offs e) - lo) lo
  end.

Definition KeysFrom (h : Set_) (eid : Z) (target : bytes) : list bytes :=
  match index h !! eid with
  | None => []
  | Some e =>
      let lo := bsearch (fun mid => cmpFullAt e mid target <? 0) (length (offs e)) in
      map (keyBytes e) (seq lo (length (offs e) - lo))
  end.

(** ** Writes *)

Definition addBytes (e : entry) (delta : Z) : entry :=
  {| eid := eid e; buf := buf e; offs := offs e; ebytes := ebytes e + delta |}.

Definition setEntry (h : Set_) (id : Z) (e : entry) (delta : Z) : Set_ :=
  {| index := <[id := addBytes e delta]> (index h); lru := lru h; maxBytes := maxBytes h;
     curBytes := curBytes h + delta; hits := hits h; misses := misses h; hydrat := hydrat h;
     rejected := rejected h; evict := evict h |}.

(** The scan back from the end for the insertion point. *)
Fixpoint insertIdx (e : entry) (key : bytes) (idx : nat) : nat :=
  match idx with
  | O => 0
  | S i => if cmpFullAt e i key >? 0 then insertIdx e key i else idx
  end.

Definition ApplyKey (h : Set_) (key : bytes) : Set_ :=
  let klen := length key in
  if Nat.ltb klen 20 then h
  else if Nat.eqb (size (index h)) 0 then h
  else
    let id := decodeEID (beUint64 key 0) in
    match index h !! id with
    | None => h
    | Some e =>
        let sf := beUint64 key (klen - 8) in
        if Z.land sf 1 =? 0 then
          match findKeyPos e key with
          | Some pos =>
              let delta := Z.of_nat klen - keyLenAt e pos in
              setEntry h id (replaceKeyAt e pos key) delta
          | None =>
              let idx := insertIdx e key (length (offs e)) in
              setEntry h id (insertKeyAt e idx key) (Z.of_nat klen)
          end
        else
          match findKeyPos e key with
          | Some pos => let '(e', oldLen) := removeKeyAt e pos in setEntry h id e' (- oldLen)
          | None => h
          end
    end.

(** ** Insertion and eviction *)

Definition drop_ (h : Set_) (id : Z) (e : entry) : Set_ :=
  {| index := delete id (index h); lru := unlink id (lru h); maxBytes := maxBytes h;
     curBytes := curBytes h - ebytes e; hits := hits h; misses := misses h; hydrat := hydrat h;
     rejected := rejected h; evict := evict h |}.

Definition countEvict (h : Set_) : Set_ :=
  {| index := index h; lru := lru h; maxBytes := maxBytes h; curBytes := curBytes h;
     hits := hits h; misses := misses h; hydrat := hydrat h; rejected := rejected h;
     evict := evict h + 1 |}.

(** Every turn drops the list's last entity, so its length bounds the loop. *)
Fixpoint evictLoop (fuel : nat) (h : Set_) (incoming : Z) : Set_ :=
  match fuel with
  | O => h
  | S fuel' =>
      if (curBytes h + incoming >? maxBytes h) && negb (Nat.eqb (size (index h)) 0) then
        match last (lru h) with
        | None => h
        | Some victim =>
            match index h !! victim with
            | None => h
            | Some e => evictLoop fuel' (countEvict (drop_ h victim e)) incoming
            end
        end
      else h
  end.
Definition evictLruUntilFits (h : Set_) (incoming : Z) : Set_ := evictLoop (length (lru h)) h incoming.

Definition withLru (h : Set_) (l : list Z) : Set_ :=
  {| index := index h; lru := l; maxBytes := maxBytes h; curBytes := curBytes h;
     hits := hits h; misses := misses h; hydrat := hydrat h; rejected := rejected h; evict := evict h |}.

Definition addEntry (h : Set_) (id : Z) (e : entry) : Set_ :=
  {| index := <[id := e]> (index h); lru := pushFront id (lru h); maxBytes := maxBytes h;
     curBytes := curBytes h + ebytes e; hits := hits h; misses := misses h;
     hydrat := hydrat h; rejected := rejected h; evict := evict h |}.

Definition HydrateEmpty (h : Set_) (id : Z) : Set_ :=
  match index h !! id with
  | Some _ => withLru h (touch id (lru h))
  | None => addEntry h id {| eid := id; buf := []; offs := []; ebytes := 0 |}
  end.

Definition pack (keys : list bytes) : bytes * list Z :=
  fold_left (fun '(b, o) k => (b ++ k, o ++ [i32 (Z.of_nat (length b))])) keys ([], []).

Definition Hydrate (h : Set_) (id : Z) (keys : list bytes) : Set_ :=
  match index h !! id with
  | Some _ => withLru h (touch id (lru h))
  | None =>
      let total := sumLen keyLen keys in
      if total >? maxBytes h then
        {| index := index h; lru := lru h; maxBytes := maxBytes h; curBytes := curBytes h;
           hits := hits h; misses := misses h; hydrat := hydrat h; rejected := rejected h + 1;
           evict := evict h |}
      else
        let h := evictLruUntilFits h total in
        let h := addEntry h id {| eid := id; buf := (pack keys).1; offs := (pack keys).2; ebytes := total |} in
        {| index := index h; lru := lru h; maxBytes := maxBytes h; curBytes := curBytes h;
           hits := hits h; misses := misses h; hydrat := hydrat h + 1; rejected := rejected h;
           evict := evict h |}
  end.

Definition Evict (h : Set_) (id : Z) : Set_ :=
  match index h !! id with Some e => drop_ h id e | None => h end.

Definition Clear (h : Set_) : Set_ :=
  {| index := ∅; lru := []; maxBytes := maxBytes h; curBytes := 0;
     hits := hits h; misses := misses h; hydrat := hydrat h; rejected := rejected h; evict := evict h |}.

(** ** Packed entries *)

(** The start of each key in the concatenation. *)
Fixpoint starts (from : nat) (ks : list bytes) : list Z :=
  match ks with
  | [] => []
  | k :: ks' => Z.of_nat from :: starts (from + length k) ks'
  end.

Record packed (e : entry) (ks : list bytes) : Prop := {
  packed_buf : buf e = concat ks;
  packed_offs : offs e = starts 0 ks;
}.

(** Small enough for the 32-bit offsets. *)
Definition fits (ks : list bytes) : Prop := Z.of_nat (length (concat ks)) < 2 ^ 31.

Lemma length_starts from ks : length (starts from ks) = length ks.
Proof. revert from. induction ks as [|k ks IH]; intros; cbn [starts length]; [done|]. by rewrite IH. Qed.

Lemma starts_app from a b : starts from (a ++ b) = starts from a ++ starts (from + length (concat a)) b.
Proof.
  revert from. induction a as [|k a IH]; intros from; cbn [app starts concat]; [by rewrite Nat.add_0_r|].
  rewrite IH, length_app. do 3 f_equal. lia.
Qed.

Lemma starts_shift from d ks : starts (from + d) ks = map (fun x => x + Z.of_nat d) (starts from ks).
Proof.
  revert from. induction ks as [|k ks IH]; intros from; cbn [starts map]; [done|].
  f_equal; [lia|]. rewrite <- IH. f_equal. lia.
Qed.

Lemma starts_nth ks i : (i < length ks)%nat → nth i (starts 0 ks) 0 = Z.of_nat (length (concat (take i ks))).
Proof.
  intros Hi. rewrite <- (take_drop i ks) at 1. rewrite starts_app.
  rewrite app_nth2 by (rewrite length_starts, length_take; lia).
  rewrite length_starts, length_take, Nat.min_l, Nat.sub_diag by lia.
  destruct (drop i ks) as [|k t] eqn:E; [apply (f_equal length) in E; rewrite length_drop in E; cbn [length] in E; lia|].
  done.
Qed.

Lemma packed_len e ks : packed e ks → length (offs e) = length ks.
Proof. intros [_ ->]. apply length_starts. Qed.

Lemma packed_start e ks i : packed e ks → (i < length ks)%nat → keyStart e i = length (concat (take i ks)).
Proof. intros Hp Hi. unfold keyStart. rewrite (packed_offs _ _ Hp), starts_nth by done. lia. Qed.

Lemma packed_end e ks i : packed e ks → (i < length ks)%nat → keyEnd e i = length (concat (take (S i) ks)).
Proof.
  intros Hp Hi. unfold keyEnd. rewrite (packed_len e ks) by done.
  destruct (Nat.ltb_spec (i + 1) (length ks)).
  - rewrite (packed_offs _ _ Hp), starts_nth by lia. replace (i + 1)%nat with (S i) by lia. lia.
  - rewrite (packed_buf _ _ Hp), take_ge by lia. done.
Qed.

Lemma concat_take_S {A} (ks : list (list A)) i k :
  ks !! i = Some k → concat (take (S i) ks) = concat (take i ks) ++ k.
Proof. intros Hk. rewrite (take_S_r _ _ k), concat_app by done. cbn [concat]. by rewrite app_nil_r. Qed.

Lemma packed_key e ks i k :
  packed e ks → ks !! i = Some k → keyLenAt e i = Z.of_nat (length k) ∧ keyBytes e i = k.
Proof.
  intros Hp Hk. pose proof (lookup_lt_Some _ _ _ Hk) as Hi.
  assert (keyLenAt e i = Z.of_nat (length k)) as Hl.
  { unfold keyLenAt. rewrite (packed_start e ks), (packed_end e ks), (concat_take_S _ _ k), length_app by done. lia. }
  split; [done|]. unfold keyBytes. rewrite Hl, Nat2Z.id, (packed_start e ks), (packed_buf _ _ Hp) by done.
  rewrite <- (take_drop_middle ks i k Hk) at 2. rewrite concat_app. cbn [concat].
  by rewrite drop_app_length, take_app_length.
Qed.

(** ** Edits in place *)

Lemma copyTo_mid a m b src :
  length m = length src → copyTo (a ++ m ++ b) (length a) src = a ++ src ++ b.
Proof.
  intros Hl. unfold copyTo. rewrite !length_app.
  replace (Nat.min _ _) with (length src) by lia.
  rewrite take_app_length, firstn_all. do 2 f_equal.
  rewrite <- drop_drop, drop_app_length, <- Hl. apply drop_app_length.
Qed.

Lemma take_app_exact {A} n (a b : list A) : length a = n → take n (a ++ b) = a.
Proof. intros <-. apply take_app_length. Qed.

Lemma drop_app_exact {A} n (a b : list A) : length a = n → drop n (a ++ b) = b.
Proof. intros <-. apply drop_app_length. Qed.

(** Moving the tail [q] of a buffer to make room for [k] in place of [o]. *)
Lemma splice_buf (p o q k : bytes) (delta : Z) :
  delta = Z.of_nat (length k) - Z.of_nat (length o) → delta ≠ 0 →
  let b := p ++ o ++ q in
  let next := (length p + length o)%nat in
  let b1 := if delta >? 0 then b ++ zeros (Z.to_nat delta) else b in
  let b2 := if Nat.ltb 0 (length b - next) then
              copyTo b1 (Z.to_nat (Z.of_nat next + delta)) (take (length b - next) (drop next b1))
            else b1 in
  let b3 := if delta <? 0 then take (Z.to_nat (Z.of_nat (length b2) + delta)) b2 else b2 in
  ∃ m, length m = length k ∧ b3 = p ++ m ++ q.
Proof.
  intros Hd Hne. cbv zeta. rewrite !length_app.
  replace (length p + (length o + length q) - (length p + length o))%nat with (length q) by lia.
  replace (Z.to_nat (Z.of_nat (length p + length o) + delta)) with (length p + length k)%nat by lia.
  assert (∀ z : bytes, drop (length p + length o) ((p ++ o ++ q) ++ z) = q ++ z) as Hdrop.
  { intros z. rewrite <- app_assoc, <- app_assoc, app_assoc. apply drop_app_exact. by rewrite length_app. }
  destruct (Z.gtb_spec delta 0) as [Hpos|Hneg].
  - replace (delta <? 0) with false by lia. set (z := zeros (Z.to_nat delta)).
    assert (length z = Z.to_nat delta) as Hz by apply length_replicate.
    destruct (Nat.ltb_spec 0 (length q)) as [Hq|Hq].
    + rewrite Hdrop, take_app_length. set (w := (p ++ o ++ q) ++ z).
      assert (length w = (length p + length k + length q)%nat) as Hw by (unfold w; rewrite !length_app; lia).
      exists (take (length k) (drop (length p) w)). split; [rewrite length_take, length_drop; lia|].
      assert (take (length p + length k) w = p ++ take (length k) (drop (length p) w)) as Ht.
      { unfold w. rewrite <- app_assoc. rewrite drop_app_length. by rewrite take_app_add. }
      rewrite <- (take_drop (length p + length k) w) at 1. rewrite <- (app_nil_r (drop _ w)).
      replace (length p + length k)%nat with (length (take (length p + length k) w)) at 3
        by (rewrite length_take; lia).
      rewrite copyTo_mid by (rewrite length_drop; lia). by rewrite app_nil_r, Ht, <- app_assoc.
    + destruct q; [|cbn [length] in Hq; lia]. exists (o ++ z). rewrite !app_nil_r. split; [rewrite length_app; lia|].
      by rewrite <- app_assoc.
  - replace (delta <? 0) with true by lia.
    assert (drop (length p + length o) (p ++ o ++ q) = q) as Hdq by (pose proof (Hdrop []) as H; by rewrite !app_nil_r in H).
    destruct (Nat.ltb_spec 0 (length q)) as [Hq|Hq].
    + rewrite Hdq, firstn_all.
      exists (take (length k) o). split; [rewrite length_take; lia|].
      assert (∃ x rest, drop (length k) o ++ q = x ++ rest ∧ length x = length q) as (x&rest&Hx&Hxl).
      { exists (take (length q) (drop (length k) o ++ q)), (drop (length q) (drop (length k) o ++ q)).
        split; [by rewrite take_drop|]. rewrite length_take, length_app. lia. }
      assert (length rest = (length o - length k)%nat) as Hrest.
      { apply (f_equal length) in Hx. rewrite !length_app, length_drop in Hx. lia. }
      assert (copyTo (p ++ o ++ q) (length p + length k) q = (p ++ take (length k) o ++ q) ++ rest) as ->.
      { replace (p ++ o ++ q) with ((p ++ take (length k) o) ++ x ++ rest).
        2:{ rewrite <- Hx, <- app_assoc. f_equal. by rewrite app_assoc, take_drop. }
        replace (length p + length k)%nat with (length (p ++ take (length k) o))
          by (rewrite length_app, length_take; lia).
        rewrite copyTo_mid by done. by rewrite <- !app_assoc. }
      apply take_app_exact. rewrite !length_app, length_take. lia.
    + destruct q; [|cbn [length] in Hq; lia]. rewrite !app_nil_r. exists (take (length k) o).
      split; [rewrite length_take; lia|]. rewrite length_app.
      replace (Z.to_nat _) with (length p + length k)%nat by lia. by rewrite take_app_add, app_nil_r.
Qed.

Lemma shiftOffs_app a b n d :
  n = length a → shiftOffs n d (a ++ b) = a ++ map (fun x => i32 (x + d)) b.
Proof.
  intros ->. unfold shiftOffs. rewrite imap_app. f_equal.
  - rewrite <- (imap_ext (fun _ x => x)).
    + clear. induction a as [|x a IH]; [done|]. cbn [imap]. by f_equal.
    + intros i x Hi. apply lookup_lt_Some in Hi. by rewrite (proj2 (Nat.leb_gt _ _)).
  - rewrite <- (imap_ext (fun _ x => i32 (x + d))).
    + clear. induction b as [|x b IH]; [done|]. cbn [imap map]. by f_equal.
    + intros i x Hi. rewrite (proj2 (Nat.leb_le _ _)) by lia. done.
Qed.

(** Offsets below 2 GB shift without wrapping. *)
Lemma shift_starts from from' ks d :
  Z.of_nat from' = Z.of_nat from + d → Z.of_nat (from' + length (concat ks)) < 2 ^ 31 →
  map (fun x => i32 (x + d)) (starts from ks) = starts from' ks.
Proof.
  revert from from'. induction ks as [|k ks IH]; intros from from' Hd Hsz; cbn [starts map]; [done|].
  cbn [concat] in Hsz. rewrite length_app in Hsz. f_equal.
  - unfold i32. rewrite Z.mod_small; lia.
  - apply IH; lia.
Qed.

Section edits.
Context (e : entry) (pre post : list bytes) (old key : bytes).
Context (Hp : packed e (pre ++ old :: post)).

#[local] Lemma mid_lookup : (pre ++ old :: post) !! length pre = Some old.
Proof. by apply list_lookup_middle. Qed.

#[local] Lemma mid_start : keyStart e (length pre) = length (concat pre).
Proof.
  rewrite (packed_start e _ _ Hp) by (rewrite length_app; cbn [length]; lia). by rewrite take_app_length.
Qed.

#[local] Lemma mid_end : keyEnd e (length pre) = (length (concat pre) + length old)%nat.
Proof.
  rewrite (packed_end e _ _ Hp) by (rewrite length_app; cbn [length]; lia).
  rewrite (concat_take_S _ _ old mid_lookup), length_app, take_app_length. done.
Qed.

#[local] Lemma mid_buf : buf e = concat pre ++ old ++ concat post.
Proof. rewrite (packed_buf _ _ Hp), concat_app. done. Qed.

#[local] Lemma mid_offs :
  offs e = starts 0 pre ++ Z.of_nat (length (concat pre)) :: starts (length (concat pre) + length old) post.
Proof. rewrite (packed_offs _ _ Hp), starts_app. done. Qed.

Lemma replaceKeyAt_packed :
  fits (pre ++ key :: post) → packed (replaceKeyAt e (length pre) key) (pre ++ key :: post).
Proof.
  intros Hfits. unfold replaceKeyAt. rewrite mid_start, mid_end, mid_buf.
  replace (Z.of_nat (length key) - (Z.of_nat (length (concat pre) + length old) - Z.of_nat (length (concat pre))))
    with (Z.of_nat (length key) - Z.of_nat (length old)) by lia.
  set (delta := Z.of_nat (length key) - Z.of_nat (length old)).
  unfold fits in Hfits. rewrite concat_app in Hfits. cbn [concat] in Hfits. rewrite !length_app in Hfits.
  destruct (Z.eqb_spec delta 0) as [Hz|Hne]; cbn [negb].
  - constructor; cbn [buf offs].
    + rewrite copyTo_mid by lia. by rewrite concat_app.
    + rewrite mid_offs, starts_app. cbn [starts]. do 3 f_equal. lia.
  - destruct (splice_buf (concat pre) old (concat post) key delta eq_refl Hne) as (mid&Hm&Hb).
    cbv zeta in Hb. constructor; cbn [buf offs].
    + cbv zeta. rewrite Hb, copyTo_mid by done. by rewrite concat_app.
    + rewrite mid_offs. change (?a ++ ?x :: ?b) with (a ++ [x] ++ b) at 1. rewrite app_assoc.
      rewrite shiftOffs_app by (rewrite length_app, length_starts; cbn [length]; lia).
      rewrite (shift_starts _ (length (concat pre) + length key)) by lia.
      rewrite starts_app. cbn [starts]. by rewrite <- app_assoc.
Qed.
End edits.

Lemma insertKeyAt_packed e pre post key :
  packed e (pre ++ post) → key ≠ [] → fits (pre ++ key :: post) →
  packed (insertKeyAt e (length pre) key) (pre ++ key :: post).
Proof.
  intros Hp Hkey Hfits. unfold insertKeyAt.
  assert ((if Nat.ltb (length pre) (length (offs e)) then keyStart e (length pre) else length (buf e))
    = length (concat pre)) as ->.
  { rewrite (packed_len e _ Hp), length_app. destruct (Nat.ltb_spec (length pre) (length pre + length post)).
    - rewrite (packed_start e _ _ Hp) by (rewrite length_app; lia). by rewrite take_app_length.
    - destruct post; [|cbn [length] in *; lia]. by rewrite (packed_buf _ _ Hp), app_nil_r. }
  rewrite (packed_buf _ _ Hp), concat_app.
  assert (length key ≠ 0)%nat as Hk0 by (by destruct key).
  unfold fits in Hfits. rewrite concat_app in Hfits. cbn [concat] in Hfits. rewrite !length_app in Hfits.
  constructor; cbn [buf offs].
  - destruct (splice_buf (concat pre) [] (concat post) key (Z.of_nat (length key))) as (mid&Hm&Hb);
      [cbn [length]; lia|lia|]. cbv zeta in Hb. cbn [app length] in Hb. rewrite Nat.add_0_r in Hb.
    replace (Z.of_nat (length key) >? 0) with true in Hb by lia.
    replace (Z.of_nat (length key) <? 0) with false in Hb by lia. rewrite Nat2Z.id in Hb.
    replace (Z.to_nat (Z.of_nat (length (concat pre)) + Z.of_nat (length key)))
      with (length (concat pre) + length key)%nat in Hb by lia.
    replace (length ((concat pre ++ concat post) ++ zeros (length key)) - length (concat pre) - length key)%nat
      with (length (concat pre ++ concat post) - length (concat pre))%nat
      by (rewrite !length_app; unfold zeros; rewrite length_replicate; lia).
    rewrite Hb, copyTo_mid by done. by rewrite concat_app.
  - rewrite (packed_offs _ _ Hp), starts_app.
    rewrite take_app_exact, drop_app_exact by apply length_starts.
    change (?a ++ ?x :: ?b) with (a ++ [x] ++ b). rewrite app_assoc.
    rewrite shiftOffs_app by (rewrite length_app, length_starts; cbn [length]; lia).
    cbn [Nat.add]. rewrite (shift_starts _ (length (concat pre) + length key)) by lia.
    rewrite starts_app. cbn [starts Nat.add]. rewrite <- app_assoc. cbn [app].
    replace (i32 (Z.of_nat (length (concat pre)))) with (Z.of_nat (length (concat pre))); [done|].
    unfold i32. rewrite Z.mod_small; lia.
Qed.

Lemma removeKeyAt_packed e pre old post :
  packed e (pre ++ old :: post) → old ≠ [] → fits (pre ++ post) →
  packed (removeKeyAt e (length pre)).1 (pre ++ post)
  ∧ (removeKeyAt e (length pre)).2 = Z.of_nat (length old).
Proof.
  intros Hp Hold Hfits. unfold removeKeyAt.
  rewrite (mid_start e pre post old Hp), (mid_end e pre post old Hp), (mid_buf e pre post old Hp). cbn [fst snd].
  assert (length old ≠ 0)%nat as Hk0 by (by destruct old).
  unfold fits in Hfits. rewrite concat_app, length_app in Hfits.
  replace (Z.of_nat (length (concat pre) + length old) - Z.of_nat (length (concat pre)))
    with (Z.of_nat (length old)) by lia.
  split; [|done]. constructor; cbn [buf offs].
  - destruct (splice_buf (concat pre) old (concat post) [] (- Z.of_nat (length old))) as (mid&Hm&Hb);
      [cbn [length]; lia|lia|]. cbv zeta in Hb. destruct mid; [|done]. cbn [app] in Hb.
    replace (- Z.of_nat (length old) >? 0) with false in Hb by lia.
    replace (- Z.of_nat (length old) <? 0) with true in Hb by lia.
    replace (Z.to_nat (Z.of_nat (length (concat pre) + length old) + - Z.of_nat (length old)))
      with (length (concat pre)) in Hb by lia.
    rewrite Z.add_opp_r in Hb. rewrite Hb. by rewrite concat_app.
  - rewrite (mid_offs e pre post old Hp). rewrite take_app_exact by apply length_starts.
    rewrite <- drop_drop, drop_app_exact by apply length_starts. cbn [drop]. rewrite drop_0.
    rewrite shiftOffs_app by (by rewrite length_starts).
    rewrite (shift_starts _ (length (concat pre))) by lia. by rewrite starts_app.
Qed.

(** ** Comparisons and searches *)

Lemma cmpLoop_CmpSeq a b x y :
  cmpLoop (Nat.min (length a) (length b)) (a ++ x) (b ++ y) (Z.of_nat (length a)) (Z.of_nat (length b))
  = CmpSeq a b.
Proof.
  assert (∀ n, cmpLoop (Nat.min (length a) (length b)) (a ++ x) (b ++ y)
    (n + Z.of_nat (length a)) (n + Z.of_nat (length b)) = CmpSeq a b) as H; [|apply (H 0)].
  revert b. induction a as [|c a IH]; intros [|d b] n; cbn [length Nat.min cmpLoop app CmpSeq].
  - destruct x as [|? x], y as [|? y]; cbn [cmpLoop]; by rewrite Z.ltb_irrefl, Z.gtb_ltb, Z.ltb_irrefl.
  - destruct x; cbn [cmpLoop]; by rewrite (proj2 (Z.ltb_lt _ _)) by lia.
  - destruct y; cbn [cmpLoop]; rewrite (proj2 (Z.ltb_ge _ _)) by lia; by rewrite Z.gtb_ltb, (proj2 (Z.ltb_lt _ _)) by lia.
  - specialize (IH b (n + 1)).
    replace (n + Z.of_nat (S (length a))) with (n + 1 + Z.of_nat (length a)) by lia.
    replace (n + Z.of_nat (S (length b))) with (n + 1 + Z.of_nat (length b)) by lia. rewrite IH.
    destruct (Z.eqb_spec c d), (Z.ltb_spec c d), (Z.gtb_spec c d); cbn [negb]; try done; lia.
Qed.

(** A key without its eight suffix bytes. *)
Definition pfx (k : bytes) : bytes := take (length k - 8) k.

Lemma length_pfx k : length (pfx k) = (length k - 8)%nat.
Proof. unfold pfx. rewrite length_take. lia. Qed.

Lemma cmpFullAt_spec e ks i k key :
  packed e ks → ks !! i = Some k → cmpFullAt e i key = CmpSeq k key.
Proof.
  intros Hp Hk. destruct (packed_key e ks i k Hp Hk) as [Hl Hb]. unfold cmpFullAt. rewrite Hl, Hb.
  rewrite <- (cmpLoop_CmpSeq k key [] []), !app_nil_r. f_equal. lia.
Qed.

Lemma cmpPrefixAt_spec e ks i k key :
  packed e ks → ks !! i = Some k → (8 ≤ length k)%nat → (8 ≤ length key)%nat →
  cmpPrefixAt e i key = CmpSeq (pfx k) (pfx key).
Proof.
  intros Hp Hk Hk8 Hkey8. destruct (packed_key e ks i k Hp Hk) as [Hl Hb]. unfold cmpPrefixAt. rewrite Hl, Hb.
  rewrite <- (cmpLoop_CmpSeq (pfx k) (pfx key) (drop (length k - 8) k) (drop (length key - 8) key)).
  rewrite !length_pfx. unfold pfx. rewrite !take_drop. f_equal; lia.
Qed.

(** Neither logical key extends the other. *)
Definition pfree (a b : bytes) : Prop := has_prefix (pfx b) (pfx a) = true → pfx a = pfx b.

Lemma bcmp_prefix_free a b x y :
  a ≠ b → (has_prefix b a = true → a = b) → (has_prefix a b = true → b = a) →
  bcmp (a ++ x) (b ++ y) = bcmp a b.
Proof.
  revert b. induction a as [|c a IH]; intros [|d b] Hne H1 H2.
  - done.
  - by specialize (H1 eq_refl).
  - by specialize (H2 eq_refl).
  - cbn [app bcmp]. destruct (Z.compare_spec c d) as [->|?|?]; try done. apply IH.
    + congruence.
    + intros [s ->]%has_prefix_spec. enough (d :: a = d :: a ++ s) as [= ?] by done.
      apply H1, has_prefix_spec. by exists s.
    + intros [s ->]%has_prefix_spec. enough (d :: b = d :: b ++ s) as [= ?] by done.
      apply H2, has_prefix_spec. by exists s.
Qed.

(** Distinct logical keys order as their versions do. *)
Lemma pfx_order a b : pfx a ≠ pfx b → pfree a b → pfree b a → bcmp a b = bcmp (pfx a) (pfx b).
Proof.
  intros Hne H1 H2. rewrite <- (take_drop (length a - 8) a) at 1. rewrite <- (take_drop (length b - 8) b) at 1.
  by apply bcmp_prefix_free.
Qed.

Lemma pfx_lt a b : pfx a <b pfx b → pfree a b → pfree b a → a <b b.
Proof.
  intros Hlt H1 H2. unfold blt. rewrite pfx_order; [done| |done|done].
  intros E. rewrite E in Hlt. by apply blt_irrefl in Hlt.
Qed.

(** The key set of an entity: one version of each logical key, in order. *)
Record keys_inv (ks : list bytes) : Prop := {
  kinv_asc : ascending (map pfx ks);
  kinv_len : Forall (fun k => (20 ≤ length k)%nat) ks;
  kinv_free : ∀ a b, a ∈ ks → b ∈ ks → pfree a b;
}.

Definition joins (key : bytes) (ks : list bytes) : Prop :=
  (20 ≤ length key)%nat ∧ ∀ k, k ∈ ks → pfree k key ∧ pfree key k.

Lemma keys_inv_ascending ks : keys_inv ks → ascending ks.
Proof.
  intros [Ha _ Hf]. induction ks as [|k ks IH]; [constructor|]. cbn [map] in Ha.
  apply ascending_cons in Ha as [Hk Ha]. apply ascending_cons. split.
  - rewrite Forall_map in Hk. rewrite Forall_forall in *. intros b Hb. apply pfx_lt; [by apply Hk| |].
    + apply Hf; [by left|by right].
    + apply Hf; [by right|by left].
  - apply IH; [done|]. intros a b ??. apply Hf; by right.
Qed.

Lemma findKeyPos_spec e ks key :
  packed e ks → keys_inv ks → (20 ≤ length key)%nat →
  match findKeyPos e key with
  | Some pos => ∃ old, ks !! pos = Some old ∧ pfx old = pfx key
  | None => pfx key ∉ map pfx ks
  end.
Proof.
  intros Hp [Ha Hl _] Hkey. unfold findKeyPos. rewrite (packed_len e ks Hp).
  assert (∀ i k, ks !! i = Some k → cmpPrefixAt e i key = CmpSeq (pfx k) (pfx key)) as Hc.
  { intros i k Hk. rewrite Forall_lookup in Hl. specialize (Hl i k Hk). cbn beta in Hl.
    by apply (cmpPrefixAt_spec e ks); [..|lia|lia]. }
  set (f := fun mid => cmpPrefixAt e mid key <? 0).
  assert (downward f (length ks)) as Hd.
  { intros i j Hij Hj. unfold f. apply lookup_lt_is_Some in Hj as [kj Hkj].
    destruct (lookup_lt_is_Some_2 ks i) as [ki Hki]; [apply lookup_lt_Some in Hkj; lia|].
    rewrite (Hc _ _ Hki), (Hc _ _ Hkj), !CmpSeq_lt, !bool_decide_eq_true. intros Hlt.
    destruct (decide (i = j)) as [->|]; [congruence|]. eapply blt_trans; [|exact Hlt].
    apply (ascending_lookup (map pfx ks) i j); [done|lia|by rewrite list_lookup_fmap, Hki|by rewrite list_lookup_fmap, Hkj]. }
  destruct (bsearch_spec f (length ks) Hd) as (Hb&Ht&Hf). set (lo := bsearch f (length ks)) in *.
  assert (∀ i k, ks !! i = Some k → (i < lo)%nat → pfx k <b pfx key) as Hbelow.
  { intros i k Hk Hi. specialize (Ht i Hi). unfold f in Ht. rewrite (Hc _ _ Hk), CmpSeq_lt in Ht.
    by apply bool_decide_eq_true in Ht. }
  destruct (Nat.ltb_spec lo (length ks)) as [Hlt|Hge]; cbn [andb].
  - destruct (lookup_lt_is_Some_2 ks lo Hlt) as [k Hk]. rewrite (Hc _ _ Hk), CmpSeq_eq.
    case_bool_decide as E; [by exists k|].
    intros (b&Hb'&Hin)%list_elem_of_fmap. apply list_elem_of_lookup_1 in Hin as [i Hi].
    destruct (decide (i < lo)%nat) as [Hil|Hil].
    { specialize (Hbelow i b Hi Hil). rewrite Hb' in Hbelow. by apply blt_irrefl in Hbelow. }
    assert (i ≠ lo) by (intros ->; congruence).
    specialize (Hf lo ltac:(lia)). unfold f in Hf. rewrite (Hc _ _ Hk), CmpSeq_lt, bool_decide_eq_false in Hf.
    assert (pfx k <b pfx b) as Hkb.
    { apply (ascending_lookup (map pfx ks) lo i); [done|lia|by rewrite list_lookup_fmap, Hk|by rewrite list_lookup_fmap, Hi]. }
    rewrite Hb' in Hf. done.
  - intros (b&Hb'&Hin)%list_elem_of_fmap. apply list_elem_of_lookup_1 in Hin as [i Hi].
    pose proof (lookup_lt_Some _ _ _ Hi). specialize (Hbelow i b Hi ltac:(lia)).
    rewrite Hb' in Hbelow. by apply blt_irrefl in Hbelow.
Qed.

(** The insertion point: everything before is below the key, everything after above. *)
Lemma insertIdx_spec e ks key n :
  packed e ks → ascending ks → key ∉ ks → (n ≤ length ks)%nat →
  Forall (fun k => key <b k) (drop n ks) →
  let i := insertIdx e key n in
  (i ≤ length ks)%nat ∧ Forall (fun k => k <b key) (take i ks) ∧ Forall (fun k => key <b k) (drop i ks).
Proof.
  intros Hp Ha Hnot. induction n as [|n IH]; intros Hn Hd; cbn [insertIdx].
  { split_and!; [lia|constructor|done]. }
  destruct (lookup_lt_is_Some_2 ks n) as [k Hk]; [lia|]. rewrite (cmpFullAt_spec e ks n k key) by done.
  assert (k ≠ key) as Hne by (intros ->; apply Hnot; by eapply list_elem_of_lookup_2).
  rewrite CmpSeq_bcmp. destruct (bcmp k key) eqn:E; cbn [cmpZ].
  - by apply bcmp_Eq in E.
  - replace (-1 >? 0) with false by done. cbv zeta. split_and!; [lia| |done].
    apply Forall_lookup. intros j x Hj. apply lookup_take_Some in Hj as [Hj Hlt].
    destruct (decide (j = n)) as [->|]; [congruence|]. eapply blt_trans; [|exact E].
    by apply (ascending_lookup ks j n); [done|lia|..].
  - replace (1 >? 0) with true by done. apply IH; [lia|]. rewrite (drop_S _ k) by done. constructor; [|done].
    unfold blt. rewrite (bcmp_opp k key), E. done.
Qed.

(** ** Mirroring a write *)

Definition active (key : bytes) : bool := Z.land (beUint64 key (length key - 8)) 1 =? 0.

(** The key set after a write: the version of its logical key is replaced, or
    dropped by a retraction. *)
Definition mirrored (ks : list bytes) (key : bytes) (ks' : list bytes) : Prop :=
  keys_inv ks' ∧ ∀ k, k ∈ ks' ↔ (active key = true ∧ k = key) ∨ (k ∈ ks ∧ pfx k ≠ pfx key).

Lemma keys_inv_middle pre x post :
  ascending (map pfx (pre ++ x :: post)) ↔
  ascending (map pfx (pre ++ post)) ∧ Forall (fun k => pfx k <b pfx x) pre ∧ Forall (fun k => pfx x <b pfx k) post.
Proof.
  induction pre as [|p pre IH]; cbn [app map].
  - rewrite ascending_cons, Forall_map. split; [intros [??]; by split_and!; [..|constructor|]|naive_solver].
  - rewrite !ascending_cons, IH, !Forall_map, !Forall_app, !Forall_cons. naive_solver.
Qed.

Lemma keys_inv_replace pre old post key :
  keys_inv (pre ++ old :: post) → pfx old = pfx key → joins key (pre ++ old :: post) →
  keys_inv (pre ++ key :: post).
Proof.
  intros [Ha Hl Hf] Hpfx [Hk Hj]. constructor.
  - rewrite keys_inv_middle in *. by rewrite <- Hpfx.
  - rewrite Forall_app, Forall_cons in *. naive_solver.
  - intros a b Hin1 Hin2. rewrite elem_of_app, elem_of_cons in Hin1, Hin2.
    assert (∀ c, c ∈ pre ∨ c ∈ post → c ∈ pre ++ old :: post) as Hin by (intros c; rewrite elem_of_app, elem_of_cons; naive_solver).
    destruct (decide (a = key)) as [->|]; destruct (decide (b = key)) as [->|].
    + by intros _.
    + apply Hj, Hin. naive_solver.
    + apply Hj, Hin. naive_solver.
    + apply Hf; apply Hin; naive_solver.
Qed.

Lemma keys_inv_remove pre old post : keys_inv (pre ++ old :: post) → keys_inv (pre ++ post).
Proof.
  intros [Ha Hl Hf]. constructor.
  - by apply keys_inv_middle in Ha as [? _].
  - rewrite Forall_app, Forall_cons in *. naive_solver.
  - intros a b. rewrite !elem_of_app. intros ??. apply Hf; rewrite elem_of_app, elem_of_cons; naive_solver.
Qed.

Lemma keys_inv_insert pre post key :
  keys_inv (pre ++ post) → joins key (pre ++ post) → pfx key ∉ map pfx (pre ++ post) →
  Forall (fun k => k <b key) pre → Forall (fun k => key <b k) post →
  keys_inv (pre ++ key :: post).
Proof.
  intros [Ha Hl Hf] [Hk Hj] Hnot H1 H2.
  assert (∀ c, c ∈ pre ++ post → pfx c ≠ pfx key) as Hne.
  { intros c Hc E. apply Hnot. rewrite <- E. by apply list_elem_of_fmap_2. }
  constructor.
  - apply keys_inv_middle. split_and!; [done| |].
    + rewrite Forall_forall in *. intros c Hc. assert (c ∈ pre ++ post) as Hin by (apply elem_of_app; auto).
      specialize (H1 c Hc). unfold blt in *. destruct (Hj c Hin). rewrite pfx_order in H1; auto.
    + rewrite Forall_forall in *. intros c Hc. assert (c ∈ pre ++ post) as Hin by (apply elem_of_app; auto).
      specialize (H2 c Hc). unfold blt in *. destruct (Hj c Hin). rewrite pfx_order in H2; auto.
      intros E. by apply (Hne c Hin).
  - rewrite Forall_app, Forall_cons in *. naive_solver.
  - intros a b Hin1 Hin2. rewrite elem_of_app, elem_of_cons in Hin1, Hin2.
    assert (∀ c, c ∈ pre ∨ c ∈ post → c ∈ pre ++ post) as Hin by (intros c; by rewrite elem_of_app).
    destruct (decide (a = key)) as [->|]; destruct (decide (b = key)) as [->|].
    + by intros _.
    + apply Hj, Hin. naive_solver.
    + apply Hj, Hin. naive_solver.
    + apply Hf; apply Hin; naive_solver.
Qed.

(** The other keys of a set have other logical keys. *)
Lemma others_differ pre old post k :
  keys_inv (pre ++ old :: post) → k ∈ pre ++ post → pfx k ≠ pfx old.
Proof.
  intros [Ha _ _] Hin E. apply keys_inv_middle in Ha as (_&H1&H2). rewrite Forall_forall in *.
  apply elem_of_app in Hin as [Hin|Hin]; [specialize (H1 k Hin)|specialize (H2 k Hin)]; rewrite E in *; by eapply blt_irrefl.
Qed.

Lemma split_at {A} (l : list A) i x : l !! i = Some x → ∃ pre post, l = pre ++ x :: post ∧ length pre = i.
Proof.
  intros Hx. exists (take i l), (drop (S i) l). split; [by rewrite take_drop_middle|].
  apply length_take_le. apply lookup_lt_Some in Hx. lia.
Qed.

Definition entry_ok (e : entry) : Prop := ebytes e = Z.of_nat (length (buf e)).

(** What [ApplyKey] does to the entry of the key's entity. *)
Lemma ApplyKey_entry h key e ks :
  index h !! decodeEID (beUint64 key 0) = Some e → packed e ks → entry_ok e → keys_inv ks → joins key ks →
  Z.of_nat (length (concat ks) + length key) < 2 ^ 31 →
  ∃ e' ks' delta, index (ApplyKey h key) = <[decodeEID (beUint64 key 0) := e']> (index h)
    ∧ packed e' ks' ∧ entry_ok e' ∧ mirrored ks key ks'
    ∧ ebytes e' = ebytes e + delta ∧ curBytes (ApplyKey h key) = curBytes h + delta
    ∧ lru (ApplyKey h key) = lru h ∧ maxBytes (ApplyKey h key) = maxBytes h.
Proof.
  intros He Hp Hok Hi Hj Hsz. pose proof Hj as [Hk20 _]. unfold ApplyKey.
  rewrite (proj2 (Nat.ltb_ge _ _)) by done.
  assert (Nat.eqb (size (index h)) 0 = false) as ->.
  { apply Nat.eqb_neq. intros Hz. apply map_size_empty_iff in Hz. by rewrite Hz, lookup_empty in He. }
  rewrite He. fold (active key).
  pose proof (findKeyPos_spec e ks key Hp Hi Hk20) as Hpos.
  assert (key ≠ []) as Hkne by (intros ->; cbn [length] in Hk20; lia).
  assert (∀ e0 ks0, packed e0 ks0 → buf e0 = concat ks0) as Hbuf by (by intros ?? []).
  destruct (active key) eqn:Eact; destruct (findKeyPos e key) as [pos|].
  - destruct Hpos as (old&Hold&Hpfx). destruct (split_at ks pos old Hold) as (pre&post&->&<-).
    destruct (packed_key _ _ _ _ Hp Hold) as [Hl _]. rewrite Hl.
    assert (packed (replaceKeyAt e (length pre) key) (pre ++ key :: post)) as Hp'.
    { apply replaceKeyAt_packed with old; [done|]. unfold fits. rewrite concat_app in *. cbn [concat] in *. rewrite !length_app in *. lia. }
    eexists _, (pre ++ key :: post), _. split; [done|]. split_and!; try done.
    + by destruct Hp'.
    + unfold entry_ok. cbn [addBytes ebytes buf]. rewrite (Hbuf _ _ Hp'). cbn [replaceKeyAt].
      unfold entry_ok in Hok. rewrite (Hbuf _ _ Hp) in Hok. rewrite !concat_app in *. cbn [concat] in *. rewrite !length_app in *.
      unfold replaceKeyAt. destruct (negb _); cbn [ebytes]; lia.
    + split; [by apply keys_inv_replace with old|]. intros k. rewrite Eact, !elem_of_app, !elem_of_cons. split.
      * intros [H|[H|H]]; [right|by left|right]; (split; [naive_solver|]); rewrite <- Hpfx;
          apply (others_differ pre old post); try done; rewrite elem_of_app; naive_solver.
      * intros [[_ ->]|[[H|[->|H]] Hne]]; [by right; left|by left|done|by right; right].
    + unfold replaceKeyAt. destruct (negb _); cbn [addBytes ebytes]; done.
  - set (idx := insertIdx e key (length (offs e))).
    assert (key ∉ ks) as Hnot by (intros Hin; by apply Hpos, list_elem_of_fmap_2).
    destruct (insertIdx_spec e ks key (length (offs e))) as (Hle&H1&H2);
      [done|by apply keys_inv_ascending|done|rewrite (packed_len e ks Hp); lia|rewrite (packed_len e ks Hp), drop_all; constructor|].
    fold idx in Hle, H1, H2. rewrite <- (take_drop idx ks) in Hp, Hi, Hj, Hpos, Hsz.
    assert (length (take idx ks) = idx) as Hlen by (by apply length_take_le).
    assert (packed (insertKeyAt e idx key) (take idx ks ++ key :: drop idx ks)) as Hp'.
    { rewrite <- Hlen at 1. apply insertKeyAt_packed; [done|done|]. unfold fits. rewrite concat_app in *. cbn [concat].
      rewrite !length_app in *. lia. }
    eexists _, (take idx ks ++ key :: drop idx ks), _. split; [done|]. split_and!; try done.
    + by destruct Hp'.
    + unfold entry_ok. cbn [addBytes ebytes buf insertKeyAt]. cbv zeta. rewrite (Hbuf _ _ Hp') at 1.
      unfold entry_ok in Hok. rewrite (Hbuf _ _ Hp) in Hok. rewrite !concat_app in *. cbn [concat] in *. rewrite !length_app in *.
      cbn [insertKeyAt ebytes]. lia.
    + split; [by apply keys_inv_insert|]. intros k. rewrite Eact, elem_of_app, elem_of_cons.
      assert (k ∈ ks ↔ k ∈ take idx ks ∨ k ∈ drop idx ks) as Hks by (rewrite <- elem_of_app; by rewrite take_drop).
      assert (k ∈ ks → pfx k ≠ pfx key) as Hd.
      { intros Hin E. apply Hpos. rewrite take_drop, <- E. by apply list_elem_of_fmap_2. }
      naive_solver.
  - destruct Hpos as (old&Hold&Hpfx). destruct (split_at ks pos old Hold) as (pre&post&->&<-).
    assert (old ≠ []) as Hone.
    { destruct Hi as [_ Hl _]. rewrite Forall_app, Forall_cons in Hl. destruct Hl as (_&Hl&_). intros ->. cbn [length] in Hl. lia. }
    destruct (removeKeyAt_packed e pre old post Hp Hone) as [Hp' Ho].
    { unfold fits. rewrite concat_app in *. cbn [concat] in *. rewrite !length_app in *. lia. }
    assert (ebytes (removeKeyAt e (length pre)).1 = ebytes e) as Heb by done.
    destruct (removeKeyAt e (length pre)) as [e1 oldLen]. cbn [fst snd] in *. subst oldLen.
    eexists _, (pre ++ post), _. split; [done|]. split_and!; try done.
    + by destruct Hp'.
    + unfold entry_ok in *. cbn [addBytes ebytes buf]. rewrite (Hbuf _ _ Hp'), Heb, Hok, (Hbuf _ _ Hp).
      rewrite !concat_app. cbn [concat]. rewrite !length_app. lia.
    + split; [by apply keys_inv_remove with old|]. intros k. rewrite Eact, !elem_of_app, !elem_of_cons. split.
      * intros H. right. split; [naive_solver|]. rewrite <- Hpfx. apply (others_differ pre old post); [done|]. by rewrite elem_of_app.
      * intros [[? _]|[[H|[->|H]] Hne]]; [done|by left|done|by right].
    + cbn [addBytes ebytes]. by rewrite Heb.
  - exists e, ks, 0. split; [by rewrite insert_id|]. split_and!; try done; try lia.
    split; [done|]. intros k. rewrite Eact. split.
    + intros Hin. right. split; [done|]. intros E. apply Hpos. rewrite <- E. by apply list_elem_of_fmap_2.
    + naive_solver.
Qed.

(** ** Reads of a packed entry *)

(** The binary search of the reads is the lower bound on the packed keys. *)
Lemma fullSearch_spec e ks target :
  packed e ks → ascending ks →
  bsearch (fun mid => cmpFullAt e mid target <? 0) (length (offs e)) = lowerBound id ks target.
Proof.
  intros Hp Ha. rewrite (packed_len e ks Hp). apply bsearch_unique.
  - intros i j Hij Hj. apply lookup_lt_is_Some in Hj as [kj Hkj].
    destruct (lookup_lt_is_Some_2 ks i) as [ki Hki]; [apply lookup_lt_Some in Hkj; lia|].
    rewrite (cmpFullAt_spec e ks i ki), (cmpFullAt_spec e ks j kj), !CmpSeq_lt, !bool_decide_eq_true by done. intros Hlt.
    destruct (decide (i = j)) as [->|]; [congruence|]. eapply blt_trans; [|exact Hlt].
    by apply (ascending_lookup ks i j); [done|lia|..].
  - by apply lowerBound_spec; rewrite map_id.
  - intros i Hi. destruct (lowerBound_spec id ks target) as (Hb&Ht&_); [by rewrite map_id|].
    destruct (lookup_lt_is_Some_2 ks i) as [ki Hki]; [lia|].
    rewrite (cmpFullAt_spec e ks i ki), CmpSeq_lt, bool_decide_eq_true by done. by apply (Ht i ki).
  - intros i Hi. destruct (lowerBound_spec id ks target) as (_&_&Hf); [by rewrite map_id|].
    destruct (lookup_lt_is_Some_2 ks i) as [ki Hki]; [lia|].
    rewrite (cmpFullAt_spec e ks i ki), CmpSeq_lt, bool_decide_eq_false by done. apply ble_not_lt. apply (Hf i ki); [lia|done].
Qed.

Lemma keyBytes_seq e ks lo n :
  packed e ks → (lo + n = length ks)%nat → map (keyBytes e) (seq lo n) = drop lo ks.
Proof.
  intros Hp. revert lo. induction n as [|n IH]; intros lo Hl; cbn [seq map].
  { rewrite drop_ge by lia. done. }
  destruct (lookup_lt_is_Some_2 ks lo) as [k Hk]; [lia|]. rewrite (drop_S _ k) by done.
  destruct (packed_key e ks lo k Hp Hk) as [_ ->]. f_equal. apply IH. lia.
Qed.

Lemma collect_spec e ks prefix n lo :
  packed e ks → (lo + n = length ks)%nat → ascending ks →
  Forall (fun k => prefix <=b k) (drop lo ks) →
  collect e prefix n lo = filter (fun k => has_prefix k prefix = true) (drop lo ks).
Proof.
  intros Hp Hl Ha. revert lo Hl. induction n as [|n IH]; intros lo Hl Hge; cbn [collect].
  { rewrite drop_ge by lia. done. }
  destruct (lookup_lt_is_Some_2 ks lo) as [k Hk]; [lia|]. rewrite (drop_S _ k) in * by done.
  destruct (packed_key e ks lo k Hp Hk) as [Hlen Hb]. rewrite Hlen, Hb.
  rewrite filter_cons. apply Forall_cons in Hge as [Hgek Hge].
  destruct (has_prefix k prefix) eqn:E; cbn [negb].
  - pose proof E as [s ->]%has_prefix_spec. rewrite length_app.
    replace (_ <? _) with false by lia. rewrite decide_True by done. f_equal. apply IH; [lia|done].
  - rewrite decide_False by done. rewrite filter_none; [by destruct (_ <? _)|].
    apply Forall_lookup. intros i b Hi Hpb. rewrite lookup_drop in Hi.
    assert (has_prefix k prefix = true); [|congruence]. apply (has_prefix_between prefix k b); [done| |done].
    apply blt_le, (ascending_lookup ks lo (S lo + i)); [done|lia|done|done].
Qed.

Lemma LookupRange_spec h u e ks prefix :
  index h !! u = Some e → packed e ks → ascending ks →
  LookupRange h u prefix = filter (fun k => has_prefix k prefix = true) ks.
Proof.
  intros He Hp Ha. unfold LookupRange. rewrite He, (fullSearch_spec e ks) by done.
  rewrite (packed_len e ks Hp). destruct (lowerBound_spec id ks prefix) as (Hb&Hlo&Hhi); [by rewrite map_id|].
  set (lo := lowerBound id ks prefix) in *. clearbody lo. cbn [id] in *.
  rewrite (collect_spec e ks) by (done || lia ||
    (apply Forall_lookup; intros i k Hk; rewrite lookup_drop in Hk; apply (Hhi (lo + i)%nat k); [lia|done])).
  rewrite <- (take_drop lo ks) at 2. rewrite filter_app, (filter_none _ (take lo ks)); [done|].
  apply Forall_lookup. intros i k Hk [s ->]%has_prefix_spec. apply lookup_take_Some in Hk as [Hk Hi].
  specialize (Hlo i _ Hi Hk). apply blt_not_le in Hlo. apply Hlo, ble_prefix.
Qed.

Lemma KeysFrom_spec h u e ks target :
  index h !! u = Some e → packed e ks → ascending ks →
  KeysFrom h u target = filter (fun k => target <=b k) ks.
Proof.
  intros He Hp Ha. unfold KeysFrom. rewrite He, (fullSearch_spec e ks) by done. rewrite (packed_len e ks Hp).
  destruct (lowerBound_spec id ks target) as (Hb&Hlo&Hhi); [by rewrite map_id|].
  set (lo := lowerBound id ks target) in *. clearbody lo. cbn [id] in *.
  rewrite (keyBytes_seq e ks) by (done || lia). rewrite <- (take_drop lo ks) at 2.
  rewrite filter_app, filter_none, filter_all; [done| |].
  - apply Forall_lookup. intros i k Hk. rewrite lookup_drop in Hk. by eapply Hhi; [|exact Hk]; lia.
  - apply Forall_lookup. intros i k Hk. apply lookup_take_Some in Hk as [Hk Hi]. rewrite <- blt_not_le. by eapply Hlo.
Qed.

(** ** Installing an entry *)

Lemma pack_spec keys : fits keys → pack keys = (concat keys, starts 0 keys).
Proof.
  unfold pack. change (@nil Z, @nil Z) with (concat (@nil bytes), starts 0 []).
  rewrite <- (app_nil_l keys) at 1 3 4. generalize (@nil bytes) as done_.
  induction keys as [|k keys IH]; intros done_ Hf; cbn [fold_left]; [by rewrite app_nil_r|].
  replace (done_ ++ k :: keys) with ((done_ ++ [k]) ++ keys) in * by (by rewrite <- app_assoc).
  rewrite <- IH by done. f_equal. rewrite starts_app, concat_app. cbn [concat starts Nat.add]. rewrite app_nil_r.
  do 3 f_equal. unfold fits in Hf. rewrite !concat_app, !length_app in Hf. unfold i32. rewrite Z.mod_small; lia.
Qed.

(** ** The invariant of the set *)

Definition totalBytes (mp : gmap Z entry) : Z := map_fold (fun _ e n => ebytes e + n) 0 mp.

Lemma totalBytes_insert mp u e : mp !! u = None → totalBytes (<[u := e]> mp) = ebytes e + totalBytes mp.
Proof. intros Hn. unfold totalBytes. rewrite map_fold_insert_L; [done| |done]. intros; lia. Qed.

Lemma totalBytes_delete mp u e : mp !! u = Some e → totalBytes (delete u mp) = totalBytes mp - ebytes e.
Proof.
  intros Hs. rewrite <- (insert_id mp u e) at 2 by done. rewrite <- insert_delete_eq.
  rewrite totalBytes_insert by apply lookup_delete_eq. lia.
Qed.

Lemma totalBytes_update mp u e e' :
  mp !! u = Some e → totalBytes (<[u := e']> mp) = totalBytes mp - ebytes e + ebytes e'.
Proof.
  intros Hs. rewrite <- insert_delete_eq, totalBytes_insert by apply lookup_delete_eq.
  rewrite (totalBytes_delete mp u e) by done. lia.
Qed.

(** The list names exactly the indexed entities, once; the account is exact;
    every entry packs a well-formed key set. *)
Record set_inv (h : Set_) : Prop := {
  sinv_lru : NoDup (lru h);
  sinv_dom : ∀ u, u ∈ lru h ↔ is_Some (index h !! u);
  sinv_bytes : curBytes h = totalBytes (index h);
  sinv_entry : ∀ u e, index h !! u = Some e → entry_ok e ∧ ∃ ks, packed e ks ∧ keys_inv ks;
}.

Lemma elem_of_unlink u x l : x ∈ unlink u l ↔ x ∈ l ∧ x ≠ u.
Proof. unfold unlink. rewrite list_elem_of_filter. tauto. Qed.

Lemma unlink_NoDup u l : NoDup l → NoDup (unlink u l).
Proof. apply NoDup_filter. Qed.

Lemma touch_spec u l : NoDup l → u ∈ l → NoDup (touch u l) ∧ ∀ x, x ∈ touch u l ↔ x ∈ l.
Proof.
  intros Hn Hu. unfold touch, pushFront. split.
  - constructor; [rewrite elem_of_unlink; tauto|by apply unlink_NoDup].
  - intros x. rewrite elem_of_cons, elem_of_unlink. destruct (decide (x = u)); naive_solver.
Qed.

Lemma withLru_touch_inv h u : set_inv h → is_Some (index h !! u) → set_inv (withLru h (touch u (lru h))).
Proof.
  intros [Hl Hd Hb He] Hu. destruct (touch_spec u (lru h) Hl (proj2 (Hd u) Hu)) as [Hn Hiff].
  constructor; cbn [withLru lru index curBytes]; [done| |done|done]. intros x. by rewrite Hiff.
Qed.

Lemma drop_inv h u e : set_inv h → index h !! u = Some e → set_inv (drop_ h u e).
Proof.
  intros [Hl Hd Hb He] Hu. constructor; cbn [drop_ lru index curBytes].
  - by apply unlink_NoDup.
  - intros x. rewrite elem_of_unlink, Hd. destruct (decide (x = u)) as [->|].
    + rewrite lookup_delete_eq. split; [naive_solver|by intros []].
    + rewrite lookup_delete_ne by done. naive_solver.
  - rewrite (totalBytes_delete _ u e) by done. lia.
  - intros x ex [_ Hx]%lookup_delete_Some. by apply (He x).
Qed.

Lemma evictLoop_inv fuel h incoming :
  set_inv h → (length (lru h) ≤ fuel)%nat →
  let h' := evictLoop fuel h incoming in
  set_inv h' ∧ maxBytes h' = maxBytes h ∧ index h' ⊆ index h
  ∧ (curBytes h' + incoming ≤ maxBytes h ∨ index h' = ∅)
  ∧ ∃ kept, lru h = lru h' ++ kept.
Proof.
  revert h. induction fuel as [|fuel IH]; intros h Hi Hf; cbn [evictLoop].
  - cbv zeta. split_and!; [done..| |by exists []; rewrite app_nil_r]. right. apply map_eq. intros u.
    rewrite lookup_empty. destruct (index h !! u) eqn:E; [|done].
    assert (u ∈ lru h) as Hin by (apply (sinv_dom _ Hi); by eexists).
    destruct (lru h); [by apply elem_of_nil in Hin|cbn [length] in Hf; lia].
  - destruct ((curBytes h + incoming >? maxBytes h) && _) eqn:C.
    + apply andb_true_iff in C as [_ Hn]. apply negb_true_iff, Nat.eqb_neq in Hn.
      destruct (lru h) as [|x l] eqn:El using rev_ind.
      { exfalso. apply Hn. apply map_size_empty_iff, map_eq. intros u. rewrite lookup_empty.
        destruct (index h !! u) eqn:E; [|done].
        assert (u ∈ lru h) as Hin by (apply (sinv_dom _ Hi); by eexists). rewrite El in Hin. by apply elem_of_nil in Hin. }
      clear IHl. rewrite last_snoc.
      destruct (proj1 (sinv_dom _ Hi x)) as [e He]; [rewrite El, elem_of_app; right; by left|]. rewrite He.
      pose proof (sinv_lru _ Hi) as Hnd. rewrite El in Hnd. apply NoDup_app in Hnd as (_&Hx&_).
      assert (unlink x (l ++ [x]) = l) as Hun.
      { unfold unlink. rewrite filter_app, filter_all, filter_none, app_nil_r; [done|constructor; [naive_solver|constructor]|].
        apply Forall_forall. intros y Hy Heq. apply (Hx y Hy). rewrite Heq. by left. }
      assert (set_inv (countEvict (drop_ h x e))) as Hi'.
      { pose proof (drop_inv h x e Hi He) as [????]. by constructor. }
      assert (lru (countEvict (drop_ h x e)) = l) as Hl' by (cbn [countEvict drop_ lru]; by rewrite El).
      destruct (IH (countEvict (drop_ h x e)) Hi') as (H1&H2&H3&H4&kept&H5).
      { rewrite Hl'. rewrite length_app in Hf. cbn [length] in Hf. lia. }
      cbv zeta in *. split_and!; [done|done| |done|].
      * etrans; [exact H3|]. cbn [countEvict drop_ index]. apply delete_subseteq.
      * exists (kept ++ [x]). rewrite app_assoc, <- H5, Hl'. done.
    + cbv zeta. split_and!; [done..| |by exists []; rewrite app_nil_r].
      apply andb_false_iff in C as [C|C]; [left; lia|right].
      apply negb_false_iff, Nat.eqb_eq in C. by apply map_size_empty_iff.
Qed.

Lemma addEntry_inv h u e :
  set_inv h → index h !! u = None → entry_ok e → (∃ ks, packed e ks ∧ keys_inv ks) → set_inv (addEntry h u e).
Proof.
  intros [Hl Hd Hb He] Hu Hok Hks. constructor; cbn [addEntry lru index curBytes].
  - unfold pushFront. constructor; [|done]. rewrite Hd, Hu. by intros [].
  - intros x. unfold pushFront. rewrite elem_of_cons, Hd. destruct (decide (x = u)) as [->|].
    + rewrite lookup_insert_eq. naive_solver.
    + rewrite lookup_insert_ne by done. naive_solver.
  - rewrite totalBytes_insert by done. lia.
  - intros x ex Hx. apply lookup_insert_Some in Hx as [[<- <-]|[_ Hx]]; [done|by apply (He x)].
Qed.

(** ** Reachable sets *)

Section reachable.
(** The CF-0 keys ever written: long enough, and no logical key extends
    another (the encodings of keys.go are self-delimiting). *)
Context (U : bytes → Prop).
Hypothesis U_len : ∀ k, U k → (20 ≤ length k)%nat.
Hypothesis U_free : ∀ a b, U a → U b → pfree a b.

(** Entries only hold keys that were written. *)
Definition holds_written (h : Set_) : Prop :=
  ∀ u e, index h !! u = Some e → ∃ ks, packed e ks ∧ Forall U ks.

Inductive hstep : Set_ → Set_ → Prop :=
| step_probe h u : hstep h (Probe h u).1
| step_apply h key :
    U key →
    (∀ e, index h !! decodeEID (beUint64 key 0) = Some e →
       Z.of_nat (length (buf e) + length key) < 2 ^ 31) →
    hstep h (ApplyKey h key)
| step_hydrate_empty h u : hstep h (HydrateEmpty h u)
| step_hydrate h u keys :
    Forall U keys → ascending (map pfx keys) → fits keys → hstep h (Hydrate h u keys)
| step_evict h u : hstep h (Evict h u)
| step_clear h : hstep h (Clear h).

Lemma packed_unique e ks1 ks2 : packed e ks1 → packed e ks2 → ks1 = ks2.
Proof.
  intros H1 H2. pose proof (packed_len _ _ H1) as L1. pose proof (packed_len _ _ H2) as L2.
  apply list_eq. intros i. destruct (ks1 !! i) as [k|] eqn:E.
  - destruct (lookup_lt_is_Some_2 ks2 i) as [k2 E2]; [apply lookup_lt_Some in E; lia|].
    destruct (packed_key _ _ _ _ H1 E) as [_ <-]. destruct (packed_key _ _ _ _ H2 E2) as [_ <-]. done.
  - symmetry. apply lookup_ge_None in E. apply lookup_ge_None. lia.
Qed.

Lemma U_keys_inv keys : Forall U keys → ascending (map pfx keys) → keys_inv keys.
Proof.
  intros HU Ha. rewrite Forall_forall in HU. constructor; [done| |].
  - apply Forall_forall. auto.
  - auto.
Qed.

Definition good (h : Set_) : Prop := set_inv h ∧ holds_written h.

Lemma good_apply h key :
  good h → U key →
  (∀ e, index h !! decodeEID (beUint64 key 0) = Some e → Z.of_nat (length (buf e) + length key) < 2 ^ 31) →
  good (ApplyKey h key).
Proof.
  intros [Hi Hw] HU Hsz. destruct (index h !! decodeEID (beUint64 key 0)) as [e|] eqn:E.
  - destruct (sinv_entry _ Hi _ _ E) as (Hok&ks&Hp&Hk). destruct (Hw _ _ E) as (ks2&Hp2&HUks).
    assert (ks2 = ks) as -> by (by eapply packed_unique). rewrite Forall_forall in HUks.
    assert (joins key ks) as Hj by (split; [auto|auto]).
    destruct (ApplyKey_entry h key e ks E Hp Hok Hk Hj) as (e'&ks'&delta&Hidx&Hp'&Hok'&[Hk' Hmem]&Heb&Hcur&Hlru&Hmax).
    { rewrite <- (packed_buf _ _ Hp). by apply Hsz. }
    split; [constructor|].
    + rewrite Hlru. apply Hi.
    + intros u. rewrite Hlru, Hidx, (sinv_dom _ Hi). destruct (decide (u = decodeEID (beUint64 key 0))) as [->|].
      * rewrite lookup_insert_eq, E. done.
      * by rewrite lookup_insert_ne.
    + rewrite Hcur, Hidx, (totalBytes_update _ _ e) by done. rewrite (sinv_bytes _ Hi). lia.
    + intros u e0 Hu. rewrite Hidx in Hu. apply lookup_insert_Some in Hu as [[<- <-]|[_ Hu]]; [eauto|by eapply Hi].
    + intros u e0 Hu. rewrite Hidx in Hu. apply lookup_insert_Some in Hu as [[<- <-]|[_ Hu]]; [|by eapply Hw].
      exists ks'. split; [done|]. apply Forall_forall. intros k Hin%Hmem. naive_solver.
  - assert (ApplyKey h key = h) as ->; [|by split]. unfold ApplyKey. rewrite E.
    destruct (Nat.ltb (length key) 20); [done|]. by destruct (Nat.eqb (size (index h)) 0).
Qed.

Lemma good_drop h u e : good h → index h !! u = Some e → good (drop_ h u e).
Proof.
  intros [Hi Hw] Hu. split; [by apply drop_inv|]. intros x ex Hx.
  cbn [drop_ index] in Hx. apply lookup_delete_Some in Hx as [_ Hx]. by eapply Hw.
Qed.

Lemma good_add h u e ks :
  good h → index h !! u = None → entry_ok e → packed e ks → Forall U ks → ascending (map pfx ks) →
  good (addEntry h u e).
Proof.
  intros [Hi Hw] Hu Hok Hp HU Ha. split.
  - apply addEntry_inv; [done..|]. exists ks. split; [done|by apply U_keys_inv].
  - intros x ex Hx. cbn [addEntry index] in Hx. apply lookup_insert_Some in Hx as [[<- <-]|[_ Hx]]; [eauto|by eapply Hw].
Qed.

Lemma good_hydrate h u keys :
  good h → Forall U keys → ascending (map pfx keys) → fits keys → good (Hydrate h u keys).
Proof.
  intros Hg HU Ha Hf. unfold Hydrate. destruct (index h !! u) as [e|] eqn:E.
  { destruct Hg as [Hi Hw]. split; [by apply withLru_touch_inv|done]. }
  destruct (_ >? _).
  { destruct Hg as [[????] Hw]. by split; [constructor|]. }
  destruct Hg as [Hi Hw]. destruct (evictLoop_inv (length (lru h)) h (sumLen keyLen keys) Hi) as (Hi'&_&Hsub&_&_); [lia|].
  cbv zeta in *. unfold evictLruUntilFits. set (h1 := evictLoop _ _ _) in *. clearbody h1.
  assert (good (addEntry h1 u {| eid := u; buf := (pack keys).1; offs := (pack keys).2; ebytes := sumLen keyLen keys |})) as [Hi2 Hw2].
  { rewrite pack_spec by done. apply good_add with keys; try done.
    - split; [done|]. intros x ex Hx. eapply Hw. by eapply lookup_weaken.
    - destruct (index h1 !! u) eqn:E1; [|done]. by rewrite (lookup_weaken _ _ _ _ E1 Hsub) in E.
    - unfold entry_ok. cbn [ebytes buf fst]. apply sumLen_concat. }
  split; [|done]. destruct Hi2. by constructor.
Qed.

Lemma good_step h h' : hstep h h' → good h → good h'.
Proof.
  intros Hs Hg. destruct Hs as [h u|h key HU Hsz|h u|h u keys HU Ha Hf|h u|h].
  - unfold Probe. destruct (index h !! u) as [e|] eqn:E; cbn [fst].
    + destruct Hg as [Hi Hw]. pose proof (withLru_touch_inv h u Hi ltac:(by eexists)) as [????]. by split; [constructor|].
    + destruct Hg as [[????] Hw]. by split; [constructor|].
  - by apply good_apply.
  - unfold HydrateEmpty. destruct (index h !! u) as [e|] eqn:E.
    + destruct Hg as [Hi Hw]. split; [by apply withLru_touch_inv|done].
    + apply good_add with []; try done. constructor.
  - by apply good_hydrate.
  - unfold Evict. destruct (index h !! u) as [e|] eqn:E; [by apply good_drop|done].
  - split; [constructor|]; cbn [Clear lru index curBytes]; try done.
    + constructor.
    + intros u. rewrite lookup_empty. split; [by intros ?%elem_of_nil|by intros []].
Qed.

Lemma good_reachable max h : rtc hstep (New max) h → good h.
Proof.
  intros Hr. assert (good (New max)) as H0.
  { split; [constructor|]; cbn [New lru index curBytes]; try done.
    - constructor.
    - intros u. rewrite lookup_empty. split; [by intros ?%elem_of_nil|by intros []]. }
  revert H0. induction Hr as [|x y z Hs _ IH]; [done|]. intros Hx. by apply IH, (good_step x).
Qed.
End reachable.

(** ** Properties *)

(** In every set reached by probes, mirrored writes, hydrations and evictions, the
    recency list names exactly the indexed entities once, [curBytes] is the sum
    of the entries' buffer sizes, and each entry packs an ascending key set with
    one version per logical key. *)
Theorem hydrated_set_sound (U : bytes → Prop) max h :
  (∀ k, U k → (20 ≤ length k)%nat) → (∀ a b, U a → U b → pfree a b) →
  rtc (hstep U) (New max) h →
  NoDup (lru h) ∧ (∀ u, u ∈ lru h ↔ is_Some (index h !! u))
  ∧ curBytes h = map_fold (fun _ e n => Z.of_nat (length (buf e)) + n) 0 (index h)
  ∧ (∀ u e, index h !! u = Some e → ∃ ks, packed e ks ∧ ascending ks ∧ NoDup (map pfx ks) ∧ Forall U ks).
Proof.
  intros Hl Hf Hr. destruct (good_reachable U Hl Hf max h Hr) as [[Hn Hd Hb He] Hw]. split_and!; [done|done| |].
  - rewrite Hb. unfold totalBytes. assert (∀ u e, index h !! u = Some e → entry_ok e) as Hok by (intros u e Hu; by eapply He).
    clear -Hok. induction (index h) as [|u e mp Hn IH] using map_ind; [done|].
    rewrite !map_fold_insert_L by (done || (intros; lia)).
    rewrite (Hok u e) by apply lookup_insert_eq. f_equal. apply IH. intros v ev Hv. apply (Hok v).
    rewrite lookup_insert_ne; [done|]. intros ->. congruence.
  - intros u e Hu. destruct (He u e Hu) as (_&ks&Hp&Hk). destruct (Hw u e Hu) as (ks2&Hp2&HU).
    rewrite (packed_unique e ks2 ks Hp2 Hp) in HU. exists ks. split_and!; [done|by apply keys_inv_ascending| |done].
    by apply ascending_NoDup, kinv_asc.
Qed.

Lemma hydrated_set_sound_witness :
  let k := BuildEavtKey 7 3 (EncodeInt 5) 100 false in
  curBytes (ApplyKey (HydrateEmpty (New 1000) 7) k) = 28
  ∧ NoDup (lru (ApplyKey (HydrateEmpty (New 1000) 7) k)).
Proof.
  cbv zeta. set (k := BuildEavtKey 7 3 (EncodeInt 5) 100 false).
  split; [by vm_compute|].
  destruct (hydrated_set_sound (fun x => x = k) 1000 (ApplyKey (HydrateEmpty (New 1000) 7) k)) as [H _]; [| | |exact H].
  - intros x ->. apply Nat.leb_le. by vm_compute.
  - intros a b -> -> _. done.
  - eapply rtc_l; [apply (step_hydrate_empty _ _ 7)|]. eapply rtc_l; [|apply rtc_refl]. apply step_apply; [done|].
    intros e He. replace (index (HydrateEmpty (New 1000) 7) !! decodeEID (beUint64 k 0))
      with (Some {| eid := 7; buf := []; offs := []; ebytes := 0 |}) in He by (by vm_compute). injection He as <-. by vm_compute.
Defined.

(** A hydrated scan reads the packed buffer exactly: [LookupRange] returns the
    entry's keys with the prefix and [KeysFrom] its keys from the target on,
    both in order. *)
Theorem hydrated_reads_exact h u e ks prefix :
  index h !! u = Some e → packed e ks → ascending ks →
  LookupRange h u prefix = filter (fun k => has_prefix k prefix = true) ks
  ∧ KeysFrom h u prefix = filter (fun k => prefix <=b k) ks.
Proof. intros. split; [by eapply LookupRange_spec|by eapply KeysFrom_spec]. Qed.

Lemma hydrated_reads_exact_witness :
  let h := addEntry (New 100) 7 {| eid := 7; buf := [1; 2; 1; 3; 9]; offs := [0; 2]; ebytes := 5 |} in
  LookupRange h 7 [1; 3] = [[1; 3; 9]].
Proof.
  cbv zeta. set (h := addEntry _ _ _).
  destruct (hydrated_reads_exact h 7 {| eid := 7; buf := [1; 2; 1; 3; 9]; offs := [0; 2]; ebytes := 5 |} [[1; 2]; [1; 3; 9]] [1; 3])
    as [H _]; [done|done|repeat constructor|rewrite H; by vm_compute].
Defined.
