(* ===== verification/Cursors.v ===== *)
(** * Cursors (go/internal/cursor/cursor.go, go/internal/memtable/run_cursor.go)

    The cursor interface as a class with laws, the run cursor and the in-memory
    cursors as instances, and the merged cursor proved against the interface:
    it reads the ascending, duplicate-free union of its sources. *)

From S2P Require Import Prelude Pages NewestWins Memtable MinHeap Hydrated.

(** ** The interface

    A Go method may move its receiver, so the reads return the new state too. *)

Class Cursor (C : Type) : Type := {
  Valid : C → bool;
  CurrentKey : C → C * option bytes;
  CurrentPair : C → C * option (bytes * bytes);
  Step : C → C;
  Seek : C → bytes → C;
  Invalidate : C → C;
}.

(** What a source promises: its contents are ascending keys, and it stands at
    some point of them. *)
Class CursorLaws (C : Type) `{Cursor C} : Type := {
  cinv : C → Prop;
  contents : C → list bytes;
  remaining : C → list bytes;
  law_sorted c : cinv c → ascending (contents c);
  law_remaining c : cinv c → ascending (remaining c);
  law_invalid c : cinv c → Valid c = false → remaining c = [];
  law_key c : cinv c → Valid c = true →
    cinv (CurrentKey c).1 ∧ contents (CurrentKey c).1 = contents c
    ∧ remaining (CurrentKey c).1 = remaining c ∧ (CurrentKey c).2 = head (remaining c);
  law_pair c : cinv c →
    cinv (CurrentPair c).1 ∧ contents (CurrentPair c).1 = contents c ∧ remaining (CurrentPair c).1 = remaining c;
  law_step c : cinv c → remaining c ≠ [] →
    cinv (Step c) ∧ contents (Step c) = contents c ∧ remaining (Step c) = tail (remaining c);
  law_seek c t : cinv c →
    cinv (Seek c t) ∧ contents (Seek c t) = contents c
    ∧ remaining (Seek c t) = filter (fun k => t <=b k) (contents c);
}.

(** ** Run cursors (run_cursor.go) *)

Record RunCursor : Type := { run : Run; pos : nat; atEnd : bool }.

(** A nil run is an empty one: both make the cursor start at its end. *)
Definition NewRunCursor (r : Run) : RunCursor :=
  {| run := r; pos := 0; atEnd := Nat.eqb (length (Records r)) 0 |}.

Module runCursor.
Definition seekStack (c : RunCursor) (target : bytes) : RunCursor :=
  {| run := run c; pos := lowerBound recKey (Records (run c)) target; atEnd := atEnd c |}.

Definition advance (c : RunCursor) : RunCursor :=
  if atEnd c then c
  else let p := S (pos c) in
       {| run := run c; pos := p; atEnd := if Nat.leb (length (Records (run c))) p then true else atEnd c |}.

Definition Peek (c : RunCursor) : option bytes :=
  if atEnd c || Nat.leb (length (Records (run c))) (pos c) then None
  else recKey <$> Records (run c) !! pos c.

Definition Next (c : RunCursor) : RunCursor * option bytes :=
  match Peek c with
  | Some k => (advance c, Some k)
  | None => (c, None)
  end.

(** Skips tombstones; the cursor's end bounds the loop. *)
Fixpoint peekKvLoop (fuel : nat) (c : RunCursor) : res (RunCursor * option (bytes * bytes)) :=
  match fuel with
  | O => Ok (c, None)
  | S fuel' =>
      if atEnd c then Ok (c, None)
      else match Records (run c) !! pos c with
           | None => Panic
           | Some p =>
               if negb (recDeleted p) then v ← recValue p; Ok (c, Some (recKey p, v))
               else peekKvLoop fuel' (advance c)
           end
  end.
Definition PeekKv (c : RunCursor) : res (RunCursor * option (bytes * bytes)) :=
  peekKvLoop (S (length (Records (run c)) - pos c)) c.

Definition NextKv (c : RunCursor) : res (RunCursor * option (bytes * bytes)) :=
  '(c, got) ← PeekKv c;
  match got with
  | Some p => Ok (advance c, Some p)
  | None => Ok (c, None)
  end.

Fixpoint nextDeletedLoop (fuel : nat) (c : RunCursor) : res (RunCursor * option bytes) :=
  match fuel with
  | O => Ok (c, None)
  | S fuel' =>
      if atEnd c then Ok (c, None)
      else match Records (run c) !! pos c with
           | None => Panic
           | Some p =>
               if recDeleted p then Ok (advance c, Some (recKey p))
               else nextDeletedLoop fuel' (advance c)
           end
  end.
Definition NextDeleted (c : RunCursor) : res (RunCursor * option bytes) :=
  nextDeletedLoop (S (length (Records (run c)) - pos c)) c.

Definition Seek (c : RunCursor) (target : bytes) : RunCursor :=
  let c := seekStack c target in
  {| run := run c; pos := pos c; atEnd := Nat.leb (length (Records (run c))) (pos c) |}.

Definition AtEnd (c : RunCursor) : bool := atEnd c.
Definition SetAtEnd (c : RunCursor) (v : bool) : RunCursor := {| run := run c; pos := pos c; atEnd := v |}.
End runCursor.

(** [runCursorC]: the run cursor behind the interface, tombstones included. *)
#[export] Instance runCursor_cursor : Cursor RunCursor := {
  Valid c := negb (runCursor.AtEnd c);
  CurrentKey c := (c, runCursor.Peek c);
  CurrentPair c := (c, None);
  Step c := (runCursor.Next c).1;
  Seek c t := runCursor.Seek c t;
  Invalidate c := runCursor.SetAtEnd c true;
}.

Lemma drop_ascending n (l : list bytes) : ascending l → ascending (drop n l).
Proof. apply ascending_sublist. apply sublist_drop. Qed.

#[export] Program Instance runCursor_laws : CursorLaws RunCursor := {
  cinv c := ascending (map recKey (Records (run c)))
            ∧ (atEnd c = false → (pos c < length (Records (run c)))%nat);
  contents c := map recKey (Records (run c));
  remaining c := if atEnd c then [] else drop (pos c) (map recKey (Records (run c)));
}.
Next Obligation. by intros c [? _]. Qed.
Next Obligation. intros c [Ha _]. destruct (atEnd c); [constructor|by apply drop_ascending]. Qed.
Next Obligation. intros c _. cbn. unfold runCursor.AtEnd. by destruct (atEnd c). Qed.
Next Obligation.
  intros c [Ha Hp]. cbn. unfold runCursor.AtEnd, runCursor.Peek. destruct (atEnd c); [done|]. intros _.
  split_and!; [done|done|done|done|]. specialize (Hp eq_refl). cbn [orb]. rewrite (proj2 (Nat.leb_gt _ _)) by done.
  destruct (lookup_lt_is_Some_2 (Records (run c)) (pos c) Hp) as [p E]. rewrite E. cbn [fmap option_fmap option_map].
  rewrite (drop_S _ (recKey p)); [done|]. by rewrite list_lookup_fmap, E.
Qed.
Next Obligation. done. Qed.
Next Obligation.
  intros c [Ha Hp] Hne. cbn. unfold runCursor.Next, runCursor.Peek, runCursor.advance.
  destruct (atEnd c) eqn:Ea; [done|]. specialize (Hp eq_refl). cbn [orb]. rewrite (proj2 (Nat.leb_gt _ _)) by done.
  destruct (lookup_lt_is_Some_2 (Records (run c)) (pos c) Hp) as [p E]. rewrite E. cbn [fmap option_fmap option_map fst run pos atEnd].
  split_and!; [done| |done|].
  - destruct (Nat.leb_spec (length (Records (run c))) (S (pos c))); [done|lia].
  - rewrite (drop_S _ (recKey p) (pos c)) by (by rewrite list_lookup_fmap, E). cbn [tail].
    destruct (Nat.leb_spec (length (Records (run c))) (S (pos c))); [|done].
    rewrite drop_ge; [done|]. rewrite length_map. lia.
Qed.
Next Obligation.
  intros c t [Ha Hp]. cbn. unfold runCursor.Seek, runCursor.seekStack. cbn [run pos atEnd].
  destruct (lowerBound_drop recKey (Records (run c)) t Ha) as [Hd _].
  assert (filter (fun k => t <=b k) (map recKey (Records (run c)))
    = map recKey (drop (lowerBound recKey (Records (run c)) t) (Records (run c)))) as Hf.
  { rewrite Hd. clear. induction (Records (run c)) as [|p l IH]; [done|]. cbn [map]. rewrite !filter_cons.
    case_decide; cbn [map]; by rewrite IH. }
  split_and!; [done| |done|].
  - destruct (Nat.leb_spec (length (Records (run c))) (lowerBound recKey (Records (run c)) t)); [done|lia].
  - rewrite Hf. destruct (Nat.leb_spec (length (Records (run c))) (lowerBound recKey (Records (run c)) t)).
    + by rewrite drop_ge.
    + symmetry. apply (fmap_drop recKey).
Qed.

(** ** In-memory cursors: [mockCursor] and [hydCursor] *)

Record keysCursor : Type := { keys : list bytes; kpos : nat }.

(** [prefixCmp]: the comparison over the target's length. *)
Fixpoint prefixCmp (k target : bytes) : Z :=
  match target with
  | [] => 0
  | y :: target' =>
      match k with
      | [] => -1
      | x :: k' => if x <? y then -1 else if x >? y then 1 else prefixCmp k' target'
      end
  end.

Definition mockSeek (c : keysCursor) (target : bytes) : keysCursor :=
  {| keys := keys c;
     kpos := bsearch (fun mid => match keys c !! mid with
                                 | Some k => prefixCmp k target <? 0
                                 | None => false
                                 end) (length (keys c)) |}.
Definition hydSeek (c : keysCursor) (target : bytes) : keysCursor :=
  {| keys := keys c; kpos := lowerBound id (keys c) target |}.

#[export] Instance keys_cursor : Cursor keysCursor := {
  Valid c := Nat.ltb (kpos c) (length (keys c));
  CurrentKey c := (c, if Nat.ltb (kpos c) (length (keys c)) then keys c !! kpos c else None);
  CurrentPair c := (c, None);
  Step c := {| keys := keys c; kpos := S (kpos c) |};
  Seek c t := hydSeek c t;
  Invalidate c := {| keys := keys c; kpos := length (keys c) |};
}.

#[export] Program Instance keys_laws : CursorLaws keysCursor := {
  cinv c := ascending (keys c);
  contents c := keys c;
  remaining c := drop (kpos c) (keys c);
}.
Next Obligation. done. Qed.
Next Obligation. intros c. cbn. apply drop_ascending. Qed.
Next Obligation. intros c _ Hv. cbn in Hv. apply Nat.ltb_ge in Hv. by apply drop_ge. Qed.
Next Obligation.
  intros c Ha Hv. cbn in *. split_and!; [done..|]. rewrite Hv. apply Nat.ltb_lt in Hv.
  destruct (lookup_lt_is_Some_2 (keys c) (kpos c) Hv) as [k Hk]. by rewrite (drop_S _ k), Hk.
Qed.
Next Obligation. done. Qed.
Next Obligation.
  intros c Ha Hne. cbn. split_and!; [done..|]. destruct (keys c !! kpos c) as [k|] eqn:E.
  - by rewrite (drop_S _ k (kpos c)).
  - apply lookup_ge_None in E. by rewrite !drop_ge by lia.
Qed.
Next Obligation.
  intros c t Ha. cbn. split_and!; [done..|].
  destruct (lowerBound_drop id (keys c) t) as [Hd _]; [by rewrite map_id|]. exact Hd.
Qed.

Lemma prefixCmp_lt k t : (prefixCmp k t <? 0) = (CmpSeq k t <? 0).
Proof.
  revert k. induction t as [|y t IH]; intros [|x k]; cbn [prefixCmp CmpSeq]; try done.
  destruct (x <? y); [done|]. destruct (x >? y); [done|]. apply IH.
Qed.

(** The two in-memory cursors seek alike. *)
Lemma mockSeek_hydSeek c t : mockSeek c t = hydSeek c t.
Proof.
  unfold mockSeek, hydSeek, lowerBound, bsearch. f_equal. generalize (length (keys c)) at 1 3 as fuel.
  intros fuel. generalize 0%nat at 1 2 as lo. generalize (length (keys c)) as hi. revert fuel.
  induction fuel as [|fuel IH]; intros hi lo; cbn [bsearch_loop]; [done|].
  destruct (Nat.ltb lo hi); [|done]. destruct (keys c !! Nat.div2 (lo + hi)) as [k|]; [|apply IH].
  cbn [id]. rewrite prefixCmp_lt. destruct (CmpSeq k t <? 0); apply IH.
Qed.

(** ** Key-value run cursors ([runKvCursorC]) *)

Record RunKvCursor : Type := { kvc : RunCursor }.

(** Reading a value panics only on a key-only record, which a key-value run
    does not hold ([kvrec_ok] below). *)
Definition noPanic {A} (c : RunCursor) (r : res (RunCursor * option A)) : RunKvCursor * option A :=
  match r with Ok (c', a) => ({| kvc := c' |}, a) | _ => ({| kvc := c |}, None) end.

#[export] Instance runKvCursor_cursor : Cursor RunKvCursor := {
  Valid c := negb (runCursor.AtEnd (kvc c));
  CurrentKey c := let '(c', p) := noPanic (kvc c) (runCursor.PeekKv (kvc c)) in (c', fst <$> p);
  CurrentPair c := noPanic (kvc c) (runCursor.PeekKv (kvc c));
  Step c := (noPanic (kvc c) (runCursor.NextKv (kvc c))).1;
  Seek c t := {| kvc := runCursor.Seek (kvc c) t |};
  Invalidate c := {| kvc := runCursor.SetAtEnd (kvc c) true |};
}.

Definition kvrec_ok (p : bytes) : Prop := ∃ v, recValue p = Ok v.
Definition isLive (p : bytes) : Prop := recDeleted p = false.

Definition liveFrom (c : RunCursor) : list bytes :=
  if atEnd c then [] else filter isLive (drop (pos c) (Records (run c))).

Definition run_cinv (c : RunCursor) : Prop :=
  ascending (map recKey (Records (run c))) ∧ Forall kvrec_ok (Records (run c))
  ∧ (atEnd c = false → (pos c < length (Records (run c)))%nat).

Lemma advance_live c p :
  run_cinv c → atEnd c = false → Records (run c) !! pos c = Some p →
  run_cinv (runCursor.advance c) ∧ run (runCursor.advance c) = run c
  ∧ liveFrom c = (if recDeleted p then [] else [p]) ++ liveFrom (runCursor.advance c).
Proof.
  intros (Ha&Hk&Hp) Ea E. unfold runCursor.advance, liveFrom, run_cinv. rewrite Ea. cbn [run pos atEnd].
  split_and!; [done|done| |done|].
  - destruct (Nat.leb_spec (length (Records (run c))) (S (pos c))); [done|lia].
  - rewrite (drop_S _ p (pos c)) by done. rewrite filter_cons.
    destruct (Nat.leb_spec (length (Records (run c))) (S (pos c))).
    + rewrite (drop_ge _ (S (pos c))) by lia. unfold isLive. by destruct (recDeleted p).
    + unfold isLive. by destruct (recDeleted p).
Qed.

Lemma peekKvLoop_spec fuel c :
  run_cinv c → (length (Records (run c)) - pos c < fuel)%nat →
  ∃ c' got, runCursor.peekKvLoop fuel c = Ok (c', got) ∧ run_cinv c' ∧ run c' = run c
    ∧ liveFrom c' = liveFrom c ∧ (fst <$> got) = recKey <$> head (liveFrom c)
    ∧ match got with
      | Some _ => atEnd c' = false ∧ ∃ p, Records (run c') !! pos c' = Some p ∧ recDeleted p = false
      | None => True
      end.
Proof.
  revert c. induction fuel as [|fuel IH]; intros c Hc Hf; [lia|]. cbn [runCursor.peekKvLoop].
  destruct (atEnd c) eqn:Ea.
  { exists c, None. repeat split; try apply Hc. unfold liveFrom. by rewrite Ea. }
  pose proof Hc as (Ha&Hk&Hp). specialize (Hp Ea). destruct (lookup_lt_is_Some_2 _ _ Hp) as [p E]. rewrite E.
  destruct (advance_live c p Hc Ea E) as (Hc'&Hr'&Hl). destruct (recDeleted p) eqn:Ed; cbn [negb].
  - destruct (IH (runCursor.advance c) Hc') as (c'&got&->&H1&H2&H3&H4&H5).
    { rewrite Hr'. unfold runCursor.advance. rewrite Ea. cbn [pos]. lia. }
    exists c', got. rewrite Hl. cbn [app]. rewrite H2, Hr' in *. repeat (split; [done|]). done.
  - rewrite Forall_lookup in Hk. destruct (Hk _ _ E) as [v ->]. rewrite res_bind_ret.
    exists c, (Some (recKey p, v)). rewrite Hl. split; [done|]. split; [done|]. repeat split; [done|]. by exists p.
Qed.

Lemma PeekKv_spec c :
  run_cinv c →
  ∃ c' got, runCursor.PeekKv c = Ok (c', got) ∧ run_cinv c' ∧ run c' = run c
    ∧ liveFrom c' = liveFrom c ∧ (fst <$> got) = recKey <$> head (liveFrom c)
    ∧ match got with
      | Some _ => atEnd c' = false ∧ ∃ p, Records (run c') !! pos c' = Some p ∧ recDeleted p = false
      | None => True
      end.
Proof. intros Hc. apply peekKvLoop_spec; [done|lia]. Qed.

Definition liveKeys (r : Run) : list bytes := map recKey (filter isLive (Records r)).

Lemma filter_recKey P `{!∀ x : bytes, Decision (P x)} l :
  filter P (map recKey l) = map recKey (filter (fun p => P (recKey p)) l).
Proof.
  induction l as [|p l IH]; [done|]. cbn [map]. rewrite !filter_cons. case_decide; cbn [map]; by rewrite IH.
Qed.

Lemma liveKeys_ascending l n :
  ascending (map recKey l) → ascending (map recKey (filter isLive (drop n l))).
Proof.
  apply ascending_sublist. etrans; [|apply (sublist_drop (map recKey l) n)].
  rewrite <- (fmap_drop recKey). generalize (drop n l). clear.
  induction l as [|p l IH]; [constructor|]. rewrite filter_cons. cbn [fmap list_fmap].
  case_decide; cbn [map]; [by apply sublist_skip|by apply sublist_cons].
Qed.

#[export] Program Instance runKvCursor_laws : CursorLaws RunKvCursor := {
  cinv c := run_cinv (kvc c);
  contents c := liveKeys (run (kvc c));
  remaining c := map recKey (liveFrom (kvc c));
}.
Next Obligation. intros c (Ha&_&_). by apply (liveKeys_ascending _ 0). Qed.
Next Obligation.
  intros c (Ha&_&_). cbn. unfold liveFrom. destruct (atEnd (kvc c)); [constructor|by apply liveKeys_ascending].
Qed.
Next Obligation. intros c _. cbn. unfold runCursor.AtEnd, liveFrom. by destruct (atEnd (kvc c)). Qed.
Next Obligation.
  intros c Hc _. cbn [CurrentKey runKvCursor_cursor]. destruct (PeekKv_spec (kvc c) Hc) as (c'&got&->&H1&H2&H3&H4&_). cbn [noPanic fst snd kvc].
  split_and!; [done|by rewrite H2|by rewrite H3|]. rewrite H4. by destruct (liveFrom (kvc c)).
Qed.
Next Obligation.
  intros c Hc. cbn [CurrentPair runKvCursor_cursor]. destruct (PeekKv_spec (kvc c) Hc) as (c'&got&->&H1&H2&H3&_). cbn [noPanic fst kvc].
  split_and!; [done|by rewrite H2|by rewrite H3].
Qed.
Next Obligation.
  intros c Hc Hne. cbn [Step runKvCursor_cursor]. destruct (PeekKv_spec (kvc c) Hc) as (c'&got&E&H1&H2&H3&H4&H5).
  unfold runCursor.NextKv. rewrite E, res_bind_ret. cbv beta iota.
  destruct got as [[k v]|]; cbn [noPanic fst kvc].
  - destruct H5 as (Ea&p&Ep&Ed). destruct (advance_live c' p H1 Ea Ep) as (Hc'&Hr'&Hl). rewrite Ed in Hl. cbn [app] in Hl.
    split_and!; [done|by rewrite Hr', H2|]. rewrite <- H3, Hl. done.
  - exfalso. revert Hne H4. cbn beta. by destruct (liveFrom (kvc c)).
Qed.
Next Obligation.
  intros c t (Ha&Hk&Hp). cbn. unfold runCursor.Seek, runCursor.seekStack, run_cinv, liveFrom, liveKeys. cbn [run pos atEnd].
  destruct (lowerBound_drop recKey (Records (run (kvc c))) t Ha) as [Hd _].
  split_and!; [done|done| |done|].
  - destruct (Nat.leb_spec (length (Records (run (kvc c)))) (lowerBound recKey (Records (run (kvc c))) t)); [done|lia].
  - assert (filter (fun k => t <=b k) (map recKey (filter isLive (Records (run (kvc c)))))
      = map recKey (filter isLive (drop (lowerBound recKey (Records (run (kvc c))) t) (Records (run (kvc c)))))) as ->.
    { rewrite filter_recKey, Hd, !list_filter_filter. f_equal. apply list_filter_iff. intros p. tauto. }
    destruct (Nat.leb_spec (length (Records (run (kvc c)))) (lowerBound recKey (Records (run (kvc c))) t)); [by rewrite drop_ge|done].
Qed.
