(* ===== verification/MergedCursor.v ===== *)
(** * The merged cursor (go/internal/cursor/cursor.go)

    A k-way merge over any sources that keep the cursor laws: iterating it
    reads the ascending union of the sources, each key once. *)

From S2P Require Import Prelude Pages MinHeap Hydrated Cursors.

(** Sources that can also be a hydrated entry's keys ([hydCursor]). *)
Class HydSource (C : Type) : Type := { ofKeys : list bytes → C }.

Record MergedCursor (C : Type) : Type := {
  sources : list C;
  heap : list heapEntry;
  lastKey : bytes;
  hasLast : bool;
  mAtEnd : bool;
  curKey : bytes;
  hasKey : bool;
  curPair : bytes * bytes;
  hasPair : bool;
  IsKv : bool;
  CF : Z;
  hydMode : bool;
  baseSources : list C;
}.
Arguments sources {C} m.
Arguments heap {C} m.
Arguments lastKey {C} m.
Arguments hasLast {C} m.
Arguments mAtEnd {C} m.
Arguments curKey {C} m.
Arguments hasKey {C} m.
Arguments curPair {C} m.
Arguments hasPair {C} m.
Arguments IsKv {C} m.
Arguments CF {C} m.
Arguments hydMode {C} m.
Arguments baseSources {C} m.

Section merged.
Context {C : Type} `{Cursor C}.

(** Pushes the key the source stands at, if it stands at one. *)
Definition refill (cs : list C) (h : list heapEntry) (i : nat) : list C * list heapEntry :=
  match cs !! i with
  | None => (cs, h)
  | Some c =>
      if Valid c then
        let '(c', k) := CurrentKey c in
        let cs := <[i := c']> cs in
        match k with
        | Some k => (cs, push h {| hkey := k; src := i |})
        | None => (cs, h)
        end
      else (cs, h)
  end.

Fixpoint seedHeap (n i : nat) (cs : list C) (h : list heapEntry) : list C * list heapEntry :=
  match n with
  | O => (cs, h)
  | S n' => let '(cs, h) := refill cs h i in seedHeap n' (S i) cs h
  end.
Definition seed (cs : list C) : list C * list heapEntry := seedHeap (length cs) 0 cs [].

Definition NewMergedCursor (cs : list C) : MergedCursor C :=
  let '(cs, h) := seed cs in
  {| sources := cs; heap := h; lastKey := []; hasLast := false; mAtEnd := false;
     curKey := []; hasKey := false; curPair := ([], []); hasPair := false;
     IsKv := false; CF := 0; hydMode := false; baseSources := [] |}.

Definition AddSource (mc : MergedCursor C) (c : C) : MergedCursor C :=
  let cs := sources mc ++ [c] in
  let '(cs, h) := refill cs (heap mc) (length cs - 1) in
  {| sources := cs; heap := h; lastKey := lastKey mc; hasLast := hasLast mc; mAtEnd := mAtEnd mc;
     curKey := curKey mc; hasKey := hasKey mc; curPair := curPair mc; hasPair := hasPair mc;
     IsKv := IsKv mc; CF := CF mc; hydMode := hydMode mc; baseSources := baseSources mc |}.

(** [src.Step()] and the push of its next key. *)
Definition stepSource (cs : list C) (h : list heapEntry) (i : nat) : list C * list heapEntry :=
  match cs !! i with
  | None => (cs, h)
  | Some c => refill (<[i := Step c]> cs) h i
  end.

(** The source of a duplicate is stepped only while it is valid. *)
Definition stepDuplicate (cs : list C) (h : list heapEntry) (i : nat) : list C * list heapEntry :=
  match cs !! i with
  | None => (cs, h)
  | Some c => if Valid c then stepSource cs h i else (cs, h)
  end.

Definition withSources (mc : MergedCursor C) (s : list C * list heapEntry) : MergedCursor C :=
  {| sources := s.1; heap := s.2; lastKey := lastKey mc; hasLast := hasLast mc; mAtEnd := mAtEnd mc;
     curKey := curKey mc; hasKey := hasKey mc; curPair := curPair mc; hasPair := hasPair mc;
     IsKv := IsKv mc; CF := CF mc; hydMode := hydMode mc; baseSources := baseSources mc |}.

(** Stands at [e]: the pair is read before the source is stepped. *)
Definition emit (mc : MergedCursor C) (h : list heapEntry) (e : heapEntry) : MergedCursor C :=
  let '(cs, p, has) :=
    if IsKv mc then
      match sources mc !! src e with
      | None => (sources mc, curPair mc, hasPair mc)
      | Some c =>
          let '(c', got) := CurrentPair c in
          (<[src e := c']> (sources mc), default ([], []) got, bool_decide (is_Some got))
      end
    else (sources mc, curPair mc, hasPair mc) in
  let '(cs, h) := stepSource cs h (src e) in
  {| sources := cs; heap := h; lastKey := hkey e; hasLast := true; mAtEnd := mAtEnd mc;
     curKey := hkey e; hasKey := true; curPair := p; hasPair := has;
     IsKv := IsKv mc; CF := CF mc; hydMode := hydMode mc; baseSources := baseSources mc |}.

Definition finish (mc : MergedCursor C) : MergedCursor C :=
  {| sources := sources mc; heap := heap mc; lastKey := lastKey mc; hasLast := hasLast mc; mAtEnd := true;
     curKey := curKey mc; hasKey := false; curPair := curPair mc; hasPair := false;
     IsKv := IsKv mc; CF := CF mc; hydMode := hydMode mc; baseSources := baseSources mc |}.

Fixpoint advanceLoop (fuel : nat) (mc : MergedCursor C) : res (MergedCursor C) :=
  match fuel with
  | O => Diverge
  | S fuel' =>
      match heap mc with
      | [] => Ok (finish mc)
      | _ =>
          '(h, e) ← pop (heap mc);
          if hasLast mc && (CmpSeq (hkey e) (lastKey mc) =? 0) then
            advanceLoop fuel' (withSources mc (stepDuplicate (sources mc) h (src e)))
          else Ok (emit mc h e)
      end
  end.

(** The fuel bounds the duplicates skipped in one call. *)
Definition advance (fuel : nat) (mc : MergedCursor C) : res (MergedCursor C) :=
  if mAtEnd mc then Ok mc else advanceLoop fuel mc.

Definition ensure (fuel : nat) (mc : MergedCursor C) : res (MergedCursor C) :=
  if negb (hasKey mc) && negb (mAtEnd mc) && negb (hasPair mc) then advance fuel mc else Ok mc.

Definition Peek (fuel : nat) (mc : MergedCursor C) : res (MergedCursor C * option bytes) :=
  mc ← ensure fuel mc;
  Ok (mc, if mAtEnd mc then None else if hasKey mc then Some (curKey mc) else None).

Definition dropKey (mc : MergedCursor C) : MergedCursor C :=
  {| sources := sources mc; heap := heap mc; lastKey := lastKey mc; hasLast := hasLast mc; mAtEnd := mAtEnd mc;
     curKey := curKey mc; hasKey := false; curPair := curPair mc; hasPair := hasPair mc;
     IsKv := IsKv mc; CF := CF mc; hydMode := hydMode mc; baseSources := baseSources mc |}.
Definition dropPair (mc : MergedCursor C) : MergedCursor C :=
  {| sources := sources mc; heap := heap mc; lastKey := lastKey mc; hasLast := hasLast mc; mAtEnd := mAtEnd mc;
     curKey := curKey mc; hasKey := hasKey mc; curPair := curPair mc; hasPair := false;
     IsKv := IsKv mc; CF := CF mc; hydMode := hydMode mc; baseSources := baseSources mc |}.

Definition Next (fuel : nat) (mc : MergedCursor C) : res (MergedCursor C * option bytes) :=
  mc ← ensure fuel mc;
  let k := if hasKey mc then Some (curKey mc) else None in
  mc ← advance fuel (dropKey mc);
  Ok (mc, k).

Definition PeekKv (fuel : nat) (mc : MergedCursor C) : res (MergedCursor C * option (bytes * bytes)) :=
  mc ← ensure fuel mc;
  Ok (mc, if mAtEnd mc then None else if hasPair mc then Some (curPair mc) else None).
Definition NextKv (fuel : nat) (mc : MergedCursor C) : res (MergedCursor C * option (bytes * bytes)) :=
  mc ← ensure fuel mc;
  let p := if hasPair mc then Some (curPair mc) else None in
  mc ← advance fuel (dropPair mc);
  Ok (mc, p).

(** Where a seek leaves the cursor before it advances. *)
Definition reseat (mc : MergedCursor C) (cs : list C) (h : list heapEntry) (mode : bool) (base : list C)
  : MergedCursor C :=
  {| sources := cs; heap := h; lastKey := []; hasLast := false; mAtEnd := false;
     curKey := curKey mc; hasKey := false; curPair := curPair mc; hasPair := false;
     IsKv := IsKv mc; CF := CF mc; hydMode := mode; baseSources := base |}.

Definition seekSources (fuel : nat) (mc : MergedCursor C) (cs base : list C) (mode : bool) (target : bytes)
  : res (MergedCursor C) :=
  let '(cs, h) := seed (map (fun c => Seek c target) cs) in
  advance fuel (reseat mc cs h mode base).

(** [Hyd] is the hydrated set, nil for none. *)
Definition MergedSeek `{HydSource C} (fuel : nat) (mc : MergedCursor C) (Hyd : option Set_) (target : bytes)
  : res (MergedCursor C * option Set_) :=
  match Hyd with
  | Some set =>
      if (CF mc =? 0) && Nat.leb 8 (length target) then
        let eid := decodeEID (beUint64 target 0) in
        let '(set, complete) := ProbeComplete set eid in
        if complete then
          let base := if hydMode mc then baseSources mc else sources mc in
          let '(cs, h) := seed [ofKeys (KeysFrom set eid target)] in
          mc ← advance fuel (reseat mc cs h true base);
          Ok (mc, Some set)
        else
          let cs := if hydMode mc then baseSources mc else sources mc in
          mc ← seekSources fuel mc cs (baseSources mc) false target;
          Ok (mc, Some set)
      else
        mc ← seekSources fuel mc (sources mc) (baseSources mc) (hydMode mc) target;
        Ok (mc, Hyd)
  | None =>
      mc ← seekSources fuel mc (sources mc) (baseSources mc) (hydMode mc) target;
      Ok (mc, Hyd)
  end.

(** Reads to the end, as the scans of the engine do. *)
Fixpoint iterate (fuel : nat) (mc : MergedCursor C) : res (list bytes) :=
  match fuel with
  | O => Diverge
  | S fuel' =>
      '(mc', k) ← Next fuel mc;
      match k with
      | None => Ok []
      | Some k => rest ← iterate fuel' mc'; Ok (k :: rest)
      end
  end.
End merged.

(** ** The merge is the union *)

Section correct.
Context {C : Type} `{HC : Cursor C} `{HL : !CursorLaws C}.

Definition all_inv (cs : list C) : Prop := Forall cinv cs.

(** The keys still to be read, over all sources. *)
Definition rest (cs : list C) : list bytes := concat (map remaining cs).

(** The entry a source contributes to the heap. *)
Definition headEntry (i : nat) (c : C) : list heapEntry :=
  match remaining c with k :: _ => [{| hkey := k; src := i |}] | [] => [] end.

Fixpoint headsFrom (i : nat) (cs : list C) : list heapEntry :=
  match cs with [] => [] | c :: cs' => headEntry i c ++ headsFrom (S i) cs' end.

Lemma headsFrom_app i a b : headsFrom i (a ++ b) = headsFrom i a ++ headsFrom (i + length a) b.
Proof.
  revert i. induction a as [|c a IH]; intros i; cbn [app headsFrom length]; [by rewrite Nat.add_0_r|].
  rewrite IH, <- app_assoc. do 3 f_equal. lia.
Qed.

Lemma headsFrom_insert cs i c c' :
  cs !! i = Some c →
  headsFrom 0 cs ≡ₚ headEntry i c ++ headsFrom 0 (take i cs) ++ headsFrom (S i) (drop (S i) cs)
  ∧ headsFrom 0 (<[i := c']> cs) ≡ₚ headEntry i c' ++ headsFrom 0 (take i cs) ++ headsFrom (S i) (drop (S i) cs).
Proof.
  intros Hc. pose proof (lookup_lt_Some _ _ _ Hc) as Hi.
  assert (length (take i cs) = i) as Hl by (apply length_take_le; lia).
  split.
  - rewrite <- (take_drop_middle cs i c Hc) at 1. rewrite headsFrom_app, Hl. cbn [headsFrom Nat.add].
    rewrite !app_assoc. by rewrite (Permutation_app_comm (headsFrom 0 (take i cs))).
  - rewrite insert_take_drop by done. rewrite headsFrom_app, Hl. cbn [headsFrom Nat.add].
    rewrite !app_assoc. by rewrite (Permutation_app_comm (headsFrom 0 (take i cs))).
Qed.

Lemma headsFrom_src i cs e : e ∈ headsFrom i cs → ∃ j c t, src e = (i + j)%nat ∧ cs !! j = Some c ∧ remaining c = hkey e :: t.
Proof.
  revert i. induction cs as [|c cs IH]; intros i; cbn [headsFrom]; [by intros ?%elem_of_nil|].
  intros [Hin|Hin]%elem_of_app.
  - unfold headEntry in Hin. destruct (remaining c) as [|k t] eqn:E; [by apply elem_of_nil in Hin|].
    apply list_elem_of_singleton in Hin as ->. exists 0%nat, c, t. cbn [src hkey]. split_and!; [lia|done|done].
  - destruct (IH _ Hin) as (j&c'&t&Hs&Hj&Hr). exists (S j), c', t. split_and!; [lia|done|done].
Qed.

(** Heap and sources agree, the heap is in order, and what was read is below. *)
Record merge_inv (mc : MergedCursor C) : Prop := {
  mi_src : all_inv (sources mc);
  mi_heap : heap_ok (heap mc);
  mi_perm : heap mc ≡ₚ headsFrom 0 (sources mc);
  mi_last : hasLast mc = true → Forall (fun k => lastKey mc <=b k) (rest (sources mc));
}.

(** The union of what the sources still hold, less the key just read. *)
Definition pending (mc : MergedCursor C) (k : bytes) : Prop :=
  k ∈ rest (sources mc) ∧ (hasLast mc = true → k ≠ lastKey mc).

Lemma elem_of_rest cs k : k ∈ rest cs ↔ ∃ i c, cs !! i = Some c ∧ k ∈ remaining c.
Proof.
  unfold rest. revert k. induction cs as [|c cs IH]; intros k; cbn [map concat].
  - split; [by intros ?%elem_of_nil|by intros (i&c&?&_)].
  - rewrite elem_of_app, IH. split.
    + intros [Hk|(i&c'&Hi&Hk)]; [by exists 0%nat, c|by exists (S i), c'].
    + intros ([|i]&c'&Hi&Hk); [left; by simplify_eq/=|right; by exists i, c'].
Qed.

Lemma rest_insert cs i c c' k :
  cs !! i = Some c → all_inv cs → remaining c' = tail (remaining c) → remaining c ≠ [] →
  (k ∈ rest cs ↔ Some k = head (remaining c) ∨ k ∈ rest (<[i := c']> cs))
  ∧ length (rest cs) = S (length (rest (<[i := c']> cs))).
Proof.
  intros Hc _ Hr Hne. pose proof (lookup_lt_Some _ _ _ Hc) as Hi. unfold rest.
  rewrite insert_take_drop by done. pose proof (take_drop_middle cs i c Hc) as E.
  set (A := take i cs) in *. set (B := drop (S i) cs) in *. clearbody A B. subst cs.
  rewrite !map_app, !concat_app. cbn [map concat]. rewrite Hr.
  destruct (remaining c) as [|x t]; [done|]. cbn [tail head app]. split.
  - assert (Some k = Some x ↔ k = x) as -> by (split; congruence).
    rewrite !elem_of_app, elem_of_cons, !elem_of_app. tauto.
  - rewrite !length_app. cbn [length]. rewrite length_app. lia.
Qed.

(** The rest does not change when a source only settles. *)
Lemma rest_settle cs i c c' :
  cs !! i = Some c → remaining c' = remaining c → rest (<[i := c']> cs) = rest cs.
Proof.
  intros Hc Hr. pose proof (lookup_lt_Some _ _ _ Hc) as Hi. unfold rest. rewrite insert_take_drop by done.
  pose proof (take_drop_middle cs i c Hc) as E.
  set (A := take i cs) in *. set (B := drop (S i) cs) in *. clearbody A B. subst cs. rewrite !map_app. cbn [map]. by rewrite Hr.
Qed.

(** [refill] settles source [i] and adds its entry. *)
Lemma refill_one cs h i c :
  cs !! i = Some c → all_inv cs → heap_ok h →
  ∃ c', (refill cs h i).1 = <[i := c']> cs ∧ cinv c' ∧ remaining c' = remaining c ∧ contents c' = contents c
    ∧ heap_ok (refill cs h i).2 ∧ (refill cs h i).2 ≡ₚ headEntry i c ++ h.
Proof.
  intros Hc Hall Hh. unfold refill. rewrite Hc.
  assert (cinv c) as Hi by (unfold all_inv in Hall; rewrite Forall_lookup in Hall; by eapply Hall).
  destruct (Valid c) eqn:Ev.
  - destruct (law_key c Hi Ev) as (Hi'&Hcon&Hrem&Hk). destruct (CurrentKey c) as [c' k]. cbn [fst snd] in *.
    exists c'. unfold headEntry. destruct (remaining c) as [|x t] eqn:Er; rewrite Hk; cbn [head fst snd app].
    + done.
    + destruct (push_spec h {| hkey := x; src := i |} Hh) as [H1 H2]. done.
  - exists c. cbn [fst snd]. rewrite list_insert_id by done. unfold headEntry. by rewrite (law_invalid c Hi Ev).
Qed.

(** [refill] completes a heap that lacks the entry of source [i]. *)
Lemma refill_spec cs h i c :
  cs !! i = Some c → all_inv cs → heap_ok h →
  h ≡ₚ headsFrom 0 (take i cs) ++ headsFrom (S i) (drop (S i) cs) →
  let s := refill cs h i in
  all_inv s.1 ∧ heap_ok s.2 ∧ s.2 ≡ₚ headsFrom 0 s.1 ∧ rest s.1 = rest cs.
Proof.
  intros Hc Hall Hh Hp. cbv zeta. destruct (refill_one cs h i c Hc Hall Hh) as (c'&->&Hi&Hr&_&Hok&Hperm).
  split_and!; [by apply Forall_insert|done| |by eapply rest_settle].
  destruct (headsFrom_insert cs i c c' Hc) as [_ Hheads]. rewrite Hperm, Hheads, Hp.
  unfold headEntry. by rewrite Hr.
Qed.

(** Stepping the source of a popped entry. *)
Lemma stepSource_spec cs h i c k t :
  cs !! i = Some c → all_inv cs → heap_ok h → remaining c = k :: t →
  h ≡ₚ headsFrom 0 (take i cs) ++ headsFrom (S i) (drop (S i) cs) →
  let s := stepSource cs h i in
  all_inv s.1 ∧ heap_ok s.2 ∧ s.2 ≡ₚ headsFrom 0 s.1
  ∧ (∀ x, x ∈ rest cs ↔ x = k ∨ x ∈ rest s.1) ∧ length (rest cs) = S (length (rest s.1)).
Proof.
  intros Hc Hall Hh Hr Hp. cbv zeta. unfold stepSource. rewrite Hc.
  assert (cinv c) as Hi by (unfold all_inv in Hall; rewrite Forall_lookup in Hall; by eapply Hall).
  destruct (law_step c Hi) as (Hi'&Hcon&Hrem); [by rewrite Hr|].
  pose proof (lookup_lt_Some _ _ _ Hc) as Hlt.
  set (cs' := <[i := Step c]> cs).
  assert (cs' !! i = Some (Step c)) as Hc' by (by apply list_lookup_insert_eq).
  destruct (refill_spec cs' h i (Step c)) as (H1&H2&H3&H4).
  - done.
  - by apply Forall_insert.
  - done.
  - unfold cs'. rewrite take_insert_ge, drop_insert_lt by lia. done.
  - cbv zeta in *. rewrite H4.
    split_and!; try done.
    + intros x. destruct (rest_insert cs i c (Step c) x Hc Hall Hrem) as [Hx _]; [by rewrite Hr|].
      rewrite Hx, Hr. cbn [head]. naive_solver.
    + destruct (rest_insert cs i c (Step c) k Hc Hall Hrem) as [_ Hx]; [by rewrite Hr|]. done.
Qed.

(** The popped entry: its source stands at it, and it is least. *)
Lemma pop_inv mc h e :
  merge_inv mc → heap_ok h → e :: h ≡ₚ heap mc → Forall (fun x => hkey e <=b hkey x) (heap mc) →
  ∃ c t, sources mc !! src e = Some c ∧ remaining c = hkey e :: t
    ∧ h ≡ₚ headsFrom 0 (take (src e) (sources mc)) ++ headsFrom (S (src e)) (drop (S (src e)) (sources mc))
    ∧ Forall (fun k => hkey e <=b k) (rest (sources mc)).
Proof.
  intros [Hs Hh Hp _] Hok Hpop Hmin.
  assert (e ∈ headsFrom 0 (sources mc)) as Hin by (rewrite <- Hp, <- Hpop; by left).
  destruct (headsFrom_src 0 _ e Hin) as (j&c&t&Hj&Hc&Hr). cbn [Nat.add] in Hj. rewrite Hj in *.
  exists c, t. split_and!; [done|done| |].
  - destruct (headsFrom_insert (sources mc) j c c Hc) as [Hheads _].
    unfold headEntry in Hheads. rewrite Hr in Hheads. rewrite <- Hp, <- Hpop in Hheads. cbn [app] in Hheads.
    replace {| hkey := hkey e; src := j |} with e in Hheads by (destruct e as [ke se]; cbn [src hkey] in *; by subst).
    by apply Permutation_cons_inv in Hheads.
  - apply Forall_forall. intros k Hk. apply elem_of_rest in Hk as (i&c'&Hi&Hk).
    assert (cinv c') as Hi' by (unfold all_inv in Hs; rewrite Forall_lookup in Hs; by eapply Hs).
    destruct (remaining c') as [|x t'] eqn:Er; [by apply elem_of_nil in Hk|].
    assert (hkey e <=b x) as Hx.
    { rewrite Forall_forall in Hmin. apply (Hmin {| hkey := x; src := i |}). rewrite Hp.
      destruct (headsFrom_insert (sources mc) i c' c' Hi) as [Hheads _]. rewrite Hheads. unfold headEntry. rewrite Er.
      cbn [app]. by left. }
    apply elem_of_cons in Hk as [->|Hk]; [done|]. etrans; [exact Hx|]. apply blt_le.
    pose proof (law_remaining c' Hi') as Ha. rewrite Er in Ha. apply ascending_cons in Ha as [Hf _].
    rewrite Forall_forall in Hf. by apply Hf.
Qed.

(** ** Advancing *)

Record advanced (mc mc' : MergedCursor C) : Prop := {
  adv_inv : merge_inv mc';
  adv_mode : hasPair mc = false → IsKv mc = false → hasPair mc' = false;
  adv_kv : IsKv mc' = IsKv mc;
  adv_len : (length (rest (sources mc')) ≤ length (rest (sources mc)))%nat;
  adv_case :
    (mAtEnd mc' = true ∧ hasKey mc' = false ∧ ∀ k, ¬ pending mc k)
    ∨ (mAtEnd mc' = false ∧ hasKey mc' = true ∧ pending mc (curKey mc')
       ∧ (∀ k, pending mc k → curKey mc' <=b k)
       ∧ (∀ k, pending mc' k ↔ pending mc k ∧ k ≠ curKey mc')
       ∧ (length (rest (sources mc')) < length (rest (sources mc)))%nat);
}.

Lemma emit_spec mc h e :
  merge_inv mc → heap_ok h → e :: h ≡ₚ heap mc → Forall (fun x => hkey e <=b hkey x) (heap mc) →
  (hasLast mc = true → hkey e ≠ lastKey mc) → mAtEnd mc = false →
  advanced mc (emit mc h e).
Proof.
  intros Hmi Hok Hpop Hmin Hne Hend. destruct (pop_inv mc h e Hmi Hok Hpop Hmin) as (c&t&Hc&Hr&Hp&Hall).
  pose proof (mi_src _ Hmi) as Hs.
  (* the pair read settles the source and changes nothing else *)
  assert (∃ cs p has, emit mc h e = (let '(cs', h') := stepSource cs h (src e) in
      {| sources := cs'; heap := h'; lastKey := hkey e; hasLast := true; mAtEnd := mAtEnd mc;
         curKey := hkey e; hasKey := true; curPair := p; hasPair := has; IsKv := IsKv mc; CF := CF mc;
         hydMode := hydMode mc; baseSources := baseSources mc |})
    ∧ (hasPair mc = false → IsKv mc = false → has = false)
    ∧ all_inv cs ∧ rest cs = rest (sources mc)
    ∧ (∃ c', cs !! src e = Some c' ∧ remaining c' = hkey e :: t)
    ∧ take (src e) cs = take (src e) (sources mc) ∧ drop (S (src e)) cs = drop (S (src e)) (sources mc)) as
    (cs&p&has&->&Hhas&Hcs&Hrest&(c'&Hc'&Hr')&Htake&Hdrop).
  { unfold emit. destruct (IsKv mc) eqn:Ekv.
    - rewrite Hc. assert (cinv c) as Hi by (unfold all_inv in Hs; rewrite Forall_lookup in Hs; by eapply Hs).
      destruct (law_pair c Hi) as (Hi'&_&Hrem). destruct (CurrentPair c) as [c' got]. cbn [fst] in *.
      pose proof (lookup_lt_Some _ _ _ Hc).
      eexists (<[src e := c']> (sources mc)), _, _. split; [done|]. split; [done|].
      split; [by apply Forall_insert|]. split; [by eapply rest_settle|].
      split; [exists c'; split; [by apply list_lookup_insert_eq|congruence]|].
      by rewrite take_insert_ge, drop_insert_lt by lia.
    - eexists (sources mc), _, _. split; [done|]. split; [done|]. split; [done|]. split; [done|].
      split; [by exists c|done]. }
  rewrite <- Htake, <- Hdrop in Hp.
  destruct (stepSource_spec cs h (src e) c' (hkey e) t Hc' Hcs Hok Hr' Hp) as (H1&H2&H3&H4&H5).
  cbv zeta in *. destruct (stepSource cs h (src e)) as [cs' h']. cbn [fst snd] in *.
  rewrite Hrest in H4, H5.
  assert (∀ k, k ∈ rest cs' → hkey e <=b k) as Hge.
  { intros k Hk. rewrite Forall_forall in Hall. apply Hall, H4. by right. }
  constructor; cbn [hasPair IsKv]; [|done|done|cbn [sources]; lia|].
  - constructor; cbn [sources heap hasLast lastKey]; [done..|]. intros _. by apply Forall_forall.
  - right. cbn [mAtEnd hasKey curKey sources]. unfold pending. cbn [sources hasLast lastKey]. split_and!.
    + done.
    + done.
    + apply H4. by left.
    + done.
    + intros k [Hk _]. rewrite Forall_forall in Hall. by apply Hall.
    + intros k. rewrite H4. split.
      * intros [Hk Hn]. specialize (Hn eq_refl). split; [|done]. split; [by right|]. intros HLast ->.
        pose proof (mi_last _ Hmi HLast) as Hlast. rewrite Forall_forall in Hlast.
        assert (lastKey mc <=b hkey e) as Hle by (apply Hlast, H4; by left).
        apply Hn. apply (anti_symm ble); [done|by apply Hge].
      * intros [[[->|Hk] _] Hn]; [done|]. by split.
    + lia.
Qed.

Lemma advanceLoop_spec fuel mc :
  merge_inv mc → mAtEnd mc = false → hasKey mc = false → (length (rest (sources mc)) < fuel)%nat →
  ∃ mc', advanceLoop fuel mc = Ok mc' ∧ advanced mc mc'.
Proof.
  revert mc. induction fuel as [|fuel IH]; intros mc Hmi Hend Hkey Hf; [lia|]. cbn [advanceLoop].
  destruct (decide (heap mc = [])) as [E|Hne].
  { rewrite E. exists (finish mc). split; [done|]. constructor; cbn [hasPair IsKv]; [|done|done|done|].
    - destruct Hmi. by constructor.
    - left. split_and!; [done|done|]. intros k [Hk _]. apply elem_of_rest in Hk as (i&c&Hi&Hk).
      destruct (headsFrom_insert (sources mc) i c c Hi) as [Hheads _]. rewrite <- (mi_perm _ Hmi), E in Hheads.
      apply Permutation_nil_l in Hheads. unfold headEntry in Hheads. destruct (remaining c); [by apply elem_of_nil in Hk|done]. }
  destruct (pop_spec (heap mc) (mi_heap _ Hmi) Hne) as (h&e&Hpop&Hok&Hperm&Hmin).
  destruct (heap mc) as [|e0 h0] eqn:Eh; [done|]. rewrite <- Eh in *. rewrite Hpop, res_bind_ret. cbv beta iota.
  destruct (hasLast mc && (CmpSeq (hkey e) (lastKey mc) =? 0)) eqn:Edup.
  - apply andb_true_iff in Edup as [EL Edup]. rewrite CmpSeq_eq in Edup. apply bool_decide_eq_true in Edup.
    destruct (pop_inv mc h e Hmi Hok Hperm Hmin) as (c&t&Hc&Hr&Hp&Hall).
    pose proof (mi_src _ Hmi) as Hs.
    assert (cinv c) as Hi by (unfold all_inv in Hs; rewrite Forall_lookup in Hs; by eapply Hs).
    assert (Valid c = true) as Ev.
    { destruct (Valid c) eqn:Ev; [done|]. by rewrite (law_invalid c Hi Ev) in Hr. }
    unfold stepDuplicate. rewrite Hc, Ev.
    destruct (stepSource_spec (sources mc) h (src e) c (hkey e) t Hc Hs Hok Hr Hp) as (H1&H2&H3&H4&H5). cbv zeta in *.
    set (s := stepSource (sources mc) h (src e)) in *. clearbody s.
    destruct (IH (withSources mc s)) as (mc'&E&[Ha Hm Hkv Hle Hcase]).
    { constructor; cbn [withSources sources heap hasLast lastKey]; [done..|]. intros _. apply Forall_forall. intros k Hk.
      rewrite Forall_forall in Hall. rewrite <- Edup. apply Hall, H4. by right. }
    { done. } { done. } { cbn [withSources sources]. lia. }
    exists mc'. split; [done|].
    assert (∀ k, pending (withSources mc s) k ↔ pending mc k) as Hpend.
    { intros k. unfold pending. cbn [withSources sources hasLast lastKey]. rewrite H4, <- Edup. naive_solver. }
    constructor; [done|done|done|cbn [withSources sources] in Hle; lia|]. cbn [withSources sources] in Hcase. setoid_rewrite Hpend in Hcase.
    destruct Hcase as [?|(?&?&?&?&?&?)]; [by left|right]. split_and!; try done. lia.
  - exists (emit mc h e). split; [done|]. apply emit_spec; [done..| |done]. intros HLast Heq. rewrite HLast, Heq in Edup.
    rewrite CmpSeq_eq, bool_decide_true in Edup by done. done.
Qed.

Lemma advance_spec fuel mc :
  merge_inv mc → mAtEnd mc = false → hasKey mc = false → (length (rest (sources mc)) < fuel)%nat →
  ∃ mc', advance fuel mc = Ok mc' ∧ advanced mc mc'.
Proof. intros Hmi Hend. unfold advance. rewrite Hend. by apply advanceLoop_spec. Qed.

(** ** Seeding and seeking *)

Lemma seedHeap_spec n i cs h :
  (i + n = length cs)%nat → all_inv cs → heap_ok h → h ≡ₚ headsFrom 0 (take i cs) →
  let s := seedHeap n i cs h in
  all_inv s.1 ∧ heap_ok s.2 ∧ s.2 ≡ₚ headsFrom 0 s.1
  ∧ map contents s.1 = map contents cs ∧ map remaining s.1 = map remaining cs.
Proof.
  revert i cs h. induction n as [|n IH]; intros i cs h Hn Hall Hh Hp; cbn [seedHeap].
  { cbv zeta. cbn [fst snd]. split_and!; try done. rewrite take_ge in Hp by lia. done. }
  destruct (lookup_lt_is_Some_2 cs i) as [c Hc]; [lia|].
  destruct (refill_one cs h i c Hc Hall Hh) as (c'&Hcs&Hi&Hr&Hcon&Hok&Hperm).
  destruct (refill cs h i) as [cs1 h1]. cbn [fst snd] in *. subst cs1.
  destruct (IH (S i) (<[i := c']> cs) h1) as (H1&H2&H3&H4&H5).
  - rewrite length_insert. lia.
  - by apply Forall_insert.
  - done.
  - rewrite (take_S_r _ _ c') by (apply list_lookup_insert_eq; lia).
    rewrite take_insert_ge by lia. rewrite headsFrom_app. cbn [headsFrom]. rewrite app_nil_r, Hperm, Hp.
    rewrite length_take_le by lia. cbn [Nat.add]. rewrite Permutation_app_comm. unfold headEntry. by rewrite Hr.
  - cbv zeta in *. split_and!; [done|done|done| |].
    + rewrite H4. change (contents <$> <[i := c']> cs = contents <$> cs). rewrite list_fmap_insert, Hcon, list_insert_id; [done|].
      by rewrite list_lookup_fmap, Hc.
    + rewrite H5. change (remaining <$> <[i := c']> cs = remaining <$> cs). rewrite list_fmap_insert, Hr, list_insert_id; [done|].
      by rewrite list_lookup_fmap, Hc.
Qed.

Lemma seed_spec cs :
  all_inv cs →
  let s := seed cs in
  all_inv s.1 ∧ heap_ok s.2 ∧ s.2 ≡ₚ headsFrom 0 s.1
  ∧ map contents s.1 = map contents cs ∧ rest s.1 = rest cs.
Proof.
  intros Hall. unfold seed. destruct (seedHeap_spec (length cs) 0 cs []) as (H1&H2&H3&H4&H5);
    [lia|done|by intros ? ? ? ? ?|done|].
  cbv zeta in *. split_and!; try done. unfold rest. by rewrite H5.
Qed.

(** Every key of the sources. *)
Definition universe (cs : list C) : list bytes := concat (map contents cs).

Lemma seek_all cs t :
  all_inv cs →
  all_inv (map (fun c => Seek c t) cs)
  ∧ map contents (map (fun c => Seek c t) cs) = map contents cs
  ∧ ∀ k, k ∈ rest (map (fun c => Seek c t) cs) ↔ k ∈ universe cs ∧ t <=b k.
Proof.
  unfold all_inv, rest, universe. induction 1 as [|c cs Hc Hall (IH1&IH2&IH3)]; cbn [map concat].
  { split_and!; [constructor|done|]. intros k. rewrite elem_of_nil. tauto. }
  destruct (law_seek c t Hc) as (H1&H2&H3). split_and!.
  - by constructor.
  - by rewrite H2, IH2.
  - intros k. rewrite !elem_of_app, IH3, H3, list_elem_of_filter. tauto.
Qed.

(** Where a seek leaves the cursor. *)
Record standing (mc : MergedCursor C) : Prop := {
  st_inv : merge_inv mc;
  st_kv : hasPair mc = false ∧ IsKv mc = false;
  st_key : if mAtEnd mc then hasKey mc = false
           else hasKey mc = true ∧ ∀ k, pending mc k → curKey mc <b k;
}.

Definition reads (mc : MergedCursor C) (k : bytes) : Prop :=
  mAtEnd mc = false ∧ (k = curKey mc ∨ pending mc k).

Lemma advanced_standing mc mc' :
  advanced mc mc' → hasPair mc = false → IsKv mc = false →
  standing mc' ∧ (∀ k, reads mc' k ↔ pending mc k).
Proof.
  intros [Hi Hm Hkv _ Hcase] Hp Hk. specialize (Hm Hp Hk).
  destruct Hcase as [(He&Hh&Hnone)|(He&Hh&Hcur&Hmin&Hpend&_)].
  - split; [constructor; [done|by rewrite Hkv|by rewrite He]|].
    intros k. unfold reads. rewrite He. split; [by intros [??]|by intros ?%Hnone].
  - split.
    + constructor; [done|by rewrite Hkv|]. rewrite He. split; [done|]. intros k [Hk' Hne]%Hpend.
      specialize (Hmin k Hk'). apply ble_lt_eq in Hmin as [?|?]; [done|congruence].
    + intros k. unfold reads. rewrite He, Hpend. split.
      * intros [_ [->|[? _]]]; done.
      * intros Hk'. split; [done|]. destruct (decide (k = curKey mc')); [by left|by right].
Qed.

(** The keys a standing cursor reads, in order, each once. *)
Lemma iterate_spec fuel mc :
  standing mc → (S (length (rest (sources mc))) < fuel)%nat →
  ∃ out, iterate fuel mc = Ok out ∧ ascending out ∧ ∀ k, k ∈ out ↔ reads mc k.
Proof.
  revert mc. induction fuel as [|fuel IH]; intros mc [Hi [Hp Hk] Hst] Hf; [lia|]. cbn [iterate].
  unfold Next, ensure. destruct (mAtEnd mc) eqn:Ee.
  - rewrite Hst. cbn [negb andb]. rewrite res_bind_ret, Hst. unfold advance. cbn [dropKey mAtEnd]. rewrite Ee, !res_bind_ret.
    cbv beta iota. exists []. split_and!; [done|constructor|]. intros k. unfold reads. rewrite Ee, elem_of_nil. naive_solver.
  - destruct Hst as [Hh Hlt]. rewrite Hh. cbn [negb andb]. rewrite res_bind_ret, Hh.
    destruct (advance_spec (S fuel) (dropKey mc)) as (mc'&->&Hadv).
    { destruct Hi. by constructor. } { done. } { done. } { cbn [dropKey sources]. lia. }
    rewrite !res_bind_ret. cbv beta iota.
    pose proof (adv_case _ _ Hadv) as Hcase.
    destruct (advanced_standing _ _ Hadv Hp Hk) as [Hst' Hreads].
    assert (∀ k, pending (dropKey mc) k ↔ pending mc k) as Hpd by done. setoid_rewrite Hpd in Hreads.
    destruct Hcase as [(He&_&Hnone)|(He&_&_&_&_&Hlen)].
    + destruct fuel as [|fuel]; [lia|]. cbn [iterate]. unfold Next, ensure.
      pose proof (st_key _ Hst') as Hk'. rewrite He in Hk'. rewrite He, Hk'. cbn [negb andb].
      rewrite res_bind_ret, Hk'. unfold advance. cbn [dropKey mAtEnd]. rewrite He, !res_bind_ret. cbv beta iota.
      exists [curKey mc]. split_and!; [done|by repeat constructor|]. intros k. rewrite list_elem_of_singleton.
      unfold reads. rewrite Ee. split; [by intros ->; auto|]. intros [_ [?|Hk0]]; [done|]. by apply Hpd, Hnone in Hk0.
    + destruct (IH mc' Hst') as (out&->&Ha&Hout).
      { cbn [dropKey sources] in Hlen. lia. }
      rewrite res_bind_ret. exists (curKey mc :: out). split_and!; [done| |].
      * apply ascending_cons. split; [|done]. apply Forall_forall. intros k Hin%Hout%Hreads. by apply Hlt.
      * intros k. rewrite elem_of_cons, Hout, Hreads. unfold reads. rewrite Ee. tauto.
Qed.

Lemma seekSources_spec fuel mc cs base mode t :
  all_inv cs → IsKv mc = false →
  (length (rest (map (fun c => Seek c t) cs)) < fuel)%nat →
  ∃ mc', seekSources fuel mc cs base mode t = Ok mc' ∧ standing mc'
    ∧ (∀ k, reads mc' k ↔ k ∈ universe cs ∧ t <=b k)
    ∧ (length (rest (sources mc')) ≤ length (rest (map (fun c => Seek c t) cs)))%nat.
Proof.
  intros Hall Hkv Hf. destruct (seek_all cs t Hall) as (H1&_&H3).
  destruct (seed_spec _ H1) as (G1&G2&G3&_&G5). unfold seekSources. cbv zeta in *.
  destruct (seed (map (fun c => Seek c t) cs)) as [cs' h]. cbn [fst snd] in *.
  assert (merge_inv (reseat mc cs' h mode base)) as Hmi by (by constructor).
  destruct (advance_spec fuel (reseat mc cs' h mode base)) as (mc'&->&Hadv); [done|done|done|cbn [reseat sources]; by rewrite G5|].
  destruct (advanced_standing _ _ Hadv eq_refl Hkv) as [Hst Hreads].
  exists mc'. split_and!; [done|done| |].
  - intros k. rewrite Hreads. unfold pending. cbn [reseat sources hasLast]. rewrite G5, H3. naive_solver.
  - rewrite <- G5. apply (adv_len _ _ Hadv).
Qed.
End correct.

Section union.
Context {C : Type} `{HC : Cursor C} `{HL : !CursorLaws C} `{HH : !HydSource C}.

Lemma rest_seek_length (cs : list C) t :
  all_inv cs → (length (rest (map (fun c => Seek c t) cs)) ≤ length (universe cs))%nat.
Proof.
  unfold rest, universe. induction 1 as [|c cs Hc Hall IH]; cbn [map concat]; [done|].
  destruct (law_seek c t Hc) as (_&_&->). rewrite !length_app.
  pose proof (length_filter (fun k => t <=b k) (contents c)). lia.
Qed.

Lemma elem_of_universe (cs : list C) k : k ∈ universe cs ↔ ∃ c, c ∈ cs ∧ k ∈ contents c.
Proof.
  unfold universe. induction cs as [|c cs IH]; cbn [map concat].
  - split; [by intros ?%elem_of_nil|by intros (c&?%elem_of_nil&_)].
  - rewrite elem_of_app, IH. setoid_rewrite elem_of_cons. naive_solver.
Qed.

Lemma seek_iterate fuel mc t :
  all_inv (sources mc) → IsKv mc = false → (S (length (universe (sources mc))) < fuel)%nat →
  ∃ mc' out, MergedSeek fuel mc None t = Ok (mc', None) ∧ standing mc' ∧ iterate fuel mc' = Ok out
    ∧ ascending out ∧ ∀ k, k ∈ out ↔ (∃ c, c ∈ sources mc ∧ k ∈ contents c) ∧ t <=b k.
Proof.
  intros Hall Hkv Hf. pose proof (rest_seek_length (sources mc) t Hall) as Hlen.
  destruct (seekSources_spec fuel mc (sources mc) (baseSources mc) (hydMode mc) t Hall Hkv) as (mc'&E&Hst&Hr&Hl); [lia|].
  destruct (iterate_spec fuel mc' Hst) as (out&Ei&Ha&Hout); [lia|].
  exists mc', out. unfold MergedSeek. rewrite E, res_bind_ret. split_and!; [done..|].
  intros k. by rewrite Hout, Hr, elem_of_universe.
Qed.

(** A cursor that was not sought yet. *)
Record unsought (mc : MergedCursor C) : Prop := {
  un_inv : merge_inv mc;
  un_flags : mAtEnd mc = false ∧ hasKey mc = false ∧ hasPair mc = false ∧ IsKv mc = false ∧ hasLast mc = false;
}.

Lemma iterate_unsought fuel mc :
  unsought mc → (S (length (rest (sources mc))) < fuel)%nat →
  ∃ out, iterate fuel mc = Ok out ∧ ascending out ∧ ∀ k, k ∈ out ↔ k ∈ rest (sources mc).
Proof.
  intros [Hi (He&Hk&Hp&Hkv&Hl)] Hf. destruct fuel as [|fuel]; [lia|].
  destruct (advance_spec (S fuel) mc Hi He Hk) as (mc1&E&Hadv); [lia|]. destruct (advanced_standing _ _ Hadv Hp Hkv) as [Hst Hr].
  destruct (iterate_spec (S fuel) mc1 Hst) as (out&Eo&Ha&Hout); [pose proof (adv_len _ _ Hadv); lia|].
  exists out. split_and!; [|done|].
  - rewrite <- Eo. cbn [iterate]. enough (Next (S fuel) mc = Next (S fuel) mc1) as -> by done.
    unfold Next, ensure. rewrite He, Hk, Hp. cbn [negb andb]. rewrite E, res_bind_ret.
    replace (negb (hasKey mc1) && negb (mAtEnd mc1) && negb (hasPair mc1)) with false; [by rewrite res_bind_ret|].
    by destruct (adv_case _ _ Hadv) as [(->&->&_)|(->&->&_)].
  - intros k. rewrite Hout, Hr. unfold pending. rewrite Hl. naive_solver.
Qed.

(** A hydrated entity's keys stand in for every source. *)
Lemma hyd_seek_iterate fuel mc set eid0 ks t :
  CF mc = 0 → IsKv mc = false → (8 ≤ length t)%nat → eid0 = decodeEID (beUint64 t 0) →
  is_Some (index set !! eid0) → KeysFrom set eid0 t = ks →
  cinv (ofKeys ks) → remaining (ofKeys ks) = ks → (S (length ks) < fuel)%nat →
  ∃ mc' set', MergedSeek fuel mc (Some set) t = Ok (mc', Some set') ∧ index set' = index set
    ∧ iterate fuel mc' = Ok ks.
Proof.
  intros Hcf Hkv Hlen -> [e He] Hks Hi Hrem Hf. unfold MergedSeek, ProbeComplete, Probe.
  rewrite Hcf, (proj2 (Nat.leb_le 8 _)) by done. cbn [Z.eqb andb]. rewrite He. cbv beta iota zeta.
  set (set' := {| index := index set |}). assert (KeysFrom set' (decodeEID (beUint64 t 0)) t = ks) as ->
    by (unfold KeysFrom in *; cbn [set' index]; done).
  destruct (seed_spec [ofKeys ks]) as (G1&G2&G3&_&G5); [by constructor|]. cbv zeta in *.
  destruct (seed [ofKeys ks]) as [cs h]. cbn [fst snd] in *.
  assert (rest cs = ks) as Hrest by (rewrite G5; unfold rest; cbn [map concat]; by rewrite app_nil_r).
  set (base := if hydMode mc then baseSources mc else sources mc).
  assert (merge_inv (reseat mc cs h true base)) as Hmi by (by constructor).
  destruct (advance_spec fuel (reseat mc cs h true base)) as (mc'&E&Hadv); [done|done|done|cbn [reseat sources]; rewrite Hrest; lia|].
  rewrite E, res_bind_ret. destruct (advanced_standing _ _ Hadv eq_refl Hkv) as [Hst Hreads].
  pose proof (adv_len _ _ Hadv) as Hle. cbn [reseat sources] in Hle. rewrite Hrest in Hle.
  destruct (iterate_spec fuel mc' Hst) as (out&Ei&Ha&Hout); [lia|].
  exists mc', set'. split_and!; [done|done|].
  rewrite Ei. f_equal. apply ascending_ext; [done|rewrite <- Hrem; by apply law_remaining|].
    intros k. rewrite Hout, Hreads. unfold pending. cbn [reseat sources hasLast]. rewrite Hrest. naive_solver.
Qed.
End union.

#[export] Instance keys_hydSource : HydSource keysCursor := { ofKeys ks := {| keys := ks; kpos := 0 |} }.

(** A page-store snapshot stands here as its keys: the page cursor is a source
    like any other once it keeps the laws. *)
Inductive source : Type :=
| RunSource (c : RunCursor)
| RunKvSource (c : RunKvCursor)
| KeysSource (c : keysCursor).

#[export] Instance source_cursor : Cursor source := {
  Valid s := match s with RunSource c => Valid c | RunKvSource c => Valid c | KeysSource c => Valid c end;
  CurrentKey s := match s with
    | RunSource c => let '(c, k) := CurrentKey c in (RunSource c, k)
    | RunKvSource c => let '(c, k) := CurrentKey c in (RunKvSource c, k)
    | KeysSource c => let '(c, k) := CurrentKey c in (KeysSource c, k)
    end;
  CurrentPair s := match s with
    | RunSource c => let '(c, k) := CurrentPair c in (RunSource c, k)
    | RunKvSource c => let '(c, k) := CurrentPair c in (RunKvSource c, k)
    | KeysSource c => let '(c, k) := CurrentPair c in (KeysSource c, k)
    end;
  Step s := match s with
    | RunSource c => RunSource (Step c) | RunKvSource c => RunKvSource (Step c) | KeysSource c => KeysSource (Step c) end;
  Seek s t := match s with
    | RunSource c => RunSource (Seek c t) | RunKvSource c => RunKvSource (Seek c t) | KeysSource c => KeysSource (Seek c t) end;
  Invalidate s := match s with
    | RunSource c => RunSource (Invalidate c) | RunKvSource c => RunKvSource (Invalidate c)
    | KeysSource c => KeysSource (Invalidate c) end;
}.

#[export] Program Instance source_laws : CursorLaws source := {
  cinv s := match s with RunSource c => cinv c | RunKvSource c => cinv c | KeysSource c => cinv c end;
  contents s := match s with RunSource c => contents c | RunKvSource c => contents c | KeysSource c => contents c end;
  remaining s := match s with RunSource c => remaining c | RunKvSource c => remaining c | KeysSource c => remaining c end;
}.
Next Obligation. intros [c|c|c] Hc; exact (law_sorted c Hc). Qed.
Next Obligation. intros [c|c|c] Hc; exact (law_remaining c Hc). Qed.
Next Obligation. intros [c|c|c] Hc Hv; exact (law_invalid c Hc Hv). Qed.
Next Obligation.
  intros [c|c|c] Hc Hv; pose proof (law_key c Hc Hv) as G; cbn [CurrentKey source_cursor]; by destruct (CurrentKey c).
Qed.
Next Obligation.
  intros [c|c|c] Hc; pose proof (law_pair c Hc) as G; cbn [CurrentPair source_cursor]; by destruct (CurrentPair c).
Qed.
Next Obligation. intros [c|c|c] Hc Hne; exact (law_step c Hc Hne). Qed.
Next Obligation. intros [c|c|c] t Hc; exact (law_seek c t Hc). Qed.

#[export] Instance source_hydSource : HydSource source := { ofKeys ks := KeysSource (ofKeys ks) }.

(** ** Properties *)

(** C5. Over any sources that keep the cursor laws, seeking the merged cursor and reading
    it to the end terminates and returns the keys of all the sources from the
    target on, ascending and each once. *)
Theorem merged_cursor_union {C} `{HC : Cursor C} `{HL : !CursorLaws C} `{HH : !HydSource C} fuel mc t :
  Forall cinv (sources mc) → IsKv mc = false →
  (S (length (concat (map contents (sources mc)))) < fuel)%nat →
  ∃ mc' out, MergedSeek fuel mc None t = Ok (mc', None) ∧ iterate fuel mc' = Ok out
    ∧ ascending out ∧ ∀ k, k ∈ out ↔ (∃ c, c ∈ sources mc ∧ k ∈ contents c) ∧ t <=b k.
Proof.
  intros Hall Hkv Hf. destruct (seek_iterate fuel mc t Hall Hkv Hf) as (mc'&out&?&_&?&?&?). by exists mc', out.
Qed.

Definition sampleSources : list source :=
  [KeysSource {| keys := [[1]; [3]; [5]]; kpos := 0 |};
   RunSource (NewRunCursor {| Memtable.Records := [Memtable.newRec 0 false [2] []; Memtable.newRec 0 false [3] []];
                              Memtable.KV := false |})].

Lemma merged_cursor_union_witness :
  ∃ mc' out, MergedSeek 20 (NewMergedCursor sampleSources) None [2] = Ok (mc', None)
    ∧ iterate 20 mc' = Ok out ∧ ascending out ∧ [3] ∈ out.
Proof.
  destruct (merged_cursor_union 20 (NewMergedCursor sampleSources) [2]) as (mc'&out&E1&E2&Ha&Hk).
  - repeat constructor; cbn; lia.
  - done.
  - cbn. lia.
  - exists mc', out. split_and!; [done..|]. apply Hk. split; [|by vm_compute].
    exists (KeysSource {| keys := [[1]; [3]; [5]]; kpos := 0 |}). split; [left|right; left].
Defined.

(** A CF-0 seek at a hydrated entity is served by its entry alone: the merged cursor
    then reads exactly the keys [KeysFrom] returns, whatever the other sources
    hold. *)
Theorem hydrated_seek_exact {C} `{HC : Cursor C} `{HL : !CursorLaws C} `{HH : !HydSource C} fuel mc set t :
  let eid := decodeEID (beUint64 t 0) in
  let ks := KeysFrom set eid t in
  CF mc = 0 → IsKv mc = false → (8 ≤ length t)%nat → is_Some (index set !! eid) →
  cinv (ofKeys ks) → remaining (ofKeys ks) = ks → (S (length ks) < fuel)%nat →
  ∃ mc' set', MergedSeek fuel mc (Some set) t = Ok (mc', Some set') ∧ index set' = index set
    ∧ iterate fuel mc' = Ok ks.
Proof. cbv zeta. intros. by eapply hyd_seek_iterate. Qed.

Lemma hydrated_seek_exact_witness :
  let key := Keys.BuildEavtKey 7 3 (Keys.EncodeInt 5) 100 false in
  let set := ApplyKey (HydrateEmpty (Hydrated.New 1000) 7) key in
  ∃ mc' set', MergedSeek 9 (NewMergedCursor sampleSources) (Some set) (Keys.EncodeEid 7) = Ok (mc', Some set')
    ∧ index set' = index set ∧ iterate 9 mc' = Ok [key].
Proof.
  cbv zeta. set (key := Keys.BuildEavtKey 7 3 (Keys.EncodeInt 5) 100 false).
  set (set := ApplyKey (HydrateEmpty (Hydrated.New 1000) 7) key).
  assert (KeysFrom set (decodeEID (beUint64 (Keys.EncodeEid 7) 0)) (Keys.EncodeEid 7) = [key]) as E by (by vm_compute).
  destruct (hydrated_seek_exact 9 (NewMergedCursor sampleSources) set (Keys.EncodeEid 7)) as (mc'&set'&H1&H2&H3).
  - done.
  - done.
  - apply Nat.leb_le. by vm_compute.
  - apply (bool_decide_unpack _). by vm_compute.
  - rewrite E. repeat constructor.
  - by rewrite E.
  - rewrite E. cbn [length]. lia.
  - rewrite E in H3. exists mc', set'. exact (conj H1 (conj H2 H3)).
Defined.
