(* ===== verification/ActiveScan.v ===== *)
(** * Scans of the datom engine (go/internal/eavt/eavt.go)

    [ScanPrefix] over the merged cursor, the newest-version filter of
    [ScanPrefixActive], and the proof that the hydrated mirror of a write shows
    exactly what that scan would. *)

From S2P Require Import Prelude Pages Keys NewestWins MinHeap Hydrated Cursors MergedCursor.

(** ** Definitions *)

Section scan.
Context {C : Type} `{Cursor C} `{HydSource C}.

Fixpoint scanLoop (fuel : nat) (mc : MergedCursor C) (prefix : bytes) : res (list bytes) :=
  match fuel with
  | O => Diverge
  | S fuel' =>
      '(mc', k) ← Next fuel mc;
      match k with
      | None => Ok []
      | Some k =>
          if negb (has_prefix k prefix) then Ok []
          else out ← scanLoop fuel' mc' prefix; Ok (k :: out)
      end
  end.

(** [mc] is the cursor [OpenScanCursor] gives; it carries no hydrated set. *)
Definition ScanPrefix (fuel : nat) (mc : MergedCursor C) (prefix : bytes) : res (list bytes) :=
  '(mc, _) ← MergedSeek fuel mc None prefix;
  scanLoop fuel mc prefix.

(** Newest to oldest: the first version of each logical key decides it. *)
Fixpoint keptLoop (collected : list bytes) (lastPrefix : option bytes) : list bytes :=
  match collected with
  | [] => []
  | k :: older =>
      if Nat.ltb (length k) 8 then keptLoop older lastPrefix
      else
        let kp := take (length k - 8) k in
        if bool_decide (lastPrefix = Some kp) then keptLoop older lastPrefix
        else
          let sf := beUint64 k (length k - 8) in
          if Z.land sf 1 =? 0 then k :: keptLoop older (Some kp) else keptLoop older (Some kp)
  end.
Definition activeVersions (collected : list bytes) : list bytes :=
  reverse (keptLoop (reverse collected) None).

(** [Hyd] is [None] when the fast path is disabled. *)
Definition ScanPrefixActive (fuel : nat) (mc : MergedCursor C) (Hyd : option Set_) (cf : Z) (prefix : bytes)
  : res (option Set_ * list bytes) :=
  let slow := collected ← ScanPrefix fuel mc prefix; Ok (activeVersions collected) in
  match Hyd with
  | Some set =>
      if (cf =? 0) && Nat.leb 8 (length prefix) then
        let eid := decodeEID (beUint64 prefix 0) in
        let '(set, hit) := ProbeComplete set eid in
        if hit then Ok (Some set, LookupRange set eid prefix)
        else out ← slow; Ok (Some set, out)
      else out ← slow; Ok (Hyd, out)
  | None => out ← slow; Ok (Hyd, out)
  end.

Definition EstimateCount (fuel : nat) (mc : MergedCursor C) (prefix : bytes) : res Z :=
  ks ← ScanPrefix fuel mc prefix;
  let n := Z.of_nat (length ks) in
  Ok (if n <? 1 then 1 else n).
End scan.

(** ** The scan loop *)

Fixpoint takeWhile (p : bytes → bool) (l : list bytes) : list bytes :=
  match l with [] => [] | k :: l' => if p k then k :: takeWhile p l' else [] end.

Lemma takeWhile_prefix prefix l :
  ascending l → Forall (fun k => prefix <=b k) l →
  takeWhile (fun k => has_prefix k prefix) l = filter (fun k => has_prefix k prefix = true) l.
Proof.
  induction l as [|k l IH]; [done|]. intros [Hk Ha]%ascending_cons [Hge Hall]%Forall_cons. cbn [takeWhile].
  rewrite filter_cons. destruct (has_prefix k prefix) eqn:E; [rewrite decide_True by done; f_equal; by apply IH|].
  rewrite decide_False by done. symmetry. apply filter_none. rewrite Forall_forall in *. intros k' Hin Hp.
  assert (has_prefix k prefix = true); [|congruence].
  apply (has_prefix_between prefix k k'); [done|by apply blt_le, Hk|done].
Qed.

Section scan_correct.
Context {C : Type} `{HC : Cursor C} `{HL : !CursorLaws C} `{HH : !HydSource C}.

Lemma scanLoop_iterate fuel (mc : MergedCursor C) prefix out :
  iterate fuel mc = Ok out → scanLoop fuel mc prefix = Ok (takeWhile (fun k => has_prefix k prefix) out).
Proof.
  revert mc out. induction fuel as [|fuel IH]; intros mc out; cbn [iterate scanLoop]; [done|].
  destruct (Next (S fuel) mc) as [[mc' k]| | |]; try done. rewrite !res_bind_ret. cbv beta iota.
  destruct k as [k|]; [|by intros [= <-]]. rewrite res_bind_Ok. intros (rest_&Er&[= <-]). cbn [takeWhile].
  destruct (has_prefix k prefix); cbn [negb]; [|done]. by rewrite (IH mc' rest_ Er), res_bind_ret.
Qed.

Lemma ScanPrefix_spec fuel (mc : MergedCursor C) prefix :
  Forall cinv (sources mc) → IsKv mc = false → (S (length (universe (sources mc))) < fuel)%nat →
  ∃ out, ScanPrefix fuel mc prefix = Ok out ∧ ascending out
    ∧ ∀ k, k ∈ out ↔ (∃ c, c ∈ sources mc ∧ k ∈ contents c) ∧ has_prefix k prefix = true.
Proof.
  intros Hall Hkv Hf. destruct (seek_iterate fuel mc prefix Hall Hkv Hf) as (mc'&out&Es&_&Ei&Ha&Hk).
  unfold ScanPrefix. rewrite Es, res_bind_ret. cbv beta iota. rewrite (scanLoop_iterate _ _ _ out Ei).
  eexists. split; [done|]. rewrite takeWhile_prefix; [|done|apply Forall_forall; by intros k [_ ?]%Hk]. split.
  - by apply StronglySorted_filter.
  - intros k. rewrite list_elem_of_filter, Hk. split; [tauto|]. intros [? Hp]. split_and!; [done|done|].
    apply has_prefix_spec in Hp as [s ->]. apply ble_prefix.
Qed.
End scan_correct.

(** ** Newest versions *)

Lemma keptLoop_spec r last_ :
  Forall (fun k => (8 ≤ length k)%nat) r → StronglySorted (fun a b => pfx b <=b pfx a) r →
  (∀ p, last_ = Some p → Forall (fun k => pfx k <=b p) r) →
  ∀ k, k ∈ keptLoop r last_ ↔ active k = true ∧ last_ ≠ Some (pfx k) ∧ latest pfx (pfx k) (reverse r) = Some k.
Proof.
  intros Hl Hs. revert last_. induction Hs as [|k0 r Hs IH Hk0]; intros last_ Hlast k; cbn [keptLoop].
  { rewrite elem_of_nil. naive_solver. }
  apply Forall_cons in Hl as [Hl0 Hl]. rewrite (proj2 (Nat.ltb_ge _ _)) by done.
  change (take (length k0 - 8) k0) with (pfx k0).
  change (Z.land (beUint64 k0 (length k0 - 8)) 1 =? 0) with (active k0).
  assert (latest pfx (pfx k) (reverse (k0 :: r))
    = if decide (pfx k0 = pfx k) then Some k0 else latest pfx (pfx k) (reverse r)) as ->.
  { rewrite reverse_cons, latest_app. cbn [latest]. by case_decide. }
  assert (∀ p, last_ = Some p → Forall (fun k => pfx k <=b p) r) as Hlast'.
  { intros p Hp. by apply Hlast, Forall_cons in Hp as [_ ?]. }
  case_bool_decide as Eg.
  - rewrite (IH Hl last_ Hlast' k). split.
    + intros (?&Hne&?). split_and!; [done..|]. rewrite decide_False; [done|]. congruence.
    + intros (?&Hne&Hlat). rewrite decide_False in Hlat by congruence. done.
  - assert (∀ x, x ∈ keptLoop r (Some (pfx k0)) ↔ active x = true ∧ pfx k0 ≠ pfx x ∧ latest pfx (pfx x) (reverse r) = Some x) as HIH.
    { intros x. rewrite (IH Hl (Some (pfx k0))); [|by intros p [= <-]]. split; intros (?&?&?); split_and!; congruence. }
    assert (∀ x, latest pfx (pfx x) (reverse r) = Some x → pfx k0 ≠ pfx x → last_ ≠ Some (pfx x)) as Hfresh.
    { intros x Hx Hne ->. apply latest_key in Hx as [_ Hin]. rewrite elem_of_reverse in Hin.
      specialize (Hlast (pfx x) eq_refl). apply Forall_cons in Hlast as [Hle _].
      rewrite Forall_forall in Hk0. specialize (Hk0 x Hin). by apply Hne, (anti_symm ble). }
    destruct (active k0) eqn:Ea; [rewrite elem_of_cons|]; rewrite HIH; (split; [intros Hin|intros (H1&H2&H3)]).
    + destruct Hin as [->|(H1&H2&H3)]; [by rewrite decide_True|]. rewrite decide_False by done. eauto.
    + destruct (decide (pfx k0 = pfx k)); [left; congruence|right; eauto].
    + destruct Hin as (H1&H2&H3). rewrite decide_False by done. eauto.
    + destruct (decide (pfx k0 = pfx k)); [congruence|eauto].
Qed.

Lemma reverse_sublist (l1 l2 : list bytes) : l1 `sublist_of` l2 → reverse l1 `sublist_of` reverse l2.
Proof.
  induction 1 as [|k l1 l2 _ IH|k l1 l2 _ IH]; [constructor| |]; rewrite !reverse_cons.
  - by apply sublist_app.
  - rewrite <- (app_nil_r (reverse l1)). apply sublist_app; [done|apply sublist_nil_l].
Qed.

Lemma keptLoop_sublist r last_ : keptLoop r last_ `sublist_of` r.
Proof.
  revert last_. induction r as [|k r IH]; intros last_; cbn [keptLoop]; [constructor|].
  destruct (Nat.ltb _ 8); [by apply sublist_cons|]. case_bool_decide; [by apply sublist_cons|].
  destruct (_ =? 0); [by apply sublist_skip|by apply sublist_cons].
Qed.

(** The versions of an entity's datoms: ascending, long enough, self-delimiting. *)
Record versions (c : list bytes) : Prop := {
  ver_asc : ascending c;
  ver_len : Forall (fun k => (20 ≤ length k)%nat) c;
  ver_free : ∀ a b, a ∈ c → b ∈ c → pfree a b;
}.

Lemma versions_sorted c : versions c → StronglySorted (fun a b => pfx a <=b pfx b) c.
Proof.
  intros [Ha _ Hf]. induction Ha as [|k c Hc IH Hk]; constructor.
  - apply IH. intros a b ??. apply Hf; by right.
  - rewrite Forall_forall in *. intros x Hx. specialize (Hk x Hx). destruct (decide (pfx k = pfx x)) as [->|Hne]; [apply ble_refl|].
    unfold blt in Hk. rewrite pfx_order in Hk; [unfold ble; by rewrite Hk|done| |]; apply Hf; [left|by right|by right|left].
Qed.

Lemma StronglySorted_reverse {A} (R : relation A) l : StronglySorted R l → StronglySorted (flip R) (reverse l).
Proof.
  induction 1 as [|x l Hl IH Hx]; [constructor|]. rewrite reverse_cons.
  assert (Forall (fun y => R x y) (reverse l)) as Hr by (by apply Forall_reverse).
  clear Hl Hx. induction IH as [|y l' Hl' IH' Hy]; cbn [app]; [by repeat constructor|].
  apply Forall_cons in Hr as [Hxy Hr]. constructor; [by apply IH'|]. apply Forall_app. split; [done|]. by repeat constructor.
Qed.

Lemma activeVersions_spec c :
  versions c →
  ascending (activeVersions c)
  ∧ ∀ k, k ∈ activeVersions c ↔ active k = true ∧ latest pfx (pfx k) c = Some k.
Proof.
  intros Hv. split.
  - eapply ascending_sublist; [|apply (ver_asc _ Hv)]. unfold activeVersions.
    rewrite <- (reverse_involutive c) at 2. apply reverse_sublist, keptLoop_sublist.
  - intros k. unfold activeVersions. rewrite elem_of_reverse, keptLoop_spec; [|..|done].
    + rewrite reverse_involutive. naive_solver.
    + apply Forall_reverse. eapply Forall_impl; [apply (ver_len _ Hv)|]. cbn beta. intros; lia.
    + by apply (StronglySorted_reverse (fun a b => pfx a <=b pfx b)), versions_sorted.
Qed.

(** In ascending versions the latest of a logical key is the greatest. *)
Lemma latest_greatest c p k :
  ascending c → latest pfx p c = Some k ↔ k ∈ c ∧ pfx k = p ∧ ∀ k', k' ∈ c → pfx k' = p → k' <=b k.
Proof.
  intros Ha. split.
  - induction Ha as [|k0 c Hc IH Hk0]; cbn [latest]; [done|]. destruct (latest pfx p c) as [r|] eqn:E.
    + intros [= ->]. destruct (IH eq_refl) as (H1&H2&H3). split_and!; [by right|done|].
      intros k' [->|?]%elem_of_cons ?; [|by apply H3]. rewrite Forall_forall in Hk0. by apply blt_le, Hk0.
    + destruct (decide (pfx k0 = p)) as [Hp|]; [|done]. intros [= ->]. split_and!; [by left|done|].
      intros k' [->|Hin]%elem_of_cons Hk'; [apply ble_refl|]. apply latest_None in E. exfalso. apply E.
      rewrite <- Hk'. by apply list_elem_of_fmap_2.
  - intros (Hin&Hp&Hmax). destruct (latest pfx p c) as [r|] eqn:E.
    + assert (r <=b k ∧ k <=b r) as [H1 H2].
      { split.
        - apply latest_key in E as [? ?]. by apply Hmax.
        - clear Hmax. induction Ha as [|k0 c Hc IH Hk0]; cbn [latest] in E; [done|]. rewrite Forall_forall in Hk0.
          destruct (latest pfx p c) as [r'|] eqn:E'.
          + injection E as ->. apply elem_of_cons in Hin as [->|Hin]; [|by apply IH]. apply blt_le, Hk0.
            by apply latest_key in E' as [_ ?].
          + destruct (decide (pfx k0 = p)); [|done]. injection E as <-. apply elem_of_cons in Hin as [->|Hin]; [apply ble_refl|].
            exfalso. apply latest_None in E'. apply E'. rewrite <- Hp. by apply list_elem_of_fmap_2. }
      f_equal. by apply (anti_symm ble).
    + apply latest_None in E. exfalso. apply E. rewrite <- Hp. by apply list_elem_of_fmap_2.
Qed.

(** Distinct logical keys of ascending versions ascend. *)
Lemma ascending_pfx l :
  ascending l → (∀ a b, a ∈ l → b ∈ l → pfx a = pfx b → a = b) → (∀ a b, a ∈ l → b ∈ l → pfree a b) →
  ascending (map pfx l).
Proof.
  induction 1 as [|k l Hl IH Hk]; intros Hinj Hf; cbn [map]; [constructor|]. apply ascending_cons. split.
  - rewrite Forall_map, Forall_forall in *. intros x Hx. specialize (Hk x Hx). unfold blt in *.
    rewrite pfx_order in Hk; [done| |apply Hf; [by left|by right]|apply Hf; [by right|by left]].
    intros E. apply Hinj in E; [|by left|by right]. subst. by apply blt_irrefl in Hk.
  - apply IH; intros a b ??; [apply Hinj|apply Hf]; by right.
Qed.

(** Adding the newest version of its logical key updates the active set as the
    mirror does. *)
Lemma mirrored_scan c key c' ks' :
  versions c → versions c' → (∀ k, k ∈ c' ↔ k = key ∨ k ∈ c) →
  (∀ k, k ∈ c → pfx k = pfx key → k <=b key) →
  mirrored (activeVersions c) key ks' → ks' = activeVersions c'.
Proof.
  intros Hv Hv' Hc' Hnew [Hi Hmem].
  destruct (activeVersions_spec c Hv) as [_ Hact]. destruct (activeVersions_spec c' Hv') as [Ha' Hact'].
  apply ascending_ext; [by apply keys_inv_ascending|done|]. intros k. rewrite Hmem, Hact, Hact'.
  rewrite !latest_greatest by apply ver_asc, Hv || apply ver_asc, Hv'. split.
  - intros [[Hk ->]|[(Hk&Hin&_&Hmax) Hne]].
    + split_and!; [done|apply Hc'; by left|done|]. intros k' [->|Hk']%Hc' Hp; [apply ble_refl|by apply Hnew].
    + split_and!; [done|apply Hc'; by right|done|]. intros k' [->|Hk']%Hc' Hp; [congruence|by apply Hmax].
  - intros (Hk&Hin&_&Hmax). destruct (decide (pfx k = pfx key)) as [Hp|Hne].
    + left. assert (key <=b k) as H1 by (apply Hmax; [apply Hc'; by left|done]).
      assert (k = key) as -> by (apply Hc' in Hin as [->|Hin]; [done|]; apply (anti_symm ble); [by apply Hnew|done]). done.
    + right. split; [|done]. apply Hc' in Hin as [->|Hin]; [done|]. split_and!; [done|done|done|].
      intros k' Hk' Hp. apply Hmax; [apply Hc'; by right|done].
Qed.

(** Scanning a prefix of the logical keys commutes with taking the active ones. *)
Lemma activeVersions_prefix c prefix :
  versions c → (∀ k, k ∈ c → has_prefix k prefix = has_prefix (pfx k) prefix) →
  activeVersions (filter (fun k => has_prefix k prefix = true) c)
  = filter (fun k => has_prefix k prefix = true) (activeVersions c).
Proof.
  intros Hv Hcut. destruct (activeVersions_spec c Hv) as [Ha Hact].
  assert (versions (filter (fun k => has_prefix k prefix = true) c)) as Hv'.
  { destruct Hv as [H1 H2 H3]. constructor.
    - by apply StronglySorted_filter.
    - by apply Forall_filter_keep.
    - intros a b [_ ?]%list_elem_of_filter [_ ?]%list_elem_of_filter. by apply H3. }
  destruct (activeVersions_spec _ Hv') as [Ha' Hact'].
  apply ascending_ext; [done|by apply StronglySorted_filter|]. intros k.
  rewrite list_elem_of_filter, Hact, Hact', !latest_greatest by apply ver_asc, Hv || apply ver_asc, Hv'.
  rewrite list_elem_of_filter. split.
  - intros (H1&(H2&H3)&_&Hmax). split_and!; [done..|]. intros k' Hk' Hp. apply Hmax; [|done].
    apply list_elem_of_filter. split; [|done]. by rewrite Hcut, Hp, <- Hcut.
  - intros (H2&H1&H3&_&Hmax). split_and!; [done..|]. intros k' [_ Hk']%list_elem_of_filter Hp. by apply Hmax.
Qed.

(** ** Properties *)

(** [ScanPrefix] terminates and returns exactly the keys of the cursor's sources
    that have the prefix, ascending and each once. *)
Theorem scan_prefix_exact {C} `{HC : Cursor C} `{HL : !CursorLaws C} `{HH : !HydSource C}
    fuel (mc : MergedCursor C) prefix :
  Forall cinv (sources mc) → IsKv mc = false →
  (S (length (concat (map contents (sources mc)))) < fuel)%nat →
  ∃ out, ScanPrefix fuel mc prefix = Ok out ∧ ascending out
    ∧ ∀ k, k ∈ out ↔ (∃ c, c ∈ sources mc ∧ k ∈ contents c) ∧ has_prefix k prefix = true.
Proof. apply ScanPrefix_spec. Qed.

Lemma scan_prefix_exact_witness :
  ∃ out, ScanPrefix 20 (NewMergedCursor sampleSources) [3] = Ok out ∧ [3] ∈ out.
Proof.
  destruct (scan_prefix_exact 20 (NewMergedCursor sampleSources) [3]) as (out&E&_&Hk).
  - repeat constructor; cbn; lia.
  - done.
  - cbn. lia.
  - exists out. split; [done|]. apply Hk. split; [|by vm_compute].
    exists (KeysSource {| keys := [[1]; [3]; [5]]; kpos := 0 |}). split; [left|right; left].
Defined.

(** [ScanPrefixActive] keeps, of all versions in a scan, exactly the assertions that
    are the newest version of their logical key. *)
Theorem active_scan_newest c :
  versions c →
  ascending (activeVersions c)
  ∧ ∀ k, k ∈ activeVersions c ↔
      k ∈ c ∧ active k = true ∧ ∀ k', k' ∈ c → pfx k' = pfx k → k' <=b k.
Proof.
  intros Hv. destruct (activeVersions_spec c Hv) as [Ha Hk]. split; [done|]. intros k.
  rewrite Hk, latest_greatest by apply Hv. tauto.
Qed.

Definition sampleVersions : list bytes :=
  [BuildEavtKey 7 3 (EncodeInt 5) 100 false; BuildEavtKey 7 3 (EncodeInt 5) 101 true;
   BuildEavtKey 7 4 (EncodeInt 5) 100 false].

(** [versions] of a closed list, by evaluation. *)
Ltac versions_of l :=
  constructor;
  [ unfold ascending; repeat (constructor; [|repeat (constructor; [by vm_compute|]); constructor]); constructor
  | repeat (constructor; [apply Nat.leb_le; by vm_compute|]); constructor
  | let a := fresh in let b := fresh in let Ha := fresh in let Hb := fresh in let Hall := fresh in
    intros a b Ha Hb; apply (bool_decide_unpack _);
    assert (Forall (fun a => Forall (fun b => bool_decide (pfree a b) = true) l) l) as Hall
      by (repeat (constructor; [repeat (constructor; [by vm_compute|]); constructor|]); constructor);
    rewrite Forall_forall in Hall; specialize (Hall a Ha); rewrite Forall_forall in Hall;
    specialize (Hall b Hb); by rewrite Hall ].

Lemma sampleVersions_ok : versions sampleVersions.
Proof. versions_of sampleVersions. Qed.

Lemma active_scan_newest_witness :
  BuildEavtKey 7 4 (EncodeInt 5) 100 false ∈ activeVersions sampleVersions.
Proof.
  apply (active_scan_newest sampleVersions sampleVersions_ok). split_and!.
  - right; right; left.
  - by vm_compute.
  - intros k' Hk' Hp. unfold sampleVersions in Hk'. rewrite !elem_of_cons, elem_of_nil in Hk'.
    destruct Hk' as [->|[->|[->|[]]]].
    + exfalso. revert Hp. vm_compute. discriminate.
    + exfalso. revert Hp. vm_compute. discriminate.
    + apply ble_refl.
Defined.

(** The hydrated mirror shows what the scan would: when an entry holds the active keys
    of an entity's versions and a newer version of a logical key is mirrored by
    [ApplyKey], the fast path [LookupRange] returns exactly what the newest-version
    filter gives on the scanned versions with the new key. *)
Theorem hydrated_mirror_agrees h key e c c' prefix :
  index h !! decodeEID (beUint64 key 0) = Some e →
  packed e (activeVersions c) → ebytes e = Z.of_nat (length (buf e)) →
  Z.of_nat (length (buf e) + length key) < 2 ^ 31 →
  versions c → versions c' → (∀ k, k ∈ c' ↔ k = key ∨ k ∈ c) →
  (∀ k, k ∈ c → pfx k = pfx key → k <=b key) →
  (∀ k, k ∈ c' → has_prefix k prefix = has_prefix (pfx k) prefix) →
  LookupRange (ApplyKey h key) (decodeEID (beUint64 key 0)) prefix
  = activeVersions (filter (fun k => has_prefix k prefix = true) c').
Proof.
  intros He Hp Hok Hsz Hv Hv' Hc' Hnew Hcut.
  destruct (activeVersions_spec c Hv) as [Ha Hact].
  assert (∀ k, k ∈ activeVersions c → k ∈ c) as Hsub by (by intros k [_ [_ ?]%latest_key]%Hact).
  assert (keys_inv (activeVersions c)) as Hi.
  { destruct Hv as [H1 H2 H3]. rewrite Forall_forall in H2. constructor.
    - apply ascending_pfx; [done| |intros; apply H3; auto].
      intros a b Hina Hinb E. apply Hact in Hina as [_ Hina], Hinb as [_ Hinb]. rewrite E in Hina. congruence.
    - apply Forall_forall. auto.
    - auto. }
  assert (joins key (activeVersions c)) as Hj.
  { destruct Hv' as [H1 H2 H3]. rewrite Forall_forall in H2. split; [apply H2, Hc'; by left|].
    intros k Hk. split; apply H3; apply Hc'; auto. }
  destruct (ApplyKey_entry h key e _ He Hp Hok Hi Hj) as (e'&ks'&delta&Hidx&Hp'&_&Hm&_).
  { by rewrite <- (packed_buf _ _ Hp). }
  assert (ks' = activeVersions c') as -> by exact (mirrored_scan c key c' ks' Hv Hv' Hc' Hnew Hm).
  rewrite (LookupRange_spec _ _ e' (activeVersions c')); [|by rewrite Hidx, lookup_insert_eq|done|by apply activeVersions_spec].
  by rewrite activeVersions_prefix.
Qed.

Definition sampleFirst : list bytes :=
  [BuildEavtKey 7 3 (EncodeInt 5) 100 false; BuildEavtKey 7 4 (EncodeInt 5) 100 false].

Lemma sampleFirst_ok : versions sampleFirst.
Proof. versions_of sampleFirst. Qed.

Lemma hydrated_mirror_agrees_witness :
  LookupRange (ApplyKey (Hydrate (New 1000) 7 sampleFirst) (BuildEavtKey 7 3 (EncodeInt 5) 101 true)) 7 (EncodeEid 7)
  = activeVersions (filter (fun k => has_prefix k (EncodeEid 7) = true) sampleVersions).
Proof.
  apply (hydrated_mirror_agrees (Hydrate (New 1000) 7 sampleFirst) (BuildEavtKey 7 3 (EncodeInt 5) 101 true)
    {| eid := 7; buf := concat sampleFirst; offs := starts 0 sampleFirst; ebytes := Z.of_nat (length (concat sampleFirst)) |}
    sampleFirst).
  - by vm_compute.
  - by constructor; vm_compute.
  - done.
  - by vm_compute.
  - exact sampleFirst_ok.
  - exact sampleVersions_ok.
  - intros k. unfold sampleVersions, sampleFirst. rewrite !elem_of_cons, elem_of_nil. tauto.
  - intros k Hk Hp. unfold sampleFirst in Hk. rewrite !elem_of_cons, elem_of_nil in Hk.
    destruct Hk as [->|[->|[]]]; [by vm_compute|exfalso; revert Hp; vm_compute; discriminate].
  - intros k Hk. unfold sampleVersions in Hk. rewrite !elem_of_cons, elem_of_nil in Hk.
    destruct Hk as [->|[->|[->|[]]]]; by vm_compute.
Defined.
