(* ===== verification/BlobStore.v ===== *)
(** * Blob stores (go/internal/blobstore/blobstore.go)

    The interface the page store is written against ([BlobStore], with its laws
    [BlobLaws]) and the file backend: blobs in a two-level directory named by
    the hex of their identifier, roots as plain names beside them. *)

From S2P Require Import Prelude Pages.

(** ** The interface *)

(** Reads give [Ok None] for a blob that is not there and [Err] for a failed
    read; [Put] draws the identifier. *)
Class BlobStore (B : Type) := {
  Put : B → bytes → res (bytes * B);
  PutAt : B → bytes → bytes → res B;
  Get : B → bytes → res (option bytes);
  Delete : B → bytes → res B;
  List_ : B → res (list bytes);
  PutRoot : B → bytes → bytes → res B;
  GetRoot : B → bytes → res (option bytes);
  ListRoots : B → res (list bytes);
  DeleteRoot : B → bytes → res B;
}.

(** A Go [ID], [[16]byte]. *)
Definition is_id (u : bytes) : Prop := length u = 16%nat ∧ bytes_ok u.

(** A name in a directory. *)
Definition is_file_name (name : bytes) : Prop := bytes_ok name ∧ 47 ∉ name.

(** What [MakeRootName] gives. *)
Definition is_root_name (name : bytes) : Prop :=
  has_prefix name (bs "root_") = true ∧ has_prefix (reverse name) (reverse (bs ".tmp")) = false ∧ is_file_name name.

(** A store that accepts writes holds a map of blobs and a map of named roots.
    [used] is every identifier handed out so far, which a later [Put] avoids;
    [room] says how many more a [Put] can draw. *)
Class BlobLaws (B : Type) `{BlobStore B} := {
  binv : B → Prop;
  objs : B → bytes → option bytes;
  rootsOf : B → bytes → option bytes;
  used : B → bytes → Prop;
  room : B → nat;
  obj_used : ∀ b u, binv b → is_Some (objs b u) → used b u;
  put_law : ∀ b d, binv b → (0 < room b)%nat → ∃ id b', Put b d = Ok (id, b') ∧ binv b'
    ∧ room b = S (room b')
    ∧ is_id id ∧ id ≠ zeroUUID ∧ ¬ used b id
    ∧ (∀ u, is_id u → objs b' u = if bool_decide (u = id) then Some d else objs b u)
    ∧ (∀ u, used b' u ↔ u = id ∨ used b u)
    ∧ (∀ n, is_root_name n → rootsOf b' n = rootsOf b n);
  get_law : ∀ b u, binv b → is_id u → Get b u = Ok (objs b u);
  delete_law : ∀ b u, binv b → is_id u → ∃ b', Delete b u = Ok b' ∧ binv b' ∧ room b' = room b
    ∧ (∀ v, is_id v → objs b' v = if bool_decide (v = u) then None else objs b v)
    ∧ (∀ v, used b' v ↔ used b v)
    ∧ (∀ n, is_root_name n → rootsOf b' n = rootsOf b n);
  list_law : ∀ b, binv b → ∃ ids, List_ b = Ok ids ∧ NoDup ids
    ∧ ∀ u, u ∈ ids ↔ is_id u ∧ is_Some (objs b u);
  putRoot_law : ∀ b n d, binv b → is_root_name n → ∃ b', PutRoot b n d = Ok b' ∧ binv b' ∧ room b' = room b
    ∧ (∀ u, is_id u → objs b' u = objs b u) ∧ (∀ v, used b' v ↔ used b v)
    ∧ (∀ m, is_root_name m → rootsOf b' m = if bool_decide (m = n) then Some d else rootsOf b m);
  getRoot_law : ∀ b n, binv b → is_root_name n → GetRoot b n = Ok (rootsOf b n);
  listRoots_law : ∀ b, binv b → ∃ ns, ListRoots b = Ok ns ∧ ascending ns
    ∧ ∀ n, n ∈ ns ↔ is_root_name n ∧ is_Some (rootsOf b n);
  deleteRoot_law : ∀ b n, binv b → is_root_name n → ∃ b', DeleteRoot b n = Ok b' ∧ binv b' ∧ room b' = room b
    ∧ (∀ u, is_id u → objs b' u = objs b u) ∧ (∀ v, used b' v ↔ used b v)
    ∧ (∀ m, is_root_name m → rootsOf b' m = if bool_decide (m = n) then None else rootsOf b m);
}.

(** ** Identifiers as file names *)

Definition hexChars : bytes := bs "0123456789abcdef".

Definition idToHex (id : bytes) : bytes :=
  flat_map (fun b => [nth (Z.to_nat (Z.shiftr b 4)) hexChars 0; nth (Z.to_nat (Z.land b 0x0f)) hexChars 0]) id.

Definition hexNibble (c : Z) : option Z :=
  if (48 <=? c) && (c <=? 57) then Some (c - 48)
  else if (97 <=? c) && (c <=? 102) then Some (c - 97 + 10)
  else if (65 <=? c) && (c <=? 70) then Some (c - 65 + 10)
  else None.

Fixpoint hexPairs (n : nat) (s : bytes) : option bytes :=
  match n, s with
  | O, _ => Some []
  | S n', a :: b :: s' =>
      hi ← hexNibble a;
      lo ← hexNibble b;
      id ← hexPairs n' s';
      Some (Z.lor (Z.shiftl hi 4) lo :: id)
  | S _, _ => None
  end.
Definition hexToID (s : bytes) : option bytes :=
  if negb (Nat.eqb (length s) 32) then None else hexPairs 16 s.

(** ** The file backend *)

(** The tree under the base directory: each regular file by the names on its
    path. [rand] is what the coming reads of crypto/rand give; a [Put] past the
    end of it fails. *)
Record FileBlobStore : Type := {
  files : gmap (list bytes) bytes;
  readOnly : bool;
  rand : list bytes;
}.

Definition pathOf (id : bytes) : list bytes :=
  let hex := idToHex id in [take 2 hex; take 2 (drop 2 hex); hex].

Module fileStore.
Definition failReadOnly (s : FileBlobStore) : res unit :=
  if readOnly s then Err "read-only" else Ok tt.

(** Written to a temporary name and renamed, so the file is there whole. *)
Definition writeAtomic (s : FileBlobStore) (path : list bytes) (data : bytes) : FileBlobStore :=
  {| files := <[path := data]> (files s); readOnly := readOnly s; rand := rand s |}.

Definition remove (s : FileBlobStore) (path : list bytes) : FileBlobStore :=
  {| files := delete path (files s); readOnly := readOnly s; rand := rand s |}.

Definition draw (s : FileBlobStore) : res (bytes * FileBlobStore) :=
  match rand s with
  | [] => Err "urandom"
  | id :: r => Ok (id, {| files := files s; readOnly := readOnly s; rand := r |})
  end.

Definition Put (s : FileBlobStore) (data : bytes) : res (bytes * FileBlobStore) :=
  _ ← failReadOnly s;
  '(id, s) ← draw s;
  Ok (id, writeAtomic s (pathOf id) data).

Definition PutAt (s : FileBlobStore) (id data : bytes) : res FileBlobStore :=
  _ ← failReadOnly s; Ok (writeAtomic s (pathOf id) data).

Definition Get (s : FileBlobStore) (id : bytes) : res (option bytes) := Ok (files s !! pathOf id).

Definition Delete (s : FileBlobStore) (id : bytes) : res FileBlobStore :=
  _ ← failReadOnly s; Ok (remove s (pathOf id)).

Definition hasSuffix (s suffix : bytes) : bool := has_prefix (reverse s) (reverse suffix).

(** The third level of the walk; the file's own name decides. *)
Definition listedID (path : list bytes) : option bytes :=
  match path with
  | [_; _; name] => if hasSuffix name (bs ".tmp") then None else hexToID name
  | _ => None
  end.
Definition List_ (s : FileBlobStore) : res (list bytes) :=
  Ok (omap (fun f => listedID f.1) (map_to_list (files s))).

Definition PutRoot (s : FileBlobStore) (name data : bytes) : res FileBlobStore :=
  _ ← failReadOnly s; Ok (writeAtomic s [name] data).

Definition GetRoot (s : FileBlobStore) (name : bytes) : res (option bytes) := Ok (files s !! [name]).

Definition listedRoot (path : list bytes) : option bytes :=
  match path with
  | [name] => if has_prefix name (bs "root_") && negb (hasSuffix name (bs ".tmp")) then Some name else None
  | _ => None
  end.
Definition ListRoots (s : FileBlobStore) : res (list bytes) :=
  Ok (merge_sort ble (omap (fun f => listedRoot f.1) (map_to_list (files s)))).

Definition DeleteRoot (s : FileBlobStore) (name : bytes) : res FileBlobStore :=
  _ ← failReadOnly s; Ok (remove s [name]).
End fileStore.

#[export] Instance FileBlobStore_ops : BlobStore FileBlobStore := {|
  Put := fileStore.Put; PutAt := fileStore.PutAt; Get := fileStore.Get; Delete := fileStore.Delete;
  List_ := fileStore.List_; PutRoot := fileStore.PutRoot; GetRoot := fileStore.GetRoot;
  ListRoots := fileStore.ListRoots; DeleteRoot := fileStore.DeleteRoot |}.

(** ** Names *)

Lemma nth_hexChars n : 0 ≤ n < 16 → nth (Z.to_nat n) hexChars 0 = hexDigit n.
Proof.
  intros Hn. assert (n = 0 ∨ n = 1 ∨ n = 2 ∨ n = 3 ∨ n = 4 ∨ n = 5 ∨ n = 6 ∨ n = 7 ∨ n = 8 ∨ n = 9
    ∨ n = 10 ∨ n = 11 ∨ n = 12 ∨ n = 13 ∨ n = 14 ∨ n = 15) as Hc by lia.
  repeat (destruct Hc as [->|Hc]; [done|]). by subst.
Qed.

Lemma idToHex_hexByte id : bytes_ok id → idToHex id = flat_map hexByte id.
Proof.
  induction 1 as [|b id Hb Hid IH]; [done|]. unfold idToHex in *. cbn [flat_map]. rewrite IH. f_equal.
  unfold hexByte. destruct (nibbles b) as [-> ->]. unfold is_u8 in Hb.
  rewrite !nth_hexChars by (Z.to_euclidean_division_equations; lia). done.
Qed.

Lemma length_idToHex id : length (idToHex id) = (2 * length id)%nat.
Proof. unfold idToHex. induction id as [|b id IH]; [done|]. cbn [flat_map app length]. lia. Qed.

Lemma hexNibble_hexDigit n : 0 ≤ n < 16 → hexNibble (hexDigit n) = Some n.
Proof.
  intros Hn. unfold hexNibble, hexDigit. destruct (Z.ltb_spec n 10).
  - replace ((48 <=? 48 + n) && (48 + n <=? 57)) with true by lia. f_equal. lia.
  - replace ((48 <=? 87 + n) && (87 + n <=? 57)) with false by lia.
    replace ((97 <=? 87 + n) && (87 + n <=? 102)) with true by lia. f_equal. lia.
Qed.

Lemma hexPairs_idToHex id : bytes_ok id → hexPairs (length id) (flat_map hexByte id) = Some id.
Proof.
  induction 1 as [|b id Hb Hid IH]; [done|]. cbn [flat_map length]. unfold hexByte at 1.
  destruct (nibbles b) as [-> ->]. unfold is_u8 in Hb. cbn [app hexPairs].
  rewrite !hexNibble_hexDigit by (Z.to_euclidean_division_equations; lia). cbn [mbind option_bind].
  rewrite IH. cbn [mbind option_bind]. do 2 f_equal. rewrite Z.shiftl_mul_pow2, lor_low by mlia. mlia.
Qed.

Lemma hexToID_idToHex id : is_id id → hexToID (idToHex id) = Some id.
Proof.
  intros [Hl Hok]. unfold hexToID. rewrite length_idToHex, Hl. cbn [Nat.mul Nat.add Nat.eqb negb].
  rewrite idToHex_hexByte, <- Hl by done. by apply hexPairs_idToHex.
Qed.

Lemma pathOf_inj a b : is_id a → is_id b → pathOf a = pathOf b → a = b.
Proof.
  intros Ha Hb [= _ _ E]. apply (f_equal hexToID) in E. rewrite !hexToID_idToHex in E by done. congruence.
Qed.

Lemma hexDigit_ne_p n : 0 ≤ n < 16 → hexDigit n ≠ 112.
Proof. unfold hexDigit. destruct (Z.ltb_spec n 10); lia. Qed.

Lemma hexBytes_not_tmp pre b :
  bytes_ok b → b ≠ [] → has_prefix (reverse (pre ++ flat_map hexByte b)) (reverse (bs ".tmp")) = false.
Proof.
  intros Hok Hne. destruct b as [|x b] using rev_ind; [done|]. clear IHb Hne.
  apply Forall_app in Hok as [_ Hx]. apply Forall_cons in Hx as [Hx _].
  rewrite flat_map_app. cbn [flat_map]. rewrite app_nil_r, !reverse_app. unfold hexByte, is_u8 in *.
  destruct (nibbles x) as [-> ->]. unfold has_prefix. apply bool_decide_eq_false. cbn. intros [= E _].
  revert E. apply hexDigit_ne_p. mlia.
Qed.

Lemma hexBytes_ok b : bytes_ok b → bytes_ok (flat_map hexByte b).
Proof.
  induction 1 as [|x b Hx Hb IH]; [constructor|]. cbn [flat_map]. unfold hexByte, is_u8 in Hx |- *. destruct (nibbles x) as [-> ->]. cbn [app].
  assert (∀ n, 0 ≤ n < 16 → is_u8 (hexDigit n)) as Hd by (intros n Hn; unfold hexDigit, is_u8; destruct (n <? 10) eqn:E; lia).
  constructor; [apply Hd; mlia|]. constructor; [apply Hd; mlia|done].
Qed.

Lemma hexBytes_no_slash b : bytes_ok b → 47 ∉ flat_map hexByte b.
Proof.
  induction 1 as [|x b Hx Hb IH]; [apply not_elem_of_nil|]. cbn [flat_map]. unfold hexByte, is_u8 in *. destruct (nibbles x) as [-> ->]. cbn [app].
  assert (∀ n, 0 ≤ n < 16 → 47 ≠ hexDigit n) as Hd by (intros n Hn; unfold hexDigit; destruct (n <? 10); lia).
  intros [H|[H|H]%elem_of_cons]%elem_of_cons; [revert H; apply Hd; mlia|revert H; apply Hd; mlia|by apply IH].
Qed.

Lemma hex_not_tmp id : is_id id → fileStore.hasSuffix (idToHex id) (bs ".tmp") = false.
Proof.
  intros [Hl Hok]. unfold fileStore.hasSuffix. rewrite idToHex_hexByte by done.
  apply (hexBytes_not_tmp []); [done|]. by intros ->.
Qed.

(** ** The file backend keeps the laws *)

Record file_inv (s : FileBlobStore) : Prop := {
  fi_rw : readOnly s = false;
  fi_fresh : ∀ id, id ∈ rand s → is_id id ∧ id ≠ zeroUUID ∧ files s !! pathOf id = None;
  fi_distinct : NoDup (rand s);
  fi_names : ∀ p, is_Some (files s !! p) → (∃ id, is_id id ∧ p = pathOf id) ∨ ∃ n, p = [n] ∧ is_file_name n;
}.

Definition file_used (s : FileBlobStore) (u : bytes) : Prop := u ∉ rand s.

Lemma file_inv_write s path data :
  file_inv s → ((∃ id, is_id id ∧ path = pathOf id ∧ file_used s id) ∨ ∃ n, path = [n] ∧ is_file_name n) →
  file_inv (fileStore.writeAtomic s path data).
Proof.
  intros [H1 H2 H3 H4] Hp. constructor; cbn; [done| |done|].
  - intros i Hi. destruct (H2 i Hi) as (Hid&Hz&Hn). split_and!; [done|done|].
    rewrite lookup_insert_ne; [done|]. destruct Hp as [(id&Hid'&->&Hu)|(n&->&_)]; [|done].
    intros E%pathOf_inj; [|done..]. subst i. by apply Hu.
  - intros p [x Hx]. apply lookup_insert_Some in Hx as [[<- _]|[_ Hx]]; [|eauto].
    destruct Hp as [(id&?&->&_)|(n&->&?)]; eauto 6.
Qed.

Lemma file_inv_remove s path : file_inv s → file_inv (fileStore.remove s path).
Proof.
  intros [H1 H2 H3 H4]. constructor; cbn; [done| |done|].
  - intros i Hi. destruct (H2 i Hi) as (Hid&Hz&Hn). split_and!; [done|done|].
    apply lookup_delete_None. by right.
  - intros p [x Hx]. apply lookup_delete_Some in Hx as [_ Hx]. eauto.
Qed.

Lemma files_write s path data p :
  files (fileStore.writeAtomic s path data) !! p = if bool_decide (p = path) then Some data else files s !! p.
Proof. cbn. case_bool_decide as E; [subst; apply lookup_insert_eq|]. by apply lookup_insert_ne. Qed.

Lemma files_remove s path p :
  files (fileStore.remove s path) !! p = if bool_decide (p = path) then None else files s !! p.
Proof. cbn. case_bool_decide as E; [subst; apply lookup_delete_eq|]. by apply lookup_delete_ne. Qed.

Lemma path_decide a b : is_id a → is_id b → bool_decide (pathOf a = pathOf b) = bool_decide (a = b).
Proof. intros Ha Hb. apply bool_decide_ext. split; [by apply pathOf_inj|by intros ->]. Qed.

Lemma name_decide (a b : bytes) : bool_decide ([a] = [b]) = bool_decide (a = b).
Proof. apply bool_decide_ext. split; congruence. Qed.

Lemma put_file s d :
  file_inv s → (0 < length (rand s))%nat → ∃ id s', fileStore.Put s d = Ok (id, s') ∧ file_inv s'
    ∧ length (rand s) = S (length (rand s'))
    ∧ is_id id ∧ id ≠ zeroUUID ∧ ¬ file_used s id
    ∧ (∀ u, is_id u → files s' !! pathOf u = if bool_decide (u = id) then Some d else files s !! pathOf u)
    ∧ (∀ u, file_used s' u ↔ u = id ∨ file_used s u)
    ∧ (∀ n, files s' !! [n] = files s !! [n]).
Proof.
  intros Hi Hlen. pose proof Hi as [H1 H2 H3 H4]. unfold fileStore.Put, fileStore.failReadOnly, fileStore.draw.
  rewrite H1, res_bind_ret. destruct (rand s) as [|id r] eqn:Er; [cbn in Hlen; lia|]. rewrite res_bind_ret. cbv beta iota.
  set (s1 := {| files := files s; readOnly := false; rand := r |}).
  destruct (H2 id) as (Hid&Hz&Hn); [left|]. apply NoDup_cons in H3 as [Hnew H3].
  assert (file_inv s1) as Hi1. { constructor; cbn; [done| |done|done]. intros i Hin. apply H2. by right. }
  eexists _, _. split; [done|]. split_and!.
  - apply file_inv_write; [done|]. left. eauto.
  - done.
  - done.
  - done.
  - intros Hu. apply Hu. rewrite Er. left.
  - intros u Hu'. rewrite files_write, path_decide by done. done.
  - intros u. unfold file_used. cbn. rewrite Er, elem_of_cons. destruct (decide (u = id)) as [->|]; naive_solver.
  - intros n. rewrite files_write, bool_decide_false; [done|]. by unfold pathOf.
Qed.

Lemma listedID_path id : is_id id → fileStore.listedID (pathOf id) = Some id.
Proof. intros Hid. cbn. rewrite hex_not_tmp by done. by apply hexToID_idToHex. Qed.

Lemma omap_names_NoDup (f : list bytes → option bytes) (m : gmap (list bytes) bytes) :
  (∀ p q x, is_Some (m !! p) → is_Some (m !! q) → f p = Some x → f q = Some x → p = q) →
  NoDup (omap (fun y => f y.1) (map_to_list m)).
Proof.
  intros Hinj. pose proof (NoDup_fst_map_to_list m) as Hnd.
  assert (∀ y, y ∈ map_to_list m → is_Some (m !! y.1)) as Hin.
  { intros [p d] Hy. apply elem_of_map_to_list in Hy. eauto. }
  induction (map_to_list m) as [|y l IH]; [apply NoDup_nil_2|]. cbn in Hnd. apply NoDup_cons in Hnd as [Hy Hnd].
  cbn. assert (NoDup (omap (fun y => f y.1) l)) as IH' by (apply IH; [done|intros z Hz; apply Hin; by right]).
  destruct (f y.1) as [x|] eqn:E; [|done]. apply NoDup_cons. split; [|done].
  intros (z&Hz&Ez)%list_elem_of_omap. apply Hy.
  rewrite (Hinj y.1 z.1 x); [by apply list_elem_of_fmap_2|apply Hin; left|apply Hin; by right|done|done].
Qed.

Lemma list_file s :
  file_inv s → NoDup (omap (fun f => fileStore.listedID f.1) (map_to_list (files s)))
  ∧ ∀ u, u ∈ omap (fun f => fileStore.listedID f.1) (map_to_list (files s)) ↔ is_id u ∧ is_Some (files s !! pathOf u).
Proof.
  intros Hi. split.
  - apply (omap_names_NoDup fileStore.listedID). intros p q x Hp Hq Ep Eq.
    destruct (fi_names s Hi p Hp) as [(a&Ha&->)|(n&->&_)]; [|done].
    destruct (fi_names s Hi q Hq) as [(b&Hb&->)|(n&->&_)]; [|done].
    rewrite listedID_path in Ep, Eq by done. congruence.
  - intros u. rewrite list_elem_of_omap. split.
    + intros ([p d]&Hin%elem_of_map_to_list&E). cbn [fst] in E.
      destruct (fi_names s Hi p (mk_is_Some _ _ Hin)) as [(a&Ha&->)|(n&->&_)]; [|done].
      rewrite listedID_path in E by done. injection E as <-. eauto.
    + intros [Hu [d Hd]]. exists (pathOf u, d). split; [by apply elem_of_map_to_list|]. by apply listedID_path.
Qed.

#[local] Instance ble_total' : Total ble.
Proof. intros a b. destruct (ble_total a b); [by left|right; by apply blt_le]. Qed.

Lemma sorted_ascending l : NoDup l → ascending (merge_sort ble l).
Proof.
  intros Hnd. unfold ascending. pose proof (StronglySorted_merge_sort ble l) as Hs.
  rewrite <- (merge_sort_Permutation ble l) in Hnd. revert Hnd. induction Hs as [|x l' Hs IH Hx]; [constructor|].
  intros [Hnx Hnd]%NoDup_cons. constructor; [by apply IH|]. rewrite Forall_forall in *. intros y Hy.
  destruct (proj1 (ble_lt_eq x y) (Hx y Hy)) as [?| ->]; [done|by destruct Hnx].
Qed.

Lemma listedRoot_name p n : fileStore.listedRoot p = Some n ∧ is_file_name n ↔ p = [n] ∧ is_root_name n.
Proof.
  unfold fileStore.listedRoot, is_root_name, fileStore.hasSuffix. destruct p as [|x [|y p]]; [naive_solver| |naive_solver].
  split.
  - intros [E Hn]. destruct (has_prefix x (bs "root_")) eqn:E1, (has_prefix (reverse x) (reverse (bs ".tmp"))) eqn:E2; try done. by injection E as <-.
  - intros ([= ->]&E1&E2&Hn). by rewrite E1, E2.
Qed.

Lemma listRoots_file s :
  file_inv s →
  let ns := omap (fun f => fileStore.listedRoot f.1) (map_to_list (files s)) in
  NoDup ns ∧ ∀ n, n ∈ ns ↔ is_root_name n ∧ is_Some (files s !! [n]).
Proof.
  intros Hi. assert (∀ p n, is_Some (files s !! p) → fileStore.listedRoot p = Some n → p = [n] ∧ is_root_name n) as Hl.
  { intros p n Hp E. apply listedRoot_name. split; [done|]. destruct (fi_names s Hi p Hp) as [(id&_&->)|(m&->&Hm)]; [done|].
    cbn in E. destruct (_ && _); [|done]. by injection E as <-. }
  split.
  - apply (omap_names_NoDup fileStore.listedRoot). intros p q x Hp Hq Ep Eq. apply Hl in Ep as [-> _], Eq as [-> _]; done.
  - intros n. rewrite list_elem_of_omap. split.
    + intros ([p d]&Hin%elem_of_map_to_list&E). cbn [fst] in E. apply Hl in E as [-> ?]; eauto.
    + intros [Hn [d Hd]]. exists ([n], d). split; [by apply elem_of_map_to_list|]. by apply listedRoot_name.
Qed.

#[export] Instance FileBlobStore_laws : BlobLaws FileBlobStore.
Proof.
  refine {| binv := file_inv; objs := fun s u => files s !! pathOf u;
            rootsOf := fun s n => files s !! [n]; used := file_used; room := fun s => length (rand s) |}.
  - intros s u Hi [d Hd] Hin. destruct (fi_fresh s Hi u Hin) as (_&_&Hn). congruence.
  - intros s d Hi Hroom. destruct (put_file s d Hi Hroom) as (id&s'&E&?&?&?&?&?&?&?&Hr). exists id, s'. by split_and!.
  - done.
  - intros s u Hi Hu. cbn. unfold fileStore.Delete, fileStore.failReadOnly. rewrite (fi_rw s Hi), res_bind_ret.
    eexists. split; [done|]. split_and!; [by apply file_inv_remove|done| |done|].
    + intros v Hv. by rewrite files_remove, path_decide.
    + intros n _. rewrite files_remove, bool_decide_false; [done|]. by unfold pathOf.
  - intros s Hi. destruct (list_file s Hi) as [Hnd Hin]. eexists. split; [done|]. by split.
  - intros s n d Hi Hn. cbn. unfold fileStore.PutRoot, fileStore.failReadOnly. rewrite (fi_rw s Hi), res_bind_ret.
    eexists. split; [done|]. split_and!; [apply file_inv_write; [done|right; exists n; split; [done|apply Hn]]|done| |done|].
    + intros u _. rewrite files_write, bool_decide_false; [done|]. by unfold pathOf.
    + intros n' _. by rewrite files_write, name_decide.
  - done.
  - intros s Hi. destruct (listRoots_file s Hi) as [Hnd Hin]. eexists. split; [done|]. split; [by apply sorted_ascending|].
    intros n. rewrite (merge_sort_Permutation ble). apply Hin.
  - intros s n Hi Hn. cbn. unfold fileStore.DeleteRoot, fileStore.failReadOnly. rewrite (fi_rw s Hi), res_bind_ret.
    eexists. split; [done|]. split_and!; [by apply file_inv_remove|done| |done|].
    + intros u _. rewrite files_remove, bool_decide_false; [done|]. by unfold pathOf.
    + intros n' _. by rewrite files_remove, name_decide.
Defined.

(** ** Empty stores *)

(** A store just opened on an empty directory. *)
Definition emptyStore (r : list bytes) : FileBlobStore := {| files := ∅; readOnly := false; rand := r |}.

Lemma emptyStore_inv r :
  Forall (fun id => is_id id ∧ id ≠ zeroUUID) r → NoDup r → file_inv (emptyStore r).
Proof.
  intros H1 H2. rewrite Forall_forall in H1. constructor; cbn; [done| |done|].
  - intros id Hid. destruct (H1 id Hid). by split_and!; [..|apply lookup_empty].
  - intros p [x Hx]. by rewrite lookup_empty in Hx.
Qed.
