(* ===== verification/PageStore.v ===== *)
(** * The page store (go/internal/pagestore/store.go)

    Copy-on-write trees of pages over a blob store: reads through the page
    cache, the merge of a flush, and the publication of roots. *)

From S2P Require Import Prelude Pages FlatLeaf PageCache BlobStore.

(** ** Compression *)

(** klauspost/compress/zstd is a library: its one-shot calls are parameters. *)
Class Zstd := {
  EncodeAll : bytes → bytes;
  DecodeAll : bytes → res bytes;
}.

Definition zstdMagic : bytes := [0x28; 0xb5; 0x2f; 0xfd].

(** A frame starts with the magic number and decodes to what was encoded. *)
Class ZstdLaws `{Zstd} := {
  zstd_magic : ∀ d, take 4 (EncodeAll d) = zstdMagic;
  zstd_roundtrip : ∀ d, DecodeAll (EncodeAll d) = Ok d;
}.

Definition compress `{Zstd} (data : bytes) : bytes := EncodeAll data.

Definition Decompress `{Zstd} (data : bytes) : res bytes :=
  if Nat.ltb (length data) 4 || negb (nth 0 data 0 =? 0x28) || negb (nth 1 data 0 =? 0xb5)
     || negb (nth 2 data 0 =? 0x2f) || negb (nth 3 data 0 =? 0xfd) then Ok data
  else DecodeAll data.

(** ** The store *)

Record Store (B : Type) : Type := mkStore {
  blobs : B;
  trees : list CfTree;
  numCf : Z;
  sReadOnly : bool;
  currentRoot : bytes;
  cache : pageCache;
}.
Arguments mkStore {B} _ _ _ _ _ _.
Arguments blobs {B} _.
Arguments trees {B} _.
Arguments numCf {B} _.
Arguments sReadOnly {B} _.
Arguments currentRoot {B} _.
Arguments cache {B} _.

Definition withBlobs {B} (s : Store B) (b : B) : Store B :=
  mkStore b (trees s) (numCf s) (sReadOnly s) (currentRoot s) (cache s).
Definition withCache {B} (s : Store B) (c : pageCache) : Store B :=
  mkStore (blobs s) (trees s) (numCf s) (sReadOnly s) (currentRoot s) c.

(** The clock [MakeRootName] reads: seconds and nanoseconds. *)
Abbreviation clock := (Z * Z)%type.

Section store.
Context {B : Type} `{BlobStore B} `{Zstd}.

(** [for len(s.trees) < s.numCf { append EmptyTree }]. *)
Definition padTrees (n : Z) (ts : list CfTree) : list CfTree :=
  ts ++ replicate (Z.to_nat n - length ts) EmptyTree.

Definition blobGetRoot (s : Store B) (name : bytes) : res (option bytes) :=
  d ← GetRoot (blobs s) name;
  match d with
  | None => Ok None
  | Some data => out ← Decompress data; Ok (Some out)
  end.

(** [false] when the write failed. *)
Definition blobPutRoot (s : Store B) (name data : bytes) : bool * Store B :=
  match PutRoot (blobs s) name (compress data) with
  | Ok b => (true, withBlobs s b)
  | _ => (false, s)
  end.

(** Opening on a blob store; the configuration's other fields pick the backend. *)
Definition Open (b : B) (nCf : Z) (ro : bool) (cacheSize : Z) (now : clock) : res (Store B) :=
  let nCf := if nCf =? 0 then 64 else nCf in
  let cacheSize := if cacheSize =? 0 then 536870912 else cacheSize in
  let s := mkStore b [] nCf ro [] (newPageCache cacheSize) in
  roots ← ListRoots b;
  match roots with
  | latest :: _ =>
      match blobGetRoot s latest with
      | Ok (Some data) =>
          ts ← DeserializeRoot data;
          Ok (mkStore b (padTrees nCf ts) nCf ro latest (cache s))
      | Panic => Panic
      | Diverge => Diverge
      | _ => Err "latest root unreadable"
      end
  | [] =>
      let ts := replicate (Z.to_nat nCf) EmptyTree in
      let name := MakeRootName now.1 now.2 in
      let '(ok, s) := blobPutRoot s name (SerializeRoot ts) in
      if ok then Ok (mkStore (blobs s) ts nCf ro name (cache s))
      else Err "cannot write initial root"
  end.

Definition Tree (s : Store B) (cf : Z) : CfTree :=
  if (cf <? 0) || (cf >=? Z.of_nat (length (trees s))) then EmptyTree
  else nth (Z.to_nat cf) (trees s) EmptyTree.

(** *** Blob helpers *)

Definition blobPut (s : Store B) (data : bytes) : res (bytes * Store B) :=
  '(id, b) ← Put (blobs s) (compress data);
  Ok (id, withBlobs s b).

(** The worker pool writes the pages in some order; identifiers are random, so
    one order stands for all. *)
Fixpoint blobPutPages (s : Store B) (pages : list bytes) : res (list bytes * Store B) :=
  match pages with
  | [] => Ok ([], s)
  | p :: pages' =>
      '(u, s) ← blobPut s p;
      '(us, s) ← blobPutPages s pages';
      Ok (u :: us, s)
  end.

Definition checkPage (kv : bool) (page : bytes) : res unit :=
  if kv then _ ← DeserializePageKv page; Ok tt else _ ← DeserializePage page; Ok tt.

Definition putPageList (s : Store B) (pageList : list (bytes * bytes)) (kv : bool)
  : res (list IndexEntry * Store B) :=
  _ ← mapM (fun pl => checkPage kv pl.2) pageList;
  '(uuids, s) ← blobPutPages s (map snd pageList);
  Ok (zip_with (fun pl u => {| EKey := pl.1; EUUID := u |}) pageList uuids, s).

(** The first key and the bytes of each page that is not empty. *)
Fixpoint indexHeads (pages : list bytes) : res (list (bytes * bytes)) :=
  match pages with
  | [] => Ok []
  | pageData :: pages' =>
      pe ← DeserializeIndexPage pageData;
      rest ← indexHeads pages';
      Ok (match pe with [] => rest | e :: _ => (EKey e, pageData) :: rest end)
  end.
Definition putIndexPages (s : Store B) (pages : list bytes) : res (list IndexEntry * Store B) :=
  heads ← indexHeads pages;
  '(uuids, s) ← blobPutPages s (map snd heads);
  Ok (zip_with (fun h u => {| EKey := h.1; EUUID := u |}) heads uuids, s).

Definition blobGet (s : Store B) (u : bytes) : res (option bytes) :=
  d ← Get (blobs s) u;
  match d with
  | None => Ok None
  | Some data => out ← Decompress data; Ok (Some out)
  end.

(** *** Reads through the cache *)

Definition loadLeafRaw (s : Store B) (u : bytes) : res (bytes * Store B) :=
  match getBytes (cache s) u with
  | (c, Some cached) => Ok (cached, withCache s c)
  | (c, None) =>
      d ← blobGet s u;
      match d with
      | None => Err "leaf blob not found"
      | Some data => Ok (data, withCache s (putBytes c u data))
      end
  end.

Definition loadLeafKeys (s : Store B) (u : bytes) : res (FlatLeaf * Store B) :=
  match getLeafKeys (cache s) u with
  | (c, Some cached) => Ok (cached, withCache s c)
  | (c, None) =>
      '(raw, s) ← loadLeafRaw (withCache s c) u;
      leaf ← DecodePageFlat raw;
      Ok (leaf, withCache s (putLeafKeys (cache s) u leaf))
  end.

Definition loadLeafPairs (s : Store B) (u : bytes) : res (FlatLeafKV * Store B) :=
  match getLeafKV (cache s) u with
  | (c, Some cached) => Ok (cached, withCache s c)
  | (c, None) =>
      '(raw, s) ← loadLeafRaw (withCache s c) u;
      leaf ← DecodePageKvFlat raw;
      Ok (leaf, withCache s (putLeafKV (cache s) u leaf))
  end.

Definition loadIndexPage (s : Store B) (u : bytes) : res (list IndexEntry * Store B) :=
  match getIndex (cache s) u with
  | (c, Some cached) => Ok (cached, withCache s c)
  | (c, None) =>
      '(raw, s) ← loadLeafRaw (withCache s c) u;
      entries ← DeserializeIndexPage raw;
      Ok (entries, withCache s (putIndex (cache s) u entries))
  end.

(** *** Prefix scans *)

Fixpoint hasPrefix (k prefix : bytes) : bool :=
  match prefix, k with
  | [], _ => true
  | _ :: _, [] => false
  | p :: prefix', x :: k' => if negb (x =? p) then false else hasPrefix k' prefix'
  end.

(** [for i := 0; i < keys.Count(); i++ { ... keys.Key(i) ... }]. *)
Definition leafKeysIn (leaf : FlatLeaf) (prefix : bytes) : res (list bytes) :=
  ks ← mapM (flatLeaf.Key leaf) (seq 0 (Z.to_nat (flatLeaf.Count (Some leaf))));
  Ok (filter (fun k => hasPrefix k prefix = true) ks).

Definition leafPairsIn (leaf : FlatLeafKV) (prefix : bytes) : res (list (bytes * bytes)) :=
  ps ← mapM (fun i => flatLeafKV.Pair leaf (Z.of_nat i)) (seq 0 (Z.to_nat (flatLeafKV.Count (Some leaf))));
  Ok (filter (fun p => hasPrefix p.1 prefix = true) (omap id ps)).

(** Runs [f] on each item, threading the store and gathering what it finds. *)
Fixpoint gather {A R} (f : Store B → A → res (list R * Store B)) (s : Store B) (l : list A)
  : res (list R * Store B) :=
  match l with
  | [] => Ok ([], s)
  | x :: l' =>
      '(out, s) ← f s x;
      '(rest, s) ← gather f s l';
      Ok (out ++ rest, s)
  end.

(** The index page at [pageUUID], cut to the children the prefix can be in. *)
Definition childrenIn (s : Store B) (msg : string) (pageUUID prefix : bytes) : res (list bytes) :=
  d ← blobGet s pageUUID;
  match d with
  | None => Err msg
  | Some data =>
      entries ← DeserializeIndexPage data;
      let '(start, end_) := FindPrefixRange entries prefix in
      Ok (map EUUID (take (end_ - start) (drop start entries)))
  end.

Definition keysOfLeaf (prefix : bytes) (s : Store B) (u : bytes) : res (list bytes * Store B) :=
  '(leaf, s) ← loadLeafKeys s u;
  ks ← leafKeysIn leaf prefix;
  Ok (ks, s).

(** [below] is [height - 1]: zero when the children are leaves. *)
Fixpoint collectKeysFromIndex (below : nat) (prefix : bytes) (s : Store B) (pageUUID : bytes)
  : res (list bytes * Store B) :=
  children ← childrenIn s "index page unreadable" pageUUID prefix;
  match below with
  | O => gather (keysOfLeaf prefix) s children
  | S below' => gather (collectKeysFromIndex below' prefix) s children
  end.

Definition GetKeysInPrefix (s : Store B) (cf : Z) (prefix : bytes) : res (list bytes * Store B) :=
  if cf >=? numCf s then Ok ([], s)
  else
    let tree := Tree s cf in
    if bool_decide (RootUUID tree = zeroUUID) then Ok ([], s)
    else if Height tree =? 0 then keysOfLeaf prefix s (RootUUID tree)
    else collectKeysFromIndex (Z.to_nat (Height tree - 1)) prefix s (RootUUID tree).

Definition KeyExists (s : Store B) (cf : Z) (key : bytes) : res (bool * Store B) :=
  '(keys, s) ← GetKeysInPrefix s cf key;
  Ok (existsb (fun k => CmpSeq k key =? 0) keys, s).

Definition pairsOfLeaf (prefix : bytes) (s : Store B) (u : bytes) : res (list (bytes * bytes) * Store B) :=
  '(leaf, s) ← loadLeafPairs s u;
  ps ← leafPairsIn leaf prefix;
  Ok (ps, s).

(** The explicit stack: the last child pushed is visited first. *)
Fixpoint pairsStack (fuel : nat) (prefix : bytes) (s : Store B) (stack : list (bytes * nat))
  : res (list (bytes * bytes) * Store B) :=
  match fuel with
  | O => Diverge
  | S fuel' =>
      match stack with
      | [] => Ok ([], s)
      | (u, below) :: stack' =>
          children ← childrenIn s "child page unreadable" u prefix;
          match below with
          | O =>
              '(out, s) ← gather (pairsOfLeaf prefix) s children;
              '(rest, s) ← pairsStack fuel' prefix s stack';
              Ok (out ++ rest, s)
          | S below' =>
              pairsStack fuel' prefix s (reverse (map (fun c => (c, below')) children) ++ stack')
          end
      end
  end.

Definition GetPairsInPrefix (fuel : nat) (s : Store B) (cf : Z) (prefix : bytes)
  : res (list (bytes * bytes) * Store B) :=
  if cf >=? numCf s then Ok ([], s)
  else
    let tree := Tree s cf in
    if bool_decide (RootUUID tree = zeroUUID) then Ok ([], s)
    else if Height tree =? 0 then pairsOfLeaf prefix s (RootUUID tree)
    else
      children ← childrenIn s "root index page unreadable" (RootUUID tree) prefix;
      if Height tree =? 1 then gather (pairsOfLeaf prefix) s children
      else gather (fun s c => pairsStack fuel prefix s [(c, Z.to_nat (Height tree - 2))]) s children.

Definition KeyExistsKv (fuel : nat) (s : Store B) (cf : Z) (key : bytes) : res (option bytes * Store B) :=
  '(pairs, s) ← GetPairsInPrefix fuel s cf key;
  Ok (snd <$> find (fun p => CmpSeq p.1 key =? 0) pairs, s).

(** [Ok (false, _)] when the root is not there. *)
Definition LoadRoot (s : Store B) (rootName : bytes) : res (bool * Store B) :=
  d ← blobGetRoot s rootName;
  match d with
  | None => Ok (false, s)
  | Some data =>
      ts ← DeserializeRoot data;
      Ok (true, mkStore (blobs s) (padTrees (numCf s) ts) (numCf s) (sReadOnly s) rootName (cache s))
  end.

(** *** Copy-on-write merge *)

Definition writeIndexLevel (s : Store B) (entries : list IndexEntry) : res (list IndexEntry * Store B) :=
  let ser := SerializeIndexPage entries in
  if (Z.of_nat (length ser) <=? IndexPageMaxSize) || Nat.leb (length entries) 1 then
    '(uuid, s) ← blobPut s ser;
    match entries with
    | e :: _ => Ok ([{| EKey := EKey e; EUUID := uuid |}], s)
    | [] => Panic
    end
  else putIndexPages s (SplitIndexEntries entries).

(** Each turn has fewer entries than the one before, so their number is enough
    fuel. *)
Fixpoint growLevels (fuel : nat) (s : Store B) (levelEntries : list IndexEntry) (height : Z)
  : res (bytes * Z * Store B) :=
  match fuel with
  | O => Diverge
  | S fuel' =>
      let ser2 := SerializeIndexPage levelEntries in
      if Z.of_nat (length ser2) <=? IndexPageMaxSize then
        '(uuid, s) ← blobPut s ser2; Ok (uuid, height, s)
      else
        let pages2 := SplitIndexEntries levelEntries in
        if Nat.eqb (length pages2) (length levelEntries) then
          '(uuid, s) ← blobPut s ser2; Ok (uuid, height, s)
        else
          '(nextLevel, s) ← putIndexPages s pages2;
          growLevels fuel' s nextLevel (u8 (height + 1))
  end.

Definition buildIndexTree (s : Store B) (entries : list IndexEntry) (childHeight : Z)
  : res (bytes * Z * Store B) :=
  match entries with
  | [] => Ok (zeroUUID, 0, s)
  | _ =>
      let ser := SerializeIndexPage entries in
      if Z.of_nat (length ser) <=? IndexPageMaxSize then
        '(uuid, s) ← blobPut s ser; Ok (uuid, u8 (childHeight + 1), s)
      else
        let pages := SplitIndexEntries entries in
        match pages with
        | [p] => '(uuid, s) ← blobPut s p; Ok (uuid, u8 (childHeight + 1), s)
        | _ =>
            '(levelEntries, s) ← putIndexPages s pages;
            growLevels (S (length levelEntries)) s levelEntries (u8 (childHeight + 2))
        end
  end.

(** The keys of [newKeys] (from the index reached) below the end of the range,
    and the rest. *)
Fixpoint takeBelow (rangeEnd : option bytes) (newKeys : list bytes) : list bytes * list bytes :=
  match newKeys with
  | [] => ([], [])
  | k :: rest =>
      if match rangeEnd with Some e => CmpSeq k e >=? 0 | None => false end then ([], newKeys)
      else let '(toMerge, rest) := takeBelow rangeEnd rest in (k :: toMerge, rest)
  end.

(** Two-way merge; an existing key that comes again is kept once. *)
Fixpoint mergeKeys (existing : list bytes) : list bytes → list bytes :=
  fix go (toMerge : list bytes) : list bytes :=
    match existing, toMerge with
    | [], _ => toMerge
    | _, [] => existing
    | e :: existing', m :: toMerge' =>
        if CmpSeq e m <? 0 then e :: mergeKeys existing' toMerge
        else if CmpSeq m e <? 0 then m :: go toMerge'
        else e :: mergeKeys existing' toMerge'
    end.

(** [None] is the nil slice: nothing to merge. *)
Definition mergeLeaf (s : Store B) (leafUUID : bytes) (rangeEnd : option bytes) (newKeys : list bytes)
  : res (option (list IndexEntry) * list bytes * Store B) :=
  d ← blobGet s leafUUID;
  match d with
  | None => Err "leaf blob not found"
  | Some data =>
      existing ← DeserializePage data;
      let '(toMerge, rest) := takeBelow rangeEnd newKeys in
      match toMerge with
      | [] => Ok (None, rest, s)
      | _ =>
          '(entries, s) ← putPageList s (BuildPages (mergeKeys existing toMerge)) false;
          Ok (Some entries, rest, s)
      end
  end.

Definition hasKeysBelow (newKeys : list bytes) (childEnd : option bytes) : bool :=
  match newKeys with
  | [] => false
  | k :: _ => match childEnd with Some e => CmpSeq k e <? 0 | None => true end
  end.

(** The loop over an index page's entries; [sub] merges into one child. *)
Fixpoint mergeChildren
    (sub : Store B → bytes → option bytes → list bytes → res (option (list IndexEntry) * list bytes * Store B))
    (s : Store B) (entries : list IndexEntry) (rangeEnd : option bytes) (newKeys : list bytes)
  : res (bool * list IndexEntry * list bytes * Store B) :=
  match entries with
  | [] => Ok (false, [], newKeys, s)
  | e :: entries' =>
      let childEnd := match entries' with e' :: _ => Some (EKey e') | [] => rangeEnd end in
      if negb (hasKeysBelow newKeys childEnd) then
        '(changed, newEntries, rest, s) ← mergeChildren sub s entries' rangeEnd newKeys;
        Ok (changed, e :: newEntries, rest, s)
      else
        '(childResult, newKeys, s) ← sub s (EUUID e) childEnd newKeys;
        '(changed, newEntries, rest, s) ← mergeChildren sub s entries' rangeEnd newKeys;
        Ok (match childResult with
            | None => (changed, e :: newEntries, rest, s)
            | Some r => (true, r ++ newEntries, rest, s)
            end)
  end.

Fixpoint mergeSubtree (height : nat) (s : Store B) (nodeUUID : bytes) (rangeEnd : option bytes)
    (newKeys : list bytes) : res (option (list IndexEntry) * list bytes * Store B) :=
  match height with
  | O => mergeLeaf s nodeUUID rangeEnd newKeys
  | S h =>
      d ← blobGet s nodeUUID;
      match d with
      | None => Ok (None, newKeys, s)
      | Some data =>
          entries ← DeserializeIndexPage data;
          '(changed, newEntries, rest, s) ← mergeChildren (mergeSubtree h) s entries rangeEnd newKeys;
          if negb changed then Ok (None, rest, s)
          else '(level, s) ← writeIndexLevel s newEntries; Ok (Some level, rest, s)
      end
  end.

(** The tree of one family after its new keys are merged in. *)
Definition mergeTree (s : Store B) (tree : CfTree) (keys : list bytes) : res (CfTree * Store B) :=
  if bool_decide (RootUUID tree = zeroUUID) then
    '(entries, s) ← putPageList s (BuildPages keys) false;
    '(root, height, s) ← buildIndexTree s entries 0;
    Ok (if height =? 0 then {| RootUUID := root; Height := 0; NumLeaves := 0 |}
        else {| RootUUID := root; Height := height; NumLeaves := u32 (Z.of_nat (length entries)) |}, s)
  else
    '(r, _, s) ← mergeSubtree (Z.to_nat (Height tree)) s (RootUUID tree) None keys;
    match r with
    | None => Ok (tree, s)
    | Some [e] => Ok ({| RootUUID := EUUID e; Height := Height tree; NumLeaves := NumLeaves tree |}, s)
    | Some es =>
        '(root, height, s) ← buildIndexTree s es (Height tree);
        Ok ({| RootUUID := root; Height := height; NumLeaves := NumLeaves tree |}, s)
    end.

(** A negative family index panics at the slice; families are never negative. *)
Fixpoint mergeTrees (s : Store B) (newTrees : list CfTree) (keysByCf : list (nat * list bytes))
  : res (list CfTree * Store B) :=
  match keysByCf with
  | [] => Ok (newTrees, s)
  | (cf, keys) :: more =>
      match newTrees !! cf with
      | None => mergeTrees s newTrees more
      | Some tree =>
          if Nat.eqb (length keys) 0 then mergeTrees s newTrees more
          else
            '(newTree, s) ← mergeTree s tree keys;
            mergeTrees s (<[cf := newTree]> newTrees) more
      end
  end.

(** Writes the new root blob; the store's own trees are left alone. *)
Definition writeRoot (s : Store B) (msg : string) (newTrees : list CfTree) (now : clock)
  : res (list CfTree * bytes * Store B) :=
  let newRoot := MakeRootName now.1 now.2 in
  let '(ok, s) := blobPutRoot s newRoot (SerializeRoot newTrees) in
  if negb ok then Err msg else Ok (newTrees, newRoot, s).

Definition PrepareMerge (s : Store B) (baseTrees : list CfTree) (keysByCf : list (nat * list bytes)) (now : clock)
  : res (list CfTree * bytes * Store B) :=
  if sReadOnly s then Err "read-only"
  else
    '(newTrees, s) ← mergeTrees s baseTrees keysByCf;
    writeRoot s "commitMerge: cannot write root" newTrees now.

Definition BaseTrees (s : Store B) : list CfTree := trees s.

Definition PublishTrees (s : Store B) (ts : list CfTree) (root : bytes) : Store B :=
  mkStore (blobs s) ts (numCf s) (sReadOnly s) root (cache s).

Definition CommitMerge (s : Store B) (keysByCf : list (nat * list bytes)) (now : clock)
  : res (bytes * Store B) :=
  '(ts, root, s) ← PrepareMerge s (BaseTrees s) keysByCf now;
  Ok (root, PublishTrees s ts root).

(** *** Key-value families *)

Definition pairs := (list (bytes * bytes)).

(** [delSet[string(k)]]: a family without deletions has the nil map. *)
Definition inDel (del : option (list bytes)) (k : bytes) : bool :=
  match del with Some ks => bool_decide (k ∈ ks) | None => false end.

Definition livePairs (del : option (list bytes)) (all : pairs) : pairs :=
  filter (fun p => inDel del p.1 = false) all.

Definition buildKvTree (s : Store B) (ps : pairs) : res (CfTree * Store B) :=
  match ps with
  | [] => Ok (EmptyTree, s)
  | _ =>
      '(entries, s) ← putPageList s (BuildPagesKv ps) true;
      '(root, height, s) ← buildIndexTree s entries 0;
      Ok (if height =? 0 then {| RootUUID := root; Height := 0; NumLeaves := 0 |}
          else {| RootUUID := root; Height := height; NumLeaves := u32 (Z.of_nat (length entries)) |}, s)
  end.

Definition rebuild (s : Store B) (newTrees : list CfTree) (cf : nat) (ps : pairs) : res (list CfTree * Store B) :=
  match newTrees !! cf with
  | None => Panic
  | Some _ => '(t, s) ← buildKvTree s ps; Ok (<[cf := t]> newTrees, s)
  end.

(** The merge of the live pairs with the new ones: a new pair wins, and the
    deleted keys are left out. *)
Fixpoint mergePairs (del : option (list bytes)) (live : pairs) : pairs → pairs :=
  fix go (sorted : pairs) : pairs :=
    let keep p rest := if inDel del p.1 then rest else p :: rest in
    match live, sorted with
    | [], _ => filter (fun p => inDel del p.1 = false) sorted
    | _, [] => filter (fun p => inDel del p.1 = false) live
    | a :: live', b :: sorted' =>
        let c := CmpSeq a.1 b.1 in
        if c <? 0 then keep a (mergePairs del live' sorted)
        else if c >? 0 then keep b (go sorted')
        else keep b (mergePairs del live' sorted')
    end.

Fixpoint deleteOnly (fuel : nat) (s : Store B) (newTrees : list CfTree) (inPairs : nat → bool)
    (deletedByCf : list (nat * list bytes)) : res (list CfTree * Store B) :=
  match deletedByCf with
  | [] => Ok (newTrees, s)
  | (cf, keys) :: more =>
      if inPairs cf || (Z.of_nat cf >=? numCf s) then deleteOnly fuel s newTrees inPairs more
      else
        match newTrees !! cf with
        | None => Panic
        | Some t =>
            if bool_decide (RootUUID t = zeroUUID) then deleteOnly fuel s newTrees inPairs more
            else
              '(all, s) ← GetPairsInPrefix fuel s (Z.of_nat cf) [];
              '(newTrees, s) ← rebuild s newTrees cf (livePairs (Some keys) all);
              deleteOnly fuel s newTrees inPairs more
        end
  end.

Definition lookupCf {A} (cf : nat) (l : list (nat * A)) : option A :=
  snd <$> find (fun p => Nat.eqb p.1 cf) l.

Fixpoint mergeKvTrees (fuel : nat) (s : Store B) (newTrees : list CfTree)
    (deletedByCf : list (nat * list bytes)) (pairsByCf : list (nat * pairs)) : res (list CfTree * Store B) :=
  match pairsByCf with
  | [] => Ok (newTrees, s)
  | (cf, sortedPairs) :: more =>
      if (Z.of_nat cf >=? numCf s) || Nat.eqb (length sortedPairs) 0 then
        mergeKvTrees fuel s newTrees deletedByCf more
      else
        let del := lookupCf cf deletedByCf in
        match newTrees !! cf with
        | None => Panic
        | Some t =>
            if bool_decide (RootUUID t = zeroUUID) then
              '(newTrees, s) ← rebuild s newTrees cf (livePairs del sortedPairs);
              mergeKvTrees fuel s newTrees deletedByCf more
            else
              '(all, s) ← GetPairsInPrefix fuel s (Z.of_nat cf) [];
              '(newTrees, s) ← rebuild s newTrees cf (mergePairs del (livePairs del all) sortedPairs);
              mergeKvTrees fuel s newTrees deletedByCf more
        end
  end.

(** The two maps are given in the order their iteration takes. *)
Definition PrepareMergeKv (fuel : nat) (s : Store B) (baseTrees : list CfTree)
    (pairsByCf : list (nat * pairs)) (deletedByCf : list (nat * list bytes)) (now : clock)
  : res (list CfTree * bytes * Store B) :=
  if sReadOnly s then Err "read-only"
  else
    let inPairs cf := existsb (fun p => Nat.eqb p.1 cf) pairsByCf in
    '(newTrees, s) ← deleteOnly fuel s baseTrees inPairs deletedByCf;
    '(newTrees, s) ← mergeKvTrees fuel s newTrees deletedByCf pairsByCf;
    writeRoot s "commitMergeKv: cannot write root" newTrees now.

Definition CommitMergeKv (fuel : nat) (s : Store B) (pairsByCf : list (nat * pairs))
    (deletedByCf : list (nat * list bytes)) (now : clock) : res (bytes * Store B) :=
  '(ts, root, s) ← PrepareMergeKv fuel s (BaseTrees s) pairsByCf deletedByCf now;
  Ok (root, PublishTrees s ts root).
End store.
