(* ===== verification/PageTree.v ===== *)
(** * Trees of pages (go/internal/pagestore/store.go)

    What keys a tree of pages holds, and the proofs that the copy-on-write
    merge gives a tree of the union while the trees before it stay readable. *)

From S2P Require Import Prelude Pages FlatLeaf PageCache BlobStore PageStore.

(** ** Merging sorted keys *)

Lemma mergeKeys_nil_r l : mergeKeys l [] = l.
Proof. by destruct l. Qed.

Lemma mergeKeys_nil_l l : mergeKeys [] l = l.
Proof. by destruct l. Qed.

Lemma mergeKeys_cons e m l1 l2 :
  mergeKeys (e :: l1) (m :: l2)
  = if bool_decide (e <b m) then e :: mergeKeys l1 (m :: l2)
    else if bool_decide (m <b e) then m :: mergeKeys (e :: l1) l2
    else e :: mergeKeys l1 l2.
Proof. cbn [mergeKeys]. by rewrite !CmpSeq_lt. Qed.

Lemma elem_of_mergeKeys l1 l2 k : k ∈ mergeKeys l1 l2 ↔ k ∈ l1 ∨ k ∈ l2.
Proof.
  revert l2. induction l1 as [|e l1 IH1]; intros l2; [cbn; destruct l2; set_solver|].
  induction l2 as [|m l2 IH2]; [rewrite mergeKeys_nil_r; set_solver|]. rewrite mergeKeys_cons.
  case_bool_decide as H1; [rewrite elem_of_cons, IH1; set_solver|].
  case_bool_decide as H2; [rewrite elem_of_cons, IH2; set_solver|].
  assert (e = m) as ->.
  { apply (anti_symm ble); by apply ble_not_lt. }
  rewrite elem_of_cons, IH1. set_solver.
Qed.

Lemma mergeKeys_ascending l1 l2 : ascending l1 → ascending l2 → ascending (mergeKeys l1 l2).
Proof.
  intros H1. revert l2. induction l1 as [|e l1 IH1]; intros l2 H2; [by destruct l2|].
  induction l2 as [|m l2 IH2]; [by rewrite mergeKeys_nil_r|]. rewrite mergeKeys_cons.
  apply ascending_cons in H1 as [He H1]. pose proof H2 as [Hm H2']%ascending_cons.
  rewrite Forall_forall in He, Hm.
  case_bool_decide as Hem; [|case_bool_decide as Hme].
  - apply ascending_cons. split; [|by apply IH1]. apply Forall_forall. intros k [?|[->|?]%elem_of_cons]%elem_of_mergeKeys; auto.
    eapply blt_trans; [done|auto].
  - apply ascending_cons. split; [|by apply IH2].
    apply Forall_forall. intros k [[->|?]%elem_of_cons|?]%elem_of_mergeKeys; auto. eapply blt_trans; [done|auto].
  - assert (e = m) as -> by (apply (anti_symm ble); by apply ble_not_lt).
    apply ascending_cons. split; [|by apply IH1]. apply Forall_forall. intros k [?|?]%elem_of_mergeKeys; auto.
Qed.

(** Merges of separated ranges are independent. *)
Lemma mergeKeys_app p a x b y :
  Forall (fun k => k <b p) a → Forall (fun k => k <b p) x →
  Forall (fun k => p <=b k) b → Forall (fun k => p <=b k) y →
  mergeKeys (a ++ b) (x ++ y) = mergeKeys a x ++ mergeKeys b y.
Proof.
  intros Ha Hx Hb Hy. revert x Hx. induction Ha as [|e a He Ha IH]; intros x Hx.
  - cbn [app]. induction Hx as [|m x Hm Hx IHx]; [done|]. cbn [app].
    assert (mergeKeys b (m :: x ++ y) = m :: mergeKeys b (x ++ y)) as ->; [|by rewrite IHx; destruct x].
    destruct Hb as [|e b He Hb]; [by rewrite !mergeKeys_nil_l|]. rewrite mergeKeys_cons, bool_decide_false, bool_decide_true; [done| |].
    + by eapply blt_le_trans.
    + apply ble_not_lt, blt_le. by eapply blt_le_trans.
  - induction Hx as [|m x Hm Hx IHx].
    + cbn [app]. rewrite mergeKeys_nil_r. destruct y as [|m y].
      * rewrite !mergeKeys_nil_r. done.
      * rewrite mergeKeys_cons, bool_decide_true.
        -- cbn [app]. f_equal. specialize (IH []). cbn [app] in IH. rewrite IH by constructor. by rewrite mergeKeys_nil_r.
        -- apply Forall_cons in Hy as [? _]. by eapply blt_le_trans.
    + cbn [app]. rewrite !mergeKeys_cons. specialize (IH (m :: x)) as IH1. cbn [app] in IH1. cbn [app] in IHx.
      case_bool_decide; [by rewrite IH1 by (by constructor)|]. case_bool_decide; [by rewrite IHx|].
      by rewrite IH.
Qed.

Definition below (e : option bytes) (k : bytes) : Prop :=
  match e with Some e => k <b e | None => True end.

#[export] Instance below_dec e k : Decision (below e k).
Proof. destruct e; cbn; apply _. Defined.

Lemma takeBelow_spec e ks :
  ascending ks → ∃ a r, takeBelow e ks = (a, r) ∧ ks = a ++ r ∧ Forall (below e) a ∧ Forall (fun k => ¬ below e k) r.
Proof.
  induction ks as [|k ks IH]; intros Ha; [by exists [], []|]. pose proof Ha as [Hk Ha']%ascending_cons. cbn [takeBelow].
  destruct (decide (below e k)) as [Hb|Hb].
  - replace (match e with Some e0 => CmpSeq k e0 >=? 0 | None => false end) with false.
    2:{ destruct e as [e|]; [|done]. rewrite CmpSeq_ge. symmetry. apply bool_decide_eq_false. by apply blt_not_le. }
    destruct (IH Ha') as (a&r&->&->&H1&H2). exists (k :: a), r. split_and!; [done..|by constructor|done].
  - destruct e as [e|]; [|by destruct Hb]. rewrite CmpSeq_ge, bool_decide_true by (by apply ble_not_lt).
    exists [], (k :: ks). split_and!; [done|done|constructor|]. constructor; [done|].
    eapply Forall_impl; [done|]. cbn. intros k' Hkk' Hk'. apply Hb. cbn. by eapply blt_trans.
Qed.

(** ** Runs of pages *)

Lemma keyPages_decode ks :
  Forall (fun k => 9 ≤ keyLen k < 2 ^ 16) ks →
  concat (keyPages ks) = ks
  ∧ Forall (fun r => r ≠ [] ∧ DeserializePage (SerializePage r) = Ok r ∧ Z.of_nat (length (concat r)) < 2 ^ 31) (keyPages ks).
Proof.
  intros Hk. destruct (splitHalves_spec (pageWhole keyLen) (length ks) ks) as [Hc Hf]; [done|lia|].
  split; [done|]. change (splitHalves _ _ _) with (keyPages ks) in *. rewrite <- Hc in Hk. apply Forall_concat in Hk.
  apply Forall_forall. intros r Hr. rewrite Forall_forall in Hf, Hk. destruct (Hf r Hr) as [Hne Hw]. specialize (Hk r Hr).
  split; [done|]. destruct (pageWhole_small keyLen r Hw) as [Hn Hz]; [eapply Forall_impl; [done|]; cbn; lia|].
  rewrite DeserializePage_Serialize by done. rewrite counted_small by done. split; [done|].
  rewrite <- sumLen_concat. unfold pageWhole, MaxRawSize in Hw. apply orb_true_iff in Hw as [Hw|Hw]; [|lia].
  apply Nat.eqb_eq in Hw. destruct r as [|k [|??]]; try done. apply Forall_cons in Hk as [Hk _]. unfold sumLen. cbn [foldr]. lia.
Qed.

(** Any three entries with such keys fit an index page. *)
Lemma three_fit l :
  Forall entry_ok l → Forall (fun e => entryLen e < 2 ^ 16) l → (length l ≤ 3)%nat →
  Z.of_nat (length (SerializeIndexPage l)) ≤ IndexPageMaxSize.
Proof.
  intros Hok Hk Hl. unfold SerializeIndexPage, IndexPageMaxSize.
  rewrite length_app. pose proof (serializeEntries_size [] l Hok) as Hs. rewrite rawSize_sum in Hs.
  assert (sumLen entryLen l ≤ 2 ^ 16 * Z.of_nat (length l)).
  { clear -Hk. unfold sumLen. induction Hk as [|e l He Hk IH]; cbn [foldr length]; lia. }
  change (length (header16 (Z.of_nat (length l)))) with 2%nat. lia.
Qed.

Lemma indexWhole_three l :
  Forall entry_ok l → Forall (fun e => entryLen e < 2 ^ 16) l → (length l ≤ 3)%nat → indexWhole l = true.
Proof. intros. unfold indexWhole. apply orb_true_iff. left. by apply Z.leb_le, three_fit. Qed.

Lemma splitHalves_pairs {A} (P : A → Prop) (whole : list A → bool) fuel l :
  (∀ l, Forall P l → (length l ≤ 3)%nat → whole l = true) →
  Forall P l → (2 ≤ length l)%nat → Forall (fun p => (2 ≤ length p)%nat) (splitHalves whole fuel l).
Proof.
  intros Hw. revert l. induction fuel as [|fuel IH]; intros l HP Hl; cbn [splitHalves]; [constructor|].
  destruct l as [|x l']; [constructor|]. set (l := x :: l') in *. clearbody l.
  destruct (whole l) eqn:E; [by repeat constructor|].
  assert (4 ≤ length l)%nat as H4.
  { destruct (decide (length l ≤ 3)%nat) as [H3|]; [|lia]. rewrite Hw in E by done. done. }
  pose proof (Nat.div2_odd (length l)). apply Forall_app. split; apply IH.
  - by apply Forall_take.
  - rewrite length_take. destruct (Nat.odd (length l)); cbn in *; lia.
  - by apply Forall_drop.
  - rewrite length_drop. destruct (Nat.odd (length l)); cbn in *; lia.
Qed.

Lemma indexWhole_decode r :
  indexWhole r = true → Forall entry_ok r → Forall (fun e => entryLen e < 2 ^ 16) r →
  DeserializeIndexPage (SerializeIndexPage r) = Ok r.
Proof.
  intros Hw Hok Hk. pose proof (indexWhole_small r Hw Hok).
  rewrite DeserializeIndexPage_Serialize, counted_small; [done|done|done|].
  rewrite rawSize_sum. assert (sumLen entryLen r ≤ 2 ^ 16 * Z.of_nat (length r)); [|lia].
  clear -Hk. unfold sumLen. induction Hk as [|e p He Hs IH]; cbn [foldr length]; lia.
Qed.

Lemma indexRuns_decode es :
  Forall entry_ok es → Forall (fun e => entryLen e < 2 ^ 16) es → (2 ≤ length es)%nat →
  let runs := splitHalves indexWhole (length es) es in
  concat runs = es ∧ (2 * length runs ≤ length es)%nat
  ∧ Forall (fun r => r ≠ [] ∧ DeserializeIndexPage (SerializeIndexPage r) = Ok r) runs.
Proof.
  intros Hok Hk Hl runs. destruct (splitHalves_spec indexWhole (length es) es) as [Hc Hf];
    [intros; unfold indexWhole; by rewrite orb_true_r|lia|].
  assert (Forall (fun p => (2 ≤ length p)%nat) runs) as H2.
  { apply (splitHalves_pairs (fun e => entry_ok e ∧ entryLen e < 2 ^ 16)); [|by apply Forall_and|done].
    intros l [??]%Forall_and. by apply indexWhole_three. }
  fold runs in Hc, Hf. split_and!; [done| |].
  - rewrite <- Hc. clear -H2. induction H2 as [|p runs Hp H2 IH]; cbn [concat length]; [done|]. rewrite length_app. lia.
  - rewrite <- Hc in Hok, Hk. apply Forall_concat in Hok, Hk. apply Forall_forall. intros r Hr.
    rewrite Forall_forall in Hf, Hok, Hk. destruct (Hf r Hr) as [Hne Hw]. split; [done|]. apply indexWhole_decode; auto.
Qed.

Lemma length_runs {A} (runs : list (list A)) : Forall (fun r => r ≠ []) runs → (length runs ≤ length (concat runs))%nat.
Proof.
  induction 1 as [|r runs Hr Hf IH]; [done|]. cbn [concat length]. rewrite length_app. destruct r; [done|]. cbn [length]. lia.
Qed.

Lemma Forall2_regroup {A C} (R : A → C → Prop) (runs : list (list A)) (l : list C) :
  Forall2 R (concat runs) l → ∃ groups, concat groups = l ∧ Forall2 (Forall2 R) runs groups.
Proof.
  revert l. induction runs as [|r runs IH]; intros l; cbn [concat].
  - intros ->%Forall2_nil_inv_l. by exists [].
  - intros (l1&l2&H1&H2&->)%Forall2_app_inv_l. destruct (IH l2 H2) as (gs&<-&Hgs). exists (l1 :: gs). by repeat constructor.
Qed.

(** ** Pages in the store *)

Section pages.
Context {B : Type} `{HB : BlobStore B} `{HL : !BlobLaws B} `{HZ : Zstd} `{HZL : !ZstdLaws}.
Implicit Types (s : Store B) (b : B).

Lemma Decompress_compress d : Decompress (compress d) = Ok d.
Proof.
  unfold Decompress, compress. pose proof (zstd_magic d) as Hm.
  destruct (EncodeAll d) as [|x0 [|x1 [|x2 [|x3 z]]]] eqn:E; try done. injection Hm as -> -> -> ->.
  rewrite <- E. cbn [length Nat.ltb Nat.leb nth]. rewrite E. cbn. rewrite <- E. apply zstd_roundtrip.
Qed.

(** The blob [u] holds the page [data]. *)
Definition pageAt b (u data : bytes) : Prop :=
  is_id u ∧ u ≠ zeroUUID ∧ ∃ z, objs b u = Some z ∧ Decompress z = Ok data.

(** Writing at most [n] blobs: whatever was stored under an identifier stays. *)
Record extends (n : nat) s s' : Prop := {
  ext_inv : binv (blobs s');
  ext_room : (room (blobs s) ≤ n + room (blobs s'))%nat;
  ext_rest : s' = withBlobs s (blobs s');
  ext_objs : ∀ u, is_id u → used (blobs s) u → objs (blobs s') u = objs (blobs s) u;
  ext_used : ∀ u, used (blobs s) u → used (blobs s') u;
  ext_roots : ∀ n, is_root_name n → rootsOf (blobs s') n = rootsOf (blobs s) n;
}.

Lemma extends_refl n s : binv (blobs s) → extends n s s.
Proof. intros Hb. constructor; auto; [lia|]. by destruct s. Qed.

Lemma extends_trans n m k s1 s2 s3 : extends n s1 s2 → extends m s2 s3 → (n + m ≤ k)%nat → extends k s1 s3.
Proof.
  intros [A1 A2 A3 A4 A5 A6] [B1 B2 B3 B4 B5 B6] Hk. constructor; auto.
  - lia.
  - by rewrite B3, A3.
  - intros u Hu Hus. rewrite B4 by auto. auto.
  - intros r Hr. rewrite B6 by done. auto.
Qed.

Lemma extends_le n m s1 s2 : extends n s1 s2 → (n ≤ m)%nat → extends m s1 s2.
Proof. intros [????] Hle. constructor; auto. lia. Qed.

(** Blobs that are there stay as they are. *)
Definition keeps b b' : Prop := ∀ u, is_id u → is_Some (objs b u) → objs b' u = objs b u.

Lemma extends_keeps n s s' : binv (blobs s) → extends n s s' → keeps (blobs s) (blobs s').
Proof. intros Hb He u Hu Hs. rewrite (ext_objs _ _ _ He); [done|done|]. by apply obj_used. Qed.

Lemma pageAt_keeps b b' u data : keeps b b' → pageAt b u data → pageAt b' u data.
Proof.
  intros Hk (Hid&Hz&z&Hz1&Hz2). split_and!; [done|done|]. exists z. split; [|done]. rewrite Hk; eauto.
Qed.

Lemma pageAt_extends n s s' u data :
  binv (blobs s) → extends n s s' → pageAt (blobs s) u data → pageAt (blobs s') u data.
Proof. intros Hb He. by apply pageAt_keeps, (extends_keeps n). Qed.

Lemma blobGet_page s u data : binv (blobs s) → pageAt (blobs s) u data → blobGet s u = Ok (Some data).
Proof.
  intros Hb (Hid&_&z&Hz1&Hz2). unfold blobGet. rewrite get_law, res_bind_ret by done. rewrite Hz1.
  by rewrite Hz2, res_bind_ret.
Qed.

Lemma blobPut_spec s d :
  binv (blobs s) → (0 < room (blobs s))%nat →
  ∃ u s', blobPut s d = Ok (u, s') ∧ extends 1 s s' ∧ pageAt (blobs s') u d.
Proof.
  intros Hb Hroom. destruct (put_law (blobs s) (compress d) Hb Hroom) as (u&b'&E&Hb'&Hrm&Hid&Hz&Hu&Ho&Hus&Hr).
  unfold blobPut. rewrite E, res_bind_ret. exists u, (withBlobs s b'). split; [done|]. split.
  - constructor; cbn; [done|lia|done| | |auto].
    + intros v Hv Hvu. rewrite Ho by done. rewrite bool_decide_false; [done|]. by intros ->.
    + intros v Hv. apply Hus. by right.
  - split_and!; [done|done|]. cbn. exists (compress d). rewrite Ho by done. rewrite bool_decide_true by done.
    split; [done|apply Decompress_compress].
Qed.

Lemma blobPutPages_spec s pages :
  binv (blobs s) → (length pages ≤ room (blobs s))%nat →
  ∃ us s', blobPutPages s pages = Ok (us, s') ∧ extends (length pages) s s' ∧ Forall2 (pageAt (blobs s')) us pages.
Proof.
  revert s. induction pages as [|p pages IH]; intros s Hb Hroom; cbn [blobPutPages length] in *.
  { exists [], s. split; [done|]. split; [by apply extends_refl|constructor]. }
  destruct (blobPut_spec s p Hb) as (u&s1&->&He1&Hp); [lia|]. rewrite res_bind_ret. cbv beta iota.
  pose proof (ext_room _ _ _ He1).
  destruct (IH s1 (ext_inv _ _ _ He1)) as (us&s2&->&He2&Hps); [lia|]. rewrite res_bind_ret. cbv beta iota.
  exists (u :: us), s2. split; [done|]. split; [eapply extends_trans; [done|done|lia]|].
  constructor; [|done]. eapply pageAt_extends; [apply He1|done|done].
Qed.

(** ** The keys of a tree *)

(** Keys of at least nine bytes keep a page's count below 2^16, and keys below
    64 KB let any three entries share an index page. *)
Definition page_key (k : bytes) : Prop := 9 ≤ keyLen k < 2 ^ 16 ∧ bytes_ok k.

Fixpoint tree_keys (h : nat) b (u : bytes) (ks : list bytes) : Prop :=
  match h with
  | O => ∃ data, pageAt b u data ∧ DeserializePage data = Ok ks ∧ ks ≠ [] ∧ Z.of_nat (length (concat ks)) < 2 ^ 31
  | S h' => ∃ data entries kss, pageAt b u data ∧ DeserializeIndexPage data = Ok entries ∧ entries ≠ []
      ∧ Forall2 (fun e ks => tree_keys h' b (EUUID e) ks ∧ head ks = Some (EKey e)) entries kss
      ∧ ks = concat kss
  end.

(** An entry and the keys below it, of which it carries the first. *)
Definition node (h : nat) b (e : IndexEntry) (ks : list bytes) : Prop :=
  tree_keys h b (EUUID e) ks ∧ head ks = Some (EKey e).

Lemma tree_keys_id h b u ks : tree_keys h b u ks → is_id u ∧ u ≠ zeroUUID.
Proof. destruct h; [intros (data&(?&?&_)&_)|intros (data&es&kss&(?&?&_)&_)]; done. Qed.

Lemma nodes_nonempty h b es kss : Forall2 (node h b) es kss → Forall (fun ks => ks ≠ []) kss.
Proof. induction 1 as [|e ks es kss [_ Hh]]; constructor; [|done]. by intros ->. Qed.

Lemma nodes_count h b es kss : Forall2 (node h b) es kss → (length es ≤ length (concat kss))%nat.
Proof.
  induction 1 as [|e ks es kss [_ Hh] Hf IH]; [done|]. cbn [concat length]. rewrite length_app.
  destruct ks; [done|]. cbn [length]. lia.
Qed.

Lemma tree_keys_nonempty h b u ks : tree_keys h b u ks → ks ≠ [].
Proof.
  destruct h; [by intros (?&?&?&?&?)|]. intros (data&es&kss&_&_&Hne&Hf&->).
  destruct Hf as [|e ks es kss [_ Hh] _]; [done|]. by destruct ks.
Qed.

Lemma tree_keys_keeps h b b' u ks : keeps b b' → tree_keys h b u ks → tree_keys h b' u ks.
Proof.
  intros Hk. revert u ks. induction h as [|h IH]; intros u ks; cbn [tree_keys].
  - intros (data&Hp&Hd). exists data. split; [by eapply pageAt_keeps|done].
  - intros (data&es&kss&Hp&Hd&Hne&Hf&->). exists data, es, kss.
    split_and!; [by eapply pageAt_keeps|done|done| |done]. eapply Forall2_impl; [done|].
    intros e ks [??]. split; auto.
Qed.

Lemma tree_keys_extends h n s s' u ks :
  binv (blobs s) → extends n s s' → tree_keys h (blobs s) u ks → tree_keys h (blobs s') u ks.
Proof. intros Hb He. by apply tree_keys_keeps, (extends_keeps n). Qed.

Lemma nodes_extends h n s s' es kss :
  binv (blobs s) → extends n s s' → Forall2 (node h (blobs s)) es kss → Forall2 (node h (blobs s')) es kss.
Proof.
  intros Hb He Hf. eapply Forall2_impl; [done|]. intros e ks [??]. split; [by eapply tree_keys_extends|done].
Qed.

(** The entries carry the keys they lead to. *)
Lemma nodes_entry_ok h b es kss : Forall2 (node h b) es kss → Forall entry_ok es.
Proof. induction 1 as [|e ks es kss [Ht _]]; constructor; [|done]. apply (tree_keys_id _ _ _ _ Ht). Qed.

Lemma nodes_keys h b es kss (P : bytes → Prop) :
  Forall2 (node h b) es kss → Forall P (concat kss) → Forall (fun e => P (EKey e)) es.
Proof.
  induction 1 as [|e ks es kss [_ Hh] Hf IH]; [constructor|]. cbn [concat]. intros [H1 H2]%Forall_app.
  constructor; [|by apply IH]. destruct ks as [|k ks]; [done|]. injection Hh as <-. by apply Forall_cons in H1 as [? _].
Qed.

(** ** Writing levels *)

Lemma page_entry e : page_key (EKey e) → entryLen e < 2 ^ 16.
Proof. unfold page_key, keyLen, entryLen. intros [? _]. lia. Qed.

Lemma checkPages_ok (runs : list (list bytes)) :
  Forall (fun r => DeserializePage (SerializePage r) = Ok r) runs →
  mapM (fun pl => checkPage false pl.2) (map (fun r : list bytes => (default [] (head r), SerializePage r)) runs)
  = Ok (map (fun _ => tt) runs).
Proof.
  induction 1 as [|r runs Hr Hf IH]; [done|]. cbn [map mapM].
  assert (checkPage false (SerializePage r) = Ok tt) as Hc by (unfold checkPage; by rewrite Hr, res_bind_ret).
  cbn [snd]. by rewrite Hc, res_bind_ret, IH, res_bind_ret.
Qed.

Lemma putPageList_spec s ks :
  binv (blobs s) → Forall page_key ks → ks ≠ [] → (length ks ≤ room (blobs s))%nat →
  ∃ es kss s', putPageList s (BuildPages ks) false = Ok (es, s') ∧ extends (length ks) s s'
    ∧ Forall2 (node 0 (blobs s')) es kss ∧ concat kss = ks ∧ es ≠ [].
Proof.
  intros Hb Hk Hne Hroom. destruct (keyPages_decode ks) as [Hc Hf]; [eapply Forall_impl; [exact Hk|]; by intros k [? _]|]. unfold BuildPages.
  change (splitHalves _ _ _) with (keyPages ks). set (runs := keyPages ks) in *. clearbody runs.
  assert (length runs ≤ length ks)%nat as Hlr.
  { rewrite <- Hc. apply length_runs. eapply Forall_impl; [done|]. by intros r [? _]. }
  unfold putPageList. rewrite checkPages_ok, res_bind_ret by (eapply Forall_impl; [done|]; naive_solver).
  destruct (blobPutPages_spec s (map snd (map (fun r : list bytes => (default [] (head r), SerializePage r)) runs)) Hb)
    as (us&s'&->&He&Hp); [rewrite !length_map; lia|]. rewrite res_bind_ret. cbv beta iota. rewrite !length_map in He.
  eexists _, runs, s'. split; [done|]. split; [by eapply extends_le|].
  assert (Forall2 (node 0 (blobs s')) (zip_with (fun pl u => {| EKey := pl.1; EUUID := u |})
    (map (fun r : list bytes => (default [] (head r), SerializePage r)) runs) us) runs) as Hn.
  { rewrite map_map in Hp. cbn [snd] in Hp. clear Hc He Hlr. revert us Hp. induction Hf as [|r runs (Hr&Hd&Hz) Hf IH]; intros us Hp.
    - by apply Forall2_nil_inv_r in Hp as ->.
    - apply Forall2_cons_inv_r in Hp as (u&us'&Hu&Hp&->). cbn [map zip_with]. constructor; [|by apply IH].
      split; cbn [EKey EUUID fst]; [by exists (SerializePage r)|]. by destruct r. }
  split_and!; [done|done|]. intros E. rewrite E in Hn. apply Forall2_nil_inv_l in Hn as ->. done.
Qed.

(** An index page over a run of nodes is a node of the next height. *)
Lemma index_node h b u r group :
  pageAt b u (SerializeIndexPage r) → DeserializeIndexPage (SerializeIndexPage r) = Ok r →
  Forall2 (node h b) r group → r ≠ [] →
  ∃ e, head r = Some e ∧ node (S h) b {| EKey := EKey e; EUUID := u |} (concat group).
Proof.
  intros Hp Hd Hf Hne. destruct r as [|e r]; [done|]. exists e. split; [done|]. split; cbn [EUUID EKey].
  - by exists (SerializeIndexPage (e :: r)), (e :: r), group.
  - apply Forall2_cons_inv_l in Hf as (ks&g&[_ Hh]&_&->). cbn [concat]. by destruct ks.
Qed.

Lemma indexHeads_runs (runs : list (list IndexEntry)) :
  Forall (fun r => r ≠ [] ∧ DeserializeIndexPage (SerializeIndexPage r) = Ok r) runs →
  indexHeads (map SerializeIndexPage runs)
  = Ok (map (fun r => (default [] (EKey <$> head r), SerializeIndexPage r)) runs).
Proof.
  induction 1 as [|r runs [Hne Hd] Hf IH]; [done|]. cbn [map indexHeads]. rewrite Hd, res_bind_ret, IH, res_bind_ret.
  by destruct r.
Qed.

Lemma putIndexPages_spec s h es kss :
  binv (blobs s) → Forall2 (node h (blobs s)) es kss → Forall page_key (concat kss) → (2 ≤ length es)%nat →
  (length es ≤ room (blobs s))%nat →
  ∃ es' kss' s', putIndexPages s (SplitIndexEntries es) = Ok (es', s') ∧ extends (length es') s s'
    ∧ Forall2 (node (S h) (blobs s')) es' kss' ∧ concat kss' = concat kss
    ∧ es' ≠ [] ∧ (2 * length es' ≤ length es)%nat ∧ length (SplitIndexEntries es) = length es'.
Proof.
  intros Hb Hn Hk Hl Hroom. pose proof (nodes_keys _ _ _ _ _ Hn Hk) as Hek. pose proof (nodes_entry_ok _ _ _ _ Hn) as Hok.
  destruct (indexRuns_decode es) as (Hc&H2&Hf); [done|by eapply Forall_impl; [|apply page_entry]|done|].
  unfold putIndexPages, SplitIndexEntries. set (runs := splitHalves _ _ _) in *. clearbody runs.
  rewrite indexHeads_runs, res_bind_ret by done.
  destruct (blobPutPages_spec s (map snd (map (fun r => (default [] (EKey <$> head r), SerializeIndexPage r)) runs)) Hb)
    as (us&s'&->&He&Hp); [rewrite !length_map; lia|]. rewrite res_bind_ret. cbv beta iota. rewrite map_map in Hp. cbn [snd] in Hp.
  rewrite !length_map in He. apply (nodes_extends _ _ _ _ _ _ Hb He) in Hn. rewrite <- Hc in Hn. apply Forall2_regroup in Hn as (groups&<-&Hg).
  assert (length us = length runs) as Hlu by (apply Forall2_length in Hp; by rewrite length_map in Hp).
  eexists _, (map (@concat bytes) groups), s'. split; [done|]. split_and!.
  - eapply extends_le; [done|]. rewrite length_zip_with, length_map. lia.
  - clear Hc H2 Hk Hek Hok Hl Hlu Hroom He. revert us Hp Hf. induction Hg as [|r g runs groups Hrg Hg IH]; intros us Hp Hf.
    + by apply Forall2_nil_inv_r in Hp as ->.
    + apply Forall2_cons_inv_r in Hp as (u&us'&Hu&Hp&->). apply Forall_cons in Hf as [[Hr Hd] Hf].
      cbn [map zip_with]. constructor; [|by apply IH]. destruct (index_node h (blobs s') u r g) as (e&Heq&Hnode); [done..|].
      rewrite Heq. exact Hnode.
  - clear. induction groups as [|g gs IH]; [done|]. cbn [map concat]. by rewrite concat_app, IH.
  - intros E. apply (f_equal length) in E. rewrite length_zip_with, length_map in E. cbn [length] in E.
    assert (runs ≠ []) as Hr by (intros ->; subst es; cbn [concat length] in Hl; lia).
    destruct runs; [done|]. cbn [length] in *. lia.
  - rewrite length_zip_with, length_map. lia.
  - rewrite length_zip_with, !length_map. lia.
Qed.

Lemma nodes_decode h b es kss :
  Forall2 (node h b) es kss → Forall page_key (concat kss) → indexWhole es = true →
  DeserializeIndexPage (SerializeIndexPage es) = Ok es.
Proof.
  intros Hn Hk Hw. apply indexWhole_decode; [done|by eapply nodes_entry_ok|].
  eapply Forall_impl; [by eapply nodes_keys|]. apply page_entry.
Qed.

(** Writing one page over all the nodes. *)
Lemma putOne_spec s h es kss :
  binv (blobs s) → Forall2 (node h (blobs s)) es kss → Forall page_key (concat kss) → es ≠ [] →
  indexWhole es = true → (0 < room (blobs s))%nat →
  ∃ u s' e, blobPut s (SerializeIndexPage es) = Ok (u, s') ∧ extends 1 s s' ∧ head es = Some e
    ∧ node (S h) (blobs s') {| EKey := EKey e; EUUID := u |} (concat kss).
Proof.
  intros Hb Hn Hk Hne Hw Hroom. destruct (blobPut_spec s (SerializeIndexPage es) Hb Hroom) as (u&s'&E&He&Hp).
  apply (nodes_extends _ _ _ _ _ _ Hb He) in Hn.
  destruct (index_node h (blobs s') u es kss) as (e&He'&Hnode); [done|by eapply nodes_decode|done|done|]. eauto 10.
Qed.

Lemma writeIndexLevel_spec s h es kss :
  binv (blobs s) → Forall2 (node h (blobs s)) es kss → Forall page_key (concat kss) → es ≠ [] →
  (length es ≤ room (blobs s))%nat →
  ∃ es' kss' s', writeIndexLevel s es = Ok (es', s') ∧ extends (length es) s s'
    ∧ Forall2 (node (S h) (blobs s')) es' kss' ∧ concat kss' = concat kss ∧ es' ≠ [].
Proof.
  intros Hb Hn Hk Hne Hroom. assert (1 ≤ length es)%nat as H1 by (destruct es; [done|cbn; lia]). unfold writeIndexLevel. destruct (_ || _) eqn:E.
  - assert (indexWhole es = true) as Hw.
    { unfold indexWhole. apply orb_true_iff in E as [->| E%Nat.leb_le]; [done|].
      apply orb_true_iff. right. apply Nat.eqb_eq. destruct es as [|? [|??]]; [done|done|cbn in E; lia]. }
    destruct (putOne_spec s h es kss) as (u&s'&e&->&He&Hh&Hnode); [done..|lia|]. rewrite res_bind_ret. cbv beta iota.
    apply (extends_le _ (length es)) in He; [|lia]. destruct es as [|e' es]; [done|]. injection Hh as ->.
    eexists _, [concat kss], s'. split; [done|]. split_and!; [done|apply Forall2_cons; split; [done|constructor]|by cbn; rewrite app_nil_r|done].
  - apply orb_false_iff in E as [_ E%Nat.leb_gt].
    destruct (putIndexPages_spec s h es kss) as (es'&kss'&s'&->&He&Hf&Hc&Hne'&Hl&_); [done|done|done|lia|done|].
    eexists _, _, _. split; [done|]. split_and!; [|done..]. eapply extends_le; [done|lia].
Qed.

Lemma nodes_large h b es kss :
  Forall2 (node h b) es kss → Forall page_key (concat kss) →
  IndexPageMaxSize < Z.of_nat (length (SerializeIndexPage es)) → (2 ≤ length es)%nat.
Proof.
  intros Hn Hk Hs. destruct (decide (length es ≤ 3)%nat) as [H3|]; [|lia]. exfalso.
  pose proof (three_fit es (nodes_entry_ok _ _ _ _ Hn)) as Hf. specialize (Hf ltac:(eapply Forall_impl; [by eapply nodes_keys|]; apply page_entry) H3). lia.
Qed.

Lemma log2_half n m : (2 * m ≤ n)%nat → (1 ≤ m)%nat → (S (Nat.log2 m) ≤ Nat.log2 n)%nat.
Proof.
  intros Hn Hm. rewrite <- Nat.log2_double by lia. apply Nat.log2_le_mono. lia.
Qed.

Lemma growLevels_spec fuel s h es kss :
  binv (blobs s) → Forall2 (node h (blobs s)) es kss → Forall page_key (concat kss) → es ≠ [] →
  (length es < fuel)%nat → (length es ≤ room (blobs s))%nat →
  ∃ u n s', growLevels fuel s es (u8 (Z.of_nat (S h))) = Ok (u, u8 (Z.of_nat n), s') ∧ extends (length es) s s'
    ∧ tree_keys n (blobs s') u (concat kss) ∧ (n ≤ S h + Nat.log2 (length es))%nat ∧ (h < n)%nat.
Proof.
  revert s h es kss. induction fuel as [|fuel IH]; intros s h es kss Hb Hn Hk Hne Hf Hroom; [lia|]. cbn [growLevels].
  assert (1 ≤ length es)%nat as Hl1 by (destruct es; [done|cbn; lia]).
  destruct (Z.leb_spec (Z.of_nat (length (SerializeIndexPage es))) IndexPageMaxSize) as [Hs|Hs].
  - destruct (putOne_spec s h es kss) as (u&s'&e&->&He&Hh&[Ht _]); [done..| | |].
    { unfold indexWhole. apply orb_true_iff. left. lia. }
    { lia. }
    rewrite res_bind_ret. exists u, (S h), s'. split; [done|]. split_and!; [eapply extends_le; [done|lia]|done|lia|lia].
  - pose proof (nodes_large _ _ _ _ Hn Hk Hs) as H2.
    destruct (putIndexPages_spec s h es kss) as (es'&kss'&s1&E&He&Hf'&Hc&Hne'&Hl&Hpl); [done..|].
    rewrite (proj2 (Nat.eqb_neq _ _)) by lia. rewrite E, res_bind_ret. cbv beta iota.
    assert (1 ≤ length es')%nat as H1 by (destruct es'; [done|cbn; lia]).
    replace (u8 (u8 (Z.of_nat (S h)) + 1)) with (u8 (Z.of_nat (S (S h)))) by mlia. rewrite <- Hc in Hk.
    destruct (IH s1 (S h) es' kss') as (u&n&s'&->&He'&Ht&Hlog&Hlt); [apply He|done|done|done|lia| |].
    { pose proof (ext_room _ _ _ He). lia. }
    pose proof (log2_half _ _ Hl H1).
    exists u, n, s'. split; [done|]. rewrite <- Hc. split_and!; [eapply extends_trans; [done|done|lia]|done|lia|lia].
Qed.

Lemma buildIndexTree_spec s h es kss :
  binv (blobs s) → Forall2 (node h (blobs s)) es kss → Forall page_key (concat kss) → es ≠ [] →
  (length es ≤ room (blobs s))%nat →
  ∃ u n s', buildIndexTree s es (u8 (Z.of_nat h)) = Ok (u, u8 (Z.of_nat n), s') ∧ extends (length es) s s'
    ∧ tree_keys n (blobs s') u (concat kss) ∧ (n ≤ S h + Nat.log2 (length es))%nat ∧ (h < n)%nat.
Proof.
  intros Hb Hn Hk Hne Hroom. assert (1 ≤ length es)%nat as Hl1 by (destruct es; [done|cbn; lia]). unfold buildIndexTree. destruct es as [|e0 es0]; [done|]. set (es := e0 :: es0) in *. clearbody es.
  replace (u8 (u8 (Z.of_nat h) + 1)) with (u8 (Z.of_nat (S h))) by mlia.
  destruct (Z.leb_spec (Z.of_nat (length (SerializeIndexPage es))) IndexPageMaxSize) as [Hs|Hs].
  - destruct (putOne_spec s h es kss) as (u&s'&e&->&He&Hh&[Ht _]); [done..| | |].
    { unfold indexWhole. apply orb_true_iff. left. lia. }
    { lia. }
    rewrite res_bind_ret. exists u, (S h), s'. split; [done|]. split_and!; [eapply extends_le; [done|lia]|done|lia|lia].
  - pose proof (nodes_large _ _ _ _ Hn Hk Hs) as H2.
    destruct (putIndexPages_spec s h es kss) as (es'&kss'&s1&E&He&Hf'&Hc&Hne'&Hl&Hpl); [done..|].
    assert (∃ u n s', ('(levelEntries, s) ← putIndexPages s (SplitIndexEntries es);
      growLevels (S (length levelEntries)) s levelEntries (u8 (u8 (Z.of_nat h) + 2)))
      = Ok (u, u8 (Z.of_nat n), s') ∧ extends (length es) s s' ∧ tree_keys n (blobs s') u (concat kss)
        ∧ (n ≤ S h + Nat.log2 (length es))%nat ∧ (h < n)%nat) as Hgrow.
    { rewrite E, res_bind_ret. cbv beta iota.
      replace (u8 (u8 (Z.of_nat h) + 2)) with (u8 (Z.of_nat (S (S h)))) by mlia. rewrite <- Hc in Hk |- *.
      destruct (growLevels_spec (S (length es')) s1 (S h) es' kss') as (u&n&s'&->&He'&Ht&Hlog&Hlt); [apply He|done|done|done|lia| |].
      { pose proof (ext_room _ _ _ He). lia. }
      assert (1 ≤ length es')%nat as H1 by (destruct es'; [done|cbn; lia]). pose proof (log2_half _ _ Hl H1).
      exists u, n, s'. split_and!; [done|eapply extends_trans; [done|done|lia]|done|lia|lia]. }
    destruct (SplitIndexEntries es) as [|p [|p' ps]] eqn:Ep; [done| |done].
    clear Hgrow. destruct (splitHalves_spec indexWhole (length es) es) as [Hc1 Hw1];
      [intros; unfold indexWhole; by rewrite orb_true_r|lia|].
    unfold SplitIndexEntries in Ep. destruct (splitHalves indexWhole (length es) es) as [|r [|r' rs]]; [done| |done].
    cbn [concat] in Hc1. rewrite app_nil_r in Hc1. subst r. injection Ep as <-. apply Forall_cons in Hw1 as [[_ Hw] _].
    destruct (putOne_spec s h es kss) as (u&s'&e&->&He'&Hh&[Ht _]); [done..|lia|].
    rewrite res_bind_ret. exists u, (S h), s'. split; [done|]. split_and!; [eapply extends_le; [done|lia]|done|lia|lia].
Qed.

(** ** The merge *)

(** What merging [now] under a node gives: nothing when there is nothing to
    merge, else nodes of the same height over the merged keys. *)
Definition merged (h : nat) b (ks now : list bytes) (r : option (list IndexEntry)) : Prop :=
  match now with
  | [] => r = None
  | _ => ∃ es kss, r = Some es ∧ es ≠ [] ∧ Forall2 (node h b) es kss ∧ concat kss = mergeKeys ks now
  end.

Lemma mergeKeys_page ks now : Forall page_key ks → Forall page_key now → Forall page_key (mergeKeys ks now).
Proof. rewrite !Forall_forall. intros H1 H2 k [?|?]%elem_of_mergeKeys; auto. Qed.

Lemma mergeLeaf_spec s u rangeEnd ks new now rest :
  binv (blobs s) → tree_keys 0 (blobs s) u ks → Forall page_key ks → Forall page_key new →
  takeBelow rangeEnd new = (now, rest) → new = now ++ rest →
  (length (mergeKeys ks now) ≤ room (blobs s))%nat →
  ∃ r s', mergeLeaf s u rangeEnd new = Ok (r, rest, s') ∧ extends (length (mergeKeys ks now)) s s' ∧ merged 0 (blobs s') ks now r.
Proof.
  intros Hb (data&Hp&Hd&Hne&_) Hk Hkn Et En Hroom. unfold mergeLeaf. rewrite (blobGet_page _ _ data), res_bind_ret by done.
  cbv beta iota. rewrite Hd, res_bind_ret, Et. destruct now as [|m now].
  { exists None, s. split_and!; [done|by apply extends_refl|done]. }
  subst new. apply Forall_app in Hkn as [Hkn _].
  destruct (putPageList_spec s (mergeKeys ks (m :: now))) as (es&kss&s'&->&He&Hf&Hc&Hes); [done|by apply mergeKeys_page| |done|].
  { intros E. assert (m ∈ mergeKeys ks (m :: now)) as Hin by (apply elem_of_mergeKeys; right; left). rewrite E in Hin. by apply not_elem_of_nil in Hin. }
  rewrite res_bind_ret. cbv beta iota. eexists _, s'. split; [done|]. split; [done|]. exists es, kss. by split_and!.
Qed.

Lemma hasKeysBelow_now e new now rest :
  takeBelow e new = (now, rest) → hasKeysBelow new e = negb (bool_decide (now = [])).
Proof.
  destruct new as [|k new]; cbn [takeBelow hasKeysBelow]; [by intros [= <- <-]|].
  destruct e as [e|].
  - rewrite CmpSeq_lt, CmpSeq_ge. destruct (decide (k <b e)) as [Hlt|Hge].
    + rewrite (bool_decide_true _ Hlt), (bool_decide_false _ (proj1 (blt_not_le _ _) Hlt)).
      destruct (takeBelow (Some e) new). by intros [= <- <-].
    + rewrite (bool_decide_false _ Hge), (bool_decide_true _ (proj2 (ble_not_lt _ _) Hge)). by intros [= <- <-].
  - destruct (takeBelow None new). by intros [= <- <-].
Qed.

(** Taking up to an inner bound and then up to the outer one is taking up to
    the outer one. *)
Lemma takeBelow_inner p e new now rest now' rest' :
  ascending new → below e p → takeBelow (Some p) new = (now, rest) → takeBelow e rest = (now', rest') →
  takeBelow e new = (now ++ now', rest').
Proof.
  intros Ha Hp. revert now rest. induction new as [|k new IH]; intros now rest; cbn [takeBelow].
  { intros [= <- <-]. cbn. by intros [= <- <-]. }
  rewrite CmpSeq_ge. apply ascending_cons in Ha as [_ Ha]. case_bool_decide as Hk.
  - intros [= <- <-]. cbn [takeBelow app]. done.
  - destruct (takeBelow (Some p) new) as [n r] eqn:En. intros [= <- <-] Hr.
    rewrite (IH Ha n r eq_refl Hr). replace (match e with Some e0 => CmpSeq k e0 >=? 0 | None => false end) with false; [done|].
    destruct e as [e|]; [|done]. rewrite CmpSeq_ge. symmetry. apply bool_decide_eq_false.
    apply blt_not_le. eapply blt_trans; [by apply blt_not_le|done].
Qed.

Definition sub_ok (h : nat)
    (sub : Store B → bytes → option bytes → list bytes → res (option (list IndexEntry) * list bytes * Store B)) : Prop :=
  ∀ s u rangeEnd ks new now rest,
    binv (blobs s) → tree_keys h (blobs s) u ks → ascending ks → Forall page_key ks → Forall (below rangeEnd) ks →
    ascending new → Forall page_key new → takeBelow rangeEnd new = (now, rest) →
    (S h * length (mergeKeys ks now) ≤ room (blobs s))%nat →
    ∃ r s', sub s u rangeEnd new = Ok (r, rest, s') ∧ extends (S h * length (mergeKeys ks now)) s s' ∧ merged h (blobs s') ks now r.


(** Where the range of the first child ends. *)
Definition childEnd (es : list IndexEntry) (rangeEnd : option bytes) : option bytes :=
  match es with e' :: _ => Some (EKey e') | [] => rangeEnd end.

(** The new keys fall apart into those for the first child and those for the
    others, and so does their merge. *)
Lemma child_split h b es ks kss rangeEnd new now rest :
  Forall2 (node h b) es kss → ascending (ks ++ concat kss) → Forall (below rangeEnd) (ks ++ concat kss) →
  ascending new → takeBelow rangeEnd new = (now, rest) →
  ∃ now1 rest1 now2, takeBelow (childEnd es rangeEnd) new = (now1, rest1) ∧ new = now1 ++ rest1
    ∧ takeBelow rangeEnd rest1 = (now2, rest) ∧ now = now1 ++ now2 ∧ (es = [] → now2 = [])
    ∧ Forall (below (childEnd es rangeEnd)) ks
    ∧ mergeKeys (ks ++ concat kss) now = mergeKeys ks now1 ++ mergeKeys (concat kss) now2.
Proof.
  intros Hf (Ha1&Ha2&Hlt)%ascending_app [Hb1 Hb2]%Forall_app Han Et.
  destruct (takeBelow_spec (childEnd es rangeEnd) new Han) as (now1&rest1&E1&En&Hn1&Hr1). subst new.
  apply ascending_app in Han as (Han1&Han2&Hlt2).
  destruct (takeBelow_spec rangeEnd rest1 Han2) as (now2&rest2&E2&->&Hn2&Hr2).
  exists now1, (now2 ++ rest2), now2. destruct Hf as [|e ks' es kss [_ Hh] Hf]; cbn [childEnd] in *.
  - rewrite E1 in Et. injection Et as -> <-. assert (now2 = []) as ->.
    { destruct now2 as [|m now2]; [done|]. apply Forall_cons in Hn2 as [? _]. apply Forall_app in Hr1 as [Hr1 _].
      by apply Forall_cons in Hr1 as [? _]. }
    cbn [app concat] in *. rewrite !app_nil_r. split_and!; done.
  - assert (ks' = EKey e :: tail ks') as Eks by (destruct ks' as [|k0 ks']; [done|]; by injection Hh as ->).
    assert (below rangeEnd (EKey e)) as Hpe.
    { cbn [concat] in Hb2. rewrite Eks in Hb2. by apply Forall_cons in Hb2 as [? _]. }
    assert (ascending (now1 ++ now2 ++ rest2)) as Han by (by apply ascending_app).
    rewrite (takeBelow_inner _ _ _ _ _ _ _ Han Hpe E1 E2) in Et. injection Et as <- <-.
    assert (Forall (fun k => k <b EKey e) ks) as Hks.
    { apply Forall_forall. intros k Hk. apply Hlt; [done|]. cbn [concat]. rewrite Eks. left. }
    split_and!; [done|done|done|done|done|done|]. apply (mergeKeys_app (EKey e)); [done|done| |].
    + apply Forall_forall. intros k Hk. cbn [concat] in Ha2, Hk. rewrite Eks in Ha2, Hk.
      apply elem_of_cons in Hk as [->|Hk]; [apply ble_refl|]. apply blt_le.
      apply ascending_cons in Ha2 as [Ha2 _]. rewrite Forall_forall in Ha2. by apply Ha2.
    + apply Forall_app in Hr1 as [Hr1 _]. apply (Forall_impl _ _ _ Hr1). intros k Hk. exact (proj2 (ble_not_lt _ _) Hk).
Qed.

Lemma mergeChildren_spec h sub s es kss rangeEnd new now rest :
  sub_ok h sub → binv (blobs s) → Forall2 (node h (blobs s)) es kss →
  ascending (concat kss) → Forall page_key (concat kss) → Forall (below rangeEnd) (concat kss) →
  ascending new → Forall page_key new → takeBelow rangeEnd new = (now, rest) → (es = [] → now = []) →
  (S h * length (mergeKeys (concat kss) now) ≤ room (blobs s))%nat →
  ∃ es' kss' s', mergeChildren sub s es rangeEnd new = Ok (negb (bool_decide (now = [])), es', rest, s')
    ∧ extends (S h * length (mergeKeys (concat kss) now)) s s' ∧ Forall2 (node h (blobs s')) es' kss'
    ∧ concat kss' = mergeKeys (concat kss) now
    ∧ (es ≠ [] → es' ≠ []).
Proof.
  intros Hsub. revert s kss new now rest. induction es as [|e es IH]; intros s kss new now rest Hb Hf Ha Hk Hbe Han Hkn Et Hnil Hroom.
  { apply Forall2_nil_inv_l in Hf as ->. rewrite Hnil in * by done. destruct (takeBelow_spec rangeEnd new Han) as (a&r&E&->&_).
    rewrite E in Et. injection Et as -> ->. cbn [mergeChildren app]. exists [], [], s. split_and!; [done|by apply extends_refl|constructor|done|done]. }
  apply Forall2_cons_inv_l in Hf as (ks&kss'&[Ht Hh]&Hf&->). cbn [concat] in *.
  destruct (child_split h (blobs s) es ks kss' rangeEnd new now rest) as (now1&rest1&now2&E1&->&E2&->&Hn2&Hbk&Em); [done..|].
  apply ascending_app in Ha as (Ha1&Ha2&Hlt), Han as (Han1&Han2&Hlt2).
  apply Forall_app in Hk as [Hk1 Hk2], Hbe as [Hbe1 Hbe2], Hkn as [Hkn1 Hkn2]. cbn [mergeChildren]. fold (childEnd es rangeEnd).
  rewrite (hasKeysBelow_now _ _ _ _ E1), negb_involutive. rewrite Em, length_app, Nat.mul_add_distr_l in *. case_bool_decide as Hc.
  - subst now1. cbn [app] in *.
    destruct (IH s kss' rest1 now2 rest) as (es'&kss2&s'&->&He&Hf'&Hcc&_); [done..|lia|]. rewrite res_bind_ret. cbv beta iota.
    exists (e :: es'), (ks :: kss2), s'. split; [done|]. split_and!; [eapply extends_le; [done|lia]| | |done].
    + constructor; [|done]. split; [by eapply tree_keys_extends|done].
    + cbn [concat]. by rewrite Hcc, mergeKeys_nil_r.
  - destruct (Hsub s (EUUID e) (childEnd es rangeEnd) ks (now1 ++ rest1) now1 rest1) as (r&s1&->&He1&Hm); [done..| | |done|lia|].
    { by apply ascending_app. }
    { by apply Forall_app. }
    pose proof (ext_room _ _ _ He1).
    rewrite res_bind_ret. cbv beta iota. destruct now1 as [|m now1]; [done|]. destruct Hm as (es1&kss1&->&Hne1&Hf1&Hc1).
    destruct (IH s1 kss' rest1 now2 rest) as (es'&kss2&s'&->&He&Hf'&Hcc&_); [apply He1|by eapply nodes_extends|done..|lia|].
    rewrite res_bind_ret. cbv beta iota. exists (es1 ++ es'), (kss1 ++ kss2), s'. split; [done|]. split_and!.
    + eapply extends_trans; [done|done|lia].
    + apply Forall2_app; [|done]. by eapply nodes_extends; [apply He1|..].
    + by rewrite concat_app, Hc1, Hcc.
    + intros _. by destruct es1.
Qed.

Lemma mergeSubtree_ok h : sub_ok h (mergeSubtree h).
Proof.
  induction h as [|h IH]; intros s u rangeEnd ks new now rest Hb Ht Ha Hk Hbe Han Hkn Et Hroom.
  - cbn [mergeSubtree]. rewrite Nat.mul_1_l in *. eapply mergeLeaf_spec; [done..| |done].
    destruct (takeBelow_spec rangeEnd new Han) as (?&?&E&->&_). rewrite E in Et. by injection Et as -> ->.
  - destruct Ht as (data&es&kss&Hp&Hd&Hne&Hf&->). cbn [mergeSubtree]. rewrite (blobGet_page _ _ data), res_bind_ret by done.
    cbv beta iota. rewrite Hd, res_bind_ret.
    destruct (mergeChildren_spec h (mergeSubtree h) s es kss rangeEnd new now rest) as (es'&kss'&s1&->&He&Hf'&Hc&Hne'); [done..|lia|].
    rewrite res_bind_ret. cbv beta iota. rewrite negb_involutive. pose proof (ext_room _ _ _ He).
    pose proof (nodes_count _ _ _ _ Hf') as Hcnt. rewrite Hc in Hcnt. case_bool_decide as Hn.
    + subst now. exists None, s1. split_and!; [done|eapply extends_le; [done|lia]|done].
    + destruct (writeIndexLevel_spec s1 h es' kss') as (es2&kss2&s2&->&He2&Hf2&Hc2&Hne2); [apply He|done| |by apply Hne'|lia|].
      { rewrite Hc. apply mergeKeys_page; [done|]. destruct (takeBelow_spec rangeEnd new Han) as (?&?&E&->&_).
        rewrite E in Et. injection Et as -> ->. by apply Forall_app in Hkn as [? _]. }
      rewrite res_bind_ret. cbv beta iota. exists (Some es2), s2. split; [done|]. split; [eapply extends_trans; [done|done|lia]|].
      destruct now as [|m now]; [done|]. exists es2, kss2. split_and!; [done..|]. by rewrite Hc2.
Qed.

(** ** Trees of a root *)

(** The tree of a family holds [ks]; the zero identifier is the empty tree. *)
Definition tree_repr b (t : CfTree) (ks : list bytes) : Prop :=
  tree_ok t ∧
  ((RootUUID t = zeroUUID ∧ ks = []) ∨ tree_keys (Z.to_nat (Height t)) b (RootUUID t) ks).

Lemma tree_repr_keeps b b' t ks : keeps b b' → tree_repr b t ks → tree_repr b' t ks.
Proof. intros Hk [Hok [?|Ht]]; split; [done|by left|done|right]. by eapply tree_keys_keeps. Qed.

(** As many keys as a tree can have for its height to stay a byte. *)
Definition fits_height (t : CfTree) (ks : list bytes) : Prop :=
  Height t < 128 ∧ Z.of_nat (length ks) < 2 ^ 100.

Lemma log2_small n : Z.of_nat n < 2 ^ 100 → (Nat.log2 n < 100)%nat.
Proof.
  intros Hn. destruct (decide (n = 0)%nat) as [->|Hz]; [cbn; lia|].
  apply Nat.log2_lt_pow2; [lia|]. apply Nat2Z.inj_lt. rewrite Nat2Z.inj_pow. exact Hn.
Qed.

Lemma mergeTree_spec s t ks new :
  binv (blobs s) → tree_repr (blobs s) t ks → ascending ks → Forall page_key ks →
  ascending new → Forall page_key new → new ≠ [] → fits_height t (mergeKeys ks new) →
  (131 * length (mergeKeys ks new) ≤ room (blobs s))%nat →
  ∃ t' s', mergeTree s t new = Ok (t', s') ∧ extends (131 * length (mergeKeys ks new)) s s' ∧ tree_repr (blobs s') t' (mergeKeys ks new).
Proof.
  intros Hb [(Hlen&Hh8&Hnl) Ht] Ha Hk Han Hkn Hne [Hht Hsz] Hroom. unfold mergeTree. unfold is_u8 in Hh8.
  assert (∀ s1 h es kss, binv (blobs s1) → Forall2 (node h (blobs s1)) es kss → concat kss = mergeKeys ks new →
    es ≠ [] → (h < 128)%nat → (length (mergeKeys ks new) ≤ room (blobs s1))%nat →
    ∃ u n s', buildIndexTree s1 es (u8 (Z.of_nat h)) = Ok (u, u8 (Z.of_nat n), s')
      ∧ extends (length (mergeKeys ks new)) s1 s'
      ∧ tree_keys n (blobs s') u (mergeKeys ks new) ∧ (0 < n < 256)%nat) as Hbuild.
  { intros s1 h es kss Hb1 Hf Hc Hne1 Hh Hroom1. pose proof (mergeKeys_page ks new Hk Hkn) as Hp. rewrite <- Hc in Hp, Hsz, Hroom1 |- *.
    pose proof (nodes_count _ _ _ _ Hf).
    destruct (buildIndexTree_spec s1 h es kss) as (u&n&s'&E&He&Ht'&Hlog&Hlt); [done..|lia|]. exists u, n, s'.
    pose proof (log2_small (length es)). split_and!; [done|eapply extends_le; [done|lia]|done|lia|lia]. }
  case_bool_decide as Hz.
  - assert (ks = []) as ->. { destruct Ht as [[_ ->]|Ht]; [done|]. by apply tree_keys_id in Ht as [_ ?]. }
    rewrite mergeKeys_nil_l in *.
    destruct (putPageList_spec s new) as (es&kss&s1&->&He&Hf&Hc&Hes); [done..|lia|]. pose proof (ext_room _ _ _ He). rewrite res_bind_ret. cbv beta iota.
    destruct (Hbuild s1 0%nat es kss) as (u&n&s'&E&He'&Ht'&Hn); [apply He|done|done|done|lia|lia|].
    change (u8 (Z.of_nat 0)) with 0 in E. rewrite E, res_bind_ret. cbv beta iota.
    assert (u8 (Z.of_nat n) = Z.of_nat n) as -> by (unfold u8; apply Z.mod_small; lia).
    replace (Z.of_nat n =? 0) with false by lia. eexists _, s'. split; [done|]. split; [eapply extends_trans; [done|done|lia]|].
    split; [|right; cbn; by rewrite Nat2Z.id]. destruct (tree_keys_id _ _ _ _ Ht') as [[??] _].
    split_and!; cbn; [done|unfold is_u8; lia|]. unfold is_u32, u32. apply Z.mod_pos_bound. lia.
  - destruct Ht as [[? _]|Ht]; [done|]. destruct (takeBelow_spec None new Han) as (now&rest&Et&->&_&Hr).
    assert (rest = []) as -> by (destruct rest as [|k rest]; [done|]; apply Forall_cons in Hr as [Hr _]; by destruct Hr).
    rewrite app_nil_r in *.
    destruct (mergeSubtree_ok (Z.to_nat (Height t)) s (RootUUID t) None ks now now []) as (r&s1&->&He&Hm); [done..| |done|done|done|nia|].
    { by apply Forall_true. }
    pose proof (ext_room _ _ _ He) as Hrm. apply (extends_le _ (129 * length (mergeKeys ks now))) in He; [|nia].
    rewrite res_bind_ret. cbv beta iota. destruct now as [|m now]; [done|]. destruct Hm as (es&kss&->&Hes&Hf&Hc).
    destruct es as [|e [|e' es]]; [done| |].
    + apply Forall2_cons_inv_l in Hf as (ks1&kss1&[Ht1 _]&Hnil&->). apply Forall2_nil_inv_l in Hnil as ->.
      cbn [concat] in Hc. rewrite app_nil_r in Hc. subst ks1.
      eexists _, s1. split; [done|]. split; [eapply extends_le; [done|lia]|]. destruct (tree_keys_id _ _ _ _ Ht1) as [[??] _].
      split; [by split_and!|by right].
    + destruct (Hbuild s1 (Z.to_nat (Height t)) (e :: e' :: es) kss) as (u&n&s'&E&He'&Ht'&Hn); [apply He|done|done|done|lia|nia|].
      assert (u8 (Z.of_nat (Z.to_nat (Height t))) = Height t) as Hu by (unfold u8; rewrite Z.mod_small; lia).
      rewrite Hu in E. rewrite E, res_bind_ret. cbv beta iota.
      assert (u8 (Z.of_nat n) = Z.of_nat n) as -> by (unfold u8; apply Z.mod_small; lia).
      eexists _, s'. split; [done|]. split; [eapply extends_trans; [done|done|lia]|].
      split; [|right; cbn; by rewrite Nat2Z.id]. destruct (tree_keys_id _ _ _ _ Ht') as [[??] _].
      split_and!; cbn; [done|unfold is_u8; lia|done].
Qed.
End pages.
