(* ===== verification/PageCommit.v ===== *)
(** * Flushes and reads of the page store (go/internal/pagestore/store.go)

    A commit merges the flushed keys into the trees and publishes a root that
    reads back; prefix scans through the cache return exactly the keys of the
    tree; a tree read before the commit stays as it was. *)

From S2P Require Import Prelude Pages FlatLeaf PageCache BlobStore PageStore PageTree.

(** ** Root names *)

Lemma MakeRootName_root secs nanos :
  0 < secs * 1000000000 + nanos < 2 ^ 63 → is_root_name (MakeRootName secs nanos).
Proof.
  intros Ht. rewrite MakeRootName_eq by done. set (n := 2 ^ 64 - _). clearbody n. split_and!.
  - apply has_prefix_spec. eauto.
  - unfold hex16. apply (hexBytes_not_tmp (bs "root_") (be_put 8 n)); [apply be_put_ok|done].
  - split; [apply Forall_app; split; [by repeat constructor|]; apply (hexBytes_ok (be_put 8 n)), be_put_ok|]. intros [H|H]%elem_of_app; [revert H; apply (bool_decide_unpack (47 ∉ bs "root_")); by vm_compute|]. revert H. apply (hexBytes_no_slash (be_put 8 n)), be_put_ok.
Qed.

(** ** Runs of an ascending list *)

Lemma ascending_concat_lt kss i j a b x y :
  ascending (concat kss) → kss !! i = Some a → kss !! j = Some b → (i < j)%nat → x ∈ a → y ∈ b → x <b y.
Proof.
  revert i j. induction kss as [|ks kss IH]; intros i j; [done|]. cbn [concat]. intros (_&Ha&Hlt)%ascending_app Hi Hj Hij Hx Hy.
  destruct j as [|j]; [lia|]. destruct i as [|i]; [|eapply (IH i j); eauto; lia]. injection Hi as ->. apply Hlt; [done|].
  apply elem_of_concat. eauto.
Qed.

Lemma ascending_concat_part kss i ks : ascending (concat kss) → kss !! i = Some ks → ascending ks.
Proof.
  revert i. induction kss as [|k kss IH]; intros i; [done|]. cbn [concat]. intros (H1&H2&_)%ascending_app.
  destruct i as [|i]; [by intros [= <-]|]. by apply IH.
Qed.

Section commit.
Context {B : Type} `{HB : BlobStore B} `{HL : !BlobLaws B} `{HZ : Zstd} `{HZL : !ZstdLaws}.
Implicit Types (s : Store B) (b : B).

(** ** Merging the families of a flush *)

(** Each family's sorted keys, by family. *)
Abbreviation contents := (nat → list bytes).

(** The keys after a flush. *)
Fixpoint flushed (c : contents) (keysByCf : list (nat * list bytes)) : contents :=
  match keysByCf with
  | [] => c
  | (cf, keys) :: more => flushed (fun i => if Nat.eqb i cf then mergeKeys (c i) keys else c i) more
  end.

(** Sorted keys a page can hold. *)
Definition keys_ok (ks : list bytes) : Prop := ascending ks ∧ Forall page_key ks.

Definition trees_repr b (ts : list CfTree) (c : contents) : Prop :=
  ∀ cf t, ts !! cf = Some t → tree_repr b t (c cf) ∧ keys_ok (c cf).

(** Each family comes once, as from a Go map, and its tree has room to grow. *)
Definition flush_ok (ts : list CfTree) (c : contents) (keysByCf : list (nat * list bytes)) : Prop :=
  NoDup (map fst keysByCf) ∧ Forall (fun p => keys_ok p.2) keysByCf
  ∧ ∀ cf t keys, (cf, keys) ∈ keysByCf → ts !! cf = Some t → fits_height t (mergeKeys (c cf) keys).

(** As many blobs as the merge may write: every key's page and the index pages
    above it, on at most 131 levels. *)
Fixpoint flushCost (c : contents) (keysByCf : list (nat * list bytes)) : nat :=
  match keysByCf with
  | [] => 0
  | (cf, keys) :: more => 131 * length (mergeKeys (c cf) keys) + flushCost c more
  end.

Lemma flushCost_ext c c' keysByCf :
  (∀ cf, cf ∈ map fst keysByCf → c' cf = c cf) → flushCost c' keysByCf = flushCost c keysByCf.
Proof.
  induction keysByCf as [|[cf keys] more IH]; [done|]. intros Hc. cbn [flushCost]. cbn [map fst] in Hc.
  rewrite Hc by left. rewrite IH; [done|]. intros cf' Hin. apply Hc. by right.
Qed.

Lemma keys_ok_merge ks new : keys_ok ks → keys_ok new → keys_ok (mergeKeys ks new).
Proof. intros [??] [??]. split; [by apply mergeKeys_ascending|by apply mergeKeys_page]. Qed.

Lemma trees_repr_keeps b b' ts c : keeps b b' → trees_repr b ts c → trees_repr b' ts c.
Proof. intros Hk Ht cf t Hl. destruct (Ht cf t Hl). split; [by eapply tree_repr_keeps|done]. Qed.

Lemma mergeTrees_spec s ts c keysByCf :
  binv (blobs s) → trees_repr (blobs s) ts c → flush_ok ts c keysByCf → (flushCost c keysByCf ≤ room (blobs s))%nat →
  ∃ ts' s', mergeTrees s ts keysByCf = Ok (ts', s') ∧ extends (flushCost c keysByCf) s s'
    ∧ trees_repr (blobs s') ts' (flushed c keysByCf) ∧ length ts' = length ts.
Proof.
  revert s ts c. induction keysByCf as [|[cf keys] more IH]; intros s ts c Hb Ht (Hnd&Hk&Hfit) Hroom;
    cbn [mergeTrees flushed flushCost] in *.
  { exists ts, s. split_and!; [done|by apply extends_refl|done|done]. }
  cbn [map fst] in Hnd. apply NoDup_cons in Hnd as [Hnew Hnd]. apply Forall_cons in Hk as [Hk1 Hk]. cbn [snd] in Hk1.
  set (c' := fun i => if Nat.eqb i cf then mergeKeys (c i) keys else c i).
  assert (∀ cf', cf' ∈ map fst more → c' cf' = c cf') as Hc'.
  { intros cf' Hin. unfold c'. rewrite (proj2 (Nat.eqb_neq _ _)); [done|]. by intros ->. }
  assert (∀ ts0, (∀ cf', cf' ≠ cf → ts0 !! cf' = ts !! cf') → flush_ok ts0 c' more) as Hmore.
  { intros ts0 Hts0. split_and!; [done|done|]. intros cf' t keys' Hin Hl.
    assert (cf' ∈ map fst more) as Hm by (by apply (list_elem_of_fmap_2 fst) in Hin).
    rewrite Hc' by done. eapply Hfit; [by right|]. rewrite <- Hts0; [done|]. by intros ->. }
  rewrite <- (flushCost_ext c c' more Hc') in *. destruct (ts !! cf) as [t|] eqn:Et.
  - assert (c' cf = mergeKeys (c cf) keys) as Ecf by (unfold c'; by rewrite Nat.eqb_refl).
    destruct (Ht cf t Et) as [Htr [Ha Hp]]. destruct (Nat.eqb_spec (length keys) 0) as [Hl|Hl].
    + destruct keys; [|done].
      destruct (IH s ts c') as (ts'&s'&E&He&Htr'&Hlen); [done| |by apply Hmore|lia|exists ts', s'; split_and!; [done|eapply extends_le; [done|lia]|done|done]]. intros cf' t' Hl'. unfold c'.
      destruct (Nat.eqb_spec cf' cf) as [->|]; [rewrite mergeKeys_nil_r|]; by apply Ht.
    + destruct (mergeTree_spec s t (c cf) keys) as (t'&s1&->&He&Htr'); [done|done|done|done|apply Hk1|apply Hk1| | |lia|].
      { by intros ->. }
      { eapply Hfit; [left|done]. }
      rewrite res_bind_ret. cbv beta iota. pose proof (ext_room _ _ _ He).
      destruct (IH s1 (<[cf := t']> ts) c') as (ts'&s'&->&He'&Htr2&Hlen); [apply He| | |lia|].
      * intros cf' t2 Hl2. destruct (decide (cf' = cf)) as [->|Hne].
        -- rewrite list_lookup_insert_eq in Hl2 by (by eapply lookup_lt_Some). injection Hl2 as <-. rewrite Ecf.
           split; [done|by apply keys_ok_merge].
        -- rewrite list_lookup_insert_ne in Hl2 by done. unfold c'. rewrite (proj2 (Nat.eqb_neq _ _)) by done.
           destruct (Ht cf' t2 Hl2). split; [|done]. eapply tree_repr_keeps; [by eapply extends_keeps|done].
      * apply Hmore. intros cf' Hne. by apply list_lookup_insert_ne.
      * exists ts', s'. split_and!; [done|eapply extends_trans; [done|done|lia]|done|by rewrite Hlen, length_insert].
  - destruct (IH s ts c') as (ts'&s'&E&He&Htr'&Hlen); [done| |by apply Hmore|lia|exists ts', s'; split_and!; [done|eapply extends_le; [done|lia]|done|done]]. intros cf' t' Hl'. unfold c'.
    destruct (Nat.eqb_spec cf' cf) as [->|]; [congruence|by apply Ht].
Qed.

(** ** Publishing a root *)

Lemma blobPutRoot_spec s name data :
  binv (blobs s) → is_root_name name →
  ∃ s', blobPutRoot s name data = (true, s') ∧ s' = withBlobs s (blobs s') ∧ binv (blobs s')
    ∧ (∀ u, is_id u → objs (blobs s') u = objs (blobs s) u)
    ∧ (∀ u, used (blobs s') u ↔ used (blobs s) u)
    ∧ blobGetRoot s' name = Ok (Some data)
    ∧ ∀ n, is_root_name n → n ≠ name → rootsOf (blobs s') n = rootsOf (blobs s) n.
Proof.
  intros Hb Hn. destruct (putRoot_law (blobs s) name (compress data) Hb Hn) as (b'&E&Hb'&_&Ho&Hu&Hr).
  unfold blobPutRoot. rewrite E. exists (withBlobs s b'). split_and!; try done.
  - unfold blobGetRoot. cbn. rewrite getRoot_law, res_bind_ret by done. rewrite Hr, bool_decide_true by done.
    by rewrite Decompress_compress, res_bind_ret.
  - intros n Hn' Hne. cbn. rewrite Hr by done. by rewrite bool_decide_false.
Qed.

Lemma PrepareMerge_spec s ts c keysByCf now :
  binv (blobs s) → sReadOnly s = false → 0 < now.1 * 1000000000 + now.2 < 2 ^ 63 →
  trees_repr (blobs s) ts c → flush_ok ts c keysByCf → Z.of_nat (length ts) < 65536 →
  (flushCost c keysByCf ≤ room (blobs s))%nat →
  ∃ ts' root s', PrepareMerge s ts keysByCf now = Ok (ts', root, s')
    ∧ s' = withBlobs s (blobs s') ∧ binv (blobs s')
    ∧ (∀ u, is_id u → used (blobs s) u → objs (blobs s') u = objs (blobs s) u)
    ∧ (∀ u, used (blobs s) u → used (blobs s') u)
    ∧ trees_repr (blobs s') ts' (flushed c keysByCf) ∧ length ts' = length ts
    ∧ root = MakeRootName now.1 now.2
    ∧ (∀ n, is_root_name n → n ≠ root → rootsOf (blobs s') n = rootsOf (blobs s) n)
    ∧ ∃ data, blobGetRoot s' root = Ok (Some data) ∧ DeserializeRoot data = Ok ts'.
Proof.
  intros Hb Hro Hnow Ht Hok Hlen Hroom. unfold PrepareMerge. rewrite Hro.
  destruct (mergeTrees_spec s ts c keysByCf Hb Ht Hok Hroom) as (ts'&s1&->&He&Ht'&Hl). rewrite res_bind_ret. cbv beta iota.
  unfold writeRoot. destruct (blobPutRoot_spec s1 (MakeRootName now.1 now.2) (SerializeRoot ts')) as (s'&->&Hs'&Hb'&Ho&Hu&Hg&Hrt).
  { apply He. }
  { by apply MakeRootName_root. }
  cbn [negb]. exists ts', (MakeRootName now.1 now.2), s'. split_and!; [done|..].
  - rewrite Hs'. by rewrite (ext_rest _ _ _ He).
  - done.
  - intros u Hid Hus. rewrite Ho by done. by apply (ext_objs _ _ _ He).
  - intros u Hus. by apply Hu, (ext_used _ _ _ He).
  - eapply trees_repr_keeps; [|done]. intros u Hid _. by apply Ho.
  - done.
  - done.
  - intros n Hn Hne. rewrite Hrt by done. by apply (ext_roots _ _ _ He).
  - exists (SerializeRoot ts'). split; [done|]. apply DeserializeRoot_Serialize; [|lia].
    apply Forall_forall. intros t [cf Hcf]%list_elem_of_lookup. by destruct (Ht' cf t Hcf) as [[? _] _].
Qed.

(** ** Reads *)

(** A cached page is the decoding of the blob, if the blob is still there. *)
Definition decodes_to (data : bytes) (p : payload) : Prop :=
  match p with
  | ckBytes d => d = data
  | ckIndex es => DeserializeIndexPage data = Ok es
  | ckLeafKeys l => DecodePageFlat data = Ok l
  | ckLeafKV l => DecodePageKvFlat data = Ok l
  end.

Record store_ok s : Prop := {
  so_blobs : binv (blobs s);
  so_cache : cache_inv (cache s);
  so_coherent : ∀ u e, m (cache s) !! u = Some e →
    used (blobs s) u ∧ ∀ data, pageAt (blobs s) u data → decodes_to data (page e);
}.

(** A read changes the cache only. *)
Definition reads s s' : Prop := store_ok s' ∧ s' = withCache s (cache s').

Lemma reads_refl s : store_ok s → reads s s.
Proof. intros Hs. split; [done|]. by destruct s. Qed.

Lemma reads_trans s1 s2 s3 : reads s1 s2 → reads s2 s3 → reads s1 s3.
Proof. intros [_ E1] [H2 E2]. split; [done|]. rewrite E2, E1. done. Qed.

Lemma reads_blobs s s' : reads s s' → blobs s' = blobs s.
Proof. intros [_ ->]. done. Qed.

(** An operation of the cache that stores the decoding of a page. *)
Lemma cache_step s o u data :
  store_ok s → pageAt (blobs s) u data →
  (∀ v p, stored o = Some (v, p) → v = u ∧ decodes_to data p) →
  reads s (withCache s (run1 (cache s) o)).
Proof.
  intros [Hb Hc Hco] Hp Ho. split; [|done]. destruct (run1_spec (cache s) o Hc) as (Hc'&_&Hsrc).
  constructor; cbn; [done|done|]. intros v e Hv. destruct (Hsrc v e Hv) as [Hst|(e'&He'&<-)]; [|by eapply Hco].
  destruct (Ho _ _ Hst) as [-> Hd]. destruct Hp as (Hid&Hz&z&Hz1&Hz2). split; [apply obj_used; eauto|].
  intros data' (_&_&z'&Hz1'&Hz2'). congruence.
Qed.

Lemma cached_decodes s u e data :
  store_ok s → m (cache s) !! u = Some e → pageAt (blobs s) u data → decodes_to data (page e).
Proof. intros Hs He Hp. by apply (so_coherent _ Hs u e He). Qed.

Lemma loadLeafRaw_spec s u data :
  store_ok s → pageAt (blobs s) u data → ∃ s', loadLeafRaw s u = Ok (data, s') ∧ reads s s'.
Proof.
  intros Hs Hp. unfold loadLeafRaw.
  pose proof (cache_step s (GetBytes u) u data Hs Hp ltac:(done)) as Hget. cbn [run1] in Hget.
  destruct (getBytes (cache s) u) as [c [cached|]] eqn:E; cbn [fst] in Hget.
  - exists (withCache s c). split; [|done]. do 2 f_equal. unfold getBytes in E.
    destruct (m (cache s) !! u) as [e|] eqn:Em; [|done]. pose proof (cached_decodes s u e data Hs Em Hp) as Hd.
    destruct (page e); try done. injection E as _ <-. by symmetry.
  - rewrite (blobGet_page _ _ data), res_bind_ret by (apply Hs || done). eexists. split; [done|].
    eapply reads_trans; [apply Hget|]. apply (cache_step (withCache s c) (PutBytes u data) u data); [apply Hget|done|].
    by intros v p [= <- <-].
Qed.

Lemma loadLeafKeys_spec s u data leaf :
  store_ok s → pageAt (blobs s) u data → DecodePageFlat data = Ok leaf →
  ∃ s', loadLeafKeys s u = Ok (leaf, s') ∧ reads s s'.
Proof.
  intros Hs Hp Hdec. unfold loadLeafKeys.
  pose proof (cache_step s (GetLeafKeys u) u data Hs Hp ltac:(done)) as Hget. cbn [run1] in Hget.
  destruct (getLeafKeys (cache s) u) as [c [cached|]] eqn:E; cbn [fst] in Hget.
  - exists (withCache s c). split; [|done]. do 2 f_equal. unfold getLeafKeys in E.
    destruct (m (cache s) !! u) as [e|] eqn:Em; [|done]. pose proof (cached_decodes s u e data Hs Em Hp) as Hd.
    destruct (page e); try done. injection E as _ <-. cbn in Hd. congruence.
  - destruct (loadLeafRaw_spec (withCache s c) u data) as (s1&->&Hr); [apply Hget|done|]. rewrite res_bind_ret. cbv beta iota.
    rewrite Hdec, res_bind_ret. eexists. split; [done|]. eapply reads_trans; [apply Hget|]. eapply reads_trans; [apply Hr|].
    apply (cache_step s1 (PutLeafKeys u leaf) u data); [apply Hr| |by intros v p [= <- <-]]. by rewrite (reads_blobs _ _ Hr).
Qed.

Lemma loadIndexPage_spec s u data es :
  store_ok s → pageAt (blobs s) u data → DeserializeIndexPage data = Ok es →
  ∃ s', loadIndexPage s u = Ok (es, s') ∧ reads s s'.
Proof.
  intros Hs Hp Hdec. unfold loadIndexPage.
  pose proof (cache_step s (GetIndex u) u data Hs Hp ltac:(done)) as Hget. cbn [run1] in Hget.
  destruct (getIndex (cache s) u) as [c [cached|]] eqn:E; cbn [fst] in Hget.
  - exists (withCache s c). split; [|done]. do 2 f_equal. unfold getIndex in E.
    destruct (m (cache s) !! u) as [e|] eqn:Em; [|done]. pose proof (cached_decodes s u e data Hs Em Hp) as Hd.
    destruct (page e); try done. injection E as _ <-. cbn in Hd. congruence.
  - destruct (loadLeafRaw_spec (withCache s c) u data) as (s1&->&Hr); [apply Hget|done|]. rewrite res_bind_ret. cbv beta iota.
    rewrite Hdec, res_bind_ret. eexists. split; [done|]. eapply reads_trans; [apply Hget|]. eapply reads_trans; [apply Hr|].
    apply (cache_step s1 (PutIndex u es) u data); [apply Hr| |by intros v p [= <- <-]]. by rewrite (reads_blobs _ _ Hr).
Qed.

Lemma loadIndexPage_err s u data e :
  store_ok s → pageAt (blobs s) u data → DeserializeIndexPage data = Err e → loadIndexPage s u = Err e.
Proof.
  intros Hs Hp Hdec. unfold loadIndexPage.
  pose proof (cache_step s (GetIndex u) u data Hs Hp ltac:(done)) as Hget. cbn [run1] in Hget.
  destruct (getIndex (cache s) u) as [c' [cached|]] eqn:E; cbn [fst] in Hget.
  - unfold getIndex in E. destruct (m (cache s) !! u) as [en|] eqn:Em; [|done].
    pose proof (cached_decodes s u en data Hs Em Hp) as Hd. destruct (page en); try done. cbn in Hd. congruence.
  - destruct (loadLeafRaw_spec (withCache s c') u data) as (s1&->&Hr); [apply Hget|done|]. rewrite res_bind_ret. cbv beta iota.
    by rewrite Hdec.
Qed.

Lemma hasPrefix_eq k p : hasPrefix k p = has_prefix k p.
Proof.
  revert k. induction p as [|x p IH]; intros k; [by destruct k|]. destruct k as [|y k]; [done|]. cbn [hasPrefix].
  rewrite IH. unfold has_prefix. cbn [length take]. destruct (Z.eqb_spec y x) as [->|Hne]; cbn [negb].
  - apply bool_decide_ext. split; congruence.
  - symmetry. apply bool_decide_eq_false. congruence.
Qed.

Lemma mapM_lookup {A} (f : nat → res A) (l : list A) :
  (∀ i x, l !! i = Some x → f i = Ok x) → mapM f (seq 0 (length l)) = Ok l.
Proof.
  revert f. induction l as [|x l IH]; intros f Hf; [done|]. cbn [length seq mapM]. rewrite (Hf 0%nat x), res_bind_ret by done.
  rewrite <- fmap_S_seq. assert (mapM f (S <$> seq 0 (length l)) = mapM (fun i => f (S i)) (seq 0 (length l))) as ->.
  { clear. generalize (seq 0 (length l)). intros is_. induction is_ as [|i is_ IH]; [done|]. cbn. by rewrite IH. }
  rewrite IH; [done|]. intros i y Hy. by apply Hf.
Qed.

Lemma leafKeysIn_spec ks prefix :
  Z.of_nat (length (concat ks)) < 2 ^ 31 →
  leafKeysIn (ToFlat ks) prefix = Ok (filter (fun k => has_prefix k prefix = true) ks).
Proof.
  intros Hz. unfold leafKeysIn. rewrite ToFlat_arena.
  assert (flatLeaf.Count (Some {| buf := arena ks; offs := arenaOffs ks |}) = Z.of_nat (length ks)) as ->.
  { cbn [flatLeaf.Count offs]. unfold arenaOffs. cbn [length]. rewrite length_offsFrom. unfold maxInt.
    destruct (Z.gtb_spec (Z.of_nat (S (length ks)) - 1) 0); lia. }
  rewrite Nat2Z.id, mapM_lookup, res_bind_ret.
  - f_equal. apply list_filter_iff. intros k. by rewrite hasPrefix_eq.
  - intros i k Hi. unfold flatLeaf.Key. cbn [buf offs]. rewrite arenaAt_spec by done. by rewrite Hi.
Qed.

Lemma keysOfLeaf_spec s u ks prefix :
  store_ok s → tree_keys 0 (blobs s) u ks →
  ∃ s', keysOfLeaf prefix s u = Ok (filter (fun k => has_prefix k prefix = true) ks, s') ∧ reads s s'.
Proof.
  intros Hs (data&Hp&Hd&_&Hz). unfold keysOfLeaf.
  destruct (loadLeafKeys_spec s u data (ToFlat ks)) as (s'&->&Hr); [done|done| |].
  { rewrite DecodePageFlat_eq, Hd. unfold res_map. by rewrite res_bind_ret. }
  rewrite res_bind_ret. cbv beta iota. rewrite leafKeysIn_spec, res_bind_ret by done. eauto.
Qed.

(** *** Index pages *)

Lemma nodes_routes h b es kss i ks k :
  Forall2 (node h b) es kss → ascending (concat kss) → kss !! i = Some ks → k ∈ ks → routes es k i.
Proof.
  intros Hf Ha Hi Hk. split.
  - destruct (Forall2_lookup_r _ _ _ _ _ Hf Hi) as (e&He&[_ Hh]). exists e. split; [done|].
    pose proof (ascending_concat_part _ _ _ Ha Hi) as Hks. destruct ks as [|k0 ks]; [done|]. injection Hh as ->.
    apply elem_of_cons in Hk as [->|Hk]; [apply ble_refl|]. apply blt_le.
    apply ascending_cons in Hks as [Hks _]. rewrite Forall_forall in Hks. by apply Hks.
  - intros j e Hij Hj. destruct (Forall2_lookup_l _ _ _ _ _ Hf Hj) as (ks'&Hks'&[_ Hh]).
    eapply (ascending_concat_lt kss i j); [done..|]. destruct ks' as [|k0 ks']; [done|]. injection Hh as ->. left.
Qed.

Lemma nodes_ascending h b es kss : Forall2 (node h b) es kss → ascending (concat kss) → ascending (map EKey es).
Proof.
  induction 1 as [|e ks es kss [_ Hh] Hf IH]; [constructor|]. cbn [concat map]. intros (_&Ha&Hlt)%ascending_app.
  apply ascending_cons. split; [|by apply IH]. destruct ks as [|k0 ks]; [done|]. injection Hh as ->.
  clear IH Ha. induction Hf as [|e' ks' es kss [_ Hh'] Hf IH]; [constructor|]. cbn [map]. constructor.
  - apply Hlt; [left|]. cbn [concat]. destruct ks'; [done|]. injection Hh' as ->. left.
  - apply IH. intros a b' Hina Hinb. apply Hlt; [done|]. cbn [concat]. by apply elem_of_app; right.
Qed.

Lemma filter_concat_none (P : bytes → Prop) `{!∀ x, Decision (P x)} (kss : list (list bytes)) :
  (∀ i ks k, kss !! i = Some ks → k ∈ ks → ¬ P k) → filter P (concat kss) = [].
Proof.
  intros Hno. apply filter_none, Forall_forall. intros k (i&ks&Hi&Hk)%elem_of_concat. eauto.
Qed.

Lemma filter_concat_map (P : bytes → Prop) `{!∀ x, Decision (P x)} (kss : list (list bytes)) :
  filter P (concat kss) = concat (map (filter P) kss).
Proof. induction kss as [|ks kss IH]; [done|]. cbn [concat map]. by rewrite filter_app, IH. Qed.

(** The children in the range hold every key with the prefix. *)
Lemma prefix_children h b es kss prefix st en :
  Forall2 (node h b) es kss → ascending (concat kss) → Forall page_key (concat kss) → bytes_ok prefix →
  FindPrefixRange es prefix = (st, en) →
  filter (fun k => has_prefix k prefix = true) (concat kss)
  = concat (map (filter (fun k => has_prefix k prefix = true)) (take (en - st) (drop st kss))).
Proof.
  intros Hf Ha Hk Hp E. pose proof (nodes_ascending _ _ _ _ Hf Ha) as Hasc.
  destruct (FindPrefixRange_bounds es prefix st en Hasc E) as [Hse Hen].
  assert (∀ i ks k, kss !! i = Some ks → k ∈ ks → has_prefix k prefix = true → (st ≤ i < en)%nat) as Hin.
  { intros i ks k Hi Hin Hpre. eapply (FindPrefixRange_covers es prefix k i); [done|done| |done|by eapply nodes_routes|done].
    rewrite Forall_forall in Hk. apply Hk, elem_of_concat. eauto. }
  rewrite <- (take_drop st kss) at 1. rewrite <- (take_drop (en - st) (drop st kss)) at 1.
  rewrite !concat_app, !filter_app, (filter_concat_none _ (take st kss)), (filter_concat_none _ (drop (en - st) (drop st kss))).
  - cbn [app]. rewrite app_nil_r. apply filter_concat_map.
  - intros i ks k Hi Hink Hpre. rewrite !lookup_drop in Hi. specialize (Hin _ _ _ Hi Hink Hpre). lia.
  - intros i ks k Hi Hink Hpre. apply lookup_take_Some in Hi as [Hi ?]. specialize (Hin _ _ _ Hi Hink Hpre). lia.
Qed.

Lemma childrenIn_spec s msg u data es prefix st en :
  binv (blobs s) → pageAt (blobs s) u data → DeserializeIndexPage data = Ok es → FindPrefixRange es prefix = (st, en) →
  childrenIn s msg u prefix = Ok (map EUUID (take (en - st) (drop st es))).
Proof.
  intros Hb Hp Hd E. unfold childrenIn. rewrite (blobGet_page _ _ data), res_bind_ret by done. cbv beta iota.
  by rewrite Hd, res_bind_ret, E.
Qed.

Lemma gather_spec {R} (f : Store B → bytes → res (list R * Store B)) b s us outs :
  Forall2 (fun u out => ∀ s, store_ok s → blobs s = b → ∃ s', f s u = Ok (out, s') ∧ reads s s') us outs →
  store_ok s → blobs s = b → ∃ s', gather f s us = Ok (concat outs, s') ∧ reads s s'.
Proof.
  intros Hf. revert s. induction Hf as [|u out us outs Hu Hf IH]; intros s Hs Hb; cbn [gather concat].
  { exists s. split; [done|by apply reads_refl]. }
  destruct (Hu s Hs Hb) as (s1&->&Hr). rewrite res_bind_ret. cbv beta iota.
  destruct (IH s1) as (s2&->&Hr2); [apply Hr|by rewrite (reads_blobs _ _ Hr)|]. rewrite res_bind_ret. cbv beta iota.
  exists s2. split; [done|by eapply reads_trans].
Qed.

(** The nodes of the range, each with what its scan gives. *)
Lemma range_nodes h b es kss (P : bytes → Prop) `{!∀ x, Decision (P x)} st n :
  Forall2 (node h b) es kss →
  Forall2 (fun u out => ∃ ks, tree_keys h b u ks ∧ (∃ i, kss !! i = Some ks) ∧ out = filter P ks)
    (map EUUID (take n (drop st es))) (map (filter P) (take n (drop st kss))).
Proof.
  intros Hf. assert (Forall2 (fun e ks => node h b e ks ∧ ∃ i, kss !! i = Some ks) es kss) as Hf'.
  { apply Forall2_same_length_lookup. split; [by eapply Forall2_length|]. intros i e ks He Hks. split; [|eauto].
    by eapply Forall2_lookup_lr. }
  apply Forall2_fmap. apply Forall2_take, Forall2_drop. eapply Forall2_impl; [exact Hf'|]. intros e ks [[??] ?]. eauto.
Qed.

Lemma collectKeysFromIndex_spec below_ s u ks prefix :
  store_ok s → tree_keys (S below_) (blobs s) u ks → ascending ks → Forall page_key ks → bytes_ok prefix →
  ∃ s', collectKeysFromIndex below_ prefix s u = Ok (filter (fun k => has_prefix k prefix = true) ks, s') ∧ reads s s'.
Proof.
  revert s u ks. induction below_ as [|below_ IH]; intros s u ks Hs (data&es&kss&Hp&Hd&Hne&Hf&->) Ha Hk Hpre.
  all: cbn [collectKeysFromIndex]; destruct (FindPrefixRange es prefix) as [st en] eqn:E.
  all: rewrite (childrenIn_spec _ _ _ data es prefix st en), res_bind_ret by (apply Hs || done).
  all: rewrite (prefix_children _ _ _ _ _ _ _ Hf Ha Hk Hpre E); eapply gather_spec; [|done|done].
  all: eapply Forall2_impl; [by apply range_nodes|]; intros v out (ks&Hv&[i Hi]&->) s1 Hs1 Hb1; rewrite <- Hb1 in Hv.
  - by apply keysOfLeaf_spec.
  - apply IH; [done|done|by eapply ascending_concat_part| |done].
    apply Forall_forall. intros k Hin. rewrite Forall_forall in Hk. apply Hk, elem_of_concat. eauto.
Qed.

Lemma GetKeysInPrefix_spec s cf t ks prefix :
  store_ok s → trees s !! cf = Some t → Z.of_nat cf < numCf s → tree_repr (blobs s) t ks → keys_ok ks → bytes_ok prefix →
  ∃ s', GetKeysInPrefix s (Z.of_nat cf) prefix = Ok (filter (fun k => has_prefix k prefix = true) ks, s') ∧ reads s s'.
Proof.
  intros Hs Ht Hcf [(_&Hh&_) Hr] [Ha Hk] Hp. unfold GetKeysInPrefix. replace (Z.of_nat cf >=? numCf s) with false by lia.
  assert (Tree s (Z.of_nat cf) = t) as ->.
  { unfold Tree. pose proof (lookup_lt_Some _ _ _ Ht). replace ((_ <? 0) || _) with false by lia.
    rewrite Nat2Z.id. by apply nth_lookup_Some. }
  case_bool_decide as Hz.
  - destruct Hr as [[_ ->]|Hr]; [exists s; split; [done|by apply reads_refl]|]. by apply tree_keys_id in Hr as [_ ?].
  - destruct Hr as [[? _]|Hr]; [done|]. unfold is_u8 in Hh. destruct (Z.eqb_spec (Height t) 0) as [E|E].
    + rewrite E in Hr. by apply keysOfLeaf_spec.
    + apply collectKeysFromIndex_spec; [done| |done|done|done]. by replace (S (Z.to_nat (Height t - 1))) with (Z.to_nat (Height t)) by lia.
Qed.

(** ** Commits *)

Lemma elem_of_flushed c keysByCf cf k :
  k ∈ flushed c keysByCf cf ↔ k ∈ c cf ∨ ∃ keys, (cf, keys) ∈ keysByCf ∧ k ∈ keys.
Proof.
  revert c. induction keysByCf as [|[cf' keys] more IH]; intros c; cbn [flushed].
  { split; [by left|]. intros [?|(keys&Hin&_)]; [done|]. by apply not_elem_of_nil in Hin. }
  rewrite IH. setoid_rewrite elem_of_cons. destruct (Nat.eqb_spec cf cf') as [->|Hne].
  - rewrite elem_of_mergeKeys. naive_solver.
  - naive_solver.
Qed.

(** The store after a commit, seen from the one before. *)
Lemma CommitMerge_spec s c keysByCf now :
  store_ok s → sReadOnly s = false → 0 < now.1 * 1000000000 + now.2 < 2 ^ 63 →
  trees_repr (blobs s) (trees s) c → flush_ok (trees s) c keysByCf → Z.of_nat (length (trees s)) < 65536 →
  (flushCost c keysByCf ≤ room (blobs s))%nat →
  ∃ root s', CommitMerge s keysByCf now = Ok (root, s') ∧ store_ok s' ∧ numCf s' = numCf s
    ∧ currentRoot s' = root ∧ length (trees s') = length (trees s)
    ∧ keeps (blobs s) (blobs s') ∧ trees_repr (blobs s') (trees s') (flushed c keysByCf)
    ∧ ∃ data, blobGetRoot s' root = Ok (Some data) ∧ DeserializeRoot data = Ok (trees s').
Proof.
  intros Hs Hro Hnow Ht Hok Hlen Hroom. unfold CommitMerge, BaseTrees.
  destruct (PrepareMerge_spec s (trees s) c keysByCf now) as (ts'&root&s1&->&Hs1&Hb1&Ho&Hu&Ht'&Hl&_&_&data&Hd1&Hd2);
    [apply Hs|done..|]. rewrite res_bind_ret. cbv beta iota. destruct Hs as [Hb Hc Hco].
  exists root, (PublishTrees s1 ts' root). split; [done|]. split_and!; try done; [|by rewrite Hs1|..].
  - constructor; cbn; [done|by rewrite Hs1|]. rewrite Hs1. cbn. intros u e He. destruct (Hco u e He) as [Hus Hdec].
    split; [by apply Hu|]. intros data' (Hid&Hz&z&Hz1&Hz2). apply Hdec. split_and!; [done|done|]. exists z. split; [|done].
    rewrite <- Ho; [|done|done]. cbn in Hz1. congruence.
  - intros u Hid Hsome. apply Ho; [done|]. by apply obj_used.
  - exists data. by split.
Qed.


(** C7. A commit is copy-on-write and durable: every tree that was readable before it
    still holds the same keys after it, and loading the root it published gives
    back exactly the trees it published. *)
Theorem commit_keeps_snapshots s c keysByCf now :
  store_ok s → sReadOnly s = false → 0 < now.1 * 1000000000 + now.2 < 2 ^ 63 →
  trees_repr (blobs s) (trees s) c → flush_ok (trees s) c keysByCf → Z.of_nat (length (trees s)) < 65536 →
  (flushCost c keysByCf ≤ room (blobs s))%nat → Z.of_nat (length (trees s)) = numCf s →
  ∃ root s' s'', CommitMerge s keysByCf now = Ok (root, s')
    ∧ (∀ h u ks, tree_keys h (blobs s) u ks → tree_keys h (blobs s') u ks)
    ∧ LoadRoot s' root = Ok (true, s'') ∧ trees s'' = trees s' ∧ currentRoot s'' = root.
Proof.
  intros Hs Hro Hnow Ht Hok Hlen Hroom Hn.
  destruct (CommitMerge_spec s c keysByCf now) as (root&s'&E&Hs'&Hn'&Hcr&Hl&Hk&_&data&Hd1&Hd2); [done..|].
  exists root, s', (mkStore (blobs s') (padTrees (numCf s') (trees s')) (numCf s') (sReadOnly s') root (cache s')).
  split_and!; [done| | | |done].
  - intros h u ks. by apply tree_keys_keeps.
  - unfold LoadRoot. rewrite Hd1, res_bind_ret. cbv beta iota. by rewrite Hd2, res_bind_ret.
  - cbn. unfold padTrees. replace (Z.to_nat (numCf s') - length (trees s'))%nat with 0%nat by lia. apply app_nil_r.
Qed.
End commit.

(** ** A store to run on *)

Module samples.

(** Frames that store their contents. *)
#[export] Instance storedZstd : Zstd := {| EncodeAll := app zstdMagic; DecodeAll := fun d => Ok (drop 4 d) |}.
#[export] Instance storedZstd_laws : ZstdLaws.
Proof. by constructor. Qed.

Definition sampleIds (n : nat) : list bytes := map (fun i => be_put 16 (Z.of_nat i)) (seq 1 n).

Definition sampleStore : Store FileBlobStore :=
  mkStore (emptyStore (sampleIds 300)) [EmptyTree; EmptyTree] 2 false [] (newPageCache 1000000).

Definition sampleFlush : list (nat * list bytes) := [(0%nat, [bs "attribute-1"; bs "attribute-2"])].

Lemma sampleIds_ok n :
  Z.of_nat n < 2 ^ 100 → Forall (fun id => is_id id ∧ id ≠ zeroUUID) (sampleIds n) ∧ NoDup (sampleIds n).
Proof.
  intros Hn. unfold sampleIds.
  assert (∀ i, i ∈ seq 1 n → be_get (be_put 16 (Z.of_nat i)) = Z.of_nat i ∧ (1 ≤ i)%nat) as Hget.
  { intros i Hi%elem_of_seq. rewrite be_get_put. split; [apply Z.mod_small|]; lia. }
  split.
  - apply Forall_map, Forall_forall. intros i Hi. destruct (Hget i Hi) as [Hg H1]. split; [split; [apply length_be_put|apply be_put_ok]|].
    intros E. rewrite E in Hg. change (be_get zeroUUID) with 0 in Hg. lia.
  - apply NoDup_fmap_2_strong; [|apply NoDup_seq]. intros i j Hi Hj E. destruct (Hget i Hi), (Hget j Hj). apply Nat2Z.inj. congruence.
Qed.

Lemma sampleStore_ok :
  store_ok sampleStore ∧ trees_repr (blobs sampleStore) (trees sampleStore) (fun _ => [])
  ∧ flush_ok (trees sampleStore) (fun _ => []) sampleFlush.
Proof.
  split_and!.
  - constructor; cbn.
    + destruct (sampleIds_ok 300) as [??]; [lia|]. by apply emptyStore_inv.
    + apply newPageCache_inv. lia.
    + intros u e Hu. by rewrite lookup_empty in Hu.
  - intros cf t Ht. assert (t = EmptyTree) as -> by (destruct cf as [|[|cf]]; [by injection Ht as <-..|done]).
    split; [|split; constructor]. split; [by split_and!|by left].
  - split_and!.
    + apply NoDup_singleton.
    + constructor; [|constructor]. split.
      * repeat constructor.
      * repeat (constructor; [split; [by vm_compute|repeat constructor; by vm_compute]|]). constructor.
    + intros cf t keys [= -> ->]%list_elem_of_singleton [= <-]. split; [done|]. by vm_compute.
Qed.
End samples.
Import samples.


Lemma commit_keeps_snapshots_witness :
  ∃ root s' s'', CommitMerge sampleStore sampleFlush (1700000000, 0) = Ok (root, s')
    ∧ LoadRoot s' root = Ok (true, s'') ∧ trees s'' = trees s'.
Proof.
  destruct sampleStore_ok as (Hs&Ht&Hf).
  destruct (commit_keeps_snapshots sampleStore (fun _ => []) sampleFlush (1700000000, 0)) as (root&s'&s''&E&_&El&Et&_);
    [done|done|cbn; lia|done|done|cbn; lia|apply Nat.leb_le; by vm_compute|done|].
  eauto 10.
Defined.
