(* ===== verification/Gc.v ===== *)
(** * Garbage collection (go/internal/pagestore/gc.go)

    Which roots are kept, the walk that marks what they reach, and the sweep. *)

From S2P Require Import Prelude Pages FlatLeaf PageCache BlobStore PageStore PageTree PageCommit.

(** ** Definitions *)

(** [i] counts the roots passed so far; [latestUs] is the newest one's stamp. *)
Fixpoint classifyFrom (i : Z) (latestUs maxAgeUs maxRootCount : Z) (roots : list bytes) : list bytes * list bytes :=
  match roots with
  | [] => ([], [])
  | name :: roots' =>
      let us := ParseRootUs name in
      let tooOld := i64 (latestUs - us) >? maxAgeUs in
      let beyondCount := (maxRootCount >? 0) && (i >=? maxRootCount) in
      let '(keep, remove) := classifyFrom (i + 1) latestUs maxAgeUs maxRootCount roots' in
      if tooOld || beyondCount then (keep, name :: remove) else (name :: keep, remove)
  end.

Definition ClassifyRoots (roots : list bytes) (maxAgeSecs maxRootCount : Z) : list bytes * list bytes :=
  match roots with
  | [] => ([], [])
  | latest :: _ =>
      classifyFrom 0 (ParseRootUs latest) (i64 (i64 maxAgeSecs * 1000000)) maxRootCount roots
  end.

(** [binary.LittleEndian.PutUint64]. *)
Definition le8 (v : Z) : bytes := reverse (be_put 8 v).

Section gc.
Context {B : Type} `{BlobStore B} `{Zstd}.

(** A page that cannot be read or decoded ends the walk below it. *)
Fixpoint collectTreeUUIDs (s : Store B) (height : nat) (root : bytes) (live : gset bytes) : res (gset bytes) :=
  if bool_decide (root = zeroUUID) then Ok live
  else
    let live := {[root]} ∪ live in
    match height with
    | O => Ok live
    | S h =>
        match blobGet s root with
        | Ok (Some data) =>
            match DeserializeIndexPage data with
            | Ok entries =>
                foldRes (fun live e =>
                  let live := {[EUUID e]} ∪ live in
                  match h with
                  | O => Ok live
                  | S _ => collectTreeUUIDs s h (EUUID e) live
                  end) entries live
            | Err _ => Ok live
            | Panic => Panic
            | Diverge => Diverge
            end
        | Panic => Panic
        | Diverge => Diverge
        | _ => Ok live
        end
    end.

Definition HasOldRoots (s : Store B) (maxAgeSecs maxRootCount : Z) : bool :=
  match ListRoots (blobs s) with
  | Ok roots => negb (Nat.eqb (length (ClassifyRoots roots maxAgeSecs maxRootCount).2) 0)
  | _ => false
  end.

Definition markTree (s : Store B) (live : gset bytes) (t : CfTree) : res (gset bytes) :=
  collectTreeUUIDs s (Z.to_nat (Height t)) (RootUUID t) live.

(** The live set of the kept roots; a root that cannot be read stops the pass. *)
Definition markRoot (s : Store B) (live : gset bytes) (name : bytes) : res (gset bytes) :=
  match blobGetRoot s name with
  | Ok (Some data) =>
      ts ← DeserializeRoot data;
      foldRes (markTree s) ts live
  | Panic => Panic
  | Diverge => Diverge
  | _ => Err "root unreadable while building live-set"
  end.

Fixpoint deleteRoots (s : Store B) (names : list bytes) : Store B :=
  match names with
  | [] => s
  | name :: names' =>
      deleteRoots (match DeleteRoot (blobs s) name with Ok b => withBlobs s b | _ => s end) names'
  end.

Fixpoint sweep (s : Store B) (live : gset bytes) (dryRun : bool) (ids : list bytes) : Z * Store B :=
  match ids with
  | [] => (0, s)
  | id :: ids' =>
      if bool_decide (id ∈ live) || dryRun then sweep s live dryRun ids'
      else
        match Delete (blobs s) id with
        | Ok b => let '(n, s) := sweep (withBlobs s b) live dryRun ids' in (n + 1, s)
        | _ => sweep s live dryRun ids'
        end
  end.

(** [Ok (None, _)] is the nil report of a store without roots. *)
Definition GcFull (s : Store B) (maxAgeSecs maxRootCount : Z) (dryRun : bool) : res (option bytes * Store B) :=
  if sReadOnly s then Err "read-only"
  else
    roots ← ListRoots (blobs s);
    match roots with
    | [] => Ok (None, s)
    | _ =>
        let '(keep, remove) := ClassifyRoots roots maxAgeSecs maxRootCount in
        live ← foldRes (markRoot s) keep ∅;
        let s := if dryRun then s else deleteRoots s remove in
        all ← List_ (blobs s);
        let '(blobsRemoved, s) := sweep s live dryRun all in
        Ok (Some (le8 (Z.of_nat (length roots)) ++ le8 (Z.of_nat (length remove)) ++ le8 (Z.of_nat (length all))
                  ++ le8 blobsRemoved ++ le8 (Z.of_nat (base.size live)) ++ [if dryRun then 1 else 0]), s)
    end.
End gc.

(** ** Classification *)

(** A root is kept when it is young enough and among the newest. *)
Definition kept (i latestUs maxAgeUs maxRootCount : Z) (name : bytes) : Prop :=
  i64 (latestUs - ParseRootUs name) ≤ maxAgeUs ∧ (0 < maxRootCount → i < maxRootCount).

Lemma classifyFrom_spec i latestUs maxAgeUs maxRootCount roots keep remove :
  classifyFrom i latestUs maxAgeUs maxRootCount roots = (keep, remove) →
  keep `sublist_of` roots
  ∧ (∀ name, name ∈ remove ↔ ∃ j, roots !! j = Some name ∧ ¬ kept (i + Z.of_nat j) latestUs maxAgeUs maxRootCount name)
  ∧ (∀ name, name ∈ keep ↔ ∃ j, roots !! j = Some name ∧ kept (i + Z.of_nat j) latestUs maxAgeUs maxRootCount name).
Proof.
  revert i keep remove. induction roots as [|name roots IH]; intros i keep remove; cbn [classifyFrom].
  { intros [= <- <-]. split_and!; [constructor| |]; intros n; split; try (by intros Hn%not_elem_of_nil); by intros (?&?&_). }
  destruct (classifyFrom (i + 1) latestUs maxAgeUs maxRootCount roots) as [ks rs] eqn:E.
  destruct (IH _ _ _ E) as (Hsub&Hr&Hk). clear IH.
  assert (∀ (P : bytes → Prop) n, (∃ j, (name :: roots) !! j = Some n ∧ (kept (i + Z.of_nat j) latestUs maxAgeUs maxRootCount n ↔ P n))
    ↔ (n = name ∧ (kept i latestUs maxAgeUs maxRootCount n ↔ P n))
      ∨ (∃ j, roots !! j = Some n ∧ (kept (i + 1 + Z.of_nat j) latestUs maxAgeUs maxRootCount n ↔ P n))) as Hsplit.
  { intros P n. split.
    - intros ([|j]&Hj&HP); [left; injection Hj as ->; split; [done|]; by rewrite Z.add_0_r in HP|right].
      exists j. split; [done|]. by replace (i + 1 + Z.of_nat j) with (i + Z.of_nat (S j)) by lia.
    - intros [[-> HP]|(j&Hj&HP)]; [exists 0%nat; split; [done|]; by rewrite Z.add_0_r|].
      exists (S j). split; [done|]. by replace (i + Z.of_nat (S j)) with (i + 1 + Z.of_nat j) by lia. }
  assert (∀ n, (∃ j, (name :: roots) !! j = Some n ∧ ¬ kept (i + Z.of_nat j) latestUs maxAgeUs maxRootCount n)
    ↔ (n = name ∧ ¬ kept i latestUs maxAgeUs maxRootCount n) ∨ n ∈ rs) as Hrem.
  { intros n. rewrite Hr. specialize (Hsplit (fun _ => False) n). naive_solver. }
  assert (∀ n, (∃ j, (name :: roots) !! j = Some n ∧ kept (i + Z.of_nat j) latestUs maxAgeUs maxRootCount n)
    ↔ (n = name ∧ kept i latestUs maxAgeUs maxRootCount n) ∨ n ∈ ks) as Hkeep.
  { intros n. rewrite Hk. specialize (Hsplit (fun _ => True) n). naive_solver. }
  assert ((i64 (latestUs - ParseRootUs name) >? maxAgeUs) || ((maxRootCount >? 0) && (i >=? maxRootCount)) = false
    ↔ kept i latestUs maxAgeUs maxRootCount name) as Hc.
  { unfold kept. rewrite orb_false_iff, andb_false_iff. lia. }
  destruct ((i64 _ >? maxAgeUs) || _) eqn:Ec; intros [= <- <-].
  - split_and!; [by constructor| |]; intros n; rewrite ?Hrem, ?Hkeep, ?elem_of_cons; naive_solver.
  - split_and!; [by constructor| |]; intros n; rewrite ?Hrem, ?Hkeep, ?elem_of_cons; naive_solver.
Qed.

(** ** Mark and sweep *)

Section gc_correct.
Context {B : Type} `{HB : BlobStore B} `{HL : !BlobLaws B} `{HZ : Zstd} `{HZL : !ZstdLaws}.
Implicit Types (s : Store B) (b : B).

Definition agree (live : gset bytes) b b' : Prop := ∀ v, v ∈ live → is_id v → objs b' v = objs b v.

Lemma agree_mono live live' b b' : live ⊆ live' → agree live' b b' → agree live b b'.
Proof. intros Hsub Ha v Hv. apply Ha. set_solver. Qed.

Lemma pageAt_agree live b b' u data : agree live b b' → u ∈ live → pageAt b u data → pageAt b' u data.
Proof. intros Ha Hu (Hid&Hz&z&Hz1&Hz2). split_and!; [done|done|]. exists z. by rewrite Ha. Qed.

(** The walk of one child, as the loop over the entries makes it. *)
Definition markChild s (h : nat) (live : gset bytes) (e : IndexEntry) : res (gset bytes) :=
  let live := {[EUUID e]} ∪ live in
  match h with O => Ok live | S _ => collectTreeUUIDs s h (EUUID e) live end.

(** Every page of the tree is marked: a store that agrees on the marked
    identifiers holds the same tree. *)
Definition marks s (h : nat) (u : bytes) (ks : list bytes) (live live' : gset bytes) : Prop :=
  live ⊆ live' ∧ ∀ b', agree live' (blobs s) b' → tree_keys h b' u ks.

Lemma markChildren_spec s h es kss live :
  (∀ e ks live, node h (blobs s) e ks → ∃ live', markChild s h live e = Ok live' ∧ marks s h (EUUID e) ks live live') →
  Forall2 (node h (blobs s)) es kss →
  ∃ live', foldRes (markChild s h) es live = Ok live' ∧ live ⊆ live'
    ∧ ∀ b', agree live' (blobs s) b' → Forall2 (node h b') es kss.
Proof.
  intros Hm Hf. revert live. induction Hf as [|e ks es kss Hn Hf IH]; intros live; cbn [foldRes].
  { exists live. split; [done|]. split; [done|]. constructor. }
  destruct (Hm e ks live Hn) as (l1&->&Hs1&Ht1). rewrite res_bind_ret. destruct (IH l1) as (l2&->&Hs2&Ht2).
  exists l2. split; [done|]. split; [set_solver|]. intros b' Ha. constructor; [|by apply Ht2].
  split; [|apply Hn]. apply Ht1. by eapply agree_mono.
Qed.

Lemma collectTreeUUIDs_spec s h u ks live :
  binv (blobs s) → tree_keys h (blobs s) u ks →
  ∃ live', collectTreeUUIDs s h u live = Ok live' ∧ u ∈ live' ∧ marks s h u ks live live'.
Proof.
  intros Hb. revert u ks live. induction h as [|h IH]; intros u ks live Ht; pose proof (tree_keys_id _ _ _ _ Ht) as [_ Hz];
    cbn [collectTreeUUIDs]; rewrite bool_decide_false by done.
  - exists ({[u]} ∪ live). split; [done|]. split; [set_solver|]. split; [set_solver|]. intros b' Ha.
    destruct Ht as (data&Hp&Hd). exists data. split; [|done]. eapply pageAt_agree; [done|set_solver|done].
  - destruct Ht as (data&es&kss&Hp&Hd&Hne&Hf&->). rewrite (blobGet_page _ _ data), Hd by done.
    destruct (markChildren_spec s h es kss ({[u]} ∪ live)) as (l&E&Hsub&Hch); [|done|].
    { intros e ks live0 [Ht _]. unfold markChild. destruct h as [|h'].
      - destruct (IH (EUUID e) ks live0 Ht) as (l&E&_&Hm). cbn [collectTreeUUIDs] in E.
        rewrite bool_decide_false in E by (apply (tree_keys_id _ _ _ _ Ht)). exists l. split; [done|done].
      - destruct (IH (EUUID e) ks ({[EUUID e]} ∪ live0) Ht) as (l&E&_&Hs&Hm). exists l. split; [done|]. split; [set_solver|done]. }
    change (foldRes _ es _) with (foldRes (markChild s h) es ({[u]} ∪ live)). rewrite E.
    exists l. split; [done|]. split; [set_solver|]. split; [set_solver|]. intros b' Ha. exists data, es, kss.
    split_and!; [eapply pageAt_agree; [done|set_solver|done]|done|done|by apply Hch|done].
Qed.

(** A tree the walk can follow to its leaves. *)
Definition tree_whole b (t : CfTree) : Prop :=
  RootUUID t = zeroUUID ∨ ∃ ks, tree_keys (Z.to_nat (Height t)) b (RootUUID t) ks.

Definition tree_kept b b' (t : CfTree) : Prop :=
  ∀ ks, tree_keys (Z.to_nat (Height t)) b (RootUUID t) ks → tree_keys (Z.to_nat (Height t)) b' (RootUUID t) ks.

Lemma markTrees_spec s ts live :
  binv (blobs s) → Forall (tree_whole (blobs s)) ts →
  ∃ live', foldRes (markTree s) ts live = Ok live'
    ∧ live ⊆ live' ∧ ∀ b', agree live' (blobs s) b' → Forall (tree_kept (blobs s) b') ts.
Proof.
  intros Hb Hf. revert live. induction Hf as [|t ts Ht Hf IH]; intros live; cbn [foldRes].
  { exists live. split; [done|]. split; [done|]. constructor. }
  assert (∃ l1, collectTreeUUIDs s (Z.to_nat (Height t)) (RootUUID t) live = Ok l1 ∧ live ⊆ l1
    ∧ ∀ b', agree l1 (blobs s) b' → tree_kept (blobs s) b' t) as (l1&E&Hs1&Hk1).
  { destruct Ht as [Hz|[ks Ht]].
    - exists live. split; [|split; [done|]].
      + destruct (Z.to_nat (Height t)); cbn [collectTreeUUIDs]; by rewrite bool_decide_true.
      + intros b' _ ks Hks. by apply tree_keys_id in Hks as [_ ?].
    - destruct (collectTreeUUIDs_spec s _ _ ks live Hb Ht) as (l1&E&_&Hs1&_). exists l1. split; [done|]. split; [done|].
      intros b' Ha ks' Hks'. destruct (collectTreeUUIDs_spec s _ _ ks' live Hb Hks') as (l1'&E'&_&_&Hm).
      rewrite E in E'. injection E' as <-. by apply Hm. }
  change (collectTreeUUIDs s (Z.to_nat (Height t)) (RootUUID t) live) with (markTree s live t) in E.
  rewrite E, res_bind_ret. destruct (IH l1) as (l2&->&Hs2&Hk2). exists l2. split; [done|]. split; [set_solver|].
  intros b' Ha. constructor; [|by apply Hk2]. apply Hk1. by eapply agree_mono.
Qed.

(** The trees a named root lists. *)
Definition root_trees s (name : bytes) (ts : list CfTree) : Prop :=
  ∃ data, blobGetRoot s name = Ok (Some data) ∧ DeserializeRoot data = Ok ts.

Lemma markRoots_spec s names live :
  binv (blobs s) → (∀ name, name ∈ names → ∃ ts, root_trees s name ts ∧ Forall (tree_whole (blobs s)) ts) →
  ∃ live', foldRes (markRoot s) names live = Ok live' ∧ live ⊆ live'
    ∧ ∀ b' name ts, agree live' (blobs s) b' → name ∈ names → root_trees s name ts → Forall (tree_kept (blobs s) b') ts.
Proof.
  intros Hb. revert live. induction names as [|name names IH]; intros live Hw; cbn [foldRes].
  { exists live. split; [done|]. split; [done|]. by intros ??? _ Hn%not_elem_of_nil. }
  destruct (Hw name) as (ts&(data&Hg&Hd)&Hts); [left|].
  destruct (markTrees_spec s ts live Hb Hts) as (l1&E1&Hs1&Hk1).
  assert (markRoot s live name = Ok l1) as -> by (unfold markRoot; by rewrite Hg, Hd, res_bind_ret). rewrite res_bind_ret.
  destruct (IH l1) as (l2&->&Hs2&Hk2); [intros n Hn; apply Hw; by right|]. exists l2. split; [done|]. split; [set_solver|].
  intros b' n ts' Ha [->|Hn]%elem_of_cons Hr; [|by eapply Hk2].
  destruct Hr as (data'&Hg'&Hd'). rewrite Hg in Hg'. injection Hg' as <-. rewrite Hd in Hd'. injection Hd' as <-.
  apply Hk1. by eapply agree_mono.
Qed.

Lemma deleteRoots_spec s names :
  binv (blobs s) → Forall is_root_name names →
  let s' := deleteRoots s names in
  binv (blobs s') ∧ s' = withBlobs s (blobs s') ∧ (∀ u, is_id u → objs (blobs s') u = objs (blobs s) u)
  ∧ (∀ u, used (blobs s') u ↔ used (blobs s) u)
  ∧ ∀ n, is_root_name n → rootsOf (blobs s') n = if bool_decide (n ∈ names) then None else rootsOf (blobs s) n.
Proof.
  intros Hb Hn. revert s Hb. induction Hn as [|name names Hname Hn IH]; intros s Hb; cbn [deleteRoots].
  { split_and!; [done|by destruct s|done|done|]. intros n _. by rewrite bool_decide_false by (by apply not_elem_of_nil). }
  destruct (deleteRoot_law (blobs s) name Hb Hname) as (b1&->&Hb1&_&Ho&Hu&Hr).
  destruct (IH (withBlobs s b1) Hb1) as (Hb'&Hs'&Ho'&Hu'&Hr'). split_and!; [done|by rewrite Hs'| | |].
  - intros u Hu0. rewrite Ho' by done. by apply Ho.
  - intros u. by rewrite Hu', <- Hu.
  - intros n Hn'. rewrite Hr' by done. cbn. rewrite Hr by done.
    repeat case_bool_decide; try done; set_solver.
Qed.

Lemma sweep_spec s live ids :
  binv (blobs s) → Forall is_id ids →
  let s' := (sweep s live false ids).2 in
  binv (blobs s') ∧ s' = withBlobs s (blobs s')
  ∧ (∀ u, is_id u → objs (blobs s') u = if bool_decide (u ∈ ids ∧ u ∉ live) then None else objs (blobs s) u)
  ∧ (∀ u, used (blobs s') u ↔ used (blobs s) u)
  ∧ ∀ n, is_root_name n → rootsOf (blobs s') n = rootsOf (blobs s) n.
Proof.
  intros Hb Hi. revert s Hb. induction Hi as [|id ids Hid Hi IH]; intros s Hb; cbn [sweep].
  { split_and!; [done|by destruct s| |done|done]. intros u _. rewrite bool_decide_false; [done|]. by intros [?%not_elem_of_nil _]. }
  rewrite orb_false_r. case_bool_decide as Hlive.
  - destruct (IH s Hb) as (Hb'&Hs'&Ho'&Hu'&Hr'). split_and!; [done|done| |done|done]. intros u Hu. rewrite Ho' by done.
    assert (bool_decide (u ∈ ids ∧ u ∉ live) = bool_decide (u ∈ id :: ids ∧ u ∉ live)) as ->; [|done].
    apply bool_decide_ext. set_solver.
  - destruct (delete_law (blobs s) id Hb Hid) as (b1&->&Hb1&_&Ho&Hu&Hr).
    destruct (IH (withBlobs s b1) Hb1) as (Hb'&Hs'&Ho'&Hu'&Hr'). destruct (sweep (withBlobs s b1) live false ids) as [n s2]. cbn [snd] in *.
    split_and!; [done|by rewrite Hs'| | |].
    + intros u Hid'. rewrite Ho' by done. cbn. rewrite Ho by done. repeat case_bool_decide; try done; set_solver.
    + intros u. by rewrite Hu', <- Hu.
    + intros r Hn. rewrite Hr' by done. by apply Hr.
Qed.

(** *** Only what is reachable is marked *)

Inductive reaches s : nat → bytes → bytes → Prop :=
| reach_self h u : reaches s h u u
| reach_child h u data es e v :
    blobGet s u = Ok (Some data) → DeserializeIndexPage data = Ok es → e ∈ es →
    reaches s h (EUUID e) v → reaches s (S h) u v.

Lemma foldRes_marked {X} (f : gset bytes → X → res (gset bytes)) (P : X → bytes → Prop) l live live' :
  (∀ live live' x, f live x = Ok live' → ∀ v, v ∈ live' → v ∈ live ∨ P x v) →
  foldRes f l live = Ok live' → ∀ v, v ∈ live' → v ∈ live ∨ ∃ x, x ∈ l ∧ P x v.
Proof.
  intros Hf. revert live. induction l as [|x l IH]; intros live; cbn [foldRes]; [intros [= <-]; by left|].
  rewrite res_bind_Ok. intros (l1&E1&E2) v Hv. destruct (IH l1 E2 v Hv) as [Hv1|(y&Hy&HP)].
  - destruct (Hf _ _ _ E1 v Hv1) as [?|HP]; [by left|right; exists x; split; [left|done]].
  - right. exists y. split; [by right|done].
Qed.

Lemma collectTreeUUIDs_sound s h u live live' :
  collectTreeUUIDs s h u live = Ok live' → ∀ v, v ∈ live' → v ∈ live ∨ reaches s h u v.
Proof.
  revert u live live'. induction h as [|h IH]; intros u live live'; cbn [collectTreeUUIDs];
    (case_bool_decide; [intros [= <-]; by left|]).
  { intros [= <-] v [->%elem_of_singleton|?]%elem_of_union; [right; constructor|by left]. }
  assert (∀ v, v ∈ {[u]} ∪ live → v ∈ live ∨ reaches s (S h) u v) as Hself.
  { intros v [->%elem_of_singleton|?]%elem_of_union; [right; constructor|by left]. }
  destruct (blobGet s u) as [[data|]| | |] eqn:Eg; try done; [|by intros [= <-]|by intros [= <-]].
  destruct (DeserializeIndexPage data) as [es| | |] eqn:Ed; try done; [|by intros [= <-]].
  change (foldRes _ es ({[u]} ∪ live)) with (foldRes (markChild s h) es ({[u]} ∪ live)). intros E v Hv.
  destruct (foldRes_marked (markChild s h) (fun e v => reaches s h (EUUID e) v) es ({[u]} ∪ live) live') with v
    as [Hl|(e&He&Hr)]; [|done|done|by apply Hself|right; by eapply reach_child].
  intros l1 l2 e. unfold markChild. destruct h as [|h'].
  - intros [= <-] w [->%elem_of_singleton|?]%elem_of_union; [right; constructor|by left].
  - intros E' w Hw. destruct (IH _ _ _ E' w Hw) as [[->%elem_of_singleton|?]%elem_of_union|?]; [right; constructor|by left|by right].
Qed.

(** A blob below one of the trees that the named roots list. *)
Definition live_from s (names : list bytes) (v : bytes) : Prop :=
  ∃ name ts t, name ∈ names ∧ root_trees s name ts ∧ t ∈ ts ∧ reaches s (Z.to_nat (Height t)) (RootUUID t) v.

Lemma markRoots_sound s names live :
  foldRes (markRoot s) names ∅ = Ok live → ∀ v, v ∈ live → live_from s names v.
Proof.
  intros E v Hv.
  destruct (foldRes_marked (markRoot s)
    (fun name v => ∃ ts t, root_trees s name ts ∧ t ∈ ts ∧ reaches s (Z.to_nat (Height t)) (RootUUID t) v) names ∅ live) with v
    as [Hl|(name&Hn&ts&t&Hr)]; [|done|done|set_solver|exists name, ts, t; tauto].
  intros l1 l2 name. unfold markRoot. destruct (blobGetRoot s name) as [[data|]| | |] eqn:Eg; try done.
  rewrite res_bind_Ok. intros (ts&Ed&Ef) w Hw.
  destruct (foldRes_marked (markTree s) (fun t v => reaches s (Z.to_nat (Height t)) (RootUUID t) v) ts l1 l2) with w
    as [?|(t&Ht&Hr)]; [|exact Ef|done|by left|right; exists ts, t; split; [by exists data|done]].
  intros ??? E'. by apply collectTreeUUIDs_sound.
Qed.

(** *** The pass *)

Lemma blobGetRoot_same s s' name :
  binv (blobs s) → binv (blobs s') → is_root_name name → rootsOf (blobs s') name = rootsOf (blobs s) name →
  blobGetRoot s' name = blobGetRoot s name.
Proof. intros Hb Hb' Hn E. unfold blobGetRoot. by rewrite !getRoot_law, E by done. Qed.

(** The two lists part the roots. *)
Lemma ClassifyRoots_parts roots age count keep remove :
  ClassifyRoots roots age count = (keep, remove) → NoDup roots →
  keep `sublist_of` roots ∧ (∀ n, n ∈ roots ↔ n ∈ keep ∨ n ∈ remove) ∧ (∀ n, n ∈ keep → n ∉ remove).
Proof.
  intros E Hnd. destruct roots as [|latest roots0]; [injection E as <- <-; split_and!; [done|set_solver|set_solver]|].
  unfold ClassifyRoots in E. set (roots := latest :: roots0) in *. clearbody roots.
  apply classifyFrom_spec in E as (Hsub&Hr&Hk). split_and!; [done| |].
  - intros n. rewrite Hr, Hk. split.
    + intros [j Hj]%list_elem_of_lookup.
      destruct (decide (kept (0 + Z.of_nat j) (ParseRootUs latest) (i64 (i64 age * 1000000)) count n)); eauto.
    + intros [(j&Hj&_)|(j&Hj&_)]; by eapply list_elem_of_lookup_2.
  - intros n (j&Hj&Hkj)%Hk (j'&Hj'&Hkj')%Hr. by rewrite (NoDup_lookup _ _ _ _ Hnd Hj Hj') in Hkj.
Qed.

Lemma GcFull_spec s age count roots keep remove live :
  binv (blobs s) → sReadOnly s = false → ListRoots (blobs s) = Ok roots → roots ≠ [] →
  ClassifyRoots roots age count = (keep, remove) → foldRes (markRoot s) keep ∅ = Ok live →
  ∃ report s', GcFull s age count false = Ok (Some report, s') ∧ binv (blobs s') ∧ s' = withBlobs s (blobs s')
    ∧ ListRoots (blobs s') = Ok keep
    ∧ (∀ u, is_id u → objs (blobs s') u = if bool_decide (u ∈ live) then objs (blobs s) u else None)
    ∧ (∀ u, used (blobs s') u ↔ used (blobs s) u)
    ∧ ∀ name, name ∈ keep → blobGetRoot s' name = blobGetRoot s name.
Proof.
  intros Hb Hro Hl Hne Hc Hm. destruct (listRoots_law (blobs s) Hb) as (ns&Hns&Hasc&Hin).
  rewrite Hl in Hns. injection Hns as <-.
  destruct (ClassifyRoots_parts _ _ _ _ _ Hc (ascending_NoDup _ Hasc)) as (Hsub&Hparts&Hdisj).
  unfold GcFull. rewrite Hro, Hl, res_bind_ret. destruct roots as [|latest roots0]; [done|].
  set (roots := latest :: roots0) in *. clearbody roots. rewrite Hc. cbv beta iota. rewrite Hm, res_bind_ret. cbv zeta.
  destruct (deleteRoots_spec s remove Hb) as (Hb1&Hs1&Ho1&Hu1&Hr1).
  { apply Forall_forall. intros n Hn. apply Hin, Hparts. by right. }
  set (s1 := deleteRoots s remove) in *. clearbody s1.
  destruct (list_law (blobs s1) Hb1) as (ids&->&_&Hids). rewrite res_bind_ret.
  destruct (sweep_spec s1 live ids Hb1) as (Hb2&Hs2&Ho2&Hu2&Hr2).
  { apply Forall_forall. intros u Hu. by apply Hids. }
  destruct (sweep s1 live false ids) as [n s2]. cbn [snd] in *. eexists _, s2. split; [done|].
  assert (∀ m, is_root_name m → rootsOf (blobs s2) m = if bool_decide (m ∈ remove) then None else rootsOf (blobs s) m) as Hroots.
  { intros m Hm'. rewrite Hr2 by done. by apply Hr1. }
  split_and!; [done|by rewrite Hs2, Hs1| | |intros u; by rewrite Hu2|].
  - destruct (listRoots_law (blobs s2) Hb2) as (ns&->&Hasc2&Hin2). f_equal. apply ascending_ext; [done|by eapply ascending_sublist|].
    intros m. rewrite Hin2. split.
    + intros [Hmn Hs]. rewrite Hroots in Hs by done. case_bool_decide; [by destruct Hs|].
      assert (m ∈ roots) as [?|?]%Hparts by (by apply Hin); done.
    + intros Hk. assert (m ∈ roots) as [Hmn Hs]%Hin by (apply Hparts; by left). split; [done|]. rewrite Hroots by done.
      rewrite bool_decide_false; [done|by apply Hdisj].
  - intros u Hu. rewrite Ho2, Ho1 by done. destruct (decide (u ∈ live)) as [Hlive|Hlive].
    + rewrite bool_decide_false, bool_decide_true by (done || tauto). done.
    + rewrite (bool_decide_false (u ∈ live)) by done. destruct (decide (u ∈ ids)) as [Hi|Hi].
      * by rewrite bool_decide_true.
      * rewrite bool_decide_false by tauto. destruct (objs (blobs s) u) eqn:E; [|done]. exfalso. apply Hi, Hids.
        split; [done|]. rewrite Ho1 by done. eauto.
  - intros name Hk. assert (name ∈ roots) as [Hmn Hs]%Hin by (apply Hparts; by left). apply blobGetRoot_same; [done..|].
    rewrite Hroots by done. rewrite bool_decide_false; [done|by apply Hdisj].
Qed.

(** ** Properties *)


(** The walk is not fail-stop below a root: when the index page of a kept tree does not
    decode, [GcFull] reports success and has deleted every blob but that page. *)
Theorem gc_corrupt_index_loses s age count name t data msg remove :
  binv (blobs s) → sReadOnly s = false → ListRoots (blobs s) = Ok [name] →
  ClassifyRoots [name] age count = ([name], remove) → root_trees s name [t] →
  1 ≤ Height t → RootUUID t ≠ zeroUUID → blobGet s (RootUUID t) = Ok (Some data) → DeserializeIndexPage data = Err msg →
  ∃ report s', GcFull s age count false = Ok (Some report, s')
    ∧ ∀ u, is_id u → u ≠ RootUUID t → objs (blobs s') u = None.
Proof.
  intros Hb Hro Hl Hc (rd&Hg&Hd) Hh Hz Hp He.
  assert (foldRes (markRoot s) [name] ∅ = Ok ({[RootUUID t]} ∪ ∅)) as Em.
  { cbn [foldRes]. assert (markRoot s ∅ name = Ok ({[RootUUID t]} ∪ ∅)) as ->; [|by rewrite res_bind_ret].
    unfold markRoot. rewrite Hg, Hd, res_bind_ret. cbn [foldRes].
    assert (markTree s ∅ t = Ok ({[RootUUID t]} ∪ ∅)) as ->; [|by rewrite res_bind_ret].
    unfold markTree. destruct (Z.to_nat (Height t)) as [|h] eqn:E; [lia|]. cbn [collectTreeUUIDs].
    rewrite bool_decide_false by done. by rewrite Hp, He. }
  destruct (GcFull_spec s age count [name] [name] remove _ Hb Hro Hl ltac:(done) Hc Em) as (report&s'&E&_&_&_&Ho&_&_).
  exists report, s'. split; [done|]. intros u Hu Hne. rewrite Ho by done. rewrite bool_decide_false; [done|set_solver].
Qed.
End gc_correct.

(** Retention is a thousand times shorter than asked: a root more than [age]
    milliseconds older than the newest is removed, though [age] is the
    limit in seconds. *)
Theorem gc_retention_short s0 n0 s1 n1 age :
  0 < s0 * 1000000000 + n0 < 2 ^ 63 → 0 < s1 * 1000000000 + n1 < 2 ^ 63 → 0 ≤ age < 2 ^ 40 →
  (s0 * 1000000000 + n0) + age * 1000000 < s1 * 1000000000 + n1 →
  MakeRootName s0 n0 ∈ (ClassifyRoots [MakeRootName s1 n1; MakeRootName s0 n0] age 0).2.
Proof.
  intros H0 H1 Ha Hd. unfold ClassifyRoots. destruct (classifyFrom _ _ _ _ _) as [keep remove] eqn:E.
  apply classifyFrom_spec in E as (_&Hr&_). cbn [snd]. apply Hr. exists 1%nat. split; [done|]. intros [Hk _].
  rewrite !ParseRootUs_MakeRootName in Hk by done. rewrite (i64_small age), !i64_small in Hk by (unfold is_i64; lia). lia.
Qed.

Lemma gc_retention_short_witness :
  MakeRootName 1700000000 0 ∈ (ClassifyRoots [MakeRootName 1700000100 0; MakeRootName 1700000000 0] 86400 0).2.
Proof. apply (gc_retention_short 1700000000 0 1700000100 0 86400); lia. Defined.

(** *** Stores to collect *)

Import samples.

Definition sampleCommitted : Store FileBlobStore :=
  match CommitMerge sampleStore sampleFlush (1700000000, 0) with Ok (_, s) => s | _ => sampleStore end.


(** A root whose only tree has a one-byte index page, and a leaf beside it. *)
Definition sampleCorrupt : Store FileBlobStore :=
  mkStore {| files := <[pathOf (replicate 16 1) := compress [9]]> (<[pathOf (replicate 16 2) := compress (SerializePage [bs "attribute-1"])]>
               {[ [MakeRootName 1700000000 0] := compress (SerializeRoot [{| RootUUID := replicate 16 1; Height := 1; NumLeaves := 1 |}]) ]});
             readOnly := false; rand := [] |}
    [] 1 false [] (newPageCache 0).

Lemma gc_corrupt_index_loses_witness :
  ∃ report s', GcFull sampleCorrupt 86400 3 false = Ok (Some report, s') ∧ objs (blobs s') (replicate 16 2) = None.
Proof.
  destruct (gc_corrupt_index_loses sampleCorrupt 86400 3 (MakeRootName 1700000000 0)
    {| RootUUID := replicate 16 1; Height := 1; NumLeaves := 1 |} [9] "index page too short" []) as (report&s'&E&Ho);
    [|by vm_compute|by vm_compute|by vm_compute| |done|by vm_compute|by vm_compute|by vm_compute|].
  - constructor; cbn [sampleCorrupt blobs files readOnly rand]; [done| |constructor|].
    + by intros id Hid%not_elem_of_nil.
    + intros p [x Hx]. apply lookup_insert_Some in Hx as [[<- _]|[_ Hx]]; [left; eexists; split; [|done]; by split; [|repeat constructor]|].
      apply lookup_insert_Some in Hx as [[<- _]|[_ Hx]]; [left; eexists; split; [|done]; by split; [|repeat constructor]|].
      apply lookup_singleton_Some in Hx as [<- _]. right. eexists. split; [done|]. apply MakeRootName_root. lia.
  - eexists. split; [by vm_compute|]. by vm_compute.
  - exists report, s'. split; [done|]. apply Ho; [by split; [|repeat constructor]|done].
Defined.
