(* ===== verification/PageCursor.v ===== *)
(** * The page cursor (go/internal/pagestore/cursor.go)

    The lazy cursor over one tree, in a state-and-error monad: an error leaves
    the cursor as far as it got, which is what the adapter of
    go/internal/cursor/cursor.go goes on with. On trees of at most one index
    level it keeps the cursor laws; on higher trees it cannot leave a leaf. *)

From S2P Require Import Prelude Pages FlatLeaf PageCache BlobStore PageStore PageTree PageCommit NewestWins Memtable MinHeap Hydrated Cursors.

(** ** Definitions *)

(** An index page on the path and the position taken in it; the deepest is
    the head of the stack. *)
Record indexPos : Type := { ientries : list IndexEntry; ipos : nat }.

(** [pstore] is the store the cursor reads through. *)
Record PCursor (B : Type) : Type := mkPCursor {
  pstore : Store B;
  pAtEnd : bool;
  indexStack : list indexPos;
  leaf : option FlatLeaf;
  leafKV : option FlatLeafKV;
  leafIdx : Z;
  hasKey : bool;
  curKey : bytes;
  hasPair : bool;
  curPair : bytes * bytes;
  rootUUID : bytes;
  height : nat;
  isKv : bool;
}.
Arguments mkPCursor {B} _ _ _ _ _ _ _ _ _ _ _ _ _.
Arguments pstore {B} _.
Arguments pAtEnd {B} _.
Arguments indexStack {B} _.
Arguments leaf {B} _.
Arguments leafKV {B} _.
Arguments leafIdx {B} _.
Arguments hasKey {B} _.
Arguments curKey {B} _.
Arguments hasPair {B} _.
Arguments curPair {B} _.
Arguments rootUUID {B} _.
Arguments height {B} _.
Arguments isKv {B} _.

(** A method of the cursor: the state it leaves and how it returned. *)
Definition M (B : Type) (A : Type) : Type := PCursor B → PCursor B * res A.

#[export] Instance M_ret B : MRet (M B) := fun A a c => (c, Ok a).
#[export] Instance M_bind B : MBind (M B) := fun A A' f x c =>
  match x c with
  | (c', Ok a) => f a c'
  | (c', Err e) => (c', Err e)
  | (c', Panic) => (c', Panic)
  | (c', Diverge) => (c', Diverge)
  end.

Section cursor.
Context {B : Type} `{BlobStore B} `{Zstd}.
Implicit Types c : PCursor B.

Definition get {A} (f : PCursor B → A) : M B A := fun c => (c, Ok (f c)).
Definition modify (f : PCursor B → PCursor B) : M B unit := fun c => (f c, Ok tt).
Definition fail {A} (r : res A) : M B A := fun c => (c, r).

(** A read of the store. On an error the store is kept as it was: what the
    failed read did to the page cache does not show. *)
Definition load {A} (f : Store B → res (A * Store B)) : M B A := fun c =>
  match f (pstore c) with
  | Ok (a, s) => (mkPCursor s (pAtEnd c) (indexStack c) (leaf c) (leafKV c) (leafIdx c) (hasKey c) (curKey c)
                    (hasPair c) (curPair c) (rootUUID c) (height c) (isKv c), Ok a)
  | Err e => (c, Err e)
  | Panic => (c, Panic)
  | Diverge => (c, Diverge)
  end.

Definition setAtEnd (v : bool) c : PCursor B :=
  mkPCursor (pstore c) v (indexStack c) (leaf c) (leafKV c) (leafIdx c) (hasKey c) (curKey c)
    (hasPair c) (curPair c) (rootUUID c) (height c) (isKv c).
Definition setStack (st : list indexPos) c : PCursor B :=
  mkPCursor (pstore c) (pAtEnd c) st (leaf c) (leafKV c) (leafIdx c) (hasKey c) (curKey c)
    (hasPair c) (curPair c) (rootUUID c) (height c) (isKv c).
Definition setLeaf (l : FlatLeaf) c : PCursor B :=
  mkPCursor (pstore c) (pAtEnd c) (indexStack c) (Some l) (leafKV c) (leafIdx c) (hasKey c) (curKey c)
    (hasPair c) (curPair c) (rootUUID c) (height c) (isKv c).
Definition setLeafKV (l : FlatLeafKV) c : PCursor B :=
  mkPCursor (pstore c) (pAtEnd c) (indexStack c) (leaf c) (Some l) (leafIdx c) (hasKey c) (curKey c)
    (hasPair c) (curPair c) (rootUUID c) (height c) (isKv c).
Definition setIdx (i : Z) c : PCursor B :=
  mkPCursor (pstore c) (pAtEnd c) (indexStack c) (leaf c) (leafKV c) i (hasKey c) (curKey c)
    (hasPair c) (curPair c) (rootUUID c) (height c) (isKv c).
(** [hasKey = false; hasPair = false]. *)
Definition clearCur c : PCursor B :=
  mkPCursor (pstore c) (pAtEnd c) (indexStack c) (leaf c) (leafKV c) (leafIdx c) false (curKey c)
    false (curPair c) (rootUUID c) (height c) (isKv c).
Definition setKey (k : bytes) c : PCursor B :=
  mkPCursor (pstore c) (pAtEnd c) (indexStack c) (leaf c) (leafKV c) (leafIdx c) true k
    (hasPair c) (curPair c) (rootUUID c) (height c) (isKv c).
Definition setPair (p : bytes * bytes) c : PCursor B :=
  mkPCursor (pstore c) (pAtEnd c) (indexStack c) (leaf c) (leafKV c) (leafIdx c) (hasKey c) (curKey c)
    true p (rootUUID c) (height c) (isKv c).

Definition NewCursor (s : Store B) (root : bytes) (h : nat) (kv : bool) : PCursor B :=
  mkPCursor s (bool_decide (root = zeroUUID)) [] None None (-1) false [] false ([], []) root h kv.

Definition loadLeaf (u : bytes) : M B unit :=
  kv ← get isKv;
  (if kv : bool then pairs ← load (fun s => loadLeafPairs s u); modify (setLeafKV pairs)
   else keys ← load (fun s => loadLeafKeys s u); modify (setLeaf keys));;
  modify (setIdx (-1)).

Definition keyCount c : Z := if isKv c then flatLeafKV.Count (leafKV c) else flatLeaf.Count (leaf c).

(** Reading a key of the leaf; a nil leaf or an index past its end panics. *)
Definition firstKeyAt (i : Z) : M B bytes := fun c =>
  (c, if i <? 0 then Panic
      else if isKv c then match leafKV c with Some l => flatLeafKV.Key l (Z.to_nat i) | None => Panic end
      else match leaf c with Some l => flatLeaf.Key l (Z.to_nat i) | None => Panic end).

Definition cmpKeyAt (i : Z) (target : bytes) : M B Z := k ← firstKeyAt i; mret (CmpSeq k target).

(** [entries[0]] and the like. *)
Definition entryAt (entries : list IndexEntry) (i : nat) : M B IndexEntry :=
  fail (match entries !! i with Some e => Ok e | None => Panic end).

Definition push (entries : list IndexEntry) (p : nat) : M B unit :=
  modify (fun c => setStack ({| ientries := entries; ipos := p |} :: indexStack c) c).

Fixpoint descendFirst (h : nat) (cur : bytes) : M B unit :=
  match h with
  | O => loadLeaf cur
  | S h' =>
      entries ← load (fun s => loadIndexPage s cur);
      push entries 0;;
      e ← entryAt entries 0;
      descendFirst h' (EUUID e)
  end.
Definition descendToFirstLeaf (u : bytes) (h : nat) : M B unit :=
  modify (setStack []);; descendFirst h u.

(** The last entry whose key is not above the target, or the first. *)
Definition childPos (entries : list IndexEntry) (target : bytes) : nat :=
  let lo := bsearch (fun mid => match entries !! mid with
                                | Some e => CmpSeq (EKey e) target <=? 0
                                | None => false
                                end) (length entries) in
  if Nat.ltb 0 lo then (lo - 1)%nat else 0%nat.

Fixpoint descendAt (h : nat) (cur target : bytes) : M B unit :=
  match h with
  | O => loadLeaf cur
  | S h' =>
      entries ← load (fun s => loadIndexPage s cur);
      let p := childPos entries target in
      push entries p;;
      e ← entryAt entries p;
      descendAt h' (EUUID e) target
  end.
Definition descendToLeafAt (u : bytes) (h : nat) (target : bytes) : M B unit :=
  modify (setStack []);; descendAt h u target.

(** [for { entries := loadIndexPage(cur); ... }]: reads index pages until one is
    empty, then a leaf. *)
Fixpoint descendIndexPages (fuel : nat) (cur : bytes) : M B unit :=
  match fuel with
  | O => fail Diverge
  | S fuel' =>
      entries ← load (fun s => loadIndexPage s cur);
      match entries with
      | [] => loadLeaf cur
      | e :: _ => push entries 0;; descendIndexPages fuel' (EUUID e)
      end
  end.

(** The loop pops the positions that are used up. *)
Fixpoint nextLeafLoop (fuel : nat) (stack : list indexPos) : M B unit :=
  match stack with
  | [] => modify (setAtEnd true)
  | top :: rest =>
      let p := S (ipos top) in
      modify (setStack ({| ientries := ientries top; ipos := p |} :: rest));;
      match ientries top !! p with
      | Some e =>
          h ← get height;
          if Nat.eqb h 1 && Nat.eqb (length stack) 1 then loadLeaf (EUUID e)
          else descendIndexPages fuel (EUUID e)
      | None => modify (setStack rest);; nextLeafLoop fuel rest
      end
  end.
Definition advanceToNextLeaf (fuel : nat) : M B unit :=
  stack ← get indexStack; nextLeafLoop fuel stack.

Definition keyAtIdx : M B unit :=
  i ← get leafIdx;
  kv ← get isKv;
  if kv : bool then
    l ← get leafKV;
    match l with
    | None => fail Panic
    | Some l =>
        p ← fail (flatLeafKV.Pair l i);
        modify (setPair (default ([], []) p));;
        k ← firstKeyAt i;
        modify (setKey k)
    end
  else k ← firstKeyAt i; modify (setKey k).

Fixpoint advanceLoop (fuel : nat) : M B unit :=
  match fuel with
  | O => fail Diverge
  | S fuel' =>
      modify (fun c => setIdx (leafIdx c + 1) c);;
      i ← get leafIdx;
      n ← get keyCount;
      if i <? n then keyAtIdx
      else
        stack ← get indexStack;
        match stack with
        | [] => modify (setAtEnd true)
        | _ =>
            advanceToNextLeaf fuel;;
            atEnd ← get pAtEnd;
            if atEnd : bool then mret tt else advanceLoop fuel'
        end
  end.
Definition advance (fuel : nat) : M B unit :=
  atEnd ← get pAtEnd;
  if atEnd : bool then mret tt else modify clearCur;; advanceLoop fuel.

Definition ensure (fuel : nat) : M B unit :=
  hk ← get hasKey;
  atEnd ← get pAtEnd;
  if negb hk && negb atEnd then
    root ← get rootUUID;
    if bool_decide (root = zeroUUID) then modify (setAtEnd true)
    else
      n ← get keyCount;
      stack ← get indexStack;
      h ← get height;
      (if (n =? 0) && Nat.eqb (length stack) 0 then
         match h with
         | O => loadLeaf root
         | S _ => descendToFirstLeaf root h
         end
       else mret tt);;
      advance fuel
  else mret tt.

Definition Peek (fuel : nat) : M B (option bytes) :=
  ensure fuel;;
  get (fun c => if pAtEnd c then None else if hasKey c then Some (curKey c) else None).

Definition Next (fuel : nat) : M B (option bytes) :=
  ensure fuel;;
  k ← get (fun c => if hasKey c then Some (curKey c) else None);
  advance fuel;;
  mret k.

Definition PeekKv (fuel : nat) : M B (option (bytes * bytes)) :=
  ensure fuel;;
  get (fun c => if pAtEnd c then None else if hasPair c then Some (curPair c) else None).

Definition NextKv (fuel : nat) : M B (option (bytes * bytes)) :=
  ensure fuel;;
  p ← get (fun c => if hasPair c then Some (curPair c) else None);
  advance fuel;;
  mret p.

(** The binary search of [Seek] over the leaf's keys. *)
Fixpoint searchLeaf (fuel : nat) (lo hi : Z) (target : bytes) : M B Z :=
  match fuel with
  | O => fail Diverge
  | S fuel' =>
      if lo <? hi then
        let mid := Z.shiftr (lo + hi) 1 in
        c ← cmpKeyAt mid target;
        if c <? 0 then searchLeaf fuel' (mid + 1) hi target else searchLeaf fuel' lo mid target
      else mret lo
  end.

Definition startAt (lo : Z) : M B unit :=
  modify (setIdx (lo - 1));; modify clearCur;; modify (setAtEnd false).

(** [for !c.AtEnd { advance; if the key is not below the target, return }]. *)
Fixpoint seekLoop (fuel : nat) (target : bytes) : M B unit :=
  match fuel with
  | O => fail Diverge
  | S fuel' =>
      atEnd ← get pAtEnd;
      if atEnd : bool then modify (setAtEnd true)
      else
        advance fuel;;
        hk ← get hasKey;
        k ← get curKey;
        if hk && (CmpSeq k target >=? 0) then mret tt else seekLoop fuel' target
  end.

Definition inLeaf (n : Z) (target : bytes) : M B bool :=
  if n >? 0 then
    first ← cmpKeyAt 0 target;
    if first <=? 0 then last ← cmpKeyAt (n - 1) target; mret (last >=? 0) else mret false
  else mret false.

Definition SeekP (fuel : nat) (target : bytes) : M B unit :=
  root ← get rootUUID;
  if bool_decide (root = zeroUUID) then modify (setAtEnd true)
  else
    n ← get keyCount;
    here ← inLeaf n target;
    if here : bool then
      lo ← searchLeaf (S (Z.to_nat n)) 0 n target;
      startAt lo;; advance fuel
    else
      h ← get height;
      match h with
      | O => loadLeaf root
      | S _ => descendToLeafAt root h target
      end;;
      n ← get keyCount;
      lo ← searchLeaf (S (Z.to_nat n)) 0 n target;
      startAt lo;; seekLoop fuel target.

Definition Update (root : bytes) (h : nat) c : PCursor B :=
  mkPCursor (pstore c) (bool_decide (root = zeroUUID)) [] None None 0 false (curKey c) false (curPair c) root h (isKv c).
End cursor.

(** ** The adapter ([pageStoreCursor] of cursor.go)

    Its methods drop the errors of the cursor. The parameter bounds the loops
    of the cursor it wraps. *)

Record pageStoreCursor (B : Type) (fuel : nat) : Type := NewPageStoreCursor { ps : PCursor B }.
Arguments NewPageStoreCursor {B fuel} _.
Arguments ps {B fuel} _.

(** [k, ok, _ := ...] *)
Definition dropErr {A} (r : res (option A)) : option A := match r with Ok a => a | _ => None end.

#[export] Instance pageStoreCursor_cursor {B} `{BlobStore B} `{Zstd} fuel : Cursor (pageStoreCursor B fuel) := {
  Valid c := negb (pAtEnd (ps c));
  CurrentKey c := let '(p, r) := Peek fuel (ps c) in (NewPageStoreCursor p, dropErr r);
  CurrentPair c := let '(p, r) := PeekKv fuel (ps c) in (NewPageStoreCursor p, dropErr r);
  Step c := NewPageStoreCursor (Next fuel (ps c)).1;
  Seek c t := NewPageStoreCursor (SeekP fuel t (ps c)).1;
  Invalidate c := NewPageStoreCursor (setAtEnd true (ps c));
}.

(** Uses of a cursor, and reading it to its end. *)
Inductive move : Type := MPeek | MNext | MSeek (t : bytes).
Definition runMove {B} `{BlobStore B} `{Zstd} (fuel : nat) (o : move) : M B unit :=
  match o with
  | MPeek => Peek fuel;; mret tt
  | MNext => Next fuel;; mret tt
  | MSeek t => SeekP fuel t
  end.
Fixpoint runMoves {B} `{BlobStore B} `{Zstd} (fuel : nat) (os : list move) : M B unit :=
  match os with
  | [] => mret tt
  | o :: os => runMove fuel o;; runMoves fuel os
  end.
Fixpoint readAll {B} `{BlobStore B} `{Zstd} (fuel n : nat) : M B (list bytes) :=
  match n with
  | O => fail Diverge
  | S n' =>
      k ← Next fuel;
      match k with
      | None => mret []
      | Some k => ks ← readAll fuel n'; mret (k :: ks)
      end
  end.

(** ** Running the monad *)

Lemma M_step {B A A'} (m : M B A) (f : A → M B A') c c' a : m c = (c', Ok a) → (m ≫= f) c = f a c'.
Proof. intros E. unfold mbind, M_bind. by rewrite E. Qed.

Lemma M_get {B A A'} (g : PCursor B → A) (f : A → M B A') c : (get g ≫= f) c = f (g c) c.
Proof. reflexivity. Qed.

Lemma M_modify {B A'} (g : PCursor B → PCursor B) (f : unit → M B A') c : (modify g ≫= f) c = f tt (g c).
Proof. reflexivity. Qed.

Lemma M_fail {B A A'} (r : A) (f : A → M B A') c : (fail (Ok r) ≫= f) c = f r c.
Proof. reflexivity. Qed.

Definition setStore {B} (s : Store B) (c : PCursor B) : PCursor B :=
  mkPCursor s (pAtEnd c) (indexStack c) (leaf c) (leafKV c) (leafIdx c) (hasKey c) (curKey c)
    (hasPair c) (curPair c) (rootUUID c) (height c) (isKv c).

Lemma load_ok {B A} (f : Store B → res (A * Store B)) c a s :
  f (pstore c) = Ok (a, s) → load f c = (setStore s c, Ok a).
Proof. intros E. unfold load. by rewrite E. Qed.

(** ** Leaves *)

Lemma filter_split t pre post :
  (∀ x, x ∈ pre → x <b t) → (∀ x, x ∈ post → t <=b x) → filter (fun x => t <=b x) (pre ++ post) = post.
Proof.
  intros Hpre Hpost. rewrite filter_app, filter_none, filter_all; [done|by apply Forall_forall|].
  apply Forall_forall. intros x Hx Hle. by apply (proj1 (blt_not_le _ _) (Hpre x Hx)).
Qed.

Lemma filter_from k pre post :
  ascending (pre ++ k :: post) → filter (fun x => k <=b x) (pre ++ k :: post) = k :: post.
Proof.
  intros (_&Ha&Hlt)%ascending_app. apply ascending_cons in Ha as [Hk _].
  apply filter_split.
  - intros x Hx. apply Hlt; [done|left].
  - intros x [->|Hx]%elem_of_cons; [apply ble_refl|]. rewrite Forall_forall in Hk. by apply blt_le, Hk.
Qed.

Lemma Count_ToFlat ks : flatLeaf.Count (Some (ToFlat ks)) = Z.of_nat (length ks).
Proof.
  rewrite ToFlat_arena. unfold flatLeaf.Count, maxInt. cbn [FlatLeaf.offs]. unfold arenaOffs. cbn [length].
  rewrite length_offsFrom. destruct (_ >? _) eqn:E; lia.
Qed.

Lemma Key_ToFlat ks i k :
  Z.of_nat (length (concat ks)) < 2 ^ 31 → ks !! i = Some k → flatLeaf.Key (ToFlat ks) i = Ok k.
Proof.
  intros Hz Hi. rewrite ToFlat_arena. unfold flatLeaf.Key. cbn [FlatLeaf.buf FlatLeaf.offs]. rewrite arenaAt_spec by done.
  by rewrite Hi.
Qed.

Section laws.
Context {B : Type} `{HB : BlobStore B} `{HL : !BlobLaws B} `{HZ : Zstd} `{HZL : !ZstdLaws}.
Implicit Types (s : Store B) (b : B) (c : PCursor B).

(** ** The leaves of a tree *)

(** The leaves of a tree with at most one index level, left to right. *)
Record leaves c (es : list IndexEntry) (kss : list (list bytes)) : Prop := {
  lv_store : store_ok (pstore c);
  lv_keyonly : isKv c = false;
  lv_root : rootUUID c ≠ zeroUUID;
  lv_nodes : Forall2 (node 0 (blobs (pstore c))) es kss;
  lv_keys : keys_ok (concat kss);
  lv_shape : (height c = 0%nat ∧ map EUUID es = [rootUUID c])
             ∨ (height c = 1%nat ∧ es ≠ [] ∧ ∃ data, pageAt (blobs (pstore c)) (rootUUID c) data
                  ∧ DeserializeIndexPage data = Ok es);
}.

(** Reading pages leaves the tree as it is. *)
Definition same c c' : Prop :=
  reads (pstore c) (pstore c') ∧ isKv c' = isKv c ∧ rootUUID c' = rootUUID c ∧ height c' = height c.

Lemma same_refl c : store_ok (pstore c) → same c c.
Proof. intros Hs. split; [by apply reads_refl|done]. Qed.

Lemma same_trans c1 c2 c3 : same c1 c2 → same c2 c3 → same c1 c3.
Proof. intros (R1&?&?&?) (R2&?&?&?). split; [by eapply reads_trans|]. split_and!; congruence. Qed.

Lemma leaves_same c c' es kss : leaves c es kss → same c c' → leaves c' es kss.
Proof.
  intros [H1 H2 H3 H4 H5 H6] (Hr&Hk&Hu&Hh). pose proof (reads_blobs _ _ Hr) as Hb.
  constructor; rewrite ?Hb, ?Hk, ?Hu, ?Hh; try done. apply Hr.
Qed.

Lemma leaves_lookup c es kss j ks :
  leaves c es kss → kss !! j = Some ks →
  ∃ e, es !! j = Some e ∧ tree_keys 0 (blobs (pstore c)) (EUUID e) ks ∧ Z.of_nat (length (concat ks)) < 2 ^ 31
    ∧ ks ≠ [] ∧ head ks = Some (EKey e) ∧ ascending ks.
Proof.
  intros Hl Hk. destruct (Forall2_lookup_r _ _ _ _ _ (lv_nodes _ _ _ Hl) Hk) as (e&He&Ht&Hh).
  exists e. pose proof Ht as (data&_&_&Hne&Hz). split_and!; try done.
  eapply ascending_concat_part; [apply Hl|done].
Qed.

Lemma leaves_length c es kss : leaves c es kss → length es = length kss.
Proof. intros Hl. eapply Forall2_length, Hl. Qed.

(** The tree a root and a height name. *)
Lemma leaves_of s root h ks :
  store_ok s → root ≠ zeroUUID → (h ≤ 1)%nat → tree_keys h (blobs s) root ks → keys_ok ks →
  ∃ es kss, leaves (NewCursor s root h false) es kss ∧ ks = concat kss.
Proof.
  intros Hs Hr Hh Ht Hk. destruct h as [|[|h]]; [| |lia].
  - pose proof (tree_keys_nonempty _ _ _ _ Ht) as Hne. destruct ks as [|k ks]; [done|].
    exists [{| EUUID := root; EKey := k |}], [k :: ks]. cbn [concat]. rewrite app_nil_r. split; [|done].
    constructor; cbn; try done; [|by rewrite app_nil_r|by left]. by repeat constructor.
  - destruct Ht as (data&es&kss&Hp&Hd&Hne&Hf&->). exists es, kss. split; [|done]. constructor; cbn; try done. right. eauto.
Qed.

(** What the tree holds, as a scan of the store reads it. *)
Definition treeKeys c : list bytes :=
  if bool_decide (rootUUID c = zeroUUID) then []
  else match (match height c with
              | O => keysOfLeaf [] (pstore c) (rootUUID c)
              | S h => collectKeysFromIndex h [] (pstore c) (rootUUID c)
              end) with
       | Ok (ks, _) => ks
       | _ => []
       end.

Lemma filter_prefix_nil (l : list bytes) : filter (fun k => has_prefix k [] = true) l = l.
Proof. apply filter_all, Forall_forall. intros k _. by destruct k. Qed.

Lemma treeKeys_leaves c es kss : leaves c es kss → treeKeys c = concat kss.
Proof.
  intros Hl. destruct Hl as [Hs Hv Hr Hf [Ha Hk] Hsh]. unfold treeKeys. rewrite bool_decide_false by done.
  destruct Hsh as [[-> Hes]|(->&Hne&data&Hp&Hd)].
  - destruct es as [|e [|]]; [done| |done]. injection Hes as <-. apply Forall2_cons_inv_l in Hf as (ks&kss'&[Ht _]&Hf'&->).
    apply Forall2_nil_inv_l in Hf' as ->. cbn [concat]. rewrite app_nil_r.
    destruct (keysOfLeaf_spec (pstore c) (EUUID e) ks []) as (s'&E&_); [done|done|]. by rewrite E, filter_prefix_nil.
  - destruct (collectKeysFromIndex_spec 0 (pstore c) (rootUUID c) (concat kss) []) as (s'&E&_); [done| |done|done|constructor|].
    { cbn [tree_keys]. exists data, es, kss. done. }
    by rewrite E, filter_prefix_nil.
Qed.

Lemma loadLeaf_ok c es kss j e ks :
  leaves c es kss → es !! j = Some e → kss !! j = Some ks →
  ∃ s', loadLeaf (EUUID e) c = (setIdx (-1) (setLeaf (ToFlat ks) (setStore s' c)), Ok tt) ∧ reads (pstore c) s'.
Proof.
  intros Hl He Hk. destruct (leaves_lookup _ _ _ _ _ Hl Hk) as (e'&He'&(data&Hp&Hd&_)&_).
  assert (e' = e) as -> by congruence.
  destruct (loadLeafKeys_spec (pstore c) (EUUID e) data (ToFlat ks)) as (s'&E&Hr); [apply Hl|done| |].
  { rewrite DecodePageFlat_eq, Hd. unfold res_map. by rewrite res_bind_ret. }
  exists s'. split; [|done]. unfold loadLeaf. rewrite M_get, (lv_keyonly _ _ _ Hl).
  erewrite M_step; [|erewrite M_step; [|by apply load_ok]; done]. done.
Qed.

(** ** Positions *)

(** The leaf [j] is loaded, and the stack leads on from it. *)
Record loaded c (es : list IndexEntry) (kss : list (list bytes)) (j : nat) (ks : list bytes) : Prop := {
  ld_leaf : leaf c = Some (ToFlat ks);
  ld_keys : kss !! j = Some ks;
  ld_stack : (indexStack c = [] ∧ S j = length es)
             ∨ (height c = 1%nat ∧ indexStack c = [{| ientries := es; ipos := j |}]);
}.

(** What is left to read from the leaf [j] at [i]. *)
Definition restAt (kss : list (list bytes)) (j i : nat) (ks : list bytes) : list bytes :=
  drop i ks ++ concat (drop (S j) kss).

(** The cursor stands at the first of [rest], or at its end. *)
Definition stands c es kss (rest : list bytes) : Prop :=
  ∃ j ks, loaded c es kss j ks ∧
    ((pAtEnd c = true ∧ hasKey c = false ∧ rest = [])
     ∨ (∃ i, pAtEnd c = false ∧ hasKey c = true ∧ ks !! i = Some (curKey c) ∧ leafIdx c = Z.of_nat i
             ∧ rest = restAt kss j i ks)).

Lemma keyCount_loaded c es kss j ks :
  leaves c es kss → loaded c es kss j ks → keyCount c = Z.of_nat (length ks).
Proof. intros Hl Hd. unfold keyCount. rewrite (lv_keyonly _ _ _ Hl), (ld_leaf _ _ _ _ _ Hd). apply Count_ToFlat. Qed.

Lemma firstKeyAt_loaded c es kss j ks i k :
  leaves c es kss → loaded c es kss j ks → ks !! i = Some k → firstKeyAt (Z.of_nat i) c = (c, Ok k).
Proof.
  intros Hl Hd Hi. destruct (leaves_lookup _ _ _ _ _ Hl (ld_keys _ _ _ _ _ Hd)) as (e&_&_&Hz&_).
  unfold firstKeyAt. rewrite (lv_keyonly _ _ _ Hl), (ld_leaf _ _ _ _ _ Hd), Nat2Z.id, (Key_ToFlat _ _ k) by done.
  by replace (Z.of_nat i <? 0) with false by lia.
Qed.

Lemma restAt_end kss j ks : S j = length kss → restAt kss j (length ks) ks = [].
Proof. intros Hj. unfold restAt. rewrite drop_all. rewrite drop_ge by lia. done. Qed.

Lemma restAt_next kss j ks ks' : kss !! S j = Some ks' → restAt kss j (length ks) ks = restAt kss (S j) 0 ks'.
Proof. intros Hj. unfold restAt. rewrite drop_all, (drop_S _ _ _ Hj). done. Qed.

(** One turn of [advance] inside the leaf. *)
Lemma advanceLoop_here fuel c es kss j ks i k :
  leaves c es kss → loaded c es kss j ks → leafIdx c = Z.of_nat i - 1 → ks !! i = Some k →
  advanceLoop (S fuel) c = (setKey k (setIdx (Z.of_nat i) c), Ok tt).
Proof.
  intros Hl Hd Hi Hk. cbn [advanceLoop]. rewrite M_modify, M_get, M_get, Hi.
  replace (Z.of_nat i - 1 + 1) with (Z.of_nat i) by lia. cbn [leafIdx setIdx].
  change (keyCount (setIdx _ c)) with (keyCount c). rewrite (keyCount_loaded _ _ _ _ _ Hl Hd).
  pose proof (lookup_lt_Some _ _ _ Hk). replace (_ <? _) with true by lia.
  unfold keyAtIdx. rewrite M_get, M_get. cbn [isKv setIdx leafIdx]. rewrite (lv_keyonly _ _ _ Hl).
  erewrite M_step; [reflexivity|]. eapply (firstKeyAt_loaded (setIdx _ c)); [|by destruct Hd; constructor|done].
  eapply leaves_same; [done|]. split; [apply reads_refl, Hl|done].
Qed.

(** One turn past the end of the leaf. *)
Lemma advanceLoop_past fuel c es kss j ks :
  leaves c es kss → loaded c es kss j ks → leafIdx c = Z.of_nat (length ks) - 1 → pAtEnd c = false →
  (S j = length kss ∧ ∃ c', advanceLoop (S fuel) c = (c', Ok tt) ∧ same c c' ∧ loaded c' es kss j ks
     ∧ pAtEnd c' = true ∧ hasKey c' = hasKey c)
  ∨ ∃ ks' c', kss !! S j = Some ks' ∧ advanceLoop (S fuel) c = advanceLoop fuel c' ∧ same c c'
     ∧ loaded c' es kss (S j) ks' ∧ pAtEnd c' = false ∧ leafIdx c' = -1.
Proof.
  intros Hl Hd Hi He. cbn [advanceLoop]. rewrite M_modify, M_get, M_get. cbn [leafIdx setIdx indexStack].
  change (keyCount (setIdx _ c)) with (keyCount c). rewrite (keyCount_loaded _ _ _ _ _ Hl Hd).
  replace (_ <? _) with false by lia. rewrite M_get. set (c1 := setIdx _ c).
  assert (same c c1) as Hs1 by (split; [apply reads_refl, Hl|done]).
  destruct Hd as [Hlf Hks [[Hst Hj]|[Hh Hst]]]; cbn [indexStack c1 setIdx]; rewrite Hst.
  { left. rewrite <- (leaves_length _ _ _ Hl). split; [done|]. eexists. split; [reflexivity|]. split; [exact Hs1|].
    split_and!; [|done|done]. constructor; [done|done|by left]. }
  unfold advanceToNextLeaf. destruct (kss !! S j) as [ks'|] eqn:Hn.
  - right. destruct (leaves_lookup _ _ _ _ _ Hl Hn) as (e&Hne&_).
    set (c2 := setStack [{| ientries := es; ipos := S j |}] c1).
    assert (leaves c2 es kss) as Hl2 by (eapply leaves_same; [exact Hl|exact Hs1]).
    destruct (loadLeaf_ok c2 es kss (S j) e ks') as (s'&E&Hr); [done|done|done|].
    exists ks', (setIdx (-1) (setLeaf (ToFlat ks') (setStore s' c2))). split; [done|].
    split; [|split; [by eapply same_trans|split_and!; [|done|done]]].
    + erewrite M_step; [|rewrite M_get; cbn [indexStack c1 setIdx]; rewrite Hst; cbn [nextLeafLoop ientries ipos length];
        rewrite M_modify, Hne, M_get; cbn [height setStack c1 setIdx]; rewrite Hh; exact E].
      rewrite M_get. cbn [pAtEnd setIdx setLeaf setStore c2 setStack c1]. by rewrite He.
    + constructor; [done|done|right]. done.
  - left. pose proof (lookup_ge_None_1 _ _ Hn). pose proof (lookup_lt_Some _ _ _ Hks). split; [lia|].
    pose proof (leaves_length _ _ _ Hl). assert (es !! S j = None) as Hne by (apply lookup_ge_None_2; lia).
    exists (setAtEnd true (setStack [] c1)). split; [|split; [exact Hs1|]].
    + erewrite M_step; [|rewrite M_get; cbn [indexStack c1 setIdx]; rewrite Hst; cbn [nextLeafLoop ientries ipos length];
        rewrite M_modify, Hne, M_modify; reflexivity]. done.
    + split_and!; [|done|done]. constructor; [done|done|left]. split; [done|lia].
Qed.

Lemma same_leaves_of c c' es kss : leaves c es kss → reads (pstore c) (pstore c') → isKv c' = isKv c →
  rootUUID c' = rootUUID c → height c' = height c → same c c' ∧ leaves c' es kss.
Proof. intros Hl ????. assert (same c c') by done. split; [done|by eapply leaves_same]. Qed.

Lemma stands_here c es kss j ks i k :
  leaves c es kss → loaded c es kss j ks → pAtEnd c = false → ks !! i = Some k →
  stands (setKey k (setIdx (Z.of_nat i) c)) es kss (restAt kss j i ks).
Proof. intros Hl [? ? ?] He Hk. exists j, ks. split; [done|]. right. by exists i. Qed.

Lemma page_advance_spec fuel c es kss j ks i :
  leaves c es kss → loaded c es kss j ks → pAtEnd c = false → leafIdx c = Z.of_nat i - 1 → (i ≤ length ks)%nat →
  (2 ≤ fuel)%nat →
  ∃ c', advance fuel c = (c', Ok tt) ∧ same c c' ∧ stands c' es kss (restAt kss j i ks).
Proof.
  intros Hl Hd He Hi Hle Hf. destruct fuel as [|[|fuel]]; [lia|lia|].
  unfold advance. rewrite M_get, He, M_modify. set (c1 := clearCur c).
  destruct (same_leaves_of c c1 es kss) as [Hs1 Hl1]; [done|apply reads_refl, Hl|done..|].
  assert (loaded c1 es kss j ks) as Hd1 by (by destruct Hd; constructor).
  destruct (ks !! i) as [k|] eqn:Ek.
  { rewrite (advanceLoop_here _ c1 es kss j ks i k) by done. eexists. split; [done|]. split; [exact Hs1|].
    by apply stands_here. }
  assert (i = length ks) as -> by (apply lookup_ge_None_1 in Ek; lia).
  destruct (advanceLoop_past (S fuel) c1 es kss j ks) as [(Hj&c'&E&Hs'&Hd'&He'&Hk')|(ks'&c'&Hn&E&Hs'&Hd'&He'&Hi')]; [done..| |].
  - rewrite E. exists c'. split; [done|]. split; [exact (same_trans _ _ _ Hs1 Hs')|]. exists j, ks. split; [done|]. left.
    rewrite Hk', restAt_end by done. done.
  - pose proof (leaves_same _ _ _ _ Hl1 Hs') as Hl'. destruct (leaves_lookup _ _ _ _ _ Hl Hn) as (e&_&_&_&Hne&_).
    destruct ks' as [|k ks']; [done|]. rewrite E, (advanceLoop_here _ c' es kss (S j) (k :: ks') 0 k) by done.
    eexists. split; [done|]. split; [exact (same_trans _ _ _ Hs1 Hs')|]. rewrite (restAt_next _ _ _ _ Hn). by apply stands_here.
Qed.

(** The states the methods leave: nothing read yet, at the end, or at a key. *)
Definition fresh c : Prop :=
  leaf c = None ∧ indexStack c = [] ∧ hasKey c = false.
Definition placed c es kss : Prop :=
  fresh c ∨ ∃ j ks, loaded c es kss j ks ∧
    (pAtEnd c = true ∨ ∃ i, hasKey c = true ∧ ks !! i = Some (curKey c) ∧ leafIdx c = Z.of_nat i).

Definition left_ c : list bytes :=
  if pAtEnd c then [] else if hasKey c then filter (fun k => curKey c <=b k) (treeKeys c) else treeKeys c.

Lemma concat_split kss j i (ks : list bytes) :
  kss !! j = Some ks → concat kss = (concat (take j kss) ++ take i ks) ++ restAt kss j i ks.
Proof.
  intros Hj. rewrite <- (take_drop_middle kss j ks) at 1 by done. rewrite concat_app. cbn [concat].
  rewrite <- (take_drop i ks) at 1. unfold restAt. by rewrite <- !app_assoc.
Qed.

Lemma stands_placed c es kss rest : leaves c es kss → stands c es kss rest → placed c es kss ∧ left_ c = rest.
Proof.
  intros Hl (j&ks&Hd&[(He&Hk&->)|(i&He&Hk&Hi&Hx&->)]); unfold left_; rewrite He.
  - split; [|done]. right. exists j, ks. auto.
  - split; [right; exists j, ks; split; [done|]; right; eauto|]. rewrite Hk, (treeKeys_leaves _ _ _ Hl).
    pose proof (proj1 (lv_keys _ _ _ Hl)) as Ha. rewrite (concat_split kss j i ks) in Ha |- * by apply Hd. unfold restAt in Ha |- *.
    rewrite (drop_S _ _ _ Hi) in Ha |- *. cbn [app] in Ha |- *. by apply filter_from.
Qed.

Lemma left_placed c es kss j ks i :
  leaves c es kss → loaded c es kss j ks → pAtEnd c = false → hasKey c = true → ks !! i = Some (curKey c) →
  leafIdx c = Z.of_nat i → left_ c = restAt kss j i ks ∧ head (left_ c) = Some (curKey c).
Proof.
  intros Hl Hd He Hk Hi Hx. destruct (stands_placed c es kss (restAt kss j i ks)) as [_ ->]; [done|exists j, ks; eauto 10|].
  split; [done|]. unfold restAt. by rewrite (drop_S _ _ _ Hi).
Qed.

(** Loading the first leaf. *)
Lemma loadFirst_spec c es kss :
  leaves c es kss → indexStack c = [] → pAtEnd c = false →
  ∃ c' ks, (match height c with O => loadLeaf (rootUUID c) | S _ => descendToFirstLeaf (rootUUID c) (height c) end) c = (c', Ok tt)
    ∧ same c c' ∧ loaded c' es kss 0 ks ∧ pAtEnd c' = false ∧ leafIdx c' = -1.
Proof.
  intros Hl Hst He. pose proof Hl as [Hs Hv Hr Hf _ Hsh]. destruct Hsh as [[Hh Hes]|(Hh&Hne&data&Hp&Hd)]; rewrite Hh.
  - destruct es as [|e [|]]; [done| |done]. injection Hes as He1.
    destruct (Forall2_lookup_l _ _ _ 0 e Hf eq_refl) as (ks&Hk&_).
    destruct (loadLeaf_ok c [e] kss 0 e ks) as (s'&E&Hrd); [done..|]. rewrite He1 in E.
    eexists _, ks. split; [exact E|]. split; [done|]. split_and!; [|done|done]. constructor; [done|done|by left].
  - destruct es as [|e es]; [done|]. destruct (Forall2_lookup_l _ _ _ 0 e Hf eq_refl) as (ks&Hk&_).
    destruct (loadIndexPage_spec (pstore c) (rootUUID c) data (e :: es)) as (s1&E1&Hr1); [done..|].
    set (c2 := setStack [{| ientries := e :: es; ipos := 0 |}] (setStore s1 (setStack [] c))).
    destruct (same_leaves_of c c2 (e :: es) kss) as [Hs2 Hl2]; [done..|].
    destruct (loadLeaf_ok c2 (e :: es) kss 0 e ks) as (s'&E&Hrd); [done..|].
    eexists _, ks. split.
    + unfold descendToFirstLeaf. rewrite M_modify. cbn [descendFirst].
      erewrite M_step; [|by apply load_ok]. unfold push. rewrite M_modify.
      erewrite M_step; [|reflexivity]. exact E.
    + split; [by eapply same_trans; [exact Hs2|]|]. split_and!; [|done|done]. constructor; [done|done|by right].
Qed.

Lemma restAt_all kss ks : kss !! 0%nat = Some ks → restAt kss 0 0 ks = concat kss.
Proof. destruct kss as [|k kss]; [done|]. by intros [= ->]. Qed.

(** [ensure] places a cursor that has read nothing at the first key, and leaves
    any other alone. *)
Lemma ensure_spec fuel c es kss :
  leaves c es kss → placed c es kss → (2 ≤ fuel)%nat →
  ∃ c', ensure fuel c = (c', Ok tt) ∧ same c c' ∧ placed c' es kss ∧ left_ c' = left_ c ∧ pAtEnd c' = pAtEnd c
    ∧ (pAtEnd c = false → stands c' es kss (left_ c)).
Proof.
  intros Hl Hp Hf. pose proof (same_refl c (lv_store _ _ _ Hl)) as Hsame. unfold ensure. rewrite M_get, M_get.
  destruct (pAtEnd c) eqn:He.
  { rewrite andb_false_r. exists c. done. }
  destruct (hasKey c) eqn:Hk.
  { cbn [negb andb]. exists c. split_and!; try done. intros _. destruct Hp as [(_&_&?)|(j&ks&Hd&[?|(i&_&Hi&Hx)])]; [congruence..|].
    destruct (left_placed c es kss j ks i) as [-> _]; try done. exists j, ks. split; [done|]. right. eauto 10. }
  destruct Hp as [(Hlf&Hst&_)|(j&ks&Hd&[?|(i&?&_)])]; [|congruence..].
  cbn [negb andb]. rewrite M_get, bool_decide_false by apply Hl. rewrite M_get, M_get, M_get.
  assert (keyCount c = 0) as -> by (unfold keyCount; rewrite (lv_keyonly _ _ _ Hl), Hlf; done). rewrite Hst.
  destruct (loadFirst_spec c es kss) as (c1&ks&E&Hs1&Hd1&He1&Hi1); [done..|].
  erewrite M_step; [|exact E]. pose proof (leaves_same _ _ _ _ Hl Hs1) as Hl1.
  destruct (page_advance_spec fuel c1 es kss 0 ks 0) as (c2&E2&Hs2&Hst2); [done|done|done|done|lia|done|].
  pose proof (same_trans _ _ _ Hs1 Hs2) as Hs. pose proof (leaves_same _ _ _ _ Hl Hs) as Hl2.
  destruct (stands_placed _ _ _ _ Hl2 Hst2) as [Hp2 Hleft].
  assert (left_ c = concat kss) as Hc by (unfold left_; rewrite He, Hk; by apply treeKeys_leaves with es).
  rewrite restAt_all in Hleft, Hst2 by apply Hd1. exists c2. split_and!; [done|apply Hs..|done|congruence| |].
  - destruct Hst2 as (?&?&_&[(_&_&Hnil)|(i&?&_)]); [|done]. destruct kss as [|ks0 kss]; [by pose proof (ld_keys _ _ _ _ _ Hd1)|].
    destruct (leaves_lookup c es (ks0 :: kss) 0 ks0) as (?&_&_&_&?&_); [done..|]. by destruct ks0.
  - intros _. by rewrite Hc.
Qed.

(** ** Seeking *)

(** The keys around a position fall on both sides of the target. *)
Definition splits (kss : list (list bytes)) (j r : nat) (ks : list bytes) (t : bytes) : Prop :=
  (∀ x, x ∈ concat (take j kss) ++ take r ks → x <b t) ∧ (∀ x, x ∈ restAt kss j r ks → t <=b x).

Lemma filter_splits kss j r ks t :
  kss !! j = Some ks → splits kss j r ks t → filter (fun k => t <=b k) (concat kss) = restAt kss j r ks.
Proof. intros Hj [H1 H2]. rewrite (concat_split kss j r ks) by done. by apply filter_split. Qed.

Lemma searchLeaf_spec fuel lo hi c es kss j ks t :
  leaves c es kss → loaded c es kss j ks → (lo ≤ hi ≤ length ks)%nat → (hi - lo < fuel)%nat →
  (∀ i k, (i < lo)%nat → ks !! i = Some k → k <b t) → (∀ i k, (hi ≤ i)%nat → ks !! i = Some k → t <=b k) →
  ∃ r, searchLeaf fuel (Z.of_nat lo) (Z.of_nat hi) t c = (c, Ok (Z.of_nat r)) ∧ (r ≤ length ks)%nat
    ∧ (∀ x, x ∈ take r ks → x <b t) ∧ (∀ x, x ∈ drop r ks → t <=b x).
Proof.
  intros Hl Hd. destruct (leaves_lookup _ _ _ _ _ Hl (ld_keys _ _ _ _ _ Hd)) as (_&_&_&_&_&_&Ha).
  revert lo hi. induction fuel as [|fuel IH]; intros lo hi Hle Hf Hlo Hhi; [lia|]. cbn [searchLeaf].
  destruct (Z.ltb_spec (Z.of_nat lo) (Z.of_nat hi)) as [Hlt|Hge].
  - assert (Z.shiftr (Z.of_nat lo + Z.of_nat hi) 1 = Z.of_nat ((lo + hi) / 2)) as ->.
    { rewrite Z.shiftr_div_pow2 by lia. rewrite Nat2Z.inj_div, Nat2Z.inj_add. done. }
    set (mid := ((lo + hi) / 2)%nat). assert (lo ≤ mid < hi)%nat as Hmid.
    { unfold mid. split; [apply Nat.div_le_lower_bound; lia|apply Nat.Div0.div_lt_upper_bound; lia]. }
    clearbody mid. destruct (lookup_lt_is_Some_2 ks mid) as [k Hk]; [lia|].
    unfold cmpKeyAt. erewrite M_step; [|erewrite M_step; [reflexivity|by eapply firstKeyAt_loaded]]. rewrite CmpSeq_lt.
    case_bool_decide as Hc.
    + replace (Z.of_nat mid + 1) with (Z.of_nat (S mid)) by lia. apply IH; [lia|lia| |done].
      intros i k' Hi Hk'. destruct (decide (i = mid)) as [->|]; [by simplify_eq|].
      eapply blt_trans; [|exact Hc]. eapply (ascending_lookup ks i mid); [done|lia|done|done].
    + apply IH; [lia|lia|done|]. intros i k' Hi Hk'. assert (t <=b k) as Hck by (by apply ble_not_lt).
      destruct (decide (i = mid)) as [->|]; [by simplify_eq|].
      eapply ble_trans; [exact Hck|]. apply blt_le. eapply (ascending_lookup ks mid i); [done|lia|done|done].
  - exists lo. split; [done|]. split; [lia|]. split.
    + intros x (i&Hi)%list_elem_of_lookup. apply lookup_take_Some in Hi as [Hi ?]. by eapply Hlo.
    + intros x (i&Hi)%list_elem_of_lookup. rewrite lookup_drop in Hi. eapply Hhi; [|exact Hi]. lia.
Qed.

Lemma elem_of_restAt kss j r ks x :
  x ∈ restAt kss j r ks ↔ x ∈ drop r ks ∨ ∃ i ks', (j < i)%nat ∧ kss !! i = Some ks' ∧ x ∈ ks'.
Proof.
  unfold restAt. rewrite elem_of_app, elem_of_concat. setoid_rewrite lookup_drop. split; intros [?|H]; auto; right.
  - destruct H as (i&ks'&Hi&Hx). exists (S j + i)%nat, ks'. split; [lia|done].
  - destruct H as (i&ks'&Hj&Hi&Hx). exists (i - S j)%nat, ks'. replace (S j + (i - S j))%nat with i by lia. done.
Qed.

Lemma splits_intro kss j r ks t :
  (∀ i ks' x, (i < j)%nat → kss !! i = Some ks' → x ∈ ks' → x <b t) →
  (∀ i ks' x, (j < i)%nat → kss !! i = Some ks' → x ∈ ks' → t <=b x) →
  (∀ x, x ∈ take r ks → x <b t) → (∀ x, x ∈ drop r ks → t <=b x) → splits kss j r ks t.
Proof.
  intros Hb Ha Ht Hd. split.
  - intros x [Hx|Hx]%elem_of_app; [|by apply Ht]. apply elem_of_concat in Hx as (i&ks'&Hi&Hx).
    apply lookup_take_Some in Hi as [Hi ?]. eauto.
  - intros x [Hx|(i&ks'&?&?&?)]%elem_of_restAt; eauto.
Qed.

Lemma startAt_spec c es kss j ks r :
  leaves c es kss → loaded c es kss j ks →
  ∃ c', startAt (Z.of_nat r) c = (c', Ok tt) ∧ same c c' ∧ loaded c' es kss j ks ∧ pAtEnd c' = false
    ∧ leafIdx c' = Z.of_nat r - 1.
Proof.
  intros Hl [? ? ?]. eexists. split; [reflexivity|]. split; [|by split_and!].
  split; [apply reads_refl, Hl|done].
Qed.

(** Reading on from the position of the search. *)
Lemma seekLoop_spec fuel c es kss j ks r t :
  leaves c es kss → loaded c es kss j ks → pAtEnd c = false → leafIdx c = Z.of_nat r - 1 → (r ≤ length ks)%nat →
  splits kss j r ks t → (2 ≤ fuel)%nat →
  ∃ c', seekLoop fuel t c = (c', Ok tt) ∧ same c c' ∧ stands c' es kss (restAt kss j r ks).
Proof.
  intros Hl Hd He Hi Hle [_ Hsp] Hf. destruct fuel as [|fuel]; [lia|].
  destruct (page_advance_spec (S fuel) c es kss j ks r) as (c1&E&Hs&Hst); [done..|].
  cbn [seekLoop]. rewrite M_get, He. erewrite M_step; [|exact E]. rewrite M_get, M_get.
  pose proof Hst as (j'&ks'&Hd'&[(He'&Hk'&Hnil)|(i&He'&Hk'&Hi'&Hx&Hr)]); rewrite Hk'; cbn [andb].
  - destruct fuel as [|fuel]; [lia|]. cbn [seekLoop]. rewrite M_get, He'. eexists. split; [reflexivity|].
    split; [exact Hs|]. exists j', ks'. split; [by destruct Hd'; constructor|]. by left.
  - rewrite CmpSeq_ge, bool_decide_true; [by exists c1|]. apply Hsp. rewrite Hr. unfold restAt. rewrite (drop_S _ _ _ Hi'). left.
Qed.

Lemma childPos_spec b es kss t :
  Forall2 (node 0 b) es kss → es ≠ [] → ascending (concat kss) →
  (childPos es t < length es)%nat
  ∧ (∀ i ks x, (i < childPos es t)%nat → kss !! i = Some ks → x ∈ ks → x <b t)
  ∧ (∀ i ks x, (childPos es t < i)%nat → kss !! i = Some ks → x ∈ ks → t <=b x).
Proof.
  intros Hf Hne Ha. unfold childPos. set (p := fun mid => match es !! mid with Some e => _ | None => _ end).
  assert (∀ i e, es !! i = Some e → p i = bool_decide (EKey e <=b t)) as Hp.
  { intros i e E. unfold p. by rewrite E, CmpSeq_le. }
  pose proof (nodes_ascending _ _ _ _ Hf Ha) as Hk.
  destruct (bsearch_spec p (length es)) as (Hb&Hlo&Hhi).
  { intros i j Hij Hj Ht. destruct (lookup_lt_is_Some_2 es j Hj) as [ej Ej]. destruct (lookup_lt_is_Some_2 es i) as [ei Ei]; [lia|].
    rewrite (Hp _ _ Ej) in Ht. rewrite (Hp _ _ Ei). apply bool_decide_eq_true in Ht. apply bool_decide_eq_true.
    destruct (decide (i = j)) as [->|]; [by simplify_eq|]. eapply ble_trans; [|exact Ht]. apply blt_le.
    eapply (ascending_lookup (map EKey es) i j); [done|lia| |]; by rewrite list_lookup_fmap, ?Ei, ?Ej. }
  set (lo := bsearch p (length es)) in *. clearbody lo. assert (0 < length es)%nat by (destruct es; [done|cbn; lia]).
  split; [destruct (Nat.ltb_spec 0 lo); lia|]. split.
  - intros i ks x Hi Hks Hx. destruct (Nat.ltb_spec 0 lo) as [H0|]; [|lia].
    destruct (lookup_lt_is_Some_2 es (lo - 1)) as [e Ee]; [lia|].
    destruct (nodes_routes _ _ _ _ i ks x Hf Ha Hks Hx) as [_ Hr]. eapply blt_le_trans; [apply (Hr (lo - 1)%nat e); [lia|done]|].
    specialize (Hlo (lo - 1)%nat ltac:(lia)). rewrite (Hp _ _ Ee) in Hlo. by apply bool_decide_eq_true in Hlo.
  - intros i ks x Hi Hks Hx. destruct (nodes_routes _ _ _ _ i ks x Hf Ha Hks Hx) as [(e&Ee&Hle) _].
    pose proof (lookup_lt_Some _ _ _ Ee). specialize (Hhi i). rewrite (Hp _ _ Ee) in Hhi.
    assert (lo ≤ i)%nat by (destruct (Nat.ltb_spec 0 lo); lia). specialize (Hhi ltac:(lia)). apply bool_decide_eq_false in Hhi.
    eapply ble_trans; [|exact Hle]. destruct (ble_total (EKey e) t) as [?|?]; [done|by apply blt_le].
Qed.

(** The descent for a target loads the only leaf that can hold it. *)
Lemma loadAt_spec c es kss t :
  leaves c es kss → indexStack c = [] ∨ height c = 1%nat →
  ∃ c' j ks, (match height c with O => loadLeaf (rootUUID c) | S _ => descendToLeafAt (rootUUID c) (height c) t end) c = (c', Ok tt)
    ∧ same c c' ∧ loaded c' es kss j ks
    ∧ (∀ i ks x, (i < j)%nat → kss !! i = Some ks → x ∈ ks → x <b t)
    ∧ (∀ i ks x, (j < i)%nat → kss !! i = Some ks → x ∈ ks → t <=b x).
Proof.
  intros Hl Hst. pose proof Hl as [Hs Hv Hr Hf [Ha _] Hsh]. destruct Hsh as [[Hh Hes]|(Hh&Hne&data&Hp&Hd)]; rewrite Hh.
  - destruct es as [|e [|]]; [done| |done]. injection Hes as He1. pose proof (Forall2_length _ _ _ Hf) as Hlen. cbn [length] in Hlen.
    destruct (Forall2_lookup_l _ _ _ 0 e Hf eq_refl) as (ks&Hk&_).
    destruct (loadLeaf_ok c [e] kss 0 e ks) as (s'&E&Hrd); [done..|]. rewrite He1 in E.
    eexists _, 0%nat, ks. split; [exact E|]. split; [done|].
    split_and!; [|intros; lia|intros i ks' x Hi Hks; apply lookup_lt_Some in Hks; lia].
    constructor; [done|done|left]. split; [|done]. destruct Hst; [done|congruence].
  - destruct (childPos_spec _ es kss t Hf Hne Ha) as (Hlt&Hbefore&Hafter). set (p := childPos es t) in *.
    destruct (lookup_lt_is_Some_2 es p Hlt) as [e He]. destruct (Forall2_lookup_l _ _ _ p e Hf He) as (ks&Hk&_).
    destruct (loadIndexPage_spec (pstore c) (rootUUID c) data es) as (s1&E1&Hr1); [done..|].
    set (c2 := setStack [{| ientries := es; ipos := p |}] (setStore s1 (setStack [] c))).
    destruct (same_leaves_of c c2 es kss) as [Hs2 Hl2]; [done..|].
    destruct (loadLeaf_ok c2 es kss p e ks) as (s'&E&Hrd); [done..|].
    eexists _, p, ks. split.
    + unfold descendToLeafAt. rewrite M_modify. cbn [descendAt]. erewrite M_step; [|by apply load_ok]. fold p.
      unfold push. rewrite M_modify. unfold entryAt. rewrite He. rewrite M_fail. exact E.
    + split; [by eapply same_trans; [exact Hs2|]|]. split_and!; [|done|done]. constructor; [done|done|by right].
Qed.

Lemma inLeaf_spec c es kss j ks t :
  leaves c es kss → loaded c es kss j ks →
  ∃ here, inLeaf (Z.of_nat (length ks)) t c = (c, Ok here)
    ∧ (here = true → (∀ i ks' x, (i < j)%nat → kss !! i = Some ks' → x ∈ ks' → x <b t)
                     ∧ (∀ i ks' x, (j < i)%nat → kss !! i = Some ks' → x ∈ ks' → t <=b x)).
Proof.
  intros Hl Hd. destruct (leaves_lookup _ _ _ _ _ Hl (ld_keys _ _ _ _ _ Hd)) as (_&_&_&_&Hne&_).
  destruct (lookup_lt_is_Some_2 ks 0) as [k0 H0]; [destruct ks; [done|cbn; lia]|].
  destruct (lookup_lt_is_Some_2 ks (length ks - 1)) as [k1 H1]; [destruct ks; [done|cbn; lia]|].
  pose proof (lookup_lt_Some _ _ _ H0). unfold inLeaf. replace (_ >? 0) with true by lia. unfold cmpKeyAt.
  erewrite M_step; [|erewrite M_step; [reflexivity|by eapply (firstKeyAt_loaded _ _ _ _ _ 0)]]. rewrite CmpSeq_le.
  case_bool_decide as Hc0; [|by exists false].
  erewrite M_step; [|erewrite M_step; [reflexivity|]].
  2:{ replace (Z.of_nat (length ks) - 1) with (Z.of_nat (length ks - 1)) by lia. by eapply firstKeyAt_loaded. }
  rewrite CmpSeq_ge. eexists. split; [done|]. intros Hc1%bool_decide_eq_true. pose proof (proj1 (lv_keys _ _ _ Hl)) as Ha.
  split; intros i ks' x Hi Hks Hx.
  - eapply blt_le_trans; [|exact Hc0]. eapply (ascending_concat_lt kss i j); [done|done|apply Hd|done|done|].
    by eapply list_elem_of_lookup_2.
  - eapply ble_trans; [exact Hc1|]. apply blt_le. eapply (ascending_concat_lt kss j i); [done|apply Hd|done|done| |done].
    by eapply list_elem_of_lookup_2.
Qed.

(** The search of a loaded leaf. *)
Lemma searchLeaf_splits c es kss j ks t :
  leaves c es kss → loaded c es kss j ks →
  (∀ i ks x, (i < j)%nat → kss !! i = Some ks → x ∈ ks → x <b t) →
  (∀ i ks x, (j < i)%nat → kss !! i = Some ks → x ∈ ks → t <=b x) →
  ∃ r, searchLeaf (S (length ks)) 0 (Z.of_nat (length ks)) t c = (c, Ok (Z.of_nat r)) ∧ (r ≤ length ks)%nat
    ∧ splits kss j r ks t ∧ filter (fun k => t <=b k) (concat kss) = restAt kss j r ks.
Proof.
  intros Hl Hd Hb Ha. destruct (searchLeaf_spec (S (length ks)) 0 (length ks) c es kss j ks t) as (r&E&Hr&H1&H2);
    [done|done|lia|lia|intros; lia|intros i k Hi Hk; apply lookup_lt_Some in Hk; lia|].
  pose proof (splits_intro kss j r ks t Hb Ha H1 H2) as Hsp. exists r. split; [done|]. split; [done|]. split; [done|].
  eapply filter_splits; [apply Hd|done].
Qed.

Lemma SeekP_spec fuel c es kss t :
  leaves c es kss → placed c es kss → (2 ≤ fuel)%nat →
  ∃ c', SeekP fuel t c = (c', Ok tt) ∧ same c c' ∧ stands c' es kss (filter (fun k => t <=b k) (concat kss)).
Proof.
  intros Hl Hp Hf. unfold SeekP. rewrite M_get, bool_decide_false by apply Hl. rewrite M_get.
  assert (∃ here, inLeaf (keyCount c) t c = (c, Ok here) ∧ (here = true → ∃ j ks, loaded c es kss j ks
    ∧ (∀ i ks' x, (i < j)%nat → kss !! i = Some ks' → x ∈ ks' → x <b t)
    ∧ (∀ i ks' x, (j < i)%nat → kss !! i = Some ks' → x ∈ ks' → t <=b x))) as (here&Eh&Hh).
  { destruct Hp as [(Hlf&_)|(j&ks&Hd&_)].
    - exists false. unfold keyCount. rewrite (lv_keyonly _ _ _ Hl), Hlf. done.
    - rewrite (keyCount_loaded _ _ _ _ _ Hl Hd). destruct (inLeaf_spec c es kss j ks t Hl Hd) as (here&E&Hh).
      exists here. split; [done|]. intros [??]%Hh. eauto 10. }
  erewrite M_step; [|exact Eh]. destruct here.
  - destruct (Hh eq_refl) as (j&ks&Hd&Hb&Ha). rewrite (keyCount_loaded _ _ _ _ _ Hl Hd), Nat2Z.id.
    destruct (searchLeaf_splits c es kss j ks t) as (r&E&Hr&Hsp&Hfl); [done..|]. erewrite M_step; [|exact E]. rewrite Hfl.
    destruct (startAt_spec c es kss j ks r) as (c1&E1&Hs1&Hd1&He1&Hi1); [done..|]. erewrite M_step; [|exact E1].
    pose proof (leaves_same _ _ _ _ Hl Hs1) as Hl1.
    destruct (page_advance_spec fuel c1 es kss j ks r) as (c2&E2&Hs2&Hst2); [done..|].
    exists c2. split; [done|]. split; [exact (same_trans _ _ _ Hs1 Hs2)|done].
  - rewrite M_get. destruct (loadAt_spec c es kss t Hl) as (c1&j&ks&E1&Hs1&Hd1&Hb&Ha).
    { destruct Hp as [(_&?&_)|(j&ks&[_ _ [[? _]|[? _]]]&_)]; auto. }
    erewrite M_step; [|exact E1]. pose proof (leaves_same _ _ _ _ Hl Hs1) as Hl1. rewrite M_get.
    rewrite (keyCount_loaded _ _ _ _ _ Hl1 Hd1), Nat2Z.id.
    destruct (searchLeaf_splits c1 es kss j ks t) as (r&E&Hr&Hsp&Hfl); [done..|]. erewrite M_step; [|exact E]. rewrite Hfl.
    destruct (startAt_spec c1 es kss j ks r) as (c2&E2&Hs2&Hd2&He2&Hi2); [done..|]. erewrite M_step; [|exact E2].
    pose proof (leaves_same _ _ _ _ Hl1 Hs2) as Hl2.
    destruct (seekLoop_spec fuel c2 es kss j ks r t) as (c3&E3&Hs3&Hst3); [done..|].
    exists c3. split; [done|]. split; [|done]. exact (same_trans _ _ _ (same_trans _ _ _ Hs1 Hs2) Hs3).
Qed.

(** ** The cursor laws *)

Definition pinv c : Prop :=
  (rootUUID c = zeroUUID ∧ pAtEnd c = true ∧ hasKey c = false) ∨ ∃ es kss, leaves c es kss ∧ placed c es kss.

Lemma left_sorted c : pinv c → ascending (treeKeys c) ∧ ascending (left_ c).
Proof.
  intros [(Hr&He&_)|(es&kss&Hl&Hp)].
  - unfold left_, treeKeys. rewrite He, bool_decide_true by done. split; constructor.
  - unfold left_. rewrite (treeKeys_leaves _ _ _ Hl). pose proof (proj1 (lv_keys _ _ _ Hl)) as Ha. split; [done|].
    destruct (pAtEnd c); [constructor|]. destruct (hasKey c); [|done]. eapply ascending_sublist; [apply sublist_filter|done].
Qed.

Lemma treeKeys_same c c' es kss : leaves c es kss → same c c' → treeKeys c' = treeKeys c.
Proof. intros Hl Hs. rewrite (treeKeys_leaves _ _ _ Hl). by eapply treeKeys_leaves, leaves_same. Qed.

Lemma Peek_spec fuel c :
  pinv c → (2 ≤ fuel)%nat →
  ∃ c', Peek fuel c = (c', Ok (head (left_ c))) ∧ pinv c' ∧ treeKeys c' = treeKeys c ∧ left_ c' = left_ c
    ∧ (pAtEnd c = false ∨ hasKey c = false → pAtEnd c' = false ∨ hasKey c' = false).
Proof.
  intros Hi Hf. unfold Peek. pose proof Hi as [(Hr&He&Hk)|(es&kss&Hl&Hp)].
  - exists c. unfold ensure, left_. unfold mbind, M_bind, get. rewrite Hk, He. cbn. rewrite He. done.
  - destruct (ensure_spec fuel c es kss) as (c1&E&Hs&Hp1&Hleft&He1&Hst); [done..|]. erewrite M_step; [|exact E].
    pose proof (leaves_same _ _ _ _ Hl Hs) as Hl1. exists c1.
    split; [|split; [right; eauto|split; [exact (treeKeys_same _ _ _ _ Hl Hs)|split; [done|]]]].
    2:{ rewrite He1. intros [He|Hk]; [by left|]. destruct (pAtEnd c) eqn:Ee; [right|by left].
        revert E. unfold ensure, mbind, M_bind, get. rewrite Ee, Hk. cbn. by intros [= <-]. }
    unfold get. do 2 f_equal. destruct (pAtEnd c1) eqn:Ee.
    { unfold left_. by rewrite <- He1. }
    destruct (Hst (eq_sym He1)) as (j&ks&Hd&[(?&_)|(i&_&Hk&Hki&Hx&Hr)]); [congruence|]. rewrite Hk, Hr. unfold restAt.
    by rewrite (drop_S _ _ _ Hki).
Qed.

Lemma Next_spec fuel c :
  pinv c → (2 ≤ fuel)%nat → pAtEnd c = false ∨ hasKey c = false →
  ∃ c', Next fuel c = (c', Ok (head (left_ c))) ∧ pinv c' ∧ treeKeys c' = treeKeys c ∧ left_ c' = tail (left_ c)
    ∧ (pAtEnd c' = false ∨ hasKey c' = false).
Proof.
  intros Hi Hf Hend. unfold Next. pose proof Hi as [(Hr&He&Hk)|(es&kss&Hl&Hp)].
  - exists c. unfold ensure, advance, left_. unfold mbind, M_bind, get. rewrite Hk, He. cbn. rewrite He. cbn. rewrite Hk. split_and!; auto.
  - destruct (ensure_spec fuel c es kss) as (c1&E&Hs&Hp1&Hleft&He1&Hst); [done..|]. erewrite M_step; [|exact E]. rewrite M_get.
    pose proof (leaves_same _ _ _ _ Hl Hs) as Hl1. destruct (pAtEnd c) eqn:Ee.
    { destruct Hend as [?|Hk]; [done|]. assert (c1 = c) as ->.
      { revert E. unfold ensure, mbind, M_bind, get. rewrite Hk, Ee. cbn. by intros [= ->]. }
      exists c. unfold advance, left_. rewrite Hk, Ee. erewrite M_step; [|rewrite M_get, Ee; reflexivity].
      split_and!; auto. }
    destruct (Hst eq_refl) as (j&ks&Hd&[(?&_)|(i&_&Hk&Hki&Hx&Hr)]); [congruence|]. rewrite Hk.
    unfold advance. assert (leafIdx c1 = Z.of_nat (S i) - 1) by lia. pose proof (lookup_lt_Some _ _ _ Hki).
    destruct (page_advance_spec fuel c1 es kss j ks (S i)) as (c2&E2&Hs2&Hst2); [done..|].
    erewrite M_step; [|exact E2]. pose proof (leaves_same _ _ _ _ Hl1 Hs2) as Hl2.
    destruct (stands_placed _ _ _ _ Hl2 Hst2) as [Hp2 Hleft2]. exists c2. rewrite Hr, Hleft2. unfold restAt.
    rewrite (drop_S _ _ _ Hki). cbn [app head tail]. split; [done|]. split; [right; eauto|]. split; [|split; [done|]].
    + by eapply treeKeys_same; [exact Hl|exact (same_trans _ _ _ Hs Hs2)].
    + destruct Hst2 as (?&?&_&[(_&?&_)|(?&?&_)]); auto.
Qed.

Lemma Seek_spec fuel c t :
  pinv c → (2 ≤ fuel)%nat → 
  ∃ c', SeekP fuel t c = (c', Ok tt) ∧ pinv c' ∧ treeKeys c' = treeKeys c
    ∧ left_ c' = filter (fun k => t <=b k) (treeKeys c) ∧ (pAtEnd c' = false ∨ hasKey c' = false).
Proof.
  intros Hi Hf. pose proof Hi as [(Hr&He&Hk)|(es&kss&Hl&Hp)].
  - exists (setAtEnd true c). unfold SeekP, left_, treeKeys. rewrite M_get. cbn [rootUUID setAtEnd pAtEnd height pstore].
    rewrite bool_decide_true by done. split_and!; auto. by left.
  - destruct (SeekP_spec fuel c es kss t) as (c1&E&Hs&Hst); [done..|]. pose proof (leaves_same _ _ _ _ Hl Hs) as Hl1.
    destruct (stands_placed _ _ _ _ Hl1 Hst) as [Hp1 Hleft]. exists c1. split; [done|]. split; [right; eauto|].
    split; [exact (treeKeys_same _ _ _ _ Hl Hs)|]. split; [by rewrite (treeKeys_leaves _ _ _ Hl)|].
    destruct Hst as (?&?&_&[(_&?&_)|(?&?&_)]); auto.
Qed.

Lemma page_PeekKv_spec fuel c :
  pinv c → (2 ≤ fuel)%nat →
  ∃ c' p, PeekKv fuel c = (c', Ok p) ∧ pinv c' ∧ treeKeys c' = treeKeys c ∧ left_ c' = left_ c.
Proof.
  intros Hi Hf. destruct (Peek_spec fuel c Hi Hf) as (c'&E&?&?&?&_). exists c'. revert E. unfold Peek, PeekKv, mbind, M_bind.
  destruct (ensure fuel c) as [c1 [[]| | |]]; unfold get; intros [= ->]; eauto.
Qed.

#[export] Program Instance pageStoreCursor_laws fuel : CursorLaws (pageStoreCursor B fuel) := {
  cinv w := (2 ≤ fuel)%nat ∧ pinv (ps w);
  contents w := treeKeys (ps w);
  remaining w := left_ (ps w);
}.
Next Obligation. intros fuel c [_ Hi]. by apply left_sorted. Qed.
Next Obligation. intros fuel c [_ Hi]. by apply left_sorted. Qed.
Next Obligation. intros fuel c [_ Hi]. cbn. unfold left_. by destruct (pAtEnd (ps c)). Qed.
Next Obligation.
  intros fuel c [Hf Hi] _. cbn. destruct (Peek_spec fuel (ps c) Hi Hf) as (c'&E&Hi'&Ht&Hl&_). rewrite E. by split_and!.
Qed.
Next Obligation.
  intros fuel c [Hf Hi]. cbn. destruct (page_PeekKv_spec fuel (ps c) Hi Hf) as (c'&p&E&Hi'&Ht&Hl). rewrite E. by split_and!.
Qed.
Next Obligation.
  intros fuel c [Hf Hi] Hne. cbn in *. destruct (Next_spec fuel (ps c) Hi Hf) as (c'&E&Hi'&Ht&Hl&_).
  { left. unfold left_ in Hne. by destruct (pAtEnd (ps c)). }
  rewrite E. by split_and!.
Qed.
Next Obligation.
  intros fuel c t [Hf Hi]. cbn. destruct (Seek_spec fuel (ps c) t Hi Hf) as (c'&E&Hi'&Ht&Hl&_). rewrite E. by split_and!.
Qed.

(** ** Whole scans *)

Definition ready c : Prop := pinv c ∧ (pAtEnd c = false ∨ hasKey c = false).

Lemma NewCursor_ready s t ks kv :
  store_ok s → tree_repr (blobs s) t ks → keys_ok ks → Height t ≤ 1 → kv = false →
  ready (NewCursor s (RootUUID t) (Z.to_nat (Height t)) kv)
  ∧ treeKeys (NewCursor s (RootUUID t) (Z.to_nat (Height t)) kv) = ks.
Proof.
  intros Hs [_ Hr] Hk Hh ->. destruct Hr as [[Hz ->]|Ht].
  - rewrite Hz. split; [|done]. split; [left; by split_and!|by right].
  - destruct (tree_keys_id _ _ _ _ Ht) as [_ Hz].
    destruct (leaves_of s (RootUUID t) (Z.to_nat (Height t)) ks) as (es&kss&Hl&->); [done|done|lia|done|done|].
    split; [|by eapply treeKeys_leaves]. split; [right; exists es, kss; split; [done|left; by split_and!]|by right].
Qed.

Lemma runMoves_spec fuel os c :
  ready c → (2 ≤ fuel)%nat →
  ∃ c', runMoves fuel os c = (c', Ok tt) ∧ ready c' ∧ treeKeys c' = treeKeys c.
Proof.
  intros Hc Hf. revert c Hc. induction os as [|o os IH]; intros c [Hi He]; [by exists c|]. cbn [runMoves].
  assert (∃ c', runMove fuel o c = (c', Ok tt) ∧ ready c' ∧ treeKeys c' = treeKeys c) as (c'&E&Hr&Ht).
  { destruct o; cbn [runMove].
    - destruct (Peek_spec fuel c Hi Hf) as (c'&E&Hi'&Ht&Hl&He'). exists c'. erewrite M_step; [|exact E]. split; [done|].
      split; [|done]. split; [done|by apply He'].
    - destruct (Next_spec fuel c Hi Hf He) as (c'&E&Hi'&Ht&Hl&He'). exists c'. by erewrite M_step; [|exact E].
    - destruct (Seek_spec fuel c t Hi Hf) as (c'&E&Hi'&Ht&Hl&He'). exists c'. done. }
  erewrite M_step; [|exact E]. destruct (IH c' Hr) as (c''&E'&Hr'&Ht'). exists c''. split; [done|]. split; [done|congruence].
Qed.

Lemma readAll_spec fuel n c :
  ready c → (2 ≤ fuel)%nat → (length (left_ c) < n)%nat → ∃ c', readAll fuel n c = (c', Ok (left_ c)).
Proof.
  intros Hc Hf. revert c Hc. induction n as [|n IH]; intros c [Hi He] Hn; [lia|]. cbn [readAll].
  destruct (Next_spec fuel c Hi Hf He) as (c1&E&Hi1&_&Hl1&He1). erewrite M_step; [|exact E].
  destruct (left_ c) as [|k rest] eqn:El; cbn [head]; [by exists c1|]. cbn [tail] in Hl1. cbn [length] in Hn.
  destruct (IH c1) as [c2 E2]; [done|rewrite Hl1; lia|]. exists c2. erewrite M_step; [|exact E2]. by rewrite Hl1.
Qed.

(** C8. A page cursor over a key tree of at most one index level, after any
    peeks, steps and seeks, can be sought to any target: no call fails, and
    reading on to the end gives exactly the keys of the tree from the target
    on, in order. *)
Theorem page_cursor_exact fuel s t ks os target :
  store_ok s → tree_repr (blobs s) t ks → keys_ok ks → Height t ≤ 1 → (2 ≤ fuel)%nat →
  ∃ c c' c'', runMoves fuel os (NewCursor s (RootUUID t) (Z.to_nat (Height t)) false) = (c, Ok tt)
    ∧ SeekP fuel target c = (c', Ok tt)
    ∧ readAll fuel (S (length ks)) c' = (c'', Ok (filter (fun k => target <=b k) ks)).
Proof.
  intros Hs Ht Hk Hh Hf. destruct (NewCursor_ready s t ks false) as [Hr Hks]; [done..|].
  destruct (runMoves_spec fuel os _ Hr Hf) as (c&E&[Hi _]&Htk). rewrite Hks in Htk.
  destruct (Seek_spec fuel c target Hi Hf) as (c'&E'&Hi'&_&Hl&He'). rewrite Htk in Hl.
  destruct (readAll_spec fuel (S (length ks)) c') as [c'' E'']; [done|done| |].
  { rewrite Hl. pose proof (length_filter (fun k => target <=b k) ks). lia. }
  exists c, c', c''. by rewrite <- Hl.
Qed.

(** ** Two index levels *)

(** A leaf page of one key never reads as an index page. *)
Lemma leaf_not_index k :
  Z.of_nat (length k) < 2 ^ 16 → DeserializeIndexPage (SerializePage [k]) = Err "truncated index entry".
Proof.
  intros Hk. unfold DeserializeIndexPage, SerializePage. rewrite header16_long, count16_header.
  change (Z.to_nat (u16 _)) with 1%nat. cbn [deserializeEntries serializeKeys]. pose proof (length_writeKey [] k).
  rewrite (readKey_short _ _ _ _ (header16 _)); [done|cbn; lia| |lia].
  rewrite !length_app. unfold header16. cbn [length]. lia.
Qed.

Lemma DecodePageFlat_one k :
  Z.of_nat (length k) < 2 ^ 16 → DecodePageFlat (SerializePage [k]) = Ok (ToFlat [k]).
Proof.
  intros Hk. rewrite DecodePageFlat_eq, DeserializePage_Serialize; [unfold res_map; by rewrite res_bind_ret|].
  unfold rawSize, sumLen, keyLen. cbn. lia.
Qed.

Lemma loadLeaf_one c u k :
  store_ok (pstore c) → isKv c = false → pageAt (blobs (pstore c)) u (SerializePage [k]) → Z.of_nat (length k) < 2 ^ 16 →
  ∃ s', loadLeaf u c = (setIdx (-1) (setLeaf (ToFlat [k]) (setStore s' c)), Ok tt) ∧ reads (pstore c) s'.
Proof.
  intros Hs Hv Hp Hk. destruct (loadLeafKeys_spec (pstore c) u _ (ToFlat [k]) Hs Hp) as (s'&E&Hr); [by apply DecodePageFlat_one|].
  exists s'. split; [|done]. unfold loadLeaf. rewrite M_get, Hv. erewrite M_step; [|erewrite M_step; [|by apply load_ok]; done]. done.
Qed.

(** A leaf of one key, and a next leaf of one key on the same index page. *)
Lemma advance_deep fuel c k1 k2 e1 e2 es rest :
  store_ok (pstore c) → isKv c = false → height c = 2%nat → pAtEnd c = false → leaf c = Some (ToFlat [k1]) → leafIdx c = 0 →
  indexStack c = {| ientries := e1 :: e2 :: es; ipos := 0 |} :: rest →
  pageAt (blobs (pstore c)) (EUUID e2) (SerializePage [k2]) → Z.of_nat (length k2) < 2 ^ 16 →
  ∃ c', advance (S fuel) c = (c', Err "truncated index entry").
Proof.
  intros Hs Hv Hh He Hl Hi Hst Hp Hk. unfold advance. rewrite M_get, He, M_modify. cbn [advanceLoop].
  rewrite M_modify, M_get, M_get. cbn [leafIdx setIdx clearCur]. rewrite Hi.
  change (keyCount _) with (keyCount c). unfold keyCount. rewrite Hv, Hl, Count_ToFlat. cbn [length].
  change (0 + 1 <? Z.of_nat 1) with false. cbv iota. rewrite M_get. cbn [indexStack setIdx clearCur]. rewrite Hst. cbv iota.
  set (c1 := setIdx _ _). unfold advanceToNextLeaf.
  assert (∃ c', (stack ← get indexStack; nextLeafLoop (S fuel) stack) c1 = (c', Err "truncated index entry")) as [c' E'].
  { rewrite M_get. cbn [indexStack c1 setIdx clearCur]. rewrite Hst. cbn [nextLeafLoop ipos ientries length]. rewrite M_modify.
    cbn [lookup list_lookup]. rewrite M_get. cbn [height setStack c1 setIdx clearCur]. rewrite Hh. cbn [Nat.eqb andb descendIndexPages].
    eexists. unfold mbind at 1, M_bind at 1, load. cbn [pstore setStack c1 setIdx clearCur].
    rewrite (loadIndexPage_err _ _ _ _ Hs Hp (leaf_not_index k2 Hk)). done. }
  exists c'. unfold mbind at 1, M_bind at 1. by rewrite E'.
Qed.

(** A cursor over a tree with two index levels cannot leave a leaf: it loads
    the next leaf as an index page, so where the first two leaves hold one key
    each, the step after the first key fails and the key is lost. *)
Theorem page_cursor_deep_stops fuel s root d0 d1 i0 e1 e2 is_ es k1 k2 :
  store_ok s → pageAt (blobs s) root d0 → DeserializeIndexPage d0 = Ok (i0 :: is_) →
  pageAt (blobs s) (EUUID i0) d1 → DeserializeIndexPage d1 = Ok (e1 :: e2 :: es) →
  pageAt (blobs s) (EUUID e1) (SerializePage [k1]) → pageAt (blobs s) (EUUID e2) (SerializePage [k2]) →
  Z.of_nat (length k1) < 2 ^ 16 → Z.of_nat (length k2) < 2 ^ 16 → (1 ≤ fuel)%nat →
  ∃ c', Next fuel (NewCursor s root 2 false) = (c', Err "truncated index entry").
Proof.
  intros Hs H0 D0 H1 D1 P1 P2 Hk1 Hk2 Hf. destruct fuel as [|fuel]; [lia|]. set (c := NewCursor s root 2 false).
  destruct (loadIndexPage_spec s root d0 (i0 :: is_) Hs H0 D0) as (s1&E1&R1). pose proof (reads_blobs _ _ R1) as B1. rewrite <- B1 in H1, P1, P2.
  destruct (loadIndexPage_spec s1 (EUUID i0) d1 (e1 :: e2 :: es) (proj1 R1) H1 D1) as (s2&E2&R2).
  pose proof (reads_blobs _ _ R2) as B2. rewrite <- B2 in P1, P2.
  set (stack := [{| ientries := e1 :: e2 :: es; ipos := 0 |}; {| ientries := i0 :: is_; ipos := 0 |}]).
  set (c2 := setStack stack (setStore s2 c)).
  destruct (loadLeaf_one c2 (EUUID e1) k1 (proj1 R2) eq_refl P1 Hk1) as (s3&E3&R3). pose proof (reads_blobs _ _ R3) as B3.
  change (blobs s3 = blobs s2) in B3. rewrite <- B3 in P2.
  set (c3 := setIdx (-1) (setLeaf (ToFlat [k1]) (setStore s3 c2))) in *.
  assert (descendToFirstLeaf root 2 c = (c3, Ok tt)) as Ed.
  { unfold descendToFirstLeaf. rewrite M_modify. cbn [descendFirst]. erewrite (M_step (load _)); [|apply load_ok; exact E1]. unfold push. rewrite M_modify.
    erewrite (M_step (entryAt _ _)); [|reflexivity]. cbn [descendFirst]. erewrite (M_step (load _)); [|apply load_ok; exact E2]. rewrite M_modify.
    erewrite (M_step (entryAt _ _)); [|reflexivity]. exact E3. }
  assert (bool_decide (root = zeroUUID) = false) as Hz by (apply bool_decide_false, H0).
  set (c4 := setKey k1 (setIdx 0 (clearCur c3))).
  assert (advance (S fuel) c3 = (c4, Ok tt)) as Ea.
  { unfold advance. rewrite M_get. cbn [pAtEnd c3 setIdx setLeaf setStore c2 setStack c NewCursor]. rewrite Hz, M_modify.
    cbn [advanceLoop]. rewrite M_modify, M_get, M_get. change (keyCount _) with (flatLeaf.Count (Some (ToFlat [k1]))).
    rewrite Count_ToFlat. change (_ <? _) with true. cbv iota. unfold keyAtIdx. rewrite M_get, M_get.
    cbn [isKv c3 setIdx setLeaf setStore c2 setStack c NewCursor clearCur leafIdx]. erewrite M_step; [reflexivity|].
    unfold firstKeyAt. cbn [isKv leaf c3 setIdx setLeaf setStore c2 setStack c NewCursor clearCur].
    rewrite (Key_ToFlat [k1] _ k1) by (cbn; rewrite ?length_app; cbn; lia || done). done. }
  assert (ensure (S fuel) c = (c4, Ok tt)) as Ee.
  { unfold ensure. rewrite M_get, M_get. cbn [hasKey pAtEnd c NewCursor]. rewrite Hz. cbn [negb andb]. rewrite M_get.
    cbn [rootUUID c NewCursor]. rewrite Hz, M_get, M_get, M_get. cbn -[descendToFirstLeaf advance].
    erewrite M_step; [exact Ea|exact Ed]. }
  destruct (advance_deep fuel c4 k1 k2 e1 e2 es [{| ientries := i0 :: is_; ipos := 0 |}]) as [c5 E5]; try done; [apply R3|].
  exists c5. unfold Next. rewrite (M_step _ _ _ _ _ Ee), M_get. unfold mbind at 1, M_bind at 1. by rewrite E5.
Qed.
End laws.

(** ** Samples *)

Import samples.

Definition sampleId (i : nat) : bytes := be_put 16 (Z.of_nat i).
Definition sampleKey1 : bytes := bs "attribute-1".
Definition sampleKey2 : bytes := bs "attribute-2".

(** Two leaves below two index levels. *)
Definition deepPages : list bytes :=
  [SerializePage [sampleKey1]; SerializePage [sampleKey2];
   SerializeIndexPage [{| EKey := sampleKey1; EUUID := sampleId 1 |}; {| EKey := sampleKey2; EUUID := sampleId 2 |}];
   SerializeIndexPage [{| EKey := sampleKey1; EUUID := sampleId 3 |}]].

Lemma extends_store_ok {B} `{BlobStore B, !BlobLaws B, Zstd, !ZstdLaws} n (s s' : Store B) :
  store_ok s → m (cache s) = ∅ → extends n s s' → store_ok s'.
Proof.
  intros Hs Hm He. pose proof (ext_rest _ _ _ He) as E. constructor; [apply He|rewrite E; apply Hs|].
  intros u e Hu. rewrite E in Hu. cbn [cache withBlobs] in Hu. by rewrite Hm, lookup_empty in Hu.
Qed.

Lemma page_cursor_exact_witness :
  ∃ s' (c c' c'' : PCursor FileBlobStore) t,
    runMoves 2 [MNext; MPeek; MSeek (bs "z"); MNext] (NewCursor s' (RootUUID t) (Z.to_nat (Height t)) false) = (c, Ok tt)
    ∧ SeekP 2 sampleKey2 c = (c', Ok tt) ∧ readAll 2 3 c' = (c'', Ok [sampleKey2]).
Proof.
  destruct sampleStore_ok as (Hs&Ht&Hf).
  destruct (CommitMerge_spec sampleStore (fun _ => []) sampleFlush (1700000000, 0)) as (root&s'&E&Hs'&_&_&Hl&_&Ht'&_);
    [done|done|cbn; lia|done|done|cbn; lia|apply Nat.leb_le; by vm_compute|].
  destruct (lookup_lt_is_Some_2 (trees s') 0) as [t Et]; [rewrite Hl; cbn; lia|]. destruct (Ht' 0%nat t Et) as [Hr Hk].
  assert (Height t = 1) as Hh.
  { assert (Height <$> (match CommitMerge sampleStore sampleFlush (1700000000, 0) with Ok (_, s) => trees s !! 0%nat | _ => None end)
            = Some 1) as Hc by (vm_compute; reflexivity). rewrite E, Et in Hc. by injection Hc. }
  destruct (page_cursor_exact 2 s' t (flushed (fun _ => []) sampleFlush 0) [MNext; MPeek; MSeek (bs "z"); MNext] sampleKey2)
    as (c&c'&c''&E1&E2&E3); [done|done|done|lia|lia|].
  exists s', c, c', c'', t. split; [exact E1|]. split; [exact E2|exact E3].
Defined.

Lemma page_cursor_deep_stops_witness :
  ∃ s' (c' : PCursor FileBlobStore), Next 5 (NewCursor s' (sampleId 4) 2 false) = (c', Err "truncated index entry").
Proof.
  destruct sampleStore_ok as (Hs&_&_).
  destruct (blobPutPages_spec sampleStore deepPages) as (us&s'&E&He&Hp); [apply Hs|apply Nat.leb_le; by vm_compute|].
  assert (us = map sampleId [1; 2; 3; 4]%nat) as ->.
  { assert (res_map fst (blobPutPages sampleStore deepPages) = Ok (map sampleId [1; 2; 3; 4]%nat)) as Hc by (vm_compute; reflexivity).
    rewrite E in Hc. by injection Hc. }
  inversion_clear Hp as [|?? ?? P1 Hp1]. inversion_clear Hp1 as [|?? ?? P2 Hp2]. inversion_clear Hp2 as [|?? ?? P3 Hp3].
  inversion_clear Hp3 as [|?? ?? P4 Hp4]. exists s'.
  eapply (page_cursor_deep_stops 5 s' (sampleId 4) _ _ {| EKey := sampleKey1; EUUID := sampleId 3 |}
    {| EKey := sampleKey1; EUUID := sampleId 1 |} {| EKey := sampleKey2; EUUID := sampleId 2 |} [] [] sampleKey1 sampleKey2);
    [by eapply extends_store_ok|exact P4|by vm_compute|exact P3|by vm_compute|exact P1|exact P2|by vm_compute|by vm_compute|lia].
Defined.
