(* ===== verification/Journal.v ===== *)
(** * Journal records (go/internal/kvstore/kvstore.go)

    The record format shared by the write-ahead log, the legacy journal and the
    replication stream, and the reader that resynchronises after damage. *)

From S2P Require Import Prelude Pages NewestWins Memtable.

(** ** Definitions *)

Definition maxJournalKeyLen : Z := 65536.
Definition maxJournalValLen : Z := 65536.
Definition journalResync : nat := 3.

(** [memtable.CfKey]. *)
Notation CfKey := (nat * bytes)%type.

(** The length of the record at [pos], or -1. *)
Definition journalRecordLenAt (data : bytes) (pos : nat) : Z :=
  let len := Z.of_nat (length data) in
  let p := Z.of_nat pos in
  if p + 10 >? len then -1
  else
    let klen := be32At data pos in
    if (klen <? 1) || (klen >? maxJournalKeyLen) then -1
    else if p + 4 + klen + 4 >? len then -1
    else if nth (pos + 4) data 0 >? 63 then -1
    else
      let vp := p + 4 + klen in
      let vlen := be32At data (Z.to_nat vp) in
      if vlen >? maxJournalValLen then -1
      else if vp + 4 + vlen >? len then -1
      else 4 + klen + 4 + vlen.

(** The records that follow one another from [p]: where they end and how many
    they are. A record has at least nine bytes, so [length data] turns do. *)
Fixpoint chainLoop (fuel : nat) (data : bytes) (p n : nat) : nat * nat :=
  match fuel with
  | O => (p, n)
  | S fuel' =>
      if Nat.leb (p + 10) (length data) then
        let rl := journalRecordLenAt data p in
        if rl <? 0 then (p, n) else chainLoop fuel' data (p + Z.to_nat rl) (S n)
      else (p, n)
  end.
Definition journalChainLenAt (data : bytes) (pos : nat) : nat :=
  (chainLoop (length data) data pos 0).2.

(** Tries every later position. *)
Fixpoint resyncLoop (fuel : nat) (data : bytes) (c : nat) : option nat :=
  match fuel with
  | O => None
  | S fuel' =>
      if Nat.leb (c + 10) (length data) then
        let '(p, chain) := chainLoop (length data) data c 0 in
        if Nat.leb journalResync chain then Some c
        else if Nat.ltb 0 chain && Nat.ltb (length data) (p + 10) then Some c
        else resyncLoop fuel' data (S c)
      else None
  end.
Definition journalResyncFrom (data : bytes) (broken : nat) : option nat :=
  resyncLoop (length data) data (S broken).

Fixpoint parseLoop (fuel : nat) (data : bytes) (pos : nat) : list CfKey :=
  match fuel with
  | O => []
  | S fuel' =>
      if Nat.leb (pos + 10) (length data) then
        let rl := journalRecordLenAt data pos in
        if rl >? 0 then
          let klen := Z.to_nat (be32At data pos) in
          let cf := nth (pos + 4) data 0 in
          let rest := parseLoop fuel' data (pos + Z.to_nat rl) in
          if cf <=? 3 then (Z.to_nat cf, take (klen - 1) (drop (pos + 5) data)) :: rest else rest
        else match journalResyncFrom data pos with
             | None => []
             | Some c => parseLoop fuel' data c
             end
      else []
  end.
(** Every turn moves on by a byte at least. *)
Definition ParseJournalRecords (data : bytes) : list CfKey := parseLoop (S (length data)) data 0.

(** [None] is a nil value. *)
Definition journalRecord (cf : Z) (key : bytes) (value : option bytes) (deleted : bool) : bytes :=
  let totKlen := 1 + Z.of_nat (length key) in
  be32Bytes totKlen ++ cf :: key ++
  (if deleted then [255; 255; 255; 255]
   else match value with
        | None => [0; 0; 0; 1; 0]
        | Some v => be32Bytes (Z.of_nat (length v)) ++ v
        end).

(** The records of key-only entries. *)
Definition journalKeys (entries : list CfKey) : bytes :=
  concat (map (fun e => journalRecord (Z.of_nat e.1) e.2 None false) entries).

(** ** Records *)

(** What a datom's entry is: one of the four index families, and a key that
    fits the reader's limit. *)
Definition jentry_ok (e : CfKey) : Prop := (e.1 ≤ 3)%nat ∧ Z.of_nat (length e.2) < maxJournalKeyLen.

Lemma be32At_shift pre data pos : be32At (pre ++ data) (length pre + pos) = be32At data pos.
Proof. unfold be32At. rewrite <- !Nat.add_assoc, !nth_app_add. done. Qed.

Lemma recordLen_shift pre data pos :
  journalRecordLenAt (pre ++ data) (length pre + pos) = journalRecordLenAt data pos.
Proof.
  unfold journalRecordLenAt. rewrite be32At_shift, <- Nat.add_assoc, nth_app_add, length_app. cbv zeta.
  replace (_ >? _) with (Z.of_nat pos + 10 >? Z.of_nat (length data)) by lia.
  destruct (Z.of_nat pos + 10 >? _) eqn:E1; [done|].
  destruct ((be32At data pos <? 1) || _) eqn:E2; [done|].
  replace (_ >? _) with (Z.of_nat pos + 4 + be32At data pos + 4 >? Z.of_nat (length data)) by lia.
  destruct (_ + 4 >? _) eqn:E3; [done|]. destruct (_ >? 63); [done|].
  replace (Z.to_nat (Z.of_nat (length pre + pos) + 4 + be32At data pos))
    with (length pre + Z.to_nat (Z.of_nat pos + 4 + be32At data pos))%nat by lia.
  rewrite be32At_shift. destruct (_ >? maxJournalValLen); [done|].
  by replace (Z.of_nat (length pre + pos) + 4 + be32At data pos + 4 +
    be32At data (Z.to_nat (Z.of_nat pos + 4 + be32At data pos)) >? Z.of_nat (length pre + length data))
    with (Z.of_nat pos + 4 + be32At data pos + 4 + be32At data (Z.to_nat (Z.of_nat pos + 4 + be32At data pos)) >? Z.of_nat (length data)) by lia.
Qed.

Lemma nth_nonneg data i : bytes_ok data → 0 ≤ nth i data 0.
Proof.
  intros Hd. destruct (nth_in_or_default i data 0) as [Hin| ->]; [|lia]. apply list_elem_of_In in Hin.
  unfold bytes_ok in Hd. rewrite Forall_forall in Hd. apply Hd in Hin. unfold is_u8 in Hin. lia.
Qed.

Lemma be32At_nonneg data pos : bytes_ok data → 0 ≤ be32At data pos.
Proof.
  intros Hd. unfold be32At. rewrite !Z.lor_nonneg, !Z.shiftl_nonneg. split_and!; by apply nth_nonneg.
Qed.

Lemma recordLen_min data pos : bytes_ok data → journalRecordLenAt data pos = -1 ∨ 9 ≤ journalRecordLenAt data pos.
Proof.
  intros Hd. unfold journalRecordLenAt. cbv zeta.
  repeat match goal with |- context [if ?c then _ else _] => destruct c eqn:?; [by left|] end. right.
  pose proof (be32At_nonneg data (Z.to_nat (Z.of_nat pos + 4 + be32At data pos)) Hd).
  match goal with H : (_ <? 1) || _ = false |- _ => apply orb_false_elim in H as [? _] end. lia.
Qed.

(** ** Positions *)

Lemma leb_shift a b c : Nat.leb (a + b + 10) (a + c) = Nat.leb (b + 10) c.
Proof. destruct (Nat.leb_spec (a + b + 10) (a + c)), (Nat.leb_spec (b + 10) c); lia. Qed.

Lemma ltb_shift a b c : Nat.ltb (a + c) (a + b + 10) = Nat.ltb c (b + 10).
Proof. destruct (Nat.ltb_spec (a + c) (a + b + 10)), (Nat.ltb_spec c (b + 10)); lia. Qed.

Lemma chainLoop_fuel f1 f2 data p n :
  bytes_ok data → (length data ≤ p + f1)%nat → (length data ≤ p + f2)%nat → chainLoop f1 data p n = chainLoop f2 data p n.
Proof.
  intros Hd. revert f2 p n. induction f1 as [|f1 IH]; intros [|f2] p n H1 H2; [done| | |]; cbn [chainLoop].
  1, 2: by rewrite (proj2 (Nat.leb_gt _ _)) by lia.
  destruct (Nat.leb_spec (p + 10) (length data)); [|done]. cbv zeta.
  destruct (recordLen_min data p Hd) as [->|Hr]; [done|]. destruct (_ <? 0); [done|]. apply IH; lia.
Qed.

Lemma chainLoop_shift f pre data p n :
  chainLoop f (pre ++ data) (length pre + p) n = let '(q, m) := chainLoop f data p n in ((length pre + q)%nat, m).
Proof.
  revert p n. induction f as [|f IH]; intros p n; cbn [chainLoop]; [done|]. rewrite length_app, leb_shift, recordLen_shift. cbv zeta.
  destruct (Nat.leb _ _); [|done]. destruct (_ <? 0); [done|]. by rewrite <- Nat.add_assoc, IH.
Qed.

Lemma resyncLoop_fuel f1 f2 data c :
  (length data ≤ c + f1)%nat → (length data ≤ c + f2)%nat → resyncLoop f1 data c = resyncLoop f2 data c.
Proof.
  revert f2 c. induction f1 as [|f1 IH]; intros [|f2] c H1 H2; [done| | |]; cbn [resyncLoop].
  1, 2: by rewrite (proj2 (Nat.leb_gt _ _)) by lia.
  destruct (Nat.leb _ _); [|done]. destruct (chainLoop _ _ _ _) as [p chain]. destruct (Nat.leb _ _); [done|].
  destruct (_ && _); [done|]. apply IH; lia.
Qed.

Lemma resyncLoop_shift f pre data c :
  bytes_ok pre → bytes_ok data →
  resyncLoop f (pre ++ data) (length pre + c) = Nat.add (length pre) <$> resyncLoop f data c.
Proof.
  intros Hp Hd. revert c. induction f as [|f IH]; intros c; cbn [resyncLoop]; [done|]. rewrite length_app, leb_shift.
  destruct (Nat.leb_spec (c + 10) (length data)); [|done].
  rewrite chainLoop_shift, (chainLoop_fuel _ (length data)) by (done || lia).
  destruct (chainLoop (length data) data c 0) as [p chain]. cbv beta iota. rewrite ltb_shift.
  destruct (Nat.leb journalResync chain); [done|]. destruct (_ && _); [done|]. by rewrite <- IH, Nat.add_succ_r.
Qed.

Lemma resync_above data pos c : journalResyncFrom data pos = Some c → (pos < c)%nat.
Proof.
  unfold journalResyncFrom. generalize (length data) at 1. intros f. assert (∀ c0, resyncLoop f data c0 = Some c → (c0 ≤ c)%nat) as H.
  { induction f as [|f IH]; intros c0; cbn [resyncLoop]; [done|]. destruct (Nat.leb _ _); [|done].
    destruct (chainLoop _ _ _ _). destruct (Nat.leb _ _); [by intros [= <-]|]. destruct (_ && _); [by intros [= <-]|].
    intros ?%IH. lia. }
  intros ?%H. lia.
Qed.

Lemma parseLoop_fuel f1 f2 data pos :
  bytes_ok data → (length data < pos + f1)%nat → (length data < pos + f2)%nat → parseLoop f1 data pos = parseLoop f2 data pos.
Proof.
  intros Hd. revert f2 pos. induction f1 as [|f1 IH]; intros [|f2] pos H1 H2; [done| | |]; cbn [parseLoop].
  1, 2: by rewrite (proj2 (Nat.leb_gt _ _)) by lia.
  destruct (Nat.leb_spec (pos + 10) (length data)); [|done]. cbv zeta.
  destruct (Z.gtb_spec (journalRecordLenAt data pos) 0).
  - rewrite (IH f2) by lia. done.
  - destruct (journalResyncFrom data pos) as [c|] eqn:E; [|done]. apply resync_above in E. apply IH; lia.
Qed.

Lemma parseLoop_shift f pre data pos :
  bytes_ok pre → bytes_ok data → parseLoop f (pre ++ data) (length pre + pos) = parseLoop f data pos.
Proof.
  intros Hp Hd. revert pos. induction f as [|f IH]; intros pos; cbn [parseLoop]; [done|].
  rewrite length_app, leb_shift, recordLen_shift, be32At_shift, <- !Nat.add_assoc, nth_app_add. cbv zeta.
  rewrite drop_app_add, IH. destruct (Nat.leb_spec (pos + 10) (length data)); [|done].
  destruct (_ >? 0); [done|]. unfold journalResyncFrom. rewrite length_app, <- Nat.add_succ_r, resyncLoop_shift by done.
  rewrite (resyncLoop_fuel _ (length data)) by lia. destruct (resyncLoop _ data (S pos)) as [c|]; [|done]. cbn. apply IH.
Qed.

(** ** Reading back what was written *)

Lemma length_keyRecord cf key : length (journalRecord cf key None false) = (10 + length key)%nat.
Proof. unfold journalRecord. rewrite !length_app. cbn [length]. rewrite length_app. cbn [length be32Bytes]. lia. Qed.

Lemma keyRecord_ok e : jentry_ok e → bytes_ok e.2 → bytes_ok (journalRecord (Z.of_nat e.1) e.2 None false).
Proof.
  intros [Hcf _] Hk. unfold journalRecord, bytes_ok, be32Bytes. repeat (constructor; [unfold is_u8; mlia|]).
  apply Forall_app. split; [done|]. repeat (constructor; [unfold is_u8; lia|]). constructor.
Qed.

Lemma recordLen_keyRecord e tail :
  jentry_ok e → journalRecordLenAt (journalRecord (Z.of_nat e.1) e.2 None false ++ tail) 0 = 10 + Z.of_nat (length e.2).
Proof.
  intros [Hcf Hk]. unfold maxJournalKeyLen in Hk. unfold journalRecordLenAt. cbv zeta. rewrite length_app, length_keyRecord.
  assert (be32At (journalRecord (Z.of_nat e.1) e.2 None false ++ tail) 0 = 1 + Z.of_nat (length e.2)) as ->.
  { unfold journalRecord. cbv zeta. rewrite <- app_assoc. apply (be32At_bytes []). lia. }
  replace (_ >? _) with false by lia. replace (_ || _) with false by (unfold maxJournalKeyLen; lia).
  replace (_ >? _) with false by lia.
  change (nth (0 + 4) _ 0) with (Z.of_nat e.1). replace (_ >? 63) with false by lia.
  assert (be32At (journalRecord (Z.of_nat e.1) e.2 None false ++ tail) (Z.to_nat (Z.of_nat 0 + 4 + (1 + Z.of_nat (length e.2)))) = 1) as ->.
  { unfold journalRecord. cbv zeta. rewrite <- app_assoc. cbn [app].
    set (pre := be32Bytes (1 + Z.of_nat (length e.2)) ++ Z.of_nat e.1 :: e.2).
    replace (Z.to_nat _) with (length pre) by (unfold pre; rewrite length_app; cbn [length be32Bytes]; lia).
    replace (be32Bytes _ ++ Z.of_nat e.1 :: (e.2 ++ [0; 0; 0; 1; 0]) ++ tail) with (pre ++ be32Bytes 1 ++ 0 :: tail)
      by (unfold pre; rewrite <- ?app_assoc; cbn [app]; rewrite <- ?app_assoc; done).
    apply be32At_bytes. lia. }
  replace (_ >? _) with false by done. replace (_ >? _) with false by lia. lia.
Qed.

Lemma parse_record e tail :
  jentry_ok e → bytes_ok e.2 → bytes_ok tail →
  ParseJournalRecords (journalRecord (Z.of_nat e.1) e.2 None false ++ tail) = e :: ParseJournalRecords tail.
Proof.
  intros He Hk Ht. set (r := journalRecord _ _ _ _). pose proof (keyRecord_ok e He Hk) as Hr. fold r in Hr.
  assert (length r = (10 + length e.2)%nat) as Hlen by apply length_keyRecord.
  unfold ParseJournalRecords at 1. cbn [parseLoop]. rewrite (proj2 (Nat.leb_le _ _)) by (rewrite length_app; lia). cbv zeta.
  assert (journalRecordLenAt (r ++ tail) 0 = 10 + Z.of_nat (length e.2)) as -> by (by apply recordLen_keyRecord). replace (_ >? 0) with true by lia. cbn [plus].
  replace (be32At (r ++ tail) 0) with (1 + Z.of_nat (length e.2)).
  2:{ destruct He as [_ He]. unfold maxJournalKeyLen in He. unfold r, journalRecord. cbv zeta. rewrite <- app_assoc. symmetry. apply (be32At_bytes []). lia. }
  replace (nth 4 (r ++ tail) 0) with (Z.of_nat e.1) by done. destruct He as [Hcf He].
  replace (_ <=? 3) with true by lia. f_equal.
  - rewrite Nat2Z.id. replace (Z.to_nat _ - 1)%nat with (length e.2) by lia. unfold r, journalRecord. cbn [be32Bytes app drop].
    rewrite drop_0, <- app_assoc, take_app_length. by destruct e.
  - replace (Z.to_nat (10 + Z.of_nat (length e.2))) with (length r + 0)%nat by lia. rewrite parseLoop_shift by done.
    apply parseLoop_fuel; [done|rewrite length_app|]; lia.
Qed.

Lemma journalKeys_ok es : Forall jentry_ok es → Forall (fun e => bytes_ok e.2) es → bytes_ok (journalKeys es).
Proof.
  intros H1 H2. induction H1 as [|e es He H1 IH]; [constructor|]. apply Forall_cons in H2 as [Hk H2].
  unfold journalKeys, bytes_ok. cbn [map concat]. apply Forall_app. split; [by apply keyRecord_ok|by apply IH].
Qed.

Lemma parse_app es tail :
  Forall jentry_ok es → Forall (fun e => bytes_ok e.2) es → bytes_ok tail →
  ParseJournalRecords (journalKeys es ++ tail) = es ++ ParseJournalRecords tail.
Proof.
  intros H1 H2 Ht. induction H1 as [|e es He H1 IH]; [done|]. apply Forall_cons in H2 as [Hk H2].
  unfold journalKeys. cbn [map concat]. rewrite <- app_assoc. fold (journalKeys es). rewrite parse_record; [by rewrite IH|done|done|].
  apply Forall_app. split; [by apply journalKeys_ok|done].
Qed.

Lemma parse_short tail : (length tail < 10)%nat → ParseJournalRecords tail = [].
Proof. intros Ht. unfold ParseJournalRecords. cbn [parseLoop]. by rewrite (proj2 (Nat.leb_gt _ _)) by lia. Qed.

(** Reading a journal gives back every entry written to it, in order,
    whatever bytes a torn write left behind them; less than ten such bytes add
    nothing. *)
Theorem journal_prefix_exact es tail :
  Forall jentry_ok es → Forall (fun e => bytes_ok e.2) es → bytes_ok tail →
  (∃ extra, ParseJournalRecords (journalKeys es ++ tail) = es ++ extra)
  ∧ ((length tail < 10)%nat → ParseJournalRecords (journalKeys es ++ tail) = es).
Proof.
  intros H1 H2 Ht. rewrite parse_app by done. split; [by eexists|]. intros Hl. by rewrite parse_short, app_nil_r.
Qed.

Definition sampleEntries : list CfKey := [(0%nat, [1; 2; 3]); (3%nat, []); (0%nat, [255])].

Lemma journal_prefix_exact_witness : ParseJournalRecords (journalKeys sampleEntries ++ [0; 0; 0; 9]) = sampleEntries.
Proof.
  apply (journal_prefix_exact sampleEntries [0; 0; 0; 9]).
  - repeat (constructor; [split; [cbn; lia|by vm_compute]|]). constructor.
  - repeat (constructor; [repeat (constructor; [unfold is_u8; lia|]); constructor|]). constructor.
  - repeat (constructor; [unfold is_u8; lia|]). constructor.
  - cbn. lia.
Defined.

(** A record cut short by a crash can be read as an entry nobody wrote: the
    reader looks for records inside the torn key. *)
Theorem journal_torn_phantom :
  ∃ (e phantom : CfKey) (n : nat),
    jentry_ok e ∧ bytes_ok e.2 ∧ (n < length (journalKeys [e]))%nat
    ∧ ParseJournalRecords (take n (journalKeys [e])) = [phantom] ∧ phantom ≠ e.
Proof.
  exists (0%nat, journalRecord 0 [7; 7] None false ++ [1; 2; 3; 4; 5; 6; 7; 8]), (0%nat, [7; 7]), 17%nat.
  split; [split; [cbn; lia|by vm_compute]|]. split; [by repeat (constructor; [unfold is_u8; by vm_compute|]); constructor|].
  split; [cbn; lia|]. split; [by vm_compute|done].
Qed.
