(* ===== verification/Wal.v ===== *)
(** * The write-ahead log (go/internal/wal/wal.go)

    The segmented writer: records are buffered, written to the live segment and
    the segment is rotated at the position a flush capture marks. Writes to the
    file may fail after any number of bytes. *)

From S2P Require Import Prelude Pages NewestWins Memtable Journal.

(** ** Definitions *)

(** [segs] are the segment files of the directory by their index, of which
    [segIdx] is the open one; [fopen] is false once it is closed. [io] says how
    the coming writes end: [Some n] fails after [n] bytes, and all succeed once
    the list is used up. *)
Record Writer : Type := mkWriter {
  segs : gmap nat bytes;
  segIdx : nat;
  fopen : bool;
  offset : nat;
  wbuf : bytes;
  bufPos : Z;
  logicalEnd : Z;
  sealBoundary : Z;
  sealed : list (nat * Z);
  stopped : bool;
  io : list (option nat);
}.

(** One above the greatest index in the directory. *)
Definition nextIdx (m : gmap nat bytes) : nat := map_fold (fun i _ n => Nat.max (S i) n) 0%nat m.

(** The segments in the order of their indexes. *)
Definition listSegments (m : gmap nat bytes) : list (nat * bytes) :=
  omap (fun i => pair i <$> m !! i) (seq 0 (nextIdx m)).

(** Opens or creates a segment and goes to its end. *)
Definition openSeg (m : gmap nat bytes) (idx : nat) : gmap nat bytes * nat :=
  match m !! idx with
  | Some f => (m, length f)
  | None => (<[idx := []]> m, 0%nat)
  end.

Definition Attach (m : gmap nat bytes) (io : list (option nat)) : Writer :=
  let idx := nextIdx m in
  let '(m, off) := openSeg m idx in
  mkWriter m idx true off [] 0 0 (-1) [] false io.

(** Overwrites from [off] on, within or at the end of the file. *)
Definition writeBytes (f : bytes) (off : nat) (data : bytes) : bytes :=
  take off f ++ data ++ drop (off + length data) f.

(** [f.WriteAt(data, offset)], and whether it succeeded. *)
Definition WriteAt (w : Writer) (data : bytes) : Writer * bool :=
  if fopen w then
    let '(out, io') := match io w with [] => (None, []) | o :: rest => (o, rest) end in
    let '(data, ok) := match out with None => (data, true) | Some n => (take n data, false) end in
    let f := writeBytes (default [] (segs w !! segIdx w)) (offset w) data in
    (mkWriter (<[segIdx w := f]> (segs w)) (segIdx w) true (offset w) (wbuf w) (bufPos w) (logicalEnd w)
       (sealBoundary w) (sealed w) (stopped w) io', ok)
  else (w, false).

(** The first [n] bytes of the buffer are on disk. *)
Definition written (w : Writer) (n : nat) : Writer :=
  mkWriter (segs w) (segIdx w) (fopen w) (offset w + n) (drop n (wbuf w)) (bufPos w + Z.of_nat n) (logicalEnd w)
    (sealBoundary w) (sealed w) (stopped w) (io w).

(** Closes the segment and opens the next one. *)
Definition rotate (w : Writer) : Writer :=
  let '(m, off) := openSeg (segs w) (S (segIdx w)) in
  mkWriter m (S (segIdx w)) true off (wbuf w) (bufPos w) (logicalEnd w) (-1)
    (sealed w ++ [(segIdx w, sealBoundary w)]) (stopped w) (io w).

(** Writes the first [n] bytes of the buffer. *)
Definition writeHead (w : Writer) (n : nat) : Writer * bool :=
  let '(w, ok) := WriteAt w (take n (wbuf w)) in
  if ok : bool then (written w n, true) else (w, false).

Fixpoint drainLoop (fuel : nat) (w : Writer) : Writer * bool :=
  match fuel with
  | O => (w, false)
  | S fuel' =>
      if sealBoundary w >=? 0 then
        let split := if sealBoundary w >? bufPos w
                     then Nat.min (Z.to_nat (sealBoundary w - bufPos w)) (length (wbuf w)) else 0%nat in
        let '(w, ok) := if Nat.ltb 0 split then writeHead w split else (w, true) in
        if ok : bool then
          let w := if bufPos w >=? sealBoundary w then rotate w else w in
          if Nat.eqb (length (wbuf w)) 0 then (w, true) else drainLoop fuel' w
        else (w, false)
      else if Nat.eqb (length (wbuf w)) 0 then (w, true)
      else writeHead w (length (wbuf w))
  end.
(** After the turn that reaches the boundary only a plain write is left. *)
Definition drainLocked (w : Writer) : Writer * bool := drainLoop 2 w.

Definition Drain (w : Writer) : Writer * bool := drainLocked w.

(** The new state and what [OnWal] is given. *)
Definition Sink (w : Writer) (entries : list CfKey) : Writer * option bytes :=
  if stopped w then (w, None)
  else
    let data := journalKeys entries in
    let w := mkWriter (segs w) (segIdx w) (fopen w) (offset w) (wbuf w ++ data) (bufPos w)
               (logicalEnd w + Z.of_nat (length data)) (sealBoundary w) (sealed w) (stopped w) (io w) in
    ((drainLocked w).1, if Nat.ltb 0 (length data) then Some data else None).

Definition Seal (w : Writer) : Writer * Z :=
  (mkWriter (segs w) (segIdx w) (fopen w) (offset w) (wbuf w) (bufPos w) (logicalEnd w) (logicalEnd w)
     (sealed w) (stopped w) (io w), logicalEnd w).

(** Removes the sealed segments up to the durable position. *)
Fixpoint deleteLoop (m : gmap nat bytes) (s : list (nat * Z)) (durable : Z) : gmap nat bytes * list (nat * Z) :=
  match s with
  | [] => (m, [])
  | (idx, boundary) :: rest =>
      if boundary <=? durable then
        match m !! idx with
        | Some _ => deleteLoop (delete idx m) rest durable
        | None => (m, s)
        end
      else (m, s)
  end.
Definition deleteDurable (w : Writer) (durable : Z) : Writer :=
  let '(m, s) := deleteLoop (segs w) (sealed w) durable in
  mkWriter m (segIdx w) (fopen w) (offset w) (wbuf w) (bufPos w) (logicalEnd w) (sealBoundary w) s (stopped w) (io w).

(** One turn of the background loop. *)
Definition cycle (w : Writer) (durable : Z) : Writer :=
  if stopped w then w else deleteDurable (drainLocked w).1 durable.

Definition Stop (w : Writer) : Writer :=
  if stopped w then w
  else
    let w := mkWriter (segs w) (segIdx w) (fopen w) (offset w) (wbuf w) (bufPos w) (logicalEnd w) (sealBoundary w)
               (sealed w) true (io w) in
    let w := (drainLocked w).1 in
    mkWriter (segs w) (segIdx w) false (offset w) (wbuf w) (bufPos w) (logicalEnd w) (sealBoundary w)
      (sealed w) (stopped w) (io w).

Definition OpenTail (w : Writer) : bytes := wbuf w.

(** What a replication snapshot holds: the other segments and the live bytes. *)
Definition SnapshotLocked (w : Writer) : Writer * (list nat * bytes) :=
  let w := (drainLocked w).1 in
  (w, (List.filter (fun i => negb (Nat.eqb i (segIdx w))) (map fst (listSegments (segs w))),
       default [] (segs w !! segIdx w))).

(** What a restart reads from the segments. *)
Definition replaySegments (m : gmap nat bytes) : list CfKey :=
  concat (map (fun p => ParseJournalRecords p.2) (listSegments m)).

(** Uses of the writer; a deletion comes with the durable position it reads. *)
Inductive wop : Type :=
| WSink (entries : list CfKey)
| WSeal
| WDrain
| WDelete (durable : Z)
| WStop
| WSnapshot.

#[export] Instance wop_eq_dec : EqDecision wop.
Proof. solve_decision. Defined.

Definition runW1 (w : Writer) (o : wop) : Writer :=
  match o with
  | WSink es => (Sink w es).1
  | WSeal => (Seal w).1
  | WDrain => (Drain w).1
  | WDelete d => deleteDurable w d
  | WStop => Stop w
  | WSnapshot => (SnapshotLocked w).1
  end.
Definition runW (w : Writer) (ops : list wop) : Writer := fold_left runW1 ops w.

(** The entries the writer took: none after it stopped. *)
Fixpoint accepted (off : bool) (ops : list wop) : list CfKey :=
  match ops with
  | [] => []
  | WSink es :: ops => (if off then [] else es) ++ accepted off ops
  | WStop :: ops => accepted true ops
  | _ :: ops => accepted off ops
  end.

(** ** The layout of the log *)

Lemma nextIdx_above (m : gmap nat bytes) i : (nextIdx m ≤ i)%nat → m !! i = None.
Proof.
  unfold nextIdx. revert i. induction m as [|j f m Hj Hfold IH] using map_first_key_ind; intros i; [by rewrite lookup_empty|].
  rewrite map_fold_insert_first_key by done. intros Hi. rewrite lookup_insert_ne by lia. apply IH. lia.
Qed.

Lemma journalKeys_app a b : journalKeys (a ++ b) = journalKeys a ++ journalKeys b.
Proof. unfold journalKeys. by rewrite map_app, concat_app. Qed.

Definition entries_ok (es : list CfKey) : Prop := Forall (fun e => jentry_ok e ∧ bytes_ok e.2) es.

Lemma parse_keys es : entries_ok es → ParseJournalRecords (journalKeys es) = es.
Proof.
  intros [H1 H2]%Forall_and. rewrite <- (app_nil_r (journalKeys es)), parse_app by (done || constructor). by rewrite app_nil_r.
Qed.

Lemma parse_parts parts : entries_ok (concat parts) → map (fun part => ParseJournalRecords (journalKeys part)) parts = parts.
Proof.
  induction parts as [|part parts IH]; [done|]. cbn [concat map]. intros [??]%Forall_app. by rewrite parse_keys, IH.
Qed.

Section layout.
Context (m0 : gmap nat bytes).
Implicit Types (lost cur : list CfKey) (parts : list (list CfKey)) (w : Writer).

(** The segments of earlier sessions are as found, [gone] segments of this one
    are deleted, one file holds each of [parts], and the open file together
    with the buffer holds [cur], of which the file has [g] for certain and maybe
    [k] bytes more. *)
Record layout lost parts cur (g : bytes) (k gone : nat) w : Prop := {
  lay_file : segs w !! segIdx w = Some (g ++ take k (wbuf w));
  lay_offset : length g = offset w;
  lay_cur : g ++ wbuf w = journalKeys cur;
  lay_pos : bufPos w = Z.of_nat (length (journalKeys (lost ++ concat parts)) + offset w);
  lay_end : logicalEnd w = Z.of_nat (length (journalKeys (lost ++ concat parts ++ cur)));
  lay_k : (k ≤ length (wbuf w))%nat;
  lay_seal : sealBoundary w = -1 ∨
    ∃ c1 c2, cur = c1 ++ c2
      ∧ sealBoundary w = Z.of_nat (length (journalKeys (lost ++ concat parts)) + length (journalKeys c1))
      ∧ (offset w + k ≤ length (journalKeys c1))%nat;
  lay_idx : segIdx w = (nextIdx m0 + gone + length parts)%nat;
  lay_sealed : ∀ i, sealed w !! i =
    match parts !! i with
    | Some _ => Some ((nextIdx m0 + gone + i)%nat, Z.of_nat (length (journalKeys (lost ++ concat (take (S i) parts)))))
    | None => None
    end;
  lay_parts : ∀ i part, parts !! i = Some part → segs w !! (nextIdx m0 + gone + i)%nat = Some (journalKeys part);
  lay_old : ∀ i, (i < nextIdx m0)%nat → segs w !! i = m0 !! i;
  lay_gone : ∀ i, (nextIdx m0 ≤ i < nextIdx m0 + gone)%nat → segs w !! i = None;
  lay_new : ∀ i, (segIdx w < i)%nat → segs w !! i = None;
}.

Lemma writeBytes_take g buf k n :
  (k ≤ length buf)%nat → (n ≤ length buf)%nat →
  writeBytes (g ++ take k buf) (length g) (take n buf) = g ++ take (Nat.max k n) buf.
Proof.
  intros Hk Hn. unfold writeBytes. rewrite take_app_length, drop_app_add, length_take, Nat.min_l by done. f_equal.
  destruct (Nat.le_ge_cases k n) as [H|H].
  - rewrite Nat.max_r, drop_ge, app_nil_r by (rewrite ?length_take; lia). done.
  - rewrite Nat.max_l by done. rewrite <- (take_drop n (take k buf)) at 2. by rewrite take_take, Nat.min_l.
Qed.

Definition withFile w (f : bytes) (io' : list (option nat)) : Writer :=
  mkWriter (<[segIdx w := f]> (segs w)) (segIdx w) true (offset w) (wbuf w) (bufPos w) (logicalEnd w)
    (sealBoundary w) (sealed w) (stopped w) io'.

Lemma withFile_layout lost parts cur g k gone w n io' :
  layout lost parts cur g k gone w → (n ≤ length (wbuf w))%nat →
  sealBoundary w = -1 ∨ bufPos w + Z.of_nat n ≤ sealBoundary w →
  layout lost parts cur g (Nat.max k n) gone (withFile w (g ++ take (Nat.max k n) (wbuf w)) io').
Proof.
  intros [H1 H2 H3 H4 H5 H6 H7 H8 H9 H10 H11 H12 H13] Hn Hs.
  constructor; cbn [withFile segs segIdx wbuf offset bufPos logicalEnd sealBoundary sealed]; try done.
  - by rewrite lookup_insert_eq.
  - lia.
  - destruct H7 as [?|(c1&c2&?&Hb&Hk)]; [by left|right]. exists c1, c2. split_and!; [done|done|].
    destruct Hs as [Hs|Hs]; [rewrite Hs in Hb; lia|]. lia.
  - intros i part Hi. rewrite lookup_insert_ne; [by apply H10|]. apply lookup_lt_Some in Hi. lia.
  - intros i Hi. rewrite lookup_insert_ne by lia. by apply H11.
  - intros i Hi. rewrite lookup_insert_ne by lia. by apply H12.
  - intros i Hi. rewrite lookup_insert_ne by lia. by apply H13.
Qed.

(** A write of a part of the buffer, whole or failing, leaves a layout; a whole
    one puts those bytes in the file. *)
Lemma WriteAt_cases lost parts cur g k gone w n :
  layout lost parts cur g k gone w → (n ≤ length (wbuf w))%nat →
  (∃ w', WriteAt w (take n (wbuf w)) = (w', false) ∧ (io w ≠ [] ∨ fopen w = false)
     ∧ (w' = w ∨ ∃ n' rest, (n' ≤ n)%nat ∧ w' = withFile w (g ++ take (Nat.max k n') (wbuf w)) rest))
  ∨ (∃ rest, WriteAt w (take n (wbuf w)) = (withFile w (g ++ take (Nat.max k n) (wbuf w)) rest, true)
     ∧ (io w = [] → rest = []) ∧ fopen w = true).
Proof.
  intros [H1 H2 _ _ _ H6] Hn. unfold WriteAt. destruct (fopen w).
  2:{ left. exists w. auto. }
  rewrite H1. change (default [] (Some ?f)) with f. rewrite <- H2. destruct (io w) as [|[x|] rest].
  - right. exists []. rewrite writeBytes_take by done. unfold withFile. by rewrite H2.
  - left. rewrite take_take, writeBytes_take by lia. eexists. split; [done|]. split; [by left|]. right.
    exists (Nat.min x n), rest. split; [lia|]. unfold withFile. by rewrite H2.
  - right. exists rest. rewrite writeBytes_take by done. unfold withFile. by rewrite H2.
Qed.

Lemma written_layout lost parts cur g k gone w n :
  layout lost parts cur g k gone w → (n ≤ k)%nat →
  layout lost parts cur (g ++ take n (wbuf w)) (k - n) gone (written w n).
Proof.
  intros [H1 H2 H3 H4 H5 H6 H7 H8 H9 H10 H11 H12 H13] Hn.
  constructor; cbn [written segs segIdx wbuf offset bufPos logicalEnd sealBoundary sealed]; try done.
  - rewrite H1. f_equal. rewrite <- app_assoc. f_equal. rewrite <- (take_drop n (take k (wbuf w))) at 1.
    by rewrite take_take, Nat.min_l, skipn_firstn_comm by done.
  - rewrite length_app, length_take, H2. lia.
  - by rewrite <- app_assoc, take_drop.
  - lia.
  - rewrite length_drop. lia.
  - destruct H7 as [?|(c1&c2&?&Hb&Hk)]; [by left|right]. exists c1, c2. split_and!; [done|done|lia].
Qed.

Lemma concat_snoc {A} (l : list (list A)) x : concat (l ++ [x]) = concat l ++ x.
Proof. rewrite concat_app. cbn [concat]. by rewrite app_nil_r. Qed.

Lemma rotate_layout lost parts cur g k gone w :
  layout lost parts cur g k gone w → 0 ≤ sealBoundary w → sealBoundary w ≤ bufPos w →
  ∃ c1 c2, cur = c1 ++ c2 ∧ layout lost (parts ++ [c1]) c2 [] 0 gone (rotate w).
Proof.
  intros [H1 H2 H3 H4 H5 H6 H7 H8 H9 H10 H11 H12 H13] Hs Hb. destruct H7 as [?|(c1&c2&Hc&Hsb&Hk)]; [lia|].
  exists c1, c2. split; [done|]. assert (k = 0%nat) as -> by lia. rewrite Hc, journalKeys_app in H3.
  apply app_inj_1 in H3 as [Hg Hw]; [|lia]. unfold rotate, openSeg. rewrite H13 by lia. rewrite app_nil_r in H1.
  assert (lost ++ concat (parts ++ [c1]) = (lost ++ concat parts) ++ c1) as Happ by (by rewrite concat_snoc, app_assoc).
  constructor; cbn [segs segIdx wbuf offset bufPos logicalEnd sealBoundary sealed]; try done.
  - by rewrite lookup_insert_eq.
  - rewrite Happ, (journalKeys_app _ c1), length_app. lia.
  - rewrite H5, Hc, concat_snoc. by rewrite <- !app_assoc.
  - lia.
  - rewrite length_app. cbn [length]. lia.
  - intros i. destruct (Nat.lt_trichotomy i (length parts)) as [Hi|[->|Hi]].
    + rewrite lookup_app_l by (apply lookup_lt_is_Some; rewrite H9; by apply lookup_lt_is_Some in Hi as [? ->]).
      rewrite H9, lookup_app_l by done. destruct (parts !! i) eqn:E; [|done]. by rewrite take_app_le by lia.
    + assert (length (sealed w) = length parts) as Hlen.
      { apply Nat.le_antisymm; apply Nat.nlt_ge; intros Hlt; apply lookup_lt_is_Some in Hlt as [x Hx].
        - by rewrite H9, lookup_ge_None_2 in Hx.
        - pose proof (H9 (length (sealed w))) as E. rewrite Hx, lookup_ge_None_2 in E; done. }
      rewrite <- Hlen at 1. rewrite list_lookup_middle, list_lookup_middle by done. do 2 f_equal; [lia|].
      rewrite take_ge by (rewrite length_app; cbn [length]; lia). rewrite Happ, (journalKeys_app _ c1), length_app. lia.
    + rewrite (lookup_ge_None_2 (parts ++ [c1])) by (rewrite length_app; cbn [length]; lia).
      apply lookup_ge_None_2. apply Nat.nlt_ge. intros Hlt. rewrite length_app in Hlt. cbn [length] in Hlt.
      assert (length parts < length (sealed w))%nat as [x Hx]%lookup_lt_is_Some by lia. by rewrite H9, lookup_ge_None_2 in Hx.
  - intros i part Hi. destruct (decide (i = length parts)) as [->|Hne].
    + rewrite list_lookup_middle in Hi by done. injection Hi as <-. rewrite lookup_insert_ne by lia.
      rewrite <- H8, H1. by rewrite Hg.
    + rewrite lookup_app_l in Hi; [rewrite lookup_insert_ne; [by apply H10|]; apply lookup_lt_Some in Hi; lia|].
      apply lookup_lt_Some in Hi. rewrite length_app in Hi. cbn [length] in Hi. lia.
  - intros i Hi. rewrite lookup_insert_ne by lia. by apply H11.
  - intros i Hi. rewrite lookup_insert_ne by lia. by apply H12.
  - intros i Hi. rewrite lookup_insert_ne by lia. apply H13. lia.
Qed.

(** The log holds [es] but for [lost]. *)
Definition holds (es lost : list CfKey) (gone : nat) w : Prop :=
  ∃ parts cur g k, lost ++ concat parts ++ cur = es ∧ layout lost parts cur g k gone w.

(** Nothing fails from here on. *)
Definition clean w : Prop := io w = [] ∧ fopen w = true.

Lemma writeHead_holds es lost gone w n :
  holds es lost gone w → (n ≤ length (wbuf w))%nat → sealBoundary w = -1 ∨ bufPos w + Z.of_nat n ≤ sealBoundary w →
  ∃ w' ok, writeHead w n = (w', ok) ∧ holds es lost gone w' ∧ sealBoundary w' = sealBoundary w ∧ stopped w' = stopped w
    ∧ (ok = true → bufPos w' = bufPos w + Z.of_nat n ∧ wbuf w' = drop n (wbuf w)) ∧ (clean w → ok = true ∧ clean w').
Proof.
  intros (parts&cur&g&k&Hes&Hl) Hn Hs. unfold writeHead.
  destruct (WriteAt_cases _ _ _ _ _ _ _ n Hl Hn) as [(w'&->&Hbad&Hw')|(rest&->&Hio&Hopen)].
  - exists w', false. split; [done|]. assert (¬ clean w) as Hnc by (intros [??]; destruct Hbad; congruence).
    destruct Hw' as [->|(n'&rest&Hn'&->)].
    + split; [by exists parts, cur, g, k|]. done.
    + split; [exists parts, cur, g, (Nat.max k n'); split; [done|]; apply withFile_layout; [done|lia|]|done].
      destruct Hs; [by left|right; lia].
  - eexists _, true. split; [done|]. split; [|split_and!; try done; intros [? _]; split; [done|by split; [apply Hio|]]].
    exists parts, cur, (g ++ take n (wbuf w)), (Nat.max k n - n)%nat. split; [done|].
    apply (written_layout lost parts cur g (Nat.max k n) gone (withFile w _ rest)); [by apply withFile_layout|lia].
Qed.

Lemma rotate_holds es lost gone w :
  holds es lost gone w → 0 ≤ sealBoundary w → sealBoundary w ≤ bufPos w → holds es lost gone (rotate w).
Proof.
  intros (parts&cur&g&k&Hes&Hl) H0 Hb. destruct (rotate_layout _ _ _ _ _ _ _ Hl H0 Hb) as (c1&c2&->&Hl').
  exists (parts ++ [c1]), c2, [], 0%nat. split; [|done]. rewrite concat_snoc, <- Hes. by rewrite <- !app_assoc.
Qed.

Lemma rotate_rest w :
  wbuf (rotate w) = wbuf w ∧ stopped (rotate w) = stopped w ∧ sealBoundary (rotate w) = -1 ∧ (clean w → clean (rotate w)).
Proof. unfold rotate, clean. destruct (openSeg _ _). cbn. by split_and!; try intros [? ?]. Qed.

Lemma drainLoop_holds fuel es lost gone w :
  holds es lost gone w →
  holds es lost gone (drainLoop fuel w).1 ∧ stopped (drainLoop fuel w).1 = stopped w
  ∧ (clean w → clean (drainLoop fuel w).1)
  ∧ (clean w → (2 ≤ fuel)%nat ∨ (1 ≤ fuel)%nat ∧ sealBoundary w = -1 → wbuf (drainLoop fuel w).1 = []).
Proof.
  revert w. induction fuel as [|fuel IH]; intros w Hw; cbn [drainLoop]; [split_and!; [done..|lia]|].
  assert (0 ≤ sealBoundary w ∨ sealBoundary w = -1) as Hsb.
  { destruct Hw as (parts&cur&g&k&_&Hl). destruct (lay_seal _ _ _ _ _ _ _ Hl) as [?|(?&?&_&->&_)]; lia. }
  destruct (Z.geb_spec (sealBoundary w) 0) as [H0|H0]; cycle 1.
  - destruct Hsb as [?|Hsb]; [lia|]. destruct (Nat.eqb_spec (length (wbuf w)) 0) as [E|_].
    + split_and!; try done. intros _ _. by apply nil_length_inv.
    + destruct (writeHead_holds es lost gone w (length (wbuf w))) as (w'&ok&->&Hw'&_&Hst&Hok&Hc); [done|lia|by left|].
      split_and!; [done|done|by intros [_ ?]%Hc|]. intros [-> _]%Hc _. cbn [fst]. destruct (Hok eq_refl) as [_ ->]. by rewrite drop_all.
  - set (split := if _ >? _ then _ else _).
    assert ((split ≤ length (wbuf w))%nat ∧ ((0 < split)%nat → bufPos w + Z.of_nat split ≤ sealBoundary w)
      ∧ (bufPos w + Z.of_nat split < sealBoundary w → split = length (wbuf w))) as (Hs1&Hs2&Hs3).
    { unfold split. destruct (Z.gtb_spec (sealBoundary w) (bufPos w)); lia. }
    assert (∃ w' ok, (if Nat.ltb 0 split then writeHead w split else (w, true)) = (w', ok)
      ∧ holds es lost gone w' ∧ sealBoundary w' = sealBoundary w ∧ stopped w' = stopped w
      ∧ (ok = true → bufPos w' = bufPos w + Z.of_nat split ∧ wbuf w' = drop split (wbuf w))
      ∧ (clean w → ok = true ∧ clean w')) as (w'&ok&->&Hw'&Hsb'&Hst'&Hok&Hc).
    { destruct (Nat.ltb_spec 0 split) as [Hp|Hp]; [apply writeHead_holds; [done|done|right; by apply Hs2]|].
      exists w, true. replace split with 0%nat by lia. split_and!; try done. intros _. split; [lia|done]. }
    destruct ok; [|by split_and!; [..|intros [? _]%Hc|intros [? _]%Hc]]. destruct (Hok eq_refl) as [Hbp Hbuf].
    set (w2 := if _ >=? _ then rotate w' else w').
    assert (holds es lost gone w2 ∧ stopped w2 = stopped w ∧ (clean w → clean w2) ∧ wbuf w2 = wbuf w'
      ∧ (sealBoundary w2 = -1 ∨ wbuf w' = [])) as (Hw2&Hst2&Hc2&Hb2&Hd).
    { unfold w2. destruct (rotate_rest w') as (Hr1&Hr2&Hr3&Hr4). destruct (Z.geb_spec (bufPos w') (sealBoundary w')).
      - split_and!; [apply rotate_holds; [done|lia|lia]|congruence|intros [_ ?]%Hc; by apply Hr4|done|by left].
      - split_and!; [done|done|by intros [_ ?]%Hc|done|right]. rewrite Hbuf, Hs3 by lia. apply drop_all. }
    destruct (Nat.eqb_spec (length (wbuf w2)) 0) as [E|E].
    + split_and!; [done|done|done|]. intros _ _. by apply nil_length_inv.
    + destruct (IH w2 Hw2) as (I1&I2&I3&I4). split_and!; [done|congruence|by intros ?%Hc2%I3|].
      intros ?%Hc2 Hf. apply I4; [done|]. destruct Hd as [?|Hd]; [|by rewrite Hb2, Hd in E]. right. split; [lia|done].
Qed.

Definition withBuf w (buf : bytes) (e : Z) : Writer :=
  mkWriter (segs w) (segIdx w) (fopen w) (offset w) buf (bufPos w) e (sealBoundary w) (sealed w) (stopped w) (io w).

Lemma append_holds es lost gone w more :
  holds es lost gone w →
  holds (es ++ more) lost gone (withBuf w (wbuf w ++ journalKeys more) (logicalEnd w + Z.of_nat (length (journalKeys more)))).
Proof.
  intros (parts&cur&g&k&Hes&[H1 H2 H3 H4 H5 H6 H7 H8 H9 H10 H11 H12 H13]). exists parts, (cur ++ more), g, k.
  split; [by rewrite <- Hes, <- !app_assoc|].
  constructor; cbn [withBuf segs segIdx wbuf offset bufPos logicalEnd sealBoundary sealed]; try done.
  - by rewrite take_app_le.
  - by rewrite app_assoc, H3, journalKeys_app.
  - rewrite H5, !app_assoc, (journalKeys_app _ more), length_app, <- !app_assoc. lia.
  - rewrite length_app. lia.
  - destruct H7 as [?|(c1&c2&->&Hb&Hk)]; [by left|right]. exists c1, (c2 ++ more). by rewrite <- app_assoc.
Qed.

Lemma Seal_holds es lost gone w : holds es lost gone w → holds es lost gone (Seal w).1.
Proof.
  intros (parts&cur&g&k&Hes&[H1 H2 H3 H4 H5 H6 H7 H8 H9 H10 H11 H12 H13]). exists parts, cur, g, k. split; [done|].
  constructor; cbn [Seal fst segs segIdx wbuf offset bufPos logicalEnd sealBoundary sealed]; try done.
  right. exists cur, []. rewrite app_nil_r. split_and!; [done| |].
  - rewrite H5, app_assoc, (journalKeys_app _ cur), length_app. lia.
  - rewrite <- H3, length_app, H2. lia.
Qed.

Definition withSegs w (m : gmap nat bytes) (sl : list (nat * Z)) : Writer :=
  mkWriter m (segIdx w) (fopen w) (offset w) (wbuf w) (bufPos w) (logicalEnd w) (sealBoundary w) sl (stopped w) (io w).

(** The oldest sealed segment goes. *)
Lemma delete_layout lost part parts cur g k gone w :
  layout lost (part :: parts) cur g k gone w →
  ∃ sl, sealed w = ((nextIdx m0 + gone)%nat, Z.of_nat (length (journalKeys (lost ++ part)))) :: sl
    ∧ is_Some (segs w !! (nextIdx m0 + gone)%nat)
    ∧ layout (lost ++ part) parts cur g k (S gone) (withSegs w (delete (nextIdx m0 + gone)%nat (segs w)) sl).
Proof.
  intros [H1 H2 H3 H4 H5 H6 H7 H8 H9 H10 H11 H12 H13].
  pose proof (H9 0%nat) as E0. cbn in E0. destruct (sealed w) as [|x sl] eqn:Es; [done|]. injection E0 as ->.
  exists sl. rewrite Nat.add_0_r, app_nil_r. split; [done|].
  pose proof (H10 0%nat part eq_refl) as F0. rewrite Nat.add_0_r in F0. split; [by rewrite F0|]. cbn [length] in H8.
  cbn [concat] in *. constructor; cbn [withSegs segs segIdx wbuf offset bufPos logicalEnd sealBoundary sealed]; rewrite <- ?app_assoc in *; try done.
  - rewrite lookup_delete_ne by lia. done.
  - lia.
  - intros i. specialize (H9 (S i)). rewrite !lookup_cons in H9. rewrite H9. destruct (parts !! i); [|done].
    change (take (S (S i)) (part :: parts)) with (part :: take (S i) parts). cbn [concat]. rewrite <- ?app_assoc. apply f_equal, f_equal2; [lia|done].
  - intros i p Hi. rewrite lookup_delete_ne by lia. specialize (H10 (S i) p Hi). by replace (nextIdx m0 + S gone + i)%nat with (nextIdx m0 + gone + S i)%nat by lia.
  - intros i Hi. rewrite lookup_delete_ne by lia. by apply H11.
  - intros i Hi. destruct (decide (i = (nextIdx m0 + gone)%nat)) as [->|]; [by rewrite lookup_delete_eq|].
    rewrite lookup_delete_ne by done. apply H12. lia.
  - intros i Hi. rewrite lookup_delete_ne by lia. by apply H13.
Qed.

Lemma delete_holds es lost gone w d :
  holds es lost gone w →
  ∃ lost' gone', holds es lost' gone' (deleteDurable w d) ∧ (lost' = lost ∨ Z.of_nat (length (journalKeys lost')) ≤ d).
Proof.
  intros (parts&cur&g&k&Hes&Hl). unfold deleteDurable.
  assert (∃ lost' gone' parts' m sl, deleteLoop (segs w) (sealed w) d = (m, sl) ∧ lost' ++ concat parts' ++ cur = es
    ∧ layout lost' parts' cur g k gone' (withSegs w m sl) ∧ (lost' = lost ∨ Z.of_nat (length (journalKeys lost')) ≤ d))
    as (lost'&gone'&parts'&m&sl&->&Hes'&Hl'&Hd).
  { revert lost gone w Hes Hl. induction parts as [|part parts IH]; intros lost gone w Hes Hl.
    - exists lost, gone, [], (segs w), (sealed w). split; [|split_and!; [done|by destruct w|by left]].
      pose proof (lay_sealed _ _ _ _ _ _ _ Hl 0%nat) as E. by destruct (sealed w).
    - destruct (delete_layout _ _ _ _ _ _ _ _ Hl) as (sl&Es&[f Hf]&Hl'). rewrite Es. cbn [deleteLoop].
      destruct (Z.leb_spec (Z.of_nat (length (journalKeys (lost ++ part)))) d) as [Hle|Hgt].
      + rewrite Hf. destruct (IH (lost ++ part) (S gone) _ ltac:(by rewrite <- Hes; cbn; rewrite <- !app_assoc) Hl')
          as (lost'&gone'&parts'&m&sl'&E&Hes'&Hl''&Hd). cbn [withSegs segs sealed] in E.
        exists lost', gone', parts', m, sl'. split_and!; [done|done|done|]. right. by destruct Hd as [->|?].
      + exists lost, gone, (part :: parts), (segs w), (sealed w). rewrite Es. split_and!; [done|done|rewrite <- Es; by destruct w|by left]. }
  exists lost', gone'. split; [|done]. by exists parts', cur, g, k.
Qed.

(** ** Replay *)

Lemma nextIdx_le (m : gmap nat bytes) n : (∀ i, (n ≤ i)%nat → m !! i = None) → (nextIdx m ≤ n)%nat.
Proof.
  unfold nextIdx. induction m as [|j f m Hj Hfold IH] using map_first_key_ind; intros Hn; [rewrite map_fold_empty; lia|].
  rewrite map_fold_insert_first_key by done. assert (j < n)%nat.
  { apply Nat.nle_gt. intros Hle. specialize (Hn j Hle). by rewrite lookup_insert_eq in Hn. }
  apply Nat.max_lub; [lia|]. apply IH. intros i Hi. specialize (Hn i Hi). by rewrite lookup_insert_ne in Hn by lia.
Qed.

Definition segAt (m : gmap nat bytes) (i : nat) : option (nat * bytes) := pair i <$> m !! i.

Lemma omap_none {A A'} (f : A → option A') (l : list A) : (∀ x, x ∈ l → f x = None) → omap f l = [].
Proof.
  induction l as [|x l IH]; intros Hf; [done|]. cbn. rewrite (Hf x) by left. apply IH. intros y Hy. apply Hf. by right.
Qed.

Lemma omap_ext_in {A A'} (f h : A → option A') (l : list A) : (∀ x, x ∈ l → f x = h x) → omap f l = omap h l.
Proof.
  induction l as [|x l IH]; intros Hf; [done|]. cbn. rewrite (Hf x), IH; [done| |left]. intros y Hy. apply Hf. by right.
Qed.

Lemma listSegments_upto m n : (nextIdx m ≤ n)%nat → listSegments m = omap (segAt m) (seq 0 n).
Proof.
  intros Hn. replace n with (nextIdx m + (n - nextIdx m))%nat by lia. rewrite seq_app, omap_app.
  rewrite (omap_none _ (seq (0 + nextIdx m) _)), app_nil_r; [done|].
  intros i Hi%elem_of_seq. unfold segAt. by rewrite nextIdx_above by lia.
Qed.

Lemma omap_parts (m : gmap nat bytes) a parts :
  (∀ i part, parts !! i = Some part → m !! (a + i)%nat = Some (journalKeys part)) →
  map snd (omap (segAt m) (seq a (length parts))) = map journalKeys parts.
Proof.
  revert a. induction parts as [|part parts IH]; intros a Hp; [done|]. cbn [length seq].
  pose proof (Hp 0%nat part eq_refl) as H0. rewrite Nat.add_0_r in H0. cbn. unfold segAt at 1. rewrite H0. cbn. f_equal.
  apply IH. intros i p Hi. specialize (Hp (S i) p Hi). by replace (S a + i)%nat with (a + S i)%nat by lia.
Qed.

Lemma replay_holds es lost gone w :
  entries_ok es → holds es lost gone w → wbuf w = [] →
  ∃ rest, replaySegments (segs w) = replaySegments m0 ++ rest ∧ es = lost ++ rest.
Proof.
  intros Hok (parts&cur&g&k&<-&[H1 H2 H3 _ _ _ _ H8 _ H10 H11 H12 H13]) Hw. exists (concat parts ++ cur). split; [|done].
  rewrite Hw, take_nil, app_nil_r in *. apply Forall_app in Hok as [_ Hok]. apply Forall_app in Hok as [Hparts Hcur].
  unfold replaySegments. rewrite (listSegments_upto _ (S (segIdx w))) by (apply nextIdx_le; intros i Hi; apply H13; lia).
  replace (S (segIdx w)) with (nextIdx m0 + (gone + (length parts + 1)))%nat by lia. rewrite !seq_app, !omap_app, !map_app, !concat_app.
  f_equal; [|].
  - f_equal. f_equal. unfold listSegments. apply omap_ext_in. intros i Hi%elem_of_seq. unfold segAt. by rewrite H11 by lia.
  - rewrite (omap_none (segAt (segs w)) (seq _ gone)); cycle 1.
    { intros i Hi%elem_of_seq. unfold segAt. by rewrite H12 by lia. }
    cbn [map concat app]. f_equal.
    + rewrite <- (map_map snd ParseJournalRecords), omap_parts by done. rewrite map_map. by rewrite parse_parts.
    + match goal with |- context [seq ?a 1] => replace a with (segIdx w) by lia end. cbn [seq].
      assert (omap (segAt (segs w)) [segIdx w] = [(segIdx w, g)]) as -> by (cbn; unfold segAt; by rewrite H1).
      cbn [map concat snd]. rewrite app_nil_r. by rewrite H3, parse_keys.
Qed.

(** ** Uses of the writer *)

(** [all] are the uses so far: what is lost was deleted by one of them. *)
Definition tracks (all : list wop) (es : list CfKey) w : Prop :=
  ∃ lost gone, holds es lost gone w
    ∧ (lost = [] ∨ ∃ d, WDelete d ∈ all ∧ Z.of_nat (length (journalKeys lost)) ≤ d).

Lemma tracks_drain all es w : tracks all es w → tracks all es (drainLocked w).1.
Proof. intros (lost&gone&Hh&Hd). exists lost, gone. split; [|done]. by apply drainLoop_holds. Qed.

Lemma drain_stopped es w lost gone : holds es lost gone w → stopped (drainLocked w).1 = stopped w.
Proof. intros Hh. by apply (drainLoop_holds 2 es lost gone w). Qed.

Lemma runW1_tracks all es w o :
  tracks all es w → o ∈ all →
  tracks all (es ++ accepted (stopped w) [o]) (runW1 w o) ∧ stopped (runW1 w o) = (stopped w || bool_decide (o = WStop)).
Proof.
  intros Ht Ho. pose proof Ht as (lost&gone&Hh&Hd). destruct o as [more| | |d| |]; cbn [runW1 accepted]; rewrite ?app_nil_r, ?bool_decide_false, ?orb_false_r by done.
  - unfold Sink. destruct (stopped w) eqn:Es; cbn [fst]; [rewrite ?app_nil_r; by rewrite Es|].
    pose proof (append_holds es lost gone w more Hh) as Hh'. unfold withBuf in Hh'. rewrite Es in Hh'. split.
    + apply tracks_drain. exists lost, gone. split; [exact Hh'|exact Hd].
    + rewrite (drain_stopped _ _ _ _ Hh'). done.
  - split; [|done]. exists lost, gone. split; [by apply Seal_holds|done].
  - split; [by apply tracks_drain|]. by eapply drain_stopped.
  - destruct (delete_holds es lost gone w d Hh) as (lost'&gone'&Hh'&Hl). split.
    + exists lost', gone'. split; [done|]. destruct Hl as [->|Hl]; [done|right; eauto].
    + unfold deleteDurable. by destruct (deleteLoop _ _ _).
  - rewrite bool_decide_true, orb_true_r by done. unfold Stop. destruct (stopped w) eqn:Es; [done|].
    set (w1 := mkWriter _ _ _ _ _ _ _ _ _ true _). assert (holds es lost gone w1) as Hh1.
    { destruct Hh as (parts&cur&g&k&Hes&[]). exists parts, cur, g, k. split; [done|by constructor]. }
    pose proof (drain_stopped _ _ _ _ Hh1) as Hst.
    destruct (tracks_drain all es w1) as (lost'&gone'&Hh2&Hd'); [by exists lost, gone|]. split; [|done].
    exists lost', gone'. split; [|done]. destruct Hh2 as (parts&cur&g&k&Hes&[]). exists parts, cur, g, k. split; [done|by constructor].
  - split; [by apply tracks_drain|]. by eapply drain_stopped.
Qed.

Lemma accepted_cons off o ops : accepted off (o :: ops) = accepted off [o] ++ accepted (off || bool_decide (o = WStop)) ops.
Proof.
  destruct o; cbn [accepted]; rewrite ?bool_decide_false, ?bool_decide_true, ?orb_false_r, ?orb_true_r, ?app_nil_r by done; done.
Qed.

Lemma runW_tracks all es w ops :
  tracks all es w → (∀ o, o ∈ ops → o ∈ all) → tracks all (es ++ accepted (stopped w) ops) (runW w ops).
Proof.
  revert es w. induction ops as [|o ops IH]; intros es w Ht Hall; cbn [runW fold_left]; [by rewrite app_nil_r|].
  destruct (runW1_tracks all es w o Ht) as [Ht1 Hst]; [apply Hall; left|]. rewrite accepted_cons, app_assoc, <- Hst.
  apply IH; [done|]. intros o' Ho'. apply Hall. by right.
Qed.

Lemma Attach_holds outs : holds [] [] 0 (Attach m0 outs).
Proof.
  exists [], [], [], 0%nat. split; [done|]. unfold Attach, openSeg. rewrite nextIdx_above by done.
  constructor; cbn; try done; try lia; try (intros i Hi; rewrite lookup_insert_ne by lia); try done.
  - by rewrite lookup_insert_eq.
  - by apply nextIdx_above; lia.
Qed.

(** With no failing write the buffer is always on disk. *)
Definition drained w : Prop := wbuf w = [] ∧ (clean w ∨ stopped w = true).

Lemma drain_empty fuel w : wbuf w = [] → wbuf (drainLoop fuel w).1 = [].
Proof.
  destruct fuel as [|fuel]; intros Hw; cbn [drainLoop]; [done|]. rewrite Hw. cbn [length].
  destruct (_ >=? 0); [|done]. replace (if _ >? _ then _ else _) with 0%nat by (destruct (_ >? _); lia). cbn [Nat.ltb Nat.leb].
  set (w2 := if _ >=? _ then rotate w else w).
  assert (wbuf w2 = []) as E by (unfold w2; destruct (_ >=? _); [rewrite (proj1 (rotate_rest w))|]; done). by rewrite E.
Qed.

Lemma runW1_drained all es w o : tracks all es w → drained w → drained (runW1 w o).
Proof.
  intros (lost&gone&Hh&_) [Hw Hc].
  assert (drained (drainLocked w).1) as Hdr.
  { destruct (drainLoop_holds 2 es lost gone w Hh) as (_&Hst&Hcl&_). split; [by apply drain_empty|].
    destruct Hc as [?|?]; [left; by apply Hcl|right; unfold drainLocked; congruence]. }
  destruct o as [more| | |d| |]; cbn [runW1]; try done.
  - unfold Sink. destruct (stopped w) eqn:Es; [by split; [|right]|]. destruct Hc as [Hc|?]; [|done]. cbn [fst].
    pose proof (append_holds es lost gone w more Hh) as Hh'. unfold withBuf in Hh'. rewrite Es in Hh'.
    destruct (drainLoop_holds 2 _ lost gone _ Hh') as (_&_&Hcl&Hbuf). split; [apply Hbuf; [done|lia]|left; by apply Hcl].
  - unfold deleteDurable. destruct (deleteLoop _ _ _). by split.
  - unfold Stop. destruct (stopped w) eqn:Es; [by split; [|right]|]. destruct Hc as [Hc|?]; [|done].
    split; [|right]; set (w1 := mkWriter _ _ _ _ _ _ _ _ _ true _); [by apply (drain_empty 2 w1)|].
    assert (holds es lost gone w1) as Hh1.
    { destruct Hh as (parts&cur&g&k&Hes&[]). exists parts, cur, g, k. split; [done|by constructor]. }
    apply (drain_stopped _ _ _ _ Hh1).
Qed.

Lemma runW_drained all es w ops :
  tracks all es w → (∀ o, o ∈ ops → o ∈ all) → drained w → drained (runW w ops).
Proof.
  revert es w. induction ops as [|o ops IH]; intros es w Ht Hall Hd; cbn [runW fold_left]; [done|].
  destruct (runW1_tracks all es w o Ht) as [Ht1 _]; [apply Hall; left|].
  eapply IH; [exact Ht1| |by eapply runW1_drained]. intros o' Ho'. apply Hall. by right.
Qed.

(** A writer that works: everything is on disk and it takes more. *)
Definition working w : Prop := wbuf w = [] ∧ clean w ∧ stopped w = false.

Lemma Sink_working es lost gone w more :
  holds es lost gone w → working w → holds (es ++ more) lost gone (Sink w more).1 ∧ working (Sink w more).1.
Proof.
  intros Hh (Hw&Hc&Hst). unfold Sink. rewrite Hst. cbn [fst].
  pose proof (append_holds es lost gone w more Hh) as Hh'. unfold withBuf in Hh'. rewrite Hst in Hh'.
  destruct (drainLoop_holds 2 _ lost gone _ Hh') as (H1&H2&Hcl&Hbuf). split; [done|].
  split_and!; [apply Hbuf; [done|lia]|by apply Hcl|done].
Qed.

Lemma Seal_working es lost gone w :
  holds es lost gone w → working w →
  holds es lost gone (Seal w).1 ∧ working (Seal w).1 ∧ (Seal w).2 = Z.of_nat (length (journalKeys es)).
Proof.
  intros Hh Hw. split; [by apply Seal_holds|]. split; [done|]. destruct Hh as (parts&cur&g&k&<-&Hl). apply Hl.
Qed.

Lemma cycle_working es lost gone w d :
  holds es lost gone w → working w →
  let w' := cycle w d in
  ∃ lost' gone', holds es lost' gone' w' ∧ working w' ∧ (lost' = lost ∨ Z.of_nat (length (journalKeys lost')) ≤ d).
Proof.
  intros Hh (Hw&Hc&Hst). unfold cycle. rewrite Hst. destruct (drainLoop_holds 2 _ lost gone _ Hh) as (H1&H2&Hcl&_).
  destruct (delete_holds es lost gone _ d H1) as (lost'&gone'&Hh'&Hl). exists lost', gone'. split; [done|]. split; [|done].
  unfold deleteDurable. destruct (deleteLoop _ _ _). split; [exact (drain_empty 2 w Hw)|]. split; [exact (Hcl Hc)|]. exact (eq_trans H2 Hst).
Qed.

End layout.

Definition sampleLog : list wop :=
  [WSink [(0%nat, [1; 2])]; WSeal; WSink [(1%nat, [3])]; WDelete 12; WSink [(0%nat, [4])]; WDrain].

