(* ===== verification/KvStore.v ===== *)
(** * The key-value store (go/internal/kvstore/kvstore.go)

    The facade over the memtable, the page store and the journal: point
    operations, batches, the three phases of a flush, replay and the scan
    cursors. The journal callbacks are the writer of wal.go when one is
    attached. *)

From S2P Require Import Prelude Pages FlatLeaf PageCache BlobStore PageStore PageTree PageCommit.
From S2P Require Import NewestWins Memtable MinHeap Hydrated Cursors MergedCursor PageCursor Journal Wal.

(** ** Definitions *)

(** [wal] is what [JournalSink] and [JournalSeal] are wired to, if anything;
    [legacy] is the journal file used without it. [armed] is whether
    [OnFlushRequest] is set and [flushRequests] how often it was called. *)
Record KVStore (B : Type) : Type := mkKV {
  PS : Store B;
  MT : MemTable;
  memSize : Z;
  kvReadOnly : bool;
  kvNumCf : nat;
  FlushThreshold : Z;
  flushActive : bool;
  kvPath : bytes;
  wal : option Writer;
  legacy : bytes;
  WalDurableUpTo : Z;
  armed : bool;
  flushRequests : nat;
}.
Arguments mkKV {B} _ _ _ _ _ _ _ _ _ _ _ _ _.
Arguments PS {B} _.
Arguments MT {B} _.
Arguments memSize {B} _.
Arguments kvReadOnly {B} _.
Arguments kvNumCf {B} _.
Arguments FlushThreshold {B} _.
Arguments flushActive {B} _.
Arguments kvPath {B} _.
Arguments wal {B} _.
Arguments legacy {B} _.
Arguments WalDurableUpTo {B} _.
Arguments armed {B} _.
Arguments flushRequests {B} _.

Section updates.
Context {B : Type}.
Implicit Types kv : KVStore B.

Definition withMT kv (mt : MemTable) (size : Z) : KVStore B :=
  mkKV (PS kv) mt size (kvReadOnly kv) (kvNumCf kv) (FlushThreshold kv) (flushActive kv) (kvPath kv) (wal kv) (legacy kv)
    (WalDurableUpTo kv) (armed kv) (flushRequests kv).
Definition withPS kv (s : Store B) : KVStore B :=
  mkKV s (MT kv) (memSize kv) (kvReadOnly kv) (kvNumCf kv) (FlushThreshold kv) (flushActive kv) (kvPath kv) (wal kv) (legacy kv)
    (WalDurableUpTo kv) (armed kv) (flushRequests kv).
Definition withActive kv (a : bool) : KVStore B :=
  mkKV (PS kv) (MT kv) (memSize kv) (kvReadOnly kv) (kvNumCf kv) (FlushThreshold kv) a (kvPath kv) (wal kv) (legacy kv)
    (WalDurableUpTo kv) (armed kv) (flushRequests kv).
Definition withWal kv (w : Writer) : KVStore B :=
  mkKV (PS kv) (MT kv) (memSize kv) (kvReadOnly kv) (kvNumCf kv) (FlushThreshold kv) (flushActive kv) (kvPath kv) (Some w) (legacy kv)
    (WalDurableUpTo kv) (armed kv) (flushRequests kv).
Definition withLegacy kv (l : bytes) : KVStore B :=
  mkKV (PS kv) (MT kv) (memSize kv) (kvReadOnly kv) (kvNumCf kv) (FlushThreshold kv) (flushActive kv) (kvPath kv) (wal kv) l
    (WalDurableUpTo kv) (armed kv) (flushRequests kv).
Definition withDurable kv (d : Z) : KVStore B :=
  mkKV (PS kv) (MT kv) (memSize kv) (kvReadOnly kv) (kvNumCf kv) (FlushThreshold kv) (flushActive kv) (kvPath kv) (wal kv) (legacy kv)
    d (armed kv) (flushRequests kv).

Definition journaling kv : bool := negb (Nat.eqb (length (kvPath kv)) 0) && negb (kvReadOnly kv).

Definition maybeArmFlush kv : KVStore B :=
  if (memSize kv >=? FlushThreshold kv) && armed kv then
    mkKV (PS kv) (MT kv) (memSize kv) (kvReadOnly kv) (kvNumCf kv) (FlushThreshold kv) (flushActive kv) (kvPath kv) (wal kv) (legacy kv)
      (WalDurableUpTo kv) (armed kv) (S (flushRequests kv))
  else kv.

Definition appendLegacyJournal kv (rec : bytes) : KVStore B := withLegacy kv (legacy kv ++ rec).

Definition journalDeliver kv (entries : list CfKey) : KVStore B :=
  match wal kv with
  | Some w => withWal kv (Sink w entries).1
  | None => appendLegacyJournal kv (journalKeys entries)
  end.

(** *** Point operations and batches *)

Definition uint8 (cf : nat) : nat := Nat.modulo cf 256.

Definition Put kv (cf : nat) (key : bytes) : res (KVStore B) :=
  '(mt, size) ← Memtable.Put (MT kv) cf key;
  let kv := withMT kv mt size in
  let kv := if journaling kv then journalDeliver kv [(uint8 cf, key)] else kv in
  Ok (maybeArmFlush kv).

Definition PutKv kv (cf : nat) (key value : bytes) : res (KVStore B) :=
  '(mt, size) ← Memtable.PutKv (MT kv) cf key value;
  let kv := withMT kv mt size in
  let kv := if journaling kv && bool_decide (wal kv = None)
            then appendLegacyJournal kv (journalRecord (Z.of_nat (uint8 cf)) key (Some value) false) else kv in
  Ok (maybeArmFlush kv).

Definition DeleteKv kv (cf : nat) (key : bytes) : res (KVStore B) :=
  mt ← Memtable.DeleteKv (MT kv) cf key;
  let kv := withMT kv mt (memSize kv) in
  let kv := if journaling kv && bool_decide (wal kv = None)
            then appendLegacyJournal kv (journalRecord (Z.of_nat (uint8 cf)) key None true) else kv in
  Ok (maybeArmFlush kv).

Definition nonEmpty {A} (l : list A) : bool := negb (Nat.eqb (length l) 0).

(** The entries are delivered to the journal twice. *)
Definition BatchWrite kv (entries : list CfKey) (journal : bool) : res (KVStore B) :=
  let kv := if journal && journaling kv && nonEmpty entries then journalDeliver kv entries else kv in
  let kv := if journal && journaling kv && nonEmpty entries then journalDeliver kv entries else kv in
  '(mt, size) ← Memtable.Batch (MT kv) entries;
  Ok (maybeArmFlush (withMT kv mt size)).

Definition JournalOnly kv (entries : list CfKey) : KVStore B :=
  if journaling kv && nonEmpty entries then journalDeliver kv entries else kv.

(** *** The replica stream *)

Definition ApplyJournalRecordsExpanded kv (entries : list CfKey) : res (KVStore B) :=
  if nonEmpty entries then '(mt, size) ← Memtable.Batch (MT kv) entries; Ok (withMT kv mt size) else Ok kv.

Definition ApplyJournalRecords kv (data : bytes) : res (KVStore B) :=
  if nonEmpty data then ApplyJournalRecordsExpanded kv (ParseJournalRecords data) else Ok kv.

Definition SealLiveToFlush kv : res (KVStore B) :=
  '(mt, _) ← FreezeAllCapture (MT kv);
  Ok (withActive (withMT kv mt 0) true).

Definition RootHasData kv : bool :=
  existsb (fun t => NumLeaves t >? 0) (take (Nat.min 4 (length (trees (PS kv)))) (trees (PS kv))).
End updates.

Section kvstore.
Context {B : Type} `{BlobStore B} `{Zstd}.
Implicit Types kv : KVStore B.

(** A load error keeps everything as it is. *)
Definition PublishRoot kv (rootName : bytes) : KVStore B :=
  match LoadRoot (PS kv) rootName with
  | Ok (true, s) => withActive (withMT (withPS kv s) (Publish (MT kv)) 0) false
  | _ => kv
  end.

Definition Get kv (cf : nat) (key : bytes) : res (bool * KVStore B) :=
  found ← ContainsAny (MT kv) cf key;
  if found : bool then Ok (true, kv)
  else '(there, s) ← KeyExists (PS kv) (Z.of_nat cf) key; Ok (there, withPS kv s).

Definition GetKv (fuel : nat) kv (cf : nat) (key : bytes) : res (option bytes * KVStore B) :=
  st ← LookupKv (MT kv) cf key;
  match st with
  | KvValue => v ← GetValue (MT kv) cf key; Ok (v, kv)
  | KvDeleted => Ok (None, kv)
  | KvAbsent => '(v, s) ← KeyExistsKv fuel (PS kv) (Z.of_nat cf) key; Ok (v, withPS kv s)
  end.

(** *** Flush *)

(** The Go maps by family are lists here, in the order of the families. *)
Record FlushBatch : Type := mkBatch {
  KeysByCf : list (nat * list bytes);
  PairsByCf : list (nat * list (bytes * bytes));
  DeletedByCf : list (nat * list bytes);
  BatchTrees : list CfTree;
  SealBoundary : Z;
  MaxT : Z;
  captured : list (list Run);
}.

Definition CaptureFlush kv : res (option FlushBatch * KVStore B) :=
  if kvReadOnly kv || flushActive kv then Ok (None, kv)
  else
    '(mt, cap) ← FreezeAllCapture (MT kv);
    let kv := withMT (withActive kv true) mt 0 in
    let '(kv, boundary) := match wal kv with
                           | Some w => let '(w, b) := Seal w in (withWal kv w, b)
                           | None => (kv, -1)
                           end in
    Ok (Some (mkBatch [] [] [] (BaseTrees (PS kv)) boundary (-1) cap), kv).

(** One family of the drain; families from 10 on hold values. *)
Definition drainCf (cf : nat) (runs : list Run) (b : FlushBatch) : res FlushBatch :=
  if negb (nonEmpty runs) then Ok b
  else if Nat.leb 10 cf then
    '(pairs, deleted) ← DrainKvSorted runs;
    Ok (mkBatch (KeysByCf b) (PairsByCf b ++ if nonEmpty pairs then [(cf, pairs)] else [])
          (DeletedByCf b ++ if nonEmpty deleted then [(cf, deleted)] else [])
          (BatchTrees b) (SealBoundary b) (MaxT b) (captured b))
  else
    let keys := DrainSorted runs in
    Ok (mkBatch (KeysByCf b ++ if nonEmpty keys then [(cf, keys)] else []) (PairsByCf b) (DeletedByCf b)
          (BatchTrees b) (SealBoundary b) (MaxT b) (captured b)).

Fixpoint drainCfs (n cf : nat) (b : FlushBatch) : res FlushBatch :=
  match n with
  | O => Ok b
  | S n' =>
      match captured b !! cf with
      | None => Panic
      | Some runs => b ← drainCf cf runs b; drainCfs n' (S cf) b
      end
  end.

(** The transaction number in a key's suffix. *)
Definition suffixT (k : bytes) : Z := i64 (Z.shiftr (be_get (drop (length k - 8) k)) 1).
Definition maxTOf (keys : list bytes) (m : Z) : Z :=
  fold_left (fun m k => if Nat.ltb (length k) 8 then m else if suffixT k >? m then suffixT k else m) keys m.

Definition drainBatch kv (b : FlushBatch) : res FlushBatch :=
  b ← drainCfs (kvNumCf kv) 0 b;
  let maxT := fold_left (fun m p => if Nat.leb 10 p.1 then m else maxTOf p.2 m) (KeysByCf b) (MaxT b) in
  Ok (mkBatch (KeysByCf b) (PairsByCf b) (DeletedByCf b) (BatchTrees b) (SealBoundary b) maxT []).

(** The drained batch, the new trees and root, and the store with their blobs.
    After an error the store is as it was captured, with the flush still active. *)
Definition PrepareFlush (fuel : nat) kv (b : FlushBatch) (now : clock)
  : res (FlushBatch * list CfTree * bytes * KVStore B) :=
  b ← drainBatch kv b;
  '(ts, root, s) ← PrepareMerge (PS kv) (BatchTrees b) (KeysByCf b) now;
  if nonEmpty (PairsByCf b) || nonEmpty (DeletedByCf b) then
    '(ts, root, s) ← PrepareMergeKv fuel s ts (PairsByCf b) (DeletedByCf b) now;
    Ok (b, ts, root, withPS kv s)
  else Ok (b, ts, root, withPS kv s).

Definition PublishFlush kv (b : FlushBatch) (ts : list CfTree) (root : bytes) : KVStore B :=
  let kv := withPS kv (PublishTrees (PS kv) ts root) in
  let kv := withActive (withMT kv (Publish (MT kv)) 0) false in
  if SealBoundary b >=? 0 then withDurable kv (SealBoundary b) else kv.

Definition AbortFlush kv : KVStore B := withActive (withMT kv (Publish (MT kv)) 0) false.

Definition Flush (fuel : nat) kv (now : clock) : res (KVStore B) :=
  '(b, kv) ← CaptureFlush kv;
  match b with
  | None => Ok kv
  | Some b =>
      '(b, ts, root, kv) ← PrepareFlush fuel kv b now;
      Ok (PublishFlush kv b ts root)
  end.

(** *** Opening *)

(** [files] are the contents of the legacy journal, if there is one, and of the
    segments in the order of their indexes. *)
Fixpoint replayFiles kv (files : list bytes) : res (KVStore B) :=
  match files with
  | [] => Ok kv
  | data :: files =>
      let recs := ParseJournalRecords data in
      kv ← (if nonEmpty data && nonEmpty recs
            then '(mt, size) ← Memtable.Batch (MT kv) recs; Ok (withMT kv mt size) else Ok kv);
      replayFiles kv files
  end.
Definition replayJournals kv (legacyFile : option bytes) (m : gmap nat bytes) : res (KVStore B) :=
  replayFiles kv (match legacyFile with Some f => [f] | None => [] end ++ map snd (listSegments m)).

Record Config : Type := {
  CfgPath : bytes; CfgReadOnly : bool; CfgNumCf : nat; CfgFlushThreshold : Z; CfgReplayOff : bool; CfgPageCacheSize : Z;
}.

(** [b], [legacyFile] and [m] are what the path holds. *)
Definition New (cfg : Config) (b : B) (legacyFile : option bytes) (m : gmap nat bytes) (now : clock) : res (KVStore B) :=
  let nCf := if Nat.eqb (CfgNumCf cfg) 0 then 64%nat else CfgNumCf cfg in
  if Nat.eqb (length (CfgPath cfg)) 0 then Err "kvstore: path is required"
  else
    let threshold := if CfgFlushThreshold cfg =? 0 then 16777216 else CfgFlushThreshold cfg in
    s ← Open b (Z.of_nat nCf) (CfgReadOnly cfg) (CfgPageCacheSize cfg) now;
    mt ← Memtable.New (Z.of_nat nCf);
    let kv := mkKV s mt 0 (CfgReadOnly cfg) nCf threshold false (CfgPath cfg) None (default [] legacyFile) (-1) false 0 in
    if negb (CfgReadOnly cfg) && negb (CfgReplayOff cfg) then replayJournals kv legacyFile m else Ok kv.
End kvstore.

(** *** Scan cursors *)

(** The sources of a scan: the page tree and the runs. *)
Inductive scanSource (B : Type) (fuel : nat) : Type :=
| PageSource (c : pageStoreCursor B fuel)
| MemSource (c : source).
Arguments PageSource {B fuel} c.
Arguments MemSource {B fuel} c.

Section scans.
Context {B : Type} `{BlobStore B} `{Zstd} (fuel : nat).

#[export] Instance scanSource_cursor : Cursor (scanSource B fuel) := {
  Valid s := match s with PageSource c => Valid c | MemSource c => Valid c end;
  CurrentKey s := match s with
    | PageSource c => let '(c, k) := CurrentKey c in (PageSource c, k)
    | MemSource c => let '(c, k) := CurrentKey c in (MemSource c, k)
    end;
  CurrentPair s := match s with
    | PageSource c => let '(c, p) := CurrentPair c in (PageSource c, p)
    | MemSource c => let '(c, p) := CurrentPair c in (MemSource c, p)
    end;
  Step s := match s with PageSource c => PageSource (Step c) | MemSource c => MemSource (Step c) end;
  Seek s t := match s with PageSource c => PageSource (Seek c t) | MemSource c => MemSource (Seek c t) end;
  Invalidate s := match s with PageSource c => PageSource (Invalidate c) | MemSource c => MemSource (Invalidate c) end;
}.

#[export] Instance scanSource_hyd : HydSource (scanSource B fuel) := { ofKeys ks := MemSource (ofKeys ks) }.

Definition setScan {C} (mc : MergedCursor C) (kv : bool) (cf : nat) : MergedCursor C :=
  {| sources := sources mc; heap := heap mc; lastKey := lastKey mc; hasLast := hasLast mc; mAtEnd := mAtEnd mc;
     MergedCursor.curKey := MergedCursor.curKey mc; MergedCursor.hasKey := MergedCursor.hasKey mc;
     MergedCursor.curPair := MergedCursor.curPair mc; MergedCursor.hasPair := MergedCursor.hasPair mc;
     IsKv := kv; CF := Z.of_nat cf; hydMode := hydMode mc; baseSources := baseSources mc |}.

(** The tree comes first and then the runs, oldest first. *)
Definition OpenScanCursor (kv : KVStore B) (cf : nat) : res (KVStore B * MergedCursor (scanSource B fuel)) :=
  '(mt, runs) ← SnapshotRuns (MT kv) cf;
  let tree := Tree (PS kv) (Z.of_nat cf) in
  let psc := NewCursor (PS kv) (RootUUID tree) (Z.to_nat (Height tree)) false in
  let mc := NewMergedCursor (PageSource (NewPageStoreCursor psc)
                             :: map (fun r => MemSource (RunSource (NewRunCursor r))) runs) in
  Ok (withMT kv mt (memSize kv), setScan mc false cf).

Definition OpenScanCursorKv (kv : KVStore B) (cf : nat) : res (KVStore B * MergedCursor (scanSource B fuel)) :=
  '(mt, runs) ← SnapshotRuns (MT kv) cf;
  let tree := Tree (PS kv) (Z.of_nat cf) in
  let pages := if bool_decide (RootUUID tree = zeroUUID) then []
               else [PageSource (NewPageStoreCursor (NewCursor (PS kv) (RootUUID tree) (Z.to_nat (Height tree)) true))] in
  let mc := NewMergedCursor (pages ++ map (fun r => MemSource (RunKvSource {| kvc := NewRunCursor r |})) runs) in
  Ok (withMT kv mt (memSize kv), setScan mc true cf).
End scans.
