(* ===== verification/KvSpec.v ===== *)
(** * What the key-value store promises

    The store as a machine - journalled writes, the three phases of a flush, the
    log's cycle, and crashes that keep only the blobs and the segments - refines
    the set of entries written: reads answer from that set in every reachable
    state, across any number of crashes. *)

From S2P Require Import Prelude Pages FlatLeaf PageCache BlobStore PageStore PageTree PageCommit.
From S2P Require Import NewestWins Memtable MinHeap Hydrated Cursors MergedCursor PageCursor Journal Wal KvStore.

(** ** The memtable as sets of keys *)

Definition hotHas (ab : list absCf) (cf : nat) (k : bytes) : Prop := ∃ a, ab !! cf = Some a ∧ is_Some (hot a !! k).
Definition coldHas (ab : list absCf) (cf : nat) (k : bytes) : Prop := ∃ a, ab !! cf = Some a ∧ is_Some (cold a !! k).

Lemma has_alter (P : absCf → Prop) g cf cf' (ab : list absCf) :
  (∃ a, alter g cf' ab !! cf = Some a ∧ P a) ↔ ∃ a, ab !! cf = Some a ∧ P (if decide (cf = cf') then g a else a).
Proof.
  destruct (decide (cf = cf')) as [->|Hne]; [|by rewrite list_lookup_alter_ne].
  rewrite list_lookup_alter_eq. split.
  - intros (a&(a0&->&->)%fmap_Some&HP). eauto.
  - intros (a&->&HP). exists (g a). done.
Qed.

Lemma hotHas_batch ab es cf k :
  hotHas (batchAbs ab es) cf k ↔ hotHas ab cf k ∨ (cf < length ab)%nat ∧ (cf, k) ∈ es.
Proof.
  unfold batchAbs. revert ab. induction es as [|[cf' k'] es IH]; intros ab; cbn [fold_left].
  { setoid_rewrite elem_of_nil. naive_solver. }
  rewrite IH, length_alter, elem_of_cons. unfold hotHas at 1. rewrite (has_alter (fun a => is_Some (hot a !! k))).
  destruct (decide (cf = cf')) as [->|Hne].
  2:{ assert ((cf, k) ≠ (cf', k')) by congruence. unfold hotHas. tauto. }
  cbn [writeAbs hot]. destruct (decide (k = k')) as [->|Hk].
  - split; [intros [(a&Ha&_)|?]; [right|naive_solver]|].
    + split; [by eapply lookup_lt_Some|by left].
    + intros [(a&Ha&_)|[Hlt _]]; [left; exists a; by rewrite lookup_insert_eq|].
      apply lookup_lt_is_Some in Hlt as [a Ha]. left. exists a. by rewrite lookup_insert_eq.
  - assert ((cf', k) ≠ (cf', k')) by congruence. setoid_rewrite lookup_insert_ne; [|done]. unfold hotHas. tauto.
Qed.

Lemma coldHas_batch ab es cf k : coldHas (batchAbs ab es) cf k ↔ coldHas ab cf k.
Proof.
  unfold batchAbs. revert ab. induction es as [|[cf' k'] es IH]; intros ab; cbn [fold_left]; [done|].
  rewrite IH. unfold coldHas at 1. rewrite (has_alter (fun a => is_Some (cold a !! k))). unfold coldHas.
  destruct (decide (cf = cf')); done.
Qed.

Lemma has_map (P Q : absCf → Prop) g cf (ab : list absCf) :
  (∀ a, P (g a) ↔ Q a) → (∃ a, map g ab !! cf = Some a ∧ P a) ↔ ∃ a, ab !! cf = Some a ∧ Q a.
Proof.
  intros HPQ. rewrite list_lookup_fmap. split.
  - intros (a&(a0&->&->)%fmap_Some&HP). exists a0. split; [done|by apply HPQ].
  - intros (a&->&HP). exists (g a). split; [done|by apply HPQ].
Qed.

Lemma hotHas_freeze ab cf k : ¬ hotHas (map freezeAbs ab) cf k.
Proof.
  unfold hotHas. rewrite (has_map _ (fun _ => False)); [naive_solver|]. intros a. cbn. rewrite lookup_empty. split; [by intros []|done].
Qed.

Lemma coldHas_freeze ab cf k : coldHas (map freezeAbs ab) cf k ↔ hotHas ab cf k.
Proof. unfold coldHas, hotHas. by apply has_map. Qed.

Lemma hotHas_publish ab cf k : hotHas (map publishAbs ab) cf k ↔ hotHas ab cf k.
Proof. unfold hotHas. by apply has_map. Qed.

Lemma coldHas_publish ab cf k : ¬ coldHas (map publishAbs ab) cf k.
Proof.
  unfold coldHas. rewrite (has_map _ (fun _ => False)); [naive_solver|]. intros a. cbn. rewrite lookup_empty. split; [by intros []|done].
Qed.

Lemma length_batchAbs ab es : length (batchAbs ab es) = length ab.
Proof. exact (mt_refines_len_abs1 ab (OBatch es)). Qed.

Lemma Batch_spec mt ab es :
  mt_refines mt ab → Forall (fun e => Memtable.key_ok e.2) es →
  ∃ mt' size, Batch mt es = Ok (mt', size) ∧ mt_refines mt' (batchAbs ab es).
Proof.
  intros Hr Hes. destruct (batch_refines es mt ab Hr Hes) as (mt'&E&Hr'). unfold Batch. rewrite E, res_bind_ret. eauto.
Qed.

Lemma ContainsAny_spec mt ab cf k :
  mt_refines mt ab → (cf < length ab)%nat →
  ∃ b, ContainsAny mt cf k = Ok b ∧ (b = true ↔ hotHas ab cf k ∨ coldHas ab cf k).
Proof.
  intros Hr Hcf. destruct (lookup_lt_is_Some_2 ab cf Hcf) as [a Ha].
  destruct (lookup_lt_is_Some_2 (families mt) cf) as [s Hs]; [by rewrite (mtr_len _ _ Hr)|].
  pose proof (mtr_cf _ _ Hr cf s a Hs Ha) as Href. unfold ContainsAny, LookupKv. rewrite Hs, res_bind_ret.
  eexists. split; [done|]. rewrite (lookupCf_refines cf s a k Href), negb_true_iff, bool_decide_eq_false.
  unfold hotHas, coldHas, absFind. rewrite Ha. destruct (hot a !! k) as [e|] eqn:Eh.
  - split; [intros _; left; exists a; by rewrite Eh|]. intros _. by destruct e.
  - destruct (cold a !! k) as [e|] eqn:Ec.
    + split; [intros _; right; exists a; by rewrite Ec|]. intros _. by destruct e.
    + split; [done|]. intros [(a'&[= <-]&Hx)|(a'&[= <-]&Hx)]; [rewrite Eh in Hx|rewrite Ec in Hx]; by destruct Hx.
Qed.

Lemma Publish_refines mt ab : mt_refines mt ab → mt_refines (Publish mt) (map publishAbs ab).
Proof. intros Hr. apply map_refines; [|done]. intros cf s a _. apply publishCf_refines. Qed.

Section flush.
Context {B : Type} `{HB : BlobStore B} `{HL : !BlobLaws B} `{HZ : Zstd} `{HZL : !ZstdLaws}.
Implicit Types (s : Store B) (kv : KVStore B) (b : FlushBatch).

(** ** Reads of the page store *)

Lemma KeyExists_spec s cf t ks key :
  store_ok s → trees s !! cf = Some t → Z.of_nat cf < numCf s → tree_repr (blobs s) t ks → keys_ok ks → bytes_ok key →
  ∃ there s', KeyExists s (Z.of_nat cf) key = Ok (there, s') ∧ (there = true ↔ key ∈ ks) ∧ PageCommit.reads s s'.
Proof.
  intros Hs Ht Hcf Hr Hk Hb. destruct (GetKeysInPrefix_spec s cf t ks key) as (s'&E&Hrd); [done..|].
  unfold KeyExists. rewrite E, res_bind_ret. cbv beta iota. eexists _, s'. split; [done|]. split; [|done].
  rewrite existsb_exists. split.
  - intros (k&Hin&Heq). apply list_elem_of_In, list_elem_of_filter in Hin as [_ Hin]. rewrite CmpSeq_eq in Heq.
    apply bool_decide_eq_true in Heq as ->. done.
  - intros Hin. exists key. rewrite CmpSeq_eq, bool_decide_true by done. split; [|done]. apply list_elem_of_In, list_elem_of_filter.
    split; [|done]. apply has_prefix_spec. exists []. by rewrite app_nil_r.
Qed.

(** ** Draining a captured batch *)

Definition drainedKeys (cap : list (list Run)) (cf : nat) : option (nat * list bytes) :=
  if Nat.leb 10 cf then None
  else let keys := DrainSorted (default [] (cap !! cf)) in if nonEmpty keys then Some (cf, keys) else None.

Definition withKeys b (l : list (nat * list bytes)) : FlushBatch :=
  mkBatch l (PairsByCf b) (DeletedByCf b) (BatchTrees b) (SealBoundary b) (MaxT b) (captured b).

Lemma drainCfs_spec n cf b :
  (∀ i, (cf ≤ i < cf + n)%nat → ∃ rs, captured b !! i = Some rs ∧ ((10 ≤ i)%nat → DrainKvSorted rs = Ok ([], []))) →
  drainCfs n cf b = Ok (withKeys b (KeysByCf b ++ omap (drainedKeys (captured b)) (seq cf n))).
Proof.
  revert cf b. induction n as [|n IH]; intros cf b Hc; cbn [drainCfs seq].
  { unfold withKeys. cbn. rewrite app_nil_r. by destruct b. }
  destruct (Hc cf) as (rs&Hrs&Hkv); [lia|]. rewrite Hrs.
  assert (drainCf cf rs b = Ok (withKeys b (KeysByCf b ++ match drainedKeys (captured b) cf with Some p => [p] | None => [] end))) as ->.
  { unfold drainCf, drainedKeys. rewrite Hrs. change (default [] (Some rs)) with rs.
    destruct rs as [|r rs]; cbn [nonEmpty length Nat.eqb negb].
    - change (DrainSorted []) with (@nil bytes). destruct (Nat.leb 10 cf); cbn; rewrite app_nil_r; by destruct b.
    - destruct (Nat.leb_spec 10 cf) as [H10|H10].
      + rewrite Hkv, res_bind_ret by done. cbn. rewrite !app_nil_r. by destruct b.
      + by destruct (nonEmpty (DrainSorted (r :: rs))). }
  rewrite res_bind_ret. rewrite IH.
  - unfold withKeys. cbn [KeysByCf captured PairsByCf DeletedByCf BatchTrees SealBoundary MaxT]. f_equal. f_equal.
    rewrite <- app_assoc. f_equal. cbn. by destruct (drainedKeys (captured b) cf).
  - intros i Hi. cbn [withKeys captured]. apply Hc. lia.
Qed.

(** The batch a capture of keys in families below 10 drains to. *)
Lemma drainBatch_spec kv b :
  KeysByCf b = [] → PairsByCf b = [] → DeletedByCf b = [] →
  (∀ i, (i < kvNumCf kv)%nat → ∃ rs, captured b !! i = Some rs ∧ ((10 ≤ i)%nat → DrainKvSorted rs = Ok ([], []))) →
  ∃ maxT, drainBatch kv b = Ok (mkBatch (omap (drainedKeys (captured b)) (seq 0 (kvNumCf kv))) [] []
                                  (BatchTrees b) (SealBoundary b) maxT []).
Proof.
  intros HK HP HD Hc. unfold drainBatch. rewrite drainCfs_spec, res_bind_ret by (intros i Hi; apply Hc; lia).
  unfold withKeys. cbn [KeysByCf PairsByCf DeletedByCf BatchTrees SealBoundary MaxT]. rewrite HK, HP, HD. cbn [app]. by eexists.
Qed.

Lemma elem_of_drained cap n cf keys :
  (cf, keys) ∈ omap (drainedKeys cap) (seq 0 n) →
  (cf < n)%nat ∧ (cf < 10)%nat ∧ keys = DrainSorted (default [] (cap !! cf)) ∧ ∃ k, k ∈ keys.
Proof.
  intros (i&Hi&E)%list_elem_of_omap. apply elem_of_seq in Hi. unfold drainedKeys in E.
  destruct (Nat.leb_spec 10 i); [done|]. cbv zeta in E. destruct (DrainSorted _) as [|k ks] eqn:Ed; [done|]. injection E as -> <-. rewrite Ed.
  split_and!; [lia|done|done|]. exists k. left.
Qed.

Lemma drained_elem cap n cf k :
  (cf < n)%nat → (cf < 10)%nat → k ∈ DrainSorted (default [] (cap !! cf)) →
  (cf, DrainSorted (default [] (cap !! cf))) ∈ omap (drainedKeys cap) (seq 0 n).
Proof.
  intros Hn H10 Hk. apply list_elem_of_omap. exists cf. split; [apply elem_of_seq; lia|]. unfold drainedKeys.
  rewrite (proj2 (Nat.leb_gt _ _)) by done. cbv zeta. by destruct (DrainSorted _); [apply not_elem_of_nil in Hk|].
Qed.

Lemma drained_NoDup cap n : NoDup (map fst (omap (drainedKeys cap) (seq 0 n))).
Proof.
  generalize 0%nat. induction n as [|n IH]; intros a; cbn [seq omap list_omap]; [constructor|].
  cbn. destruct (drainedKeys cap a) as [[cf ks]|] eqn:E; [|apply IH]. cbn. constructor; [|apply IH].
  assert (cf = a) as -> by (unfold drainedKeys in E; destruct (Nat.leb 10 a); [done|]; cbv zeta in E; destruct (nonEmpty _); [|done]; by injection E).
  intros Hin. apply list_elem_of_fmap in Hin as ([cf' ks']&->&Hin). apply list_elem_of_omap in Hin as (i&Hi&Ei). apply elem_of_seq in Hi.
  unfold drainedKeys in Ei. destruct (Nat.leb 10 i); [done|]. cbv zeta in Ei. destruct (nonEmpty _); [|done]. injection Ei as -> _. cbn in *. lia.
Qed.
End flush.

(** ** The machine *)

Section machine.
Context {B : Type} `{HB : BlobStore B} `{HL : !BlobLaws B} `{HZ : Zstd} `{HZL : !ZstdLaws}.
Implicit Types (s : Store B) (kv : KVStore B) (b : FlushBatch) (W : list CfKey).

(** Where the flush is. *)
Inductive pending : Type :=
| Idle
| Captured (b : FlushBatch)
| Prepared (b : FlushBatch) (ts : list CfTree) (root : bytes).

(** [sclock] is the time of the latest root on disk. *)
Record sys : Type := mkSys { skv : KVStore B; spend : pending; sclock : Z }.

Definition nanos (now : clock) : Z := now.1 * 1000000000 + now.2.

(** The entries of the datom engine: index families and keys a page can hold. *)
Definition entry_good (e : CfKey) : Prop := (e.1 ≤ 3)%nat ∧ page_key e.2.

(** Enough identifiers for the blobs of the merge, and trees that stay below 256
    levels. *)
Definition roomy W kv b : Prop :=
  (524 * length W ≤ room (blobs (PS kv)))%nat ∧ Z.of_nat (length W) < 2 ^ 100 ∧ Forall (fun t => Height t < 128) (BatchTrees b).

(** The transactor attaches the log to the store. *)
Definition attachWal kv (m : gmap nat bytes) : KVStore B := withDurable (withWal kv (Attach m [])) (-1).

Definition config_ok (cfg : Config) (n : nat) : Prop :=
  CfgPath cfg ≠ [] ∧ CfgReadOnly cfg = false ∧ CfgNumCf cfg = n ∧ CfgReplayOff cfg = false ∧ 0 ≤ CfgPageCacheSize cfg.

(** The machine of the store on its own. It is written by batches that are journalled
    in every family; the other path, JournalOnly for the first family and a batch that
    is not journalled, is the one of the datom engine and is a step of the machine of
    the transactor ([OpWrite] with [engineWrite] in Runner.v, [srun] in RunnerSpec.v).
    A crash keeps the blobs and the segment files. *)
Inductive kstep : list CfKey → sys → list CfKey → sys → Prop :=
| KWrite W kv p t es kv' :
    Forall entry_good es → BatchWrite kv es true = Ok kv' → kstep W (mkSys kv p t) (W ++ es) (mkSys kv' p t)
| KGet W kv p t cf k there kv' :
    (cf < kvNumCf kv)%nat → bytes_ok k → Get kv cf k = Ok (there, kv') → kstep W (mkSys kv p t) W (mkSys kv' p t)
| KCapture W kv t b kv' :
    CaptureFlush kv = Ok (Some b, kv') → kstep W (mkSys kv Idle t) W (mkSys kv' (Captured b) t)
| KPrepare W kv b t fuel now b' ts root kv' :
    t < nanos now < 2 ^ 63 → roomy W kv b → PrepareFlush fuel kv b now = Ok (b', ts, root, kv') →
    kstep W (mkSys kv (Captured b) t) W (mkSys kv' (Prepared b' ts root) (nanos now))
| KPublish W kv b ts root t :
    kstep W (mkSys kv (Prepared b ts root) t) W (mkSys (PublishFlush kv b ts root) Idle t)
| KCycle W kv p t w :
    wal kv = Some w →
    kstep W (mkSys kv p t) W (mkSys (withWal kv (cycle w (WalDurableUpTo kv))) p t)
| KCrash W kv p t w cfg now kv' :
    wal kv = Some w → config_ok cfg (kvNumCf kv) → New cfg (blobs (PS kv)) None (segs w) now = Ok kv' →
    kstep W (mkSys kv p t) W (mkSys (attachWal kv' (segs w)) Idle t).

(** A store just made on an empty blob store. *)
Inductive kstart : sys → Prop :=
| KStart cfg n bl0 now kv :
    config_ok cfg n → (4 ≤ n)%nat → Z.of_nat n < 65536 → binv bl0 → (∀ r, is_root_name r → rootsOf bl0 r = None) →
    0 < nanos now < 2 ^ 63 → New cfg bl0 None ∅ now = Ok kv → kstart (mkSys (attachWal kv ∅) Idle (nanos now)).

Inductive kreach : list CfKey → sys → Prop :=
| KInit sy : kstart sy → kreach [] sy
| KStep W sy W' sy' : kreach W sy → kstep W sy W' sy' → kreach W' sy'.

(** ** The invariant

    The store holds [W], of which [J] went to the log. *)

(** The least root name on disk is that of [t] and its trees hold [dc]. *)
Definition diskRoot (bl : B) (t : Z) (n : nat) (dc : nat → list bytes) : Prop :=
  ∃ now data ts s, nanos now = t ∧ 0 < t < 2 ^ 63 ∧ blobs s = bl
    ∧ blobGetRoot s (MakeRootName now.1 now.2) = Ok (Some data) ∧ DeserializeRoot data = Ok ts
    ∧ trees_repr bl ts dc ∧ length ts = n
    ∧ ∀ r, is_root_name r → is_Some (rootsOf bl r) → MakeRootName now.1 now.2 <=b r.

Definition sealedAt (ab : list absCf) (c : nat → list bytes) (S : list CfKey) (boundary : Z) : Prop :=
  ∃ P, P `prefix_of` S ∧ boundary = Z.of_nat (length (journalKeys P)) ∧ ∀ e, e ∈ P → coldHas ab e.1 e.2 ∨ e.2 ∈ c e.1.

Definition pendOk kv (p : pending) (ab : list absCf) (c dc : nat → list bytes) (S : list CfKey) : Prop :=
  match p with
  | Idle => flushActive kv = false ∧ (∀ cf k, ¬ coldHas ab cf k) ∧ ∀ cf k, (cf < length ab)%nat → k ∈ dc cf ↔ k ∈ c cf
  | Captured b => flushActive kv = true ∧ (∀ cf k, (cf < length ab)%nat → k ∈ dc cf ↔ k ∈ c cf)
      ∧ KeysByCf b = [] ∧ PairsByCf b = [] ∧ DeletedByCf b = [] ∧ BatchTrees b = trees (PS kv)
      ∧ (∀ cf a, ab !! cf = Some a → ∃ rs, captured b !! cf = Some rs ∧ Forall (run_ok cf) rs
          ∧ ∀ k, cold a !! k = entryOf <$> latest recKey k (concat (map Records rs)))
      ∧ sealedAt ab c S (SealBoundary b)
  | Prepared b ts root => flushActive kv = true ∧ length ts = length ab ∧ trees_repr (blobs (PS kv)) ts dc
      ∧ (∀ cf k, (cf < length ab)%nat → k ∈ dc cf ↔ k ∈ c cf ∨ coldHas ab cf k)
      ∧ sealedAt ab c S (SealBoundary b)
  end.

Record kinv (J W : list CfKey) (sy : sys) (ab : list absCf) (c dc : nat → list bytes) (m0 : gmap nat bytes) (S lost : list CfKey) (gone : nat) (w : Writer)
  : Prop := {
  ki_ro : kvReadOnly (skv sy) = false ∧ sReadOnly (PS (skv sy)) = false;
  ki_path : kvPath (skv sy) ≠ [];
  ki_num : kvNumCf (skv sy) = length ab;
  ki_trees_len : length (trees (PS (skv sy))) = length ab;
  ki_numCf : numCf (PS (skv sy)) = Z.of_nat (length ab);
  ki_range : (4 ≤ length ab)%nat ∧ Z.of_nat (length ab) < 65536;
  ki_store : store_ok (PS (skv sy));
  ki_mt : mt_refines (MT (skv sy)) ab;
  ki_trees : trees_repr (blobs (PS (skv sy))) (trees (PS (skv sy))) c;
  ki_good : Forall entry_good W;
  ki_has : ∀ cf k, (cf < length ab)%nat → (cf, k) ∈ W ↔ hotHas ab cf k ∨ coldHas ab cf k ∨ k ∈ c cf;
  ki_log : ∀ e, e ∈ J → e ∈ W ∧ (e.2 ∈ c e.1 ∨ e ∈ replaySegments m0 ∨ e ∈ S);
  ki_logged : ∀ e, e ∈ replaySegments m0 ∨ e ∈ S → e ∈ W;
  ki_wal : wal (skv sy) = Some w;
  ki_holds : holds m0 S lost gone w;
  ki_working : working w;
  ki_lost : ∀ e, e ∈ lost → e.2 ∈ c e.1;
  ki_dur : ∃ P, P `prefix_of` S ∧ WalDurableUpTo (skv sy) ≤ Z.of_nat (length (journalKeys P)) ∧ ∀ e, e ∈ P → e.2 ∈ c e.1;
  ki_disk : diskRoot (blobs (PS (skv sy))) (sclock sy) (length ab) dc;
  ki_pend : pendOk (skv sy) (spend sy) ab c dc S;
}.

(** ** Helpers *)

Lemma length_journalKeys es : (10 * length es ≤ length (journalKeys es))%nat.
Proof.
  unfold journalKeys. induction es as [|e es IH]; [done|]. cbn [map concat length]. rewrite length_app, length_keyRecord. lia.
Qed.

Lemma prefix_keys (A P S : list CfKey) e :
  A `prefix_of` S → P `prefix_of` S → (length (journalKeys A) ≤ length (journalKeys P))%nat → e ∈ A → e ∈ P.
Proof.
  intros HA HP Hle He. destruct (prefix_weak_total A P S HA HP) as [[x ->]|[x ->]]; [apply elem_of_app; by left|].
  rewrite journalKeys_app, length_app in Hle. pose proof (length_journalKeys x). destruct x as [|y x]; [by rewrite app_nil_r in He|].
  cbn [length] in *. lia.
Qed.

Lemma entry_good_jentry e : entry_good e → jentry_ok e ∧ bytes_ok e.2.
Proof. intros [Hcf [Hk Hb]]. split; [split; [done|]|done]. unfold keyLen in Hk. unfold maxJournalKeyLen. lia. Qed.

Lemma entries_good_ok es : Forall entry_good es → entries_ok es.
Proof. intros Hg. eapply Forall_impl; [exact Hg|]. apply entry_good_jentry. Qed.

Lemma entry_good_key e : entry_good e → Memtable.key_ok e.2.
Proof. intros [_ [Hk _]]. unfold keyLen in Hk. unfold Memtable.key_ok. lia. Qed.

(** What a step that only touches parts of the store leaves. *)
Definition sameShell kv kv' : Prop :=
  kvReadOnly kv' = kvReadOnly kv ∧ kvPath kv' = kvPath kv ∧ kvNumCf kv' = kvNumCf kv ∧ flushActive kv' = flushActive kv
  ∧ WalDurableUpTo kv' = WalDurableUpTo kv.

Lemma sameShell_trans kv1 kv2 kv3 : sameShell kv1 kv2 → sameShell kv2 kv3 → sameShell kv1 kv3.
Proof. intros (?&?&?&?&?) (?&?&?&?&?). split_and!; congruence. Qed.

Lemma maybeArmFlush_same kv :
  sameShell kv (maybeArmFlush kv) ∧ PS (maybeArmFlush kv) = PS kv ∧ MT (maybeArmFlush kv) = MT kv ∧ wal (maybeArmFlush kv) = wal kv.
Proof. unfold maybeArmFlush. destruct (_ && _); by split_and!. Qed.

(** What goes to the log. *)
Lemma deliver_spec kv es m0 S lost gone w (j : bool) :
  kvReadOnly kv = false → kvPath kv ≠ [] → wal kv = Some w → holds m0 S lost gone w → working w →
  ∃ kv' w', (if j && journaling kv && nonEmpty es then journalDeliver kv es else kv) = kv' ∧ sameShell kv kv' ∧ PS kv' = PS kv ∧ MT kv' = MT kv
    ∧ wal kv' = Some w' ∧ holds m0 (S ++ if j then es else []) lost gone w' ∧ working w'.
Proof.
  intros Hro Hp Hw Hh Hwk. assert (journaling kv = true) as -> by (unfold journaling; rewrite Hro; by destruct (kvPath kv)).
  destruct j; [|exists kv, w; by rewrite app_nil_r]. destruct es as [|e es]; [exists kv, w; by rewrite app_nil_r|]. cbn [andb nonEmpty length Nat.eqb negb].
  unfold journalDeliver. rewrite Hw. destruct (Sink_working _ _ _ _ _ (e :: es) Hh Hwk) as [Hh1 Hwk1]. eexists _, _. by split_and!.
Qed.

Lemma BatchWrite_spec kv ab es m0 S lost gone w (j : bool) :
  kvReadOnly kv = false → kvPath kv ≠ [] → mt_refines (MT kv) ab → Forall entry_good es →
  wal kv = Some w → holds m0 S lost gone w → working w →
  ∃ kv' w', BatchWrite kv es j = Ok kv' ∧ sameShell kv kv' ∧ PS kv' = PS kv ∧ mt_refines (MT kv') (batchAbs ab es)
    ∧ wal kv' = Some w' ∧ holds m0 (S ++ if j then es ++ es else []) lost gone w' ∧ working w'.
Proof.
  intros Hro Hp Hmt Hes Hw Hh Hwk. unfold BatchWrite.
  destruct (deliver_spec kv es m0 S lost gone w j) as (kv1&w1&E1&Hs1&HP1&HM1&Hw1&Hh1&Hwk1); [done..|]. rewrite E1.
  pose proof Hs1 as (Er&Ep&_). destruct (deliver_spec kv1 es m0 (S ++ if j then es else []) lost gone w1 j) as (kv2&w2&E2&Hs2&HP2&HM2&Hw2&Hh2&Hwk2);
    [congruence|congruence|done..|]. cbv zeta. rewrite E2. destruct (Batch_spec (MT kv2) ab es) as (mt'&size&E&Hmt'); [by rewrite HM2, HM1| |].
  { eapply Forall_impl; [exact Hes|]. apply entry_good_key. }
  rewrite E, res_bind_ret. cbv beta iota. destruct (maybeArmFlush_same (withMT kv2 mt' size)) as (Hs3&HP3&HM3&HW3).
  eexists _, w2. split; [done|]. rewrite HP3, HM3, HW3. cbn [withMT PS MT wal]. split_and!; try done; [|congruence|].
  - exact (sameShell_trans _ _ _ (sameShell_trans _ _ _ Hs1 Hs2) Hs3).
  - rewrite <- app_assoc in Hh2. by destruct j.
Qed.

(** ** Steps keep the invariant *)

Lemma batchAbs_cold ab es cf a :
  batchAbs ab es !! cf = Some a → ∃ a0, ab !! cf = Some a0 ∧ cold a = cold a0.
Proof.
  unfold batchAbs. revert ab. induction es as [|[cf' k'] es IH]; intros ab; cbn [fold_left]; [eauto|].
  intros (a1&Ha1&->)%IH. destruct (decide (cf = cf')) as [->|Hne]; [|rewrite list_lookup_alter_ne in Ha1 by done; eauto].
  rewrite list_lookup_alter_eq in Ha1. apply fmap_Some in Ha1 as (a0&->&->). eauto.
Qed.

Lemma sealedAt_grow ab ab' c S S' n :
  (∀ cf k, coldHas ab cf k → coldHas ab' cf k) → S `prefix_of` S' → sealedAt ab c S n → sealedAt ab' c S' n.
Proof.
  intros Hc HS (P&HP&->&Hin). exists P. split; [by transitivity S|]. split; [done|]. intros e He. destruct (Hin e He); auto.
Qed.

Lemma pendOk_grow kv kv' p ab ab' c dc S S' :
  pendOk kv p ab c dc S → flushActive kv' = flushActive kv → trees (PS kv') = trees (PS kv) → blobs (PS kv') = blobs (PS kv) →
  length ab' = length ab → (∀ cf a', ab' !! cf = Some a' → ∃ a, ab !! cf = Some a ∧ cold a' = cold a) →
  (∀ cf k, coldHas ab' cf k ↔ coldHas ab cf k) → S `prefix_of` S' → pendOk kv' p ab' c dc S'.
Proof.
  intros Hp Ha Ht Hb Hl Hcold Hc HS. destruct p as [|b|b ts root]; cbn [pendOk] in *; rewrite Ha, ?Ht, ?Hb, Hl.
  - destruct Hp as (?&Hn&?). split_and!; [done| |done]. intros cf k ?%Hc. by eapply Hn.
  - destruct Hp as (?&?&?&?&?&?&Hcap&Hs). split_and!; try done.
    + intros cf a' (a&Ha'&->)%Hcold. by apply Hcap.
    + eapply sealedAt_grow; [|done|done]. intros cf k. apply Hc.
  - destruct Hp as (?&?&?&Hdc&Hs). split_and!; try done; [|eapply sealedAt_grow; [|done|done]; intros cf k; apply Hc].
    intros cf k Hcf. by rewrite Hc, Hdc.
Qed.

(** Entries [es] got into the memtable and [log], some of them, into the log. *)
Lemma grow_inv J J' W kv p t es log kv' ab c dc m0 S lost gone w w' :
  kinv J W (mkSys kv p t) ab c dc m0 S lost gone w → Forall entry_good es → (∀ e, e ∈ log → e ∈ es) → (∀ e, e ∈ J' → e ∈ J ∨ e ∈ log) →
  sameShell kv kv' → PS kv' = PS kv → mt_refines (MT kv') (batchAbs ab es) → wal kv' = Some w' → holds m0 (S ++ log) lost gone w' → working w' →
  kinv J' (W ++ es) (mkSys kv' p t) (batchAbs ab es) c dc m0 (S ++ log) lost gone w'.
Proof.
  intros [[Hro Hro2] Hpath Hnum Htl Hncf Hrg Hst Hmt Htr Hgood Hhas Hlog Hlgd Hw Hh Hwk Hlost Hdur Hdisk Hpend] Hes Hl HJ (S1&S2&S3&S4&S5) HPS HMT HW Hh' Hwk'.
  cbn [skv spend sclock] in *.
  constructor; cbn [skv spend sclock]; rewrite ?HPS, ?S1, ?S2, ?S3, ?S5, ?length_batchAbs; try done.
  - by apply Forall_app.
  - intros cf k Hcf. rewrite elem_of_app, hotHas_batch, coldHas_batch, Hhas by done. tauto.
  - intros e He. rewrite !elem_of_app. destruct (HJ e He) as [He'|He']; [destruct (Hlog e He'); tauto|]. specialize (Hl e He'). tauto.
  - intros e. rewrite !elem_of_app. intros [He|[He|He]]; [left; apply Hlgd; by left|left; apply Hlgd; by right|right; by apply Hl].
  - destruct Hdur as (P&HP&?&?). exists P. split; [by apply prefix_app_r|done].
  - eapply pendOk_grow; [exact Hpend|done|by rewrite HPS|by rewrite HPS|apply length_batchAbs| | |by apply prefix_app_r].
    + apply batchAbs_cold.
    + intros cf k. apply coldHas_batch.
Qed.

Lemma write_inv J W kv p t es kv' ab c dc m0 S lost gone w :
  kinv J W (mkSys kv p t) ab c dc m0 S lost gone w → Forall entry_good es → BatchWrite kv es true = Ok kv' →
  ∃ w', kinv (J ++ es) (W ++ es) (mkSys kv' p t) (batchAbs ab es) c dc m0 (S ++ es ++ es) lost gone w'.
Proof.
  intros Hi Hes E. destruct (BatchWrite_spec kv ab es m0 S lost gone w true) as (kv1&w'&E1&Hs&HPS&HMT&HW&Hh'&Hwk'); [apply Hi|apply Hi|apply Hi|done|apply Hi|apply Hi|apply Hi|].
  rewrite E1 in E. injection E as ->. exists w'. eapply (grow_inv J); try done; intros e; rewrite !elem_of_app; tauto.
Qed.

(** The path of the datom engine: [log] is journalled, [es] is inserted. *)
Lemma logged_inv J W kv p t es log ab c dc m0 S lost gone w :
  kinv J W (mkSys kv p t) ab c dc m0 S lost gone w → Forall entry_good es → (∀ e, e ∈ log → e ∈ es) →
  ∃ kv' w', BatchWrite (JournalOnly kv log) es false = Ok kv' ∧ PS kv' = PS kv ∧ flushActive kv' = flushActive kv
    ∧ kinv (J ++ log) (W ++ es) (mkSys kv' p t) (batchAbs ab es) c dc m0 (S ++ log) lost gone w'.
Proof.
  intros Hi Hes Hl. destruct (deliver_spec kv log m0 S lost gone w true) as (kv1&w1&E1&Hs1&HP1&HM1&Hw1&Hh1&Hwk1); [apply Hi..|].
  pose proof Hs1 as (Er&Ep&_). assert (JournalOnly kv log = kv1) as -> by done.
  destruct (BatchWrite_spec kv1 ab es m0 (S ++ log) lost gone w1 false) as (kv2&w2&E2&Hs2&HP2&HMT&HW&Hh2&Hwk2);
    [rewrite Er; apply Hi|rewrite Ep; apply Hi|rewrite HM1; apply Hi|done..|].
  exists kv2, w2. split; [done|]. split; [congruence|]. rewrite app_nil_r in Hh2. pose proof (sameShell_trans _ _ _ Hs1 Hs2) as Hs. split; [apply Hs|].
  eapply (grow_inv J); try done; [intros e; rewrite elem_of_app; tauto|congruence].
Qed.

(** Index keys made anew at a start are inserted and not logged. *)
Lemma expand_inv J W kv p t es ab c dc m0 S lost gone w :
  kinv J W (mkSys kv p t) ab c dc m0 S lost gone w → Forall entry_good es →
  ∃ kv', ApplyJournalRecordsExpanded kv es = Ok kv' ∧ PS kv' = PS kv ∧ flushActive kv' = flushActive kv
    ∧ kinv J (W ++ es) (mkSys kv' p t) (batchAbs ab es) c dc m0 S lost gone w.
Proof.
  intros Hi Hes. unfold ApplyJournalRecordsExpanded. destruct es as [|e es]; [exists kv; by rewrite app_nil_r|]. cbn [nonEmpty length Nat.eqb negb].
  destruct (Batch_spec (MT kv) ab (e :: es)) as (mt'&size&E&Hmt'); [apply Hi|eapply Forall_impl; [exact Hes|]; apply entry_good_key|].
  rewrite E, res_bind_ret. eexists. split; [done|]. split; [done|]. split; [done|].
  replace S with (S ++ []) by apply app_nil_r.
  eapply (grow_inv J J W kv p t (e :: es) [] _ ab c dc m0 S lost gone w w Hi Hes); rewrite ?app_nil_r; try done; [intros x ?%elem_of_nil; done|auto|apply Hi..].
Qed.

Lemma get_inv J W kv p t cf k ab c dc m0 S lost gone w :
  kinv J W (mkSys kv p t) ab c dc m0 S lost gone w → (cf < kvNumCf kv)%nat → bytes_ok k →
  ∃ there kv', Get kv cf k = Ok (there, kv') ∧ kinv J W (mkSys kv' p t) ab c dc m0 S lost gone w ∧ (there = true ↔ (cf, k) ∈ W)
    ∧ blobs (PS kv') = blobs (PS kv) ∧ trees (PS kv') = trees (PS kv).
Proof.
  intros Hi Hcf Hk. pose proof Hi as [[Hro Hro2] Hpath Hnum Htl Hncf Hrg Hst Hmt Htr Hgood Hhas Hlog Hlgd Hw Hh Hwk Hlost Hdur Hdisk Hpend].
  cbn [skv spend sclock] in *. rewrite Hnum in Hcf. destruct (ContainsAny_spec (MT kv) ab cf k Hmt Hcf) as (found&Ef&Hf).
  unfold Get. rewrite Ef, res_bind_ret. destruct found.
  { eexists _, _. split; [done|]. split; [done|]. split; [|done]. split; [|done]. intros _. apply Hhas; [done|]. destruct (proj1 Hf eq_refl); auto. }
  destruct (lookup_lt_is_Some_2 (trees (PS kv)) cf) as [tr Htr1]; [by rewrite Htl|]. destruct (Htr cf tr Htr1) as [Hrep Hok].
  destruct (KeyExists_spec (PS kv) cf tr (c cf) k) as (th&s'&E1&Hth&Hs'&Hrs); [done|done|lia|done|done|done|].
  rewrite E1, res_bind_ret. eexists _, _. split; [done|]. rewrite Hrs. split; [|split; [|done]].
  - constructor; cbn [skv spend sclock withPS withCache kvReadOnly PS kvPath kvNumCf trees numCf blobs sReadOnly MT wal WalDurableUpTo]; try done.
    by rewrite <- Hrs.
  - rewrite Hth, Hhas by done. split; [auto|]. intros [?|[?|?]]; [| |done]; assert (false = true) by (apply Hf; auto); done.
Qed.

Lemma good_range W e : Forall entry_good W → e ∈ W → (e.1 ≤ 3)%nat.
Proof. intros Hg He. rewrite Forall_forall in Hg. by apply Hg. Qed.

Lemma capture_inv J W kv t ab c dc m0 S lost gone w :
  kinv J W (mkSys kv Idle t) ab c dc m0 S lost gone w →
  ∃ b kv', CaptureFlush kv = Ok (Some b, kv')
    ∧ ∃ w', kinv J W (mkSys kv' (Captured b) t) (map freezeAbs ab) c dc m0 S lost gone w'.
Proof.
  intros [[Hro Hro2] Hpath Hnum Htl Hncf Hrg Hst Hmt Htr Hgood Hhas Hlog Hlgd Hw Hh Hwk Hlost Hdur Hdisk Hpend]. cbn [skv spend sclock pendOk] in *.
  destruct Hpend as (Hfa&Hnc&Hdc). destruct (FreezeAllCapture_spec (MT kv) ab Hmt) as (mt'&cap&E&Hmt'&Hcl&Hcap).
  destruct (Seal_working m0 S lost gone w Hh Hwk) as (Hh'&Hwk'&Hseal).
  unfold CaptureFlush. rewrite Hro, Hfa, E, res_bind_ret. cbn [orb]. cbv beta iota zeta. cbn [withMT withActive wal]. rewrite Hw.
  destruct (Seal w) as [w' n]. cbn [fst snd] in *. eexists _, _. split; [done|]. exists w'.
  constructor; cbn [skv spend sclock withWal withMT withActive kvReadOnly PS kvPath kvNumCf MT wal WalDurableUpTo]; rewrite ?length_map; try done.
  - intros cf k Hcf. rewrite coldHas_freeze, Hhas by done. pose proof (hotHas_freeze ab cf k). specialize (Hnc cf k). tauto.
  - cbn [pendOk KeysByCf PairsByCf DeletedByCf BatchTrees captured SealBoundary flushActive withWal withMT withActive PS].
    rewrite length_map. split_and!; try done.
    + intros cf a Ha. rewrite list_lookup_fmap in Ha. apply fmap_Some in Ha as (a0&Ha0&->). by apply Hcap.
    + exists S. split; [done|]. split; [done|]. intros [cf k] He. cbn [fst snd]. rewrite coldHas_freeze.
      assert ((cf, k) ∈ W) as HeW by (apply Hlgd; by right). pose proof (good_range W _ Hgood HeW). cbn [fst] in *.
      apply Hhas in HeW; [|lia]. specialize (Hnc cf k). tauto.
Qed.

(** ** Preparing a flush *)

Lemma captured_keys ab b cf a :
  ab !! cf = Some a →
  (∃ rs, captured b !! cf = Some rs ∧ Forall (run_ok cf) rs
     ∧ ∀ k, cold a !! k = entryOf <$> latest recKey k (concat (map Records rs))) →
  ascending (DrainSorted (default [] (captured b !! cf)))
  ∧ ∀ k, k ∈ DrainSorted (default [] (captured b !! cf)) ↔ coldHas ab cf k.
Proof.
  intros Ha (rs&Hrs&Hok&Hcold). rewrite Hrs. change (default [] (Some rs)) with rs.
  destruct (DrainSorted_spec cf rs Hok) as [Has Hk]. split; [done|]. intros k. rewrite Hk. unfold coldHas. rewrite Ha. split.
  - intros Hs. exists a. split; [done|]. by rewrite Hcold, fmap_is_Some.
  - intros (a'&[= <-]&Hs). by rewrite Hcold, fmap_is_Some in Hs.
Qed.

Lemma mergeKeys_bound W cf l1 l2 :
  ascending l1 → ascending l2 → (∀ k, k ∈ l1 ∨ k ∈ l2 → (cf, k) ∈ W) → (length (mergeKeys l1 l2) ≤ length W)%nat.
Proof.
  intros H1 H2 HW. rewrite <- (length_map (pair cf)). apply submseteq_length, NoDup_submseteq.
  - apply NoDup_fmap_2; [by intros ?? [=]|]. by apply ascending_NoDup, mergeKeys_ascending.
  - intros e (k&->&Hk)%list_elem_of_fmap. apply HW. by apply elem_of_mergeKeys.
Qed.

Lemma flushCost_bound c keys n :
  NoDup (map fst keys) → (∀ cf ks, (cf, ks) ∈ keys → (cf ≤ 3)%nat) →
  (∀ cf ks, (cf, ks) ∈ keys → (length (mergeKeys (c cf) ks) ≤ n)%nat) → (flushCost c keys ≤ 524 * n)%nat.
Proof.
  intros Hnd Hcf Hlen. assert (length keys ≤ 4)%nat as Hl.
  { rewrite <- (length_map fst). change 4%nat with (length (seq 0 4)). apply submseteq_length, NoDup_submseteq; [done|].
    intros cf ([cf' ks]&->&Hin)%list_elem_of_fmap. apply elem_of_seq. specialize (Hcf _ _ Hin). cbn [fst]. lia. }
  assert (flushCost c keys ≤ 131 * length keys * n)%nat; [|nia]. clear Hl Hnd Hcf.
  induction keys as [|[cf ks] keys IH]; cbn [flushCost length]; [lia|].
  assert (flushCost c keys ≤ 131 * length keys * n)%nat by (apply IH; intros cf' ks' Hin; apply (Hlen cf'); by right).
  specialize (Hlen cf ks ltac:(left)). nia.
Qed.

(** [root] was added as the newest root, with the trees [ts], and nothing was taken
    away. *)
Definition rootAdded s s' (ts : list CfTree) (root : bytes) : Prop :=
  is_root_name root ∧ (∃ data, blobGetRoot s' root = Ok (Some data) ∧ DeserializeRoot data = Ok ts) ∧ keeps (blobs s) (blobs s')
  ∧ (∀ r, is_root_name r → r ≠ root → rootsOf (blobs s') r = rootsOf (blobs s) r)
  ∧ ∀ r, is_root_name r → is_Some (rootsOf (blobs s') r) → root <=b r.

Lemma diskRoot_older s s' t n dc root now :
  diskRoot (blobs s) t n dc → t < nanos now < 2 ^ 63 → root = MakeRootName now.1 now.2 →
  (∀ r, is_root_name r → r ≠ root → rootsOf (blobs s') r = rootsOf (blobs s) r) →
  ∀ r, is_root_name r → is_Some (rootsOf (blobs s') r) → root <=b r.
Proof.
  intros (now0&data0&ts0&s0&Ht&Hr&_&_&_&_&_&Hleast) Hnow Eroot Hroots r Hrn Hs.
  destruct (decide (r = root)) as [->|Hne]; [apply ble_refl|]. rewrite Hroots in Hs by done.
  eapply ble_trans; [|by apply Hleast]. rewrite Eroot. apply blt_le, MakeRootName_lt; unfold nanos in *; lia.
Qed.

Lemma diskRoot_new s s' t n dc ts root data now :
  diskRoot (blobs s) t n dc → t < nanos now < 2 ^ 63 → root = MakeRootName now.1 now.2 →
  (∀ r, is_root_name r → r ≠ root → rootsOf (blobs s') r = rootsOf (blobs s) r) →
  blobGetRoot s' root = Ok (Some data) → DeserializeRoot data = Ok ts → length ts = n →
  ∀ dc', trees_repr (blobs s') ts dc' → diskRoot (blobs s') (nanos now) n dc'.
Proof.
  intros Hdisk Hnow Eroot Hroots Hg Hd Hl dc' Htr. assert (0 < t) by (destruct Hdisk as (?&?&?&?&?&?&_); lia).
  exists now, data, ts, s'. rewrite <- Eroot. split_and!; try done; [lia|lia|]. by eapply (diskRoot_older s s').
Qed.

Lemma prepare_inv J W kv b t fuel now ab c dc m0 S lost gone w :
  kinv J W (mkSys kv (Captured b) t) ab c dc m0 S lost gone w → t < nanos now < 2 ^ 63 → roomy W kv b →
  ∃ b' ts root kv', PrepareFlush fuel kv b now = Ok (b', ts, root, kv')
    ∧ rootAdded (PS kv) (PS kv') ts root
    ∧ ∃ dc', kinv J W (mkSys kv' (Prepared b' ts root) (nanos now)) ab c dc' m0 S lost gone w.
Proof.
  intros [[Hro Hro2] Hpath Hnum Htl Hncf Hrg Hst Hmt Htr Hgood Hhas Hlog Hlgd Hw Hh Hwk Hlost Hdur Hdisk Hpend] Hnow Hroom.
  cbn [skv spend sclock pendOk] in *. destruct Hpend as (Hfa&Hdc&HK&HP&HD&HT&Hcap&Hseal).
  assert (∀ cf a, ab !! cf = Some a → (10 ≤ cf)%nat → cold a = ∅) as Hcold10.
  { intros cf a Ha H10. apply map_empty. intros k. apply eq_None_not_Some. intros Hs.
    assert ((cf, k) ∈ W) as HeW by (apply Hhas; [by eapply lookup_lt_Some|right; left; by exists a]).
    pose proof (good_range W _ Hgood HeW). cbn [fst] in *. lia. }
  destruct (drainBatch_spec kv b HK HP HD) as (maxT&Ed).
  { intros i Hi. rewrite Hnum in Hi. apply lookup_lt_is_Some in Hi as [a Ha]. destruct (Hcap i a Ha) as (rs&Hrs&Hok&Hcold).
    exists rs. split; [done|]. intros H10. destruct (DrainKvSorted_spec i rs H10 Hok) as (pairs&deleted&E&_&_&Hp&Hd). rewrite E.
    rewrite (Hcold10 i a Ha H10) in Hcold. f_equal. f_equal; apply elem_of_nil_inv.
    - intros [k v] Hin%Hp. by rewrite <- Hcold, lookup_empty in Hin.
    - intros k Hin%Hd. by rewrite <- Hcold, lookup_empty in Hin. }
  set (keys := omap (drainedKeys (captured b)) (seq 0 (kvNumCf kv))) in *. rewrite HT in *.
  assert (∀ cf ks, (cf, ks) ∈ keys → keys_ok ks ∧ (cf < length ab)%nat ∧ ∀ k, k ∈ ks ↔ coldHas ab cf k) as Hkeys.
  { intros cf ks (Hlt&H10&->&_)%elem_of_drained. rewrite Hnum in Hlt. destruct (lookup_lt_is_Some_2 ab cf Hlt) as [a Ha].
    destruct (captured_keys ab b cf a Ha (Hcap cf a Ha)) as [Has Hk]. split_and!; [split; [done|]|done|done].
    apply Forall_forall. intros k Hin%Hk. assert ((cf, k) ∈ W) as HeW by (apply Hhas; auto).
    rewrite Forall_forall in Hgood. by apply (Hgood (cf, k)). }
  assert (∀ cf ks, (cf, ks) ∈ keys → (length (mergeKeys (c cf) ks) ≤ length W)%nat) as Hmerge.
  { intros cf ks Hin. destruct (Hkeys cf ks Hin) as (Hok&Hlt&Hk). apply (mergeKeys_bound W cf).
    - destruct (lookup_lt_is_Some_2 (trees (PS kv)) cf) as [tr Htr1]; [by rewrite Htl|]. apply (Htr cf tr Htr1).
    - apply Hok.
    - intros k Hc. apply Hhas; [done|]. destruct Hc as [?|?]; [auto|right; left; by apply Hk]. }
  destruct Hroom as (Hcost&Hsmall&Hheight). rewrite HT in Hheight. rewrite Forall_forall in Hheight.
  assert (flushCost c keys ≤ room (blobs (PS kv)))%nat as Hcost'.
  { etransitivity; [|exact Hcost]. apply (flushCost_bound c keys (length W)); [apply drained_NoDup| |done].
    intros cf ks Hin. destruct (Hkeys cf ks Hin) as (_&Hlt&Hk). apply elem_of_drained in Hin as (_&_&_&k&Hin).
    assert ((cf, k) ∈ W) as HeW by (apply Hhas; [done|right; left; by apply Hk]). exact (good_range W _ Hgood HeW). }
  assert (∀ cf t keys0, (cf, keys0) ∈ keys → trees (PS kv) !! cf = Some t → fits_height t (mergeKeys (c cf) keys0)) as Hfit.
  { intros cf tr ks Hin Htr1. split; [apply Hheight; by eapply list_elem_of_lookup_2|]. specialize (Hmerge cf ks Hin). lia. }
  destruct (PrepareMerge_spec (PS kv) (trees (PS kv)) c keys now) as (ts&root&s'&E&Hs'&Hb'&Ho&Hu&Ht'&Hl&Hroot&Hroots&data&Hg&Hdes);
    [apply Hst|done|unfold nanos in *; destruct Hdisk as (?&?&?&?&_&?&_); lia|done| |lia|done|].
  { split_and!; [apply drained_NoDup|apply Forall_forall; intros [cf ks] Hin; by apply (Hkeys cf)|exact Hfit]. }
  unfold PrepareFlush. rewrite Ed, res_bind_ret. cbn [BatchTrees KeysByCf PairsByCf DeletedByCf]. rewrite E, res_bind_ret. cbv beta iota.
  cbn [nonEmpty length Nat.eqb negb orb]. do 4 eexists. split; [done|].
  assert (keeps (blobs (PS kv)) (blobs s')) as Hkeep by (intros u Hid Hso; apply Ho; [done|apply obj_used; [apply Hst|done]]).
  split.
  { cbn [PS withPS]. split_and!; [|by eexists|done|done|by eapply (diskRoot_older (PS kv) s')].
    rewrite Hroot. apply MakeRootName_root. unfold nanos in *. destruct Hdisk as (?&?&?&?&_&?&_). lia. }
  exists (flushed c keys).
  assert (∀ cf k, (cf < length ab)%nat → k ∈ flushed c keys cf ↔ k ∈ c cf ∨ coldHas ab cf k) as Hfl.
  { intros cf k Hcf. rewrite elem_of_flushed. split.
    - intros [?|(ks&Hin&Hk)]; [by left|right]. by apply (Hkeys cf ks Hin).
    - intros [?|Hc]; [by left|right]. destruct (lookup_lt_is_Some_2 ab cf Hcf) as [a Ha].
      destruct (captured_keys ab b cf a Ha (Hcap cf a Ha)) as [_ Hk]. eexists. split; [|by apply Hk].
      apply drained_elem with k; [lia| |by apply Hk]. assert ((cf, k) ∈ W) as HeW by (apply Hhas; auto).
      pose proof (good_range W _ Hgood HeW). cbn [fst] in *. lia. }
  rewrite Hs'. constructor; cbn [skv spend sclock withPS withBlobs kvReadOnly PS kvPath kvNumCf MT wal WalDurableUpTo trees numCf blobs sReadOnly]; try done.
  - destruct Hst as [_ Hca Hco]. constructor; cbn [blobs cache withBlobs]; [done|done|]. intros u e Hue. destruct (Hco u e Hue) as [Hus Hd]. split; [by apply Hu|].
    intros d' (Hid&Hz&z&Hz1&Hz2). apply Hd. split_and!; [done|done|]. exists z. by rewrite <- Ho.
  - by eapply trees_repr_keeps.
  - eapply (diskRoot_new (PS kv) s'); [exact Hdisk|done|exact Hroot|done|exact Hg|exact Hdes|lia|done].
  - cbn [pendOk flushActive SealBoundary withPS PS withBlobs blobs]. split_and!; try done. lia.
Qed.

(** ** Publishing, the log's cycle *)

Lemma holds_prefix m0 S lost gone w : holds m0 S lost gone w → lost `prefix_of` S.
Proof. intros (parts&cur&g&k&<-&_). by eexists. Qed.

Lemma prefix_elem (P S : list CfKey) e : P `prefix_of` S → e ∈ P → e ∈ S.
Proof. intros [x ->] He. apply elem_of_app. by left. Qed.

Lemma kinv_stream J W sy ab c dc m0 S lost gone w e :
  kinv J W sy ab c dc m0 S lost gone w → e ∈ S → e ∈ W ∧ (e.1 < length ab)%nat.
Proof.
  intros Hi He. assert (e ∈ W) as HW by (apply (ki_logged _ _ _ _ _ _ _ _ _ _ _ Hi); by right). split; [done|].
  pose proof (good_range W e (ki_good _ _ _ _ _ _ _ _ _ _ _ Hi) HW). pose proof (ki_range _ _ _ _ _ _ _ _ _ _ _ Hi). lia.
Qed.

Lemma publish_inv J W kv b ts root t ab c dc m0 S lost gone w :
  kinv J W (mkSys kv (Prepared b ts root) t) ab c dc m0 S lost gone w →
  kinv J W (mkSys (PublishFlush kv b ts root) Idle t) (map publishAbs ab) dc dc m0 S lost gone w.
Proof.
  intros Hi. pose proof Hi as [[Hro Hro2] Hpath Hnum Htl Hncf Hrg Hst Hmt Htr Hgood Hhas Hlog Hlgd Hw Hh Hwk Hlost Hdur Hdisk Hpend].
  cbn [skv spend sclock pendOk] in *. destruct Hpend as (Hfa&Hlts&Htr'&Hdc&P&HP&HPb&HPin).
  assert (∀ e, e ∈ S → e.2 ∈ c e.1 ∨ coldHas ab e.1 e.2 → e.2 ∈ dc e.1) as Hup.
  { intros e He Hc. apply Hdc; [by eapply kinv_stream|done]. }
  unfold PublishFlush. replace (SealBoundary b >=? 0) with true by lia.
  constructor; cbn [skv spend sclock withDurable withActive withMT withPS PublishTrees kvReadOnly PS kvPath kvNumCf MT wal WalDurableUpTo trees numCf blobs sReadOnly];
    rewrite ?length_map; try done.
  - destruct Hst. by constructor.
  - by apply Publish_refines.
  - intros cf k Hcf. rewrite hotHas_publish, Hhas, Hdc by done. pose proof (coldHas_publish ab cf k). tauto.
  - intros e He. destruct (Hlog e He) as [HW [?|[?|?]]]; (split; [done|]); [left|by right; left|by right; right]. apply Hdc; [|by left].
    pose proof (good_range W e Hgood HW). lia.
  - intros e He. apply Hup; [|left; by apply Hlost]. eapply prefix_elem; [by eapply holds_prefix|done].
  - exists P. split; [done|]. split; [lia|]. intros e He. apply Hup; [by eapply prefix_elem|]. destruct (HPin e He); auto.
  - cbn [pendOk flushActive withDurable withActive]. split_and!; [done|apply coldHas_publish|done].
Qed.

Lemma cycle_inv J W kv p t ab c dc m0 S lost gone w :
  kinv J W (mkSys kv p t) ab c dc m0 S lost gone w →
  ∃ lost' gone', kinv J W (mkSys (withWal kv (cycle w (WalDurableUpTo kv))) p t) ab c dc m0 S lost' gone'
    (cycle w (WalDurableUpTo kv)).
Proof.
  intros [[Hro Hro2] Hpath Hnum Htl Hncf Hrg Hst Hmt Htr Hgood Hhas Hlog Hlgd Hw Hh Hwk Hlost Hdur Hdisk Hpend].
  cbn [skv spend sclock] in *. destruct (cycle_working m0 S lost gone w (WalDurableUpTo kv) Hh Hwk) as (lost'&gone'&Hh'&Hwk'&Hl).
  exists lost', gone'. constructor; cbn [skv spend sclock withWal kvReadOnly PS kvPath kvNumCf MT wal WalDurableUpTo]; try done.
  intros e He. destruct Hl as [->|Hl]; [by apply Hlost|]. destruct Hdur as (P&HP&HPb&HPin). apply HPin.
  eapply (prefix_keys lost' P S); [by eapply holds_prefix|done|lia|done].
Qed.

(** ** Restarting *)

Lemma ascending_head (l : list bytes) x : ascending l → x ∈ l → (∀ y, y ∈ l → x <=b y) → ∃ rest, l = x :: rest.
Proof.
  intros Ha Hx Hmin. destruct l as [|y l]; [by apply not_elem_of_nil in Hx|]. exists l. f_equal.
  apply elem_of_cons in Hx as [->|Hx]; [done|]. apply ascending_cons in Ha as [Hy _]. rewrite Forall_forall in Hy.
  exfalso. apply (proj1 (blt_not_le _ _) (Hy x Hx)). apply Hmin. left.
Qed.

Lemma Open_latest bl t n dc ro cs now :
  binv bl → diskRoot bl t n dc → (0 < n)%nat → 0 ≤ cs →
  ∃ s, Open bl (Z.of_nat n) ro cs now = Ok s ∧ blobs s = bl ∧ store_ok s ∧ sReadOnly s = ro ∧ numCf s = Z.of_nat n
    ∧ length (trees s) = n ∧ trees_repr bl (trees s) dc.
Proof.
  intros Hb (now0&data&ts&s0&Ht&Htr&Hbl&Hg&Hd&Htrees&Hlen&Hleast) Hn Hcs. unfold Open. replace (Z.of_nat n =? 0) with false by lia.
  set (cs' := if cs =? 0 then _ else _). assert (0 ≤ cs') by (unfold cs'; destruct (cs =? 0); lia). set (s := mkStore _ _ _ _ _ _).
  destruct (listRoots_law bl Hb) as (ns&E&Ha&Hns). rewrite E, res_bind_ret.
  assert (is_root_name (MakeRootName now0.1 now0.2)) as Hname by (apply MakeRootName_root; unfold nanos in Ht; lia).
  assert (is_Some (rootsOf bl (MakeRootName now0.1 now0.2))) as Hsome.
  { unfold blobGetRoot in Hg. rewrite Hbl, getRoot_law, res_bind_ret in Hg by done. by destruct (rootsOf bl _). }
  destruct (ascending_head ns (MakeRootName now0.1 now0.2)) as [rest ->]; [done|by apply Hns|intros y [??]%Hns; by apply Hleast|].
  assert (blobGetRoot s (MakeRootName now0.1 now0.2) = Ok (Some data)) as ->.
  { rewrite <- Hg. unfold blobGetRoot. by rewrite Hbl. }
  rewrite Hd, res_bind_ret. eexists. split; [done|]. unfold padTrees. rewrite Nat2Z.id, Hlen, Nat.sub_diag, app_nil_r.
  cbn [blobs sReadOnly numCf trees]. by split_and!.
Qed.

Lemma Open_fresh bl n ro cs now :
  binv bl → (∀ r, is_root_name r → rootsOf bl r = None) → (0 < n)%nat → Z.of_nat n < 65536 → 0 ≤ cs → 0 < nanos now < 2 ^ 63 →
  ∃ s, Open bl (Z.of_nat n) ro cs now = Ok s ∧ store_ok s ∧ sReadOnly s = ro ∧ numCf s = Z.of_nat n
    ∧ length (trees s) = n ∧ trees_repr (blobs s) (trees s) (fun _ => []) ∧ diskRoot (blobs s) (nanos now) n (fun _ => []).
Proof.
  intros Hb Hno Hn Hn2 Hcs Hnow. unfold Open. replace (Z.of_nat n =? 0) with false by lia.
  set (cs' := if cs =? 0 then _ else _). assert (0 ≤ cs') by (unfold cs'; destruct (cs =? 0); lia). set (s := mkStore _ _ _ _ _ _).
  destruct (listRoots_law bl Hb) as (ns&E&Ha&Hns). rewrite E, res_bind_ret. destruct ns as [|r ns].
  2:{ destruct (proj1 (Hns r)) as [Hr Hs]; [left|]. rewrite Hno in Hs by done. by destruct Hs. }
  rewrite Nat2Z.id. set (ts := replicate n EmptyTree).
  assert (is_root_name (MakeRootName now.1 now.2)) as Hname by (apply MakeRootName_root; unfold nanos in Hnow; lia).
  destruct (blobPutRoot_spec s (MakeRootName now.1 now.2) (SerializeRoot ts)) as (s1&E1&Hs1&Hb1&Ho1&Hu1&Hg1&Hr1); [done|done|].
  rewrite E1. cbn [negb]. eexists. split; [done|]. cbn [blobs sReadOnly numCf trees].
  assert (∀ bl, trees_repr bl ts (fun _ => [])) as Hrep.
  { intros bl' cf tr Htr. apply lookup_replicate in Htr as [-> _]. split; [split; [by split_and!|by left]|split; constructor]. }
  assert (length ts = n) as Hlts by apply length_replicate. split_and!; try done.
  - constructor; cbn [blobs cache]; [done|rewrite Hs1; by apply newPageCache_inv|]. intros u e Hu. by rewrite Hs1 in Hu.
  - exists now, (SerializeRoot ts), ts, s1. split_and!; try done; [lia|lia| |].
    + apply DeserializeRoot_Serialize; [|by rewrite Hlts]. apply Forall_forall. intros tr Htr.
      apply list_elem_of_lookup in Htr as [i Hi]. apply lookup_replicate in Hi as [-> _]. by split_and!.
    + intros r Hr Hs. destruct (decide (r = MakeRootName now.1 now.2)) as [->|Hne]; [apply ble_refl|].
      rewrite Hr1 in Hs by done. change (rootsOf bl r) with (rootsOf (blobs s) r) in Hno. exfalso. cbn in Hs. rewrite Hno in Hs by done. by destruct Hs.
Qed.
Lemma hotHas_empty n cf k : ¬ hotHas (replicate n emptyAbs) cf k.
Proof. intros (a&[-> _]%lookup_replicate&Hs). cbn in Hs. rewrite lookup_empty in Hs. by destruct Hs. Qed.

Lemma coldHas_empty n cf k : ¬ coldHas (replicate n emptyAbs) cf k.
Proof. intros (a&[-> _]%lookup_replicate&Hs). cbn in Hs. rewrite lookup_empty in Hs. by destruct Hs. Qed.

Lemma replayFiles_spec kv files ab :
  mt_refines (MT kv) ab → Forall (fun f => Forall entry_good (ParseJournalRecords f)) files →
  ∃ kv', replayFiles kv files = Ok kv' ∧ sameShell kv kv' ∧ PS kv' = PS kv
    ∧ mt_refines (MT kv') (batchAbs ab (concat (map ParseJournalRecords files))).
Proof.
  intros Hr Hf. revert kv ab Hr. induction Hf as [|f files Hg Hf IH]; intros kv ab Hr; cbn [replayFiles map concat].
  { exists kv. by split_and!. }
  assert (∃ kv1, (if nonEmpty f && nonEmpty (ParseJournalRecords f)
      then '(mt, size) ← Batch (MT kv) (ParseJournalRecords f); Ok (withMT kv mt size) else Ok kv) = Ok kv1
    ∧ sameShell kv kv1 ∧ PS kv1 = PS kv ∧ mt_refines (MT kv1) (batchAbs ab (ParseJournalRecords f))) as (kv1&E1&Hs1&HP1&Hr1).
  { destruct (nonEmpty f && nonEmpty (ParseJournalRecords f)) eqn:E.
    - destruct (Batch_spec (MT kv) ab (ParseJournalRecords f) Hr) as (mt&size&EB&Hr').
      { eapply Forall_impl; [exact Hg|]. apply entry_good_key. }
      rewrite EB, res_bind_ret. eexists. by split_and!.
    - exists kv. split_and!; try done. replace (ParseJournalRecords f) with (@nil CfKey); [done|].
      apply andb_false_iff in E as [E|E]; [by destruct f|]. by destruct (ParseJournalRecords f). }
  cbv zeta. rewrite E1, res_bind_ret. destruct (IH kv1 _ Hr1) as (kv'&E'&Hs'&HP'&Hr'). exists kv'. split_and!; [done| |congruence|].
  - by apply (sameShell_trans kv kv1 kv').
  - unfold batchAbs in *. by rewrite fold_left_app.
Qed.

Lemma replay_map m : concat (map ParseJournalRecords (map snd (listSegments m))) = replaySegments m.
Proof. unfold replaySegments. by rewrite map_map. Qed.

(** Opening the store on what a crash left. *)
Lemma New_spec cfg bl m now s n :
  config_ok cfg n → (0 < n)%nat → Forall entry_good (replaySegments m) →
  Open bl (Z.of_nat n) false (CfgPageCacheSize cfg) now = Ok s →
  ∃ kv, New cfg bl None m now = Ok kv ∧ PS kv = s ∧ kvReadOnly kv = false ∧ kvPath kv ≠ [] ∧ kvNumCf kv = n ∧ flushActive kv = false
    ∧ mt_refines (MT kv) (batchAbs (replicate n emptyAbs) (replaySegments m)).
Proof.
  intros (Hp&Hro&Hn&Hoff&_) Hpos Hg Ho. unfold New. rewrite Hn, Hro, Hoff.
  rewrite (proj2 (Nat.eqb_neq n 0)), (proj2 (Nat.eqb_neq (length (CfgPath cfg)) 0)) by (try lia; by destruct (CfgPath cfg)).
  rewrite Ho, res_bind_ret. destruct (New_refines n Hpos) as (mt&->&Hr). rewrite res_bind_ret. cbn [negb andb]. cbv zeta.
  unfold replayJournals. cbn [app]. set (kv0 := mkKV _ _ _ _ _ _ _ _ _ _ _ _ _).
  destruct (replayFiles_spec kv0 (map snd (listSegments m)) (replicate n emptyAbs) Hr) as (kv&E&(S1&S2&S3&S4&S5)&HP&Hr').
  { rewrite <- replay_map in Hg. apply Forall_forall. intros f Hf. rewrite Forall_forall in Hg. apply Forall_forall. intros e He.
    apply Hg, list_elem_of_In, in_concat. exists (ParseJournalRecords f). split; [|by apply list_elem_of_In].
    apply list_elem_of_In, list_elem_of_fmap. eauto. }
  exists kv. rewrite replay_map in Hr'. rewrite S1, S2, S3, S4. split_and!; done.
Qed.
Lemma pendOk_disk kv p ab c dc S cf k :
  pendOk kv p ab c dc S → (cf < length ab)%nat → (k ∈ c cf → k ∈ dc cf) ∧ (k ∈ dc cf → k ∈ c cf ∨ coldHas ab cf k).
Proof.
  intros Hp Hcf. destruct p as [|b|b ts root]; cbn [pendOk] in Hp.
  - destruct Hp as (_&_&Hdc). rewrite Hdc by done. auto.
  - destruct Hp as (_&Hdc&_). rewrite Hdc by done. auto.
  - destruct Hp as (_&_&_&Hdc&_). rewrite Hdc by done. auto.
Qed.

(** The state of a store that was just opened and given its log. *)
Lemma opened_inv J W kv s t n dc m :
  PS kv = s → kvReadOnly kv = false → kvPath kv ≠ [] → kvNumCf kv = n → flushActive kv = false →
  mt_refines (MT kv) (batchAbs (replicate n emptyAbs) (replaySegments m)) →
  store_ok s → sReadOnly s = false → numCf s = Z.of_nat n → length (trees s) = n → trees_repr (blobs s) (trees s) dc →
  diskRoot (blobs s) t n dc → (4 ≤ n)%nat → Z.of_nat n < 65536 → Forall entry_good W →
  (∀ cf k, (cf < n)%nat → (cf, k) ∈ W ↔ (cf, k) ∈ replaySegments m ∨ k ∈ dc cf) →
  (∀ e, e ∈ replaySegments m → e ∈ W) → (∀ e, e ∈ J → e ∈ W) →
  kinv J W (mkSys (attachWal kv m) Idle t) (batchAbs (replicate n emptyAbs) (replaySegments m)) dc dc m [] [] 0 (Attach m []).
Proof.
  intros HP Hro Hpath Hnum Hfa Hmt Hst Hro2 Hncf Htl Htr Hdisk H4 Hn Hgood Hhas Hlog HJ.
  constructor; cbn [skv spend sclock attachWal withDurable withWal kvReadOnly PS kvPath kvNumCf MT wal WalDurableUpTo];
    rewrite ?HP, ?length_batchAbs, ?length_replicate; try done.
  - intros cf k Hcf. rewrite hotHas_batch, coldHas_batch, length_replicate, Hhas by done.
    pose proof (hotHas_empty n cf k). pose proof (coldHas_empty n cf k). tauto.
  - intros [cf k] He%HJ. split; [done|]. pose proof (good_range W _ Hgood He). cbn [fst snd] in *. apply Hhas in He as [?|?]; [auto|auto|lia].
  - intros e [?|?%elem_of_nil]; [auto|done].
  - apply Attach_holds.
  - unfold Attach. destruct (openSeg _ _). by split_and!.
  - intros e ?%elem_of_nil. done.
  - exists []. split_and!; [done|done|]. intros e ?%elem_of_nil. done.
  - cbn [pendOk flushActive withDurable withWal]. rewrite length_batchAbs, length_replicate. split_and!; [done| |done].
    intros cf k Hc%coldHas_batch. by apply coldHas_empty in Hc.
Qed.

Lemma kinv_less J J' W sy ab c dc m0 S lost gone w :
  (∀ e, e ∈ J' → e ∈ J) → kinv J W sy ab c dc m0 S lost gone w → kinv J' W sy ab c dc m0 S lost gone w.
Proof. intros HJ []. constructor; auto. Qed.

Lemma kinv_same J W W' sy ab c dc m0 S lost gone w :
  (∀ e, e ∈ W' ↔ e ∈ W) → kinv J W sy ab c dc m0 S lost gone w → kinv J W' sy ab c dc m0 S lost gone w.
Proof.
  intros HW [H1 H2 H3 H4 H5 H6 H7 H8 H9 Hgood Hhas Hlog Hlgd Hw Hh Hwk Hlost Hdur Hdisk Hpend]. constructor; try done.
  - rewrite Forall_forall in Hgood |- *. intros e He%HW. by apply Hgood.
  - intros cf k Hcf. by rewrite HW, Hhas.
  - intros e He. rewrite HW. by apply Hlog.
  - intros e He. rewrite HW. by apply Hlgd.
Qed.

(** After a crash the store holds the entries that were logged or in pages, every entry
    of [J] among them, and these are all durable. *)
Lemma crash_inv J W kv p t ab c dc m0 S lost gone w cfg now :
  kinv J W (mkSys kv p t) ab c dc m0 S lost gone w → config_ok cfg (kvNumCf kv) →
  ∃ kv' W', New cfg (blobs (PS kv)) None (segs w) now = Ok kv' ∧ (∀ e, e ∈ J → e ∈ W') ∧ W' `sublist_of` W
    ∧ kinv W' W' (mkSys (attachWal kv' (segs w)) Idle t) (batchAbs (replicate (length ab) emptyAbs) (replaySegments (segs w))) dc dc (segs w) [] [] 0 (Attach (segs w) []).
Proof.
  intros [[Hro Hro2] Hpath Hnum Htl Hncf Hrg Hst Hmt Htr Hgood Hhas Hlog Hlgd Hw Hh Hwk Hlost Hdur Hdisk Hpend] Hcfg.
  cbn [skv spend sclock] in *. rewrite Hnum in Hcfg.
  assert (Forall entry_good S) as HgS by (apply Forall_forall; intros e He; rewrite Forall_forall in Hgood; apply Hgood, Hlgd; by right).
  destruct (replay_holds m0 S lost gone w (entries_good_ok S HgS) Hh (proj1 Hwk)) as (rest&Erep&ES).
  assert (∀ e, e ∈ replaySegments (segs w) → e ∈ W) as Hin.
  { intros e. rewrite Erep, elem_of_app. intros [?|?]; apply Hlgd; [by left|right]. rewrite ES, elem_of_app. by right. }
  destruct (Open_latest (blobs (PS kv)) t (length ab) dc false (CfgPageCacheSize cfg) now) as (s&Eo&Hbl&Hst'&Hro'&Hncf'&Htl'&Htr');
    [apply Hst|done|lia|apply Hcfg|].
  destruct (New_spec cfg (blobs (PS kv)) (segs w) now s (length ab)) as (kv'&E&HP&H1&H2&H3&H4&Hmt'); [done|lia| |done|].
  { apply Forall_forall. intros e He. rewrite Forall_forall in Hgood. by apply Hgood, Hin. }
  set (W' := filter (fun e => e ∈ replaySegments (segs w) ∨ e.2 ∈ dc e.1) W).
  assert (∀ e, e ∈ W' ↔ (e ∈ replaySegments (segs w) ∨ e.2 ∈ dc e.1) ∧ e ∈ W) as HW' by (intros e; unfold W'; by rewrite list_elem_of_filter).
  exists kv', W'. split; [done|]. split; [|split; [apply sublist_filter|]].
  - intros e He. destruct (Hlog e He) as [HeW Hd]. apply HW'. split; [|done]. pose proof (good_range W e Hgood HeW).
    destruct (pendOk_disk kv p ab c dc S e.1 e.2 Hpend) as [Hup _]; [lia|]. destruct Hd as [?|[?|Hs]]; [right; by apply Hup|left; rewrite Erep; apply elem_of_app; by left|].
    rewrite ES, elem_of_app in Hs. destruct Hs as [Hs|Hs]; [right; by apply Hup, Hlost|left; rewrite Erep; apply elem_of_app; by right].
  - apply (opened_inv W' W' kv' s); try done; try (by rewrite Hbl); try apply Hrg.
    + apply Forall_forall. intros e [_ He]%HW'. rewrite Forall_forall in Hgood. by apply Hgood.
    + intros cf k Hcf. rewrite HW'. destruct (pendOk_disk kv p ab c dc S cf k Hpend Hcf) as [_ Hdown]. split; [tauto|].
      intros Hd. split; [done|]. destruct Hd as [?|Hd]; [by apply Hin|]. apply Hhas; [done|]. destruct (Hdown Hd); auto.
    + intros e He. apply HW'. auto.
Qed.

Lemma replay_empty : replaySegments ∅ = [].
Proof. reflexivity. Qed.

Lemma start_inv sy : kstart sy → ∃ ab dc, kinv [] [] sy ab dc dc ∅ [] [] 0 (Attach ∅ []).
Proof.
  intros [cfg n bl now kv Hcfg H4 Hn Hb Hno Hnow E].
  destruct (Open_fresh bl n false (CfgPageCacheSize cfg) now) as (s&Eo&Hst&Hro&Hncf&Htl&Htr&Hdisk); [done|done|lia|done|apply Hcfg|done|].
  destruct (New_spec cfg bl ∅ now s n) as (kv'&E'&HP&H1&H2&H3&H5&Hmt'); [done|lia|by rewrite replay_empty; constructor|done|].
  rewrite E' in E. injection E as ->. eexists _, _. apply (opened_inv [] [] kv s); try done.
  intros cf k _. rewrite replay_empty, !elem_of_nil. tauto.
Qed.

Lemma reach_inv W sy : kreach W sy → ∃ ab c dc m0 S lost gone w, kinv W W sy ab c dc m0 S lost gone w.
Proof.
  induction 1 as [sy Hs|W sy W' sy' _ (ab&c&dc&m0&S&lost&gone&w&Hi) Hstep].
  { destruct (start_inv sy Hs) as (ab&dc&Hi). do 8 eexists. exact Hi. }
  destruct Hstep as [W kv p t es kv' Hes E|W kv p t cf k there kv' Hcf Hk E|W kv t b kv' E|W kv b t fuel now b' ts root kv' Hn Hr E
    |W kv b ts root t|W kv p t w' Hw|W kv p t w' cfg now kv' Hw Hc E].
  - destruct (write_inv _ _ _ _ _ _ _ _ _ _ _ _ _ _ _ Hi Hes E) as [w' Hi']. do 8 eexists. exact Hi'.
  - destruct (get_inv _ _ _ _ _ _ _ _ _ _ _ _ _ _ _ Hi Hcf Hk) as (th&kv1&E'&Hi'&_). rewrite E' in E. injection E as -> ->. do 8 eexists. exact Hi'.
  - destruct (capture_inv _ _ _ _ _ _ _ _ _ _ _ _ Hi) as (b'&kv1&E'&w'&Hi'). rewrite E' in E. injection E as -> ->. do 8 eexists. exact Hi'.
  - destruct (prepare_inv _ _ _ _ _ fuel now _ _ _ _ _ _ _ _ Hi Hn Hr) as (b1&ts1&root1&kv1&E'&_&dc'&Hi'). rewrite E' in E.
    injection E as -> -> -> ->. do 8 eexists. exact Hi'.
  - do 8 eexists. exact (publish_inv _ _ _ _ _ _ _ _ _ _ _ _ _ _ _ Hi).
  - pose proof (ki_wal _ _ _ _ _ _ _ _ _ _ _ Hi) as Hw'. cbn [skv] in Hw'. rewrite Hw in Hw'. injection Hw' as ->.
    destruct (cycle_inv _ _ _ _ _ _ _ _ _ _ _ _ _ Hi) as (lost'&gone'&Hi'). do 8 eexists. exact Hi'.
  - pose proof (ki_wal _ _ _ _ _ _ _ _ _ _ _ Hi) as Hw'. cbn [skv] in Hw'. rewrite Hw in Hw'. injection Hw' as ->.
    destruct (crash_inv _ _ _ _ _ _ _ _ _ _ _ _ _ cfg now Hi Hc) as (kv1&W'&E'&Hup&Hdown&Hi'). rewrite E' in E. injection E as ->. do 8 eexists.
    apply (kinv_same _ W'); [|by apply (kinv_less W' W) in Hi'; [exact Hi'|]]. intros e. split; [apply Hup|]. intros He. by eapply elem_of_sublist.
Qed.
Lemma kv_reach_write W kv p t es :
  kreach W (mkSys kv p t) → Forall entry_good es → ∃ kv', BatchWrite kv es true = Ok kv' ∧ kreach (W ++ es) (mkSys kv' p t).
Proof.
  intros Hr Hes. pose proof Hr as (ab&c&dc&m0&S&lost&gone&w&Hi)%reach_inv.
  destruct (BatchWrite_spec kv ab es m0 S lost gone w true) as (kv'&_&E&_); [apply Hi|apply Hi|apply Hi|done|apply Hi|apply Hi|apply Hi|].
  exists kv'. split; [done|]. eapply KStep; [exact Hr|by constructor].
Qed.

(** ** The theorems *)

(** C1. The store refines the set of entries written to it: in every state
    reached by journalled batches of entries a page can hold, reads, flushes in their three phases, turns of the log
    and crashes that keep only the blobs and the log's segments, reading a key
    succeeds and finds it exactly when it was written. *)
Theorem kv_store_exact W sy cf k :
  kreach W sy → (cf < kvNumCf (skv sy))%nat → bytes_ok k →
  ∃ there kv', Get (skv sy) cf k = Ok (there, kv') ∧ (there = true ↔ (cf, k) ∈ W).
Proof.
  intros (ab&c&dc&m0&S&lost&gone&w&Hi)%reach_inv Hcf Hk. destruct sy as [kv p t].
  destruct (get_inv _ _ _ _ _ _ _ _ _ _ _ _ _ _ _ Hi Hcf Hk) as (there&kv'&E&_&Ht&_). eauto.
Qed.

(** C23. No reachable state is stuck: entries can be written, a flush can be
    captured when none is under way, a captured one can be prepared as long as
    there is room and the clock has moved, and after a crash the store opens. *)
Theorem kv_progress W sy :
  kreach W sy →
  (∀ es, Forall entry_good es → ∃ kv', BatchWrite (skv sy) es true = Ok kv')
  ∧ (spend sy = Idle → ∃ b kv', CaptureFlush (skv sy) = Ok (Some b, kv'))
  ∧ (∀ b fuel now, spend sy = Captured b → sclock sy < nanos now < 2 ^ 63 → roomy W (skv sy) b →
       ∃ b' ts root kv', PrepareFlush fuel (skv sy) b now = Ok (b', ts, root, kv'))
  ∧ ∃ w, wal (skv sy) = Some w
       ∧ ∀ cfg now, config_ok cfg (kvNumCf (skv sy)) → ∃ kv', New cfg (blobs (PS (skv sy))) None (segs w) now = Ok kv'.
Proof.
  intros Hr. pose proof Hr as (ab&c&dc&m0&S&lost&gone&w&Hi)%reach_inv. destruct sy as [kv p t]. cbn [skv spend sclock]. split_and!.
  - intros es Hes. destruct (kv_reach_write _ _ _ _ es Hr Hes) as (kv'&E&_). eauto.
  - intros ->. destruct (capture_inv _ _ _ _ _ _ _ _ _ _ _ _ Hi) as (b&kv'&E&_). eauto.
  - intros b fuel now -> Hn Hro. destruct (prepare_inv _ _ _ _ _ fuel now _ _ _ _ _ _ _ _ Hi Hn Hro) as (b'&ts&root&kv'&E&_). eauto.
  - exists w. split; [apply Hi|]. intros cfg now Hc. destruct (crash_inv _ _ _ _ _ _ _ _ _ _ _ _ _ cfg now Hi Hc) as (kv'&_&E&_). eauto.
Qed.

End machine.

(** ** Samples *)

Import samples.

Module kvSamples.
Definition sampleCfg : Config :=
  {| CfgPath := bs "db"; CfgReadOnly := false; CfgNumCf := 4; CfgFlushThreshold := 0; CfgReplayOff := false; CfgPageCacheSize := 0 |}.
Definition sampleBlobs : FileBlobStore := emptyStore (sampleIds 2000).
Definition sampleWrites : list CfKey := [(0%nat, bs "entity-0001"); (2%nat, bs "value-0007")].
Definition sampleMore : list CfKey := [(0%nat, bs "entity-0002")].

(** A store just made, and one with entries. *)
Definition sampleWritten : res (KVStore FileBlobStore) :=
  kv ← New sampleCfg sampleBlobs None ∅ (1700000000, 0);
  BatchWrite (attachWal kv ∅) sampleWrites true.

(** A flush with a write in its middle. *)
Definition sampleCaptured : res (FlushBatch * KVStore FileBlobStore) :=
  kv ← sampleWritten;
  '(b, kv) ← CaptureFlush kv;
  match b with
  | None => Panic
  | Some b => kv ← BatchWrite kv sampleMore true; Ok (b, kv)
  end.
Definition sampleFlushed : res (KVStore FileBlobStore) :=
  '(b, kv) ← sampleCaptured;
  '(b', ts, root, kv) ← PrepareFlush 5 kv b (1700000001, 0);
  Ok (PublishFlush kv b' ts root).

Lemma sampleCfg_ok : config_ok sampleCfg 4.
Proof. by split_and!. Qed.

Lemma sampleEntries_good es : Forall (fun e => (e.1 ≤ 3)%nat ∧ Forall is_u8 e.2 ∧ (9 ≤ length e.2 < 1000)%nat) es → Forall entry_good es.
Proof.
  intros H. eapply Forall_impl; [exact H|]. intros e (?&?&?). split; [done|]. split; [|done]. unfold keyLen. lia.
Qed.

Lemma sampleBlobs_ok : binv sampleBlobs ∧ ∀ r, is_root_name r → rootsOf sampleBlobs r = None.
Proof. destruct (sampleIds_ok 2000) as [??]; [lia|]. split; [by apply emptyStore_inv|done]. Qed.

Lemma sample_written :
  ∃ kv, sampleWritten = Ok kv ∧ kreach sampleWrites (mkSys kv Idle (nanos (1700000000, 0))).
Proof.
  destruct sampleBlobs_ok as [Hb Hr]. unfold sampleWritten.
  assert (match New sampleCfg sampleBlobs None ∅ (1700000000, 0) with Ok _ => true | _ => false end = true) as Hc by (vm_compute; reflexivity).
  destruct (New sampleCfg sampleBlobs None ∅ (1700000000, 0)) as [kv| | |] eqn:E; [|done..]. rewrite res_bind_ret.
  assert (kreach [] (mkSys (attachWal kv ∅) Idle (nanos (1700000000, 0)))) as H0.
  { apply KInit, (KStart sampleCfg 4 sampleBlobs); done. }
  assert (Forall entry_good sampleWrites) as Hg by (apply sampleEntries_good; repeat constructor; by vm_compute).
  destruct (kv_reach_write _ _ _ _ sampleWrites H0 Hg) as (kv'&E'&H1). eauto.
Qed.

Lemma sampleMore_good : Forall entry_good sampleMore.
Proof. apply sampleEntries_good. repeat constructor; by vm_compute. Qed.

(** There is room for the flush. *)
Definition roomFor (W : list CfKey) (kv : KVStore FileBlobStore) (ts : list CfTree) : bool :=
  Nat.leb (524 * length W) (room (blobs (PS kv))) && (Z.of_nat (length W) <? 2 ^ 100) && forallb (fun t => Height t <? 128) ts.

Lemma roomFor_spec W kv ts :
  roomFor W kv ts = true →
  (524 * length W ≤ room (blobs (PS kv)))%nat ∧ Z.of_nat (length W) < 2 ^ 100 ∧ Forall (fun t => Height t < 128) ts.
Proof.
  unfold roomFor. intros [[H1%Nat.leb_le H2%Z.ltb_lt]%andb_prop H3]%andb_prop. split; [done|]. split; [done|].
  apply Forall_forall. intros t Ht. rewrite forallb_forall in H3. apply Z.ltb_lt, H3. by apply list_elem_of_In.
Qed.

Lemma sample_captured :
  ∃ b kv, sampleCaptured = Ok (b, kv) ∧ kreach (sampleWrites ++ sampleMore) (mkSys kv (Captured b) (nanos (1700000000, 0)))
    ∧ roomy (sampleWrites ++ sampleMore) kv b.
Proof.
  destruct sample_written as (kv&E0&H0). assert (∃ b kv', sampleCaptured = Ok (b, kv') ∧ roomFor (sampleWrites ++ sampleMore) kv' (BatchTrees b) = true) as (b&kv'&E&Hroom).
  { assert (match sampleCaptured with Ok (b, kv') => roomFor (sampleWrites ++ sampleMore) kv' (BatchTrees b) | _ => false end = true) as Hc by (vm_compute; reflexivity).
    destruct sampleCaptured as [[b kv']| | |]; [eauto|done..]. }
  exists b, kv'. split; [done|]. split; [|by apply roomFor_spec]. revert E. unfold sampleCaptured. rewrite E0, res_bind_ret.
  destruct (CaptureFlush kv) as [[[b0|] kv0]| | |] eqn:Ec; [|done..]. rewrite res_bind_ret. cbv beta iota.
  assert (kreach sampleWrites (mkSys kv0 (Captured b0) (nanos (1700000000, 0)))) as H1 by (eapply KStep; [exact H0|by constructor]).
  destruct (kv_reach_write _ _ _ _ sampleMore H1 sampleMore_good) as (kv1&E1&H2). rewrite E1, res_bind_ret. by intros [= <- <-].
Qed.

Lemma sample_flushed :
  ∃ kv, sampleFlushed = Ok kv ∧ kreach (sampleWrites ++ sampleMore) (mkSys kv Idle (nanos (1700000001, 0))).
Proof.
  destruct sample_captured as (b&kv&E0&H0&Hr). unfold sampleFlushed. rewrite E0, res_bind_ret. cbv beta iota.
  pose proof H0 as (ab&c&dc&m0&S&lost&gone&w&Hi)%reach_inv.
  destruct (prepare_inv _ _ _ _ _ 5 (1700000001, 0) _ _ _ _ _ _ _ _ Hi) as (b'&ts&root&kv'&E&_); [by split|done|].
  rewrite E, res_bind_ret. cbv beta iota. eexists. split; [done|]. eapply KStep; [|apply KPublish].
  eapply KStep; [exact H0|]. eapply KPrepare; [by split|exact Hr|exact E].
Qed.

(** The flushed store after a crash. *)
Lemma sample_restarted :
  ∃ kv, kvNumCf kv = 4%nat ∧ kreach (sampleWrites ++ sampleMore) (mkSys kv Idle (nanos (1700000001, 0))).
Proof.
  destruct sample_flushed as (kv&E&H). pose proof H as (ab&c&dc&m0&S&lost&gone&w&Hi)%reach_inv.
  assert (kvNumCf kv = 4%nat) as Hn.
  { assert (res_map kvNumCf sampleFlushed = Ok 4%nat) as Hc by (vm_compute; reflexivity). rewrite E in Hc. by injection Hc. }
  destruct (crash_inv _ _ _ _ _ _ _ _ _ _ _ _ _ sampleCfg (5, 5) Hi) as (kv'&W'&E'&_&_&Hi'); [rewrite Hn; apply sampleCfg_ok|].
  exists (attachWal kv' (segs w)). split.
  - pose proof (ki_num _ _ _ _ _ _ _ _ _ _ _ Hi') as Hn'. cbn [skv] in Hn'. rewrite Hn', length_batchAbs, length_replicate.
    rewrite <- (ki_num _ _ _ _ _ _ _ _ _ _ _ Hi). exact Hn.
  - eapply KStep; [exact H|]. eapply KCrash; [apply Hi|rewrite Hn; apply sampleCfg_ok|exact E'].
Qed.
End kvSamples.
Import kvSamples.

Lemma kv_store_exact_witness :
  ∃ (sy : sys) there kv', kreach (B := FileBlobStore) (sampleWrites ++ sampleMore) sy
    ∧ Get (skv sy) 0 (bs "entity-0002") = Ok (there, kv') ∧ there = true.
Proof.
  destruct sample_restarted as (kv&Hn&H). exists (mkSys kv Idle (nanos (1700000001, 0))).
  destruct (kv_store_exact _ _ 0 (bs "entity-0002") H) as (there&kv'&E&Ht); [cbn [skv]; rewrite Hn; lia|repeat constructor; by vm_compute|].
  exists there, kv'. split; [exact H|]. split; [exact E|]. apply Ht. right. right. left.
Defined.

Lemma kv_progress_witness :
  ∃ (kv : KVStore FileBlobStore) b b' ts root kv',
    kreach (sampleWrites ++ sampleMore) (mkSys kv (Captured b) (nanos (1700000000, 0)))
    ∧ PrepareFlush 5 kv b (1700000001, 0) = Ok (b', ts, root, kv').
Proof.
  destruct sample_captured as (b&kv&E&H&Hr). destruct (kv_progress _ _ H) as (_&_&Hp&_).
  destruct (Hp b 5%nat (1700000001, 0)) as (b'&ts&root&kv'&E'); [done|by split|done|]. exists kv, b, b', ts, root, kv'.
  split; [exact H|exact E'].
Defined.

