(* ===== verification/KvScan.v ===== *)
(** * Scans of the key-value store (go/internal/kvstore/kvstore.go)

    A scan merges the tree of a family with the runs of its memtable. The merge
    cursor is proved over any sources that keep the cursor laws; here the two
    kinds of sources are shown to keep them together, and the scan of a
    reachable store to return what was written. *)

From S2P Require Import Prelude Pages FlatLeaf PageCache BlobStore PageStore PageTree PageCommit.
From S2P Require Import NewestWins Memtable MinHeap Hydrated Cursors MergedCursor PageCursor Journal Wal KvStore KvSpec.

Section laws.
Context {B : Type} `{HB : BlobStore B} `{HL : !BlobLaws B} `{HZ : Zstd} `{HZL : !ZstdLaws}.

#[export] Program Instance scanSource_laws fuel : CursorLaws (scanSource B fuel) := {
  cinv s := match s with PageSource c => cinv c | MemSource c => cinv c end;
  contents s := match s with PageSource c => contents c | MemSource c => contents c end;
  remaining s := match s with PageSource c => remaining c | MemSource c => remaining c end;
}.
Next Obligation. intros fuel [c|c] Hc; exact (law_sorted c Hc). Qed.
Next Obligation. intros fuel [c|c] Hc; exact (law_remaining c Hc). Qed.
Next Obligation. intros fuel [c|c] Hc Hv; exact (law_invalid c Hc Hv). Qed.
Next Obligation.
  intros fuel [c|c] Hc Hv; pose proof (law_key c Hc Hv) as G; cbn [CurrentKey scanSource_cursor]; by destruct (CurrentKey c).
Qed.
Next Obligation.
  intros fuel [c|c] Hc; pose proof (law_pair c Hc) as G; cbn [CurrentPair scanSource_cursor]; by destruct (CurrentPair c).
Qed.
Next Obligation. intros fuel [c|c] Hc Hne; exact (law_step c Hc Hne). Qed.
Next Obligation. intros fuel [c|c] t Hc; exact (law_seek c t Hc). Qed.

Lemma latest_is_Some k (l : list bytes) : is_Some (latest recKey k l) ↔ k ∈ map recKey l.
Proof.
  pose proof (latest_None recKey k l) as Hn. destruct (latest recKey k l) as [r|] eqn:E.
  - split; [intros _|done]. apply latest_key in E as [<- Hin]. by apply list_elem_of_fmap_2.
  - split; [by intros []|]. intros Hk. by destruct (proj1 Hn eq_refl Hk).
Qed.

Lemma Tree_lookup (s : Store B) cf t : trees s !! cf = Some t → Tree s (Z.of_nat cf) = t.
Proof.
  intros E. pose proof (lookup_lt_Some _ _ _ E). unfold Tree. replace (_ || _) with false by lia. rewrite Nat2Z.id. by apply nth_lookup_Some.
Qed.

(** The runs a scan takes hold the family's keys. *)
Lemma SnapshotRuns_spec mt ab cf :
  mt_refines mt ab → (cf < length ab)%nat →
  ∃ mt' rs, SnapshotRuns mt cf = Ok (mt', rs) ∧ mt_refines mt' ab ∧ Forall (run_ok cf) rs
    ∧ ∀ k, (∃ r, r ∈ rs ∧ k ∈ map recKey (Records r)) ↔ hotHas ab cf k ∨ coldHas ab cf k.
Proof.
  intros Hr Hcf. destruct (materializeMerge_refines mt ab cf Hr Hcf) as (mt'&E&Hr'&(s&Hs&Hb)&_).
  destruct (lookup_lt_is_Some_2 ab cf Hcf) as [a Ha]. pose proof (mtr_cf _ _ Hr' cf s a Hs Ha) as [Hi Hh Hc].
  unfold SnapshotRuns. rewrite E, res_bind_ret, Hs. exists mt', (draining s ++ runs s). split_and!; [done|done| |].
  - apply Forall_app. split; apply Hi.
  - intros k. unfold hotHas, coldHas. rewrite Ha.
    assert (∀ rs, (∃ r, r ∈ rs ∧ k ∈ map recKey (Records r)) ↔ is_Some (latest recKey k (concat (map Records rs)))) as Hl.
    { intros rs. rewrite latest_is_Some, concat_map, map_map. split.
      - intros (r&Hin&Hk). apply list_elem_of_In, in_concat. exists (map recKey (Records r)).
        split; [|by apply list_elem_of_In]. apply list_elem_of_In, list_elem_of_fmap. eauto.
      - intros (l&Hin&Hk)%list_elem_of_In%in_concat. apply list_elem_of_In, list_elem_of_fmap in Hin as (r&->&Hin).
        exists r. split; [done|by apply list_elem_of_In]. }
    transitivity ((∃ r, r ∈ runs s ∧ k ∈ map recKey (Records r)) ∨ ∃ r, r ∈ draining s ∧ k ∈ map recKey (Records r)).
    { setoid_rewrite elem_of_app. naive_solver. }
    rewrite !Hl. unfold hotLog, coldLog in *. rewrite Hb, app_nil_r in Hh. split.
    + intros [Hx|Hx]; [left|right]; exists a; (split; [done|]); [rewrite Hh|rewrite Hc]; by apply fmap_is_Some.
    + intros [(a'&[= <-]&Hx)|(a'&[= <-]&Hx)]; [left; rewrite Hh in Hx|right; rewrite Hc in Hx]; by apply fmap_is_Some in Hx.
Qed.

(** The cursor of a scan, just opened: its sources hold the family's keys and
    stand before the first one. *)
Lemma OpenScanCursor_spec (kv : KVStore B) ab cf tr ks :
  mt_refines (MT kv) ab → (cf < length ab)%nat → store_ok (PS kv) → trees (PS kv) !! cf = Some tr →
  tree_repr (blobs (PS kv)) tr ks → keys_ok ks → Height tr ≤ 1 →
  ∃ mt' U, mt_refines mt' ab ∧ (∀ k, k ∈ U ↔ hotHas ab cf k ∨ coldHas ab cf k ∨ k ∈ ks)
    ∧ ∀ fuel, (2 ≤ fuel)%nat → ∃ mc, OpenScanCursor fuel kv cf = Ok (withMT kv mt' (memSize kv), mc) ∧ unsought mc
      ∧ universe (sources mc) = U ∧ rest (sources mc) = U.
Proof.
  intros Hmt Hcf Hst Htr Hrep Hok Hh. destruct (SnapshotRuns_spec (MT kv) ab cf Hmt Hcf) as (mt'&rs&E&Hmt'&Hrs&Hk).
  destruct (NewCursor_ready (PS kv) tr ks false Hst Hrep Hok Hh eq_refl) as [[Hpi _] Htk].
  exists mt', (ks ++ concat (map (fun r => map recKey (Records r)) rs)). split; [done|]. split.
  { intros k. assert ((∃ r, r ∈ rs ∧ k ∈ map recKey (Records r)) ↔ k ∈ concat (map (fun r => map recKey (Records r)) rs)) as Ec.
    { rewrite list_elem_of_In, in_concat. setoid_rewrite in_map_iff. setoid_rewrite <- list_elem_of_In. naive_solver. }
    rewrite elem_of_app, <- Ec, Hk. tauto. }
  intros fuel Hf. unfold OpenScanCursor. rewrite E, res_bind_ret. cbv beta iota zeta. rewrite (Tree_lookup _ _ _ Htr).
  set (cs := PageSource _ :: _). assert (all_inv cs) as Hall.
  { constructor; [done|]. apply Forall_map, Forall_forall. intros r Hr. rewrite Forall_forall in Hrs. destruct (Hrs r Hr) as [Ha _].
    split; [done|]. cbn. intros E0%Nat.eqb_neq. lia. }
  assert (map contents cs = ks :: map (fun r => map recKey (Records r)) rs) as Hcs.
  { unfold cs. cbn [map]. f_equal; [exact Htk|]. rewrite map_map. done. }
  assert (map remaining cs = map contents cs) as Hfresh.
  { apply map_ext_in. intros c0 Hc0%list_elem_of_In. apply elem_of_cons in Hc0 as [->|(r&->&_)%list_elem_of_fmap].
    - cbn [remaining contents scanSource_laws pageStoreCursor_laws ps]. unfold left_. cbn [NewCursor pAtEnd hasKey]. case_bool_decide as Hz; [|done].
      unfold treeKeys. cbn [rootUUID NewCursor]. by rewrite bool_decide_true.
    - cbn. by destruct (Records r). }
  destruct (seed_spec cs Hall) as (Hall'&Hheap&Hperm&Hcont&Hrest). unfold NewMergedCursor. destruct (seed cs) as [cs' h]. cbn [fst snd] in *.
  match goal with |- context [setScan ?x false cf] => set (mc := setScan x false cf) end.
  exists mc. split; [reflexivity|]. split; [by split; [constructor|split_and!]|]. cbn [mc setScan sources]. split.
  - unfold universe. by rewrite Hcont, Hcs.
  - rewrite Hrest. unfold rest. by rewrite Hfresh, Hcs.
Qed.

(** C2. A scan opened in any reachable state, sought anywhere and read to the
    end, returns the family's entries from the target on, ascending and each
    once: what is in pages, what is in a flush under way and what is in the
    memtable. This holds for a family whose tree has at most one index level and
    with two units of fuel for the descent: in a deeper tree the page cursor stops
    at the end of a leaf (page_cursor_deep_stops), and so does the scan. *)
Theorem kv_scan_exact W sy cf fuel target :
  kreach W sy → (cf < kvNumCf (skv sy))%nat → (∀ t, trees (PS (skv sy)) !! cf = Some t → Height t ≤ 1) → (2 ≤ fuel)%nat →
  ∃ kv' mc N, OpenScanCursor fuel (skv sy) cf = Ok (kv', mc)
    ∧ ∀ n, (N < n)%nat → ∃ mc' out, MergedSeek n mc None target = Ok (mc', None) ∧ iterate n mc' = Ok out
      ∧ ascending out ∧ ∀ k, k ∈ out ↔ (cf, k) ∈ W ∧ target <=b k.
Proof.
  intros (ab&c&dc&m0&S&lost&gone&w&Hi)%reach_inv Hcf Hh Hf. destruct sy as [kv p t].
  pose proof Hi as [_ _ Hnum Htl Hncf _ Hst Hmt Htr _ Hhas _ _ _ _ _ _ _ _ _]. cbn [skv spend sclock] in *. rewrite Hnum in Hcf.
  destruct (lookup_lt_is_Some_2 (trees (PS kv)) cf) as [tr Htr1]; [by rewrite Htl|]. destruct (Htr cf tr Htr1) as [Hrep Hok].
  destruct (OpenScanCursor_spec kv ab cf tr (c cf) Hmt Hcf Hst Htr1 Hrep Hok (Hh tr Htr1)) as (mt'&U&_&HU&Hopen).
  destruct (Hopen fuel Hf) as (mc&E&Hun&Huni&_).
  eexists _, mc, (Datatypes.S (length (universe (sources mc)))). split; [exact E|]. intros n Hn.
  destruct (seek_iterate n mc target) as (mc'&out&E1&_&E2&Ha&Hout); [apply Hun|apply Hun|done|].
  exists mc', out. split_and!; [exact E1|done|done|]. intros k. by rewrite Hout, <- elem_of_universe, Huni, HU, Hhas.
Qed.
End laws.

Import samples kvSamples.

Lemma kv_scan_exact_witness :
  ∃ (kv kv' : KVStore FileBlobStore) mc n mc' out,
    sampleFlushed = Ok kv ∧ OpenScanCursor 2 kv 0 = Ok (kv', mc)
    ∧ MergedSeek n mc None (bs "entity") = Ok (mc', None) ∧ iterate n mc' = Ok out
    ∧ bs "entity-0001" ∈ out ∧ bs "entity-0002" ∈ out.
Proof.
  destruct sample_flushed as (kv&E&H). exists kv.
  assert (match sampleFlushed with Ok kv => Nat.eqb (kvNumCf kv) 4 && match trees (PS kv) !! 0%nat with Some t => Height t <=? 1 | None => false end | _ => false end = true)
    as Hc by (vm_compute; reflexivity).
  rewrite E in Hc. apply andb_prop in Hc as [Hn%Nat.eqb_eq Hh].
  destruct (kv_scan_exact _ _ 0 2 (bs "entity") H) as (kv'&mc&N&E1&Hs); [cbn [skv]; rewrite Hn; lia| |lia|].
  { cbn [skv]. intros t Ht. rewrite Ht in Hh. by apply Z.leb_le. }
  destruct (Hs (S N)) as (mc'&out&E2&E3&_&Hk); [lia|]. exists kv', mc, (S N), mc', out.
  split; [exact E|]. split; [exact E1|]. split; [exact E2|]. split; [exact E3|].
  split; apply Hk; (split; [|by vm_compute]); [left|right; right; left].
Defined.
