(* ===== verification/Anchor.v ===== *)
(** * The anchor index (go/internal/anchor/anchor.go)

    A hash table from unique values to entities: open addressing with
    tombstones, records in an array with a free list, an intrusive recency
    list, keys in one byte arena, and eviction under a byte budget. It is
    proved to refine a recency list of keys and entities. *)

From S2P Require Import Prelude.

(** ** Definitions *)

Definition minSlots : Z := 1024.
Definition maxKeyLen : Z := 32000.
Definition emptySlot : Z := -1.
Definition tombSlot : Z := -2.
Definition recSize : Z := 40.

Record rec : Type := mkRec {
  off : Z;
  klen : Z;
  slotPos : Z;
  eid : Z;
  prev : Z;
  next : Z;
  live : bool;
}.

Record Index : Type := mkIndex {
  slots : list Z;
  mask : Z;
  nlive : Z;
  tombs : Z;
  recs : list rec;
  free : list Z;
  arena : bytes;
  head : Z;
  tail : Z;
  maxBytes : Z;
  curBytes : Z;
  hits : Z;
  misses : Z;
  evict : Z;
  rehashes : Z;
  rejected : Z;
}.

Definition New (maxBytes : Z) : Index :=
  mkIndex [emptySlot; emptySlot] 1 0 0 [] [] [] (-1) (-1) maxBytes 0 0 0 0 0 0.

Definition Len (idx : Index) : Z := nlive idx.

Record Stats : Type := mkStats {
  statLen : Z;
  statBytes : Z;
  statCapacity : Z;
  statTombs : Z;
  statRecs : Z;
  statArena : Z;
  statHits : Z;
  statMisses : Z;
  statEvictions : Z;
  statRehashes : Z;
  statRejected : Z;
}.
Definition statsOf (idx : Index) : Stats :=
  mkStats (nlive idx) (curBytes idx) (Z.of_nat (length (slots idx))) (tombs idx) (Z.of_nat (length (recs idx)))
    (Z.of_nat (length (arena idx))) (hits idx) (misses idx) (evict idx) (rehashes idx) (rejected idx).

(** [l[i]], which panics outside the slice. *)
Definition at_ {A} (l : list A) (i : Z) : res A :=
  if i <? 0 then Panic else match l !! Z.to_nat i with Some x => Ok x | None => Panic end.
(** [l[i] = x]. *)
Definition set_ {A} (l : list A) (i : Z) (x : A) : res (list A) :=
  if (i <? 0) || (i >=? Z.of_nat (length l)) then Panic else Ok (<[Z.to_nat i := x]> l).

(** The bytes from [o] on are overwritten, within the slice. *)
Definition storeAt (a : bytes) (o : Z) (b : bytes) : res bytes :=
  if o <? 0 then Panic else Ok (take (Z.to_nat o) a ++ b ++ drop (Z.to_nat o + length b) a).

Section updates.
Implicit Types idx : Index.

Definition withTable idx (s : list Z) (m t : Z) (rs : list rec) (a : bytes) (reh : Z) : Index :=
  mkIndex s m (nlive idx) t rs (free idx) a (head idx) (tail idx) (maxBytes idx) (curBytes idx)
    (hits idx) (misses idx) (evict idx) reh (rejected idx).
Definition withSlots idx (s : list Z) (t : Z) : Index :=
  mkIndex s (mask idx) (nlive idx) t (recs idx) (free idx) (arena idx) (head idx) (tail idx) (maxBytes idx) (curBytes idx)
    (hits idx) (misses idx) (evict idx) (rehashes idx) (rejected idx).
Definition withRecs idx (rs : list rec) : Index :=
  mkIndex (slots idx) (mask idx) (nlive idx) (tombs idx) rs (free idx) (arena idx) (head idx) (tail idx) (maxBytes idx)
    (curBytes idx) (hits idx) (misses idx) (evict idx) (rehashes idx) (rejected idx).
Definition withFree idx (f : list Z) : Index :=
  mkIndex (slots idx) (mask idx) (nlive idx) (tombs idx) (recs idx) f (arena idx) (head idx) (tail idx) (maxBytes idx)
    (curBytes idx) (hits idx) (misses idx) (evict idx) (rehashes idx) (rejected idx).
Definition withArena idx (a : bytes) : Index :=
  mkIndex (slots idx) (mask idx) (nlive idx) (tombs idx) (recs idx) (free idx) a (head idx) (tail idx) (maxBytes idx)
    (curBytes idx) (hits idx) (misses idx) (evict idx) (rehashes idx) (rejected idx).
Definition withHead idx (h : Z) : Index :=
  mkIndex (slots idx) (mask idx) (nlive idx) (tombs idx) (recs idx) (free idx) (arena idx) h (tail idx) (maxBytes idx)
    (curBytes idx) (hits idx) (misses idx) (evict idx) (rehashes idx) (rejected idx).
Definition withTail idx (t : Z) : Index :=
  mkIndex (slots idx) (mask idx) (nlive idx) (tombs idx) (recs idx) (free idx) (arena idx) (head idx) t (maxBytes idx)
    (curBytes idx) (hits idx) (misses idx) (evict idx) (rehashes idx) (rejected idx).
Definition withCount idx (n cur : Z) : Index :=
  mkIndex (slots idx) (mask idx) n (tombs idx) (recs idx) (free idx) (arena idx) (head idx) (tail idx) (maxBytes idx)
    cur (hits idx) (misses idx) (evict idx) (rehashes idx) (rejected idx).
Definition withStats idx (h m e r : Z) : Index :=
  mkIndex (slots idx) (mask idx) (nlive idx) (tombs idx) (recs idx) (free idx) (arena idx) (head idx) (tail idx) (maxBytes idx)
    (curBytes idx) h m e (rehashes idx) r.

(** *** Hashing and comparison *)

Definition fnvStep (h b : Z) : Z := u64 (Z.lxor h b * 0x100000001b3).
Definition fnvStart : Z := 0xcbf29ce484222325.

(** [byte(aid>>24)] and so on. *)
Definition aidBytes (aid : Z) : bytes := [u8 (Z.shiftr aid 24); u8 (Z.shiftr aid 16); u8 (Z.shiftr aid 8); u8 aid].

Definition fnv (aid : Z) (val : bytes) : Z :=
  fold_left fnvStep val (fold_left fnvStep (aidBytes aid) fnvStart).

Fixpoint matchAt (a : bytes) (o : Z) (val : bytes) : res bool :=
  match val with
  | [] => Ok true
  | b :: val' => x ← at_ a o; if negb (x =? b) then Ok false else matchAt a (o + 1) val'
  end.

Definition keyEq idx (r aid : Z) (val : bytes) : res bool :=
  rc ← at_ (recs idx) r;
  if negb (klen rc =? 4 + Z.of_nat (length val)) then Ok false
  else
    same ← matchAt (arena idx) (off rc) (aidBytes aid);
    if negb same then Ok false else matchAt (arena idx) (off rc + 4) val.

(** *** The recency list *)

Definition setNext (rc : rec) (n : Z) : rec := mkRec (off rc) (klen rc) (slotPos rc) (eid rc) (prev rc) n (live rc).
Definition setPrev (rc : rec) (p : Z) : rec := mkRec (off rc) (klen rc) (slotPos rc) (eid rc) p (next rc) (live rc).
Definition setEid (rc : rec) (e : Z) : rec := mkRec (off rc) (klen rc) (slotPos rc) e (prev rc) (next rc) (live rc).

Definition updRec idx (i : Z) (f : rec → rec) : res Index :=
  rc ← at_ (recs idx) i; rs ← set_ (recs idx) i (f rc); Ok (withRecs idx rs).

(** [r] is a pointer, so its fields are read again after each write. *)
Definition lruUnlink idx (i : Z) : res Index :=
  r ← at_ (recs idx) i;
  idx ← (if prev r >=? 0 then updRec idx (prev r) (fun rc => setNext rc (next r)) else Ok (withHead idx (next r)));
  r ← at_ (recs idx) i;
  idx ← (if next r >=? 0 then updRec idx (next r) (fun rc => setPrev rc (prev r)) else Ok (withTail idx (prev r)));
  updRec idx i (fun rc => setNext (setPrev rc (-1)) (-1)).

Definition lruPush idx (i : Z) : res Index :=
  idx ← updRec idx i (fun rc => setNext (setPrev rc (-1)) (head idx));
  idx ← (if head idx >=? 0 then updRec idx (head idx) (fun rc => setPrev rc i) else Ok (withTail idx i));
  Ok (withHead idx i).

Definition touch idx (i : Z) : res Index :=
  if negb (head idx =? i) then idx ← lruUnlink idx i; lruPush idx i else Ok idx.

(** *** Slots *)

Fixpoint findLoop (fuel : nat) idx (aid : Z) (val : bytes) (p tomb : Z) : res (Z * Z * Z) :=
  match fuel with
  | O => Diverge
  | S fuel' =>
      s ← at_ (slots idx) p;
      if s =? emptySlot then Ok (if tomb >=? 0 then tomb else p, -1, tomb)
      else if s =? tombSlot then
        findLoop fuel' idx aid val (Z.land (p + 1) (mask idx)) (if tomb <? 0 then p else tomb)
      else
        eq ← keyEq idx s aid val;
        if eq : bool then Ok (p, s, tomb) else findLoop fuel' idx aid val (Z.land (p + 1) (mask idx)) tomb
  end.
(** The position, the record or -1, and the first tombstone passed. *)
Definition findSlot idx (aid : Z) (val : bytes) (h : Z) : res (Z * Z * Z) :=
  findLoop (S (length (slots idx))) idx aid val (Z.land h (u64 (mask idx))) (-1).

Definition Probe idx (aid : Z) (val : bytes) : res (option Z * Index) :=
  if nlive idx =? 0 then Ok (None, withStats idx (hits idx) (misses idx + 1) (evict idx) (rejected idx))
  else
    '(_, r, _) ← findSlot idx aid val (fnv aid val);
    if r >=? 0 then
      idx ← touch idx r;
      rc ← at_ (recs idx) r;
      Ok (Some (eid rc), withStats idx (hits idx + 1) (misses idx) (evict idx) (rejected idx))
    else Ok (None, withStats idx (hits idx) (misses idx + 1) (evict idx) (rejected idx)).

(** *** Removal *)

Definition deadRec (rc : rec) : rec := mkRec (off rc) (klen rc) emptySlot (eid rc) (-1) (-1) false.

Definition killRec idx (r : Z) : res Index :=
  rc ← at_ (recs idx) r;
  ss ← set_ (slots idx) (slotPos rc) tombSlot;
  let idx := withSlots idx ss (tombs idx + 1) in
  idx ← lruUnlink idx r;
  idx ← updRec idx r deadRec;
  let idx := withFree idx (free idx ++ [r]) in
  rc ← at_ (recs idx) r;
  Ok (withCount idx (nlive idx - 1) (curBytes idx - (klen rc + 8 + recSize + 4))).

Definition Del idx (aid : Z) (val : bytes) : res Index :=
  if nlive idx =? 0 then Ok idx
  else
    '(_, r, _) ← findSlot idx aid val (fnv aid val);
    if r >=? 0 then killRec idx r else Ok idx.

(** *** Rehash *)

Fixpoint fnvAtLoop (n : nat) (a : bytes) (o h : Z) : res Z :=
  match n with
  | O => Ok h
  | S n' => b ← at_ a o; fnvAtLoop n' a (o + 1) (fnvStep h b)
  end.
Definition fnvAt (a : bytes) (o k : Z) : res Z := fnvAtLoop (Z.to_nat k) a o fnvStart.

(** The next empty slot. *)
Fixpoint emptyFrom (fuel : nat) (ss : list Z) (newCap p : Z) : res Z :=
  match fuel with
  | O => Diverge
  | S fuel' =>
      s ← at_ ss p;
      if negb (s =? emptySlot) then emptyFrom fuel' ss newCap (Z.land (p + 1) (newCap - 1)) else Ok p
  end.

(** The records from [i] on: the new records, slots and arena, which is filled
    from the left to its whole length. *)
Fixpoint rehashLoop (oldArena : bytes) (newCap : Z) (i : nat) (rs : list rec) (ss : list Z) (a : bytes)
  : res (list rec * list Z * bytes) :=
  match rs with
  | [] => Ok ([], ss, a)
  | rc :: rs' =>
      if negb (live rc) then
        '(rs', ss, a) ← rehashLoop oldArena newCap (S i) rs' ss a;
        Ok (rc :: rs', ss, a)
      else
        h ← fnvAt oldArena (off rc) (klen rc);
        p ← emptyFrom (S (Z.to_nat newCap)) ss newCap (Z.land h (u64 (newCap - 1)));
        ss ← set_ ss p (i32 (Z.of_nat i));
        key ← slice oldArena (off rc) (off rc + klen rc);
        let rc := mkRec (i32 (Z.of_nat (length a))) (klen rc) (i32 p) (eid rc) (prev rc) (next rc) (live rc) in
        '(rs', ss, a) ← rehashLoop oldArena newCap (S i) rs' ss (a ++ key);
        Ok (rc :: rs', ss, a)
  end.

Definition rehash idx (newCap : Z) : res Index :=
  '(rs, ss, a) ← rehashLoop (arena idx) newCap 0 (recs idx) (replicate (Z.to_nat newCap) emptySlot) [];
  Ok (withTable idx ss (newCap - 1) 0 rs a (rehashes idx + 1)).

Definition RehashForTest idx : res Index := rehash idx (Z.of_nat (length (slots idx))).

(** *** Insertion *)

Fixpoint evictLoop (fuel : nat) idx (incoming : Z) : res Index :=
  match fuel with
  | O => Diverge
  | S fuel' =>
      if (curBytes idx + incoming >? maxBytes idx) && (nlive idx >? 0) then
        if tail idx <? 0 then Ok idx
        else
          idx ← killRec idx (tail idx);
          evictLoop fuel' (withStats idx (hits idx) (misses idx) (evict idx + 1) (rejected idx)) incoming
      else Ok idx
  end.
Definition evictUntilFits idx (incoming : Z) : res Index := evictLoop (S (length (recs idx))) idx incoming.

(** Room for one more slot. *)
Definition makeRoom idx : res Index :=
  if (nlive idx + tombs idx + 1) * 10 >=? Z.of_nat (length (slots idx)) * 7 then
    if tombs idx >? Z.quot (nlive idx) 4 then rehash idx (Z.of_nat (length (slots idx)))
    else rehash idx (Z.max (Z.of_nat (length (slots idx)) * 2) minSlots)
  else Ok idx.

(** A record to fill: the last freed one or a new one. *)
Definition takeRec idx : Z * Index :=
  match last (free idx) with
  | Some nr => (nr, withFree idx (removelast (free idx)))
  | None => (i32 (Z.of_nat (length (recs idx))), withRecs idx (recs idx ++ [mkRec 0 0 0 0 0 0 false]))
  end.

Definition fillRec (o k p e : Z) (rc : rec) : rec := mkRec o k p e (prev rc) (next rc) true.

Definition Put idx (aid : Z) (val : bytes) (e : Z) : res Index :=
  let reject idx := withStats idx (hits idx) (misses idx) (evict idx) (rejected idx + 1) in
  if 4 + Z.of_nat (length val) >? maxKeyLen then Ok (reject idx)
  else
    let kl := 4 + Z.of_nat (length val) in
    let entryBytes := kl + 8 + recSize + 4 in
    idx ← makeRoom idx;
    '(pos, r, _) ← findSlot idx aid val (fnv aid val);
    if r >=? 0 then
      idx ← updRec idx r (fun rc => setEid rc e);
      touch idx r
    else if entryBytes >? maxBytes idx then Ok (reject idx)
    else
      let '(nr, idx) := takeRec idx in
      idx ← evictUntilFits idx entryBytes;
      let o := i32 (Z.of_nat (length (arena idx))) in
      idx ← updRec idx nr (fillRec o (i16 kl) (i32 pos) e);
      a ← storeAt (arena idx ++ replicate (Z.to_nat kl) 0) o (aidBytes aid ++ val);
      let idx := withArena idx a in
      ss ← set_ (slots idx) pos nr;
      let idx := withSlots idx ss (tombs idx) in
      let idx := withCount idx (nlive idx + 1) (curBytes idx + entryBytes) in
      lruPush idx nr.

Definition Clear idx : Index :=
  mkIndex (replicate (Z.to_nat minSlots) emptySlot) (minSlots - 1) 0 0 [] [] [] (-1) (-1) (maxBytes idx) 0
    (hits idx) (misses idx) (evict idx) (rehashes idx) (rejected idx).
End updates.

(** ** Slices *)

Lemma at_lookup {A} (l : list A) i x : l !! i = Some x → at_ l (Z.of_nat i) = Ok x.
Proof. intros E. unfold at_. replace (_ <? 0) with false by lia. by rewrite Nat2Z.id, E. Qed.

Lemma set_insert {A} (l : list A) i x : (i < length l)%nat → set_ l (Z.of_nat i) x = Ok (<[i := x]> l).
Proof. intros E. unfold set_. replace (_ || _) with false by lia. by rewrite Nat2Z.id. Qed.

Lemma alter_lookup {A} (f : A → A) (l : list A) i j : alter f i l !! j = if decide (i = j) then f <$> l !! j else l !! j.
Proof. destruct (decide (i = j)) as [->|Hne]; [apply list_lookup_alter_eq|by apply list_lookup_alter_ne]. Qed.

Lemma updRec_spec idx i f :
  is_Some (recs idx !! i) → updRec idx (Z.of_nat i) f = Ok (withRecs idx (alter f i (recs idx))).
Proof.
  intros [r E]. unfold updRec. rewrite (at_lookup _ _ _ E), res_bind_ret, set_insert by (by eapply lookup_lt_Some). rewrite res_bind_ret.
  f_equal. f_equal. apply list_eq. intros j. rewrite alter_lookup. destruct (decide (i = j)) as [<-|Hne].
  - rewrite E, list_lookup_insert_eq by (by eapply lookup_lt_Some). done.
  - by rewrite list_lookup_insert_ne.
Qed.

(** ** The recency list *)

Definition hd (l : list nat) : Z := match l with [] => -1 | i :: _ => Z.of_nat i end.
Definition lst (l : list nat) : Z := match last l with None => -1 | Some i => Z.of_nat i end.

Definition links (rs : list rec) (l : list nat) : Prop :=
  ∀ a i b, l = a ++ i :: b → ∃ r, rs !! i = Some r ∧ prev r = lst a ∧ next r = hd b.

Record dll (rs : list rec) (h t : Z) (l : list nat) : Prop := {
  dll_head : h = hd l;
  dll_tail : t = lst l;
  dll_links : links rs l;
  dll_nodup : NoDup l;
}.

(** What the recency list does not change. *)
Definition body (r r' : rec) : Prop :=
  off r' = off r ∧ klen r' = klen r ∧ slotPos r' = slotPos r ∧ eid r' = eid r ∧ live r' = live r.

Definition bodies (rs rs' : list rec) : Prop := Forall2 body rs rs'.

Definition withLinks (idx : Index) (rs : list rec) (h t : Z) : Index := withTail (withHead (withRecs idx rs) h) t.

#[export] Instance body_refl : Reflexive body.
Proof. by intros r. Qed.
#[export] Instance body_trans : Transitive body.
Proof. intros r1 r2 r3 (?&?&?&?&?) (?&?&?&?&?). split_and!; congruence. Qed.

Lemma bodies_alter rs i f : (∀ r, body r (f r)) → bodies rs (alter f i rs).
Proof.
  intros Hf. apply Forall2_same_length_lookup_2; [by rewrite length_alter|]. intros j r r' Hr. rewrite alter_lookup, Hr.
  destruct (decide (i = j)); cbn; intros [= <-]; [apply Hf|done].
Qed.

Lemma bodies_trans rs1 rs2 rs3 : bodies rs1 rs2 → bodies rs2 rs3 → bodies rs1 rs3.
Proof. unfold bodies. intros H1 H2. by transitivity rs2. Qed.

Lemma hd_app a b : a ≠ [] → hd (a ++ b) = hd a.
Proof. by destruct a. Qed.

Lemma lst_app a b : b ≠ [] → lst (a ++ b) = lst b.
Proof. intros Hb. unfold lst. rewrite last_app. destruct (last b) eqn:E; [done|]. by apply last_None in E. Qed.

Lemma lst_snoc a i : lst (a ++ [i]) = Z.of_nat i.
Proof. unfold lst. by rewrite last_snoc. Qed.

Lemma unlink_links rs rs' a x b :
  links rs (a ++ x :: b) → NoDup (a ++ x :: b) →
  (∀ i r, i ≠ x → rs !! i = Some r → ∃ r', rs' !! i = Some r'
     ∧ prev r' = (if decide (list.head b = Some i) then lst a else prev r)
     ∧ next r' = (if decide (last a = Some i) then hd b else next r)) →
  links rs' (a ++ b).
Proof.
  intros Hl Hnd Hrs' a' i b' E.
  apply app_eq_app in E as (l&[[-> E]|[-> ->]]).
  - destruct l as [|j l].
    + cbn [app] in E. rewrite app_nil_r in *. subst b. destruct (Hl (a' ++ [x]) i b') as (r&Hr&_&Hn); [by rewrite <- app_assoc|].
      destruct (Hrs' i r) as (r'&Hr'&Hp'&Hn'); [|done|].
      { intros ->. apply NoDup_app in Hnd as (_&_&Hnd). apply NoDup_cons in Hnd as [Hx _]. apply Hx. left. }
      exists r'. split; [done|]. rewrite decide_True in Hp' by done. split; [done|]. rewrite Hn', decide_False; [done|].
      intros Hla. apply last_Some_elem_of in Hla. apply NoDup_app in Hnd as (_&Hd&_). apply (Hd i Hla). right. left.
    + injection E as <- ->. rewrite <- !app_assoc in *. cbn [app] in *.
      destruct (Hl a' i (l ++ x :: b)) as (r&Hr&Hp&Hn); [done|].
      pose proof Hnd as (_&_&Hnd2)%NoDup_app. apply NoDup_cons in Hnd2 as [Hi Hnd2].
      destruct (Hrs' i r) as (r'&Hr'&Hp'&Hn'); [intros ->; apply Hi, elem_of_app; right; left|done|].
      exists r'. split; [done|]. rewrite Hp', Hn', decide_False.
      2:{ intros Hh. apply Hi, elem_of_app. right. right. destruct b; [done|]. injection Hh as ->. left. }
      split; [done|]. destruct l as [|y l].
      * by rewrite last_snoc, decide_True.
      * rewrite decide_False; [by rewrite Hn|]. rewrite last_app_cons. cbn [last]. intros Hla.
        apply Hi, elem_of_app. left. change (last (y :: l) = Some i) in Hla. by apply last_Some_elem_of in Hla.
  - destruct (Hl (a ++ x :: l) i b') as (r&Hr&Hp&Hn); [by rewrite <- app_assoc|].
    pose proof Hnd as (_&Hd&Hnd2)%NoDup_app. apply NoDup_cons in Hnd2 as [Hx Hnd2].
    destruct (Hrs' i r) as (r'&Hr'&Hp'&Hn'); [intros ->; apply Hx, elem_of_app; right; left|done|].
    exists r'. split; [done|]. rewrite Hp', Hn'. split.
    + destruct l as [|y l]; [cbn [app list.head]; by rewrite decide_True, app_nil_r|]. rewrite decide_False.
      * rewrite Hp, !lst_app by done. done.
      * cbn [app list.head]. intros [= ->]. cbn [app] in Hnd2. apply NoDup_cons in Hnd2 as [Hy _]. apply Hy, elem_of_app. right. left.
    + rewrite decide_False; [done|]. intros Hla. apply last_Some_elem_of in Hla. apply (Hd i Hla). right. apply elem_of_app. right. left.
Qed.

Ltac decides := repeat first [rewrite decide_True by congruence | rewrite decide_False by congruence].

Lemma lruUnlink_spec idx a x b :
  dll (recs idx) (head idx) (tail idx) (a ++ x :: b) →
  ∃ rs' h' t', lruUnlink idx (Z.of_nat x) = Ok (withLinks idx rs' h' t') ∧ bodies (recs idx) rs' ∧ dll rs' h' t' (a ++ b).
Proof.
  intros [Hh Ht Hl Hnd]. destruct (Hl a x b eq_refl) as (r&Hr&Hp&Hn).
  assert (∀ i, i ∈ a ++ b → is_Some (recs idx !! i) ∧ i ≠ x) as Hin.
  { intros i Hi. split.
    - assert (i ∈ a ++ x :: b) as (l1&l2&E)%list_elem_of_split; [apply elem_of_app in Hi as [?|?]; apply elem_of_app; [by left|right; by right]|].
      destruct (Hl _ _ _ E) as (r0&Hr0&_). by rewrite Hr0.
    - intros ->. apply NoDup_app in Hnd as (_&Hd&Hnd). apply NoDup_cons in Hnd as [Hx _]. apply elem_of_app in Hi as [Hi|Hi]; [|done].
      apply (Hd x Hi). left. }
  set (rs1 := match last a with Some j => alter (fun rc => setNext rc (hd b)) j (recs idx) | None => recs idx end).
  set (rs2 := match list.head b with Some j => alter (fun rc => setPrev rc (lst a)) j rs1 | None => rs1 end).
  set (rs3 := alter (fun rc => setNext (setPrev rc (-1)) (-1)) x rs2).
  set (h' := match last a with Some _ => head idx | None => hd b end).
  set (t' := match list.head b with Some _ => tail idx | None => lst a end).
  assert (∀ j, last a = Some j → j ∈ a ++ b) as Hla by (intros j Hj%last_Some_elem_of; apply elem_of_app; by left).
  assert (∀ j, list.head b = Some j → j ∈ a ++ b) as Hhb by (intros j Hj; destruct b; [done|]; injection Hj as ->; apply elem_of_app; right; left).
  assert (rs1 !! x = Some r) as Hr1.
  { unfold rs1. destruct (last a) as [j|]; [|done]. rewrite alter_lookup, decide_False; [done|]. by apply Hin, Hla. }
  assert (rs2 !! x = Some r) as Hr2.
  { unfold rs2. destruct (list.head b) as [j|]; [|done]. rewrite alter_lookup, decide_False; [done|]. by apply Hin, Hhb. }
  assert (lruUnlink idx (Z.of_nat x) = Ok (withLinks idx rs3 h' t')) as E.
  { unfold lruUnlink. rewrite (at_lookup _ _ _ Hr), res_bind_ret, Hp, Hn.
    assert ((if lst a >=? 0 then updRec idx (lst a) (fun rc => setNext rc (hd b)) else Ok (withHead idx (hd b))) = Ok (withHead (withRecs idx rs1) h')) as ->.
    { unfold lst, rs1, h'. destruct (last a) as [j|] eqn:Ej; [|by destruct idx]. replace (_ >=? 0) with true by lia.
      rewrite updRec_spec by (by apply Hin, Hla). by destruct idx. }
    rewrite res_bind_ret. cbn [withHead withRecs recs]. rewrite (at_lookup _ _ _ Hr1), res_bind_ret, Hp, Hn.
    assert ((if hd b >=? 0 then updRec (withHead (withRecs idx rs1) h') (hd b) (fun rc => setPrev rc (lst a)) else Ok (withTail (withHead (withRecs idx rs1) h') (lst a)))
            = Ok (withLinks idx rs2 h' t')) as ->.
    { unfold t', rs2. destruct b as [|j b]; cbn [hd list.head]; [done|]. replace (_ >=? 0) with true by lia. rewrite updRec_spec; [by destruct idx|].
      cbn [withHead withRecs recs]. destruct (Hin j ltac:(apply Hhb; done)) as [Hs _]. unfold rs1. destruct (last a); [|done].
      rewrite alter_lookup. destruct (decide _); [|done]. by apply fmap_is_Some. }
    rewrite res_bind_ret, updRec_spec; [by destruct idx|]. cbn [withLinks withTail withHead withRecs recs]. by rewrite Hr2. }
  exists rs3, h', t'. split; [exact E|]. split.
  - eapply bodies_trans; [|eapply bodies_trans; [|by apply bodies_alter]].
    + instantiate (1 := rs1). unfold rs1. destruct (last a); [by apply bodies_alter|]. unfold bodies. reflexivity.
    + unfold rs2. destruct (list.head b); [by apply bodies_alter|]. unfold bodies. reflexivity.
  - constructor.
    + unfold h'. rewrite Hh. destruct a as [|y a]; [done|]. by destruct (last (y :: a)) eqn:El; [|apply last_None in El].
    + unfold t'. rewrite Ht. destruct b as [|y b]; [by rewrite app_nil_r|]. cbn [list.head]. rewrite !lst_app by done. done.
    + eapply (unlink_links (recs idx)); [exact Hl|exact Hnd|]. intros i ri Hne Hri. unfold rs3. rewrite alter_lookup, decide_False by done.
      unfold rs2, rs1. destruct (list.head b) as [j|] eqn:Ejb, (last a) as [k|] eqn:Eka; rewrite ?alter_lookup, ?Hri.
      * destruct (decide (j = i)) as [->|]; destruct (decide (k = i)) as [->|]; cbn; eexists; (split; [done|]);
          decides; done.
      * destruct (decide (j = i)) as [->|]; cbn; eexists; (split; [done|]); decides; done.
      * destruct (decide (k = i)) as [->|]; cbn; eexists; (split; [done|]); decides; done.
      * eexists; (split; [done|]); by rewrite !decide_False by congruence.
    + apply NoDup_app in Hnd as (Ha&Hd&Hb). apply NoDup_cons in Hb as [_ Hb]. apply NoDup_app. split_and!; [done| |done].
      intros i Hi Hib. apply (Hd i Hi). by right.
Qed.

Lemma withLinks_links idx rs h t rs' h' t' : withLinks (withLinks idx rs h t) rs' h' t' = withLinks idx rs' h' t'.
Proof. done. Qed.

Lemma lruPush_spec idx x l :
  dll (recs idx) (head idx) (tail idx) l → x ∉ l → is_Some (recs idx !! x) →
  ∃ rs' t', lruPush idx (Z.of_nat x) = Ok (withLinks idx rs' (Z.of_nat x) t') ∧ bodies (recs idx) rs' ∧ dll rs' (Z.of_nat x) t' (x :: l).
Proof.
  intros [Hh Ht Hl Hnd] Hx [rx Hrx]. set (rs1 := alter (fun rc => setNext (setPrev rc (-1)) (hd l)) x (recs idx)).
  set (rs2 := match list.head l with Some j => alter (fun rc => setPrev rc (Z.of_nat x)) j rs1 | None => rs1 end).
  set (t' := match list.head l with Some _ => tail idx | None => Z.of_nat x end).
  assert (lruPush idx (Z.of_nat x) = Ok (withLinks idx rs2 (Z.of_nat x) t')) as E.
  { unfold lruPush. rewrite updRec_spec, res_bind_ret by done. cbn [withRecs head recs]. rewrite Hh. fold rs1.
    assert ((if hd l >=? 0 then updRec (withRecs idx rs1) (hd l) (fun rc => setPrev rc (Z.of_nat x)) else Ok (withTail (withRecs idx rs1) (Z.of_nat x)))
            = Ok (withTail (withRecs idx rs2) t')) as ->; [|by rewrite res_bind_ret].
    unfold rs2, t'. destruct l as [|j l]; cbn [hd list.head]; [done|]. replace (_ >=? 0) with true by lia. rewrite updRec_spec; [by destruct idx|].
    cbn [withRecs recs]. unfold rs1. rewrite alter_lookup. destruct (Hl [] j l eq_refl) as (rj&Hrj&_). rewrite Hrj. by destruct (decide _). }
  exists rs2, t'. split; [exact E|]. split.
  - eapply bodies_trans; [by apply (bodies_alter (recs idx) x (fun rc => setNext (setPrev rc (-1)) (hd l)))|]. fold rs1. unfold rs2. destruct (list.head l); [by apply bodies_alter|]. unfold bodies. reflexivity.
  - constructor; [done| | |by apply NoDup_cons].
    + unfold t'. rewrite Ht. destruct l as [|y l]; [done|]. done.
    + intros a i b Ea. destruct a as [|y a].
      * injection Ea as <- <-. unfold rs2, rs1. destruct (list.head l) as [j|] eqn:Ej; rewrite ?alter_lookup, ?Hrx.
        -- assert (j ≠ x) by (intros ->; apply Hx; destruct l; [done|]; injection Ej as ->; left).
           decides. cbn. eexists. by split_and!.
        -- decides. cbn. eexists. by split_and!.
      * injection Ea as <- ->. destruct (Hl a i b eq_refl) as (r&Hr&Hp&Hn).
        assert (i ≠ x) by (intros ->; apply Hx, elem_of_app; right; left). unfold rs2, rs1.
        destruct a as [|z a]; cbn [app list.head].
        -- rewrite !alter_lookup, Hr. decides. cbn. eexists. by split_and!.
        -- assert (z ≠ i).
           { intros ->. cbn [app] in Hnd. apply NoDup_cons in Hnd as [Hz _]. apply Hz, elem_of_app. right. left. }
           rewrite !alter_lookup, Hr. decides. exists r. split_and!; [done| |done]. by rewrite Hp.
Qed.

Lemma bodies_lookup rs rs' i r : bodies rs rs' → rs !! i = Some r → ∃ r', rs' !! i = Some r' ∧ body r r'.
Proof. intros Hb Hr. exact (Forall2_lookup_l _ _ _ _ _ Hb Hr). Qed.

Lemma touchLru_spec idx a x b :
  dll (recs idx) (head idx) (tail idx) (a ++ x :: b) →
  ∃ rs' h' t', touch idx (Z.of_nat x) = Ok (withLinks idx rs' h' t') ∧ bodies (recs idx) rs' ∧ dll rs' h' t' (x :: a ++ b).
Proof.
  intros Hd. unfold touch. destruct (Z.eqb_spec (head idx) (Z.of_nat x)) as [E|E]; cbn [negb].
  - exists (recs idx), (head idx), (tail idx). split; [by destruct idx|]. split; [unfold bodies; reflexivity|].
    rewrite (dll_head _ _ _ _ Hd) in E. destruct a as [|y a]; [done|]. cbn [app hd] in E. apply Nat2Z.inj in E as ->.
    pose proof (dll_nodup _ _ _ _ Hd) as Hn. cbn [app] in Hn. apply NoDup_cons in Hn as [Hn _]. exfalso. apply Hn, elem_of_app. right. left.
  - destruct (lruUnlink_spec idx a x b Hd) as (rs1&h1&t1&->&Hb1&Hd1). rewrite res_bind_ret.
    destruct (dll_links _ _ _ _ Hd a x b eq_refl) as (r&Hr&_). destruct (bodies_lookup _ _ _ _ Hb1 Hr) as (r'&Hr'&_).
    destruct (lruPush_spec (withLinks idx rs1 h1 t1) x (a ++ b)) as (rs2&t2&E2&Hb2&Hd2); [done| |cbn; by rewrite Hr'|].
    + pose proof (dll_nodup _ _ _ _ Hd) as Hn. apply NoDup_app in Hn as (_&Hdj&Hn). apply NoDup_cons in Hn as [Hn _].
      intros [Hi|Hi]%elem_of_app; [apply (Hdj x Hi); left|done].
    + exists rs2, (Z.of_nat x), t2. split; [exact E2|]. split; [by eapply bodies_trans|done].
Qed.

(** ** The table *)

Definition keyAt (a : bytes) (r : rec) : bytes := take (Z.to_nat (klen r)) (drop (Z.to_nat (off r)) a).
Definition fnvKey (k : bytes) : Z := fold_left fnvStep k fnvStart.

(** The slots a key is looked for in, one after the other. *)
Definition pos (cap : nat) (k : bytes) (j : nat) : nat := Z.to_nat ((fnvKey k + Z.of_nat j) mod Z.of_nat cap).

Lemma fnv_key aid val : fnv aid val = fnvKey (aidBytes aid ++ val).
Proof. unfold fnv, fnvKey. by rewrite fold_left_app. Qed.

Lemma fnvKey_nonneg k : 0 ≤ fnvKey k < 2 ^ 64.
Proof.
  unfold fnvKey. assert (0 ≤ fnvStart < 2 ^ 64) as H by done. revert H. generalize fnvStart.
  induction k as [|b k IH]; intros h Hh; cbn [fold_left]; [done|]. apply IH. unfold fnvStep, u64. apply Z.mod_pos_bound. lia.
Qed.

Lemma pos_lt cap k j : (0 < cap)%nat → (pos cap k j < cap)%nat.
Proof. intros Hc. unfold pos. pose proof (Z.mod_pos_bound (fnvKey k + Z.of_nat j) (Z.of_nat cap)). lia. Qed.

Lemma pos_any cap k p : (p < cap)%nat → ∃ d, (d < cap)%nat ∧ pos cap k d = p.
Proof.
  intros Hp. exists (Z.to_nat ((Z.of_nat p - fnvKey k) mod Z.of_nat cap)).
  pose proof (Z.mod_pos_bound (Z.of_nat p - fnvKey k) (Z.of_nat cap)). split; [lia|]. unfold pos.
  rewrite Z2Nat.id by lia. rewrite Zplus_mod_idemp_r. replace (fnvKey k + (Z.of_nat p - fnvKey k)) with (Z.of_nat p) by lia.
  rewrite Z.mod_small by lia. apply Nat2Z.id.
Qed.

Lemma land_cap cap e x : cap = (2 ^ e)%nat → Z.land x (Z.of_nat cap - 1) = x mod Z.of_nat cap.
Proof.
  intros ->. rewrite Nat2Z.inj_pow. rewrite <- Z.land_ones by lia. f_equal. rewrite Z.ones_equiv. cbn. lia.
Qed.

Lemma pos_start cap e k :
  cap = (2 ^ e)%nat → Z.of_nat cap < 2 ^ 63 → Z.land (fnvKey k) (u64 (Z.of_nat cap - 1)) = Z.of_nat (pos cap k 0).
Proof.
  intros He Hc. assert (0 < cap)%nat by (rewrite He; apply Nat.neq_0_lt_0, Nat.pow_nonzero; lia).
  unfold u64. rewrite Z.mod_small, (land_cap cap e) by (done || lia). unfold pos.
  rewrite Z.add_0_r, Z2Nat.id; [done|]. apply Z.mod_pos_bound. lia.
Qed.

Lemma pos_next cap e k j : cap = (2 ^ e)%nat → Z.land (Z.of_nat (pos cap k j) + 1) (Z.of_nat cap - 1) = Z.of_nat (pos cap k (S j)).
Proof.
  intros He. assert (0 < cap)%nat by (rewrite He; apply Nat.neq_0_lt_0, Nat.pow_nonzero; lia).
  rewrite (land_cap cap e) by done. unfold pos. pose proof (Z.mod_pos_bound (fnvKey k + Z.of_nat j) (Z.of_nat cap)).
  pose proof (Z.mod_pos_bound (fnvKey k + Z.of_nat (S j)) (Z.of_nat cap)). rewrite !Z2Nat.id by lia.
  rewrite Zplus_mod_idemp_l. f_equal. lia.
Qed.

(** [ss] is a table of the records [S], whose keys are [K]. *)
Record tbl (ss : list Z) (rs : list rec) (ar : bytes) (S : list nat) (K : nat → bytes) : Prop := {
  t_cap : ∃ e, length ss = (2 ^ e)%nat;
  t_slot : ∀ p s, ss !! p = Some s →
    s = emptySlot ∨ s = tombSlot ∨ ∃ i r, s = Z.of_nat i ∧ i ∈ S ∧ rs !! i = Some r ∧ slotPos r = Z.of_nat p;
  t_rec : ∀ i, i ∈ S → ∃ r d, rs !! i = Some r ∧ (d < length ss)%nat
    ∧ slotPos r = Z.of_nat (pos (length ss) (K i) d) ∧ ss !! pos (length ss) (K i) d = Some (Z.of_nat i)
    ∧ (∀ j, (j < d)%nat → ss !! pos (length ss) (K i) j ≠ Some emptySlot);
  t_key : ∀ i, i ∈ S → ∃ r, rs !! i = Some r ∧ 0 ≤ off r ∧ klen r = Z.of_nat (length (K i)) ∧ 4 ≤ klen r ≤ maxKeyLen
    ∧ off r + klen r ≤ Z.of_nat (length ar) ∧ keyAt ar r = K i;
  t_keys : ∀ i j, i ∈ S → j ∈ S → K i = K j → i = j;
}.

Lemma tbl_pos ss rs ar S K : tbl ss rs ar S K → (0 < length ss)%nat.
Proof. intros Ht. destruct (t_cap _ _ _ _ _ Ht) as [e ->]. apply Nat.neq_0_lt_0, Nat.pow_nonzero. lia. Qed.

Lemma matchAt_spec a o val :
  (o + length val ≤ length a)%nat → matchAt a (Z.of_nat o) val = Ok (bool_decide (take (length val) (drop o a) = val)).
Proof.
  revert o. induction val as [|b val IH]; intros o Ho; cbn [matchAt length] in *; [by rewrite bool_decide_true|].
  destruct (lookup_lt_is_Some_2 a o) as [x Hx]; [lia|]. rewrite (at_lookup _ _ _ Hx), res_bind_ret.
  rewrite (drop_S _ _ _ Hx). cbn [take]. destruct (Z.eqb_spec x b) as [->|Hne]; cbn [negb].
  - replace (Z.of_nat o + 1) with (Z.of_nat (Datatypes.S o)) by lia. rewrite IH by lia. f_equal. apply bool_decide_ext. split; congruence.
  - rewrite bool_decide_false by congruence. done.
Qed.

Lemma length_aidBytes aid : length (aidBytes aid) = 4%nat.
Proof. done. Qed.

Lemma keyEq_spec idx S K i aid val :
  tbl (slots idx) (recs idx) (arena idx) S K → i ∈ S →
  keyEq idx (Z.of_nat i) aid val = Ok (bool_decide (K i = aidBytes aid ++ val)).
Proof.
  intros Ht Hi. destruct (t_key _ _ _ _ _ Ht i Hi) as (r&Hr&Ho&Hk&Hk4&Hend&HK).
  unfold keyEq. rewrite (at_lookup _ _ _ Hr), res_bind_ret, Hk. destruct (Z.eqb_spec (Z.of_nat (length (K i))) (4 + Z.of_nat (length val))) as [El|El]; cbn [negb].
  2:{ rewrite bool_decide_false; [done|]. intros E. rewrite E, length_app, length_aidBytes in El. lia. }
  assert (off r = Z.of_nat (Z.to_nat (off r))) as Eo by lia. rewrite Eo. rewrite matchAt_spec, res_bind_ret by (rewrite length_aidBytes; lia).
  replace (Z.of_nat (Z.to_nat (off r)) + 4) with (Z.of_nat (Z.to_nat (off r) + 4)) by lia. rewrite matchAt_spec by lia.
  unfold keyAt in HK. rewrite Hk, Nat2Z.id in HK. rewrite length_aidBytes.
  assert (K i = take 4 (drop (Z.to_nat (off r)) (arena idx)) ++ take (length val) (drop (Z.to_nat (off r) + 4) (arena idx))) as ->.
  { rewrite <- HK at 1. replace (length (K i)) with (4 + length val)%nat by lia. rewrite <- (take_take_drop _ 4), drop_drop. done. }
  assert (length (take 4 (drop (Z.to_nat (off r)) (arena idx))) = 4%nat) as El4 by (rewrite length_take, length_drop; lia).
  destruct (bool_decide_reflect (take 4 (drop (Z.to_nat (off r)) (arena idx)) = aidBytes aid)) as [->|Hne]; cbn [negb].
  - f_equal. apply bool_decide_ext. split; [by intros ->|]. by intros ?%(inj (app (aidBytes aid))).
  - rewrite bool_decide_false; [done|]. intros E. apply app_inj_1 in E as [E _]; [done|]. by rewrite El4.
Qed.

(** A slot where [k] could go. *)
Definition open_at (ss : list Z) (k : bytes) (d : nat) : Prop :=
  (d < length ss)%nat
  ∧ (ss !! pos (length ss) k d = Some emptySlot ∨ ss !! pos (length ss) k d = Some tombSlot)
  ∧ ∀ j, (j < d)%nat → ss !! pos (length ss) k j ≠ Some emptySlot.

Definition found (idx : Index) (S : list nat) (K : nat → bytes) (k : bytes) (res_ : res (Z * Z * Z)) : Prop :=
  (∃ i p t, i ∈ S ∧ K i = k ∧ res_ = Ok (p, Z.of_nat i, t))
  ∨ ((∀ i, i ∈ S → K i ≠ k) ∧ ∃ d t, open_at (slots idx) k d ∧ res_ = Ok (Z.of_nat (pos (length (slots idx)) k d), -1, t)).

Lemma findLoop_spec idx S K aid val e fuel d tomb :
  let k := aidBytes aid ++ val in let ss := slots idx in
  tbl ss (recs idx) (arena idx) S K → mask idx = Z.of_nat (length ss) - 1 →
  (e < length ss)%nat → ss !! pos (length ss) k e = Some emptySlot → (length ss < fuel + d)%nat →
  (∀ j, (j < d)%nat → ss !! pos (length ss) k j ≠ Some emptySlot ∧ ∀ i, i ∈ S → ss !! pos (length ss) k j = Some (Z.of_nat i) → K i ≠ k) →
  (tomb = -1 ∨ ∃ d0, (d0 < d)%nat ∧ tomb = Z.of_nat (pos (length ss) k d0) ∧ ss !! pos (length ss) k d0 = Some tombSlot) →
  found idx S K k (findLoop fuel idx aid val (Z.of_nat (pos (length ss) k d)) tomb).
Proof.
  intros k ss Ht Hm He Hee. destruct (t_cap _ _ _ _ _ Ht) as [ex Hcap]. revert d tomb. induction fuel as [|fuel IH]; intros d tomb Hf Hpath Htomb.
  { exfalso. apply (proj1 (Hpath e ltac:(lia))). done. }
  assert (d ≤ e)%nat as Hde by (apply Nat.nlt_ge; intros Hlt; by apply (proj1 (Hpath e Hlt))).
  destruct (lookup_lt_is_Some_2 ss (pos (length ss) k d)) as [s Hs]; [apply pos_lt; lia|].
  cbn [findLoop]. fold ss. rewrite (at_lookup _ _ _ Hs), res_bind_ret.
  assert (∀ tomb', s ≠ emptySlot → (∀ i, i ∈ S → s = Z.of_nat i → K i ≠ k) →
     (tomb' = -1 ∨ ∃ d0, (d0 < Datatypes.S d)%nat ∧ tomb' = Z.of_nat (pos (length ss) k d0) ∧ ss !! pos (length ss) k d0 = Some tombSlot) →
     found idx S K k (findLoop fuel idx aid val (Z.land (Z.of_nat (pos (length ss) k d) + 1) (mask idx)) tomb')) as Hgo.
  { intros tomb' Hne Hno Ht'. rewrite Hm, (pos_next _ ex) by done. apply IH; [lia| |done]. intros j Hj.
    destruct (decide (j = d)) as [->|]; [|apply Hpath; lia]. rewrite Hs. split; [congruence|]. intros i Hi [= ->]. by apply Hno. }
  destruct (Z.eqb_spec s emptySlot) as [->|Hne].
  - right. split.
    + intros i Hi HK. destruct (t_rec _ _ _ _ _ Ht i Hi) as (r&di&_&_&_&Hsi&Hpi). rewrite HK in Hsi, Hpi. fold ss in Hsi, Hpi.
      destruct (Nat.lt_trichotomy di d) as [Hlt|[->|Hlt]].
      * by apply (proj2 (Hpath di Hlt) i Hi).
      * rewrite Hs in Hsi. injection Hsi. unfold emptySlot. lia.
      * by apply (Hpi d Hlt).
    + destruct Htomb as [->|(d0&Hd0&->&Hs0)].
      * exists d, (-1). split; [|done]. unfold open_at. fold ss. split; [lia|]. split; [by left|]. intros j Hj. by apply Hpath.
      * exists d0, (Z.of_nat (pos (length ss) k d0)). replace (_ >=? 0) with true by lia. split; [|done]. unfold open_at. fold ss. split; [lia|].
        split; [by right|]. intros j Hj. apply Hpath. lia.
  - destruct (Z.eqb_spec s tombSlot) as [->|Hnt].
    + apply Hgo; [done|intros i _ E; unfold tombSlot in E; lia|]. destruct Htomb as [->|(d0&Hd0&->&Hs0)].
      * right. exists d. split_and!; [lia|done|done].
      * replace (_ <? 0) with false by lia. right. exists d0. split_and!; [lia|done|done].
    + destruct (t_slot _ _ _ _ _ Ht _ _ Hs) as [?|[?|(i&r&->&Hi&Hr&Hsp)]]; [done|done|].
      rewrite (keyEq_spec idx S K i) by done. rewrite res_bind_ret. fold k. destruct (bool_decide_reflect (K i = k)) as [HK|HK].
      * left. by exists i, (Z.of_nat (pos (length ss) k d)), tomb.
      * apply Hgo; [done|by intros i' _ ->%Nat2Z.inj|]. destruct Htomb as [->|(d0&?&?&?)]; [by left|right; exists d0; split_and!; [lia|done|done]].
Qed.

(** *** How many slots are taken *)

Definition taken (ss : list Z) : nat := length (filter (fun s => s ≠ emptySlot) ss).

Lemma taken_app a b : taken (a ++ b) = (taken a + taken b)%nat.
Proof. unfold taken. by rewrite filter_app, length_app. Qed.

Lemma taken_insert ss p s :
  (p < length ss)%nat → (taken (<[p := s]> ss) ≤ S (taken ss))%nat ∧ (ss !! p ≠ Some emptySlot → (taken (<[p := s]> ss) ≤ taken ss)%nat).
Proof.
  intros Hp. destruct (lookup_lt_is_Some_2 ss p Hp) as [x Hx]. rewrite Hx. rewrite insert_take_drop by done.
  assert (taken ss = taken (take p ss) + taken (x :: drop (S p) ss))%nat as Ess by (by rewrite <- taken_app, take_drop_middle).
  rewrite taken_app, Ess. assert (taken (s :: drop (S p) ss) ≤ S (taken (drop (S p) ss)))%nat as H1.
  { unfold taken. rewrite filter_cons. destruct (decide _); cbn; lia. }
  assert (taken (drop (S p) ss) ≤ taken (x :: drop (S p) ss))%nat as H2.
  { unfold taken. rewrite filter_cons. destruct (decide _); cbn; lia. }
  split; [lia|]. intros Hne. assert (taken (x :: drop (S p) ss) = S (taken (drop (S p) ss))) as H3.
  { unfold taken. rewrite filter_cons, decide_True by congruence. done. }
  lia.
Qed.

Lemma some_empty ss : (taken ss < length ss)%nat → ∃ p, ss !! p = Some emptySlot.
Proof.
  unfold taken. induction ss as [|s ss IH]; cbn [length]; [lia|]. rewrite filter_cons. destruct (decide (s ≠ emptySlot)) as [Hne|He].
  - cbn [length]. intros H. destruct IH as [p Hp]; [lia|]. by exists (S p).
  - intros _. exists 0%nat. cbn. f_equal. by apply dec_stable in He.
Qed.

Lemma findSlot_spec idx S K aid val :
  let k := aidBytes aid ++ val in
  tbl (slots idx) (recs idx) (arena idx) S K → mask idx = Z.of_nat (length (slots idx)) - 1 →
  (taken (slots idx) < length (slots idx))%nat → Z.of_nat (length (slots idx)) < 2 ^ 63 →
  found idx S K k (findSlot idx aid val (fnv aid val)).
Proof.
  intros k Ht Hm Htk Hc. destruct (some_empty _ Htk) as [p Hp]. destruct (pos_any (length (slots idx)) k p) as (e&He&Epos); [by eapply lookup_lt_Some|].
  destruct (t_cap _ _ _ _ _ Ht) as [ex Hcap]. unfold findSlot. rewrite fnv_key, Hm, (pos_start _ ex) by done. fold k.
  apply (findLoop_spec idx S K aid val e); try done; [fold k; by rewrite Epos|lia|intros j Hj; lia|by left].
Qed.

(** *** Changes of the table *)

(** What the table says about a record. *)
Definition placed (r r' : rec) : Prop := off r' = off r ∧ klen r' = klen r ∧ slotPos r' = slotPos r.

Lemma body_placed r r' : body r r' → placed r r'.
Proof. by intros (?&?&?&_). Qed.

Definition agree (S : list nat) (rs rs' : list rec) : Prop :=
  ∀ i r, i ∈ S → rs !! i = Some r → ∃ r', rs' !! i = Some r' ∧ placed r r'.

Lemma tbl_agree ss rs rs' ar S S' K : tbl ss rs ar S K → (∀ i, i ∈ S' ↔ i ∈ S) → agree S rs rs' → tbl ss rs' ar S' K.
Proof.
  intros [H1 H2 H3 H4 H5] HS Ha. constructor; [done|..].
  - intros p s Hs. destruct (H2 p s Hs) as [?|[?|(i&r&->&Hi&Hr&Hsp)]]; [by left|by right; left|]. right. right.
    destruct (Ha i r Hi Hr) as (r'&Hr'&_&_&Hsp'). exists i, r'. split_and!; [done|by apply HS|done|congruence].
  - intros i Hi%HS. destruct (H3 i Hi) as (r&d&Hr&Hd&Hsp&Hss&Hp). destruct (Ha i r Hi Hr) as (r'&Hr'&_&_&Hsp').
    exists r', d. split_and!; try done. congruence.
  - intros i Hi%HS. destruct (H4 i Hi) as (r&Hr&Ho&Hk&[Hk1 Hk2]&Hend&HK). destruct (Ha i r Hi Hr) as (r'&Hr'&Eo&Ek&_).
    exists r'. unfold keyAt in *. rewrite Eo, Ek. by split_and!.
  - intros i j Hi%HS Hj%HS. by apply H5.
Qed.

Lemma tbl_kill ss rs ar S S' K i r :
  tbl ss rs ar S K → i ∈ S → rs !! i = Some r → (∀ j, j ∈ S' ↔ j ∈ S ∧ j ≠ i) →
  ∃ p, slotPos r = Z.of_nat p ∧ (p < length ss)%nat ∧ ss !! p ≠ Some emptySlot ∧ tbl (<[p := tombSlot]> ss) rs ar S' K.
Proof.
  intros [H1 H2 H3 H4 H5] Hi Hr HS. destruct (H3 i Hi) as (r0&d&Hr0&Hd&Hsp&Hss&_). rewrite Hr in Hr0. injection Hr0 as <-.
  set (p := pos (length ss) (K i) d) in *. assert (p < length ss)%nat as Hp by (by eapply lookup_lt_Some).
  exists p. split; [done|]. split; [done|]. split; [rewrite Hss; intros [=]; unfold emptySlot in *; lia|].
  constructor; rewrite ?length_insert; [done|..].
  - intros q s. destruct (decide (q = p)) as [->|Hne]; [rewrite list_lookup_insert_eq by done; intros [= <-]; by right; left|].
    rewrite list_lookup_insert_ne by done. intros Hs. destruct (H2 q s Hs) as [?|[?|(j&rj&->&Hj&Hrj&Hsj)]]; [by left|by right; left|].
    right. right. exists j, rj. split_and!; [done| |done|done]. apply HS. split; [done|]. intros ->. rewrite Hr in Hrj. injection Hrj as <-. lia.
  - intros j [Hj Hji]%HS. destruct (H3 j Hj) as (rj&dj&Hrj&Hdj&Hspj&Hssj&Hpj). exists rj, dj. split_and!; [done|done|done| |].
    + rewrite list_lookup_insert_ne; [done|]. intros E. rewrite <- E, Hss in Hssj. injection Hssj. lia.
    + intros q Hq. destruct (decide (pos (length ss) (K j) q = p)) as [->|]; [by rewrite list_lookup_insert_eq|].
      rewrite list_lookup_insert_ne by done. by apply Hpj.
  - intros j [Hj _]%HS. by apply H4.
  - intros j1 j2 [? _]%HS [? _]%HS. by apply H5.
Qed.

Lemma tbl_insert ss rs rs' ar S K nr k d r' :
  tbl ss rs ar S K → open_at ss k d → nr ∉ S → (∀ i, i ∈ S → K i ≠ k) → agree S rs rs' →
  rs' !! nr = Some r' → off r' = Z.of_nat (length ar) → klen r' = Z.of_nat (length k) → 4 ≤ klen r' ≤ maxKeyLen →
  slotPos r' = Z.of_nat (pos (length ss) k d) →
  tbl (<[pos (length ss) k d := Z.of_nat nr]> ss) rs' (ar ++ k) (nr :: S) (fun i => if decide (i = nr) then k else K i).
Proof.
  intros [H1 H2 H3 H4 H5] (Hd&Hop&Hpath) Hnr Hk Ha Hr' Eo Ek Hk4 Hsp'. set (p := pos (length ss) k d) in *.
  assert (p < length ss)%nat as Hp by (apply pos_lt; lia).
  assert (∀ i, i ∈ S → i ≠ nr) as Hin by (intros i Hi ->; done).
  assert (∀ q, ss !! q ≠ Some emptySlot → <[p:=Z.of_nat nr]> ss !! q ≠ Some emptySlot) as Hkeep.
  { intros q Hq. destruct (decide (q = p)) as [->|]; [|by rewrite list_lookup_insert_ne]. rewrite list_lookup_insert_eq by done. unfold emptySlot. intros [=]. lia. }
  constructor; rewrite ?length_insert; [done|..].
  - intros q s. destruct (decide (q = p)) as [->|Hne].
    + rewrite list_lookup_insert_eq by done. intros [= <-]. right. right. exists nr, r'. split_and!; [done|left|done|done].
    + rewrite list_lookup_insert_ne by done. intros Hs. destruct (H2 q s Hs) as [?|[?|(i&r&->&Hi&Hr&Hsi)]]; [by left|by right; left|].
      right. right. destruct (Ha i r Hi Hr) as (r1&Hr1&_&_&Hs1). exists i, r1. split_and!; [done|by right|done|congruence].
  - intros i [->|Hi]%elem_of_cons.
    + rewrite decide_True by done. exists r', d. fold p. split_and!; [done|done|done|by apply list_lookup_insert_eq|]. intros j Hj. apply Hkeep. by apply Hpath.
    + rewrite decide_False by (by apply Hin). destruct (H3 i Hi) as (r&di&Hr&Hdi&Hspi&Hssi&Hpi). destruct (Ha i r Hi Hr) as (r1&Hr1&_&_&Hs1).
      exists r1, di. split_and!; [done|done|congruence| |].
      * rewrite list_lookup_insert_ne; [done|]. intros E. rewrite <- E in Hssi. unfold emptySlot, tombSlot in *.
        destruct Hop as [Hop|Hop]; rewrite Hop in Hssi; injection Hssi; lia.
      * intros j Hj. by apply Hkeep, Hpi.
  - intros i [->|Hi]%elem_of_cons.
    + rewrite decide_True by done. exists r'. split_and!; [done|lia|done|lia|lia|rewrite length_app; lia|].
      unfold keyAt. rewrite Eo, Ek, !Nat2Z.id, drop_app_length. by rewrite take_ge.
    + rewrite decide_False by (by apply Hin). destruct (H4 i Hi) as (r&Hr&Ho&Hkl&Hk4i&Hend&HK). destruct (Ha i r Hi Hr) as (r1&Hr1&Eo1&Ek1&_).
      exists r1. unfold keyAt in *. rewrite Eo1, Ek1. split_and!; [done|done|done|lia|lia|rewrite length_app; lia|].
      rewrite drop_app_le by lia. rewrite take_app_le; [done|]. rewrite length_drop. lia.
  - intros i j [->|Hi]%elem_of_cons [->|Hj]%elem_of_cons; [done|..].
    + rewrite decide_True, decide_False by (done || by apply Hin). intros E. by destruct (Hk j Hj).
    + rewrite decide_False, decide_True by (done || by apply Hin). intros E. by destruct (Hk i Hi).
    + rewrite !decide_False by (by apply Hin). by apply H5.
Qed.

(** *** Rehash *)

Lemma tbl_ext ss rs ar S K K' : tbl ss rs ar S K → (∀ i, i ∈ S → K' i = K i) → tbl ss rs ar S K'.
Proof.
  intros [H1 H2 H3 H4 H5] HK. constructor; [done|done|..].
  - intros i Hi. rewrite HK by done. by apply H3.
  - intros i Hi. rewrite HK by done. by apply H4.
  - intros i j Hi Hj. rewrite !HK by done. by apply H5.
Qed.

Lemma emptyFrom_spec ss k ex e fuel d :
  length ss = (2 ^ ex)%nat → (e < length ss)%nat → ss !! pos (length ss) k e = Some emptySlot → (length ss < fuel + d)%nat →
  (∀ j, (j < d)%nat → ss !! pos (length ss) k j ≠ Some emptySlot) →
  ∃ d', open_at ss k d' ∧ emptyFrom fuel ss (Z.of_nat (length ss)) (Z.of_nat (pos (length ss) k d)) = Ok (Z.of_nat (pos (length ss) k d')).
Proof.
  intros Hcap He Hee. revert d. induction fuel as [|fuel IH]; intros d Hf Hpath.
  { exfalso. by apply (Hpath e ltac:(lia)). }
  assert (d ≤ e)%nat as Hde by (apply Nat.nlt_ge; intros Hlt; by apply (Hpath e Hlt)).
  destruct (lookup_lt_is_Some_2 ss (pos (length ss) k d)) as [s Hs]; [apply pos_lt; lia|].
  cbn [emptyFrom]. rewrite (at_lookup _ _ _ Hs), res_bind_ret. destruct (Z.eqb_spec s emptySlot) as [->|Hne]; cbn [negb].
  - exists d. split; [|done]. split_and!; [lia|by left|done].
  - rewrite (pos_next _ ex) by done. apply IH; [lia|]. intros j Hj. destruct (decide (j = d)) as [->|]; [congruence|]. apply Hpath. lia.
Qed.

Lemma fnvAtLoop_spec n a o h :
  (o + n ≤ length a)%nat → fnvAtLoop n a (Z.of_nat o) h = Ok (fold_left fnvStep (take n (drop o a)) h).
Proof.
  revert o h. induction n as [|n IH]; intros o h Ho; cbn [fnvAtLoop]; [by rewrite take_0|].
  destruct (lookup_lt_is_Some_2 a o) as [x Hx]; [lia|]. rewrite (at_lookup _ _ _ Hx), res_bind_ret, (drop_S _ _ _ Hx). cbn [take fold_left].
  replace (Z.of_nat o + 1) with (Z.of_nat (S o)) by lia. apply IH. lia.
Qed.

Lemma i32_small z : 0 ≤ z < 2 ^ 31 → i32 z = z.
Proof. intros H. unfold i32. rewrite Z.mod_small; lia. Qed.

(** A live record whose key is [k]. *)
Definition holdsKey (ar : bytes) (r : rec) (k : bytes) : Prop :=
  0 ≤ off r ∧ klen r = Z.of_nat (length k) ∧ 4 ≤ klen r ≤ maxKeyLen ∧ off r + klen r ≤ Z.of_nat (length ar) ∧ keyAt ar r = k.

Fixpoint lives (n : nat) (rs : list rec) : list nat :=
  match rs with [] => [] | r :: rs' => (if live r then [n] else []) ++ lives (S n) rs' end.

Definition klens (rs : list rec) : Z := foldr (fun r n => (if live r then klen r else 0) + n) 0 rs.

(** What a rehash keeps of a record. *)
Definition moved (r r' : rec) : Prop :=
  klen r' = klen r ∧ eid r' = eid r ∧ prev r' = prev r ∧ next r' = next r ∧ live r' = live r.

Lemma slice_key ar r : 0 ≤ off r → 0 ≤ klen r → off r + klen r ≤ Z.of_nat (length ar) → slice ar (off r) (off r + klen r) = Ok (keyAt ar r).
Proof.
  intros Ho Hk He. unfold slice. rewrite bool_decide_true by lia. unfold keyAt. do 3 f_equal. lia.
Qed.

Lemma klens_nonneg rs : (∀ r, r ∈ rs → live r = true → 0 ≤ klen r) → 0 ≤ klens rs.
Proof.
  intros H. induction rs as [|r rs IH]; [done|]. cbn [klens foldr]. fold (klens rs).
  assert (0 ≤ klens rs) by (apply IH; intros r' Hr'; apply H; by right).
  pose proof (H r ltac:(left)) as Hr. destruct (live r); [|lia]. specialize (Hr eq_refl). lia.
Qed.

Lemma rehashLoop_spec old rs : ∀ pre ss a S0 K,
  tbl ss (pre ++ rs) a S0 K → (∀ i, i ∈ S0 → (i < length pre)%nat) →
  (∀ j r, rs !! j = Some r → live r = true → holdsKey old r (K (length pre + j)%nat)) →
  (∀ i j, i ∈ S0 ++ lives (length pre) rs → j ∈ S0 ++ lives (length pre) rs → K i = K j → i = j) →
  (taken ss ≤ length S0)%nat → (length S0 + length (lives (length pre) rs) < length ss)%nat →
  Z.of_nat (length a) + klens rs < 2 ^ 31 → Z.of_nat (length pre + length rs) < 2 ^ 31 → Z.of_nat (length ss) < 2 ^ 31 →
  ∃ rs' ss' a', rehashLoop old (Z.of_nat (length ss)) (length pre) rs ss a = Ok (rs', ss', a')
    ∧ length ss' = length ss ∧ Forall2 moved rs rs' ∧ tbl ss' (pre ++ rs') a' (S0 ++ lives (length pre) rs) K
    ∧ (taken ss' ≤ length S0 + length (lives (length pre) rs))%nat ∧ Z.of_nat (length a') = Z.of_nat (length a) + klens rs.
Proof.
  induction rs as [|rc rs IH]; intros pre ss a S0 K Ht HS0 Hold Hinj Htk Hcnt Hsz Hn Hcap; cbn [rehashLoop lives klens foldr] in *.
  { exists [], ss, a. rewrite !app_nil_r in *. split_and!; try done; lia. }
  assert (∀ j r, rs !! j = Some r → live r = true → holdsKey old r (K (length (pre ++ [rc]) + j)%nat)) as Hold'.
  { intros j r Hj Hl. rewrite length_app. cbn [length]. replace (length pre + 1 + j)%nat with (length pre + S j)%nat by lia. by apply Hold. }
  fold (klens rs) in *. assert (0 ≤ klens rs) as Hnn.
  { apply klens_nonneg. intros r [j Hj]%list_elem_of_lookup Hl. destruct (Hold (S j) r Hj Hl) as (_&_&?&_). lia. }
  assert (length (pre ++ [rc]) = S (length pre)) as Elen by (rewrite length_app; cbn; lia).
  destruct (live rc) eqn:El; cbn [negb app length] in *.
  2:{ destruct (IH (pre ++ [rc]) ss a S0 K) as (rs'&ss'&a'&E&E1&E2&E3&E4&E5); rewrite ?Elen in *; try done; try lia.
      - by rewrite <- app_assoc.
      - intros i Hi. specialize (HS0 i Hi). lia.
      - rewrite E, res_bind_ret. eexists _, _, _. split; [done|]. rewrite <- app_assoc in E3. split_and!; try done; by constructor. }
  destruct (Hold 0%nat rc eq_refl El) as (Ho&Hk&Hk4&Hend&HK). rewrite Nat.add_0_r in *. set (k := K (length pre)) in *.
  destruct (t_cap _ _ _ _ _ Ht) as [ex Hex]. destruct (some_empty ss) as [p Hp]; [lia|].
  destruct (pos_any (length ss) k p) as (e&He&Epos); [by eapply lookup_lt_Some|].
  assert (fnvAt old (off rc) (klen rc) = Ok (fnvKey k)) as ->.
  { unfold fnvAt. replace (off rc) with (Z.of_nat (Z.to_nat (off rc))) by lia. rewrite fnvAtLoop_spec by lia. by rewrite <- HK. }
  rewrite res_bind_ret, (pos_start _ ex) by (done || lia).
  destruct (emptyFrom_spec ss k ex e (S (Z.to_nat (Z.of_nat (length ss)))) 0) as (d&Hop&->); [done|done|by rewrite Epos|lia|intros j Hj; lia|].
  assert (pos (length ss) k d < length ss)%nat as Hpd by (apply pos_lt; lia).
  rewrite res_bind_ret, set_insert, res_bind_ret, slice_key, HK, res_bind_ret by (done || lia).
  rewrite !i32_small by lia. set (rc' := mkRec (Z.of_nat (length a)) (klen rc) (Z.of_nat (pos (length ss) k d)) (eid rc) (prev rc) (next rc) true).
  set (ss1 := <[pos (length ss) k d := Z.of_nat (length pre)]> ss).
  assert (length pre ∉ S0) as Hnot by (intros Hi; specialize (HS0 _ Hi); lia).
  assert (tbl ss1 ((pre ++ [rc']) ++ rs) (a ++ k) (S0 ++ [length pre]) K) as Ht1.
  { eapply tbl_ext; [eapply tbl_agree; [eapply (tbl_insert ss (pre ++ rc :: rs) ((pre ++ [rc']) ++ rs) a S0 K (length pre) k d rc')|..]|].
    - exact Ht.
    - exact Hop.
    - done.
    - intros i Hi E. specialize (HS0 i Hi). assert (i = length pre); [|lia]. apply Hinj; [apply elem_of_app; by left|apply elem_of_app; right; left|done].
    - intros i r Hi Hr. specialize (HS0 i Hi). rewrite lookup_app_l in Hr by done. exists r. rewrite <- app_assoc, lookup_app_l by done. done.
    - rewrite <- app_assoc, lookup_app_r by lia. by rewrite Nat.sub_diag.
    - done.
    - done.
    - done.
    - done.
    - intros i. rewrite elem_of_app, !elem_of_cons, elem_of_nil. tauto.
    - intros i r _ Hr. exists r. split; [done|by split_and!].
    - intros i [Hi| ->%list_elem_of_singleton]%elem_of_app; [|by rewrite decide_True]. rewrite decide_False; [done|]. specialize (HS0 i Hi). lia. }
  assert (length ss1 = length ss) as Ess by (unfold ss1; by rewrite length_insert).
  pose proof (proj1 (taken_insert ss (pos (length ss) k d) (Z.of_nat (length pre)) Hpd)) as Htk1. fold ss1 in Htk1.
  destruct (IH (pre ++ [rc']) ss1 (a ++ k) (S0 ++ [length pre]) K Ht1) as (rs'&ss'&a'&E&E1&E2&E3&E4&E5);
    rewrite ?length_app in *; rewrite ?Nat.add_1_r in *; cbn [length] in *; try lia.
  - intros i [Hi| ->%list_elem_of_singleton]%elem_of_app; [specialize (HS0 i Hi)|]; lia.
  - intros j r Hj Hl. replace (S (length pre) + j)%nat with (length pre + S j)%nat by lia. by apply (Hold (S j)).
  - intros i j Hi Hj. apply Hinj; rewrite <- app_assoc in Hi, Hj; done.
  - rewrite Ess in E, E1. rewrite E, res_bind_ret. eexists _, _, _. split; [done|]. rewrite <- !app_assoc in E3.
    split_and!; try done; [constructor; [by split_and!|done]|lia|lia].
Qed.

(** ** The invariant *)

Definition cost (k : bytes) : Z := Z.of_nat (length k) + 52.
Definition sumBy {A} (c : A → Z) (l : list A) : Z := foldr (fun x n => c x + n) 0 l.
Definition costs (K : nat → bytes) (l : list nat) : Z := sumBy (fun i => cost (K i)) l.

(** [order] are the records in the table, the last used first; [held] is a
    record that is in neither the table nor the free list. *)
Record ainv (idx : Index) (order : list nat) (K : nat → bytes) (held : option nat) : Prop := {
  ai_dll : dll (recs idx) (head idx) (tail idx) order;
  ai_tbl : tbl (slots idx) (recs idx) (arena idx) order K;
  ai_mask : mask idx = Z.of_nat (length (slots idx)) - 1;
  ai_live : ∀ i r, recs idx !! i = Some r → live r = true ↔ i ∈ order;
  ai_nodup : NoDup (free idx);
  ai_free : ∀ z, z ∈ free idx ↔ ∃ i, z = Z.of_nat i ∧ (i < length (recs idx))%nat ∧ (i ∉ order) ∧ held ≠ Some i;
  ai_held : ∀ i, held = Some i → (i < length (recs idx))%nat ∧ i ∉ order;
  ai_nlive : nlive idx = Z.of_nat (length order);
  ai_tombs : 0 ≤ tombs idx;
  ai_taken : Z.of_nat (taken (slots idx)) ≤ nlive idx + tombs idx;
  ai_room : nlive idx + tombs idx < Z.of_nat (length (slots idx));
  ai_bytes : curBytes idx = costs K order;
  ai_budget : curBytes idx ≤ Z.max 0 (maxBytes idx);
}.

Definition eidAt (idx : Index) (i : nat) : Z := match recs idx !! i with Some r => eid r | None => 0 end.
Definition absOf (idx : Index) (K : nat → bytes) (order : list nat) : list (bytes * Z) := map (fun i => (K i, eidAt idx i)) order.

(** What operations on other records keep. *)
Record evolves (idx idx' : Index) : Prop := {
  ev_max : maxBytes idx' = maxBytes idx;
  ev_arena : arena idx' = arena idx;
  ev_recs : length (recs idx') = length (recs idx);
  ev_slots : length (slots idx') = length (slots idx);
  ev_open : ∀ k d, open_at (slots idx) k d → open_at (slots idx') k d;
  ev_eid : ∀ i, eidAt idx' i = eidAt idx i;
  ev_room : nlive idx' + tombs idx' = nlive idx + tombs idx;
}.

#[export] Instance evolves_refl : Reflexive evolves.
Proof. by intros idx. Qed.
#[export] Instance evolves_trans : Transitive evolves.
Proof. intros i1 i2 i3 [] []. constructor; try congruence; eauto. Qed.

Lemma sumBy_cons {A} (c : A → Z) x l : sumBy c (x :: l) = c x + sumBy c l.
Proof. done. Qed.

Lemma sumBy_nil {A} (c : A → Z) : sumBy c [] = 0.
Proof. done. Qed.

Lemma sumBy_app {A} (c : A → Z) a b : sumBy c (a ++ b) = sumBy c a + sumBy c b.
Proof. unfold sumBy. induction a as [|x a IH]; cbn; [done|]. lia. Qed.

Lemma costs_nonneg K l : 0 ≤ costs K l.
Proof. unfold costs, cost. induction l as [|i l IH]; cbn; [done|]. unfold sumBy in IH. lia. Qed.

Lemma costs_mid K a x b : costs K (a ++ x :: b) = cost (K x) + costs K (a ++ b).
Proof.
  unfold costs. rewrite !sumBy_app. change (sumBy ?f (x :: b)) with (f x + sumBy f b). cbv beta. lia.
Qed.

Lemma costs_perm K l l' : l ≡ₚ l' → costs K l = costs K l'.
Proof. unfold costs. induction 1; cbn in *; unfold sumBy in *; lia. Qed.

Lemma eidAt_bodies idx idx' i : bodies (recs idx) (recs idx') → eidAt idx' i = eidAt idx i.
Proof.
  intros Hb. unfold eidAt. destruct (recs idx !! i) as [r|] eqn:E.
  - destruct (bodies_lookup _ _ _ _ Hb E) as (r'&->&_&_&_&He&_). done.
  - apply lookup_ge_None in E. rewrite (Forall2_length _ _ _ Hb) in E. by rewrite (proj2 (lookup_ge_None _ _) E).
Qed.

Lemma bodies_agree S rs rs' : bodies rs rs' → agree S rs rs'.
Proof. intros Hb i r _ Hr. destruct (bodies_lookup _ _ _ _ Hb Hr) as (r'&?&?%body_placed). eauto. Qed.

Lemma bodies_live rs rs' i r' : bodies rs rs' → rs' !! i = Some r' → ∃ r, rs !! i = Some r ∧ live r' = live r.
Proof. intros Hb Hr. destruct (Forall2_lookup_r _ _ _ _ _ Hb Hr) as (r&Hr0&_&_&_&_&Hl). eauto. Qed.

Lemma links_agree rs rs' l : links rs l → (∀ i, i ∈ l → rs' !! i = rs !! i) → links rs' l.
Proof.
  intros Hl Ha a i b E. destruct (Hl a i b E) as (r&Hr&?). exists r. rewrite Ha; [done|]. rewrite E. apply elem_of_app. right. left.
Qed.

Lemma dll_agree rs rs' h t l : dll rs h t l → (∀ i, i ∈ l → rs' !! i = rs !! i) → dll rs' h t l.
Proof. intros [] Ha. constructor; try done. by eapply links_agree. Qed.

(** Touching keeps everything but the order. *)
Lemma ainv_links idx order order' K held rs' h' t' :
  ainv idx order K held → bodies (recs idx) rs' → dll rs' h' t' order' → order' ≡ₚ order → ainv (withLinks idx rs' h' t') order' K held.
Proof.
  intros [H1 H2 H3 H4 H5 H6 H7 H8 H9 H10 H11 H12 H13] Hb Hd Hp.
  assert (∀ i, i ∈ order' ↔ i ∈ order) as Hin by (intros i; by rewrite Hp).
  assert (length rs' = length (recs idx)) as Hlen by (symmetry; by eapply Forall2_length).
  constructor; cbn [withLinks withTail withHead withRecs slots recs arena head tail mask free nlive tombs curBytes maxBytes]; try done.
  - eapply tbl_agree; [exact H2|done|by apply bodies_agree].
  - intros i r' Hr'. destruct (bodies_live _ _ _ _ Hb Hr') as (r&Hr&->). rewrite Hin. by apply H4.
  - intros z. rewrite H6. rewrite Hlen. split; intros (i&->&?&?&?); exists i; rewrite Hin in *; done.
  - intros i Hi. rewrite Hlen, Hin. by apply H7.
  - rewrite H8. by rewrite Hp.
  - rewrite H12. by apply costs_perm.
Qed.

(** *** Removal and eviction *)

Lemma open_at_tomb ss k d p i : open_at ss k d → ss !! p = Some (Z.of_nat i) → open_at (<[p := tombSlot]> ss) k d.
Proof.
  intros (Hd&Hop&Hpath) Hp. unfold open_at. rewrite length_insert. split; [done|].
  assert (p < length ss)%nat by (by eapply lookup_lt_Some). split.
  - rewrite list_lookup_insert_ne; [done|]. intros ->. rewrite Hp in Hop. unfold emptySlot, tombSlot in Hop.
    destruct Hop as [[=]|[=]]; lia.
  - intros j Hj. destruct (decide (pos (length ss) k j = p)) as [->|]; [by rewrite list_lookup_insert_eq|].
    rewrite list_lookup_insert_ne by done. by apply Hpath.
Qed.

Lemma tbl_slot_of ss rs ar S K i r p : tbl ss rs ar S K → i ∈ S → rs !! i = Some r → slotPos r = Z.of_nat p → ss !! p = Some (Z.of_nat i).
Proof.
  intros Ht Hi Hr Hp. destruct (t_rec _ _ _ _ _ Ht i Hi) as (r0&d&Hr0&_&Hsp&Hss&_). rewrite Hr in Hr0. injection Hr0 as <-.
  rewrite Hp in Hsp. apply Nat2Z.inj in Hsp as ->. done.
Qed.

Lemma killRec_spec idx a x b K held :
  ainv idx (a ++ x :: b) K held →
  ∃ idx', killRec idx (Z.of_nat x) = Ok idx' ∧ ainv idx' (a ++ b) K held ∧ evolves idx idx'.
Proof.
  intros [H1 H2 H3 H4 H5 H6 H7 H8 H9 H10 H11 H12 H13]. destruct (dll_links _ _ _ _ H1 a x b eq_refl) as (r&Hr&_).
  assert (x ∈ a ++ x :: b) as Hx by (apply elem_of_app; right; left).
  assert (∀ j, j ∈ a ++ b ↔ j ∈ a ++ x :: b ∧ j ≠ x) as Hin.
  { pose proof (dll_nodup _ _ _ _ H1) as (Ha&Hd&Hb)%NoDup_app. apply NoDup_cons in Hb as [Hxb Hb]. intros j.
    rewrite !elem_of_app, elem_of_cons. split; [intros [Hj|Hj]|tauto].
    - split; [auto|]. intros ->. apply (Hd x Hj). left.
    - split; [auto|]. intros ->. done. }
  destruct (tbl_kill _ _ _ _ (a ++ b) _ x r H2 Hx Hr Hin) as (p&Hsp&Hp&Hne&Ht). pose proof (tbl_slot_of _ _ _ _ _ _ _ _ H2 Hx Hr Hsp) as Hss.
  destruct (t_key _ _ _ _ _ H2 x Hx) as (r0&Hr0&_&Hkl&_). rewrite Hr in Hr0. injection Hr0 as <-.
  set (ss' := <[p := tombSlot]> (slots idx)) in *. unfold killRec. rewrite (at_lookup _ _ _ Hr), res_bind_ret, Hsp, set_insert, res_bind_ret by done.
  cbv zeta. fold ss'. set (idx1 := withSlots idx ss' (tombs idx + 1)).
  destruct (lruUnlink_spec idx1 a x b H1) as (rs1&h1&t1&->&Hb1&Hd1). rewrite res_bind_ret. cbn [idx1 withSlots recs] in Hb1.
  destruct (bodies_lookup _ _ _ _ Hb1 Hr) as (r1&Hr1&_&Hk1&_). set (idx2 := withLinks idx1 rs1 h1 t1). change rs1 with (recs idx2) in Hr1.
  rewrite updRec_spec by (by rewrite Hr1). rewrite res_bind_ret. cbv zeta. set (rs2 := alter deadRec x (recs idx2)).
  assert (rs2 !! x = Some (deadRec r1)) as Hr2 by (unfold rs2; rewrite alter_lookup, decide_True, Hr1 by done; done).
  rewrite (at_lookup _ _ (deadRec r1)) by exact Hr2. rewrite res_bind_ret. eexists. split; [done|].
  assert (∀ i, i ≠ x → rs2 !! i = rs1 !! i) as Hoth by (intros i Hi; unfold rs2; rewrite alter_lookup, decide_False by done; done).
  assert (length rs2 = length (recs idx)) as Hlen by (unfold rs2; rewrite length_alter; symmetry; exact (Forall2_length _ _ _ Hb1)).
  assert (x < length (recs idx))%nat as Hxl by (by eapply lookup_lt_Some).
  assert (costs K (a ++ x :: b) = cost (K x) + costs K (a ++ b)) as Hcost by apply costs_mid.
  assert (length (a ++ x :: b) = S (length (a ++ b))) as Hlo by (rewrite !length_app; cbn; lia).
  split; [constructor|constructor];
    cbn [withCount withFree withRecs withLinks withTail withHead withSlots idx2 idx1 slots recs arena head tail mask free nlive tombs curBytes maxBytes]; fold rs2.
  - eapply dll_agree; [exact Hd1|]. intros i [_ Hi]%Hin. by apply Hoth.
  - eapply tbl_agree; [exact Ht|done|]. intros i ri [_ Hi]%Hin Hri. rewrite Hoth by done.
    destruct (bodies_lookup _ _ _ _ Hb1 Hri) as (r'&?&?%body_placed). eauto.
  - unfold ss'. by rewrite length_insert.
  - intros i ri Hri. destruct (decide (i = x)) as [->|Hne'].
    + rewrite Hr2 in Hri. injection Hri as <-. cbn. split; [done|]. intros [_ ?]%Hin. done.
    + rewrite Hoth in Hri by done. destruct (bodies_live _ _ _ _ Hb1 Hri) as (r'&Hr'&->). rewrite (H4 i r' Hr'), Hin. tauto.
  - apply NoDup_app. split_and!; [done| |apply NoDup_singleton]. intros z Hz ->%list_elem_of_singleton.
    apply H6 in Hz as (i&->%Nat2Z.inj&_&Hi&_). done.
  - intros z. rewrite elem_of_app, list_elem_of_singleton, H6, Hlen. split.
    + intros [(i&->&Hi&Hni&Hh)| ->]; [exists i; split_and!; try done; rewrite Hin; tauto|]. exists x. split_and!; [done|done|rewrite Hin; tauto|].
      intros E. by apply (H7 x E).
    + intros (i&->&Hi&Hni&Hh). destruct (decide (i = x)) as [->|Hne']; [by right|left]. exists i. split_and!; try done. rewrite Hin in Hni. tauto.
  - intros i Hi. destruct (H7 i Hi) as [? Hni]. rewrite Hlen, Hin. tauto.
  - rewrite H8, Hlo. lia.
  - lia.
  - pose proof (proj2 (taken_insert (slots idx) p tombSlot Hp) Hne) as Htk. fold ss' in Htk. lia.
  - unfold ss'. rewrite length_insert. lia.
  - rewrite H12, Hcost. unfold cost, recSize. cbn. lia.
  - cbn [deadRec klen]. rewrite Hk1, Hkl. unfold recSize. pose proof (costs_nonneg K (a ++ b)). lia.
  - done.
  - done.
  - exact Hlen.
  - unfold ss'. by rewrite length_insert.
  - intros k d Hop. by apply (open_at_tomb _ _ _ _ x).
  - intros i. unfold eidAt. cbn [recs withCount withFree withRecs]. fold rs2.
    destruct (decide (i = x)) as [->|Hne'].
    + rewrite Hr2, Hr. destruct (bodies_lookup _ _ _ _ Hb1 Hr) as (r'&Hr'&_&_&_&He&_). change (recs idx2) with rs1 in Hr1. rewrite Hr1 in Hr'. injection Hr' as <-. done.
    + rewrite Hoth by done. exact (eidAt_bodies idx (withRecs idx rs1) i Hb1).
  - lia.
Qed.

(** Drops from the front while the rest and [inc] are over [max]. *)
Fixpoint evictRev {A} (c : A → Z) (max inc : Z) (l : list A) : list A :=
  match l with
  | [] => []
  | x :: l' => if sumBy c l + inc >? max then evictRev c max inc l' else l
  end.
Definition evictBy {A} (c : A → Z) (max inc : Z) (l : list A) : list A := rev (evictRev c max inc (rev l)).

Lemma sumBy_rev {A} (c : A → Z) l : sumBy c (rev l) = sumBy c l.
Proof. induction l as [|x l IH]; [done|]. cbn [rev]. rewrite sumBy_app, IH, !sumBy_cons, sumBy_nil. lia. Qed.

Lemma evictBy_snoc {A} (c : A → Z) max inc l x :
  evictBy c max inc (l ++ [x]) = if sumBy c (l ++ [x]) + inc >? max then evictBy c max inc l else l ++ [x].
Proof.
  unfold evictBy. rewrite rev_app_distr. cbn [rev app evictRev]. rewrite <- (sumBy_rev c (l ++ [x])), rev_app_distr. cbn [rev app].
  destruct (_ >? _); [done|]. cbn [rev]. by rewrite rev_involutive.
Qed.

Lemma sumBy_map {A A'} (f : A → A') (c : A' → Z) l : sumBy c (map f l) = sumBy (fun x => c (f x)) l.
Proof. unfold sumBy. induction l as [|x l IH]; [done|]. cbn. by rewrite IH. Qed.

Lemma evictBy_map {A A'} (f : A → A') (c : A' → Z) max inc l :
  evictBy c max inc (map f l) = map f (evictBy (fun x => c (f x)) max inc l).
Proof.
  induction l as [|x l IH] using rev_ind; [done|]. rewrite map_app. cbn [map]. rewrite !evictBy_snoc.
  change (map f l ++ [f x]) with (map f l ++ map f [x]). rewrite <- map_app, sumBy_map, IH. by destruct (_ >? _).
Qed.

Lemma evictBy_sum {A} (c : A → Z) max inc l :
  (∀ x, 0 ≤ c x) → evictBy c max inc l = [] ∨ sumBy c (evictBy c max inc l) + inc ≤ max.
Proof.
  intros Hc. induction l as [|x l IH] using rev_ind; [by left|]. rewrite evictBy_snoc. destruct (Z.gtb_spec (sumBy c (l ++ [x]) + inc) max); [done|by right].
Qed.

Lemma evictUntil_spec fuel idx order K held inc :
  ainv idx order K held → (length order < fuel)%nat →
  ∃ idx', evictLoop fuel idx inc = Ok idx' ∧ evolves idx idx'
    ∧ ainv idx' (evictBy (fun i => cost (K i)) (maxBytes idx) inc order) K held.
Proof.
  revert idx order. induction fuel as [|fuel IH]; intros idx order Hi Hf; [lia|]. cbn [evictLoop].
  pose proof (ai_bytes _ _ _ _ Hi) as Hb. pose proof (ai_nlive _ _ _ _ Hi) as Hn. pose proof (dll_tail _ _ _ _ (ai_dll _ _ _ _ Hi)) as Ht.
  destruct order as [|x order _] using rev_ind.
  { rewrite Hn. rewrite andb_false_r. by exists idx. }
  rewrite evictBy_snoc. fold (costs K (order ++ [x])). rewrite Hb, Hn, Ht, lst_snoc. rewrite length_app in Hf |- *. cbn [length] in *.
  replace (Z.of_nat (length order + 1) >? 0) with true by lia. rewrite andb_true_r.
  destruct (costs K (order ++ [x]) + inc >? maxBytes idx); [|by exists idx].
  replace (Z.of_nat x <? 0) with false by lia. destruct (killRec_spec idx order x [] K held Hi) as (idx1&->&Hi1&He1). rewrite res_bind_ret.
  rewrite app_nil_r in Hi1. set (idx2 := withStats _ _ _ _ _).
  assert (ainv idx2 order K held) as Hi2 by (destruct Hi1; by constructor).
  assert (evolves idx idx2) as He2 by (transitivity idx1; [done|by constructor]).
  destruct (IH idx2 order Hi2) as (idx'&E&He&Hi'); [lia|]. exists idx'. split; [done|]. split; [by transitivity idx2|].
  by rewrite <- (ev_max _ _ He2).
Qed.

(** ** A recency list *)

Section spec.
Implicit Types l : list (bytes * Z).

Fixpoint aget l (k : bytes) : option Z :=
  match l with [] => None | (k', e) :: l' => if decide (k' = k) then Some e else aget l' k end.
Definition adel l (k : bytes) : list (bytes * Z) := filter (fun p => p.1 ≠ k) l.

Definition aProbe l (k : bytes) : option Z * list (bytes * Z) :=
  match aget l k with Some e => (Some e, (k, e) :: adel l k) | None => (None, l) end.
Definition aPut (max : Z) l (k : bytes) (e : Z) : list (bytes * Z) :=
  if Z.of_nat (length k) >? maxKeyLen then l
  else match aget l k with
       | Some _ => (k, e) :: adel l k
       | None => if cost k >? max then l else (k, e) :: evictBy (fun p => cost p.1) max (cost k) l
       end.
End spec.

Lemma absOf_ext idx idx' K K' l :
  (∀ i, i ∈ l → K' i = K i) → (∀ i, i ∈ l → eidAt idx' i = eidAt idx i) → absOf idx' K' l = absOf idx K l.
Proof.
  intros HK He. unfold absOf. apply map_ext_in. intros i Hi%list_elem_of_In. by rewrite HK, He.
Qed.

Lemma aget_none idx K l k : (∀ i, i ∈ l → K i ≠ k) → aget (absOf idx K l) k = None ∧ adel (absOf idx K l) k = absOf idx K l.
Proof.
  intros Hk. induction l as [|i l IH]; [done|]. destruct IH as [IH1 IH2]; [intros j Hj; apply Hk; by right|].
  cbn [absOf map aget]. fold (absOf idx K l). rewrite decide_False by (apply Hk; left). split; [done|].
  unfold adel in *. rewrite filter_cons, decide_True by (apply Hk; left). by rewrite IH2.
Qed.

Lemma aget_some idx K a x b :
  (∀ i, i ∈ a ++ b → K i ≠ K x) →
  aget (absOf idx K (a ++ x :: b)) (K x) = Some (eidAt idx x) ∧ adel (absOf idx K (a ++ x :: b)) (K x) = absOf idx K (a ++ b).
Proof.
  intros Hk. induction a as [|i a IH]; cbn [app absOf map aget adel].
  - fold (absOf idx K b). rewrite decide_True by done. split; [done|]. unfold adel. rewrite filter_cons, decide_False by (intros H; by apply H).
    apply (aget_none idx K b (K x)). intros i Hi. by apply Hk.
  - destruct IH as [IH1 IH2]; [intros j Hj; apply Hk; by right|]. fold (absOf idx K (a ++ x :: b)) (absOf idx K (a ++ b)).
    rewrite decide_False by (apply Hk; left). split; [done|]. unfold adel in *. rewrite filter_cons, decide_True by (apply Hk; left). by rewrite IH2.
Qed.

Lemma order_split idx order K held i :
  ainv idx order K held → i ∈ order →
  ∃ a b, order = a ++ i :: b ∧ (∀ j, j ∈ a ++ b → K j ≠ K i) ∧ i :: a ++ b ≡ₚ order.
Proof.
  intros Hi (a&b&->)%list_elem_of_split. exists a, b. split; [done|]. split; [|apply Permutation_middle].
  pose proof (dll_nodup _ _ _ _ (ai_dll _ _ _ _ Hi)) as (_&Hd&Hb)%NoDup_app. apply NoDup_cons in Hb as [Hib _].
  intros j Hj E. apply (t_keys _ _ _ _ _ (ai_tbl _ _ _ _ Hi)) in E; [|apply elem_of_app in Hj as [?|?]; apply elem_of_app; [by left|right; by right]|apply elem_of_app; right; left].
  subst j. apply elem_of_app in Hj as [Hj|Hj]; [apply (Hd i Hj); left|done].
Qed.

(** ** Operations *)

Definition small (idx : Index) : Prop :=
  Z.of_nat (length (slots idx)) < 2 ^ 30 ∧ Z.of_nat (length (arena idx)) < 2 ^ 31 ∧ Z.of_nat (length (recs idx)) < 2 ^ 31 - 1
  ∧ maxBytes idx < 2 ^ 31.

(** What bounds them: the table and the records are bounded by the budget, the
    arena by the bytes written since it was compacted. *)
Definition sized (idx : Index) (A : Z) : Prop :=
  Z.of_nat (length (slots idx)) ≤ 2 ^ 28 ∧ Z.of_nat (length (recs idx)) ≤ 2 ^ 26 ∧ Z.of_nat (length (arena idx)) ≤ A
  ∧ maxBytes idx ≤ A ∧ A < 2 ^ 31.

Lemma sized_small idx A : sized idx A → small idx.
Proof. unfold sized, small. lia. Qed.

Definition sizes (idx : Index) : nat * nat * nat * Z := (length (slots idx), length (recs idx), length (arena idx), maxBytes idx).

Lemma sized_same idx idx' A : sizes idx' = sizes idx → sized idx A → sized idx' A.
Proof. unfold sizes, sized. intros [= -> -> -> ->]. done. Qed.

Lemma find_ainv idx order K held aid val :
  ainv idx order K held → small idx → found idx order K (aidBytes aid ++ val) (findSlot idx aid val (fnv aid val)).
Proof.
  intros Hi (Hs&_). pose proof (ai_taken _ _ _ _ Hi). pose proof (ai_room _ _ _ _ Hi).
  apply findSlot_spec; [apply Hi|apply Hi|lia|lia].
Qed.

Lemma nlive_zero idx order K held : ainv idx order K held → nlive idx = 0 → order = [].
Proof. intros Hi E. rewrite (ai_nlive _ _ _ _ Hi) in E. destruct order; [done|]. cbn in E. lia. Qed.

Lemma ainv_stats idx order K held h m e r : ainv idx order K held → ainv (withStats idx h m e r) order K held.
Proof. intros []. by constructor. Qed.

Lemma Probe_spec idx order K aid val :
  ainv idx order K None → small idx →
  let k := aidBytes aid ++ val in
  ∃ idx' order', Probe idx aid val = Ok ((aProbe (absOf idx K order) k).1, idx') ∧ ainv idx' order' K None
    ∧ absOf idx' K order' = (aProbe (absOf idx K order) k).2 ∧ sizes idx' = sizes idx.
Proof.
  intros Hi Hsm k. unfold Probe. destruct (Z.eqb_spec (nlive idx) 0) as [E0|_].
  { assert (order = []) as -> by (by eapply nlive_zero). eexists _, []. split; [done|]. split; [by apply ainv_stats|done]. }
  unfold aProbe. destruct (find_ainv idx order K None aid val Hi Hsm) as [(i&p&t&Hin&HK&->)|(Hno&d&t&_&->)]; rewrite res_bind_ret; cbv beta iota.
  - replace (Z.of_nat i >=? 0) with true by lia. destruct (order_split _ _ _ _ _ Hi Hin) as (a&b&->&Hk&Hp).
    destruct (aget_some idx K a i b Hk) as [Eg Ed]. fold k in HK. rewrite HK in Eg, Ed. rewrite Eg, Ed.
    destruct (touchLru_spec idx a i b (ai_dll _ _ _ _ Hi)) as (rs'&h'&t'&->&Hb&Hd). rewrite res_bind_ret.
    pose proof (ainv_links idx _ _ K None rs' h' t' Hi Hb Hd Hp) as Hi'.
    destruct (dll_links _ _ _ _ (ai_dll _ _ _ _ Hi) a i b eq_refl) as (r&Hr&_). destruct (bodies_lookup _ _ _ _ Hb Hr) as (r'&Hr'&Hbody).
    cbn [withLinks withTail withHead withRecs recs]. rewrite (at_lookup _ _ _ Hr'), res_bind_ret. eexists _, (i :: a ++ b). split_and!.
    + cbn [fst]. unfold eidAt. rewrite Hr. destruct Hbody as (_&_&_&->&_). done.
    + by apply ainv_stats.
    + cbn [absOf map snd]. assert (∀ j, eidAt (withRecs idx rs') j = eidAt idx j) as He by (intros j; by apply eidAt_bodies).
      rewrite HK. f_equal; [f_equal; exact (He i)|]. apply absOf_ext; [done|]. intros j _. exact (He j).
    + pose proof (Forall2_length _ _ _ Hb) as El. unfold sizes. cbn. by rewrite El.
  - replace (-1 >=? 0) with false by done. destruct (aget_none idx K order k Hno) as [-> _]. eexists _, order. split; [done|].
    split; [by apply ainv_stats|done].
Qed.

Lemma Del_spec idx order K aid val :
  ainv idx order K None → small idx →
  ∃ idx' order', Del idx aid val = Ok idx' ∧ ainv idx' order' K None
    ∧ absOf idx' K order' = adel (absOf idx K order) (aidBytes aid ++ val) ∧ sizes idx' = sizes idx.
Proof.
  intros Hi Hsm. unfold Del. destruct (Z.eqb_spec (nlive idx) 0) as [E0|_].
  { assert (order = []) as -> by (by eapply nlive_zero). by exists idx, []. }
  destruct (find_ainv idx order K None aid val Hi Hsm) as [(i&p&t&Hin&HK&->)|(Hno&d&t&_&->)]; rewrite res_bind_ret; cbv beta iota.
  - replace (Z.of_nat i >=? 0) with true by lia. destruct (order_split _ _ _ _ _ Hi Hin) as (a&b&->&Hk&_).
    destruct (aget_some idx K a i b Hk) as [_ Ed]. rewrite HK in Ed. rewrite Ed.
    destruct (killRec_spec idx a i b K None Hi) as (idx'&->&Hi'&He). exists idx', (a ++ b). split_and!; [done|done| |].
    + apply absOf_ext; [done|]. intros j _. by apply He.
    + destruct He as [E1 E2 E3 E4 _ _ _]. unfold sizes. by rewrite E1, E2, E3, E4.
  - replace (-1 >=? 0) with false by done. destruct (aget_none idx K order _ Hno) as [_ ->]. by exists idx, order.
Qed.

(** *** Rehash *)

Lemma elem_of_lives n rs i : i ∈ lives n rs ↔ ∃ j r, rs !! j = Some r ∧ live r = true ∧ i = (n + j)%nat.
Proof.
  revert n. induction rs as [|r rs IH]; intros n; cbn [lives].
  { rewrite elem_of_nil. split; [done|]. intros (j&r&Hj&_). done. }
  rewrite elem_of_app, IH. split.
  - intros [Hi|(j&r'&Hj&Hl&->)]; [|exists (S j), r'; split_and!; [done|done|lia]]. destruct (live r) eqn:El; [|by apply not_elem_of_nil in Hi].
    apply list_elem_of_singleton in Hi as ->. exists 0%nat, r. split_and!; [done|done|lia].
  - intros ([|j]&r'&Hj&Hl&->).
    + injection Hj as ->. left. rewrite Hl, Nat.add_0_r. by apply list_elem_of_singleton.
    + right. exists j, r'. split_and!; [done|done|lia].
Qed.

Lemma lives_NoDup n rs : NoDup (lives n rs).
Proof.
  revert n. induction rs as [|r rs IH]; intros n; cbn [lives]; [constructor|]. apply NoDup_app. split_and!; [destruct (live r); [apply NoDup_singleton|constructor]| |apply IH].
  intros i Hi (j&r'&_&_&->)%elem_of_lives. destruct (live r); [|by apply not_elem_of_nil in Hi]. apply list_elem_of_singleton in Hi. lia.
Qed.

Lemma klens_costs n rs K :
  (∀ j r, rs !! j = Some r → live r = true → klen r = Z.of_nat (length (K (n + j)%nat))) → klens rs ≤ costs K (lives n rs).
Proof.
  revert n. induction rs as [|r rs IH]; intros n HK; [done|]. cbn [klens foldr lives]. fold (klens rs).
  assert (klens rs ≤ costs K (lives (S n) rs)) as H.
  { apply IH. intros j r' Hj Hl. replace (S n + j)%nat with (n + S j)%nat by lia. by apply HK. }
  unfold costs in *. rewrite sumBy_app. destruct (live r) eqn:El.
  - rewrite sumBy_cons, sumBy_nil. pose proof (HK 0%nat r eq_refl El) as Hk. rewrite Nat.add_0_r in Hk. cbv beta. unfold cost at 1. lia.
  - rewrite sumBy_nil. lia.
Qed.

Lemma links_moved rs rs' l : Forall2 moved rs rs' → links rs l → links rs' l.
Proof.
  intros Hm Hl a i b E. destruct (Hl a i b E) as (r&Hr&Hp&Hn). destruct (Forall2_lookup_l _ _ _ _ _ Hm Hr) as (r'&Hr'&_&_&Ep&En&_).
  exists r'. split_and!; [done|congruence|congruence].
Qed.

Lemma taken_empty n : taken (replicate n emptySlot) = 0%nat.
Proof. unfold taken. induction n as [|n IH]; [done|]. cbn [replicate]. rewrite filter_cons, decide_False; [done|]. by intros []. Qed.

Lemma rehash_spec idx order K cap ex :
  ainv idx order K None → small idx → cap = (2 ^ ex)%nat → Z.of_nat cap < 2 ^ 31 → (length order < cap)%nat →
  ∃ idx', rehash idx (Z.of_nat cap) = Ok idx' ∧ ainv idx' order K None ∧ (∀ i, eidAt idx' i = eidAt idx i)
    ∧ maxBytes idx' = maxBytes idx ∧ tombs idx' = 0 ∧ nlive idx' = nlive idx ∧ length (slots idx') = cap
    ∧ Z.of_nat (length (arena idx')) ≤ Z.max 0 (maxBytes idx) ∧ length (recs idx') = length (recs idx).
Proof.
  intros [H1 H2 H3 H4 H5 H6 H7 H8 H9 H10 H11 H12 H13] (Hs1&Hs2&Hs3&Hs4) Hcap Hc31 Hlen.
  assert (∀ i, i ∈ lives 0 (recs idx) ↔ i ∈ order) as Hlv.
  { intros i. rewrite elem_of_lives. split.
    - intros (j&r&Hj&Hl&->). by apply (H4 j r Hj).
    - intros Hi. destruct (t_key _ _ _ _ _ H2 i Hi) as (r&Hr&_). exists i, r. split_and!; [done|by apply (H4 i r Hr)|done]. }
  assert (lives 0 (recs idx) ≡ₚ order) as Hperm by (apply NoDup_Permutation; [apply lives_NoDup|apply H1|done]).
  assert (∀ j r, recs idx !! j = Some r → live r = true → holdsKey (arena idx) r (K (0 + j)%nat)) as Hold.
  { intros j r Hj Hl. destruct (t_key _ _ _ _ _ H2 j) as (r0&Hr0&Hk); [by apply (H4 j r Hj)|]. rewrite Hj in Hr0. by injection Hr0 as ->. }
  assert (klens (recs idx) ≤ curBytes idx) as Hkl.
  { rewrite H12, <- (costs_perm _ _ _ Hperm). apply klens_costs. intros j r Hj Hl. by apply (Hold j r Hj Hl). }
  destruct (rehashLoop_spec (arena idx) (recs idx) [] (replicate cap emptySlot) [] [] K) as (rs'&ss'&a'&E&E1&E2&E3&E4&E5);
    cbn [app length Nat.add] in *; rewrite ?length_replicate in *.
  - constructor; rewrite ?length_replicate; [by exists ex| |by intros i ?%elem_of_nil|by intros i ?%elem_of_nil|by intros i j ?%elem_of_nil].
    intros p s [-> _]%lookup_replicate. by left.
  - intros i ?%elem_of_nil. done.
  - done.
  - intros i j Hi%Hlv Hj%Hlv. by apply (t_keys _ _ _ _ _ H2).
  - rewrite taken_empty. lia.
  - by rewrite Hperm.
  - change (Z.of_nat 0 + klens (recs idx) < 2 ^ 31). lia.
  - lia.
  - lia.
  - unfold rehash. rewrite Nat2Z.id, E, res_bind_ret. cbv beta iota. eexists. split; [done|].
    pose proof (Forall2_length _ _ _ E2) as Hrl.
    assert (∀ i, eidAt (withTable idx ss' (Z.of_nat cap - 1) 0 rs' a' (rehashes idx + 1)) i = eidAt idx i) as He.
    { intros i. unfold eidAt. cbn [withTable recs]. destruct (recs idx !! i) as [r|] eqn:Er.
      - destruct (Forall2_lookup_l _ _ _ _ _ E2 Er) as (r'&->&_&->&_). done.
      - apply lookup_ge_None in Er. rewrite Hrl in Er. by rewrite (proj2 (lookup_ge_None _ _) Er). }
    split_and!; [|done|done|done|done|done|cbn [withTable arena]; lia|by cbn].
    constructor; cbn [withTable slots recs arena head tail mask free nlive tombs curBytes maxBytes]; rewrite ?E1; try done.
    + destruct H1 as [? ? Hl ?]. constructor; try done. by eapply links_moved.
    + eapply tbl_agree; [exact E3|by symmetry|]. intros i r _ Hr. exists r. split; [done|by split_and!].
    + intros i r' Hr'. destruct (Forall2_lookup_r _ _ _ _ _ E2 Hr') as (r&Hr&_&_&_&_&->). by apply (H4 i r Hr).
    + by rewrite <- Hrl.
    + rewrite Hperm in E4. lia.
    + lia.
Qed.

(** *** Insertion *)

Lemma cap_double ex : ∃ ex', Z.of_nat (2 ^ ex') = Z.max (Z.of_nat (2 ^ ex) * 2) minSlots.
Proof.
  destruct (Z.max_spec (Z.of_nat (2 ^ ex) * 2) minSlots) as [[_ ->]|[_ ->]].
  - by exists 10%nat.
  - exists (S ex). cbn [Nat.pow]. lia.
Qed.

Lemma makeRoom_spec idx order K :
  ainv idx order K None → small idx →
  ∃ idx', makeRoom idx = Ok idx' ∧ ainv idx' order K None ∧ (∀ i, eidAt idx' i = eidAt idx i) ∧ maxBytes idx' = maxBytes idx
    ∧ nlive idx' + tombs idx' + 1 < Z.of_nat (length (slots idx')) ∧ Z.of_nat (length (slots idx')) ≤ Z.max (Z.of_nat (length (slots idx))) (Z.max minSlots (4 * nlive idx + 4))
    ∧ Z.of_nat (length (arena idx')) ≤ Z.max (Z.of_nat (length (arena idx))) (maxBytes idx) ∧ length (recs idx') = length (recs idx).
Proof.
  intros Hi Hsm. pose proof Hsm as (Hs1&Hs2&Hs3&Hs4). destruct (t_cap _ _ _ _ _ (ai_tbl _ _ _ _ Hi)) as [ex Hex].
  pose proof (ai_room _ _ _ _ Hi). pose proof (ai_tombs _ _ _ _ Hi). pose proof (ai_nlive _ _ _ _ Hi) as Hn. unfold makeRoom.
  destruct (Z.geb_spec ((nlive idx + tombs idx + 1) * 10) (Z.of_nat (length (slots idx)) * 7)) as [Hge|Hlt].
  2:{ exists idx. split_and!; try done; lia. }
  destruct (Z.gtb_spec (tombs idx) (Z.quot (nlive idx) 4)) as [Hgt|Hle].
  - assert (0 ≤ Z.quot (nlive idx) 4) by (apply Z.quot_pos; lia).
    destruct (rehash_spec idx order K (length (slots idx)) ex Hi Hsm) as (idx'&E&Hi'&He&Hm&Ht&Hl&Hc&Ha&Hr); [done|lia|lia|].
    exists idx'. split_and!; try done; lia.
  - assert (4 * Z.quot (nlive idx) 4 ≤ nlive idx) by (apply Z.mul_quot_le; lia).
    destruct (cap_double ex) as [ex' Hex']. rewrite Hex, <- Hex'. unfold minSlots in *.
    destruct (rehash_spec idx order K (2 ^ ex')%nat ex' Hi Hsm) as (idx'&E&Hi'&He&Hm&Ht&Hl&Hc&Ha&Hr); [done|lia|lia|].
    exists idx'. split_and!; try done; lia.
Qed.

Lemma takeRec_spec idx order K :
  ainv idx order K None → Z.of_nat (length (recs idx)) < 2 ^ 31 →
  ∃ nr idx', takeRec idx = (Z.of_nat nr, idx') ∧ ainv idx' order K (Some nr) ∧ maxBytes idx' = maxBytes idx
    ∧ (∀ i, i ∈ order → eidAt idx' i = eidAt idx i) ∧ slots idx' = slots idx ∧ arena idx' = arena idx
    ∧ nlive idx' = nlive idx ∧ tombs idx' = tombs idx ∧ (length (recs idx') ≤ length (recs idx) `max` S (length order))%nat.
Proof.
  intros Hi Hr. pose proof Hi as [H1 H2 H3 H4 H5 H6 H7 H8 H9 H10 H11 H12 H13]. unfold takeRec. destruct (last (free idx)) as [z|] eqn:El.
  - apply last_Some in El as [f El]. rewrite El, removelast_last. rewrite El in H5. apply NoDup_app in H5 as (Hf&Hd&_).
    assert (z ∈ free idx) as (i&->&Hi1&Hi2&_)%H6 by (rewrite El; apply elem_of_app; right; left).
    exists i, (withFree idx f). split; [done|]. split; [|split_and!; try done; cbn; lia].
    constructor; cbn [withFree slots recs arena head tail mask free nlive tombs curBytes maxBytes]; try done.
    + intros z. assert (z ∈ f ↔ z ∈ free idx ∧ z ≠ Z.of_nat i) as ->.
      { rewrite El, elem_of_app, list_elem_of_singleton. split; [|tauto]. intros Hz. split; [by left|]. intros ->. apply (Hd _ Hz). left. }
      rewrite H6. split.
      * intros [(j&->&?&?&_) Hne]. exists j. split_and!; try done. intros [= ->]. done.
      * intros (j&->&?&?&Hne). split; [by exists j|]. intros E%Nat2Z.inj. congruence.
    + by intros j [= <-].
  - apply last_None in El. exists (length (recs idx)), (withRecs idx (recs idx ++ [mkRec 0 0 0 0 0 0 false])).
    rewrite i32_small by lia. split; [done|].
    assert (∀ i, i ∈ order → (i < length (recs idx))%nat) as Hord.
    { intros i Hin. destruct (t_key _ _ _ _ _ H2 i Hin) as (r&Hr0&_). by eapply lookup_lt_Some. }
    assert (length (recs idx) ∉ order) as Hnew by (intros Hin; specialize (Hord _ Hin); lia).
    assert (length (recs idx) ≤ length order)%nat as Hfull.
    { rewrite <- (length_seq (length (recs idx)) 0). apply submseteq_length, NoDup_submseteq; [apply NoDup_seq|].
      intros i Hin%elem_of_seq. destruct (decide (i ∈ order)) as [|Hno]; [done|]. assert (Z.of_nat i ∈ free idx) as Hfr by (apply H6; exists i; split_and!; try done; lia).
      rewrite El in Hfr. by apply elem_of_nil in Hfr. }
    split; [|split_and!; try done; [|cbn; rewrite length_app; cbn; lia]].
    2:{ intros i Hin. unfold eidAt. cbn [withRecs recs]. by rewrite lookup_app_l by (by apply Hord). }
    constructor; cbn [withRecs slots recs arena head tail mask free nlive tombs curBytes maxBytes]; try done.
    + eapply dll_agree; [exact H1|]. intros i Hin. by rewrite lookup_app_l by (by apply Hord).
    + eapply tbl_agree; [exact H2|done|]. intros i r Hin Hr0. exists r. rewrite lookup_app_l by (by apply Hord). split; [done|by split_and!].
    + intros i r Hr0. rewrite lookup_app in Hr0. destruct (recs idx !! i) as [r0|] eqn:E0; [injection Hr0 as <-; by apply H4|].
      apply list_lookup_singleton_Some in Hr0 as [Hi0 <-]. cbn. split; [done|]. intros Hin. specialize (Hord i Hin). apply lookup_ge_None in E0. lia.
    + intros z. rewrite H6, length_app. cbn [length]. split; intros (i&->&?&?&Hne); exists i; split_and!; try done; try lia.
      * intros E. injection E. lia.
      * destruct (decide (i = length (recs idx))) as [->|]; [done|lia].
    + intros i E. injection E as <-. rewrite length_app. cbn. split; [lia|done].
Qed.

Lemma storeAt_end (a k : bytes) n : n = length k → storeAt (a ++ replicate n 0) (Z.of_nat (length a)) k = Ok (a ++ k).
Proof.
  intros ->. unfold storeAt. replace (_ <? 0) with false by lia. rewrite Nat2Z.id, take_app_length.
  rewrite drop_ge by (rewrite length_app, length_replicate; lia). by rewrite app_nil_r.
Qed.

(** The new record goes into its slot. *)
Lemma insert_spec idx order K nr aid val e d :
  let k := aidBytes aid ++ val in
  ainv idx order K (Some nr) → open_at (slots idx) k d → (∀ i, i ∈ order → K i ≠ k) →
  nlive idx + tombs idx + 1 < Z.of_nat (length (slots idx)) → Z.of_nat (length (slots idx)) < 2 ^ 31 →
  Z.of_nat (length (arena idx)) < 2 ^ 31 → Z.of_nat (length k) ≤ maxKeyLen → curBytes idx + cost k ≤ maxBytes idx →
  ∃ idx', (let o := i32 (Z.of_nat (length (arena idx))) in
      let kl := 4 + Z.of_nat (length val) in
      let p := Z.of_nat (pos (length (slots idx)) k d) in
      idx ← updRec idx (Z.of_nat nr) (fillRec o (i16 kl) (i32 p) e);
      a ← storeAt (arena idx ++ replicate (Z.to_nat kl) 0) o (aidBytes aid ++ val);
      let idx := withArena idx a in
      ss ← set_ (slots idx) p (Z.of_nat nr);
      let idx := withSlots idx ss (tombs idx) in
      let idx := withCount idx (nlive idx + 1) (curBytes idx + (kl + 8 + recSize + 4)) in
      lruPush idx (Z.of_nat nr)) = Ok idx'
    ∧ ainv idx' (nr :: order) (fun i => if decide (i = nr) then k else K i) None
    ∧ sizes idx' = (length (slots idx), length (recs idx), length (arena idx ++ k), maxBytes idx)
    ∧ absOf idx' (fun i => if decide (i = nr) then k else K i) (nr :: order) = (k, e) :: absOf idx K order.
Proof.
  intros k [H1 H2 H3 H4 H5 H6 H7 H8 H9 H10 H11 H12 H13] Hop Hk Hroom Hc31 Ha31 Hkl Hbud. destruct (H7 nr eq_refl) as [Hnr Hni].
  assert (Z.of_nat (length k) = 4 + Z.of_nat (length val)) as Elk by (unfold k; rewrite length_app, length_aidBytes; lia).
  set (p := pos (length (slots idx)) k d). assert (p < length (slots idx))%nat as Hp by (apply pos_lt; destruct Hop; lia).
  destruct (lookup_lt_is_Some_2 (recs idx) nr Hnr) as [r0 Hr0]. cbv zeta.
  rewrite updRec_spec, res_bind_ret by (by rewrite Hr0). unfold maxKeyLen in *.
  rewrite !i32_small by lia. assert (i16 (4 + Z.of_nat (length val)) = Z.of_nat (length k)) as -> by (unfold i16; rewrite Z.mod_small; lia).
  set (rs1 := alter _ nr (recs idx)). cbn [withRecs arena slots].
  rewrite storeAt_end, res_bind_ret by (fold k; lia). cbn [withArena slots]. fold k. rewrite set_insert, res_bind_ret by done.
  set (ss' := <[p := Z.of_nat nr]> (slots idx)). cbn [withSlots withCount withArena withRecs nlive tombs curBytes].
  assert (rs1 !! nr = Some (fillRec (Z.of_nat (length (arena idx))) (Z.of_nat (length k)) (Z.of_nat p) e r0)) as Hr1
    by (unfold rs1; by rewrite alter_lookup, decide_True, Hr0 by done).
  assert (∀ i, i ≠ nr → rs1 !! i = recs idx !! i) as Hoth by (intros i Hi; unfold rs1; by rewrite alter_lookup, decide_False by done).
  assert (∀ i, i ∈ order → i ≠ nr) as Hne by (intros i Hi ->; done).
  match goal with |- context [lruPush ?x _] => set (idx1 := x) end.
  destruct (lruPush_spec idx1 nr order) as (rs2&t2&->&Hb&Hd).
  { eapply dll_agree; [exact H1|]. intros i Hi. by apply Hoth, Hne. }
  { done. } { change (recs idx1) with rs1. by rewrite Hr1. }
  change (recs idx1) with rs1 in Hb. destruct (bodies_lookup _ _ _ _ Hb Hr1) as (r2&Hr2&Hbody).
  assert (tbl ss' rs2 (arena idx ++ k) (nr :: order) (fun i => if decide (i = nr) then k else K i)) as Ht.
  { destruct Hbody as (B1&B2&B3&_). eapply (tbl_insert (slots idx) (recs idx) rs2 (arena idx) order K nr k d r2); try done; cbn in B1, B2, B3; try lia; try congruence.
    - intros i r Hi Hr. rewrite <- Hoth in Hr by (by apply Hne). destruct (bodies_lookup _ _ _ _ Hb Hr) as (r'&?&?%body_placed). eauto.
    - unfold maxKeyLen. lia. }
  assert (length rs2 = length (recs idx)) as Hlen by (rewrite <- (Forall2_length _ _ _ Hb); unfold rs1; by rewrite length_alter).
  eexists. split; [done|]. split; [|split].
  - constructor; cbn [withLinks withTail withHead withRecs withCount withSlots withArena idx1 slots recs arena head tail mask free nlive tombs curBytes maxBytes]; try done.
    + unfold ss'. by rewrite length_insert.
    + intros i r Hr. destruct (bodies_live _ _ _ _ Hb Hr) as (r'&Hr'&->). rewrite elem_of_cons. destruct (decide (i = nr)) as [->|Hi].
      * rewrite Hr1 in Hr'. injection Hr' as <-. cbn. split; [by left|done].
      * rewrite Hoth in Hr' by done. rewrite (H4 i r' Hr'). tauto.
    + intros z. rewrite H6, Hlen. split; intros (i&->&?&Hi&Hh); exists i; rewrite elem_of_cons in *.
      * split_and!; try done. intros [->|?]; done.
      * split_and!; try done; [tauto|]. intros [= ->]. tauto.
    + cbn [length]. lia.
    + pose proof (proj1 (taken_insert (slots idx) p (Z.of_nat nr) Hp)) as Htk. unfold ss'. lia.
    + unfold ss'. rewrite length_insert. lia.
    + rewrite H12. unfold costs. rewrite sumBy_cons. cbv beta. rewrite decide_True by done.
      replace (sumBy (fun i => cost (if decide (i = nr) then k else K i)) order) with (sumBy (fun i => cost (K i)) order).
      { unfold cost at 2. unfold recSize. lia. }
      clear - Hne. induction order as [|i order IH]; [done|]. rewrite !sumBy_cons. cbv beta. rewrite decide_False by (apply Hne; left).
      rewrite IH; [done|]. intros j Hj. apply Hne. by right.
    + unfold cost, recSize in *. lia.
  - unfold sizes. cbn [withLinks withTail withHead withRecs withCount withSlots withArena idx1 slots recs arena maxBytes]. by rewrite length_insert, Hlen.
  - unfold absOf. cbn [map]. rewrite decide_True by done. f_equal.
    + unfold eidAt. cbn [withLinks withTail withHead withRecs recs]. rewrite Hr2. destruct Hbody as (_&_&_&->&_). done.
    + apply absOf_ext; [intros i Hi; by rewrite decide_False by (by apply Hne)|]. intros i Hi. unfold eidAt.
      cbn [withLinks withTail withHead withRecs recs]. destruct (recs idx !! i) as [r|] eqn:E.
      * rewrite <- Hoth in E by (by apply Hne). destruct (bodies_lookup _ _ _ _ Hb E) as (r'&->&_&_&_&->&_). done.
      * apply lookup_ge_None in E. rewrite <- Hlen in E. by rewrite (proj2 (lookup_ge_None _ _) E).
Qed.

Lemma costs_length K l : 52 * Z.of_nat (length l) ≤ costs K l.
Proof.
  unfold costs. induction l as [|i l IH]; [done|]. rewrite sumBy_cons. unfold cost at 1. cbn [length]. lia.
Qed.

Lemma evict_elem {A} (c : A → Z) max inc l x : x ∈ evictBy c max inc l → x ∈ l.
Proof.
  induction l as [|y l IH] using rev_ind; [done|]. rewrite evictBy_snoc. destruct (_ >? _); [|done]. intros ?%IH. apply elem_of_app. by left.
Qed.

(** A new entity for a record that is there. *)
Lemma setEid_spec idx order K i e :
  ainv idx order K None → let idx' := withRecs idx (alter (fun rc => setEid rc e) i (recs idx)) in
  ainv idx' order K None ∧ ∀ j, is_Some (recs idx !! j) → eidAt idx' j = if decide (j = i) then e else eidAt idx j.
Proof.
  intros Hi. set (rs1 := alter _ i (recs idx)). cbv zeta.
  assert (∀ j r0, recs idx !! j = Some r0 → ∃ r', rs1 !! j = Some r' ∧ placed r0 r' ∧ live r' = live r0 ∧ prev r' = prev r0 ∧ next r' = next r0
    ∧ eid r' = if decide (j = i) then e else eid r0) as Hrs1.
  { intros j r0 Hj. unfold rs1. rewrite alter_lookup, Hj. destruct (decide (i = j)) as [->|].
    - rewrite decide_True by done. eexists. split; [done|by split_and!].
    - rewrite decide_False by done. exists r0. by split_and!. }
  assert (length rs1 = length (recs idx)) as Hl1 by (unfold rs1; by rewrite length_alter). split.
  - destruct Hi as [[D1 D2 D3 D4] T2 T3 T4 T5 T6 T7 T8 T9 T10 T11 T12 T13].
    constructor; cbn [withRecs slots recs arena head tail mask free nlive tombs curBytes maxBytes]; rewrite ?Hl1; try done.
    + constructor; try done. intros a' j b' E. destruct (D3 a' j b' E) as (r0&Hr0&?&?). destruct (Hrs1 j r0 Hr0) as (r'&?&_&_&?&?&_).
      exists r'. split_and!; [done|congruence|congruence].
    + eapply tbl_agree; [exact T2|done|]. intros j r0 _ Hr0. destruct (Hrs1 j r0 Hr0) as (r'&?&?&_). eauto.
    + intros j r' Hr'. destruct (lookup_lt_is_Some_2 (recs idx) j) as [r0 Hr0]; [rewrite <- Hl1; by eapply lookup_lt_Some|].
      destruct (Hrs1 j r0 Hr0) as (r1&Hr1'&_&El&_). rewrite Hr' in Hr1'. injection Hr1' as <-. rewrite El. by apply T4.
  - intros j [r0 Hr0]. unfold eidAt. cbn [withRecs recs]. destruct (Hrs1 j r0 Hr0) as (r'&->&_&_&_&_&->). by rewrite Hr0.
Qed.

Lemma reassign_spec idx K a i b e :
  ainv idx (a ++ i :: b) K None → (∀ j, j ∈ a ++ b → K j ≠ K i) → i :: a ++ b ≡ₚ a ++ i :: b →
  ∃ idx', (idx' ← updRec idx (Z.of_nat i) (fun rc => setEid rc e); touch idx' (Z.of_nat i)) = Ok idx'
    ∧ ainv idx' (i :: a ++ b) K None ∧ sizes idx' = sizes idx ∧ absOf idx' K (i :: a ++ b) = (K i, e) :: absOf idx K (a ++ b).
Proof.
  intros Hi Hk Hp. destruct (dll_links _ _ _ _ (ai_dll _ _ _ _ Hi) a i b eq_refl) as (r&Hr&_).
  rewrite updRec_spec, res_bind_ret by (by rewrite Hr). destruct (setEid_spec idx _ K i e Hi) as [Hi2 He].
  set (rs1 := alter _ i (recs idx)) in *. set (idx2 := withRecs idx rs1) in *.
  destruct (touchLru_spec idx2 a i b (ai_dll _ _ _ _ Hi2)) as (rs2&h2&t2&->&Hb&Hd).
  pose proof (ainv_links idx2 _ _ K None rs2 h2 t2 Hi2 Hb Hd Hp) as Hi3.
  exists (withLinks idx2 rs2 h2 t2). split_and!; [done|done| |].
  { unfold sizes. cbn [withLinks withTail withHead withRecs idx2 slots recs arena maxBytes]. rewrite <- (Forall2_length _ _ _ Hb).
    cbn [idx2 withRecs recs]. unfold rs1. by rewrite length_alter. }
  assert (∀ j, is_Some (recs idx !! j) → eidAt (withLinks idx2 rs2 h2 t2) j = if decide (j = i) then e else eidAt idx j) as He'.
  { intros j Hj. etransitivity; [exact (eidAt_bodies idx2 (withRecs idx2 rs2) j Hb)|]. by apply He. }
  cbn [absOf map]. rewrite He', decide_True by (done || by rewrite Hr). f_equal. apply absOf_ext; [done|]. intros j Hj.
  assert (j ∈ a ++ i :: b) as Hj' by (apply elem_of_app in Hj as [?|?]; apply elem_of_app; [by left|right; by right]).
  destruct (t_key _ _ _ _ _ (ai_tbl _ _ _ _ Hi) j Hj') as (rj&Hrj&_). rewrite He' by (by rewrite Hrj). rewrite decide_False; [done|].
  intros ->. by apply (Hk i Hj).
Qed.

Lemma order_le_recs idx order K held : ainv idx order K held → (length order ≤ length (recs idx))%nat.
Proof.
  intros Hi. rewrite <- (length_seq (length (recs idx)) 0). apply submseteq_length, NoDup_submseteq; [apply (dll_nodup _ _ _ _ (ai_dll _ _ _ _ Hi))|].
  intros i Hi0. destruct (t_key _ _ _ _ _ (ai_tbl _ _ _ _ Hi) i Hi0) as (r&Hr&_). apply elem_of_seq. apply lookup_lt_Some in Hr. lia.
Qed.

Lemma Put_spec idx order K A aid val e :
  ainv idx order K None → sized idx A → A + 4 + Z.of_nat (length val) < 2 ^ 31 →
  ∃ idx' order' K', Put idx aid val e = Ok idx' ∧ ainv idx' order' K' None
    ∧ sized idx' (A + 4 + Z.of_nat (length val)) ∧ maxBytes idx' = maxBytes idx
    ∧ absOf idx' K' order' = aPut (maxBytes idx) (absOf idx K order) (aidBytes aid ++ val) e.
Proof.
  intros Hi Hsz HA. pose proof (sized_small _ _ Hsz) as Hsm. destruct Hsz as (Hs1&Hs2&Hs3&Hs4&_). set (k := aidBytes aid ++ val).
  pose proof (costs_length K order) as Hcl. rewrite <- (ai_bytes _ _ _ _ Hi) in Hcl. pose proof (ai_budget _ _ _ _ Hi) as Hbg.
  pose proof (ai_nlive _ _ _ _ Hi) as Hnl.
  assert (Z.of_nat (length k) = 4 + Z.of_nat (length val)) as Elk by (unfold k; rewrite length_app, length_aidBytes; lia).
  unfold Put, aPut. cbv zeta. rewrite <- Elk. destruct (Z.of_nat (length k) >? maxKeyLen) eqn:Emax.
  { eexists _, order, K. split; [done|]. split; [by apply ainv_stats|]. split; [|done]. split_and!; cbn; lia. }
  destruct (makeRoom_spec idx order K Hi Hsm) as (idx1&->&Hi1&He1&Hm1&Hroom1&Hc1&Ha1&Hr1). rewrite res_bind_ret.
  assert (Z.of_nat (length (slots idx1)) ≤ 2 ^ 28) as Hc2 by (unfold minSlots in Hc1; lia). clear Hc1.
  assert (absOf idx1 K order = absOf idx K order) as Eabs by (apply absOf_ext; auto). rewrite <- Eabs, <- Hm1.
  assert (found idx1 order K k (findSlot idx1 aid val (fnv aid val))) as Hfound.
  { pose proof (ai_taken _ _ _ _ Hi1). apply findSlot_spec; [apply Hi1|apply Hi1|lia|lia]. }
  destruct Hfound as [(i&p&t&Hin&HK&->)|(Hno&d&t&Hop&->)]; rewrite res_bind_ret; cbv beta iota.
  - replace (Z.of_nat i >=? 0) with true by lia. destruct (order_split _ _ _ _ _ Hi1 Hin) as (a&b&->&Hk&Hp).
    destruct (aget_some idx1 K a i b Hk) as [Eg Ed]. rewrite HK in Eg, Ed. rewrite Eg, Ed.
    destruct (reassign_spec idx1 K a i b e Hi1 Hk Hp) as (idx'&->&Hi'&Hsz&El). exists idx', (i :: a ++ b), K.
    unfold sizes in Hsz. injection Hsz as Z1 Z2 Z3 Z4. rewrite HK in El. unfold sized. split_and!; try done; lia.
  - replace (-1 >=? 0) with false by done. destruct (aget_none idx1 K order k Hno) as [-> _].
    replace (Z.of_nat (length k) + 8 + recSize + 4) with (cost k) by (unfold cost, recSize; lia).
    destruct (Z.gtb_spec (cost k) (maxBytes idx1)) as [Hbig|Hfit].
    { eexists _, order, K. split; [done|]. split; [by apply ainv_stats|]. split; [|done]. split_and!; cbn; lia. }
    destruct (takeRec_spec idx1 order K Hi1) as (nr&idx2&->&Hi2&Hm2&He2&Hss2&Har2&Hn2&Htm2&Hr2); [lia|]. cbv beta iota.
    unfold evictUntilFits. pose proof (order_le_recs _ _ _ _ Hi2) as Hol.
    destruct (evictUntil_spec (S (length (recs idx2))) idx2 order K (Some nr) (cost k) Hi2) as (idx3&->&He3&Hi3); [lia|]. rewrite res_bind_ret.
    set (order3 := evictBy _ _ _ order) in *. pose proof He3 as [V1 V2 V3 V4 V5 V6 V7].
    assert (curBytes idx3 + cost k ≤ maxBytes idx3) as Hbud.
    { rewrite (ai_bytes _ _ _ _ Hi3), V1, Hm2. unfold costs. destruct (evictBy_sum (fun i => cost (K i)) (maxBytes idx2) (cost k) order) as [E|E].
      - intros i. unfold cost. lia.
      - fold order3 in E. rewrite E, sumBy_nil. lia.
      - fold order3 in E. lia. }
    assert (Z.of_nat (length (slots idx3)) = Z.of_nat (length (slots idx1))) as Esl by (rewrite V4, Hss2; done).
    destruct (insert_spec idx3 order3 K nr aid val e d) as (idx'&E&Hi'&Hsz&Eabs'); fold k; try done.
    + apply V5. by rewrite Hss2.
    + intros i Hi0. apply Hno. by eapply evict_elem.
    + lia.
    + lia.
    + rewrite V2, Har2. lia.
    + lia.
    + cbv zeta in E. fold k in E. rewrite V4, Hss2 in E.
      replace (4 + Z.of_nat (length val) + 8 + recSize + 4) with (cost k) in E by (unfold cost, recSize; lia). rewrite <- Elk in E.
      exists idx', (nr :: order3), (fun i => if decide (i = nr) then k else K i). fold k. split; [exact E|]. split; [done|].
      unfold sizes in Hsz. injection Hsz as Z1 Z2 Z3 Z4. rewrite length_app, V2, Har2 in Z3. cbn [length] in Z3. split; [|split].
      * split_and!; lia.
      * congruence.
      * etransitivity; [exact Eabs'|]. fold k. f_equal. unfold absOf. rewrite evictBy_map. cbn [fst]. rewrite <- Hm2. fold order3.
        apply map_ext_in. intros i Hi0%list_elem_of_In%evict_elem. by rewrite V6, He2.
Qed.

(** ** Runs of the index and of the recency list *)

Inductive aop : Type :=
| AProbe (aid : Z) (val : bytes)
| APut (aid : Z) (val : bytes) (e : Z)
| ADel (aid : Z) (val : bytes)
| AClear.

Definition stepA (idx : Index) (op : aop) : res (list (option Z) * Index) :=
  match op with
  | AProbe aid val => '(o, idx) ← Probe idx aid val; Ok ([o], idx)
  | APut aid val e => idx ← Put idx aid val e; Ok ([], idx)
  | ADel aid val => idx ← Del idx aid val; Ok ([], idx)
  | AClear => Ok ([], Clear idx)
  end.
Fixpoint runA (idx : Index) (ops : list aop) : res (list (option Z) * Index) :=
  match ops with
  | [] => Ok ([], idx)
  | op :: ops' => '(o, idx) ← stepA idx op; '(os, idx) ← runA idx ops'; Ok (o ++ os, idx)
  end.

(** The same over the list. *)
Definition stepL (max : Z) (l : list (bytes * Z)) (op : aop) : list (option Z) * list (bytes * Z) :=
  match op with
  | AProbe aid val => let '(o, l) := aProbe l (aidBytes aid ++ val) in ([o], l)
  | APut aid val e => ([], aPut max l (aidBytes aid ++ val) e)
  | ADel aid val => ([], adel l (aidBytes aid ++ val))
  | AClear => ([], [])
  end.
Fixpoint runL (max : Z) (l : list (bytes * Z)) (ops : list aop) : list (option Z) * list (bytes * Z) :=
  match ops with
  | [] => ([], l)
  | op :: ops' => let '(o, l) := stepL max l op in let '(os, l) := runL max l ops' in (o ++ os, l)
  end.

(** The key bytes a run appends at most. *)
Definition putBytes (ops : list aop) : Z :=
  sumBy (fun op => match op with APut _ val _ => 4 + Z.of_nat (length val) | _ => 0 end) ops.

Lemma empty_ainv idx ex :
  slots idx = replicate (2 ^ ex) emptySlot → mask idx = Z.of_nat (2 ^ ex) - 1 → nlive idx = 0 → tombs idx = 0 → recs idx = [] →
  free idx = [] → head idx = -1 → tail idx = -1 → curBytes idx = 0 → ainv idx [] (fun _ => []) None.
Proof.
  intros E1 E2 E3 E4 E5 E6 E7 E8 E9. assert (0 < 2 ^ ex)%nat by (apply Nat.neq_0_lt_0, Nat.pow_nonzero; lia).
  constructor; rewrite ?E1, ?E2, ?E3, ?E4, ?E5, ?E6, ?E7, ?E8, ?E9, ?length_replicate; try done; try lia.
  - constructor; try done; [|constructor]. intros a i b E. by destruct a.
  - constructor; rewrite ?length_replicate; [by exists ex| |by intros i ?%elem_of_nil|by intros i ?%elem_of_nil|by intros i j ?%elem_of_nil].
    intros p s [-> _]%lookup_replicate. by left.
  - constructor.
  - intros z. split; [intros ?%elem_of_nil; done|]. intros (i&_&Hi&_). cbn in Hi. lia.
  - rewrite taken_empty. lia.
Qed.

Lemma New_ainv m : ainv (New m) [] (fun _ => []) None.
Proof. by apply (empty_ainv _ 1). Qed.
Lemma Clear_ainv idx : ainv (Clear idx) [] (fun _ => []) None.
Proof. by apply (empty_ainv _ 10). Qed.

Lemma stepA_spec idx order K A op :
  ainv idx order K None → sized idx A → A + putBytes [op] < 2 ^ 31 →
  ∃ idx' order' K', stepA idx op = Ok ((stepL (maxBytes idx) (absOf idx K order) op).1, idx') ∧ ainv idx' order' K' None
    ∧ sized idx' (A + putBytes [op]) ∧ maxBytes idx' = maxBytes idx ∧ absOf idx' K' order' = (stepL (maxBytes idx) (absOf idx K order) op).2.
Proof.
  intros Hi Hsz HA. pose proof (sized_small _ _ Hsz) as Hsm. unfold putBytes in *. rewrite sumBy_cons, sumBy_nil in *.
  destruct op as [aid val|aid val e|aid val|]; cbn [stepA stepL] in *; rewrite ?Z.add_0_r in *.
  - destruct (Probe_spec idx order K aid val Hi Hsm) as (idx'&order'&->&Hi'&El&Es). rewrite res_bind_ret.
    exists idx', order', K. destruct (aProbe _ _) as [o l]. split_and!; [done|done|by eapply sized_same| |done].
    unfold sizes in Es. by injection Es.
  - destruct (Put_spec idx order K A aid val e Hi Hsz) as (idx'&order'&K'&->&Hi'&Hs'&Em&El); [lia|]. rewrite res_bind_ret.
    exists idx', order', K'. rewrite Z.add_assoc. by split_and!.
  - destruct (Del_spec idx order K aid val Hi Hsm) as (idx'&order'&->&Hi'&El&Es). rewrite res_bind_ret.
    exists idx', order', K. split_and!; [done|done|by eapply sized_same| |done]. unfold sizes in Es. by injection Es.
  - eexists _, _, _. split_and!; [done|apply Clear_ainv| |done|done]. destruct Hsz as (_&_&?&?&?). split_and!; cbn [Clear slots recs arena maxBytes length]; rewrite ?length_replicate; unfold minSlots; lia.
Qed.

Lemma putBytes_nonneg ops : 0 ≤ putBytes ops.
Proof. unfold putBytes. induction ops as [|[] ops IH]; rewrite ?sumBy_nil, ?sumBy_cons; cbv beta iota; lia. Qed.

Lemma runA_spec ops idx order K A :
  ainv idx order K None → sized idx A → A + putBytes ops < 2 ^ 31 →
  ∃ idx' order' K', runA idx ops = Ok ((runL (maxBytes idx) (absOf idx K order) ops).1, idx') ∧ ainv idx' order' K' None
    ∧ sized idx' (A + putBytes ops) ∧ maxBytes idx' = maxBytes idx ∧ absOf idx' K' order' = (runL (maxBytes idx) (absOf idx K order) ops).2.
Proof.
  revert idx order K A. induction ops as [|op ops IH]; intros idx order K A Hi Hsz HA.
  { exists idx, order, K. split_and!; try done. unfold putBytes. by rewrite sumBy_nil, Z.add_0_r. }
  assert (putBytes (op :: ops) = putBytes [op] + putBytes ops) as Ep by (unfold putBytes; rewrite !sumBy_cons, sumBy_nil; lia).
  pose proof (putBytes_nonneg ops). rewrite Ep, Z.add_assoc in *. cbn [runA runL].
  destruct (stepA_spec idx order K A op Hi Hsz) as (idx1&order1&K1&->&Hi1&Hs1&Em&El); [lia|]. rewrite res_bind_ret.
  destruct (stepL _ _ op) as [o l] eqn:Es. cbn [fst snd] in *. cbv beta iota.
  destruct (IH idx1 order1 K1 _ Hi1 Hs1) as (idx'&order'&K'&->&Hi'&Hs'&Em'&El'); [lia|]. rewrite res_bind_ret, El, Em in *.
  exists idx', order', K'. destruct (runL _ l ops) as [os l']. split_and!; [done|done|done|congruence|done].
Qed.

Lemma run_New m ops :
  Z.max 0 m + putBytes ops < 2 ^ 31 →
  ∃ idx order K, runA (New m) ops = Ok ((runL m [] ops).1, idx) ∧ ainv idx order K None
    ∧ small idx ∧ maxBytes idx = m ∧ absOf idx K order = (runL m [] ops).2.
Proof.
  intros Hm. pose proof (putBytes_nonneg ops).
  destruct (runA_spec ops (New m) [] (fun _ => []) (Z.max 0 m) (New_ainv m)) as (idx&order&K&E&Hi&Hs&Em&El); [split_and!; cbn; lia|done|].
  exists idx, order, K. split_and!; [done|done|by eapply sized_small|done|done].
Qed.

(** C24. The index refines a recency list with a byte budget: whatever probes,
    insertions, deletions and clearings come, as long as the budget and the key
    bytes appended stay below two gigabytes, no operation panics or loops, the
    probes answer what the list answers, and the index counts the entries and
    the bytes of the list and keeps them within the budget, across probe
    sequences with tombstones, slot reuse, rehashes and evictions. *)
Theorem anchor_refines_lru m ops :
  Z.max 0 m + putBytes ops < 2 ^ 31 →
  let '(answers, l) := runL m [] ops in
  ∃ idx, runA (New m) ops = Ok (answers, idx) ∧ Len idx = Z.of_nat (length l)
    ∧ curBytes idx = sumBy (fun p => cost p.1) l ∧ curBytes idx ≤ Z.max 0 m.
Proof.
  intros (idx&order&K&E&Hi&_&Em&El)%run_New. destruct (runL m [] ops) as [answers l]. cbn [fst snd] in *. exists idx. split_and!; [done| | |].
  - unfold Len. rewrite (ai_nlive _ _ _ _ Hi), <- El. unfold absOf. by rewrite length_map.
  - rewrite (ai_bytes _ _ _ _ Hi), <- El. unfold absOf, costs. by rewrite sumBy_map.
  - rewrite <- Em. apply Hi.
Qed.

(** The entity last put for a key and not deleted since. *)
Definition lastPut (ops : list aop) (k : bytes) : option Z :=
  fold_left (fun cur op => match op with
    | AProbe _ _ => cur
    | APut aid val e => if decide (aidBytes aid ++ val = k) then Some e else cur
    | ADel aid val => if decide (aidBytes aid ++ val = k) then None else cur
    | AClear => None
    end) ops None.

Lemma lastPut_snoc ops op k :
  lastPut (ops ++ [op]) k = match op with
    | AProbe _ _ => lastPut ops k
    | APut aid val e => if decide (aidBytes aid ++ val = k) then Some e else lastPut ops k
    | ADel aid val => if decide (aidBytes aid ++ val = k) then None else lastPut ops k
    | AClear => None
    end.
Proof. unfold lastPut. by rewrite fold_left_app. Qed.

Lemma runL_app max l ops ops' :
  runL max l (ops ++ ops') = ((runL max l ops).1 ++ (runL max (runL max l ops).2 ops').1, (runL max (runL max l ops).2 ops').2).
Proof.
  revert l. induction ops as [|op ops IH]; intros l; cbn [app runL fst snd]; [by destruct (runL max l ops')|].
  destruct (stepL max l op) as [o l1]. rewrite IH. destruct (runL max l1 ops) as [os l2]. cbn [fst snd]. by rewrite app_assoc.
Qed.

Lemma aget_elem l k e : aget l k = Some e → (k, e) ∈ l.
Proof.
  induction l as [|[k' e'] l IH]; [done|]. cbn [aget]. destruct (decide _) as [->|_]; [intros [= ->]; left|]. right. by apply IH.
Qed.

(** Every entry of the list is the last one put. *)
Lemma runL_current max ops k e :
  (k, e) ∈ (runL max [] ops).2 → lastPut ops k = Some e ∧ (Z.of_nat (length k) >? maxKeyLen) = false.
Proof.
  revert k e. induction ops as [|op ops IH] using rev_ind; intros k e; [by intros ?%elem_of_nil|].
  rewrite runL_app, lastPut_snoc. destruct (runL max [] ops) as [os l]. cbn [fst snd runL] in *.
  destruct op as [aid val|aid val e'|aid val|]; cbn [stepL].
  - unfold aProbe. destruct (aget l _) as [e'|] eqn:Eg; cbn [snd]; [|apply IH]. intros [[= -> ->]|Hin]%elem_of_cons.
    + by apply IH, aget_elem.
    + by apply list_elem_of_filter in Hin as [_ ?%IH].
  - cbn [snd]. unfold aPut. set (k0 := aidBytes aid ++ val). destruct (_ >? maxKeyLen) eqn:E1.
    { intros [Hin Hl]%IH. rewrite decide_False; [done|]. congruence. }
    destruct (aget l k0) as [e0|] eqn:Eg.
    + intros [[= -> ->]|[Hk Hin]%list_elem_of_filter]%elem_of_cons; [by rewrite decide_True|].
      rewrite decide_False by (intros <-; by apply Hk). by apply IH.
    + assert (∀ e1, (k0, e1) ∉ l) as Hno.
      { intros e1 Hin. clear - Eg Hin. induction l as [|[k1 e2] l IH]; [by apply elem_of_nil in Hin|]. cbn [aget] in Eg.
        destruct (decide _) as [|Hne]; [done|]. apply elem_of_cons in Hin as [[= -> ->]|Hin]; [done|by apply IH]. }
      destruct (cost k0 >? max).
      { intros Hin. rewrite decide_False; [by apply IH|]. intros <-. by apply (Hno e). }
      intros [[= -> ->]|Hin%evict_elem]%elem_of_cons; [by rewrite decide_True|].
      rewrite decide_False; [by apply IH|]. intros <-. by apply (Hno e).
  - cbn [snd]. intros [Hk Hin]%list_elem_of_filter. rewrite decide_False by (intros <-; by apply Hk). by apply IH.
  - by intros ?%elem_of_nil.
Qed.

(** A hit is never stale: after any run whose key bytes stay below two
    gigabytes a probe succeeds, and when it finds an entity, it is the one of the
    last insertion of that very attribute and value, with no deletion or clearing
    since. *)
Theorem anchor_hit_current m ops aid val :
  Z.max 0 m + putBytes ops < 2 ^ 31 →
  ∃ answers idx o idx', runA (New m) ops = Ok (answers, idx) ∧ Probe idx aid val = Ok (o, idx')
    ∧ ∀ e, o = Some e → lastPut ops (aidBytes aid ++ val) = Some e.
Proof.
  intros (idx&order&K&E&Hi&Hs&_&El)%run_New. destruct (Probe_spec idx order K aid val Hi Hs) as (idx'&_&Ep&_).
  eexists _, idx, _, idx'. split_and!; [exact E|exact Ep|]. intros e. rewrite El. unfold aProbe.
  destruct (aget _ _) as [e'|] eqn:Eg; [|done]. cbn. intros [= ->]. by apply (runL_current m), aget_elem.
Qed.

(** A budget of two entries: the third evicts the least recent one. *)
Definition sampleOps : list aop :=
  [APut 7 [1; 2] 100; APut 7 [3; 4] 101; AProbe 7 [1; 2]; APut 8 [1; 2] 102; AProbe 7 [3; 4]; AProbe 7 [1; 2]; APut 7 [1; 2] 103;
   ADel 8 [1; 2]; AProbe 8 [1; 2]; AProbe 7 [1; 2]].

Lemma anchor_refines_lru_witness :
  ∃ idx, runA (New 130) sampleOps = Ok ([Some 100; None; Some 100; None; Some 103], idx) ∧ Len idx = 1 ∧ curBytes idx = 58 ∧ curBytes idx ≤ 130.
Proof. exact (anchor_refines_lru 130 sampleOps eq_refl). Defined.

Lemma anchor_hit_current_witness :
  ∃ answers idx o idx', runA (New 130) sampleOps = Ok (answers, idx) ∧ Probe idx 7 [1; 2] = Ok (o, idx')
    ∧ ∀ e, o = Some e → lastPut sampleOps (aidBytes 7 ++ [1; 2]) = Some e.
Proof. exact (anchor_hit_current 130 sampleOps 7 [1; 2] eq_refl). Defined.
