(* ===== verification/Resolver.v ===== *)
(** * The schema resolver (go/internal/eavt/resolver.go)

    Attribute names and identifiers, value types, cardinality and uniqueness,
    and the allocation of entity identifiers in partitions. Allocation is proved
    never to give an identifier twice, and the name tables to stay in step. *)

From S2P Require Import Prelude Sexpr Keys.

(** ** Definitions *)

Definition BootstrapFirstUserID : Z := 100.

Definition DbIdentAid : Z := 1.
Definition DbCardinalityAid : Z := 2.
Definition DbValueTypeAid : Z := 3.
Definition DbUniqueAid : Z := 5.
Definition DbIndexAid : Z := 6.
Definition DbTxInstantAid : Z := 9.
Definition DbPartIDAid : Z := 39.

Definition DbCardinalityOneAid : Z := 35.
Definition DbCardinalityManyAid : Z := 36.
Definition DbUniqueValueAid : Z := 37.
Definition DbUniqueIdentityAid : Z := 38.

Definition PartDb : Z := 0.
Definition PartTx : Z := 3.
Definition PartUser : Z := 4.

Definition firstCustomPartition : Z := 64.
Definition partitionShift : Z := 44.
Definition seqMask : Z := 0xFFFFFFFFFFF.

Definition BootstrapSchema : list (bytes * Z) :=
  [(bs "db/ident", 1); (bs "db/cardinality", 2); (bs "db/valueType", 3);
   (bs "db/isComponent", 4); (bs "db/unique", 5); (bs "db/index", 6);
   (bs "db/fulltext", 7); (bs "db/noHistory", 8); (bs "db/txInstant", 9);
   (bs "db/type/string", 20); (bs "db/type/ref", 21); (bs "db/type/long", 22);
   (bs "db/type/keyword", 23); (bs "db/type/boolean", 24); (bs "db/type/instant", 25);
   (bs "db/type/bytes", 26); (bs "db/type/float", 27); (bs "db/type/blob", 28);
   (bs "db/cardinality/one", 35); (bs "db/cardinality/many", 36);
   (bs "db/unique/value", 37); (bs "db/unique/identity", 38);
   (bs "db.part/id", 39); (bs "db.part/db", 40); (bs "db.part/tx", 41);
   (bs "db.part/user", 42)].

Definition PartitionOf (eid : Z) : Z := Z.shiftr (u64 eid) partitionShift.
Definition SeqOf (eid : Z) : Z := Z.land (u64 eid) seqMask.
Definition MakeEntityID (partitionID seq : Z) : Z :=
  i64 (Z.lor (u64 (Z.shiftl partitionID partitionShift)) (u64 seq)).

(** [strings.Contains] of one byte. *)
Definition containsByte (c : Z) (s : bytes) : bool := existsb (Z.eqb c) s.

Definition NormalizeAttr (name : bytes) : res bytes :=
  match name with
  | 58 :: rest =>
      if negb (containsByte 47 name) then Err "attribute keyword must be namespaced" else Ok rest
  | _ =>
      if containsByte 46 name && negb (containsByte 47 name)
      then Ok (map (fun c => if c =? 46 then 47 else c) name)
      else if containsByte 47 name then Ok name
      else Err "attribute name must include namespace"
  end.

(** A Go map to [bool] that only holds [true] is a set. [partitions] gives the
    next sequence number of each partition. *)
Record Resolver : Type := mkResolver {
  attrs : gmap bytes Z;
  attrsRev : gmap Z bytes;
  nextAid : Z;
  partitions : gmap Z Z;
  partitionNames : gmap bytes Z;
  nextCustomPartition : Z;
  cardinality : gset Z;
  declared : gset Z;
  valueTypes : gmap Z Z;
  uniqueAttrs : gset Z;
  indexedAttrs : gset Z;
  AttrDeclOrder : list bytes;
  PartDeclOrder : list bytes;
}.

Section updates.
Implicit Types r : Resolver.

Definition withName r (name : bytes) (aid : Z) : Resolver :=
  mkResolver (<[name := aid]> (attrs r)) (<[aid := name]> (attrsRev r)) (nextAid r) (partitions r) (partitionNames r)
    (nextCustomPartition r) (cardinality r) (declared r) (valueTypes r) (uniqueAttrs r) (indexedAttrs r)
    (AttrDeclOrder r) (PartDeclOrder r).
Definition withNextAid r (n : Z) : Resolver :=
  mkResolver (attrs r) (attrsRev r) n (partitions r) (partitionNames r) (nextCustomPartition r) (cardinality r)
    (declared r) (valueTypes r) (uniqueAttrs r) (indexedAttrs r) (AttrDeclOrder r) (PartDeclOrder r).
Definition withPartitions r (ps : gmap Z Z) : Resolver :=
  mkResolver (attrs r) (attrsRev r) (nextAid r) ps (partitionNames r) (nextCustomPartition r) (cardinality r)
    (declared r) (valueTypes r) (uniqueAttrs r) (indexedAttrs r) (AttrDeclOrder r) (PartDeclOrder r).
Definition withPartName r (name : bytes) (p next : Z) (order : list bytes) : Resolver :=
  mkResolver (attrs r) (attrsRev r) (nextAid r) (partitions r) (<[name := p]> (partitionNames r)) next (cardinality r)
    (declared r) (valueTypes r) (uniqueAttrs r) (indexedAttrs r) (AttrDeclOrder r) order.
Definition withCardinality r (c : gset Z) : Resolver :=
  mkResolver (attrs r) (attrsRev r) (nextAid r) (partitions r) (partitionNames r) (nextCustomPartition r) c
    (declared r) (valueTypes r) (uniqueAttrs r) (indexedAttrs r) (AttrDeclOrder r) (PartDeclOrder r).
Definition withDeclared r (aid vt : Z) : Resolver :=
  mkResolver (attrs r) (attrsRev r) (nextAid r) (partitions r) (partitionNames r) (nextCustomPartition r) (cardinality r)
    ({[aid]} ∪ declared r) (<[aid := vt]> (valueTypes r)) (uniqueAttrs r) (indexedAttrs r) (AttrDeclOrder r) (PartDeclOrder r).
Definition withUnique r (u : gset Z) : Resolver :=
  mkResolver (attrs r) (attrsRev r) (nextAid r) (partitions r) (partitionNames r) (nextCustomPartition r) (cardinality r)
    (declared r) (valueTypes r) u (indexedAttrs r) (AttrDeclOrder r) (PartDeclOrder r).
Definition withIndexed r (i : gset Z) : Resolver :=
  mkResolver (attrs r) (attrsRev r) (nextAid r) (partitions r) (partitionNames r) (nextCustomPartition r) (cardinality r)
    (declared r) (valueTypes r) (uniqueAttrs r) i (AttrDeclOrder r) (PartDeclOrder r).
Definition withOrder r (o : list bytes) : Resolver :=
  mkResolver (attrs r) (attrsRev r) (nextAid r) (partitions r) (partitionNames r) (nextCustomPartition r) (cardinality r)
    (declared r) (valueTypes r) (uniqueAttrs r) (indexedAttrs r) o (PartDeclOrder r).

(** *** The bootstrap schema *)

Definition bootstrapValueType (name : bytes) : Z :=
  if bool_decide (name = bs "db/ident") || bool_decide (name = bs "db.part/id") then DbTypeString
  else if bool_decide (name = bs "db/txInstant") then DbTypeInstant
  else if bool_decide (name = bs "db/isComponent") || bool_decide (name = bs "db/index")
       || bool_decide (name = bs "db/fulltext") || bool_decide (name = bs "db/noHistory") then DbTypeBoolean
  else if has_prefix name (bs "db.type/") then DbTypeLong
  else DbTypeRef.

Definition bootstrapName r (s : bytes * Z) : Resolver :=
  let r := withName r s.1 s.2 in
  let r := mkResolver (attrs r) (attrsRev r) (nextAid r) (partitions r) (partitionNames r) (nextCustomPartition r)
             (cardinality r) ({[s.2]} ∪ declared r) (valueTypes r) (uniqueAttrs r) (indexedAttrs r) (AttrDeclOrder r)
             (PartDeclOrder r) in
  if s.2 >=? nextAid r then withNextAid r (u32 (s.2 + 1)) else r.

Definition bootstrapTypes (vts : gmap Z Z) : gmap Z Z :=
  fold_left (fun m s => match m !! s.2 with Some _ => m | None => <[s.2 := bootstrapValueType s.1]> m end) BootstrapSchema vts.

Definition NewResolver : Resolver :=
  let r := fold_left bootstrapName BootstrapSchema
             (mkResolver ∅ ∅ 1 ∅ ∅ firstCustomPartition ∅ ∅ ∅ ∅ ∅ [] []) in
  mkResolver (attrs r) (attrsRev r) (nextAid r)
    {[PartDb := BootstrapFirstUserID; PartTx := 1; PartUser := 1]}
    {[bs "db.part/db" := PartDb; bs "db.part/tx" := PartTx; bs "db.part/user" := PartUser]}
    (nextCustomPartition r) (cardinality r) (declared r)
    (bootstrapTypes {[DbValueTypeAid := DbTypeRef; DbCardinalityAid := DbTypeRef; DbUniqueAid := DbTypeRef;
                      DbIdentAid := DbTypeString; DbPartIDAid := DbTypeLong; DbTxInstantAid := DbTypeInstant]})
    (uniqueAttrs r) {[DbIdentAid]} [] [].

(** *** Allocation *)

Definition allocateInPartitionLocked r (partitionID : Z) : res (Z * Resolver) :=
  match partitions r !! partitionID with
  | None => Err "unknown partition"
  | Some seq => Ok (MakeEntityID partitionID seq, withPartitions r (<[partitionID := i64 (seq + 1)]> (partitions r)))
  end.
Definition AllocateInPartition r (partitionID : Z) : res (Z * Resolver) := allocateInPartitionLocked r partitionID.
Definition AllocateEntityID r : res (Z * Resolver) := allocateInPartitionLocked r PartUser.
Definition AllocateSchemaID r : res (Z * Resolver) := allocateInPartitionLocked r PartDb.

Definition PartitionIDFor r (name : bytes) : option Z := partitionNames r !! name.

Definition DeclarePartition r (name : bytes) : Z * Resolver :=
  match partitionNames r !! name with
  | Some p => (p, r)
  | None =>
      let p := nextCustomPartition r in
      let r := withPartitions r (<[p := 1]> (partitions r)) in
      (p, withPartName r name p (u64 (nextCustomPartition r + 1)) (PartDeclOrder r ++ [name]))
  end.

Definition RegisterPartition r (name : bytes) (partitionID : Z) : Resolver :=
  match partitionNames r !! name with
  | Some _ => r
  | None =>
      let r := match partitions r !! partitionID with
               | Some _ => r
               | None => withPartitions r (<[partitionID := 1]> (partitions r))
               end in
      let next := if (partitionID >=? firstCustomPartition) && (partitionID >=? nextCustomPartition r)
                  then u64 (partitionID + 1) else nextCustomPartition r in
      withPartName r name partitionID next (PartDeclOrder r)
  end.

Definition DefaultUserPartition : Z := PartUser.

Definition KnownPartitions r : list Z := merge_sort Z.le (elements (dom (partitions r))).

(** *** Attributes *)

Definition LookupAttr r (name : bytes) : option Z :=
  match NormalizeAttr name with Ok n => attrs r !! n | _ => None end.

Definition IsDeclared r (aid : Z) : bool := bool_decide (aid ∈ declared r).

Definition InternAttr r (name : bytes) : res (Z * Resolver) :=
  n ← NormalizeAttr name;
  match attrs r !! n with
  | Some a => Ok (a, r)
  | None =>
      '(eid, r) ← allocateInPartitionLocked r PartDb;
      let aid := u32 eid in
      Ok (aid, withName (withNextAid r (u32 (aid + 1))) n aid)
  end.

Definition isDeclaredName r (n : bytes) : option Z :=
  match attrs r !! n with
  | Some a => if bool_decide (a ∈ declared r) then Some a else None
  | None => None
  end.

Definition DeclareAttr r (name : bytes) (valueType : Z) (many : bool) : res (Z * bool * Resolver) :=
  n ← NormalizeAttr name;
  match isDeclaredName r n with
  | Some a => Ok (a, false, r)
  | None =>
      '(seq, r) ← allocateInPartitionLocked r PartDb;
      let aid := u32 seq in
      let r := withDeclared (withName (withNextAid r (u32 (aid + 1))) n aid) aid valueType in
      let r := if many then withCardinality r ({[aid]} ∪ cardinality r) else r in
      Ok (aid, true, withOrder r (AttrDeclOrder r ++ [n]))
  end.

Definition ValueTypeFor r (aid : Z) : option Z := valueTypes r !! aid.

(** [fmt.Sprintf] of an unsigned number. *)
Fixpoint formatDigits (fuel : nat) (n : Z) : bytes :=
  match fuel with
  | O => []
  | S fuel' => if n <? 10 then [48 + n] else formatDigits fuel' (n / 10) ++ [48 + n mod 10]
  end.
Definition FormatUint (n : Z) : bytes := formatDigits 20 n.

Definition AttrName r (aid : Z) : bytes := match attrsRev r !! aid with Some n => n | None => FormatUint aid end.
Definition AttrNameOpt r (aid : Z) : option bytes := attrsRev r !! aid.

Definition IsMany r (aid : Z) : bool := bool_decide (aid ∈ cardinality r).
Definition SetCardinality r (aid : Z) (many : bool) : Resolver :=
  withCardinality r (if many then {[aid]} ∪ cardinality r else cardinality r ∖ {[aid]}).

Definition IsUnique r (aid : Z) : bool := bool_decide (aid ∈ uniqueAttrs r).
Definition SetUnique r (aid : Z) (unique : bool) : Resolver :=
  withUnique r (if unique then {[aid]} ∪ uniqueAttrs r else uniqueAttrs r ∖ {[aid]}).

Definition IsIndexed r (aid : Z) : bool := bool_decide (aid ∈ uniqueAttrs r) || bool_decide (aid ∈ indexedAttrs r).
Definition SetIndexed r (aid : Z) (indexed : bool) : Resolver :=
  withIndexed r (if indexed then {[aid]} ∪ indexedAttrs r else indexedAttrs r ∖ {[aid]}).

Definition AdvancePast r (eid : Z) : Resolver :=
  match partitions r !! PartitionOf eid with
  | Some next => if SeqOf eid >=? next then withPartitions r (<[PartitionOf eid := SeqOf eid + 1]> (partitions r)) else r
  | None => r
  end.

Definition SetPartitionSeq r (partitionID seq : Z) : Resolver :=
  match partitions r !! partitionID with
  | Some next => if seq >? next then withPartitions r (<[partitionID := seq]> (partitions r)) else r
  | None => r
  end.

Definition NextEntID r : Z := match partitions r !! PartDb with Some n => n | None => BootstrapFirstUserID end.

Definition AttrsSnapshot r : gmap bytes Z := attrs r.

Definition loadAttr r (kv : bytes * bytes) : Resolver :=
  match kv.2 with
  | v0 :: v1 :: v2 :: v3 :: _ =>
      let aid := Z.lor (Z.lor (Z.lor (Z.shiftl v0 24) (Z.shiftl v1 16)) (Z.shiftl v2 8)) v3 in
      let r := withName r kv.1 aid in
      if aid >=? nextAid r then withNextAid r (u32 (aid + 1)) else r
  | _ => r
  end.
Definition LoadAttrs r (items : list (bytes * bytes)) : Resolver := fold_left loadAttr items r.

(** Before the first name with a greater identifier. *)
Fixpoint insertOrdered (m : gmap bytes Z) (aid : Z) (name : bytes) (order : list bytes) : list bytes :=
  match order with
  | [] => [name]
  | n :: order' => if default 0 (m !! n) >? aid then name :: order else n :: insertOrdered m aid name order'
  end.

Definition LoadUserAttr r (name : bytes) (eid valueType : Z) (many unique indexed : bool) : Resolver :=
  let aid := u32 eid in
  let isNew := negb (bool_decide (aid ∈ declared r)) in
  let r := withDeclared (withName r name aid) aid valueType in
  let r := if many then withCardinality r ({[aid]} ∪ cardinality r) else r in
  let r := if unique then withUnique r ({[aid]} ∪ uniqueAttrs r) else r in
  let r := if indexed then withIndexed r ({[aid]} ∪ indexedAttrs r) else r in
  let r := if isNew then withOrder r (insertOrdered (attrs r) aid name (AttrDeclOrder r)) else r in
  let r := AdvancePast r eid in
  if aid >=? nextAid r then withNextAid r (u32 (aid + 1)) else r.
End updates.

(** ** Identifiers *)

Lemma lor_disjoint a b n : 0 < n → 0 ≤ b < 2 ^ n → Z.lor (Z.shiftl a n) b = a * 2 ^ n + b.
Proof.
  intros Hn Hb. rewrite <- Z.add_lor_land, Z.shiftl_mul_pow2 by lia.
  replace (Z.land (a * 2 ^ n) b) with 0; [lia|]. symmetry. apply Z.bits_inj'. intros i Hi. rewrite Z.land_spec, Z.bits_0.
  destruct (Z.lt_ge_cases i n) as [Hlt|Hge].
  - by rewrite Z.mul_pow2_bits_low.
  - rewrite (Z.bits_above_log2 b); [by rewrite andb_false_r|lia|]. destruct (Z.eq_dec b 0) as [->|]; [cbn; lia|].
    apply Z.log2_lt_pow2; [lia|]. eapply Z.lt_le_trans; [apply Hb|]. apply Z.pow_le_mono_r; lia.
Qed.

Definition id_range (p s : Z) : Prop := 0 ≤ p < 2 ^ 19 ∧ 0 ≤ s < 2 ^ 44.

#[export] Instance id_range_dec p s : Decision (id_range p s).
Proof. unfold id_range. apply _. Defined.

Lemma MakeEntityID_eq p s : id_range p s → MakeEntityID p s = p * 2 ^ 44 + s.
Proof.
  intros [Hp Hs]. unfold MakeEntityID, partitionShift, u64.
  assert (0 ≤ Z.shiftl p 44 < 2 ^ 64) by (rewrite Z.shiftl_mul_pow2; lia).
  rewrite (Z.mod_small (Z.shiftl p 44)), (Z.mod_small s), lor_disjoint by lia.
  unfold i64. rewrite Z.mod_small by lia. lia.
Qed.

Lemma entity_id_parts p s : id_range p s → PartitionOf (MakeEntityID p s) = p ∧ SeqOf (MakeEntityID p s) = s.
Proof.
  intros H. rewrite MakeEntityID_eq by done. destruct H as [Hp Hs]. unfold PartitionOf, SeqOf, u64, partitionShift.
  rewrite Z.mod_small by lia. change seqMask with (Z.ones 44). rewrite Z.land_ones, Z.shiftr_div_pow2 by lia.
  rewrite Z.div_add_l, Z.div_small by lia. split; [lia|]. by rewrite Z.add_comm, Z.mod_add, Z.mod_small by lia.
Qed.

Lemma seq_nonneg eid : 0 ≤ SeqOf eid < 2 ^ 44.
Proof. unfold SeqOf. change seqMask with (Z.ones 44). rewrite Z.land_ones by lia. apply Z.mod_pos_bound. lia. Qed.

(** ** The resolver as a machine *)

Inductive rop : Type :=
| RAlloc (p : Z)
| RIntern (name : bytes)
| RDeclare (name : bytes) (vt : Z) (many : bool)
| RDeclPart (name : bytes)
| RRegPart (name : bytes) (p : Z)
| RAdvance (eid : Z)
| RSetSeq (p s : Z)
| RLoad (name : bytes) (eid vt : Z) (many unique indexed : bool)
| RUnique (aid : Z) (b : bool)
| RIndexed (aid : Z) (b : bool)
| RCard (aid : Z) (many : bool)
| RLoadAttrs (items : list (bytes * bytes)).

(** The identifier of a pair [LoadAttrs] takes; the others are skipped. *)
Definition loadedAid (kv : bytes * bytes) : option Z :=
  match kv.2 with v0 :: v1 :: v2 :: v3 :: _ => Some (Z.lor (Z.lor (Z.lor (Z.shiftl v0 24) (Z.shiftl v1 16)) (Z.shiftl v2 8)) v3) | _ => None end.

(** The identifiers a step gives out or is told about, and the new state; an
    error changes nothing. *)
Definition stepR (r : Resolver) (o : rop) : list Z * Resolver :=
  match o with
  | RAlloc p => match AllocateInPartition r p with Ok (id, r') => ([id], r') | _ => ([], r) end
  | RIntern n => match InternAttr r n with Ok (aid, r') => ([aid], r') | _ => ([], r) end
  | RDeclare n vt many => match DeclareAttr r n vt many with Ok (aid, _, r') => ([aid], r') | _ => ([], r) end
  | RDeclPart n => ([], (DeclarePartition r n).2)
  | RRegPart n p => ([], RegisterPartition r n p)
  | RAdvance e => (match partitions r !! PartitionOf e with Some _ => [e] | None => [] end, AdvancePast r e)
  | RSetSeq p s => ([], SetPartitionSeq r p s)
  | RLoad n eid vt many unique indexed => ([eid], LoadUserAttr r n eid vt many unique indexed)
  | RUnique aid b => ([], SetUnique r aid b)
  | RIndexed aid b => ([], SetIndexed r aid b)
  | RCard aid many => ([], SetCardinality r aid many)
  | RLoadAttrs items => (omap loadedAid items, LoadAttrs r items)
  end.

(** Counters have not run into the bits of the partition, and identifiers of
    attributes fit 32 bits. *)
Definition inRange (r : Resolver) : Prop :=
  map_Forall (fun p s => id_range p s ∧ (p = PartDb → s < 2 ^ 32)) (partitions r).

#[export] Instance inRange_dec r : Decision (inRange r).
Proof. unfold inRange. apply _. Defined.

(** The identifiers the schema has counted to. *)
Definition counted (r : Resolver) (aid : Z) : Prop := ∃ next, partitions r !! PartDb = Some next ∧ 0 ≤ aid < next.

(** Pairs for [LoadAttrs], which leaves the counter alone: identifiers below it, and no
    name or identifier of another attribute. *)
Fixpoint loadsOk (r : Resolver) (items : list (bytes * bytes)) : Prop :=
  match items with
  | [] => True
  | kv :: items' =>
      (∀ aid, loadedAid kv = Some aid → counted r aid ∧ default kv.1 (attrsRev r !! aid) = kv.1) ∧ loadsOk (loadAttr r kv) items'
  end.

(** A loaded attribute is a schema entity, and its name and identifier are not
    those of another one; a cardinality is set for an identifier of the schema. *)
Definition rop_ok (r : Resolver) (o : rop) : Prop :=
  match o with
  | RLoad n eid _ _ _ _ => 0 ≤ eid < 2 ^ 32 ∧ default eid (attrs r !! n) = eid ∧ default n (attrsRev r !! eid) = n
  | RCard aid many => many = true → counted r aid
  | RLoadAttrs items => loadsOk r items
  | _ => True
  end.

Inductive rreach : list Z → Resolver → Prop :=
| RInit : rreach [] NewResolver
| RStep used r o ids r' :
    rreach used r → rop_ok r o → stepR r o = (ids, r') → inRange r' → rreach (used ++ ids) r'.

Record rinv (used : list Z) (r : Resolver) : Prop := {
  ri_range : inRange r;
  ri_used : ∀ id, id ∈ used → ∃ next, partitions r !! PartitionOf id = Some next ∧ SeqOf id < next;
  ri_parts : ∀ p s, partitions r !! p = Some s → p < nextCustomPartition r;
  ri_next : 64 ≤ nextCustomPartition r;
  ri_db : ∃ next, partitions r !! PartDb = Some next ∧ 100 ≤ next
     ∧ (∀ a n, attrsRev r !! a = Some n → 0 ≤ a < next) ∧ (∀ a, a ∈ declared r ∪ cardinality r → 0 ≤ a < next);
  ri_names : ∀ n a, attrs r !! n = Some a → attrsRev r !! a = Some n;
  ri_types : ∀ a, a ∈ declared r → is_Some (valueTypes r !! a);
}.

Lemma small_id a : 0 ≤ a < 2 ^ 32 → PartitionOf a = PartDb ∧ SeqOf a = a.
Proof.
  intros Ha. destruct (entity_id_parts 0 a) as [H1 H2]; [split; lia|]. rewrite MakeEntityID_eq in H1, H2 by (split; lia).
  by rewrite Z.mul_0_l, Z.add_0_l in H1, H2.
Qed.

Ltac check_map :=
  match goal with |- map_Forall ?P ?m => refine (proj1 (bool_decide_eq_true (map_Forall P m)) _); vm_compute; reflexivity end.

Lemma new_inv : rinv [] NewResolver.
Proof.
  assert (map_Forall (fun n a => attrsRev NewResolver !! a = Some n) (attrs NewResolver)) as Hn by check_map.
  assert (map_Forall (fun a _ => 0 ≤ a < 100) (attrsRev NewResolver)) as Ha by check_map.
  assert (map_Forall (fun p _ => p < 64) (partitions NewResolver)) as Hp by check_map.
  assert (set_Forall (fun a => 0 ≤ a < 100 ∧ is_Some (valueTypes NewResolver !! a)) (declared NewResolver)) as Hd.
  { apply (proj1 (bool_decide_eq_true (set_Forall _ _))). vm_compute. reflexivity. }
  constructor.
  - unfold inRange. check_map.
  - intros id ?%elem_of_nil. done.
  - intros p s E. by apply (Hp p s).
  - done.
  - exists 100. split_and!; [by vm_compute|done| |]; [intros a n E; by apply (Ha a n)|].
    intros a [Hin|Hin]%elem_of_union; [by apply Hd|]. by apply elem_of_empty in Hin.
  - exact Hn.
  - intros a Hin. by apply Hd.
Qed.

(** *** Steps keep the invariant *)

Definition grows (r r' : Resolver) : Prop :=
  ∀ p s, partitions r !! p = Some s → ∃ s', partitions r' !! p = Some s' ∧ s ≤ s'.

Definition sameNames (r r' : Resolver) : Prop :=
  attrs r' = attrs r ∧ attrsRev r' = attrsRev r ∧ declared r' = declared r ∧ cardinality r' = cardinality r
  ∧ valueTypes r' = valueTypes r.

Definition known (r : Resolver) (id : Z) : Prop :=
  ∃ next, partitions r !! PartitionOf id = Some next ∧ SeqOf id < next.

Lemma rinv_counters used ids r r' :
  rinv used r → grows r r' → sameNames r r' → inRange r' → (∀ p s, partitions r' !! p = Some s → p < nextCustomPartition r') →
  64 ≤ nextCustomPartition r' → (∀ id, id ∈ ids → known r' id) → rinv (used ++ ids) r'.
Proof.
  intros [H1 H2 H3 H4 (next&Hdb&Hn&Ha&Hd) H6 H7] Hg (E1&E2&E3&E4&E5) Hr Hp Hnx Hids.
  constructor; rewrite ?E1, ?E2, ?E3, ?E4, ?E5; try done.
  - intros id [Hin|Hin]%elem_of_app; [|by apply Hids]. destruct (H2 id Hin) as (nx&Hnx1&Hlt).
    destruct (Hg _ _ Hnx1) as (s'&Hs'&Hle). exists s'. split; [done|lia].
  - destruct (Hg _ _ Hdb) as (s'&Hs'&Hle). exists s'. split_and!; [done|lia| |].
    + intros a n E. specialize (Ha a n E). lia.
    + intros a Hin. specialize (Hd a Hin). lia.
Qed.

Lemma grows_insert r p s m :
  partitions m = <[p := s]> (partitions r) → (∀ s0, partitions r !! p = Some s0 → s0 ≤ s) → grows r m.
Proof.
  intros E Hle p' s' Hp'. rewrite E. destruct (decide (p' = p)) as [->|Hne].
  - rewrite lookup_insert_eq. exists s. split; [done|by apply Hle].
  - rewrite lookup_insert_ne by done. exists s'. split; [done|lia].
Qed.

Lemma parts_insert r p s m :
  rinv [] r → partitions m = <[p := s]> (partitions r) → p < nextCustomPartition m →
  nextCustomPartition r ≤ nextCustomPartition m → ∀ p' s', partitions m !! p' = Some s' → p' < nextCustomPartition m.
Proof.
  intros Hi E Hp Hle p' s'. rewrite E. destruct (decide (p' = p)) as [->|Hne]; [done|].
  rewrite lookup_insert_ne by done. intros Hs'. pose proof (ri_parts _ _ Hi p' s' Hs'). lia.
Qed.

Lemma rinv_forget used r : rinv used r → rinv [] r.
Proof. intros []. constructor; try done. intros id ?%elem_of_nil. done. Qed.

Lemma alloc_spec used r p s :
  rinv used r → partitions r !! p = Some s →
  ∃ id r', allocateInPartitionLocked r p = Ok (id, r') ∧ r' = withPartitions r (<[p := s + 1]> (partitions r))
    ∧ id = MakeEntityID p s ∧ PartitionOf id = p ∧ SeqOf id = s ∧ id ∉ used.
Proof.
  intros Hi Hp. pose proof (ri_range _ _ Hi p s Hp) as [Hr _]. destruct (entity_id_parts p s Hr) as [E1 E2].
  unfold allocateInPartitionLocked. rewrite Hp. eexists _, _. split_and!; try done.
  - unfold i64. rewrite Z.mod_small; [|destruct Hr; lia]. by replace (s + 1 + 2 ^ 63 - 2 ^ 63) with (s + 1) by lia.
  - intros Hin. destruct (ri_used _ _ Hi _ Hin) as (next&Hn&Hlt). rewrite E1 in Hn. rewrite E2 in Hlt. rewrite Hp in Hn. injection Hn as <-. lia.
Qed.

Lemma alloc_inv used r p s :
  rinv used r → partitions r !! p = Some s → let r' := withPartitions r (<[p := s + 1]> (partitions r)) in
  inRange r' → rinv (used ++ [MakeEntityID p s]) r'.
Proof.
  intros Hi Hp r' Hr'. pose proof (ri_range _ _ Hi p s Hp) as [Hr _]. destruct (entity_id_parts p s Hr) as [E1 E2].
  apply (rinv_counters used _ r r'); try done.
  - apply (grows_insert r p (s + 1)); [done|]. intros s0 Hs0. rewrite Hp in Hs0. injection Hs0 as <-. lia.
  - apply (parts_insert r p (s + 1)); [by eapply rinv_forget|done| |done]. exact (ri_parts _ _ Hi p s Hp).
  - exact (ri_next _ _ Hi).
  - intros id ->%list_elem_of_singleton. exists (s + 1). rewrite E1, E2. split; [apply lookup_insert_eq|lia].
Qed.

Lemma attr_inv used r r' n aid next :
  rinv used r → partitions r' = partitions r → nextCustomPartition r' = nextCustomPartition r →
  attrs r' = <[n := aid]> (attrs r) → attrsRev r' = <[aid := n]> (attrsRev r) →
  declared r' ⊆ {[aid]} ∪ declared r → cardinality r' ⊆ {[aid]} ∪ cardinality r →
  (∀ a, a ∈ declared r' → is_Some (valueTypes r' !! a)) →
  partitions r !! PartDb = Some next → 0 ≤ aid < next → default n (attrsRev r !! aid) = n → rinv used r'.
Proof.
  intros [H1 H2 H3 H4 (next0&Hdb&Hn&Ha&Hd) H6 H7] EP EN EA ER Hdec Hcard Hty Hnext Haid Hdef.
  rewrite Hdb in Hnext. injection Hnext as ->. constructor; unfold inRange; rewrite ?EP, ?EN; try done.
  - exists next. split_and!; [done|done| |].
    + intros a n0. rewrite ER. destruct (decide (a = aid)) as [->|Hne]; [done|]. rewrite lookup_insert_ne by done. apply Ha.
    + intros a Hin. destruct (decide (a = aid)) as [->|Hne]; [done|]. apply Hd, elem_of_union.
      apply elem_of_union in Hin as [Hin|Hin]; [left; apply Hdec in Hin|right; apply Hcard in Hin];
        (apply elem_of_union in Hin as [->%elem_of_singleton|]; done).
  - intros n0 a. rewrite EA, ER. destruct (decide (n0 = n)) as [->|Hne].
    + rewrite lookup_insert_eq. intros [= ->]. by rewrite lookup_insert_eq.
    + rewrite lookup_insert_ne by done. intros E%H6. destruct (decide (a = aid)) as [->|Hna]; [|by rewrite lookup_insert_ne].
      rewrite E in Hdef. cbn in Hdef. congruence.
Qed.

(** A new schema entity is a new attribute identifier. *)
Lemma schema_alloc used r next :
  rinv used r → partitions r !! PartDb = Some next → MakeEntityID PartDb next = next ∧ u32 next = next ∧ attrsRev r !! next = None.
Proof.
  intros Hi Hdb. pose proof (ri_range _ _ Hi _ _ Hdb) as [Hr H32]. specialize (H32 eq_refl). destruct Hr as [? Hs].
  split_and!.
  - rewrite MakeEntityID_eq by done. unfold PartDb. lia.
  - unfold u32. rewrite Z.mod_small; lia.
  - destruct (ri_db _ _ Hi) as (next'&Hdb'&_&Ha&_). rewrite Hdb in Hdb'. injection Hdb' as <-.
    destruct (attrsRev r !! next) as [n|] eqn:E; [|done]. specialize (Ha _ _ E). lia.
Qed.

Lemma InternAttr_spec used r name n :
  rinv used r → NormalizeAttr name = Ok n →
  (∃ a, attrs r !! n = Some a ∧ InternAttr r name = Ok (a, r))
  ∨ (attrs r !! n = None ∧ ∃ next, partitions r !! PartDb = Some next ∧ next ∉ used
     ∧ InternAttr r name = Ok (next, withName (withNextAid (withPartitions r (<[PartDb := next + 1]> (partitions r))) (u32 (next + 1))) n next)).
Proof.
  intros Hi Hn. unfold InternAttr. rewrite Hn, res_bind_ret. destruct (attrs r !! n) as [a|] eqn:E; [left; eauto|right].
  split; [done|]. destruct (ri_db _ _ Hi) as (next&Hdb&_). exists next. split; [done|].
  destruct (alloc_spec used r PartDb next Hi Hdb) as (id&r'&E1&->&->&_&_&Hfresh).
  destruct (schema_alloc used r next Hi Hdb) as (E2&E3&_). rewrite E2 in *. split; [done|]. rewrite E1, res_bind_ret. cbv beta iota zeta. by rewrite E3.
Qed.

Definition declaredAs (r : Resolver) (n : bytes) (next vt : Z) (many : bool) : Resolver :=
  let r := withDeclared (withName (withNextAid (withPartitions r (<[PartDb := next + 1]> (partitions r))) (u32 (next + 1))) n next) next vt in
  let r := if many then withCardinality r ({[next]} ∪ cardinality r) else r in
  withOrder r (AttrDeclOrder r ++ [n]).

Lemma DeclareAttr_spec used r name n vt many :
  rinv used r → NormalizeAttr name = Ok n →
  (∃ a, isDeclaredName r n = Some a ∧ DeclareAttr r name vt many = Ok (a, false, r))
  ∨ (isDeclaredName r n = None ∧ ∃ next, partitions r !! PartDb = Some next ∧ next ∉ used ∧ attrsRev r !! next = None
     ∧ DeclareAttr r name vt many = Ok (next, true, declaredAs r n next vt many)).
Proof.
  intros Hi Hn. unfold DeclareAttr. rewrite Hn, res_bind_ret. destruct (isDeclaredName r n) as [a|] eqn:E; [left; eauto|right].
  split; [done|]. destruct (ri_db _ _ Hi) as (next&Hdb&_). exists next. split; [done|].
  destruct (alloc_spec used r PartDb next Hi Hdb) as (id&r'&E1&->&->&_&_&Hfresh).
  destruct (schema_alloc used r next Hi Hdb) as (E2&E3&E4). rewrite E2 in *. split; [done|]. split; [done|].
  rewrite E1, res_bind_ret. cbv beta iota zeta. rewrite E3. unfold declaredAs. by destruct many.
Qed.

Lemma known_attr used r a : rinv used r → a ∈ dom (attrsRev r) → known r a.
Proof.
  intros Hi [n E]%elem_of_dom. destruct (ri_db _ _ Hi) as (next&Hdb&_&Ha&_). specialize (Ha a n E).
  pose proof (ri_range _ _ Hi _ _ Hdb) as [_ H32]. specialize (H32 eq_refl).
  destruct (small_id a) as [E1 E2]; [lia|]. exists next. rewrite E1, E2. split; [done|lia].
Qed.

Lemma rinv_seen used ids r : rinv used r → (∀ id, id ∈ ids → known r id) → rinv (used ++ ids) r.
Proof.
  intros [] Hids. constructor; try done. intros id [Hin|Hin]%elem_of_app; [auto|by apply Hids].
Qed.

Lemma named_inv used r next n (r' : Resolver) :
  rinv used r → partitions r !! PartDb = Some next →
  partitions r' = <[PartDb := next + 1]> (partitions r) → nextCustomPartition r' = nextCustomPartition r →
  attrs r' = <[n := next]> (attrs r) → attrsRev r' = <[next := n]> (attrsRev r) →
  declared r' ⊆ {[next]} ∪ declared r → cardinality r' ⊆ {[next]} ∪ cardinality r →
  (∀ a, a ∈ declared r' → is_Some (valueTypes r' !! a)) → inRange r' → rinv (used ++ [next]) r'.
Proof.
  intros Hi Hdb EP EN EA ER Hdec Hcard Hty Hr. destruct (schema_alloc used r next Hi Hdb) as (E2&_&E4).
  pose proof (alloc_inv used r PartDb next Hi Hdb) as Ha. cbv zeta in Ha. rewrite E2 in Ha.
  eapply (attr_inv _ (withPartitions r (<[PartDb := next + 1]> (partitions r))) r' n next (next + 1)); try done.
  - apply Ha. unfold inRange in *. by rewrite EP in Hr.
  - apply lookup_insert_eq.
  - destruct (ri_range _ _ Hi _ _ Hdb) as [[_ ?] _]. lia.
  - cbn [withPartitions attrsRev]. by rewrite E4.
Qed.

Lemma declaredAs_fields r n next vt many :
  let r' := declaredAs r n next vt many in
  partitions r' = <[PartDb := next + 1]> (partitions r) ∧ nextCustomPartition r' = nextCustomPartition r
  ∧ attrs r' = <[n := next]> (attrs r) ∧ attrsRev r' = <[next := n]> (attrsRev r)
  ∧ declared r' = {[next]} ∪ declared r ∧ cardinality r' = (if many then {[next]} ∪ cardinality r else cardinality r)
  ∧ valueTypes r' = <[next := vt]> (valueTypes r).
Proof. by destruct many. Qed.

Lemma types_insert used r a aid vt : rinv used r → a ∈ {[aid]} ∪ declared r → is_Some (<[aid := vt]> (valueTypes r) !! a).
Proof.
  intros Hi [->%elem_of_singleton|Hin]%elem_of_union; [by rewrite lookup_insert_eq|].
  destruct (decide (a = aid)) as [->|Hne]; [by rewrite lookup_insert_eq|]. rewrite lookup_insert_ne by done. by apply Hi.
Qed.

Lemma declare_inv used r name vt many aid isNew r' :
  rinv used r → DeclareAttr r name vt many = Ok (aid, isNew, r') → inRange r' → rinv (used ++ [aid]) r'.
Proof.
  intros Hi E Hr. destruct (NormalizeAttr name) as [n| | |] eqn:En; [|unfold DeclareAttr in E; by rewrite En in E..].
  destruct (DeclareAttr_spec used r name n vt many Hi En) as [(a&Ed&E1)|(_&next&Hdb&_&_&E1)]; rewrite E1 in E; injection E as <- <- <-.
  - apply rinv_seen; [done|]. intros id ->%list_elem_of_singleton. unfold isDeclaredName in Ed.
    destruct (attrs r !! n) as [a0|] eqn:Ea; [|done]. destruct (bool_decide _); [|done]. injection Ed as ->.
    eapply known_attr; [exact Hi|]. apply elem_of_dom. rewrite (ri_names _ _ Hi _ _ Ea). done.
  - destruct (declaredAs_fields r n next vt many) as (F1&F2&F3&F4&F5&F6&F7).
    eapply (named_inv used r next n); try done; rewrite ?F5, ?F6, ?F7; [done|destruct many; set_solver|].
    intros a Ha. by eapply types_insert.
Qed.

Lemma intern_inv used r name aid r' :
  rinv used r → InternAttr r name = Ok (aid, r') → inRange r' → rinv (used ++ [aid]) r'.
Proof.
  intros Hi E Hr. destruct (NormalizeAttr name) as [n| | |] eqn:En; [|unfold InternAttr in E; by rewrite En in E..].
  destruct (InternAttr_spec used r name n Hi En) as [(a&Ea&E1)|(_&next&Hdb&_&E1)]; rewrite E1 in E; injection E as <- <-.
  - apply rinv_seen; [done|]. intros id ->%list_elem_of_singleton. eapply known_attr; [exact Hi|].
    apply elem_of_dom. rewrite (ri_names _ _ Hi _ _ Ea). done.
  - eapply (named_inv used r next n); try done; cbn; [set_solver|set_solver|]. apply Hi.
Qed.

Lemma range_next used r p : rinv used r → inRange (withPartitions r (<[p := 1]> (partitions r))) → 0 ≤ p < 2 ^ 19.
Proof. intros _ Hr. destruct (Hr p 1) as [[? _] _]; [apply lookup_insert_eq|done]. Qed.

Lemma declpart_inv used r name : rinv used r → inRange (DeclarePartition r name).2 → rinv (used ++ []) (DeclarePartition r name).2.
Proof.
  intros Hi Hr. unfold DeclarePartition in *. destruct (partitionNames r !! name); [by rewrite app_nil_r|]. cbn [snd] in *.
  assert (partitions r !! nextCustomPartition r = None) as Hnone.
  { destruct (partitions r !! nextCustomPartition r) as [s|] eqn:E; [|done]. apply (ri_parts _ _ Hi) in E. lia. }
  pose proof (range_next used r _ Hi Hr) as Hp. pose proof (ri_next _ _ Hi).
  assert (u64 (nextCustomPartition r + 1) = nextCustomPartition r + 1) as Eu by (unfold u64; rewrite Z.mod_small; lia).
  apply (rinv_counters used [] r); try done.
  - apply (grows_insert r (nextCustomPartition r) 1); [done|]. intros s0 Hs0. by rewrite Hnone in Hs0.
  - apply (parts_insert r (nextCustomPartition r) 1); [by eapply rinv_forget|done|..]; cbn; lia.
  - cbn. lia.
  - intros id ?%elem_of_nil. done.
Qed.

Lemma regpart_inv used r name p : rinv used r → inRange (RegisterPartition r name p) → rinv (used ++ []) (RegisterPartition r name p).
Proof.
  intros Hi Hr. pose proof (ri_next _ _ Hi) as Hn. unfold RegisterPartition in *. destruct (partitionNames r !! name); [by rewrite app_nil_r|].
  destruct (partitions r !! p) as [s|] eqn:E.
  - pose proof (ri_parts _ _ Hi _ _ E) as Hp. replace (p >=? nextCustomPartition r) with false in * by lia. rewrite andb_false_r in *.
    apply (rinv_counters used [] r); try done; [intros p' s' ?; exists s'; split; [done|lia]|by apply Hi|by intros id ?%elem_of_nil].
  - cbn [withPartitions nextCustomPartition PartDeclOrder] in *. pose proof (range_next used r p Hi Hr) as Hp.
    set (next := if _ && _ then _ else _) in *. assert (p < next ∧ nextCustomPartition r ≤ next) as [Hpn Hle].
    { unfold next. destruct ((p >=? firstCustomPartition) && (p >=? nextCustomPartition r)) eqn:Eb.
      - unfold u64. rewrite Z.mod_small; lia.
      - unfold firstCustomPartition in *. lia. }
    apply (rinv_counters used [] r); try done.
    + apply (grows_insert r p 1); [done|]. intros s0 Hs0. by rewrite E in Hs0.
    + apply (parts_insert r p 1); [by eapply rinv_forget|done|done|done].
    + cbn. lia.
    + intros id ?%elem_of_nil. done.
Qed.

(** Raising a counter. *)
Lemma raise_inv used ids r p s s0 :
  rinv used r → partitions r !! p = Some s0 → s0 ≤ s → let r' := withPartitions r (<[p := s]> (partitions r)) in
  inRange r' → (∀ id, id ∈ ids → known r' id) → rinv (used ++ ids) r'.
Proof.
  intros Hi E Hle r' Hr Hids. apply (rinv_counters used ids r); try done.
  - apply (grows_insert r p s); [done|]. intros s1 Hs1. by rewrite E in Hs1; injection Hs1 as <-.
  - apply (parts_insert r p s); [by eapply rinv_forget|done| |done]. exact (ri_parts _ _ Hi _ _ E).
  - apply Hi.
Qed.

Lemma advance_cases r eid s0 :
  partitions r !! PartitionOf eid = Some s0 →
  (SeqOf eid < s0 ∧ AdvancePast r eid = r)
  ∨ (s0 ≤ SeqOf eid ∧ AdvancePast r eid = withPartitions r (<[PartitionOf eid := SeqOf eid + 1]> (partitions r))).
Proof.
  intros E. unfold AdvancePast. rewrite E. destruct (Z.geb_spec (SeqOf eid) s0); [right|left]; split; [lia|done|lia|done].
Qed.

Lemma advance_inv used r eid :
  rinv used r → inRange (AdvancePast r eid) →
  rinv (used ++ match partitions r !! PartitionOf eid with Some _ => [eid] | None => [] end) (AdvancePast r eid).
Proof.
  intros Hi Hr. destruct (partitions r !! PartitionOf eid) as [s0|] eqn:E.
  2:{ unfold AdvancePast. rewrite E, app_nil_r. done. }
  destruct (advance_cases r eid s0 E) as [[Hlt Ea]|[Hle Ea]]; rewrite Ea in *.
  - apply rinv_seen; [done|]. intros id ->%list_elem_of_singleton. by exists s0.
  - eapply raise_inv; [done|exact E|lia|done|]. intros id ->%list_elem_of_singleton. exists (SeqOf eid + 1).
    split; [apply lookup_insert_eq|lia].
Qed.

Lemma setseq_inv used r p s : rinv used r → inRange (SetPartitionSeq r p s) → rinv (used ++ []) (SetPartitionSeq r p s).
Proof.
  intros Hi Hr. unfold SetPartitionSeq in *. destruct (partitions r !! p) as [s0|] eqn:E; [|by rewrite app_nil_r].
  destruct (Z.gtb_spec s s0); [|by rewrite app_nil_r]. eapply raise_inv; [done|exact E|lia|done|]. intros id ?%elem_of_nil. done.
Qed.

Lemma load_parts r n eid vt many unique indexed :
  let r1 := AdvancePast r eid in let r' := LoadUserAttr r n eid vt many unique indexed in
  partitions r' = partitions r1 ∧ nextCustomPartition r' = nextCustomPartition r
  ∧ attrs r' = <[n := u32 eid]> (attrs r) ∧ attrsRev r' = <[u32 eid := n]> (attrsRev r)
  ∧ declared r' = {[u32 eid]} ∪ declared r ∧ valueTypes r' = <[u32 eid := vt]> (valueTypes r)
  ∧ cardinality r' ⊆ {[u32 eid]} ∪ cardinality r
  ∧ nextCustomPartition r1 = nextCustomPartition r.
Proof.
  assert (∀ x : gset Z, x ⊆ x) as Hx by done.
  pose proof (union_subseteq_r {[u32 eid]} (cardinality r)) as Hc.
  unfold LoadUserAttr, AdvancePast. cbv zeta. destruct many, unique, indexed, (negb _);
    cbn [withDeclared withName withCardinality withUnique withIndexed withOrder partitions];
    (destruct (partitions r !! PartitionOf eid) as [s0|]; [destruct (SeqOf eid >=? s0)|]);
    destruct (_ >=? _);
    (split; [reflexivity|]); (split; [reflexivity|]); (split; [reflexivity|]); (split; [reflexivity|]);
    (split; [reflexivity|]); (split; [reflexivity|]); (split; [|reflexivity]); cbn [cardinality withNextAid withPartitions]; first [apply Hc|apply Hx].
Qed.

Lemma advance_names r eid : sameNames r (AdvancePast r eid).
Proof. unfold AdvancePast. destruct (partitions r !! _) as [s0|]; [destruct (_ >=? _)|]; by split_and!. Qed.

Lemma load_inv used r n eid vt many unique indexed :
  rinv used r → rop_ok r (RLoad n eid vt many unique indexed) → let r' := LoadUserAttr r n eid vt many unique indexed in
  inRange r' → rinv (used ++ [eid]) r'.
Proof.
  intros Hi (He&_&Hn) r' Hr. destruct (load_parts r n eid vt many unique indexed) as (F1&F2&F3&F4&F5&F6&F7&F8). fold r' in F1, F2, F3, F4, F5, F6, F7.
  destruct (small_id eid He) as [Ep Es]. destruct (ri_db _ _ Hi) as (next&Hdb&_).
  assert (u32 eid = eid) as Eu by (unfold u32; rewrite Z.mod_small; lia). rewrite Eu in *.
  assert (inRange (AdvancePast r eid)) as Hr1 by (unfold inRange in *; by rewrite <- F1).
  pose proof (advance_inv used r eid Hi Hr1) as Hi1. rewrite Ep, Hdb in Hi1.
  destruct (advance_names r eid) as (G1&G2&G3&G4&G5).
  destruct (ri_used _ _ Hi1 eid) as (next1&Hdb1&Hlt); [apply elem_of_app; right; by apply list_elem_of_singleton|].
  rewrite Ep in Hdb1. rewrite Es in Hlt.
  eapply (attr_inv _ (AdvancePast r eid) r' n eid next1); try done; rewrite ?F8, ?G1, ?G2, ?G3, ?G4; try done; [by rewrite F5| |lia].
  intros a. rewrite F5, F6. by eapply types_insert.
Qed.

Lemma loadAttr_fields r kv aid : loadedAid kv = Some aid →
  let r' := loadAttr r kv in partitions r' = partitions r ∧ nextCustomPartition r' = nextCustomPartition r
  ∧ attrs r' = <[kv.1 := aid]> (attrs r) ∧ attrsRev r' = <[aid := kv.1]> (attrsRev r)
  ∧ declared r' = declared r ∧ cardinality r' = cardinality r ∧ valueTypes r' = valueTypes r.
Proof.
  unfold loadedAid, loadAttr. destruct kv as [n [|v0 [|v1 [|v2 [|v3 v]]]]]; cbn [fst snd]; try done. intros [= <-]. cbv zeta.
  destruct (_ >=? _); by split_and!.
Qed.

Lemma loadAttr_skip r kv : loadedAid kv = None → loadAttr r kv = r.
Proof. unfold loadedAid, loadAttr. by destruct kv as [n [|v0 [|v1 [|v2 [|v3 v]]]]]. Qed.

Lemma loadAttrs_inv used r items : rinv used r → loadsOk r items → rinv (used ++ omap loadedAid items) (LoadAttrs r items).
Proof.
  revert used r. induction items as [|kv items IH]; intros used r Hi Hok; [by rewrite app_nil_r|]. destruct Hok as [Hkv Hok].
  change (LoadAttrs r (kv :: items)) with (LoadAttrs (loadAttr r kv) items). cbn [omap list_omap]. destruct (loadedAid kv) as [aid|] eqn:E.
  - destruct (Hkv aid eq_refl) as [(next&Hdb&Ha) Hn]. destruct (loadAttr_fields r kv aid E) as (F1&F2&F3&F4&F5&F6&F7).
    change (used ++ aid :: omap loadedAid items) with (used ++ [aid] ++ omap loadedAid items). rewrite app_assoc. apply IH; [|done].
    assert (rinv used (loadAttr r kv)) as Hi'.
    { eapply (attr_inv used r _ kv.1 aid next); try done; rewrite ?F5, ?F6, ?F7; [set_solver|set_solver|]. apply Hi. }
    apply rinv_seen; [done|]. intros id ->%list_elem_of_singleton. eapply known_attr; [exact Hi'|]. rewrite F4. apply elem_of_dom. by rewrite lookup_insert_eq.
  - rewrite (loadAttr_skip r kv E) in *. by apply IH.
Qed.

Lemma card_inv used r aid many : rinv used r → (many = true → counted r aid) → rinv used (SetCardinality r aid many).
Proof.
  intros [H1 H2 H3 H4 (next&Hdb&Hn&Ha&Hd) H6 H7] Hok. constructor; try done. exists next. split_and!; try done.
  intros a. cbn [SetCardinality withCardinality declared cardinality]. intros [Hin|Hin]%elem_of_union; [by apply Hd, elem_of_union; left|]. destruct many.
  - apply elem_of_union in Hin as [->%elem_of_singleton|Hin]; [|by apply Hd, elem_of_union; right].
    destruct (Hok eq_refl) as (next'&Hdb'&?). rewrite Hdb in Hdb'. by injection Hdb' as <-.
  - apply elem_of_difference in Hin as [Hin _]. apply Hd, elem_of_union. by right.
Qed.

Lemma reachR_inv used r : rreach used r → rinv used r.
Proof.
  induction 1 as [|used r o ids r' _ Hi Hok E Hr]; [apply new_inv|]. destruct o; cbn [stepR] in E.
  - unfold AllocateInPartition in E. destruct (partitions r !! p) as [s|] eqn:Ep.
    + destruct (alloc_spec used r p s Hi Ep) as (id&r1&E1&->&->&_). rewrite E1 in E. apply pair_equal_spec in E as [<- <-]. by apply alloc_inv.
    + unfold allocateInPartitionLocked in E. rewrite Ep in E. apply pair_equal_spec in E as [<- <-]. by rewrite app_nil_r.
  - destruct (InternAttr r name) as [[aid r1]| | |] eqn:E1; apply pair_equal_spec in E as [<- <-]; [by eapply intern_inv|by rewrite app_nil_r..].
  - destruct (DeclareAttr r name vt many) as [[[aid isNew] r1]| | |] eqn:E1; apply pair_equal_spec in E as [<- <-]; [by eapply declare_inv|by rewrite app_nil_r..].
  - apply pair_equal_spec in E as [<- <-]. by apply declpart_inv.
  - apply pair_equal_spec in E as [<- <-]. by apply regpart_inv.
  - apply pair_equal_spec in E as [<- <-]. by apply advance_inv.
  - apply pair_equal_spec in E as [<- <-]. by apply setseq_inv.
  - apply pair_equal_spec in E as [<- <-]. by eapply load_inv.
  - apply pair_equal_spec in E as [<- <-]. rewrite app_nil_r. destruct Hi. by constructor.
  - apply pair_equal_spec in E as [<- <-]. rewrite app_nil_r. destruct Hi. by constructor.
  - apply pair_equal_spec in E as [<- <-]. rewrite app_nil_r. by apply card_inv.
  - apply pair_equal_spec in E as [<- <-]. by apply loadAttrs_inv.
Qed.

(** ** Properties *)

(** C25. After any sequence of the operations of the resolver, an allocation in a known
    partition succeeds with an identifier of that partition that was never given out,
    loaded or advanced past before. The operations are all there are, under these
    conditions ([rop_ok], [inRange]): no counter has run into the bits of the partition
    (2^44, for the schema 2^32, and partitions below 2^19); an attribute loaded by
    LoadUserAttr has a schema identifier of 32 bits and takes no name or identifier of
    another; LoadAttrs, which loads pairs without raising the counter and which nothing
    calls, is given identifiers below the counter; and a cardinality is set to many for
    an identifier of the schema. *)
Theorem allocation_fresh used r p :
  rreach used r → is_Some (partitions r !! p) →
  ∃ id r', AllocateInPartition r p = Ok (id, r') ∧ id ∉ used ∧ PartitionOf id = p.
Proof.
  intros Hr [s Hp]. destruct (alloc_spec used r p s (reachR_inv _ _ Hr) Hp) as (id&r'&E&_&_&H1&_&H2). by exists id, r'.
Qed.

(** Declaring a new attribute gives it a fresh identifier under which its
    name, value type and cardinality are found, leaves every other attribute as
    it was, and declaring it again changes nothing. *)
Theorem declare_attr_exact used r name n vt many vt' many' :
  rreach used r → NormalizeAttr name = Ok n → isDeclaredName r n = None →
  ∃ aid r', DeclareAttr r name vt many = Ok (aid, true, r') ∧ aid ∉ used
    ∧ LookupAttr r' name = Some aid ∧ AttrName r' aid = n ∧ ValueTypeFor r' aid = Some vt ∧ IsMany r' aid = many
    ∧ (∀ n' a, n' ≠ n → attrs r !! n' = Some a →
         attrs r' !! n' = Some a ∧ AttrName r' a = n' ∧ ValueTypeFor r' a = ValueTypeFor r a ∧ IsMany r' a = IsMany r a)
    ∧ DeclareAttr r' name vt' many' = Ok (aid, false, r').
Proof.
  intros Hr Hn Hnew. pose proof (reachR_inv _ _ Hr) as Hi.
  destruct (DeclareAttr_spec used r name n vt many Hi Hn) as [(a&E&_)|(_&next&Hdb&Hfresh&Hrev&E)]; [congruence|].
  destruct (declaredAs_fields r n next vt many) as (_&_&F3&F4&F5&F6&F7). set (r' := declaredAs r n next vt many) in *.
  destruct (ri_db _ _ Hi) as (next'&Hdb'&_&_&Hd). rewrite Hdb in Hdb'. injection Hdb' as <-.
  assert (next ∉ cardinality r) as Hcard by (intros Hc; specialize (Hd next ltac:(apply elem_of_union; by right)); lia).
  exists next, r'. split_and!; [done|done| | | | | |].
  - unfold LookupAttr. rewrite Hn, F3. apply lookup_insert_eq.
  - unfold AttrName. by rewrite F4, lookup_insert_eq.
  - unfold ValueTypeFor. rewrite F7. apply lookup_insert_eq.
  - unfold IsMany. rewrite F6. destruct many; [apply bool_decide_eq_true, elem_of_union; left; by apply elem_of_singleton|].
    by apply bool_decide_eq_false.
  - intros n' a Hne Ha. pose proof (ri_names _ _ Hi _ _ Ha) as Ha'. assert (a ≠ next) as Hna by congruence.
    unfold AttrName, ValueTypeFor, IsMany. rewrite F3, F4, F6, F7, !lookup_insert_ne, Ha' by done. split_and!; try done.
    apply bool_decide_ext. destruct many; [|done]. rewrite elem_of_union, elem_of_singleton. tauto.
  - unfold DeclareAttr. rewrite Hn, res_bind_ret. unfold isDeclaredName. rewrite F3, lookup_insert_eq, F5.
    rewrite bool_decide_true by (apply elem_of_union; left; by apply elem_of_singleton). done.
Qed.

(** An entity identifier splits back into its partition and sequence number
    as long as the number fits 44 bits; the next one falls into another
    partition when the partition's number is even. *)
Theorem entity_id_bounds p s :
  0 ≤ p < 2 ^ 19 →
  (0 ≤ s < 2 ^ 44 → PartitionOf (MakeEntityID p s) = p ∧ SeqOf (MakeEntityID p s) = s)
  ∧ (Z.even p = true → PartitionOf (MakeEntityID p (2 ^ 44)) = p + 1 ∧ SeqOf (MakeEntityID p (2 ^ 44)) = 0).
Proof.
  intros Hp. split; [intros Hs; by apply entity_id_parts|]. intros He. apply Z.even_spec in He as [q ->].
  assert (id_range (2 * q + 1) 0) as Hr by (split; lia).
  replace (MakeEntityID (2 * q) (2 ^ 44)) with (MakeEntityID (2 * q + 1) 0).
  { destruct (entity_id_parts _ _ Hr) as [-> ->]. split; [lia|done]. }
  rewrite MakeEntityID_eq by done. unfold MakeEntityID, partitionShift, u64.
  assert (0 ≤ Z.shiftl (2 * q) 44 < 2 ^ 64) by (rewrite Z.shiftl_mul_pow2; lia).
  rewrite (Z.mod_small (Z.shiftl _ _)), (Z.mod_small (2 ^ 44)) by lia.
  replace (Z.shiftl (2 * q) 44) with (Z.shiftl q 45) by (rewrite !Z.shiftl_mul_pow2; lia).
  rewrite lor_disjoint by lia. unfold i64. rewrite Z.mod_small by lia. lia.
Qed.

(** Declaring a name that was only used before gives it a second
    identifier: what was written under the first is no longer found by name. *)
Theorem declare_orphans_interned used r name n vt many :
  rreach used r → NormalizeAttr name = Ok n → attrs r !! n = None →
  (∀ a r1, InternAttr r name = Ok (a, r1) → inRange r1) →
  ∃ a r1 b r2, InternAttr r name = Ok (a, r1) ∧ LookupAttr r1 name = Some a ∧ DeclareAttr r1 name vt many = Ok (b, true, r2)
    ∧ b ≠ a ∧ LookupAttr r2 name = Some b ∧ AttrName r2 a = n.
Proof.
  intros Hr Hn Hnone Hrange. pose proof (reachR_inv _ _ Hr) as Hi.
  destruct (InternAttr_spec used r name n Hi Hn) as [(a&E&_)|(_&next&Hdb&Hfresh&E1)]; [congruence|].
  set (r1 := withName _ _ _) in E1. specialize (Hrange _ _ E1). pose proof (intern_inv used r name next r1 Hi E1 Hrange) as Hi1.
  assert (next ∉ declared r) as Hnd.
  { destruct (ri_db _ _ Hi) as (next'&Hdb'&_&_&Hd). rewrite Hdb in Hdb'. injection Hdb' as <-. intros Hc.
    specialize (Hd next ltac:(apply elem_of_union; by left)). lia. }
  assert (isDeclaredName r1 n = None) as Hun.
  { unfold isDeclaredName. cbn [r1 withName attrs declared withNextAid withPartitions]. by rewrite lookup_insert_eq, bool_decide_false. }
  destruct (DeclareAttr_spec _ r1 name n vt many Hi1 Hn) as [(a&E&_)|(_&next2&Hdb2&Hf2&Hrev2&E2)]; [congruence|].
  assert (next2 ≠ next) as Hne by (intros ->; apply Hf2, elem_of_app; right; by apply list_elem_of_singleton).
  destruct (declaredAs_fields r1 n next2 vt many) as (_&_&F3&F4&_).
  exists next, r1, next2, (declaredAs r1 n next2 vt many). split_and!; [done| |done|done| |].
  - unfold LookupAttr. rewrite Hn. apply lookup_insert_eq.
  - unfold LookupAttr. rewrite Hn, F3. apply lookup_insert_eq.
  - unfold AttrName. rewrite F4, lookup_insert_ne by done. cbn [r1 withName attrsRev]. by rewrite lookup_insert_eq.
Qed.

(** ** Samples *)

Definition sampleName : bytes := bs ":person/name".
Definition sampleSteps : list rop := [RAlloc PartUser; RDeclare sampleName DbTypeString true; RDeclPart (bs "people"); RAlloc 64; RIntern (bs "person.age")].

(** Runs of steps that stay in range. *)
Fixpoint runR (r : Resolver) (used : list Z) (os : list rop) : option (list Z * Resolver) :=
  match os with
  | [] => Some (used, r)
  | o :: os =>
      let '(ids, r') := stepR r o in
      if bool_decide (inRange r') then runR r' (used ++ ids) os else None
  end.

Lemma runR_reach os r used used' r' :
  rreach used r → Forall (fun o => match o with RLoad _ _ _ _ _ _ | RCard _ _ | RLoadAttrs _ => False | _ => True end) os →
  runR r used os = Some (used', r') → rreach used' r'.
Proof.
  intros Hr Hos. revert r used Hr. induction Hos as [|o os Ho Hos IH]; intros r used Hr; cbn [runR]; [by intros [= <- <-]|].
  destruct (stepR r o) as [ids r1] eqn:E. destruct (bool_decide_reflect (inRange r1)); [|done]. apply IH.
  apply (RStep used r o ids r1 Hr); [by destruct o|exact E|done].
Qed.

Lemma sample_reach :
  ∃ used r, rreach used r ∧ is_Some (partitions r !! 64) ∧ isDeclaredName r (bs "person/city") = None ∧ attrs r !! bs "person/city" = None
    ∧ ∀ a r1, InternAttr r (bs "person.city") = Ok (a, r1) → inRange r1.
Proof.
  assert (match runR NewResolver [] sampleSteps with
          | Some (_, r) => bool_decide (is_Some (partitions r !! 64)) && bool_decide (isDeclaredName r (bs "person/city") = None)
                           && bool_decide (attrs r !! bs "person/city" = None)
                           && match InternAttr r (bs "person.city") with Ok (_, r1) => bool_decide (inRange r1) | _ => false end
          | None => false end = true) as Hc by (vm_compute; reflexivity).
  destruct (runR NewResolver [] sampleSteps) as [[used r]|] eqn:E; [|done]. exists used, r.
  apply andb_prop in Hc as [[[H1%bool_decide_eq_true H2%bool_decide_eq_true]%andb_prop H3%bool_decide_eq_true]%andb_prop H4].
  split; [|split; [exact H1|split; [exact H2|split; [exact H3|]]]].
  - eapply runR_reach; [apply RInit| |exact E]. by repeat constructor.
  - intros a r1 E1. rewrite E1 in H4. by apply bool_decide_eq_true in H4.
Qed.

(** An identifier [LoadAttrs] loads at the counter is given out again. *)
Example loaded_id_given_again :
  let r := LoadAttrs NewResolver [(bs "a/b", [0; 0; 0; 100])] in
  attrs r !! bs "a/b" = Some 100 ∧ match AllocateSchemaID r with Ok (id, _) => id = 100 | _ => False end.
Proof. by vm_compute. Qed.

Lemma allocation_fresh_witness :
  ∃ used r id r', rreach used r ∧ AllocateInPartition r 64 = Ok (id, r') ∧ id ∉ used ∧ PartitionOf id = 64.
Proof.
  destruct sample_reach as (used&r&Hr&Hp&_). destruct (allocation_fresh used r 64 Hr Hp) as (id&r'&E&H1&H2).
  by exists used, r, id, r'.
Defined.

Lemma declare_attr_exact_witness :
  ∃ used r aid r', rreach used r ∧ DeclareAttr r (bs ":person/city") DbTypeString false = Ok (aid, true, r')
    ∧ LookupAttr r' (bs "person.city") = Some aid.
Proof.
  destruct sample_reach as (used&r&Hr&_&Hd&_).
  destruct (declare_attr_exact used r (bs ":person/city") (bs "person/city") DbTypeString false DbTypeLong true Hr) as (aid&r'&E&_&Hl&_); [by vm_compute|done|].
  exists used, r, aid, r'. split_and!; [done|done|]. revert Hl. unfold LookupAttr. replace (NormalizeAttr (bs "person.city")) with (NormalizeAttr (bs ":person/city")); [done|]. by vm_compute.
Defined.

Lemma entity_id_bounds_witness : PartitionOf (MakeEntityID 4 7) = 4 ∧ PartitionOf (MakeEntityID 4 (2 ^ 44)) = 5.
Proof.
  destruct (entity_id_bounds 4 7) as [H1 H2]; [lia|]. split; [apply H1; lia|]. destruct (H2 eq_refl) as [H _]. exact H.
Defined.

Lemma declare_orphans_interned_witness :
  ∃ used r a r1 b r2, rreach used r ∧ InternAttr r (bs "person.city") = Ok (a, r1)
    ∧ DeclareAttr r1 (bs "person.city") DbTypeString false = Ok (b, true, r2) ∧ b ≠ a.
Proof.
  destruct sample_reach as (used&r&Hr&_&_&Hn&Hi).
  destruct (declare_orphans_interned used r (bs "person.city") (bs "person/city") DbTypeString false Hr) as (a&r1&b&r2&E1&_&E2&Hne&_); [by vm_compute|done|done|].
  by exists used, r, a, r1, b, r2.
Defined.
