(* ===== verification/KeyStore.v ===== *)
(** * The store below the datom engine

    The datom engine (go/internal/eavt) uses four operations of the key-value
    store (go/internal/kvstore/kvstore.go): it opens scans, journals entries, and
    writes batches in two ways. They are a type class here, with what they
    promise as laws over the set of entries a store holds. The engine is modelled
    and proved against the class; KvEngine.v shows that the key-value store keeps
    the laws, and a plain list of entries does too. *)

From S2P Require Import Prelude Journal.

(** ** Enough fuel *)

(** Scans read to the end under fuel; [f] gives [a] once it has enough. *)
Definition ev {A} (f : nat → res A) (a : A) : Prop := ∃ N, ∀ n, (N < n)%nat → f n = Ok a.

Lemma ev_ret {A} (a : A) : ev (fun _ => Ok a) a.
Proof. by exists 0%nat. Qed.

Lemma ev_const {A} (m : res A) a : m = Ok a → ev (fun _ => m) a.
Proof. intros ->. apply ev_ret. Qed.

Lemma ev_bind {A B} (f : nat → res A) (g : nat → A → res B) a b :
  ev f a → ev (fun n => g n a) b → ev (fun n => f n ≫= g n) b.
Proof.
  intros [N HN] [M HM]. exists (N + M)%nat. intros n Hn. rewrite HN by lia. rewrite res_bind_ret. apply HM. lia.
Qed.

Lemma ev_ext {A} (f g : nat → res A) a : (∀ n, f n = g n) → ev f a → ev g a.
Proof. intros E [N HN]. exists N. intros n Hn. rewrite <- E. by apply HN. Qed.

Lemma ev_det {A} (f : nat → res A) a b : ev f a → ev f b → a = b.
Proof. intros [N HN] [M HM]. specialize (HN (S (N + M))). specialize (HM (S (N + M))). rewrite HN in HM by lia. injection HM as ->; [done|lia]. Qed.

Lemma ev_foldRes {A X} (f : nat → A → X → res A) (P : A → Prop) (l : list X) a :
  (∀ a x, x ∈ l → P a → ∃ a', ev (fun n => f n a x) a' ∧ P a') → P a →
  ∃ a', ev (fun n => foldRes (f n) l a) a' ∧ P a'.
Proof.
  revert a. induction l as [|x l IH]; intros a Hf Ha; [exists a; split; [apply ev_ret|done]|].
  destruct (Hf a x) as (a1&E1&H1); [left|done|]. destruct (IH a1) as (a2&E2&H2); [|done|].
  { intros a' x' Hx. apply Hf. by right. }
  exists a2. split; [|done]. cbn [foldRes]. by eapply ev_bind.
Qed.

(** ** The interface *)

Class KeyStore (S : Type) : Type := {
  (** [OpenScanCursor], a seek where there is a target, and [Next] to the end:
      the keys read, and the store, whose memtable the scan put in order. *)
  scanKeys : nat → S → nat → option bytes → res (list bytes * S);
  (** [KVStore.JournalOnly]. *)
  journalOnly : S → list CfKey → S;
  (** [KVStore.BatchWrite] without journalling. *)
  batchWrite : S → list CfKey → res S;
  (** [KVStore.ApplyJournalRecordsExpanded]. *)
  applyExpanded : S → list CfKey → res S;
}.

(** The entries a page and a journal record can hold. *)
Definition storable (e : CfKey) : Prop := (e.1 ≤ 3)%nat ∧ (9 ≤ length e.2 < 65536)%nat ∧ bytes_ok e.2.

#[export] Instance storable_dec e : Decision (storable e).
Proof. unfold storable, bytes_ok, is_u8. apply _. Defined.

Definition reaches (target : option bytes) (k : bytes) : Prop := match target with Some t => t <=b k | None => True end.

#[export] Instance reaches_dec target k : Decision (reaches target k).
Proof. destruct target; cbn [reaches]; apply _. Defined.

Class KeyStoreLaws (S : Type) `{KeyStore S} : Type := {
  holdsKeys : S → gset CfKey → Prop;
  law_scan s D cf target : holdsKeys s D → (cf ≤ 3)%nat →
    ∃ out s', ev (fun n => scanKeys n s cf target) (out, s') ∧ holdsKeys s' D
      ∧ ascending out ∧ ∀ k, k ∈ out ↔ (cf, k) ∈ D ∧ reaches target k;
  law_journal s D es : holdsKeys s D → holdsKeys (journalOnly s es) D;
  law_write s D es : holdsKeys s D → Forall storable es →
    ∃ s', batchWrite s es = Ok s' ∧ holdsKeys s' (D ∪ list_to_set es);
  law_apply s D es : holdsKeys s D → Forall storable es →
    ∃ s', applyExpanded s es = Ok s' ∧ holdsKeys s' (D ∪ list_to_set es);
}.

(** A scan leaves the entries a store holds alone, however far it gets. *)
Class QuietScans (S : Type) `{KL : KeyStoreLaws S} : Prop :=
  quiet_scan n s cf target out s' D : scanKeys n s cf target = Ok (out, s') → holdsKeys s D → holdsKeys s' D.

(** ** A list of entries is a store *)

Fixpoint insertKey (k : bytes) (l : list bytes) : list bytes :=
  match l with
  | [] => [k]
  | x :: l' => match bcmp k x with Lt => k :: l | Eq => l | Gt => x :: insertKey k l' end
  end.
Definition sortedKeys (W : list CfKey) (cf : nat) : list bytes :=
  foldr (fun e l => if Nat.eqb e.1 cf then insertKey e.2 l else l) [] W.

#[export] Instance listStore : KeyStore (list CfKey) := {
  scanKeys _ W cf target := Ok (filter (fun k => reaches target k) (sortedKeys W cf), W);
  journalOnly W _ := W;
  batchWrite W es := Ok (W ++ es);
  applyExpanded W es := Ok (W ++ es);
}.

Lemma elem_of_insertKey k x l : x ∈ insertKey k l ↔ x = k ∨ x ∈ l.
Proof.
  induction l as [|y l IH]; cbn [insertKey]; [by rewrite list_elem_of_singleton, elem_of_nil; tauto|].
  destruct (bcmp k y) eqn:E; rewrite !elem_of_cons, ?IH; [|tauto..]. apply bcmp_Eq in E as ->. tauto.
Qed.

Lemma insertKey_ascending k l : ascending l → ascending (insertKey k l).
Proof.
  induction l as [|y l IH]; cbn [insertKey]; intros Ha; [by repeat constructor|].
  pose proof Ha as [Hy Hl]%ascending_cons. destruct (bcmp k y) eqn:E; [done| |].
  - apply ascending_cons. split; [|done]. constructor; [done|]. eapply Forall_impl; [exact Hy|]. intros z. by apply blt_trans.
  - apply ascending_cons. split; [|by apply IH]. apply Forall_forall. intros z [->|Hz]%elem_of_insertKey.
    + unfold blt. by rewrite bcmp_opp, E.
    + rewrite Forall_forall in Hy. by apply Hy.
Qed.

Lemma sortedKeys_spec W cf : ascending (sortedKeys W cf) ∧ ∀ k, k ∈ sortedKeys W cf ↔ (cf, k) ∈ W.
Proof.
  unfold sortedKeys. induction W as [|[cf' k'] W [IH1 IH2]]; cbn [foldr fst snd].
  - split; [constructor|]. intros k. by rewrite !elem_of_nil.
  - destruct (Nat.eqb_spec cf' cf) as [->|Hne]; (split; [by try apply insertKey_ascending|]); intros k;
      rewrite ?elem_of_insertKey, IH2, elem_of_cons; split; try tauto.
    + intros [->|?]; tauto.
    + intros [[= ->]|?]; tauto.
    + intros [[= -> _]|?]; [done|tauto].
Qed.

#[export] Program Instance listStore_laws : KeyStoreLaws (list CfKey) := { holdsKeys W D := D = list_to_set W }.
Next Obligation.
  intros W D cf target -> _. destruct (sortedKeys_spec W cf) as [Ha Hk]. eexists _, W. split; [apply ev_ret|]. split_and!; [done| |].
  - by apply StronglySorted_filter.
  - intros k. rewrite list_elem_of_filter, Hk, elem_of_list_to_set. tauto.
Qed.
Next Obligation. done. Qed.
Next Obligation. intros W D es -> _. eexists. split; [done|]. by rewrite list_to_set_app_L. Qed.
Next Obligation. intros W D es -> _. eexists. split; [done|]. by rewrite list_to_set_app_L. Qed.

#[export] Instance listStore_quiet : QuietScans (list CfKey).
Proof. by intros n s cf target out s' D [= _ <-]. Qed.
