(* ===== verification/Engine.v ===== *)
(** * The datom engine (go/internal/eavt/eavt.go and write.go)

    The engine over a store that keeps [KeyStore]: scans, the write path with its
    mirrors (anchor index and hydrated entities), schema declaration and its
    persistence, allocation, lookups and recovery. Clocks are arguments, and so is
    the order in which Go ranges over a map. An operation that returns an error
    after it changed state gives [None] with the state. *)

From S2P Require Import Prelude Sexpr Keys NewestWins Hydrated Journal ActiveScan Anchor Resolver KeyStore.

(** ** Value types *)

Definition ValueTypeToEncodeMode (vt : Z) : EncodeMode :=
  if vt =? DbTypeRef then EmRef
  else if (vt =? DbTypeString) || (vt =? DbTypeKeyword) then EmVariable
  else if (vt =? DbTypeBoolean) || (vt =? DbTypeLong) || (vt =? DbTypeInstant) || (vt =? DbTypeFloat) then EmFixed
  else if (vt =? DbTypeBytes) || (vt =? DbTypeBlob) then EmBlob
  else EmVariable.

Definition ValueTypeFromName (name : bytes) : Z :=
  let n := toLower name in
  let n := if has_prefix n (bs ":db.type/") then drop (length (bs ":db.type/")) n else n in
  if bool_decide (n = bs "ref") then DbTypeRef
  else if bool_decide (n = bs "string") then DbTypeString
  else if bool_decide (n = bs "keyword") then DbTypeKeyword
  else if bool_decide (n = bs "boolean") then DbTypeBoolean
  else if bool_decide (n = bs "long") then DbTypeLong
  else if bool_decide (n = bs "instant") then DbTypeInstant
  else if bool_decide (n = bs "float") then DbTypeFloat
  else if bool_decide (n = bs "bytes") then DbTypeBytes
  else if bool_decide (n = bs "blob") then DbTypeBlob
  else DbTypeString.

(** ** Reading keys *)

(** [k[lo:hi]], [BeUint64] and [BeUint32] behind the length checks the code makes
    before each use. *)
Definition sub (k : bytes) (lo hi : nat) : bytes := take (hi - lo) (drop lo k).
Definition be64 (k : bytes) (off : nat) : Z := be_get (take 8 (drop off k)).
Definition be32 (k : bytes) (off : nat) : Z := be_get (take 4 (drop off k)).

(** The last eight bytes: transaction and retraction flag. *)
Definition suffixOf (k : bytes) : Z := be64 k (length k - 8).
Definition isRetracted (k : bytes) : bool := Z.land (suffixOf k) 1 =? 1.

(** [[]byte{byte(aid>>24), ...}]. *)
Definition bootstrapAidPrefix (aid : Z) : bytes := aidBytes aid.

(** The value of a call whose error is dropped: the zero value on an error. *)
Definition orZero {A} (m : res A) (zero : A) : res A := match m with Err _ => Ok zero | m => m end.

Section engine.
Context {S : Type} `{KS : KeyStore S}.
(** [strconv.ParseFloat]. *)
Variable ParseFloat : bytes → option Z.

(** ** State *)

Record Engine : Type := mkEngine {
  KV : S;
  Res : Resolver;
  Hyd : Set_;
  Anchors : Index;
  HydEnabled : bool;
}.
Implicit Types e : Engine.

Definition withKV e (kv : S) : Engine := mkEngine kv (Res e) (Hyd e) (Anchors e) (HydEnabled e).
Definition withRes e (r : Resolver) : Engine := mkEngine (KV e) r (Hyd e) (Anchors e) (HydEnabled e).
Definition withHyd e (h : Set_) : Engine := mkEngine (KV e) (Res e) h (Anchors e) (HydEnabled e).
Definition withAnchors e (a : Index) : Engine := mkEngine (KV e) (Res e) (Hyd e) a (HydEnabled e).

(** ** Scans *)

Definition ScanPrefix (n : nat) e (cf : nat) (prefix : bytes) : res (list bytes * Engine) :=
  '(ks, kv) ← scanKeys n (KV e) cf (Some prefix);
  Ok (takeWhile (fun k => has_prefix k prefix) ks, withKV e kv).

(** A cursor read from the start without a seek. *)
Definition scanAll (n : nat) e (cf : nat) : res (list bytes * Engine) :=
  '(ks, kv) ← scanKeys n (KV e) cf None;
  Ok (ks, withKV e kv).

Definition ScanPrefixActive (n : nat) e (cf : nat) (prefix : bytes) : res (list bytes * Engine) :=
  let slow e := '(collected, e) ← ScanPrefix n e cf prefix; Ok (activeVersions collected, e) in
  if HydEnabled e && Nat.eqb cf 0 && Nat.leb 8 (length prefix) then
    let id := DecodeEid (be64 prefix 0) in
    let '(h, hit) := ProbeComplete (Hyd e) id in
    let e := withHyd e h in
    if hit then Ok (LookupRange h id prefix, e) else slow e
  else slow e.

Definition EstimateCount (n : nat) e (cf : nat) (prefix : bytes) : res (Z * Engine) :=
  '(ks, e) ← ScanPrefix n e cf prefix;
  let c := Z.of_nat (length ks) in
  Ok (if c <? 1 then 1 else c, e).

(** ** The write path *)

Definition cfKey (en : EavtEntry) : CfKey := (Z.to_nat (CF en), Key en).

Definition mirrorAnchor (a : Index) (en : EavtEntry) : res Index :=
  let k := Key en in
  if (CF en =? 2) && Nat.leb 20 (length k) then
    let aid := be32 k 0 in
    let val := sub k 4 (length k - 16) in
    if Z.land (suffixOf k) 1 =? 0 then Anchor.Put a aid val (DecodeEid (be64 k (length k - 16)))
    else Del a aid val
  else Ok a.

Definition BatchWrite e (entries : list EavtEntry) : res Engine :=
  match entries with
  | [] => Ok e
  | _ =>
      a ← foldRes mirrorAnchor entries (Anchors e);
      let cfs := map cfKey entries in
      let durable := filter (fun d => d.1 = 0%nat) cfs in
      let kv := match durable with [] => KV e | _ => journalOnly (KV e) durable end in
      let h := if HydEnabled e then fold_left (fun h d => ApplyKey h d.2) durable (Hyd e) else Hyd e in
      kv ← batchWrite kv cfs;
      Ok (mkEngine kv (Res e) h a (HydEnabled e))
  end.

Definition encodeForMode (value : bytes) (mode : EncodeMode) : res bytes :=
  match mode with
  | EmRef =>
      match ParseInt value with
      | Some n => EncodeValue ParseFloat value mode n
      | None => Err "REF value must be an entity id"
      end
  | _ => EncodeValue ParseFloat value mode 0
  end.

Definition eidAidPrefix (eid attrID : Z) : bytes := EncodeEid eid ++ aidBytes attrID.

Definition EavtSave (n : nat) e (eid : Z) (attrName value : bytes) (t : Z) : res (option Z * Engine) :=
  match InternAttr (Res e) attrName with
  | Err _ => Ok (None, e)
  | Panic => Panic
  | Diverge => Diverge
  | Ok (attrID, r) =>
      let e := withRes e r in
      let vt := default DbTypeString (ValueTypeFor r attrID) in
      let many := IsMany r attrID in
      let mode := ValueTypeToEncodeMode vt in
      match encodeForMode value mode with
      | Err _ => Ok (None, e)
      | Panic => Panic
      | Diverge => Diverge
      | Ok encoded =>
          let indexed := IsIndexed r attrID in
          e ← (if negb many then
                 '(eks, e) ← ScanPrefix n e 0 (eidAidPrefix eid attrID);
                 foldRes (fun e ek =>
                   if Nat.ltb (length ek) 20 then Ok e
                   else if negb (Z.land (suffixOf ek) 1 =? 0) then Ok e
                   else BatchWrite e (BuildEavtEntries eid attrID (sub ek 12 (length ek - 8)) t true mode indexed)) eks e
               else Ok e);
          e ← BatchWrite e (BuildEavtEntries eid attrID encoded t false mode indexed);
          Ok (Some eid, e)
      end
  end.

Definition EavtRetract e (eid : Z) (attrName value : bytes) (t : Z) : res (option unit * Engine) :=
  match InternAttr (Res e) attrName with
  | Err _ => Ok (None, e)
  | Panic => Panic
  | Diverge => Diverge
  | Ok (attrID, r) =>
      let e := withRes e r in
      let vt := default DbTypeString (ValueTypeFor r attrID) in
      let mode := ValueTypeToEncodeMode vt in
      match encodeForMode value mode with
      | Err _ => Ok (None, e)
      | Panic => Panic
      | Diverge => Diverge
      | Ok encoded =>
          e ← BatchWrite e (BuildEavtEntries eid attrID encoded t true mode (IsIndexed r attrID));
          Ok (Some tt, e)
      end
  end.

(** [AllocateInPartition] of the resolver, its error dropped. *)
Definition allocate e (pid : Z) : res (Z * Engine) :=
  '(id, r) ← orZero (Resolver.AllocateInPartition (Res e) pid) (0, Res e);
  Ok (id, withRes e r).

Definition uintValue (u : Z) (mode : EncodeMode) : res bytes := orZero (EncodeValue ParseFloat (FormatUint u) mode 0) [].

Definition TxInstantEntry (txEid now : Z) : res (list EavtEntry) :=
  encoded ← uintValue now EmFixed;
  Ok (BuildEavtEntries txEid DbTxInstantAid encoded txEid false EmFixed false).

Definition AllocateTAndWriteTx e (now : Z) : res (Z * Engine) :=
  '(txEid, e) ← allocate e PartTx;
  entries ← TxInstantEntry txEid now;
  e ← BatchWrite e entries;
  Ok (txEid, e).

Definition AllocateTDeferred e : res (Z * Engine) := allocate e PartTx.

(** The newest transaction so far: its entity as stored in the key, its instant. *)
Definition asOfStep (asOfUs : Z) (best : option (Z * Z)) (k : bytes) : option (Z * Z) :=
  if Nat.ltb (length k) 28 || negb (be32 k 0 =? DbTxInstantAid) then best
  else if isRetracted k then best
  else
    let us := DecodeInt64 (be64 k 12) in
    if us <? 0 then best
    else if (us <=? asOfUs) && match best with None => true | Some (_, inst) => us >? inst end
    then Some (be64 k 4, us) else best.

Definition ResolveAsOfTx (n : nat) e (asOfUs : Z) : res (option Z * Engine) :=
  if asOfUs =? 2 ^ 64 - 1 then Ok (None, e)
  else if Z.shiftr asOfUs 44 =? PartTx then Ok (Some asOfUs, e)
  else
    '(ks, e) ← ScanPrefix n e 1 [0; 0; 0; u8 DbTxInstantAid];
    Ok (fst <$> fold_left (asOfStep asOfUs) ks None, e).

(** ** Schema *)

Definition EavtDeclareAttr e (name : bytes) (valueType : Z) (many unique : bool) : res (option (Z * bool) * Engine) :=
  match NormalizeAttr name with
  | Err _ => Ok (None, e)
  | Panic => Panic
  | Diverge => Diverge
  | Ok canonical =>
      match DeclareAttr (Res e) canonical valueType many with
      | Err _ => Ok (None, e)
      | Panic => Panic
      | Diverge => Diverge
      | Ok (aid, isNew, r) =>
          let e := withRes e (if unique then SetUnique r aid true else r) in
          e ← (if isNew : bool then
                 '(t, e) ← allocate e PartTx;
                 ident ← orZero (EncodeValue ParseFloat canonical EmVariable 0) [];
                 e ← BatchWrite e (BuildEavtEntries aid DbIdentAid ident aid false EmVariable true);
                 vtEnc ← uintValue valueType EmFixed;
                 e ← BatchWrite e (BuildEavtEntries aid DbValueTypeAid vtEnc t false EmFixed true);
                 cardEnc ← uintValue (if many then DbCardinalityManyAid else DbCardinalityOneAid) EmFixed;
                 BatchWrite e (BuildEavtEntries aid DbCardinalityAid cardEnc t false EmFixed true)
               else Ok e);
          e ← (if unique then
                 '(t, e) ← allocate e PartTx;
                 enc ← uintValue DbUniqueIdentityAid EmFixed;
                 BatchWrite e (BuildEavtEntries aid DbUniqueAid enc t false EmFixed true)
               else Ok e);
          Ok (Some (aid, isNew), e)
      end
  end.

Definition systemValueType (name : bytes) : Z :=
  if bool_decide (name = bs "db/ident") || bool_decide (name = bs "db.part/id") then DbTypeString
  else if bool_decide (name = bs "db/txInstant") then DbTypeInstant
  else if bool_decide (name = bs "db/isComponent") || bool_decide (name = bs "db/index")
       || bool_decide (name = bs "db/fulltext") || bool_decide (name = bs "db/noHistory") then DbTypeBoolean
  else DbTypeRef.

Definition systemUnique (name : bytes) : Z :=
  if bool_decide (name = bs "db/unique/value") then DbUniqueValueAid
  else if bool_decide (name = bs "db/unique/identity") then DbUniqueIdentityAid
  else 0.

Definition refValue (id : Z) : res bytes := orZero (EncodeValue ParseFloat [] EmRef id) [].

Definition writeSystemAttr (tx : Z) e (s : bytes * Z) : res Engine :=
  let eid := s.2 in
  ident ← orZero (EncodeValue ParseFloat s.1 EmVariable 0) [];
  e ← BatchWrite e (BuildEavtEntries eid DbIdentAid ident tx false EmVariable true);
  vtEnc ← refValue (systemValueType s.1);
  e ← BatchWrite e (BuildEavtEntries eid DbValueTypeAid vtEnc tx false EmRef true);
  cardEnc ← refValue DbCardinalityOneAid;
  e ← BatchWrite e (BuildEavtEntries eid DbCardinalityAid cardEnc tx false EmRef true);
  if negb (systemUnique s.1 =? 0) then
    uEnc ← refValue (systemUnique s.1);
    BatchWrite e (BuildEavtEntries eid DbUniqueAid uEnc tx false EmRef true)
  else Ok e.

Definition BootstrapSystemAttrs (n : nat) e : res Engine :=
  '(ks, e) ← ScanPrefix n e 1 [0; 0; 0; u8 DbIdentAid];
  if existsb (fun k => Nat.leb 24 (length k) && (DecodeEid (be64 k 4) =? DbIdentAid)) ks then Ok e
  else
    '(tx, e) ← allocate e PartTx;
    foldRes (writeSystemAttr tx) BootstrapSchema e.

(** The maps [BootstrapResolver] fills. *)
Record schemaMaps : Type := mkMaps {
  identMap : gmap Z bytes;
  vtMap : gmap Z Z;
  cardMap : gmap Z bool;
  uniqueSet : gset Z;
}.

Definition addIdent (m : schemaMaps) (en : Z) (name : bytes) : schemaMaps :=
  match name with [] => m | _ => mkMaps (<[en := name]> (identMap m)) (vtMap m) (cardMap m) (uniqueSet m) end.
Definition addType (m : schemaMaps) (en vt : Z) : schemaMaps :=
  mkMaps (identMap m) (<[en := vt]> (vtMap m)) (cardMap m) (uniqueSet m).
Definition addCard (m : schemaMaps) (en v : Z) : schemaMaps :=
  mkMaps (identMap m) (vtMap m) (<[en := v =? DbCardinalityManyAid]> (cardMap m)) (uniqueSet m).
Definition addUnique (m : schemaMaps) (en : Z) : schemaMaps :=
  mkMaps (identMap m) (vtMap m) (cardMap m) ({[en]} ∪ uniqueSet m).

(** The keys of an AEVT scan of a schema attribute that count. *)
Definition schemaKey (minLen : nat) (aid : Z) (k : bytes) : bool :=
  negb (Nat.ltb (length k) minLen || negb (be32 k 0 =? aid)) && negb (isRetracted k).

Definition bootIdent (m : schemaMaps) (k : bytes) : schemaMaps :=
  if schemaKey 24 DbIdentAid k then
    let en := DecodeEid (be64 k 4) in
    if en <? BootstrapFirstUserID then m else addIdent m en (DecodeVariableStr k 12)
  else m.
Definition bootType (m : schemaMaps) (k : bytes) : schemaMaps :=
  if schemaKey 28 DbValueTypeAid k then addType m (DecodeEid (be64 k 4)) (u32 (DecodeInt64 (be64 k 12))) else m.
Definition bootCard (m : schemaMaps) (k : bytes) : schemaMaps :=
  if schemaKey 28 DbCardinalityAid k then addCard m (DecodeEid (be64 k 4)) (u32 (DecodeInt64 (be64 k 12))) else m.
Definition bootUnique (m : schemaMaps) (k : bytes) : schemaMaps :=
  if schemaKey 20 DbUniqueAid k then addUnique m (DecodeEid (be64 k 4)) else m.

(** The CF-0 residue. [BeUint64(k, 12)] of a key of 24 bytes or more is in range. *)
Definition bootResidue (m : schemaMaps) (k : bytes) : schemaMaps :=
  if Nat.ltb (length k) 24 || isRetracted k then m
  else
    let aid := be32 k 8 in
    let en := DecodeEid (be64 k 0) in
    if en <? BootstrapFirstUserID then m
    else if aid =? DbIdentAid then addIdent m en (DecodeVariableStr k 12)
    else if aid =? DbValueTypeAid then addType m en (u32 (DecodeInt64 (be64 k 12)))
    else if aid =? DbCardinalityAid then addCard m en (u32 (DecodeInt64 (be64 k 12)))
    else if aid =? DbUniqueAid then addUnique m en
    else m.

Definition loadSchema (m : schemaMaps) (r : Resolver) (kv : Z * bytes) : Resolver :=
  LoadUserAttr r kv.2 kv.1 (default DbTypeString (vtMap m !! kv.1)) (default false (cardMap m !! kv.1))
    (bool_decide (kv.1 ∈ uniqueSet m)) false.

(** Every key until each known partition was seen once. *)
Fixpoint seedLoop (targets : gset Z) (ks : list bytes) (r : Resolver) (covered : gset Z) : Resolver :=
  match ks with
  | [] => r
  | k :: ks' =>
      if Nat.ltb (length k) 8 then seedLoop targets ks' r covered
      else if isRetracted k then seedLoop targets ks' r covered
      else
        let en := DecodeEid (be64 k 0) in
        let p := PartitionOf en in
        let '(r, covered) := if bool_decide (p ∈ targets) then (AdvancePast r en, {[p]} ∪ covered) else (r, covered) in
        if Nat.leb (size targets) (size covered) then r else seedLoop targets ks' r covered
  end.

Definition SeedPartitionCounters (n : nat) e : res Engine :=
  '(ks, e) ← scanAll n e 0;
  Ok (withRes e (seedLoop (list_to_set (KnownPartitions (Res e))) ks (Res e) ∅)).

(** [mapOrder] is the order in which Go ranges over [identMap]. *)
Definition BootstrapResolver (n : nat) (mapOrder : list (Z * bytes) → list (Z * bytes)) e : res Engine :=
  '(k1, e) ← ScanPrefix n e 1 (bootstrapAidPrefix DbIdentAid);
  let m := fold_left bootIdent k1 (mkMaps ∅ ∅ ∅ ∅) in
  '(k2, e) ← ScanPrefix n e 1 (bootstrapAidPrefix DbValueTypeAid);
  let m := fold_left bootType k2 m in
  '(k3, e) ← ScanPrefix n e 1 (bootstrapAidPrefix DbCardinalityAid);
  let m := fold_left bootCard k3 m in
  '(k4, e) ← ScanPrefix n e 0 [];
  let m := fold_left bootResidue k4 m in
  '(k5, e) ← ScanPrefix n e 1 (bootstrapAidPrefix DbUniqueAid);
  let m := fold_left bootUnique k5 m in
  let r := fold_left (loadSchema m) (mapOrder (map_to_list (identMap m))) (Res e) in
  SeedPartitionCounters n (withRes e r).

Definition NewEngine (n : nat) (mapOrder : list (Z * bytes) → list (Z * bytes)) (kv : S) (hydMax anchorMax : Z) (enabled : bool)
  : res Engine :=
  BootstrapResolver n mapOrder (mkEngine kv NewResolver (Hydrated.New hydMax) (Anchor.New anchorMax) enabled).

(** ** Entities *)

Definition AllocateInPartition e (pid : Z) : res (Z * Engine) :=
  '(eid, e) ← allocate e pid;
  Ok (eid, if HydEnabled e then withHyd e (HydrateEmpty (Hyd e) eid) else e).

Definition AllocateEntityId e : res (Z * Engine) := AllocateInPartition e PartUser.

Definition HydrateEID (n : nat) e (eid : Z) : res Engine :=
  if negb (HydEnabled e) || Contains (Hyd e) eid then Ok e
  else
    '(ks, e) ← ScanPrefixActive n e 0 (EncodeEid eid);
    Ok (match ks with [] => e | _ => withHyd e (Hydrate (Hyd e) eid ks) end).

(** The copies of the keys are the keys. *)
Definition BatchWriteForeign e (entries : list EavtEntry) : res Engine :=
  match entries with [] => Ok e | _ => BatchWrite e entries end.

(** ** Lookups *)

(** The probes: a result or a miss for each key. *)
Fixpoint probeKeys (a : Index) (keys : list bytes) : res (list (option Z) * Index) :=
  match keys with
  | [] => Ok ([], a)
  | k :: keys' =>
      '(o, a) ← (if Nat.ltb 4 (length k) then Probe a (be32 k 0) (drop 4 k) else Ok (None, a));
      '(os, a) ← probeKeys a keys';
      Ok (o :: os, a)
  end.

Fixpoint CmpBytes (a b : bytes) : Z :=
  match a, b with
  | [], [] => 0
  | [], _ :: _ => -1
  | _ :: _, [] => 1
  | x :: a', y :: b' => if negb (x =? y) then (if x <? y then -1 else 1) else CmpBytes a' b'
  end.

Fixpoint insertMiss (x : nat * bytes) (l : list (nat * bytes)) : list (nat * bytes) :=
  match l with
  | [] => [x]
  | y :: l' => if CmpBytes x.2 y.2 <? 0 then x :: l else y :: insertMiss x l'
  end.
(** [sort.SliceStable] of the misses by key. *)
Definition sortMisses (l : list (nat * bytes)) : list (nat * bytes) := fold_left (fun acc x => insertMiss x acc) l [].

Definition avetAnswer (found : list bytes) : Z :=
  match found with r :: _ => if Nat.leb 20 (length r) then DecodeEid (be64 r (length r - 16)) else 0 | [] => 0 end.

(** The misses in key order; [last_] is the last key looked up and its answer. *)
Fixpoint scanMisses (n : nat) e (misses : list (nat * bytes)) (last_ : option (bytes * Z)) (out : list Z) : res (list Z * Engine) :=
  match misses with
  | [] => Ok (out, e)
  | (i, k) :: misses' =>
      let again := match last_ with Some (k', v) => if bool_decide (k' = k) then Some v else None | None => None end in
      match again with
      | Some v => scanMisses n e misses' last_ (<[i := v]> out)
      | None =>
          '(found, e) ← ScanPrefixActive n e 2 k;
          scanMisses n e misses' (Some (k, avetAnswer found)) (<[i := avetAnswer found]> out)
      end
  end.

Definition BatchLookupAvet (n : nat) e (keys : list bytes) : res (list Z * Engine) :=
  '(os, a) ← probeKeys (Anchors e) keys;
  let e := withAnchors e a in
  let misses := omap (fun p => match p with (i, (k, None)) => Some (i, k) | _ => None end) (imap pair (zip keys os)) in
  scanMisses n e (sortMisses misses) None (map (default 0) os).

Definition firstLong (ks : list bytes) : option bytes := list.head (filter (fun k => 20 ≤ length k)%nat ks).

Definition LookupEntityByValue (n : nat) e (attrName value : bytes) : res (option Z * Engine) :=
  match LookupAttr (Res e) attrName with
  | None => Ok (None, e)
  | Some aid =>
      let mode := ValueTypeToEncodeMode (default 0 (ValueTypeFor (Res e) aid)) in
      match EncodeValue ParseFloat value mode 0 with
      | Err _ => Ok (None, e)
      | Panic => Panic
      | Diverge => Diverge
      | Ok encoded =>
          '(o, a) ← Probe (Anchors e) aid encoded;
          let e := withAnchors e a in
          match o with
          | Some eid => e ← HydrateEID n e eid; Ok (Some eid, e)
          | None =>
              '(ks, e) ← ScanPrefixActive n e 2 (aidBytes aid ++ encoded);
              match firstLong ks with
              | Some k => let eid := DecodeEid (be64 k (length k - 16)) in e ← HydrateEID n e eid; Ok (Some eid, e)
              | None => Ok (None, e)
              end
          end
      end
  end.

Definition LookupValueStr (n : nat) e (eid : Z) (attrName : bytes) : res (option bytes * Engine) :=
  match LookupAttr (Res e) attrName with
  | None => Ok (None, e)
  | Some aid =>
      '(ks, e) ← ScanPrefixActive n e 0 (eidAidPrefix eid aid);
      match list.head (filter (fun k => (20 ≤ length k)%nat ∧ isRetracted k = false) ks) with
      | None => Ok (None, e)
      | Some k =>
          v ← DecodeStoredValue (sub k 12 (length k - 8)) (default 0 (ValueTypeFor (Res e) aid));
          Ok (match v with sexpr.Str s => Some s | _ => None end, e)
      end
  end.

(** ** Recovery *)

Definition recoverStep (r : Resolver) (acc : list CfKey * Index) (k : bytes) : res (list CfKey * Index) :=
  if Nat.ltb (length k) 20 then Ok acc
  else
    let aid := be32 k 8 in
    if aid =? DbTxInstantAid then Ok acc
    else
      let retracted := isRetracted k in
      let indexed := IsIndexed r aid in
      let isRef := negb retracted && match ValueTypeFor r aid with Some vt => vt =? DbTypeRef | None => false end in
      ds ← DeriveIndexKeys k indexed isRef;
      let derived := acc.1 ++ map cfKey ds in
      if negb retracted && indexed
      then a ← Anchor.Put acc.2 aid (sub k 12 (length k - 8)) (DecodeEid (be64 k 0)); Ok (derived, a)
      else Ok (derived, acc.2).

Definition RecoverWriteState (n : nat) e : res Engine :=
  '(ks, e) ← ScanPrefix n e 0 [];
  '(derived, a) ← foldRes (recoverStep (Res e)) ks ([], Anchors e);
  kv ← applyExpanded (KV e) derived;
  Ok (withKV (withAnchors e a) kv).

(** ** The dump *)

Record Datom : Type := mkDatom {
  datomE : Z;
  datomA : Z;
  datomAttr : bytes;
  datomValue : Expr;
  datomT : Z;
  datomRetracted : bool;
}.

Definition datomOf (r : Resolver) (cf : nat) (key : bytes) : res (option Datom) :=
  if Nat.ltb (length key) 20 then Ok None
  else
    let '(t, retracted) := DecodeSuffix (suffixOf key) in
    f ← datomFields (Z.of_nat cf) key;
    match f with
    | None => Ok None
    | Some (eid, aid, vStart, vEnd) =>
        if vEnd <=? vStart then Ok None
        else
          b ← slice key vStart vEnd;
          v ← DecodeStoredValue b (default 0 (ValueTypeFor r aid));
          Ok (Some (mkDatom eid aid (AttrName r aid) v t retracted))
    end.

Fixpoint datomsOf (r : Resolver) (cf : nat) (ks : list bytes) : res (list Datom) :=
  match ks with
  | [] => Ok []
  | k :: ks' => d ← datomOf r cf k; ds ← datomsOf r cf ks'; Ok (match d with Some d => d :: ds | None => ds end)
  end.

Definition ScanDatoms (n : nat) e (cf : nat) : res (list Datom * Engine) :=
  '(ks, e) ← scanAll n e cf;
  ds ← datomsOf (Res e) cf ks;
  Ok (ds, e).
End engine.
