(* ===== verification/EngineSpec.v ===== *)
(** * Correctness of the datom engine

    Over any store that keeps [KeyStoreLaws]: what scans return, that the write
    path adds exactly its entries, and that the cache of hydrated entities never
    shows anything but what a scan of the store would. *)

From S2P Require Import Prelude Sexpr Keys Pages NewestWins Hydrated Journal ActiveScan Anchor Resolver KeyStore Engine.

(** ** Entities in a history of writes *)

Definition eidOf (k : bytes) : Z := decodeEID (beUint64 k 0).

Section history.
Implicit Types (W : list CfKey) (k : bytes).

(** The versions of an entity's datoms in a list of entries. *)
Definition entityKeys W (id : Z) : list bytes := filter (fun k => eidOf k = id) (sortedKeys W 0).

(** The datoms of a history: long enough, small enough, and no logical key
    extends another (the encodings of keys.go are self-delimiting). *)
Record datoms_ok W : Prop := {
  dat_len : ∀ k, (0%nat, k) ∈ W → (20 ≤ length k)%nat;
  dat_free : ∀ a b, (0%nat, a) ∈ W → (0%nat, b) ∈ W → pfree a b;
  dat_store : Forall storable W;
  dat_fit : Z.of_nat (length (concat (map snd W))) < 2 ^ 31;
}.

(** The key is the newest version of its logical key. *)
Definition newest W k : Prop := ∀ k', (0%nat, k') ∈ W → pfx k' = pfx k → k' <=b k.
Fixpoint newestAll W (es : list CfKey) : Prop :=
  match es with
  | [] => True
  | e :: es' => (e.1 = 0%nat → newest W e.2) ∧ newestAll (W ++ [e]) es'
  end.

(** The cache holds, of each entity in it, the active versions. *)
Record mirrors W (h : Set_) : Prop := {
  mir_good : good (fun k => (0%nat, k) ∈ W) h;
  mir_entry : ∀ id ent, index h !! id = Some ent → packed ent (activeVersions (entityKeys W id));
}.

Lemma elem_of_entityKeys W id k : k ∈ entityKeys W id ↔ (0%nat, k) ∈ W ∧ eidOf k = id.
Proof. unfold entityKeys. rewrite list_elem_of_filter, (proj2 (sortedKeys_spec W 0)). tauto. Qed.

Lemma entityKeys_ascending W id : ascending (entityKeys W id).
Proof. apply StronglySorted_filter, sortedKeys_spec. Qed.

Lemma entityKeys_ext W W' id :
  (∀ k, eidOf k = id → (0%nat, k) ∈ W ↔ (0%nat, k) ∈ W') → entityKeys W id = entityKeys W' id.
Proof.
  intros E. apply ascending_ext; [apply entityKeys_ascending..|]. intros k. rewrite !elem_of_entityKeys. split; intros [? ?]; (split; [|done]); by apply E.
Qed.

Lemma entityKeys_versions W id : datoms_ok W → versions (entityKeys W id).
Proof.
  intros [Hl Hf _ _]. constructor; [apply entityKeys_ascending| |].
  - apply Forall_forall. intros k [? _]%elem_of_entityKeys. by apply Hl.
  - intros a b [? _]%elem_of_entityKeys [? _]%elem_of_entityKeys. by apply Hf.
Qed.

Lemma datoms_sub W W' :
  (∀ e, e ∈ W' → e ∈ W) → (length (concat (map snd W')) ≤ length (concat (map snd W)))%nat → datoms_ok W → datoms_ok W'.
Proof.
  intros Hs Hl [H1 H2 H3 H4]. constructor; [eauto|eauto| |lia]. rewrite Forall_forall in *. eauto.
Qed.

Lemma datoms_app W es : datoms_ok (W ++ es) → datoms_ok W.
Proof.
  apply datoms_sub; [intros e ?; apply elem_of_app; by left|]. rewrite map_app, concat_app, length_app. lia.
Qed.

(** What the versions of an entity take is part of what all entries take. *)
Lemma length_insertKey k l : (length (concat (insertKey k l)) ≤ length k + length (concat l))%nat.
Proof.
  induction l as [|x l IH]; cbn [insertKey concat]; [rewrite length_app; cbn; lia|].
  destruct (bcmp k x); cbn [concat]; rewrite !length_app in *; lia.
Qed.

Lemma length_filter_concat (P : bytes → Prop) `{!∀ k, Decision (P k)} l : (length (concat (filter P l)) ≤ length (concat l))%nat.
Proof. induction l as [|x l IH]; [done|]. rewrite filter_cons. destruct (decide (P x)); cbn [concat]; rewrite ?length_app; lia. Qed.

Lemma length_entityKeys W id : (length (concat (entityKeys W id)) ≤ length (concat (map snd W)))%nat.
Proof.
  etransitivity; [apply length_filter_concat|]. unfold sortedKeys. induction W as [|[cf k] W IH]; [done|].
  cbn [foldr map concat fst snd]. rewrite length_app. destruct (Nat.eqb cf 0); [|lia].
  etransitivity; [apply length_insertKey|]. lia.
Qed.

Lemma sublist_concat (l1 l2 : list bytes) : l1 `sublist_of` l2 → (length (concat l1) ≤ length (concat l2))%nat.
Proof. induction 1; cbn [concat]; rewrite ?length_app; lia. Qed.

Lemma activeVersions_sublist c : activeVersions c `sublist_of` c.
Proof.
  unfold activeVersions. rewrite <- (reverse_involutive c) at 2. apply reverse_sublist, keptLoop_sublist.
Qed.

Lemma active_fits W id : datoms_ok W → fits (activeVersions (entityKeys W id)).
Proof.
  intros Hd. unfold fits. pose proof (sublist_concat _ _ (activeVersions_sublist (entityKeys W id))).
  pose proof (length_entityKeys W id). pose proof (dat_fit _ Hd). lia.
Qed.

(** The active versions of an entity are a key set. *)
Lemma active_keys_inv c : versions c → keys_inv (activeVersions c).
Proof.
  intros Hv. destruct (activeVersions_spec c Hv) as [Ha Hact].
  assert (∀ k, k ∈ activeVersions c → k ∈ c) as Hsub by (by intros k [_ [_ ?]%latest_key]%Hact).
  destruct Hv as [H1 H2 H3]. rewrite Forall_forall in H2. constructor.
  - apply ascending_pfx; [done| |intros; apply H3; auto].
    intros a b Hina Hinb E. apply Hact in Hina as [_ Hina], Hinb as [_ Hinb]. rewrite E in Hina. congruence.
  - apply Forall_forall. auto.
  - auto.
Qed.

Lemma good_mono (U V : bytes → Prop) h : (∀ k, U k → V k) → good U h → good V h.
Proof.
  intros HUV [Hi Hw]. split; [done|]. intros u e0 Hu. destruct (Hw u e0 Hu) as (ks&Hp&HU). exists ks. split; [done|].
  eapply Forall_impl; [exact HU|exact HUV].
Qed.

(** *** The cache follows the writes *)

(** Entries of the other families leave the entities alone. *)
Lemma mirrors_other W e h : e.1 ≠ 0%nat → mirrors W h → mirrors (W ++ [e]) h.
Proof.
  intros He [Hg Hm]. constructor.
  - eapply good_mono; [|exact Hg]. intros k ?. apply elem_of_app. by left.
  - intros id ent Hid. rewrite (entityKeys_ext _ W); [by apply Hm|]. intros k _.
    rewrite elem_of_app, list_elem_of_singleton. split; [intros [?|<-]; [done|]|by left]. by destruct He.
Qed.

Lemma mirrors_apply W key h :
  datoms_ok (W ++ [(0%nat, key)]) → newest W key → mirrors W h → mirrors (W ++ [(0%nat, key)]) (ApplyKey h key).
Proof.
  intros Hd Hnew [Hg Hm]. set (W' := W ++ [(0%nat, key)]) in *. pose proof (datoms_app _ _ Hd) as Hd0.
  assert (∀ k, (0%nat, k) ∈ W' ↔ k = key ∨ (0%nat, k) ∈ W) as Hin.
  { intros k. unfold W'. rewrite elem_of_app, list_elem_of_singleton. naive_solver. }
  assert (good (fun k => (0%nat, k) ∈ W') h) as Hg' by (eapply good_mono; [|exact Hg]; intros k ?; apply Hin; by right).
  assert (∀ ent, index h !! eidOf key = Some ent → Z.of_nat (length (concat (activeVersions (entityKeys W (eidOf key)))) + length key) < 2 ^ 31) as Hsz.
  { intros ent Hent. pose proof (sublist_concat _ _ (activeVersions_sublist (entityKeys W (eidOf key)))).
    pose proof (length_entityKeys W (eidOf key)). pose proof (dat_fit _ Hd) as Hf. unfold W' in Hf.
    rewrite map_app, concat_app, length_app in Hf. cbn [map snd concat] in Hf. rewrite app_nil_r in Hf. lia. }
  assert (good (fun k => (0%nat, k) ∈ W') (ApplyKey h key)) as Hg2.
  { apply good_apply; [by intros ? ?%(dat_len _ Hd)|by intros ????; apply (dat_free _ Hd)|done|apply Hin; by left|].
    intros ent Hent. rewrite (packed_buf _ _ (Hm _ _ Hent)). by apply (Hsz ent). }
  constructor; [done|]. intros id ent Hid. destruct (index h !! eidOf key) as [e0|] eqn:E0.
  - pose proof (Hm _ _ E0) as Hp. destruct (sinv_entry _ (proj1 Hg) _ _ E0) as [Hok _].
    pose proof (entityKeys_versions W (eidOf key) Hd0) as Hv.
    destruct (ApplyKey_entry h key e0 _ E0 Hp Hok (active_keys_inv _ Hv)) as (e'&ks'&delta&Hidx&Hp'&_&Hmm&_).
    { split; [apply (dat_len _ Hd), Hin; by left|]. intros k Hk. destruct (activeVersions_spec _ Hv) as [_ Hact].
      apply Hact in Hk as [_ [_ [Hk _]%elem_of_entityKeys]%latest_key]. split; apply (dat_free _ Hd); apply Hin; auto. }
    { by apply (Hsz e0). }
    rewrite Hidx in Hid. apply lookup_insert_Some in Hid as [[<- <-]|[Hne Hid]].
    + assert (ks' = activeVersions (entityKeys W' (eidOf key))) as E; [|rewrite E in Hp'; exact Hp'].
      apply (mirrored_scan (entityKeys W (eidOf key)) key); [done|by apply entityKeys_versions| | |done].
      * intros k. rewrite !elem_of_entityKeys, Hin. naive_solver.
      * intros k [Hk _]%elem_of_entityKeys. by apply Hnew.
    + rewrite (entityKeys_ext W' W); [by apply Hm|]. intros k Hk. rewrite Hin. split; [|by right]. intros [->|?]; [by destruct Hne|done].
  - assert (ApplyKey h key = h) as Eh.
    { unfold ApplyKey. unfold eidOf in E0. rewrite E0. destruct (Nat.ltb _ 20); [done|]. by destruct (Nat.eqb _ 0). }
    rewrite Eh in Hid. rewrite (entityKeys_ext W' W); [by apply Hm|]. intros k Hk. rewrite Hin. split; [|by right].
    intros [->|?]; [|done]. congruence.
Qed.

Lemma mirrors_batch es W h :
  datoms_ok (W ++ es) → newestAll W es → mirrors W h →
  mirrors (W ++ es) (fold_left (fun h d => ApplyKey h d.2) (filter (fun d => d.1 = 0%nat) es) h).
Proof.
  revert W h. induction es as [|[cf k] es IH]; intros W h Hd Hn Hm; [by rewrite app_nil_r|].
  destruct Hn as [Hk Hn]. cbn [fst snd] in *. rewrite filter_cons. cbn [fst].
  replace (W ++ (cf, k) :: es) with ((W ++ [(cf, k)]) ++ es) in * by (by rewrite <- app_assoc).
  destruct (decide (cf = 0%nat)) as [->|Hne]; cbn [fold_left snd].
  - apply IH; [done|done|]. apply mirrors_apply; [by eapply datoms_app|by apply Hk|done].
  - apply IH; [done|done|]. by apply mirrors_other.
Qed.

Lemma mirrors_index W h h' : index h' = index h → set_inv h' → mirrors W h → mirrors W h'.
Proof.
  intros E Hi [[_ Hw] Hm]. constructor; [split; [done|]|].
  - intros u ent. rewrite E. apply Hw.
  - intros u ent. rewrite E. apply Hm.
Qed.

Lemma good_hstep W h h' :
  datoms_ok W → hstep (fun k => (0%nat, k) ∈ W) h h' → good (fun k => (0%nat, k) ∈ W) h → good (fun k => (0%nat, k) ∈ W) h'.
Proof. intros Hd. apply good_step; [by intros ? ?%(dat_len _ Hd)|by intros ????; apply (dat_free _ Hd)]. Qed.

Lemma mirrors_probe W h id : datoms_ok W → mirrors W h → mirrors W (ProbeComplete h id).1.
Proof.
  intros Hd Hm. apply (mirrors_index W h); [unfold ProbeComplete, Hydrated.Probe; by destruct (index h !! id)| |done].
  eapply (good_hstep W h); [done|apply step_probe|apply Hm].
Qed.

(** An entity without datoms may be hydrated as empty. *)
Lemma mirrors_empty W h id : datoms_ok W → entityKeys W id = [] → mirrors W h → mirrors W (HydrateEmpty h id).
Proof.
  intros Hd Hno Hm. constructor; [eapply (good_hstep W h); [done|apply step_hydrate_empty|apply Hm]|].
  intros u ent. unfold HydrateEmpty. destruct (index h !! id) eqn:E; [apply Hm|]. cbn [addEntry index].
  intros [[<- <-]|[_ Hu]]%lookup_insert_Some; [|by apply Hm]. rewrite Hno. done.
Qed.

Lemma mirrors_hydrate W h id : datoms_ok W → mirrors W h → mirrors W (Hydrate h id (activeVersions (entityKeys W id))).
Proof.
  intros Hd Hm. set (ks := activeVersions _). pose proof (entityKeys_versions W id Hd) as Hv.
  pose proof (active_keys_inv _ Hv) as [Ha _ _]. pose proof (active_fits W id Hd) as Hf. fold ks in Ha, Hf. constructor.
  { eapply (good_hstep W h); [done|apply step_hydrate; [|done|done]|apply Hm]. apply Forall_forall. intros k Hk.
    destruct (activeVersions_spec _ Hv) as [_ Hact]. by apply Hact in Hk as [_ [_ [? _]%elem_of_entityKeys]%latest_key]. }
  intros u ent. unfold Hydrate. destruct (index h !! id) eqn:E; [apply Hm|]. destruct (_ >? _); [apply Hm|].
  cbn [addEntry index]. destruct (evictLoop_inv (length (lru h)) h (sumLen keyLen ks)) as (_&_&Hsub&_&_); [apply Hm|done|].
  intros [[<- <-]|[_ Hu]]%lookup_insert_Some; [|apply Hm; by eapply lookup_weaken].
  rewrite pack_spec by done. fold ks. by constructor.
Qed.
End history.

(** ** Prefixes of keys *)

Lemma take_prefix n k prefix : has_prefix k prefix = true → (n ≤ length prefix)%nat → take n k = take n prefix.
Proof. intros [s ->]%has_prefix_spec Hn. by rewrite take_app_le. Qed.

Lemma eidOf_prefix k prefix : has_prefix k prefix = true → (8 ≤ length prefix)%nat → eidOf k = DecodeEid (be64 prefix 0).
Proof.
  intros Hp Hl. unfold eidOf, beUint64, be64. rewrite !drop_0, (take_prefix 8 k prefix) by done. done.
Qed.

Lemma eidOf_pfx a b : (20 ≤ length a)%nat → (20 ≤ length b)%nat → pfx a = pfx b → eidOf a = eidOf b.
Proof.
  intros Ha Hb E. unfold eidOf, beUint64. rewrite !drop_0. do 2 f_equal.
  assert (∀ k, (20 ≤ length k)%nat → take 8 k = take 8 (pfx k)) as Ht by (intros k Hk; unfold pfx; rewrite take_take; f_equal; lia).
  by rewrite (Ht a), (Ht b), E.
Qed.

(** The prefixes the engine scans an entity by end before the suffix. *)
Lemma prefix_pfx k prefix : (20 ≤ length k)%nat → (length prefix ≤ 12)%nat → has_prefix k prefix = has_prefix (pfx k) prefix.
Proof.
  intros Hk Hp. unfold has_prefix, pfx. apply bool_decide_ext. rewrite take_take. by replace (length prefix `min` _)%nat with (length prefix) by lia.
Qed.

Lemma u64_of_i64 z : u64 (i64 z) = u64 z.
Proof.
  unfold u64, i64. rewrite <- (Zminus_mod_idemp_l (_ `mod` _)), Z.mod_mod, Zminus_mod_idemp_l by lia. f_equal. lia.
Qed.

Lemma lxor_sign_u64 x : is_u64 x → is_u64 (Z.lxor x signBit).
Proof.
  intros Hx. rewrite <- (u64_small x Hx), <- (u64_of_i64 x), lxor_signBit by apply i64_range. pose proof (i64_range x). unfold is_i64, is_u64 in *. lia.
Qed.

Lemma eidOf_Encode k id : bytes_ok k → (8 ≤ length k)%nat → is_i64 id → has_prefix k (EncodeEid id) = true ↔ eidOf k = id.
Proof.
  intros Hk Hl Hid. split.
  - intros Hp. rewrite (eidOf_prefix k (EncodeEid id) Hp) by (unfold EncodeEid; rewrite length_EncodeInt; lia).
    unfold be64, DecodeEid. rewrite drop_0, take_ge by (unfold EncodeEid; rewrite length_EncodeInt; lia). by apply DecodeInt64_get.
  - intros <-. unfold has_prefix, EncodeEid. rewrite bool_decide_eq_true, length_EncodeInt. unfold EncodeInt, eidOf, decodeEID, beUint64.
    rewrite drop_0. assert (bytes_ok (take 8 k)) as Hok by (by apply Forall_take). pose proof (be_get_bound _ Hok) as Hb.
    rewrite length_take_le in Hb by lia. set (x := be_get (take 8 k)) in *.
    assert (u64 (i64 (Z.lxor x (2 ^ 63))) = Z.lxor x (2 ^ 63)) as ->.
    { rewrite u64_of_i64. apply u64_small, (lxor_sign_u64 x). unfold is_u64. lia. }
    unfold signBit. rewrite Z.lxor_assoc, Z.lxor_nilpotent, Z.lxor_0_r. symmetry.
    pose proof (be_put_get (take 8 k) Hok) as E. rewrite length_take_le in E by lia. exact E.
Qed.

(** ** Scans of the engine *)

(** The keys of a family with a prefix, in order. *)
Definition matching (W : list CfKey) (cf : nat) (prefix : bytes) : list bytes :=
  filter (fun k => has_prefix k prefix = true) (sortedKeys W cf).

Lemma elem_of_matching W cf prefix k : k ∈ matching W cf prefix ↔ (cf, k) ∈ W ∧ has_prefix k prefix = true.
Proof. unfold matching. rewrite list_elem_of_filter, (proj2 (sortedKeys_spec W cf)). tauto. Qed.

Lemma matching_ascending W cf prefix : ascending (matching W cf prefix).
Proof. apply StronglySorted_filter, sortedKeys_spec. Qed.

Section engine.
Context {S : Type} `{KS : KeyStore S} `{KL : !KeyStoreLaws S}.
Implicit Types (W : list CfKey) (e : @Engine S).

Definition keeps W e : Prop := holdsKeys (KV e) (list_to_set W).

Lemma ScanPrefix_ev W e cf prefix :
  keeps W e → (cf ≤ 3)%nat →
  ∃ kv, ev (fun n => ScanPrefix n e cf prefix) (matching W cf prefix, withKV e kv) ∧ keeps W (withKV e kv).
Proof.
  intros Hk Hcf. destruct (law_scan (KV e) _ cf (Some prefix) Hk Hcf) as (out&kv&E&Hk'&Ha&Hout). exists kv. split; [|done].
  unfold ScanPrefix. eapply ev_bind; [exact E|]. cbv beta iota. apply ev_const. do 2 f_equal.
  rewrite takeWhile_prefix; [|done|apply Forall_forall; by intros k [_ ?]%Hout].
  apply ascending_ext; [by apply StronglySorted_filter|apply matching_ascending|]. intros k.
  rewrite list_elem_of_filter, elem_of_matching, Hout, elem_of_list_to_set. cbn [reaches]. split; [tauto|]. intros [? Hp]. split_and!; try done.
  apply has_prefix_spec in Hp as [s ->]. apply ble_prefix.
Qed.

Lemma scanAll_ev W e cf :
  keeps W e → (cf ≤ 3)%nat → ∃ kv, ev (fun n => scanAll n e cf) (sortedKeys W cf, withKV e kv) ∧ keeps W (withKV e kv).
Proof.
  intros Hk Hcf. destruct (law_scan (KV e) _ cf None Hk Hcf) as (out&kv&E&Hk'&Ha&Hout). exists kv. split; [|done].
  unfold scanAll. eapply ev_bind; [exact E|]. cbv beta iota. apply ev_const. do 2 f_equal.
  apply ascending_ext; [done|apply sortedKeys_spec|]. intros k. rewrite Hout, (proj2 (sortedKeys_spec W cf)), elem_of_list_to_set. cbn. tauto.
Qed.

(** What an active scan of an entity shows: the newest versions that assert. *)
Definition liveKeys W (prefix : bytes) : list bytes := activeVersions (matching W 0 prefix).

Lemma sortedKeys_versions W : datoms_ok W → versions (sortedKeys W 0).
Proof.
  intros [Hl Hf _ _]. destruct (sortedKeys_spec W 0) as [Ha Hk]. constructor; [done| |].
  - apply Forall_forall. intros k ?%Hk. by apply Hl.
  - intros a b ?%Hk ?%Hk. by apply Hf.
Qed.

Lemma liveKeys_spec W prefix :
  datoms_ok W → (length prefix ≤ 12)%nat →
  ascending (liveKeys W prefix)
  ∧ ∀ k, k ∈ liveKeys W prefix ↔ (0%nat, k) ∈ W ∧ has_prefix k prefix = true ∧ active k = true ∧ newest W k.
Proof.
  intros Hd Hp. pose proof (sortedKeys_versions W Hd) as Hv. destruct (sortedKeys_spec W 0) as [Ha Hk]. unfold liveKeys, matching.
  rewrite activeVersions_prefix; [|done|intros k ?%Hk; apply prefix_pfx; [by apply (dat_len _ Hd)|done]].
  destruct (activeVersions_spec _ Hv) as [Ha' Hact]. split; [by apply StronglySorted_filter|]. intros k.
  rewrite list_elem_of_filter, Hact, latest_greatest, Hk by done. unfold newest. setoid_rewrite Hk. naive_solver.
Qed.

Lemma liveKeys_entity W prefix :
  datoms_ok W → (8 ≤ length prefix ≤ 12)%nat →
  filter (fun k => has_prefix k prefix = true) (activeVersions (entityKeys W (DecodeEid (be64 prefix 0)))) = liveKeys W prefix.
Proof.
  intros Hd Hp. set (id := DecodeEid _). pose proof (entityKeys_versions W id Hd) as Hv. destruct (activeVersions_spec _ Hv) as [Ha Hact].
  destruct (liveKeys_spec W prefix Hd) as [Hl Hlive]; [lia|]. apply ascending_ext; [by apply StronglySorted_filter|done|]. intros k.
  rewrite list_elem_of_filter, Hact, latest_greatest, Hlive, elem_of_entityKeys by apply entityKeys_ascending. unfold newest. split.
  - intros (Hpx&Hac&(HW&Hid)&_&Hmax). split_and!; try done. intros k' Hk' E. apply Hmax; [|done]. apply elem_of_entityKeys. split; [done|].
    rewrite <- Hid. apply eidOf_pfx; [by apply (dat_len _ Hd)|by apply (dat_len _ Hd)|done].
  - intros (HW&Hpx&Hac&Hmax). split_and!; try done.
    + apply eidOf_prefix; [done|lia].
    + intros k' [Hk' _]%elem_of_entityKeys. by apply Hmax.
Qed.

(** ** Reachable engines *)

Record einv W e : Prop := {
  ei_keys : keeps W e;
  ei_data : datoms_ok W;
  ei_hyd : mirrors W (Hyd e);
}.

Lemma BatchWrite_Ok W e entries e' :
  keeps W e → Forall storable (map cfKey entries) → BatchWrite e entries = Ok e' →
  keeps (W ++ map cfKey entries) e' ∧ Res e' = Res e ∧ HydEnabled e' = HydEnabled e
  ∧ foldRes mirrorAnchor entries (Anchors e) = Ok (Anchors e')
  ∧ Hyd e' = if HydEnabled e then fold_left (fun h d => ApplyKey h d.2) (filter (fun d => d.1 = 0%nat) (map cfKey entries)) (Hyd e) else Hyd e.
Proof.
  intros Hk Hs. destruct entries as [|en entries]; [intros [= <-]; rewrite app_nil_r; split_and!; try done; by destruct (HydEnabled e)|].
  cbn [BatchWrite]. remember (en :: entries) as ens. rewrite res_bind_Ok. intros (a&Ea&Eb). rewrite res_bind_Ok in Eb.
  destruct Eb as (kv&Ew&[= <-]). cbn [KV Res Hyd Anchors HydEnabled]. split_and!; try done. unfold keeps. cbn [KV].
  destruct (law_write (match filter (fun d => d.1 = 0%nat) (map cfKey ens) with [] => KV e | _ => journalOnly (KV e) (filter (fun d => d.1 = 0%nat) (map cfKey ens)) end)
    (list_to_set W) (map cfKey ens)) as (kv'&E&Hk'); [|done|].
  { destruct (filter _ _) eqn:Ef; [exact Hk|]. apply law_journal, Hk. }
  assert (kv' = kv) as -> by (rewrite E in Ew; by injection Ew). by rewrite list_to_set_app_L.
Qed.

Lemma ScanPrefixActive_einv W e cf prefix :
  einv W e → (cf ≤ 3)%nat → ∃ ks e', ev (fun n => ScanPrefixActive n e cf prefix) (ks, e') ∧ einv W e' ∧ HydEnabled e' = HydEnabled e ∧ Res e' = Res e.
Proof.
  intros [Hk Hd Hm] Hcf. unfold ScanPrefixActive.
  assert (∀ e0, keeps W e0 → mirrors W (Hyd e0) → ∃ ks e', ev (fun n => '(collected, e) ← ScanPrefix n e0 cf prefix; Ok (activeVersions collected, e)) (ks, e')
    ∧ einv W e' ∧ HydEnabled e' = HydEnabled e0 ∧ Res e' = Res e0) as Hslow.
  { intros e0 Hk0 Hm0. destruct (ScanPrefix_ev W e0 cf prefix Hk0 Hcf) as (kv&E&Hk1).
    eexists _, (withKV e0 kv). split; [eapply ev_bind; [exact E|]; apply ev_ret|]. by split_and!. }
  destruct (_ && _); [|by apply Hslow]. pose proof (mirrors_probe W (Hyd e) (DecodeEid (be64 prefix 0)) Hd Hm) as Hm'.
  destruct (ProbeComplete _ _) as [h hit]. cbn [fst] in Hm'. destruct hit; [|by apply (Hslow (withHyd e h))].
  eexists _, (withHyd e h). split; [apply ev_ret|]. by split_and!.
Qed.

(** With the cache or without it, a scan of an entity gives the live keys. *)
Lemma ScanPrefixActive_live W e prefix :
  einv W e → (8 ≤ length prefix ≤ 12)%nat →
  ∃ e', ev (fun n => ScanPrefixActive n e 0 prefix) (liveKeys W prefix, e') ∧ einv W e' ∧ HydEnabled e' = HydEnabled e ∧ Res e' = Res e.
Proof.
  intros Hi Hp. destruct (ScanPrefixActive_einv W e 0 prefix Hi) as (ks&e'&E&He'); [lia|]. exists e'. split; [|done].
  assert (ks = liveKeys W prefix) as <-; [|done]. destruct Hi as [Hk Hd Hm].
  assert (∀ e0, keeps W e0 → ∃ e1, ev (fun n => '(collected, e) ← ScanPrefix n e0 0 prefix; Ok (activeVersions collected, e)) (liveKeys W prefix, e1)) as Hslow.
  { intros e0 Hk0. destruct (ScanPrefix_ev W e0 0 prefix Hk0) as (kv&E0&_); [lia|]. eexists. eapply ev_bind; [exact E0|apply ev_ret]. }
  unfold ScanPrefixActive in E. destruct (HydEnabled e && _ && _).
  - destruct (Hydrated.index (Hyd e) !! DecodeEid (be64 prefix 0)) as [ent|] eqn:Ei.
    + unfold ProbeComplete, Hydrated.Probe in E. rewrite Ei in E. eapply ev_det in E; [|apply ev_ret]. injection E as <- _.
      rewrite (LookupRange_spec _ _ ent (activeVersions (entityKeys W (DecodeEid (be64 prefix 0)))));
        [by apply liveKeys_entity|done|by apply Hm|by apply activeVersions_spec, entityKeys_versions].
    + unfold ProbeComplete, Hydrated.Probe in E. rewrite Ei in E. cbv beta iota zeta in E.
      match type of E with ev (fun n => '(_, _) ← ScanPrefix n ?e0 0 prefix; _) _ => destruct (Hslow e0 Hk) as (e1&E1) end.
      pose proof (ev_det _ _ _ E E1) as Eq. by injection Eq.
  - destruct (Hslow e Hk) as (e1&E1). pose proof (ev_det _ _ _ E E1) as Eq. by injection Eq.
Qed.

Lemma BatchWrite_einv W e entries e' :
  einv W e → datoms_ok (W ++ map cfKey entries) → newestAll W (map cfKey entries) → BatchWrite e entries = Ok e' →
  HydEnabled e = true → einv (W ++ map cfKey entries) e'.
Proof.
  intros [Hk Hd Hm] Hd' Hn E Hen. pose proof (dat_store _ Hd') as [_ Hs]%Forall_app.
  destruct (BatchWrite_Ok W e entries e' Hk Hs E) as (Hk'&_&_&_&Hh). rewrite Hen in Hh. constructor; [done|done|]. rewrite Hh. by apply mirrors_batch.
Qed.

Lemma entityKeys_matching W id : datoms_ok W → is_i64 id → matching W 0 (EncodeEid id) = entityKeys W id.
Proof.
  intros Hd Hid. apply ascending_ext; [apply matching_ascending|apply entityKeys_ascending|]. intros k.
  rewrite elem_of_matching, elem_of_entityKeys. split; intros [Hk Hp]; (split; [done|]);
    pose proof (dat_store _ Hd) as Hs; rewrite Forall_forall in Hs; destruct (Hs _ Hk) as (_&Hl&Hok); cbn [snd] in *;
    (apply eidOf_Encode; [done|lia|done|done]).
Qed.

Lemma length_EncodeEid id : length (EncodeEid id) = 8%nat.
Proof. apply length_EncodeInt. Qed.

Lemma HydrateEID_ev W e id :
  einv W e → is_i64 id → ∃ e', ev (fun n => HydrateEID n e id) e' ∧ einv W e' ∧ HydEnabled e' = HydEnabled e ∧ Res e' = Res e.
Proof.
  intros Hi Hid. unfold HydrateEID. destruct (_ || _); [exists e; split; [apply ev_ret|done]|].
  destruct (ScanPrefixActive_live W e (EncodeEid id) Hi) as (e1&E&Hi1&Hen&Hr); [rewrite length_EncodeEid; lia|].
  eexists. split; [eapply ev_bind; [exact E|apply ev_ret]|]. destruct (liveKeys W (EncodeEid id)) as [|k ks] eqn:El; [done|].
  split; [|done]. rewrite <- El. unfold liveKeys. rewrite entityKeys_matching by (done || apply Hi).
  destruct Hi1 as [Hk Hd Hm]. constructor; [done|done|]. by apply mirrors_hydrate.
Qed.

Lemma allocate_Ok e pid : ∃ id r, allocate e pid = Ok (id, withRes e r).
Proof.
  unfold allocate, Resolver.AllocateInPartition, allocateInPartitionLocked. destruct (partitions (Res e) !! pid); by eexists _, _.
Qed.

Lemma AllocateInPartition_einv W e pid id e' :
  einv W e → AllocateInPartition e pid = Ok (id, e') → entityKeys W id = [] → einv W e' ∧ HydEnabled e' = HydEnabled e.
Proof.
  intros [Hk Hd Hm]. unfold AllocateInPartition. destruct (allocate_Ok e pid) as (id0&r&->). rewrite res_bind_ret. cbv beta iota.
  intros E. apply (f_equal (fun m => match m with Ok p => p | _ => (0, e) end)) in E. apply pair_equal_spec in E as [-> <-]. intros Hno.
  cbn [withRes HydEnabled]. destruct (HydEnabled e) eqn:En; (split; [|done]); constructor; try done. by apply mirrors_empty.
Qed.

(** The states of an engine: started on a store that holds datoms, then changed
    by writes of new versions, scans, hydrations, allocations of identifiers that
    no datom has yet, and whatever happens to the schema and the anchor index. *)
Inductive ereach : list CfKey → @Engine S → Prop :=
| EStart W kv r hydMax anchorMax :
    holdsKeys kv (list_to_set W) → datoms_ok W → ereach W (mkEngine kv r (Hydrated.New hydMax) (Anchor.New anchorMax) true)
| EWrite W e entries e' :
    ereach W e → datoms_ok (W ++ map cfKey entries) → newestAll W (map cfKey entries) → BatchWrite e entries = Ok e' →
    ereach (W ++ map cfKey entries) e'
| EScan W e cf prefix ks e' :
    ereach W e → (cf ≤ 3)%nat → ev (fun n => ScanPrefixActive n e cf prefix) (ks, e') → ereach W e'
| EHydrate W e id e' : ereach W e → is_i64 id → ev (fun n => HydrateEID n e id) e' → ereach W e'
| EAllocate W e pid id e' :
    ereach W e → AllocateInPartition e pid = Ok (id, e') → entityKeys W id = [] → ereach W e'
| ESchema W e r : ereach W e → ereach W (withRes e r)
| EAnchors W e a : ereach W e → ereach W (withAnchors e a).

Lemma ereach_einv W e : ereach W e → einv W e ∧ HydEnabled e = true.
Proof.
  induction 1 as [W kv r hm am Hk Hd|W e entries e' _ [Hi Hen] Hd Hn E|W e cf prefix ks e' _ [Hi Hen] Hcf E|W e id e' _ [Hi Hen] Hid E
    |W e pid id e' _ [Hi Hen] E Hno|W e r _ [Hi Hen]|W e a _ [Hi Hen]].
  - split; [|done]. constructor; [done|done|]. cbn [Hyd]. constructor.
    + eapply good_reachable; [by intros ? ?%(dat_len _ Hd)|by intros ????; apply (dat_free _ Hd)|apply rtc_refl].
    + intros u ent. cbn [Hydrated.New Hydrated.index]. by rewrite lookup_empty.
  - pose proof (dat_store _ Hd) as [_ Hs]%Forall_app. split; [by eapply BatchWrite_einv|].
    destruct (BatchWrite_Ok W e entries e' (ei_keys _ _ Hi) Hs E) as (_&_&->&_). done.
  - destruct (ScanPrefixActive_einv W e cf prefix Hi Hcf) as (ks1&e1&E1&Hi1&Hen1&_). pose proof (ev_det _ _ _ E E1) as Eq. injection Eq as _ ->.
    split; congruence.
  - destruct (HydrateEID_ev W e id Hi Hid) as (e1&E1&Hi1&Hen1&_). pose proof (ev_det _ _ _ E E1) as ->. split; congruence.
  - destruct (AllocateInPartition_einv W e pid id e' Hi E Hno) as [Hi' ->]. done.
  - split; [|done]. destruct Hi. by constructor.
  - split; [|done]. destruct Hi. by constructor.
Qed.

(** The same engine with the cache switched off. *)
Definition uncached e : @Engine S := mkEngine (KV e) (Res e) (Hyd e) (Anchors e) false.
End engine.

(** C26. The cache of hydrated entities is transparent: in every state of an engine
    reached by writes of new versions (entries of datoms newer than all versions of
    the same datom there), scans, hydrations, evictions and allocations that give out
    identifiers without datoms, an active scan of an entity, or of one of its
    attributes (a prefix of 8 to 12 bytes), succeeds, gives the same keys with the cache as without it, and these are in
    order exactly the assertions written that no newer version of the same datom
    follows. *)
Theorem hydrated_transparent {S} `{KS : KeyStore S} `{KL : !KeyStoreLaws S} W (e : @Engine S) prefix :
  ereach W e → (8 ≤ length prefix ≤ 12)%nat →
  ∃ ks e1 e2, ev (fun n => ScanPrefixActive n e 0 prefix) (ks, e1) ∧ ev (fun n => ScanPrefixActive n (uncached e) 0 prefix) (ks, e2)
    ∧ ascending ks ∧ ∀ k, k ∈ ks ↔ (0%nat, k) ∈ W ∧ has_prefix k prefix = true ∧ active k = true ∧ newest W k.
Proof.
  intros [Hi _]%ereach_einv Hp. destruct (ScanPrefixActive_live W e prefix Hi Hp) as (e1&E1&_).
  assert (einv W (uncached e)) as Hi' by (destruct Hi; by constructor).
  destruct (ScanPrefixActive_live W (uncached e) prefix Hi' Hp) as (e2&E2&_).
  exists (liveKeys W prefix), e1, e2. split; [done|]. split; [done|]. apply liveKeys_spec; [apply Hi|lia].
Qed.

(** ** The datom of a write *)

Lemma elem_built eid aid v t r mode indexed k :
  (0%nat, k) ∈ map cfKey (BuildEavtEntries eid aid v t r mode indexed) ↔ k = BuildEavtKey eid aid v t r.
Proof.
  rewrite BuildEavtEntries_keys, !map_app, !elem_of_app. cbn [map cfKey CF Key]. rewrite !elem_of_cons, elem_of_nil. split.
  - intros [[[= ->]|[[=]|[]]]|[H|H]]; [done|..]; [destruct (bool_decide _)|destruct indexed]; set_solver.
  - intros ->. left. by left.
Qed.

(** ** A sample history *)

(** The conditions on a history, checked. *)
Definition datomsB W : bool :=
  let ks := sortedKeys W 0 in
  forallb (fun k => Nat.leb 20 (length k)) ks
  && forallb (fun a => forallb (fun b => negb (has_prefix (pfx b) (pfx a)) || bool_decide (pfx a = pfx b)) ks) ks
  && bool_decide (Forall storable W) && (Z.of_nat (length (concat (map snd W))) <? 2 ^ 31).

Lemma datomsB_ok W : datomsB W = true → datoms_ok W.
Proof.
  unfold datomsB. intros [[[H1 H2]%andb_prop H3%bool_decide_eq_true]%andb_prop H4%Z.ltb_lt]%andb_prop.
  rewrite forallb_forall in H1, H2. destruct (sortedKeys_spec W 0) as [_ Hk]. constructor; [| |done|done].
  - intros k Hin. apply Nat.leb_le, H1, list_elem_of_In, Hk, Hin.
  - intros a b Ha Hb Hp. pose proof (H2 a (proj1 (list_elem_of_In _ _) (proj2 (Hk a) Ha))) as H. rewrite forallb_forall in H.
    specialize (H b (proj1 (list_elem_of_In _ _) (proj2 (Hk b) Hb))). rewrite Hp in H. cbn [negb orb] in H. by apply bool_decide_eq_true in H.
Qed.

(** An attribute, an entity and its first value. *)
Definition sampleSchema : Z * Resolver :=
  match DeclareAttr NewResolver (bs "person/name") DbTypeString false with Ok (aid, _, r) => (aid, r) | _ => (0, NewResolver) end.
Definition sampleEid : Z := MakeEntityID PartUser 1.
Definition sampleValue (s : string) : bytes := match EncodeValue (fun _ => None) (bs s) EmVariable 0 with Ok v => v | _ => [] end.
Definition sampleHistory : list CfKey :=
  map cfKey (BuildEavtEntries sampleEid sampleSchema.1 (sampleValue "Ann") 5 false EmVariable false).
Definition sampleEngine : @Engine (list CfKey) := mkEngine sampleHistory sampleSchema.2 (Hydrated.New 4096) (Anchor.New 4096) true.

Lemma sample_ereach : ereach sampleHistory sampleEngine.
Proof. apply EStart; [done|]. apply datomsB_ok. vm_compute. reflexivity. Qed.

Lemma hydrated_transparent_witness :
  ∃ ks e1 e2, ev (fun n => ScanPrefixActive n sampleEngine 0 (EncodeEid sampleEid)) (ks, e1)
    ∧ ev (fun n => ScanPrefixActive n (uncached sampleEngine) 0 (EncodeEid sampleEid)) (ks, e2)
    ∧ BuildEavtKey sampleEid sampleSchema.1 (sampleValue "Ann") 5 false ∈ ks.
Proof.
  destruct (hydrated_transparent sampleHistory sampleEngine (EncodeEid sampleEid) sample_ereach) as (ks&e1&e2&E1&E2&_&Hk); [rewrite length_EncodeEid; lia|].
  exists ks, e1, e2. split; [done|]. split; [done|]. apply Hk.
  assert (∀ k, (0%nat, k) ∈ sampleHistory → k = BuildEavtKey sampleEid sampleSchema.1 (sampleValue "Ann") 5 false) as Hall.
  { intros k. unfold sampleHistory. by rewrite elem_built. }
  split_and!; [unfold sampleHistory; by apply elem_built|vm_compute; reflexivity|vm_compute; reflexivity|].
  intros k' ->%Hall _. apply ble_refl.
Defined.
