(* ===== verification/Numfmt.v ===== *)
(** * Printing floats (go/internal/numfmt/numfmt.go)

    [FloatString] rearranges the digits that [strconv.FormatFloat(f, 'e', -1, 64)]
    gives; that function is a parameter. Floats are their bit patterns. *)

From S2P Require Import Prelude.

(** ** Definitions *)

Definition IsNaN (f : Z) : bool := (Z.land (Z.shiftr f 52) 2047 =? 2047) && negb (Z.land f (2 ^ 52 - 1) =? 0).
Definition posInf : Z := 2047 * 2 ^ 52.
Definition negInf : Z := 2 ^ 63 + posInf.

(** [strings.IndexByte]; the length when the byte is missing. *)
Fixpoint indexByte (s : bytes) (c : Z) : nat :=
  match s with [] => 0 | b :: s' => if b =? c then 0 else S (indexByte s' c) end.
(** [strings.Replace(s, ".", "", 1)]. *)
Fixpoint dropFirst (c : Z) (s : bytes) : bytes :=
  match s with [] => [] | b :: s' => if b =? c then s' else b :: dropFirst c s' end.

Definition digitsValue (s : bytes) : Z := fold_left (fun n b => 10 * n + (b - 48)) s 0.
(** [strconv.Atoi] of an optional sign and digits. *)
Definition Atoi (s : bytes) : Z :=
  match s with
  | 43 :: s' => digitsValue s'
  | 45 :: s' => - digitsValue s'
  | _ => digitsValue s
  end.

Definition exponentDigits (x : Z) : bytes :=
  if x <? 10 then [u8 (48 + x)]
  else if x <? 100 then [u8 (48 + x / 10); u8 (48 + x `mod` 10)]
  else [u8 (48 + x / 100); u8 (48 + (x `mod` 100) / 10); u8 (48 + (x `mod` 100) `mod` 10)].

(** The digits and the place of the point. *)
Definition layout (digits : bytes) (decimalPoint : Z) : bytes :=
  let numDigits := Z.of_nat (length digits) in
  if (-6 <=? decimalPoint) && (decimalPoint <=? 17) then
    if decimalPoint <=? 0 then bs "0." ++ replicate (Z.to_nat (- decimalPoint)) 48 ++ digits
    else if decimalPoint <? numDigits then take (Z.to_nat decimalPoint) digits ++ [46] ++ drop (Z.to_nat decimalPoint) digits
    else digits ++ replicate (Z.to_nat (decimalPoint - numDigits)) 48 ++ bs ".0"
  else
    let x := decimalPoint - 1 in
    take 1 digits ++ (if numDigits >? 1 then [46] ++ drop 1 digits else [])
    ++ [101] ++ (if x <? 0 then [45] ++ exponentDigits (- x) else [43] ++ exponentDigits x).

(** A leading minus; the text is never empty. *)
Definition splitSign (sci : bytes) : bool * bytes :=
  match sci with c :: s => if c =? 45 then (true, s) else (false, sci) | [] => (false, []) end.

Section format.
(** [strconv.FormatFloat(f, 'e', -1, 64)]. *)
Variable FormatE : Z → bytes.

Definition FloatString (f : Z) : bytes :=
  if IsNaN f then bs "nan"
  else if f =? posInf then bs "inf"
  else if f =? negInf then bs "-inf"
  else if (f =? 0) || (f =? 2 ^ 63) then (if f =? 2 ^ 63 then bs "-0.0" else bs "0.0")
  else
    let sci := FormatE f in
    let '(neg, sci) := splitSign sci in
    let ei := indexByte sci 101 in
    let mantissa := take ei sci in
    let exp := Atoi (drop (ei + 1) sci) in
    let digits := dropFirst 46 mantissa in
    let decimalExponent := exp - (Z.of_nat (length digits) - 1) in
    let decimalPoint := Z.of_nat (length digits) + decimalExponent in
    (if neg then [45] else []) ++ layout digits decimalPoint.
End format.

(** ** Reading a decimal *)

(** The digits before and after the point and the exponent: [m * 10 ^ e]. *)
Definition decimalOf (s : bytes) : Z * Z :=
  let ei := indexByte s 101 in
  let mantissa := take ei s in
  let pi := indexByte mantissa 46 in
  let frac := drop (pi + 1) mantissa in
  (digitsValue (take pi mantissa ++ frac), Atoi (drop (ei + 1) s) - Z.of_nat (length frac)).

(** Two decimals denote the same number. *)
Definition sameDecimal (a b : Z * Z) : Prop :=
  a.1 * 10 ^ (a.2 - Z.min a.2 b.2) = b.1 * 10 ^ (b.2 - Z.min a.2 b.2).

Definition isDigits (s : bytes) : Prop := Forall (fun b => 48 ≤ b ≤ 57) s.

Lemma digitsValue_app a b : digitsValue (a ++ b) = digitsValue a * 10 ^ Z.of_nat (length b) + digitsValue b.
Proof.
  unfold digitsValue. rewrite fold_left_app. generalize (fold_left (fun n b => 10 * n + (b - 48)) a 0) as x.
  intros x. revert x. induction b as [|c b IH] using rev_ind; intros x; [cbn; lia|]. rewrite !fold_left_app. cbn [fold_left].
  rewrite IH, length_app. cbn [length]. replace (Z.of_nat (length b + 1)) with (Z.of_nat (length b) + 1) by lia.
  rewrite Z.pow_add_r by lia. change (10 ^ 1) with 10. ring.
Qed.

Lemma digitsValue_zeros n : digitsValue (replicate n 48) = 0.
Proof.
  unfold digitsValue. assert (∀ m, fold_left (fun n b => 10 * n + (b - 48)) (replicate m 48) 0 = 0) as G; [|apply G].
  induction m as [|m IH]; [done|]. cbn [replicate fold_left]. exact IH.
Qed.

Lemma indexByte_app s c t : c ∉ s → indexByte (s ++ c :: t) c = length s.
Proof.
  induction s as [|b s IH]; intros Hc; cbn [app indexByte length]; [by rewrite Z.eqb_refl|].
  apply not_elem_of_cons in Hc as [Hb Hs]. replace (b =? c) with false by (symmetry; apply Z.eqb_neq; congruence). f_equal. by apply IH.
Qed.

Lemma indexByte_none s c : c ∉ s → indexByte s c = length s.
Proof.
  induction s as [|b s IH]; intros Hc; cbn [indexByte length]; [done|].
  apply not_elem_of_cons in Hc as [Hb Hs]. replace (b =? c) with false by (symmetry; apply Z.eqb_neq; congruence). f_equal. by apply IH.
Qed.

Lemma digits_not s c : isDigits s → ¬ 48 ≤ c ≤ 57 → c ∉ s.
Proof. intros Hs Hc Hin. unfold isDigits in Hs. rewrite Forall_forall in Hs. by apply Hs in Hin. Qed.

Lemma drop_past (a b : bytes) (c : Z) : drop (length a + 1) (a ++ c :: b) = b.
Proof. rewrite <- drop_drop. by rewrite drop_app_length. Qed.

(** A mantissa with a point, and an exponent or none. *)
Lemma decimalOf_parts a b x :
  isDigits a → isDigits b → decimalOf (a ++ [46] ++ b ++ [101] ++ x) = (digitsValue (a ++ b), Atoi x - Z.of_nat (length b)).
Proof.
  intros Ha Hb. unfold decimalOf. replace (a ++ [46] ++ b ++ [101] ++ x) with ((a ++ 46 :: b) ++ 101 :: x) by (by rewrite <- app_assoc).
  assert (101 ∉ a ++ 46 :: b) as He.
  { rewrite elem_of_app, elem_of_cons. pose proof (digits_not a 101 Ha ltac:(lia)). pose proof (digits_not b 101 Hb ltac:(lia)). intuition discriminate. }
  rewrite indexByte_app by done. rewrite take_app_length, (drop_past (a ++ 46 :: b)).
  rewrite indexByte_app by (apply digits_not; [done|lia]). by rewrite take_app_length, drop_past.
Qed.

Lemma decimalOf_plain a b :
  isDigits a → isDigits b → decimalOf (a ++ [46] ++ b) = (digitsValue (a ++ b), - Z.of_nat (length b)).
Proof.
  intros Ha Hb. unfold decimalOf. rewrite (indexByte_none (a ++ [46] ++ b) 101).
  2:{ rewrite !elem_of_app, list_elem_of_singleton. pose proof (digits_not a 101 Ha ltac:(lia)). pose proof (digits_not b 101 Hb ltac:(lia)). intuition discriminate. }
  rewrite (take_ge (a ++ [46] ++ b)), (drop_ge (a ++ [46] ++ b) (length (a ++ [46] ++ b) + 1)) by lia. cbn [app]. rewrite indexByte_app by (apply digits_not; [done|lia]).
  by rewrite take_app_length, drop_past.
Qed.

Lemma decimalOf_whole a x : isDigits a → decimalOf (a ++ [101] ++ x) = (digitsValue a, Atoi x).
Proof.
  intros Ha. unfold decimalOf. cbn [app]. rewrite indexByte_app by (apply digits_not; [done|lia]). rewrite take_app_length, drop_past.
  rewrite indexByte_none by (apply digits_not; [done|lia]). rewrite take_ge, drop_ge by lia. rewrite app_nil_r. f_equal. cbn. lia.
Qed.

Lemma exponentDigits_value x : 0 ≤ x < 1000 → digitsValue (exponentDigits x) = x.
Proof.
  intros Hx. unfold exponentDigits, digitsValue.
  assert (∀ y, 0 ≤ y < 10 → u8 (48 + y) - 48 = y) as Hu by (intros y Hy; unfold u8; rewrite Z.mod_small; lia).
  pose proof (Z.mod_pos_bound x 100 ltac:(lia)). pose proof (Z.mod_pos_bound x 10 ltac:(lia)).
  pose proof (Z.mod_pos_bound (x `mod` 100) 10 ltac:(lia)). pose proof (Z.div_mod x 10 ltac:(lia)). pose proof (Z.div_mod x 100 ltac:(lia)).
  pose proof (Z.div_mod (x `mod` 100) 10 ltac:(lia)).
  destruct (Z.ltb_spec x 10); [|destruct (Z.ltb_spec x 100)]; cbn [fold_left]; rewrite !Hu by lia; lia.
Qed.

Lemma sameDecimal_eq m e : sameDecimal (m, e) (m, e).
Proof. done. Qed.

(** The digits and the point keep their number. *)
Lemma layout_value digits dp :
  isDigits digits → digits ≠ [] → -900 < dp ≤ 900 →
  sameDecimal (decimalOf (layout digits dp)) (digitsValue digits, dp - Z.of_nat (length digits)).
Proof.
  intros Hd Hne Hdp. set (n := Z.of_nat (length digits)). assert (1 ≤ n) by (unfold n; destruct digits; [done|cbn; lia]).
  assert (isDigits [48]) as H0 by (repeat constructor; lia). unfold layout. fold n.
  destruct (_ && _) eqn:Ew; [destruct (Z.leb_spec dp 0) as [Hle|Hgt]; [|destruct (Z.ltb_spec dp n) as [Hlt|Hge]]|].
  - assert (isDigits (replicate (Z.to_nat (- dp)) 48)) as Hz by (apply Forall_replicate; lia).
    change (bs "0.") with ([48] ++ [46]). rewrite <- app_assoc, decimalOf_plain by (done || by apply Forall_app).
    rewrite digitsValue_app, digitsValue_app, digitsValue_zeros, length_app, length_replicate. change (digitsValue [48]) with 0.
    rewrite !Z.mul_0_l, !Z.add_0_l. replace (- Z.of_nat (Z.to_nat (- dp) + length digits)) with (dp - n) by (unfold n; lia). apply sameDecimal_eq.
  - rewrite decimalOf_plain by (by apply Forall_take || by apply Forall_drop). rewrite take_drop, length_drop.
    replace (- Z.of_nat (length digits - Z.to_nat dp)) with (dp - n) by (unfold n; lia). apply sameDecimal_eq.
  - assert (isDigits (replicate (Z.to_nat (dp - n)) 48)) as Hz by (apply Forall_replicate; lia).
    change (bs ".0") with ([46] ++ [48]). rewrite app_assoc, decimalOf_plain by (done || by apply Forall_app).
    rewrite !digitsValue_app, digitsValue_zeros, length_replicate. unfold sameDecimal. cbn [fst snd length].
    change (digitsValue [48]) with 0. rewrite Z.min_l by lia. replace (- Z.of_nat 1 - - Z.of_nat 1) with 0 by lia.
    replace (dp - n - - Z.of_nat 1) with (Z.of_nat (Z.to_nat (dp - n)) + 1) by lia. rewrite Z.pow_add_r by lia. change (10 ^ 0) with 1. change (10 ^ 1) with 10.
    change (10 ^ Z.of_nat 1) with 10. ring.
  - remember (dp - 1) as x eqn:Edp. assert (Atoi (if x <? 0 then [45] ++ exponentDigits (- x) else [43] ++ exponentDigits x) = x) as Ex.
    { destruct (Z.ltb_spec x 0); cbn [app Atoi]; rewrite exponentDigits_value by lia; lia. }
    destruct digits as [|d ds]; [done|]. apply Forall_cons in Hd as [Hd1 Hds].
    assert (isDigits [d]) as Hd0 by (constructor; [exact Hd1|constructor]). cbn [take drop]. rewrite take_0, drop_0, Z.gtb_ltb.
    destruct (Z.ltb_spec 1 n) as [Hn|Hn].
    + rewrite <- app_assoc. change ([d] ++ [46] ++ ds ++ ?y) with ([d] ++ [46] ++ ds ++ y). rewrite decimalOf_parts by done.
      rewrite Ex. replace (x - Z.of_nat (length ds)) with (dp - n) by (unfold n; cbn [length]; lia). apply sameDecimal_eq.
    + destruct ds; [|unfold n in Hn; cbn [length] in Hn; lia]. cbn [app]. change (d :: 101 :: ?y) with ([d] ++ [101] ++ y).
      rewrite decimalOf_whole by done. cbn [app] in Ex. rewrite Ex. replace x with (dp - n) by (unfold n; cbn [length]; lia). apply sameDecimal_eq.
Qed.

(** [FloatString] prints the number it is given: when the shortest decimal of
    [strconv] is a digit, a fraction and an exponent, the text it lays out, plain or
    scientific, has the same sign and denotes the same decimal. *)
Theorem float_string_value FormatE f (neg : bool) d ds ex :
  IsNaN f = false → f ≠ posInf → f ≠ negInf → f ≠ 0 → f ≠ 2 ^ 63 →
  isDigits (d :: ds) → -800 < Atoi ex < 800 →
  FormatE f = (if neg then [45] else []) ++ [d] ++ (if decide (ds = []) then [] else [46] ++ ds) ++ [101] ++ ex →
  ∃ body, FloatString FormatE f = (if neg then [45] else []) ++ body
    ∧ sameDecimal (decimalOf body) (digitsValue (d :: ds), Atoi ex - Z.of_nat (length ds)).
Proof.
  intros H1 H2%Z.eqb_neq H3%Z.eqb_neq H4%Z.eqb_neq H5%Z.eqb_neq Hd Hex E. unfold FloatString. rewrite H1, H2, H3, H4, H5, E. cbn [orb].
  set (m := [d] ++ (if decide (ds = []) then [] else [46] ++ ds)).
  assert (splitSign ((if neg then [45] else []) ++ [d] ++ (if decide (ds = []) then [] else [46] ++ ds) ++ [101] ++ ex) = (neg, m ++ 101 :: ex)) as ->.
  { apply Forall_cons in Hd as [Hd _]. destruct neg; unfold m; cbn [app splitSign]; [done|]. by replace (d =? 45) with false by lia. }
  cbv beta iota. pose proof (digits_not _ 101 Hd ltac:(lia)) as H101.
  assert (101 ∉ m) as Hm.
  { unfold m. apply not_elem_of_cons in H101 as [? ?]. cbn [app]. rewrite elem_of_cons. destruct (decide (ds = [])); cbn [app]; rewrite ?elem_of_cons, ?elem_of_nil; intuition discriminate. }
  rewrite indexByte_app, take_app_length, drop_past by done.
  assert (dropFirst 46 m = d :: ds) as ->.
  { apply Forall_cons in Hd as [Hd _]. unfold m. cbn [app dropFirst]. replace (d =? 46) with false by lia. destruct (decide (ds = [])) as [->|]; done. }
  eexists. split; [done|]. match goal with |- sameDecimal (decimalOf (layout _ ?dp)) _ => pose proof (layout_value (d :: ds) dp Hd) as G end.
  replace (Atoi ex - Z.of_nat (length ds)) with (Z.of_nat (length (d :: ds)) + (Atoi ex - (Z.of_nat (length (d :: ds)) - 1)) - Z.of_nat (length (d :: ds)))
    by (cbn [length]; lia). apply G; [done|lia].
Qed.

(** Shortest decimals of 1500 and of 2 ^ -30. *)
Definition sampleE (f : Z) : bytes := if f =? 0x4097700000000000 then bs "1.5e+03" else bs "9.313225746154785e-10".

Lemma float_string_value_witness :
  FloatString sampleE 0x4097700000000000 = bs "1500.0"
  ∧ ∃ body, FloatString sampleE 0x4097700000000000 = body ∧ sameDecimal (decimalOf body) (15, 2).
Proof.
  split; [by vm_compute|]. destruct (float_string_value sampleE 0x4097700000000000 false 49 [53] (bs "+03")) as (body&E&H);
    try (by vm_compute); [discriminate..|repeat constructor; lia|]. exists body. split; [exact E|exact H].
Defined.
