(* ===== verification/Txw.v ===== *)
(** * Flat transactions (go/internal/scheme/symtab.go and txw.go)

    The table of interned symbols, the slots and operations of a flat
    transaction, and their decoding from MessagePack. Interning changes the table
    even when a later part of the request is refused, so the decoders return the
    table with a value or [None]. *)

From S2P Require Import Prelude Msgpack.

(** ** Symbols *)

Record SymTab : Type := mkSymTab {
  ids : gmap bytes Z;
  names : list bytes;
  DbAdd : Z;
  DbRetract : Z;
  DbIdent : Z;
  DbType : Z;
  DbCardinality : Z;
  DbUnique : Z;
  DbCurrentTx : Z;
}.

Definition withIds (t : SymTab) (m : gmap bytes Z) (ns : list bytes) : SymTab :=
  mkSymTab m ns (DbAdd t) (DbRetract t) (DbIdent t) (DbType t) (DbCardinality t) (DbUnique t) (DbCurrentTx t).

Definition InternSym (t : SymTab) (payload : bytes) : Z * SymTab :=
  let fresh :=
    let id := u32 (Z.of_nat (length (names t)) + 1) in
    (id, withIds t (<[payload := id]> (ids t)) (names t ++ [payload])) in
  match ids t !! payload with
  | Some id => if negb (id =? 0) then (id, t) else fresh
  | None => fresh
  end.

Definition NewSymTab : SymTab :=
  let t := mkSymTab ∅ [] 0 0 0 0 0 0 0 in
  let '(a, t) := InternSym t (bs "db/add") in
  let '(b, t) := InternSym t (bs "db/retract") in
  let '(c, t) := InternSym t (bs "db/ident") in
  let '(d, t) := InternSym t (bs "db/valueType") in
  let '(e, t) := InternSym t (bs "db/cardinality") in
  let '(f, t) := InternSym t (bs "db/unique") in
  let '(g, t) := InternSym t (bs "db/current-tx") in
  mkSymTab (ids t) (names t) a b c d e f g.

Definition SymName (t : SymTab) (id : Z) : bytes :=
  if (id =? 0) || (id >? Z.of_nat (length (names t))) then [] else nth (Z.to_nat id - 1) (names t) [].

Definition SymCount (t : SymTab) : nat := length (names t).

(** ** Slots and operations *)

(** [TxWSlot] with its kind; a field that does not belong to the kind is zero. *)
Inductive TxWSlot : Type :=
| TskMissing
| TskInt (i : Z)
| TskFloat (f : Z)
| TskBool (b : bool)
| TskStr (s : bytes)
| TskKw (sym : Z)
| TskBytes (bin : bytes)
| TskLookupRef (sym : Z) (refVal : TxWSlot).

Definition slotI (s : TxWSlot) : Z := match s with TskInt i => i | _ => 0 end.
Definition slotSym (s : TxWSlot) : Z := match s with TskKw sym => sym | TskLookupRef sym _ => sym | _ => 0 end.

Record TxWOp : Type := mkOp {
  IsRetract : bool;
  OpE : TxWSlot;
  AttrSym : Z;
  OpV : TxWSlot;
  AttrId : Z;
  VResolved : Z;
}.

(** ** Decoding *)

Fixpoint txSlotFromValue (v : value) (tab : SymTab) : option TxWSlot * SymTab :=
  match v with
  | Int x => (Some (TskInt x), tab)
  | Float x => (Some (TskFloat x), tab)
  | Str x => (Some (TskStr x), tab)
  | Bin x => (Some (TskBytes x), tab)
  | Bool x => (Some (TskBool x), tab)
  | Nil => (Some TskMissing, tab)
  | Ext ty data =>
      if ty =? ExtKeyword then let '(id, tab) := InternSym tab data in (Some (TskKw id), tab)
      else if ty =? ExtSymbol then (Some (TskStr data), tab)
      else (None, tab)
  | Array [x0; x1] =>
      let '(attr, tab) := txSlotFromValue x0 tab in
      match attr with
      | Some (TskKw sym) =>
          let '(val, tab) := txSlotFromValue x1 tab in
          match val with Some ref => (Some (TskLookupRef sym ref), tab) | None => (None, tab) end
      | _ => (None, tab)
      end
  | _ => (None, tab)
  end.

Definition txOpFromValue (v : value) (tab : SymTab) : option TxWOp * SymTab :=
  match v with
  | Array [v0; v1; v2; v3] =>
      let '(head, tab) := txSlotFromValue v0 tab in
      match head with
      | Some (TskKw sym) =>
          let isRetract := if sym =? DbAdd tab then Some false else if sym =? DbRetract tab then Some true else None in
          match isRetract with
          | None => (None, tab)
          | Some isRetract =>
              let '(e, tab) := txSlotFromValue v1 tab in
              match e with
              | None => (None, tab)
              | Some e =>
                  let '(attr, tab) := txSlotFromValue v2 tab in
                  match attr with
                  | None => (None, tab)
                  | Some attr =>
                      let attrSym := match attr with TskKw sym => sym | _ => 0 end in
                      let '(val, tab) := txSlotFromValue v3 tab in
                      match val with
                      | None => (None, tab)
                      | Some val => (Some (mkOp isRetract e attrSym val 0 0), tab)
                      end
                  end
              end
          end
      | _ => (None, tab)
      end
  | _ => (None, tab)
  end.

Fixpoint txOpsLoop (l : list value) (tab : SymTab) : option (list TxWOp) * SymTab :=
  match l with
  | [] => (Some [], tab)
  | v :: l' =>
      let '(op, tab) := txOpFromValue v tab in
      match op with
      | None => (None, tab)
      | Some op =>
          let '(ops, tab) := txOpsLoop l' tab in
          match ops with Some ops => (Some (op :: ops), tab) | None => (None, tab) end
      end
  end.

Definition TxOpsFromValue (v : value) (tab : SymTab) : option (list TxWOp) * SymTab :=
  match v with
  | Map m =>
      match Member m (Str (bs "txdata")) with
      | Some (Array arr) => txOpsLoop arr tab
      | _ => (None, tab)
      end
  | _ => (None, tab)
  end.

Definition TxOpsFromMsgpack (data : bytes) (tab : SymTab) : option (list TxWOp) * SymTab :=
  match Unmarshal data with
  | Ok v => TxOpsFromValue v tab
  | _ => (None, tab)
  end.

(** ** The symbol table *)

Record sym_ok (t : SymTab) : Prop := {
  sym_ids : ∀ p id, ids t !! p = Some id ↔ 1 ≤ id ∧ names t !! (Z.to_nat id - 1)%nat = Some p;
  sym_few : Z.of_nat (length (names t)) < 2 ^ 32;
}.

(** Later tables keep the identifiers given out. *)
Record extends (t t' : SymTab) : Prop := {
  ext_names : names t `prefix_of` names t';
  ext_add : DbAdd t' = DbAdd t;
  ext_retract : DbRetract t' = DbRetract t;
}.

#[export] Instance extends_refl : Reflexive extends.
Proof. by constructor. Qed.
#[export] Instance extends_trans : Transitive extends.
Proof. intros a b c [H1 H2 H3] [H4 H5 H6]. constructor; [by transitivity (names b)|congruence..]. Qed.

Definition interned (t : SymTab) (id : Z) (p : bytes) : Prop := 1 ≤ id ∧ names t !! (Z.to_nat id - 1)%nat = Some p.

Lemma SymName_interned t id p : interned t id p → SymName t id = p.
Proof.
  intros [H1 H2]. pose proof (lookup_lt_Some _ _ _ H2). unfold SymName.
  replace (_ || _) with false by lia. by apply nth_lookup_Some.
Qed.

Lemma interned_extends t t' id p : extends t t' → interned t id p → interned t' id p.
Proof. intros [[rest E] _ _] [H1 H2]. split; [done|]. rewrite E. by apply lookup_app_l_Some. Qed.

Lemma InternSym_spec t p :
  sym_ok t → Z.of_nat (length (names t)) + 1 < 2 ^ 32 →
  sym_ok (InternSym t p).2 ∧ extends t (InternSym t p).2 ∧ interned (InternSym t p).2 (InternSym t p).1 p
  ∧ (length (names (InternSym t p).2) ≤ S (length (names t)))%nat.
Proof.
  intros [Hi Hf] Hroom. unfold InternSym. destruct (ids t !! p) as [id|] eqn:E.
  - pose proof (proj1 (Hi p id) E) as Hid. replace (id =? 0) with false by lia. cbn [negb fst snd]. by split_and!; [constructor|..|lia].
  - assert (u32 (Z.of_nat (length (names t)) + 1) = Z.of_nat (length (names t)) + 1) as Eu by (unfold u32; rewrite Z.mod_small; lia).
    rewrite Eu. cbn [fst snd withIds names ids]. set (id := Z.of_nat (length (names t)) + 1).
    assert ((names t ++ [p]) !! (Z.to_nat id - 1)%nat = Some p) as Hl by (rewrite lookup_app_r by lia; by replace (_ - _)%nat with 0%nat by lia).
    split_and!; [constructor|constructor|by split; [lia|]|rewrite length_app; cbn; lia]; cbn [withIds names ids]; try done.
    + intros q j. destruct (decide (q = p)) as [->|Hne].
      * rewrite lookup_insert_eq. split; [intros [= <-]; split; [lia|done]|]. intros [H1 H2]. f_equal.
        destruct (decide (Z.to_nat j - 1 < length (names t))%nat) as [Hlt|Hge].
        -- rewrite lookup_app_l in H2 by done. assert (ids t !! p = Some j) as E' by (by apply Hi). congruence.
        -- apply lookup_lt_Some in H2. rewrite length_app in H2. cbn in H2. lia.
      * rewrite lookup_insert_ne by done. rewrite Hi. split; intros [H1 H2]; (split; [done|]).
        -- by apply lookup_app_l_Some.
        -- apply lookup_app_Some in H2 as [?|[_ H2]]; [done|]. apply list_lookup_singleton_Some in H2 as [_ ->]. done.
    + rewrite length_app. cbn. lia.
    + by apply prefix_app_r.
Qed.

(** ** What a request says *)

(** A value of a transaction as its sender means it, with names for symbols. *)
Inductive surface : Type :=
| SNil
| SInt (i : Z)
| SFloat (f : Z)
| SBool (b : bool)
| SStr (s : bytes)
| SKw (name : bytes)
| SBin (b : bytes)
| SRef (attr : bytes) (val : surface).

Fixpoint surfaceValue (s : surface) : value :=
  match s with
  | SNil => Nil
  | SInt i => Int i
  | SFloat f => Float f
  | SBool b => Bool b
  | SStr s => Str s
  | SKw n => Ext ExtKeyword n
  | SBin b => Bin b
  | SRef a v => Array [Ext ExtKeyword a; surfaceValue v]
  end.

Record surfaceOp : Type := mkSOp { soRetract : bool; soE : surface; soAttr : bytes; soV : surface }.

Definition opValue (o : surfaceOp) : value :=
  Array [Ext ExtKeyword (if soRetract o then bs "db/retract" else bs "db/add"); surfaceValue (soE o); Ext ExtKeyword (soAttr o);
         surfaceValue (soV o)].
Definition request (os : list surfaceOp) : value := Map [(Str (bs "txdata"), Array (map opValue os))].

(** A decoded slot read through the table. *)
Fixpoint slotSays (t : SymTab) (s : TxWSlot) (x : surface) : Prop :=
  match s, x with
  | TskMissing, SNil => True
  | TskInt i, SInt j => i = j
  | TskFloat f, SFloat g => f = g
  | TskBool b, SBool c => b = c
  | TskStr s, SStr s' => s = s'
  | TskKw sym, SKw n => interned t sym n
  | TskBytes b, SBin c => b = c
  | TskLookupRef sym r, SRef a v => interned t sym a ∧ slotSays t r v
  | _, _ => False
  end.

Definition opSays (t : SymTab) (op : TxWOp) (o : surfaceOp) : Prop :=
  IsRetract op = soRetract o ∧ slotSays t (OpE op) (soE o) ∧ interned t (AttrSym op) (soAttr o) ∧ slotSays t (OpV op) (soV o)
  ∧ AttrId op = 0 ∧ VResolved op = 0.

(** The symbols a request may add. *)
Fixpoint symbols (s : surface) : nat := match s with SKw _ => 1 | SRef _ v => S (symbols v) | _ => 0 end.
Definition opSymbols (o : surfaceOp) : nat := (2 + symbols (soE o) + symbols (soV o))%nat.

Lemma slotSays_extends t t' s x : extends t t' → slotSays t s x → slotSays t' s x.
Proof.
  intros He. revert x. induction s as [| | | | |sym| |sym r IH]; intros [] ; cbn [slotSays]; try done.
  - by apply interned_extends.
  - intros [H1 H2]. split; [by eapply interned_extends|by apply IH].
Qed.

Lemma opSays_extends t t' op o : extends t t' → opSays t op o → opSays t' op o.
Proof.
  intros He (H1&H2&H3&H4&H5&H6). split_and!; try done; [by eapply slotSays_extends|by eapply interned_extends|by eapply slotSays_extends].
Qed.

(** What a decoding step promises of the table. *)
Definition grown (t t' : SymTab) (n : nat) : Prop := sym_ok t' ∧ extends t t' ∧ (length (names t') ≤ length (names t) + n)%nat.

Lemma slot_decodes x t :
  sym_ok t → Z.of_nat (length (names t) + symbols x) < 2 ^ 32 →
  ∃ s t', txSlotFromValue (surfaceValue x) t = (Some s, t') ∧ grown t t' (symbols x) ∧ slotSays t' s x.
Proof.
  revert t. induction x as [|i|f|b|s|n|b|a x IH]; intros t Ht Hr; cbn [surfaceValue txSlotFromValue symbols] in *;
    try (eexists _, t; split; [done|]; split; [split_and!; [done|done|lia]|done]).
  - destruct (InternSym_spec t n Ht) as (H1&H2&H3&H4); [lia|]. rewrite Z.eqb_refl.
    destruct (InternSym t n) as [id t']. cbn [fst snd] in *. eexists _, t'. split; [done|]. split; [split_and!; [done|done|lia]|done].
  - destruct (InternSym_spec t a Ht) as (H1&H2&H3&H4); [lia|]. rewrite Z.eqb_refl.
    destruct (InternSym t a) as [id t1]. cbn [fst snd] in *. destruct (IH t1 H1) as (s&t2&E&(G1&G2&G3)&Hs); [lia|]. rewrite E.
    eexists _, t2. split; [done|]. split; [split_and!; [done|by transitivity t1|lia]|]. split; [by eapply interned_extends|done].
Qed.

Definition knows (t : SymTab) : Prop := interned t (DbAdd t) (bs "db/add") ∧ interned t (DbRetract t) (bs "db/retract").

Lemma knows_extends t t' : extends t t' → knows t → knows t'.
Proof. intros He [H1 H2]. pose proof He as [_ E1 E2]. split; [rewrite E1|rewrite E2]; by eapply interned_extends. Qed.

Lemma interned_unique t i j p : sym_ok t → interned t i p → interned t j p → i = j.
Proof. intros [Hi _] H1%Hi H2%Hi. congruence. Qed.

Lemma op_decodes o t :
  sym_ok t → knows t → Z.of_nat (length (names t) + opSymbols o) < 2 ^ 32 →
  ∃ op t', txOpFromValue (opValue o) t = (Some op, t') ∧ grown t t' (opSymbols o) ∧ opSays t' op o.
Proof.
  intros Ht Hkn Hr. destruct o as [ret e a v]. unfold opSymbols, opValue, txOpFromValue in *. cbn [soRetract soE soAttr soV] in *.
  destruct (slot_decodes (SKw (if ret then bs "db/retract" else bs "db/add")) t Ht) as (h&t1&E1&(A1&A2&A3)&Hh); [cbn [symbols]; lia|].
  cbn [surfaceValue symbols] in *. rewrite E1. destruct h; try done. cbn [slotSays] in Hh.
  assert ((if sym =? DbAdd t1 then Some false else if sym =? DbRetract t1 then Some true else None) = Some ret) as ->.
  { destruct (knows_extends t t1 A2 Hkn) as [K1 K2]. destruct ret.
    - rewrite (interned_unique t1 sym _ _ A1 Hh K2). destruct (Z.eqb_spec (DbRetract t1) (DbAdd t1)) as [E|_]; [|by rewrite Z.eqb_refl].
      rewrite E in K2. destruct K1 as [_ K1], K2 as [_ K2]. rewrite K1 in K2. discriminate.
    - by rewrite (interned_unique t1 sym _ _ A1 Hh K1), Z.eqb_refl. }
  destruct (slot_decodes e t1 A1) as (se&t2&->&(B1&B2&B3)&He); [lia|].
  destruct (slot_decodes (SKw a) t2 B1) as (sa&t3&E3&(C1&C2&C3)&Ha); [cbn [symbols]; lia|]. cbn [surfaceValue symbols] in *. rewrite E3. destruct sa; try done.
  destruct (slot_decodes v t3 C1) as (sv&t4&->&(D1&D2&D3)&Hv); [lia|]. eexists _, t4. split; [done|]. split.
  - split_and!; [done| |lia]. transitivity t1; [done|]. transitivity t2; [done|]. by transitivity t3.
  - split_and!; try done; cbn [OpE AttrSym OpV soE soAttr soV].
    + eapply slotSays_extends; [|exact He]. by transitivity t3.
    + eapply interned_extends; [exact D2|exact Ha].
Qed.

Definition opsSymbols (os : list surfaceOp) : nat := sum_list_with opSymbols os.

Lemma ops_decode os t :
  sym_ok t → knows t → Z.of_nat (length (names t) + opsSymbols os) < 2 ^ 32 →
  ∃ ops t', txOpsLoop (map opValue os) t = (Some ops, t') ∧ grown t t' (opsSymbols os) ∧ Forall2 (opSays t') ops os.
Proof.
  revert t. induction os as [|o os IH]; intros t Ht Hk Hr; cbn [map txOpsLoop opsSymbols sum_list_with] in *.
  { exists [], t. split; [done|]. split; [split_and!; [done|done|lia]|constructor]. }
  unfold opsSymbols in *. destruct (op_decodes o t Ht Hk) as (op&t1&->&(A1&A2&A3)&Ho); [lia|].
  destruct (IH t1 A1) as (ops&t2&->&(B1&B2&B3)&Hos); [by eapply knows_extends|lia|]. exists (op :: ops), t2. split; [done|].
  split; [split_and!; [done|by transitivity t1|lia]|]. constructor; [by eapply opSays_extends|done].
Qed.

(** Tables made by interning. *)
Definition internAll (t : SymTab) (ps : list bytes) : SymTab := fold_left (fun t p => (InternSym t p).2) ps t.

Lemma internAll_ok ps t : sym_ok t → Z.of_nat (length (names t) + length ps) < 2 ^ 32 → sym_ok (internAll t ps).
Proof.
  revert t. induction ps as [|p ps IH]; intros t Ht Hr; [done|]. cbn [internAll fold_left length] in *.
  destruct (InternSym_spec t p Ht) as (H1&_&_&H4); [lia|]. apply IH; [done|lia].
Qed.

Lemma sym_ok_ext t t' : ids t' = ids t → names t' = names t → sym_ok t → sym_ok t'.
Proof. intros E1 E2 [H1 H2]. constructor; [rewrite E1, E2|rewrite E2]; done. Qed.

Lemma NewSymTab_ok : sym_ok NewSymTab ∧ knows NewSymTab.
Proof.
  split; [|split; by split]. set (t0 := mkSymTab ∅ [] 0 0 0 0 0 0 0).
  apply (sym_ok_ext (internAll t0 (names NewSymTab))); [vm_compute; reflexivity..|]. apply internAll_ok; [|by vm_compute].
  constructor; [|done]. intros p id. cbn [t0 ids names]. rewrite lookup_empty. split; [done|]. by intros [_ ?].
Qed.

(** Flat transactions are read as they were meant: decoding an encoded request
    succeeds, and every operation read through the table of symbols says what the
    sender said, whatever names the table held before; the table only grows. *)
Theorem tx_wire_roundtrip os tab :
  sym_ok tab → knows tab → wf (request os) = true → Z.of_nat (length (names tab) + opsSymbols os) < 2 ^ 32 →
  ∃ ops tab', TxOpsFromMsgpack (Marshal (request os)) tab = (Some ops, tab') ∧ sym_ok tab' ∧ extends tab tab'
    ∧ Forall2 (opSays tab') ops os.
Proof.
  intros Ht Hk Hw Hr. unfold TxOpsFromMsgpack. rewrite unmarshal_marshal by done. unfold TxOpsFromValue, request.
  cbn [Member]. change (Equal (Str (bs "txdata")) (Str (bs "txdata"))) with true. cbv iota.
  destruct (ops_decode os tab Ht Hk Hr) as (ops&tab'&->&(G1&G2&_)&Hs). by exists ops, tab'.
Qed.

Definition sampleTx : list surfaceOp :=
  [mkSOp false (SInt (-1)) (bs "person/name") (SStr (bs "Alice"));
   mkSOp true (SRef (bs "person/email") (SStr (bs "a@b.c"))) (bs "person/friend") (SInt 7)].

Lemma tx_wire_roundtrip_witness :
  ∃ ops tab', TxOpsFromMsgpack (Marshal (request sampleTx)) NewSymTab = (Some ops, tab') ∧ Forall2 (opSays tab') ops sampleTx.
Proof.
  assert (wf (request sampleTx) = true) as Hw by (vm_compute; reflexivity).
  assert (Z.of_nat (length (names NewSymTab) + opsSymbols sampleTx) < 2 ^ 32) as Hr by (vm_compute; reflexivity).
  destruct (tx_wire_roundtrip sampleTx NewSymTab (proj1 NewSymTab_ok) (proj2 NewSymTab_ok) Hw Hr) as (ops&tab'&E&_&_&Hs).
  exists ops, tab'. split; [exact E|exact Hs].
Defined.
