(* ===== verification/QueryStore.v ===== *)
(** * The query store (go/internal/engine/write.go and engine.go)

    The layer between programs and the datom engine: values of programs and of
    flat transactions packed and encoded, saves that retract the current value of a
    cardinality-one attribute, batches, and lookups. The counters and timers are
    left out. An operation that returns an error gives [None] with the state. *)

From S2P Require Import Prelude Sexpr Keys NewestWins Hydrated Journal ActiveScan Anchor Resolver KeyStore Engine Numfmt Txw.

Definition FormatInt (n : Z) : bytes := if n <? 0 then 45 :: FormatUint (- n) else FormatUint n.

(** The bytes of [true] and [false]. *)
Definition boolText (b : bool) : bytes := if b then bs "true" else bs "false".
Definition boolBit (b : bool) : bytes := if b then bs "1" else bs "0".

Section values.
(** [strconv.FormatFloat(f, 'g', -1, 64)] and [strconv.FormatFloat(f, 'e', -1, 64)]. *)
Variables FormatG FormatE : Z → bytes.

Definition sexprToPackedValue (val : Expr) : bytes :=
  match val with
  | sexpr.Void => []
  | sexpr.Int v => FormatInt v
  | sexpr.Float v => FormatG v
  | sexpr.Str v => v
  | sexpr.Keyword v => v
  | sexpr.Bool v => boolText v
  | sexpr.Bytes v => v
  | _ => []
  end.

Definition sexprToValueForType (val : Expr) (vt : Z) : bytes :=
  if vt =? DbTypeBoolean then match val with sexpr.Bool b => boolBit b | _ => bs "0" end
  else if (vt =? DbTypeBytes) || (vt =? DbTypeBlob) then match val with sexpr.Bytes b => b | _ => bs "0" end
  else sexprToPackedValue val.

(** query/edn_tx.go; the table is never nil here. *)
Definition slotToPackedValue (v : TxWSlot) (tab : SymTab) : bytes :=
  match v with
  | TskInt i => FormatInt i
  | TskFloat f => FloatString FormatE f
  | TskStr s => s
  | TskKw sym => SymName tab sym
  | TskBool b => boolText b
  | TskBytes b => b
  | _ => []
  end.

Definition SlotToValueForType (v : TxWSlot) (vt : Z) (tab : SymTab) : bytes :=
  if vt =? DbTypeBoolean then match v with TskBool b => boolBit b | _ => bs "0" end
  else if (vt =? DbTypeBytes) || (vt =? DbTypeBlob) then match v with TskBytes b => b | _ => bs "0" end
  else slotToPackedValue v tab.
End values.

Section store.
Context {S : Type} `{KS : KeyStore S}.
Variable ParseFloat : bytes → option Z.
Variables FormatG FormatE : Z → bytes.

Record QueryStore : Type := mkQS { Eavt : @Engine S; symtab : SymTab }.
Implicit Types (q : QueryStore) (e : @Engine S).

Definition withEavt q e : QueryStore := mkQS e (symtab q).

(** ** Encoding *)

Definition encodePacked (packed : bytes) (mode : EncodeMode) (eid : Z) : res bytes :=
  match mode with
  | EmRef =>
      match ParseInt packed with
      | Some n => EncodeValue ParseFloat packed mode n
      | None => Err "REF value must be an entity id"
      end
  | _ => EncodeValue ParseFloat packed mode eid
  end.

Definition encodeSaveValue (val : Expr) (vt : Z) (mode : EncodeMode) (eid : Z) : res bytes :=
  encodePacked (sexprToValueForType FormatG val vt) mode eid.

Definition encodeSaveValueSlot (val : TxWSlot) (vt : Z) (mode : EncodeMode) (eid : Z) (tab : SymTab) : res bytes :=
  encodePacked (SlotToValueForType FormatE val vt tab) mode eid.

Definition eidAttrPrefix (eid aid : Z) : bytes := EncodeEid eid ++ aidBytes aid.

(** ** Saves *)

(** The current values are retracted, the new one is asserted. *)
Definition retractions (eid attrID : Z) (mode : EncodeMode) (indexed : bool) (t : Z) (keys : list bytes) : list EavtEntry :=
  flat_map (fun ek => if Nat.ltb (length ek) 20 then []
                      else BuildEavtEntries eid attrID (sub ek 12 (length ek - 8)) t true mode indexed) keys.

Definition saveResolvedEncodedInto (n : nat) e (eid attrID : Z) (many indexed : bool) (mode : EncodeMode) (encoded : bytes) (t : Z)
    (entries : list EavtEntry) : res (list EavtEntry * @Engine S) :=
  '(entries, e) ←
    (if negb many then
       '(keys, e) ← ScanPrefixActive n e 0 (eidAttrPrefix eid attrID);
       Ok (entries ++ retractions eid attrID mode indexed t keys, e)
     else Ok (entries, e));
  Ok (entries ++ BuildEavtEntries eid attrID encoded t false mode indexed, e).

(** What the engine knows of an attribute. *)
Record opMeta : Type := mkMeta { metaVt : Z; metaMode : EncodeMode; metaMany : bool; metaIndexed : bool }.
Definition metaFor e (aid : Z) : opMeta :=
  let vt := default 0 (ValueTypeFor (Res e) aid) in
  mkMeta vt (ValueTypeToEncodeMode vt) (IsMany (Res e) aid) (IsIndexed (Res e) aid).

Definition SaveWithT (n : nat) q (eid : Z) (attr : bytes) (val : Expr) (t : Z) : res (option unit * QueryStore) :=
  match LookupAttr (Res (Eavt q)) attr with
  | None => Ok (None, q)
  | Some aid =>
      let m := metaFor (Eavt q) aid in
      match encodeSaveValue val (metaVt m) (metaMode m) eid with
      | Err _ => Ok (None, q)
      | Panic => Panic
      | Diverge => Diverge
      | Ok encoded =>
          '(entries, e) ← saveResolvedEncodedInto n (Eavt q) eid aid (metaMany m) (metaIndexed m) (metaMode m) encoded t [];
          e ← BatchWrite e entries;
          Ok (Some tt, withEavt q e)
      end
  end.

(** Pairs with the entities in turn, each written before the next is looked at. *)
Fixpoint savePairs (n : nat) q (aid : Z) (m : opMeta) (pairs : list (Z * Expr)) (t : Z) : res (option unit * QueryStore) :=
  match pairs with
  | [] => Ok (Some tt, q)
  | (eid, val) :: pairs' =>
      match encodeSaveValue val (metaVt m) (metaMode m) eid with
      | Err _ => Ok (None, q)
      | Panic => Panic
      | Diverge => Diverge
      | Ok encoded =>
          '(entries, e) ← saveResolvedEncodedInto n (Eavt q) eid aid (metaMany m) (metaIndexed m) (metaMode m) encoded t [];
          e ← BatchWrite e entries;
          savePairs n (withEavt q e) aid m pairs' t
      end
  end.

(** All pairs in one batch. *)
Fixpoint bulkPairs (n : nat) q (aid : Z) (m : opMeta) (pairs : list (Z * Expr)) (t : Z) (all : list EavtEntry) : res (option unit * QueryStore) :=
  match pairs with
  | [] => e ← BatchWrite (Eavt q) all; Ok (Some tt, withEavt q e)
  | (eid, val) :: pairs' =>
      match encodeSaveValue val (metaVt m) (metaMode m) eid with
      | Err _ => Ok (None, q)
      | Panic => Panic
      | Diverge => Diverge
      | Ok encoded =>
          '(all, e) ← saveResolvedEncodedInto n (Eavt q) eid aid (metaMany m) (metaIndexed m) (metaMode m) encoded t all;
          bulkPairs n (withEavt q e) aid m pairs' t all
      end
  end.

Definition SaveManyWithT (n : nat) q (attr : bytes) (pairs : list (Z * Expr)) (t : Z) : res (option unit * QueryStore) :=
  match LookupAttr (Res (Eavt q)) attr with
  | None => Ok (None, q)
  | Some aid =>
      let m := metaFor (Eavt q) aid in
      let bulk := metaMany m || negb (Nat.ltb 1 (length pairs)) || bool_decide (NoDup (map fst pairs)) in
      if bulk then bulkPairs n q aid m pairs t [] else savePairs n q aid m pairs t
  end.

Definition Retract q (eid : Z) (attr : bytes) (val : Expr) (t : Z) : res (option unit * QueryStore) :=
  match LookupAttr (Res (Eavt q)) attr with
  | None => Ok (Some tt, q)
  | Some aid =>
      let m := metaFor (Eavt q) aid in
      match encodeSaveValue val (metaVt m) (metaMode m) eid with
      | Err _ => Ok (None, q)
      | Panic => Panic
      | Diverge => Diverge
      | Ok encoded =>
          e ← BatchWrite (Eavt q) (BuildEavtEntries eid aid encoded t true (metaMode m) (metaIndexed m));
          Ok (Some tt, withEavt q e)
      end
  end.

(** ** Flat transactions *)

Definition opIsSchema (tab : SymTab) (op : TxWOp) : bool :=
  negb (IsRetract op)
  && ((AttrSym op =? DbIdent tab) || (AttrSym op =? DbType tab) || (AttrSym op =? DbCardinality tab) || (AttrSym op =? DbUnique tab)).

Definition effVal (op : TxWOp) : TxWSlot :=
  match OpV op with
  | TskInt i => if i <? 0 then TskInt (VResolved op) else OpV op
  | TskLookupRef _ _ => TskInt (VResolved op)
  | v => v
  end.

(** The data operations; the cache of attribute records holds what [metaFor] gives. *)
Fixpoint saveOps (n : nat) e (tab : SymTab) (txops : list TxWOp) (t : Z) (entries : list EavtEntry) : res (list EavtEntry * @Engine S) :=
  match txops with
  | [] => Ok (entries, e)
  | op :: txops' =>
      if IsRetract op || (AttrId op =? 0) || opIsSchema tab op then saveOps n e tab txops' t entries
      else
        let m := metaFor e (AttrId op) in
        match encodeSaveValueSlot (effVal op) (metaVt m) (metaMode m) (slotI (OpE op)) tab with
        | Err _ => saveOps n e tab txops' t entries
        | Panic => Panic
        | Diverge => Diverge
        | Ok encoded =>
            '(entries, e) ← saveResolvedEncodedInto n e (slotI (OpE op)) (AttrId op) (metaMany m) (metaIndexed m) (metaMode m) encoded t entries;
            saveOps n e tab txops' t entries
        end
  end.

Definition SaveBatchEdn (n : nat) q (txops : list TxWOp) (t now : Z) : res QueryStore :=
  entries ← TxInstantEntry ParseFloat t now;
  '(entries, e) ← saveOps n (Eavt q) (symtab q) txops t entries;
  e ← BatchWrite e entries;
  Ok (withEavt q e).

Fixpoint retractOps e (tab : SymTab) (txops : list TxWOp) (t : Z) : res (list EavtEntry) :=
  match txops with
  | [] => Ok []
  | op :: txops' =>
      if negb (IsRetract op) || (AttrId op =? 0) then retractOps e tab txops' t
      else
        let m := metaFor e (AttrId op) in
        match encodeSaveValueSlot (OpV op) (metaVt m) (metaMode m) (slotI (OpE op)) tab with
        | Err _ => retractOps e tab txops' t
        | Panic => Panic
        | Diverge => Diverge
        | Ok encoded =>
            rest ← retractOps e tab txops' t;
            Ok (BuildEavtEntries (slotI (OpE op)) (AttrId op) encoded t true (metaMode m) (metaIndexed m) ++ rest)
        end
  end.

Definition RetractBatch q (txops : list TxWOp) (t : Z) : res QueryStore :=
  entries ← retractOps (Eavt q) (symtab q) txops t;
  match entries with
  | [] => Ok q
  | _ => e ← BatchWrite (Eavt q) entries; Ok (withEavt q e)
  end.

(** ** Lookups *)

Definition holdsValue (encoded : bytes) (ks : list bytes) : bool :=
  existsb (fun k => Nat.leb 20 (length k) && bool_decide (sub k 12 (length k - 8) = encoded)) ks.

Definition HasDatomW (n : nat) q (eid attrID : Z) (val : TxWSlot) : res (bool * QueryStore) :=
  let e := Eavt q in
  let m := metaFor e attrID in
  match encodeSaveValueSlot val (metaVt m) (metaMode m) eid (symtab q) with
  | Err _ => Ok (false, q)
  | Panic => Panic
  | Diverge => Diverge
  | Ok encoded =>
      let slow e := '(ks, e) ← ScanPrefixActive n e 0 (eidAttrPrefix eid attrID); Ok (holdsValue encoded ks, withEavt q e) in
      if HydEnabled e then
        let '(h, hit) := ProbeComplete (Hyd e) eid in
        let e := withHyd e h in
        if hit then
          if negb (HasAttrKey h eid attrID) then Ok (false, withEavt q e)
          else Ok (holdsValue encoded (LookupRange h eid (eidAttrPrefix eid attrID ++ encoded)), withEavt q e)
        else slow e
      else slow e
  end.

(** The anchor first, then the first active AVET key that is long enough. *)
Definition lookupEncoded (n : nat) (first : list bytes → option bytes) e (aid : Z) (encoded : bytes) : res (option Z * @Engine S) :=
  '(o, a) ← Probe (Anchors e) aid encoded;
  let e := withAnchors e a in
  match o with
  | Some eid => e ← HydrateEID n e eid; Ok (Some eid, e)
  | None =>
      '(ks, e) ← ScanPrefixActive n e 2 (aidBytes aid ++ encoded);
      match first ks with
      | Some k => let eid := DecodeEid (be64 k (length k - 16)) in e ← HydrateEID n e eid; Ok (Some eid, e)
      | None => Ok (None, e)
      end
  end.

Definition LookupEntityW (n : nat) q (attrName : bytes) (value : TxWSlot) : res (option Z * QueryStore) :=
  match LookupAttr (Res (Eavt q)) attrName with
  | None => Ok (None, q)
  | Some aid =>
      let m := metaFor (Eavt q) aid in
      match EncodeValue ParseFloat (SlotToValueForType FormatE value (metaVt m) (symtab q)) (metaMode m) 0 with
      | Err _ => Ok (None, q)
      | Panic => Panic
      | Diverge => Diverge
      | Ok encoded => '(o, e) ← lookupEncoded n firstLong (Eavt q) aid encoded; Ok (o, withEavt q e)
      end
  end.

(** Only the first key counts. *)
Definition firstIfLong (ks : list bytes) : option bytes :=
  match ks with k :: _ => if Nat.leb 20 (length k) then Some k else None | [] => None end.

Definition LookupEntity (n : nat) q (attrName : bytes) (value : Expr) : res (option Z * QueryStore) :=
  match LookupAttr (Res (Eavt q)) attrName with
  | None => Ok (None, q)
  | Some aid =>
      let m := metaFor (Eavt q) aid in
      match EncodeValue ParseFloat (sexprToValueForType FormatG value (metaVt m)) (metaMode m) 0 with
      | Err _ => Ok (None, q)
      | Panic => Panic
      | Diverge => Diverge
      | Ok encoded => '(o, e) ← lookupEncoded n firstIfLong (Eavt q) aid encoded; Ok (o, withEavt q e)
      end
  end.

Definition LookupValue (n : nat) q (eid : Z) (attrName : bytes) : res (option Expr * QueryStore) :=
  match LookupAttr (Res (Eavt q)) attrName with
  | None => Ok (None, q)
  | Some aid =>
      '(ks, e) ← ScanPrefixActive n (Eavt q) 0 (eidAttrPrefix eid aid);
      match firstIfLong ks with
      | None => Ok (None, withEavt q e)
      | Some k =>
          e ← HydrateEID n e eid;
          v ← DecodeStoredValue (sub k 12 (length k - 8)) (default 0 (ValueTypeFor (Res e) aid));
          Ok (Some v, withEavt q e)
      end
  end.

Definition IsUniqueAttr q (name : bytes) : bool :=
  match LookupAttr (Res (Eavt q)) name with Some aid => IsUnique (Res (Eavt q)) aid | None => false end.

Definition DeclareAttrFromSQL q (attr typeName : bytes) (many unique : bool) : res (option unit * QueryStore) :=
  '(o, e) ← EavtDeclareAttr ParseFloat (Eavt q) attr (ValueTypeFromName typeName) many unique;
  Ok (match o with Some _ => Some tt | None => None end, withEavt q e).
End store.
