(* ===== verification/QuerySpec.v ===== *)
(** * Correctness of saves

    What a save of a cardinality-one attribute leaves behind, that it succeeds, and
    what happens when the value saved is the one already there. *)

From S2P Require Import Prelude Sexpr Keys Pages NewestWins Hydrated Journal ActiveScan Anchor Resolver KeyStore Engine EngineSpec Numfmt Txw QueryStore.

(** ** The anchor index takes the writes *)

(** The index is in order and can take [c] more bytes of keys. *)
Definition anchorRoom (a : Index) (c : Z) : Prop :=
  ∃ order K A, ainv a order K None ∧ sized a A ∧ A + c < 2 ^ 31.

Definition entryBytes (entries : list EavtEntry) : Z := Z.of_nat (length (concat (map Key entries))).

Lemma anchorRoom_less a c c' : anchorRoom a c → c' ≤ c → anchorRoom a c'.
Proof. intros (order&K&A&Hi&Hs&Hr) Hc. exists order, K, A. split_and!; [done|done|lia]. Qed.

Lemma mirrorAnchor_ok a en c :
  0 ≤ c → anchorRoom a (Z.of_nat (length (Key en)) + c) → ∃ a', mirrorAnchor a en = Ok a' ∧ anchorRoom a' c.
Proof.
  intros Hc Hroom. unfold mirrorAnchor. destruct (_ && _) eqn:E; [|exists a; split; [done|]; eapply anchorRoom_less; [done|lia]].
  apply andb_prop in E as [_ Hl%Nat.leb_le]. destruct Hroom as (order&K&A&Hi&Hs&Hr). pose proof (sized_small _ _ Hs) as Hsm.
  set (val := sub _ _ _). assert (4 + Z.of_nat (length val) ≤ Z.of_nat (length (Key en))) as Hv.
  { unfold val, sub. rewrite length_take, length_drop. lia. }
  destruct (_ =? 0).
  - destruct (Put_spec a order K A (be32 (Key en) 0) val (DecodeEid (be64 (Key en) (length (Key en) - 16))) Hi Hs) as (a'&o'&K'&->&Hi'&Hs'&_); [lia|].
    eexists. split; [done|]. exists o', K', (A + 4 + Z.of_nat (length val)). split_and!; [done|done|lia].
  - destruct (Del_spec a order K (be32 (Key en) 0) val Hi Hsm) as (a'&o'&->&Hi'&_&Hz). eexists. split; [done|].
    exists o', K, A. split_and!; [done|by eapply sized_same|lia].
Qed.

Lemma mirrorAll_ok entries a c :
  0 ≤ c → anchorRoom a (entryBytes entries + c) → ∃ a', foldRes mirrorAnchor entries a = Ok a' ∧ anchorRoom a' c.
Proof.
  intros Hc. revert a. induction entries as [|en entries IH]; intros a Hr; cbn [foldRes]; [by exists a|].
  assert (entryBytes (en :: entries) = Z.of_nat (length (Key en)) + entryBytes entries) as E by (unfold entryBytes; cbn [map concat]; rewrite length_app; lia).
  destruct (mirrorAnchor_ok a en (entryBytes entries + c)) as (a1&->&Hr1); [unfold entryBytes; lia|by rewrite Z.add_assoc, <- E|].
  rewrite res_bind_ret. by apply IH.
Qed.

Lemma Probe_room a c aid val : 0 ≤ c → anchorRoom a c → ∃ o a', Probe a aid val = Ok (o, a') ∧ anchorRoom a' c.
Proof.
  intros Hc (order&K&A&Hi&Hs&Hr). destruct (Probe_spec a order K aid val Hi (sized_small _ _ Hs)) as (a'&o'&->&Hi'&_&Hz).
  eexists _, a'. split; [done|]. exists o', K, A. split_and!; [done|by eapply sized_same|done].
Qed.

Section batch.
Context {S : Type} `{KS : KeyStore S} `{KL : !KeyStoreLaws S}.

(** A batch of storable entries is written when the anchor index has room. *)
Lemma BatchWrite_succeeds W (e : @Engine S) entries c :
  keeps W e → Forall storable (map cfKey entries) → 0 ≤ c → anchorRoom (Anchors e) (entryBytes entries + c) →
  ∃ e', BatchWrite e entries = Ok e' ∧ anchorRoom (Anchors e') c.
Proof.
  intros Hk Hs Hc Hr. destruct (mirrorAll_ok entries (Anchors e) c Hc Hr) as (a&Ea&Hr').
  assert (∃ e', BatchWrite e entries = Ok e') as [e' E].
  { destruct entries as [|en entries]; [by exists e|]. cbn [BatchWrite]. remember (en :: entries) as ens. rewrite Ea, res_bind_ret.
    match goal with |- context [batchWrite ?kv _] => destruct (law_write kv (list_to_set W) (map cfKey ens)) as (kv'&->&_); [|done|] end.
    { destruct (filter _ _) eqn:Ef; [exact Hk|]. apply law_journal, Hk. }
    rewrite res_bind_ret. by eexists. }
  exists e'. split; [done|]. destruct (BatchWrite_Ok W e entries e' Hk Hs E) as (_&_&_&Ea'&_). congruence.
Qed.
End batch.

(** ** Keys of one attribute of an entity *)

Section save.
Implicit Types (W : list CfKey) (k : bytes).

Lemma aidBytes_put aid : aidBytes aid = be_put 4 aid.
Proof. unfold aidBytes. apply be_put_shift4. Qed.

Lemma length_eidAttrPrefix eid aid : length (eidAttrPrefix eid aid) = 12%nat.
Proof. unfold eidAttrPrefix. by rewrite length_app, length_EncodeEid, aidBytes_put, length_be_put. Qed.

Lemma pfx_built eid aid v t r : pfx (BuildEavtKey eid aid v t r) = eidAttrPrefix eid aid ++ v.
Proof.
  unfold pfx, BuildEavtKey, eidAttrPrefix. rewrite aidBytes_put. replace (EncodeEid eid ++ be_put 4 aid ++ v ++ be_put 8 (EncodeSuffix t r))
    with ((EncodeEid eid ++ be_put 4 aid ++ v) ++ be_put 8 (EncodeSuffix t r)) by (by rewrite <- !app_assoc).
  rewrite length_app, length_be_put, Nat.add_sub, take_app_length. by rewrite <- app_assoc.
Qed.

Lemma split_key k : (20 ≤ length k)%nat → k = pfx k ++ drop (length k - 8) k.
Proof. intros Hk. unfold pfx. by rewrite take_drop. Qed.

(** The value of a key under its prefix. *)
Lemma pfx_prefix k eid aid :
  (20 ≤ length k)%nat → has_prefix k (eidAttrPrefix eid aid) = true → pfx k = eidAttrPrefix eid aid ++ sub k 12 (length k - 8).
Proof.
  intros Hk [s E]%has_prefix_spec. pose proof (length_eidAttrPrefix eid aid) as Hl. unfold pfx, sub.
  rewrite <- (take_drop 12 (take (length k - 8) k)). f_equal.
  - rewrite take_take, Nat.min_l by lia. rewrite E. by apply take_app_length'.
  - apply skipn_firstn_comm.
Qed.

Lemma suffix_built eid aid v t r : 0 ≤ t < 2 ^ 63 → suffixOf (BuildEavtKey eid aid v t r) = 2 * t + Z.b2z r.
Proof.
  intros Ht. unfold suffixOf, be64, BuildEavtKey. rewrite !app_assoc. rewrite length_app, length_be_put, Nat.add_sub, drop_app_length.
  rewrite take_ge by (by rewrite length_be_put). rewrite be_get_put, EncodeSuffix_eq by done.
  apply Z.mod_small. change (8 * Z.of_nat 8) with 64. destruct r; cbn [Z.b2z]; lia.
Qed.

(** Versions of one logical key are in the order of their suffixes. *)
Lemma version_lt a b :
  (20 ≤ length a)%nat → (20 ≤ length b)%nat → bytes_ok a → bytes_ok b → pfx a = pfx b → bcmp a b = (suffixOf a ?= suffixOf b).
Proof.
  intros La Lb Ha Hb E. rewrite (split_key a La), (split_key b Lb) at 1. rewrite E, bcmp_app_same. unfold suffixOf, be64.
  assert (∀ k, (20 ≤ length k)%nat → take 8 (drop (length k - 8) k) = drop (length k - 8) k) as Ht by (intros k Hk; apply take_ge; rewrite length_drop; lia).
  rewrite !Ht by done.
  assert (∀ k, (20 ≤ length k)%nat → bytes_ok k → be_put 8 (be_get (drop (length k - 8) k)) = drop (length k - 8) k ∧ 0 ≤ be_get (drop (length k - 8) k) < 2 ^ 64) as Hbe.
  { intros k Hk Hok. assert (length (drop (length k - 8) k) = 8%nat) as Hl by (rewrite length_drop; lia).
    assert (bytes_ok (drop (length k - 8) k)) as Hd by (by apply Forall_drop). split.
    - rewrite <- Hl at 1. by apply be_put_get.
    - pose proof (be_get_bound _ Hd) as Hbd. by rewrite Hl in Hbd. }
  destruct (Hbe a La Ha) as [Ea Ra], (Hbe b Lb Hb) as [Eb Rb]. rewrite <- Ea, <- Eb at 1. by apply bcmp_be_put.
Qed.

Lemma active_built eid aid v t r : 0 ≤ t < 2 ^ 63 → active (BuildEavtKey eid aid v t r) = negb r.
Proof.
  intros Ht. unfold active. change (beUint64 ?k (length ?k - 8)) with (suffixOf k). rewrite suffix_built by done.
  rewrite (Z.land_ones _ 1) by lia. rewrite Z.add_comm, Z.mul_comm, Z.mod_add by lia. by destruct r.
Qed.

Lemma prefix_built eid aid v t r : has_prefix (BuildEavtKey eid aid v t r) (eidAttrPrefix eid aid) = true.
Proof. apply has_prefix_spec. exists (v ++ be_put 8 (EncodeSuffix t r)). unfold BuildEavtKey, eidAttrPrefix. by rewrite aidBytes_put, <- app_assoc. Qed.

(** ** What a save writes *)

Definition valueOf k : bytes := sub k 12 (length k - 8).

(** The entries of a save: the live versions retracted, then the new assertion. *)
Definition saveEntries W (eid aid : Z) (encoded : bytes) (t : Z) (mode : EncodeMode) (indexed : bool) : list EavtEntry :=
  retractions eid aid mode indexed t (liveKeys W (eidAttrPrefix eid aid)) ++ BuildEavtEntries eid aid encoded t false mode indexed.

Lemma elem_saveEntries W eid aid encoded t mode indexed k :
  datoms_ok W →
  (0%nat, k) ∈ map cfKey (saveEntries W eid aid encoded t mode indexed)
  ↔ (∃ ek, ek ∈ liveKeys W (eidAttrPrefix eid aid) ∧ k = BuildEavtKey eid aid (valueOf ek) t true) ∨ k = BuildEavtKey eid aid encoded t false.
Proof.
  intros Hd. unfold saveEntries. rewrite map_app, elem_of_app, elem_built. f_equiv.
  destruct (liveKeys_spec W (eidAttrPrefix eid aid) Hd) as [_ Hl]; [by rewrite length_eidAttrPrefix|].
  assert (∀ ek, ek ∈ liveKeys W (eidAttrPrefix eid aid) → (20 ≤ length ek)%nat) as H20 by (intros ek [? _]%Hl; by apply (dat_len _ Hd)).
  clear Hl. unfold retractions. induction (liveKeys W (eidAttrPrefix eid aid)) as [|x l IH]; cbn [flat_map map].
  - rewrite elem_of_nil. split; [done|]. intros (ek&[]%elem_of_nil&_).
  - rewrite map_app, elem_of_app, IH by (intros; apply H20; by right).
    replace (Nat.ltb (length x) 20) with false by (symmetry; apply Nat.ltb_ge, H20; left). rewrite elem_built. split.
    + intros [->|(ek&?&->)]; [exists x; split; [left|done]|exists ek; split; [by right|done]].
    + intros (ek&[->|?]%elem_of_cons&->); [by left|right; by exists ek].
Qed.

(** Entries with their logical keys to themselves are new if they are newer than
    the history. *)
Lemma newestAll_distinct es W :
  (∀ k, (0%nat, k) ∈ es → newest W k) → (∀ a b, (0%nat, a) ∈ es → (0%nat, b) ∈ es → pfx a = pfx b → a = b) → newestAll W es.
Proof.
  revert W. induction es as [|[cf k] es IH]; intros W Hn Hu; cbn [newestAll fst snd]; [done|]. split.
  - intros ->. apply Hn. left.
  - apply IH; [|intros a b ??; apply Hu; by right]. intros b Hb k' [Hk'|Ek%list_elem_of_singleton]%elem_of_app Ep; [apply Hn; [by right|done..]|].
    injection Ek as <- ->. rewrite (Hu k b); [apply ble_refl|left|by right|done].
Qed.

Section entries.
Context (W : list CfKey) (eid aid : Z) (encoded : bytes) (t : Z) (mode : EncodeMode) (indexed : bool).
Notation prefix := (eidAttrPrefix eid aid).
Notation entries := (saveEntries W eid aid encoded t mode indexed).
Notation W' := (W ++ map cfKey entries).
Context (Ht : 0 ≤ t < 2 ^ 63) (Hd : datoms_ok W').
Context (Hnew : ∀ k, (0%nat, k) ∈ W → has_prefix k prefix = true → suffixOf k < 2 * t).

Lemma datoms_old : datoms_ok W.
Proof. by eapply datoms_app. Qed.

Lemma elem_saved k :
  (0%nat, k) ∈ W' ↔ (0%nat, k) ∈ W ∨ (∃ ek, ek ∈ liveKeys W prefix ∧ k = BuildEavtKey eid aid (valueOf ek) t true) ∨ k = BuildEavtKey eid aid encoded t false.
Proof. rewrite elem_of_app, elem_saveEntries by apply datoms_old. tauto. Qed.

Lemma key_facts k : (0%nat, k) ∈ W' → (20 ≤ length k)%nat ∧ bytes_ok k.
Proof.
  intros Hk. split; [by apply (dat_len _ Hd)|]. pose proof (dat_store _ Hd) as Hs. rewrite Forall_forall in Hs. by destruct (Hs _ Hk) as (_&_&?).
Qed.

(** A version of the attribute in the history is older than the ones written. *)
Lemma older_version k k' r v :
  (0%nat, k) ∈ W → k' = BuildEavtKey eid aid v t r → (0%nat, k') ∈ W' → pfx k = pfx k' → k <b k'.
Proof.
  intros Hk -> Hk' Ep. assert ((0%nat, k) ∈ W') as Hkw by (apply elem_of_app; by left).
  destruct (key_facts k Hkw), (key_facts _ Hk'). unfold blt. rewrite version_lt by done. apply Z.compare_lt_iff. rewrite suffix_built by done.
  assert (suffixOf k < 2 * t); [|destruct r; cbn [Z.b2z]; lia]. apply Hnew; [done|].
  rewrite prefix_pfx, Ep, <- prefix_pfx by (done || by rewrite length_eidAttrPrefix). apply prefix_built.
Qed.

Lemma live_key k : k ∈ liveKeys W prefix → (0%nat, k) ∈ W ∧ pfx k = prefix ++ valueOf k ∧ (0%nat, BuildEavtKey eid aid (valueOf k) t true) ∈ W'.
Proof.
  intros Hk. destruct (liveKeys_spec W prefix datoms_old) as [_ Hl]; [by rewrite length_eidAttrPrefix|]. destruct (proj1 (Hl k) Hk) as (Hin&Hp&_).
  split; [done|]. split; [apply pfx_prefix; [by apply (dat_len _ datoms_old)|done]|]. apply elem_saved. right; left. by exists k.
Qed.

(** The new assertion is what is live, unless the same value was. *)
Lemma save_live k :
  k ∈ liveKeys W' prefix ↔ k = BuildEavtKey eid aid encoded t false ∧ ∀ ek, ek ∈ liveKeys W prefix → valueOf ek ≠ encoded.
Proof.
  destruct (liveKeys_spec W prefix datoms_old) as [_ Hl]; [by rewrite length_eidAttrPrefix|].
  destruct (liveKeys_spec W' prefix Hd) as [_ ->]; [by rewrite length_eidAttrPrefix|]. split.
  - intros (Hin&Hp&Hact&Hmax). apply elem_saved in Hin as [Hin|[(ek&Hek&->)| ->]].
    + exfalso. assert (k ∈ liveKeys W prefix) as Hk.
      { apply Hl. split_and!; try done. intros k' Hk'. apply Hmax. apply elem_of_app. by left. }
      destruct (live_key k Hk) as (_&Ep&Hr). specialize (Hmax _ Hr). rewrite pfx_built, Ep in Hmax.
      apply (proj1 (ble_not_lt _ _) (Hmax eq_refl)). eapply older_version; [done|done|done|]. by rewrite pfx_built.
    + by rewrite active_built in Hact.
    + split; [done|]. intros ek Hek Ev. destruct (live_key ek Hek) as (_&_&Hr). rewrite Ev in Hr.
      assert ((0%nat, BuildEavtKey eid aid encoded t false) ∈ W') as Hn by (apply elem_saved; tauto).
      destruct (key_facts _ Hr), (key_facts _ Hn). specialize (Hmax _ Hr). rewrite !pfx_built in Hmax. apply (proj1 (ble_not_lt _ _) (Hmax eq_refl)).
      unfold blt. rewrite version_lt by (done || by rewrite !pfx_built). rewrite !suffix_built by done. apply Z.compare_lt_iff. cbn. lia.
  - intros [-> Hne]. split_and!; [apply elem_saved; tauto|apply prefix_built|by rewrite active_built|].
    intros k' Hk' Ep. pose proof Hk' as [Hin|[(ek&Hek&->)| ->]]%elem_saved; [|exfalso|apply ble_refl].
    + apply blt_le. eapply older_version; [done|done|apply elem_saved; tauto|done].
    + rewrite !pfx_built in Ep. apply app_inv_head in Ep. by apply (Hne ek).
Qed.

Lemma save_newest : (∀ ek, ek ∈ liveKeys W prefix → valueOf ek ≠ encoded) → newestAll W (map cfKey entries).
Proof.
  intros Hne. apply newestAll_distinct.
  - intros k Hk k' Hk' Ep. pose proof Hk as Hk0. apply elem_saveEntries in Hk0; [|apply datoms_old].
    assert ((0%nat, k) ∈ W') as Hkw by (apply elem_of_app; by right). apply blt_le.
    destruct Hk0 as [(ek&_&E)|E]; (eapply older_version; [done|exact E|done|done]).
  - intros a b Ha Hb Ep. apply elem_saveEntries in Ha, Hb; try apply datoms_old.
    destruct Ha as [(ea&Hea&->)| ->], Hb as [(eb&Heb&->)| ->]; [| | |done]; rewrite !pfx_built in Ep; apply app_inv_head in Ep.
    + by rewrite Ep.
    + by destruct (Hne ea).
    + by destruct (Hne eb).
Qed.
End entries.
End save.

(** ** Saves *)

Section saves.
Context {S : Type} `{KS : KeyStore S} `{KL : !KeyStoreLaws S}.
Variables (ParseFloat : bytes → option Z) (FormatG : Z → bytes).
Implicit Types (W : list CfKey) (e : @Engine S).

Lemma ScanPrefixActive_anchors n e cf prefix ks e' : ScanPrefixActive n e cf prefix = Ok (ks, e') → Anchors e' = Anchors e.
Proof.
  unfold ScanPrefixActive, ScanPrefix. intros H. repeat case_match; simplify_eq; try done;
    rewrite res_bind_Ok in H; destruct H as ([c e1]&Hs&[= _ <-]); rewrite res_bind_Ok in Hs; destruct Hs as ([c1 kv]&_&[= _ <-]); done.
Qed.

(** The scan of a save finds the live keys, the entries follow from them. *)
Lemma saveInto_ev W e eid aid mode indexed encoded t :
  einv W e →
  ∃ e1, ev (fun n => saveResolvedEncodedInto n e eid aid false indexed mode encoded t []) (saveEntries W eid aid encoded t mode indexed, e1)
    ∧ einv W e1 ∧ HydEnabled e1 = HydEnabled e ∧ Res e1 = Res e ∧ Anchors e1 = Anchors e.
Proof.
  intros Hi. destruct (ScanPrefixActive_live W e (eidAttrPrefix eid aid) Hi) as (e1&E&Hi1&Hen&Hr); [rewrite length_eidAttrPrefix; lia|].
  exists e1. split.
  - unfold saveResolvedEncodedInto. cbn [negb]. eapply ev_bind; [eapply ev_bind; [exact E|apply ev_ret]|]. apply ev_ret.
  - split_and!; try done. destruct E as [N HN]. eapply (ScanPrefixActive_anchors (Datatypes.S N)), HN. lia.
Qed.

(** A save that has room in the anchor index writes its entries. *)
Lemma SaveWithT_ev W q eid attr val t aid encoded (m := metaFor (Eavt q) aid)
    (entries := saveEntries W eid aid encoded t (metaMode m) (metaIndexed m)) :
  einv W (Eavt q) → LookupAttr (Res (Eavt q)) attr = Some aid → IsMany (Res (Eavt q)) aid = false →
  encodeSaveValue ParseFloat FormatG val (metaVt m) (metaMode m) eid = Ok encoded →
  datoms_ok (W ++ map cfKey entries) → anchorRoom (Anchors (Eavt q)) (entryBytes entries) →
  ∃ e1 e', einv W e1 ∧ HydEnabled e1 = HydEnabled (Eavt q) ∧ BatchWrite e1 entries = Ok e'
    ∧ ev (fun n => SaveWithT ParseFloat FormatG n q eid attr val t) (Some tt, withEavt q e').
Proof.
  intros Hi Ha Hm Henc Hd Hroom. destruct (saveInto_ev W (Eavt q) eid aid (metaMode m) (metaIndexed m) encoded t Hi) as (e1&E&Hi1&Hen&_&Han).
  destruct (BatchWrite_succeeds W e1 entries 0) as (e'&Ew&_); [apply Hi1|by destruct (proj1 (Forall_app _ _ _) (dat_store _ Hd))|done|by rewrite Z.add_0_r, Han|].
  exists e1, e'. split_and!; try done. unfold SaveWithT. rewrite Ha. fold m. rewrite Henc. cbn [metaMany metaFor m]. rewrite Hm.
  eapply ev_bind; [exact E|]. cbv beta iota. apply ev_const. fold entries. by rewrite Ew, res_bind_ret.
Qed.
End saves.

(** C27. Saving a value of a cardinality-one attribute replaces the value: when the
    transaction is newer than every version of the attribute on the entity and the
    value is not the live one, the save succeeds, it writes a retraction of each
    live version and the new assertion to every index, keeps the cache of hydrated
    entities in step, and the new assertion is then the only live version. *)
Theorem save_card_one_exact {S} `{KS : KeyStore S} `{KL : !KeyStoreLaws S} ParseFloat FormatG W (q : @QueryStore S) eid attr val t aid encoded
    (m := metaFor (Eavt q) aid) (entries := saveEntries W eid aid encoded t (metaMode m) (metaIndexed m)) :
  einv W (Eavt q) → HydEnabled (Eavt q) = true → LookupAttr (Res (Eavt q)) attr = Some aid → IsMany (Res (Eavt q)) aid = false →
  encodeSaveValue ParseFloat FormatG val (metaVt m) (metaMode m) eid = Ok encoded → 0 ≤ t < 2 ^ 63 →
  (∀ k, (0%nat, k) ∈ W → has_prefix k (eidAttrPrefix eid aid) = true → suffixOf k < 2 * t) →
  (∀ k, k ∈ liveKeys W (eidAttrPrefix eid aid) → valueOf k ≠ encoded) →
  datoms_ok (W ++ map cfKey entries) → anchorRoom (Anchors (Eavt q)) (entryBytes entries) →
  ∃ q', ev (fun n => SaveWithT ParseFloat FormatG n q eid attr val t) (Some tt, q')
    ∧ einv (W ++ map cfKey entries) (Eavt q')
    ∧ liveKeys (W ++ map cfKey entries) (eidAttrPrefix eid aid) = [BuildEavtKey eid aid encoded t false].
Proof.
  intros Hi Hen Ha Hm Henc Ht Hnew Hne Hd Hroom.
  destruct (SaveWithT_ev ParseFloat FormatG W q eid attr val t aid encoded Hi Ha Hm Henc Hd Hroom) as (e1&e'&Hi1&Hen1&Ew&E).
  exists (withEavt q e'). split; [exact E|]. split.
  - eapply BatchWrite_einv; [exact Hi1|exact Hd| |exact Ew|by rewrite Hen1]. by apply save_newest.
  - apply ascending_ext; [apply liveKeys_spec; [done|by rewrite length_eidAttrPrefix]|by repeat constructor|].
    intros k. unfold entries. rewrite save_live, list_elem_of_singleton by done. tauto.
Qed.


(** ** A save on the sample history *)

Definition sampleStore : @QueryStore (list CfKey) := mkQS sampleEngine NewSymTab.
Definition noFloat : bytes → option Z := fun _ => None.
Definition noText : Z → bytes := fun _ => [].

Lemma sample_live k :
  k ∈ liveKeys sampleHistory (eidAttrPrefix sampleEid sampleSchema.1) ↔ k = BuildEavtKey sampleEid sampleSchema.1 (sampleValue "Ann") 5 false.
Proof.
  assert (datoms_ok sampleHistory) as Hd by (apply datomsB_ok; vm_compute; reflexivity).
  destruct (liveKeys_spec sampleHistory (eidAttrPrefix sampleEid sampleSchema.1) Hd) as [_ ->]; [by rewrite length_eidAttrPrefix|].
  unfold sampleHistory at 1. rewrite elem_built. split; [tauto|]. intros ->. split_and!; [done|apply prefix_built|by rewrite active_built|].
  intros k'. unfold sampleHistory. rewrite elem_built. intros -> _. apply ble_refl.
Qed.

Lemma sample_room : anchorRoom (Anchor.New 4096) 1000.
Proof. exists [], (fun _ => []), 4096. split; [apply New_ainv|]. split; [vm_compute; intuition discriminate|lia]. Qed.

Lemma sample_older k :
  (0%nat, k) ∈ sampleHistory → has_prefix k (eidAttrPrefix sampleEid sampleSchema.1) = true → suffixOf k < 2 * 9.
Proof. unfold sampleHistory. rewrite elem_built. intros -> _. rewrite suffix_built by done. cbn. lia. Qed.

Lemma save_card_one_exact_witness :
  ∃ q', ev (fun n => SaveWithT noFloat noText n sampleStore sampleEid (bs "person/name") (sexpr.Str (bs "Bob")) 9) (Some tt, q').
Proof.
  destruct (save_card_one_exact noFloat noText sampleHistory sampleStore sampleEid (bs "person/name") (sexpr.Str (bs "Bob")) 9
    sampleSchema.1 (sampleValue "Bob")) as (q'&E&_); [| | | | | | | | | |by exists q'].
  - apply (ereach_einv _ _ sample_ereach).
  - reflexivity.
  - vm_compute. reflexivity.
  - vm_compute. reflexivity.
  - vm_compute. reflexivity.
  - lia.
  - apply sample_older.
  - intros k ->%sample_live. vm_compute. discriminate.
  - apply datomsB_ok. vm_compute. reflexivity.
  - eapply anchorRoom_less; [apply sample_room|]. vm_compute. discriminate.
Defined.

