(* ===== verification/KvEngine.v ===== *)
(** * The key-value store below the datom engine

    The operations of the key-value store (go/internal/kvstore/kvstore.go) that the
    datom engine uses, as an instance of [KeyStore], and the laws of the interface
    for it: what is proved of the engine over the interface holds for the engine on
    the store with its memtable, page trees and journal. *)

From S2P Require Import Prelude Pages FlatLeaf PageCache BlobStore PageStore PageTree PageCommit.
From S2P Require Import NewestWins Memtable MinHeap Hydrated Cursors MergedCursor PageCursor Journal Wal KvStore KvSpec KvScan KeyStore.
From S2P Require Import Keys ActiveScan Anchor Resolver Engine EngineSpec QueryStore QuerySpec.

Section instance.
Context {B : Type} `{HB : BlobStore B} `{HL : !BlobLaws B} `{HZ : Zstd} `{HZL : !ZstdLaws}.

(** A scan opens a cursor, seeks it where there is a target and reads on. *)
Definition scanStore (n : nat) (kv : KVStore B) (cf : nat) (target : option bytes) : res (list bytes * KVStore B) :=
  '(kv, mc) ← OpenScanCursor n kv cf;
  mc ← (match target with Some t => '(mc, _) ← MergedSeek n mc None t; Ok mc | None => Ok mc end);
  ks ← iterate n mc;
  Ok (ks, kv).

#[export] Instance kvKeyStore : KeyStore (KVStore B) := {
  scanKeys := scanStore;
  journalOnly := JournalOnly;
  batchWrite kv es := KvStore.BatchWrite kv es false;
  applyExpanded := ApplyJournalRecordsExpanded;
}.

(** The store holds [D]: in the memtable, in a flush under way, or in the trees,
    which are of at most one index level. *)
Definition kvHolds (kv : KVStore B) (D : gset CfKey) : Prop :=
  ∃ ab c, mt_refines (MT kv) ab ∧ (4 ≤ length ab)%nat ∧ store_ok (PS kv) ∧ length (trees (PS kv)) = length ab
    ∧ trees_repr (blobs (PS kv)) (trees (PS kv)) c
    ∧ (∀ cf t, (cf ≤ 3)%nat → trees (PS kv) !! cf = Some t → Height t ≤ 1)
    ∧ ∀ cf k, (cf ≤ 3)%nat → (cf, k) ∈ D ↔ hotHas ab cf k ∨ coldHas ab cf k ∨ k ∈ c cf.

Lemma kvHolds_same (kv kv' : KVStore B) D : MT kv' = MT kv → PS kv' = PS kv → kvHolds kv D → kvHolds kv' D.
Proof. unfold kvHolds. by intros -> ->. Qed.

Lemma storable_key e : storable e → Memtable.key_ok e.2.
Proof. intros (_&[_ Hl]&_). unfold Memtable.key_ok. apply Nat2Z.inj_lt in Hl. by eapply Z.lt_trans; [exact Hl|vm_compute]. Qed.

Lemma storable_good e : storable e → entry_good e.
Proof.
  intros (Hcf&[Hl Hu]&Hb). split; [done|]. split; [|done]. unfold keyLen. split; [lia|]. apply Nat2Z.inj_lt in Hu.
  by eapply Z.lt_le_trans; [exact Hu|vm_compute].
Qed.

Lemma journalDeliver_same (kv : KVStore B) es : MT (journalDeliver kv es) = MT kv ∧ PS (journalDeliver kv es) = PS kv.
Proof. unfold journalDeliver. by repeat case_match. Qed.

Lemma kvHolds_batch kv D es :
  kvHolds kv D → Forall storable es →
  ∃ mt size, Batch (MT kv) es = Ok (mt, size) ∧ ∀ kv', MT kv' = mt → PS kv' = PS kv → kvHolds kv' (D ∪ list_to_set es).
Proof.
  intros (ab&c&Hmt&Hl&Hst&Htl&Htr&Hh&Hhas) Hes.
  destruct (Batch_spec (MT kv) ab es Hmt) as (mt&size&E&Hmt'); [eapply Forall_impl; [exact Hes|apply storable_key]|].
  exists mt, size. split; [done|]. intros kv' EM EP. exists (batchAbs ab es), c. rewrite EM, EP, length_batchAbs. split_and!; try done.
  intros cf k Hcf. rewrite elem_of_union, Hhas, elem_of_list_to_set, hotHas_batch, coldHas_batch by done.
  assert ((cf < length ab)%nat) by lia. tauto.
Qed.

Lemma scanStore_ev kv D cf target :
  kvHolds kv D → (cf ≤ 3)%nat →
  ∃ out kv', ev (fun n => scanStore n kv cf target) (out, kv') ∧ kvHolds kv' D
    ∧ ascending out ∧ ∀ k, k ∈ out ↔ (cf, k) ∈ D ∧ reaches target k.
Proof.
  intros (ab&c&Hmt&Hl&Hst&Htl&Htr&Hh&Hhas) Hcf. destruct (lookup_lt_is_Some_2 (trees (PS kv)) cf) as [tr Htr1]; [lia|].
  destruct (Htr cf tr Htr1) as [Hrep Hok].
  destruct (OpenScanCursor_spec kv ab cf tr (c cf) Hmt ltac:(lia) Hst Htr1 Hrep Hok (Hh cf tr Hcf Htr1)) as (mt'&U&Hmt'&HU&Hopen).
  set (kv' := withMT kv mt' (memSize kv)). set (N := (2 + length U)%nat).
  assert (∀ n, (N < n)%nat → ∃ out, scanStore n kv cf target = Ok (out, kv') ∧ ascending out ∧ ∀ k, k ∈ out ↔ k ∈ U ∧ reaches target k) as Hrun.
  { intros n Hn. destruct (Hopen n) as (mc&E&Hun&Huni&Hrest); [lia|]. unfold scanStore. rewrite E, res_bind_ret. cbv beta iota. destruct target as [t|].
    - destruct (seek_iterate n mc t) as (mc'&out&E1&_&E2&Ha&Hout); [apply Hun|apply Hun|rewrite Huni; lia|].
      rewrite E1, !res_bind_ret, E2, res_bind_ret. exists out. split_and!; [done|done|]. intros k. by rewrite Hout, <- elem_of_universe, Huni.
    - destruct (iterate_unsought n mc Hun) as (out&E2&Ha&Hout); [rewrite Hrest; lia|].
      rewrite res_bind_ret, E2, res_bind_ret. exists out. split_and!; [done|done|]. intros k. rewrite Hout, Hrest. cbn [reaches]. tauto. }
  destruct (Hrun (Datatypes.S N)) as (out&_&Ha&Hout); [lia|]. exists out, kv'. split_and!; [|by exists ab, c|done|].
  - exists N. intros n Hn. destruct (Hrun n Hn) as (out'&->&Ha'&Hout'). do 2 f_equal. apply ascending_ext; [done..|].
    intros k. by rewrite Hout, Hout'.
  - intros k. by rewrite Hout, HU, Hhas.
Qed.

#[export] Program Instance kvKeyStoreLaws : KeyStoreLaws (KVStore B) := { holdsKeys := kvHolds }.
Next Obligation. intros kv D cf target. apply scanStore_ev. Qed.
Next Obligation.
  intros kv D es Hk. cbn [journalOnly kvKeyStore]. unfold JournalOnly. destruct (_ && _); [|done].
  eapply kvHolds_same; [apply journalDeliver_same..|done].
Qed.
Next Obligation.
  intros kv D es Hk Hes. destruct (kvHolds_batch kv D es Hk Hes) as (mt&size&E&Hk'). cbn [batchWrite kvKeyStore]. unfold KvStore.BatchWrite. cbn [andb].
  rewrite E, res_bind_ret. eexists. split; [done|]. destruct (maybeArmFlush_same (withMT kv mt size)) as (_&EP&EM&_). by apply Hk'.
Qed.
Next Obligation.
  intros kv D es Hk Hes. cbn [applyExpanded kvKeyStore]. unfold ApplyJournalRecordsExpanded. destruct (nonEmpty es) eqn:En.
  - destruct (kvHolds_batch kv D es Hk Hes) as (mt&size&E&Hk'). rewrite E, res_bind_ret. eexists. split; [done|]. by apply Hk'.
  - destruct es; [|done]. exists kv. split; [done|]. cbn [list_to_set]. by rewrite union_empty_r_L.
Qed.

#[export] Instance kvStore_quiet : QuietScans (KVStore B).
Proof.
  intros n kv cf target out kv' D E (ab&c&Hmt&Hl&Hst&Htl&Htr&Hh&Hhas). cbn [scanKeys kvKeyStore] in E. unfold scanStore in E.
  apply res_bind_Ok in E as ([kv1 mc]&Eo&E). apply res_bind_Ok in E as (mc1&_&E). apply res_bind_Ok in E as (ks&_&[= _ <-]).
  unfold OpenScanCursor in Eo. apply res_bind_Ok in Eo as ([mt rs]&Es&[= <- _]).
  destruct (decide (cf < length ab)%nat) as [Hcf|Hcf].
  - destruct (SnapshotRuns_spec (MT kv) ab cf Hmt Hcf) as (mt'&rs'&Es'&Hmt'&_). rewrite Es in Es'. injection Es' as <- _. by exists ab, c.
  - unfold SnapshotRuns, materializeMerge, materializeLocked, onCf in Es.
    rewrite (lookup_ge_None_2 (families (MT kv))) in Es by (rewrite (mtr_len _ _ Hmt); lia). done.
Qed.

(** A reachable store with trees of at most one index level holds what was written. *)
Lemma kreach_holds W sy :
  kreach W sy → (∀ cf t, (cf ≤ 3)%nat → trees (PS (skv sy)) !! cf = Some t → Height t ≤ 1) → holdsKeys (skv sy) (list_to_set W).
Proof.
  intros (ab&c&dc&m0&S&lost&gone&w&Hi)%reach_inv Hh. destruct sy as [kv p t].
  pose proof Hi as [_ _ Hnum Htl Hncf [Hr _] Hst Hmt Htr _ Hhas _ _ _ _ _ _ _ _ _]. cbn [skv] in *. exists ab, c. split_and!; try done.
  intros cf k Hcf. rewrite elem_of_list_to_set. apply Hhas. lia.
Qed.
End instance.

(** C3. What the engine shows after a crash is what was written before it: started
    on a store in any reachable state (writes, flushes in their phases, turns of
    the log, crashes) whose trees of the four indexes have at most one index level
    (deeper trees are beyond the page cursor) and which holds keys of datoms, the
    engine writes a batch of entries newer than all versions there, and an active
    scan of an entity, or of one of its attributes (a prefix of 8 to 12 bytes), then
    gives, in order, exactly the assertions, old or new, that no newer version
    follows. *)
Theorem engine_reads_durable {B} `{HB : BlobStore B} `{HL : !BlobLaws B} `{HZ : Zstd} `{HZL : !ZstdLaws}
    W (sy : @sys B) r hydMax anchorMax entries e' prefix :
  kreach W sy → (∀ cf t, (cf ≤ 3)%nat → trees (PS (skv sy)) !! cf = Some t → Height t ≤ 1) →
  datoms_ok (W ++ map cfKey entries) → newestAll W (map cfKey entries) →
  Engine.BatchWrite (mkEngine (skv sy) r (Hydrated.New hydMax) (Anchor.New anchorMax) true) entries = Ok e' →
  (8 ≤ length prefix ≤ 12)%nat →
  ∃ ks e'', ev (fun n => Engine.ScanPrefixActive n e' 0 prefix) (ks, e'') ∧ ascending ks
    ∧ ∀ k, k ∈ ks ↔ ((0%nat, k) ∈ W ∨ (0%nat, k) ∈ map cfKey entries) ∧ has_prefix k prefix = true ∧ active k = true
      ∧ newest (W ++ map cfKey entries) k.
Proof.
  intros Hr Hh Hd Hn E Hp. set (W' := W ++ map cfKey entries) in *.
  assert (ereach W' e') as [Hi _]%ereach_einv.
  { eapply EWrite; [|exact Hd|exact Hn|exact E]. apply EStart; [by apply kreach_holds|by eapply datoms_app]. }
  destruct (ScanPrefixActive_live W' e' prefix Hi Hp) as (e''&Es&_). exists (liveKeys W' prefix), e''. split; [done|].
  destruct (liveKeys_spec W' prefix Hd) as [Ha Hl]; [lia|]. split; [done|]. intros k. by rewrite Hl, <- elem_of_app.
Qed.

Import samples kvSamples.

(** The sample history, logged to a file store. *)
Lemma sample_durable :
  ∃ kv, kreach (B := FileBlobStore) sampleHistory (mkSys kv Idle (nanos (1700000000, 0)))
    ∧ ∀ cf t, (cf ≤ 3)%nat → trees (PS kv) !! cf = Some t → Height t ≤ 1.
Proof.
  destruct sampleBlobs_ok as [Hb Hr].
  assert (match KvStore.New sampleCfg sampleBlobs None ∅ (1700000000, 0) with Ok kv => forallb (fun t => Height t <=? 1) (trees (PS kv)) | _ => false end = true)
    as Hc by (vm_compute; reflexivity).
  destruct (KvStore.New sampleCfg sampleBlobs None ∅ (1700000000, 0)) as [kv| | |] eqn:E; [|done..].
  assert (kreach [] (mkSys (attachWal kv ∅) Idle (nanos (1700000000, 0)))) as H0.
  { apply KInit, (KStart sampleCfg 4 sampleBlobs); done. }
  assert (Forall entry_good sampleHistory) as Hg.
  { eapply Forall_impl; [apply dat_store, datomsB_ok; vm_compute; reflexivity|apply storable_good]. }
  pose proof H0 as (ab&c&dc&m0&S&lost&gone&w&Hi)%reach_inv.
  destruct (BatchWrite_spec (attachWal kv ∅) ab sampleHistory m0 S lost gone w true) as (kv'&w'&E'&_&EP&_);
    [apply Hi|apply Hi|apply Hi|done|apply Hi|apply Hi|apply Hi|].
  exists kv'. split; [eapply (KStep [] _ ([] ++ sampleHistory)); [exact H0|by constructor]|].
  intros cf t _ Ht. rewrite EP in Ht. rewrite forallb_forall in Hc. apply Z.leb_le, Hc, list_elem_of_In. by eapply list_elem_of_lookup_2.
Qed.

Lemma engine_reads_durable_witness :
  ∃ (kv : KVStore FileBlobStore) e' ks e'', 
    Engine.BatchWrite (mkEngine kv sampleSchema.2 (Hydrated.New 4096) (Anchor.New 4096) true)
      (BuildEavtEntries sampleEid sampleSchema.1 (sampleValue "Bob") 9 false EmVariable false) = Ok e'
    ∧ ev (fun n => Engine.ScanPrefixActive n e' 0 (EncodeEid sampleEid)) (ks, e'').
Proof.
  destruct sample_durable as (kv&Hr&Hh). exists kv. set (e := mkEngine kv _ _ _ _). set (entries := BuildEavtEntries _ _ _ _ _ _ _).
  assert (datoms_ok (sampleHistory ++ map cfKey entries)) as Hd by (apply datomsB_ok; vm_compute; reflexivity).
  destruct (BatchWrite_succeeds sampleHistory e entries 0) as (e'&E&_).
  { by apply (kreach_holds _ _ Hr). } { by destruct (proj1 (Forall_app _ _ _) (dat_store _ Hd)). } { done. }
  { eapply anchorRoom_less; [apply sample_room|]. vm_compute. discriminate. }
  destruct (engine_reads_durable sampleHistory _ sampleSchema.2 4096 4096 entries e' (EncodeEid sampleEid) Hr Hh Hd) as (ks&e''&Es&_);
    [|exact E|rewrite length_EncodeEid; lia|by exists e', ks, e''].
  apply newestAll_distinct.
  - intros k Hk%elem_built k' Hk'%elem_built Ep. subst. rewrite !pfx_built in Ep. apply app_inv_head in Ep. by vm_compute in Ep.
  - intros a b Ha%elem_built Hb%elem_built _. congruence.
Defined.
