(* ===== verification/Edn.v ===== *)
(** * The EDN reader (go/internal/edn/edn.go)

    Vectors, lists, keywords, symbols, strings, numbers, booleans and nil. A text
    and a position in it are the bytes that are left; the positions are otherwise
    only part of messages. [strconv.ParseFloat] is a parameter. *)

From S2P Require Import Prelude Keys.

Module edn.
Inductive Value : Type :=
| Int (n : Z)
| Float (f : Z)
| Str (s : bytes)
| Bool (b : bool)
| Nil
| Keyword (k : bytes)
| Symbol (s : bytes)
| List (items : list Value).
End edn.
Import edn.

(** ** Characters *)

Definition isWS (c : Z) : bool := (c =? 32) || (c =? 9) || (c =? 10) || (c =? 13) || (c =? 44).

Fixpoint skipWS (s : bytes) : bytes :=
  match s with
  | c :: s' => if isWS c then skipWS s' else s
  | [] => []
  end.

Definition isDelim (c : Z) : bool :=
  isWS c || (c =? 40) || (c =? 41) || (c =? 91) || (c =? 93) || (c =? 123) || (c =? 125) || (c =? 34).

(** ** Strings *)

(** What the character after a backslash stands for. *)
Definition escape (c : Z) : option Z :=
  if c =? 110 then Some 10
  else if c =? 116 then Some 9
  else if c =? 114 then Some 13
  else if c =? 34 then Some 34
  else if c =? 92 then Some 92
  else None.

(** From after the opening quote; [b] is the builder. *)
Fixpoint parseString (s b : bytes) : res (bytes * bytes) :=
  match s with
  | [] => Err "edn: unterminated string"
  | c :: s' =>
      if c =? 34 then Ok (b, s')
      else if c =? 92 then
        match s' with
        | [] => Err "edn: unterminated escape at end of input"
        | c' :: s'' =>
            match escape c' with
            | Some x => parseString s'' (b ++ [x])
            | None => Err "edn: unsupported escape"
            end
        end
      else parseString s' (b ++ [c])
  end.

(** ** Atoms *)

Fixpoint atomSplit (s : bytes) : bytes * bytes :=
  match s with
  | c :: s' => if isDelim c then ([], s) else let '(a, r) := atomSplit s' in (c :: a, r)
  | [] => ([], [])
  end.

Section reader.
Variable ParseFloat : bytes → option Z.

(** A digit, or a sign before a digit. *)
Definition numberStart (atom : bytes) : bool :=
  match atom with
  | c :: rest => digit c || (((c =? 45) || (c =? 43)) && match rest with d :: _ => digit d | [] => false end)
  | [] => false
  end.

Definition parseAtom (atom : bytes) : res Value :=
  if bool_decide (atom = bs "nil") then Ok Nil
  else if bool_decide (atom = bs "true") then Ok (Bool true)
  else if bool_decide (atom = bs "false") then Ok (Bool false)
  else if bool_decide (atom = bs "_") then Ok (Symbol (bs "_"))
  else if bool_decide (atom = bs ":") then Err "edn: bare ':'"
  else
    match atom with
    | [] => Err "edn: empty atom"
    | c :: rest =>
        if c =? 58 then Ok (Keyword rest)
        else if numberStart atom then
          match ParseInt atom with
          | Some n => Ok (Int n)
          | None => match ParseFloat atom with Some f => Ok (Float f) | None => Ok (Symbol atom) end
          end
        else if existsb digit atom then
          match ParseFloat atom with Some f => Ok (Float f) | None => Ok (Symbol atom) end
        else Ok (Symbol atom)
    end.

(** ** Values *)

Fixpoint parseValue (fuel : nat) (s : bytes) : res (Value * bytes) :=
  match fuel with
  | O => Diverge
  | S fuel' =>
      match skipWS s with
      | [] => Err "edn: unexpected end of input"
      | c :: s' =>
          if c =? 91 then parseSeq fuel' s' 93 []
          else if c =? 40 then parseSeq fuel' s' 41 []
          else if c =? 123 then Err "edn: maps not supported"
          else if c =? 35 then
            match s' with
            | 123 :: _ => Err "edn: sets not supported"
            | _ => Err "edn: unsupported dispatch"
            end
          else if c =? 34 then '(str, next) ← parseString s' []; Ok (Str str, next)
          else
            let '(atom, next) := atomSplit (c :: s') in
            match atom with
            | [] => Err "edn: empty atom"
            | _ => v ← parseAtom atom; Ok (v, next)
            end
      end
  end
with parseSeq (fuel : nat) (s : bytes) (close : Z) (items : list Value) : res (Value * bytes) :=
  match fuel with
  | O => Diverge
  | S fuel' =>
      match skipWS s with
      | [] => Err "edn: unterminated sequence"
      | c :: s' =>
          if c =? close then Ok (List items, s')
          else
            '(v, next) ← parseValue fuel' (c :: s');
            parseSeq fuel' next close (items ++ [v])
      end
  end.

(** Enough for every text: a value takes one step more than twice its bytes. *)
Definition enough (s : bytes) : nat := S (2 * length s).

Definition Read (s : bytes) : res Value :=
  '(v, rest) ← parseValue (enough s) s;
  match skipWS rest with
  | [] => Ok v
  | _ => Err "edn: trailing content"
  end.

Definition ReadVector (s : bytes) : res (list Value) :=
  match skipWS s with
  | c :: s' =>
      if c =? 91 then
        '(v, _) ← parseValue (enough (c :: s')) (c :: s');
        match v with List items => Ok items | _ => Err "edn: expected tx-data vector" end
      else Err "edn: expected tx-data vector"
  | [] => Err "edn: expected tx-data vector"
  end.
End reader.

(** ** The grammar *)

(** The grammar is written without the reader's own tests: the white space and the
    delimiters as lists of characters, the escapes as a table, and the atoms by what they
    look like. *)

(** Space, tab, line feed, carriage return and comma; with them brackets of all kinds and
    the double quote end an atom. *)
Definition spaceChars : bytes := [32; 9; 10; 13; 44].
Definition delimChars : bytes := spaceChars ++ bs "()[]{}" ++ [34].

(** The letter after a backslash and the character it stands for. *)
Definition escapes : list (Z * Z) := [(110, 10); (116, 9); (114, 13); (34, 34); (92, 92)].

(** The text between quotes for a string. *)
Inductive quoted : bytes → bytes → Prop :=
| QEnd : quoted [] []
| QPlain c q t : c ≠ 34 → c ≠ 92 → quoted q t → quoted (c :: q) (c :: t)
| QEscape c x q t : (c, x) ∈ escapes → quoted q t → quoted (92 :: c :: q) (x :: t).

(** A number of 64 bits in decimal, with or without a sign. *)
Fixpoint placeValue (ds : bytes) : Z := match ds with [] => 0 | d :: ds' => (d - 48) * 10 ^ Z.of_nat (length ds') + placeValue ds' end.
Definition integer (a : bytes) (n : Z) : Prop :=
  ∃ sign ds, a = sign ++ ds ∧ sign ∈ [[]; bs "+"; bs "-"] ∧ ds ≠ [] ∧ Forall (fun d => 48 ≤ d ≤ 57) ds
    ∧ n = (if bool_decide (sign = bs "-") then - placeValue ds else placeValue ds) ∧ - 2 ^ 63 ≤ n < 2 ^ 63.

Definition blank (s : bytes) : Prop := Forall (fun c => c ∈ spaceChars) s.
Definition delimited (s : bytes) : Prop := match s with c :: _ => c ∈ delimChars | [] => True end.

(** Texts that end by themselves. *)
Definition selfDelimited (s : bytes) : Prop := match s with c :: _ => c = 34 ∨ c = 91 ∨ c = 40 | [] => False end.

Section grammar.
Variable ParseFloat : bytes → option Z.

(** Atoms: the three constants; keywords, a colon and a name; integers; what has a digit
    and is a floating-point number to [ParseFloat]; and every other text is a symbol. *)
Inductive atomOf : bytes → Value → Prop :=
| ANil : atomOf (bs "nil") Nil
| ATrue : atomOf (bs "true") (Bool true)
| AFalse : atomOf (bs "false") (Bool false)
| AKeyword k : k ≠ [] → atomOf (58 :: k) (Keyword k)
| AInt a n : integer a n → atomOf a (Int n)
| AFloat a f : list.head a ≠ Some 58 → Exists (fun c => 48 ≤ c ≤ 57) a → (∀ n, ¬ integer a n) → ParseFloat a = Some f → atomOf a (Float f)
| ASymbol a : a ∉ map bs ["nil"; "true"; "false"] → list.head a ≠ Some 58 → (∀ n, ¬ integer a n) →
    (Exists (fun c => 48 ≤ c ≤ 57) a → ParseFloat a = None) → atomOf a (Symbol a).

(** [spells v s]: the text [s] stands for [v], with any white space inside. An atom
    goes on to the next delimiter. *)
Inductive spells : Value → bytes → Prop :=
| SAtom a v : a ≠ [] → list.head a ≠ Some 35 → Forall (fun c => c ∉ delimChars) a → atomOf a v → spells v a
| SStr q t : quoted q t → spells (Str t) (34 :: q ++ [34])
| SVector items b : body items b → spells (List items) (91 :: b ++ [93])
| SList items b : body items b → spells (List items) (40 :: b ++ [41])
with body : list Value → bytes → Prop :=
| BEnd w : blank w → body [] w
| BItem w v t items b : blank w → spells v t → (selfDelimited t ∨ delimited b) → body items b → body (v :: items) (w ++ t ++ b).

Scheme spells_ind' := Induction for spells Sort Prop with body_ind' := Induction for body Sort Prop.
Combined Scheme spells_body_ind from spells_ind', body_ind'.

(** ** The reader follows the grammar *)

Lemma isWS_spec c : isWS c = true ↔ c ∈ spaceChars.
Proof. unfold isWS, spaceChars. rewrite !orb_true_iff, !Z.eqb_eq. rewrite !elem_of_cons, elem_of_nil. tauto. Qed.

Lemma isDelim_spec c : isDelim c = true ↔ c ∈ delimChars.
Proof.
  unfold isDelim, delimChars. rewrite elem_of_app, <- isWS_spec. change (bs "()[]{}" ++ [34]) with [40; 41; 91; 93; 123; 125; 34].
  rewrite !orb_true_iff, !Z.eqb_eq. rewrite !elem_of_cons, elem_of_nil. tauto.
Qed.

Lemma notDelims_spec a : Forall (fun c => c ∉ delimChars) a ↔ forallb (fun c => negb (isDelim c)) a = true.
Proof.
  rewrite forallb_forall, Forall_forall. split; intros H c Hc; [apply negb_true_iff, not_true_iff_false; rewrite isDelim_spec; apply H; by apply list_elem_of_In|].
  rewrite <- isDelim_spec. apply not_true_iff_false, negb_true_iff, H. by apply list_elem_of_In.
Qed.

Lemma blank_spec w : blank w ↔ forallb isWS w = true.
Proof.
  unfold blank. rewrite forallb_forall, Forall_forall. split; intros H c Hc; [apply isWS_spec, H; by apply list_elem_of_In|apply isWS_spec, H; by apply list_elem_of_In].
Qed.

Lemma escape_spec c x : escape c = Some x ↔ (c, x) ∈ escapes.
Proof.
  unfold escapes. rewrite !elem_of_cons, elem_of_nil. unfold escape.
  destruct (Z.eqb_spec c 110), (Z.eqb_spec c 116), (Z.eqb_spec c 114), (Z.eqb_spec c 34), (Z.eqb_spec c 92); subst; naive_solver.
Qed.

Lemma digit_spec c : digit c = true ↔ 48 ≤ c ≤ 57.
Proof. unfold digit. lia. Qed.

Lemma decimal_place ds : decimal ds = placeValue ds.
Proof.
  unfold decimal. assert (∀ acc, fold_left (fun n b => 10 * n + (b - 48)) ds acc = acc * 10 ^ Z.of_nat (length ds) + placeValue ds) as H; [|rewrite H; lia].
  induction ds as [|d ds IH]; intros acc; cbn [fold_left length placeValue]; [rewrite Z.pow_0_r; lia|]. rewrite IH, Nat2Z.inj_succ, Z.pow_succ_r by lia. lia.
Qed.

Lemma ParseInt_spec a n : ParseInt a = Some n ↔ integer a n.
Proof.
  assert (∀ ds, forallb digit ds = true ↔ Forall (fun d => 48 ≤ d ≤ 57) ds) as Hd.
  { intros ds. rewrite forallb_forall, Forall_forall. split; intros H c Hc; apply digit_spec, H; by apply list_elem_of_In. }
  assert (∀ sign ds, (if bool_decide (ds = []) || negb (forallb digit ds) then None
    else let n := if bool_decide (sign = bs "-") then - decimal ds else decimal ds in if (- 2 ^ 63 <=? n) && (n <? 2 ^ 63) then Some n else None) = Some n
    ↔ ds ≠ [] ∧ Forall (fun d => 48 ≤ d ≤ 57) ds ∧ n = (if bool_decide (sign = bs "-") then - placeValue ds else placeValue ds) ∧ - 2 ^ 63 ≤ n < 2 ^ 63) as Hcore.
  { intros sign ds. rewrite decimal_place. cbv zeta. set (m := if bool_decide (sign = bs "-") then _ else _). rewrite <- Hd. case_bool_decide as E; cbn [orb]; [naive_solver|].
    destruct (forallb digit ds); cbn [negb]; [|naive_solver]. destruct ((- 2 ^ 63 <=? m) && (m <? 2 ^ 63)) eqn:Er; split; try done.
    - intros [= <-]. split_and!; try done; lia.
    - intros (_&_&->&_). done.
    - intros (_&_&->&?). lia. }
  unfold ParseInt, integer. split.
  - intros H. destruct a as [|c a]; [done|]. destruct (Z.eqb_spec c 45) as [->|H45]; [|destruct (Z.eqb_spec c 43) as [->|H43]].
    + exists (bs "-"), a. apply (Hcore (bs "-") a) in H as (?&?&?&?). split_and!; try done; [apply (bool_decide_unpack _); by vm_compute|lia..].
    + exists (bs "+"), a. apply (Hcore (bs "+") a) in H as (?&?&?&?). split_and!; try done; [apply (bool_decide_unpack _); by vm_compute|lia..].
    + exists [], (c :: a). apply (Hcore [] (c :: a)) in H as (?&?&?&?). split_and!; try done; [left|lia..].
  - intros (sign&ds&->&Hs&H). apply (Hcore sign ds) in H. rewrite !elem_of_cons, elem_of_nil in Hs. destruct Hs as [->|[->|[->|[]]]]; [|exact H..].
    cbn [app]. destruct ds as [|d ds]; [done|]. assert (48 ≤ d ≤ 57) as Hdd.
    { destruct (forallb digit (d :: ds)) eqn:Ef; [|by rewrite orb_true_r in H]. cbn [forallb] in Ef. apply andb_prop in Ef as [Ef _]. by apply digit_spec. }
    rewrite !(proj2 (Z.eqb_neq d _)) by lia. exact H.
Qed.

Lemma no_integer a : ParseInt a = None ↔ ∀ n, ¬ integer a n.
Proof. split; [intros H n Hn%ParseInt_spec; congruence|]. intros H. destruct (ParseInt a) as [n|] eqn:E; [|done]. by apply ParseInt_spec, H in E. Qed.

Lemma has_digit a : existsb digit a = true ↔ Exists (fun c => 48 ≤ c ≤ 57) a.
Proof.
  rewrite existsb_exists, Exists_exists. split; intros (c&H1&H2); exists c; (split; [by apply list_elem_of_In|by apply digit_spec]).
Qed.

(** A number starts like one, and has a digit. *)
Lemma integer_start a n : integer a n → numberStart a = true ∧ a ≠ [] ∧ list.head a ≠ Some 58 ∧ a ∉ map bs ["nil"; "true"; "false"; "_"; ":"].
Proof.
  intros (sign&ds&->&Hs&Hne&Hd&_). destruct ds as [|d ds]; [done|]. apply Forall_cons in Hd as [Hd _]. pose proof (proj2 (digit_spec d) Hd) as Hd'.
  rewrite !elem_of_cons, elem_of_nil in Hs. cbn [map]. rewrite !not_elem_of_cons. destruct Hs as [->|[->|[->|[]]]]; cbn [app].
  - cbn [numberStart list.head]. rewrite Hd'. split_and!; try done; try (intros [= ->]; lia). apply not_elem_of_nil.
  - change (bs "+" ++ d :: ds) with (43 :: d :: ds). cbn [numberStart list.head]. rewrite Hd'. by split_and!; [| | | | | | | |apply not_elem_of_nil].
  - change (bs "-" ++ d :: ds) with (45 :: d :: ds). cbn [numberStart list.head]. rewrite Hd'. by split_and!; [| | | | | | | |apply not_elem_of_nil].
Qed.

Lemma numberStart_digit a : numberStart a = true → existsb digit a = true.
Proof. destruct a as [|c [|d a]]; [done| |]; cbn [numberStart existsb]; destruct (digit c); try done; rewrite ?andb_false_r; [done|]. by intros [_ ->]%andb_prop. Qed.

(** What a text that is no constant and no keyword is read as. *)
Lemma parseAtom_rest a : a ≠ [] → a ∉ map bs ["nil"; "true"; "false"; ":"] → list.head a ≠ Some 58 →
  parseAtom ParseFloat a = match ParseInt a with
                | Some n => Ok (Int n)
                | None => if existsb digit a then match ParseFloat a with Some f => Ok (Float f) | None => Ok (Symbol a) end else Ok (Symbol a)
                end.
Proof.
  intros Hne Hk Hh. cbn [map] in Hk. rewrite !not_elem_of_cons in Hk. destruct Hk as (K1&K2&K3&K4&_).
  unfold parseAtom. rewrite !(bool_decide_false (a = bs "nil")), (bool_decide_false (a = bs "true")), (bool_decide_false (a = bs "false")), (bool_decide_false (a = bs ":")) by done.
  case_bool_decide as E; [by subst a|]. destruct a as [|c a]; [done|]. destruct (Z.eqb_spec c 58) as [->|_]; [done|].
  destruct (ParseInt (c :: a)) as [n|] eqn:Ei.
  - apply ParseInt_spec, integer_start in Ei as [-> _]. done.
  - destruct (numberStart (c :: a)) eqn:Es; [|done]. by rewrite (numberStart_digit _ Es).
Qed.

Lemma parseAtom_spec a v : a ≠ [] → parseAtom ParseFloat a = Ok v ↔ atomOf a v.
Proof.
  intros Hne. split.
  - intros H. destruct (decide (a ∈ map bs ["nil"; "true"; "false"; ":"])) as [Hk|Hk].
    { cbn [map] in Hk. rewrite !elem_of_cons, elem_of_nil in Hk. destruct Hk as [->|[->|[->|[->|[]]]]]; vm_compute in H; [injection H as <-; constructor..|done]. }
    destruct (decide (list.head a = Some 58)) as [Hh|Hh].
    { destruct a as [|c k]; [done|]. injection Hh as ->. destruct k as [|x k]; [exfalso; apply Hk; apply (bool_decide_unpack _); by vm_compute|].
      assert (parseAtom ParseFloat (58 :: x :: k) = Ok (Keyword (x :: k))) as E.
      { unfold parseAtom. rewrite !bool_decide_false by done. done. }
      rewrite E in H. injection H as <-. by apply AKeyword. }
    rewrite parseAtom_rest in H by done. destruct (ParseInt a) as [n|] eqn:Ei; [injection H as <-; by apply AInt, ParseInt_spec|].
    pose proof (proj1 (no_integer a) Ei) as Hn.
    assert ((Exists (fun c => 48 ≤ c ≤ 57) a → ParseFloat a = None) → v = Symbol a → atomOf a v) as Hsym.
    { intros Hf ->. apply ASymbol; [|done|done|done]. intros Hin. apply Hk. cbn [map] in *. rewrite !elem_of_cons in *. tauto. }
    destruct (existsb digit a) eqn:Ed.
    + destruct (ParseFloat a) as [f|] eqn:Ef; [|injection H as <-; by apply Hsym]. injection H as <-. apply AFloat; [done|by apply has_digit|done|done].
    + injection H as <-. apply Hsym; [|done]. intros Hx%has_digit. congruence.
  - destruct 1 as [| | |k Hk|a n Hi|a f Hh Hd Hn Hf|a Hk Hh Hn Hf]; [reflexivity..| | | |].
    + unfold parseAtom. rewrite !bool_decide_false by (try done; destruct k; done). done.
    + pose proof Hi as (_&_&H58&Hk)%integer_start. rewrite parseAtom_rest; [by apply ParseInt_spec in Hi as ->|done| |done].
      intros Hin. apply Hk. cbn [map] in *. rewrite !elem_of_cons in *. tauto.
    + rewrite parseAtom_rest; [|done| |done].
      * rewrite (proj2 (no_integer a) Hn), (proj2 (has_digit a) Hd), Hf. done.
      * intros Hin. apply has_digit in Hd. cbn [map] in Hin. rewrite !elem_of_cons, elem_of_nil in Hin. destruct Hin as [->|[->|[->|[->|[]]]]]; by vm_compute in Hd.
    + rewrite parseAtom_rest; [|done| |done].
      * rewrite (proj2 (no_integer a) Hn). destruct (existsb digit a) eqn:Ed; [|done]. by rewrite Hf by (by apply has_digit).
      * intros Hin. cbn [map] in *. rewrite !elem_of_cons in *. destruct Hin as [?|[?|[?|[->|?%elem_of_nil]]]]; try done; try (apply Hk; tauto).
Qed.

Lemma skipWS_blank w s : blank w → skipWS (w ++ s) = skipWS s.
Proof. intros Hw. induction Hw as [|c w Hc Hw IH]; [done|]. cbn [app skipWS]. by rewrite (proj2 (isWS_spec c) Hc). Qed.

Lemma skipWS_split s : ∃ w, s = w ++ skipWS s ∧ blank w.
Proof.
  induction s as [|c s (w&E&Hw)]; [exists []; by split; [|constructor]|]. cbn [skipWS]. destruct (isWS c) eqn:Ec; [|exists []; by split; [|constructor]].
  exists (c :: w). cbn [app]. rewrite <- E. split; [done|]. constructor; [by apply isWS_spec|done].
Qed.

Lemma skipWS_stop c s : isWS c = false → skipWS (c :: s) = c :: s.
Proof. cbn [skipWS]. by intros ->. Qed.

Lemma skipWS_head s c s' : skipWS s = c :: s' → isWS c = false.
Proof. induction s as [|x s IH]; cbn [skipWS]; [done|]. destruct (isWS x) eqn:E; [done|]. by intros [= <- <-]. Qed.

Lemma isWS_delim c : isWS c = true → isDelim c = true.
Proof. unfold isDelim. by intros ->. Qed.

Lemma atomSplit_app a r :
  Forall (fun c => c ∉ delimChars) a → delimited r → atomSplit (a ++ r) = (a, r).
Proof.
  rewrite notDelims_spec. induction a as [|c a IH]; cbn [app atomSplit forallb].
  - intros _ Hr. destruct r as [|c r]; [done|]. cbn [delimited atomSplit] in *. by rewrite (proj2 (isDelim_spec c) Hr).
  - intros [Hc Ha]%andb_prop Hr. apply negb_true_iff in Hc. by rewrite Hc, IH.
Qed.

Lemma atomSplit_spec s a r :
  atomSplit s = (a, r) → s = a ++ r ∧ Forall (fun c => c ∉ delimChars) a ∧ delimited r.
Proof.
  rewrite notDelims_spec. revert a r. induction s as [|c s IH]; cbn [atomSplit]; intros a r; [by intros [= <- <-]|].
  destruct (isDelim c) eqn:E; [intros [= <- <-]; split_and!; [done|done|by apply isDelim_spec]|]. destruct (atomSplit s) as [a0 r0]. intros [= <- <-].
  destruct (IH a0 r0 eq_refl) as (->&Ha&Hr). split_and!; [done| |done]. cbn [forallb]. by rewrite E.
Qed.

Lemma parseString_quoted q t b r : quoted q t → parseString (q ++ 34 :: r) b = Ok (b ++ t, r).
Proof.
  intros Hq. revert b. induction Hq as [|c q t H1 H2 Hq IH|c x q t Hx Hq IH]; intros b; cbn [app parseString].
  - by rewrite app_nil_r.
  - rewrite !(proj2 (Z.eqb_neq _ _)) by done. rewrite IH, <- app_assoc. done.
  - cbn. rewrite (proj2 (escape_spec c x) Hx), IH, <- app_assoc. done.
Qed.

Lemma parseString_sound n s b t r :
  (length s ≤ n)%nat → parseString s b = Ok (t, r) → ∃ q t', s = q ++ 34 :: r ∧ t = b ++ t' ∧ quoted q t'.
Proof.
  revert s b. induction n as [|n IH]; intros [|c s] b Hn; cbn [length parseString] in *; try done; [lia|].
  destruct (Z.eqb_spec c 34) as [->|H1]; [|destruct (Z.eqb_spec c 92) as [->|H2]].
  - intros [= <- <-]. exists [], []. rewrite app_nil_r. split_and!; [done|done|constructor].
  - destruct s as [|c' s]; [done|]. destruct (escape c') as [x|] eqn:Ex; [|done]. cbn [length] in Hn.
    intros (q&t'&->&->&Hq)%IH; [|lia]. exists (92 :: c' :: q), (x :: t'). split_and!; [done|by rewrite <- app_assoc|constructor; [by apply escape_spec|done]].
  - intros (q&t'&->&->&Hq)%IH; [|lia]. exists (c :: q), (c :: t'). split_and!; [done|by rewrite <- app_assoc|by constructor].
Qed.

(** The first character of a spelling. *)
Lemma spells_head v t : spells v t → ∃ c t', t = c :: t' ∧ isWS c = false ∧ c ≠ 93 ∧ c ≠ 41.
Proof.
  destruct 1 as [a v Ha Hh Hd E|q t Hq|items b Hb|items b Hb]; [|by eexists _, _..].
  destruct a as [|c a]; [done|]. exists c, a. split; [done|]. apply Forall_cons in Hd as [Hc _].
  rewrite <- isDelim_spec in Hc. apply not_true_iff_false in Hc. unfold isDelim in Hc. destruct (isWS c); [done|]. split_and!; [done|..]; intros ->; done.
Qed.

Lemma delimited_app b r : delimited r → delimited b → b ≠ [] ∨ delimited r → delimited (b ++ r).
Proof. by destruct b. Qed.

Lemma parse_complete :
  (∀ v t, spells v t → ∀ fuel w r, blank w → selfDelimited t ∨ delimited r → (2 * length t < fuel)%nat →
    parseValue ParseFloat fuel (w ++ t ++ r) = Ok (v, r))
  ∧ ∀ items b, body items b → ∀ fuel close r acc, close = 93 ∨ close = 41 → (2 * length b + 1 < fuel)%nat →
    parseSeq ParseFloat fuel (b ++ close :: r) close acc = Ok (List (acc ++ items), r).
Proof.
  apply spells_body_ind.
  - intros a v Ha Hh Hd E fuel w r Hw Hr Hf. destruct fuel as [|fuel]; [lia|]. cbn [parseValue]. rewrite skipWS_blank by done.
    destruct a as [|c a]; [done|]. pose proof (atomSplit_app (c :: a) r Hd) as Hs. pose proof Hd as Hd0.
    apply Forall_cons in Hd0 as [Hc _]. rewrite <- isDelim_spec in Hc. apply not_true_iff_false in Hc.
    assert (selfDelimited (c :: a) → False) as Hns by (cbn [selfDelimited]; intros [->|[->| ->]]; done).
    cbn [app]. rewrite skipWS_stop by (destruct (isWS c) eqn:Ew; [by rewrite isWS_delim in Hc|done]).
    assert (∀ x, isDelim x = true → (c =? x) = false) as Hx by (intros x Hx; apply Z.eqb_neq; intros ->; congruence).
    rewrite (Hx 91), (Hx 40), (Hx 123), (Hx 34) by done. rewrite (proj2 (Z.eqb_neq c 35)) by (intros ->; done). cbn [app] in Hs. rewrite Hs by tauto.
    by rewrite (proj2 (parseAtom_spec _ _ Ha) E), res_bind_ret.
  - intros q t Hq fuel w r Hw _ Hf. destruct fuel as [|fuel]; [lia|]. cbn [parseValue]. rewrite skipWS_blank by done.
    cbn [app]. rewrite <- app_assoc. cbn [app]. rewrite skipWS_stop by done. cbn [Z.eqb Pos.eqb].
    by rewrite (parseString_quoted q t [] r Hq), res_bind_ret.
  - intros items b _ IH fuel w r Hw _ Hf. destruct fuel as [|fuel]; [lia|]. cbn [parseValue length] in *. rewrite skipWS_blank by done.
    cbn [app]. rewrite <- app_assoc. cbn [app]. rewrite skipWS_stop by done. cbn [Z.eqb Pos.eqb]. rewrite length_app in Hf. cbn [length] in Hf.
    apply (IH fuel 93 r []); [by left|lia].
  - intros items b _ IH fuel w r Hw _ Hf. destruct fuel as [|fuel]; [lia|]. cbn [parseValue length] in *. rewrite skipWS_blank by done.
    cbn [app]. rewrite <- app_assoc. cbn [app]. rewrite skipWS_stop by done. cbn [Z.eqb Pos.eqb]. rewrite length_app in Hf. cbn [length] in Hf.
    apply (IH fuel 41 r []); [by right|lia].
  - intros w Hw fuel close r acc Hc Hf. destruct fuel as [|fuel]; [lia|]. cbn [parseSeq]. rewrite skipWS_blank by done.
    rewrite skipWS_stop by (destruct Hc as [->| ->]; done). by rewrite Z.eqb_refl, app_nil_r.
  - intros w v t items b Hw Hv IHv Hd Hb IHb fuel close r acc Hc Hf. rewrite !length_app in Hf.
    destruct fuel as [|fuel]; [lia|]. cbn [parseSeq]. rewrite <- !app_assoc, skipWS_blank by done.
    destruct (spells_head v t Hv) as (c&t'&Et&Hws&H93&H41). rewrite Et at 1. cbn [app]. rewrite skipWS_stop by done.
    rewrite (proj2 (Z.eqb_neq c close)) by (destruct Hc as [->| ->]; done).
    subst t. cbn [length] in Hf. assert (parseValue ParseFloat fuel (c :: t' ++ b ++ close :: r) = Ok (v, b ++ close :: r)) as ->.
    { apply (IHv fuel [] (b ++ close :: r)); [constructor| |cbn [length]; lia].
      destruct Hd as [?|Hd]; [by left|right]. destruct b; [|done]. cbn. destruct Hc as [->| ->]; apply (bool_decide_unpack _); by vm_compute. }
    rewrite res_bind_ret. rewrite IHb by (done || lia). by rewrite <- app_assoc.
Qed.

Lemma parse_sound fuel :
  (∀ s v r, parseValue ParseFloat fuel s = Ok (v, r) →
    ∃ w t, s = w ++ t ++ r ∧ blank w ∧ spells v t ∧ (selfDelimited t ∨ delimited r))
  ∧ ∀ s close acc v r, close = 93 ∨ close = 41 → parseSeq ParseFloat fuel s close acc = Ok (v, r) →
    ∃ items b, v = List (acc ++ items) ∧ s = b ++ close :: r ∧ body items b.
Proof.
  induction fuel as [|fuel [IHv IHs]]; [done|]. split.
  - intros s v r. cbn [parseValue]. destruct (skipWS_split s) as (w&Es&Hw). destruct (skipWS s) as [|c s'] eqn:Ek; [done|].
    assert (∀ close, (close = 93 ∨ close = 41) → (∀ items b, body items b → spells (List items) (c :: b ++ [close])) → c = 91 ∨ c = 40 →
      parseSeq ParseFloat fuel s' close [] = Ok (v, r) →
      ∃ w t, s = w ++ t ++ r ∧ blank w ∧ spells v t ∧ (selfDelimited t ∨ delimited r)) as Hseq.
    { intros close Hc Hsp Hc0 (items&b&->&->&Hb)%IHs; [|done]. exists w, (c :: b ++ [close]). split_and!; [|done|by apply Hsp|left; cbn; tauto].
      rewrite Es. cbn [app]. by rewrite <- app_assoc. }
    destruct (Z.eqb_spec c 91) as [->|H91]; [apply (Hseq 93); [tauto|by constructor|tauto]|].
    destruct (Z.eqb_spec c 40) as [->|H40]; [apply (Hseq 41); [tauto|by constructor|tauto]|].
    destruct (c =? 123); [done|]. destruct (Z.eqb_spec c 35) as [->|H35].
    { intros H. by repeat case_match. }
    destruct (Z.eqb_spec c 34) as [->|H34].
    + rewrite res_bind_Ok. intros ([str next]&E&[= <- <-]). apply (parseString_sound (length s')) in E as (q&t'&->&->&Hq); [|done].
      exists w, (34 :: q ++ [34]). split_and!; [|done|by constructor|left; cbn; tauto]. rewrite Es. cbn [app]. by rewrite <- app_assoc.
    + destruct (atomSplit (c :: s')) as [atom next] eqn:Ea. apply atomSplit_spec in Ea as (Ea&Hd&Hn). destruct atom as [|a0 atom]; [done|].
      rewrite res_bind_Ok. intros (v0&Ev&[= <- <-]). exists w, (a0 :: atom). injection Ea as -> Ea. split_and!; [by rewrite Es, Ea|done| |by right].
      apply SAtom; [done|cbn; congruence|done|by apply parseAtom_spec].
  - intros s close acc v r Hc. cbn [parseSeq]. destruct (skipWS_split s) as (w&Es&Hw). destruct (skipWS s) as [|c s'] eqn:Ek; [done|].
    destruct (Z.eqb_spec c close) as [->|Hne].
    + intros [= <- <-]. exists [], w. rewrite app_nil_r. split_and!; [done|done|by constructor].
    + rewrite res_bind_Ok. intros ([v1 next]&(w1&t&E1&Hw1&Ht&Hd)%IHv&(items&b&->&->&Hb)%IHs); [|done].
      exists (v1 :: items), ((w ++ w1) ++ t ++ b). split_and!; [by rewrite <- app_assoc| |].
      { rewrite Es, E1. by rewrite <- !app_assoc. }
      constructor; [|done| |done].
      { by apply Forall_app. }
      { destruct Hd as [?|Hd]; [by left|right]. by destruct b. }
Qed.

Lemma parseString_total s b : parseString s b ≠ Panic ∧ parseString s b ≠ Diverge.
Proof.
  remember (length s) as n eqn:Hn. assert (length s ≤ n)%nat as Hle by lia. clear Hn. revert s b Hle.
  induction n as [|n IH]; intros [|c s] b Hle; cbn [length parseString] in *; try done; [lia|].
  destruct (c =? 34); [done|]. destruct (c =? 92); [|apply IH; lia]. destruct s as [|c' s]; [done|]. cbn [length] in Hle.
  destruct (escape c'); [apply IH; lia|done].
Qed.

Lemma parseAtom_total a : (∃ v, parseAtom ParseFloat a = Ok v) ∨ ∃ e, parseAtom ParseFloat a = Err e.
Proof. unfold parseAtom. repeat case_match; eauto. Qed.

(** Readers come to an end: a value or an error, and less text left. *)
Lemma parse_total fuel :
  (∀ s, (2 * length s < fuel)%nat →
    (∃ v r, parseValue ParseFloat fuel s = Ok (v, r) ∧ (length r < length s)%nat) ∨ ∃ e, parseValue ParseFloat fuel s = Err e)
  ∧ ∀ s close acc, (2 * length s + 1 < fuel)%nat →
    (∃ v r, parseSeq ParseFloat fuel s close acc = Ok (v, r) ∧ (length r < length s)%nat) ∨ ∃ e, parseSeq ParseFloat fuel s close acc = Err e.
Proof.
  induction fuel as [|fuel [IHv IHs]]; [split; intros; lia|]. split.
  - intros s Hf. cbn [parseValue]. destruct (skipWS_split s) as (w&Es&_). destruct (skipWS s) as [|c s'] eqn:Ek; [right; eauto|].
    assert (length s' < length s)%nat as Hl by (rewrite Es, length_app; cbn [length]; lia).
    assert (∀ close, (∃ v r, parseSeq ParseFloat fuel s' close [] = Ok (v, r) ∧ (length r < length s)%nat) ∨ ∃ e, parseSeq ParseFloat fuel s' close [] = Err e) as Hseq.
    { intros close. destruct (IHs s' close []) as [(v&r&E&Hr)|He]; [lia| |by right]. left. exists v, r. split; [done|lia]. }
    destruct (c =? 91); [apply Hseq|]. destruct (c =? 40); [apply Hseq|]. destruct (c =? 123); [right; by eauto|]. destruct (c =? 35); [|destruct (c =? 34)].
    + right. repeat case_match; eauto.
    + destruct (parseString s' []) as [[str r]|e| |] eqn:E; [left|right; by exists e|by destruct (parseString_total s' [])..].
      rewrite res_bind_ret. exists (Str str), r. split; [done|]. apply (parseString_sound (length s')) in E as (q&t'&->&_); [|done].
      rewrite length_app in Hl. cbn [length] in Hl. lia.
    + destruct (atomSplit (c :: s')) as [atom next] eqn:Ea. apply atomSplit_spec in Ea as (Ea&_&_). destruct atom as [|a0 atom]; [right; eauto|].
      destruct (parseAtom_total (a0 :: atom)) as [[v E]|[e E]]; rewrite E; [left|right; by exists e]. rewrite res_bind_ret. exists v, next.
      split; [done|]. injection Ea as _ ->. rewrite length_app in Hl. lia.
  - intros s close acc Hf. cbn [parseSeq]. destruct (skipWS_split s) as (w&Es&_). destruct (skipWS s) as [|c s'] eqn:Ek; [right; eauto|].
    assert (length (c :: s') ≤ length s)%nat as Hl by (rewrite Es, length_app; lia). destruct (c =? close).
    + left. exists (List acc), s'. split; [done|]. cbn [length] in Hl. lia.
    + destruct (IHv (c :: s')) as [(v&r&E&Hr)|[e E]]; [lia| |rewrite E; right; by exists e]. rewrite E, res_bind_ret.
      destruct (IHs r close (acc ++ [v])) as [(v'&r'&E'&Hr')|He]; [lia| |by right]. left. exists v', r'. split; [done|lia].
Qed.


Lemma blank_delimited w : blank w → delimited w.
Proof. destruct w as [|c w]; [done|]. intros [H _]%Forall_cons. by apply isDelim_spec, isWS_delim, isWS_spec. Qed.

Lemma skipWS_nil s : skipWS s = [] ↔ blank s.
Proof.
  split.
  - destruct (skipWS_split s) as (w&E&Hw). intros H. rewrite H, app_nil_r in E. by subst.
  - intros H. rewrite <- (app_nil_r s). by rewrite skipWS_blank.
Qed.
End grammar.

(** C34. The reader reads exactly its grammar, which is written without the reader's own
    tests ([spells], [atomOf], [quoted]): [Read] gives a value for a text if and only if
    the text, between white space, is a spelling of that value. An atom goes on to the
    next delimiter and does not start with a hash: nil, true and false; a colon and a name
    for a keyword; a decimal of 64 bits with or without a sign for an integer; a text with
    a digit that ParseFloat accepts and that is no such integer for a floating-point number; any
    other text that does not start with a colon for a symbol. A string has the five
    escapes of the table; vectors and lists hold spellings with any white space and
    commas between them. *)
Theorem edn_reads_grammar ParseFloat s v :
  Read ParseFloat s = Ok v ↔ ∃ w t w', s = w ++ t ++ w' ∧ blank w ∧ spells ParseFloat v t ∧ blank w'.
Proof.
  unfold Read. rewrite res_bind_Ok. split.
  - intros ([v0 r]&E&H). apply parse_sound in E as (w&t&->&Hw&Ht&_). destruct (skipWS r) eqn:Er; [|done]. injection H as ->.
    exists w, t, r. split_and!; try done. by apply skipWS_nil.
  - intros (w&t&w'&->&Hw&Ht&Hw'). exists (v, w'). split; [|by rewrite (proj2 (skipWS_nil w') Hw')].
    apply (proj1 (parse_complete ParseFloat) v t Ht); [done|right; by apply blank_delimited|]. unfold enough. rewrite !length_app. lia.
Qed.

(** Reading always comes to an end, with a value or an error: whatever the
    bytes, neither [Read] nor [ReadVector] panics or runs on. *)
Theorem edn_total ParseFloat s :
  ((∃ v, Read ParseFloat s = Ok v) ∨ ∃ e, Read ParseFloat s = Err e)
  ∧ ((∃ vs, ReadVector ParseFloat s = Ok vs) ∨ ∃ e, ReadVector ParseFloat s = Err e).
Proof.
  assert (∀ s, (∃ v r, parseValue ParseFloat (enough s) s = Ok (v, r)) ∨ ∃ e, parseValue ParseFloat (enough s) s = Err e) as H.
  { intros s0. destruct (proj1 (parse_total ParseFloat (enough s0)) s0) as [(v&r&E&_)|He]; [unfold enough; lia|left; eauto|by right]. }
  split.
  - unfold Read. destruct (H s) as [(v&r&->)|[e ->]]; [rewrite res_bind_ret|by right; exists e]. destruct (skipWS r); eauto.
  - unfold ReadVector. destruct (skipWS s) as [|c s']; [eauto|]. destruct (c =? 91); [|eauto].
    destruct (H (c :: s')) as [(v&r&->)|[e ->]]; [rewrite res_bind_ret|by right; exists e]. destruct v; eauto.
Qed.
