(* ===== verification/Sorting.v ===== *)
(** * Stable sorting ([sort.SliceStable] and [sort.Strings])

    The standard library's stable sort by a comparison: equal elements keep their
    order, so the result is determined and an insertion sort gives it. *)

From S2P Require Import Prelude.

Section sort.
Context {A : Type} (less : A → A → bool).

Fixpoint insertStable (x : A) (l : list A) : list A :=
  match l with
  | [] => [x]
  | y :: l' => if less x y then x :: l else y :: insertStable x l'
  end.

Definition sortStable (l : list A) : list A := fold_left (fun acc x => insertStable x acc) l [].

Lemma insertStable_perm x l : insertStable x l ≡ₚ x :: l.
Proof.
  induction l as [|y l IH]; cbn [insertStable]; [done|]. destruct (less x y); [done|]. rewrite IH. apply Permutation_swap.
Qed.

Lemma sortStable_perm l : sortStable l ≡ₚ l.
Proof.
  unfold sortStable. assert (∀ acc, fold_left (fun acc x => insertStable x acc) l acc ≡ₚ acc ++ l) as H; [|apply H].
  induction l as [|x l IH]; intros acc; cbn [fold_left]; [by rewrite app_nil_r|].
  rewrite IH, insertStable_perm. cbn [app]. by rewrite Permutation_middle.
Qed.

(** No later element is less than an earlier one. *)
Definition ordered (l : list A) : Prop := StronglySorted (fun a b => less b a = false) l.

Lemma insertStable_last x l : Forall (fun y => less x y = false) l → insertStable x l = l ++ [x].
Proof. induction 1 as [|y l Hy Hl IH]; cbn [insertStable app]; [done|]. by rewrite Hy, IH. Qed.

Lemma sortStable_ordered l : ordered l → sortStable l = l.
Proof.
  unfold sortStable. assert (∀ acc, ordered (acc ++ l) → fold_left (fun acc x => insertStable x acc) l acc = acc ++ l) as H; [|apply (H [])].
  induction l as [|x l IH]; intros acc Ho; cbn [fold_left]; [by rewrite app_nil_r|].
  rewrite insertStable_last.
  - rewrite IH by (by rewrite <- app_assoc). by rewrite <- app_assoc.
  - clear IH. induction acc as [|y acc IHa]; [constructor|]. cbn [app] in Ho. apply StronglySorted_inv in Ho as [Ho Hy]. constructor; [|by apply IHa].
    rewrite Forall_app, Forall_cons in Hy. tauto.
Qed.

(** A comparison that is a strict weak order. *)
Record weakOrder : Prop := {
  wo_trans x y z : less x y = true → less z y = false → less x z = true;
  wo_asym x y : less x y = true → less y x = false;
}.

Lemma insertStable_ordered x l : weakOrder → ordered l → ordered (insertStable x l).
Proof.
  intros Hw. induction 1 as [|y l Hl IH Hy]; cbn [insertStable]; [by repeat constructor|]. destruct (less x y) eqn:E.
  - constructor; [by constructor|]. constructor; [by apply Hw|]. eapply Forall_impl; [exact Hy|]. cbn. intros z Hz.
    apply (wo_asym Hw). by eapply (wo_trans Hw).
  - constructor; [done|]. apply Forall_forall. intros z Hz. rewrite insertStable_perm in Hz.
    apply elem_of_cons in Hz as [->|Hz]; [done|]. rewrite Forall_forall in Hy. by apply Hy.
Qed.

Lemma sortStable_is_ordered l : weakOrder → ordered (sortStable l).
Proof.
  intros Hw. unfold sortStable. assert (∀ acc, ordered acc → ordered (fold_left (fun acc x => insertStable x acc) l acc)) as H; [|apply H; constructor].
  induction l as [|x l IH]; intros acc Ho; cbn [fold_left]; [done|]. apply IH. by apply insertStable_ordered.
Qed.
End sort.
