(* ===== verification/Ranges.v ===== *)
(** * Ranges over values (go/internal/scheme/scheme.go, value comparison and ranges)

    The comparison of values, the intervals a condition on a variable becomes, and
    their bounds as key bytes. *)

From Stdlib Require Import Btauto.
From S2P Require Import Prelude Sexpr Keys Sorting.

(** ** Comparison *)

Definition kindRank (e : Expr) : Z :=
  match e with
  | sexpr.Void => 0
  | sexpr.Bool _ => 1
  | sexpr.Int _ => 2
  | sexpr.Float _ => 3
  | sexpr.Str _ => 4
  | sexpr.Bytes _ => 5
  | sexpr.Symbol _ => 6
  | sexpr.Keyword _ => 7
  | sexpr.List _ => 8
  | sexpr.Resource _ => 9
  end.

(** Go's [<] on [float64], by bit pattern: false when either is not a number. *)
Definition isNaN (x : Z) : bool := 0x7FF0000000000000 <? x mod 2 ^ 63.
Definition floatLt (x y : Z) : bool := negb (isNaN x) && negb (isNaN y) && (float_num x <? float_num y).

Definition ofComparison (c : comparison) : Z := match c with Lt => -1 | Eq => 0 | Gt => 1 end.

(** The loop over two byte strings of one length. *)
Fixpoint cmpSameLength (x y : bytes) : Z :=
  match x, y with
  | a :: x', b :: y' => if a <? b then -1 else if a >? b then 1 else cmpSameLength x' y'
  | _, _ => 0
  end.

Definition cmpValueS (a b : Expr) : Z :=
  if negb (kindRank a =? kindRank b) then kindRank a - kindRank b
  else
    match a, b with
    | sexpr.Bool x, sexpr.Bool y => if eqb x y then 0 else if negb x then -1 else 1
    | sexpr.Int x, sexpr.Int y => if x <? y then -1 else if x >? y then 1 else 0
    | sexpr.Float x, sexpr.Float y => if floatLt x y then -1 else if floatLt y x then 1 else 0
    | sexpr.Str x, sexpr.Str y => ofComparison (bcmp x y)
    | sexpr.Keyword x, sexpr.Keyword y => ofComparison (bcmp x y)
    | sexpr.Bytes x, sexpr.Bytes y =>
        if negb (Nat.eqb (length x) (length y)) then Z.of_nat (length x) - Z.of_nat (length y) else cmpSameLength x y
    | _, _ => 0
    end.

(** ** Intervals *)

Record interval : Type := mkInterval { lo : option Expr; hi : option Expr; loOpen : bool; hiOpen : bool }.

Definition lessLo (a b : interval) : bool :=
  match lo a, lo b with
  | None, None => false
  | None, Some _ => true
  | Some _, None => false
  | Some x, Some y => cmpValueS x y <? 0
  end.

Definition canMerge (prev cur : interval) : bool :=
  match hi prev with
  | None => true
  | Some h =>
      match lo cur with
      | Some l =>
          if negb (kindRank l =? kindRank h) then false
          else if cmpValueS l h <? 0 then true
          else if cmpValueS l h =? 0 then negb (hiOpen prev) && negb (loOpen cur)
          else false
      | None => false
      end
  end.

Definition merged (prev cur : interval) : interval :=
  let '(newHi, newHiOpen) :=
    match hi prev, hi cur with
    | None, h => (h, hiOpen cur)
    | Some _, None => (None, false)
    | Some ph, Some ch =>
        if cmpValueS ch ph >? 0 then (Some ch, hiOpen cur)
        else if cmpValueS ch ph <? 0 then (Some ph, hiOpen prev)
        else (Some ph, hiOpen prev && hiOpen cur)
    end in
  mkInterval (lo prev) newHi (loOpen prev) newHiOpen.

(** [prev] is the last interval of the result. *)
Fixpoint mergeLoop (prev : interval) (rest : list interval) : list interval :=
  match rest with
  | [] => [prev]
  | cur :: rest' => if canMerge prev cur then mergeLoop (merged prev cur) rest' else prev :: mergeLoop cur rest'
  end.

Definition mergeIntervals (intervals : list interval) : list interval :=
  if Nat.leb (length intervals) 1 then intervals
  else match sortStable lessLo intervals with [] => [] | first :: rest => mergeLoop first rest end.

(** ** Conditions *)

Definition rangeOpEq : Z := 0.
Definition rangeOpNeq : Z := 1.
Definition rangeOpGt : Z := 2.
Definition rangeOpGte : Z := 3.
Definition rangeOpLt : Z := 4.
Definition rangeOpLte : Z := 5.
Definition rangeOpIn : Z := 6.

Record opVal : Type := mkOp { op : Z; val : Expr }.

Definition isRangeOp (o : opVal) : bool := negb (op o =? rangeOpNeq) && negb (op o =? rangeOpIn).

(** One operator narrows the bounds. *)
Definition narrow (b : interval) (o : opVal) : interval :=
  if (op o =? rangeOpGt) || (op o =? rangeOpGte) then
    let take := match lo b with
                | None => true
                | Some l => (cmpValueS (val o) l >? 0) || ((cmpValueS (val o) l =? 0) && (op o =? rangeOpGt))
                end in
    if take then mkInterval (Some (val o)) (hi b) (op o =? rangeOpGt) (hiOpen b) else b
  else if (op o =? rangeOpLt) || (op o =? rangeOpLte) then
    let take := match hi b with
                | None => true
                | Some h => (cmpValueS (val o) h <? 0) || ((cmpValueS (val o) h =? 0) && (op o =? rangeOpLt))
                end in
    if take then mkInterval (lo b) (Some (val o)) (loOpen b) (op o =? rangeOpLt) else b
  else if op o =? rangeOpEq then mkInterval (Some (val o)) (Some (val o)) false false
  else b.

(** Is the excluded value within the interval? *)
Definition inRange (nv : Expr) (iv : interval) : bool :=
  match lo iv with
  | None => true
  | Some l => if loOpen iv then cmpValueS nv l >? 0 else negb (cmpValueS nv l <? 0)
  end
  && match hi iv with
     | None => true
     | Some h => if hiOpen iv then cmpValueS nv h <? 0 else negb (cmpValueS nv h >? 0)
     end.

Definition splitAt (nv : Expr) (iv : interval) : list interval :=
  if negb (inRange nv iv) then [iv]
  else [mkInterval (lo iv) (Some nv) (loOpen iv) true; mkInterval (Some nv) (hi iv) true (hiOpen iv)].

Definition point (v : Expr) : interval := mkInterval (Some v) (Some v) false false.

Definition opsToIntervals (ops : list opVal) : list interval :=
  let neqVals := map val (filter (fun o => op o = rangeOpNeq) ops) in
  let inVals := map val (filter (fun o => op o = rangeOpIn) ops) in
  let rangeOps := filter (fun o => isRangeOp o = true) ops in
  match inVals, rangeOps, neqVals with
  | _ :: _, [], [] => mergeIntervals (map point (sortStable (fun a b => cmpValueS a b <? 0) inVals))
  | _, _, _ =>
      let b := fold_left narrow rangeOps (mkInterval None None false false) in
      let crossed := match lo b, hi b with Some l, Some h => cmpValueS l h >? 0 | _, _ => false end in
      if crossed then []
      else mergeIntervals (fold_left (fun ivs nv => flat_map (splitAt nv) ivs) neqVals [b])
  end.

(** ** Bounds as key bytes *)

Definition encodeIntBytes (n : Z) : bytes :=
  let x := Z.lxor (u64 n) (2 ^ 63) in map (fun i => u8 (Z.shiftr x ((7 - i) * 8))) [0; 1; 2; 3; 4; 5; 6; 7].

Definition encodeFloatBytes (f : Z) : bytes :=
  let x := if Z.shiftr f 63 =? 1 then Z.lxor f (2 ^ 64 - 1) else Z.lxor f (2 ^ 63) in
  map (fun i => u8 (Z.shiftr x ((7 - i) * 8))) [0; 1; 2; 3; 4; 5; 6; 7].

Fixpoint variableLoop (fuel : nat) (s : bytes) : bytes :=
  match fuel with
  | O => []
  | S fuel' =>
      match s with
      | [] => []
      | _ =>
          let remaining := length s in
          let blockLen := Nat.min remaining 8 in
          take blockLen s ++ replicate (8 - blockLen) 0
            ++ [if Nat.leb remaining 8 then Z.of_nat blockLen else 255]
            ++ variableLoop fuel' (drop blockLen s)
      end
  end.
Definition encodeVariableBytes (s : bytes) : bytes := let s := take (firstNul s) s in variableLoop (length s) s.

Definition encodeVariableUnorderedBytes (data : bytes) : bytes :=
  let n := Z.of_nat (length data) in
  [u8 (Z.shiftr n 24); u8 (Z.shiftr n 16); u8 (Z.shiftr n 8); u8 n] ++ data.

Definition encodeSExprBytes (v : Expr) : bytes :=
  match v with
  | sexpr.Int x => encodeIntBytes x
  | sexpr.Float x => encodeFloatBytes x
  | sexpr.Str x => encodeVariableBytes x
  | sexpr.Bytes x => encodeVariableUnorderedBytes x
  | sexpr.Bool true => 0x80 :: replicate 7 0
  | _ => replicate 8 0
  end.

(** The branches of a condition, each a conjunction, as one list of intervals: the
    part of [evalRangesCreate] after the values are known. *)
Definition intervalTriple (iv : interval) : Expr :=
  let bound o := match o with Some v => sexpr.Bytes (encodeSExprBytes v) | None => sexpr.Void end in
  let flags := Z.lor (if loOpen iv then 1 else 0) (if hiOpen iv then 2 else 0) in
  sexpr.List [bound (lo iv); bound (hi iv); sexpr.Int flags].

Definition rangesOf (branches : list (list opVal)) : Expr :=
  match branches with
  | [[]] => sexpr.List []
  | _ =>
      let nonEmpty := filter (fun b => b ≠ []) branches in
      match nonEmpty with
      | [] => sexpr.List []
      | _ =>
          match mergeIntervals (flat_map opsToIntervals nonEmpty) with
          | [] => sexpr.List [sexpr.List [sexpr.Void; sexpr.Void; sexpr.Int (-1)]]
          | merged => sexpr.List (map intervalTriple merged)
          end
      end
  end.

(** ** The order of values *)

(** Values other than not-a-number. *)
Definition proper (v : Expr) : Prop := match v with sexpr.Float x => isNaN x = false | _ => True end.

Lemma cmpSameLength_bcmp x y : length x = length y → cmpSameLength x y = ofComparison (bcmp x y).
Proof.
  revert y. induction x as [|a x IH]; intros [|b y]; cbn; try done. intros [= Hl]. rewrite Z.gtb_ltb. unfold Z.ltb. rewrite (Z.compare_antisym a b).
  destruct (a ?= b); cbn; [by apply IH|done|done].
Qed.

Lemma ofComparison_opp c : ofComparison (CompOpp c) = - ofComparison c.
Proof. by destruct c. Qed.

(** What the comparison of two values of one kind goes by. *)
Lemma cmp_refl v : cmpValueS v v = 0.
Proof.
  unfold cmpValueS. rewrite Z.eqb_refl. cbn [negb]. destruct v; try done.
  - by rewrite Z.gtb_ltb, Z.ltb_irrefl.
  - unfold floatLt. by rewrite Z.ltb_irrefl, andb_false_r.
  - by rewrite bcmp_refl.
  - by rewrite eqb_reflx.
  - rewrite Nat.eqb_refl. cbn. by rewrite cmpSameLength_bcmp, bcmp_refl.
  - by rewrite bcmp_refl.
Qed.

Lemma floatLt_asym x y : floatLt x y = true → floatLt y x = false.
Proof. unfold floatLt. destruct (isNaN x), (isNaN y); cbn; lia. Qed.

Lemma cmp_opp a b : Z.sgn (cmpValueS b a) = - Z.sgn (cmpValueS a b).
Proof.
  unfold cmpValueS. rewrite (Z.eqb_sym (kindRank b)). destruct (Z.eqb_spec (kindRank a) (kindRank b)) as [E|]; cbn [negb]; [|lia].
  destruct a, b; try done; cbn in E; try lia.
  - rewrite !Z.gtb_ltb. destruct (z <? z0) eqn:E1, (z0 <? z) eqn:E2; cbn; lia.
  - destruct (floatLt bits bits0) eqn:E1; [by rewrite (floatLt_asym _ _ E1)|]. by destruct (floatLt bits0 bits).
  - by rewrite (bcmp_opp s s0), ofComparison_opp, Z.sgn_opp.
  - by destruct b, b0.
  - rewrite (Nat.eqb_sym (length b0)). destruct (Nat.eqb_spec (length b) (length b0)) as [El|]; cbn [negb]; [|lia].
    rewrite !cmpSameLength_bcmp by done. by rewrite (bcmp_opp b0 b), ofComparison_opp, Z.sgn_opp.
  - by rewrite (bcmp_opp s s0), ofComparison_opp, Z.sgn_opp.
Qed.

Lemma ofComparison_trans x y z : ofComparison (bcmp x y) ≤ 0 → ofComparison (bcmp y z) ≤ 0 → ofComparison (bcmp x z) ≤ 0.
Proof.
  assert (∀ a b, ofComparison (bcmp a b) ≤ 0 ↔ a <=b b) as E by (intros a b; unfold ble; destruct (bcmp a b); cbn; intuition (lia || congruence)).
  rewrite !E. apply ble_trans.
Qed.

Lemma cmp_trans a b c : proper a → proper b → proper c → cmpValueS a b ≤ 0 → cmpValueS b c ≤ 0 → cmpValueS a c ≤ 0.
Proof.
  intros Ha Hb Hc. unfold cmpValueS.
  destruct (Z.eqb_spec (kindRank a) (kindRank b)) as [E1|]; destruct (Z.eqb_spec (kindRank b) (kindRank c)) as [E2|];
    destruct (Z.eqb_spec (kindRank a) (kindRank c)) as [E3|]; cbn [negb]; try lia.
  destruct a, b; cbn in E1; try lia; destruct c; cbn in E2; try lia.
  - rewrite !Z.gtb_ltb. intros H1 H2. repeat case_match; lia.
  - cbn in Ha, Hb, Hc. unfold floatLt. rewrite Ha, Hb, Hc. cbn [negb andb]. intros H1 H2. repeat case_match; lia.
  - apply ofComparison_trans.
  - by destruct b0, b, b1.
  - intros H1 H2. destruct (Nat.eqb_spec (length b0) (length b)); destruct (Nat.eqb_spec (length b) (length b1));
      destruct (Nat.eqb_spec (length b0) (length b1)); cbn [negb] in *; try lia. rewrite !cmpSameLength_bcmp in * by congruence.
    by eapply ofComparison_trans.
  - apply ofComparison_trans.
Qed.

(** Everything the order says of three values, for [lia]. *)
Ltac value_trans a b c := pose proof (cmp_trans a b c ltac:(assumption) ltac:(assumption) ltac:(assumption)).
Ltac value_order a b c :=
  pose proof (cmp_opp a b); pose proof (cmp_opp a c); pose proof (cmp_opp b c);
  value_trans a b c; value_trans a c b; value_trans b a c; value_trans b c a; value_trans c a b; value_trans c b a.

(** ** Conjunctions *)

(** What an operator of a conjunction asks of a value. *)
Definition holds (v : Expr) (o : opVal) : bool :=
  let c := cmpValueS v (val o) in
  if op o =? rangeOpEq then c =? 0
  else if op o =? rangeOpNeq then negb (c =? 0)
  else if op o =? rangeOpGt then c >? 0
  else if op o =? rangeOpGte then 0 <=? c
  else if op o =? rangeOpLt then c <? 0
  else if op o =? rangeOpLte then c <=? 0
  else true.

Definition properBounds (iv : interval) : Prop :=
  (∀ l, lo iv = Some l → proper l) ∧ (∀ h, hi iv = Some h → proper h).

(** Bounds are in order. *)
Definition uncrossed (iv : interval) : Prop := ∀ l h, lo iv = Some l → hi iv = Some h → cmpValueS l h ≤ 0.

Lemma narrow_proper b o : properBounds b → proper (val o) → properBounds (narrow b o).
Proof.
  intros [Hl Hh] Hv. unfold narrow. repeat case_match; split; cbn [lo hi]; naive_solver.
Qed.

(** The two sides of an interval. *)
Definition aboveLo (v : Expr) (iv : interval) : bool :=
  match lo iv with None => true | Some l => if loOpen iv then cmpValueS v l >? 0 else negb (cmpValueS v l <? 0) end.
Definition belowHi (v : Expr) (iv : interval) : bool :=
  match hi iv with None => true | Some h => if hiOpen iv then cmpValueS v h <? 0 else negb (cmpValueS v h >? 0) end.

Lemma inRange_sides v iv : inRange v iv = aboveLo v iv && belowHi v iv.
Proof. done. Qed.

Lemma above_mono a b iv : proper a → proper b → properBounds iv → cmpValueS a b ≤ 0 → aboveLo a iv = true → aboveLo b iv = true.
Proof.
  intros Ha Hb [Hl _] Hab. unfold aboveLo. destruct (lo iv) as [l|]; [|done]. pose proof (Hl l eq_refl). value_order a b l. destruct (loOpen iv); lia.
Qed.

Lemma below_mono a b iv : proper a → proper b → properBounds iv → cmpValueS b a ≤ 0 → belowHi a iv = true → belowHi b iv = true.
Proof.
  intros Ha Hb [_ Hh] Hab. unfold belowHi. destruct (hi iv) as [h|]; [|done]. pose proof (Hh h eq_refl). value_order a b h. destruct (hiOpen iv); lia.
Qed.

Lemma narrow_exact v b o :
  proper v → proper (val o) → properBounds b → (op o ≠ rangeOpEq ∨ b = mkInterval None None false false) → op o ≠ rangeOpNeq →
  inRange v (narrow b o) = inRange v b && holds v o.
Proof.
  intros Hv Ho [Hl Hh] Heq Hne. rewrite !inRange_sides. unfold narrow, holds. unfold rangeOpEq, rangeOpNeq, rangeOpGt, rangeOpGte, rangeOpLt, rangeOpLte in *.
  destruct b as [bl bh blo bho]. cbn [lo hi loOpen hiOpen] in *. destruct o as [k x]. cbn [op val] in *.
  destruct (Z.eqb_spec k 0) as [->|]; [|clear Heq].
  { destruct Heq as [?|[= -> -> -> ->]]; [lia|]. unfold aboveLo, belowHi. cbn [orb Z.eqb lo hi loOpen hiOpen]. lia. }
  destruct (Z.eqb_spec k 1); [lia|].
  assert (∀ P Q R, Q = P && R → Q && belowHi v (mkInterval bl bh blo bho) = P && belowHi v (mkInterval bl bh blo bho) && R) as Hlo
    by (intros [] [] []; by destruct (belowHi _ _)).
  assert (∀ P Q R, Q = P && R → aboveLo v (mkInterval bl bh blo bho) && Q = aboveLo v (mkInterval bl bh blo bho) && P && R) as Hhi
    by (intros [] [] []; by destruct (aboveLo _ _)).
  destruct (Z.eqb_spec k 2) as [->|]; [|destruct (Z.eqb_spec k 3) as [->|]; [|destruct (Z.eqb_spec k 4) as [->|]; [|destruct (Z.eqb_spec k 5) as [->|]]]];
    cbn [orb Z.eqb Pos.eqb]; [| | | |by rewrite andb_true_r].
  1,2: destruct bl as [l|]; [pose proof (Hl l eq_refl); value_order v x l; destruct (_ || _) eqn:Et|]; apply Hlo; unfold aboveLo; cbn [lo loOpen]; try destruct blo; lia.
  1,2: destruct bh as [h|]; [pose proof (Hh h eq_refl); value_order v x h; destruct (_ || _) eqn:Et|]; apply Hhi; unfold belowHi; cbn [hi hiOpen]; try destruct bho; lia.
Qed.

Lemma fold_narrow_exact v ops b :
  proper v → Forall (fun o => proper (val o)) ops → properBounds b →
  Forall (fun o => op o ≠ rangeOpNeq) ops → Forall (fun o => op o ≠ rangeOpEq) ops →
  inRange v (fold_left narrow ops b) = inRange v b && forallb (holds v) ops ∧ properBounds (fold_left narrow ops b).
Proof.
  intros Hv. revert b. induction ops as [|o ops IH]; intros b Ho Hb Hn He; cbn [fold_left forallb]; [by rewrite andb_true_r|].
  apply Forall_cons in Ho as [Ho1 Ho], Hn as [Hn1 Hn], He as [He1 He].
  destruct (IH (narrow b o)) as [-> Hp]; [done|by apply narrow_proper|done|done|]. split; [|done].
  rewrite narrow_exact by auto. by rewrite andb_assoc.
Qed.

(** An excluded value cuts the interval in two. *)
Lemma split_exact v nv iv :
  proper v → proper nv → properBounds iv → existsb (inRange v) (splitAt nv iv) = inRange v iv && negb (cmpValueS v nv =? 0).
Proof.
  intros Hv Hn Hb. pose proof (cmp_opp v nv) as Hop. unfold splitAt. destruct (inRange nv iv) eqn:Ei; cbn [negb existsb]; rewrite orb_false_r.
  - rewrite inRange_sides in Ei. apply andb_prop in Ei as [Ea Eb]. rewrite !inRange_sides.
    change (aboveLo v (mkInterval (lo iv) (Some nv) (loOpen iv) true)) with (aboveLo v iv).
    change (belowHi v (mkInterval (Some nv) (hi iv) true (hiOpen iv))) with (belowHi v iv). unfold belowHi at 1, aboveLo at 2. cbn [lo hi loOpen hiOpen].
    pose proof (above_mono nv v iv Hn Hv Hb) as H1. pose proof (below_mono nv v iv Hn Hv Hb) as H2.
    destruct (aboveLo v iv), (belowHi v iv); destruct (Z.lt_total (cmpValueS v nv) 0) as [?|[?|?]]; try lia;
      (specialize (H1 ltac:(lia) Ea) || specialize (H2 ltac:(lia) Eb)); done.
  - destruct (inRange v iv) eqn:Ev; [|done]. cbn [andb]. destruct (Z.eqb_spec (cmpValueS v nv) 0) as [E|]; [|done].
    rewrite inRange_sides in Ev. apply andb_prop in Ev as [Ea Eb]. rewrite inRange_sides in Ei.
    by rewrite (above_mono v nv iv), (below_mono v nv iv) in Ei by (done || lia).
Qed.

Lemma splitAt_proper nv iv : proper nv → properBounds iv → Forall properBounds (splitAt nv iv).
Proof.
  intros Hn [Hl Hh]. unfold splitAt. destruct (inRange nv iv); cbn [negb]; repeat constructor; cbn [lo hi]; naive_solver.
Qed.

Lemma splits_exact v neqs ivs :
  proper v → Forall proper neqs → Forall properBounds ivs →
  existsb (inRange v) (fold_left (fun ivs nv => flat_map (splitAt nv) ivs) neqs ivs)
  = existsb (inRange v) ivs && forallb (fun nv => negb (cmpValueS v nv =? 0)) neqs.
Proof.
  intros Hv. revert ivs. induction neqs as [|nv neqs IH]; intros ivs Hn Hi; cbn [fold_left forallb]; [by rewrite andb_true_r|].
  apply Forall_cons in Hn as [Hn1 Hn].
  assert (existsb (inRange v) (flat_map (splitAt nv) ivs) = existsb (inRange v) ivs && negb (cmpValueS v nv =? 0)) as E.
  { clear IH. induction Hi as [|iv ivs Hiv Hi IHi]; [done|]. cbn [flat_map existsb]. rewrite existsb_app, split_exact, IHi by done. btauto. }
  rewrite IH, E; [by rewrite andb_assoc|done|]. clear IH E. induction Hi as [|iv ivs Hiv Hi IHi]; [constructor|]. cbn [flat_map].
  apply Forall_app. split; [by apply splitAt_proper|done].
Qed.

(** *** Cut intervals stay as they are *)

(** Each interval ends, open, where the next one starts. *)
Fixpoint chained (l : list interval) : Prop :=
  match l with
  | [] => True
  | a :: l' =>
      uncrossed a ∧ properBounds a
      ∧ match l' with [] => True | b :: _ => ∃ x, hi a = Some x ∧ lo b = Some x ∧ hiOpen a = true end
      ∧ chained l'
  end.

Lemma splitAt_head nv iv : ∃ f r, splitAt nv iv = f :: r ∧ lo f = lo iv.
Proof. unfold splitAt. destruct (negb _); by eexists _, _. Qed.

Lemma inRange_uncrossed nv iv :
  inRange nv iv = true → (∀ l, lo iv = Some l → cmpValueS l nv ≤ 0) ∧ (∀ h, hi iv = Some h → cmpValueS nv h ≤ 0).
Proof.
  rewrite inRange_sides. unfold aboveLo, belowHi. intros [H1 H2]%andb_prop. split.
  - intros l El. rewrite El in H1. pose proof (cmp_opp nv l). destruct (loOpen iv); lia.
  - intros h Eh. rewrite Eh in H2. destruct (hiOpen iv); lia.
Qed.

Lemma chained_split nv l : proper nv → chained l → chained (flat_map (splitAt nv) l).
Proof.
  intros Hn. induction l as [|a l IH]; cbn [flat_map]; [done|]. intros (Hu&Hp&Hnext&Hl). specialize (IH Hl).
  assert (match flat_map (splitAt nv) l with [] => True | b :: _ => ∃ x, hi a = Some x ∧ lo b = Some x ∧ hiOpen a = true end) as Hnext'.
  { destruct l as [|b l]; [done|]. cbn [flat_map]. destruct (splitAt_head nv b) as (f&r&->&Ef). cbn [app]. by rewrite Ef. }
  unfold splitAt. destruct (inRange nv a) eqn:Ei; cbn [negb app].
  - destruct (inRange_uncrossed nv a Ei) as [H1 H2]. destruct Hp as [Hpl Hph].
    split; [|split; [|split; [by exists nv|split; [|split; [|split; [exact Hnext'|done]]]]]].
    + intros x y E [= <-]. by apply H1.
    + split; cbn [lo hi]; [done|by intros ? [= <-]].
    + intros x y [= <-] E. by apply H2.
    + split; cbn [lo hi]; [by intros ? [= <-]|done].
  - split; [done|]. split; [done|]. by split.
Qed.

Lemma chained_lo a l : chained (a :: l) → Forall (fun b => lessLo b a = false) l.
Proof.
  revert a. induction l as [|b l IH]; intros a (Hu&Hp&Hnext&Hl); [constructor|]. destruct Hnext as (x&Eh&Elb&_).
  destruct Hp as [Hpl Hph]. assert (proper x) as Hx by by apply Hph.
  assert (lessLo b a = false) as Hb.
  { unfold lessLo. rewrite Elb. destruct (lo a) as [la|] eqn:Ela; [|done]. pose proof (Hu la x Ela Eh). pose proof (cmp_opp la x). lia. }
  constructor; [done|]. pose proof (IH b Hl) as Hbl. apply Forall_forall. intros c Hc. rewrite Forall_forall in Hbl. specialize (Hbl c Hc).
  unfold lessLo in *. rewrite Elb in Hbl. destruct (lo c) as [lc|] eqn:Elc; [|done]. destruct (lo a) as [la|] eqn:Ela; [|done].
  assert (proper lc) as Hlc.
  { assert (Forall properBounds (b :: l)) as Hall.
    { clear -Hl. revert b Hl. induction l as [|d l IH]; intros b (_&Hp&_&Hl); constructor; auto. }
    rewrite Forall_forall in Hall. apply (proj1 (Hall c ltac:(by right))). done. }
  pose proof (Hu la x Ela Eh). assert (proper la) by by apply Hpl. value_order la x lc. lia.
Qed.

Lemma chained_merge l : chained l → mergeIntervals l = l.
Proof.
  intros Hc. unfold mergeIntervals. destruct (Nat.leb _ 1); [done|].
  assert (∀ l, chained l → ordered lessLo l) as Ho.
  { clear l Hc. induction l as [|a l IH]; intros Hc; constructor; [apply IH, Hc|by apply chained_lo]. }
  rewrite sortStable_ordered by by apply Ho. clear Ho. destruct l as [|a l]; [done|]. revert a Hc.
  induction l as [|b l IH]; intros a (Hu&Hp&Hnext&Hl); cbn [mergeLoop]; [done|]. destruct Hnext as (x&Eh&Elb&Eo).
  unfold canMerge. rewrite Eh, Elb, Z.eqb_refl, cmp_refl, Eo. cbn [negb andb Z.ltb Z.eqb Z.compare]. by rewrite IH.
Qed.

Lemma Forall_filtered {A} (P Q : A → Prop) `{!∀ x, Decision (Q x)} l : Forall P l → Forall P (filter Q l).
Proof. rewrite !Forall_forall. intros Hl x [_ Hx]%list_elem_of_filter. by apply Hl. Qed.

(** ** What conditions mean *)

(** An equality comes before the other bounds, if there is one. *)
Definition equalityFirst (ops : list opVal) : bool :=
  match filter (fun o => isRangeOp o = true) ops with
  | [] => true
  | _ :: rest => forallb (fun o => negb (op o =? rangeOpEq)) rest
  end.

Lemma forallb_filter_split {A} (f g h : A → bool) (P Q : A → Prop) `{!∀ x, Decision (P x), !∀ x, Decision (Q x)} l :
  (∀ x, x ∈ l → f x = (if decide (P x) then g x else true) && (if decide (Q x) then h x else true)) →
  forallb f l = forallb g (filter P l) && forallb h (filter Q l).
Proof.
  induction l as [|x l IH]; intros Hf; [done|]. cbn [forallb]. rewrite IH by (intros; apply Hf; by right). rewrite (Hf x) by left.
  rewrite !filter_cons. destruct (decide (P x)), (decide (Q x)); cbn [forallb]; btauto.
Qed.

Lemma bounds_exact v ops (rangeOps := filter (fun o => isRangeOp o = true) ops) :
  proper v → Forall (fun o => proper (val o)) ops → equalityFirst ops = true →
  inRange v (fold_left narrow rangeOps (mkInterval None None false false)) = forallb (holds v) rangeOps
  ∧ properBounds (fold_left narrow rangeOps (mkInterval None None false false)).
Proof.
  intros Hv Hp He. unfold equalityFirst in He. fold rangeOps in He.
  assert (Forall (fun o => proper (val o)) rangeOps) as Hp' by by apply Forall_filtered.
  assert (Forall (fun o => op o ≠ rangeOpNeq) rangeOps) as Hn.
  { apply Forall_forall. intros o [Ho _]%list_elem_of_filter. unfold isRangeOp in Ho. lia. }
  destruct rangeOps as [|o rest]; [by split|]. cbn [fold_left forallb]. apply Forall_cons in Hp' as [Hp1 Hp'], Hn as [Hn1 Hn].
  destruct (fold_narrow_exact v rest (narrow (mkInterval None None false false) o)) as [-> Hpb]; try done.
  - by apply narrow_proper.
  - apply Forall_forall. intros o' Ho'. rewrite forallb_forall in He. specialize (He o' (proj1 (list_elem_of_In _ _) Ho')). lia.
  - split; [|done]. by rewrite narrow_exact by (done || by right).
Qed.

Lemma crossed_empty v iv l h :
  proper v → properBounds iv → lo iv = Some l → hi iv = Some h → cmpValueS l h > 0 → inRange v iv = false.
Proof.
  intros Hv [Hl Hh] El Eh Hc. rewrite inRange_sides. unfold aboveLo, belowHi. rewrite El, Eh. pose proof (Hl l El). pose proof (Hh h Eh). value_order v l h.
  destruct (loOpen iv), (hiOpen iv); lia.
Qed.

Lemma neq_holds v ops :
  forallb (holds v) (filter (fun o => op o = rangeOpNeq) ops)
  = forallb (fun nv => negb (cmpValueS v nv =? 0)) (map val (filter (fun o => op o = rangeOpNeq) ops)).
Proof.
  induction ops as [|o ops IH]; [done|]. rewrite filter_cons. destruct (decide (op o = rangeOpNeq)) as [E|]; [|done].
  cbn [map forallb]. rewrite IH. f_equal. unfold holds. by rewrite E.
Qed.

Lemma conjunction_exact v ops :
  proper v → Forall (fun o => proper (val o)) ops → Forall (fun o => op o ≠ rangeOpIn) ops → equalityFirst ops = true →
  existsb (inRange v) (opsToIntervals ops) = forallb (holds v) ops.
Proof.
  intros Hv Hp Hin He. unfold opsToIntervals.
  assert (filter (fun o => op o = rangeOpIn) ops = []) as ->.
  { apply elem_of_nil_inv. intros o [Ho Hin']%list_elem_of_filter. rewrite Forall_forall in Hin. by apply (Hin o). }
  cbn [map]. set (b := fold_left _ _ _). destruct (bounds_exact v ops Hv Hp He) as [Eb Hpb]. fold b in Eb, Hpb.
  set (neqs := map val _).
  assert (Forall proper neqs) as Hpn.
  { apply Forall_map, Forall_filtered. exact Hp. }
  assert (forallb (holds v) ops = inRange v b && forallb (fun nv => negb (cmpValueS v nv =? 0)) neqs) as ->.
  { rewrite Eb. rewrite (forallb_filter_split (holds v) (holds v) (holds v) (fun o => isRangeOp o = true) (fun o => op o = rangeOpNeq)).
    - f_equal. apply neq_holds.
    - intros o Ho. rewrite Forall_forall in Hin. specialize (Hin o Ho). unfold isRangeOp. unfold holds, rangeOpEq, rangeOpNeq, rangeOpIn in *.
      destruct (decide (_ = true)), (decide (op o = 1)); destruct (Z.eqb_spec (op o) 1), (Z.eqb_spec (op o) 6); try done; try lia; by rewrite ?andb_true_r, ?andb_diag. }
  clearbody b neqs. destruct (match lo b with Some l => match hi b with Some h => cmpValueS l h >? 0 | None => false end | None => false end) eqn:Ec.
  - destruct (lo b) as [l|] eqn:El; [|done]. destruct (hi b) as [h|] eqn:Eh; [|done]. rewrite (crossed_empty v b l h) by (done || lia). done.
  - assert (chained [b]) as Hch.
    { split; [|done]. intros l h El Eh. rewrite El, Eh in Ec. lia. }
    rewrite chained_merge.
    + rewrite splits_exact by (first [done|constructor; [done|constructor]]). cbn [existsb]. by rewrite orb_false_r.
    + generalize dependent [b]. intros ivs Hivs. clear -Hpn Hivs. revert ivs Hivs. induction Hpn as [|nv neqs Hn Hpn IH]; intros ivs Hivs; cbn [fold_left]; [done|].
      apply IH. by apply chained_split.
Qed.

(** *** Lists of values *)

Lemma inRange_point v x : inRange v (point x) = (cmpValueS v x =? 0).
Proof. unfold inRange, point. cbn [lo hi loOpen hiOpen]. lia. Qed.

Lemma mergeLoop_points v p l :
  proper v → proper p → Forall proper l → ordered (fun a b => cmpValueS a b <? 0) (p :: l) →
  existsb (inRange v) (mergeLoop (point p) (map point l)) = existsb (fun x => cmpValueS v x =? 0) (p :: l).
Proof.
  intros Hv Hp Hl. revert p Hp. induction Hl as [|c l Hc Hl IH]; intros p Hp Ho; cbn [map mergeLoop].
  { cbn [existsb]. by rewrite inRange_point. }
  apply StronglySorted_inv in Ho as [Ho Hpc]. apply Forall_cons in Hpc as [Hpc Hpl].
  unfold canMerge. cbn [point hi lo hiOpen loOpen]. assert (kindRank c ≠ kindRank p → cmpValueS c p ≠ 0) as Hk.
  { unfold cmpValueS. destruct (Z.eqb_spec (kindRank c) (kindRank p)); cbn [negb]; [done|lia]. }
  destruct (Z.eqb_spec (cmpValueS c p) 0) as [E0|E0].
  - destruct (Z.eqb_spec (kindRank c) (kindRank p)) as [Ek|Ek]; [|by destruct (Hk Ek)]. cbn [negb].
    replace (cmpValueS c p <? 0) with false by lia. cbn [negb andb].
    assert (merged (point p) (point c) = point p) as ->.
    { unfold merged, point. cbn [lo hi loOpen hiOpen]. replace (cmpValueS c p >? 0) with false by lia. by replace (cmpValueS c p <? 0) with false by lia. }
    rewrite IH; [|done|].
    + cbn [existsb]. value_order v p c. destruct (cmpValueS v p =? 0) eqn:Ep; cbn [orb]; [done|]. replace (cmpValueS v c =? 0) with false by lia. done.
    + constructor; [by apply StronglySorted_inv in Ho as [? _]|done].
  - replace (if negb (kindRank c =? kindRank p) then false else if cmpValueS c p <? 0 then true else false) with false
      by (destruct (negb _); [done|]; by replace (cmpValueS c p <? 0) with false by lia).
    change (existsb (inRange v) (point p :: ?l)) with (inRange v (point p) || existsb (inRange v) l). by rewrite inRange_point, IH.
Qed.

Lemma existsb_perm {A} (f : A → bool) l l' : l ≡ₚ l' → existsb f l = existsb f l'.
Proof. induction 1 as [|x l l' _ IH|x y l|l l1 l' _ IH1 _ IH2]; cbn [existsb]; [done|by rewrite IH|btauto|congruence]. Qed.

Lemma cmp_weakOrder (P : Expr → Prop) l :
  Forall proper l → ordered (fun a b => cmpValueS a b <? 0) (sortStable (fun a b => cmpValueS a b <? 0) l).
Proof.
  intros Hl. unfold sortStable.
  assert (∀ acc, Forall proper acc → ordered (fun a b => cmpValueS a b <? 0) acc →
    ordered (fun a b => cmpValueS a b <? 0) (fold_left (fun acc x => insertStable (fun a b => cmpValueS a b <? 0) x acc) l acc)) as H;
    [|apply H; constructor].
  induction Hl as [|x l Hx Hl IH]; intros acc Ha Ho; cbn [fold_left]; [done|]. apply IH.
  - rewrite insertStable_perm. by constructor.
  - clear IH. induction Ho as [|y acc Hacc IHa Hy]; cbn [insertStable]; [by repeat constructor|]. apply Forall_cons in Ha as [Hyp Ha].
    destruct (cmpValueS x y <? 0) eqn:E.
    + constructor; [by constructor|]. pose proof (cmp_opp x y). constructor; [lia|]. rewrite Forall_forall in *. intros z Hz. specialize (Hy z Hz). specialize (Ha z Hz).
      value_order x y z. lia.
    + constructor; [by apply IHa|]. apply Forall_forall. intros z Hz. rewrite insertStable_perm in Hz. apply elem_of_cons in Hz as [->|Hz]; [done|].
      rewrite Forall_forall in Hy. by apply Hy.
Qed.

Lemma in_exact v ops :
  proper v → Forall (fun o => proper (val o)) ops → Forall (fun o => op o = rangeOpIn) ops → ops ≠ [] →
  existsb (inRange v) (opsToIntervals ops) = existsb (fun o => cmpValueS v (val o) =? 0) ops.
Proof.
  intros Hv Hp Hin Hne. unfold opsToIntervals.
  assert (filter (fun o => op o = rangeOpIn) ops = ops) as ->.
  { clear Hne Hp. induction Hin as [|o ops Ho Hin IH]; [done|]. rewrite filter_cons, decide_True, IH by done. done. }
  assert (filter (fun o => isRangeOp o = true) ops = []) as ->.
  { apply elem_of_nil_inv. intros o [Ho Ho']%list_elem_of_filter. rewrite Forall_forall in Hin. unfold isRangeOp in Ho. rewrite (Hin o Ho') in Ho. done. }
  assert (filter (fun o => op o = rangeOpNeq) ops = []) as ->.
  { apply elem_of_nil_inv. intros o [Ho Ho']%list_elem_of_filter. rewrite Forall_forall in Hin. rewrite (Hin o Ho') in Ho. done. }
  cbn [map]. assert (Forall proper (map val ops)) as Hpv by by apply Forall_map.
  assert (existsb (fun o => cmpValueS v (val o) =? 0) ops = existsb (fun x => cmpValueS v x =? 0) (map val ops)) as ->.
  { clear. induction ops as [|o ops IH]; [done|]. cbn [map existsb]. by rewrite IH. }
  rewrite <- (existsb_perm _ _ _ (sortStable_perm (fun a b => cmpValueS a b <? 0) (map val ops))).
  pose proof (cmp_weakOrder proper _ Hpv) as Ho. pose proof (sortStable_perm (fun a b => cmpValueS a b <? 0) (map val ops)) as Hperm.
  destruct (map val ops) as [|x0 vals] eqn:Em; [by destruct ops|]. rewrite <- Hperm in Hpv. clear Em Hperm.
  set (l := sortStable _ _) in *. clearbody l. destruct l as [|x l]; [done|].
  assert (mergeIntervals (map point (x :: l)) = mergeLoop (point x) (map point l)) as ->.
  { unfold mergeIntervals. destruct l as [|y l]; [done|]. rewrite length_map. cbn [length Nat.leb]. rewrite sortStable_ordered; [done|].
    clear -Ho. induction Ho as [|a l' Hl IH Ha]; [constructor|]. cbn [map]. constructor; [done|]. apply Forall_map. exact Ha. }
  apply Forall_cons in Hpv as [Hx Hl]. by apply mergeLoop_points.
Qed.

(** ** Bounds and keys *)

Lemma shift_bytes x : map (fun i => u8 (Z.shiftr x ((7 - i) * 8))) [0; 1; 2; 3; 4; 5; 6; 7] = be_put 8 x.
Proof. cbn [map be_put]. rewrite !Z.shiftr_div_pow2 by lia. done. Qed.

Lemma variableLoop_blocks n s : (length s ≤ n)%nat → variableLoop n s = encodeBlocks n s.
Proof.
  revert s. induction n as [|n IH]; intros s Hn; cbn [variableLoop encodeBlocks]; [done|]. destruct s as [|c s]; [done|].
  set (l := c :: s) in *. assert (1 ≤ length l)%nat as Hl by (unfold l; cbn; lia). clearbody l.
  destruct (Nat.ltb_spec 8 (length l)) as [H8|H8].
  - rewrite (Nat.min_r (length l) 8) by lia. cbn [Nat.sub replicate app]. rewrite (proj2 (Nat.leb_gt (length l) 8)) by lia.
    rewrite IH by (rewrite length_drop; lia). done.
  - rewrite (Nat.min_l (length l) 8) by lia. rewrite (proj2 (Nat.leb_le (length l) 8)) by lia. rewrite (take_ge l), (drop_ge l) by lia.
    destruct n; cbn [variableLoop]; by rewrite ?app_nil_r.
Qed.

(** The bounds of a range are encoded as the keys are: the copies of the value
    encodings in the virtual machine agree with the ones of the datom keys on every
    integer, float, string and byte string, so the bytes of a bound compare with
    the bytes of a key as the values do. *)
Theorem range_bounds_are_keys :
  (∀ n, encodeSExprBytes (sexpr.Int n) = EncodeInt n)
  ∧ (∀ f, encodeSExprBytes (sexpr.Float f) = EncodeFloat f)
  ∧ (∀ s, encodeSExprBytes (sexpr.Str s) = EncodeVariable s)
  ∧ (∀ b, encodeSExprBytes (sexpr.Bytes b) = EncodeVariableUnordered b)
  ∧ (∀ b, encodeSExprBytes (sexpr.Bool b) = EncodeBoundValue (sexpr.Bool b)).
Proof.
  assert (∀ n, encodeIntBytes n = EncodeInt n) as Hi by (intros; apply shift_bytes).
  assert (∀ f, encodeFloatBytes f = EncodeFloat f) as Hf by (intros; apply shift_bytes).
  assert (∀ s, encodeVariableBytes s = EncodeVariable s) as Hs.
  { intros s. unfold encodeVariableBytes, EncodeVariable. rewrite variableLoop_blocks by done. f_equal. rewrite length_take.
    apply Nat.min_l. induction s as [|c s IH]; cbn [firstNul length]; [lia|]. destruct (c =? 0); lia. }
  assert (∀ b, encodeVariableUnorderedBytes b = EncodeVariableUnordered b) as Hb.
  { intros b. unfold encodeVariableUnorderedBytes, EncodeVariableUnordered, u32. rewrite (be_put_mod 4). by rewrite be_put_shift4. }
  by split_and!.
Qed.

(** C31. The intervals of a condition are the values that satisfy it. A conjunction
    of bounds, exclusions and at most one equality, given before the bounds, holds
    of a value exactly when one of the intervals contains it; and a list of
    admitted values contains a value exactly when one of its intervals does. The
    values may be of any kind, not-a-number apart. *)
Theorem range_conditions_exact v ops :
  proper v → Forall (fun o => proper (val o)) ops →
  (Forall (fun o => op o ≠ rangeOpIn) ops → equalityFirst ops = true →
    existsb (inRange v) (opsToIntervals ops) = forallb (holds v) ops)
  ∧ (Forall (fun o => op o = rangeOpIn) ops → ops ≠ [] →
    existsb (inRange v) (opsToIntervals ops) = existsb (fun o => cmpValueS v (val o) =? 0) ops).
Proof. intros Hv Hp. split; [by apply conjunction_exact|by apply in_exact]. Qed.

Lemma cmp_int x y : cmpValueS (sexpr.Int x) (sexpr.Int y) = if x <? y then -1 else if x >? y then 1 else 0.
Proof. done. Qed.

Lemma branch_above a : opsToIntervals [mkOp rangeOpGt (sexpr.Int a)] = [mkInterval (Some (sexpr.Int a)) None true false].
Proof. done. Qed.

Lemma branch_equal b : opsToIntervals [mkOp rangeOpEq (sexpr.Int b)] = [point (sexpr.Int b)].
Proof.
  change (opsToIntervals [mkOp rangeOpEq (sexpr.Int b)])
    with (if cmpValueS (sexpr.Int b) (sexpr.Int b) >? 0 then [] else mergeIntervals [point (sexpr.Int b)]).
  by rewrite cmp_refl.
Qed.

Lemma merge_above_equal a b :
  a < b → mergeIntervals [mkInterval (Some (sexpr.Int a)) None true false; point (sexpr.Int b)] = [mkInterval (Some (sexpr.Int a)) (Some (sexpr.Int b)) true false].
Proof.
  intros Hab. unfold mergeIntervals. rewrite sortStable_ordered; [done|]. repeat constructor. unfold lessLo. cbn [lo point].
  rewrite cmp_int. by replace (b <? a) with false by lia; destruct (b >? a).
Qed.

(** A disjunction loses values: when one branch is unbounded above and another
    starts later and ends, merging them takes the later end, so that of "above [a],
    or equal to [b]" with [a] below [b] the values beyond [b] are in no interval. *)
Theorem disjunction_loses_tail a b n :
  a < b → b < n →
  let branches := [[mkOp rangeOpGt (sexpr.Int a)]; [mkOp rangeOpEq (sexpr.Int b)]] in
  rangesOf branches = sexpr.List [sexpr.List [sexpr.Bytes (EncodeInt a); sexpr.Bytes (EncodeInt b); sexpr.Int 1]]
  ∧ existsb (fun ops => forallb (holds (sexpr.Int n)) ops) branches = true
  ∧ existsb (inRange (sexpr.Int n)) (mergeIntervals (flat_map opsToIntervals branches)) = false.
Proof.
  intros Hab Hbn branches.
  assert (mergeIntervals (flat_map opsToIntervals branches) = [mkInterval (Some (sexpr.Int a)) (Some (sexpr.Int b)) true false]) as E.
  { unfold branches. cbn [flat_map]. rewrite branch_above, branch_equal. by apply merge_above_equal. }
  split; [|split].
  - change (rangesOf branches) with (match mergeIntervals (flat_map opsToIntervals branches) with
      | [] => sexpr.List [sexpr.List [sexpr.Void; sexpr.Void; sexpr.Int (-1)]] | merged => sexpr.List (map intervalTriple merged) end).
    rewrite E. cbn [map]. unfold intervalTriple. cbn [lo hi loOpen hiOpen encodeSExprBytes]. unfold encodeIntBytes. by rewrite !shift_bytes.
  - cbn [branches existsb forallb]. unfold holds at 1. cbn [op val]. rewrite cmp_int. cbn [Z.eqb]. replace (n <? a) with false by lia. by replace (n >? a) with true by lia.
  - rewrite E. cbn [existsb]. rewrite orb_false_r. unfold inRange. cbn [lo hi loOpen hiOpen]. rewrite !cmp_int.
    replace (n <? a) with false by lia. replace (n >? a) with true by lia. replace (n <? b) with false by lia. by replace (n >? b) with true by lia.
Qed.

Lemma range_conditions_exact_witness :
  existsb (inRange (sexpr.Int 7)) (opsToIntervals [mkOp rangeOpGt (sexpr.Int 3); mkOp rangeOpNeq (sexpr.Int 5); mkOp rangeOpLte (sexpr.Int 9)]) = true.
Proof.
  destruct (range_conditions_exact (sexpr.Int 7) [mkOp rangeOpGt (sexpr.Int 3); mkOp rangeOpNeq (sexpr.Int 5); mkOp rangeOpLte (sexpr.Int 9)]) as [E _];
    [done|by repeat constructor|]. rewrite E; [done|by repeat constructor|done].
Defined.

Lemma disjunction_loses_tail_witness :
  existsb (inRange (sexpr.Int 4)) (mergeIntervals (flat_map opsToIntervals [[mkOp rangeOpGt (sexpr.Int 1)]; [mkOp rangeOpEq (sexpr.Int 3)]])) = false.
Proof. destruct (disjunction_loses_tail 1 3 4) as (_&_&H); [lia|lia|exact H]. Defined.
