(* ===== verification/Scanner.v ===== *)
(** * The triejoin scanner (go/internal/query/scanner.go, ranges.go, keys_shim.go)

    A scanner walks one index: values fixed at its positions make the prefix, the
    cursor below it stands on keys, and the newest version of a datom that asserts
    gives the value at the current position. Positions are named as in the code;
    the cursor is any instance of the cursor interface. *)

From Stdlib Require Import String.
From S2P Require Import Prelude Sexpr Keys Cursors Ranges.
Open Scope string_scope.
Open Scope list_scope.
Open Scope Z_scope.

Inductive KeyVsPrefix : Type := KvpNoPrefix | KvpBefore | KvpMatch | KvpAfter.

(** ** State *)

(** [hasActiveKey] is whether the key is [Some]. *)
Record PositionStack (C : Type) : Type := mkPos {
  Cur : C;
  IdxOrder : list string;
  stack : list Expr;
  activeKey : option bytes;
  posAtEnd : bool;
}.
Arguments mkPos {C} _ _ _ _ _.
Arguments Cur {C} _.
Arguments IdxOrder {C} _.
Arguments stack {C} _.
Arguments activeKey {C} _.
Arguments posAtEnd {C} _.

Definition NewPositionStack {C} (cur : C) (idxOrder : list string) : PositionStack C := mkPos cur idxOrder [] None true.

(** [asOfTx] and [valueAttr] are [None] when the code's flag for them is off. *)
Record V2Scanner (C : Type) : Type := mkScanner {
  Pos : PositionStack C;
  IndexName : bytes;
  asOfTx : option Z;
  valueAttr : option Z;
  HistoryMode : bool;
  prefixCache : bytes;
  tInPrefix : bool;
}.
Arguments mkScanner {C} _ _ _ _ _ _ _.
Arguments Pos {C} _.
Arguments IndexName {C} _.
Arguments asOfTx {C} _.
Arguments valueAttr {C} _.
Arguments HistoryMode {C} _.
Arguments prefixCache {C} _.
Arguments tInPrefix {C} _.

Definition toUpper (s : bytes) : bytes := map (fun b => if (97 <=? b) && (b <=? 122) then b - 32 else b) s.

(** [cursor.Invalid()] is the cursor given. *)
Definition NewV2Scanner {C} (invalid : C) (indexName : bytes) (idxOrder : list string) (asOf : option Z) : V2Scanner C :=
  mkScanner (NewPositionStack invalid idxOrder) (toUpper indexName) asOf None false [] false.

(** ** Ranges of bytes *)

Record ByteRangeSpec : Type := mkSpec { Lo : option bytes; Hi : option bytes; Flags : Z }.
Definition RangeLoOpen : Z := 1.
Definition RangeHiOpen : Z := 2.

Inductive ValidateResult : Type := VrValid | VrPropose | VrAtEnd.

Fixpoint cmpBytes (a b : bytes) : Z :=
  match a, b with
  | [], [] => 0
  | [], _ :: _ => -1
  | _ :: _, [] => 1
  | x :: a', y :: b' => if x <? y then -1 else if x >? y then 1 else cmpBytes a' b'
  end.

Definition loIsOpen (spec : ByteRangeSpec) : bool := negb (Z.land (Flags spec) RangeLoOpen =? 0).
Definition hiIsOpen (spec : ByteRangeSpec) : bool := negb (Z.land (Flags spec) RangeHiOpen =? 0).
Definition pastHi (cur : bytes) (spec : ByteRangeSpec) (h : bytes) : bool :=
  if hiIsOpen spec then 0 <=? cmpBytes cur h else cmpBytes cur h >? 0.
Definition beforeLo (cur : bytes) (spec : ByteRangeSpec) (l : bytes) : bool :=
  if loIsOpen spec then cmpBytes cur l <=? 0 else cmpBytes cur l <? 0.

(** The bytes are within the spec. *)
Definition inSpec (cur : bytes) (spec : ByteRangeSpec) : bool :=
  negb (match Hi spec with Some h => pastHi cur spec h | None => false end)
  && negb (match Lo spec with Some l => beforeLo cur spec l | None => false end).

(** ** Segments of keys *)

(** The bytes of the first [n] positions compared. *)
Fixpoint cmpN (n : nat) (a b : bytes) : comparison :=
  match n, a, b with
  | S n', x :: a', y :: b' => match x ?= y with Eq => cmpN n' a' b' | c => c end
  | _, _, _ => Eq
  end.

Fixpoint findVEndLoop (fuel : nat) (key : bytes) (pos : nat) : nat :=
  match fuel with
  | O => length key
  | S fuel' =>
      if Nat.leb (pos + 9) (length key) then
        if nth (pos + 8) key 0 =? 0xff then findVEndLoop fuel' key (pos + 9) else (pos + 9)%nat
      else length key
  end.

Definition findVEnd (key : bytes) (start : nat) (isUnordered : bool) : res Z :=
  if isUnordered then
    if Nat.ltb (length key) (start + 4) then Ok (Z.of_nat (length key))
    else n ← BeUint32 key start; Ok (Z.of_nat start + 4 + n)
  else Ok (Z.of_nat (findVEndLoop (length key) key start)).

Definition extractSuffix (key : bytes) : res Z := BeUint64 key (length key - 8).

Section scanner.
Context {C : Type} `{HC : Cursor C}.
Implicit Types sc : V2Scanner C.

Definition withPos sc (p : PositionStack C) : V2Scanner C :=
  mkScanner p (IndexName sc) (asOfTx sc) (valueAttr sc) (HistoryMode sc) (prefixCache sc) (tInPrefix sc).
Definition setCur sc (c : C) : V2Scanner C :=
  withPos sc (mkPos c (IdxOrder (Pos sc)) (stack (Pos sc)) (activeKey (Pos sc)) (posAtEnd (Pos sc))).
Definition setStack sc (s : list Expr) : V2Scanner C :=
  withPos sc (mkPos (Cur (Pos sc)) (IdxOrder (Pos sc)) s (activeKey (Pos sc)) (posAtEnd (Pos sc))).
Definition setKey sc (k : option bytes) : V2Scanner C :=
  withPos sc (mkPos (Cur (Pos sc)) (IdxOrder (Pos sc)) (stack (Pos sc)) k (posAtEnd (Pos sc))).
Definition setEnd sc (b : bool) : V2Scanner C :=
  withPos sc (mkPos (Cur (Pos sc)) (IdxOrder (Pos sc)) (stack (Pos sc)) (activeKey (Pos sc)) b).

Definition SetCursor sc (c : C) : V2Scanner C := setEnd (setCur sc c) false.
Definition AtEnd sc : bool := posAtEnd (Pos sc).
Definition currentPosition sc : nat := length (stack (Pos sc)).
Definition posName sc : string := nth (currentPosition sc) (IdxOrder (Pos sc)) "t".

(** ** The prefix *)

(** The value of a position in key bytes; a value of another kind than the
    position wants is a failed type assertion. *)
Definition aidPrefix (v : Z) : bytes := be_put 4 (u32 v).
Definition isBlob sc : bool := match valueAttr sc with Some vt => vt =? DbTypeBlob | None => false end.

Definition encodeV sc (v : Expr) : res bytes :=
  if isBlob sc then match v with sexpr.Bytes b => Ok (EncodeVariableUnordered b) | _ => Panic end
  else
    match v with
    | sexpr.Str s => Ok (EncodeVariable s)
    | sexpr.Bytes b => Ok (EncodeVariableUnordered b)
    | _ => Ok (EncodeFixed v)
    end.

Definition encodePosition sc (pn : string) (v : Expr) : res bytes :=
  if String.eqb pn "a" then match v with sexpr.Int n => Ok (aidPrefix n) | _ => Panic end
  else if String.eqb pn "e" then match v with sexpr.Int n => Ok (EncodeEid n) | _ => Panic end
  else if String.eqb pn "v" then encodeV sc v
  else if String.eqb pn "t" then match v with sexpr.Int n => Ok (be_put 8 (EncodeSuffix n false)) | _ => Panic end
  else Ok (EncodeBoundValue v).

Fixpoint prefixLoop sc (l : list (string * Expr)) (buf : bytes) (t : bool) : res (bytes * bool) :=
  match l with
  | [] => Ok (buf, t)
  | (pn, v) :: l' => b ← encodePosition sc pn v; prefixLoop sc l' (buf ++ b) (t || String.eqb pn "t")
  end.

Definition recomputePrefix sc : res (V2Scanner C) :=
  '(buf, t) ← prefixLoop sc (zip (IdxOrder (Pos sc)) (stack (Pos sc))) [] false;
  Ok (mkScanner (Pos sc) (IndexName sc) (asOfTx sc) (valueAttr sc) (HistoryMode sc) buf t).

Definition SaveValue sc (v : Expr) : res (V2Scanner C) := recomputePrefix (setStack sc (stack (Pos sc) ++ [v])).
Definition PopSavedValue sc : res (V2Scanner C) := recomputePrefix (setStack sc (removelast (stack (Pos sc)))).
Definition SetValueAttrType sc (vt : option Z) : res (V2Scanner C) :=
  recomputePrefix (mkScanner (Pos sc) (IndexName sc) (asOfTx sc) vt (HistoryMode sc) (prefixCache sc) (tInPrefix sc)).

Definition ClassifyKey sc (key : bytes) : KeyVsPrefix :=
  let bp := prefixCache sc in
  match bp with
  | [] => KvpNoPrefix
  | _ =>
      let n := Nat.min (length bp) (length key) in
      let finish (ord : comparison) :=
        match ord with
        | Lt => KvpBefore
        | Gt => KvpAfter
        | Eq => if Nat.ltb (length key) (length bp) then KvpBefore else KvpMatch
        end in
      if tInPrefix sc then
        match n with
        | O => KvpBefore
        | S last_ =>
            match cmpN last_ key bp with
            | Eq => finish (Z.land (nth last_ key 0) 0xFE ?= Z.land (nth last_ bp 0) 0xFE)
            | c => finish c
            end
        end
      else finish (cmpN n key bp)
  end.

(** ** Segments *)

Definition isUnorderedAttr sc : bool := isBlob sc.

Definition isVariableValue sc (keyLen : nat) : bool :=
  match valueAttr sc with
  | Some vt => (vt =? DbTypeString) || (vt =? DbTypeBytes) || (vt =? DbTypeBlob)
  | None => false
  end || negb (Nat.eqb keyLen 28).

Definition beyond sc : bool := Nat.leb (length (IdxOrder (Pos sc))) (currentPosition sc).

(** The start of the segment at a position of an index, by the index's widths. *)
Definition fixedStart (first : Z) (ci : nat) : Z := match ci with O => 0 | S O => first | _ => 12 end.

Definition ValueStart sc (key : bytes) : res Z :=
  let ci := currentPosition sc in
  let pn := posName sc in
  if beyond sc || String.eqb pn "t" || String.eqb pn "added" then Ok (Z.of_nat (length key) - 8)
  else if bool_decide (IndexName sc = bs "EAVT") then Ok (fixedStart 8 ci)
  else if bool_decide (IndexName sc = bs "AEVT") then Ok (fixedStart 4 ci)
  else if bool_decide (IndexName sc = bs "AVET") then
    match ci with
    | O => Ok 0
    | S O => Ok 4
    | _ => if isVariableValue sc (length key) then findVEnd key 4 (isUnorderedAttr sc) else Ok 12
    end
  else if bool_decide (IndexName sc = bs "VAET") then Ok (fixedStart 8 ci)
  else Ok 12.

Definition ValueEnd sc (key : bytes) : res Z :=
  if beyond sc then Ok (Z.of_nat (length key))
  else
    let pn := posName sc in
    vs ← ValueStart sc key;
    if String.eqb pn "e" then Ok (vs + 8)
    else if String.eqb pn "a" then Ok (vs + 4)
    else if String.eqb pn "v" then
      if isVariableValue sc (length key) then findVEnd key (Z.to_nat vs) (isUnorderedAttr sc) else Ok (vs + 8)
    else Ok (Z.of_nat (length key)).

Definition atPrefix (c : KeyVsPrefix) : bool := match c with KvpMatch | KvpNoPrefix => true | _ => false end.

(** The value segment as a value of the attribute's type. *)
Definition extractV sc (k : bytes) (vs ve : Z) : res Expr :=
  if isVariableValue sc (length k) then
    data ← slice k vs ve;
    match valueAttr sc with
    | Some vt =>
        if vt =? DbTypeString then Ok (sexpr.Str (DecodeVariableStr data 0))
        else if (vt =? DbTypeBytes) || (vt =? DbTypeBlob) then Ok (sexpr.Bytes data)
        else Ok (sexpr.Str (DecodeVariableStr data 0))
    | None => Ok (sexpr.Str (DecodeVariableStr data 0))
    end
  else
    raw ← BeUint64 k (Z.to_nat vs);
    match valueAttr sc with
    | Some vt =>
        if vt =? DbTypeFloat then Ok (sexpr.Float (DecodeFloat64 raw))
        else if vt =? DbTypeBoolean then Ok (sexpr.Bool (negb (raw =? 0)))
        else if (vt =? DbTypeInstant) || (vt =? DbTypeRef) || (vt =? DbTypeLong) then Ok (sexpr.Int (DecodeInt64 raw))
        else Ok (sexpr.Int (i64 raw))
    | None => Ok (sexpr.Int (i64 raw))
    end.

Definition ExtractCurrent sc : res (option Expr) :=
  match activeKey (Pos sc) with
  | None => Ok None
  | Some k =>
      if negb (atPrefix (ClassifyKey sc k)) then Ok None
      else
        let pn := posName sc in
        if beyond sc || String.eqb pn "t" || String.eqb pn "added" then
          u ← extractSuffix k;
          let '(t, retracted) := DecodeSuffix u in
          Ok (Some (if String.eqb pn "added" then sexpr.Bool (negb retracted) else sexpr.Int t))
        else
          vs ← ValueStart sc k;
          ve ← ValueEnd sc k;
          if String.eqb pn "a" then x ← BeUint32 k (Z.to_nat vs); Ok (Some (sexpr.Int x))
          else if String.eqb pn "e" then x ← BeUint64 k (Z.to_nat vs); Ok (Some (sexpr.Int (DecodeEid x)))
          else if String.eqb pn "v" then v ← extractV sc k vs ve; Ok (Some v)
          else Ok None
  end.

(** ** Moving *)

Definition pastAsOf sc (t : Z) : bool := match asOfTx sc with Some a => t >? a | None => false end.

(** Every version counts. *)
Fixpoint historyLoop (fuel : nat) sc : res (V2Scanner C) :=
  match fuel with
  | O => Diverge
  | S fuel' =>
      if negb (Valid (Cur (Pos sc))) then Ok (setEnd (setKey sc None) true)
      else
        let '(c, k) := CurrentKey (Cur (Pos sc)) in
        let sc := setCur sc c in
        match k with
        | Some key =>
            if Nat.ltb (length key) 8 then historyLoop fuel' (setCur sc (Step c))
            else
              match ClassifyKey sc key with
              | KvpBefore | KvpAfter => Ok (setEnd sc true)
              | _ =>
                  u ← extractSuffix key;
                  if pastAsOf sc (DecodeSuffix u).1 then historyLoop fuel' (setCur sc (Step c))
                  else Ok (setEnd (setKey sc (Some key)) false)
              end
        | None => historyLoop fuel' (setCur sc (Step c))
        end
  end.

(** The versions of one datom: the newest that counts, and whether it retracts. *)
Fixpoint groupLoop (fuel : nat) (asOf : option Z) (c : C) (curGroup : bytes) (best : option (bytes * Z * bool)) : res (C * option (bytes * Z * bool)) :=
  match fuel with
  | O => Diverge
  | S fuel' =>
      if negb (Valid c) then Ok (c, best)
      else
        let '(c, k) := CurrentKey c in
        match k with
        | Some key =>
            if Nat.ltb (length key) 8 then groupLoop fuel' asOf (Step c) curGroup best
            else
              let group := take (length key - 8) key in
              let other := negb (bool_decide (group = curGroup)) in
              match other, best with
              | true, Some _ => Ok (c, best)
              | _, _ =>
                  let curGroup := if other then group else curGroup in
                  u ← extractSuffix key;
                  let '(t, retracted) := DecodeSuffix u in
                  if match asOf with Some a => t >? a | None => false end then groupLoop fuel' asOf (Step c) curGroup best
                  else
                    let bestT := match best with Some (_, bt, _) => bt | None => 0 end in
                    let best := if bestT <=? t then Some (key, t, retracted) else best in
                    groupLoop fuel' asOf (Step c) curGroup best
              end
        | None => groupLoop fuel' asOf (Step c) curGroup best
        end
  end.

Fixpoint activeLoop (fuel : nat) sc : res (V2Scanner C) :=
  match fuel with
  | O => Diverge
  | S fuel' =>
      if negb (Valid (Cur (Pos sc))) then Ok (setEnd (setKey sc None) true)
      else
        let '(c, k) := CurrentKey (Cur (Pos sc)) in
        let sc := setCur sc c in
        match k with
        | Some firstKey =>
            if Nat.ltb (length firstKey) 8 then activeLoop fuel' (setCur sc (Step c))
            else
              match ClassifyKey sc firstKey with
              | KvpBefore => activeLoop fuel' (setCur sc (Seek c (prefixCache sc)))
              | KvpAfter => Ok (setEnd (setKey sc None) true)
              | _ =>
                  '(c, best) ← groupLoop fuel' (asOfTx sc) c (take (length firstKey - 8) firstKey) None;
                  let sc := setCur sc c in
                  match best with
                  | Some (bestKey, _, false) => Ok (setEnd (setKey sc (Some bestKey)) false)
                  | _ => activeLoop fuel' sc
                  end
              end
        | None => activeLoop fuel' (setCur sc (Step c))
        end
  end.

Definition AdvanceToActiveAt (fuel : nat) sc : res (V2Scanner C) :=
  let pn := posName sc in
  if String.eqb pn "added" then Ok (setEnd sc (match activeKey (Pos sc) with Some _ => false | None => true end))
  else if HistoryMode sc && String.eqb pn "t" then historyLoop fuel sc
  else activeLoop fuel sc.

Definition AdvanceToActiveAtPreserving (fuel : nat) sc : res (V2Scanner C) :=
  match activeKey (Pos sc) with
  | Some k => match ClassifyKey sc k with KvpMatch => Ok (setEnd sc false) | _ => AdvanceToActiveAt fuel sc end
  | None => AdvanceToActiveAt fuel sc
  end.

(** Adds one to a byte string of fixed length; [None] when it overflows. *)
Fixpoint increment (b : bytes) : option bytes :=
  match b with
  | [] => None
  | x :: b' =>
      match increment b' with
      | Some r => Some (x :: r)
      | None => if x <? 0xff then Some ((x + 1) :: replicate (length b') 0) else None
      end
  end.

Definition seekTo sc (target : bytes) : V2Scanner C := setCur sc (Seek (Cur (Pos sc)) target).
Definition invalidate sc : V2Scanner C := setCur sc (Invalidate (Cur (Pos sc))).

Definition seekPastValueAt sc : res (V2Scanner C) :=
  let pn := posName sc in
  match activeKey (Pos sc) with
  | None => Ok (invalidate sc)
  | Some k =>
      vs ← ValueStart sc k;
      target ← slice k 0 vs;
      if String.eqb pn "t" then
        suffix ← extractSuffix k;
        if suffix =? 0 then Ok (invalidate sc)
        else Ok (seekTo sc (target ++ be_put 8 (u64 (suffix + 1))))
      else
        ve ← ValueEnd sc k;
        raw ← slice k vs ve;
        if String.eqb pn "a" then
          cur ← BeUint32 k (Z.to_nat vs);
          if cur =? 2 ^ 32 - 1 then Ok (invalidate sc) else Ok (seekTo sc (target ++ be_put 4 (cur + 1)))
        else if isVariableValue sc (length k) then
          match increment raw with
          | None => Ok (invalidate sc)
          | Some inc => Ok (seekTo sc (target ++ inc))
          end
        else
          cur ← BeUint64 k (Z.to_nat vs);
          if cur =? 2 ^ 64 - 1 then Ok (invalidate sc) else Ok (seekTo sc (target ++ be_put 8 (cur + 1)))
  end.

Definition LeapNextAt (fuel : nat) sc : res (V2Scanner C) :=
  if String.eqb (posName sc) "added" then Ok (setEnd sc true)
  else
    sc ← (match activeKey (Pos sc) with Some _ => seekPastValueAt sc | None => Ok sc end);
    AdvanceToActiveAt fuel sc.

Definition SeekToValue (fuel : nat) sc (value : Expr) : res (V2Scanner C) :=
  let pn := posName sc in
  target ←
    (if String.eqb pn "e" then match value with sexpr.Int n => Ok (prefixCache sc ++ EncodeEid n) | _ => Panic end
     else if String.eqb pn "a" then match value with sexpr.Int n => Ok (prefixCache sc ++ aidPrefix n) | _ => Panic end
     else if String.eqb pn "v" then b ← encodeV sc value; Ok (prefixCache sc ++ b)
     else Ok (prefixCache sc));
  AdvanceToActiveAt fuel (seekTo sc (target ++ replicate 8 0)).

Definition CurrentValueBytes sc : res (option bytes) :=
  match activeKey (Pos sc) with
  | None => Ok None
  | Some k =>
      if negb (atPrefix (ClassifyKey sc k)) then Ok None
      else
        vs ← ValueStart sc k;
        ve ← ValueEnd sc k;
        if (vs <? 0) || (Z.of_nat (length k) <? ve) || (ve <=? vs) then Ok None
        else b ← slice k vs ve; Ok (Some b)
  end.

Definition SeekToBytes (fuel : nat) sc (valueBytes : bytes) : res (V2Scanner C) :=
  AdvanceToActiveAt fuel (seekTo sc (prefixCache sc ++ valueBytes ++ replicate 8 0)).

(** ** Ranges *)

Definition isImpossible (specs : list ByteRangeSpec) : bool :=
  match specs with [s] => Flags s =? -1 | _ => false end.

(** The first lower bound the bytes are below. *)
Definition propose (cur : bytes) (specs : list ByteRangeSpec) : option bytes :=
  list.head (omap (fun s => if Flags s =? -1 then None
                            else match Lo s with Some l => if beforeLo cur s l then Some l else None | None => None end) specs).

Definition ValidateOrProposeNextElementBytes sc (specs : list ByteRangeSpec) : res (ValidateResult * option bytes) :=
  o ← CurrentValueBytes sc;
  match o with
  | None => Ok (VrAtEnd, None)
  | Some cur =>
      match specs with
      | [] => Ok (VrValid, None)
      | _ =>
          if isImpossible specs then Ok (VrAtEnd, None)
          else if existsb (fun s => negb (Flags s =? -1) && inSpec cur s) specs then Ok (VrValid, None)
          else
            match propose cur specs with
            | Some l => Ok (VrPropose, Some l)
            | None =>
                if forallb (fun s => match Hi s with Some h => pastHi cur s h | None => false end) specs
                then Ok (VrAtEnd, None) else Ok (VrPropose, None)
            end
      end
  end.

(** ** Attributes *)

Definition attrOffset sc : option nat :=
  if bool_decide (IndexName sc = bs "EAVT") || bool_decide (IndexName sc = bs "VAET") then Some 8%nat
  else if bool_decide (IndexName sc = bs "AEVT") || bool_decide (IndexName sc = bs "AVET") then Some 0%nat
  else None.

Definition attrAt (b : bytes) (off : nat) : res (option Z) :=
  if Nat.leb (off + 4) (length b) then x ← BeUint32 b off; Ok (Some x) else Ok None.

Definition AttrIDFromPrefixBytes sc : res (option Z) :=
  match attrOffset sc with Some off => attrAt (prefixCache sc) off | None => Ok None end.

Definition AttrIDFromKey sc : res (option Z) :=
  match activeKey (Pos sc) with
  | None => Ok None
  | Some k => attrAt k (default 8%nat (attrOffset sc))
  end.
End scanner.
