(* ===== verification/ScannerSpec.v ===== *)
(** * What the scanner shows (go/internal/query/scanner.go)

    The advance of a scanner over any cursor with the cursor laws, against the
    newest-version filter of the engine's scans: the scanner stands on the first
    datom under its prefix, at or after the cursor, that is live as of its
    transaction. *)

From Stdlib Require Import String.
From S2P Require Import Prelude Sexpr Keys Pages NewestWins Hydrated Cursors MergedCursor ActiveScan Ranges Scanner.
Open Scope string_scope.
Open Scope list_scope.
Open Scope Z_scope.

(** ** Keys against a prefix *)

Lemma cmpN_spec k p :
  match cmpN (Nat.min (length p) (length k)) k p with
  | Eq => if Nat.ltb (length k) (length p) then k <b p ∧ has_prefix k p = false else has_prefix k p = true
  | Lt => k <b p ∧ has_prefix k p = false
  | Gt => p <b k ∧ has_prefix k p = false
  end.
Proof.
  revert p. induction k as [|x k IH]; intros [|y p]; try done. cbn [length Nat.min cmpN].
  specialize (IH p). assert (∀ b, has_prefix k p = b → x = y → has_prefix (x :: k) (y :: p) = b) as Hp.
  { intros b <- ->. unfold has_prefix. cbn [length take]. apply bool_decide_ext. split; [by intros [= ->]|by intros ->]. }
  destruct (Z.compare_spec x y) as [->|Hlt|Hgt].
  - assert (∀ a b, a <b b → (y :: a) <b (y :: b)) as Hb by (intros a b; apply (blt_app_same [y])).
    destruct (cmpN _ k p); [change (Nat.ltb (S (length k)) (S (length p))) with (Nat.ltb (length k) (length p)); destruct (Nat.ltb _ _)|..].
    all: naive_solver.
  - split; [unfold blt; cbn [bcmp]; by rewrite (proj2 (Z.compare_lt_iff _ _) Hlt)|]. apply bool_decide_eq_false. intros [= -> _]. lia.
  - split; [unfold blt; cbn [bcmp]; by rewrite (proj2 (Z.compare_lt_iff _ _) Hgt)|]. apply bool_decide_eq_false. intros [= -> _]. lia.
Qed.

Section classify.
Context {C : Type}.

Lemma ClassifyKey_spec (sc : V2Scanner C) k :
  tInPrefix sc = false →
  match ClassifyKey sc k with
  | KvpNoPrefix => prefixCache sc = []
  | KvpBefore => k <b prefixCache sc ∧ has_prefix k (prefixCache sc) = false
  | KvpMatch => has_prefix k (prefixCache sc) = true
  | KvpAfter => prefixCache sc <b k ∧ has_prefix k (prefixCache sc) = false
  end.
Proof.
  intros Ht. unfold ClassifyKey. destruct (prefixCache sc) as [|y p] eqn:E; [done|]. rewrite Ht.
  pose proof (cmpN_spec k (y :: p)) as Hc. destruct (cmpN _ k (y :: p)); [|done..]. by destruct (Nat.ltb _ _).
Qed.

Lemma atPrefix_spec (sc : V2Scanner C) k :
  tInPrefix sc = false → atPrefix (ClassifyKey sc k) = has_prefix k (prefixCache sc).
Proof.
  intros Ht. pose proof (ClassifyKey_spec sc k Ht) as Hc. destruct (ClassifyKey sc k); cbn [atPrefix]; [by rewrite Hc|naive_solver..].
Qed.
End classify.

(** ** Suffixes *)

Definition suffix (k : bytes) : Z := beUint64 k (length k - 8).
Definition tOf (k : bytes) : Z := (DecodeSuffix (suffix k)).1.

Lemma pfx_suffix k : k = pfx k ++ drop (length k - 8) k.
Proof. symmetry. apply take_drop. Qed.

Lemma suffix_bytes k : (8 ≤ length k)%nat → suffix k = be_get (drop (length k - 8) k) ∧ length (drop (length k - 8) k) = 8%nat.
Proof.
  intros Hl. assert (length (drop (length k - 8) k) = 8%nat) as H8 by (rewrite length_drop; lia).
  split; [|done]. unfold suffix, beUint64. by rewrite take_ge by lia.
Qed.

Lemma extractSuffix_Ok k : (8 ≤ length k)%nat → bytes_ok k → extractSuffix k = Ok (suffix k).
Proof.
  intros Hl Hk. destruct (suffix_bytes k Hl) as [-> H8]. unfold extractSuffix.
  rewrite (pfx_suffix k) at 1. rewrite <- (app_nil_r (drop _ k)) at 1. apply BeUint64_at; [by rewrite length_pfx|done|].
  by apply Forall_drop.
Qed.

Lemma suffix_range k : (8 ≤ length k)%nat → bytes_ok k → 0 ≤ suffix k < 2 ^ 64.
Proof.
  intros Hl Hk. destruct (suffix_bytes k Hl) as [-> H8]. pose proof (be_get_bound (drop (length k - 8) k) (Forall_drop _ _ _ Hk)) as Hb.
  rewrite H8 in Hb. exact Hb.
Qed.

Lemma suffix_order a b :
  (8 ≤ length a)%nat → (8 ≤ length b)%nat → bytes_ok a → bytes_ok b → pfx a = pfx b → a <=b b → suffix a ≤ suffix b.
Proof.
  intros Ha Hb Oa Ob Hp Hle. destruct (suffix_bytes a Ha) as [-> La]. destruct (suffix_bytes b Hb) as [-> Lb].
  pose proof (be_get_bound _ (Forall_drop _ (length a - 8)%nat _ Oa)) as Ba. pose proof (be_get_bound _ (Forall_drop _ (length b - 8)%nat _ Ob)) as Bb.
  pose proof (be_put_get _ (Forall_drop _ (length a - 8)%nat _ Oa)) as Pa. pose proof (be_put_get _ (Forall_drop _ (length b - 8)%nat _ Ob)) as Pb.
  rewrite La in Ba, Pa. rewrite Lb in Bb, Pb. unfold ble in Hle. rewrite (pfx_suffix a), (pfx_suffix b), Hp, bcmp_app_same in Hle.
  rewrite <- Pa, <- Pb, bcmp_be_put in Hle by done. by apply Z.compare_le_iff.
Qed.

Lemma tOf_eq k : (8 ≤ length k)%nat → bytes_ok k → tOf k = suffix k / 2.
Proof.
  intros Hl Hk. pose proof (suffix_range k Hl Hk). unfold tOf, DecodeSuffix. cbn [fst].
  rewrite Z.shiftr_div_pow2, i64_small by (unfold is_i64; mlia || lia). done.
Qed.

Lemma active_retracted k : (DecodeSuffix (suffix k)).2 = negb (active k).
Proof. done. Qed.

Lemma DecodeSuffix_pair k : DecodeSuffix (suffix k) = (tOf k, negb (active k)).
Proof. done. Qed.

(** ** One datom's versions *)

(** A version counts as of a transaction. *)
Definition visible (asOf : option Z) (k : bytes) : Prop := match asOf with Some a => tOf k ≤ a | None => True end.

#[export] Instance visible_dec asOf k : Decision (visible asOf k).
Proof. destruct asOf; cbn [visible]; apply _. Defined.

Lemma visible_spec asOf k : match asOf with Some a => tOf k >? a | None => false end = negb (bool_decide (visible asOf k)).
Proof.
  destruct asOf as [a|]; cbn [visible]; [|by rewrite bool_decide_true]. case_bool_decide; [rewrite Z.gtb_ltb; by apply Z.ltb_ge|].
  rewrite Z.gtb_ltb. apply Z.ltb_lt. lia.
Qed.

(** Versions whose bytes are bytes. *)
Definition wellVersioned (l : list bytes) : Prop := versions l ∧ Forall bytes_ok l.

Lemma wellVersioned_key l k : wellVersioned l → k ∈ l → (8 ≤ length k)%nat ∧ bytes_ok k.
Proof. intros [[_ Hl _] Hb] Hk. rewrite Forall_forall in Hl, Hb. specialize (Hl k Hk). split; [lia|by apply Hb]. Qed.

Lemma wellVersioned_sub l1 l2 : l1 `sublist_of` l2 → wellVersioned l2 → wellVersioned l1.
Proof.
  intros Hs [[Ha Hl Hf] Hb]. assert (∀ k, k ∈ l1 → k ∈ l2) as Hin by (intros k Hk; by eapply elem_of_sublist).
  split; [constructor|]; [by eapply ascending_sublist|..]; rewrite ?Forall_forall in *; eauto.
Qed.

Lemma wellVersioned_app_r l1 l2 : wellVersioned (l1 ++ l2) → wellVersioned l2.
Proof. apply wellVersioned_sub, sublist_inserts_l. done. Qed.

(** The newest visible version among the keys read so far. *)
Definition newestOf (asOf : option Z) (read : list bytes) (best : option (bytes * Z * bool)) : Prop :=
  match best with
  | None => ∀ k, k ∈ read → ¬ visible asOf k
  | Some (bk, bt, br) => bk ∈ read ∧ visible asOf bk ∧ (bt, br) = (tOf bk, negb (active bk))
      ∧ ∀ k, k ∈ read → visible asOf k → pfx k = pfx bk ∧ k <=b bk
  end.

Lemma newestOf_skip asOf read best k : ¬ visible asOf k → newestOf asOf read best → newestOf asOf (read ++ [k]) best.
Proof.
  intros Hk. destruct best as [[[bk bt] br]|]; cbn [newestOf]; setoid_rewrite elem_of_app; setoid_rewrite list_elem_of_singleton; naive_solver.
Qed.

Lemma newestOf_take asOf read best k :
  wellVersioned (read ++ [k]) → visible asOf k → newestOf asOf read best → (∀ bk bt br, best = Some (bk, bt, br) → pfx k = pfx bk) →
  newestOf asOf (read ++ [k]) (Some (k, tOf k, negb (active k))).
Proof.
  intros Hw Hv Hn Hg. cbn [newestOf]. setoid_rewrite elem_of_app. setoid_rewrite list_elem_of_singleton. split_and!; [tauto|done|done|].
  intros k' [Hk'| ->] Hv'; [|split; [done|apply ble_refl]]. destruct best as [[[bk bt] br]|]; [|by destruct (Hn k' Hk')].
  destruct Hn as (_&_&_&Hn). destruct (Hn k' Hk' Hv') as [Hp _]. split; [rewrite Hp; symmetry; by eapply Hg|].
  destruct Hw as [[Ha _ _] _]. apply ascending_app in Ha as (_&_&Ha). apply blt_le, Ha; [done|left].
Qed.

(** Between versions of one datom the transaction does not fall. *)
Lemma newestOf_time asOf read best k :
  wellVersioned (read ++ [k]) → newestOf asOf read best → (∀ bk bt br, best = Some (bk, bt, br) → pfx k = pfx bk) →
  (match best with Some (_, bt, _) => bt | None => 0 end <=? tOf k) = true.
Proof.
  intros Hw Hn Hg. assert (∀ x, x ∈ read ++ [k] → (8 ≤ length x)%nat ∧ bytes_ok x) as Hx by (intros x; by apply wellVersioned_key).
  destruct (Hx k) as [Lk Ok_]; [apply elem_of_app; right; left|]. rewrite (tOf_eq k) by done. pose proof (suffix_range k Lk Ok_).
  apply Z.leb_le. destruct best as [[[bk bt] br]|]; [|mlia]. destruct Hn as (Hin&_&[= -> ->]&_).
  destruct (Hx bk) as [Lb Ob]; [apply elem_of_app; by left|]. rewrite (tOf_eq bk) by done. apply Z.div_le_mono; [lia|].
  apply suffix_order; [done..|symmetry; by eapply Hg|]. destruct Hw as [[Ha _ _] _]. apply ascending_app in Ha as (_&_&Ha). apply blt_le, Ha; [done|left].
Qed.

(** ** The live datoms under a prefix *)

Definition liveUnder (asOf : option Z) (p : bytes) (R : list bytes) : list bytes :=
  filter (fun k => has_prefix k p = true) (activeVersions (filter (visible asOf) R)).

Lemma liveUnder_spec asOf p R :
  wellVersioned R →
  ascending (liveUnder asOf p R)
  ∧ ∀ k, k ∈ liveUnder asOf p R ↔ has_prefix k p = true ∧ active k = true ∧ k ∈ R ∧ visible asOf k
      ∧ ∀ k', k' ∈ R → visible asOf k' → pfx k' = pfx k → k' <=b k.
Proof.
  intros Hw. assert (versions (filter (visible asOf) R)) as Hv by (eapply wellVersioned_sub; [apply sublist_filter|exact Hw]).
  destruct (activeVersions_spec _ Hv) as [Ha Hk]. unfold liveUnder. split; [by apply StronglySorted_filter|].
  intros k. rewrite list_elem_of_filter, Hk, latest_greatest by apply Hv. setoid_rewrite list_elem_of_filter. naive_solver.
Qed.

Lemma liveUnder_elem asOf p R k :
  wellVersioned R →
  k ∈ liveUnder asOf p R ↔ has_prefix k p = true ∧ active k = true ∧ k ∈ R ∧ visible asOf k
      ∧ ∀ k', k' ∈ R → visible asOf k' → pfx k' = pfx k → k' <=b k.
Proof. intros Hw. by apply liveUnder_spec. Qed.

Lemma liveUnder_ext asOf p R R' :
  wellVersioned R → wellVersioned R' → (∀ k, k ∈ liveUnder asOf p R ↔ k ∈ liveUnder asOf p R') → liveUnder asOf p R = liveUnder asOf p R'.
Proof. intros Hw Hw'. apply ascending_ext; by apply liveUnder_spec. Qed.

Lemma liveUnder_nil asOf p R : wellVersioned R → (∀ k, k ∈ R → visible asOf k → has_prefix k p = false) → liveUnder asOf p R = [].
Proof.
  intros Hw Hn. destruct (liveUnder_spec asOf p R Hw) as [_ Hk]. apply elem_of_nil_inv. intros k (Hp&_&Hin&Hv&_)%Hk. by rewrite Hn in Hp.
Qed.

(** Keys below the prefix do not matter. *)
Lemma liveUnder_seek asOf p R : wellVersioned R → liveUnder asOf p (filter (fun k => p <=b k) R) = liveUnder asOf p R.
Proof.
  intros Hw. assert (wellVersioned (filter (fun k => p <=b k) R)) as Hw' by (eapply wellVersioned_sub; [apply sublist_filter|exact Hw]).
  apply liveUnder_ext; [done..|]. intros k. rewrite !liveUnder_elem by done. setoid_rewrite list_elem_of_filter.
  split; [|intros (Hp&Ha&Hin&Hv&Hm); split_and!; [done..| |done|done|]].
  - intros (Hp&Ha&[Hle Hin]&Hv&Hm). split_and!; [done..|]. intros k' Hin' Hv' Hpk. destruct (ble_total p k') as [|Hlt]; [by apply Hm|].
    by apply blt_le, (blt_le_trans _ p).
  - apply has_prefix_spec in Hp as [s ->]. apply ble_prefix.
  - intros k' [_ Hin']. by apply Hm.
Qed.

(** Past the prefix nothing is under it. *)
Lemma past_prefix p k k' : p <b k → has_prefix k p = false → k <=b k' → has_prefix k' p = false.
Proof.
  intros Hp Hk Hle. destruct (has_prefix k' p) eqn:E; [|done]. rewrite (has_prefix_between p k k') in Hk; [done|by apply blt_le|done|done].
Qed.

(** Once the versions of a datom are read, the later keys are of other datoms. *)
Definition parted (rest : list bytes) (bk : bytes) : Prop := match rest with [] => True | k :: _ => pfx k ≠ pfx bk end.

Lemma parted_rest pre rest bk k : wellVersioned (pre ++ rest) → bk ∈ pre → parted rest bk → k ∈ rest → pfx k ≠ pfx bk ∧ bk <b k.
Proof.
  intros [Hv _] Hb Hp Hk. pose proof (versions_sorted _ Hv) as Hs. destruct Hv as [Ha _ _]. apply ascending_app in Ha as (_&_&Ha). split; [|by apply Ha].
  destruct rest as [|k0 rest]; [by apply elem_of_nil in Hk|]. cbn [parted] in Hp. intros E. apply Hp.
  assert (pfx bk <=b pfx k0) as H1.
  { clear -Hs Hb. induction pre as [|x pre IH]; [by apply elem_of_nil in Hb|]. cbn [app] in Hs. apply StronglySorted_inv in Hs as [Hs Hx].
    apply elem_of_cons in Hb as [->|Hb]; [|by apply IH]. rewrite Forall_forall in Hx. apply Hx, elem_of_app. right. left. }
  apply (anti_symm ble); [|done]. rewrite <- E. apply elem_of_cons in Hk as [->|Hk]; [apply ble_refl|].
  clear -Hs Hk. induction pre as [|x pre IH]; cbn [app] in Hs; apply StronglySorted_inv in Hs as [Hs Hx]; [|by apply IH].
  rewrite Forall_forall in Hx. by apply Hx.
Qed.

Lemma liveUnder_skip asOf p pre rest bk bt br :
  wellVersioned (pre ++ rest) → newestOf asOf pre (Some (bk, bt, br)) → active bk = false → parted rest bk →
  liveUnder asOf p (pre ++ rest) = liveUnder asOf p rest.
Proof.
  intros Hw (Hb&Hvb&_&Hn) Hact Hp. pose proof (wellVersioned_app_r _ _ Hw) as Hw'.
  apply liveUnder_ext; [done..|]. intros k. rewrite !liveUnder_elem by done. setoid_rewrite elem_of_app. split.
  - intros (Hpk&Ha&[Hin|Hin]&Hv&Hm); [|split_and!; [done..|]; intros; apply Hm; tauto].
    exfalso. destruct (Hn k Hin Hv) as [Hg Hle]. assert (k = bk); [|congruence]. apply (anti_symm ble); [done|]. apply Hm; [by left|done|done].
  - intros (Hpk&Ha&Hin&Hv&Hm). split_and!; [done|done|by right|done|]. intros k' [Hin'|Hin'] Hv' Hg; [|by apply Hm].
    destruct (Hn k' Hin' Hv') as [Hg' _]. destruct (parted_rest pre rest bk k Hw Hb Hp Hin). congruence.
Qed.

Lemma liveUnder_hit asOf p pre rest bk bt br :
  wellVersioned (pre ++ rest) → newestOf asOf pre (Some (bk, bt, br)) → active bk = true → parted rest bk → p <=b bk →
  list.head (liveUnder asOf p (pre ++ rest)) = if has_prefix bk p then Some bk else None.
Proof.
  intros Hw (Hb&Hvb&_&Hn) Hact Hp Hle. destruct (liveUnder_spec asOf p _ Hw) as [Ha Hk].
  assert (∀ k, k ∈ liveUnder asOf p (pre ++ rest) → bk <=b k) as Hmin.
  { intros k (_&_&[Hin|Hin]%elem_of_app&Hv&Hm)%Hk; [|by apply blt_le, (parted_rest pre rest)]. destruct (Hn k Hin Hv) as [Hg _].
    apply Hm; [apply elem_of_app; by left|done|done]. }
  destruct (has_prefix bk p) eqn:Ep.
  - assert (bk ∈ liveUnder asOf p (pre ++ rest)) as Hin.
    { apply Hk. split_and!; [done|done|apply elem_of_app; by left|done|]. intros k' [Hin|Hin]%elem_of_app Hv Hg; [by apply Hn|].
      by destruct (parted_rest pre rest bk k' Hw Hb Hp Hin). }
    destruct (liveUnder asOf p (pre ++ rest)) as [|k l]; [by apply elem_of_nil in Hin|]. cbn. f_equal. apply (anti_symm ble); [|apply Hmin; left].
    apply elem_of_cons in Hin as [->|Hin]; [apply ble_refl|]. apply ascending_cons in Ha as [Hf _]. rewrite Forall_forall in Hf. by apply blt_le, Hf.
  - destruct (liveUnder asOf p (pre ++ rest)) as [|k l]; [done|]. exfalso. assert (has_prefix k p = true) as Hpk by (apply Hk; left).
    rewrite (past_prefix p bk k) in Hpk; [done| |done|apply Hmin; left]. apply ble_lt_eq in Hle as [Hle| ->]; [done|].
    unfold has_prefix in Ep. apply bool_decide_eq_false in Ep. by rewrite take_ge in Ep.
Qed.

(** A cursor with nothing left is seen to be at its end, at the latest once it was
    read and stepped. *)
Class CursorEnds (C : Type) `{HC : Cursor C} `{!CursorLaws C} : Prop :=
  law_ends (c : C) : cinv c → remaining c = [] → Valid c = true →
    let c' := Step (CurrentKey c).1 in Valid c' = false ∧ cinv c' ∧ contents c' = contents c ∧ remaining c' = [].

#[export] Instance keys_ends : CursorEnds keysCursor.
Proof. intros c _ E Hv. cbn in *. apply Nat.ltb_lt in Hv. apply (f_equal length) in E. rewrite length_drop in E. cbn in E. lia. Qed.

Section advance.
Context {C : Type} `{HC : Cursor C} `{HL : !CursorLaws C} `{HE : !CursorEnds C}.

(** The cursor's current key, when it stands on one. *)
Lemma at_key (c : C) k R :
  cinv c → remaining c = k :: R →
  Valid c = true ∧ ∃ c1, CurrentKey c = (c1, Some k) ∧ cinv c1 ∧ contents c1 = contents c ∧ remaining c1 = k :: R.
Proof.
  intros Hc E. destruct (Valid c) eqn:Ev; [|by rewrite law_invalid in E]. split; [done|].
  destruct (law_key c Hc Ev) as (H1&H2&H3&H4). destruct (CurrentKey c) as [c1 o]. cbn [fst snd] in *. rewrite E in H3, H4. cbn in H4. subst. eauto.
Qed.

Lemma stepped (c : C) k R : cinv c → remaining c = k :: R → cinv (Step c) ∧ contents (Step c) = contents c ∧ remaining (Step c) = R.
Proof. intros Hc E. destruct (law_step c Hc) as (H1&H2&H3); [by rewrite E|]. rewrite E in H3. done. Qed.

(** A cursor seen at its end. *)
Lemma at_end (c : C) :
  cinv c → remaining c = [] → Valid c = true →
  ∃ c1, CurrentKey c = (c1, None) ∧ Valid (Step c1) = false ∧ cinv (Step c1) ∧ contents (Step c1) = contents c ∧ remaining (Step c1) = [].
Proof.
  intros Hc E Ev. destruct (law_key c Hc Ev) as (_&_&_&H4). pose proof (law_ends c Hc E Ev) as He. rewrite E in H4.
  destruct (CurrentKey c) as [c1 o]. cbn [fst snd list.head hd_error] in *. subst. eauto.
Qed.

(** Where the loop over the versions of a datom stops. *)
Definition groupEnds (c : C) (best : option (bytes * Z * bool)) : Prop :=
  match remaining c with
  | [] => Valid c = false
  | k :: _ => ∃ bk bt br, best = Some (bk, bt, br) ∧ pfx k ≠ pfx bk
  end.

Lemma groupLoop_spec asOf fuel (c : C) read curGroup best :
  cinv c → wellVersioned (read ++ remaining c) → newestOf asOf read best →
  (∀ bk bt br, best = Some (bk, bt, br) → curGroup = pfx bk) → (S (length (remaining c)) < fuel)%nat →
  ∃ c' best' pre, groupLoop fuel asOf c curGroup best = Ok (c', best') ∧ cinv c' ∧ contents c' = contents c
    ∧ remaining c = pre ++ remaining c' ∧ newestOf asOf (read ++ pre) best' ∧ groupEnds c' best'.
Proof.
  revert c read curGroup best. induction fuel as [|fuel IH]; intros c read curGroup best Hc Hw Hn Hg Hf; [lia|]. cbn [groupLoop].
  destruct (remaining c) as [|k R] eqn:E.
  { assert (∀ c', Valid c' = false → cinv c' → contents c' = contents c → remaining c' = [] →
      ∃ c1 best' pre, Ok (c', best) = Ok (c1, best') ∧ cinv c1 ∧ contents c1 = contents c ∧ [] = pre ++ remaining c1
        ∧ newestOf asOf (read ++ pre) best' ∧ groupEnds c1 best') as Hstop.
    { intros c' Hv Hi Hcc Hr. exists c', best, []. rewrite (app_nil_r read), Hr. unfold groupEnds. by rewrite Hr. }
    destruct (Valid c) eqn:Ev; cbn [negb]; [|by apply Hstop]. destruct (at_end c Hc E Ev) as (c1&->&Hv1&Hi1&Hc1&Hr1).
    destruct fuel as [|fuel]; [cbn in Hf; lia|]. cbn [groupLoop]. rewrite Hv1. by apply Hstop. }
  destruct (at_key c k R Hc E) as (Ev&c1&Ek&Hi1&Hc1&Hr1). rewrite Ev, Ek. cbn [negb]. rewrite (cons_middle k read R), app_assoc in Hw.
  destruct (wellVersioned_key _ k Hw) as [Lk Bk]; [apply elem_of_app; left; apply elem_of_app; right; left|].
  rewrite (proj2 (Nat.ltb_ge _ _)) by done. change (take (length k - 8) k) with (pfx k). rewrite extractSuffix_Ok by done.
  assert (wellVersioned (read ++ [k])) as Hwk by (eapply wellVersioned_sub; [by apply sublist_inserts_r|exact Hw]).
  destruct (stepped c1 k R Hi1 Hr1) as (Hi2&Hc2&Hr2).
  assert (∀ g b, newestOf asOf (read ++ [k]) b → (∀ bk bt br, b = Some (bk, bt, br) → g = pfx bk) →
    ∃ c' best' pre, groupLoop fuel asOf (Step c1) g b = Ok (c', best') ∧ cinv c' ∧ contents c' = contents c
    ∧ k :: R = pre ++ remaining c' ∧ newestOf asOf (read ++ pre) best' ∧ groupEnds c' best') as Hgo.
  { intros g b Hb Hgb. destruct (IH (Step c1) (read ++ [k]) g b Hi2) as (c'&best'&pre&E'&H1&H2&H3&H4&H5);
      [rewrite Hr2; exact Hw|exact Hb|exact Hgb|rewrite Hr2; cbn in Hf; lia|]. exists c', best', (k :: pre). rewrite <- app_assoc in H4. rewrite Hr2 in H3.
    split_and!; [done|done|congruence|by rewrite H3|done|done]. }
  assert ((∀ bk bt br, best = Some (bk, bt, br) → pfx k = pfx bk) →
    ∃ c' best' pre, (if match asOf with Some a => tOf k >? a | None => false end then groupLoop fuel asOf (Step c1) (pfx k) best
      else groupLoop fuel asOf (Step c1) (pfx k)
             (if match best with Some (_, bt, _) => bt | None => 0 end <=? tOf k then Some (k, tOf k, negb (active k)) else best)) = Ok (c', best')
      ∧ cinv c' ∧ contents c' = contents c ∧ k :: R = pre ++ remaining c' ∧ newestOf asOf (read ++ pre) best' ∧ groupEnds c' best') as Hread.
  { intros Hbk. rewrite visible_spec, (newestOf_time asOf read best k Hwk Hn Hbk). case_bool_decide as Hv; cbn [negb].
    - apply Hgo; [by eapply newestOf_take|]. by intros ??? [= <- <- <-].
    - apply Hgo; [by apply newestOf_skip|done]. }
  destruct (decide (pfx k = curGroup)) as [Eg|Eg].
  - rewrite bool_decide_true by done. cbn [negb]. rewrite res_bind_ret, DecodeSuffix_pair. rewrite <- Eg. apply Hread. intros. rewrite Eg. eauto.
  - rewrite bool_decide_false by done. cbn [negb]. destruct best as [[[bk bt] br]|].
    + exists c1, (Some (bk, bt, br)), []. rewrite (app_nil_r read). unfold groupEnds. rewrite Hr1. split_and!; [done..|].
      exists bk, bt, br. split; [done|]. by rewrite <- (Hg bk bt br eq_refl).
    + rewrite res_bind_ret, DecodeSuffix_pair. by apply Hread.
Qed.
(** What a scanner shows: its active key, where it is under the prefix. *)
Definition shown (sc : V2Scanner C) : option bytes :=
  match activeKey (Pos sc) with
  | Some k => if atPrefix (ClassifyKey sc k) then Some k else None
  | None => None
  end.

(** The cursor moved and the key was set; nothing else of the scanner changed. *)
Definition landed (sc : V2Scanner C) (c : C) (key : option bytes) : V2Scanner C :=
  setEnd (setKey (setCur sc c) key) (match key with Some _ => false | None => true end).

Lemma landed_setCur sc c0 c key : landed (setCur sc c0) c key = landed sc c key.
Proof. done. Qed.

(** A cursor over well-formed versions that stands at some point of them. *)
Definition ready (c : C) : Prop := cinv c ∧ wellVersioned (contents c) ∧ ∃ n, remaining c = drop n (contents c).

Lemma ready_key c k R : ready c → remaining c = k :: R → ∃ c1, CurrentKey c = (c1, Some k) ∧ Valid c = true ∧ ready c1 ∧ remaining c1 = k :: R ∧ contents c1 = contents c.
Proof.
  intros (Hc&Hw&n&Hn) E. destruct (at_key c k R Hc E) as (Ev&c1&Ek&H1&H2&H3). exists c1. split_and!; [done..| |done|done].
  split_and!; [done|by rewrite H2|]. exists n. congruence.
Qed.

Lemma ready_seek c t : ready c → ready (Seek c t) ∧ remaining (Seek c t) = filter (fun k => t <=b k) (contents c) ∧ contents (Seek c t) = contents c.
Proof.
  intros (Hc&Hw&_). destruct (law_seek c t Hc) as (H1&H2&H3). split_and!; [|done|done]. split_and!; [done|by rewrite H2|].
  rewrite H3, H2. exists (length (filter (fun k => k <b t) (contents c))). pose proof (law_sorted c Hc) as Ha. clear -Ha.
  induction Ha as [|k l Hl IH Hk]; [done|]. rewrite !filter_cons. destruct (decide (t <=b k)) as [Hle|Hgt].
  - rewrite (decide_False (P := k <b t)) by (by apply ble_not_lt). rewrite IH.
    assert (filter (fun k => k <b t) l = []) as ->; [|done]. apply elem_of_nil_inv. intros x [Hx Hin]%list_elem_of_filter.
    rewrite Forall_forall in Hk. apply ble_not_lt in Hle. apply Hle. eapply blt_trans; [by apply Hk|done].
  - rewrite decide_True by (by apply blt_not_le). cbn [length drop]. done.
Qed.

(** Seeking from a key below the target drops nothing at or above it. *)
Lemma seek_forward c t k R : ready c → remaining c = k :: R → k <b t → filter (fun x => t <=b x) (contents c) = filter (fun x => t <=b x) R.
Proof.
  intros (Hc&Hw&n&Hn) E Hlt. rewrite Hn in E. pose proof (law_sorted c Hc) as Ha. rewrite <- (take_drop n (contents c)), E in Ha |- *.
  apply ascending_app in Ha as (_&_&Ha). rewrite filter_app. rewrite (elem_of_nil_inv (filter _ (take n _))).
  - cbn [app]. rewrite filter_cons_False; [done|]. by apply blt_not_le.
  - intros x [Hx Hin]%list_elem_of_filter. assert (x <b k) as Hxk by (apply Ha; [done|left]). apply ble_not_lt in Hx. apply Hx. by eapply blt_trans.
Qed.

(** Reading the versions of one datom settles whether it is live. *)
Lemma group_step fuel asOf p (c : C) k R :
  ready c → remaining c = k :: R → p <=b k → (S (length (k :: R)) < fuel)%nat →
  ∃ c' best, groupLoop fuel asOf c (pfx k) None = Ok (c', best) ∧ ready c' ∧ contents c' = contents c
    ∧ (length (remaining c') ≤ length R)%nat
    ∧ match best with
      | Some (bk, _, false) => list.head (liveUnder asOf p (k :: R)) = if has_prefix bk p then Some bk else None
      | _ => liveUnder asOf p (remaining c') = liveUnder asOf p (k :: R)
      end.
Proof.
  intros (Hi&Hwc&n&Hn) E Hle Hf. assert (wellVersioned (k :: R)) as Hw.
  { rewrite <- E, Hn. eapply wellVersioned_sub; [apply sublist_drop|exact Hwc]. }
  destruct (groupLoop_spec asOf fuel c [] (pfx k) None Hi) as (c'&best&pre&->&Hi2&Hc2&Hr2&Hn2&He2);
    [cbn [app]; by rewrite E|by intros ? ?%elem_of_nil|done|by rewrite E|].
  exists c', best. cbn [app] in Hn2. rewrite E in Hr2. split; [done|]. split_and!; [|done|..].
  { split_and!; [done|by rewrite Hc2|]. exists (n + length pre)%nat. by rewrite Hc2, <- drop_drop, <- Hn, E, Hr2, drop_app_length. }
  { destruct pre as [|k1 pre].
    - cbn [app] in Hr2. unfold groupEnds in He2. rewrite <- Hr2 in He2. destruct He2 as (bk&bt&br&->&_). destruct Hn2 as (Hb&_). by apply elem_of_nil in Hb.
    - injection Hr2 as _ ->. rewrite length_app. lia. }
  destruct best as [[[bk bt] br]|].
  - assert (parted (remaining c') bk) as Hp.
    { unfold groupEnds in He2. unfold parted. destruct (remaining c'); [done|]. destruct He2 as (?&?&?&[= <- <- <-]&?). done. }
    pose proof Hn2 as (Hb&_&[= -> ->]&_). rewrite Hr2 in Hw. destruct (active bk) eqn:Ea; cbn [negb].
    + rewrite Hr2. eapply liveUnder_hit; [done..|]. eapply ble_trans; [exact Hle|]. destruct pre as [|k1 pre]; [by apply elem_of_nil in Hb|].
      cbn [app] in Hr2, Hw. injection Hr2 as <- _. apply elem_of_cons in Hb as [->|Hb]; [apply ble_refl|]. apply blt_le.
      destruct Hw as [[Ha _ _] _]. apply ascending_cons in Ha as [Hf1 _]. rewrite Forall_forall in Hf1. apply Hf1, elem_of_app. by left.
    + rewrite Hr2. symmetry. by eapply liveUnder_skip.
  - unfold groupEnds in He2. destruct (remaining c') as [|k2 R2]; [|by destruct He2 as (?&?&?&?&_)].
    rewrite app_nil_r in Hr2. rewrite Hr2 in Hw |- *. rewrite !liveUnder_nil; [done|done| |eapply wellVersioned_sub; [apply sublist_nil_l|exact Hw]|].
    + intros x Hx Hv. by destruct (Hn2 x Hx).
    + by intros ? ?%elem_of_nil.
Qed.

Lemma activeLoop_spec fuel (sc : V2Scanner C) :
  ready (Cur (Pos sc)) → tInPrefix sc = false → (S (S (length (remaining (Cur (Pos sc))))) < fuel)%nat →
  ∃ c key, activeLoop fuel sc = Ok (landed sc c key) ∧ ready c ∧ contents c = contents (Cur (Pos sc))
    ∧ shown (landed sc c key) = list.head (liveUnder (asOfTx sc) (prefixCache sc) (remaining (Cur (Pos sc)))).
Proof.
  revert sc. induction fuel as [|fuel IH]; intros sc Hrd Ht Hf; [lia|]. cbn [activeLoop]. set (c := Cur (Pos sc)) in *.
  destruct (remaining c) as [|k R] eqn:E.
  { assert (∀ c', ready c' → contents c' = contents c →
      ∃ c1 key, Ok (setEnd (setKey (setCur sc c') None) true) = Ok (landed sc c1 key) ∧ ready c1 ∧ contents c1 = contents c
        ∧ shown (landed sc c1 key) = list.head (liveUnder (asOfTx sc) (prefixCache sc) [])) as Hstop.
    { intros c' H1 H2. by exists c', None. }
    pose proof Hrd as (Hc&Hw&n&Hn). destruct (Valid c) eqn:Ev; cbn [negb].
    - destruct (at_end c Hc E Ev) as (c1&->&Hv1&Hi1&Hc1&Hr1). destruct fuel as [|fuel]; [cbn in Hf; lia|]. cbn [activeLoop Pos setCur withPos Cur].
      rewrite Hv1. cbn [negb]. apply (Hstop (Step c1)); [|done]. split_and!; [done|by rewrite Hc1|]. exists n. congruence.
    - replace (setEnd (setKey sc None) true) with (setEnd (setKey (setCur sc c) None) true) by (by destruct sc as [[] ?]). by apply Hstop. }
  destruct (ready_key c k R Hrd E) as (c1&Ek&Ev&Hrd1&Hr1&Hc1). rewrite Ev, Ek. cbn [negb].
  assert (∀ c2, ready c2 → contents c2 = contents c → (length (remaining c2) ≤ length R)%nat →
    liveUnder (asOfTx sc) (prefixCache sc) (remaining c2) = liveUnder (asOfTx sc) (prefixCache sc) (k :: R) →
    ∃ c0 key, activeLoop fuel (setCur sc c2) = Ok (landed sc c0 key) ∧ ready c0 ∧ contents c0 = contents c
      ∧ shown (landed sc c0 key) = list.head (liveUnder (asOfTx sc) (prefixCache sc) (k :: R))) as Hrec.
  { intros c2 H1 H2 H3 H4. destruct (IH (setCur sc c2) H1 Ht) as (c0&key&E0&G1&G2&G3); [cbn in *; lia|]. exists c0, key.
    rewrite <- H4. split_and!; [done|done|by rewrite G2|done]. }
  assert (wellVersioned (k :: R)) as Hw.
  { pose proof Hrd as (_&Hw&n&Hn). rewrite E in Hn. rewrite Hn. eapply wellVersioned_sub; [apply sublist_drop|exact Hw]. }
  destruct (wellVersioned_key _ k Hw) as [Lk Bk]; [left|]. rewrite (proj2 (Nat.ltb_ge _ _)) by done.
  assert (prefixCache sc <=b k → ∃ c0 key,
    ('(c2, best) ← groupLoop fuel (asOfTx sc) c1 (pfx k) None;
     match best with Some (bestKey, _, false) => Ok (landed sc c2 (Some bestKey)) | _ => activeLoop fuel (setCur sc c2) end) = Ok (landed sc c0 key)
    ∧ ready c0 ∧ contents c0 = contents c ∧ shown (landed sc c0 key) = list.head (liveUnder (asOfTx sc) (prefixCache sc) (k :: R))) as Hgroup.
  { intros Hle. destruct (group_step fuel (asOfTx sc) (prefixCache sc) c1 k R Hrd1 Hr1 Hle) as (c2&best&->&Hrd2&Hc2&Hl2&Hb); [cbn in *; lia|].
    rewrite res_bind_ret. cbv beta iota. destruct best as [[[bk bt] []]|]; [by apply Hrec; congruence| |by apply Hrec; congruence].
    exists c2, (Some bk). split_and!; [done|done|congruence|]. rewrite Hb. unfold shown. cbn [landed activeKey Pos setEnd setKey withPos].
    change (ClassifyKey (landed sc c2 (Some bk)) bk) with (ClassifyKey sc bk). by rewrite atPrefix_spec. }
  pose proof (ClassifyKey_spec sc k Ht) as Hcl. change (ClassifyKey (setCur sc c1) k) with (ClassifyKey sc k).
  destruct (ClassifyKey sc k).
  - apply Hgroup. rewrite Hcl. apply (ble_prefix [] k).
  - destruct Hcl as [Hlt Hnp]. destruct (ready_seek c1 (prefixCache sc) Hrd1) as (Hrd2&Hr2&Hc2).
    apply (Hrec (Seek c1 (prefixCache sc))); [done|congruence|..]; rewrite Hr2, (seek_forward c1 _ k R) by done.
    + apply length_filter.
    + rewrite <- (liveUnder_seek _ _ (k :: R)) by done. f_equal. rewrite filter_cons_False; [done|]. by apply blt_not_le.
  - apply Hgroup. apply has_prefix_spec in Hcl as [x ->]. apply ble_prefix.
  - destruct Hcl as [Hlt Hnp]. exists c1, None. split_and!; [done..|]. rewrite liveUnder_nil; [done|done|].
    intros x [->|Hx]%elem_of_cons _; [done|]. eapply past_prefix; [done..|]. apply blt_le. destruct Hw as [[Ha _ _] _].
    apply ascending_cons in Ha as [Hf1 _]. rewrite Forall_forall in Hf1. by apply Hf1.
Qed.
End advance.

(** ** Reading a datom *)

Lemma findVEndLoop_encode g f s pre post :
  s ≠ [] → (length s ≤ f)%nat → (length s ≤ g)%nat →
  findVEndLoop g (pre ++ encodeBlocks f s ++ post) (length pre) = (length pre + length (encodeBlocks f s))%nat.
Proof.
  revert g s pre. induction f as [|f IH]; intros g s pre Ns Ls Lg; [apply Nat.le_0_r, nil_length_inv in Ls; done|].
  destruct g as [|g]; [apply Nat.le_0_r, nil_length_inv in Lg; done|]. destruct s as [|a s]; [done|]. cbn [encodeBlocks findVEndLoop].
  set (S := a :: s) in *. destruct (Nat.ltb_spec 8 (length S)) as [L|L].
  - assert (length (take 8 S) = 8)%nat as L8 by (rewrite length_take; lia). set (E := encodeBlocks f (drop 8 S)).
    rewrite !length_app. cbn [length]. rewrite (proj2 (Nat.leb_le _ _)) by lia. rewrite app_nth2 by lia. rewrite Nat.add_comm, Nat.add_sub.
    rewrite <- app_assoc. rewrite app_nth2, L8 by lia. cbn [Nat.sub nth app]. change (0xff =? 0xff) with true. cbv iota.
    replace (pre ++ take 8 S ++ 0xff :: E ++ post) with ((pre ++ take 8 S ++ [0xff]) ++ E ++ post) by (by rewrite <- !app_assoc).
    replace (length pre + 9)%nat with (length (pre ++ take 8 S ++ [0xff])) by (rewrite !length_app; cbn [length]; lia).
    unfold E. rewrite IH; [|by apply drop_nonnil|rewrite length_drop; lia..]. rewrite !length_app. cbn [length]. lia.
  - set (P := replicate (8 - length S) 0). assert (length P = 8 - length S)%nat as LP by apply length_replicate. clearbody P. assert (length S ≠ 0)%nat by (subst S; cbn; lia). clearbody S. rewrite !length_app. cbn [length]. rewrite (proj2 (Nat.leb_le _ _)) by lia.
    rewrite app_nth2 by lia. rewrite Nat.add_comm, Nat.add_sub.
    replace ((S ++ P ++ [Z.of_nat (length S)]) ++ post) with ((S ++ P) ++ Z.of_nat (length S) :: post) by (by rewrite <- !app_assoc).
    assert (length (S ++ P) = 8)%nat as LSP by (rewrite length_app; lia).
    rewrite app_nth2, LSP by lia. cbn [Nat.sub nth]. destruct (Z.eqb_spec (Z.of_nat (length S)) 0xff); lia.
Qed.

Lemma length_encodeBlocks f s : s ≠ [] → (length s ≤ f)%nat → (length s ≤ length (encodeBlocks f s))%nat.
Proof.
  revert s. induction f as [|f IH]; intros s Ns Ls; [apply Nat.le_0_r, nil_length_inv in Ls; done|].
  destruct s as [|a s]; [done|]. cbn [encodeBlocks]. set (S := a :: s) in *. destruct (Nat.ltb_spec 8 (length S)) as [H8|H8]; rewrite !length_app; [|lia].
  cbn [length]. assert (length (drop 8 S) ≤ length (encodeBlocks f (drop 8 S)))%nat as Hd.
  { apply IH; [by apply drop_nonnil|rewrite length_drop; lia]. }
  rewrite length_take, length_drop in *. lia.
Qed.

(** The end of a stored string's segment. *)
Lemma findVEnd_string s pre post :
  cut s ≠ [] → findVEnd (pre ++ EncodeVariable s ++ post) (length pre) false = Ok (Z.of_nat (length pre + length (EncodeVariable s))).
Proof.
  intros Ns. unfold findVEnd, EncodeVariable. fold (cut s). f_equal. f_equal. apply findVEndLoop_encode; [done|by rewrite length_cut|].
  rewrite !length_app. pose proof (length_encodeBlocks (firstNul s) (cut s) Ns) as Hl. rewrite length_cut in Hl. specialize (Hl (Nat.le_refl _)).
  rewrite length_cut. lia.
Qed.

(** The value types whose stored values the scanner reads as the engine does. *)
Definition plainType (vt : Z) : bool :=
  (vt =? DbTypeLong) || (vt =? DbTypeRef) || (vt =? DbTypeInstant) || (vt =? DbTypeFloat).

Definition readable (vt : Z) (v : bytes) : Prop :=
  plainType vt = true ∧ length v = 8%nat ∧ bytes_ok v
  ∨ vt = DbTypeString ∧ ∃ s, v = EncodeVariable s ∧ cut s ≠ [].

Section reading.
Context {C : Type}.

(** A scanner of the entity index on the key of a datom, at one of its positions. *)
Definition onDatom (sc : V2Scanner C) (n : nat) (vt eid attr : Z) (v : bytes) (t : Z) (r : bool) : Prop :=
  IndexName sc = bs "EAVT" ∧ IdxOrder (Pos sc) = ["e"; "a"; "v"; "t"; "added"] ∧ currentPosition sc = n
  ∧ valueAttr sc = Some vt ∧ activeKey (Pos sc) = Some (BuildEavtKey eid attr v t r)
  ∧ atPrefix (ClassifyKey sc (BuildEavtKey eid attr v t r)) = true.

(** What a datom holds at a position of the entity index, as the engine decodes it. *)
Definition datomField (n : nat) (vt eid attr : Z) (v : bytes) (t : Z) (r : bool) : res Expr :=
  match n with
  | 0%nat => Ok (sexpr.Int eid)
  | 1%nat => Ok (sexpr.Int attr)
  | 2%nat => DecodeStoredValue v vt
  | 3%nat => Ok (sexpr.Int t)
  | _ => Ok (sexpr.Bool (negb r))
  end.

Lemma key_suffix eid attr v t r :
  0 ≤ t < 2 ^ 63 → ∃ u, extractSuffix (BuildEavtKey eid attr v t r) = Ok u ∧ DecodeSuffix u = (t, r).
Proof.
  intros Ht. unfold BuildEavtKey, extractSuffix. set (k := _ ++ _). destruct (length_key_parts eid attr v t r) as (L1&L2&L3).
  assert (k = (EncodeEid eid ++ be_put 4 attr ++ v) ++ be_put 8 (EncodeSuffix t r) ++ []) as Ek by (unfold k; by rewrite app_nil_r, <- !app_assoc).
  assert (length k - 8 = length (EncodeEid eid ++ be_put 4 attr ++ v))%nat as -> by (rewrite Ek, !length_app; cbn [length]; lia).
  rewrite Ek, BeUint64_at by (done || apply be_put_ok). eexists. split; [done|]. rewrite be_get_put, Z.mod_small.
  - by rewrite DecodeSuffix_Encode.
  - rewrite EncodeSuffix_eq by done. assert (0 ≤ Z.b2z r < 2) by (destruct r; cbn; lia). change (8 * Z.of_nat 8) with 64. lia.
Qed.

Lemma key_value eid attr v t r :
  BuildEavtKey eid attr v t r = (EncodeEid eid ++ be_put 4 attr) ++ v ++ be_put 8 (EncodeSuffix t r)
  ∧ length (EncodeEid eid ++ be_put 4 attr) = 12%nat.
Proof.
  destruct (length_key_parts eid attr v t r) as (L1&L2&_). unfold BuildEavtKey. by rewrite <- !app_assoc, length_app, L1, L2.
Qed.

Lemma extractV_readable (sc : V2Scanner C) vt eid attr v t r :
  valueAttr sc = Some vt → readable vt v →
  (ve ← (if isVariableValue sc (length (BuildEavtKey eid attr v t r)) then findVEnd (BuildEavtKey eid attr v t r) 12 (isUnorderedAttr sc) else Ok 20);
   extractV sc (BuildEavtKey eid attr v t r) 12 ve) = DecodeStoredValue v vt.
Proof.
  intros Hvt Hv. destruct (key_value eid attr v t r) as [Ek L12]. rewrite Ek. set (pre := EncodeEid eid ++ be_put 4 attr) in *.
  set (post := be_put 8 (EncodeSuffix t r)). assert (length post = 8%nat) as L8 by apply length_be_put. unfold extractV, isUnorderedAttr, isBlob, isVariableValue.
  rewrite Hvt. destruct Hv as [(Hp&Lv&Hok)|(->&s&->&Ns)].
  - replace (length (pre ++ v ++ post)) with 28%nat by (rewrite !length_app; lia).
    assert (BeUint64 (pre ++ v ++ post) (Z.to_nat 12) = BeUint64 v 0) as ->.
    { change (Z.to_nat 12) with 12%nat. rewrite <- L12, BeUint64_at by done.
      pose proof (BeUint64_at 0 [] v [] eq_refl Lv Hok) as H0. by rewrite app_nil_l, app_nil_r in H0. }
    unfold plainType in Hp. unfold DecodeStoredValue. rewrite Lv.
    destruct (Z.eqb_spec vt DbTypeLong) as [->|]; [done|]. destruct (Z.eqb_spec vt DbTypeRef) as [->|]; [done|].
    destruct (Z.eqb_spec vt DbTypeInstant) as [->|]; [done|]. destruct (Z.eqb_spec vt DbTypeFloat) as [->|]; done.
  - change (DbTypeString =? DbTypeBlob) with false. change (DbTypeString =? DbTypeString) with true. cbn [orb]. cbv iota.
    rewrite <- L12, findVEnd_string, res_bind_ret by done. change 12 with (Z.of_nat 12). rewrite <- L12.
    rewrite slice_app by lia. rewrite res_bind_ret. done.
Qed.

Lemma ExtractCurrent_field (sc : V2Scanner C) n vt eid attr v t r :
  onDatom sc n vt eid attr v t r → is_i64 eid → is_u32 attr → 0 ≤ t < 2 ^ 63 → readable vt v → (n ≤ 4)%nat →
  ExtractCurrent sc = (x ← datomField n vt eid attr v t r; Ok (Some x)).
Proof.
  intros (Hi&Ho&Hn&Hvt&Hk&Hat) He Ha Ht Hv Hle. unfold ExtractCurrent. rewrite Hk, Hat. cbn [negb].
  unfold ValueEnd, ValueStart, beyond, posName. rewrite Hi, Ho, Hn. rewrite bool_decide_true by done.
  destruct (key_suffix eid attr v t r Ht) as (u&Es&Ds). pose proof (extractV_readable sc vt eid attr v t r Hvt Hv) as Hx.
  destruct n as [|[|[|[|[|n]]]]]; [..|lia]; cbn [nth length Nat.leb orb String.eqb Ascii.eqb Bool.eqb datomField fixedStart] in *; rewrite ?res_bind_ret; cbv beta iota; cbn [String.eqb Ascii.eqb Bool.eqb].
  - unfold BuildEavtKey. destruct (BeUint64_eid_raw 0 [] eid (be_put 4 attr ++ v ++ be_put 8 (EncodeSuffix t r)) eq_refl He) as (e&E&D).
    cbn [app] in E. change (Z.to_nat 0) with 0%nat. by rewrite E, res_bind_ret, D.
  - unfold BuildEavtKey. destruct (length_key_parts eid attr v t r) as (L1&_). change (Z.to_nat 8) with 8%nat.
    by rewrite BeUint32_attr, res_bind_ret.
  - rewrite <- Hx. change (Z.to_nat 12) with 12%nat. change (12 + 8) with 20. by destruct (if isVariableValue _ _ then _ else _).
  - by rewrite Es, res_bind_ret, Ds.
  - by rewrite Es, res_bind_ret, Ds.
Qed.
End reading.

(** ** Properties *)

(** C30. [SeekToBytes] shows what the engine's scan would: over any cursor of stored
    versions, a scanner that is not in history mode, has no transaction fixed in its
    prefix and does not stand at the position added, lands, with fuel above the number
    of entries of the cursor plus two, on the first
    datom under the prefix at or after the bytes sought that is live as of the
    scanner's transaction, and on nothing when there is none. The live datoms are the
    ones the newest-version filter of [ScanPrefixActive] keeps. *)
Theorem scanner_seek_exact {C} `{HC : Cursor C} `{HL : !CursorLaws C} `{HE : !CursorEnds C} fuel (sc : V2Scanner C) valueBytes :
  ready (Cur (Pos sc)) → tInPrefix sc = false → HistoryMode sc = false → posName sc ≠ "added" →
  (S (S (length (contents (Cur (Pos sc))))) < fuel)%nat →
  ∃ sc', SeekToBytes fuel sc valueBytes = Ok sc' ∧ ready (Cur (Pos sc')) ∧ contents (Cur (Pos sc')) = contents (Cur (Pos sc))
    ∧ shown sc' = list.head (liveUnder (asOfTx sc) (prefixCache sc)
        (filter (fun k => (prefixCache sc ++ valueBytes ++ replicate 8 0) <=b k) (contents (Cur (Pos sc))))).
Proof.
  intros Hrd Ht Hh Hp Hf. unfold SeekToBytes. set (target := _ ++ _). destruct (ready_seek (Cur (Pos sc)) target Hrd) as (Hrd'&Hr'&Hc').
  destruct (activeLoop_spec fuel (seekTo sc target) Hrd' Ht) as (c&key&E&H1&H2&H3).
  { change (Cur (Pos (seekTo sc target))) with (Seek (Cur (Pos sc)) target). rewrite Hr'. pose proof (length_filter (fun k => target <=b k) (contents (Cur (Pos sc)))). lia. }
  exists (landed (seekTo sc target) c key). split_and!; [|done|by rewrite <- Hc'|by rewrite <- Hr'].
  unfold AdvanceToActiveAt. change (posName (seekTo sc target)) with (posName sc). change (HistoryMode (seekTo sc target)) with (HistoryMode sc).
  rewrite Hh. cbn [andb]. destruct (String.eqb_spec (posName sc) "added"); done.
Qed.

Definition sampleScanner (vt : option Z) (saved : list Expr) (key : option bytes) (ks : list bytes) : V2Scanner keysCursor :=
  match recomputePrefix (mkScanner (mkPos {| keys := ks; kpos := 0 |} ["e"; "a"; "v"; "t"; "added"] saved key false) (bs "EAVT") None vt false [] false) with
  | Ok sc => sc
  | _ => NewV2Scanner {| keys := []; kpos := 0 |} [] [] None
  end.

Lemma scanner_seek_exact_witness :
  ∃ sc', SeekToBytes 6 (sampleScanner (Some DbTypeLong) [sexpr.Int 7] None sampleVersions) [] = Ok sc'
    ∧ shown sc' = Some (BuildEavtKey 7 4 (EncodeInt 5) 100 false).
Proof.
  destruct (scanner_seek_exact 6 (sampleScanner (Some DbTypeLong) [sexpr.Int 7] None sampleVersions) []) as (sc'&E&_&_&Hs).
  - split_and!; [apply sampleVersions_ok|split; [apply sampleVersions_ok|unfold bytes_ok, is_u8; apply (bool_decide_unpack _); by vm_compute]|by exists 0%nat].
  - by vm_compute.
  - by vm_compute.
  - by vm_compute.
  - vm_compute. lia.
  - exists sc'. split; [done|]. rewrite Hs. by vm_compute.
Defined.

(** [ExtractCurrent] reads a datom as the engine wrote it: standing on the key of a
    datom at any position of the entity index, the scanner yields the entity, the
    attribute, the value as [DecodeStoredValue] decodes it (longs, references,
    instants, floats and non-empty strings), the transaction, or whether the datom was
    added. *)
Theorem scanner_reads_datom {C} (sc : V2Scanner C) n vt eid attr v t r :
  onDatom sc n vt eid attr v t r → is_i64 eid → is_u32 attr → 0 ≤ t < 2 ^ 63 → readable vt v → (n ≤ 4)%nat →
  ExtractCurrent sc = (x ← datomField n vt eid attr v t r; Ok (Some x)).
Proof. apply ExtractCurrent_field. Qed.

Lemma scanner_reads_datom_witness :
  ExtractCurrent (sampleScanner (Some DbTypeString) [sexpr.Int 7; sexpr.Int 3] (Some (BuildEavtKey 7 3 (EncodeVariable (bs "hello")) 100 false)) [])
  = Ok (Some (sexpr.Str (bs "hello"))).
Proof.
  rewrite (scanner_reads_datom _ 2 DbTypeString 7 3 (EncodeVariable (bs "hello")) 100 false).
  - by vm_compute.
  - by split_and!.
  - by vm_compute.
  - by vm_compute.
  - lia.
  - right. split; [done|]. exists (bs "hello"). split; [done|]. by vm_compute.
  - lia.
Defined.

(** [ExtractCurrent] misreads the boolean values the engine stores: [false] and [true]
    are stored as the encoded integers 0 and 1, which [DecodeStoredValue] reads back,
    and the scanner yields [true] for both. *)
Theorem scanner_misreads_booleans (C : Type) (sc : V2Scanner C) eid attr b t r :
  onDatom sc 2 DbTypeBoolean eid attr (EncodeInt (Z.b2z b)) t r →
  ExtractCurrent sc = Ok (Some (sexpr.Bool true)) ∧ DecodeStoredValue (EncodeInt (Z.b2z b)) DbTypeBoolean = Ok (sexpr.Bool b).
Proof.
  intros (Hi&Ho&Hn&Hvt&Hk&Hat). split; [|by destruct b; vm_compute]. unfold ExtractCurrent. rewrite Hk, Hat. cbn [negb].
  unfold ValueEnd, ValueStart, beyond, posName. rewrite Hi, Ho, Hn. rewrite bool_decide_true by done.
  cbn [nth length Nat.leb orb String.eqb Ascii.eqb Bool.eqb fixedStart]. rewrite ?res_bind_ret. cbv beta iota. cbn [String.eqb Ascii.eqb Bool.eqb].
  unfold extractV, isVariableValue. rewrite Hvt. destruct (key_value eid attr (EncodeInt (Z.b2z b)) t r) as [Ek L12].
  assert (length (BuildEavtKey eid attr (EncodeInt (Z.b2z b)) t r) = 28%nat) as -> by (by rewrite Ek, length_app, L12, length_app, length_EncodeInt, length_be_put).
  cbn [orb negb Nat.eqb]. change (DbTypeBoolean =? DbTypeString) with false. change (DbTypeBoolean =? DbTypeBytes) with false.
  change (DbTypeBoolean =? DbTypeBlob) with false. cbn [orb negb]. rewrite res_bind_ret. cbv beta iota.
  rewrite Ek. change (Z.to_nat 12) with 12%nat. rewrite <- L12, BeUint64_at by (apply EncodeInt_ok || apply length_EncodeInt || done). rewrite res_bind_ret. by destruct b.
Qed.

Lemma scanner_misreads_booleans_witness :
  ExtractCurrent (sampleScanner (Some DbTypeBoolean) [sexpr.Int 7; sexpr.Int 3] (Some (BuildEavtKey 7 3 (EncodeInt 0) 100 false)) [])
  = Ok (Some (sexpr.Bool true)).
Proof. by refine (proj1 (scanner_misreads_booleans _ _ 7 3 false 100 false _)); split_and!. Defined.

