(* ===== verification/Float64.v ===== *)
(** * 64-bit floating-point numbers

    The arithmetic of Go's [float64] on bit patterns, through the Standard
    Library's [SpecFloat] at 53 bits of precision. What the language leaves to the
    machine is a parameter: the bits of a NaN result, and the integer a NaN or an
    out-of-range number converts to. *)

From Stdlib Require Import SpecFloat.
From S2P Require Import Prelude.
Open Scope Z_scope.

Module float64.
Definition prec : Z := 53.
Definition emax : Z := 1024.

Definition ofBits (x : Z) : spec_float :=
  let s := negb (Z.shiftr x 63 =? 0) in
  let e := Z.land (Z.shiftr x 52) 0x7ff in
  let m := Z.land x (2 ^ 52 - 1) in
  if e =? 0x7ff then (if m =? 0 then S754_infinity s else S754_nan)
  else if e =? 0 then (match m with Zpos p => S754_finite s p (-1074) | _ => S754_zero s end)
  else match m + 2 ^ 52 with Zpos p => S754_finite s p (e - 1075) | _ => S754_nan end.

Definition signed (s : bool) (x : Z) : Z := if s then x + 2 ^ 63 else x.

(** A finite number of 53 bits is normal; a shorter one is subnormal. *)
Definition toBits (nan : Z) (f : spec_float) : Z :=
  match f with
  | S754_zero s => signed s 0
  | S754_infinity s => signed s (0x7ff * 2 ^ 52)
  | S754_nan => nan
  | S754_finite s m e =>
      if Zpos m <? 2 ^ 52 then signed s (Zpos m) else signed s ((e + 1075) * 2 ^ 52 + (Zpos m - 2 ^ 52))
  end.

Section ops.
Variable nan : Z.

Definition add (x y : Z) : Z := toBits nan (SFadd prec emax (ofBits x) (ofBits y)).
Definition sub (x y : Z) : Z := toBits nan (SFsub prec emax (ofBits x) (ofBits y)).
Definition mul (x y : Z) : Z := toBits nan (SFmul prec emax (ofBits x) (ofBits y)).
Definition div (x y : Z) : Z := toBits nan (SFdiv prec emax (ofBits x) (ofBits y)).

(** [float64(n)], rounded to nearest even. *)
Definition ofInt (n : Z) : Z := toBits nan (binary_normalize prec emax n 0 false).
End ops.

Definition neg (x : Z) : Z := Z.lxor x (2 ^ 63).

Definition compare (x y : Z) : option comparison := SFcompare (ofBits x) (ofBits y).
Definition lt (x y : Z) : bool := match compare x y with Some Lt => true | _ => false end.
Definition gt (x y : Z) : bool := match compare x y with Some Gt => true | _ => false end.
Definition le (x y : Z) : bool := match compare x y with Some (Lt | Eq) => true | _ => false end.
Definition ge (x y : Z) : bool := match compare x y with Some (Gt | Eq) => true | _ => false end.
Definition eq (x y : Z) : bool := match compare x y with Some Eq => true | _ => false end.

(** [int64(f)]: towards zero where it fits. *)
Definition magnitude (f : spec_float) : option Z :=
  match f with
  | S754_zero _ => Some 0
  | S754_finite s m e => let a := Z.shiftl (Zpos m) e in Some (if s then - a else a)
  | _ => None
  end.
Definition toInt (huge : Z → Z) (x : Z) : Z :=
  match magnitude (ofBits x) with
  | Some n => if (- 2 ^ 63 <=? n) && (n <? 2 ^ 63) then n else huge x
  | None => huge x
  end.
End float64.

Example float_sum : float64.add 0 0x3ff0000000000000 0x4000000000000000 = 0x4008000000000000.
Proof. by vm_compute. Qed.

(** ** Bits and numbers *)

Lemma ofBits_fields x :
  is_u64 x → ∃ s e m, 0 ≤ e < 2 ^ 11 ∧ 0 ≤ m < 2 ^ 52 ∧ x = Z.b2z s * 2 ^ 63 + e * 2 ^ 52 + m
    ∧ negb (Z.shiftr x 63 =? 0) = s ∧ Z.land (Z.shiftr x 52) 0x7ff = e ∧ Z.land x (2 ^ 52 - 1) = m.
Proof.
  intros Hx. unfold is_u64 in Hx. exists (negb (Z.shiftr x 63 =? 0)), (Z.land (Z.shiftr x 52) 0x7ff), (Z.land x (2 ^ 52 - 1)).
  change 0x7ff with (Z.ones 11). change (2 ^ 52 - 1) with (Z.ones 52). rewrite !Z.land_ones, !Z.shiftr_div_pow2 by lia.
  split_and!; [apply Z.mod_pos_bound; lia..| |done|done|done].
  assert (x / 2 ^ 63 = Z.b2z (negb (x / 2 ^ 63 =? 0))) as E.
  { assert (0 ≤ x / 2 ^ 63 < 2) by mlia. destruct (Z.eqb_spec (x / 2 ^ 63) 0); cbn; lia. }
  rewrite <- E. assert (x / 2 ^ 63 = x / 2 ^ 52 / 2 ^ 11) as -> by (rewrite Z.div_div by lia; done).
  pose proof (Z.div_mod x (2 ^ 52) ltac:(lia)). pose proof (Z.div_mod (x / 2 ^ 52) (2 ^ 11) ltac:(lia)).
  change (2 ^ 63) with (2 ^ 11 * 2 ^ 52). lia.
Qed.

(** Decoding and encoding a number that is not NaN gives its bits back. *)
Lemma toBits_ofBits nan x :
  is_u64 x → float64.ofBits x ≠ S754_nan → float64.toBits nan (float64.ofBits x) = x.
Proof.
  intros Hx Hn. destruct (ofBits_fields x Hx) as (s&e&m&He&Hm&Ex&Es&Ee&Em). unfold float64.ofBits in *. rewrite Es, Ee, Em in Hn |- *. clear Es Ee Em.
  assert (∀ y, float64.signed s y = Z.b2z s * 2 ^ 63 + y) as Hs by (intros y; unfold float64.signed; destruct s; cbn; lia).
  destruct (Z.eqb_spec e 0x7ff) as [->|He1].
  - destruct (Z.eqb_spec m 0) as [E0|E0]; [|done]. rewrite E0 in Ex. cbn [float64.toBits]. rewrite Hs. lia.
  - destruct (Z.eqb_spec e 0) as [->|He2].
    + destruct m as [|p|p]; [..|lia]; cbn [float64.toBits]; [rewrite Hs; lia|].
      rewrite (proj2 (Z.ltb_lt _ _)) by lia. rewrite Hs. lia.
    + destruct (m + 2 ^ 52) as [|p|p] eqn:Ep; [lia| |lia]. cbn [float64.toBits]. rewrite (proj2 (Z.ltb_ge _ _)) by lia. rewrite Hs. lia.
Qed.
