(* ===== verification/Scheme.v ===== *)
(** * The virtual machine (go/internal/scheme/scheme.go)

    Programs are nested lists with keyword heads; the machine keeps a flat
    environment and a stack of frames so that it can stop at a row and go on later.
    The host functions are an interface, a type class here; evaluation threads the
    environment, the stack and the host through, and an error keeps the state it
    happened in. Every call takes fuel, the machine's own recursion included. *)

From Stdlib Require Import String.
From S2P Require Import Prelude Sexpr Numfmt Ranges Float64 QueryStore.
Open Scope string_scope.
Open Scope list_scope.
Open Scope Z_scope.

(** ** Values *)

Definition IsTruthy (e : Expr) : bool :=
  match e with sexpr.Void => false | sexpr.Bool b => b | _ => true end.

Definition joinBytes (sep : bytes) (parts : list bytes) : bytes :=
  match parts with [] => [] | p :: ps => p ++ flat_map (fun x => sep ++ x) ps end.

Definition quote : bytes := [34].

(** [String], Nim's [$]. *)
Fixpoint String_ (FormatE : Z → bytes) (e : Expr) : bytes :=
  match e with
  | sexpr.Void => bs "#void"
  | sexpr.Bool b => if b then bs "#t" else bs "#f"
  | sexpr.Int n => FormatInt n
  | sexpr.Float f => FloatString FormatE f
  | sexpr.Str s => quote ++ s ++ quote
  | sexpr.Bytes b => bs "#b" ++ quote ++ flat_map FormatInt b ++ quote
  | sexpr.Symbol s => s
  | sexpr.Keyword s => bs ":" ++ s
  | sexpr.List l => bs "[" ++ joinBytes (bs " ") (map (String_ FormatE) l) ++ bs "]"
  | sexpr.Resource _ => bs "#<resource>"
  end.

(** ** Evaluation steps, the host, the machine *)

Inductive EvalStep : Type := Done (v : Expr) | YieldRow (v : Expr).

(** [inl] is an error and its message; the host may have changed all the same. *)
Class HostFns (H : Type) : Type :=
  Call : nat → H → bytes → list Expr → res (H * (bytes + EvalStep)).

Inductive frame : Type :=
| fkEval (expr : Expr)
| fkWhenTest (wtBody : list Expr)
| fkIfTest (itThen itElse : list Expr)
| fkAndSeq (remain : list Expr)
| fkOrSeq (remain : list Expr)
| fkSetFrame (sfName : bytes)
| fkWhile (wCond : Expr) (wBody : list Expr) (wPhase : nat).

Definition Environment : Type := gmap bytes Expr.

(** The head of [stack] is its top. *)
Record VM (H : Type) : Type := mkVM { env : Environment; stack : list frame; host : H }.
Arguments mkVM {H} _ _ _.
Arguments env {H} _.
Arguments stack {H} _.
Arguments host {H} _.

Definition specialForms : list bytes :=
  map bs ["when"; "if"; "begin"; "set!"; "print"; "assert"; "and"; "or"; "not"; "scanner-iterate"; "ranges-create"; "while";
          "+"; "-"; "*"; "/"; "mod"; "<"; ">"; "<="; ">="; "="; "!="; "min"; "max"; "abs"].
Definition isSpecialForm (name : bytes) : bool := bool_decide (name ∈ specialForms).

Definition isArith (name : bytes) : bool :=
  bool_decide (name ∈ map bs ["+"; "-"; "*"; "/"; "mod"; "<"; ">"; "<="; ">="; "="; "!="; "min"; "max"; "abs"]).

Definition listItems (e : Expr) : list Expr := match e with sexpr.List l => l | _ => [] end.

Definition isRangesMarker (e : Expr) : bool :=
  match e with
  | sexpr.Keyword s => bool_decide (s = bs "ranges")
  | sexpr.Symbol s => bool_decide (s = bs ":ranges")
  | _ => false
  end.

Definition rangeOpMap (name : bytes) : option Z :=
  if bool_decide (name = bs "=") then Some rangeOpEq
  else if bool_decide (name = bs "!=") then Some rangeOpNeq
  else if bool_decide (name = bs ">") then Some rangeOpGt
  else if bool_decide (name = bs ">=") then Some rangeOpGte
  else if bool_decide (name = bs "<") then Some rangeOpLt
  else if bool_decide (name = bs "<=") then Some rangeOpLte
  else if bool_decide (name = bs "in") then Some rangeOpIn
  else None.

(** ** The frames a value meets *)

Fixpoint processValue (value : Expr) (st : list frame) (en : Environment) : list frame * Environment :=
  match st with
  | [] => ([], en)
  | fkEval _ :: _ => (st, en)
  | fkWhenTest body :: st' =>
      if IsTruthy value then
        match body with
        | [] => processValue value st' en
        | _ => (map fkEval body ++ st', en)
        end
      else (fkEval sexpr.Void :: st', en)
  | fkIfTest th el :: st' =>
      match (if IsTruthy value then th else el) with
      | [] => (fkEval sexpr.Void :: st', en)
      | body => (map fkEval body ++ st', en)
      end
  | fkSetFrame name :: st' => processValue value st' (<[name := value]> en)
  | fkWhile c b O :: st' => ((if IsTruthy value then map fkEval b ++ [fkWhile c b 1] else []) ++ st', en)
  | fkWhile c b (S _) :: st' => (fkEval c :: fkWhile c b 0 :: st', en)
  | fkAndSeq remain :: st' =>
      if negb (IsTruthy value) then (fkEval (sexpr.Bool false) :: st', en)
      else match remain with
           | [] => (fkEval value :: st', en)
           | next :: rest => (fkEval next :: fkAndSeq rest :: st', en)
           end
  | fkOrSeq remain :: st' =>
      if IsTruthy value then (fkEval value :: st', en)
      else match remain with
           | [] => (fkEval (sexpr.Bool false) :: st', en)
           | next :: rest => (fkEval next :: fkOrSeq rest :: st', en)
           end
  end.

(** ** Arithmetic *)

Section arith.
Variable FormatE : Z → bytes.
(** A machine's NaN, and its conversions of what does not fit an integer. *)
Variable nan : Z.
Variable huge : Z → Z.

Definition sexprNumToF64 (e : Expr) : bytes + Z :=
  match e with
  | sexpr.Int n => inr (float64.ofInt nan n)
  | sexpr.Float f => inr f
  | _ => inl (bs "expected number, got " ++ String_ FormatE e)
  end.

Definition numResult (anyFloat : bool) (r : Z) : Expr := if anyFloat then sexpr.Float r else sexpr.Int (float64.toInt huge r).

Definition absF (f : Z) : Z := if float64.lt f 0 then float64.neg f else f.

Fixpoint chain (bad : Z → Z → bool) (nums : list Z) : bool :=
  match nums with
  | a :: ((b :: _) as rest) => if bad a b then false else chain bad rest
  | _ => true
  end.

Fixpoint divLoop (r : Z) (nums : list Z) : bytes + Z :=
  match nums with
  | [] => inr r
  | n :: nums' => if float64.eq n 0 then inl (bs "division by zero") else divLoop (float64.div nan r n) nums'
  end.

Definition best (better : Z → Z → bool) (nums : list Z) : res Z :=
  match nums with
  | [] => Panic
  | n :: nums' => Ok (fold_left (fun b x => if better x b then x else b) nums' n)
  end.

Definition one : Z := 0x3ff0000000000000.

(** The operators after their arguments; an index out of range and an integer
    division by zero panic. *)
Definition arith (name : bytes) (nums : list Z) (anyFloat : bool) : res (bytes + Expr) :=
  let op s := bool_decide (name = bs s) in
  let num r := Ok (inr (numResult anyFloat r)) in
  let tf b := Ok (inr (sexpr.Bool b)) in
  if op "+" then num (fold_left (float64.add nan) nums 0)
  else if op "-" then
    match nums with
    | [] => Ok (inl (bs "-: expected at least one argument"))
    | [n] => num (float64.neg n)
    | n :: nums' => num (fold_left (float64.sub nan) nums' n)
    end
  else if op "*" then num (fold_left (float64.mul nan) nums one)
  else if op "/" then
    match nums with
    | [] => Ok (inl (bs "/: expected at least one argument"))
    | n :: nums' => Ok (match divLoop n nums' with inl m => inl m | inr r => inr (sexpr.Float r) end)
    end
  else if op "mod" then
    match nums with
    | a :: b :: _ =>
        if float64.eq b 0 then Ok (inl (bs "mod: division by zero"))
        else if float64.toInt huge b =? 0 then Panic
        else Ok (inr (sexpr.Int (Z.rem (float64.toInt huge a) (float64.toInt huge b))))
    | _ => Ok (inl (bs "mod: division by zero"))
    end
  else if op "<" then tf (chain float64.ge nums)
  else if op ">" then tf (chain float64.le nums)
  else if op "<=" then tf (chain float64.gt nums)
  else if op ">=" then tf (chain float64.lt nums)
  else if op "=" then tf (chain (fun a b => negb (float64.eq a b)) nums)
  else if op "!=" then tf (match nums with a :: b :: _ => negb (float64.eq a b) | _ => false end)
  else if op "min" then b ← best float64.lt nums; num b
  else if op "max" then b ← best float64.gt nums; num b
  else if op "abs" then
    match nums with
    | [] => Ok (inl (bs "abs: expected one argument"))
    | n :: _ => if anyFloat then Ok (inr (sexpr.Float (absF n))) else Ok (inr (sexpr.Int (float64.toInt huge (absF n))))
    end
  else Ok (inl (bs "unknown arithmetic op: " ++ name)).
End arith.

(** ** Evaluation *)

Section machine.
Context {H : Type} `{HF : HostFns H}.
Variable FormatE : Z → bytes.
Variable nan : Z.
Variable huge : Z → Z.

(** Evaluation in the machine's state: [inl] is an error. *)
Definition eval (A : Type) : Type := VM H → res (VM H * (bytes + A)).
Definition ret {A} (a : A) : eval A := fun m => Ok (m, inr a).
Definition fail {A} (msg : bytes) : eval A := fun m => Ok (m, inl msg).
Definition andThen {A B} (f : eval A) (k : A → eval B) : eval B :=
  fun m => '(m, r) ← f m; match r with inl e => Ok (m, inl e) | inr a => k a m end.

(** A row stops the evaluation that needed the value. *)
Definition onDone (f : eval EvalStep) (k : Expr → eval EvalStep) : eval EvalStep :=
  andThen f (fun s => match s with Done v => k v | YieldRow _ => ret s end).

Definition push (frs : list frame) : eval unit := fun m => Ok (mkVM (env m) (frs ++ stack m) (host m), inr tt).
Definition pushThen (frs : list frame) (k : eval EvalStep) : eval EvalStep := andThen (push frs) (fun _ => k).

Definition callHost (fuel : nat) (name : bytes) (args : list Expr) : eval EvalStep :=
  fun m => '(h, r) ← Call fuel (host m) name args; Ok (mkVM (env m) (stack m) h, r).

(** [processValue] on the machine's stack. *)
Definition process (v : Expr) (m : VM H) : VM H :=
  let '(st, en) := processValue v (stack m) (env m) in mkVM en st (host m).

(** [ev] and [evf] stand for [evalExpr] and [evalFully] below this call. *)
Section forms.
Variable fuel : nat.
Variables ev evf : Expr → eval EvalStep.

Fixpoint evalArgs (l : list Expr) (acc : list Expr) (k : list Expr → eval EvalStep) : eval EvalStep :=
  match l with
  | [] => k acc
  | e :: l' => onDone (evf e) (fun v => evalArgs l' (acc ++ [v]) k)
  end.

Fixpoint evalNumArgs (l : list Expr) (nums : list Z) (anyFloat : bool) (k : list Z → bool → eval EvalStep) : eval EvalStep :=
  match l with
  | [] => k nums anyFloat
  | e :: l' =>
      onDone (evf e) (fun v =>
        match sexprNumToF64 FormatE nan v with
        | inl msg => fail msg
        | inr n => evalNumArgs l' (nums ++ [n]) (anyFloat || match v with sexpr.Float _ => true | _ => false end) k
        end)
  end.

Definition evalArith (name : bytes) (items : list Expr) : eval EvalStep :=
  evalNumArgs (tail items) [] false (fun nums anyFloat m =>
    r ← arith nan huge name nums anyFloat;
    Ok (m, match r with inl msg => inl msg | inr v => inr (Done v) end)).

Fixpoint evalAnd (l : list Expr) (last_ : Expr) : eval EvalStep :=
  match l with
  | [] => ret (Done last_)
  | e :: l' => onDone (evf e) (fun v => if IsTruthy v then evalAnd l' v else ret (Done (sexpr.Bool false)))
  end.

Fixpoint evalOr (l : list Expr) : eval EvalStep :=
  match l with
  | [] => ret (Done (sexpr.Bool false))
  | e :: l' => onDone (evf e) (fun v => if IsTruthy v then ret (Done v) else evalOr l')
  end.

(** The body and the ranges of [scanner-iterate]. *)
Fixpoint iterateParts (l : list Expr) (ranges : option Expr) (body : list Expr) : bytes + (option Expr * list Expr) :=
  match l with
  | [] => inr (ranges, body)
  | it :: l' =>
      if isRangesMarker it then
        match ranges, l' with
        | Some _, _ => inl (bs "scanner-iterate: :ranges specified more than once")
        | None, [] => inl (bs "scanner-iterate: :ranges requires a value")
        | None, r :: l'' => iterateParts l'' (Some r) body
        end
      else iterateParts l' ranges (body ++ [it])
  end.

Fixpoint evalEach (l : list Expr) (acc : list Expr) (k : list Expr → eval EvalStep) : eval EvalStep :=
  match l with
  | [] => k acc
  | e :: l' => onDone (ev e) (fun v => evalEach l' (acc ++ [v]) k)
  end.

Definition startIterate (param : bytes) (body : list Expr) (it : Expr) : eval EvalStep :=
  match it with
  | sexpr.Void => ret (Done sexpr.Void)
  | _ =>
      let cond := sexpr.List [sexpr.Keyword (bs "set!"); sexpr.Symbol param; sexpr.List [sexpr.Keyword (bs "scanner-iterate-next"); it]] in
      pushThen [fkEval cond; fkWhile cond body 0] (ret (Done sexpr.Void))
  end.

Definition badParams : bytes := bs "scanner-iterate: expected (param) — non-empty list of symbols".

Definition evalScannerIterate (items : list Expr) : eval EvalStep :=
  match items with
  | _ :: se :: params :: ((_ :: _) as rest) =>
      let scannerExprs := match se with sexpr.List ((_ :: _) as l) => l | _ => [se] end in
      match params with
      | sexpr.List (sexpr.Symbol param :: _) =>
          match iterateParts rest None [] with
          | inl msg => fail msg
          | inr (_, []) => fail (bs "scanner-iterate: missing body")
          | inr (ranges, body) =>
              let scan rangesVal :=
                evalEach scannerExprs [] (fun vals =>
                  onDone (callHost fuel (bs "scanner-iterate-init") (vals ++ [rangesVal])) (startIterate param body)) in
              match ranges with
              | Some r => onDone (ev r) scan
              | None => scan (sexpr.List [])
              end
          end
      | _ => fail badParams
      end
  | _ => fail (bs "scanner-iterate: expected (scanner-iterate scanners (param) [:ranges r] body...+)")
  end.

(** The conditions of [ranges-create]; [None] starts a branch. *)
Definition headName (e : Expr) : bytes := match e with sexpr.Keyword s => s | sexpr.Symbol s => s | _ => [] end.

Definition opValue (op : Z) (e : Expr) (k : list (option opVal) → eval EvalStep) (flat : list (option opVal)) : eval EvalStep :=
  andThen (ev e) (fun s =>
    match s with
    | YieldRow _ => fail (bs "ranges-create: value expression yielded unexpectedly")
    | Done v => k (flat ++ [Some (mkOp op v)])
    end).

Fixpoint inValues (l : list Expr) (k : list (option opVal) → eval EvalStep) (flat : list (option opVal)) : eval EvalStep :=
  match l with
  | [] => k flat
  | e :: l' => opValue rangeOpIn e (inValues l' k) flat
  end.

Fixpoint walk (se : Expr) (k : list (option opVal) → eval EvalStep) (flat : list (option opVal)) : eval EvalStep :=
  match se with
  | sexpr.List (head :: l) =>
      let name := headName head in
      if bool_decide (name = bs "and") then
        (fix all (l : list Expr) (k : list (option opVal) → eval EvalStep) : list (option opVal) → eval EvalStep :=
           match l with [] => k | e :: l' => walk e (all l' k) end) l k flat
      else if bool_decide (name = bs "or") then
        (fix any (l : list Expr) (k : list (option opVal) → eval EvalStep) : list (option opVal) → eval EvalStep :=
           match l with [] => k | e :: l' => fun flat => walk e (any l' k) (flat ++ [None]) end) l k flat
      else if bool_decide (name = bs "in") then inValues l k flat
      else
        match rangeOpMap name, l with
        | Some op, e :: _ => opValue op e k flat
        | _, _ => k flat
        end
  | _ => k flat
  end.

Fixpoint branchesOf (flat : list (option opVal)) (cur : list opVal) : list (list opVal) :=
  match flat with
  | [] => [cur]
  | None :: flat' => cur :: branchesOf flat' []
  | Some o :: flat' => branchesOf flat' (cur ++ [o])
  end.

Definition evalRangesCreate (items : list Expr) : eval EvalStep :=
  walk (nth 1 items (sexpr.List [])) (fun flat => ret (Done (rangesOf (branchesOf flat [])))) [].

Fixpoint printAll (l : list Expr) : eval EvalStep :=
  match l with
  | [] => ret (Done sexpr.Void)
  | e :: l' => onDone (evf e) (fun _ => printAll l')
  end.

Definition assertMsg (items : list Expr) : bytes :=
  match items with _ :: _ :: sexpr.Str s :: _ => s | _ => bs "assertion failed" end.

Definition evalSpecialForm (name : bytes) (items : list Expr) : eval EvalStep :=
  let op s := bool_decide (name = bs s) in
  if op "begin" then
    match items with
    | _ :: e :: rest => pushThen (map fkEval rest) (ev e)
    | _ => ret (Done sexpr.Void)
    end
  else if op "when" then
    match items with
    | _ :: c :: body => pushThen [fkWhenTest body] (ev c)
    | _ => fail (bs "when: expected (when cond body...)")
    end
  else if op "if" then
    match items with
    | _ :: c :: th :: el => pushThen [fkIfTest [th] el] (ev c)
    | _ => fail (bs "if: expected (if cond then else...)")
    end
  else if op "set!" then
    match items with
    | _ :: sexpr.Symbol name :: e :: _ => pushThen [fkSetFrame name] (ev e)
    | _ => fail (bs "set!: expected (set! symbol value)")
    end
  else if op "print" then printAll (tail items)
  else if op "assert" then
    match items with
    | _ :: e :: _ => onDone (evf e) (fun v => if IsTruthy v then ret (Done sexpr.Void) else fail (assertMsg items))
    | _ => fail (bs "assert: expected (assert expr [msg])")
    end
  else if op "and" then evalAnd (tail items) (sexpr.Bool true)
  else if op "or" then evalOr (tail items)
  else if op "not" then
    match items with
    | _ :: e :: _ => onDone (evf e) (fun v => ret (Done (sexpr.Bool (negb (IsTruthy v)))))
    | _ => fail (bs "not: expected (not expr)")
    end
  else if op "scanner-iterate" then evalScannerIterate items
  else if op "ranges-create" then evalRangesCreate items
  else if op "while" then
    match items with
    | _ :: c :: body => pushThen [fkWhile c body 0] (ev c)
    | _ => fail (bs "while: expected (while cond body...)")
    end
  else if isArith name then evalArith name items
  else fail (bs "unknown special form: " ++ name).

Definition evalOne (expr : Expr) : eval EvalStep :=
  match expr with
  | sexpr.Symbol s =>
      fun m => match env m !! s with
               | Some v => ret (Done v) m
               | None => fail (bs "unbound: " ++ s) m
               end
  | sexpr.List [] => ret (Done sexpr.Void)
  | sexpr.List ((sexpr.Keyword name :: args) as e) =>
      if isSpecialForm name then evalSpecialForm name e
      else evalArgs args [] (fun vals => callHost fuel name vals)
  | sexpr.List (sexpr.Symbol s :: _) =>
      fail (bs "legacy scheme form rejected — programs are EDN vectors with keyword opcodes: [" ++ s ++ bs " ...]")
  | sexpr.List _ => fail (bs "cannot apply non-keyword as function")
  | e => ret (Done e)
  end.
End forms.

(** The frames above the depth [base] are run off, until one of them is not an
    expression. *)
Fixpoint fullyLoop (ev : Expr → eval EvalStep) (fuel : nat) (base : nat) (lastVal : Expr) : eval EvalStep :=
  match fuel with
  | O => fun _ => Diverge
  | S fuel' => fun m =>
      if Nat.ltb base (length (stack m)) then
        let m := process lastVal m in
        if Nat.leb (length (stack m)) base then ret (Done lastVal) m
        else
          match stack m with
          | fkEval e :: st => onDone (ev e) (fullyLoop ev fuel' base) (mkVM (env m) st (host m))
          | _ => ret (Done lastVal) m
          end
      else ret (Done lastVal) m
  end.

Definition evalFullyWith (ev : Expr → eval EvalStep) (fuel : nat) (expr : Expr) : eval EvalStep :=
  fun m => onDone (ev expr) (fullyLoop ev fuel (length (stack m))) m.

Fixpoint evalExpr (fuel : nat) (expr : Expr) : eval EvalStep :=
  match fuel with
  | O => fun _ => Diverge
  | S fuel' => evalOne fuel' (evalExpr fuel') (evalFullyWith (evalExpr fuel') fuel') expr
  end.

Definition evalFully (fuel : nat) (expr : Expr) : eval EvalStep := evalFullyWith (evalExpr fuel) fuel expr.

(** The loop of [EvalWithYield]: the body was pushed when the machine started. *)
Fixpoint runLoop (fuel : nat) : eval EvalStep :=
  match fuel with
  | O => fun _ => Diverge
  | S fuel' => fun m =>
      match stack m with
      | [] => ret (Done sexpr.Void) m
      | fkEval e :: st =>
          onDone (evalExpr fuel' e) (fun v m =>
            let m := process v m in
            match stack m with [] => ret (Done v) m | _ => runLoop fuel' m end) (mkVM (env m) st (host m))
      | _ => runLoop fuel' (process sexpr.Void m)
      end
  end.

(** [Done_] is the session's flag, [started] the state's. *)
Record VmSession : Type := mkSession { Program : Expr; vm : VM H; started : bool; Done_ : bool }.

Definition NewVmSession (program : Expr) (h : H) : VmSession := mkSession program (mkVM ∅ [] h) false false.

Definition EvalWithYield (fuel : nat) (program : Expr) (started : bool) : eval EvalStep :=
  if started then runLoop fuel else pushThen [fkEval program] (runLoop fuel).

(** [Eval]: a row is an error. *)
Definition Eval (fuel : nat) (program : Expr) (m : VM H) : res (VM H * (bytes + Expr)) :=
  '(m, r) ← EvalWithYield fuel program false (mkVM (env m) [] (host m));
  Ok (m, match r with inl e => inl e | inr (Done v) => inr v | inr (YieldRow _) => inl (bs "unexpected yield in batch eval") end).

(** The rows up to [maxRows], and whether more remain. A yielded value that is not a
    list is dropped, so the loop is bounded by the fuel. *)
Fixpoint batchLoop (fuel : nat) (efuel : nat) (s : VmSession) (maxRows : nat) (rows : list (list Expr))
    : res (VmSession * (bytes + (list (list Expr) * bool))) :=
  match fuel with
  | O => Diverge
  | S fuel' =>
      if Nat.ltb (length rows) maxRows then
        '(m, r) ← EvalWithYield efuel (Program s) (started s) (vm s);
        let s' := mkSession (Program s) m true (Done_ s) in
        match r with
        | inl e => Ok (s', inl e)
        | inr (YieldRow (sexpr.List l)) => batchLoop fuel' efuel s' maxRows (rows ++ [l])
        | inr (YieldRow _) => batchLoop fuel' efuel s' maxRows rows
        | inr (Done _) => Ok (mkSession (Program s) m true true, inr (rows, false))
        end
      else Ok (s, inr (rows, true))
  end.

Definition NextBatch (fuel efuel : nat) (s : VmSession) (maxRows : nat) : res (VmSession * (bytes + (list (list Expr) * bool))) :=
  if Done_ s || Nat.eqb maxRows 0 then Ok (s, inr ([], false)) else batchLoop fuel efuel s maxRows [].
End machine.

(** ** Printing programs *)

Section pretty.
Variable FormatE : Z → bytes.
Definition maxWidth : Z := 100.
Definition newline : bytes := [10].

(** What is written, and the column reached. *)
Fixpoint writeExpr (e : Expr) (indent : Z) : bytes * Z :=
  match e with
  | sexpr.List [] => (bs "()", indent + 2)
  | sexpr.List l =>
      let compact := String_ FormatE e in
      if indent + Z.of_nat (length compact) <=? maxWidth then (compact, indent + Z.of_nat (length compact))
      else
        let childIndent := indent + 2 in
        let '(out, col) :=
          (fix go (l : list Expr) (first : bool) (out : bytes) (col : Z) : bytes * Z :=
             match l with
             | [] => (out, col)
             | item :: l' =>
                 let sep := if first then [] else newline ++ replicate (Z.to_nat childIndent) 32 in
                 let '(b, col) := writeExpr item childIndent in
                 go l' false (out ++ sep ++ b) col
             end) l true (bs "(") (indent + 1) in
        (out ++ bs ")", col + 1)
  | _ => let s := String_ FormatE e in (s, indent + Z.of_nat (length s))
  end.

Definition WriteSchemePretty (p : Expr) : bytes := (writeExpr p 0).1.
End pretty.
