(* ===== verification/SchemeSpec.v ===== *)
(** * What the virtual machine does (go/internal/scheme/scheme.go)

    Batches of rows compose, a loop over an iterator of the host yields one row per
    value, fuel never changes a result, and where the machine departs from what its
    forms say. *)

From Stdlib Require Import String.
From S2P Require Import Prelude Sexpr Numfmt Ranges Float64 QueryStore Scheme.
Open Scope string_scope.
Open Scope list_scope.
Open Scope Z_scope.

(** ** Batches *)

Section batches.
Context {H : Type} `{HF : HostFns H}.
Variable FormatE : Z → bytes.
Variable nan : Z.
Variable huge : Z → Z.

Notation batch := (batchLoop FormatE nan huge).

Lemma batchLoop_S fuel ef (s : VmSession) n rows :
  batch (S fuel) ef s n rows =
  if Nat.ltb (length rows) n then
    '(m, r) ← EvalWithYield FormatE nan huge ef (Program s) (started s) (vm s);
    let s' := mkSession (Program s) m true (Done_ s) in
    match r with
    | inl e => Ok (s', inl e)
    | inr (YieldRow (sexpr.List l)) => batch fuel ef s' n (rows ++ [l])
    | inr (YieldRow _) => batch fuel ef s' n rows
    | inr (Done _) => Ok (mkSession (Program s) m true true, inr (rows, false))
    end
  else Ok (s, inr (rows, true)).
Proof. done. Qed.

(** Rows gathered before only come first. *)
Lemma batchLoop_shift fuel ef (s : VmSession) n pre rows :
  batch fuel ef s (length pre + n)%nat (pre ++ rows)
  = '(s', r) ← batch fuel ef s n rows; Ok (s', match r with inl e => inl e | inr (out, more) => inr (pre ++ out, more) end).
Proof.
  revert s rows. induction fuel as [|fuel IH]; intros s rows; cbn [batchLoop]; [done|]. rewrite length_app.
  replace (Nat.ltb (length pre + length rows) (length pre + n)) with (Nat.ltb (length rows) n).
  2:{ destruct (Nat.ltb_spec (length rows) n), (Nat.ltb_spec (length pre + length rows) (length pre + n)); lia || done. }
  destruct (Nat.ltb (length rows) n); [|done].
  destruct (EvalWithYield _ _ _ ef (Program s) (started s) (vm s)) as [[m [e|[v|v]]]| | |]; cbn [mbind res_bind]; try done.
  destruct v; try apply IH. rewrite <- app_assoc. apply IH.
Qed.

(** More fuel does no harm. *)
Lemma batchLoop_more fuel k ef (s : VmSession) n rows out : batch fuel ef s n rows = Ok out → batch (k + fuel)%nat ef s n rows = Ok out.
Proof.
  assert (∀ fuel s rows, batch fuel ef s n rows = Ok out → batch (S fuel) ef s n rows = Ok out) as Hstep.
  { clear. induction fuel as [|fuel IH]; intros s rows; [done|]. rewrite !(batchLoop_S _ ef s). destruct (Nat.ltb (length rows) n); [|done].
    destruct (EvalWithYield _ _ _ ef (Program s) (started s) (vm s)) as [[m [e|[v|v]]]| | |]; cbn [mbind res_bind]; try done.
    destruct v; apply IH. }
  intros E. induction k as [|k IH]; [done|]. cbn [Nat.add]. by apply Hstep.
Qed.

(** A loop may stop and go on. *)
Lemma batchLoop_resume fuel fuel' ef (s s1 : VmSession) a b rows r1 out :
  batch fuel ef s a rows = Ok (s1, inr (r1, true)) → batch fuel' ef s1 (a + b)%nat r1 = Ok out →
  batch (fuel + fuel')%nat ef s (a + b)%nat rows = Ok out.
Proof.
  intros E1 E2. revert s rows E1. induction fuel as [|fuel IH]; intros s rows; cbn [batchLoop Nat.add]; [done|].
  destruct (Nat.ltb_spec (length rows) a) as [Hlt|Hge].
  - rewrite (proj2 (Nat.ltb_lt _ _)) by lia.
    destruct (EvalWithYield _ _ _ ef (Program s) (started s) (vm s)) as [[m [e|[v|v]]]| | |]; cbn [mbind res_bind]; try done.
    destruct v; apply IH.
  - intros [= <- <-]. exact (batchLoop_more fuel' (S fuel) ef s (a + b)%nat rows out E2).
Qed.

Lemma batchLoop_full fuel ef (s s1 : VmSession) a rows r1 :
  batch fuel ef s a rows = Ok (s1, inr (r1, true)) → (length rows ≤ a)%nat → length r1 = a ∧ Done_ s1 = Done_ s.
Proof.
  revert s rows. induction fuel as [|fuel IH]; intros s rows; cbn [batchLoop]; [done|].
  destruct (Nat.ltb_spec (length rows) a) as [Hlt|Hge].
  - destruct (EvalWithYield _ _ _ ef (Program s) (started s) (vm s)) as [[m [e|[v|v]]]| | |]; cbn [mbind res_bind]; try done.
    intros E Hle. destruct v; apply IH in E; try done. rewrite length_app. cbn [length]. lia.
  - intros [= <- <-] Hle. split; [lia|done].
Qed.

Lemma NextBatch_resume fuel fuel' ef (s s1 : VmSession) a b r1 res :
  (0 < a)%nat → (0 < b)%nat → NextBatch FormatE nan huge fuel ef s a = Ok (s1, inr (r1, true)) → NextBatch FormatE nan huge fuel' ef s1 b = Ok res →
  NextBatch FormatE nan huge (fuel + fuel') ef s (a + b) = Ok (res.1, match res.2 with inl e => inl e | inr (r2, more) => inr (r1 ++ r2, more) end).
Proof.
  intros Ha Hb. unfold NextBatch. rewrite (proj2 (Nat.eqb_neq a 0)), (proj2 (Nat.eqb_neq b 0)), (proj2 (Nat.eqb_neq (a + b) 0)) by lia. rewrite !orb_false_r.
  destruct (Done_ s) eqn:Ed; [done|]. intros E1. destruct (batchLoop_full _ _ _ _ _ _ _ E1) as [L1 D1]; [cbn; lia|]. rewrite D1, Ed. intros E2.
  eapply batchLoop_resume; [exact E1|]. rewrite <- (app_nil_r r1), <- L1 at 1. rewrite batchLoop_shift, E2, res_bind_ret. by destruct res as [? [?|[? ?]]].
Qed.
End batches.

(** ** Loops over iterators *)

(** The query loop the compiler emits: every value of the iterator makes a row. *)
Definition rowForm (x : bytes) : Expr := sexpr.List [sexpr.Keyword (bs "result-row"); sexpr.Symbol x].
Definition iterateProgram (scanner : Z) (x : bytes) : Expr :=
  sexpr.List [sexpr.Keyword (bs "scanner-iterate"); sexpr.Resource scanner; sexpr.List [sexpr.Symbol x]; rowForm x].

Section iterate.
Context {H : Type} `{HF : HostFns H}.
Variable FormatE : Z → bytes.
Variable nan : Z.
Variable huge : Z → Z.
Variable it : Z.

(** The host's iterator [it] gives the values [vs] in turn. *)
Fixpoint gives (h : H) (vs : list Expr) : Prop :=
  match vs with
  | [] => True
  | v :: vs' => ∃ h', (∀ n, Call n h (bs "scanner-iterate-next") [sexpr.Resource it] = Ok (h', inr (Done v))) ∧ gives h' vs'
  end.

(** A row leaves the host alone. *)
Definition yieldsRows : Prop := ∀ n h args, Call n h (bs "result-row") args = Ok (h, inr (YieldRow (sexpr.List args))).

Definition nextCond (x : bytes) : Expr :=
  sexpr.List [sexpr.Keyword (bs "set!"); sexpr.Symbol x; sexpr.List [sexpr.Keyword (bs "scanner-iterate-next"); sexpr.Resource it]].

(** Equations of the machine, at the forms of the loop. *)
Notation run := (runLoop FormatE nan huge).
Notation evalE := (evalExpr FormatE nan huge).

Lemma run_eval f en e st h :
  run (S f) (mkVM en (fkEval e :: st) h)
  = onDone (evalE f e) (fun v m => let m := process v m in match stack m with [] => ret (Done v) m | _ => run f m end) (mkVM en st h).
Proof. done. Qed.

Lemma eval_leaf f e (m : VM H) :
  match e with sexpr.Symbol _ | sexpr.List _ => False | _ => True end → evalE (S f) e m = Ok (m, inr (Done e)).
Proof. by destruct e. Qed.

(** A leaf as an argument leaves the stack as it is. *)
Lemma fully_leaf f e (m : VM H) v : evalE (S f) e m = Ok (m, inr (Done v)) → evalFullyWith (evalE (S f)) (S f) e m = Ok (m, inr (Done v)).
Proof.
  intros E. unfold evalFullyWith, onDone, andThen. rewrite E, res_bind_ret. cbv beta iota. cbn [fullyLoop]. by rewrite Nat.ltb_irrefl.
Qed.

Lemma eval_call1 f name a (m : VM H) v :
  isSpecialForm name = false → evalE (S f) a m = Ok (m, inr (Done v)) →
  evalE (S (S f)) (sexpr.List [sexpr.Keyword name; a]) m = callHost (S f) name [v] m.
Proof.
  intros Hs E. change (evalE (S (S f))) with (evalOne FormatE nan huge (S f) (evalE (S f)) (evalFullyWith (evalE (S f)) (S f))).
  cbn [evalOne]. rewrite Hs. cbn [evalArgs]. unfold onDone, andThen. by rewrite (fully_leaf f a m v E).
Qed.

Lemma eval_set f x e (m : VM H) :
  evalE (S f) (sexpr.List [sexpr.Keyword (bs "set!"); sexpr.Symbol x; e]) m = evalE f e (mkVM (env m) (fkSetFrame x :: stack m) (host m)).
Proof. done. Qed.

(** The condition of the loop: the next value is bound, and decides. *)
Lemma cond_step k x v en st h h' :
  (∀ n, Call n h (bs "scanner-iterate-next") [sexpr.Resource it] = Ok (h', inr (Done v))) →
  evalE (3 + k) (nextCond x) (mkVM en st h) = Ok (mkVM en (fkSetFrame x :: st) h', inr (Done v)).
Proof.
  intros Hn. cbn [Nat.add]. unfold nextCond. rewrite eval_set. cbn [env stack host].
  rewrite (eval_call1 _ _ _ _ (sexpr.Resource it)) by (by vm_compute || by apply eval_leaf). unfold callHost. cbn [host]. by rewrite Hn.
Qed.

(** The state between rows. *)
Definition atLoop (x : bytes) (en : Environment) (h : H) : VM H := mkVM en [fkWhile (nextCond x) [rowForm x] 1] h.

(** From one row to the next, or to the end. *)
Lemma next_row k x v en h h' :
  yieldsRows → (∀ n, Call n h (bs "scanner-iterate-next") [sexpr.Resource it] = Ok (h', inr (Done v))) →
  run (6 + k) (mkVM en [fkEval (nextCond x); fkWhile (nextCond x) [rowForm x] 0] h)
  = if IsTruthy v then Ok (atLoop x (<[x := v]> en) h', inr (YieldRow (sexpr.List [v]))) else Ok (mkVM (<[x := v]> en) [] h', inr (Done v)).
Proof.
  intros Hy Hn. change (6 + k)%nat with (S (3 + S (S k))). rewrite run_eval. unfold onDone at 1, andThen at 1. rewrite (cond_step _ x v en _ h h' Hn), res_bind_ret. cbv beta iota zeta.
  unfold process. cbn [stack env processValue host]. destruct (IsTruthy v) eqn:Et; [|done]. cbn [app map].
  change (3 + S (S k))%nat with (S (S (S (S (S k))))). rewrite run_eval. unfold onDone, andThen, rowForm.
  rewrite (eval_call1 _ _ _ _ v); [|by vm_compute|].
  - unfold callHost. cbn [host]. by rewrite Hy.
  - cbn [evalExpr evalOne env]. by rewrite (lookup_insert_eq (M := gmap bytes) en x v).
Qed.

Lemma resume_loop k x en h : run (S k) (atLoop x en h) = run k (mkVM en [fkEval (nextCond x); fkWhile (nextCond x) [rowForm x] 0] h).
Proof. done. Qed.

(** The rows of the loop: the values before the first that is false or void. *)
Fixpoint rowsOf (vs : list Expr) : list (list Expr) :=
  match vs with [] => [] | v :: vs' => if IsTruthy v then [v] :: rowsOf vs' else [] end.

(** The session will read the iterator next. *)
Definition aboutToRead (k : nat) (x : bytes) (s : VmSession) (h : H) : Prop :=
  ∃ en, EvalWithYield FormatE nan huge (7 + k) (Program s) (started s) (vm s)
        = run (6 + k) (mkVM en [fkEval (nextCond x); fkWhile (nextCond x) [rowForm x] 0] h).

Lemma resumed_reads k x prog en h : aboutToRead k x (mkSession prog (atLoop x en h) true false) h.
Proof. by exists en. Qed.

Lemma started_reads k x scanner h h0 :
  (∀ n, Call n h (bs "scanner-iterate-init") [sexpr.Resource scanner; sexpr.List []] = Ok (h0, inr (Done (sexpr.Resource it)))) →
  aboutToRead k x (NewVmSession (iterateProgram scanner x) h) h0.
Proof.
  intros Hi. exists ∅. change (run (S (6 + k)) (mkVM ∅ [fkEval (iterateProgram scanner x)] h)
    = run (6 + k) (mkVM ∅ [fkEval (nextCond x); fkWhile (nextCond x) [rowForm x] 0] h0)). rewrite run_eval.
  assert (evalE (6 + k) (iterateProgram scanner x) (mkVM ∅ [] h)
    = Ok (mkVM ∅ [fkEval (nextCond x); fkWhile (nextCond x) [rowForm x] 0] h0, inr (Done sexpr.Void))) as E.
  { change (6 + k)%nat with (S (S (4 + k))).
    change (evalE (S (S (4 + k))) (iterateProgram scanner x)) with
      (evalEach (evalE (S (4 + k))) [sexpr.Resource scanner] [] (fun vals =>
         onDone (callHost (S (4 + k)) (bs "scanner-iterate-init") (vals ++ [sexpr.List []])) (startIterate x [rowForm x]))).
    cbn [evalEach]. unfold onDone, andThen. rewrite eval_leaf, res_bind_ret by done. cbv beta iota. unfold callHost. cbn [host app].
    by rewrite Hi, res_bind_ret. }
  unfold onDone, andThen. by rewrite E, res_bind_ret.
Qed.

Lemma loop_rows k x vs fuel s h max_ rows :
  yieldsRows → gives h vs → Exists (fun v => IsTruthy v = false) vs → aboutToRead k x s h → Done_ s = false →
  (length vs < fuel)%nat → (length rows + length (rowsOf vs) < max_)%nat →
  ∃ s', batchLoop FormatE nan huge fuel (7 + k) s max_ rows = Ok (s', inr (rows ++ rowsOf vs, false)) ∧ Done_ s' = true.
Proof.
  intros Hy. revert fuel s h rows. induction vs as [|v vs IH]; intros fuel s h rows Hg He [en Hm] Hs Hf Hmax; [by apply Exists_nil in He|].
  destruct Hg as (h'&Hn&Hg). destruct fuel as [|fuel]; [cbn in Hf; lia|]. rewrite batchLoop_S, (proj2 (Nat.ltb_lt _ _)) by lia.
  rewrite Hm, (next_row k x v en h h' Hy Hn).
  cbn [rowsOf] in Hmax |- *. destruct (IsTruthy v) eqn:Et; rewrite res_bind_ret; cbv beta iota zeta.
  - apply Exists_cons in He as [He|He]; [congruence|]. replace (rows ++ [v] :: rowsOf vs) with ((rows ++ [[v]]) ++ rowsOf vs) by (by rewrite <- app_assoc).
    rewrite Hs. eapply IH; [exact Hg|exact He|apply resumed_reads|done|cbn in Hf; lia|]. rewrite length_app. cbn [length] in *. lia.
  - eexists. split; [by rewrite app_nil_r|done].
Qed.
End iterate.

(** ** Fuel *)

Lemma Expr_nested_ind (P : Expr → Prop) :
  (∀ e, listItems e = [] → P e) → (∀ l, Forall P l → P (sexpr.List l)) → ∀ e, P e.
Proof.
  intros Hleaf Hlist. fix IH 1. intros [n|f|s|b| |b|s|s|l|r]; try by apply Hleaf.
  apply Hlist. induction l as [|e l IHl]; constructor; [apply IH|exact IHl].
Qed.

(** The result of less fuel: none, or the same. *)
Definition leRes {A} (r r' : res A) : Prop := r = Diverge ∨ r = r'.

(** A host that more fuel does not change. *)
Class HostMono (H : Type) `{HF : HostFns H} : Prop :=
  host_mono n n' (h : H) name args : (n ≤ n')%nat → leRes (Call n h name args) (Call n' h name args).

Section fuel.
Context {H : Type} `{HF : HostFns H} `{HM : !HostMono H}.
Variable FormatE : Z → bytes.
Variable nan : Z.
Variable huge : Z → Z.

Definition le {A} (f g : eval (H := H) A) : Prop := ∀ m, leRes (f m) (g m).

Lemma le_refl {A} (f : eval A) : le f f.
Proof. intros m. by right. Qed.

Lemma andThen_le {A B} (f f' : eval (H := H) A) (k k' : A → eval B) : le f f' → (∀ a, le (k a) (k' a)) → le (andThen f k) (andThen f' k').
Proof.
  intros Hf Hk m. unfold andThen. destruct (Hf m) as [->| ->]; [by left|]. destruct (f' m) as [[m' [e|a]]| | |]; [by right|apply Hk|by right..].
Qed.

Lemma onDone_le (f f' : eval EvalStep) k k' : le f f' → (∀ v, le (k v) (k' v)) → le (onDone f k) (onDone f' k').
Proof. intros Hf Hk. apply andThen_le; [done|]. intros [v|v]; [apply Hk|apply le_refl]. Qed.

Lemma pushThen_le frs (k k' : eval EvalStep) : le k k' → le (pushThen frs k) (pushThen frs k').
Proof. intros Hk. apply andThen_le; [apply le_refl|done]. Qed.

Lemma callHost_le n n' name args : (n ≤ n')%nat → le (callHost n name args) (callHost (H := H) n' name args).
Proof. intros Hn m. unfold callHost. destruct (host_mono n n' (host m) name args Hn) as [->| ->]; [by left|by right]. Qed.
End fuel.

#[export] Hint Resolve le_refl onDone_le pushThen_le callHost_le : scheme_le.

Section forms_fuel.
Context {H : Type} `{HF : HostFns H} `{HM : !HostMono H}.
Variable FormatE : Z → bytes.
Variable nan : Z.
Variable huge : Z → Z.
Variables (n n' : nat) (Hn : (n ≤ n')%nat).
Variables (ev ev' evf evf' : Expr → eval (H := H) EvalStep).
Hypothesis Hev : ∀ e, le (ev e) (ev' e).
Hypothesis Hevf : ∀ e, le (evf e) (evf' e).

Lemma evalArgs_le l acc k k' : (∀ vs, le (k vs) (k' vs)) → le (evalArgs evf l acc k) (evalArgs evf' l acc k').
Proof. revert acc. induction l as [|e l IH]; intros acc Hk; cbn [evalArgs]; auto with scheme_le. Qed.

Lemma evalEach_le l acc k k' : (∀ vs, le (k vs) (k' vs)) → le (evalEach ev l acc k) (evalEach ev' l acc k').
Proof. revert acc. induction l as [|e l IH]; intros acc Hk; cbn [evalEach]; auto with scheme_le. Qed.

Lemma evalNumArgs_le l nums fl k k' : (∀ ns b, le (k ns b) (k' ns b)) → le (evalNumArgs FormatE nan evf l nums fl k) (evalNumArgs FormatE nan evf' l nums fl k').
Proof.
  revert nums fl. induction l as [|e l IH]; intros nums fl Hk; cbn [evalNumArgs]; [auto|]. apply onDone_le; [done|]. intros v.
  destruct (sexprNumToF64 FormatE nan v); auto with scheme_le.
Qed.

Lemma evalAnd_le l v : le (evalAnd evf l v) (evalAnd evf' l v).
Proof. revert v. induction l as [|e l IH]; intros v; cbn [evalAnd]; [apply le_refl|]. apply onDone_le; [done|]. intros w. destruct (IsTruthy w); auto with scheme_le. Qed.

Lemma evalOr_le l : le (evalOr evf l) (evalOr evf' l).
Proof. induction l as [|e l IH]; cbn [evalOr]; [apply le_refl|]. apply onDone_le; [done|]. intros w. destruct (IsTruthy w); auto with scheme_le. Qed.

Lemma printAll_le l : le (printAll evf l) (printAll evf' l).
Proof. induction l as [|e l IH]; cbn [printAll]; auto with scheme_le. Qed.

Lemma opValue_le op e k k' flat : (∀ fl, le (k fl) (k' fl)) → le (opValue ev op e k flat) (opValue ev' op e k' flat).
Proof. intros Hk. apply andThen_le; [done|]. intros [v|v]; [apply Hk|apply le_refl]. Qed.

Lemma inValues_le l k k' flat : (∀ fl, le (k fl) (k' fl)) → le (inValues ev l k flat) (inValues ev' l k' flat).
Proof. intros Hk. revert flat. induction l as [|e l IH]; intros flat; cbn [inValues]; [apply Hk|]. by apply opValue_le. Qed.

Lemma walk_le se k k' flat : (∀ fl, le (k fl) (k' fl)) → le (walk ev se k flat) (walk ev' se k' flat).
Proof.
  revert k k' flat. induction se as [se Hse|l IH] using Expr_nested_ind; intros k k' flat Hk.
  { destruct se as [| | | | | | | |[|e l]|]; try apply Hk. done. }
  destruct l as [|head l]; cbn [walk]; [apply Hk|]. apply Forall_cons in IH as [_ IH].
  case_bool_decide; [|case_bool_decide; [|case_bool_decide; [by apply inValues_le|]]].
  - revert k k' flat Hk. induction IH as [|e l He Hl IHl]; intros k k' flat Hk; [apply Hk|]. apply He. intros fl. by apply IHl.
  - revert k k' flat Hk. induction IH as [|e l He Hl IHl]; intros k k' flat Hk; [apply Hk|]. apply He. intros fl. by apply IHl.
  - destruct (rangeOpMap _); [|apply Hk]. destruct l; [apply Hk|by apply opValue_le].
Qed.

Lemma evalScannerIterate_le items : le (evalScannerIterate n ev items) (evalScannerIterate n' ev' items).
Proof.
  unfold evalScannerIterate. destruct items as [|? [|se [|params [|r rest]]]]; try apply le_refl.
  destruct params as [| | | | | | | |[|[] ?]|]; try apply le_refl. destruct (iterateParts _ _ _) as [|[ranges [|b body]]]; try apply le_refl.
  assert (∀ vals rv, le (onDone (callHost n (bs "scanner-iterate-init") (vals ++ [rv])) (startIterate s (b :: body)))
    (onDone (callHost n' (bs "scanner-iterate-init") (vals ++ [rv])) (startIterate s (b :: body)))) as Hinit by auto with scheme_le.
  destruct ranges; [apply onDone_le; [done|]; intros v|]; apply evalEach_le; intros vs; apply Hinit.
Qed.

Lemma evalSpecialForm_le name items : le (evalSpecialForm FormatE nan huge n ev evf name items) (evalSpecialForm FormatE nan huge n' ev' evf' name items).
Proof.
  unfold evalSpecialForm. repeat case_match; auto using printAll_le, evalAnd_le, evalOr_le, evalScannerIterate_le with scheme_le.
  - apply walk_le. intros fl. apply le_refl.
  - apply evalNumArgs_le. intros ns b. apply le_refl.
Qed.

Lemma evalOne_le e : le (evalOne FormatE nan huge n ev evf e) (evalOne FormatE nan huge n' ev' evf' e).
Proof.
  destruct e as [| | | | | |s| |[|[] l]|]; try apply le_refl. cbn [evalOne]. destruct (isSpecialForm s); [apply evalSpecialForm_le|].
  apply evalArgs_le. intros vs. by apply callHost_le.
Qed.
End forms_fuel.

Section machine_fuel.
Context {H : Type} `{HF : HostFns H} `{HM : !HostMono H}.
Variable FormatE : Z → bytes.
Variable nan : Z.
Variable huge : Z → Z.

Lemma fullyLoop_le (ev ev' : Expr → eval (H := H) EvalStep) n n' base v :
  (∀ e, le (ev e) (ev' e)) → (n ≤ n')%nat → le (fullyLoop ev n base v) (fullyLoop ev' n' base v).
Proof.
  intros Hev. revert n' v. induction n as [|n IH]; intros [|n'] v Hn m; try (by left); [lia|]. cbn [fullyLoop].
  destruct (Nat.ltb _ _); [|by right]. destruct (Nat.leb _ _); [by right|]. destruct (stack _) as [|[] st]; try by right.
  apply onDone_le; [apply Hev|]. intros w. apply IH. lia.
Qed.

Lemma evalExpr_le n n' e : (n ≤ n')%nat → le (evalExpr FormatE nan huge n e) (evalExpr FormatE nan huge n' e).
Proof.
  revert n' e. induction n as [|n IH]; intros [|n'] e Hn; try (by left); [lia|]. cbn [evalExpr]. apply evalOne_le; [lia|intros e'; apply IH; lia|].
  intros e' m. unfold evalFullyWith. apply onDone_le; [apply IH; lia|]. intros v. apply fullyLoop_le; [|lia]. intros e0. apply IH. lia.
Qed.

Lemma runLoop_le n n' : (n ≤ n')%nat → le (runLoop FormatE nan huge n) (runLoop (H := H) FormatE nan huge n').
Proof.
  revert n'. induction n as [|n IH]; intros [|n'] Hn m; try (by left); [lia|]. cbn [runLoop].
  destruct (stack m) as [|[] st]; try (apply IH; lia); [by right|]. apply onDone_le; [apply evalExpr_le; lia|]. intros v m'.
  destruct (stack _); [by right|]. apply IH. lia.
Qed.

Lemma EvalWithYield_le n n' p b : (n ≤ n')%nat → le (EvalWithYield FormatE nan huge n p b) (EvalWithYield (H := H) FormatE nan huge n' p b).
Proof. intros Hn. unfold EvalWithYield. destruct b; [by apply runLoop_le|]. by apply pushThen_le, runLoop_le. Qed.

Lemma batchLoop_le f f' n n' s maxRows rows :
  (f ≤ f')%nat → (n ≤ n')%nat → leRes (batchLoop FormatE nan huge f n s maxRows rows) (batchLoop (H := H) FormatE nan huge f' n' s maxRows rows).
Proof.
  revert f' s rows. induction f as [|f IH]; intros [|f'] s rows Hf Hn; try (by left); [lia|]. rewrite !batchLoop_S.
  destruct (Nat.ltb _ _); [|by right]. destruct (EvalWithYield_le n n' (Program s) (started s) Hn (vm s)) as [->| ->]; [by left|].
  destruct (EvalWithYield _ _ _ n' _ _ _) as [[m [e|[v|v]]]| | |]; try by right. rewrite !res_bind_ret. cbv beta iota zeta. destruct v; apply IH; lia.
Qed.
End machine_fuel.

(** ** A host for the examples *)

(** An iterator over a list; rows are yielded, and nothing else is known. *)
#[export] Instance listHost : HostFns (list Expr) := fun _ h name args =>
  if bool_decide (name = bs "scanner-iterate-init") then Ok (h, inr (Done (sexpr.Resource 0)))
  else if bool_decide (name = bs "scanner-iterate-next") then
    match h with [] => Ok ([], inr (Done sexpr.Void)) | v :: h' => Ok (h', inr (Done v)) end
  else if bool_decide (name = bs "result-row") then Ok (h, inr (YieldRow (sexpr.List args)))
  else Ok (h, inl (bs "unknown host function: " ++ name)).

#[export] Instance listHost_mono : HostMono (list Expr).
Proof. by right. Qed.

Lemma listHost_gives h : gives 0 h (h ++ [sexpr.Void]).
Proof. induction h as [|v h IH]; cbn [app gives]; [by exists []|by exists h]. Qed.

(** ** Properties *)

(** Batches compose: asking a session for [a] rows and then for [b] more gives, row by
    row, what asking for [a + b] at once gives, with the same session afterwards and
    the same answer whether more remain; an error in the second batch is the error of
    the whole. *)
Theorem batches_compose {H} `{HF : HostFns H} FormatE nan huge fuel fuel' ef (s s1 : VmSession) a b r1 r :
  (0 < a)%nat → (0 < b)%nat →
  NextBatch FormatE nan huge fuel ef s a = Ok (s1, inr (r1, true)) → NextBatch FormatE nan huge fuel' ef s1 b = Ok r →
  NextBatch FormatE nan huge (fuel + fuel') ef s (a + b) = Ok (r.1, match r.2 with inl e => inl e | inr (r2, more) => inr (r1 ++ r2, more) end).
Proof. apply NextBatch_resume. Qed.

Definition sampleSession (vs : list Expr) : VmSession := NewVmSession (iterateProgram 7 (bs "x")) vs.

Lemma batches_compose_witness :
  ∃ s', NextBatch (fun _ => []) 0 (fun _ => 0) (4 + 4) 9 (sampleSession [sexpr.Int 1; sexpr.Int 2; sexpr.Int 3]) (1 + 4)
        = Ok (s', inr ([[sexpr.Int 1]; [sexpr.Int 2]; [sexpr.Int 3]], false)).
Proof.
  assert (∃ s1, NextBatch (fun _ => []) 0 (fun _ => 0) 4 9 (sampleSession [sexpr.Int 1; sexpr.Int 2; sexpr.Int 3]) 1 = Ok (s1, inr ([[sexpr.Int 1]], true))
    ∧ ∃ s2, NextBatch (fun _ => []) 0 (fun _ => 0) 4 9 s1 4 = Ok (s2, inr ([[sexpr.Int 2]; [sexpr.Int 3]], false))) as (s1&E1&s2&E2).
  { eexists. split; [vm_compute; reflexivity|]. eexists. vm_compute. reflexivity. }
  exists s2. apply (batches_compose (fun _ => []) 0 (fun _ => 0) 4 4 9 (sampleSession [sexpr.Int 1; sexpr.Int 2; sexpr.Int 3]) s1 1 4 [[sexpr.Int 1]]
    (s2, inr ([[sexpr.Int 2]; [sexpr.Int 3]], false))); [lia|lia|exact E1|exact E2].
Defined.

(** The loop the compiler emits yields the values of its iterator: whatever the host,
    when its iterator gives a sequence of values that ends in a false or void one, the
    session's rows are those values, one each and in order, up to the first that is
    false or void, and then it is done. A false value inside the sequence ends it
    early. *)
Theorem iterate_yields_values {H} `{HF : HostFns H} FormatE nan huge k fuel scanner x it (h h0 : H) vs maxRows :
  yieldsRows → (∀ n, Call n h (bs "scanner-iterate-init") [sexpr.Resource scanner; sexpr.List []] = Ok (h0, inr (Done (sexpr.Resource it)))) →
  gives it h0 vs → Exists (fun v => IsTruthy v = false) vs → (length vs < fuel)%nat → (length (rowsOf vs) < maxRows)%nat →
  ∃ s', NextBatch FormatE nan huge fuel (7 + k) (NewVmSession (iterateProgram scanner x) h) maxRows = Ok (s', inr (rowsOf vs, false)) ∧ Done_ s' = true.
Proof.
  intros Hy Hi Hg He Hf Hm. unfold NextBatch. rewrite (proj2 (Nat.eqb_neq maxRows 0)) by lia. cbn [NewVmSession Done_ orb].
  by apply (loop_rows FormatE nan huge it k x vs fuel (NewVmSession (iterateProgram scanner x) h) h0 maxRows []); [..|apply started_reads| | |].
Qed.

Lemma iterate_yields_values_witness :
  ∃ s', NextBatch (fun _ => []) 0 (fun _ => 0) 5 7 (sampleSession [sexpr.Int 1; sexpr.Bool false; sexpr.Int 3]) 10 = Ok (s', inr ([[sexpr.Int 1]], false)) ∧ Done_ s' = true.
Proof.
  apply (iterate_yields_values (fun _ => []) 0 (fun _ => 0) 0 5 7 (bs "x") 0 [sexpr.Int 1; sexpr.Bool false; sexpr.Int 3] [sexpr.Int 1; sexpr.Bool false; sexpr.Int 3]
    ([sexpr.Int 1; sexpr.Bool false; sexpr.Int 3] ++ [sexpr.Void]) 10).
  - done.
  - done.
  - apply listHost_gives.
  - by apply Exists_cons_tl, Exists_cons_hd.
  - cbn. lia.
  - cbn. lia.
Defined.

(** Fuel does not change what a session gives: for a host whose own answers do not
    depend on fuel, a batch that is returned is the batch that any larger fuel
    returns. *)
Theorem fuel_immaterial {H} `{HF : HostFns H} `{HM : !HostMono H} FormatE nan huge f f' n n' (s : VmSession) maxRows r :
  (f ≤ f')%nat → (n ≤ n')%nat → NextBatch FormatE nan huge f n s maxRows = Ok r → NextBatch FormatE nan huge f' n' s maxRows = Ok r.
Proof.
  intros Hf Hn. unfold NextBatch. destruct (_ || _); [done|].
  destruct (batchLoop_le FormatE nan huge f f' n n' s maxRows [] Hf Hn) as [->| ->]; done.
Qed.

Lemma fuel_immaterial_witness :
  ∃ r, NextBatch (fun _ => []) 0 (fun _ => 0) 1000 2000 (sampleSession [sexpr.Int 1; sexpr.Int 2]) 10 = Ok r.
Proof.
  eexists. apply (fuel_immaterial (fun _ => []) 0 (fun _ => 0) 4 1000 9 2000); [lia|lia|]. vm_compute. reflexivity.
Defined.

(** An assignment nested in an argument decides the form around it: [(if (not c) a b)]
    takes [b] when [c] is a number, and takes [a] when [c] is an assignment of that
    number, because the value of the assignment is met by the frame of the [if] as
    well. *)
Theorem nested_set_wrong_branch {H} `{HF : HostFns H} FormatE nan huge k (h : H) x n a b :
  let branch c := match Eval FormatE nan huge (10 + k) (sexpr.List [sexpr.Keyword (bs "if"); sexpr.List [sexpr.Keyword (bs "not"); c]; sexpr.Int a; sexpr.Int b]) (mkVM ∅ [] h)
                  with Ok (_, r) => Some r | _ => None end in
  branch (sexpr.Int n) = Some (inr (sexpr.Int b))
  ∧ branch (sexpr.List [sexpr.Keyword (bs "set!"); sexpr.Symbol x; sexpr.Int n]) = Some (inr (sexpr.Int a)).
Proof. done. Qed.
