(* ===== verification/HostFns.v ===== *)
(** * The host functions of queries (go/internal/query/hostfns.go)

    The engine below the queries as an interface, the scanners that programs open,
    the leapfrog convergence of several scanners with and without ranges, and the
    dispatch of the functions a program may call. Scanners are shared: a program and
    an iterator name the same ones, so an iterator holds places in the list of
    scanners and every move goes through that list. *)

From Stdlib Require Import String.
From S2P Require Import Prelude Sexpr Keys Cursors Numfmt Txw QueryStore Ranges Float64 Scanner Scheme.
Open Scope string_scope.
Open Scope list_scope.
Open Scope Z_scope.

(** ** The engine *)

(** [EngineOps]. An operation that may read pages or write gives the engine back; an
    error is its message. The fuel bounds scans. *)
Class EngineOps (E C : Type) : Type := {
  OpenCursor : nat → E → Z → bytes → bool → res (C * E);
  LookupAttr : E → bytes → option Z;
  AttrName : E → Z → bytes;
  ValueTypeFor : E → Z → option Z;
  IsUniqueAttr : E → bytes → bool;
  LookupEntity : nat → E → bytes → Expr → res (option Z * E);
  LookupValue : nat → E → Z → bytes → res (option Expr * E);
  Symtab : E → SymTab;
  AllocateTxDeferred : E → res (Z * E);
  AllocateTx : E → res (Z * E);
  AllocateInPartition : E → Z → res (Z * E);
  IsUniqueByID : E → Z → bool;
  BatchLookupAvet : nat → E → list bytes → res (list Z * E);
  HasDatomW : nat → E → Z → Z → TxWSlot → res (bool * E);
  SaveBatchEdn : nat → E → list TxWOp → Z → res E;
  RetractBatch : E → list TxWOp → Z → res E;
  DeclareAttrFromSQL : E → bytes → bytes → bool → bool → Z → res (option bytes * E);
  SaveWithT : nat → E → Z → bytes → Expr → Z → Z → res (option bytes * E);
  SaveManyWithT : nat → E → bytes → list (Z * Expr) → Z → Z → res (option bytes * E);
  Retract : E → Z → bytes → Expr → Z → Z → res (option bytes * E);
  DeclarePartition : E → bytes → Z → res (Z * E);
}.

(** ** Ranges *)

Definition specOf (il : list Expr) : option ByteRangeSpec :=
  match il with
  | [lo; hi; sexpr.Int flags] =>
      let bound e := match e with sexpr.Bytes b => Some b | _ => None end in
      Some (mkSpec (bound lo) (bound hi) (i32 flags))
  | _ => None
  end.

Definition parseRanges (e : Expr) : list ByteRangeSpec :=
  omap (fun item => match item with sexpr.List il => specOf il | _ => None end) (listItems e).

(** The first spec that is impossible answers for the rest. *)
Fixpoint valueInSpecsLoop (cur : bytes) (specs : list ByteRangeSpec) : bool :=
  match specs with
  | [] => false
  | s :: specs' => if Flags s =? -1 then false else if inSpec cur s then true else valueInSpecsLoop cur specs'
  end.

Definition valueInSpecsBytes (cur : bytes) (specs : list ByteRangeSpec) : bool :=
  match specs with [] => true | _ => if isImpossible specs then false else valueInSpecsLoop cur specs end.

(** ** Convergence *)

Section leap.
Context {C : Type} `{HC : Cursor C}.

(** The scanners a program has opened, by resource. *)
Abbreviation scanners := (list (V2Scanner C)).

Definition scannerAt (scs : scanners) (id : nat) : res (V2Scanner C) := match scs !! id with Some sc => Ok sc | None => Panic end.

Definition applyRanges (scs : scanners) (ids : list nat) (specs : list ByteRangeSpec) : res bool :=
  match specs with
  | [] => Ok true
  | _ =>
      if isImpossible specs then Ok false
      else
        match ids with
        | [] => Ok false
        | id :: _ =>
            sc ← scannerAt scs id;
            o ← CurrentValueBytes sc;
            Ok (match o with Some cur => valueInSpecsBytes cur specs | None => false end)
        end
  end.

(** The greatest current value, whether all agree, and the places without one. *)
Record survey : Type := mkSurvey { maxVal : option Expr; allEqual : bool; atEnds : list nat }.

Definition surveyValue (s : survey) (i : nat) (o : option Expr) : survey :=
  match o with
  | Some v =>
      match maxVal s with
      | None => mkSurvey (Some v) (allEqual s) (atEnds s)
      | Some mx => if cmpValueS v mx =? 0 then s else mkSurvey (if cmpValueS v mx >? 0 then Some v else Some mx) false (atEnds s)
      end
  | None => mkSurvey (maxVal s) false (atEnds s ++ [i])
  end.

Fixpoint surveyLoop (scs : scanners) (ids : list nat) (i : nat) (s : survey) : res survey :=
  match ids with
  | [] => Ok s
  | id :: ids' =>
      sc ← scannerAt scs id;
      o ← ExtractCurrent sc;
      surveyLoop scs ids' (S i) (surveyValue s i o)
  end.

(** The scanners behind are moved up; [None] when one runs out. *)
Fixpoint catchUp (fuel : nat) (scs : scanners) (ids : list nat) (i : nat) (mx : Expr) (ends : list nat) : res (bool * scanners) :=
  match ids with
  | [] => Ok (true, scs)
  | id :: ids' =>
      sc ← scannerAt scs id;
      cv ← ExtractCurrent sc;
      let behind := match cv with Some v => cmpValueS v mx <? 0 | None => false end in
      if behind || bool_decide (i ∈ ends) then
        sc ← SeekToValue fuel sc mx;
        let scs := <[id := sc]> scs in
        if AtEnd sc then Ok (false, scs) else catchUp fuel scs ids' (S i) mx ends
      else catchUp fuel scs ids' (S i) mx ends
  end.

Fixpoint leapLoop (fuel : nat) (iters : nat) (scs : scanners) (ids : list nat) : res (bool * scanners) :=
  match iters with
  | O => Ok (false, scs)
  | S iters' =>
      s ← surveyLoop scs ids 0 (mkSurvey None true []);
      if allEqual s then Ok (true, scs)
      else
        match maxVal s with
        | None => Ok (false, scs)
        | Some mx =>
            '(ok, scs) ← catchUp fuel scs ids 0 mx (atEnds s);
            if negb ok then Ok (false, scs) else leapLoop fuel iters' scs ids
        end
  end.

Definition leapConverge (fuel : nat) (scs : scanners) (ids : list nat) : res (bool * scanners) :=
  leapLoop fuel (length ids * 2 + 1) scs ids.

(** The place to move when no bound is proposed: the least bytes, or the first
    scanner without any. *)
Fixpoint minBytesLoop (scs : scanners) (ids : list nat) (i minIdx : nat) (minVal : option bytes) : res nat :=
  match ids with
  | [] => Ok minIdx
  | id :: ids' =>
      sc ← scannerAt scs id;
      o ← CurrentValueBytes sc;
      match o with
      | None => Ok i
      | Some v =>
          if match minVal with None => true | Some m => cmpBytes v m <? 0 end then minBytesLoop scs ids' (S i) i (Some v)
          else minBytesLoop scs ids' (S i) minIdx minVal
      end
  end.

Definition idAt (ids : list nat) (i : nat) : res nat := match ids !! i with Some id => Ok id | None => Panic end.

Fixpoint rangesLoop (fuel : nat) (iters : nat) (scs : scanners) (ids : list nat) (specs : list ByteRangeSpec) : res (bool * scanners) :=
  match iters with
  | O => Ok (false, scs)
  | S iters' =>
      id0 ← idAt ids 0;
      sc ← scannerAt scs id0;
      '(r, proposed) ← ValidateOrProposeNextElementBytes sc specs;
      let leapOn (scs : scanners) : res (bool * scanners) :=
        '(ok, scs) ← leapConverge fuel scs ids;
        if negb ok then Ok (false, scs) else rangesLoop fuel iters' scs ids specs in
      match r, proposed with
      | VrValid, _ => Ok (true, scs)
      | VrAtEnd, _ => Ok (false, scs)
      | VrPropose, Some p =>
          sc ← SeekToBytes fuel sc p;
          let scs := <[id0 := sc]> scs in
          if AtEnd sc then Ok (false, scs)
          else
            let loOpenProposed := existsb (fun s => match Lo s with Some l => (cmpBytes l p =? 0) && loIsOpen s | None => false end) specs in
            cur2 ← (if loOpenProposed then CurrentValueBytes sc else Ok None);
            if match cur2 with Some b => cmpBytes b p =? 0 | None => false end then
              sc ← LeapNextAt fuel sc;
              let scs := <[id0 := sc]> scs in
              if AtEnd sc then Ok (false, scs) else leapOn scs
            else leapOn scs
      | VrPropose, None =>
          minIdx ← minBytesLoop scs ids 0 0 None;
          id ← idAt ids minIdx;
          sc ← scannerAt scs id;
          sc ← LeapNextAt fuel sc;
          let scs := <[id := sc]> scs in
          if AtEnd sc then Ok (false, scs) else leapOn scs
      end
  end.

Definition convergeWithRanges (fuel : nat) (scs : scanners) (ids : list nat) (specs : list ByteRangeSpec) : res (bool * scanners) :=
  '(ok, scs) ← leapConverge fuel scs ids;
  if negb ok then Ok (false, scs)
  else
    match specs with
    | [] => Ok (true, scs)
    | _ => if isImpossible specs then Ok (false, scs) else rangesLoop fuel (length specs + 30) scs ids specs
    end.
End leap.

(** ** The host *)

Record LeapIterator : Type := mkIter { itScanners : list nat; itSpecs : list ByteRangeSpec; Started : bool }.

(** The iterators are kept under 0, 1, … in turn and never dropped: a list. *)
Record SchemeHostFns (E C : Type) : Type := mkHost {
  engine : E;
  Params : list Expr;
  Tx : Z;
  AsOfTx : Z;
  HasAsOfTx : bool;
  Scanners : list (V2Scanner C);
  LeapIters : list LeapIterator;
}.
Arguments mkHost {E C} _ _ _ _ _ _ _.
Arguments engine {E C} _.
Arguments Params {E C} _.
Arguments Tx {E C} _.
Arguments AsOfTx {E C} _.
Arguments HasAsOfTx {E C} _.
Arguments Scanners {E C} _.
Arguments LeapIters {E C} _.

Section host.
Context {E C : Type} `{EO : EngineOps E C} `{HC : Cursor C}.
Variable FormatE : Z → bytes.
Variable huge : Z → Z.
(** [cursor.Invalid()]. *)
Variable invalid : C.

Abbreviation Host := (SchemeHostFns E C).

Definition NewSchemeHostFns (e : E) (params : list Expr) (tx asOf : Z) (has : bool) : Host := mkHost e params tx asOf has [] [].

Definition withEngine (h : Host) (e : E) : Host := mkHost e (Params h) (Tx h) (AsOfTx h) (HasAsOfTx h) (Scanners h) (LeapIters h).
Definition withScanners (h : Host) (scs : list (V2Scanner C)) : Host :=
  mkHost (engine h) (Params h) (Tx h) (AsOfTx h) (HasAsOfTx h) scs (LeapIters h).
Definition withIters (h : Host) (its : list LeapIterator) : Host :=
  mkHost (engine h) (Params h) (Tx h) (AsOfTx h) (HasAsOfTx h) (Scanners h) its.

(** A call: the host afterwards, and an error or a step. *)
Definition answer : Type := res (Host * (bytes + EvalStep)).
Definition returns (h : Host) (v : Expr) : answer := Ok (h, inr (Done v)).
Definition fails (h : Host) (msg : bytes) : answer := Ok (h, inl msg).

Definition arg (args : list Expr) (i : nat) : res Expr := match args !! i with Some e => Ok e | None => Panic end.

Definition expectInt (h : Host) (e : Expr) (k : Z → answer) : answer :=
  match e with
  | sexpr.Int n => k n
  | sexpr.Float f => k (float64.toInt huge f)
  | _ => fails h (bs "expected int, got " ++ String_ FormatE e)
  end.

Definition expectStr (h : Host) (e : Expr) (k : bytes → answer) : answer :=
  match e with
  | sexpr.Str s => k s
  | sexpr.Symbol s => k s
  | _ => fails h (bs "expected string, got " ++ String_ FormatE e)
  end.

Definition resourceIndex (e : Expr) (n : nat) : option nat :=
  match e with sexpr.Resource r => if (0 <=? r) && (r <? Z.of_nat n) then Some (Z.to_nat r) else None | _ => None end.

Definition findScanner (h : Host) (e : Expr) (k : nat → V2Scanner C → answer) : answer :=
  match resourceIndex e (length (Scanners h)) with
  | Some id => sc ← scannerAt (Scanners h) id; k id sc
  | None => fails h (bs "expected scanner resource")
  end.

Definition findLeapIterator (h : Host) (e : Expr) (k : nat → LeapIterator → answer) : answer :=
  match resourceIndex e (length (LeapIters h)) with
  | Some id => match LeapIters h !! id with Some it => k id it | None => Panic end
  | None => fails h (bs "expected leap-iterator resource")
  end.

(** The scanners of a list of arguments. *)
Fixpoint findScanners (h : Host) (l : list Expr) (acc : list nat) (k : list nat → answer) : answer :=
  match l with
  | [] => k acc
  | e :: l' => findScanner h e (fun id _ => findScanners h l' (acc ++ [id]) k)
  end.

(** An engine operation that may fail. *)
Definition attempt (h : Host) (r : res (option bytes * E)) : answer :=
  '(err, e) ← r;
  match err with Some msg => fails (withEngine h e) msg | None => returns (withEngine h e) sexpr.Void end.

(** ** Scanners *)

Definition isTrue (args : list Expr) (i : nat) : bool := match args !! i with Some (sexpr.Bool true) => true | _ => false end.

Definition baseOrder (upper : bytes) : list string :=
  if bool_decide (upper = bs "AEVT") then ["a"; "e"; "v"]
  else if bool_decide (upper = bs "AVET") then ["a"; "v"; "e"]
  else if bool_decide (upper = bs "VAET") then ["v"; "a"; "e"]
  else ["e"; "a"; "v"].

Definition cfOfIndex (upper : bytes) : Z :=
  if bool_decide (upper = bs "AEVT") then 1 else if bool_decide (upper = bs "AVET") then 2 else if bool_decide (upper = bs "VAET") then 3 else 0.

Definition scannerOpen (fuel : nat) (h : Host) (args : list Expr) : answer :=
  a0 ← arg args 0;
  expectStr h a0 (fun idxName =>
    let history := isTrue args 1 in
    let upper := toUpper idxName in
    let sc := NewV2Scanner invalid idxName (baseOrder upper ++ ["t"; "added"]) (if HasAsOfTx h then Some (AsOfTx h) else None) in
    let sc := mkScanner (Pos sc) (IndexName sc) (asOfTx sc) (valueAttr sc) history (prefixCache sc) (tInPrefix sc) in
    '(c, e) ← OpenCursor fuel (engine h) (cfOfIndex upper) [] (history || HasAsOfTx h);
    sc ← AdvanceToActiveAt fuel (SetCursor sc c);
    let h := withEngine h e in
    returns (withScanners h (Scanners h ++ [sc])) (sexpr.Resource (Z.of_nat (length (Scanners h))))).

(** The value type of a scanner, from its prefix or from its key. *)
Definition initScanner (fuel : nat) (e : E) (sc : V2Scanner C) : res (V2Scanner C) :=
  o ← AttrIDFromPrefixBytes sc;
  sc ← SetValueAttrType sc (match o with Some aid => ValueTypeFor e aid | None => None end);
  sc ← AdvanceToActiveAtPreserving fuel sc;
  match valueAttr sc with
  | Some _ => Ok sc
  | None =>
      o ← AttrIDFromKey sc;
      match o with
      | Some aid => match ValueTypeFor e aid with Some vt => SetValueAttrType sc (Some vt) | None => Ok sc end
      | None => Ok sc
      end
  end.

Definition initScanners (fuel : nat) (e : E) (ids : list nat) (scs : list (V2Scanner C)) : res (list (V2Scanner C)) :=
  foldRes (fun scs id => sc ← scannerAt scs id; sc ← initScanner fuel e sc; Ok (<[id := sc]> scs)) ids scs.

Definition scannerIterateInit (fuel : nat) (h : Host) (args : list Expr) : answer :=
  match args with
  | [] => returns h sexpr.Void
  | _ =>
      findScanners h (removelast args) [] (fun ids =>
        match ids with
        | [] => returns h sexpr.Void
        | _ =>
            scs ← initScanners fuel (engine h) ids (Scanners h);
            let specs := parseRanges (List.last args sexpr.Void) in
            let h := withScanners h scs in
            returns (withIters h (LeapIters h ++ [mkIter ids specs false])) (sexpr.Resource (Z.of_nat (length (LeapIters h))))
        end)
  end.

(** The scanner with the least value is the one to move; until a value is met, the
    scanner looked at last. *)
Fixpoint minValueLoop (scs : list (V2Scanner C)) (ids : list nat) (i minIdx : nat) (minVal : option Expr) : res nat :=
  match ids with
  | [] => Ok minIdx
  | id :: ids' =>
      sc ← scannerAt scs id;
      o ← ExtractCurrent sc;
      match minVal, o with
      | None, _ => minValueLoop scs ids' (S i) i o
      | Some m, Some v => if cmpValueS v m <? 0 then minValueLoop scs ids' (S i) i (Some v) else minValueLoop scs ids' (S i) minIdx minVal
      | Some _, None => minValueLoop scs ids' (S i) minIdx minVal
      end
  end.

Definition leapNextOf (fuel : nat) (scs : list (V2Scanner C)) (ids : list nat) (specs : list ByteRangeSpec) : res (bool * list (V2Scanner C)) :=
  minIdx ← minValueLoop scs ids 0 0 None;
  id ← idAt ids minIdx;
  sc ← scannerAt scs id;
  sc ← LeapNextAt fuel sc;
  let scs := <[id := sc]> scs in
  if AtEnd sc then Ok (false, scs) else convergeWithRanges fuel scs ids specs.

Definition scannerIterateNext (fuel : nat) (h : Host) (args : list Expr) : answer :=
  a0 ← arg args 0;
  findLeapIterator h a0 (fun iid it =>
    match itScanners it with
    | [] => returns h sexpr.Void
    | id0 :: _ =>
        '(ok, scs) ← (if negb (Started it) then convergeWithRanges fuel (Scanners h) (itScanners it) (itSpecs it)
                      else leapNextOf fuel (Scanners h) (itScanners it) (itSpecs it));
        let h := withScanners h scs in
        if negb ok then returns h sexpr.Void
        else
          let h := if Started it then h else withIters h (<[iid := mkIter (itScanners it) (itSpecs it) true]> (LeapIters h)) in
          sc ← scannerAt scs id0;
          o ← ExtractCurrent sc;
          returns h (default sexpr.Void o)
    end).

(** The arguments between the first and the last. *)
Definition middle (args : list Expr) : list Expr := tail (removelast args).

Definition scannerLeapInit (fuel : nat) (h : Host) (args : list Expr) : answer :=
  if Nat.ltb (length args) 2 then returns h (sexpr.Bool false)
  else
    findScanners h (middle args) [] (fun ids =>
      '(ok, scs) ← convergeWithRanges fuel (Scanners h) ids (parseRanges (List.last args sexpr.Void));
      returns (withScanners h scs) (sexpr.Bool ok)).

Definition scannerLeapNext (fuel : nat) (h : Host) (args : list Expr) : answer :=
  if Nat.ltb (length args) 2 then returns h (sexpr.Bool false)
  else
    findScanners h (middle args) [] (fun ids =>
      match ids with
      | [] => returns h (sexpr.Bool false)
      | _ =>
          '(ok, scs) ← leapNextOf fuel (Scanners h) ids (parseRanges (List.last args sexpr.Void));
          returns (withScanners h scs) (sexpr.Bool ok)
      end).

(** ** Dispatch *)

(** The partition an argument names, the user partition without one. *)
Definition partitionArg (h : Host) (args : list Expr) (i : nat) (k : Z → answer) : answer :=
  match args !! i with Some e => expectInt h e (fun n => k (u64 n)) | None => k 4 end.

(** The pairs of [save-many]; the number of arguments left is even. *)
Fixpoint savePairsOf (h : Host) (l : list Expr) (acc : list (Z * Expr)) (k : list (Z * Expr) → answer) : answer :=
  match l with
  | e :: v :: l' => expectInt h e (fun eid => savePairsOf h l' (acc ++ [(eid, v)]) k)
  | _ => k acc
  end.

Definition callScanner (fuel : nat) (h : Host) (name : bytes) (args : list Expr) : answer :=
  let op s := bool_decide (name = bs s) in
  let withScanner k := a0 ← arg args 0; findScanner h a0 k in
  if op "scanner-open" then scannerOpen fuel h args
  else if op "scanner-read" then withScanner (fun _ sc => o ← ExtractCurrent sc; returns h (default sexpr.Void o))
  else if op "scanner-push" then
    withScanner (fun id sc => a1 ← arg args 1; sc ← SaveValue sc a1; returns (withScanners h (<[id := sc]> (Scanners h))) sexpr.Void)
  else if op "scanner-pop" then
    withScanner (fun id sc => sc ← PopSavedValue sc; returns (withScanners h (<[id := sc]> (Scanners h))) sexpr.Void)
  else if op "scanner-prefix" then withScanner (fun _ sc => returns h (sexpr.Bytes (prefixCache sc)))
  else if op "scanner-leap-init" then scannerLeapInit fuel h args
  else if op "scanner-leap-next" then scannerLeapNext fuel h args
  else if op "scanner-iterate-init" then scannerIterateInit fuel h args
  else if op "scanner-iterate-next" then scannerIterateNext fuel h args
  else if op "dbg-scanners" then returns h sexpr.Void
  else if op "ranges-show" then
    a0 ← arg args 0;
    returns h (sexpr.Str (match parseRanges a0 with [] => bs "(-inf, +inf)" | specs => FormatInt (Z.of_nat (length specs)) ++ bs " specs" end))
  else fails h (bs "unknown host function: " ++ name).

Definition callRead (fuel : nat) (h : Host) (name : bytes) (args : list Expr) : answer :=
  let op s := bool_decide (name = bs s) in
  if op "intern-a" then
    a0 ← arg args 0;
    expectStr h a0 (fun n => match LookupAttr (engine h) n with
                             | Some aid => returns h (sexpr.Int aid)
                             | None => fails h (bs "intern-a: unknown attribute: " ++ n)
                             end)
  else if op "attr-name" then
    a0 ← arg args 0; expectInt h a0 (fun n => returns h (sexpr.Str (AttrName (engine h) (u32 n))))
  else if op "param" then
    a0 ← arg args 0;
    expectInt h a0 (fun idx =>
      if (idx <? 1) || (Z.of_nat (length (Params h)) <? idx) then fails h (bs "param index out of range: " ++ FormatInt idx)
      else v ← arg (Params h) (Z.to_nat (idx - 1)); returns h v)
  else if op "resolve-val" then a0 ← arg args 0; returns h a0
  else if op "result-row" then Ok (h, inr (YieldRow (sexpr.List args)))
  else if op "result" then returns h (sexpr.List (sexpr.Symbol (bs "result") :: args))
  else if op "lookup-value" then
    a0 ← arg args 0;
    expectInt h a0 (fun eid =>
      a1 ← arg args 1;
      expectStr h a1 (fun attr =>
        '(o, e) ← LookupValue fuel (engine h) eid attr; returns (withEngine h e) (default sexpr.Void o)))
  else if op "lookup-entity" then
    a0 ← arg args 0;
    expectStr h a0 (fun attr =>
      if negb (IsUniqueAttr (engine h) attr) then fails h (bs "lookup-entity: attribute is not UNIQUE")
      else
        a1 ← arg args 1;
        '(o, e) ← LookupEntity fuel (engine h) attr a1;
        returns (withEngine h e) (match o with Some eid => sexpr.Int eid | None => sexpr.Void end))
  else if op "tx-entity" then returns h (sexpr.Int (Tx h))
  else callScanner fuel h name args.

Definition callWrite (fuel : nat) (h : Host) (name : bytes) (args : list Expr) : answer :=
  let op s := bool_decide (name = bs s) in
  let eidAttr k := a0 ← arg args 0; expectInt h a0 (fun eid => a1 ← arg args 1; expectStr h a1 (fun attr => a2 ← arg args 2; k eid attr a2)) in
  if op "save" then eidAttr (fun eid attr v => attempt h (SaveWithT fuel (engine h) eid attr v (Tx h) (AsOfTx h)))
  else if op "save-many" then
    if Nat.ltb (length args) 3 || Nat.even (length args) then fails h (bs "save-many expects an attribute name followed by eid/value pairs")
    else
      a0 ← arg args 0;
      expectStr h a0 (fun attr =>
        savePairsOf h (tail args) [] (fun pairs => attempt h (SaveManyWithT fuel (engine h) attr pairs (Tx h) (AsOfTx h))))
  else if op "retract" then eidAttr (fun eid attr v => attempt h (Retract (engine h) eid attr v (Tx h) (AsOfTx h)))
  else if op "get-or-create-entity" then
    a0 ← arg args 0;
    expectStr h a0 (fun attr =>
      if negb (IsUniqueAttr (engine h) attr) then fails h (bs "get-or-create-entity: attribute is not UNIQUE")
      else
        a1 ← arg args 1;
        '(o, e) ← LookupEntity fuel (engine h) attr a1;
        let h := withEngine h e in
        match o with
        | Some found => returns h (sexpr.Int found)
        | None =>
            partitionArg h args 2 (fun partition =>
              '(eid, e) ← AllocateInPartition (engine h) partition;
              '(err, e) ← SaveWithT fuel e eid attr a1 (Tx h) (AsOfTx h);
              match err with
              | Some msg => fails (withEngine h e) msg
              | None => returns (withEngine h e) (sexpr.Int eid)
              end)
        end)
  else if op "declare-attr" then
    a0 ← arg args 0;
    expectStr h a0 (fun attr =>
      a1 ← arg args 1;
      expectStr h a1 (fun vtName => attempt h (DeclareAttrFromSQL (engine h) attr vtName (isTrue args 2) (isTrue args 3) (Tx h))))
  else if op "declare-partition" then
    a0 ← arg args 0;
    expectStr h a0 (fun pname =>
      '(pid, e) ← DeclarePartition (engine h) pname (Tx h); returns (withEngine h e) (sexpr.Int (i64 pid)))
  else if op "alloc-entity" then
    partitionArg h args 0 (fun partition =>
      '(eid, e) ← AllocateInPartition (engine h) partition; returns (withEngine h e) (sexpr.Int eid))
  else callRead fuel h name args.

(** [Call]. *)
Definition SchemeHostFns_host : HostFns Host := callWrite.
End host.
