(* ===== verification/HostSpec.v ===== *)
(** * Convergence of scanners (go/internal/query/hostfns.go)

    What [leapConverge] promises the programs that join on a variable: when it says
    yes, every scanner stands on the same value. And where it gives up too early. *)

From Stdlib Require Import String.
From S2P Require Import Prelude Sexpr Keys Pages NewestWins Hydrated Cursors MergedCursor ActiveScan Txw QueryStore Ranges Scanner ScannerSpec Scheme HostFns.
Open Scope string_scope.
Open Scope list_scope.
Open Scope Z_scope.

Section converge.
Context {C : Type} `{HC : Cursor C}.

(** The scanner at a place shows a value that compares equal to [v]. *)
Definition standsOn (scs : list (V2Scanner C)) (v : Expr) (id : nat) : Prop :=
  ∃ sc w, scs !! id = Some sc ∧ ExtractCurrent sc = Ok (Some w) ∧ (w = v ∨ cmpValueS w v = 0).

(** A survey that still finds all equal has met only values equal to its greatest. *)
Lemma surveyLoop_equal scs ids i s s' :
  surveyLoop scs ids i s = Ok s' → allEqual s' = true →
  allEqual s = true ∧ (∀ v, maxVal s = Some v → maxVal s' = Some v ∧ Forall (standsOn scs v) ids)
  ∧ (maxVal s = None → ids ≠ [] → ∃ v, maxVal s' = Some v ∧ Forall (standsOn scs v) ids).
Proof.
  revert i s. induction ids as [|id ids IH]; intros i s; cbn [surveyLoop].
  { intros [= <-] He. split_and!; [done|by eauto|done]. }
  unfold scannerAt. destruct (scs !! id) as [sc|] eqn:Esc; [|done]. cbn [mbind res_bind].
  destruct (ExtractCurrent sc) as [o| | |] eqn:Eo; try done. cbn [mbind res_bind]. intros E He.
  destruct (IH _ _ E He) as (H1&H2&H3). destruct o as [v|]; cbn [surveyValue] in *; [|done].
  destruct (maxVal s) as [mx|] eqn:Em.
  - destruct (Z.eqb_spec (cmpValueS v mx) 0) as [Hc|Hc]; [|done]. destruct (H2 mx Em) as [Hm Hall]. split_and!; [done| |done].
    intros v' [= <-]. split; [done|]. constructor; [|done]. exists sc, v. auto.
  - cbn [maxVal] in H2. destruct (H2 v eq_refl) as [Hm Hall]. split_and!; [done|done|]. intros _ _. exists v. split; [done|].
    constructor; [|done]. exists sc, v. auto.
Qed.

Lemma leapLoop_sound fuel iters scs ids scs' :
  leapLoop fuel iters scs ids = Ok (true, scs') → ids ≠ [] → ∃ v, Forall (standsOn scs' v) ids.
Proof.
  revert scs. induction iters as [|iters IH]; intros scs; cbn [leapLoop]; [done|].
  destruct (surveyLoop scs ids 0 _) as [s| | |] eqn:Es; try done. cbn [mbind res_bind]. destruct (allEqual s) eqn:Ea.
  - intros [= <-] Hne. destruct (surveyLoop_equal _ _ _ _ _ Es Ea) as (_&_&H3). destruct (H3 eq_refl Hne) as (v&_&Hv). eauto.
  - destruct (maxVal s) as [mx|]; [|done]. destruct (catchUp _ _ _ _ _ _) as [[[] scs1]| | |]; try done. cbn [mbind res_bind negb]. apply IH.
Qed.
End converge.

(** ** Properties *)

(** A join converges on one value: when [leapConverge] answers yes for a non-empty set
    of scanners, every one of them stands on a current value and all these values
    compare equal to one of them. *)
Theorem converged_agree {C} `{HC : Cursor C} fuel scs ids (scs' : list (V2Scanner C)) :
  leapConverge fuel scs ids = Ok (true, scs') → ids ≠ [] → ∃ v, Forall (standsOn scs' v) ids.
Proof. apply leapLoop_sound. Qed.

(** Scanners of the attribute index, each under one attribute. *)
Definition attrScanner (attr : Z) (ks : list bytes) : V2Scanner keysCursor :=
  match (sc ← recomputePrefix (mkScanner (mkPos {| keys := ks; kpos := 0 |} ["a"; "e"; "v"; "t"; "added"] [sexpr.Int attr] None false) (bs "AEVT") None None false [] false);
         AdvanceToActiveAt 60 sc) with
  | Ok sc => sc
  | _ => NewV2Scanner {| keys := []; kpos := 0 |} [] [] None
  end.
Definition attrKeys (attr : Z) (eids : list Z) : list bytes := map (fun eid => BuildAevtKey attr eid (EncodeInt 1) 5 false) eids.
Definition sampleKeys (one two : list Z) : list bytes := attrKeys 70 one ++ attrKeys 71 two.
Definition samplePair (one two : list Z) : list (V2Scanner keysCursor) := [attrScanner 70 (sampleKeys one two); attrScanner 71 (sampleKeys one two)].

Lemma converged_agree_witness :
  ∃ scs' v, leapConverge 60 (samplePair [1; 3; 9] [2; 9]) [0; 1]%nat = Ok (true, scs') ∧ Forall (standsOn scs' v) [0; 1]%nat.
Proof.
  assert (∃ scs', leapConverge 60 (samplePair [1; 3; 9] [2; 9]) [0; 1]%nat = Ok (true, scs')) as [scs' E] by (eexists; vm_compute; reflexivity).
  destruct (converged_agree 60 _ [0; 1]%nat scs' E) as [v Hv]; [discriminate|]. exists scs', v. split; [exact E|exact Hv].
Defined.

(** A join may lose a common value: two attributes whose entities interleave, the odd
    numbers and the even ones up to 20, and both with the entity 99. Both scanners
    have the entity 99 ahead of them, and [leapConverge], which tries five rounds for
    two scanners, answers that there is no common value. *)
Theorem leap_gives_up :
  let odds := [1; 3; 5; 7; 9; 11; 13; 15; 17; 19; 99] in
  let evens := [2; 4; 6; 8; 10; 12; 14; 16; 18; 20; 99] in
  let scs := samplePair odds evens in
  (BuildAevtKey 70 99 (EncodeInt 1) 5 false ∈ liveUnder None (aidPrefix 70) (sampleKeys odds evens)
   ∧ BuildAevtKey 71 99 (EncodeInt 1) 5 false ∈ liveUnder None (aidPrefix 71) (sampleKeys odds evens))
  ∧ ∃ scs', leapConverge 60 scs [0; 1]%nat = Ok (false, scs').
Proof.
  cbv zeta. split; [split|].
  - apply (bool_decide_unpack _). by vm_compute.
  - apply (bool_decide_unpack _). by vm_compute.
  - eexists. vm_compute. reflexivity.
Qed.
