(* ===== verification/Tx.v ===== *)
(** * The transaction interpreter (go/internal/query/edn_tx.go)

    A flat transaction against the engine interface: attributes are looked up once
    in a table of 128 places, schema operations are applied first, unique values and
    lookup references are resolved in one batch, tempids get entities, every
    operation is checked and resolved, and only then is anything written. *)

From Stdlib Require Import String.
From S2P Require Import Prelude Sexpr Keys Numfmt Txw Engine QueryStore HostFns.
Open Scope string_scope.
Open Scope list_scope.
Open Scope Z_scope.

Definition PartUser : Z := 4.

Record TxReport : Type := mkReport { Tempids : gmap Z Z; TxOf : Z }.

Definition maxTxAttrs : nat := 128.

(** [asym] is 0 for a free place. *)
Record attrE : Type := mkAttr {
  asym : Z;
  aname : bytes;
  attrID : Z;
  aunique : bool;
  declared : bool;
  avt : Z;
  amode : EncodeMode;
}.
Definition noAttr : attrE := mkAttr 0 [] 0 false false 0 EmRef.

Definition dbValueTypes : list bytes :=
  map bs ["string"; "long"; "float"; "boolean"; "bytes"; "blob"; "keyword"; "ref"; "instant"].

Definition vtFromKeyword (kw : bytes) : bytes + bytes :=
  let n := toLower kw in
  if has_prefix n (bs "db.type/") then
    let vt := drop (length (bs "db.type/")) n in
    if bool_decide (vt ∈ dbValueTypes) then inr vt else inl (bs "tx: unknown :db/valueType keyword: :" ++ n)
  else inl (bs "tx: :db/valueType must be a :db.type/* keyword: :" ++ n).

Definition isSchemaAttrKw (kw : bytes) : bool :=
  bool_decide (kw ∈ map bs ["db/ident"; "db/valueType"; "db/cardinality"; "db/unique"]).

Definition isSchemaGroupOp (tab : SymTab) (op : TxWOp) : bool :=
  negb (IsRetract op)
  && ((AttrSym op =? DbIdent tab) || (AttrSym op =? DbType tab) || (AttrSym op =? DbCardinality tab) || (AttrSym op =? DbUnique tab)).

Definition sameSlotEntity (a b : TxWSlot) : bool :=
  match a, b with
  | TskInt i, TskInt j => i =? j
  | TskKw s, TskKw u => s =? u
  | _, _ => false
  end.

Fixpoint slotRepr (FormatE : Z → bytes) (tab : SymTab) (v : TxWSlot) : bytes :=
  match v with
  | TskInt i => FormatInt i
  | TskFloat f => FloatString FormatE f
  | TskBool b => boolText b
  | TskStr s => [34] ++ s ++ [34]
  | TskKw sym => bs ":" ++ SymName tab sym
  | TskBytes b => bs "<bytes:" ++ FormatInt (Z.of_nat (length b)) ++ bs ">"
  | TskLookupRef sym r => bs "[:" ++ SymName tab sym ++ bs " " ++ slotRepr FormatE tab r ++ bs "]"
  | TskMissing => bs "nil"
  end.

(** ** Schema groups *)

Record schemaGroup : Type := mkGroup { gIdent : bytes; gVt : bytes; gMany : bool; gUnique : bool }.

Definition groupStep (tab : SymTab) (seed : TxWSlot) (g : schemaGroup) (op : TxWOp) : bytes + schemaGroup :=
  if negb (isSchemaGroupOp tab op) || negb (sameSlotEntity (OpE op) seed) then inr g
  else
    let name := SymName tab (slotSym (OpV op)) in
    if AttrSym op =? DbIdent tab then
      match OpV op with
      | TskKw _ => inr (mkGroup name (gVt g) (gMany g) (gUnique g))
      | _ => inl (bs "tx: :db/ident value must be a keyword: " ++ name)
      end
    else if AttrSym op =? DbType tab then
      match vtFromKeyword name with inl e => inl e | inr vt => inr (mkGroup (gIdent g) vt (gMany g) (gUnique g)) end
    else if AttrSym op =? DbCardinality tab then
      if bool_decide (name = bs "db.cardinality/many") then inr (mkGroup (gIdent g) (gVt g) true (gUnique g))
      else if bool_decide (name = bs "db.cardinality/one") then inr (mkGroup (gIdent g) (gVt g) false (gUnique g))
      else inl (bs "tx: unknown :db/cardinality keyword: :" ++ name)
    else if bool_decide (name = bs "db.unique/identity") || bool_decide (name = bs "db.unique/value") then
      inr (mkGroup (gIdent g) (gVt g) (gMany g) true)
    else inl (bs "tx: unknown :db/unique keyword: :" ++ name).

Fixpoint foldSum {A X} (f : A → X → bytes + A) (l : list X) (a : A) : bytes + A :=
  match l with
  | [] => inr a
  | x :: l' => match f a x with inl e => inl e | inr a => foldSum f l' a end
  end.

Definition schemaGroupOf (tab : SymTab) (txops : list TxWOp) (seed : TxWSlot) : bytes + schemaGroup :=
  match foldSum (groupStep tab seed) txops (mkGroup [] (bs "string") false false) with
  | inl e => inl e
  | inr g => match gIdent g with [] => inl (bs "tx: schema entity has no :db/ident") | _ => inr g end
  end.

(** ** The table of attributes *)

Fixpoint internLoop (fuel : nat) (cache : list attrE) (sym : Z) (name : bytes) (j : nat) : list attrE * Z :=
  match fuel with
  | O => (cache, -2)
  | S fuel' =>
      let a := nth j cache noAttr in
      if asym a =? 0 then (<[j := mkAttr sym name (attrID a) (aunique a) (declared a) (avt a) (amode a)]> cache, Z.of_nat j)
      else if asym a =? sym then (cache, Z.of_nat j)
      else internLoop fuel' cache sym name (Nat.modulo (S j) maxTxAttrs)
  end.
Definition intern (cache : list attrE) (sym : Z) (name : bytes) : list attrE * Z :=
  internLoop maxTxAttrs cache sym name (Z.to_nat (sym `mod` Z.of_nat maxTxAttrs)).

(** The negative numbers in the slots. *)
Record tids : Type := mkTids { haveTids : bool; minTid : Z; maxTid : Z }.
Definition addTid (s : tids) (v : TxWSlot) : tids :=
  match v with
  | TskInt i =>
      if i <? 0 then mkTids true (if negb (haveTids s) || (i <? minTid s) then i else minTid s) (if negb (haveTids s) || (i >? maxTid s) then i else maxTid s)
      else s
  | _ => s
  end.

Fixpoint scanOps (tab : SymTab) (txops : list TxWOp) (cache : list attrE) (s : tids) : list attrE * list Z * tids :=
  match txops with
  | [] => (cache, [], s)
  | op :: txops' =>
      let '(cache, slot) := if AttrSym op =? 0 then (cache, -1) else intern cache (AttrSym op) (SymName tab (AttrSym op)) in
      let '(cache, slots, s) := scanOps tab txops' cache (addTid (addTid s (OpE op)) (OpV op)) in
      (cache, slot :: slots, s)
  end.

Section tx.
Context {E C : Type} `{EO : EngineOps E C}.
Variable ParseFloat : bytes → option Z.
Variable FormatE : Z → bytes.

(** A step of the transaction: the engine, and an error or a value. *)
Definition tx (A : Type) : Type := E → res (E * (bytes + A)).
Definition txRet {A} (a : A) : tx A := fun e => Ok (e, inr a).
Definition txErr {A} (msg : bytes) : tx A := fun e => Ok (e, inl msg).
Definition txBind {A B} (f : tx A) (k : A → tx B) : tx B :=
  fun e => '(e, r) ← f e; match r with inl msg => Ok (e, inl msg) | inr a => k a e end.

Definition applySchemaGroupTx (tab : SymTab) (txops : list TxWOp) (seed : TxWSlot) (t : Z) : tx unit :=
  match schemaGroupOf tab txops seed with
  | inl msg => txErr msg
  | inr g => fun e => '(err, e) ← DeclareAttrFromSQL e (gIdent g) (gVt g) (gMany g) (gUnique g) t;
                      Ok (e, match err with Some msg => inl msg | None => inr tt end)
  end.

(** Schema operations first. *)
Fixpoint applySchema (tab : SymTab) (all : list TxWOp) (l : list TxWOp) (t : Z) : tx unit :=
  match l with
  | [] => txRet tt
  | op :: l' =>
      if negb (IsRetract op) && (AttrSym op =? DbIdent tab) then
        txBind (applySchemaGroupTx tab all (OpE op) t) (fun _ => applySchema tab all l' t)
      else applySchema tab all l' t
  end.

(** What the resolver says of an attribute. *)
Definition refresh (e : E) (a : attrE) : attrE :=
  if declared a then a
  else
    match LookupAttr e (aname a) with
    | Some aid =>
        let vt := default 0 (ValueTypeFor e aid) in
        mkAttr (asym a) (aname a) aid (IsUniqueByID e aid) true vt (ValueTypeToEncodeMode vt)
    | None => a
    end.
Definition refreshCache (e : E) (cache : list attrE) : list attrE :=
  map (fun a => if asym a =? 0 then a else refresh e a) cache.

Definition slotOf (e : E) (cache : list attrE) (sym : Z) (name : bytes) : list attrE * Z :=
  let '(cache, j) := intern cache sym name in
  if j =? -2 then (cache, -2)
  else (<[Z.to_nat j := refresh e (nth (Z.to_nat j) cache noAttr)]> cache, j).

(** ** Lookups *)

Definition keyFor (tab : SymTab) (a : attrE) (v : TxWSlot) : res bytes :=
  enc ← orZero (EncodeValue ParseFloat (SlotToValueForType FormatE v (avt a) tab) (amode a) 0) [];
  Ok (be_put 4 (u32 (attrID a)) ++ enc).

(** The keys to look up, and for every operation the last of its keys, or -1. *)
Record lookups : Type := mkLookups { lCache : list attrE; lKeys : list bytes; lOwner : Z }.

Definition addKey (tab : SymTab) (s : lookups) (a : attrE) (v : TxWSlot) : res lookups :=
  k ← keyFor tab a v;
  Ok (mkLookups (lCache s) (lKeys s ++ [k]) (Z.of_nat (length (lKeys s)))).

Definition refLookup (e : E) (tab : SymTab) (s : lookups) (slot : TxWSlot) : res lookups :=
  match slot with
  | TskLookupRef sym r =>
      let '(cache, j) := slotOf e (lCache s) sym (SymName tab sym) in
      let s := mkLookups cache (lKeys s) (lOwner s) in
      let a := nth (Z.to_nat j) cache noAttr in
      if (0 <=? j) && declared a && aunique a then addKey tab s a r else Ok s
  | _ => Ok s
  end.

Definition isTempid (v : TxWSlot) : bool := match v with TskInt i => i <? 0 | _ => false end.

Definition opLookups (e : E) (tab : SymTab) (s : lookups) (slot : Z) (op : TxWOp) : res lookups :=
  let s := mkLookups (lCache s) (lKeys s) (-1) in
  s ← (let a := nth (Z.to_nat slot) (lCache s) noAttr in
       if negb (IsRetract op) && isTempid (OpE op) && negb (AttrSym op =? 0) && (0 <=? slot) && aunique a then addKey tab s a (OpV op) else Ok s);
  s ← refLookup e tab s (OpE op);
  refLookup e tab s (OpV op).

Fixpoint collectLookups (e : E) (tab : SymTab) (l : list (Z * TxWOp)) (s : lookups) : res (list Z * lookups) :=
  match l with
  | [] => Ok ([], s)
  | (slot, op) :: l' =>
      s ← opLookups e tab s slot op;
      '(owners, s') ← collectLookups e tab l' s;
      Ok (lOwner s :: owners, s')
  end.

(** ** Tempids *)

Definition nthZ {A} (d : A) (l : list A) (i : Z) : A := if (i <? 0) || (Z.of_nat (length l) <=? i) then d else nth (Z.to_nat i) l d.

(** For every tempid, the first operation that looks its entity up; from 1. *)
Fixpoint anchorOps (minTid : Z) (l : list (Z * TxWOp)) (i : Z) (anchorOp : list Z) : list Z :=
  match l with
  | [] => anchorOp
  | (owner, op) :: l' =>
      let anchorOp :=
        match OpE op with
        | TskInt tid =>
            if IsRetract op || (0 <=? tid) || (owner <? 0) then anchorOp
            else
              let idx := Z.to_nat (tid - minTid) in
              if nth idx anchorOp 0 =? 0 then <[idx := i + 1]> anchorOp else anchorOp
        | _ => anchorOp
        end in
      anchorOps minTid l' (i + 1) anchorOp
  end.

Record tempids : Type := mkTempids { anchorEid : list Z; fresh : list bool; resolved : gmap Z Z }.

Fixpoint allocTempids (minTid : Z) (owners results : list Z) (anchorOp : list Z) (l : list TxWOp) (s : tempids) : tx tempids :=
  match l with
  | [] => txRet s
  | op :: l' =>
      match OpE op with
      | TskInt tid =>
          let idx := Z.to_nat (tid - minTid) in
          if (0 <=? tid) || negb (nth idx (anchorEid s) 0 =? 0) then allocTempids minTid owners results anchorOp l' s
          else fun e =>
            let aop := nth idx anchorOp 0 in
            let owner := nthZ (-1) owners (aop - 1) in
            let found := if negb (aop =? 0) && (0 <=? owner) then nthZ 0 results owner else 0 in
            '(eid, e) ← (if negb (found =? 0) then Ok (found, e) else AllocateInPartition e PartUser);
            allocTempids minTid owners results anchorOp l'
              (mkTempids (<[idx := eid]> (anchorEid s)) (<[idx := true]> (fresh s)) (<[tid := eid]> (resolved s))) e
      | _ => allocTempids minTid owners results anchorOp l' s
      end
  end.

Definition resolveTempids (s : tids) (owners results : list Z) (txops : list TxWOp) : tx tempids :=
  if haveTids s then
    let span := i64 (maxTid s - minTid s + 1) in
    if span >? 1000000 then txErr (bs "tx: tempid span too large (max 1000000): " ++ FormatInt span)
    else if span <? 0 then fun _ => Panic
    else
      let n := Z.to_nat span in
      let anchorOp := anchorOps (minTid s) (zip owners txops) 0 (replicate n 0) in
      allocTempids (minTid s) owners results anchorOp txops (mkTempids (replicate n 0) (replicate n false) ∅)
  else txRet (mkTempids [] [] ∅).

(** ** Checks and resolution of one operation *)

(** What a transaction has found out before it resolves its operations. *)
Record txEnv : Type := mkTxEnv { teTab : SymTab; teCache : list attrE; teTids : tids; teTemps : tempids; teResults : list Z; teTx : Z }.

Definition checkRetract (tab : SymTab) (op : TxWOp) : option bytes :=
  if negb (IsRetract op) then None
  else if match OpE op with TskKw s => s =? DbCurrentTx tab | _ => false end then
    Some (bs "tx: :db/retract on :db/current-tx is not allowed (§6)")
  else if AttrSym op =? 0 then Some (bs "tx: expected keyword for attribute")
  else if match OpV op with TskKw _ | TskLookupRef _ _ => true | v => isTempid v end then
    Some (bs "tx: :db/retract requires a concrete scalar value (§4)")
  else if isTempid (OpE op) then Some (bs "tx: :db/retract does not take a tempid (§4)")
  else None.

Definition resolveAttr (tab : SymTab) (cache : list attrE) (slot : Z) (op : TxWOp) (e : E) : bytes + Z :=
  if 0 <=? slot then
    let a := nth (Z.to_nat slot) cache noAttr in
    if negb (declared a) && negb (IsRetract op) then inl (bs "save to undeclared attr: " ++ aname a) else inr (attrID a)
  else if slot =? -2 then
    match LookupAttr e (SymName tab (AttrSym op)) with
    | Some aid => inr aid
    | None => if IsRetract op then inr 0 else inl (bs "save to undeclared attr: " ++ SymName tab (AttrSym op))
    end
  else inr (AttrId op).

Definition noMatch (tab : SymTab) (slot : TxWSlot) : bytes := bs "tx: lookup ref " ++ slotRepr FormatE tab slot ++ bs " did not match any entity".

Definition foundAt (results : list Z) (owner : Z) : Z := if 0 <=? owner then nthZ 0 results owner else 0.

Definition resolveE (te : txEnv) (owner : Z) (slot : TxWSlot) : bytes + Z :=
  match slot with
  | TskInt i => inr (if i <? 0 then nth (Z.to_nat (i - minTid (teTids te))) (anchorEid (teTemps te)) 0 else i)
  | TskKw sym =>
      if sym =? DbCurrentTx (teTab te) then inr (teTx te) else inl (bs "tx: cannot resolve e slot: :" ++ SymName (teTab te) sym)
  | TskLookupRef _ _ =>
      let found := foundAt (teResults te) owner in
      if found =? 0 then inl (noMatch (teTab te) slot) else inr found
  | _ => inl (bs "tx: cannot resolve e slot: " ++ slotRepr FormatE (teTab te) slot)
  end.

(** The entity a value slot names; what was there before for other slots. *)
Definition resolveV (te : txEnv) (owner : Z) (op : TxWOp) : bytes + Z :=
  match OpV op with
  | TskInt i =>
      if i <? 0 then
        let s := teTids te in
        let idx := i - minTid s in
        let never := inl (bs "tx: tempid " ++ FormatInt i ++ bs " referenced in v slot but never allocated") in
        if negb (haveTids s) || (i <? minTid s) || (i >? maxTid s) then never
        else
          let eid := nth (Z.to_nat idx) (anchorEid (teTemps te)) 0 in
          if eid =? 0 then never else inr eid
      else inr (VResolved op)
  | TskLookupRef _ _ =>
      let found := foundAt (teResults te) owner in
      if found =? 0 then inl (noMatch (teTab te) (OpV op)) else inr found
  | _ => inr (VResolved op)
  end.

Definition isFresh (te : txEnv) (eid : Z) : bool :=
  haveTids (teTids te) && (0 <=? eid) && nthZ false (fresh (teTemps te)) (i64 (eid - minTid (teTids te))).

Definition applyOp (fuel : nat) (te : txEnv) (slot owner : Z) (op : TxWOp) : tx TxWOp :=
  if isSchemaGroupOp (teTab te) op then txRet op
  else
    match checkRetract (teTab te) op with
    | Some msg => txErr msg
    | None => fun e =>
        match resolveAttr (teTab te) (teCache te) slot op e with
        | inl msg => txErr msg e
        | inr aid =>
            match resolveE te owner (OpE op) with
            | inl msg => txErr msg e
            | inr eid =>
                match resolveV te owner op with
                | inl msg => txErr msg e
                | inr vr =>
                    let op' := mkOp (IsRetract op) (TskInt eid) (AttrSym op) (OpV op) aid vr in
                    if negb (IsRetract op) && negb (aid =? 0) && negb (isFresh te eid) then
                      '(has, e) ← HasDatomW fuel e eid aid (effVal op');
                      txRet (if (has : bool) then mkOp (IsRetract op) (TskInt eid) (AttrSym op) (OpV op) 0 vr else op') e
                    else txRet op' e
                end
            end
        end
    end.

Fixpoint applyOps (fuel : nat) (te : txEnv) (l : list (Z * (Z * TxWOp))) : tx (list TxWOp) :=
  match l with
  | [] => txRet []
  | (slot, (owner, op)) :: l' =>
      txBind (applyOp fuel te slot owner op) (fun op' => txBind (applyOps fuel te l') (fun ops' => txRet (op' :: ops')))
  end.

(** ** The transaction *)

(** Everything before the first data write: the operations resolved, and the report. *)
Definition prepareTx (fuel : nat) (txops : list TxWOp) : tx (list TxWOp * TxReport) := fun e =>
  let tab := Symtab e in
  let '(cache, slots, s) := scanOps tab txops (replicate maxTxAttrs noAttr) (mkTids false 0 0) in
  '(t, e) ← AllocateTxDeferred e;
  txBind (applySchema tab txops txops t) (fun _ e =>
    let cache := refreshCache e cache in
    '(owners, lk) ← collectLookups e tab (zip slots txops) (mkLookups cache [] (-1));
    '(results, e) ← BatchLookupAvet fuel e (lKeys lk);
    txBind (resolveTempids s owners results txops) (fun temps =>
      txBind (applyOps fuel (mkTxEnv tab (lCache lk) s temps results t) (zip slots (zip owners txops))) (fun ops =>
        txRet (ops, mkReport (resolved temps) t))) e) e.

Definition TransactTx (fuel : nat) (txops : list TxWOp) : tx TxReport :=
  match txops with
  | [] => txErr (bs "tx: empty txdata")
  | _ => txBind (prepareTx fuel txops) (fun '(ops, report) e =>
           e ← SaveBatchEdn fuel e ops (TxOf report);
           e ← RetractBatch e ops (TxOf report);
           Ok (e, inr report))
  end.
End tx.
