(* ===== verification/TxLookup.v ===== *)
(** * What a transaction looks up (go/internal/query/edn_tx.go)

    The table of attributes agrees with the resolver once the schema operations are
    done, every place of an operation is that of its attribute, and the key an
    operation owns is the key of one of the lookups it asks for. *)

From Stdlib Require Import String.
From S2P Require Import Prelude Sexpr Keys Numfmt Txw Engine QueryStore HostFns Tx.
Open Scope string_scope.
Open Scope list_scope.
Open Scope Z_scope.

(** ** The table *)

(** Entries that are there stay, and the new ones are of [name]. *)
Definition grows (cache cache' : list attrE) : Prop :=
  length cache' = length cache ∧ ∀ j, asym (nth j cache noAttr) ≠ 0 → nth j cache' noAttr = nth j cache noAttr.

Lemma grows_refl cache : grows cache cache.
Proof. by split. Qed.

Lemma grows_trans a b c : grows a b → grows b c → grows a c.
Proof. intros [L1 H1] [L2 H2]. split; [congruence|]. intros j Hj. rewrite H2; [by apply H1|]. by rewrite H1. Qed.

Lemma nth_insert_attr (l : list attrE) i j x : (i < length l)%nat → nth j (<[i := x]> l) noAttr = if bool_decide (i = j) then x else nth j l noAttr.
Proof.
  intros Hi. rewrite !nth_lookup. case_bool_decide as E; [subst; by rewrite list_lookup_insert_eq|by rewrite list_lookup_insert_ne].
Qed.

(** What [intern] does: nothing when the table is full, or the place of the symbol, which
    is an old one or the first free one. *)
Lemma intern_spec cache sym name cache' j : length cache = maxTxAttrs → sym ≠ 0 → intern cache sym name = (cache', j) →
  (j = -2 ∧ cache' = cache)
  ∨ ∃ i, j = Z.of_nat i ∧ (i < length cache)%nat
      ∧ ((cache' = cache ∧ asym (nth i cache noAttr) = sym)
         ∨ (asym (nth i cache noAttr) = 0
            ∧ cache' = <[i := let a := nth i cache noAttr in mkAttr sym name (attrID a) (aunique a) (declared a) (avt a) (amode a)]> cache)).
Proof.
  intros Hl Hs. unfold intern.
  assert (Z.to_nat (sym `mod` Z.of_nat maxTxAttrs) < length cache)%nat as H0
    by (rewrite Hl; unfold maxTxAttrs; pose proof (Z.mod_pos_bound sym (Z.of_nat 128)); lia).
  revert H0. generalize (Z.to_nat (sym `mod` Z.of_nat maxTxAttrs)) as i. generalize maxTxAttrs at 1 as fuel.
  induction fuel as [|fuel IH]; intros i Hi; cbn [internLoop]; [intros [= <- <-]; by left|].
  destruct (Z.eqb_spec (asym (nth i cache noAttr)) 0) as [E0|_].
  { intros [= <- <-]. right. exists i. split; [done|]. split; [done|]. by right. }
  destruct (Z.eqb_spec (asym (nth i cache noAttr)) sym) as [E1|_].
  { intros [= <- <-]. right. exists i. split; [done|]. split; [done|]. by left. }
  apply IH. rewrite Hl. by apply Nat.mod_upper_bound.
Qed.

Lemma intern_grows cache sym name cache' j : length cache = maxTxAttrs → sym ≠ 0 → intern cache sym name = (cache', j) →
  grows cache cache' ∧ (j = -2 ∨ (0 ≤ j ∧ asym (nth (Z.to_nat j) cache' noAttr) = sym)).
Proof.
  intros Hl Hs E. destruct (intern_spec _ _ _ _ _ Hl Hs E) as [[-> ->]|(i&->&Hi&[[-> Ei]|[E0 ->]])].
  - split; [apply grows_refl|by left].
  - split; [apply grows_refl|]. right. rewrite Nat2Z.id. split; [lia|done].
  - split; [|right; rewrite Nat2Z.id, nth_insert_attr, bool_decide_true by done; split; [lia|done]].
    split; [by rewrite length_insert|]. intros k Hk. rewrite nth_insert_attr, bool_decide_false by (try done; intros ->; done). done.
Qed.

(** An entry no resolver was asked about. *)
Definition blank (tab : SymTab) (a : attrE) : Prop := a = noAttr ∨ (asym a ≠ 0 ∧ a = mkAttr (asym a) (SymName tab (asym a)) 0 false false 0 EmRef).

Lemma nth_Forall (P : attrE → Prop) cache j : P noAttr → Forall P cache → P (nth j cache noAttr).
Proof. intros H0 H. rewrite nth_lookup. destruct (cache !! j) eqn:E; [|done]. by eapply Forall_lookup_1. Qed.

Lemma intern_blank tab cache sym cache' j : length cache = maxTxAttrs → sym ≠ 0 → Forall (blank tab) cache →
  intern cache sym (SymName tab sym) = (cache', j) → Forall (blank tab) cache'.
Proof.
  intros Hl Hs Hb E. destruct (intern_spec _ _ _ _ _ Hl Hs E) as [[_ ->]|(i&_&Hi&[[-> _]|[E0 ->]])]; [done..|].
  apply Forall_insert; [done|]. right. cbn. split; [done|].
  destruct (nth_Forall (blank tab) cache i (or_introl eq_refl) Hb) as [->|[H _]]; [done|congruence].
Qed.

(** The place of an operation in a table. *)
Definition placed (cache : list attrE) (slot : Z) (op : TxWOp) : Prop :=
  (AttrSym op = 0 ∧ slot = -1) ∨ (AttrSym op ≠ 0 ∧ slot = -2) ∨ (AttrSym op ≠ 0 ∧ 0 ≤ slot ∧ asym (nth (Z.to_nat slot) cache noAttr) = AttrSym op).

Lemma placed_grows cache cache' slot op : grows cache cache' → placed cache slot op → placed cache' slot op.
Proof.
  intros [_ Hg] [H|[H|(H1&H2&H3)]]; [by left|by right; left|]. right. right. split_and!; [done|done|]. rewrite Hg; congruence.
Qed.

Lemma scanOps_table tab txops cache s cache' slots s' : length cache = maxTxAttrs → Forall (blank tab) cache →
  scanOps tab txops cache s = (cache', slots, s') → grows cache cache' ∧ Forall (blank tab) cache' ∧ Forall2 (placed cache') slots txops.
Proof.
  revert cache s cache' slots. induction txops as [|op txops IH]; intros cache s cache' slots Hl Hb; cbn [scanOps].
  { intros [= <- <- <-]. split_and!; [apply grows_refl|done|constructor]. }
  destruct (if AttrSym op =? 0 then _ else _) as [c1 slot] eqn:E1. destruct (scanOps tab txops c1 _) as [[c2 sl] s2] eqn:E2. intros [= <- <- <-].
  assert (grows cache c1 ∧ Forall (blank tab) c1 ∧ placed c1 slot op) as (G1&B1&P1).
  { destruct (Z.eqb_spec (AttrSym op) 0) as [E0|E0]; [injection E1 as <- <-; split_and!; [apply grows_refl|done|by left]|].
    destruct (intern_grows _ _ _ _ _ Hl E0 E1) as [Hg Hj]. split_and!; [done|by eapply intern_blank|]. right. destruct Hj as [->|[? ?]]; [by left|by right]. }
  assert (length c1 = maxTxAttrs) as Hl1 by (by rewrite (proj1 G1)). destruct (IH _ _ _ _ Hl1 B1 E2) as (G2&B2&P2). split_and!; [by eapply grows_trans|done|].
  constructor; [by eapply placed_grows|done].
Qed.

Section lookups.
Context {E C : Type} `{EO : EngineOps E C}.
Variable ParseFloat : bytes → option Z.
Variable FormatE : Z → bytes.
Variable e : E.
Variable tab : SymTab.

(** An entry that says what the resolver of [e] says of its name. *)
Record told (a : attrE) : Prop := {
  told_name : aname a = SymName tab (asym a);
  told_yes : declared a = true → LookupAttr e (aname a) = Some (attrID a) ∧ aunique a = IsUniqueByID e (attrID a)
    ∧ avt a = default 0 (ValueTypeFor e (attrID a)) ∧ amode a = ValueTypeToEncodeMode (avt a);
  told_no : declared a = false → LookupAttr e (aname a) = None ∧ attrID a = 0 ∧ aunique a = false;
}.
Definition attrOk (a : attrE) : Prop := a = noAttr ∨ (asym a ≠ 0 ∧ told a).

Lemma refresh_told a : aname a = SymName tab (asym a) → declared a = false → attrID a = 0 → aunique a = false → told (refresh e a).
Proof.
  intros Hn Hd Hi Hu. unfold refresh. rewrite Hd. destruct (LookupAttr e (aname a)) as [aid|] eqn:El; constructor; cbn; try done. by rewrite Hd.
Qed.

(** Asking again gives the same. *)
Lemma refresh_again a : told a → refresh e a = a.
Proof. intros [_ _ Hno]. unfold refresh. destruct (declared a); [done|]. by destruct (Hno eq_refl) as [-> _]. Qed.

Lemma asym_refresh a : asym (refresh e a) = asym a.
Proof. unfold refresh. destruct (declared a); [done|]. by destruct (LookupAttr e (aname a)). Qed.

Lemma refreshCache_told cache : Forall (blank tab) cache → Forall attrOk (refreshCache e cache).
Proof.
  intros H. unfold refreshCache. apply Forall_map. eapply Forall_impl; [exact H|]. intros a [->|[Hs Ha]]; [by left|].
  destruct (Z.eqb_spec (asym a) 0) as [|_]; [done|]. right. split; [by rewrite asym_refresh|]. apply refresh_told; by rewrite Ha.
Qed.

Lemma refreshCache_placed cache slot op : placed cache slot op → placed (refreshCache e cache) slot op.
Proof.
  intros [H|[H|(H1&H2&H3)]]; [by left|by right; left|]. right. right. split_and!; [done|done|]. unfold refreshCache.
  change noAttr with ((fun a => if asym a =? 0 then a else refresh e a) noAttr). rewrite map_nth, H3. destruct (Z.eqb_spec (AttrSym op) 0); [done|]. by rewrite asym_refresh.
Qed.

Lemma slotOf_spec cache sym cache' j : length cache = maxTxAttrs → sym ≠ 0 → Forall attrOk cache → slotOf e cache sym (SymName tab sym) = (cache', j) →
  grows cache cache' ∧ Forall attrOk cache' ∧ (0 ≤ j → asym (nth (Z.to_nat j) cache' noAttr) = sym).
Proof.
  intros Hl Hs Ho. unfold slotOf. destruct (intern cache sym (SymName tab sym)) as [c1 i] eqn:Ei.
  destruct (intern_spec _ _ _ _ _ Hl Hs Ei) as [[-> ->]|(k&->&Hk&[[-> Ek]|[E0 ->]])].
  - change (-2 =? -2) with true. intros [= <- <-]. split_and!; [apply grows_refl|done|lia].
  - replace (Z.of_nat k =? -2) with false by lia. rewrite Nat2Z.id. intros [= <- <-].
    destruct (nth_Forall attrOk cache k (or_introl eq_refl) Ho) as [Ha|[_ Ha]]; [rewrite Ha in Ek; by symmetry in Ek|].
    rewrite refresh_again by done. assert (<[k := nth k cache noAttr]> cache = cache) as -> by (apply list_insert_id; destruct (lookup_lt_is_Some_2 cache k Hk) as [x Hx]; by rewrite (nth_lookup_Some _ _ _ _ Hx)).
    rewrite Nat2Z.id. split_and!; [apply grows_refl|done|done].
  - replace (Z.of_nat k =? -2) with false by lia. rewrite Nat2Z.id. intros [= <- <-].
    destruct (nth_Forall attrOk cache k (or_introl eq_refl) Ho) as [Ha|[? _]]; [|congruence]. rewrite Ha. cbn [attrID aunique declared avt amode noAttr].
    rewrite nth_insert_attr, bool_decide_true, list_insert_insert_eq by done. rewrite Nat2Z.id. split_and!.
    + split; [by rewrite length_insert|]. intros i Hi. rewrite nth_insert_attr, bool_decide_false by (try done; intros ->; done). done.
    + apply Forall_insert; [done|]. right. split; [by rewrite asym_refresh|by apply refresh_told].
    + rewrite nth_insert_attr, bool_decide_true by done. intros _. by rewrite asym_refresh.
Qed.

(** *** Keys and their owners *)

(** The key that finds the entity whose attribute [aid] has the value [r]: the attribute
    and the value in the encoding of its type. *)
Definition refKey (aid : Z) (r : TxWSlot) : res bytes :=
  let vt := default 0 (ValueTypeFor e aid) in
  enc ← orZero (EncodeValue ParseFloat (SlotToValueForType FormatE r vt tab) (ValueTypeToEncodeMode vt) 0) [];
  Ok (be_put 4 (u32 aid) ++ enc).

(** The [j]-th key looks for the value [r] of the attribute named [sym], which is declared
    and unique. *)
Definition keyed (keys : list bytes) (j sym : Z) (r : TxWSlot) : Prop :=
  0 ≤ j ∧ ∃ aid key, LookupAttr e (SymName tab sym) = Some aid ∧ IsUniqueByID e aid = true ∧ refKey aid r = Ok key ∧ keys !! Z.to_nat j = Some key.

(** The lookups an operation asks for: its references, and for a tempid the value of its
    attribute. *)
Definition asks (op : TxWOp) (sym : Z) (r : TxWSlot) : Prop :=
  OpE op = TskLookupRef sym r ∨ OpV op = TskLookupRef sym r
  ∨ (sym = AttrSym op ∧ r = OpV op ∧ IsRetract op = false ∧ isTempid (OpE op) = true).
Definition owns (keys : list bytes) (owner : Z) (op : TxWOp) : Prop := owner = -1 ∨ ∃ sym r, asks op sym r ∧ keyed keys owner sym r.

(** References have names. *)
Definition named (slot : TxWSlot) : Prop := match slot with TskLookupRef sym _ => sym ≠ 0 | _ => True end.

Definition tableOk (s : lookups) : Prop := length (lCache s) = maxTxAttrs ∧ Forall attrOk (lCache s).
Definition follows (s s' : lookups) : Prop := tableOk s' ∧ grows (lCache s) (lCache s') ∧ lKeys s `prefix_of` lKeys s'.

Lemma follows_trans a b c : follows a b → follows b c → follows a c.
Proof. intros (_&G1&P1) (T&G2&P2). split; [done|]. split; [by eapply grows_trans|by etrans]. Qed.

Lemma keyed_grows keys keys' j sym r : keys `prefix_of` keys' → keyed keys j sym r → keyed keys' j sym r.
Proof. intros [l ->] [Hj (aid&key&H1&H2&H3&H4)]. split; [done|]. exists aid, key. split_and!; try done. by apply lookup_app_l_Some. Qed.

Lemma owns_grows keys keys' j op : keys `prefix_of` keys' → owns keys j op → owns keys' j op.
Proof. intros Hp [->|(sym&r&Ha&Hk)]; [by left|]. right. exists sym, r. split; [done|by eapply keyed_grows]. Qed.

Lemma addKey_spec s a v s' : tableOk s → told a → declared a = true → aunique a = true → addKey ParseFloat FormatE tab s a v = Ok s' →
  follows s s' ∧ keyed (lKeys s') (lOwner s') (asym a) v.
Proof.
  intros Ht [Hn Hy _] Hd Hu. destruct (Hy Hd) as (Hl&Hu'&Hvt&Hm). unfold addKey. intros Ek. apply res_bind_Ok in Ek as (k&Ek&[= <-]). cbn.
  split; [split; [done|]; split; [apply grows_refl|by eexists]|]. split; [lia|]. exists (attrID a), k. split_and!; [by rewrite <- Hn|congruence| |].
  - unfold keyFor in Ek. unfold refKey. by rewrite <- Hvt, <- Hm.
  - rewrite Nat2Z.id. apply list_lookup_middle. done.
Qed.

Lemma attrOk_told a : attrOk a → asym a ≠ 0 → told a.
Proof. intros [->|[_ H]]; done. Qed.

Lemma refLookup_spec s slot s' : tableOk s → named slot → refLookup ParseFloat FormatE e tab s slot = Ok s' →
  follows s s' ∧ (lOwner s' = lOwner s ∨ ∃ sym r, slot = TskLookupRef sym r ∧ keyed (lKeys s') (lOwner s') sym r).
Proof.
  intros Ht Hn. unfold refLookup. assert (follows s s) as Hrefl by (split; [done|]; split; [apply grows_refl|done]).
  destruct slot as [| | | | | | |sym r]; try (intros [= <-]; split; [done|by left]). destruct (slotOf e (lCache s) sym (SymName tab sym)) as [cache j] eqn:Es.
  destruct (slotOf_spec (lCache s) sym cache j (proj1 Ht) Hn (proj2 Ht) Es) as (Hg&Ho&Hj). cbv zeta.
  assert (tableOk (mkLookups cache (lKeys s) (lOwner s))) as Ht1 by (split; [by rewrite <- (proj1 Ht); apply Hg|done]).
  assert (follows s (mkLookups cache (lKeys s) (lOwner s))) as Hf1 by (split; [done|]; split; done).
  destruct ((0 <=? j) && _ && _) eqn:Ec; [|intros [= <-]; split; [done|by left]].
  apply andb_prop in Ec as [[Hj0%Z.leb_le Hd]%andb_prop Hu]. specialize (Hj Hj0).
  intros Ea. apply addKey_spec in Ea as [Hf2 Hk]; [|done| |done|done].
  - split; [by eapply follows_trans|]. right. exists sym, r. split; [done|]. by rewrite Hj in Hk.
  - apply attrOk_told; [apply nth_Forall; [by left|done]|congruence].
Qed.

Lemma opLookups_spec s slot op s' : tableOk s → placed (lCache s) slot op → named (OpE op) → named (OpV op) →
  opLookups ParseFloat FormatE e tab s slot op = Ok s' → follows s s' ∧ owns (lKeys s') (lOwner s') op.
Proof.
  intros Ht Hp HE HV. unfold opLookups. cbv zeta. set (s0 := mkLookups (lCache s) (lKeys s) (-1)).
  assert (tableOk s0) as Ht0 by done. assert (follows s s0) as Hf0 by (split; [done|]; split; [apply grows_refl|done]). cbn [lCache s0]. intros E1.
  apply res_bind_Ok in E1 as (s1&E1&E2). apply res_bind_Ok in E2 as (s2&E2&E3).
  assert (follows s0 s1 ∧ owns (lKeys s1) (lOwner s1) op) as [Hf1 Ho1].
  { destruct (_ && _ && _ && _ && _) eqn:Ec; [|injection E1 as <-; split; [split; [done|]; split; [apply grows_refl|done]|by left]].
    repeat (apply andb_prop in Ec as [Ec ?]). apply addKey_spec in E1 as [? Hk]; [|done|..|done].
    - split; [done|]. right. exists (AttrSym op), (OpV op). split; [right; right; split_and!; try done; by apply negb_true_iff|].
      destruct Hp as [[? ->]|[[? ->]|(_&_&Ea)]]; [done|done|]. by rewrite Ea in Hk.
    - apply attrOk_told; [apply nth_Forall; [by left|apply Ht]|]. destruct Hp as [[? ->]|[[? ->]|(?&_&->)]]; done.
    - assert (attrOk (nth (Z.to_nat slot) (lCache s) noAttr)) as [Ha|[_ [_ _ Hno]]] by (apply nth_Forall; [by left|apply Ht]); [by rewrite Ha in *|].
      destruct (declared _); [done|]. destruct (Hno eq_refl) as (_&_&Hx). congruence. }
  destruct (refLookup_spec s1 (OpE op) s2 (proj1 Hf1) HE E2) as [Hf2 Ho2]. destruct (refLookup_spec s2 (OpV op) s' (proj1 Hf2) HV E3) as [Hf3 Ho3].
  split; [exact (follows_trans _ _ _ Hf0 (follows_trans _ _ _ Hf1 (follows_trans _ _ _ Hf2 Hf3)))|].
  assert (owns (lKeys s2) (lOwner s2) op) as Ho2'.
  { destruct Ho2 as [->|(sym&r&Hs&Hk)]; [eapply owns_grows; [apply Hf2|done]|]. right. exists sym, r. split; [by left|done]. }
  destruct Ho3 as [->|(sym&r&Hs&Hk)]; [eapply owns_grows; [apply Hf3|done]|]. right. exists sym, r. split; [by right; left|done].
Qed.

Lemma collectLookups_spec slots ops s owners s' : tableOk s → Forall2 (placed (lCache s)) slots ops → Forall (fun op => named (OpE op) ∧ named (OpV op)) ops →
  collectLookups ParseFloat FormatE e tab (zip slots ops) s = Ok (owners, s') → follows s s' ∧ Forall2 (owns (lKeys s')) owners ops.
Proof.
  intros Ht Hp Hn. revert s owners s' Ht Hp. revert slots. induction Hn as [|op ops [HE HV] Hn IH]; intros slots s owners s' Ht Hp.
  { destruct slots; intros [= <- <-]; (split; [split; [done|]; split; [apply grows_refl|done]|constructor]). }
  inversion Hp as [|slot op0 slots' ops0 Hp1 Hp2]; subst. cbn [zip zip_with collectLookups]. intros El.
  apply res_bind_Ok in El as (s1&E1&El). apply res_bind_Ok in El as ([os s2]&E2&[= <- <-]).
  destruct (opLookups_spec s slot op s1 Ht Hp1 HE HV E1) as [Hf1 Ho1].
  destruct (IH slots' s1 os s2) as [Hf2 Ho2]; [apply Hf1| |exact E2|].
  { eapply Forall2_impl; [exact Hp2|]. intros sl o. apply placed_grows, Hf1. }
  split; [by eapply follows_trans|]. constructor; [eapply owns_grows; [apply Hf2|done]|done].
Qed.
End lookups.
