(* ===== verification/Session.v ===== *)
(** * Sessions over the query store (go/internal/engine/engine.go)

    The query store as the engine the host functions and the transaction
    interpreter call, and the sessions that run programs against it. A scan cursor
    is the list of keys its family holds when it is opened: that is what the merged
    cursor reads (KvScan.v), and a memtable snapshot keeps it so. The hydrated set a
    cursor of the first family may be given is a shortcut to the same live datoms
    and is left out, as are counters and timers. *)

From Stdlib Require Import String.
From S2P Require Import Prelude Sexpr Keys Cursors Txw Hydrated Anchor Resolver KeyStore Engine EngineSpec QueryStore Scanner Scheme HostFns Tx.
Open Scope string_scope.
Open Scope list_scope.
Open Scope Z_scope.

Section store.
Context {S : Type} `{KS : KeyStore S}.
Variable ParseFloat : bytes → option Z.
Variables FormatG FormatE : Z → bytes.
(** The clock, in microseconds. *)
Variable now : Z.

Abbreviation Store := (@QueryStore S).

Definition New (e : @Engine S) : Store := mkQS e NewSymTab.

(** An error of the store, without its text. *)
Definition storeError {A} (o : option A) : option bytes := match o with Some _ => None | None => Some [] end.

Definition withStore {A} (q : Store) (m : res (A * @Engine S)) : res (A * Store) := '(a, e) ← m; Ok (a, withEavt q e).
Definition errorOf (m : res (option unit * Store)) : res (option bytes * Store) := '(o, q) ← m; Ok (storeError o, q).

Definition openCursor (fuel : nat) (q : Store) (cf : Z) (prefix : bytes) (history : bool) : res (keysCursor * Store) :=
  '(ks, e) ← scanAll fuel (Eavt q) (Z.to_nat cf);
  Ok ({| keys := ks; kpos := 0 |}, withEavt q e).

Definition declarePartition (q : Store) (name : bytes) : res (Z * Store) :=
  let '(p, r) := Resolver.DeclarePartition (Res (Eavt q)) name in Ok (p, withEavt q (withRes (Eavt q) r)).

#[export] Instance queryOps : EngineOps Store keysCursor := {
  HostFns.OpenCursor := openCursor;
  HostFns.LookupAttr q name := Resolver.LookupAttr (Res (Eavt q)) name;
  HostFns.AttrName q aid := Resolver.AttrName (Res (Eavt q)) aid;
  HostFns.ValueTypeFor q aid := Resolver.ValueTypeFor (Res (Eavt q)) aid;
  HostFns.IsUniqueAttr q name := QueryStore.IsUniqueAttr q name;
  HostFns.LookupEntity n q attr v := QueryStore.LookupEntity ParseFloat FormatG n q attr v;
  HostFns.LookupValue n q eid attr := QueryStore.LookupValue n q eid attr;
  HostFns.Symtab q := symtab q;
  HostFns.AllocateTxDeferred q := withStore q (AllocateTDeferred (Eavt q));
  HostFns.AllocateTx q := withStore q (AllocateTAndWriteTx ParseFloat (Eavt q) now);
  HostFns.AllocateInPartition q pid := withStore q (Engine.AllocateInPartition (Eavt q) pid);
  HostFns.IsUniqueByID q aid := IsUnique (Res (Eavt q)) aid;
  HostFns.BatchLookupAvet n q ks := withStore q (Engine.BatchLookupAvet n (Eavt q) ks);
  HostFns.HasDatomW n q eid aid v := QueryStore.HasDatomW ParseFloat FormatE n q eid aid v;
  HostFns.SaveBatchEdn n q ops t := QueryStore.SaveBatchEdn ParseFloat FormatE n q ops t now;
  HostFns.RetractBatch q ops t := QueryStore.RetractBatch ParseFloat FormatE q ops t;
  HostFns.DeclareAttrFromSQL q attr ty many unique _ := errorOf (QueryStore.DeclareAttrFromSQL ParseFloat q attr ty many unique);
  HostFns.SaveWithT n q eid attr v t _ := errorOf (QueryStore.SaveWithT ParseFloat FormatG n q eid attr v t);
  HostFns.SaveManyWithT n q attr ps t _ := errorOf (QueryStore.SaveManyWithT ParseFloat FormatG n q attr ps t);
  HostFns.Retract q eid attr v t _ := errorOf (QueryStore.Retract ParseFloat FormatG q eid attr v t);
  HostFns.DeclarePartition q name _ := declarePartition q name;
}.
End store.

(** ** Sessions *)

Section sessions.
Context {E C : Type} `{EO : EngineOps E C} `{HC : Cursor C}.
Variable FormatE : Z → bytes.
Variable nan : Z.
Variable huge : Z → Z.
Variable invalid : C.

(** The store of a session is the engine of its host. *)
Record QuerySession : Type := mkQSession { qHost : SchemeHostFns E C; qProgram : Expr }.

Definition NewQuerySession (store : E) (program : Expr) (params : list Expr) (tx asOf : Z) (has : bool) : QuerySession :=
  mkQSession (NewSchemeHostFns store params tx asOf has) program.

Definition ExecuteProgram (fuel : nat) (s : QuerySession) : res (QuerySession * (bytes + Expr)) :=
  '(m, r) ← Eval (HF := SchemeHostFns_host FormatE huge invalid) FormatE nan huge fuel (qProgram s) (mkVM ∅ [] (qHost s));
  Ok (mkQSession (host m) (qProgram s), r).

(** The machine carries the host between batches. *)
Definition StreamingSession : Type := VmSession (H := SchemeHostFns E C).
Definition NewStreamingSession (proto : QuerySession) : StreamingSession := NewVmSession (qProgram proto) (qHost proto).
Definition nextBatch (fuel efuel : nat) (s : StreamingSession) (maxRows : nat) : res (StreamingSession * (bytes + (list (list Expr) * bool))) :=
  Scheme.NextBatch (HF := SchemeHostFns_host FormatE huge invalid) FormatE nan huge fuel efuel s maxRows.
End sessions.
