(* ===== verification/TxSpec.v ===== *)
(** * What a transaction does (go/internal/query/edn_tx.go)

    A refused transaction writes no data, tempids are resolved consistently, and two
    lookup references in one operation name one entity. *)

From Stdlib Require Import String.
From S2P Require Import Prelude Sexpr Keys Cursors Numfmt Txw ActiveScan Hydrated Anchor Resolver Journal KeyStore Engine EngineSpec QueryStore Scanner Scheme HostFns Tx TxLookup Session.
Open Scope string_scope.
Open Scope list_scope.
Open Scope Z_scope.

(** ** What the interpreter may rely on *)

(** Allocations and lookups leave the datoms an engine holds alone. *)
Class QuietOps (E C : Type) `{EO : EngineOps E C} {D : Type} (holds : E → D → Prop) : Prop := {
  quiet_tx e t e' d : AllocateTxDeferred e = Ok (t, e') → holds e d → holds e' d;
  quiet_alloc e pid eid e' d : AllocateInPartition e pid = Ok (eid, e') → holds e d → holds e' d;
  quiet_lookup n e ks r e' d : BatchLookupAvet n e ks = Ok (r, e') → holds e d → holds e' d;
  quiet_has n e eid aid v b e' d : HasDatomW n e eid aid v = Ok (b, e') → holds e d → holds e' d;
}.

Section quiet.
Context {E C : Type} `{EO : EngineOps E C} {D : Type} (holds : E → D → Prop) `{QO : !QuietOps E C holds}.
Variable ParseFloat : bytes → option Z.
Variable FormatE : Z → bytes.

Definition quiet {A} (m : tx (E := E) A) : Prop := ∀ e e' r d, m e = Ok (e', r) → holds e d → holds e' d.

Lemma txBind_ret {A B} (a : A) (k : A → tx (E := E) B) e : txBind (txRet a) k e = k a e.
Proof. done. Qed.

Lemma quiet_ret {A} (a : A) : quiet (txRet a).
Proof. by intros e e' r d [= -> _]. Qed.

Lemma quiet_err {A} msg : quiet (A := A) (txErr msg).
Proof. by intros e e' r d [= -> _]. Qed.

Lemma quiet_bind {A B} (f : tx A) (k : A → tx B) : quiet f → (∀ a, quiet (k a)) → quiet (txBind f k).
Proof.
  intros Hf Hk e e' r d. unfold txBind. destruct (f e) as [[e1 [msg|a]]| | |] eqn:E1; try done; rewrite res_bind_ret; cbv beta iota.
  - intros [= <- _]. by eapply Hf.
  - intros E2 Hd. eapply (Hk a), Hf; done.
Qed.

Lemma applyOp_quiet fuel te slot owner op : quiet (applyOp FormatE fuel te slot owner op).
Proof.
  unfold applyOp. destruct (isSchemaGroupOp _ _); [apply quiet_ret|]. destruct (checkRetract _ _); [apply quiet_err|]. intros e e' r d.
  destruct (resolveAttr _ _ _ _ _) as [|aid]; [apply quiet_err|]. destruct (resolveE _ _ _ _) as [|eid]; [apply quiet_err|].
  destruct (resolveV _ _ _ _) as [|vr]; [apply quiet_err|]. cbv zeta. destruct (_ && _ && _); [|apply quiet_ret].
  destruct (HasDatomW _ _ _ _ _) as [[b e1]| | |] eqn:Eh; try done. rewrite res_bind_ret. cbv beta iota. intros [= <- _]. by eapply quiet_has.
Qed.

Lemma applyOps_quiet fuel te l : quiet (applyOps FormatE fuel te l).
Proof.
  induction l as [|[slot [owner op]] l IH]; cbn [applyOps]; [apply quiet_ret|]. apply quiet_bind; [apply applyOp_quiet|]. intros op'.
  apply quiet_bind; [done|]. intros ops'. apply quiet_ret.
Qed.

Lemma allocTempids_quiet mn owners results aop l s : quiet (allocTempids mn owners results aop l s).
Proof.
  revert s. induction l as [|op l IH]; intros s; cbn [allocTempids]; [apply quiet_ret|]. destruct (OpE op) as [|tid| | | | | |]; try apply IH.
  destruct (_ || _); [apply IH|]. intros e e' r d. cbv zeta. destruct (negb _).
  - rewrite res_bind_ret. cbv beta iota. apply IH.
  - destruct (AllocateInPartition e PartUser) as [[eid e1]| | |] eqn:Ea; try done. rewrite res_bind_ret. cbv beta iota. intros Hr Hd.
    eapply IH; [done|]. by eapply quiet_alloc.
Qed.

Lemma resolveTempids_quiet s owners results txops : quiet (resolveTempids s owners results txops).
Proof.
  unfold resolveTempids. destruct (haveTids s); [|apply quiet_ret]. cbv zeta. destruct (_ >? _); [apply quiet_err|]. destruct (_ <? _); [by intros e e' r d|].
  apply allocTempids_quiet.
Qed.

(** No operation names an attribute to declare. *)
Definition noSchema (tab : SymTab) (txops : list TxWOp) : Prop := Forall (fun op => negb (IsRetract op) && (AttrSym op =? DbIdent tab) = false) txops.

Lemma applySchema_none tab all l t : noSchema tab l → applySchema (E := E) (C := C) tab all l t = txRet tt.
Proof. induction 1 as [|op l Hop Hl IH]; cbn [applySchema]; [done|]. by rewrite Hop. Qed.

Lemma prepareTx_quiet fuel txops e e' r d :
  noSchema (Symtab e) txops → prepareTx (C := C) ParseFloat FormatE fuel txops e = Ok (e', r) → holds e d → holds e' d.
Proof.
  intros Hn. unfold prepareTx. destruct (scanOps _ _ _ _) as [[cache slots] s]. destruct (AllocateTxDeferred e) as [[t e1]| | |] eqn:Et; try done.
  rewrite res_bind_ret. cbv beta iota. rewrite (applySchema_none _ _ _ _ Hn). rewrite txBind_ret. cbv zeta.
  destruct (collectLookups _ _ _ _ _ _) as [[owners lk]| | |]; try done. rewrite res_bind_ret. cbv beta iota.
  destruct (BatchLookupAvet _ _ _) as [[results e2]| | |] eqn:El; try done. rewrite res_bind_ret. cbv beta iota. intros Hr Hd.
  assert (holds e2 d) as Hd2 by (eapply quiet_lookup, quiet_tx; done). revert Hr Hd2. apply quiet_bind; [apply resolveTempids_quiet|]. intros temps.
  apply quiet_bind; [apply applyOps_quiet|]. intros ops. apply quiet_ret.
Qed.
End quiet.

(** ** Tempids *)

(** The numbers in the slots are machine integers, and references have names. *)
Definition slotWide (v : TxWSlot) : Prop := match v with TskInt i => is_i64 i | _ => True end.
Definition opWide (op : TxWOp) : Prop := (slotWide (OpE op) ∧ slotWide (OpV op)) ∧ named (OpE op) ∧ named (OpV op).

Definition tidsOk (s : tids) : Prop := haveTids s = true → - 2 ^ 63 ≤ minTid s ∧ minTid s ≤ maxTid s ∧ maxTid s < 0.
Definition covered (s : tids) (v : TxWSlot) : Prop :=
  match v with TskInt i => i < 0 → haveTids s = true ∧ minTid s ≤ i ≤ maxTid s | _ => True end.
Definition widens (s s' : tids) : Prop := haveTids s = true → haveTids s' = true ∧ minTid s' ≤ minTid s ∧ maxTid s ≤ maxTid s'.

Lemma widens_trans a b c : widens a b → widens b c → widens a c.
Proof. intros H1 H2 Ha. destruct (H1 Ha) as (Hb&?&?). destruct (H2 Hb) as (Hc&?&?). split_and!; [done|lia|lia]. Qed.

Lemma widens_covered s s' v : widens s s' → covered s v → covered s' v.
Proof. intros Hw. destruct v; try done. cbn. intros Hc Hi. destruct (Hc Hi) as [Hs ?]. destruct (Hw Hs) as (?&?&?). split; [done|lia]. Qed.

Lemma addTid_spec s v : tidsOk s → slotWide v → tidsOk (addTid s v) ∧ widens s (addTid s v) ∧ covered (addTid s v) v.
Proof.
  unfold tidsOk, widens, covered, slotWide, is_i64. destruct v as [|i| | | | | |]; cbn [addTid]; try by (intros; split_and!; auto; lia).
  intros Hs Hi. destruct (Z.ltb_spec i 0); [|split_and!; [done|auto with lia|lia]].
  destruct (haveTids s) eqn:Eh; cbn [negb orb haveTids minTid maxTid].
  - destruct (Hs eq_refl) as (?&?&?). destruct (Z.ltb_spec i (minTid s)), (Z.gtb_spec i (maxTid s)); split_and!; auto; lia.
  - split_and!; auto; lia.
Qed.

Lemma scanOps_spec tab txops cache s cache' slots s' :
  scanOps tab txops cache s = (cache', slots, s') → tidsOk s → Forall opWide txops →
  length slots = length txops ∧ tidsOk s' ∧ widens s s' ∧ Forall (fun op => covered s' (OpE op) ∧ covered s' (OpV op)) txops.
Proof.
  revert cache s cache' slots. induction txops as [|op txops IH]; intros cache s cache' slots; cbn [scanOps].
  { intros [= <- <- <-] Hs _. split_and!; [done|done| |constructor]. by intros ?; split_and!. }
  destruct (if AttrSym op =? 0 then _ else _) as [c1 slot]. destruct (scanOps tab txops c1 _) as [[c2 sl] s2] eqn:E. intros [= <- <- <-] Hs Hw.
  apply Forall_cons in Hw as [[[HwE HwV] _] Hw]. destruct (addTid_spec s (OpE op) Hs HwE) as (H1&H2&H3). destruct (addTid_spec _ (OpV op) H1 HwV) as (H4&H5&H6).
  destruct (IH _ _ _ _ E H4 Hw) as (L&H7&H8&H9). split_and!; [cbn; by rewrite L|done| |].
  - by eapply widens_trans, widens_trans.
  - constructor; [|done]. split; [|by eapply widens_covered]. eapply widens_covered, H3. by eapply widens_trans.
Qed.

(** The table of tempids agrees with the report. *)
Definition tempsOk (s : tids) (tm : tempids) : Prop :=
  Z.of_nat (length (anchorEid tm)) = maxTid s - minTid s + 1
  ∧ ∀ tid, minTid s ≤ tid ≤ maxTid s → default 0 (resolved tm !! tid) = nth (Z.to_nat (tid - minTid s)) (anchorEid tm) 0.

Lemma nth_insert_Z (l : list Z) i j x : (i < length l)%nat → nth j (<[i := x]> l) 0 = if bool_decide (i = j) then x else nth j l 0.
Proof.
  intros Hi. rewrite !nth_lookup. case_bool_decide as E; [subst; by rewrite list_lookup_insert_eq|by rewrite list_lookup_insert_ne].
Qed.

Section tempids.
Context {E C : Type} `{EO : EngineOps E C}.
Variable ParseFloat : bytes → option Z.
Variable FormatE : Z → bytes.

Lemma allocTempids_ok s owners results aop l tm e e' tm' :
  haveTids s = true → Forall (fun op => covered s (OpE op)) l → tempsOk s tm →
  allocTempids (C := C) (minTid s) owners results aop l tm e = Ok (e', inr tm') → tempsOk s tm'.
Proof.
  intros Hs. revert tm e. induction l as [|op l IH]; intros tm e Hc Ht; cbn [allocTempids]; [by intros [= _ <-]|].
  apply Forall_cons in Hc as [Hop Hc]. destruct (OpE op) as [|tid| | | | | |]; try by apply IH.
  destruct (Z.leb_spec 0 tid) as [Hp|Hneg]; [by apply IH|]. cbn [orb]. destruct (negb (nth _ _ _ =? 0)); [by apply IH|]. cbv zeta.
  destruct (Hop Hneg) as [_ Hr]. match goal with |- context [if ?b then Ok (?f, e) else _] => set (alloc := if b then Ok (f, e) else AllocateInPartition e PartUser) end.
  destruct alloc as [[eid e1]| | |]; try done. rewrite res_bind_ret. cbv beta iota. apply IH; [done|].
  destruct Ht as [Hl Ht]. split; [cbn [anchorEid]; by rewrite length_insert|]. cbn [resolved anchorEid]. intros tid' Hr'. rewrite nth_insert_Z by lia.
  case_bool_decide as Ei.
  - assert (tid' = tid) as -> by lia. by rewrite lookup_insert_eq.
  - rewrite lookup_insert_ne by (intros ->; done). by apply Ht.
Qed.

Lemma resolveTempids_ok s owners results txops e e' tm :
  tidsOk s → Forall (fun op => covered s (OpE op) ∧ covered s (OpV op)) txops → haveTids s = true →
  resolveTempids (C := C) s owners results txops e = Ok (e', inr tm) → tempsOk s tm.
Proof.
  intros Hs Hc Hh. unfold resolveTempids. rewrite Hh. destruct (Hs Hh) as (?&?&?). cbv zeta.
  destruct (i64 _ >? 1000000); [done|]. destruct (Z.ltb_spec (i64 (maxTid s - minTid s + 1)) 0) as [|Hspan]; [done|].
  assert (i64 (maxTid s - minTid s + 1) = maxTid s - minTid s + 1) as Ei.
  { destruct (decide (maxTid s - minTid s + 1 < 2 ^ 63)); [apply i64_small; unfold is_i64; lia|].
    assert (maxTid s - minTid s + 1 = 2 ^ 63) as E63 by lia. rewrite E63 in Hspan. by vm_compute in Hspan. }
  rewrite Ei. apply allocTempids_ok; [done|eapply Forall_impl; [exact Hc|]; naive_solver|]. split; [cbn [anchorEid]; rewrite length_replicate; lia|].
  intros tid _. cbn [resolved anchorEid]. rewrite lookup_empty. cbn. rewrite nth_lookup. generalize (Z.to_nat (tid - minTid s)) as j. generalize (Z.to_nat (maxTid s - minTid s + 1)) as m.
  induction m as [|m IH]; intros [|j]; try done. apply IH.
Qed.

Lemma collectLookups_length e tab l s owners s' : collectLookups (C := C) ParseFloat FormatE e tab l s = Ok (owners, s') → length owners = length l.
Proof.
  revert s owners s'. induction l as [|[slot op] l IH]; intros s owners s'; cbn [collectLookups]; [by intros [= <- _]|].
  destruct (opLookups _ _ _ _ _ _ _) as [s1| | |]; try done. rewrite res_bind_ret. destruct (collectLookups _ _ _ _ l s1) as [[os s2]| | |] eqn:El; try done.
  rewrite res_bind_ret. cbv beta iota. intros [= <- _]. cbn [length]. f_equal. by eapply IH.
Qed.

(** What the resolver of an engine says of a name. *)
Definition nameSays (e : E) (d : bytes * option Z) : Prop := LookupAttr e d.1 = d.2.

Definition isRef (slot : TxWSlot) : bool := match slot with TskLookupRef _ _ => true | _ => false end.

(** *** The specification of a resolved transaction *)

(** The engine when the schema operations are done, and what its batch of lookups asked
    and answered. *)
Section found.
Variable fuel : nat.
Variable el : E.
Variable tab : SymTab.
Variable keys : list bytes.
Variable results : list Z.

(** The lookup of the value [r] of the unique attribute [sym] found [eid]. *)
Definition lookedUp (sym : Z) (r : TxWSlot) (eid : Z) : Prop :=
  ∃ j, keyed (C := C) ParseFloat FormatE el tab keys j sym r ∧ results !! Z.to_nat j = Some eid ∧ eid ≠ 0.

Definition uniqueAttr (sym : Z) : bool := match LookupAttr el (SymName tab sym) with Some aid => IsUniqueByID el aid | None => false end.

(** The entity of a tempid: one that was allocated, or the one that has the value of an
    operation on the tempid, unless that value is itself a reference. *)
Definition tempOrigin (txops : list TxWOp) (tid eid : Z) : Prop :=
  (∃ ea eb, AllocateInPartition ea PartUser = Ok (eid, eb))
  ∨ ∃ op, op ∈ txops ∧ OpE op = TskInt tid ∧ IsRetract op = false ∧ eid ≠ 0 ∧ (isRef (OpV op) = false → lookedUp (AttrSym op) (OpV op) eid).

Definition entitySlot (report : TxReport) (op : TxWOp) (eid : Z) : Prop :=
  match OpE op with
  | TskInt i => eid = if i <? 0 then default 0 (Tempids report !! i) else i
  | TskKw _ => eid = TxOf report
  | TskLookupRef sym r => eid ≠ 0 ∧ (isRef (OpV op) = false → lookedUp sym r eid)
  | _ => False
  end.
Definition valueSlot (report : TxReport) (op : TxWOp) (vr : Z) : Prop :=
  match OpV op with
  | TskInt i => if i <? 0 then Tempids report !! i = Some vr else vr = VResolved op
  | TskLookupRef sym r => vr ≠ 0 ∧ (isRef (OpE op) = false → isTempid (OpE op) && uniqueAttr (AttrSym op) = false → lookedUp sym r vr)
  | _ => vr = VResolved op
  end.

(** The attribute: the one of the name, or none (0) when the datom to add is there
    already; a retraction may name an attribute that is not declared. *)
Definition attrSlot (op op' : TxWOp) (eid : Z) : Prop :=
  ∃ aid, (if AttrSym op =? 0 then aid = AttrId op
          else match LookupAttr el (SymName tab (AttrSym op)) with Some a => aid = a | None => IsRetract op = true ∧ aid = 0 end)
    ∧ (AttrId op' = aid
       ∨ (AttrId op' = 0 ∧ IsRetract op = false
          ∧ ∃ ea eb, HasDatomW fuel ea eid aid (effVal (mkOp false (TskInt eid) (AttrSym op) (OpV op) aid (VResolved op'))) = Ok (true, eb))).

(** What becomes of an operation, in terms of the report and of the lookups. *)
Definition resolvedOp (report : TxReport) (op op' : TxWOp) : Prop :=
  if isSchemaGroupOp tab op then op' = op
  else IsRetract op' = IsRetract op ∧ AttrSym op' = AttrSym op ∧ OpV op' = OpV op
    ∧ (∃ eid, OpE op' = TskInt eid ∧ entitySlot report op eid ∧ attrSlot op op' eid ∧ (isRef (OpE op) && isRef (OpV op) = true → VResolved op' = eid))
    ∧ valueSlot report op (VResolved op').

(** *** It holds *)

Lemma nthZ_found owner : 0 ≤ owner → nthZ 0 results owner ≠ 0 → results !! Z.to_nat owner = Some (nthZ 0 results owner).
Proof.
  intros Ho. unfold nthZ. destruct (_ || _) eqn:Er; [done|]. intros _. apply orb_false_iff in Er as [_ Hl%Z.leb_gt].
  destruct (lookup_lt_is_Some_2 results (Z.to_nat owner)) as [x Hx]; [lia|]. by rewrite (nth_lookup_Some _ _ _ _ Hx).
Qed.

Lemma keyed_found owner sym r eid : keyed (C := C) ParseFloat FormatE el tab keys owner sym r → nthZ 0 results owner = eid → eid ≠ 0 → lookedUp sym r eid.
Proof. intros Hk <- Hne. exists owner. split_and!; [done| |done]. apply nthZ_found; [apply Hk|done]. Qed.

(** The one lookup of an operation with a single reference is that of the reference. *)
Lemma owns_entity owner op sym r : owns (C := C) ParseFloat FormatE el tab keys owner op → 0 ≤ owner → OpE op = TskLookupRef sym r → isRef (OpV op) = false →
  keyed (C := C) ParseFloat FormatE el tab keys owner sym r.
Proof.
  intros [->|(sym'&r'&[Ha|[Ha|(_&_&_&Ha)]]&Hk)] Ho HE HV; [lia|congruence|by rewrite Ha in HV|by rewrite HE in Ha].
Qed.

Lemma owns_value owner op sym r : owns (C := C) ParseFloat FormatE el tab keys owner op → 0 ≤ owner → OpV op = TskLookupRef sym r → isRef (OpE op) = false →
  isTempid (OpE op) && uniqueAttr (AttrSym op) = false → keyed (C := C) ParseFloat FormatE el tab keys owner sym r.
Proof.
  intros [->|(sym'&r'&[Ha|[Ha|(->&_&_&Ha)]]&Hk)] Ho HV HE Hu; [lia|by rewrite Ha in HE|congruence|].
  rewrite Ha in Hu. destruct Hk as (_&aid&key&Hl&Hq&_). unfold uniqueAttr in Hu. by rewrite Hl, Hq in Hu.
Qed.

Lemma owns_tempid owner op tid : owns (C := C) ParseFloat FormatE el tab keys owner op → 0 ≤ owner → OpE op = TskInt tid → isRef (OpV op) = false →
  keyed (C := C) ParseFloat FormatE el tab keys owner (AttrSym op) (OpV op).
Proof. intros [->|(sym'&r'&[Ha|[Ha|(->&->&_)]]&Hk)] Ho HE HV; [lia|congruence|by rewrite Ha in HV|done]. Qed.

Lemma foundAt_spec owner : foundAt results owner ≠ 0 → 0 ≤ owner ∧ foundAt results owner = nthZ 0 results owner.
Proof. unfold foundAt. destruct (Z.leb_spec 0 owner); done. Qed.

(** The environment of the operations. *)
Record envOk (te : txEnv) : Prop := {
  env_tab : teTab te = tab;
  env_results : teResults te = results;
  env_cache : Forall (attrOk (C := C) el tab) (teCache te);
  env_temps : haveTids (teTids te) = true → tempsOk (teTids te) (teTemps te);
}.
Definition sameNames (e : E) : Prop := ∀ name, LookupAttr e name = LookupAttr el name.

Lemma resolveAttr_spec te slot op e aid : envOk te → placed (teCache te) slot op → sameNames e → resolveAttr tab (teCache te) slot op e = inr aid →
  if AttrSym op =? 0 then aid = AttrId op else match LookupAttr el (SymName tab (AttrSym op)) with Some a => aid = a | None => IsRetract op = true ∧ aid = 0 end.
Proof.
  intros [_ _ Hc _] Hp Hn. unfold resolveAttr. destruct Hp as [[E0 ->]|[[E0 ->]|(E0&Hs&Ha)]].
  - change (0 <=? -1) with false. change (-1 =? -2) with false. intros [= <-]. by rewrite E0.
  - change (0 <=? -2) with false. change (-2 =? -2) with true. rewrite (proj2 (Z.eqb_neq _ _) E0), Hn. destruct (LookupAttr el _); [congruence|].
    destruct (IsRetract op); [|done]. intros [= <-]. by split.
  - rewrite (proj2 (Z.leb_le _ _) Hs), (proj2 (Z.eqb_neq _ _) E0). cbv zeta. set (a := nth (Z.to_nat slot) (teCache te) noAttr) in *.
    assert (told (C := C) el tab a) as [Hname Hy Hno] by (apply attrOk_told; [apply nth_Forall; [by left|done]|congruence]). rewrite Ha in Hname. rewrite Hname in Hy, Hno.
    destruct (declared a); cbn [negb andb].
    + destruct (Hy eq_refl) as (Hl&_). rewrite Hl. congruence.
    + destruct (Hno eq_refl) as (Hl&Hz&_). rewrite Hl. destruct (IsRetract op); cbn [negb]; [|done]. intros [= <-]. by split.
Qed.

Lemma resolveE_spec te owner op eid : envOk te → covered (teTids te) (OpE op) → owns (C := C) ParseFloat FormatE el tab keys owner op →
  resolveE FormatE te owner (OpE op) = inr eid → entitySlot (mkReport (resolved (teTemps te)) (teTx te)) op eid.
Proof.
  intros [Htab Hres _ Htm] Hc Ho. unfold resolveE, entitySlot. cbn [Tempids TxOf]. destruct (OpE op) as [|i| | | |sym| |sym v] eqn:EE; try done.
  - intros [= <-]. destruct (Z.ltb_spec i 0) as [Hi|]; [|done]. destruct (Hc Hi) as [Hh Hr]. destruct (Htm Hh) as [_ Ht]. by rewrite Ht.
  - destruct (sym =? _); congruence.
  - rewrite Hres. destruct (Z.eqb_spec (foundAt results owner) 0) as [|Hne]; [done|]. intros [= <-]. split; [done|]. intros HV.
    destruct (foundAt_spec owner Hne) as [H0 Ef]. eapply keyed_found; [by eapply owns_entity|by symmetry|done].
Qed.

Lemma resolveV_spec te owner op vr : envOk te → covered (teTids te) (OpV op) → owns (C := C) ParseFloat FormatE el tab keys owner op →
  resolveV FormatE te owner op = inr vr → valueSlot (mkReport (resolved (teTemps te)) (teTx te)) op vr.
Proof.
  intros [Htab Hres _ Htm] Hc Ho. unfold resolveV, valueSlot. cbn [Tempids]. destruct (OpV op) as [|i| | | |sym| |sym v] eqn:EV; try by intros [= <-].
  - destruct (Z.ltb_spec i 0) as [Hi|]; [|by intros [= <-]]. destruct (Hc Hi) as [Hh Hr]. destruct (Htm Hh) as [_ Ht]. specialize (Ht i Hr).
    destruct (_ || _ || _); [done|]. destruct (Z.eqb_spec (nth (Z.to_nat (i - minTid (teTids te))) (anchorEid (teTemps te)) 0) 0); [done|].
    intros [= <-]. destruct (resolved (teTemps te) !! i); cbn in Ht; congruence.
  - rewrite Hres. destruct (Z.eqb_spec (foundAt results owner) 0) as [|Hne]; [done|]. intros [= <-]. split; [done|]. intros HE Hu.
    destruct (foundAt_spec owner Hne) as [H0 Ef]. eapply keyed_found; [by eapply owns_value|by symmetry|done].
Qed.

Lemma applyOp_resolved te slot owner op e e' op' :
  envOk te → covered (teTids te) (OpE op) → covered (teTids te) (OpV op) → placed (teCache te) slot op → owns (C := C) ParseFloat FormatE el tab keys owner op →
  sameNames e → applyOp (C := C) FormatE fuel te slot owner op e = Ok (e', inr op') →
  resolvedOp (mkReport (resolved (teTemps te)) (teTx te)) op op'.
Proof.
  intros Henv HcE HcV Hp Ho Hn. unfold applyOp, resolvedOp. rewrite (env_tab te Henv). destruct (isSchemaGroupOp _ _); [by intros [= _ <-]|].
  destruct (checkRetract _ _); [done|]. destruct (resolveAttr _ _ _ _ _) as [|aid] eqn:Ea; [done|].
  destruct (resolveE _ _ _ _) as [|eid] eqn:Ee; [done|]. destruct (resolveV _ _ _ _) as [|vr] eqn:Ev; [done|]. cbv zeta.
  apply (resolveAttr_spec te) in Ea; [|done..]. pose proof (resolveE_spec te owner op eid Henv HcE Ho Ee) as Hent.
  pose proof (resolveV_spec te owner op vr Henv HcV Ho Ev) as Hval.
  assert (isRef (OpE op) && isRef (OpV op) = true → vr = eid) as Href.
  { unfold resolveE in Ee. unfold resolveV in Ev. destruct (OpE op), (OpV op); try done. intros _. destruct (foundAt (teResults te) owner =? 0); congruence. }
  destruct (negb (IsRetract op) && _ && _) eqn:Eh.
  - destruct (HasDatomW _ _ _ _ _) as [[b e1]| | |] eqn:Ehas; try done. rewrite res_bind_ret. cbv beta iota. intros [= _ <-].
    assert (IsRetract op = false) as Hret by (destruct (IsRetract op); done). destruct b; cbn; (split_and!; [done..| |done]); exists eid; (split_and!; [done|done| |done]); exists aid; (split; [done|]).
    + right. cbn. split_and!; [done|done|]. exists e, e1. rewrite <- Hret. exact Ehas.
    + by left.
  - intros [= _ <-]. cbn. split_and!; [done..| |done]. exists eid. split_and!; [done|done| |done]. exists aid. split; [done|by left].
Qed.

(** *** Tempids in the report *)

Lemma anchorOps_spec mn l i acc idx : nth idx (anchorOps mn l i acc) 0 ≠ 0 →
  nth idx (anchorOps mn l i acc) 0 = nth idx acc 0
  ∨ ∃ m owner op tid, l !! m = Some (owner, op) ∧ nth idx (anchorOps mn l i acc) 0 = i + Z.of_nat m + 1
      ∧ OpE op = TskInt tid ∧ tid < 0 ∧ IsRetract op = false ∧ 0 ≤ owner ∧ idx = Z.to_nat (tid - mn).
Proof.
  revert i acc. induction l as [|[owner op] l IH]; intros i acc Hne; cbn [anchorOps] in *; [by left|].
  match goal with |- context [anchorOps mn l (i + 1) ?a] => set (acc1 := a) in * end.
  destruct (IH (i + 1) acc1 Hne) as [E1|(m&ow&o&tid&Hm&E1&Hrest)].
  2: { right. exists (S m), ow, o, tid. split_and!; try naive_solver. rewrite E1. lia. }
  rewrite E1 in *. unfold acc1 in *. destruct (OpE op) as [|tid| | | | | |] eqn:EE; try by left. destruct (_ || _ || _) eqn:Ec; [by left|].
  apply orb_false_iff in Ec as [[Hret Ht%Z.leb_gt]%orb_false_iff How%Z.ltb_ge]. cbv zeta in *. destruct (Z.eqb_spec (nth (Z.to_nat (tid - mn)) acc 0) 0) as [Ez|]; [|by left].
  destruct (decide (Z.to_nat (tid - mn) < length acc)%nat) as [Hl|Hl]; [|left; by rewrite list_insert_ge by lia].
  rewrite nth_insert_Z in * by done. case_bool_decide as Ei; [|by left]. right. exists 0%nat, owner, op, tid. split_and!; try done. lia.
Qed.

Lemma allocTempids_origin s txops owners aop tm e e' tm' :
  (∀ idx, nth idx aop 0 ≠ 0 → ∃ m owner op tid, owners !! m = Some owner ∧ txops !! m = Some op ∧ nth idx aop 0 = Z.of_nat m + 1
      ∧ OpE op = TskInt tid ∧ tid < 0 ∧ IsRetract op = false ∧ 0 ≤ owner ∧ idx = Z.to_nat (tid - minTid s)) →
  Forall2 (owns (C := C) ParseFloat FormatE el tab keys) owners txops → haveTids s = true → Forall (fun op => covered s (OpE op)) txops →
  (∀ tid eid, resolved tm !! tid = Some eid → tempOrigin txops tid eid) → ∀ l, l ⊆ txops →
  allocTempids (C := C) (minTid s) owners results aop l tm e = Ok (e', inr tm') → ∀ tid eid, resolved tm' !! tid = Some eid → tempOrigin txops tid eid.
Proof.
  intros Ha Ho Hh Hc Htm l Hl. revert tm e Htm. induction l as [|op l IH]; intros tm e Htm; cbn [allocTempids]; [by intros [= _ <-]|].
  assert (op ∈ txops) as Hop by (apply Hl; left). assert (l ⊆ txops) as Hl' by (intros x Hx; apply Hl; by right). specialize (IH Hl'). clear Hl.
  destruct (OpE op) as [|tid| | | | | |] eqn:EE; try by apply IH. destruct (Z.leb_spec 0 tid) as [|Hneg]; [by apply IH|]. cbn [orb].
  destruct (negb (nth _ _ _ =? 0)); [by apply IH|]. cbv zeta. intros Ealloc. apply res_bind_Ok in Ealloc as ([eid e1]&E1&E2). cbv beta iota in E2. revert E2. apply IH.
  intros tid' eid'. cbn [resolved]. destruct (decide (tid' = tid)) as [->|Hne]; [|rewrite lookup_insert_ne by done; apply Htm]. rewrite lookup_insert_eq. intros [= ->].
  destruct (negb (_ =? 0)) eqn:Ef; [|left; by eexists _, _]. injection E1 as E1 _. apply negb_true_iff, Z.eqb_neq in Ef. rewrite E1 in Ef. right.
  set (idx := Z.to_nat (tid - minTid s)) in *. destruct (Z.eqb_spec (nth idx aop 0) 0) as [|Hne]; [by subst eid'|]. cbn [negb andb] in E1.
  destruct (Ha idx Hne) as (m&owner&o&tid2&Hmo&Hmt&Em&Eo&Hn2&Hret&How&Eidx). rewrite Em in E1.
  assert (nthZ (-1) owners (Z.of_nat m + 1 - 1) = owner) as Enth.
  { unfold nthZ. pose proof (lookup_lt_Some _ _ _ Hmo). replace (_ || _) with false by lia. replace (Z.to_nat (Z.of_nat m + 1 - 1)) with m by lia. by apply nth_lookup_Some. }
  rewrite Enth, (proj2 (Z.leb_le _ _) How) in E1. rewrite Forall_forall in Hc.
  assert (o ∈ txops) as Ho' by (by eapply list_elem_of_lookup_2). pose proof (Hc _ Hop) as Hc1. pose proof (Hc _ Ho') as Hc2. rewrite EE in Hc1. rewrite Eo in Hc2.
  cbn in Hc1, Hc2. destruct (Hc1 Hneg) as [_ ?], (Hc2 Hn2) as [_ ?]. assert (tid2 = tid) as -> by lia.
  exists o. split_and!; [done|done|done|done|]. intros HV. eapply keyed_found; [eapply (owns_tempid owner); [|done|done|done]|exact E1|done].
  by eapply Forall2_lookup_lr.
Qed.

Lemma resolveTempids_origin s owners txops e e' tm :
  tidsOk s → Forall2 (owns (C := C) ParseFloat FormatE el tab keys) owners txops → Forall (fun op => covered s (OpE op)) txops →
  resolveTempids (C := C) s owners results txops e = Ok (e', inr tm) → ∀ tid eid, resolved tm !! tid = Some eid → tempOrigin txops tid eid.
Proof.
  intros Hs Ho Hc. unfold resolveTempids. destruct (haveTids s) eqn:Hh; [|intros [= _ <-] tid eid; cbn [resolved]; by rewrite lookup_empty]. cbv zeta.
  destruct (_ >? _); [done|]. destruct (_ <? _); [done|]. apply allocTempids_origin; try done.
  intros idx Hne. destruct (anchorOps_spec (minTid s) (zip owners txops) 0 (replicate (Z.to_nat (i64 (maxTid s - minTid s + 1))) 0) idx Hne) as [E1|(m&owner&op&tid&Hm&E1&Hrest)].
  - exfalso. apply Hne. rewrite E1. generalize (Z.to_nat (i64 (maxTid s - minTid s + 1))) as k. clear. induction idx as [|j IH]; intros [|k]; try done. apply IH.
  - apply lookup_zip_with_Some in Hm as (x&y&[= <- <-]&Hx&Hy). exists m, owner, op, tid. split_and!; try naive_solver lia.
Qed.

Lemma applyOps_resolved `{QO : !QuietOps E C nameSays} te slots owners ops e e' ops' :
  envOk te → Forall2 (placed (teCache te)) slots ops → Forall2 (owns (C := C) ParseFloat FormatE el tab keys) owners ops →
  Forall (fun op => covered (teTids te) (OpE op) ∧ covered (teTids te) (OpV op)) ops → sameNames e →
  applyOps (C := C) FormatE fuel te (zip slots (zip owners ops)) e = Ok (e', inr ops') →
  Forall2 (resolvedOp (mkReport (resolved (teTemps te)) (teTx te))) ops ops'.
Proof.
  intros Henv Hp Ho Hc. revert slots owners e e' ops' Hp Ho. induction Hc as [|op ops [HE HV] Hc IH]; intros slots owners e e' ops' Hp Ho Hn.
  { inversion Hp; inversion Ho; subst. intros [= _ <-]. constructor. }
  inversion Hp as [|slot op0 slots' ops0 Hp1 Hp2]; inversion Ho as [|owner op1 owners' ops1 Ho1 Ho2]; subst. cbn [zip zip_with applyOps].
  unfold txBind at 1. destruct (applyOp _ _ _ slot owner op e) as [[e1 [|op']]| | |] eqn:E1; try done. rewrite res_bind_ret. cbv beta iota.
  unfold txBind at 1. destruct (applyOps _ _ _ _ e1) as [[e2 [|ops1]]| | |] eqn:E2; try done. rewrite res_bind_ret. cbv beta iota.
  intros [= _ <-]. constructor; [by eapply applyOp_resolved|]. eapply (IH slots' owners' e1); [done|done| |exact E2].
  intros name. exact (applyOp_quiet nameSays FormatE fuel te slot owner op e e1 (inr op') (name, LookupAttr el name) E1 (Hn name)).
Qed.
End found.

(** A transaction that is prepared has allocated its transaction, applied its schema
    operations and made one batch of lookups; its operations are resolved by that batch
    and by the report. *)
Definition txFound (fuel : nat) (txops : list TxWOp) (e : E) (ops' : list TxWOp) (report : TxReport) : Prop :=
  ∃ e0 el keys results er, AllocateTxDeferred e = Ok (TxOf report, e0)
    ∧ applySchema (C := C) (Symtab e) txops txops (TxOf report) e0 = Ok (el, inr tt)
    ∧ BatchLookupAvet fuel el keys = Ok (results, er)
    ∧ Forall2 (resolvedOp fuel el (Symtab e) keys results report) txops ops'
    ∧ ∀ tid eid, Tempids report !! tid = Some eid → tempOrigin el (Symtab e) keys results txops tid eid.

Lemma prepareTx_resolved `{QO : !QuietOps E C nameSays} fuel txops e e' ops' report :
  Forall opWide txops → prepareTx (C := C) ParseFloat FormatE fuel txops e = Ok (e', inr (ops', report)) → txFound fuel txops e ops' report.
Proof.
  intros Hw. unfold prepareTx. destruct (scanOps _ _ _ _) as [[cache slots] s] eqn:Es. destruct (scanOps_spec _ _ _ _ _ _ _ Es) as (_&Hs&_&Hc); [done|done|].
  destruct (scanOps_table (Symtab e) txops (replicate maxTxAttrs noAttr) (mkTids false 0 0) cache slots s) as (Hg&Hb&Hp); [done|apply Forall_replicate; by left|exact Es|].
  destruct (AllocateTxDeferred e) as [[t e1]| | |] eqn:Et; try done. rewrite res_bind_ret. cbv beta iota.
  unfold txBind at 1. destruct (applySchema _ _ _ _ e1) as [[el [|[]]]| | |] eqn:Esch; try done. rewrite res_bind_ret. cbv beta iota zeta.
  destruct (collectLookups _ _ _ _ _ _) as [[owners lk]| | |] eqn:El; try done. rewrite res_bind_ret. cbv beta iota.
  apply collectLookups_spec in El as [[[_ Hcache] [Hg2 _]] Hown]; cbn [lCache] in *.
  2: { split; [by unfold refreshCache; cbn [lCache]; rewrite length_map, (proj1 Hg)|by apply refreshCache_told]. }
  2: { eapply Forall2_impl; [exact Hp|]. intros sl o. apply refreshCache_placed. }
  2: { eapply Forall_impl; [exact Hw|]. by intros op [_ ?]. }
  destruct (BatchLookupAvet _ _ _) as [[results e3]| | |] eqn:Eb; try done. rewrite res_bind_ret. cbv beta iota.
  unfold txBind at 1. destruct (resolveTempids _ _ _ _ e3) as [[e4 [|tm]]| | |] eqn:Etm; try done. rewrite res_bind_ret. cbv beta iota.
  unfold txBind at 1. destruct (applyOps _ _ _ _ e4) as [[e5 [|ops]]| | |] eqn:Ea; try done. rewrite res_bind_ret. cbv beta iota. intros [= _ <- <-].
  exists e1, el, (lKeys lk), results, e3. cbn [TxOf Tempids]. split_and!; [done|done|done| |].
  - apply (applyOps_resolved fuel el (Symtab e) (lKeys lk) results (mkTxEnv (Symtab e) (lCache lk) s tm results t) slots owners txops e4 e5 ops); [..|exact Ea].
    + constructor; cbn; [reflexivity|reflexivity|exact Hcache|]. intros Hh. by eapply resolveTempids_ok.
    + cbn. eapply Forall2_impl; [exact Hp|]. intros sl o Hpl. eapply placed_grows; [exact Hg2|]. by apply refreshCache_placed.
    + exact Hown.
    + exact Hc.
    + intros name. apply (resolveTempids_quiet nameSays s owners results txops e3 e4 (inr tm) (name, LookupAttr el name) Etm).
      exact (quiet_lookup (holds := nameSays) fuel el (lKeys lk) results e3 (name, LookupAttr el name) Eb eq_refl).
  - eapply resolveTempids_origin; [done|exact Hown|eapply Forall_impl; [exact Hc|]; by intros op [? _]|exact Etm].
Qed.
End tempids.

(** ** The query store keeps quiet *)

Section store.
Context {S : Type} `{KS : KeyStore S} `{KL : !KeyStoreLaws S} `{QS : !QuietScans S}.
Variable ParseFloat : bytes → option Z.
Variables FormatG FormatE : Z → bytes.
Variable now : Z.

(** The entries of the store below. *)
Definition storeHolds (q : @QueryStore S) (D : gset CfKey) : Prop := holdsKeys (KV (Eavt q)) D.

Lemma ScanPrefixActive_quiet n (e e' : @Engine S) cf prefix ks D :
  ScanPrefixActive n e cf prefix = Ok (ks, e') → holdsKeys (KV e) D → holdsKeys (KV e') D.
Proof.
  assert (∀ e1, KV e1 = KV e → ('(collected, e) ← ScanPrefix n e1 cf prefix; Ok (activeVersions collected, e)) = Ok (ks, e') → holdsKeys (KV e) D → holdsKeys (KV e') D) as Hslow.
  { intros e1 <-. unfold ScanPrefix. destruct (scanKeys _ _ _ _) as [[out kv]| | |] eqn:Es; try done. rewrite !res_bind_ret. cbv beta iota.
    intros [= _ <-]. by eapply quiet_scan. }
  unfold ScanPrefixActive. destruct (_ && _ && _); [|by apply Hslow]. cbv zeta. destruct (ProbeComplete _ _) as [h hit]. destruct hit; [|by apply Hslow].
  by intros [= _ <-].
Qed.

Lemma scanMisses_quiet n misses (e e' : @Engine S) last_ out r D :
  scanMisses n e misses last_ out = Ok (r, e') → holdsKeys (KV e) D → holdsKeys (KV e') D.
Proof.
  revert e last_ out. induction misses as [|[i k] misses IH]; intros e last_ out; cbn [scanMisses]; [by intros [= _ <-]|].
  destruct (match last_ with Some _ => _ | None => _ end) as [v|]; [apply IH|].
  destruct (ScanPrefixActive _ _ _ _) as [[found e1]| | |] eqn:Es; try done. rewrite res_bind_ret. cbv beta iota. intros Hr Hd.
  eapply IH; [done|]. by eapply ScanPrefixActive_quiet.
Qed.

Lemma withStore_quiet {A} (q q' : @QueryStore S) (m : res (A * @Engine S)) a D :
  (∀ a e', m = Ok (a, e') → holdsKeys (KV e') D) → withStore q m = Ok (a, q') → storeHolds q' D.
Proof. intros Hm. unfold withStore. destruct m as [[a1 e1]| | |]; try done. rewrite res_bind_ret. cbv beta iota. intros [= _ <-]. by apply (Hm a1). Qed.

Lemma allocate_quiet (e e' : @Engine S) pid id : allocate e pid = Ok (id, e') → KV e' = KV e.
Proof. destruct (allocate_Ok e pid) as (i&r&->). by intros [= _ <-]. Qed.

#[export] Instance queryOps_quiet : QuietOps (EO := queryOps ParseFloat FormatG FormatE now) _ _ storeHolds.
Proof.
  constructor; cbn [HostFns.AllocateTxDeferred HostFns.AllocateInPartition HostFns.BatchLookupAvet HostFns.HasDatomW queryOps].
  - intros q t q' D Hr Hd. eapply withStore_quiet, Hr. intros a e' ->%allocate_quiet. done.
  - intros q pid eid q' D Hr Hd. eapply withStore_quiet, Hr. intros a e'. unfold Engine.AllocateInPartition.
    destruct (allocate _ _) as [[id e1]| | |] eqn:Ea; try done. rewrite res_bind_ret. cbv beta iota. apply allocate_quiet in Ea. intros [= _ <-].
    destruct (HydEnabled e1); cbn [KV withHyd]; by rewrite Ea.
  - intros n q ks r q' D Hr Hd. eapply withStore_quiet, Hr. intros a e'. unfold Engine.BatchLookupAvet.
    destruct (probeKeys _ _) as [[os ai]| | |]; try done. rewrite res_bind_ret. cbv beta iota zeta. intros Hs. by eapply scanMisses_quiet.
  - intros n q eid aid v b q' D. unfold QueryStore.HasDatomW. cbv zeta. destruct (encodeSaveValueSlot _ _ _ _ _ _ _) as [encoded|m| |]; try done; [|by intros [= _ <-]].
    assert (∀ e1, KV e1 = KV (Eavt q) → ('(ks, e) ← ScanPrefixActive n e1 0 (eidAttrPrefix eid aid); Ok (holdsValue encoded ks, withEavt q e)) = Ok (b, q') → storeHolds q D → storeHolds q' D) as Hslow.
    { intros e1 Ek. destruct (ScanPrefixActive _ _ _ _) as [[ks e2]| | |] eqn:Es; try done. rewrite res_bind_ret. cbv beta iota. intros [= _ <-].
      unfold storeHolds. cbn [Eavt withEavt]. rewrite <- Ek. by eapply ScanPrefixActive_quiet. }
    destruct (HydEnabled _); [|by apply Hslow]. destruct (ProbeComplete _ _) as [h hit]. destruct hit; [|by apply Hslow].
    destruct (negb _); by intros [= _ <-].
Qed.

(** The names of the resolver stay as well. *)
Definition sameAttrs (e e' : @Engine S) : Prop := attrs (Res e') = attrs (Res e).

Lemma ScanPrefixActive_names n (e e' : @Engine S) cf prefix ks : ScanPrefixActive n e cf prefix = Ok (ks, e') → Res e' = Res e.
Proof.
  assert (∀ e1, Res e1 = Res e → ('(collected, e) ← ScanPrefix n e1 cf prefix; Ok (activeVersions collected, e)) = Ok (ks, e') → Res e' = Res e) as Hslow.
  { intros e1 <-. unfold ScanPrefix. destruct (scanKeys _ _ _ _) as [[out kv]| | |]; try done. rewrite !res_bind_ret. cbv beta iota. by intros [= _ <-]. }
  unfold ScanPrefixActive. destruct (_ && _ && _); [|by apply Hslow]. cbv zeta. destruct (ProbeComplete _ _) as [h hit]. destruct hit; [|by apply Hslow].
  by intros [= _ <-].
Qed.

Lemma scanMisses_names n misses (e e' : @Engine S) last_ out r : scanMisses n e misses last_ out = Ok (r, e') → Res e' = Res e.
Proof.
  revert e last_ out. induction misses as [|[i k] misses IH]; intros e last_ out; cbn [scanMisses]; [by intros [= _ <-]|].
  destruct (match last_ with Some _ => _ | None => _ end) as [v|]; [apply IH|].
  destruct (ScanPrefixActive _ _ _ _) as [[found e1]| | |] eqn:Es; try done. rewrite res_bind_ret. cbv beta iota. intros Hr%IH.
  by rewrite Hr, (ScanPrefixActive_names _ _ _ _ _ _ Es).
Qed.

Lemma allocate_names (e e' : @Engine S) pid id : allocate e pid = Ok (id, e') → sameAttrs e e'.
Proof.
  unfold allocate, Resolver.AllocateInPartition, allocateInPartitionLocked, sameAttrs. destruct (partitions (Res e) !! pid); by intros [= _ <-].
Qed.

Lemma withStore_names {A} (q q' : @QueryStore S) (m : res (A * @Engine S)) a d :
  (∀ a e', m = Ok (a, e') → sameAttrs (Eavt q) e') → withStore q m = Ok (a, q') →
  nameSays (EO := queryOps ParseFloat FormatG FormatE now) q d → nameSays (EO := queryOps ParseFloat FormatG FormatE now) q' d.
Proof.
  intros Hm. unfold withStore. destruct m as [[a1 e1]| | |]; try done. rewrite res_bind_ret. cbv beta iota. intros [= _ <-]. specialize (Hm a1 e1 eq_refl).
  unfold nameSays. cbn [HostFns.LookupAttr queryOps Eavt withEavt]. unfold Resolver.LookupAttr. by rewrite Hm.
Qed.

#[export] Instance queryOps_names : QuietOps (EO := queryOps ParseFloat FormatG FormatE now) _ _ (nameSays (EO := queryOps ParseFloat FormatG FormatE now)).
Proof.
  constructor; cbn [HostFns.AllocateTxDeferred HostFns.AllocateInPartition HostFns.BatchLookupAvet HostFns.HasDatomW queryOps].
  - intros q t q' d Hr. eapply withStore_names, Hr. intros a e'. apply allocate_names.
  - intros q pid eid q' d Hr. eapply withStore_names, Hr. intros a e'. unfold Engine.AllocateInPartition.
    destruct (allocate _ _) as [[id e1]| | |] eqn:Ea; try done. rewrite res_bind_ret. cbv beta iota. apply allocate_names in Ea. intros [= _ <-].
    destruct (HydEnabled e1); exact Ea.
  - intros n q ks r q' d Hr. eapply withStore_names, Hr. intros a e'. unfold Engine.BatchLookupAvet.
    destruct (probeKeys _ _) as [[os ai]| | |]; try done. rewrite res_bind_ret. cbv beta iota zeta. intros Hs. unfold sameAttrs. by rewrite (scanMisses_names _ _ _ _ _ _ _ Hs).
  - intros n q eid aid v b q' d. unfold QueryStore.HasDatomW. cbv zeta. destruct (encodeSaveValueSlot _ _ _ _ _ _ _) as [encoded|m| |]; try done; [|by intros [= _ <-]].
    assert (∀ e1, Res e1 = Res (Eavt q) → ('(ks, e) ← ScanPrefixActive n e1 0 (eidAttrPrefix eid aid); Ok (holdsValue encoded ks, withEavt q e)) = Ok (b, q') → Res (Eavt q') = Res (Eavt q)) as Hslow.
    { intros e1 Ek. destruct (ScanPrefixActive _ _ _ _) as [[ks e2]| | |] eqn:Es; try done. rewrite res_bind_ret. cbv beta iota. intros [= _ <-].
      cbn [Eavt withEavt]. by rewrite (ScanPrefixActive_names _ _ _ _ _ _ Es). }
    assert (Res (Eavt q') = Res (Eavt q) → nameSays (EO := queryOps ParseFloat FormatG FormatE now) q d → nameSays (EO := queryOps ParseFloat FormatG FormatE now) q' d) as Hres.
    { intros E. unfold nameSays. cbn [HostFns.LookupAttr queryOps]. by rewrite E. }
    intros Hr. apply Hres. revert Hr. destruct (HydEnabled _); [|by apply Hslow]. destruct (ProbeComplete _ _) as [h hit]. destruct hit; [|by apply Hslow].
    destruct (negb _); by intros [= _ <-].
Qed.
End store.

(** ** The theorems *)

(** C29. A refused transaction writes nothing: if a transaction that declares no attribute ends with an error, the store below holds
    exactly the entries it held, whatever operations came before the one that was refused. The store is any that keeps the laws
    of the interface and whose scans, completed or not, leave its entries alone ([QuietScans]). *)
Theorem refused_tx_writes_nothing {S} `{KS : KeyStore S} `{KL : !KeyStoreLaws S} `{QS : !QuietScans S} ParseFloat FormatG FormatE now fuel txops (q q' : @QueryStore S) msg D :
  noSchema (symtab q) txops →
  TransactTx (EO := queryOps ParseFloat FormatG FormatE now) ParseFloat FormatE fuel txops q = Ok (q', inl msg) →
  storeHolds q D → storeHolds q' D.
Proof.
  intros Hn. unfold TransactTx. destruct txops as [|op txops]; [by intros [= <- _]|].
  unfold txBind. destruct (prepareTx _ _ _ _ _) as [[q1 [m|[ops report]]]| | |] eqn:Ep; try done; rewrite res_bind_ret; cbv beta iota.
  - intros [= <- _]. exact (prepareTx_quiet (EO := queryOps ParseFloat FormatG FormatE now) storeHolds ParseFloat FormatE fuel (op :: txops) q q1 (inl m) D Hn Ep).
  - destruct (SaveBatchEdn _ _ _ _) as [q2| | |]; try done. rewrite res_bind_ret. destruct (RetractBatch _ _ _) as [q3| | |]; try done.
Qed.


(** An operation whose entity and value are both lookup references is written with the entity of the second one in both
    places: whatever the first reference names, the operation handed to the store has one entity as subject and as value. *)
Theorem two_refs_one_entity {E C} `{EO : EngineOps E C} `{QO : !QuietOps E C nameSays} ParseFloat FormatE fuel txops (e e' : E) ops' report i op s1 v1 s2 v2 :
  Forall opWide txops →
  prepareTx (C := C) ParseFloat FormatE fuel txops e = Ok (e', inr (ops', report)) →
  txops !! i = Some op → isSchemaGroupOp (Symtab e) op = false → OpE op = TskLookupRef s1 v1 → OpV op = TskLookupRef s2 v2 →
  ∃ op', ops' !! i = Some op' ∧ OpE op' = TskInt (VResolved op').
Proof.
  intros Hw Hp Hi Hs HE HV. destruct (prepareTx_resolved ParseFloat FormatE fuel txops e e' ops' report Hw Hp) as (_&el&keys&results&_&_&_&_&Hall&_).
  destruct (Forall2_lookup_l _ _ _ _ _ Hall Hi) as (op'&Hi'&Hr). exists op'. split; [done|]. unfold resolvedOp in Hr. rewrite Hs in Hr.
  destruct Hr as (_&_&_&(eid&->&_&_&He)&_). rewrite HE, HV in He. by rewrite He.
Qed.

(** ** Two transactions on an empty store *)

Definition noFloatText : bytes → option Z := fun _ => None.
Definition noFloats : Z → bytes := fun _ => [].
Definition txNames : list string := ["person/email"; "person/friend"; "person/nick"; "db.type/string"; "db.type/ref"; "db.unique/identity"].
Definition sampleTab : SymTab := fold_left (fun t s => (InternSym t (bs s)).2) txNames NewSymTab.
Definition sym (s : string) : Z := (InternSym sampleTab (bs s)).1.
Definition addOp (e : TxWSlot) (a : string) (v : TxWSlot) : TxWOp := mkOp false e (sym a) v 0 0.
Definition kw (s : string) : TxWSlot := TskKw (sym s).
Definition str (s : string) : TxWSlot := TskStr (bs s).

Definition emptyStore : @QueryStore (list CfKey) := mkQS (mkEngine [] NewResolver (Hydrated.New 4096) (Anchor.New 4096) true) sampleTab.
#[export] Instance sampleOps : EngineOps (@QueryStore (list CfKey)) keysCursor := queryOps noFloatText noFloats noFloats 77.
Abbreviation run := (TransactTx (EO := sampleOps) noFloatText noFloats 60).

(** Two attributes are declared and two people entered who are friends. *)
Definition declareOps : list TxWOp :=
  [addOp (TskInt (-9)) "db/ident" (kw "person/email"); addOp (TskInt (-9)) "db/valueType" (kw "db.type/string"); addOp (TskInt (-9)) "db/unique" (kw "db.unique/identity");
   addOp (TskInt (-8)) "db/ident" (kw "person/friend"); addOp (TskInt (-8)) "db/valueType" (kw "db.type/ref")].
Definition peopleOps : list TxWOp :=
  [addOp (TskInt (-1)) "person/email" (str "ann"); addOp (TskInt (-2)) "person/email" (str "bob"); addOp (TskInt (-1)) "person/friend" (TskInt (-2))].
Definition after (m : tx (E := @QueryStore (list CfKey)) TxReport) (q : @QueryStore (list CfKey)) : @QueryStore (list CfKey) :=
  match m q with Ok (q', _) => q' | _ => q end.
Definition declaredStore : @QueryStore (list CfKey) := after (run declareOps) emptyStore.
Definition peopleStore : @QueryStore (list CfKey) := after (run peopleOps) declaredStore.
#[local] Strategy 1000 [declaredStore peopleStore].

(** The second operation has no attribute that is declared. *)
Definition refusedOps : list TxWOp := [addOp (TskInt (-1)) "person/email" (str "cid"); addOp (TskInt (-1)) "person/nick" (str "c")].
Definition friendOps : list TxWOp :=
  [addOp (TskLookupRef (sym "person/email") (str "ann")) "person/friend" (TskLookupRef (sym "person/email") (str "bob"))].

Definition entriesOf (q : @QueryStore (list CfKey)) : gset CfKey := list_to_set (KV (Eavt q)).

Lemma entries_held q : storeHolds q (entriesOf q).
Proof. done. Qed.

(** Reading the outcome of a run off a computed test. *)
Lemma refused_inv {Q A} (m : res (Q * (bytes + A))) : (match m with Ok (_, inl _) => true | _ => false end) = true → ∃ q' msg, m = Ok (q', inl msg).
Proof. destruct m as [[q' [msg|a]]| | |]; [|done..]. by exists q', msg. Qed.

Lemma accepted_inv {Q A} (m : res (Q * (bytes + A))) (f : A → bool) :
  (match m with Ok (_, inr a) => f a | _ => false end) = true → ∃ q' a, m = Ok (q', inr a) ∧ f a = true.
Proof. destruct m as [[q' [msg|a]]| | |]; [done| |done..]. by exists q', a. Qed.

Definition slotFine (v : TxWSlot) : bool := match v with TskInt i => bool_decide (is_i64 i) | TskLookupRef sym _ => negb (sym =? 0) | _ => true end.

Lemma wide_ops (txops : list TxWOp) : forallb (fun op => slotFine (OpE op) && slotFine (OpV op)) txops = true → Forall opWide txops.
Proof.
  intros H. apply Forall_forall. intros op Hin. rewrite forallb_forall in H. specialize (H op (proj1 (list_elem_of_In _ _) Hin)).
  assert (∀ v, slotFine v = true → slotWide v ∧ named v) as Hs.
  { intros v Hv. destruct v; try done; cbn in Hv; (split; [|done] || (split; [done|])); [by apply bool_decide_eq_true in Hv|]. by apply negb_true_iff, Z.eqb_neq in Hv. }
  apply andb_prop in H as [[? ?]%Hs [? ?]%Hs]. by split.
Qed.

Lemma no_schema (tab : SymTab) txops : forallb (fun op => negb (negb (IsRetract op) && (AttrSym op =? DbIdent tab))) txops = true → noSchema tab txops.
Proof.
  intros H. apply Forall_forall. intros op Hin. rewrite forallb_forall in H. specialize (H op (proj1 (list_elem_of_In _ _) Hin)). by apply negb_true_iff.
Qed.

Lemma refused_tx_writes_nothing_witness : ∃ q' msg, run refusedOps peopleStore = Ok (q', inl msg) ∧ storeHolds q' (entriesOf peopleStore).
Proof.
  destruct (refused_inv (run refusedOps peopleStore)) as (q'&msg&E); [vm_compute; reflexivity|]. exists q', msg. split; [exact E|].
  refine (refused_tx_writes_nothing noFloatText noFloats noFloats 77 60 refusedOps peopleStore q' msg _ _ E (entries_held _)). apply no_schema. vm_compute. reflexivity.
Defined.

(** A person found by a reference gets a friend who is found by the value of a tempid. *)
Definition ann : Z := 70368744177667.
Definition bob : Z := 70368744177668.
Definition findAnn : TxWOp := addOp (TskLookupRef (sym "person/email") (str "ann")) "person/friend" (TskInt (-2)).
Definition refOps : list TxWOp := [findAnn; addOp (TskInt (-2)) "person/email" (str "bob")].
Definition sampleReport (r : TxReport) : bool := bool_decide (Tempids r !! (-2) = Some bob).


Definition befriend : TxWOp := addOp (TskLookupRef (sym "person/email") (str "ann")) "person/friend" (TskLookupRef (sym "person/email") (str "bob")).

Lemma two_refs_one_entity_witness : ∃ q' ops' report op', prepareTx noFloatText noFloats 60 friendOps peopleStore = Ok (q', inr (ops', report))
  ∧ ops' !! 0%nat = Some op' ∧ OpE op' = TskInt (VResolved op').
Proof.
  destruct (accepted_inv (prepareTx noFloatText noFloats 60 friendOps peopleStore) (fun _ => true)) as (q'&[ops' report]&E&_); [vm_compute; reflexivity|].
  assert (isSchemaGroupOp (HostFns.Symtab peopleStore) befriend = false) as Hs by (vm_compute; reflexivity).
  assert (Forall opWide friendOps) as Hw by (apply wide_ops; vm_compute; reflexivity).
  destruct (two_refs_one_entity noFloatText noFloats 60 friendOps peopleStore q' ops' report 0 befriend _ _ _ _ Hw E eq_refl Hs eq_refl eq_refl)
    as (op'&Hi&He). exists q', ops', report, op'. split; [exact E|]. split; [exact Hi|exact He].
Defined.
