(* ===== verification/Datalog.v ===== *)
(** * Datalog queries (go/internal/datalog: ast.go, query_edn.go, stats.go, resolve.go)

    The syntax tree of a query, its reader over EDN values, the schema snapshot a
    query is compiled against and its wire form, the resolution of attribute names
    and the estimates of the planner. Positions and index names are strings, names
    of variables and attributes are byte strings. *)

From Stdlib Require Import String.
From S2P Require Import Prelude Msgpack Keys Numfmt QueryStore Edn Float64.
Open Scope string_scope.
Open Scope list_scope.
Open Scope Z_scope.

(** ** The syntax tree *)

Inductive BoundValue : Type :=
| BvInt (i : Z)
| BvFloat (f : Z)
| BvStr (s : bytes)
| BvAttr (s : bytes)
| BvResolvedAttr (id : Z) (name : bytes) (isRef isIndexed : bool)
| BvVar (s : bytes)
| BvMissing (s : bytes)
| BvParam (n : Z)
| BvBool (b : bool).

Inductive Slot : Type :=
| DsVar (v : bytes)
| DsConst (v : BoundValue)
| DsMissing.

Record Pattern : Type := mkPattern { PE : Slot; PA : Slot; PV : Slot; PT : Slot; PAdded : Slot }.

Definition SlotAt (p : Pattern) (pos : string) : Slot :=
  if String.eqb pos "e" then PE p
  else if String.eqb pos "a" then PA p
  else if String.eqb pos "v" then PV p
  else if String.eqb pos "t" then PT p
  else if String.eqb pos "added" then PAdded p
  else PT p.

Inductive FindVar : Type :=
| FvVar (v : bytes)
| FvConst (name : bytes) (v : BoundValue).

Record RangeCond : Type := mkCond { condOp : bytes; condV : BoundValue }.
Record RangeBound : Type := mkBound { rbVar : bytes; rbBranches : list (list RangeCond) }.

(** [Star] and [HasConditions] are never read or set. *)
Record IR : Type := mkIR {
  Patterns : list Pattern;
  FindVars : list FindVar;
  RangeBounds : list RangeBound;
  ExistsMode : bool;
  History : bool;
}.
Definition NewIR : IR := mkIR [] [] [] false false.

Definition withPatterns (ir : IR) (ps : list Pattern) : IR := mkIR ps (FindVars ir) (RangeBounds ir) (ExistsMode ir) (History ir).
Definition withFindVars (ir : IR) (fs : list FindVar) : IR := mkIR (Patterns ir) fs (RangeBounds ir) (ExistsMode ir) (History ir).
Definition withBounds (ir : IR) (bs : list RangeBound) : IR := mkIR (Patterns ir) (FindVars ir) bs (ExistsMode ir) (History ir).
Definition withHistory (ir : IR) : IR := mkIR (Patterns ir) (FindVars ir) (RangeBounds ir) (ExistsMode ir) true.

Definition RangeLookup (ir : IR) (name : bytes) : option (list (list RangeCond)) :=
  rbBranches <$> List.find (fun rb => bool_decide (rbVar rb = name)) (RangeBounds ir).

Fixpoint rangeSet (l : list RangeBound) (name : bytes) (v : list (list RangeCond)) : list RangeBound :=
  match l with
  | [] => [mkBound name v]
  | rb :: l' => if bool_decide (rbVar rb = name) then mkBound name v :: l' else rb :: rangeSet l' name v
  end.
Definition RangeSet (ir : IR) (name : bytes) (v : list (list RangeCond)) : IR := withBounds ir (rangeSet (RangeBounds ir) name v).

(** *** Index orders *)

Record IndexDef : Type := mkIndex { IndexName : string; Order : list string }.
Definition IndexOrders : list IndexDef :=
  [mkIndex "EAVT" ["e"; "a"; "v"; "t"; "added"];
   mkIndex "AEVT" ["a"; "e"; "v"; "t"; "added"];
   mkIndex "AVET" ["a"; "v"; "e"; "t"; "added"];
   mkIndex "VAET" ["v"; "a"; "e"; "t"; "added"]].

(** The names it is given are upper case. *)
Definition IndexEntry (name : string) : list string :=
  default ["e"; "a"; "v"] (Order <$> List.find (fun i => String.eqb (IndexName i) name) IndexOrders).

Definition boundConst (s : Slot) : bool :=
  match s with DsConst (BvMissing _) => false | DsConst _ => true | _ => false end.
Definition IsLookup (p : Pattern) : bool := boundConst (PE p) && boundConst (PA p) && boundConst (PV p).

Definition isVar (s : Slot) (v : bytes) : bool := match s with DsVar x => bool_decide (x = v) | _ => false end.
Definition slots (p : Pattern) : list Slot := [PE p; PA p; PV p; PT p; PAdded p].
Definition ContainsVarInEAV (p : Pattern) (v : bytes) : bool := existsb (fun s => isVar s v) (slots p).

(** ** The reader *)

Definition rangeOps : list bytes := map bs [">"; "<"; ">="; "<="; "="; "!="].
Definition isRangeOp (s : bytes) : bool := bool_decide (s ∈ rangeOps).

(** [isVarSym] and [varName] in one: the name of a variable. *)
Definition varName (e : edn.Value) : option bytes := match e with edn.Symbol (63 :: n) => Some n | _ => None end.
Definition symbolIs (e : edn.Value) (name : string) : bool := match e with edn.Symbol s => bool_decide (s = bs name) | _ => false end.
Definition keywordIs (e : edn.Value) (name : string) : bool := match e with edn.Keyword k => bool_decide (k = bs name) | _ => false end.
Definition isBlank (e : edn.Value) : bool := symbolIs e "_".

Abbreviation params := (gmap bytes Z).

Definition parseValue (e : edn.Value) (ps : params) : bytes + BoundValue :=
  match varName e with
  | Some vn =>
      match ps !! vn with
      | Some idx => inr (BvParam idx)
      | None => inl (bs "datalog: unbound var ?" ++ vn ++ bs " in value position (declare it in :in)")
      end
  | None =>
      match e with
      | edn.Str s => inr (BvStr s)
      | edn.Int i => inr (BvInt i)
      | edn.Float f => inr (BvFloat f)
      | edn.Bool b => inr (BvBool b)
      | edn.Keyword k => inr (BvStr (bs ":" ++ k))
      | _ => inl (bs "datalog: unsupported value")
      end
  end.

(** A slot that may be a variable or blank. *)
Definition openSlot (e : edn.Value) (ps : params) : option Slot :=
  match varName e with
  | Some vn => Some (match ps !! vn with Some idx => DsConst (BvParam idx) | None => DsVar vn end)
  | None => if isBlank e then Some DsMissing else None
  end.

Definition parseE (e : edn.Value) (ps : params) : bytes + Slot :=
  match openSlot e ps with
  | Some s => inr s
  | None => match e with edn.Int i => inr (DsConst (BvInt i)) | _ => inl (bs "datalog: e slot must be a var, _ or eid") end
  end.

Definition parseA (e : edn.Value) : bytes + Slot :=
  match e with
  | edn.Keyword k =>
      let attr := map (fun c => if c =? 46 then 47 else c) k in
      if existsb (fun c => c =? 47) attr then inr (DsConst (BvAttr attr))
      else inl (bs "datalog: attr keyword must be namespaced: :" ++ k)
  | _ => inl (bs "datalog: attr slot must be a keyword like :person/name")
  end.

Definition parseV (e : edn.Value) (ps : params) : bytes + Slot :=
  match openSlot e ps with
  | Some s => inr s
  | None => match parseValue e ps with inl m => inl m | inr bv => inr (DsConst bv) end
  end.

Definition parsePattern (p : edn.Value) (ps : params) (ir : IR) : bytes + IR :=
  match p with
  | edn.List [e; a; v] =>
      match parseE e ps with
      | inl m => inl m
      | inr e =>
          match parseA a with
          | inl m => inl m
          | inr a =>
              match parseV v ps with
              | inl m => inl m
              | inr v => inr (withPatterns ir (Patterns ir ++ [mkPattern e a v DsMissing DsMissing]))
              end
          end
      end
  | _ => inl (bs "datalog: pattern must be a 3-element vector [e attr v]")
  end.

Definition predKey (op : edn.Value) : bytes + bytes :=
  match op with
  | edn.Keyword k =>
      if isRangeOp k then inr k else inl (bs "datalog: unsupported predicate op :" ++ k ++ bs " (supported: > < >= <= = !=)")
  | _ => inl (bs "datalog: predicate op must be a keyword like :>")
  end.
Definition isOpSym (e : edn.Value) : bool := match e with edn.Symbol s => isRangeOp s | _ => false end.
Definition isOpKw (e : edn.Value) : bool := match e with edn.Keyword k => isRangeOp k | _ => false end.

Definition addRange (ir : IR) (vn : bytes) (branch : nat) (cond : RangeCond) : IR :=
  let branches := default [] (RangeLookup ir vn) in
  let arr := branches ++ replicate (S branch - length branches) [] in
  RangeSet ir vn (alter (fun conds => conds ++ [cond]) branch arr).

Definition isIn (e : edn.Value) : bool := symbolIs e "in" || keywordIs e "in".
Definition isOr (e : edn.Value) : bool := symbolIs e "or" || keywordIs e "or".
Definition isPred (e : edn.Value) : bool := isOpSym e || isIn e || isOpKw e.

Fixpoint addIn (vn : bytes) (branch : nat) (items : list edn.Value) (ps : params) (ir : IR) : bytes + IR :=
  match items with
  | [] => inr ir
  | x :: items' =>
      match parseValue x ps with
      | inl m => inl m
      | inr bv => addIn vn branch items' ps (addRange ir vn branch (mkCond (bs "in") bv))
      end
  end.

Definition parseComparison (items : list edn.Value) (ps : params) (branch : nat) (ir : IR) : bytes + IR :=
  match items with
  | [op; x; v] =>
      match (match op with edn.Symbol s => if isRangeOp s then inr s else predKey op | _ => predKey op end) with
      | inl m => inl m
      | inr op =>
          match varName x with
          | None => inl (bs "datalog: predicate var must be ?var")
          | Some vn =>
              match parseValue v ps with
              | inl m => inl m
              | inr bv => inr (addRange ir vn branch (mkCond op bv))
              end
          end
      end
  | _ => inl (bs "datalog: predicate must be [(op var value)]")
  end.

Definition parsePredicate (items : list edn.Value) (ps : params) (branch : nat) (ir : IR) : bytes + IR :=
  match items with
  | head :: x :: rest =>
      if isIn head then
        match varName x with
        | Some vn => addIn vn branch rest ps ir
        | None => inl (bs "datalog: IN var must be ?var")
        end
      else parseComparison items ps branch ir
  | _ => parseComparison items ps branch ir
  end.

(** A list of one list is unwrapped when that starts like a predicate or an [or]. *)
Fixpoint parseWhereElement (ps : params) (p0 : edn.Value) (branch : nat) (ir : IR) : bytes + IR :=
  let orLoop := fix orLoop (l : list edn.Value) (i : nat) (ir : IR) : bytes + IR :=
    match l with
    | [] => inr ir
    | x :: l' => match parseWhereElement ps x i ir with inl m => inl m | inr ir => orLoop l' (S i) ir end
    end in
  let element (items : list edn.Value) : bytes + IR :=
    match items with
    | [] => parsePattern (edn.List items) ps ir
    | head :: rest =>
        if isOr head then orLoop rest 0%nat ir
        else if isPred head then parsePredicate items ps branch ir
        else parsePattern (edn.List items) ps ir
    end in
  match p0 with
  | edn.List items =>
      match items with
      | [edn.List inner] =>
          match inner with
          | head :: _ => if isPred head || isOr head then element inner else element items
          | [] => element items
          end
      | _ => element items
      end
  | _ => parsePattern p0 ps ir
  end.

Inductive section : Type := secNone | secFind | secIn | secWhere.

(** What the loop over the query carries. *)
Record readerState : Type := mkReader { rIR : IR; rParams : params; rIdx : Z; rSec : section }.

Definition keywordStep (k : bytes) (s : readerState) : bytes + readerState :=
  if bool_decide (k = bs "find") then inr (mkReader (rIR s) (rParams s) (rIdx s) secFind)
  else if bool_decide (k = bs "in") then inr (mkReader (rIR s) (rParams s) (rIdx s) secIn)
  else if bool_decide (k = bs "where") then inr (mkReader (rIR s) (rParams s) (rIdx s) secWhere)
  else if bool_decide (k = bs "history") then inr (mkReader (withHistory (rIR s)) (rParams s) (rIdx s) secNone)
  else inl (bs "datalog: unknown query section :" ++ k).

Definition elementStep (el : edn.Value) (s : readerState) : bytes + readerState :=
  match rSec s with
  | secFind =>
      match varName el with
      | Some vn => inr (mkReader (withFindVars (rIR s) (FindVars (rIR s) ++ [FvVar vn])) (rParams s) (rIdx s) (rSec s))
      | None => inl (bs "datalog: :find takes vars like ?name")
      end
  | secIn =>
      if symbolIs el "$" then inr s
      else
        match varName el with
        | Some vn => let idx := i32 (rIdx s + 1) in inr (mkReader (rIR s) (<[vn := idx]> (rParams s)) idx (rSec s))
        | None => inl (bs "datalog: :in takes $ and vars like ?x")
        end
  | secWhere =>
      match parseWhereElement (rParams s) el 0 (rIR s) with
      | inl m => inl m
      | inr ir => inr (mkReader ir (rParams s) (rIdx s) (rSec s))
      end
  | secNone => inl (bs "datalog: unexpected element outside a section")
  end.

Fixpoint readElements (l : list edn.Value) (s : readerState) : bytes + readerState :=
  match l with
  | [] => inr s
  | el :: l' =>
      match (match el with edn.Keyword k => keywordStep k s | _ => elementStep el s end) with
      | inl m => inl m
      | inr s => readElements l' s
      end
  end.

Definition findName (fv : FindVar) : bytes := match fv with FvVar v => v | FvConst n _ => n end.

Definition boundByValue (ir : IR) (rb : RangeBound) : bool := existsb (fun p => isVar (PV p) (rbVar rb)) (Patterns ir).

Definition checkQuery (ir : IR) : bytes + (IR * list bytes) :=
  match FindVars ir, Patterns ir with
  | [], _ => inl (bs "datalog: :find is required")
  | _, [] => inl (bs "datalog: :where with at least one pattern is required")
  | _, _ =>
      match List.find (fun rb => negb (boundByValue ir rb)) (RangeBounds ir) with
      | Some rb => inl (bs "datalog: predicate var ?" ++ rbVar rb ++ bs " is not bound by any pattern value slot")
      | None => inr (ir, map findName (FindVars ir))
      end
  end.

Definition mustStart : bytes := bs "datalog: query must start with [:find ...]".

(** A query given as a value. *)
Definition parseQuery (top : edn.Value) : bytes + (IR * list bytes) :=
  match top with
  | edn.List (head :: rest) =>
      if keywordIs head "find" then
        match readElements rest (mkReader NewIR ∅ 0 secFind) with
        | inl m => inl m
        | inr s => checkQuery (rIR s)
        end
      else inl mustStart
  | _ => inl mustStart
  end.

Definition ParseDatalogQuery (ParseFloat : bytes → option Z) (src : bytes) : res (bytes + (IR * list bytes)) :=
  match Read ParseFloat src with
  | Ok top => Ok (parseQuery top)
  | Err m => Ok (inl (bs "datalog: EDN parse error: " ++ bs m))
  | Panic => Panic
  | Diverge => Diverge
  end.

(** ** The schema snapshot *)

Record CompileStats : Type := mkStats {
  AttrIDs : gmap bytes Z;
  IndexEstimates : gmap bytes Z;
  PartitionIDs : gmap bytes Z;
  RefAttrs : gset bytes;
  IndexedAttrs : gset bytes;
}.
Definition NewCompileStats : CompileStats := mkStats ∅ ∅ ∅ ∅ ∅.
Definition AttrID (s : CompileStats) (name : bytes) : option Z := AttrIDs s !! name.
Definition IsRef (s : CompileStats) (name : bytes) : bool := bool_decide (name ∈ RefAttrs s).
Definition IsIndexed (s : CompileStats) (name : bytes) : bool := bool_decide (name ∈ IndexedAttrs s).

Definition memberMap (m : list (value * value)) (key : string) : list (value * value) :=
  match Member m (Str (bs key)) with Some (Map mm) => mm | _ => [] end.

(** The pairs with a string for a key and a value that [f] takes. *)
Definition decodePairs (f : value → option Z) (ps : list (value * value)) : gmap bytes Z :=
  fold_left (fun acc p => match p with (Str name, v) => match f v with Some x => <[name := x]> acc | None => acc end | _ => acc end) ps ∅.

Definition strList (m : list (value * value)) (key : string) : gset bytes :=
  match Member m (Str (bs key)) with
  | Some (Array arr) => fold_left (fun acc e => match e with Str s => {[s]} ∪ acc | _ => acc end) arr ∅
  | _ => ∅
  end.

Definition DecodeCompileStats (v : value) : CompileStats :=
  match v with
  | Map m =>
      mkStats (decodePairs (fun v => match v with Int id => Some (i32 id) | _ => None end) (memberMap m "attrIds"))
              (decodePairs (fun v => match v with Float f => Some f | _ => None end) (memberMap m "indexEstimates"))
              (decodePairs (fun v => match v with Int id => Some id | _ => None end) (memberMap m "partitionIds"))
              (strList m "refAttrs") (strList m "indexedAttrs")
  | _ => NewCompileStats
  end.

(** The orders in which the maps are walked are the lists. *)
Definition encodePairs (f : Z → value) (l : list (bytes * Z)) : bytes :=
  Encoder.EncodeMapHeader (Z.of_nat (length l)) ++ flat_map (fun p => Encoder.Encode (Str p.1) ++ Encoder.Encode (f p.2)) l.
Definition strArr (key : string) (l : list bytes) : bytes :=
  Encoder.Encode (Str (bs key)) ++ Encoder.EncodeArrayHeader (Z.of_nat (length l)) ++ flat_map (fun s => Encoder.Encode (Str s)) l.

Definition EncodeCompileStats (attrs ests parts : list (bytes * Z)) (refs indexed : list bytes) : bytes :=
  Encoder.EncodeMapHeader 5
  ++ (Encoder.Encode (Str (bs "attrIds")) ++ encodePairs Int attrs)
  ++ (Encoder.Encode (Str (bs "indexEstimates")) ++ encodePairs Float ests)
  ++ (Encoder.Encode (Str (bs "partitionIds")) ++ encodePairs Int parts)
  ++ strArr "refAttrs" refs
  ++ strArr "indexedAttrs" indexed.

(** ** Resolution *)

Definition resolved (s : CompileStats) (id : Z) (name : bytes) : BoundValue := BvResolvedAttr id name (IsRef s name) (IsIndexed s name).

Definition resolvePattern (s : CompileStats) (p : Pattern) : option Pattern :=
  match PA p with
  | DsConst (BvAttr name) =>
      match AttrID s name with
      | Some id => if id =? 0 then None else Some (mkPattern (PE p) (DsConst (resolved s id name)) (PV p) (PT p) (PAdded p))
      | None => None
      end
  | _ => Some p
  end.

Definition resolveCond (s : CompileStats) (c : RangeCond) : RangeCond :=
  match condV c with
  | BvAttr name => match AttrID s name with Some id => mkCond (condOp c) (resolved s id name) | None => c end
  | _ => c
  end.

(** [None] is [ResolveFailed]. *)
Definition ResolveIR (ir : IR) (s : CompileStats) : option IR :=
  ps ← mapM (resolvePattern s) (Patterns ir);
  Some (withBounds (withPatterns ir ps) (map (fun rb => mkBound (rbVar rb) (map (map (resolveCond s)) (rbBranches rb))) (RangeBounds ir))).

(** ** Estimates *)

Definition one : Z := 0x3FF0000000000000.

Definition maxf (a b : Z) : Z := if float64.gt a b then a else b.

Record planStats : Type := mkPlanStats { TotalEAVT : Z; Estimates : gmap (nat * string * bytes) Z }.

Fixpoint indexOf {A} `{EqDecision A} (order : list A) (pos : A) : option nat :=
  match order with
  | [] => None
  | x :: order' => if bool_decide (x = pos) then Some 0%nat else S <$> indexOf order' pos
  end.

(** The number a constant contributes to the key of an estimate. *)
Definition estPart (p : Pattern) (pos : string) : bytes :=
  let bv := match SlotAt p pos with DsConst (BvInt i) => i | DsConst (BvResolvedAttr id _ _ _) => id | _ => 0 end in
  if bv =? 0 then [] else FormatInt bv ++ bs ":".

Definition estKeyText (idx : IndexDef) (p : Pattern) (before : list string) : bytes :=
  bs (IndexName idx) ++ bs ":" ++ flat_map (estPart p) before.

Definition estimateAt (s : CompileStats) (total : Z) (idx : IndexDef) (p : Pattern) (pos : string) : Z :=
  match IndexEstimates s !! estKeyText idx p (take (default 0%nat (indexOf (Order idx) pos)) (Order idx)) with
  | Some est => maxf est one
  | None => total
  end.

Definition patternEstimates (s : CompileStats) (total : Z) (i : nat) (p : Pattern) (acc : gmap (nat * string * bytes) Z) : gmap (nat * string * bytes) Z :=
  fold_left (fun acc idx =>
    fold_left (fun acc pos =>
      match SlotAt p pos with
      | DsVar vn => <[(i, IndexName idx, vn) := estimateAt s total idx p pos]> acc
      | _ => acc
      end) (Order idx) acc) IndexOrders acc.

Definition computePlanStats (ir : IR) (s : CompileStats) : planStats :=
  let total := maxf (default one (IndexEstimates s !! bs "EAVT:")) one in
  mkPlanStats total (fold_left (fun acc ip => patternEstimates s total ip.1 ip.2 acc) (imap pair (Patterns ir)) ∅).

Definition estimate (ps : planStats) (patIdx : nat) (index : string) (vn : bytes) : Z :=
  default posInf (Estimates ps !! (patIdx, index, vn)).
