(* ===== verification/Planner.v ===== *)
(** * The query planner (go/internal/datalog/planner.go)

    The search for the cheapest order of the variables of a query, cut off at the
    best cost so far, and the plan of a scanner for every pattern. Costs are
    [float64]s as bit patterns. The set of reference attributes the search carries
    is never read and is left out, as is the field [Penalty], which is never set. *)

From Stdlib Require Import String.
From S2P Require Import Prelude Keys Numfmt QueryStore Sorting Float64 Datalog.
Open Scope string_scope.
Open Scope list_scope.
Open Scope Z_scope.

(** ** Types *)

Inductive PlanValue : Type :=
| PvValue (i f : Z) (s : bytes)
| PvParam (n : Z).
Definition pvInt (i : Z) : PlanValue := PvValue i 0 [].
Definition pvFloat (f : Z) : PlanValue := PvValue 0 f [].
Definition pvStr (s : bytes) : PlanValue := PvValue 0 0 s.

Inductive SpecKind : Type :=
| SkVar (v : bytes)
| SkBound (n : Z)
| SkBoundAttr (id : Z)
| SkBoundValue (i f : Z) (s : bytes)
| SkBoundParam (n : Z).

Record ActiveClause : Type := mkActive { Ci : nat; acIndex : string }.

Record DepthTrace : Type := mkDepth {
  dtVar : bytes;
  ActiveClauses : list ActiveClause;
  EstimatedElements : Z;
  IsBlind : bool;
  StepCost : Z;
}.

Record PlanTrace : Type := mkTrace {
  Ordering : list bytes;
  Depths : list DepthTrace;
  TotalCost : Z;
  Pruned : bool;
  Chosen : bool;
}.

Record SyntheticVar : Type := mkSynth { svName : bytes; SourceVar : bytes; PatternIdx : nat; svPos : string }.
Record BoundInt : Type := mkBoundInt { biPos : string; biV : PlanValue }.
Record DepthPos : Type := mkDepthPos { dpDepth : nat; dpPos : string }.
Record SameVarConstraint : Type := mkSame { scDepth : nat; scPositions : list string }.

Record IterPlanData : Type := mkIter {
  ipIndex : string;
  IdxOrder : list string;
  Specs : list SpecKind;
  BoundInts : list BoundInt;
  VarDepths : list DepthPos;
  SameVarConstraints : list SameVarConstraint;
  ActiveDepths : list nat;
  GlobalVarOrder : list bytes;
  AttrIsIndexed : bool;
}.

Record PlanCond : Type := mkPlanCond { pcOp : bytes; pcV : PlanValue }.
Record ConvertedRangeBound : Type := mkConverted { cvVar : bytes; cvBranches : list (list PlanCond) }.

Record QueryPlanResult : Type := mkPlan {
  IterPlans : list IterPlanData;
  Lookups : list Pattern;
  JoinPatterns : list Pattern;
  OrderedVars : list bytes;
  EVars : list bytes;
  AttrVars : list bytes;
  TLookupVars : list bytes;
  VarOrder : list bytes;
  PlanTraces : list PlanTrace;
  plHistory : bool;
  plExists : bool;
  plFindVars : list FindVar;
  plBounds : list ConvertedRangeBound;
  SyntheticVars : list SyntheticVar;
}.

(** ** Values *)

Definition fromBoundValue (bv : BoundValue) : option PlanValue :=
  match bv with
  | BvInt i => Some (pvInt i)
  | BvFloat f => Some (pvFloat f)
  | BvStr s => Some (pvStr s)
  | BvAttr s => Some (pvStr s)
  | BvResolvedAttr id _ _ _ => Some (pvInt id)
  | BvParam n => Some (PvParam n)
  | BvBool b => Some (pvInt (Z.b2z b))
  | BvVar _ | BvMissing _ => None
  end.

Definition convertRangeBounds (bounds : list RangeBound) : list ConvertedRangeBound :=
  map (fun rb => mkConverted (rbVar rb)
    (map (omap (fun c => mkPlanCond (condOp c) <$> fromBoundValue (condV c))) (rbBranches rb))) bounds.

(** ** Choice of an index *)

Definition mem (l : list bytes) (x : bytes) : bool := bool_decide (x ∈ l).

Definition isSlotBound (s : Slot) (bound : list bytes) : bool :=
  match s with
  | DsMissing => false
  | DsConst (BvMissing _) => false
  | DsConst _ => true
  | DsVar v => mem bound v
  end.

Definition isPrefixOK (s : Slot) (bound : list bytes) : bool :=
  match s with DsMissing | DsConst _ => true | DsVar v => mem bound v end.

Definition positions : list string := ["e"; "a"; "v"; "t"; "added"].
Definition targetPosOf (p : Pattern) (v : bytes) : option string := List.find (fun pos => isVar (SlotAt p pos) v) positions.

Definition attrIsRef (p : Pattern) : bool := match PA p with DsConst (BvResolvedAttr _ _ r _) => r | _ => false end.
Definition attrIsIndexed (p : Pattern) : bool := match PA p with DsConst (BvResolvedAttr _ _ _ i) => i | _ => true end.

Definition isMissing (s : Slot) : bool := match s with DsMissing => true | _ => false end.

(** How many of the first positions meet the test. *)
Fixpoint leading {A} (f : A → bool) (l : list A) : nat :=
  match l with x :: l' => if f x then S (leading f l') else 0%nat | [] => 0%nat end.

(** Whether an index can serve the position, with the length of its bound prefix and its gaps. *)
Definition indexFor (p : Pattern) (bound : list bytes) (targetPos : string) (idx : IndexDef) : option (nat * nat) :=
  if String.eqb (IndexName idx) "VAET" && negb (attrIsRef p) then None
  else if String.eqb (IndexName idx) "AVET" && negb (attrIsIndexed p) then None
  else
    match indexOf (Order idx) targetPos with
    | None => None
    | Some n =>
        let before := map (SlotAt p) (take n (Order idx)) in
        if forallb (fun s => isPrefixOK s bound) before then
          Some (leading (fun s => isSlotBound s bound) before, length (List.filter isMissing before))
        else None
    end.

(** Of equal prefixes the one with fewer gaps, of equal gaps the first. *)
Definition betterIndex (p : Pattern) (bound : list bytes) (targetPos : string) (best : option (string * nat * nat)) (idx : IndexDef) : option (string * nat * nat) :=
  match indexFor p bound targetPos idx with
  | None => best
  | Some (prefixLen, gapCount) =>
      let this := Some (IndexName idx, prefixLen, gapCount) in
      match best with
      | None => this
      | Some (_, bestPrefix, bestGap) =>
          if Nat.ltb bestPrefix prefixLen || (Nat.eqb prefixLen bestPrefix && Nat.ltb gapCount bestGap) then this else best
      end
  end.

Definition findBestIndex (p : Pattern) (v : bytes) (bound : list bytes) : option (string * nat * nat) :=
  match targetPosOf p v with
  | None => None
  | Some targetPos => fold_left (betterIndex p bound targetPos) IndexOrders None
  end.

Definition isVarReachableInIndex (p : Pattern) (v : bytes) (index : string) (bound : list bytes) : bool :=
  match targetPosOf p v with
  | None => false
  | Some targetPos =>
      match indexOf (IndexEntry index) targetPos with
      | None => false
      | Some n => forallb (fun pos => isSlotBound (SlotAt p pos) bound) (take n (IndexEntry index))
      end
  end.

(** ** The search *)

Record searchState : Type := mkSearch {
  bestOrdering : list bytes;
  bestClauseIndexes : list string;
  bestCost : Z;
  traces : list PlanTrace;
}.

Record searchEnv : Type := mkEnv {
  clauses : list Pattern;
  findSet : list bytes;
  rangeVars : list bytes;
  totalRecords : Z;
  stats : planStats;
  joinIndices : list nat;
  synths : list SyntheticVar;
}.

Definition synthByName (env : searchEnv) (v : bytes) : option SyntheticVar :=
  List.find (fun s => bool_decide (svName s = v)) (rev (synths env)).

Definition varPriority (name : bytes) : Z :=
  if has_prefix name (bs "?e_") then 0
  else if has_prefix name (bs "?a_") then 1
  else if has_prefix name (bs "?v") then 2
  else if has_prefix name (bs "_t_") then 3
  else if has_prefix name (bs "?added_") then 4
  else 5.

Definition candidateCmp (found : list bytes) (a b : bytes) : Z :=
  let c := Z.b2z (mem found b) - Z.b2z (mem found a) in
  if negb (c =? 0) then c
  else if negb (varPriority a =? varPriority b) then varPriority a - varPriority b
  else match bcmp a b with Lt => -1 | Gt => 1 | Eq => 0 end.

Record candPlan : Type := mkCand {
  cVar : bytes;
  cActive : list ActiveClause;
  cSizes : list Z;
  cNewIdx : list string;
  cGaps : nat;
}.
Definition cBlind (cp : candPlan) : bool := match cActive cp with [] => true | _ => false end.

(** A clause that has the variable joins it by the index it has, or by the best one. *)
Definition clauseStep (env : searchEnv) (bound : list bytes) (idxMap : list string) (cp : candPlan) (c : nat * Pattern) : candPlan :=
  let '(ci, clause) := c in
  let v := cVar cp in
  let size index := estimate (stats env) (nth ci (joinIndices env) 0%nat) index v in
  if negb (ContainsVarInEAV clause v) then cp
  else
    let assigned := nth ci idxMap "" in
    if negb (String.eqb assigned "") then
      if isVarReachableInIndex clause v assigned bound then
        mkCand v (cActive cp ++ [mkActive ci assigned]) (cSizes cp ++ [size assigned]) (cNewIdx cp) (cGaps cp)
      else cp
    else
      match findBestIndex clause v bound with
      | Some (best, _, gap) =>
          mkCand v (cActive cp ++ [mkActive ci best]) (cSizes cp ++ [size best]) (<[ci := best]> (cNewIdx cp)) (cGaps cp + gap)%nat
      | None => cp
      end.

Definition candPlanOf (env : searchEnv) (bound : list bytes) (idxMap : list string) (v : bytes) : candPlan :=
  fold_left (clauseStep env bound idxMap) (imap pair (clauses env)) (mkCand v [] [] idxMap 0).

(** A repeated occurrence comes after the variable itself. *)
Definition ready (env : searchEnv) (bound : list bytes) (v : bytes) : bool :=
  match synthByName env v with Some s => mem bound (SourceVar s) | None => true end.

Definition candPlans (env : searchEnv) (remaining bound : list bytes) (idxMap : list string) : list candPlan :=
  map (candPlanOf env bound idxMap)
    (List.filter (ready env bound) (sortStable (fun a b => candidateCmp (findSet env) a b <? 0) remaining)).

Section costs.
Variable nan : Z.

#[local] Notation "a *f b" := (float64.mul nan a b) (at level 40, left associativity).
#[local] Notation "a +f b" := (float64.add nan a b) (at level 50, left associativity).
Definition floatOf (n : nat) : Z := float64.ofInt nan (Z.of_nat n).
Definition tenth : Z := 0x3FB999999999999A.

(** The variables of the first three slots that are not bound. *)
Definition undefCount (p : Pattern) (v : bytes) (bound : list bytes) : nat :=
  length (List.filter (fun s => match s with DsVar x => negb (bool_decide (x = v)) && negb (mem bound x) | _ => false end) [PE p; PA p; PV p]).

Definition undefPenalty (env : searchEnv) (cp : candPlan) (bound : list bytes) : Z :=
  fold_left (fun pen ac =>
    match undefCount (nth (Ci ac) (clauses env) (mkPattern DsMissing DsMissing DsMissing DsMissing DsMissing)) (cVar cp) bound with
    | O => pen
    | n => let p := one +f floatOf n in if float64.gt p pen then p else pen
    end) (cActive cp) one.

Definition smallest (sizes : list Z) : Z := fold_left (fun el s => if float64.lt s el then s else el) sizes posInf.

(** The elements at this depth, and the cost of the step. *)
Definition stepCostOf (env : searchEnv) (bound : list bytes) (cp : candPlan) (depth : nat) (top : Z) : Z * Z :=
  let rangeSel := if mem (rangeVars env) (cVar cp) then tenth else one in
  match synthByName env (cVar cp) with
  | Some _ => (top, floatOf depth *f tenth)
  | None =>
      if cBlind cp then
        let el := totalRecords env *f rangeSel in
        (el, if Nat.eqb depth 0 then el *f el else top *f el)
      else
        let el := smallest (cSizes cp) *f rangeSel in
        (el, el *f floatOf (length (cActive cp)) *f undefPenalty env cp bound *f (one +f floatOf (cGaps cp)))
  end.

Definition without (v : bytes) (l : list bytes) : list bytes := List.filter (fun x => negb (bool_decide (x = v))) l.

(** A blind step is not taken when another is possible and the search says so. *)
Definition skipped (preferNonBlind : bool) (plans : list candPlan) (cp : candPlan) : bool :=
  preferNonBlind && existsb (fun cp => negb (cBlind cp)) plans && cBlind cp.

Fixpoint exploreOrderingDepth (fuel : nat) (env : searchEnv) (preferNonBlind : bool) (remaining bound : list bytes) (idxMap : list string)
    (accumulated top : Z) (path : list bytes) (depthTraces : list DepthTrace) (state : searchState) : res searchState :=
  match fuel with
  | O => Diverge
  | S fuel' =>
      let trace pruned := mkTrace path depthTraces accumulated pruned false in
      match remaining with
      | [] =>
          let ts := traces state ++ [trace false] in
          Ok (if float64.lt accumulated (bestCost state) then mkSearch path idxMap accumulated ts
              else mkSearch (bestOrdering state) (bestClauseIndexes state) (bestCost state) ts)
      | _ =>
          if float64.ge accumulated (bestCost state) then
            Ok (mkSearch (bestOrdering state) (bestClauseIndexes state) (bestCost state) (traces state ++ [trace true]))
          else
            let plans := candPlans env remaining bound idxMap in
            foldRes (fun state cp =>
              if skipped preferNonBlind plans cp then Ok state
              else
                let v := cVar cp in
                let '(levelElements, stepCost) := stepCostOf env bound cp (length path) top in
                exploreOrderingDepth fuel' env preferNonBlind (without v remaining) (bound ++ [v]) (cNewIdx cp)
                  (accumulated +f stepCost) levelElements (path ++ [v])
                  (depthTraces ++ [mkDepth v (cActive cp) levelElements (cBlind cp) stepCost]) state) plans state
      end
  end.
End costs.

(** ** Plans of scanners *)

Definition firstn (n : nat) (l : list bytes) : list bytes := take n l.

Definition assocBoundInt (l : list BoundInt) (pos : string) : option PlanValue := biV <$> List.find (fun b => String.eqb (biPos b) pos) l.

Definition boundAt (ip : IterPlanData) (order : list string) : list BoundInt :=
  omap (fun pos => if String.eqb pos "added" then None else mkBoundInt pos <$> assocBoundInt (BoundInts ip) pos) order.

Definition boundPositionsBefore (ip : IterPlanData) (depth : nat) : list BoundInt :=
  let cutoff :=
    match List.find (fun dp => Nat.eqb (dpDepth dp) depth) (VarDepths ip) with
    | Some dp => default (length (IdxOrder ip)) (indexOf (IdxOrder ip) (dpPos dp))
    | None => length (IdxOrder ip)
    end in
  boundAt ip (take cutoff (IdxOrder ip)).

Definition allBoundPositions (ip : IterPlanData) : list BoundInt := boundAt ip (IdxOrder ip).

Definition specOf (s : Slot) : SpecKind :=
  match s with
  | DsMissing => SkBound 0
  | DsVar v => SkVar v
  | DsConst (BvInt i) => SkBoundValue i 0 []
  | DsConst (BvFloat f) => SkBoundValue 0 f []
  | DsConst (BvStr s) => SkBoundValue 0 0 s
  | DsConst (BvAttr s) => SkBoundValue 0 0 s
  | DsConst (BvResolvedAttr id _ _ _) => SkBoundAttr id
  | DsConst (BvParam n) => SkBoundParam n
  | DsConst (BvVar v) => SkVar v
  | DsConst _ => SkBound 0
  end.

(** (depth, positions) in front, an older entry of the depth removed. *)
Definition setSameVarConstraint (l : list SameVarConstraint) (depth : nat) (pos : string) : list SameVarConstraint :=
  let fix split (l : list SameVarConstraint) : list string * list SameVarConstraint :=
    match l with
    | [] => ([], [])
    | c :: l' => if Nat.eqb (scDepth c) depth then (scPositions c, l') else let '(e, r) := split l' in (e, c :: r)
    end in
  let '(existing, rest) := split l in
  mkSame depth (existing ++ [pos]) :: rest.

(** What the walk over the positions of an index carries. *)
Record walk : Type := mkWalk { wDepths : list DepthPos; wSame : list SameVarConstraint; wSpecs : list SpecKind; wSeen : bool }.
Definition activeAt (w : walk) (d : nat) : bool := existsb (fun dp => Nat.eqb (dpDepth dp) d) (wDepths w).

Definition skipName (pos index : string) : bytes := bs "?skip_" ++ bs pos ++ bs "_" ++ toLower (bs index).

Definition walkStep (p : Pattern) (patternIdx : nat) (order : list string) (globalVarOrder : list bytes) (syntheticVars : list SyntheticVar)
    (w : walk) (pos : string) : walk :=
  let specIdx := default 0%nat (indexOf positions pos) in
  match SlotAt p pos with
  | DsVar v =>
      let synthetic := svName <$> List.find (fun s => Nat.eqb (PatternIdx s) patternIdx && String.eqb (svPos s) pos) syntheticVars in
      let effective := default v synthetic in
      match indexOf globalVarOrder effective with
      | None => mkWalk (wDepths w) (wSame w) (wSpecs w) true
      | Some d =>
          if activeAt w d then mkWalk (wDepths w) (setSameVarConstraint (wSame w) d pos) (wSpecs w) true
          else mkWalk (wDepths w ++ [mkDepthPos d pos]) (wSame w)
                 (if bool_decide (effective = v) then wSpecs w else <[specIdx := SkVar effective]> (wSpecs w)) true
      end
  | DsMissing =>
      if wSeen w then w
      else
        let name := skipName pos (nth 0 order "") in
        match indexOf globalVarOrder name with
        | Some d => if activeAt w d then w else mkWalk (wDepths w ++ [mkDepthPos d pos]) (wSame w) (<[specIdx := SkVar name]> (wSpecs w)) (wSeen w)
        | None => w
        end
  | DsConst _ => w
  end.

(** Whether a variable can be reached at its depth: what comes before it in the index is known by then. *)
Definition reachable (p : Pattern) (order : list string) (globalVarOrder : list bytes) (dp : DepthPos) : bool :=
  match SlotAt p (dpPos dp) with
  | DsVar _ =>
      match indexOf order (dpPos dp) with
      | None => false
      | Some n => forallb (fun pos => isPrefixOK (SlotAt p pos) (firstn (dpDepth dp) globalVarOrder)) (take n order)
      end
  | _ => true
  end.

Fixpoint distinctDepths (l : list DepthPos) (last_ : option nat) : list nat :=
  match l with
  | [] => []
  | dp :: l' => if bool_decide (last_ = Some (dpDepth dp)) then distinctDepths l' last_ else dpDepth dp :: distinctDepths l' (Some (dpDepth dp))
  end.

Definition buildIterPlan (p : Pattern) (patternIdx : nat) (idxName : string) (boundInts : list BoundInt)
    (globalVarOrder : list bytes) (syntheticVars : list SyntheticVar) : IterPlanData :=
  let order := IndexEntry idxName in
  let w := fold_left (walkStep p patternIdx order globalVarOrder syntheticVars) order (mkWalk [] [] (map specOf (slots p)) false) in
  let sorted := sortStable (fun a b => Nat.ltb (dpDepth a) (dpDepth b)) (wDepths w) in
  let filtered := List.filter (reachable p order globalVarOrder) sorted in
  mkIter idxName order (wSpecs w) boundInts filtered (rev (wSame w)) (distinctDepths filtered None) globalVarOrder (attrIsIndexed p).

(** Before index [i], at the end when there is none. *)
Definition listInsert (l : list bytes) (i : nat) (item : bytes) : list bytes := take i l ++ item :: drop i l.

Definition contains (l : list bytes) (s : bytes) : bool := mem l s.

Definition sortedUnique (l : list bytes) : list bytes :=
  sortStable (fun a b => bool_decide (a <b b)) (fold_left (fun acc x => if mem acc x then acc else acc ++ [x]) l []).

(** ** The plan of a query *)

(** What the walk over the slots of the patterns collects. *)
Record varWalk : Type := mkVarWalk { vwOrder : list bytes; vwAll : list bytes; vwSynth : list SyntheticVar }.

Definition tooMany (name : bytes) (patIdx : nat) : bytes :=
  bs "variable '" ++ name ++ bs "' appears in more than 2 positions in pattern " ++ FormatInt (Z.of_nat patIdx)
  ++ bs "; only 2 occurrences (same-var confirmation) are supported".

(** [occ] are the variables of the slots of this pattern so far. *)
Fixpoint slotWalk (patIdx : nat) (ss : list (string * Slot)) (occ : list bytes) (w : varWalk) : bytes + varWalk :=
  match ss with
  | [] => inr w
  | (pos, DsVar v) :: ss' =>
      if Nat.leb 2 (length (List.filter (fun x => bool_decide (x = v)) occ)) then inl (tooMany v patIdx)
      else
        let w :=
          if negb (mem (vwOrder w) v) then mkVarWalk (vwOrder w ++ [v]) (vwAll w ++ [v]) (vwSynth w)
          else if negb (mem occ v) then w
          else
            let name := v ++ bs "@p" ++ FormatInt (Z.of_nat patIdx) ++ bs "." ++ bs pos in
            mkVarWalk (vwOrder w) (vwAll w ++ [name]) (vwSynth w ++ [mkSynth name v patIdx pos]) in
        slotWalk patIdx ss' (occ ++ [v]) w
  | _ :: ss' => slotWalk patIdx ss' occ w
  end.

Fixpoint patternWalk (i : nat) (ps : list Pattern) (w : varWalk) : bytes + varWalk :=
  match ps with
  | [] => inr w
  | p :: ps' =>
      match slotWalk i (zip positions (slots p)) [] w with
      | inl m => inl m
      | inr w => patternWalk (S i) ps' w
      end
  end.

Definition varOf (s : Slot) : option bytes := match s with DsVar v => Some v | _ => None end.

Definition tLookupVarsOf (lookups : list Pattern) : list bytes :=
  fold_left (fun acc p => match varOf (PT p) with Some n => if contains acc n then acc else acc ++ [n] | None => acc end) lookups [].

(** The index of a pattern without variables: the longest prefix of constants. *)
Definition constIndex (p : Pattern) : string :=
  let isConst pos := match SlotAt p pos with DsConst _ => true | _ => false end in
  (fold_left (fun '(best, score) idx =>
     let n := leading isConst (Order idx) in if Nat.ltb score n then (IndexName idx, n) else (best, score)) IndexOrders ("", 0%nat)).1.

Definition validationIndex (p : Pattern) (assigned : string) : string :=
  if negb (String.eqb assigned "") then assigned
  else if forallb (fun s => negb (match s with DsVar _ => true | _ => false end)) (slots p) && negb (IsLookup p) then constIndex p
  else "".

(** The blanks before the first variable of a pattern get variables of their own. *)
Definition addSkip (targetVar : bytes) (idxName : string) (p : Pattern) (ordered : list bytes) (pos : string) : list bytes :=
  if negb (isMissing (SlotAt p pos)) then ordered
  else
    let name := skipName pos idxName in
    if contains ordered name then ordered
    else match indexOf ordered targetVar with Some i => listInsert ordered i name | None => ordered ++ [name] end.

Definition addSkips (ordered : list bytes) (pi : Pattern * string) : list bytes :=
  let '(p, idxName) := pi in
  if String.eqb idxName "" then ordered
  else
    let order := IndexEntry idxName in
    let n := leading (fun pos => negb (match SlotAt p pos with DsVar _ => true | _ => false end)) order in
    match varOf (SlotAt p (nth n order "")) with
    | Some targetVar => if Nat.ltb n (length order) then fold_left (addSkip targetVar idxName p) (take n order) ordered else ordered
    | None => ordered
    end.

Definition boundE (s : Slot) : list BoundInt :=
  match s with
  | DsConst (BvInt i) => [mkBoundInt "e" (pvInt i)]
  | DsConst (BvStr s) | DsConst (BvAttr s) => [mkBoundInt "e" (pvStr s)]
  | DsConst (BvParam n) => [mkBoundInt "e" (PvParam n)]
  | _ => []
  end.
Definition boundA (s : Slot) : list BoundInt :=
  match s with
  | DsConst (BvResolvedAttr _ s _ _) | DsConst (BvStr s) | DsConst (BvAttr s) => [mkBoundInt "a" (pvStr s)]
  | DsConst (BvParam n) => [mkBoundInt "a" (PvParam n)]
  | _ => []
  end.
Definition boundV (s : Slot) : list BoundInt :=
  match s with
  | DsConst (BvInt i) => [mkBoundInt "v" (pvInt i)]
  | DsConst (BvFloat f) => [mkBoundInt "v" (pvFloat f)]
  | DsConst (BvStr s) | DsConst (BvAttr s) => [mkBoundInt "v" (pvStr s)]
  | DsConst (BvParam n) => [mkBoundInt "v" (PvParam n)]
  | _ => []
  end.

Definition iterPlansOf (ps : list Pattern) (clauseIndexes : list string) (ordered : list bytes) (syntheticVars : list SyntheticVar) : list IterPlanData :=
  omap (fun x => let '(i, (p, idxName)) := x in
    if String.eqb idxName "" then None
    else Some (buildIterPlan p i idxName (boundE (PE p) ++ boundA (PA p) ++ boundV (PV p)) ordered syntheticVars))
    (imap pair (zip ps clauseIndexes)).

(** The trace of the order chosen is marked, and gets the depths of the skip variables. *)
Definition markChosen (best ordered : list bytes) (t : PlanTrace) : PlanTrace :=
  if Pruned t || negb (bool_decide (best = Ordering t)) then t
  else
    mkTrace ordered
      (map (fun v => default (mkDepth v [] 0 false 0) (List.find (fun d => bool_decide (dtVar d = v)) (rev (Depths t)))) ordered)
      (TotalCost t) (Pruned t) true.

(** Every variable is bound at its depth by some scanner. *)
Definition soundPlan (allVars ordered : list bytes) (ips : list IterPlanData) : bool :=
  forallb (fun v => match indexOf ordered v with
                    | Some d => existsb (fun ip => existsb (fun dp => Nat.eqb (dpDepth dp) d) (VarDepths ip)) ips
                    | None => true
                    end) allVars.

Section plan.
Variable nan : Z.
Variables (lookups joins : list Pattern) (w : varWalk) (env : searchEnv).

Definition runSearch (preferNonBlind : bool) : res searchState :=
  exploreOrderingDepth nan (S (length (vwAll w))) env preferNonBlind (vwAll w) [] (replicate (length joins) "") 0 one [] []
    (mkSearch [] [] posInf []).

Definition finalize (state : searchState) : QueryPlanResult * bool :=
  let ordered := match bestOrdering state with [] => vwAll w | o => o end in
  let clauseIndexes := match bestClauseIndexes state with [] => replicate (length joins) "" | c => c end in
  let clauseIndexes := map (fun '(p, idx) => validationIndex p idx) (zip joins clauseIndexes) in
  let ordered := fold_left addSkips (zip joins clauseIndexes) ordered in
  let ips := iterPlansOf joins clauseIndexes ordered (vwSynth w) in
  (mkPlan ips lookups joins ordered (sortedUnique (omap (fun p => varOf (PE p)) joins)) (sortedUnique (omap (fun p => varOf (PA p)) joins))
     (tLookupVarsOf lookups) (vwOrder w) (map (markChosen (bestOrdering state) ordered) (traces state)) false false [] [] (vwSynth w),
   soundPlan (vwAll w) ordered ips).

(** When the order chosen leaves a variable without a scanner, the search is done again without needless blind steps. *)
Definition searchPlan : res QueryPlanResult :=
  state ← runSearch false;
  let '(plan, sound) := finalize state in
  if (sound : bool) then Ok plan
  else
    state ← runSearch true;
    Ok (finalize state).1.
End plan.

Definition BuildQueryPlan (nan : Z) (wherePatterns : list Pattern) (findVars rangeVars : list bytes) (ps : planStats) : res (bytes + QueryPlanResult) :=
  let lookups := List.filter IsLookup wherePatterns in
  let joins := List.filter (fun ip => negb (IsLookup ip.2)) (imap pair wherePatterns) in
  match joins with
  | [] => Ok (inr (mkPlan [] lookups [] [] [] [] (tLookupVarsOf lookups) [] [] false false [] [] []))
  | _ =>
      match patternWalk 0 (map snd joins) (mkVarWalk [] [] []) with
      | inl m => Ok (inl m)
      | inr w =>
          let env := mkEnv (map snd joins) findVars rangeVars (TotalEAVT ps) ps (map fst joins) (vwSynth w) in
          plan ← searchPlan nan lookups (map snd joins) w env;
          Ok (inr plan)
      end
  end.
