(* ===== verification/PlannerSpec.v ===== *)
(** * What the search of the planner finds (go/internal/datalog/planner.go)

    The search cut off at the best cost accounts for every order of the variables
    that is allowed: each one was costed to its end, or given up at a cost that is
    no lower than the one chosen. *)

From Stdlib Require Import String SpecFloat.
From S2P Require Import Prelude Sorting Numfmt Float64 Datalog Planner.
Open Scope string_scope.
Open Scope list_scope.
Open Scope Z_scope.

(** ** Comparison of floats *)

Lemma SFcompare_lt_trans a b c : SFcompare a b = Some Lt → SFcompare b c = Some Lt → SFcompare a c = Some Lt.
Proof.
  destruct a as [s1|s1| |s1 m1 e1], b as [s2|s2| |s2 m2 e2], c as [s3|s3| |s3 m3 e3]; try done;
    destruct s1; try done; destruct s2; try done; try destruct s3; try done; cbn [SFcompare].
  all: repeat match goal with |- context [Z.compare ?x ?y] => destruct (Z.compare_spec x y) end; subst; try done; try lia.
  all: repeat match goal with |- context [Pos.compare_cont Eq ?x ?y] => change (Pos.compare_cont Eq x y) with (Pos.compare x y); destruct (Pos.compare_spec x y) end; subst; try done; try lia.
Qed.

Lemma float_lt_trans a b c : float64.lt a b = true → float64.lt b c = true → float64.lt a c = true.
Proof.
  unfold float64.lt, float64.compare. destruct (SFcompare (float64.ofBits a) _) as [[]|] eqn:E1; try done. intros _.
  destruct (SFcompare (float64.ofBits b) _) as [[]|] eqn:E2; try done. intros _. by rewrite (SFcompare_lt_trans _ _ _ E1 E2).
Qed.

Lemma float_lt_irrefl a : float64.lt a a = false.
Proof.
  destruct (float64.lt a a) eqn:E; [|done]. revert E. unfold float64.lt, float64.compare. destruct (float64.ofBits a) as [[]|[]| |[] m e]; try done; cbn [SFcompare].
  all: rewrite Z.compare_refl; change (Pos.compare_cont Eq m m) with (Pos.compare m m); by rewrite Pos.compare_refl.
Qed.

Lemma float_ge_not_lt a b : float64.ge a b = true → float64.lt a b = false.
Proof. unfold float64.ge, float64.lt. by destruct (float64.compare a b) as [[]|]. Qed.

(** ** Candidates *)

Lemma clauseStep_var env bound idx cp c : cVar (clauseStep env bound idx cp c) = cVar cp.
Proof.
  destruct c as [ci clause]. unfold clauseStep. cbv zeta. destruct (negb (ContainsVarInEAV _ _)); [done|]. destruct (negb (String.eqb _ _)).
  - by destruct (isVarReachableInIndex _ _ _ _).
  - by destruct (findBestIndex _ _ _) as [[[]]|].
Qed.

Lemma candPlanOf_var env bound idx v : cVar (candPlanOf env bound idx v) = v.
Proof.
  unfold candPlanOf. change v with (cVar (mkCand v [] [] idx 0)) at 2. generalize (mkCand v [] [] idx 0) as cp.
  induction (imap pair (clauses env)) as [|c l IH]; intros cp; [done|]. cbn [fold_left]. by rewrite IH, clauseStep_var.
Qed.

Lemma elem_of_candPlans env remaining bound idx cp :
  cp ∈ candPlans env remaining bound idx ↔ ∃ v, cp = candPlanOf env bound idx v ∧ v ∈ remaining ∧ ready env bound v = true.
Proof.
  unfold candPlans. rewrite list_elem_of_fmap. setoid_rewrite list_elem_of_In. setoid_rewrite filter_In. setoid_rewrite <- list_elem_of_In.
  setoid_rewrite (sortStable_perm _ remaining). done.
Qed.

(** ** Orders *)

(** Every repeated occurrence comes after its variable. *)
Definition allowed (env : searchEnv) (before order : list bytes) : Prop :=
  ∀ i v, order !! i = Some v → ready env (before ++ take i order) v = true.

Lemma allowed_cons env before v order : allowed env before (v :: order) ↔ ready env before v = true ∧ allowed env (before ++ [v]) order.
Proof.
  split.
  - intros H. split; [pose proof (H 0%nat v eq_refl) as H0; cbn in H0; by rewrite app_nil_r in H0|]. intros i x Hi.
    specialize (H (S i) x Hi). cbn [take] in H. by rewrite <- app_assoc.
  - intros [H0 H] [|i] x; cbn [lookup take]; [intros [= <-]; by rewrite app_nil_r|]. intros Hi. specialize (H i x Hi). by rewrite <- app_assoc in H.
Qed.

Lemma allowed_snoc env before order v : allowed env before order → ready env (before ++ order) v = true → allowed env before (order ++ [v]).
Proof.
  intros H Hv i x [Hi|[Hle Hi]]%lookup_app_Some.
  - rewrite take_app_le by (apply lookup_lt_Some in Hi; lia). by apply H.
  - destruct (i - length order)%nat as [|n] eqn:En; [|done]. injection Hi as <-. replace i with (length order) by lia. by rewrite take_app_length.
Qed.

Lemma without_perm v l : NoDup l → v ∈ l → l ≡ₚ v :: without v l.
Proof.
  induction 1 as [|x l Hx Hl IH]; [intros []%elem_of_nil|]. cbn [without List.filter]. intros [->|Hv]%elem_of_cons.
  - rewrite bool_decide_eq_true_2 by done. cbn [negb]. f_equiv. clear IH Hl. induction l as [|y l IH]; [done|]. apply not_elem_of_cons in Hx as [Hxy Hx].
    cbn [List.filter]. rewrite bool_decide_eq_false_2 by congruence. cbn [negb]. f_equiv. by apply IH.
  - rewrite bool_decide_eq_false_2 by (intros ->; done). cbn [negb]. rewrite Permutation_swap. f_equiv. by apply IH.
Qed.

Section search.
Variable nan : Z.
Variable env : searchEnv.
Variable vars : list bytes.

(** The trace of an order, or of the beginning of one. *)
Record traceOk (t : PlanTrace) : Prop := {
  tr_depths : map dtVar (Depths t) = Ordering t;
  tr_cost : TotalCost t = fold_left (float64.add nan) (map StepCost (Depths t)) 0;
  tr_allowed : allowed env [] (Ordering t);
  tr_whole : Pruned t = false → Ordering t ≡ₚ vars;
}.

(** The trace accounts for the order. *)
Definition covers (t : PlanTrace) (order : list bytes) : Prop :=
  if Pruned t then Ordering t `prefix_of` order else Ordering t = order.

Record searchOk (s : searchState) : Prop := {
  sk_traces t : t ∈ traces s → traceOk t ∧ float64.lt (TotalCost t) (bestCost s) = false;
  sk_best : (bestOrdering s = [] ∧ bestCost s = posInf)
    ∨ ∃ t, t ∈ traces s ∧ Pruned t = false ∧ Ordering t = bestOrdering s ∧ TotalCost t = bestCost s;
}.

Lemma searchOk_leaf s path idx depths acc :
  searchOk s → traceOk (mkTrace path depths acc false false) →
  searchOk (if float64.lt acc (bestCost s) then mkSearch path idx acc (traces s ++ [mkTrace path depths acc false false])
            else mkSearch (bestOrdering s) (bestClauseIndexes s) (bestCost s) (traces s ++ [mkTrace path depths acc false false])).
Proof.
  intros [Ht Hb] Hn. destruct (float64.lt acc (bestCost s)) eqn:El; constructor; cbn [traces bestCost bestOrdering].
  - intros t [H| ->%list_elem_of_singleton]%elem_of_app; [|by split; [|apply float_lt_irrefl]]. destruct (Ht t H) as [Hok Hlt]. split; [done|].
    destruct (float64.lt (TotalCost t) acc) eqn:E; [|done]. by rewrite (float_lt_trans _ _ _ E El) in Hlt.
  - right. eexists. split; [apply elem_of_app; right; by apply list_elem_of_singleton|done].
  - intros t [H| ->%list_elem_of_singleton]%elem_of_app; [by apply Ht|done].
  - destruct Hb as [Hb|(t&H&Hb)]; [by left|]. right. exists t. split; [apply elem_of_app; by left|done].
Qed.

Lemma searchOk_pruned s path depths acc :
  searchOk s → float64.ge acc (bestCost s) = true → traceOk (mkTrace path depths acc true false) →
  searchOk (mkSearch (bestOrdering s) (bestClauseIndexes s) (bestCost s) (traces s ++ [mkTrace path depths acc true false])).
Proof.
  intros [Ht Hb] Hge Hn. constructor; cbn [traces bestCost bestOrdering].
  - intros t [H| ->%list_elem_of_singleton]%elem_of_app; [by apply Ht|]. split; [done|]. by apply float_ge_not_lt.
  - destruct Hb as [Hb|(t&H&Hb)]; [by left|]. right. exists t. split; [apply elem_of_app; by left|done].
Qed.

(** What a step of the search gives for the orders it is responsible for. *)
Definition explored (orders : list bytes → Prop) (s s' : searchState) : Prop :=
  searchOk s' ∧ traces s ⊆ traces s' ∧ ∀ order, orders order → ∃ t, t ∈ traces s' ∧ covers t order.

Lemma foldRes_explored {X} (f : searchState → X → res searchState) (orders : X → list bytes → Prop) l s :
  (∀ x s, x ∈ l → searchOk s → ∃ s', f s x = Ok s' ∧ explored (orders x) s s') → searchOk s →
  ∃ s', foldRes f l s = Ok s' ∧ explored (fun o => ∃ x, x ∈ l ∧ orders x o) s s'.
Proof.
  revert s. induction l as [|x l IH]; intros s Hf Hs.
  { exists s. split; [done|]. split_and!; [done|done|]. intros o (x&[]%elem_of_nil&_). }
  destruct (Hf x s) as (s1&E1&H1&Hsub1&Hc1); [left|done|]. destruct (IH s1) as (s2&E2&H2&Hsub2&Hc2); [intros; apply Hf; [by right|done]|done|].
  exists s2. cbn [foldRes]. rewrite E1. rewrite res_bind_ret. split; [done|]. split_and!; [done|set_solver|].
  intros o (y&[->|Hy]%elem_of_cons&Ho).
  - destruct (Hc1 o Ho) as (t&Ht&Hcov). exists t. split; [by apply Hsub2|done].
  - apply Hc2. by exists y.
Qed.

Lemma explore_spec fuel remaining path idx acc top depths s :
  (length remaining < fuel)%nat → NoDup remaining → path ++ remaining ≡ₚ vars → allowed env [] path →
  map dtVar depths = path → acc = fold_left (float64.add nan) (map StepCost depths) 0 → searchOk s →
  ∃ s', exploreOrderingDepth nan fuel env false remaining path idx acc top path depths s = Ok s'
    ∧ explored (fun o => ∃ rest, o = path ++ rest ∧ rest ≡ₚ remaining ∧ allowed env path rest) s s'.
Proof.
  revert remaining path idx acc top depths s. induction fuel as [|fuel IH]; intros remaining path idx acc top depths s Hf Hnd Hp Ha Hd Hc Hs; [lia|].
  cbn [exploreOrderingDepth]. cbv zeta. destruct remaining as [|v0 remaining'] eqn:Er.
  - assert (traceOk (mkTrace path depths acc false false)) as Ht by (constructor; cbn; [done|done|done|]; intros _; by rewrite app_nil_r in Hp).
    eexists. split; [reflexivity|]. split; [by apply searchOk_leaf|]. split.
    + destruct (float64.lt _ _); cbn [traces]; set_solver.
    + intros o (rest&->&Hr%Permutation_nil_r&_). subst rest. rewrite app_nil_r. exists (mkTrace path depths acc false false).
      split; [|done]. destruct (float64.lt _ _); cbn [traces]; set_solver.
  - assert (remaining ≠ []) as Hne by (by rewrite Er). rewrite <- Er in *. clear Er v0 remaining'. destruct (float64.ge acc (bestCost s)) eqn:Eg.
    + eexists. split; [reflexivity|]. split; [by apply searchOk_pruned|]. cbn [traces]. split; [set_solver|]. intros o (rest&->&_&_).
      exists (mkTrace path depths acc true false). split; [set_solver|]. cbn. by apply prefix_app_r.
    + set (plans := candPlans env remaining path idx).
      destruct (foldRes_explored (fun s cp => if skipped false plans cp then Ok s else
          let '(le, sc) := stepCostOf nan env path cp (length path) top in
          exploreOrderingDepth nan fuel env false (without (cVar cp) remaining) (path ++ [cVar cp]) (cNewIdx cp)
            (float64.add nan acc sc) le (path ++ [cVar cp]) (depths ++ [mkDepth (cVar cp) (cActive cp) le (cBlind cp) sc]) s)
          (fun cp o => ∃ rest, o = (path ++ [cVar cp]) ++ rest ∧ rest ≡ₚ without (cVar cp) remaining ∧ allowed env (path ++ [cVar cp]) rest) plans s) as (s'&E&Hok&Hsub&Hcov); [|done|].
      { intros cp s1 (v&->&Hv&Hready)%elem_of_candPlans Hs1. rewrite candPlanOf_var. change (skipped false plans _) with false. cbv iota.
        destruct (stepCostOf _ _ _ _ _ _) as [le sc]. pose proof (without_perm v remaining Hnd Hv) as Hw. apply IH; try done.
        - rewrite Hw in Hf. cbn in Hf. lia.
        - rewrite Hw in Hnd. by apply NoDup_cons in Hnd as [_ ?].
        - rewrite <- app_assoc, <- Hp. apply Permutation_app_head. by symmetry.
        - by apply allowed_snoc.
        - by rewrite map_app, Hd.
        - by rewrite map_app, fold_left_app, <- Hc. }
      exists s'. split; [exact E|]. split_and!; [done|done|]. intros o (rest&->&Hr&Har). apply Hcov. destruct rest as [|v rest].
      { apply Permutation_nil_l in Hr. by subst remaining. }
      apply allowed_cons in Har as [Hv Har]. assert (v ∈ remaining) as Hin by (rewrite <- Hr; left).
      exists (candPlanOf env path idx v). split; [apply elem_of_candPlans; by exists v|]. rewrite candPlanOf_var. exists rest.
      split; [by rewrite <- app_assoc|]. split; [|done]. apply (Permutation_cons_inv (a := v)). by rewrite Hr, <- without_perm.
Qed.
End search.

(** ** The theorem *)

(** C32. The search ends, and accounts for every allowed order of the variables: some trace is the whole order, or its beginning up
    to where it was given up, and in both cases its cost is not below the cost chosen. The order chosen is a whole allowed order
    whose trace has that cost, or there is none and the cost is infinite; the cost of a trace is the sum of its steps. *)
Theorem search_exhaustive nan joins w env :
  NoDup (vwAll w) →
  ∃ s, runSearch nan joins w env false = Ok s
    ∧ (∀ order, order ≡ₚ vwAll w → allowed env [] order → ∃ t, t ∈ traces s ∧ covers t order ∧ float64.lt (TotalCost t) (bestCost s) = false)
    ∧ (∀ t, t ∈ traces s → TotalCost t = fold_left (float64.add nan) (map StepCost (Depths t)) 0 ∧ map dtVar (Depths t) = Ordering t)
    ∧ ((bestOrdering s = [] ∧ bestCost s = posInf)
       ∨ (bestOrdering s ≡ₚ vwAll w ∧ allowed env [] (bestOrdering s)
          ∧ ∃ t, t ∈ traces s ∧ Pruned t = false ∧ Ordering t = bestOrdering s ∧ TotalCost t = bestCost s)).
Proof.
  intros Hnd. unfold runSearch.
  destruct (explore_spec nan env (vwAll w) (S (length (vwAll w))) (vwAll w) [] (replicate (length joins) "") 0 one [] (mkSearch [] [] posInf [])) as (s&E&Hok&_&Hcov);
    [lia|done|done|by intros i v|done|done| |].
  { constructor; cbn; [intros t []%elem_of_nil|by left]. }
  exists s. split; [exact E|]. split_and!.
  - intros order Hp Ha. destruct (Hcov order) as (t&Ht&Hc); [by exists order|]. exists t. split_and!; [done|done|]. by apply (sk_traces _ _ _ _ Hok).
  - intros t Ht. destruct (sk_traces _ _ _ _ Hok t Ht) as [[H1 H2 _ _] _]. done.
  - destruct (sk_best _ _ _ _ Hok) as [Hb|(t&Ht&Hp&Ho&Hc)]; [by left|]. right. destruct (sk_traces _ _ _ _ Hok t Ht) as [[_ _ Ha Hw] _].
    rewrite <- Ho. split_and!; [by apply Hw|done|]. by exists t.
Qed.
