(* ===== verification/SchemeCompile.v ===== *)
(** * From a plan to a program (go/internal/datalog: scheme_compile.go, compile.go, explain.go)

    A plan becomes nested loops over scanners: operations with a placeholder for
    what is inside are collected in order and then put into one another. *)

From Stdlib Require Import String.
From S2P Require Import Prelude Keys Sexpr Numfmt QueryStore Float64 Scanner Scheme Datalog Planner.
Open Scope string_scope.
Open Scope list_scope.
Open Scope Z_scope.

(** ** Small expressions *)

Definition kw (s : string) : Expr := sexpr.Keyword (bs s).
Definition symB (s : bytes) : Expr := sexpr.Symbol s.
Definition slist (l : list Expr) : Expr := sexpr.List l.

Definition planValueToSexpr (pv : PlanValue) : Expr :=
  match pv with
  | PvValue i f s =>
      match s with
      | [] => if negb (float64.eq f 0) then sexpr.Float f else sexpr.Int i
      | _ => sexpr.Str s
      end
  | PvParam n => slist [kw "param"; sexpr.Int n]
  end.

Definition boundToSexpr (bv : BoundValue) : Expr :=
  match bv with
  | BvInt i => sexpr.Int i
  | BvFloat f => sexpr.Float f
  | BvStr s | BvAttr s => sexpr.Str s
  | BvResolvedAttr _ n _ _ => slist [kw "intern-a"; sexpr.Str n]
  | BvParam n => slist [kw "param"; sexpr.Int n]
  | BvVar v => symB (bs "?" ++ v)
  | BvBool b => sexpr.Bool b
  | BvMissing _ => symB (bs "_")
  end.

Definition buildBranch (branch : list PlanCond) : Expr :=
  let isInC c := bool_decide (pcOp c = bs "in") in
  let inVals := map (fun c => planValueToSexpr (pcV c)) (List.filter isInC branch) in
  let others := map (fun c => slist [sexpr.Keyword (pcOp c); planValueToSexpr (pcV c)]) (List.filter (fun c => negb (isInC c)) branch) in
  let others :=
    match inVals with
    | [] => others
    | [v] => others ++ [slist [kw "="; v]]
    | _ => others ++ [slist (kw "or" :: map (fun v => slist [kw "="; v]) inVals)]
    end in
  match others with [c] => c | _ => slist (kw "and" :: others) end.

Definition buildRangeTree (branches : list (list PlanCond)) : Expr :=
  match branches with [b] => buildBranch b | _ => slist (kw "or" :: map buildBranch branches) end.

Definition placeholder : Expr := symB (bs "__BODY__").

Fixpoint replaceBodyPlaceholder (e replacement : Expr) : Expr :=
  match e with
  | sexpr.Symbol s => if bool_decide (s = bs "__BODY__") then replacement else e
  | sexpr.List l => sexpr.List (map (fun x => replaceBodyPlaceholder x replacement) l)
  | _ => e
  end.

(** A block in a block loses its head. *)
Definition spliceBegin (item : Expr) : list Expr :=
  match item with
  | sexpr.List (sexpr.Keyword k :: inner) => if bool_decide (k = bs "begin") then inner else [item]
  | _ => [item]
  end.

Fixpoint flattenBegins (e : Expr) : Expr :=
  match e with
  | sexpr.List l =>
      match map flattenBegins l with
      | sexpr.Keyword k :: rest =>
          if bool_decide (k = bs "begin") then sexpr.List (kw "begin" :: flat_map spliceBegin rest) else sexpr.List (sexpr.Keyword k :: rest)
      | items => sexpr.List items
      end
  | _ => e
  end.

Record boundVal : Type := mkBV { bvPos : string; bvExpr : Expr }.
Definition lookupBoundVal (l : list boundVal) (pos : string) : option Expr := bvExpr <$> List.find (fun b => String.eqb (bvPos b) pos) l.

Definition depthPos (vd : list DepthPos) (depth : nat) : option string := dpPos <$> List.find (fun dp => Nat.eqb (dpDepth dp) depth) vd.

(** ** Forms *)

Definition scannerSym (i : nat) : Expr := symB (bs "?s" ++ FormatInt (Z.of_nat i)).
Definition iterSym (v : bytes) : Expr := symB (bs "?it_" ++ v).
Definition push (sc v : Expr) : Expr := slist [kw "scanner-push"; sc; v].
Definition pop (sc : Expr) : Expr := slist [kw "scanner-pop"; sc].
Definition setForm (x v : Expr) : Expr := slist [kw "set!"; x; v].
Definition begin_ (l : list Expr) : Expr := slist (kw "begin" :: l).
Definition initForm (args : list Expr) : Expr := slist (kw "scanner-iterate-init" :: args).
Definition whileForm (x it body : Expr) : Expr := slist [kw "while"; setForm x (slist [kw "scanner-iterate-next"; it]); body].
Definition rangesCreate (tree : Expr) : Expr := slist [kw "ranges-create"; tree].

(** Within a value pushed: the placeholder, then the value popped. *)
Definition pushed (sc v : Expr) : list Expr := [push sc v; placeholder; pop sc].

(** ** The loops of a plan *)

Section plan.
Variable plan : QueryPlanResult.
Abbreviation vars := (OrderedVars plan).
Abbreviation ips := (IterPlans plan).

Definition bindValOf (bi : BoundInt) : boundVal :=
  mkBV (biPos bi)
    (match biV bi with
     | PvValue _ _ (c :: s) => if String.eqb (biPos bi) "a" then slist [kw "intern-a"; sexpr.Str (c :: s)] else planValueToSexpr (biV bi)
     | v => planValueToSexpr v
     end).
Definition bindVals (ip : IterPlanData) : list boundVal := map bindValOf (BoundInts ip).

(** What is already bound in each scanner, how far its index is walked, and the operations. *)
Record emit : Type := mkEmit { emitted : list (list string); scanPos : list nat; ops : list Expr }.

Definition isEmitted (st : emit) (i : nat) (pos : string) : bool := bool_decide (pos ∈ nth i (emitted st) []).
Definition markEmitted (st : emit) (i : nat) (pos : string) : emit := mkEmit (alter (cons pos) i (emitted st)) (scanPos st) (ops st).
Definition addOps (st : emit) (l : list Expr) : emit := mkEmit (emitted st) (scanPos st) (ops st ++ l).
Definition setScanPos (st : emit) (i n : nat) : emit := mkEmit (emitted st) (<[i := n]> (scanPos st)) (ops st).

Definition emitBound (i : nat) (ip : IterPlanData) (st : emit) (bp : BoundInt) : emit :=
  if isEmitted st i (biPos bp) then st
  else
    match lookupBoundVal (bindVals ip) (biPos bp) with
    | None => st
    | Some v => addOps (setScanPos (markEmitted st i (biPos bp)) i (S (nth i (scanPos st) 0%nat))) [begin_ (pushed (scannerSym i) v)]
    end.

(** A position of the index that is neither bound nor a variable is walked by a loop. *)
Definition gapLoop (i : nat) (ip : IterPlanData) (gapSlot : string) : Expr :=
  let gapVar := skipName gapSlot (ipIndex ip) in
  begin_ [setForm (iterSym gapVar) (initForm [scannerSym i; slist []]); whileForm (symB gapVar) (iterSym gapVar) (begin_ (pushed (scannerSym i) (symB gapVar)))].

Definition isHandled (ip : IterPlanData) (depth : nat) (pos : string) : bool :=
  existsb (fun dp => Nat.leb (dpDepth dp) depth && String.eqb (dpPos dp) pos) (VarDepths ip).

Definition emitGap (i : nat) (ip : IterPlanData) (depth : nat) (st : emit) (gapSlot : string) : emit :=
  if isEmitted st i gapSlot || isHandled ip depth gapSlot then st else addOps st [gapLoop i ip gapSlot].

Definition emitGaps (i : nat) (ip : IterPlanData) (depth : nat) (varPos : string) (st : emit) : emit :=
  match indexOf (IdxOrder ip) varPos with
  | None => st
  | Some target =>
      let from := nth i (scanPos st) 0%nat in
      let st := fold_left (emitGap i ip depth) (drop from (take target (IdxOrder ip))) st in
      setScanPos st i (Nat.max from target)
  end.

Definition emitPrefix (depth : nat) (st : emit) (x : nat * IterPlanData) : emit :=
  let '(i, ip) := x in
  match depthPos (VarDepths ip) depth with
  | None => st
  | Some varPos => emitGaps i ip depth varPos (fold_left (emitBound i ip) (boundPositionsBefore ip depth) st)
  end.

Definition rangeTreeAt (depth : nat) : Expr :=
  match List.find (fun rb => bool_decide (indexOf vars (cvVar rb) = Some depth)) (rev (plBounds plan)) with
  | Some rb => buildRangeTree (cvBranches rb)
  | None => slist []
  end.

Definition rangesFor (depth : nat) (v : bytes) : Expr :=
  match List.find (fun s => bool_decide (svName s = v)) (rev (SyntheticVars plan)) with
  | Some s => rangesCreate (slist [kw "="; symB (SourceVar s)])
  | None => match rangeTreeAt depth with sexpr.List [] => slist [] | tree => rangesCreate tree end
  end.

Definition scannersAt (depth : nat) : list Expr :=
  omap (fun x => match depthPos (VarDepths x.2) depth with Some _ => Some (scannerSym x.1) | None => None end) (imap pair ips).

Definition isInner (depth : nat) : bool := Nat.ltb (S depth) (length vars).

(** The loop over the values of a variable: in it, the variable is pushed on its scanners, unless it is the last. *)
Definition mainLoop (depth : nat) (v : bytes) : Expr :=
  let scs := scannersAt depth in
  let inner :=
    if isInner depth then map (fun s => push s (symB v)) scs ++ [placeholder] ++ map pop scs else [placeholder] in
  begin_ [setForm (iterSym v) (initForm (scs ++ [rangesFor depth v])); whileForm (symB v) (iterSym v) (begin_ inner)].

Definition markDepth (depth : nat) (st : emit) : emit :=
  mkEmit (imap (fun i l => match ips !! i with
                           | Some ip => map dpPos (List.filter (fun dp => Nat.eqb (dpDepth dp) depth) (VarDepths ip)) ++ l
                           | None => l
                           end) (emitted st)) (scanPos st) (ops st).

Definition emitDepth (st : emit) (x : nat * bytes) : emit :=
  let '(depth, v) := x in
  match scannersAt depth with
  | [] => st
  | _ =>
      let st := fold_left (emitPrefix depth) (imap pair ips) st in
      let st := if isInner depth then markDepth depth st else st in
      addOps st [mainLoop depth v]
  end.

(** *** Constants after the last variable *)

Definition posToVar (ip : IterPlanData) (pos : string) : option Expr :=
  match List.find (fun dp => Nat.ltb (dpDepth dp) (length vars) && String.eqb (dpPos dp) pos) (rev (VarDepths ip)) with
  | Some dp => Some (symB (nth (dpDepth dp) vars []))
  | None => None
  end.

Definition rangeTree (v : bytes) : option Expr :=
  buildRangeTree ∘ cvBranches <$> List.find (fun rb => bool_decide (cvVar rb = v)) (rev (plBounds plan)).

Definition trailingOf (i : nat) (ip : IterPlanData) (st : emit) : list boundVal :=
  omap (fun bp => if isEmitted st i (biPos bp) then None else mkBV (biPos bp) <$> lookupBoundVal (bindVals ip) (biPos bp)) (allBoundPositions ip).

Definition prePushesOf (i : nat) (ip : IterPlanData) (st : emit) (trailing : list boundVal) : list Expr :=
  omap (fun pos => if existsb (fun t => String.eqb (bvPos t) pos) trailing || isEmitted st i pos then None else posToVar ip pos) (IdxOrder ip).

(** The ranges of the last constant: its value, or the tree of a variable the specs name at another place. *)
Definition lastRangeStep (i : nat) (ip : IterPlanData) (posName : string) (acc : Expr * emit) (x : nat * string) : Expr * emit :=
  let '(ranges, st) := acc in
  let '(posIdx, pos) := x in
  if String.eqb pos posName then acc
  else
    match nth posIdx (Specs ip) (SkBound 0) with
    | SkVar v =>
        match rangeTree v with
        | Some rt => if negb (isEmitted st i pos) && bool_decide (posToVar ip pos = None) then (rt, markEmitted st i pos) else acc
        | None => acc
        end
    | _ => acc
    end.

Definition emitTrailing (i : nat) (ip : IterPlanData) (pre : list Expr) (st : emit) (t : boundVal) (isLast : bool) : emit :=
  let st := markEmitted st i (bvPos t) in
  let sc := scannerSym i in
  let pushes := map (push sc) pre in
  let pops := map (fun _ => pop sc) pre in
  if isLast then
    let '(ranges, st) := fold_left (lastRangeStep i ip (bvPos t)) (imap pair (IdxOrder ip)) (slist [kw "="; bvExpr t], st) in
    let trailVar := bs "_" ++ bs (bvPos t) ++ bs "_trail" in
    addOps st [begin_ (pushes ++ [setForm (iterSym trailVar) (initForm [sc; rangesCreate ranges]);
                                   whileForm (symB trailVar) (iterSym trailVar) (begin_ (pushed sc (symB trailVar)))] ++ pops)]
  else addOps st [begin_ (pushes ++ pushed sc (bvExpr t) ++ pops)].

Fixpoint emitTrailings (i : nat) (ip : IterPlanData) (pre : list Expr) (l : list boundVal) (st : emit) : emit :=
  match l with
  | [] => st
  | t :: l' => emitTrailings i ip pre l' (emitTrailing i ip pre st t (match l' with [] => true | _ => false end))
  end.

Definition emitTrail (st : emit) (x : nat * IterPlanData) : emit :=
  let '(i, ip) := x in
  let trailing := trailingOf i ip st in
  emitTrailings i ip (prePushesOf i ip st trailing) trailing st.

(** *** Ranges of variables that no loop walks *)

Definition iteratedVars : list bytes :=
  omap (fun dp => vars !! dpDepth dp) (flat_map VarDepths ips).

Definition rangeLoop (i : nat) (ip : IterPlanData) (done : list string) (posIdx : nat) (vs : bytes) (rt : Expr) : Expr :=
  let sc := scannerSym i in
  let pre := omap (fun pos => if bool_decide (pos ∈ done) then None else posToVar ip pos) (take posIdx (IdxOrder ip)) in
  begin_ (map (push sc) pre ++ [setForm (iterSym vs) (initForm [sc; rangesCreate rt]); whileForm (symB vs) (iterSym vs) (begin_ (pushed sc (symB vs)))]
          ++ map (fun _ => pop sc) pre).

Definition rangeStep (i : nat) (ip : IterPlanData) (acc : list string * list Expr) (x : nat * string) : list string * list Expr :=
  let '(done, out) := acc in
  let '(posIdx, pos) := x in
  match nth posIdx (Specs ip) (SkBound 0) with
  | SkVar vs =>
      match rangeTree vs with
      | Some rt =>
          if mem iteratedVars vs || bool_decide (posToVar ip pos ≠ None) || bool_decide (pos ∈ done) then acc
          else (pos :: done, out ++ [rangeLoop i ip (pos :: done) posIdx vs rt])
      | None => acc
      end
  | _ => acc
  end.

Definition rangeOpsOf (x : nat * IterPlanData) : list Expr :=
  let '(i, ip) := x in
  (fold_left (rangeStep i ip) (imap pair (IdxOrder ip)) (map bvPos (bindVals ip), [])).2.

(** *** The program *)

Definition noEmit : emit := mkEmit (map (fun _ => []) ips) (map (fun _ => 0%nat) ips) [].

Definition planOps : list Expr :=
  let st := fold_left emitDepth (imap pair vars) noEmit in
  let st := fold_left emitTrail (imap pair ips) st in
  ops st ++ flat_map rangeOpsOf (imap pair ips).

(** A pattern without variables is looked up around the rest. *)
Definition probe (body : Expr) (p : Pattern) : Expr :=
  if negb (IsLookup p) then body
  else
    match PE p, PA p, PV p with
    | DsConst e, DsConst a, DsConst v =>
        let t := symB (match PT p with DsVar n => n | _ => bs "_t" end) in
        let s := symB (bs "?s_probe") in
        let it := symB (bs "?it_probe") in
        begin_ [setForm s (slist [kw "scanner-open"; sexpr.Str (bs "EAVT")]);
                setForm it (initForm [s; slist []]);
                begin_ [push s (boundToSexpr e); push s (boundToSexpr a); push s (boundToSexpr v);
                        whileForm t it (begin_ [push s t; body; pop s]);
                        pop s; pop s; pop s]]
    | _, _, _ => body
    end.

Definition openScanner (x : nat * IterPlanData) : Expr :=
  setForm (scannerSym x.1)
    (slist ([kw "scanner-open"; sexpr.Str (toUpper (bs (ipIndex x.2)))] ++ (if plHistory plan then [sexpr.Bool true] else []))).

Definition buildTriejoinScheme (leafBody : Expr) : Expr :=
  let body := foldr replaceBodyPlaceholder leafBody planOps in
  let body := fold_left probe (Lookups plan) body in
  flattenBegins (match ips with [] => body | _ => begin_ (map openScanner (imap pair ips) ++ [body]) end).

Fixpoint buildProjection (n : nat) (i fvIdx : nat) (constants : list (nat * PlanValue)) : list Expr :=
  match n with
  | O => []
  | S n' =>
      match List.find (fun ci => Nat.eqb ci.1 i) constants with
      | Some (_, pv) => planValueToSexpr pv :: buildProjection n' (S i) (S fvIdx) constants
      | None =>
          match plFindVars plan !! fvIdx with
          | None => sexpr.Void :: buildProjection n' (S i) fvIdx constants
          | Some fv =>
              let v := findName fv in
              slist [kw (if contains (AttrVars plan) v then "attr-name" else "resolve-val"); symB v] :: buildProjection n' (S i) (S fvIdx) constants
          end
      end
  end.

Definition compileSelectScheme : Expr :=
  let constants := omap (fun x => match x with (i, FvConst _ v) => pair i <$> fromBoundValue v | _ => None end) (imap pair (plFindVars plan)) in
  let leaf :=
    if plExists plan && match constants with [] => true | _ => false end then slist [kw "result-row"; sexpr.Int 1]
    else slist (kw "result-row" :: buildProjection (length (plFindVars plan)) 0 0 constants) in
  buildTriejoinScheme leaf.
End plan.

(** ** The compiler *)

Section compiler.
Variable ParseFloat : bytes → option Z.
Variable nan : Z.

Definition withQuery (plan : QueryPlanResult) (ir : IR) : QueryPlanResult :=
  mkPlan (IterPlans plan) (Lookups plan) (JoinPatterns plan) (OrderedVars plan) (EVars plan) (AttrVars plan) (TLookupVars plan) (VarOrder plan)
    (PlanTraces plan) (History ir) (ExistsMode ir) (FindVars ir) (convertRangeBounds (RangeBounds ir)) (SyntheticVars plan).

Definition planIR (cstats : CompileStats) (ir : IR) (findVars : list bytes) : res (bytes + QueryPlanResult) :=
  match ResolveIR ir cstats with
  | None => Ok (inl (bs "attribute resolution failed"))
  | Some ir =>
      r ← BuildQueryPlan nan (Patterns ir) findVars (map rbVar (RangeBounds ir)) (computePlanStats ir cstats);
      Ok (match r with inl m => inl m | inr plan => inr (withQuery plan ir) end)
  end.

Definition compileToPlan (text : bytes) (cstats : CompileStats) : res (bytes + (QueryPlanResult * list bytes)) :=
  q ← ParseDatalogQuery ParseFloat text;
  match q with
  | inl m => Ok (inl m)
  | inr (ir, findVars) =>
      r ← planIR cstats ir findVars;
      Ok (match r with inl m => inl m | inr plan => inr (plan, findVars) end)
  end.

Definition CompileDatalogQueryDebug (text : bytes) (cstats : CompileStats) : res (bytes + (Expr * list bytes * list bytes * list IterPlanData)) :=
  r ← compileToPlan text cstats;
  Ok (match r with
      | inl m => inl m
      | inr (plan, findVars) => inr (compileSelectScheme plan, findVars, OrderedVars plan, IterPlans plan)
      end).

Definition CompileDatalogQuery (text : bytes) (cstats : CompileStats) : res (bytes + (Expr * list bytes)) :=
  r ← CompileDatalogQueryDebug text cstats;
  Ok (match r with inl m => inl m | inr (prog, fv, _, _) => inr (prog, fv) end).

Record CompileResult : Type := mkResult {
  Program : Expr;
  crTraces : list PlanTrace;
  crIterPlans : list IterPlanData;
  crOrderedVars : list bytes;
  crHistory : bool;
  crExists : bool;
  crFindVars : list bytes;
}.

Definition CompileDatalogQueryResult (text : bytes) (cstats : CompileStats) : res (bytes + CompileResult) :=
  r ← compileToPlan text cstats;
  Ok (match r with
      | inl m => inl m
      | inr (plan, _) =>
          inr (mkResult (compileSelectScheme plan) (PlanTraces plan) (IterPlans plan) (OrderedVars plan) (plHistory plan) (plExists plan)
                 (map findName (plFindVars plan)))
      end).
End compiler.

(** ** EXPLAIN *)

Section explain.
(** [strconv.FormatFloat] with one decimal, and in shortest exponent form. *)
Variables oneDecimal FormatE : Z → bytes.

Definition num (n : nat) : bytes := FormatInt (Z.of_nat n).
Definition line : bytes := [10].

Definition depthText (i : nat) (d : DepthTrace) : bytes :=
  line ++ bs "  depth " ++ num i ++ bs ": " ++ dtVar d
  ++ (if IsBlind d then bs " | blind | est=" ++ oneDecimal (EstimatedElements d)
      else bs " | clauses=[" ++ joinBytes (bs ", ") (map (fun ac => bs "p" ++ num (Ci ac) ++ bs "@" ++ bs (acIndex ac)) (ActiveClauses d))
           ++ bs "] | est=" ++ oneDecimal (EstimatedElements d) ++ bs " ×" ++ num (length (ActiveClauses d)) ++ bs "cl = " ++ oneDecimal (StepCost d)).

Definition TraceString (t : PlanTrace) : bytes :=
  (if Pruned t then bs "PRUNED " else if Chosen t then bs "→ " else [])
  ++ bs "[" ++ joinBytes (bs ", ") (Ordering t) ++ bs "] cost=" ++ oneDecimal (TotalCost t) ++ concat (imap depthText (Depths t)).

Definition specText (s : SpecKind) : bytes :=
  match s with
  | SkVar v => v
  | SkBound n => if n =? 0 then bs "_" else bs "#" ++ FormatInt n
  | SkBoundAttr id => bs "attr(id=" ++ FormatInt id ++ bs ")"
  | SkBoundValue i f s =>
      match s with
      | [] => if negb (float64.eq f 0) then FloatString FormatE f else FormatInt i
      | _ => [34] ++ s ++ [34]
      end
  | SkBoundParam n => bs "%" ++ FormatInt n
  end.

(** The spec of a position is taken at its place in the order of the index. *)
Definition positionText (ip : IterPlanData) (posIdx : nat) (pos : string) : bytes :=
  let label := match List.find (fun dp => String.eqb (dpPos dp) pos) (VarDepths ip) with
               | Some dp => bs " [depth " ++ num (dpDepth dp) ++ bs "]"
               | None => []
               end in
  bs "    " ++ bs pos ++ bs " = " ++ specText (nth posIdx (Specs ip) (SkBound 0)) ++ label ++ line.

Definition iterText (i : nat) (ip : IterPlanData) : bytes :=
  bs "  p" ++ num i ++ bs " @ " ++ bs (ipIndex ip) ++ line ++ concat (imap (positionText ip) (IdxOrder ip)).

Definition RenderExplain (c : CompileResult) : bytes :=
  (match crIterPlans c with
   | [] => []
   | ips =>
       bs "Plan:" ++ line ++ bs "  Join order: [" ++ joinBytes (bs ", ") (crOrderedVars c) ++ bs "]"
       ++ (if crHistory c then bs " (history)" else []) ++ (if crExists c then bs " (exists)" else []) ++ line
       ++ concat (imap iterText ips) ++ line
   end)
  ++ flat_map (fun t => TraceString t ++ line) (crTraces c)
  ++ line ++ WriteSchemePretty FormatE (Program c).
End explain.
