(* ===== verification/CompileSpec.v ===== *)
(** * Compiled programs restore their scanners (go/internal/datalog/scheme_compile.go)

    A scanner has a stack of values that fix the positions of its index. Whatever
    the plan, the program compiled from it pushes and pops so that every loop body
    and the program as a whole leave every stack as they found it, and no pop meets
    an empty stack. *)

From Stdlib Require Import String.
From S2P Require Import Prelude Keys Sexpr Numfmt QueryStore Float64 Scanner Scheme Datalog Planner SchemeCompile.
Open Scope string_scope.
Open Scope list_scope.
Open Scope Z_scope.

(** ** Expressions *)

Lemma expr_ind (P : Expr → Prop) :
  (∀ e, (∀ l, e ≠ sexpr.List l) → P e) → (∀ l, Forall P l → P (sexpr.List l)) → ∀ e, P e.
Proof.
  intros Ha Hl. fix IH 1. intros e. destruct e as [z|z|s|b| |b|s|s|l|r]; try by apply Ha.
  apply Hl. induction l as [|x l IHl]; constructor; [apply IH|exact IHl].
Qed.

(** ** The stack of a scanner along a program *)

(** The scanner a push or a pop names. *)
Definition targets (s : bytes) (args : list Expr) : bool :=
  match args with sexpr.Symbol x :: _ => bool_decide (x = s) | _ => false end.

Definition formEffect (s k : bytes) (args : list Expr) (d : nat) : option nat :=
  if bool_decide (k = bs "scanner-push") && targets s args then Some (S d)
  else if bool_decide (k = bs "scanner-pop") && targets s args then match d with S d' => Some d' | O => None end
  else Some d.

(** The height of the stack of scanner [s] after an expression, from height [d]: forms run their parts in order, a loop has to
    leave the height as it is. *)
Fixpoint height (s : bytes) (e : Expr) (d : nat) {struct e} : option nat :=
  match e with
  | sexpr.List l =>
      let seq := fix seq (l : list Expr) (d : nat) : option nat :=
        match l with [] => Some d | x :: l' => d ← height s x d; seq l' d end in
      let keep := fix keep (l : list Expr) (d : nat) : option nat :=
        match l with [] => Some d | x :: l' => d' ← height s x d; if Nat.eqb d' d then keep l' d else None end in
      match l with
      | sexpr.Keyword k :: args => if bool_decide (k = bs "while") then keep args d else d ← seq args d; formEffect s k args d
      | _ => seq l d
      end
  | _ => Some d
  end.

Definition seqHeight (s : bytes) : list Expr → nat → option nat :=
  fix seq (l : list Expr) (d : nat) : option nat := match l with [] => Some d | x :: l' => d ← height s x d; seq l' d end.
Definition keepHeight (s : bytes) : list Expr → nat → option nat :=
  fix keep (l : list Expr) (d : nat) : option nat :=
    match l with [] => Some d | x :: l' => d' ← height s x d; if Nat.eqb d' d then keep l' d else None end.

Lemma height_list s l d :
  height s (sexpr.List l) d =
    match l with
    | sexpr.Keyword k :: args => if bool_decide (k = bs "while") then keepHeight s args d else d ← seqHeight s args d; formEffect s k args d
    | _ => seqHeight s l d
    end.
Proof. by destruct l as [|[] l]. Qed.

Section scanner.
Variable s : bytes.
Hypothesis named : s ≠ bs "__BODY__".

(** The stack is left as it was. *)
Definition still (e : Expr) : Prop := ∀ d, height s e d = Some d.

Lemma seq_still l d : Forall still l → seqHeight s l d = Some d.
Proof. induction 1 as [|x l Hx Hl IH]; [done|]. cbn [seqHeight]. by rewrite Hx. Qed.

Lemma keep_still l d : Forall still l → keepHeight s l d = Some d.
Proof. induction 1 as [|x l Hx Hl IH]; [done|]. cbn [keepHeight]. rewrite Hx. cbn. by rewrite Nat.eqb_refl. Qed.

Lemma seqHeight_app l1 l2 d : seqHeight s (l1 ++ l2) d = d ← seqHeight s l1 d; seqHeight s l2 d.
Proof. revert d. induction l1 as [|x l1 IH]; intros d; [done|]. cbn [app seqHeight]. destruct (height s x d); [|done]. apply IH. Qed.

(** A form other than a push or a pop of a scanner. *)
Definition plain (k : bytes) : bool := negb (bool_decide (k = bs "scanner-push")) && negb (bool_decide (k = bs "scanner-pop")).

Lemma still_form k l : plain k = true ∨ targets s l = false → Forall still l → still (sexpr.List (sexpr.Keyword k :: l)).
Proof.
  intros H Hl d. rewrite height_list. case_bool_decide; [by apply keep_still|]. rewrite seq_still by done. cbn. unfold formEffect.
  destruct H as [[H1%negb_true_iff H2%negb_true_iff]%andb_prop|Ht]; [by rewrite H1, H2|]. by rewrite !Ht, !andb_false_r.
Qed.

Lemma still_kw k l : plain (bs k) = true → Forall still l → still (slist (kw k :: l)).
Proof. intros Hk. apply still_form. by left. Qed.

Lemma still_atom e : (∀ l, e ≠ sexpr.List l) → still e.
Proof. intros He d. destruct e; try done. by destruct (He l). Qed.

Create HintDb stills.
#[local] Hint Extern 1 (still (symB _)) => (apply still_atom; intros ? ?; discriminate) : stills.
#[local] Hint Extern 1 (still (kw _)) => (apply still_atom; intros ? ?; discriminate) : stills.
#[local] Hint Extern 1 (still placeholder) => (apply still_atom; intros ? ?; discriminate) : stills.
#[local] Hint Extern 1 (still (sexpr.Symbol _)) => (apply still_atom; intros ? ?; discriminate) : stills.
#[local] Hint Extern 1 (still (sexpr.Str _)) => (apply still_atom; intros ? ?; discriminate) : stills.
#[local] Hint Extern 1 (still (sexpr.Int _)) => (apply still_atom; intros ? ?; discriminate) : stills.
#[local] Hint Extern 1 (still (sexpr.Float _)) => (apply still_atom; intros ? ?; discriminate) : stills.
#[local] Hint Extern 1 (still (sexpr.Bool _)) => (apply still_atom; intros ? ?; discriminate) : stills.
#[local] Hint Extern 1 (still sexpr.Void) => (apply still_atom; intros ? ?; discriminate) : stills.
#[local] Hint Extern 1 (still (slist [])) => (intros ?; reflexivity) : stills.
#[local] Hint Extern 1 (still (slist (kw _ :: _))) => (apply still_kw; [vm_compute; reflexivity|]) : stills.
#[local] Hint Extern 1 (still (sexpr.List (sexpr.Keyword (bs _) :: _))) => (apply still_form; [left; vm_compute; reflexivity|]) : stills.
#[local] Hint Extern 1 (Forall still (_ ++ _)) => (apply Forall_app; split) : stills.
#[local] Hint Constructors Forall : stills.

Lemma still_set x v : still x → still v → still (setForm x v).
Proof. unfold setForm. auto 10 with stills. Qed.
Lemma still_begin l : Forall still l → still (begin_ l).
Proof. unfold begin_. auto with stills. Qed.
Lemma still_while x it body : still x → still it → still body → still (whileForm x it body).
Proof. unfold whileForm, setForm. auto 20 with stills. Qed.
Lemma still_init l : Forall still l → still (initForm l).
Proof. unfold initForm. auto with stills. Qed.
Lemma still_ranges t : still t → still (rangesCreate t).
Proof. unfold rangesCreate. auto with stills. Qed.
#[local] Hint Resolve still_set still_begin still_while still_init still_ranges : stills.
#[local] Hint Extern 1 (still (scannerSym _)) => (apply still_atom; intros ? ?; discriminate) : stills.
#[local] Hint Extern 1 (still (iterSym _)) => (apply still_atom; intros ? ?; discriminate) : stills.

(** *** Values and ranges *)

Lemma still_planValue pv : still (planValueToSexpr pv).
Proof. destruct pv as [i f [|c t]|n]; cbn [planValueToSexpr]; [destruct (negb _)|..]; auto 10 with stills. Qed.

Lemma still_bound bv : still (boundToSexpr bv).
Proof. destruct bv; cbn [boundToSexpr]; auto 10 with stills. Qed.
#[local] Hint Resolve still_planValue still_bound : stills.

Lemma targets_planValue pv l : targets s (planValueToSexpr pv :: l) = false.
Proof. destruct pv as [i f [|c b]|n]; cbn [planValueToSexpr]; [by destruct (negb _)|done..]. Qed.

Lemma still_map {A} (f : A → Expr) l : (∀ x, still (f x)) → Forall still (map f l).
Proof. intros Hf. apply Forall_fmap, Forall_true. done. Qed.

Lemma still_branch b : still (buildBranch b).
Proof.
  unfold buildBranch. cbv zeta. set (others := map _ (List.filter (λ c, negb _) b)). set (vals := map _ (List.filter _ b)).
  assert (Forall still others) as Ho.
  { apply still_map. intros c. apply still_form; [right; apply targets_planValue|auto with stills]. }
  assert (Forall still vals) as Hv by (apply still_map; auto with stills).
  set (o2 := match vals with [] => others | _ => _ end). assert (Forall still o2) as H2.
  { subst o2. destruct vals as [|v [|v2 vs]]; [done|apply Forall_cons in Hv as [Hv _]; auto 10 with stills|].
    apply Forall_app. split; [done|]. constructor; [|constructor]. apply still_kw; [vm_compute; reflexivity|]. apply Forall_fmap. eapply Forall_impl; [exact Hv|].
    intros v' Hv'. cbn. auto 10 with stills. }
  clearbody o2. destruct o2 as [|c [|c2 l]]; [auto with stills|by apply Forall_cons in H2 as [H2 _]|auto with stills].
Qed.

Lemma still_tree bs : still (buildRangeTree bs).
Proof. destruct bs as [|b [|b2 l]]; cbn [buildRangeTree]; [auto 10 with stills|apply still_branch|]. apply still_kw; [vm_compute; reflexivity|]. apply still_map, still_branch. Qed.
#[local] Hint Resolve still_tree : stills.

(** *** Pushes and pops *)

Definition raises (n : nat) (l : list Expr) : Prop := ∀ d, seqHeight s l d = Some (n + d)%nat.
Definition lowers (n : nat) (l : list Expr) : Prop := ∀ d, seqHeight s l (n + d)%nat = Some d.

Lemma still_around up mid down :
  (∃ n, raises n up ∧ lowers n down) → Forall still mid → still (begin_ (up ++ mid ++ down)).
Proof.
  intros (n&Hu&Hd) Hm d. unfold begin_, slist, kw. rewrite height_list. rewrite bool_decide_eq_false_2 by (vm_compute; discriminate).
  rewrite seqHeight_app, Hu. cbn [mbind option_bind]. rewrite seqHeight_app, seq_still by done. cbn [mbind option_bind].
  rewrite Hd. cbn [mbind option_bind]. unfold formEffect. by rewrite !bool_decide_eq_false_2 by (vm_compute; discriminate).
Qed.

Definition hits (sc : Expr) : nat := if targets s [sc] then 1%nat else 0%nat.

Lemma push_height sc v d : still sc → still v → height s (push sc v) d = Some (hits sc + d)%nat.
Proof.
  intros Hs Hv. unfold push, slist, kw. rewrite height_list. rewrite bool_decide_eq_false_2 by (vm_compute; discriminate).
  rewrite seq_still by auto with stills. cbn [mbind option_bind]. unfold formEffect, hits. rewrite bool_decide_eq_true_2 by done. cbn [andb].
  change (targets s [sc; v]) with (targets s [sc]). destruct (targets s [sc]); [done|]. by rewrite andb_false_r.
Qed.

Lemma pop_height sc d : still sc → height s (pop sc) (hits sc + d)%nat = Some d.
Proof.
  intros Hs. unfold pop, slist, kw. rewrite height_list. rewrite bool_decide_eq_false_2 by (vm_compute; discriminate).
  rewrite seq_still by auto with stills. cbn [mbind option_bind]. unfold formEffect, hits. rewrite bool_decide_eq_false_2 by (vm_compute; discriminate). cbn [andb].
  rewrite bool_decide_eq_true_2 by done. cbn [andb]. by destruct (targets s [sc]).
Qed.

(** Pairs of a scanner and a value pushed, and the pops of those scanners, in whatever order. *)
Definition total (scs : list Expr) : nat := sum_list_with hits scs.

Lemma pushes_raise l : Forall (fun p => still p.1 ∧ still p.2) l → raises (total (map fst l)) (map (fun p => push p.1 p.2) l).
Proof.
  unfold raises. induction 1 as [|[sc v] l [Hs Hv] Hl IH]; intros d; [done|]. cbn [map seqHeight fst snd]. rewrite push_height by done. cbn [mbind option_bind].
  rewrite IH. f_equal. unfold total. cbn. lia.
Qed.

Lemma pops_lower scs : Forall still scs → lowers (total scs) (map pop scs).
Proof.
  unfold lowers. induction 1 as [|sc scs Hs Hl IH]; intros d; [done|]. cbn [map seqHeight]. unfold total. cbn [sum_list_with].
  rewrite <- Nat.add_assoc, pop_height by done. apply IH.
Qed.

Lemma still_nest l mid : Forall (fun p => still p.1 ∧ still p.2) l → Forall still mid →
  still (begin_ (map (fun p => push p.1 p.2) l ++ mid ++ map pop (map fst l))).
Proof.
  intros Hl Hm. apply still_around; [|done]. exists (total (map fst l)). split; [by apply pushes_raise|]. apply pops_lower.
  apply Forall_fmap. eapply Forall_impl; [exact Hl|]. by intros ? [].
Qed.

Lemma still_pushed sc v : still sc → still v → still (begin_ (pushed sc v)).
Proof. intros Hs Hv. apply (still_nest [(sc, v)] [placeholder]); auto with stills. Qed.
#[local] Hint Resolve still_pushed : stills.

(** Values pushed on one scanner. *)
Lemma still_nest_one sc pre mid : still sc → Forall still pre → Forall still mid →
  still (begin_ (map (push sc) pre ++ mid ++ map (fun _ => pop sc) pre)).
Proof.
  intros Hs Hp Hm. pose proof (still_nest (map (pair sc) pre) mid) as H. rewrite !map_map in H. apply H; [|done]. apply Forall_fmap. eapply Forall_impl; [exact Hp|done].
Qed.

(** ** Putting operations into one another *)

(** A name that no placeholder is. *)
Definition isList (e : Expr) : Prop := ∃ l, e = sexpr.List l.

Lemma replace_targets body l : isList body → targets s (map (fun x => replaceBodyPlaceholder x body) l) = targets s l.
Proof.
  intros [b ->]. destruct l as [|[] l]; try done. cbn [map replaceBodyPlaceholder targets]. case_bool_decide as E; [|done]. rewrite E. cbn.
  rewrite bool_decide_eq_false_2; [done|]. by intros <-.
Qed.

Lemma replace_height body : isList body → still body → ∀ e d, height s (replaceBodyPlaceholder e body) d = height s e d.
Proof.
  intros Hb Hst. induction e as [e He|l IH] using expr_ind; intros d.
  { destruct e; try done; [|by destruct (He l)]. cbn [replaceBodyPlaceholder]. case_bool_decide; [by rewrite Hst|done]. }
  cbn [replaceBodyPlaceholder]. rewrite !height_list.
  assert (∀ l d, Forall (λ e, ∀ d, height s (replaceBodyPlaceholder e body) d = height s e d) l → seqHeight s (map (λ x, replaceBodyPlaceholder x body) l) d = seqHeight s l d) as Hseq.
  { intros l' d' Hl. revert d'. induction Hl as [|x l' Hx Hl IHl]; intros d'; [done|]. cbn [map seqHeight]. rewrite Hx. destruct (height s x d'); [|done]. apply IHl. }
  assert (∀ l d, Forall (λ e, ∀ d, height s (replaceBodyPlaceholder e body) d = height s e d) l → keepHeight s (map (λ x, replaceBodyPlaceholder x body) l) d = keepHeight s l d) as Hkeep.
  { intros l' d' Hl. induction Hl as [|x l' Hx Hl IHl]; [done|]. cbn [map keepHeight]. rewrite Hx. destruct (height s x d') as [d1|]; [|done]. cbn. by rewrite IHl. }
  destruct l as [|h l]; [done|]. pose proof IH as IH0. apply Forall_cons in IH as [_ IH]. destruct h; cbn [map replaceBodyPlaceholder]; try exact (Hseq _ d IH0).
  - pose proof (Hseq _ d IH0) as H. cbn [map replaceBodyPlaceholder] in H. revert H. case_bool_decide as E; intros H; [|exact H].
    destruct Hb as [b ->]. exact H.
  - rewrite Hkeep, Hseq by done. case_bool_decide; [done|]. destruct (seqHeight s l d) as [d1|]; [|done]. cbn. unfold formEffect. by rewrite replace_targets.
Qed.

Lemma flatten_shape e : match e with sexpr.List _ => isList (flattenBegins e) | _ => flattenBegins e = e end.
Proof.
  destruct e as [| | | | | | | |l|]; try done. cbn [flattenBegins]. destruct (map flattenBegins l) as [|[] rest]; try by eexists.
  case_bool_decide; by eexists.
Qed.

Lemma flatten_targets l : targets s (map flattenBegins l) = targets s l.
Proof. destruct l as [|x l]; [done|]. cbn [map]. pose proof (flatten_shape x) as H. destruct x as [| | | | | | | |xl|]; try by rewrite H. by destruct H as [? ->]. Qed.

Lemma splice_height l d : seqHeight s (flat_map spliceBegin l) d = seqHeight s l d.
Proof.
  revert d. induction l as [|x l IH]; intros d; [done|]. cbn [flat_map]. rewrite seqHeight_app. cbn [seqHeight].
  assert (seqHeight s (spliceBegin x) d = height s x d) as ->; [|destruct (height s x d); [apply IH|done]].
  assert (seqHeight s [x] d = height s x d) as Hone by (cbn; by destruct (height s x d)).
  destruct x as [| | | | | | | |[|[] xl]|]; try exact Hone. cbn [spliceBegin]. case_bool_decide as E; [|exact Hone]. subst. rewrite height_list.
  rewrite bool_decide_eq_false_2 by (vm_compute; discriminate). destruct (seqHeight s xl d); [|done]. cbn [mbind option_bind]. unfold formEffect.
  by rewrite !bool_decide_eq_false_2 by (vm_compute; discriminate).
Qed.

Lemma flatten_height e d : height s (flattenBegins e) d = height s e d.
Proof.
  revert d. induction e as [e He|l IH] using expr_ind; intros d.
  { pose proof (flatten_shape e) as H. destruct e; try by rewrite H. by destruct (He l). }
  assert (∀ l d, Forall (λ e, ∀ d, height s (flattenBegins e) d = height s e d) l → seqHeight s (map flattenBegins l) d = seqHeight s l d) as Hseq.
  { intros l' d' Hl. revert d'. induction Hl as [|x l' Hx Hl IHl]; intros d'; [done|]. cbn [map seqHeight]. rewrite Hx. destruct (height s x d'); [|done]. apply IHl. }
  assert (∀ l d, Forall (λ e, ∀ d, height s (flattenBegins e) d = height s e d) l → keepHeight s (map flattenBegins l) d = keepHeight s l d) as Hkeep.
  { intros l' d' Hl. induction Hl as [|x l' Hx Hl IHl]; [done|]. cbn [map keepHeight]. rewrite Hx. destruct (height s x d') as [d1|]; [|done]. cbn. by rewrite IHl. }
  assert (height s (sexpr.List (map flattenBegins l)) d = height s (sexpr.List l) d) as <-.
  { rewrite !height_list. destruct l as [|h l]; [done|]. pose proof IH as IH0. apply Forall_cons in IH as [_ IH]. pose proof (flatten_shape h) as Hsh.
    destruct h as [| | | | | | |k|hl|]; cbn [map]; try (rewrite Hsh; pose proof (Hseq _ d IH0) as H; cbn [map] in H; rewrite Hsh in H; exact H).
    - rewrite Hsh, Hkeep, Hseq by done. case_bool_decide; [done|]. destruct (seqHeight s l d) as [d1|]; [|done]. cbn. unfold formEffect. by rewrite flatten_targets.
    - pose proof (Hseq _ d IH0) as H. cbn [map] in H. destruct Hsh as [b Hb]. rewrite Hb in *. exact H. }
  cbn [flattenBegins]. destruct (map flattenBegins l) as [|[] rest]; try done. case_bool_decide as E; [|done]. subst. unfold kw. rewrite !height_list.
  rewrite bool_decide_eq_false_2 by (vm_compute; discriminate). rewrite splice_height. destruct (seqHeight s rest d); [|done]. cbn [mbind option_bind]. unfold formEffect.
  by rewrite !bool_decide_eq_false_2 by (vm_compute; discriminate).
Qed.

Lemma still_replace op body : still op → isList body → still body → still (replaceBodyPlaceholder op body).
Proof. intros Ho Hl Hb d. by rewrite replace_height. Qed.

(** ** The operations of a plan *)

Section plan.
Variable plan : QueryPlanResult.

(** An operation of a plan is a list and leaves the stack alone. *)
Definition good (e : Expr) : Prop := isList e ∧ still e.
Definition goodOps (st : emit) : Prop := Forall good (ops st).

Lemma good_begin l : still (begin_ l) → good (begin_ l).
Proof. intros H. split; [by eexists|done]. Qed.

Lemma height_good_add st l : goodOps st → Forall good l → goodOps (addOps st l).
Proof. unfold goodOps. cbn [addOps ops]. intros. by apply Forall_app. Qed.

Lemma still_bindVals ip pos v : lookupBoundVal (bindVals ip) pos = Some v → still v.
Proof.
  unfold lookupBoundVal, bindVals. destruct (List.find _ _) as [b|] eqn:E; [|done]. intros [= <-]. apply find_some in E as [(bi&<-&_)%in_map_iff _].
  unfold bindValOf. cbn [bvExpr]. destruct (biV bi) as [i f [|c t]|n]; [apply still_planValue|destruct (String.eqb _ _); [auto 10 with stills|apply still_planValue]|apply still_planValue].
Qed.

Lemma good_fold {X} (f : emit → X → emit) l st : (∀ st x, goodOps st → goodOps (f st x)) → goodOps st → goodOps (fold_left f l st).
Proof. intros Hf. revert st. induction l as [|x l IH]; intros st Hst; [done|]. apply IH. by apply Hf. Qed.

Lemma good_emitBound i ip st bp : goodOps st → goodOps (emitBound i ip st bp).
Proof.
  intros H. unfold emitBound. destruct (isEmitted _ _ _); [done|]. destruct (lookupBoundVal _ _) as [v|] eqn:E; [|done]. apply still_bindVals in E.
  apply height_good_add; [done|]. constructor; [|constructor]. apply good_begin. auto with stills.
Qed.

Lemma good_gapLoop i ip slot : good (gapLoop i ip slot).
Proof. apply good_begin, still_begin. repeat constructor; auto 10 with stills. Qed.

Lemma good_emitPrefix depth st x : goodOps st → goodOps (emitPrefix depth st x).
Proof.
  destruct x as [i ip]. intros H. unfold emitPrefix. destruct (depthPos _ _) as [pos|]; [|done]. unfold emitGaps.
  assert (goodOps (fold_left (emitBound i ip) (boundPositionsBefore ip depth) st)) as H1 by (apply good_fold; [intros; by apply good_emitBound|done]).
  destruct (indexOf _ _); [|done]. cbv zeta. unfold goodOps. cbn [setScanPos ops]. apply good_fold; [|done]. intros st' x H'. unfold emitGap.
  destruct (_ || _); [done|]. apply height_good_add; [done|]. constructor; [apply good_gapLoop|constructor].
Qed.

Lemma still_scannersAt depth : Forall still (scannersAt plan depth).
Proof.
  unfold scannersAt. apply Forall_forall. intros e (x&_&Hx)%list_elem_of_omap. destruct (depthPos _ _); [|done]. injection Hx as <-. auto with stills.
Qed.

Lemma still_rangesFor depth v : still (rangesFor plan depth v).
Proof.
  unfold rangesFor. destruct (List.find _ _); [auto 10 with stills|]. assert (still (rangeTreeAt plan depth)) as H.
  { unfold rangeTreeAt. destruct (List.find _ _); auto with stills. }
  destruct (rangeTreeAt plan depth) as [| | | | | | | |[|x l]|]; auto with stills.
Qed.

Lemma good_mainLoop depth v : good (mainLoop plan depth v).
Proof.
  unfold mainLoop. cbv zeta. apply good_begin, still_begin. pose proof (still_scannersAt depth) as Hs. repeat constructor.
  - apply still_set; [auto with stills|]. apply still_init, Forall_app. split; [done|]. repeat constructor. apply still_rangesFor.
  - apply still_while; [auto with stills..|]. destruct (isInner plan depth); [|by auto with stills].
    pose proof (still_nest (map (fun sc => (sc, symB v)) (scannersAt plan depth)) [placeholder]) as H. rewrite !map_map in H. cbn [fst snd] in H.
    apply H; [|by auto with stills]. apply Forall_fmap. eapply Forall_impl; [exact Hs|]. intros e He. split; [done|by auto with stills].
Qed.

Lemma good_emitDepth st x : goodOps st → goodOps (emitDepth plan st x).
Proof.
  destruct x as [depth v]. intros H. unfold emitDepth. destruct (scannersAt plan depth); [done|].
  assert (goodOps (fold_left (emitPrefix depth) (imap pair (IterPlans plan)) st)) as H1 by (apply good_fold; [intros; by apply good_emitPrefix|done]).
  apply height_good_add; [by destruct (isInner plan depth)|]. constructor; [apply good_mainLoop|constructor].
Qed.

Lemma still_posToVar ip pos e : posToVar plan ip pos = Some e → still e.
Proof. unfold posToVar. destruct (List.find _ _); [|done]. intros [= <-]. auto with stills. Qed.

Lemma still_omap_posToVar ip (f : string → bool) l : Forall still (omap (fun pos => if f pos then None else posToVar plan ip pos) l).
Proof. apply Forall_forall. intros e (pos&_&He)%list_elem_of_omap. destruct (f pos); [done|]. by eapply still_posToVar. Qed.

Lemma still_lastRange i ip posName l r st :
  still r → goodOps st → still (fold_left (lastRangeStep plan i ip posName) l (r, st)).1 ∧ goodOps (fold_left (lastRangeStep plan i ip posName) l (r, st)).2.
Proof.
  revert r st. induction l as [|[posIdx pos] l IH]; intros r st Hr Hst; [done|]. cbn [fold_left]. unfold lastRangeStep at 2 4.
  destruct (String.eqb _ _); [by apply IH|]. destruct (nth _ _ _) as [v| | | |]; try by apply IH. unfold rangeTree. destruct (List.find _ _) as [rb|]; [|by apply IH].
  cbn [fmap option_fmap option_map]. destruct (_ && _); [|by apply IH]. apply IH; [apply still_tree|done].
Qed.

Lemma good_trailing i ip pre st t b : Forall still pre → still (bvExpr t) → goodOps st → goodOps (emitTrailing plan i ip pre st t b).
Proof.
  intros Hp Ht Hst. unfold emitTrailing. cbv zeta. destruct b.
  - destruct (still_lastRange i ip (bvPos t) (imap pair (IdxOrder ip)) (slist [kw "="; bvExpr t]) (markEmitted st i (bvPos t))) as [Hr Hs]; [auto 10 with stills|done|].
    destruct (fold_left _ _ _) as [ranges st']. cbn [fst snd] in Hr, Hs. apply height_good_add; [done|]. constructor; [|constructor]. apply good_begin.
    apply still_nest_one; [auto with stills|done|]. repeat constructor; auto 10 with stills.
  - apply height_good_add; [done|]. constructor; [|constructor]. apply good_begin.
    pose proof (still_nest (map (pair (scannerSym i)) pre ++ [(scannerSym i, bvExpr t)]) [placeholder]) as H.
    rewrite !map_app, !map_map in H. cbn [map fst snd] in H. unfold pushed. rewrite <- app_assoc in H.
    assert (map (fun _ => pop (scannerSym i)) pre ++ [pop (scannerSym i)] = pop (scannerSym i) :: map (fun _ => pop (scannerSym i)) pre) as E.
    { clear. induction pre as [|x pre IH]; [done|]. cbn [map app]. by rewrite IH. }
    rewrite E in H. apply H; [|by auto with stills]. apply Forall_app. split; [|by repeat constructor; auto with stills].
    apply Forall_fmap. eapply Forall_impl; [exact Hp|]. intros e He. cbn [fst snd]. split; [by auto with stills|done].
Qed.

Lemma good_emitTrail st x : goodOps st → goodOps (emitTrail plan st x).
Proof.
  destruct x as [i ip]. intros Hst. unfold emitTrail. cbv zeta.
  assert (Forall (fun t => still (bvExpr t)) (trailingOf i ip st)) as Ht.
  { unfold trailingOf. apply Forall_forall. intros t (bp&_&Hb)%list_elem_of_omap. destruct (isEmitted _ _ _); [done|].
    destruct (lookupBoundVal _ _) as [v|] eqn:E; [|done]. injection Hb as <-. by eapply still_bindVals. }
  assert (Forall still (prePushesOf plan i ip st (trailingOf i ip st))) as Hp by apply still_omap_posToVar.
  revert Ht Hp Hst. generalize (prePushesOf plan i ip st (trailingOf i ip st)) as pre. generalize (trailingOf i ip st) as l. intros l pre Hl Hp. revert st.
  induction Hl as [|t l Ht Hl IH]; intros st Hst; [done|]. cbn [emitTrailings]. apply IH. by apply good_trailing.
Qed.

Lemma good_rangeOps x : Forall good (rangeOpsOf plan x).
Proof.
  destruct x as [i ip]. unfold rangeOpsOf. assert (Forall good ([] : list Expr)) as H by constructor. revert H. generalize ([] : list Expr) as out.
  generalize (map bvPos (bindVals ip)) as done. induction (imap pair (IdxOrder ip)) as [|[posIdx pos] l IH]; intros dn out Hout; [exact Hout|].
  cbn [fold_left]. unfold rangeStep at 2. destruct (nth _ _ _) as [v| | | |]; try by apply IH. unfold rangeTree. destruct (List.find _ _) as [rb|]; [|by apply IH].
  cbn [fmap option_fmap option_map]. assert (still ((buildRangeTree ∘ cvBranches) rb)) as Hrt by apply still_tree. destruct (_ || _ || _); [by apply IH|]. apply IH, Forall_app. split; [done|]. constructor; [|constructor].
  apply good_begin. apply still_nest_one; [auto with stills|apply still_omap_posToVar|]. repeat constructor; by auto 10 with stills.
Qed.

Lemma good_planOps : Forall good (planOps plan).
Proof.
  unfold planOps. cbv zeta. apply Forall_app. split.
  - apply good_fold; [intros; by apply good_emitTrail|]. apply good_fold; [intros; by apply good_emitDepth|]. constructor.
  - apply Forall_flat_map, Forall_true. apply good_rangeOps.
Qed.

Lemma good_nested leaf l : good leaf → Forall good l → good (foldr replaceBodyPlaceholder leaf l).
Proof.
  intros Hleaf. induction 1 as [|op l [[o ->] Hs] Hl [IHl IHs]]; [done|]. cbn [foldr]. split; [by eexists|]. by apply still_replace.
Qed.

Lemma good_probe body p : good body → good (probe body p).
Proof.
  intros [Hl Hb]. unfold probe. destruct (negb _); [done|]. destruct (PE p), (PA p), (PV p); try done. cbv zeta. apply good_begin, still_begin.
  do 2 (constructor; [by auto 10 with stills|]). constructor; [|constructor]. set (sc := symB (bs "?s_probe")). set (t := symB _). assert (still sc) as Hsc by (subst sc; auto with stills). assert (still t) as Ht by (subst t; auto with stills). clearbody sc t.
  pose proof (still_nest [(sc, boundToSexpr v); (sc, boundToSexpr v0); (sc, boundToSexpr v1)] [whileForm t (symB (bs "?it_probe")) (begin_ [push sc t; body; pop sc])]) as H.
  apply H; [repeat constructor; cbn [fst snd]; by auto with stills|]. constructor; [|constructor]. apply still_while; [by auto with stills..|].
  apply (still_nest [(sc, t)] [body]); [by repeat constructor|by repeat constructor].
Qed.

Lemma still_projection n i fvIdx constants : Forall still (buildProjection plan n i fvIdx constants).
Proof.
  revert i fvIdx. induction n as [|n IH]; intros i fvIdx; [constructor|]. cbn [buildProjection]. destruct (List.find _ _) as [[]|]; [constructor; [apply still_planValue|apply IH]|].
  destruct (plFindVars plan !! fvIdx) as [fv|]; [|constructor; [auto with stills|apply IH]]. cbv zeta. constructor; [|apply IH].
  destruct (contains _ _); auto 10 with stills.
Qed.

Lemma still_program : still (compileSelectScheme plan).
Proof.
  unfold compileSelectScheme. cbv zeta. match goal with |- still (buildTriejoinScheme _ ?l) => set (leaf := l) end.
  assert (good leaf) as Hleaf.
  { subst leaf. destruct (_ && _); (split; [by eexists|]); [auto 10 with stills|]. apply still_kw; [vm_compute; reflexivity|]. apply still_projection. }
  unfold buildTriejoinScheme. cbv zeta. intros d. rewrite flatten_height. revert d. change (still (match IterPlans plan with [] => fold_left probe (Lookups plan) (foldr replaceBodyPlaceholder leaf (planOps plan))
    | _ => begin_ (map (openScanner plan) (imap pair (IterPlans plan)) ++ [fold_left probe (Lookups plan) (foldr replaceBodyPlaceholder leaf (planOps plan))]) end)).
  assert (good (fold_left probe (Lookups plan) (foldr replaceBodyPlaceholder leaf (planOps plan)))) as [_ Hb].
  { pose proof (good_nested leaf _ Hleaf good_planOps) as Hn. revert Hn. generalize (foldr replaceBodyPlaceholder leaf (planOps plan)) as body.
    induction (Lookups plan) as [|p l IH]; intros body Hbody; [done|]. cbn [fold_left]. by apply IH, good_probe. }
  destruct (IterPlans plan) as [|ip ips]; [done|]. apply still_begin, Forall_app. split; [|by repeat constructor]. apply still_map. intros [i x]. unfold openScanner.
  apply still_set; [by auto with stills|]. destruct (plHistory plan); cbn [app]; by auto 20 with stills.
Qed.
End plan.
End scanner.

(** ** The theorem *)

(** C33. Whatever the plan, the program compiled from it leaves the stack of every scanner as it found it, from any height: pushes and
    pops match along the program, no pop meets an empty stack, and every body of a loop keeps the height as well. *)
Theorem compiled_restores_scanners plan name d :
  height (bs "?s" ++ name) (compileSelectScheme plan) d = Some d.
Proof. apply still_program. vm_compute. discriminate. Qed.
