(* ===== verification/Stats.v ===== *)
(** * The schema snapshot of the engine (go/internal/eavt/eavt.go)

    The snapshot queries are compiled against: names and kinds of attributes and
    the sizes of the indexes, kept for thirty seconds. *)

From Stdlib Require Import String.
From S2P Require Import Prelude Msgpack Keys Resolver KeyStore Engine Float64 Datalog.
Open Scope string_scope.
Open Scope list_scope.
Open Scope Z_scope.

(** The snapshot kept and when it was made, in nanoseconds. *)
Record statsCache : Type := mkStatsCache { cachedStats : option CompileStats; cachedStatsTime : Z }.
Definition statsTTL : Z := 30 * 10 ^ 9.

Definition InvalidateStats (c : statsCache) : statsCache := mkStatsCache (cachedStats c) 0.

Section stats.
Context {S : Type} `{KS : KeyStore S}.

Definition schemaStats (r : Resolver) : CompileStats :=
  let attrs := AttrsSnapshot r in
  mkStats (i32 <$> attrs) ∅ ∅
    (list_to_set (omap (fun p => if bool_decide (ValueTypeFor r p.2 = Some DbTypeRef) then Some p.1 else None) (map_to_list attrs)))
    (list_to_set (omap (fun p => if Resolver.IsIndexed r p.2 then Some p.1 else None) (map_to_list attrs))).

Definition withEstimate (s : CompileStats) (index : string) (count : Z) : CompileStats :=
  mkStats (AttrIDs s) (<[bs index ++ bs ":" := float64.ofInt 0 count]> (IndexEstimates s)) (PartitionIDs s) (RefAttrs s) (IndexedAttrs s).

Fixpoint addEstimates (n : nat) (indexes : list string) (e : @Engine S) (s : CompileStats) : res (CompileStats * @Engine S) :=
  match indexes with
  | [] => Ok (s, e)
  | index :: indexes' =>
      '(count, e) ← EstimateCount n e (Z.to_nat (CfNameToID (toLower (bs index)))) [];
      addEstimates n indexes' e (withEstimate s index count)
  end.

Definition BuildCompileStats (n : nat) (e : @Engine S) (c : statsCache) (now : Z) : res (CompileStats * (@Engine S * statsCache)) :=
  let rebuild :=
    '(s, e) ← addEstimates n ["EAVT"; "AEVT"; "AVET"; "VAET"] e (schemaStats (Res e));
    Ok (s, (e, mkStatsCache (Some s) now)) in
  match cachedStats c with
  | Some s => if (now - cachedStatsTime c <? statsTTL) && negb (bool_decide (AttrIDs s = ∅)) then Ok (s, (e, c)) else rebuild
  | None => rebuild
  end.
End stats.

(** ** The schema snapshot on the wire *)

Definition pairsValue (f : Z → value) (l : list (bytes * Z)) : value := Map (map (fun p => (Str p.1, f p.2)) l).
Definition statsValue (attrs ests parts : list (bytes * Z)) (refs indexed : list bytes) : value :=
  Map [(Str (bs "attrIds"), pairsValue Int attrs); (Str (bs "indexEstimates"), pairsValue Float ests); (Str (bs "partitionIds"), pairsValue Int parts);
       (Str (bs "refAttrs"), Array (map Str refs)); (Str (bs "indexedAttrs"), Array (map Str indexed))].

Lemma encodePairs_value f l : encodePairs f l = Encoder.Encode (pairsValue f l).
Proof.
  unfold encodePairs, pairsValue. cbn [Encoder.Encode]. rewrite length_map. f_equal. induction l as [|[k x] l IH]; [done|]. cbn [map flat_map fst snd]. by rewrite IH.
Qed.

Lemma encodeStrs_value l : Encoder.EncodeArrayHeader (Z.of_nat (length l)) ++ flat_map (fun s => Encoder.Encode (Str s)) l = Encoder.Encode (Array (map Str l)).
Proof. cbn [Encoder.Encode]. rewrite length_map. f_equal. induction l as [|x l IH]; [done|]. cbn [map flat_map]. by rewrite IH. Qed.

Lemma encode_stats attrs ests parts refs indexed : EncodeCompileStats attrs ests parts refs indexed = Marshal (statsValue attrs ests parts refs indexed).
Proof.
  unfold EncodeCompileStats, strArr. rewrite !encodePairs_value, !encodeStrs_value. unfold Marshal, statsValue. cbn [Encoder.Encode length flat_map].
  rewrite app_nil_r, <- !app_assoc. done.
Qed.

Lemma decodePairs_map (f : value → option Z) (g : Z → value) l m :
  (∀ p, p ∈ l → f (g p.2) = Some p.2) → l ≡ₚ map_to_list m → decodePairs f (map (fun p => (Str p.1, g p.2)) l) = m.
Proof.
  intros Hf Hl. assert (NoDup l.*1) as Hnd by (rewrite Hl; apply NoDup_fst_map_to_list).
  assert (list_to_map (rev l) = m) as <-.
  { rewrite <- (list_to_map_to_list m). apply list_to_map_proper; [|etrans; [symmetry; apply Permutation_rev|exact Hl]]. change (NoDup (map fst (rev l))). rewrite map_rev. by rewrite <- Permutation_rev. }
  unfold decodePairs. rewrite <- fold_left_rev_right, <- map_rev. clear Hl Hnd.
  assert (∀ p, p ∈ rev l → f (g p.2) = Some p.2) as Hr by (intros p Hp; apply Hf; by rewrite (Permutation_rev l)). clear Hf. revert Hr.
  generalize (rev l) as l'. clear l.
  induction l' as [|[k x] l IH]; intros Hf; [done|]. cbn [map foldr list_to_map fst snd]. pose proof (Hf (k, x)) as Hx. cbn [snd] in Hx. rewrite Hx by left.
  rewrite IH; [done|]. intros p Hp. apply Hf. by right.
Qed.

Lemma strList_set (l : list bytes) (s : gset bytes) : l ≡ₚ elements s → fold_left (fun acc e => match e with Str s => {[s]} ∪ acc | _ => acc end) (map Str l) ∅ = s.
Proof.
  intros Hl. rewrite <- (list_to_set_elements_L s). rewrite <- Hl. rewrite <- fold_left_rev_right, <- map_rev.
  assert (list_to_set l = list_to_set (rev l) :> gset bytes) as -> by (by rewrite (Permutation_rev l) at 1). generalize (rev l) as l'. clear.
  induction l' as [|x l IH]; [done|]. cbn [map foldr list_to_set]. by rewrite IH.
Qed.

Definition is_i32 (z : Z) : Prop := - 2 ^ 31 ≤ z < 2 ^ 31.

Lemma i32_id z : is_i32 z → i32 z = z.
Proof. unfold is_i32, i32. intros H. rewrite Z.mod_small by lia. lia. Qed.

(** The tree of a snapshot, in any order of its maps, is read as the snapshot. *)
Lemma decode_statsValue s attrs ests parts refs indexed :
  attrs ≡ₚ map_to_list (AttrIDs s) → ests ≡ₚ map_to_list (IndexEstimates s) → parts ≡ₚ map_to_list (PartitionIDs s) →
  refs ≡ₚ elements (RefAttrs s) → indexed ≡ₚ elements (IndexedAttrs s) →
  Forall (fun p => is_i32 p.2) attrs → DecodeCompileStats (statsValue attrs ests parts refs indexed) = s.
Proof.
  intros Ha He Hp Hr Hi H32.
  unfold DecodeCompileStats, statsValue, memberMap, strList. cbn [Member Equal].
  repeat match goal with |- context [bool_decide (bs ?a = bs ?b)] => let r := eval vm_compute in (bool_decide (bs a = bs b)) in change (bool_decide (bs a = bs b)) with r end.
  cbv iota. unfold pairsValue.
  rewrite (decodePairs_map _ Int attrs (AttrIDs s)); [|intros p Hin; rewrite Forall_forall in H32; f_equal; by apply i32_id, H32|done].
  rewrite (decodePairs_map _ Float ests (IndexEstimates s)), (decodePairs_map _ Int parts (PartitionIDs s)), (strList_set refs (RefAttrs s)), (strList_set indexed (IndexedAttrs s)) by done. by destruct s.
Qed.
