(* ===== verification/DatalogSpec.v ===== *)
(** * Queries from text to rows (go/internal/datalog, query, scheme, engine)

    The wire form of the schema snapshot, programs compared with the ones the
    project keeps as test vectors, and queries run on the store of TxSpec.v. *)

From Stdlib Require Import String.
From S2P Require Import Prelude Msgpack Sexpr Float64 Cursors Journal KeyStore Engine QueryStore Scanner Scheme HostFns Tx Session TxSpec Datalog Planner PlannerSpec SchemeCompile Stats.
Open Scope string_scope.
Open Scope list_scope.
Open Scope Z_scope.

(** ** The schema snapshot on the wire *)

(** A schema snapshot written to the wire in any order of its maps and read back is the snapshot, if it can be written at all and
    its attribute identifiers have 32 bits. *)
Theorem stats_roundtrip s attrs ests parts refs indexed :
  attrs ≡ₚ map_to_list (AttrIDs s) → ests ≡ₚ map_to_list (IndexEstimates s) → parts ≡ₚ map_to_list (PartitionIDs s) →
  refs ≡ₚ elements (RefAttrs s) → indexed ≡ₚ elements (IndexedAttrs s) →
  Forall (fun p => is_i32 p.2) attrs → wf (statsValue attrs ests parts refs indexed) = true →
  ∃ v, Unmarshal (EncodeCompileStats attrs ests parts refs indexed) = Ok v ∧ DecodeCompileStats v = s.
Proof.
  intros. exists (statsValue attrs ests parts refs indexed). split; [rewrite encode_stats; by apply unmarshal_marshal|by apply decode_statsValue].
Qed.

Definition sampleStats : CompileStats :=
  mkStats {[bs "person/email" := 100; bs "person/friend" := 101]} {[bs "EAVT:" := 0x4020000000000000]} {[bs "db.part/user" := 4]} {[bs "person/friend"]} {[bs "person/email"]}.

Lemma stats_roundtrip_witness : ∃ v,
  Unmarshal (EncodeCompileStats [(bs "person/friend", 101); (bs "person/email", 100)] [(bs "EAVT:", 0x4020000000000000)] [(bs "db.part/user", 4)] [bs "person/friend"] [bs "person/email"]) = Ok v
  ∧ DecodeCompileStats v = sampleStats.
Proof.
  apply stats_roundtrip.
  - apply (Permutation_swap (bs "person/email", 100) (bs "person/friend", 101) []).
  - apply Permutation_refl.
  - apply Permutation_refl.
  - apply Permutation_refl.
  - apply Permutation_refl.
  - repeat constructor; cbn; lia.
  - vm_compute. reflexivity.
Defined.

(** ** Programs the project keeps as vectors *)

(** The snapshot of the vectors (go/testdata/golden/query). *)
Definition goldenStats : bytes :=
  [133; 167; 97; 116; 116; 114; 73; 100; 115; 222; 0; 85; 170; 115; 111; 99; 105; 111; 47; 110; 111; 109; 101; 204; 151; 170; 115; 111; 99; 105; 111;
   47; 112; 97; 105; 115; 204; 157; 170; 101; 115; 116; 97; 98; 47; 100; 100; 100; 49; 204; 143; 175; 100; 98; 47; 117; 110; 105; 113; 117; 101; 47; 118;
   97; 108; 117; 101; 37; 172; 101; 115; 116; 97; 98; 47; 109; 111; 116; 105; 118; 111; 204; 130; 182; 113; 117; 97; 108; 105; 102; 105; 99; 97; 99; 97;
   111; 47; 100; 101; 115; 99; 114; 105; 99; 97; 111; 107; 169; 112; 97; 105; 115; 47; 110; 111; 109; 101; 109; 183; 101; 109; 112; 114; 101; 115; 97;
   47; 111; 112; 116; 97; 110; 116; 101; 95; 115; 105; 109; 112; 108; 101; 115; 118; 173; 100; 98; 47; 116; 121; 112; 101; 47; 102; 108; 111; 97; 116;
   27; 174; 109; 117; 110; 105; 99; 105; 112; 105; 111; 47; 110; 111; 109; 101; 103; 170; 100; 98; 46; 112; 97; 114; 116; 47; 100; 98; 40; 175; 101; 115;
   116; 97; 98; 47; 116; 101; 108; 101; 102; 111; 110; 101; 50; 204; 146; 169; 100; 98; 47; 117; 110; 105; 113; 117; 101; 5; 178; 100; 98; 47; 117; 110;
   105; 113; 117; 101; 47; 105; 100; 101; 110; 116; 105; 116; 121; 38; 172; 100; 98; 46; 112; 97; 114; 116; 47; 117; 115; 101; 114; 42; 180; 101; 115;
   116; 97; 98; 47; 99; 110; 97; 101; 95; 112; 114; 105; 110; 99; 105; 112; 97; 108; 204; 133; 179; 100; 98; 47; 99; 97; 114; 100; 105; 110; 97; 108;
   105; 116; 121; 47; 109; 97; 110; 121; 36; 182; 101; 109; 112; 114; 101; 115; 97; 47; 100; 97; 116; 97; 95; 111; 112; 99; 97; 111; 95; 109; 101; 105;
   122; 171; 100; 98; 47; 116; 121; 112; 101; 47; 114; 101; 102; 21; 170; 100; 98; 46; 112; 97; 114; 116; 47; 116; 120; 41; 185; 101; 109; 112; 114; 101;
   115; 97; 47; 110; 97; 116; 117; 114; 101; 122; 97; 95; 106; 117; 114; 105; 100; 105; 99; 97; 114; 174; 101; 115; 116; 97; 98; 47; 115; 105; 116; 117;
   97; 99; 97; 111; 204; 128; 179; 101; 109; 112; 114; 101; 115; 97; 47; 111; 112; 116; 97; 110; 116; 101; 95; 109; 101; 105; 121; 168; 100; 98; 47; 105;
   100; 101; 110; 116; 1; 174; 100; 98; 47; 99; 97; 114; 100; 105; 110; 97; 108; 105; 116; 121; 2; 179; 113; 117; 97; 108; 105; 102; 105; 99; 97; 99; 97;
   111; 47; 99; 111; 100; 105; 103; 111; 106; 174; 99; 110; 97; 101; 47; 100; 101; 115; 99; 114; 105; 99; 97; 111; 101; 178; 115; 111; 99; 105; 111; 47;
   102; 97; 105; 120; 97; 95; 101; 116; 97; 114; 105; 97; 204; 158; 171; 100; 98; 47; 102; 117; 108; 108; 116; 101; 120; 116; 7; 179; 101; 115; 116; 97;
   98; 47; 109; 97; 116; 114; 105; 122; 95; 102; 105; 108; 105; 97; 108; 126; 171; 112; 97; 105; 115; 47; 99; 111; 100; 105; 103; 111; 108; 175; 115;
   111; 99; 105; 111; 47; 99; 104; 97; 118; 101; 95; 114; 101; 108; 204; 154; 173; 115; 111; 99; 105; 111; 47; 101; 109; 112; 114; 101; 115; 97; 204;
   148; 172; 100; 98; 47; 116; 121; 112; 101; 47; 98; 108; 111; 98; 28; 182; 101; 115; 116; 97; 98; 47; 100; 97; 116; 97; 95; 105; 110; 105; 99; 105;
   111; 95; 97; 116; 105; 118; 204; 132; 181; 101; 115; 116; 97; 98; 47; 116; 105; 112; 111; 95; 108; 111; 103; 114; 97; 100; 111; 117; 114; 111; 204;
   135; 171; 115; 111; 99; 105; 111; 47; 99; 104; 97; 118; 101; 204; 153; 179; 101; 115; 116; 97; 98; 47; 99; 110; 112; 106; 95; 99; 111; 109; 112; 108;
   101; 116; 111; 124; 168; 100; 98; 47; 105; 110; 100; 101; 120; 6; 186; 101; 109; 112; 114; 101; 115; 97; 47; 100; 97; 116; 97; 95; 111; 112; 99; 97;
   111; 95; 115; 105; 109; 112; 108; 101; 115; 119; 176; 109; 111; 116; 105; 118; 111; 47; 100; 101; 115; 99; 114; 105; 99; 97; 111; 111; 176; 101; 115;
   116; 97; 98; 47; 108; 111; 103; 114; 97; 100; 111; 117; 114; 111; 204; 136; 177; 101; 109; 112; 114; 101; 115; 97; 47; 99; 110; 112; 106; 95; 98; 97;
   115; 101; 112; 189; 101; 109; 112; 114; 101; 115; 97; 47; 100; 97; 116; 97; 95; 101; 120; 99; 108; 117; 115; 97; 111; 95; 115; 105; 109; 112; 108;
   101; 115; 120; 170; 100; 98; 46; 112; 97; 114; 116; 47; 105; 100; 39; 173; 101; 115; 116; 97; 98; 47; 101; 109; 112; 114; 101; 115; 97; 125; 180; 101;
   109; 112; 114; 101; 115; 97; 47; 114; 97; 122; 97; 111; 95; 115; 111; 99; 105; 97; 108; 113; 172; 115; 111; 99; 105; 111; 47; 112; 101; 115; 115; 111;
   97; 204; 149; 173; 100; 98; 47; 116; 121; 112; 101; 47; 98; 121; 116; 101; 115; 26; 173; 101; 109; 112; 114; 101; 115; 97; 47; 112; 111; 114; 116;
   101; 117; 171; 101; 115; 116; 97; 98; 47; 101; 109; 97; 105; 108; 204; 147; 171; 99; 110; 97; 101; 47; 99; 111; 100; 105; 103; 111; 100; 173; 109;
   111; 116; 105; 118; 111; 47; 99; 111; 100; 105; 103; 111; 110; 177; 101; 115; 116; 97; 98; 47; 99; 111; 109; 112; 108; 101; 109; 101; 110; 116; 111;
   204; 138; 178; 115; 111; 99; 105; 111; 47; 100; 97; 116; 97; 95; 101; 110; 116; 114; 97; 100; 97; 204; 156; 172; 100; 98; 47; 116; 120; 73; 110; 115;
   116; 97; 110; 116; 9; 182; 101; 109; 112; 114; 101; 115; 97; 47; 99; 97; 112; 105; 116; 97; 108; 95; 115; 111; 99; 105; 97; 108; 116; 168; 101; 115;
   116; 97; 98; 47; 117; 102; 204; 141; 172; 101; 115; 116; 97; 98; 47; 98; 97; 105; 114; 114; 111; 204; 139; 174; 115; 111; 99; 105; 111; 47; 99; 112;
   102; 95; 99; 110; 112; 106; 204; 152; 175; 110; 97; 116; 117; 114; 101; 122; 97; 47; 99; 111; 100; 105; 103; 111; 104; 175; 100; 98; 47; 116; 121;
   112; 101; 47; 98; 111; 111; 108; 101; 97; 110; 24; 174; 100; 98; 47; 116; 121; 112; 101; 47; 115; 116; 114; 105; 110; 103; 20; 179; 101; 115; 116; 97;
   98; 47; 110; 111; 109; 101; 95; 102; 97; 110; 116; 97; 115; 105; 97; 127; 170; 101; 115; 116; 97; 98; 47; 112; 97; 105; 115; 204; 131; 174; 100; 98;
   47; 105; 115; 67; 111; 109; 112; 111; 110; 101; 110; 116; 4; 175; 101; 115; 116; 97; 98; 47; 116; 101; 108; 101; 102; 111; 110; 101; 49; 204; 144;
   175; 100; 98; 47; 116; 121; 112; 101; 47; 105; 110; 115; 116; 97; 110; 116; 25; 169; 101; 115; 116; 97; 98; 47; 99; 101; 112; 204; 140; 179; 101; 115;
   116; 97; 98; 47; 100; 97; 116; 97; 95; 115; 105; 116; 117; 97; 99; 97; 111; 204; 129; 177; 115; 111; 99; 105; 111; 47; 116; 105; 112; 111; 95; 112;
   101; 115; 115; 111; 97; 204; 150; 170; 101; 115; 116; 97; 98; 47; 100; 100; 100; 50; 204; 145; 181; 101; 115; 116; 97; 98; 47; 99; 110; 97; 101; 95;
   115; 101; 99; 117; 110; 100; 97; 114; 105; 111; 204; 134; 172; 100; 98; 47; 110; 111; 72; 105; 115; 116; 111; 114; 121; 8; 185; 101; 109; 112; 114;
   101; 115; 97; 47; 100; 97; 116; 97; 95; 101; 120; 99; 108; 117; 115; 97; 111; 95; 109; 101; 105; 123; 175; 101; 115; 116; 97; 98; 47; 109; 117; 110;
   105; 99; 105; 112; 105; 111; 204; 142; 185; 101; 109; 112; 114; 101; 115; 97; 47; 113; 117; 97; 108; 105; 102; 105; 99; 97; 99; 97; 111; 95; 114; 101;
   115; 112; 115; 172; 101; 115; 116; 97; 98; 47; 110; 117; 109; 101; 114; 111; 204; 137; 176; 109; 117; 110; 105; 99; 105; 112; 105; 111; 47; 99; 111;
   100; 105; 103; 111; 102; 178; 100; 98; 47; 99; 97; 114; 100; 105; 110; 97; 108; 105; 116; 121; 47; 111; 110; 101; 35; 175; 100; 98; 47; 116; 121; 112;
   101; 47; 107; 101; 121; 119; 111; 114; 100; 23; 178; 115; 111; 99; 105; 111; 47; 113; 117; 97; 108; 105; 102; 105; 99; 97; 99; 97; 111; 204; 155; 178;
   110; 97; 116; 117; 114; 101; 122; 97; 47; 100; 101; 115; 99; 114; 105; 99; 97; 111; 105; 172; 100; 98; 47; 118; 97; 108; 117; 101; 84; 121; 112; 101;
   3; 172; 100; 98; 47; 116; 121; 112; 101; 47; 108; 111; 110; 103; 22; 174; 105; 110; 100; 101; 120; 69; 115; 116; 105; 109; 97; 116; 101; 115; 132;
   165; 86; 65; 69; 84; 58; 203; 64; 160; 160; 0; 0; 0; 0; 0; 165; 69; 65; 86; 84; 58; 203; 64; 212; 136; 0; 0; 0; 0; 0; 165; 65; 69; 86; 84; 58; 203;
   64; 212; 136; 0; 0; 0; 0; 0; 165; 65; 86; 69; 84; 58; 203; 64; 192; 137; 128; 0; 0; 0; 0; 172; 112; 97; 114; 116; 105; 116; 105; 111; 110; 73; 100;
   115; 128; 168; 114; 101; 102; 65; 116; 116; 114; 115; 220; 0; 31; 170; 115; 111; 99; 105; 111; 47; 112; 97; 105; 115; 175; 100; 98; 47; 117; 110; 105;
   113; 117; 101; 47; 118; 97; 108; 117; 101; 172; 101; 115; 116; 97; 98; 47; 109; 111; 116; 105; 118; 111; 173; 100; 98; 47; 116; 121; 112; 101; 47;
   102; 108; 111; 97; 116; 180; 101; 115; 116; 97; 98; 47; 99; 110; 97; 101; 95; 112; 114; 105; 110; 99; 105; 112; 97; 108; 170; 100; 98; 46; 112; 97;
   114; 116; 47; 100; 98; 169; 100; 98; 47; 117; 110; 105; 113; 117; 101; 178; 100; 98; 47; 117; 110; 105; 113; 117; 101; 47; 105; 100; 101; 110; 116;
   105; 116; 121; 172; 100; 98; 46; 112; 97; 114; 116; 47; 117; 115; 101; 114; 179; 100; 98; 47; 99; 97; 114; 100; 105; 110; 97; 108; 105; 116; 121; 47;
   109; 97; 110; 121; 171; 100; 98; 47; 116; 121; 112; 101; 47; 114; 101; 102; 170; 100; 98; 46; 112; 97; 114; 116; 47; 116; 120; 185; 101; 109; 112;
   114; 101; 115; 97; 47; 110; 97; 116; 117; 114; 101; 122; 97; 95; 106; 117; 114; 105; 100; 105; 99; 97; 174; 100; 98; 47; 99; 97; 114; 100; 105; 110;
   97; 108; 105; 116; 121; 173; 115; 111; 99; 105; 111; 47; 101; 109; 112; 114; 101; 115; 97; 172; 100; 98; 47; 116; 121; 112; 101; 47; 98; 108; 111; 98;
   173; 101; 115; 116; 97; 98; 47; 101; 109; 112; 114; 101; 115; 97; 172; 115; 111; 99; 105; 111; 47; 112; 101; 115; 115; 111; 97; 173; 100; 98; 47; 116;
   121; 112; 101; 47; 98; 121; 116; 101; 115; 175; 100; 98; 47; 116; 121; 112; 101; 47; 98; 111; 111; 108; 101; 97; 110; 174; 100; 98; 47; 116; 121; 112;
   101; 47; 115; 116; 114; 105; 110; 103; 170; 101; 115; 116; 97; 98; 47; 112; 97; 105; 115; 175; 100; 98; 47; 116; 121; 112; 101; 47; 105; 110; 115;
   116; 97; 110; 116; 181; 101; 115; 116; 97; 98; 47; 99; 110; 97; 101; 95; 115; 101; 99; 117; 110; 100; 97; 114; 105; 111; 175; 101; 115; 116; 97; 98;
   47; 109; 117; 110; 105; 99; 105; 112; 105; 111; 178; 115; 111; 99; 105; 111; 47; 113; 117; 97; 108; 105; 102; 105; 99; 97; 99; 97; 111; 185; 101; 109;
   112; 114; 101; 115; 97; 47; 113; 117; 97; 108; 105; 102; 105; 99; 97; 99; 97; 111; 95; 114; 101; 115; 112; 178; 100; 98; 47; 99; 97; 114; 100; 105;
   110; 97; 108; 105; 116; 121; 47; 111; 110; 101; 175; 100; 98; 47; 116; 121; 112; 101; 47; 107; 101; 121; 119; 111; 114; 100; 172; 100; 98; 47; 118;
   97; 108; 117; 101; 84; 121; 112; 101; 172; 100; 98; 47; 116; 121; 112; 101; 47; 108; 111; 110; 103; 172; 105; 110; 100; 101; 120; 101; 100; 65; 116;
   116; 114; 115; 155; 168; 100; 98; 47; 105; 100; 101; 110; 116; 179; 113; 117; 97; 108; 105; 102; 105; 99; 97; 99; 97; 111; 47; 99; 111; 100; 105; 103;
   111; 179; 101; 115; 116; 97; 98; 47; 99; 110; 112; 106; 95; 99; 111; 109; 112; 108; 101; 116; 111; 177; 101; 109; 112; 114; 101; 115; 97; 47; 99; 110;
   112; 106; 95; 98; 97; 115; 101; 175; 115; 111; 99; 105; 111; 47; 99; 104; 97; 118; 101; 95; 114; 101; 108; 171; 112; 97; 105; 115; 47; 99; 111; 100;
   105; 103; 111; 171; 115; 111; 99; 105; 111; 47; 99; 104; 97; 118; 101; 171; 99; 110; 97; 101; 47; 99; 111; 100; 105; 103; 111; 173; 109; 111; 116;
   105; 118; 111; 47; 99; 111; 100; 105; 103; 111; 175; 110; 97; 116; 117; 114; 101; 122; 97; 47; 99; 111; 100; 105; 103; 111; 176; 109; 117; 110; 105;
   99; 105; 112; 105; 111; 47; 99; 111; 100; 105; 103; 111].

(** A query compiled against it gives the bytes of the vector. *)
Definition golden (query : string) (wire : bytes) : bool :=
  match Unmarshal goldenStats with
  | Ok sv =>
      match CompileDatalogQuery (fun _ => None) 0 (bs query) (DecodeCompileStats sv) with
      | Ok (inr (prog, _)) => match ToWire prog with Ok b => bool_decide (b = wire) | _ => false end
      | _ => false
      end
  | _ => false
  end.

(** Vector 03. *)
Example golden_03 : golden "[:find ?cnpj ?rs :where [?e :empresa/cnpj_base ?cnpj] [?e :empresa/razao_social ?rs]]"
  [153; 199; 5; 6; 98; 101; 103; 105; 110; 147; 214; 6; 115; 101; 116; 33; 199; 3; 5; 63; 115; 48; 146; 199; 12; 6; 115; 99; 97; 110; 110; 101; 114; 45;
   111; 112; 101; 110; 164; 65; 69; 86; 84; 147; 214; 6; 115; 101; 116; 33; 199; 3; 5; 63; 115; 49; 146; 199; 12; 6; 115; 99; 97; 110; 110; 101; 114; 45;
   111; 112; 101; 110; 164; 65; 69; 86; 84; 147; 199; 12; 6; 115; 99; 97; 110; 110; 101; 114; 45; 112; 117; 115; 104; 199; 3; 5; 63; 115; 48; 146; 215;
   6; 105; 110; 116; 101; 114; 110; 45; 97; 177; 101; 109; 112; 114; 101; 115; 97; 47; 99; 110; 112; 106; 95; 98; 97; 115; 101; 147; 199; 12; 6; 115; 99;
   97; 110; 110; 101; 114; 45; 112; 117; 115; 104; 199; 3; 5; 63; 115; 49; 146; 215; 6; 105; 110; 116; 101; 114; 110; 45; 97; 180; 101; 109; 112; 114;
   101; 115; 97; 47; 114; 97; 122; 97; 111; 95; 115; 111; 99; 105; 97; 108; 147; 214; 6; 115; 101; 116; 33; 199; 5; 5; 63; 105; 116; 95; 101; 148; 199;
   20; 6; 115; 99; 97; 110; 110; 101; 114; 45; 105; 116; 101; 114; 97; 116; 101; 45; 105; 110; 105; 116; 199; 3; 5; 63; 115; 48; 199; 3; 5; 63; 115; 49;
   144; 147; 199; 5; 6; 119; 104; 105; 108; 101; 147; 214; 6; 115; 101; 116; 33; 212; 5; 101; 146; 199; 20; 6; 115; 99; 97; 110; 110; 101; 114; 45; 105;
   116; 101; 114; 97; 116; 101; 45; 110; 101; 120; 116; 199; 5; 5; 63; 105; 116; 95; 101; 151; 199; 5; 6; 98; 101; 103; 105; 110; 147; 199; 12; 6; 115;
   99; 97; 110; 110; 101; 114; 45; 112; 117; 115; 104; 199; 3; 5; 63; 115; 48; 212; 5; 101; 147; 199; 12; 6; 115; 99; 97; 110; 110; 101; 114; 45; 112;
   117; 115; 104; 199; 3; 5; 63; 115; 49; 212; 5; 101; 147; 214; 6; 115; 101; 116; 33; 215; 5; 63; 105; 116; 95; 99; 110; 112; 106; 147; 199; 20; 6; 115;
   99; 97; 110; 110; 101; 114; 45; 105; 116; 101; 114; 97; 116; 101; 45; 105; 110; 105; 116; 199; 3; 5; 63; 115; 48; 144; 147; 199; 5; 6; 119; 104; 105;
   108; 101; 147; 214; 6; 115; 101; 116; 33; 214; 5; 99; 110; 112; 106; 146; 199; 20; 6; 115; 99; 97; 110; 110; 101; 114; 45; 105; 116; 101; 114; 97;
   116; 101; 45; 110; 101; 120; 116; 215; 5; 63; 105; 116; 95; 99; 110; 112; 106; 149; 199; 5; 6; 98; 101; 103; 105; 110; 147; 199; 12; 6; 115; 99; 97;
   110; 110; 101; 114; 45; 112; 117; 115; 104; 199; 3; 5; 63; 115; 48; 214; 5; 99; 110; 112; 106; 147; 214; 6; 115; 101; 116; 33; 199; 6; 5; 63; 105;
   116; 95; 114; 115; 147; 199; 20; 6; 115; 99; 97; 110; 110; 101; 114; 45; 105; 116; 101; 114; 97; 116; 101; 45; 105; 110; 105; 116; 199; 3; 5; 63; 115;
   49; 144; 147; 199; 5; 6; 119; 104; 105; 108; 101; 147; 214; 6; 115; 101; 116; 33; 213; 5; 114; 115; 146; 199; 20; 6; 115; 99; 97; 110; 110; 101; 114;
   45; 105; 116; 101; 114; 97; 116; 101; 45; 110; 101; 120; 116; 199; 6; 5; 63; 105; 116; 95; 114; 115; 146; 199; 5; 6; 98; 101; 103; 105; 110; 147; 199;
   10; 6; 114; 101; 115; 117; 108; 116; 45; 114; 111; 119; 146; 199; 11; 6; 114; 101; 115; 111; 108; 118; 101; 45; 118; 97; 108; 214; 5; 99; 110; 112;
   106; 146; 199; 11; 6; 114; 101; 115; 111; 108; 118; 101; 45; 118; 97; 108; 213; 5; 114; 115; 146; 199; 11; 6; 115; 99; 97; 110; 110; 101; 114; 45;
   112; 111; 112; 199; 3; 5; 63; 115; 48; 146; 199; 11; 6; 115; 99; 97; 110; 110; 101; 114; 45; 112; 111; 112; 199; 3; 5; 63; 115; 48; 146; 199; 11; 6;
   115; 99; 97; 110; 110; 101; 114; 45; 112; 111; 112; 199; 3; 5; 63; 115; 49; 146; 199; 11; 6; 115; 99; 97; 110; 110; 101; 114; 45; 112; 111; 112; 199;
   3; 5; 63; 115; 49; 146; 199; 11; 6; 115; 99; 97; 110; 110; 101; 114; 45; 112; 111; 112; 199; 3; 5; 63; 115; 48] = true.
Proof. vm_compute. reflexivity. Qed.

(** Vector 20. *)
Example golden_20 : golden "[:find ?emp ?m :where [?e :estab/empresa ?emp] [?e :estab/municipio ?m] [?e :empresa/razao_social ?rs] [?e :empresa/natureza_juridica ?nat]]"
  [151; 199; 5; 6; 98; 101; 103; 105; 110; 147; 214; 6; 115; 101; 116; 33; 199; 3; 5; 63; 115; 48; 146; 199; 12; 6; 115; 99; 97; 110; 110; 101; 114; 45;
   111; 112; 101; 110; 164; 86; 65; 69; 84; 147; 214; 6; 115; 101; 116; 33; 199; 3; 5; 63; 115; 49; 146; 199; 12; 6; 115; 99; 97; 110; 110; 101; 114; 45;
   111; 112; 101; 110; 164; 86; 65; 69; 84; 147; 214; 6; 115; 101; 116; 33; 199; 3; 5; 63; 115; 50; 146; 199; 12; 6; 115; 99; 97; 110; 110; 101; 114; 45;
   111; 112; 101; 110; 164; 65; 69; 86; 84; 147; 214; 6; 115; 101; 116; 33; 199; 3; 5; 63; 115; 51; 146; 199; 12; 6; 115; 99; 97; 110; 110; 101; 114; 45;
   111; 112; 101; 110; 164; 86; 65; 69; 84; 147; 214; 6; 115; 101; 116; 33; 199; 7; 5; 63; 105; 116; 95; 101; 109; 112; 147; 199; 20; 6; 115; 99; 97;
   110; 110; 101; 114; 45; 105; 116; 101; 114; 97; 116; 101; 45; 105; 110; 105; 116; 199; 3; 5; 63; 115; 48; 144; 147; 199; 5; 6; 119; 104; 105; 108;
   101; 147; 214; 6; 115; 101; 116; 33; 199; 3; 5; 101; 109; 112; 146; 199; 20; 6; 115; 99; 97; 110; 110; 101; 114; 45; 105; 116; 101; 114; 97; 116; 101;
   45; 110; 101; 120; 116; 199; 7; 5; 63; 105; 116; 95; 101; 109; 112; 149; 199; 5; 6; 98; 101; 103; 105; 110; 147; 199; 12; 6; 115; 99; 97; 110; 110;
   101; 114; 45; 112; 117; 115; 104; 199; 3; 5; 63; 115; 48; 199; 3; 5; 101; 109; 112; 147; 214; 6; 115; 101; 116; 33; 199; 5; 5; 63; 105; 116; 95; 109;
   147; 199; 20; 6; 115; 99; 97; 110; 110; 101; 114; 45; 105; 116; 101; 114; 97; 116; 101; 45; 105; 110; 105; 116; 199; 3; 5; 63; 115; 49; 144; 147; 199;
   5; 6; 119; 104; 105; 108; 101; 147; 214; 6; 115; 101; 116; 33; 212; 5; 109; 146; 199; 20; 6; 115; 99; 97; 110; 110; 101; 114; 45; 105; 116; 101; 114;
   97; 116; 101; 45; 110; 101; 120; 116; 199; 5; 5; 63; 105; 116; 95; 109; 149; 199; 5; 6; 98; 101; 103; 105; 110; 147; 199; 12; 6; 115; 99; 97; 110;
   110; 101; 114; 45; 112; 117; 115; 104; 199; 3; 5; 63; 115; 49; 212; 5; 109; 147; 214; 6; 115; 101; 116; 33; 199; 7; 5; 63; 105; 116; 95; 110; 97; 116;
   147; 199; 20; 6; 115; 99; 97; 110; 110; 101; 114; 45; 105; 116; 101; 114; 97; 116; 101; 45; 105; 110; 105; 116; 199; 3; 5; 63; 115; 51; 144; 147; 199;
   5; 6; 119; 104; 105; 108; 101; 147; 214; 6; 115; 101; 116; 33; 199; 3; 5; 110; 97; 116; 146; 199; 20; 6; 115; 99; 97; 110; 110; 101; 114; 45; 105;
   116; 101; 114; 97; 116; 101; 45; 110; 101; 120; 116; 199; 7; 5; 63; 105; 116; 95; 110; 97; 116; 157; 199; 5; 6; 98; 101; 103; 105; 110; 147; 199; 12;
   6; 115; 99; 97; 110; 110; 101; 114; 45; 112; 117; 115; 104; 199; 3; 5; 63; 115; 51; 199; 3; 5; 110; 97; 116; 147; 199; 12; 6; 115; 99; 97; 110; 110;
   101; 114; 45; 112; 117; 115; 104; 199; 3; 5; 63; 115; 48; 146; 215; 6; 105; 110; 116; 101; 114; 110; 45; 97; 173; 101; 115; 116; 97; 98; 47; 101; 109;
   112; 114; 101; 115; 97; 147; 199; 12; 6; 115; 99; 97; 110; 110; 101; 114; 45; 112; 117; 115; 104; 199; 3; 5; 63; 115; 49; 146; 215; 6; 105; 110; 116;
   101; 114; 110; 45; 97; 175; 101; 115; 116; 97; 98; 47; 109; 117; 110; 105; 99; 105; 112; 105; 111; 147; 199; 12; 6; 115; 99; 97; 110; 110; 101; 114;
   45; 112; 117; 115; 104; 199; 3; 5; 63; 115; 50; 146; 215; 6; 105; 110; 116; 101; 114; 110; 45; 97; 180; 101; 109; 112; 114; 101; 115; 97; 47; 114; 97;
   122; 97; 111; 95; 115; 111; 99; 105; 97; 108; 147; 199; 12; 6; 115; 99; 97; 110; 110; 101; 114; 45; 112; 117; 115; 104; 199; 3; 5; 63; 115; 51; 146;
   215; 6; 105; 110; 116; 101; 114; 110; 45; 97; 185; 101; 109; 112; 114; 101; 115; 97; 47; 110; 97; 116; 117; 114; 101; 122; 97; 95; 106; 117; 114; 105;
   100; 105; 99; 97; 147; 214; 6; 115; 101; 116; 33; 199; 5; 5; 63; 105; 116; 95; 101; 150; 199; 20; 6; 115; 99; 97; 110; 110; 101; 114; 45; 105; 116;
   101; 114; 97; 116; 101; 45; 105; 110; 105; 116; 199; 3; 5; 63; 115; 48; 199; 3; 5; 63; 115; 49; 199; 3; 5; 63; 115; 50; 199; 3; 5; 63; 115; 51; 144;
   147; 199; 5; 6; 119; 104; 105; 108; 101; 147; 214; 6; 115; 101; 116; 33; 212; 5; 101; 146; 199; 20; 6; 115; 99; 97; 110; 110; 101; 114; 45; 105; 116;
   101; 114; 97; 116; 101; 45; 110; 101; 120; 116; 199; 5; 5; 63; 105; 116; 95; 101; 155; 199; 5; 6; 98; 101; 103; 105; 110; 147; 199; 12; 6; 115; 99;
   97; 110; 110; 101; 114; 45; 112; 117; 115; 104; 199; 3; 5; 63; 115; 48; 212; 5; 101; 147; 199; 12; 6; 115; 99; 97; 110; 110; 101; 114; 45; 112; 117;
   115; 104; 199; 3; 5; 63; 115; 49; 212; 5; 101; 147; 199; 12; 6; 115; 99; 97; 110; 110; 101; 114; 45; 112; 117; 115; 104; 199; 3; 5; 63; 115; 50; 212;
   5; 101; 147; 199; 12; 6; 115; 99; 97; 110; 110; 101; 114; 45; 112; 117; 115; 104; 199; 3; 5; 63; 115; 51; 212; 5; 101; 147; 214; 6; 115; 101; 116; 33;
   199; 6; 5; 63; 105; 116; 95; 114; 115; 147; 199; 20; 6; 115; 99; 97; 110; 110; 101; 114; 45; 105; 116; 101; 114; 97; 116; 101; 45; 105; 110; 105; 116;
   199; 3; 5; 63; 115; 50; 144; 147; 199; 5; 6; 119; 104; 105; 108; 101; 147; 214; 6; 115; 101; 116; 33; 213; 5; 114; 115; 146; 199; 20; 6; 115; 99; 97;
   110; 110; 101; 114; 45; 105; 116; 101; 114; 97; 116; 101; 45; 110; 101; 120; 116; 199; 6; 5; 63; 105; 116; 95; 114; 115; 146; 199; 5; 6; 98; 101; 103;
   105; 110; 147; 199; 10; 6; 114; 101; 115; 117; 108; 116; 45; 114; 111; 119; 146; 199; 11; 6; 114; 101; 115; 111; 108; 118; 101; 45; 118; 97; 108; 199;
   3; 5; 101; 109; 112; 146; 199; 11; 6; 114; 101; 115; 111; 108; 118; 101; 45; 118; 97; 108; 212; 5; 109; 146; 199; 11; 6; 115; 99; 97; 110; 110; 101;
   114; 45; 112; 111; 112; 199; 3; 5; 63; 115; 48; 146; 199; 11; 6; 115; 99; 97; 110; 110; 101; 114; 45; 112; 111; 112; 199; 3; 5; 63; 115; 49; 146; 199;
   11; 6; 115; 99; 97; 110; 110; 101; 114; 45; 112; 111; 112; 199; 3; 5; 63; 115; 50; 146; 199; 11; 6; 115; 99; 97; 110; 110; 101; 114; 45; 112; 111;
   112; 199; 3; 5; 63; 115; 51; 146; 199; 11; 6; 115; 99; 97; 110; 110; 101; 114; 45; 112; 111; 112; 199; 3; 5; 63; 115; 51; 146; 199; 11; 6; 115; 99;
   97; 110; 110; 101; 114; 45; 112; 111; 112; 199; 3; 5; 63; 115; 50; 146; 199; 11; 6; 115; 99; 97; 110; 110; 101; 114; 45; 112; 111; 112; 199; 3; 5; 63;
   115; 49; 146; 199; 11; 6; 115; 99; 97; 110; 110; 101; 114; 45; 112; 111; 112; 199; 3; 5; 63; 115; 48; 146; 199; 11; 6; 115; 99; 97; 110; 110; 101;
   114; 45; 112; 111; 112; 199; 3; 5; 63; 115; 51; 146; 199; 11; 6; 115; 99; 97; 110; 110; 101; 114; 45; 112; 111; 112; 199; 3; 5; 63; 115; 49; 146; 199;
   11; 6; 115; 99; 97; 110; 110; 101; 114; 45; 112; 111; 112; 199; 3; 5; 63; 115; 48] = true.
Proof. vm_compute. reflexivity. Qed.

(** ** Queries on a store *)

(** The rows of a query text, compiled against the snapshot of a store and run in a session on it, in one batch. *)
Definition rowsOf (query : string) (q : @QueryStore (list Journal.CfKey)) : option (list (list Expr)) :=
  match BuildCompileStats 1000 (Eavt q) (mkStatsCache None 0) 0 with
  | Ok (cs, _) =>
      match CompileDatalogQuery (fun _ => None) 0 (bs query) cs with
      | Ok (inr (prog, _)) =>
          match nextBatch noFloats 0 (fun _ => 0) {| keys := []; kpos := 0 |} 1000 1000 (NewStreamingSession (NewQuerySession (C := keysCursor) q prog [] 0 0 false)) 100 with
          | Ok (_, inr (rows, _)) => Some rows
          | _ => None
          end
      | _ => None
      end
  | _ => None
  end.

Definition ann : Z := 70368744177667.
Definition bob : Z := 70368744177668.

(** Who has an address. *)
Example all_addresses :
  rowsOf "[:find ?e ?n :where [?e :person/email ?n]]" peopleStore = Some [[sexpr.Int ann; sexpr.Str (bs "ann")]; [sexpr.Int bob; sexpr.Str (bs "bob")]].
Proof. vm_compute. reflexivity. Qed.

(** A constant true in a pattern is compiled as a constant false is: it restricts nothing. *)
Example booleans_ignored :
  CompileDatalogQuery (fun _ => None) 0 (bs "[:find ?e :where [?e :person/email true]]") sampleStats
  = CompileDatalogQuery (fun _ => None) 0 (bs "[:find ?e :where [?e :person/email false]]") sampleStats.
Proof. vm_compute. reflexivity. Qed.

(** The empty string is compiled as the number 0. *)
Example empty_string_is_zero :
  CompileDatalogQuery (fun _ => None) 0 (bs "[:find ?e :where [?e :person/email 0]]") sampleStats
  = CompileDatalogQuery (fun _ => None) 0 (bs "[:find ?e :where [?e :person/email " ++ [34; 34] ++ bs "]]") sampleStats.
Proof. vm_compute. reflexivity. Qed.

(** A store of two people of whom one has the other for a friend. The query for all addresses finds both. The query for all pairs
    of addresses finds one of the four: the cursor of a scanner that was read to its end stays there when its loop is entered
    again. The query for friends finds none: the index it walks from its start was already advanced when it was opened, so its
    first datom is passed over. *)
Example query_loses_rows :
  rowsOf "[:find ?n :where [?e :person/email ?n]]" peopleStore = Some [[sexpr.Str (bs "ann")]; [sexpr.Str (bs "bob")]]
  ∧ rowsOf "[:find ?n ?m :where [?e :person/email ?n] [?f :person/email ?m]]" peopleStore = Some [[sexpr.Str (bs "ann"); sexpr.Str (bs "ann")]]
  ∧ rowsOf "[:find ?f :where [?e :person/friend ?f]]" peopleStore = Some [].
Proof. split_and!; vm_compute; reflexivity. Qed.

(** ** A search *)

(** A variable and itself as a value: the second occurrence is a variable of its own. *)
Definition searchJoins : list Pattern :=
  [mkPattern (DsVar (bs "e")) (DsConst (BvResolvedAttr 100 (bs "person/email") false true)) (DsVar (bs "n")) DsMissing DsMissing;
   mkPattern (DsVar (bs "e")) (DsConst (BvResolvedAttr 101 (bs "person/friend") true false)) (DsVar (bs "e")) DsMissing DsMissing].
Definition searchWalk : varWalk := match patternWalk 0 searchJoins (mkVarWalk [] [] []) with inr w => w | inl _ => mkVarWalk [] [] [] end.
Definition sampleEnv : searchEnv :=
  mkEnv searchJoins [bs "n"] [] one (computePlanStats (withPatterns NewIR searchJoins) sampleStats) [0%nat; 1%nat] (vwSynth searchWalk).

Lemma search_exhaustive_witness : ∃ s t, runSearch 0 searchJoins searchWalk sampleEnv false = Ok s ∧ t ∈ traces s
  ∧ covers t [bs "n"; bs "e"; bs "e@p1.v"] ∧ float64.lt (TotalCost t) (bestCost s) = false ∧ bestOrdering s ≡ₚ vwAll searchWalk.
Proof.
  destruct (search_exhaustive 0 searchJoins searchWalk sampleEnv) as (s&E&Hcov&_&Hbest); [apply (bool_decide_unpack _); vm_compute; reflexivity|].
  destruct (Hcov [bs "n"; bs "e"; bs "e@p1.v"]) as (t&Ht&Hc&Hl).
  - apply (Permutation_swap (bs "e") (bs "n") [bs "e@p1.v"]).
  - intros i v. destruct i as [|[|[|i]]]; [intros [= <-]; vm_compute; reflexivity..|done].
  - exists s, t. split_and!; [exact E|exact Ht|exact Hc|exact Hl|]. destruct Hbest as [[Hn _]|[Hb _]]; [|exact Hb].
    assert (match runSearch 0 searchJoins searchWalk sampleEnv false with Ok s => negb (bool_decide (bestOrdering s = [])) | _ => true end = true) as G by (vm_compute; reflexivity).
    rewrite E, Hn in G. discriminate.
Defined.
