(* ===== verification/Frames.v ===== *)
(** * Frames on a connection (go/internal/downstream/downstream.go)

    Every connection of the system carries frames: four bytes of length, most
    significant first, and a body. downstream.go, front/front.go, client/client.go,
    querysrv/writer.go and replication/replication.go each write them, and the
    first three read them. A connection is the bytes its peer wrote before it
    closed. *)

From S2P Require Import Prelude Msgpack.

(** ** Definitions *)

Definition maxFrame : Z := 100000000.

(** A frame as [WriteFrame] of downstream.go sends it; the length is cut to 32
    bits. *)
Definition WriteFrame (body : bytes) : bytes := be_put 4 (Z.of_nat (length body)) ++ body.

(** Several frames in one write. *)
Definition writeFrames (frames : list bytes) : bytes := concat (map WriteFrame frames).

(** The next frame and what is left of the connection. [io.ReadFull] gives an
    error at the end of the connection. *)
Definition readFrame (s : bytes) : res (bytes * bytes) :=
  if Nat.ltb (length s) 4 then Err "EOF"
  else
    let n := be_get (take 4 s) in
    if (n =? 0) || (n >? maxFrame) then Err "bad frame length"
    else if Nat.ltb (length (drop 4 s)) (Z.to_nat n) then Err "unexpected EOF"
    else Ok (take (Z.to_nat n) (drop 4 s), drop (Z.to_nat n) (drop 4 s)).

(** The frames a loop of reads takes before its first error. *)
Fixpoint framesLoop (fuel : nat) (s : bytes) : list bytes :=
  match fuel with
  | O => []
  | S fuel' => match readFrame s with Ok (body, s') => body :: framesLoop fuel' s' | _ => [] end
  end.
Definition framesIn (s : bytes) : list bytes := framesLoop (S (length s)) s.

Definition ErrorFrame (msg : bytes) : bytes :=
  Marshal (Map [(Str (bs "error"), Str msg); (Str (bs "more"), Bool false)]).

(** [memberStr] and [memberBool] of the servers: the zero value where the member is
    missing or of another type. *)
Definition memberStr (m : list (value * value)) (key : string) : bytes :=
  match Member m (Str (bs key)) with Some (Str s) => s | _ => [] end.
Definition memberBool (m : list (value * value)) (key : string) : bool :=
  match Member m (Str (bs key)) with Some (Bool b) => b | _ => false end.
Definition memberArray (m : list (value * value)) (key : string) : list value :=
  match Member m (Str (bs key)) with Some (Array l) => l | _ => [] end.

(** ** Reading back what was written *)

(** What a reader accepts. *)
Definition fits (body : bytes) : Prop := 0 < Z.of_nat (length body) ≤ maxFrame.

#[export] Instance fits_dec body : Decision (fits body).
Proof. unfold fits. apply _. Defined.

Lemma length_WriteFrame body : length (WriteFrame body) = (4 + length body)%nat.
Proof. unfold WriteFrame. by rewrite length_app, length_be_put. Qed.

Lemma header_WriteFrame body rest : fits body → be_get (take 4 (WriteFrame body ++ rest)) = Z.of_nat (length body).
Proof.
  intros [H0 Hm]. unfold WriteFrame. rewrite <- app_assoc, take_app_le, take_ge by (rewrite length_be_put; lia).
  rewrite be_get_put. apply Z.mod_small. split; [lia|]. eapply Z.le_lt_trans; [exact Hm|]. by vm_compute.
Qed.

Lemma body_WriteFrame body rest : drop 4 (WriteFrame body ++ rest) = body ++ rest.
Proof. unfold WriteFrame. rewrite <- app_assoc. apply drop_app_length'. by rewrite length_be_put. Qed.

Lemma readFrame_write body rest : fits body → readFrame (WriteFrame body ++ rest) = Ok (body, rest).
Proof.
  intros Hf. unfold readFrame. rewrite header_WriteFrame, body_WriteFrame by done. destruct Hf as [H0 Hm].
  rewrite length_app, length_WriteFrame. replace (Nat.ltb (4 + length body + length rest) 4) with false by (symmetry; apply Nat.ltb_ge; lia).
  replace ((_ =? 0) || _) with false by (symmetry; apply orb_false_iff; split; [apply Z.eqb_neq; lia|rewrite Z.gtb_ltb; apply Z.ltb_ge; lia]).
  rewrite Nat2Z.id, length_app. replace (Nat.ltb (length body + length rest) (length body)) with false by (symmetry; apply Nat.ltb_ge; lia).
  by rewrite take_app_length, drop_app_length.
Qed.

(** A frame that is not whole is not read. *)
Lemma readFrame_cut body p : fits body → p `prefix_of` WriteFrame body → p ≠ WriteFrame body → ∃ e, readFrame p = Err e.
Proof.
  intros Hf [q Hq] Hne. unfold readFrame. destruct (Nat.ltb_spec (length p) 4) as [|H4]; [eauto|].
  assert (be_get (take 4 p) = Z.of_nat (length body)) as ->.
  { rewrite <- (header_WriteFrame body [] Hf), app_nil_r, Hq. by rewrite take_app_le by lia. }
  assert (0 < length q)%nat as Hq0 by (destruct q; [rewrite app_nil_r in Hq; by subst|cbn; lia]).
  assert (length body = (length p - 4 + length q)%nat) as Hl.
  { apply (f_equal length) in Hq. rewrite length_WriteFrame, length_app in Hq. lia. }
  destruct ((_ =? 0) || _); [eauto|]. rewrite Nat2Z.id, length_drop.
  replace (Nat.ltb (length p - 4) (length body)) with true by (symmetry; apply Nat.ltb_lt; lia). eauto.
Qed.

Lemma readFrame_less s body rest : readFrame s = Ok (body, rest) → (length rest < length s)%nat.
Proof.
  unfold readFrame. destruct (Nat.ltb_spec (length s) 4); [done|]. destruct ((_ =? 0) || _) eqn:E0; [done|].
  apply orb_false_iff in E0 as [E0%Z.eqb_neq _]. destruct (Nat.ltb_spec (length (drop 4 s)) (Z.to_nat (be_get (take 4 s)))); [done|].
  intros [= <- <-]. rewrite !length_drop. lia.
Qed.

(** Fuel as long as the connection is enough. *)
Lemma framesLoop_enough n m s : (length s < n)%nat → (length s < m)%nat → framesLoop n s = framesLoop m s.
Proof.
  revert m s. induction n as [|n IH]; intros [|m] s Hn Hm; [lia..|]. cbn [framesLoop]. destruct (readFrame s) as [[body s']| | |] eqn:E; [|done..].
  apply readFrame_less in E. f_equal. apply IH; lia.
Qed.

Lemma framesIn_nil : framesIn [] = [].
Proof. done. Qed.

Lemma framesIn_cons body rest : fits body → framesIn (WriteFrame body ++ rest) = body :: framesIn rest.
Proof.
  intros Hf. unfold framesIn at 1. cbn [framesLoop]. rewrite readFrame_write by done. f_equal. apply framesLoop_enough; [|lia].
  rewrite length_app, length_WriteFrame. lia.
Qed.

Lemma framesIn_app fs rest : Forall fits fs → framesIn (writeFrames fs ++ rest) = fs ++ framesIn rest.
Proof.
  unfold writeFrames. induction 1 as [|body fs Hb Hfs IH]; [done|]. cbn [map concat app]. rewrite <- app_assoc, framesIn_cons by done. by rewrite IH.
Qed.

Lemma writeFrames_app a b : writeFrames (a ++ b) = writeFrames a ++ writeFrames b.
Proof. unfold writeFrames. by rewrite map_app, concat_app. Qed.

Lemma prefix_of_app_cases (p a b : bytes) : p `prefix_of` a ++ b → (p `prefix_of` a ∧ p ≠ a) ∨ ∃ q, p = a ++ q ∧ q `prefix_of` b.
Proof.
  intros [q Hq]. destruct (Nat.lt_ge_cases (length p) (length a)) as [Hlt|Hge].
  - left. split; [|by intros ->; lia]. exists (drop (length p) a). rewrite <- (take_drop (length p) a) at 1. f_equal.
    apply (f_equal (take (length p))) in Hq. rewrite take_app_length, take_app_le in Hq by lia. by symmetry.
  - right. exists (drop (length a) p). apply (f_equal (take (length a))) in Hq as Ht. rewrite take_app_length, take_app_le in Ht by lia.
    split; [rewrite Ht at 1; by rewrite take_drop|]. exists q. apply (f_equal (drop (length a))) in Hq. by rewrite drop_app_length, drop_app_le in Hq by lia.
Qed.

(** Whatever part of the frames arrived, a reader takes the whole ones, in order,
    and nothing else. *)
Lemma framesIn_prefix p fs : Forall fits fs → p `prefix_of` writeFrames fs → framesIn p `prefix_of` fs.
Proof.
  intros Hfs. revert p. induction Hfs as [|body fs Hb Hfs IH]; intros p.
  { intros ->%prefix_nil_inv. by rewrite framesIn_nil. }
  intros [[Hp Hne]|(q&->&Hq)]%(prefix_of_app_cases p (WriteFrame body) (writeFrames fs)).
  - destruct (readFrame_cut body p Hb Hp Hne) as [e E]. unfold framesIn. cbn [framesLoop]. rewrite E. apply prefix_nil.
  - rewrite framesIn_cons by done. apply prefix_cons. by apply IH.
Qed.

(** Frames that fit are read back as they were written, in order, whatever follows
    them; when the connection breaks, what is read is a beginning of what was
    written. *)
Theorem frames_roundtrip fs : Forall fits fs →
  (∀ rest, framesIn (writeFrames fs ++ rest) = fs ++ framesIn rest)
  ∧ ∀ p, p `prefix_of` writeFrames fs → framesIn p `prefix_of` fs.
Proof. intros Hfs. split; [intros rest; by apply framesIn_app|]. intros p. by apply framesIn_prefix. Qed.

Lemma frames_roundtrip_witness :
  framesIn (writeFrames [bs "one"; bs "two"] ++ [0; 0]) = [bs "one"; bs "two"]
  ∧ framesIn (take 9 (writeFrames [bs "one"; bs "two"])) `prefix_of` [bs "one"; bs "two"].
Proof.
  destruct (frames_roundtrip [bs "one"; bs "two"]) as [H1 H2]; [repeat constructor; by vm_compute|]. split; [apply (H1 [0; 0])|].
  apply H2. exists (drop 9 (writeFrames [bs "one"; bs "two"])). reflexivity.
Defined.

(** A response without a body, which [WriteFrame] sends and no reader accepts, ends
    the connection. *)
Lemma empty_frame_ends rest : framesIn (WriteFrame [] ++ rest) = [].
Proof. reflexivity. Qed.
