(* ===== verification/Replication.v ===== *)
(** * The replication hub (go/internal/replication/replication.go)

    The transactor pushes the records of its log, markers for sealed segments and
    published roots, and the responses to forwarded requests to its subscribers. A
    subscriber buffers records, queues frames, and a drain in the background writes
    the queue to the connection. The sections under a lock are steps, and any of
    them may come between two steps of a drain. *)

From S2P Require Import Prelude Msgpack Frames.

(** ** Definitions *)

Definition BacklogMaxBytes : Z := 64 * 1024 * 1024.

Definition WalFrame (data : bytes) : bytes :=
  Marshal (Map [(Str (bs "ev"), Str (bs "wal")); (Str (bs "data"), Bin data)]).
Definition SealFrame (idx : Z) : bytes :=
  Marshal (Map [(Str (bs "ev"), Str (bs "seal")); (Str (bs "idx"), Int idx)]).
Definition RootFrame (name : bytes) (maxT : Z) : bytes :=
  Marshal (Map [(Str (bs "ev"), Str (bs "root")); (Str (bs "name"), Str name); (Str (bs "maxT"), Int maxT)]).
Definition SnapshotFrame (sealed : list bytes) (openTail root blobDir : bytes) : bytes :=
  Marshal (Map [(Str (bs "ev"), Str (bs "snapshot")); (Str (bs "sealed"), Array (map Str sealed));
                (Str (bs "openTail"), Bin openTail); (Str (bs "root"), Str root); (Str (bs "blobDir"), Str blobDir)]).

(** Where the drain of a subscriber is: not running, about to take the queue, with
    the frames it took, or about to credit the bytes it wrote. *)
Inductive drainPhase : Type :=
| DIdle
| DTake
| DWrite (frames : list bytes)
| DCredit (total : Z).

(** [sent] is what the connection was given. *)
Record Subscriber : Type := mkSub {
  conn : option nat;
  sbuf : bytes;
  queue : list bytes;
  backlog : Z;
  draining : bool;
  closed : bool;
  phase : drainPhase;
  sent : bytes;
}.

Definition flushBufLocked (s : Subscriber) : Subscriber :=
  if Nat.ltb 0 (length (sbuf s)) then
    mkSub (conn s) [] (queue s ++ [WalFrame (sbuf s)]) (backlog s) (draining s) (closed s) (phase s) (sent s)
  else s.

(** A frame behind what is queued, counted as [n] bytes. *)
Definition enqueue (s : Subscriber) (frame : bytes) (n : Z) : Subscriber :=
  mkSub (conn s) (sbuf s) (queue s ++ [frame]) (backlog s + n) (draining s) (closed s) (phase s) (sent s).

Definition pump (s : Subscriber) : Subscriber :=
  if draining s || closed s || bool_decide (conn s = None) then s
  else mkSub (conn s) (sbuf s) (queue s) (backlog s) true (closed s) DTake (sent s).

Definition EnqueueResponse (body : bytes) (s : Subscriber) : Subscriber :=
  if closed s then s else pump (enqueue (flushBufLocked s) body (4 + Z.of_nat (length body))).

Definition setClosed (s : Subscriber) : Subscriber :=
  mkSub (conn s) (sbuf s) (queue s) (backlog s) (draining s) true (phase s) (sent s).

(** The subscribers ever made, by number, and the registered ones. *)
Record Hub : Type := mkHub { subs : list nat; heap : gmap nat Subscriber; BlobDir : bytes }.

Definition NewHub (blobDir : bytes) : Hub := mkHub [] ∅ blobDir.

Definition withSub (h : Hub) (i : nat) (f : Subscriber → Subscriber) : Hub := mkHub (subs h) (alter f i (heap h)) (BlobDir h).

(** The number of the next subscriber. *)
Definition nextSub (h : Hub) : nat := size (heap h).

Definition Register (h : Hub) (c : nat) : Hub * nat :=
  let i := nextSub h in
  (mkHub (subs h ++ [i]) (<[i := mkSub (Some c) [] [] 0 false false DIdle []]> (heap h)) (BlobDir h), i).

Fixpoint removeFirst (i : nat) (l : list nat) : list nat :=
  match l with
  | [] => []
  | x :: l' => if Nat.eqb x i then l' else x :: removeFirst i l'
  end.
Definition Remove (h : Hub) (i : nat) : Hub := mkHub (removeFirst i (subs h)) (heap h) (BlobDir h).

Definition markClosed (h : Hub) (i : nat) : Hub :=
  match heap h !! i with
  | Some s => if closed s then h else Remove (withSub h i setClosed) i
  | None => h
  end.

Definition addWal (data : bytes) (s : Subscriber) : Subscriber :=
  mkSub (conn s) (sbuf s ++ data) (queue s) (backlog s + Z.of_nat (length data)) (draining s) (closed s) (phase s) (sent s).

Definition appendWal (data : bytes) (h : Hub) (i : nat) : Hub :=
  match heap h !! i with
  | Some s =>
      if closed s then h
      else
        let s := addWal data s in
        let h := withSub h i (fun _ => s) in
        if backlog s >? BacklogMaxBytes then markClosed h i else h
  | None => h
  end.

(** One step of the drain of a subscriber. [io] says how a write ends: [None] in
    full, [Some n] with an error after [n] bytes. A write to a closed connection
    fails. *)
Definition drain (io : option nat) (h : Hub) (i : nat) : Hub :=
  match heap h !! i with
  | Some s =>
      match phase s with
      | DIdle => h
      | DTake =>
          if closed s || Nat.eqb (length (queue s)) 0 then
            withSub h i (fun s => mkSub (conn s) (sbuf s) (queue s) (backlog s) false (closed s) DIdle (sent s))
          else
            withSub h i (fun s => mkSub (conn s) (sbuf s) [] (backlog s) (draining s) (closed s) (DWrite (queue s)) (sent s))
      | DWrite frames =>
          let data := writeFrames frames in
          match io, closed s with
          | None, false =>
              withSub h i (fun s => mkSub (conn s) (sbuf s) (queue s) (backlog s) (draining s) (closed s)
                                      (DCredit (Z.of_nat (length data))) (sent s ++ data))
          | _, _ =>
              markClosed (withSub h i (fun s => mkSub (conn s) (sbuf s) (queue s) (backlog s) (draining s) (closed s)
                                                  DIdle (sent s ++ take (default 0%nat io) data))) i
          end
      | DCredit total =>
          withSub h i (fun s => mkSub (conn s) (sbuf s) (queue s) (Z.max 0 (backlog s - total)) (draining s) (closed s) DTake (sent s))
      end
  | None => h
  end.

Definition Find (h : Hub) (c : nat) : option nat :=
  List.find (fun i => match heap h !! i with Some s => bool_decide (conn s = Some c) && negb (closed s) | None => false end) (subs h).

(** A marker to one subscriber, counted as [n] bytes whatever its size. *)
Definition sendMarker (frame : bytes) (n : Z) (h : Hub) (i : nat) : Hub :=
  withSub h i (fun s => if closed s then s else pump (enqueue (flushBufLocked s) frame n)).

Definition BroadcastWal (h : Hub) (data : bytes) : Hub := fold_left (appendWal data) (subs h) h.
Definition BroadcastSeal (h : Hub) (idx : Z) : Hub := fold_left (sendMarker (SealFrame idx) 48) (subs h) h.
Definition BroadcastRoot (h : Hub) (name : bytes) (maxT : Z) : Hub := fold_left (sendMarker (RootFrame name maxT) 64) (subs h) h.

Definition SendSnapshot (h : Hub) (i : nat) (sealed : list bytes) (openTail root : bytes) : Hub :=
  withSub h i (EnqueueResponse (SnapshotFrame sealed openTail root (BlobDir h))).

(** ** The hub as a machine *)

Inductive hop : Type :=
| HRegister (c : nat)
| HSnapshot (i : nat) (sealed : list bytes) (openTail root : bytes)
| HWal (data : bytes)
| HSeal (idx : Z)
| HRoot (name : bytes) (maxT : Z)
| HResponse (i : nat) (body : bytes)
| HDrain (i : nat) (io : option nat).

Definition runHub (h : Hub) (o : hop) : Hub :=
  match o with
  | HRegister c => (Register h c).1
  | HSnapshot i sealed openTail root => SendSnapshot h i sealed openTail root
  | HWal data => BroadcastWal h data
  | HSeal idx => BroadcastSeal h idx
  | HRoot name maxT => BroadcastRoot h name maxT
  | HResponse i body => withSub h i (EnqueueResponse body)
  | HDrain i io => drain io h i
  end.

(** What a subscriber is told: records of the log, and frames of their own. *)
Inductive item : Type :=
| WalData (data : bytes)
| Control (frame : bytes).

Definition itemFor (h : Hub) (o : hop) (i : nat) : list item :=
  match o with
  | HRegister _ | HDrain _ _ => []
  | HSnapshot j sealed openTail root => if Nat.eqb i j then [Control (SnapshotFrame sealed openTail root (BlobDir h))] else []
  | HWal data => [WalData data]
  | HSeal idx => [Control (SealFrame idx)]
  | HRoot name maxT => [Control (RootFrame name maxT)]
  | HResponse j body => if Nat.eqb i j then [Control body] else []
  end.

(** A frame as its reader takes it. *)
Definition itemOf (frame : bytes) : item :=
  match Unmarshal frame with
  | Ok (Map m) =>
      if bool_decide (memberStr m "ev" = bs "wal")
      then WalData (match Member m (Str (bs "data")) with Some (Bin d) => d | _ => [] end)
      else Control frame
  | _ => Control frame
  end.

(** The bytes of the log with the other frames between them. *)
Definition flatItem (x : item) : list (Z + bytes) := match x with WalData d => map inl d | Control b => [inr b] end.
Definition flat (l : list item) : list (Z + bytes) := concat (map flatItem l).

Definition isLive (h : Hub) (i : nat) : bool := match heap h !! i with Some s => negb (closed s) | None => false end.

(** The frames of the hub are of the sizes MessagePack can write, and responses are
    not taken for records. *)
Definition op_ok (h : Hub) (o : hop) : Prop :=
  match o with
  | HSnapshot _ sealed openTail root =>
      len32 sealed = true ∧ Forall (fun p => len32 p = true) sealed ∧ len32 openTail = true ∧ len32 root = true ∧ len32 (BlobDir h) = true
  | HSeal idx => is_i64 idx
  | HRoot name maxT => len32 name = true ∧ is_i64 maxT
  | HResponse _ body => itemOf body = Control body
  | _ => True
  end.

(** The states of the hub with what every subscriber was told since it registered,
    as long as it was not closed. *)
Inductive hreach : Hub → (nat → list item) → Prop :=
| HStart dir : hreach (NewHub dir) (fun _ => [])
| HStep h logs o : hreach h logs → op_ok h o →
    hreach (runHub h o) (fun i => if isLive h i then logs i ++ itemFor h o i else logs i).

(** ** Frames and items *)

Lemma flat_app a b : flat (a ++ b) = flat a ++ flat b.
Proof. unfold flat. by rewrite map_app, concat_app. Qed.

Lemma itemOf_marshal m : wf (Map m) = true → memberStr m "ev" ≠ bs "wal" → itemOf (Marshal (Map m)) = Control (Marshal (Map m)).
Proof. intros Hw Hm. unfold itemOf. by rewrite unmarshal_marshal, bool_decide_false. Qed.

Lemma itemOf_wal d : len32 d = true → itemOf (WalFrame d) = WalData d.
Proof. intros Hd. unfold itemOf, WalFrame. rewrite unmarshal_marshal; [reflexivity|]. cbn [wf forallb]. by rewrite Hd. Qed.

Lemma wf_i64 z : is_i64 z → wf (Int z) = true.
Proof. intros [??]. cbn [wf]. apply andb_true_intro. split; [by apply Z.leb_le|by apply Z.ltb_lt]. Qed.

Lemma wf_strs l : Forall (fun p => len32 p = true) l → forallb wf (map Str l) = true.
Proof. induction 1 as [|p l Hp _ IH]; [done|]. cbn. by rewrite Hp, IH. Qed.

Lemma itemOf_seal idx : is_i64 idx → itemOf (SealFrame idx) = Control (SealFrame idx).
Proof. intros Hi. apply itemOf_marshal; [|by vm_compute]. pose proof (wf_i64 idx Hi) as Hw. cbn [wf forallb] in *. by rewrite Hw. Qed.

Lemma itemOf_root name maxT : len32 name = true → is_i64 maxT → itemOf (RootFrame name maxT) = Control (RootFrame name maxT).
Proof.
  intros Hn Hi. apply itemOf_marshal; [|by vm_compute]. pose proof (wf_i64 maxT Hi) as Hw. cbn [wf forallb] in *. by rewrite Hn, Hw.
Qed.

Lemma itemOf_snapshot sealed openTail root dir :
  len32 sealed = true → Forall (fun p => len32 p = true) sealed → len32 openTail = true → len32 root = true → len32 dir = true →
  itemOf (SnapshotFrame sealed openTail root dir) = Control (SnapshotFrame sealed openTail root dir).
Proof.
  intros H1 H2 H3 H4 H5. apply itemOf_marshal; [|by vm_compute]. cbn [wf forallb]. rewrite wf_strs, H3, H4, H5 by done.
  unfold len32 in *. rewrite length_map, H1. done.
Qed.

(** The frames a log of items is sent as, and the records still to be framed. *)
Definition frameStep (acc : list bytes * bytes) (x : item) : list bytes * bytes :=
  match x with
  | WalData d => (acc.1, acc.2 ++ d)
  | Control b => (acc.1 ++ (if Nat.ltb 0 (length acc.2) then [WalFrame acc.2] else []) ++ [b], [])
  end.
Definition framed (l : list item) : list bytes * bytes := fold_left frameStep l ([], []).

Lemma framed_snoc l x : framed (l ++ [x]) = frameStep (framed l) x.
Proof. unfold framed. by rewrite fold_left_app. Qed.

Definition control_ok (x : item) : Prop := match x with WalData _ => True | Control b => itemOf b = Control b end.

(** Frames are not larger than the bytes they carry by much: a record that fits in a
    frame has a 32-bit length. *)
Lemma fits_wal d : fits (WalFrame d) → len32 d = true.
Proof.
  intros [_ Hf]. unfold len32. apply Z.ltb_lt. eapply Z.le_lt_trans; [|by eapply Z.le_lt_trans; [exact Hf|vm_compute]].
  unfold WalFrame, Marshal. cbn [Encoder.Encode flat_map]. rewrite !length_app. unfold Encoder.encodeBin. rewrite !length_app. lia.
Qed.

Lemma framed_flat l : Forall control_ok l → Forall fits (framed l).1 → flat (map itemOf (framed l).1) ++ map inl (framed l).2 = flat l.
Proof.
  induction l as [|x l IH] using rev_ind; intros Hc Hf; [done|]. rewrite framed_snoc in *. apply Forall_app in Hc as [Hc Hx].
  apply Forall_cons_1 in Hx as [Hx _]. rewrite flat_app. destruct x as [d|b]; cbn [frameStep fst snd] in *.
  - rewrite <- IH by done. rewrite map_app. unfold flat at 3. cbn [map concat flatItem]. by rewrite app_nil_r, app_assoc.
  - apply Forall_app in Hf as [Hf [Hw _]%Forall_app]. rewrite <- IH by done. rewrite !map_app, !flat_app. cbn [map]. cbn in Hx. rewrite Hx.
    rewrite app_nil_r, <- app_assoc. do 2 f_equal. destruct (Nat.ltb_spec 0 (length (framed l).2)) as [Hl|Hl].
    + apply Forall_cons_1 in Hw as [Hw _]. cbn [map]. rewrite itemOf_wal by (by apply fits_wal). unfold flat. cbn [map concat flatItem]. by rewrite app_nil_r.
    + by destruct (framed l).2; [|cbn in Hl; lia].
Qed.

(** ** What holds of a subscriber *)

Definition inflight (p : drainPhase) : list bytes := match p with DWrite fs => fs | _ => [] end.

Record sub_live (l : list item) (s : Subscriber) : Prop := {
  sl_open : closed s = false;
  sl_conn : conn s ≠ None;
  sl_buf : (framed l).2 = sbuf s;
  sl_sent : writeFrames (framed l).1 = sent s ++ writeFrames (inflight (phase s) ++ queue s);
  sl_drain : draining s = true ↔ phase s ≠ DIdle;
  sl_busy : queue s ≠ [] → phase s ≠ DIdle;
}.

Record sub_gone (l : list item) (s : Subscriber) : Prop := {
  sg_closed : closed s = true;
  sg_phase : ∀ fs, phase s = DWrite fs → sent s ++ writeFrames fs `prefix_of` writeFrames (framed l).1;
  sg_sent : sent s `prefix_of` writeFrames (framed l).1;
}.

Definition sub_ok (l : list item) (s : Subscriber) : Prop := sub_live l s ∨ sub_gone l s.

Lemma live_prefix l s : sub_live l s → sent s ++ writeFrames (inflight (phase s)) `prefix_of` writeFrames (framed l).1.
Proof. intros H. rewrite (sl_sent _ _ H), writeFrames_app, app_assoc. by eexists. Qed.

Lemma setClosed_ok l s : sub_live l s → sub_gone l (setClosed s).
Proof.
  intros H. pose proof (live_prefix l s H) as Hp. constructor; cbn [setClosed closed phase sent]; [done| |].
  - intros fs E. by rewrite E in Hp.
  - etrans; [|exact Hp]. by eexists.
Qed.

Lemma pump_same s : closed (pump s) = closed s ∧ conn (pump s) = conn s ∧ sbuf (pump s) = sbuf s ∧ queue (pump s) = queue s
  ∧ sent (pump s) = sent s ∧ inflight (phase (pump s)) = (if draining s || closed s || bool_decide (conn s = None) then inflight (phase s) else []).
Proof. unfold pump. by destruct (_ || _). Qed.

(** A frame behind the records of the buffer. *)
Lemma marker_ok l s frame n : sub_live l s → sub_live (l ++ [Control frame]) (pump (enqueue (flushBufLocked s) frame n)).
Proof.
  intros [H1 H2 H3 H4 H5 H6]. set (s1 := enqueue _ _ _).
  assert (closed s1 = false ∧ conn s1 ≠ None ∧ sbuf s1 = [] ∧ sent s1 = sent s ∧ phase s1 = phase s ∧ draining s1 = draining s
    ∧ queue s1 = queue s ++ (if Nat.ltb 0 (length (sbuf s)) then [WalFrame (sbuf s)] else []) ++ [frame]) as (A1&A2&A3&A4&A5&A6&A7).
  { unfold s1, enqueue, flushBufLocked. destruct (Nat.ltb_spec 0 (length (sbuf s))) as [Hl|Hl]; cbn [closed conn sbuf sent phase draining queue];
      split_and!; try done; [by rewrite <- app_assoc|by destruct (sbuf s); [|cbn in Hl; lia]]. }
  pose proof (pump_same s1) as (B1&B2&B3&B4&B5&B6). rewrite A6, A1, orb_false_r, bool_decide_false, orb_false_r in B6 by done.
  constructor; rewrite ?B1, ?B2, ?B3, ?B4, ?B5, ?A1, ?A3; try done.
  - by rewrite framed_snoc.
  - rewrite framed_snoc. cbn [frameStep fst]. rewrite writeFrames_app, H4, H3, A4, A7, B6, A5. rewrite !writeFrames_app, <- !app_assoc. f_equal.
    destruct (draining s) eqn:Ed; [done|]. destruct (phase s); [done|..]; exfalso; assert (false = true) as [=]; by apply H5.
  - unfold pump. rewrite A6, A1, bool_decide_false, orb_false_r by done. destruct (draining s) eqn:Ed; cbn [orb].
    + by rewrite A5, A6.
    + done.
  - intros _. unfold pump. rewrite A6, A1, bool_decide_false, orb_false_r by done. destruct (draining s) eqn:Ed; cbn [orb]; [|done].
    rewrite A5. by apply H5.
Qed.

Lemma wal_ok l s d : sub_live l s → sub_live (l ++ [WalData d]) (addWal d s).
Proof. intros [H1 H2 H3 H4 H5 H6]. constructor; rewrite ?framed_snoc; cbn [frameStep fst snd addWal closed conn sbuf sent phase draining queue]; try done. by rewrite H3. Qed.

(** ** What holds of the hub *)

Record hub_ok (h : Hub) (logs : nat → list item) : Prop := {
  ho_nodup : NoDup (subs h);
  ho_subs : ∀ i, i ∈ subs h ↔ isLive h i = true;
  ho_dom : ∀ i, is_Some (heap h !! i) ↔ (i < nextSub h)%nat;
  ho_sub : ∀ i s, heap h !! i = Some s → sub_ok (logs i) s;
  ho_log : ∀ i, Forall control_ok (logs i);
  ho_new : ∀ i, heap h !! i = None → logs i = [];
}.

Lemma elem_of_removeFirst i j l : NoDup l → j ∈ removeFirst i l ↔ j ∈ l ∧ j ≠ i.
Proof.
  induction 1 as [|x l Hx Hl IH]; cbn [removeFirst]; [rewrite elem_of_nil; tauto|].
  destruct (Nat.eqb_spec x i) as [->|Hne]; rewrite !elem_of_cons, ?IH; [|intuition congruence]. split; [|tauto].
  intros Hj. split; [by right|]. by intros ->.
Qed.

Lemma NoDup_removeFirst i l : NoDup l → NoDup (removeFirst i l).
Proof.
  induction 1 as [|x l Hx Hl IH]; cbn [removeFirst]; [constructor|]. destruct (Nat.eqb x i); [done|].
  constructor; [|done]. rewrite elem_of_removeFirst by done. tauto.
Qed.

(** A change of one subscriber, told [x], that keeps it open, or that closes and
    removes it. *)
Definition told (logs : nat → list item) (i : nat) (x : list item) : nat → list item :=
  fun j => if Nat.eqb j i then logs j ++ x else logs j.

Definition touched (h h' : Hub) (i : nat) (s' : Subscriber) : Prop :=
  BlobDir h' = BlobDir h ∧ heap h' = <[i := s']> (heap h)
  ∧ (closed s' = false ∧ subs h' = subs h ∨ closed s' = true ∧ subs h' = removeFirst i (subs h)).

Lemma size_alter (m : gmap nat Subscriber) i s s' : m !! i = Some s → size (<[i := s']> m) = size m.
Proof. intros Hi. by rewrite map_size_insert, Hi. Qed.

Lemma touched_ok h h' logs i s s' x :
  hub_ok h logs → heap h !! i = Some s → closed s = false → touched h h' i s' → Forall control_ok x → sub_ok (logs i ++ x) s' →
  hub_ok h' (told logs i x).
Proof.
  intros [H1 H2 H3 H4 H5 H6] Hi Ho (_&Hh&Hsubs) Hx Hs'. pose proof (fun j => H2 j) as Hlive. unfold isLive in Hlive. constructor.
  - destruct Hsubs as [[_ ->]|[_ ->]]; [done|by apply NoDup_removeFirst].
  - intros j. unfold isLive. rewrite Hh. destruct (decide (j = i)) as [->|Hne].
    + rewrite lookup_insert_eq. specialize (Hlive i). rewrite Hi, Ho in Hlive. destruct Hsubs as [[-> ->]|[-> ->]]; [done|].
      rewrite elem_of_removeFirst by done. cbn. split; [|done]. intros [_ ?]. done.
    + rewrite lookup_insert_ne by done. destruct Hsubs as [[_ ->]|[_ ->]]; [apply Hlive|]. rewrite elem_of_removeFirst by done. rewrite Hlive. tauto.
  - intros j. unfold nextSub. rewrite Hh, (size_alter _ _ _ _ Hi). destruct (decide (j = i)) as [->|Hne].
    + rewrite lookup_insert_eq. rewrite <- H3, Hi. done.
    + by rewrite lookup_insert_ne, H3.
  - intros j sj. rewrite Hh. unfold told. destruct (Nat.eqb_spec j i) as [->|Hne].
    + rewrite lookup_insert_eq. by intros [= <-].
    + rewrite lookup_insert_ne by done. apply H4.
  - intros j. unfold told. destruct (Nat.eqb_spec j i) as [->|Hne]; [|done]. by apply Forall_app.
  - intros j. unfold told. rewrite Hh. destruct (Nat.eqb_spec j i) as [->|Hne]; [by rewrite lookup_insert_eq|]. rewrite lookup_insert_ne by done. apply H6.
Qed.

Lemma touched_withSub h i s f : heap h !! i = Some s → closed s = false → closed (f s) = false → touched h (withSub h i f) i (f s).
Proof.
  intros Hi Ho Hf. split_and!; [done| |by left]. cbn [withSub heap]. apply map_eq. intros j. destruct (decide (j = i)) as [->|Hne].
  - by rewrite lookup_alter_eq, lookup_insert_eq, Hi.
  - by rewrite lookup_alter_ne, lookup_insert_ne.
Qed.

(** A change that closes: the new state is closed and removed. *)
Lemma touched_close h i s f : heap h !! i = Some s → closed s = false → closed (f s) = false →
  touched h (markClosed (withSub h i f) i) i (setClosed (f s)).
Proof.
  intros Hi Ho Hf. unfold markClosed, withSub. cbn [heap subs BlobDir]. rewrite lookup_alter_eq, Hi. cbn. rewrite Hf.
  split_and!; [done| |by right]. cbn. apply map_eq. intros j. destruct (decide (j = i)) as [->|Hne].
  - by rewrite lookup_alter_eq, lookup_alter_eq, lookup_insert_eq, Hi.
  - by rewrite !lookup_alter_ne, lookup_insert_ne.
Qed.

Lemma live_open h i : isLive h i = true ↔ ∃ s, heap h !! i = Some s ∧ closed s = false.
Proof.
  unfold isLive. destruct (heap h !! i) as [s|]; [|by split; [|intros (?&?&?)]]. rewrite negb_true_iff. split; [by exists s|]. by intros (?&[= <-]&?).
Qed.

Lemma sub_ok_open l s : sub_ok l s → closed s = false → sub_live l s.
Proof. intros [H|H] Ho; [done|]. by rewrite (sg_closed _ _ H) in Ho. Qed.

Lemma appendWal_ok h logs i d : hub_ok h logs → isLive h i = true → hub_ok (appendWal d h i) (told logs i [WalData d]).
Proof.
  intros Hok (s&Hi&Ho)%live_open. unfold appendWal. rewrite Hi, Ho. cbv zeta.
  pose proof (wal_ok _ _ d (sub_ok_open _ _ (ho_sub _ _ Hok _ _ Hi) Ho)) as Hs. destruct (backlog (addWal d s) >? BacklogMaxBytes).
  - eapply touched_ok; [done..|by apply (touched_close h i s (fun _ => addWal d s))|by repeat constructor|]. right. by apply setClosed_ok.
  - eapply touched_ok; [done..|by apply (touched_withSub h i s (fun _ => addWal d s))|by repeat constructor|by left].
Qed.

Lemma sendMarker_ok h logs i frame n :
  hub_ok h logs → isLive h i = true → itemOf frame = Control frame → hub_ok (sendMarker frame n h i) (told logs i [Control frame]).
Proof.
  intros Hok (s&Hi&Ho)%live_open Hf. pose proof (marker_ok _ _ frame n (sub_ok_open _ _ (ho_sub _ _ Hok _ _ Hi) Ho)) as Hs.
  set (f := fun s : Subscriber => if closed s then s else pump (enqueue (flushBufLocked s) frame n)). assert (f s = pump (enqueue (flushBufLocked s) frame n)) as E by (unfold f; by rewrite Ho).
  eapply touched_ok; [done..|apply (touched_withSub h i s f); [done..|]| |].
  - rewrite E. apply Hs.
  - by repeat constructor.
  - left. by rewrite E.
Qed.

(** Steps that touch one subscriber leave the others as they were. *)
Definition elsewhere (h h' : Hub) (i : nat) : Prop := ∀ j, j ≠ i → isLive h' j = isLive h j.

Lemma elsewhere_alter h i f : elsewhere h (withSub h i f) i.
Proof. intros j Hj. unfold isLive. cbn [withSub heap]. by rewrite lookup_alter_ne. Qed.

Lemma elsewhere_closed h i : elsewhere h (markClosed h i) i.
Proof. intros j Hj. unfold markClosed. destruct (heap h !! i) as [s|]; [|done]. destruct (closed s); [done|]. by apply (elsewhere_alter h i setClosed). Qed.

Lemma elsewhere_trans h h1 h2 i : elsewhere h h1 i → elsewhere h1 h2 i → elsewhere h h2 i.
Proof. intros H1 H2 j Hj. by rewrite H2, H1. Qed.

Lemma appendWal_elsewhere d h i : elsewhere h (appendWal d h i) i.
Proof.
  unfold appendWal. destruct (heap h !! i) as [s|]; [|by intros j]. destruct (closed s); [by intros j|]. cbv zeta.
  destruct (_ >? _); [eapply elsewhere_trans; [|apply elsewhere_closed]|]; apply elsewhere_alter.
Qed.

(** A broadcast reaches every registered subscriber once. *)
Lemma broadcast_ok f x h logs :
  (∀ h logs i, hub_ok h logs → isLive h i = true → hub_ok (f h i) (told logs i [x])) →
  (∀ h i, elsewhere h (f h i) i) →
  hub_ok h logs → ∃ logs', hub_ok (fold_left f (subs h) h) logs' ∧ ∀ i, logs' i = if isLive h i then logs i ++ [x] else logs i.
Proof.
  intros Hf He Hok. assert (∀ l h0 logs0, hub_ok h0 logs0 → NoDup l → (∀ i, i ∈ l → isLive h0 i = true) →
    ∃ logs', hub_ok (fold_left f l h0) logs' ∧ ∀ i, logs' i = if bool_decide (i ∈ l) then logs0 i ++ [x] else logs0 i) as G.
  { induction l as [|i l IH]; intros h0 logs0 H0 Hl Hin; [exists logs0; by split|]. apply NoDup_cons in Hl as [Hi Hl]. cbn [fold_left].
    destruct (IH (f h0 i) (told logs0 i [x])) as (logs'&Hok'&Hl'); [apply Hf; [done|apply Hin; left]|done| |].
    { intros j Hj. rewrite He by (by intros ->). apply Hin. by right. }
    exists logs'. split; [done|]. intros j. rewrite Hl'. unfold told. destruct (Nat.eqb_spec j i) as [->|Hne].
    - rewrite bool_decide_false by done. by rewrite bool_decide_true by left.
    - case_bool_decide as Hj; [by rewrite bool_decide_true by (by right)|]. rewrite bool_decide_false; [done|]. by intros [?|?]%elem_of_cons. }
  destruct (G (subs h) h logs Hok (ho_nodup _ _ Hok)) as (logs'&Hok'&Hl'); [intros i; apply Hok|]. exists logs'. split; [done|].
  intros i. rewrite Hl'. pose proof (ho_subs _ _ Hok i) as Hi. destruct (isLive h i); [by rewrite bool_decide_true by (by apply Hi)|].
  rewrite bool_decide_false; [done|]. intros ?%Hi. done.
Qed.

Lemma hub_ok_ext h logs logs' : (∀ i, logs' i = logs i) → hub_ok h logs → hub_ok h logs'.
Proof. intros E [H1 H2 H3 H4 H5 H6]. constructor; try done; intros i; rewrite E; [apply H4|apply H5|apply H6]. Qed.

Lemma told_live h logs i x :
  ∀ j, told logs i (if isLive h i then x else []) j = (if isLive h j then logs j ++ (if Nat.eqb j i then x else []) else logs j).
Proof.
  intros j. unfold told. destruct (Nat.eqb_spec j i) as [->|Hne]; [destruct (isLive h i); by rewrite ?app_nil_r|].
  destruct (isLive h j); by rewrite ?app_nil_r.
Qed.

(** A response to one subscriber. *)
Lemma response_ok h logs i body :
  hub_ok h logs → itemOf body = Control body →
  hub_ok (withSub h i (EnqueueResponse body)) (told logs i (if isLive h i then [Control body] else [])).
Proof.
  intros Hok Hb. destruct (isLive h i) eqn:El.
  - apply (sendMarker_ok h logs i body (4 + Z.of_nat (length body)) Hok El Hb).
  - eapply (hub_ok_ext _ logs); [intros j; unfold told; destruct (Nat.eqb j i); by rewrite ?app_nil_r|].
    replace (withSub h i (EnqueueResponse body)) with h; [done|]. destruct h as [sb hp dir]. unfold withSub, isLive in *. cbn [heap subs BlobDir] in *. f_equal.
    apply map_eq. intros j. destruct (decide (j = i)) as [->|Hne]; [|by rewrite lookup_alter_ne]. rewrite lookup_alter_eq.
    destruct (hp !! i) as [s|]; [|done]. cbn. unfold EnqueueResponse. by destruct (closed s).
Qed.

(** One step of a drain tells nothing new. *)
Definition drained (io : option nat) (s : Subscriber) : Subscriber :=
  match phase s with
  | DIdle => s
  | DTake =>
      if closed s || Nat.eqb (length (queue s)) 0
      then mkSub (conn s) (sbuf s) (queue s) (backlog s) false (closed s) DIdle (sent s)
      else mkSub (conn s) (sbuf s) [] (backlog s) (draining s) (closed s) (DWrite (queue s)) (sent s)
  | DWrite frames =>
      match io, closed s with
      | None, false => mkSub (conn s) (sbuf s) (queue s) (backlog s) (draining s) (closed s)
                         (DCredit (Z.of_nat (length (writeFrames frames)))) (sent s ++ writeFrames frames)
      | _, _ => mkSub (conn s) (sbuf s) (queue s) (backlog s) (draining s) true DIdle (sent s ++ take (default 0%nat io) (writeFrames frames))
      end
  | DCredit total => mkSub (conn s) (sbuf s) (queue s) (Z.max 0 (backlog s - total)) (draining s) (closed s) DTake (sent s)
  end.

Lemma drained_open l io s : sub_live l s → sub_ok l (drained io s).
Proof.
  intros Hl. pose proof (live_prefix l s Hl) as Hp. destruct Hl as [H1 H2 H3 H4 H5 H6]. unfold drained. rewrite H1. destruct (phase s) as [| |frames|total] eqn:Ep.
  - left. constructor; rewrite ?Ep; done.
  - assert (draining s = true) as Hd by (by apply H5). cbn [orb]. destruct (queue s) as [|q qs] eqn:Eq; left; constructor; cbn [closed conn sbuf queue backlog draining phase sent inflight]; try done.
    by rewrite H4, app_nil_r.
  - cbn [inflight] in *. destruct io as [n|].
    + right. constructor; cbn [closed phase sent]; [done|done|]. etrans; [|exact Hp]. apply prefix_app. exists (drop n (writeFrames frames)). by rewrite take_drop.
    + left. constructor; cbn [closed conn sbuf queue backlog draining phase sent inflight]; try done; [by rewrite H4, writeFrames_app, app_assoc|]. by rewrite H5.
  - left. constructor; cbn [closed conn sbuf queue backlog draining phase sent inflight]; try done. by rewrite H5.
Qed.

Lemma drained_gone l io s : sub_gone l s → sub_gone l (drained io s).
Proof.
  intros [H1 H2 H3]. unfold drained. rewrite H1. destruct (phase s) as [| |frames|total] eqn:Ep; cbn [orb].
  - constructor; rewrite ?Ep; done.
  - by constructor.
  - destruct io as [n|]; cbn [default]; (constructor; cbn [closed phase sent]; [done|done|]); (etrans; [|exact (H2 _ eq_refl)]); apply prefix_app.
    + exists (drop n (writeFrames frames)). by rewrite take_drop.
    + apply prefix_nil.
  - by constructor.
Qed.

Lemma heap_alter_some h i s f : heap h !! i = Some s → heap (withSub h i f) = <[i := f s]> (heap h).
Proof.
  intros Hi. apply map_eq. intros j. cbn [withSub heap]. destruct (decide (j = i)) as [->|Hne]; [by rewrite lookup_alter_eq, lookup_insert_eq, Hi|].
  by rewrite lookup_alter_ne, lookup_insert_ne.
Qed.

Lemma touched_by h i s f s' : heap h !! i = Some s → closed s = false → f s = s' → closed s' = false → touched h (withSub h i f) i s'.
Proof. intros Hi Ho <- Hf. by apply touched_withSub. Qed.

Lemma drain_touched io h i s : heap h !! i = Some s → closed s = false → touched h (drain io h i) i (drained io s).
Proof.
  intros Hi Ho. unfold drain, drained. rewrite Hi. destruct (phase s) as [| |frames|total] eqn:Ep.
  - split_and!; [done|by rewrite insert_id|by left].
  - destruct (closed s || Nat.eqb (length (queue s)) 0); by eapply touched_by.
  - rewrite Ho. destruct io as [n|]; [|eapply touched_by; [done..| |done]; by rewrite Ho].
    exact (touched_close h i s (fun s => mkSub (conn s) (sbuf s) (queue s) (backlog s) (draining s) (closed s) DIdle (sent s ++ take n (writeFrames frames))) Hi Ho Ho).
  - by eapply touched_by.
Qed.

Lemma drain_closed io h i s : heap h !! i = Some s → closed s = true → drain io h i = withSub h i (drained io).
Proof.
  intros Hi Ho. assert (∀ f, f s = drained io s → withSub h i f = withSub h i (drained io)) as G.
  { intros f Hf. unfold withSub. f_equal. apply map_eq. intros j. destruct (decide (j = i)) as [->|Hne]; [by rewrite !lookup_alter_eq, Hi; cbn; rewrite Hf|].
    by rewrite !lookup_alter_ne. }
  unfold drain. rewrite Hi. destruct (phase s) as [| |frames|total] eqn:Ep.
  - destruct h as [sb hp dir]. unfold withSub. cbn [heap subs BlobDir] in *. f_equal. apply map_eq. intros j.
    destruct (decide (j = i)) as [->|Hne]; [|by rewrite lookup_alter_ne]. rewrite lookup_alter_eq, Hi. cbn. unfold drained. by rewrite Ep.
  - rewrite Ho. cbn [orb]. apply G. unfold drained. by rewrite Ep, Ho.
  - assert (∀ f, closed (f s) = true → markClosed (withSub h i f) i = withSub h i f) as M.
    { intros f Hc. unfold markClosed. cbn [withSub heap]. rewrite lookup_alter_eq, Hi. cbn. by rewrite Hc. }
    rewrite Ho. destruct io as [n|]; (rewrite M by done); apply G; unfold drained; by rewrite Ep, Ho.
  - apply G. unfold drained. by rewrite Ep.
Qed.

Lemma drain_ok io h logs i : hub_ok h logs → hub_ok (drain io h i) logs.
Proof.
  intros Hok. destruct (heap h !! i) as [s|] eqn:Hi; [|unfold drain; by rewrite Hi]. destruct (closed s) eqn:Ho.
  - rewrite (drain_closed io h i s Hi Ho). destruct Hok as [H1 H2 H3 H4 H5 H6]. pose proof (heap_alter_some h i s (drained io) Hi) as Hh.
    destruct (H4 i s Hi) as [Hl|Hg]; [by rewrite (sl_open _ _ Hl) in Ho|]. apply (drained_gone _ io) in Hg. constructor; try done.
    + intros j. rewrite H2. unfold isLive. rewrite Hh. destruct (decide (j = i)) as [->|Hne]; [|by rewrite lookup_insert_ne].
      by rewrite lookup_insert_eq, Hi, Ho, (sg_closed _ _ Hg).
    + intros j. unfold nextSub. rewrite Hh, (size_alter _ _ _ _ Hi). destruct (decide (j = i)) as [->|Hne]; [|by rewrite lookup_insert_ne, H3].
      rewrite lookup_insert_eq. by rewrite <- H3, Hi.
    + intros j sj. rewrite Hh. destruct (decide (j = i)) as [->|Hne]; [|rewrite lookup_insert_ne by done; apply H4].
      rewrite lookup_insert_eq. intros [= <-]. by right.
    + intros j. rewrite Hh. destruct (decide (j = i)) as [->|Hne]; [by rewrite lookup_insert_eq|]. rewrite lookup_insert_ne by done. apply H6.
  - eapply hub_ok_ext; [|eapply (touched_ok h _ logs i s (drained io s) []); [done..|by apply drain_touched|done|]].
    + intros j. unfold told. destruct (Nat.eqb j i); by rewrite ?app_nil_r.
    + rewrite app_nil_r. apply drained_open, sub_ok_open; [by apply Hok|done].
Qed.

Lemma register_ok h logs c : hub_ok h logs → hub_ok (Register h c).1 logs.
Proof.
  intros [H1 H2 H3 H4 H5 H6]. unfold Register. cbn [fst].
  assert (heap h !! nextSub h = None) as Hn by (apply eq_None_not_Some; intros ?%H3; lia). constructor; cbn [subs heap]; try done.
  - apply NoDup_app. split_and!; [done| |apply NoDup_singleton]. intros i Hi%H2 ->%list_elem_of_singleton. unfold isLive in Hi. by rewrite Hn in Hi.
  - intros i. rewrite elem_of_app, list_elem_of_singleton, H2. unfold isLive. cbn [heap]. destruct (decide (i = nextSub h)) as [->|Hne].
    + rewrite lookup_insert_eq, Hn. cbn. tauto.
    + rewrite lookup_insert_ne by done. tauto.
  - intros i. unfold nextSub at 2. cbn [heap]. rewrite map_size_insert, Hn. destruct (decide (i = nextSub h)) as [->|Hne].
    + rewrite lookup_insert_eq. unfold nextSub. split; [intros _; lia|done].
    + rewrite lookup_insert_ne by done. rewrite H3. unfold nextSub in *. lia.
  - intros i s. destruct (decide (i = nextSub h)) as [->|Hne]; [|rewrite lookup_insert_ne by done; apply H4].
    rewrite lookup_insert_eq. intros [= <-]. left. rewrite H6 by done. by constructor.
  - intros i. destruct (decide (i = nextSub h)) as [->|Hne]; [by rewrite lookup_insert_eq|]. rewrite lookup_insert_ne by done. apply H6.
Qed.

Lemma hreach_ok h logs : hreach h logs → hub_ok h logs.
Proof.
  induction 1 as [dir|h logs o _ IH Ho].
  { constructor; cbn [NewHub subs heap]; [constructor| | |done|done|done]; intros i.
    - unfold isLive. cbn [NewHub heap]. rewrite lookup_empty, elem_of_nil. done.
    - unfold nextSub. cbn [NewHub heap]. rewrite lookup_empty, map_size_empty. split; [by intros []|lia]. }
  destruct o as [c|j sealed openTail root|data|idx|name maxT|j body|j io]; cbn [runHub itemFor op_ok] in *.
  - eapply hub_ok_ext; [|apply register_ok, IH]. intros i. destruct (isLive h i); by rewrite ?app_nil_r.
  - destruct Ho as (?&?&?&?&?). eapply hub_ok_ext; [|apply response_ok; [exact IH|by apply itemOf_snapshot]]. intros i. by rewrite told_live.
  - destruct (broadcast_ok (appendWal data) (WalData data) h logs) as (logs'&Hok&E); [intros; by apply appendWal_ok|apply appendWal_elsewhere|done|].
    by eapply hub_ok_ext; [|exact Hok].
  - destruct (broadcast_ok (sendMarker (SealFrame idx) 48) (Control (SealFrame idx)) h logs) as (logs'&Hok&E);
      [intros; apply sendMarker_ok; [done..|by apply itemOf_seal]|intros; apply elsewhere_alter|done|]. by eapply hub_ok_ext; [|exact Hok].
  - destruct (broadcast_ok (sendMarker (RootFrame name maxT) 64) (Control (RootFrame name maxT)) h logs) as (logs'&Hok&E);
      [intros; apply sendMarker_ok; [done..|destruct Ho; by apply itemOf_root]|intros; apply elsewhere_alter|done|]. by eapply hub_ok_ext; [|exact Hok].
  - eapply hub_ok_ext; [|apply response_ok; [exact IH|done]]. intros i. by rewrite told_live.
  - eapply hub_ok_ext; [|apply drain_ok, IH]. intros i. destruct (isLive h i); by rewrite ?app_nil_r.
Qed.

(** ** The theorems *)

(** Everything but the records in the buffer was written. *)
Definition idle (s : Subscriber) : Prop := closed s = false ∧ phase s = DIdle ∧ queue s = [].

Definition drains (h : Hub) (i n : nat) : Hub := Nat.iter n (fun h => drain None h i) h.

Lemma drain_live h i s : heap h !! i = Some s → closed s = false → heap (drain None h i) !! i = Some (drained None s).
Proof. intros Hi Ho. destruct (drain_touched None h i s Hi Ho) as (_&->&_). apply lookup_insert_eq. Qed.

Lemma drained_stays s : closed s = false → closed (drained None s) = false ∧ sbuf (drained None s) = sbuf s.
Proof. intros Ho. unfold drained. destruct (phase s); rewrite ?Ho; [done| |done..]. by destruct (_ || _). Qed.

Lemma drains_live h i s n : heap h !! i = Some s → closed s = false →
  heap (drains h i n) !! i = Some (Nat.iter n (drained None) s) ∧ closed (Nat.iter n (drained None) s) = false
  ∧ sbuf (Nat.iter n (drained None) s) = sbuf s.
Proof.
  intros Hi Ho. unfold drains. induction n as [|n (IH1&IH2&IH3)]; [done|]. cbn [Nat.iter nat_rect]. fold (Nat.iter n (drained None) s) in *.
  split; [by apply drain_live|]. destruct (drained_stays _ IH2) as [-> ->]. done.
Qed.

(** At most eight steps: the frames in hand, a credit, the rest of the queue. *)
Lemma drained_idle s : closed s = false → (queue s ≠ [] → phase s ≠ DIdle) → ∃ n, (n ≤ 7)%nat ∧ idle (Nat.iter n (drained None) s).
Proof.
  intros Ho Hb. destruct s as [c b q bl d cl p st]. cbn [closed queue phase] in *. subst cl. unfold idle.
  assert (∀ q d bl st, ∃ n, (n ≤ 4)%nat ∧ idle (Nat.iter n (drained None) (mkSub c b q bl d false DTake st))) as G.
  { intros q' d' bl' st'. destruct q' as [|x q']; [by exists 1%nat; split; [lia|]|by exists 4%nat; split; [lia|]]. }
  assert (∀ n s, Nat.iter n (drained None) (drained None s) = Nat.iter (S n) (drained None) s) as Hit.
  { intros n s. symmetry. apply (Nat.iter_succ_r n). }
  destruct p as [| |frames|total].
  - exists 0%nat. split; [lia|]. split_and!; [done|done|]. destruct q; [done|]. exfalso. by apply Hb.
  - destruct (G q d bl st) as (n&Hn&Hi). exists n. split; [lia|done].
  - destruct (G q d (Z.max 0 (bl - Z.of_nat (length (writeFrames frames)))) (st ++ writeFrames frames)) as (n&Hn&Hi). exists (S (S n)). split; [lia|].
    rewrite <- !Hit. exact Hi.
  - destruct (G q d (Z.max 0 (bl - total)) st) as (n&Hn&Hi). exists (S n). split; [lia|]. rewrite <- Hit. exact Hi.
Qed.

(** C14. Whatever broadcasts, responses and drains come in whatever order, and however
    writes fail, a reader of a subscriber's connection takes a beginning of what the
    subscriber was told since it registered: the same bytes of the log with the same
    frames at the same places between them, so that the records of a request come
    before its response. As long as the subscriber is open, at most seven turns of its
    drain deliver everything but the records still in its buffer. *)
Theorem replication_in_order h logs i s :
  hreach h logs → heap h !! i = Some s → Forall fits (framed (logs i)).1 →
  flat (map itemOf (framesIn (sent s))) `prefix_of` flat (logs i)
  ∧ (closed s = false → ∃ n s', (n ≤ 7)%nat ∧ heap (drains h i n) !! i = Some s'
       ∧ flat (map itemOf (framesIn (sent s'))) ++ map inl (sbuf s) = flat (logs i)).
Proof.
  intros Hr Hi Hf. pose proof (hreach_ok h logs Hr) as Hok. pose proof (framed_flat _ (ho_log _ _ Hok i) Hf) as Hfl. split.
  - assert (sent s `prefix_of` writeFrames (framed (logs i)).1) as Hp.
    { destruct (ho_sub _ _ Hok i s Hi) as [Hl|Hg]; [|apply Hg]. etrans; [|by apply live_prefix]. by eexists. }
    apply framesIn_prefix in Hp as [k Hk]; [|done]. rewrite <- Hfl, Hk, map_app, flat_app, <- app_assoc. by eexists.
  - intros Ho. pose proof (sub_ok_open _ _ (ho_sub _ _ Hok i s Hi) Ho) as Hl.
    destruct (drained_idle s Ho (sl_busy _ _ Hl)) as (n&Hn&_&Hph&Hq). destruct (drains_live h i s n Hi Ho) as (Hi'&Ho'&Hb').
    eexists n, _. split_and!; [done|exact Hi'|]. assert (sub_live (logs i) (Nat.iter n (drained None) s)) as Hl'.
    { clear Hn Hph Hq Hi' Hb'. induction n as [|n IH]; [done|]. cbn [Nat.iter nat_rect] in *. fold (Nat.iter n (drained None) s) in *.
      apply sub_ok_open; [|done]. apply drained_open, IH. by destruct (drains_live h i s n Hi Ho) as (_&?&_). }
    pose proof (sl_sent _ _ Hl') as Hs. rewrite Hph, Hq in Hs. cbn [inflight app] in Hs. rewrite app_nil_r in Hs. rewrite <- Hs, <- Hfl.
    rewrite <- (app_nil_r (writeFrames _)), framesIn_app, framesIn_nil, app_nil_r by done. by rewrite (sl_buf _ _ Hl).
Qed.

(** ** Samples *)

Definition sampleOps : list hop :=
  [HRegister 7; HSnapshot 0 [bs "wal.000000"] (bs "tail") (bs "root"); HDrain 0 None; HWal (bs "abc"); HDrain 0 None; HWal (bs "de");
   HResponse 0 (ErrorFrame (bs "no")); HDrain 0 None; HSeal 3; HDrain 0 None; HDrain 0 (Some 30%nat)].
Definition runHubs (h : Hub) (os : list hop) : Hub := fold_left runHub os h.

Definition logAfter (h : Hub) (logs : nat → list item) (o : hop) : nat → list item :=
  fun i => if isLive h i then logs i ++ itemFor h o i else logs i.
Fixpoint logsOf (h : Hub) (logs : nat → list item) (os : list hop) : nat → list item :=
  match os with
  | [] => logs
  | o :: os' => logsOf (runHub h o) (logAfter h logs o) os'
  end.

Lemma hreach_run h logs os : hreach h logs → (∀ n o, os !! n = Some o → op_ok (runHubs h (take n os)) o) → hreach (runHubs h os) (logsOf h logs os).
Proof.
  revert h logs. induction os as [|o os IH]; intros h logs Hr Hos; [done|]. cbn [runHubs fold_left logsOf]. apply IH.
  - apply HStep; [done|]. apply (Hos 0%nat o). done.
  - intros n o' Hn. apply (Hos (S n) o' Hn).
Qed.

Lemma sample_hub_reach : hreach (runHubs (NewHub (bs "blobs")) sampleOps) (logsOf (NewHub (bs "blobs")) (fun _ => []) sampleOps).
Proof.
  apply hreach_run; [constructor|]. intros n o Hn.
  destruct n as [|[|[|[|[|[|[|[|[|[|[|n]]]]]]]]]]]; [injection Hn as <-; try exact I..|done]; cbn [op_ok].
  - split_and!; [done|repeat constructor|done..].
  - vm_compute. reflexivity.
  - done.
Qed.

Lemma replication_in_order_witness :
  ∃ s, heap (runHubs (NewHub (bs "blobs")) sampleOps) !! 0%nat = Some s ∧ closed s = true
    ∧ flat (map itemOf (framesIn (sent s))) `prefix_of` flat (logsOf (NewHub (bs "blobs")) (fun _ => []) sampleOps 0%nat).
Proof.
  eexists. split; [vm_compute; reflexivity|]. split; [reflexivity|].
  refine (proj1 (replication_in_order _ _ 0 _ sample_hub_reach _ _)); [vm_compute; reflexivity|apply (bool_decide_unpack _); vm_compute; reflexivity].
Defined.

(** Records are not sent before a response or a marker comes: a subscriber that
    sends no requests sees none of them until a segment is sealed or a root published. *)
Lemma records_wait h i s d : heap h !! i = Some s → queue s = [] → phase s = DIdle →
  ∀ s', heap (appendWal d h i) !! i = Some s' → queue s' = [] ∧ phase s' = DIdle ∧ sent s' = sent s.
Proof.
  intros Hi Hq Hp s'. unfold appendWal. rewrite Hi. destruct (closed s); [rewrite Hi; by intros [= <-]|]. cbv zeta. destruct (_ >? _).
  - unfold markClosed, withSub. cbn [heap]. rewrite lookup_alter_eq, Hi. cbn. destruct (closed s); cbn; rewrite ?lookup_alter_eq, ?Hi; cbn; intros [= <-]; done.
  - unfold withSub. cbn [heap]. rewrite lookup_alter_eq, Hi. by intros [= <-].
Qed.

(** The count of pending bytes is not exact: here 15 bytes wait and none are
    counted, because a drain takes off the framing that was never counted. *)
Example backlog_undercounts :
  (fun s => (length (sbuf s), backlog s)) <$>
    heap (runHubs (NewHub []) [HRegister 1; HWal (bs "abc"); HResponse 0 (ErrorFrame []); HDrain 0 None; HWal (replicate 15 66);
                               HDrain 0 None; HDrain 0 None]) !! 0%nat
  = Some (15%nat, 0).
Proof. vm_compute. reflexivity. Qed.
