(* ===== verification/Replica.v ===== *)
(** * The read-only replica (go/internal/replica/replica.go)

    The query server opens the data directory of the transactor read-only and
    applies the replication stream to it: records of the log go to the memtable
    with the index keys derived from them, a seal freezes the memtable, and a root
    replaces the trees and drops what was frozen. *)

From S2P Require Import Prelude Pages FlatLeaf PageCache BlobStore PageStore PageTree PageCommit.
From S2P Require Import NewestWins Memtable MinHeap Hydrated Cursors MergedCursor PageCursor Journal Wal KvStore KvSpec KvScan KeyStore.
From S2P Require Import Keys ActiveScan Anchor Resolver Engine EngineSpec QueryStore Txw Session Datalog Stats KvEngine.
From S2P Require Import Msgpack Frames Replication.

(** ** Definitions *)

Definition WalSchemaAids : list Z := [DbIdentAid; DbCardinalityAid; DbValueTypeAid; DbUniqueAid].

Section replica.
Context {B : Type} `{HB : BlobStore B} `{HZ : Zstd}.
(** The fuel of scans, and the order in which Go ranges over the schema map. *)
Context (n : nat) (mapOrder : list (Z * bytes) → list (Z * bytes)).

Abbreviation engine := (@Engine (KVStore B)).

(** [KV] is the store below [rEavt]; [rStats] the snapshot it keeps. *)
Record ReplicaEngine : Type := mkReplica {
  rStore : @QueryStore (KVStore B);
  rStats : statsCache;
  Connected : bool;
  schemaDirty : bool;
  EvWalCount : Z;
  EvWalBytes : Z;
  EvSealCount : Z;
  EvRootCount : Z;
}.
Implicit Types r : ReplicaEngine.

Definition rEavt r : engine := Eavt (rStore r).
Definition withEngine r (e : engine) : ReplicaEngine :=
  mkReplica (withEavt (rStore r) e) (rStats r) (Connected r) (schemaDirty r) (EvWalCount r) (EvWalBytes r) (EvSealCount r) (EvRootCount r).
Definition withDirty r (d : bool) : ReplicaEngine :=
  mkReplica (rStore r) (rStats r) (Connected r) d (EvWalCount r) (EvWalBytes r) (EvSealCount r) (EvRootCount r).
Definition withStats r (c : statsCache) : ReplicaEngine :=
  mkReplica (rStore r) c (Connected r) (schemaDirty r) (EvWalCount r) (EvWalBytes r) (EvSealCount r) (EvRootCount r).

(** [None] where the source gives a nil replica. [b] is what the directory holds. *)
Definition OpenConfig (dir : bytes) (b : B) (now : clock) (hydMax anchorMax : Z) (enabled : bool) : res (option ReplicaEngine) :=
  let cfg := {| CfgPath := dir; CfgReadOnly := true; CfgNumCf := 64; CfgFlushThreshold := 0; CfgReplayOff := true; CfgPageCacheSize := 0 |} in
  match KvStore.New cfg b None ∅ now with
  | Ok kv => e ← NewEngine n mapOrder kv hydMax anchorMax enabled; Ok (Some (mkReplica (Session.New e) (mkStatsCache None 0) false false 0 0 0 0))
  | Err _ => Ok None
  | Panic => Panic
  | Diverge => Diverge
  end.

Definition GetStats r (now : Z) : res (CompileStats * ReplicaEngine) :=
  e ← BootstrapResolver n mapOrder (rEavt r);
  '(s, (e, c)) ← BuildCompileStats n e (InvalidateStats (rStats r)) now;
  Ok (s, withStats (withEngine r e) c).

Definition RefreshResolverOnSchemaWal r : res ReplicaEngine :=
  e ← BootstrapResolver n mapOrder (rEavt r);
  Ok (withDirty (withEngine r e) true).

Definition SchemaDirty r : bool := schemaDirty r.
Definition ClearSchemaDirty r : ReplicaEngine := withDirty r false.

(** The keys of one record in all families. *)
Definition expandOne (rs : Resolver) (rec : CfKey) : res (list CfKey) :=
  if negb (Nat.eqb rec.1 0) || Nat.ltb (length rec.2) 20 then Ok []
  else
    aid ← BeUint32 rec.2 8;
    let isRef := bool_decide (ValueTypeFor rs aid = Some DbTypeRef) in
    ds ← DeriveIndexKeys rec.2 (Resolver.IsIndexed rs aid) isRef;
    Ok ((0%nat, rec.2) :: map cfKey ds).
Fixpoint expand (rs : Resolver) (recs : list CfKey) : res (list CfKey) :=
  match recs with
  | [] => Ok []
  | rec :: recs' => a ← expandOne rs rec; b ← expand rs recs'; Ok (a ++ b)
  end.

Definition toEntries (keys : list CfKey) : list EavtEntry := map (fun k => {| CF := Z.of_nat k.1; Key := k.2 |}) keys.

(** Whether a record is of the schema. *)
Definition isSchemaRec (rec : CfKey) : bool :=
  Nat.eqb rec.1 0 && Nat.leb 12 (length rec.2) && bool_decide (Engine.be32 rec.2 8 ∈ WalSchemaAids).

Definition applyRecords r (recs : list CfKey) : res ReplicaEngine :=
  r ← (if existsb isSchemaRec recs then
         let cf0 := List.filter (fun rec => Nat.eqb rec.1 0 && Nat.leb 20 (length rec.2)) recs in
         e ← BatchWriteForeign (rEavt r) (toEntries cf0);
         RefreshResolverOnSchemaWal (withEngine r e)
       else Ok r);
  expanded ← expand (Res (rEavt r)) recs;
  e ← BatchWriteForeign (rEavt r) (toEntries expanded);
  Ok (withEngine r e).

Definition applyChunk r (data : bytes) : res ReplicaEngine :=
  match ParseJournalRecords data with [] => Ok r | recs => applyRecords r recs end.

Definition countWal r (data : bytes) : ReplicaEngine :=
  mkReplica (rStore r) (rStats r) (Connected r) (schemaDirty r) (EvWalCount r + 1) (EvWalBytes r + Z.of_nat (length data)) (EvSealCount r) (EvRootCount r).
Definition ApplyWal r (data : bytes) : res ReplicaEngine := applyChunk (countWal r data) data.

(** [files] reads the segment files of the shared directory. *)
Fixpoint applySegments (files : bytes → option bytes) r (sealed : list bytes) : res ReplicaEngine :=
  match sealed with
  | [] => Ok r
  | seg :: sealed' =>
      match files seg with
      | None => applySegments files r sealed'
      | Some data => r ← applyChunk r data; applySegments files r sealed'
      end
  end.

Definition rKV r : KVStore B := KV (rEavt r).
Definition withKVStore r (kv : KVStore B) : ReplicaEngine := withEngine r (withKV (rEavt r) kv).

Definition ApplySnapshot (files : bytes → option bytes) r (sealed : list bytes) (openTail rootName : bytes) : res ReplicaEngine :=
  r ← applySegments files r sealed;
  r ← (if nonEmpty openTail then applyChunk r openTail else Ok r);
  let r := if nonEmpty rootName then withKVStore r (PublishRoot (rKV r) rootName) else r in
  r ← RefreshResolverOnSchemaWal r;
  Ok (mkReplica (rStore r) (rStats r) true (schemaDirty r) (EvWalCount r) (EvWalBytes r) (EvSealCount r) (EvRootCount r)).

Definition ApplySeal r : res ReplicaEngine :=
  kv ← SealLiveToFlush (rKV r);
  let r := withKVStore r kv in
  Ok (mkReplica (rStore r) (rStats r) (Connected r) (schemaDirty r) (EvWalCount r) (EvWalBytes r) (EvSealCount r + 1) (EvRootCount r)).

Definition ApplyRoot r (rootName : bytes) : ReplicaEngine :=
  let r := withKVStore r (PublishRoot (rKV r) rootName) in
  mkReplica (rStore r) (rStats r) (Connected r) (schemaDirty r) (EvWalCount r) (EvWalBytes r) (EvSealCount r) (EvRootCount r + 1).

(** *** Events of the stream (go/internal/querysrv/server.go) *)

Definition valueBytes (v : value) : bytes :=
  match v with
  | Bin b => b
  | Array l => omap (fun e => match e with Int i => Some (i mod 256) | _ => None end) l
  | _ => []
  end.
Definition memberBytes (m : list (value * value)) (key : string) : bytes :=
  match Member m (Str (bs key)) with Some v => valueBytes v | None => [] end.
Definition memberStrs (m : list (value * value)) (key : string) : list bytes :=
  omap (fun v => match v with Str s => Some s | _ => None end) (memberArray m key).

(** What is not an event of a known kind is passed over. [ApplyRoot] has no use for
    the [maxT] of a root. *)
Definition onReplicationEvent (files : bytes → option bytes) r (frame : bytes) : res ReplicaEngine :=
  match Unmarshal frame with
  | Ok (Map m) =>
      let ev := memberStr m "ev" in
      if bool_decide (ev = bs "snapshot") then ApplySnapshot files r (memberStrs m "sealed") (memberBytes m "openTail") (memberStr m "root")
      else if bool_decide (ev = bs "wal") then ApplyWal r (memberBytes m "data")
      else if bool_decide (ev = bs "seal") then ApplySeal r
      else if bool_decide (ev = bs "root") then Ok (ApplyRoot r (memberStr m "name"))
      else Ok r
  | _ => Ok r
  end.
Definition onEvents (files : bytes → option bytes) r (frames : list bytes) : res ReplicaEngine := foldRes (onReplicationEvent files) frames r.

(** The transactor writes to the shared directory: what a read finds is [b] now. *)
Definition onDisk r (b : B) : ReplicaEngine := withKVStore r (withPS (rKV r) (withBlobs (PS (rKV r)) b)).
End replica.

(** *** What the log broadcasts (go/internal/wal/wal.go, go/internal/transactor/server.go) *)

(** The segments a step of the writer sealed, each broadcast by [OnSeal]. *)
Definition sealFrames (w w' : Writer) : list bytes :=
  map (fun s => SealFrame (Z.of_nat s.1)) (drop (length (sealed w)) (sealed w')).

(** [Sink] broadcasts the records, then drains, which broadcasts the seals. *)
Definition sinkFrames (w : Writer) (entries : list CfKey) : list bytes :=
  let '(w', data) := Sink w entries in
  match data with Some d => [WalFrame d] | None => [] end ++ sealFrames w w'.
