(* ===== verification/ReplicaSpec.v ===== *)
(** * What a replica shows

    A replica that is sent records, seals and roots in the order the transactor
    makes them, with every record before a seal in the root that follows it, holds
    exactly what it was sent; the stream of the transactor does not always have
    that order. *)

From S2P Require Import Prelude Pages FlatLeaf PageCache BlobStore PageStore PageTree PageCommit.
From S2P Require Import NewestWins Memtable MinHeap Hydrated Cursors MergedCursor PageCursor Journal Wal KvStore KvSpec KvScan KeyStore.
From S2P Require Import Keys ActiveScan Anchor Resolver Engine EngineSpec QueryStore Txw Session Datalog Stats KvEngine.
From S2P Require Import Msgpack Frames Replication Replica.

Section parts.
Context {B : Type} `{HB : BlobStore B} `{HL : !BlobLaws B} `{HZ : Zstd} `{HZL : !ZstdLaws}.
Implicit Types (kv : KVStore B) (H C P D : gset CfKey).

(** The live keys, the frozen ones and those of the trees, in the families of the
    indexes. *)
Definition holdsParts kv H C P : Prop :=
  ∃ ab c, mt_refines (MT kv) ab ∧ (4 ≤ length ab)%nat ∧ store_ok (PS kv) ∧ length (trees (PS kv)) = length ab
    ∧ numCf (PS kv) = Z.of_nat (length ab) ∧ trees_repr (blobs (PS kv)) (trees (PS kv)) c
    ∧ ∀ cf k, (cf ≤ 3)%nat → ((cf, k) ∈ H ↔ hotHas ab cf k) ∧ ((cf, k) ∈ C ↔ coldHas ab cf k) ∧ ((cf, k) ∈ P ↔ k ∈ c cf).

Lemma parts_get kv H C P cf k : holdsParts kv H C P → (cf ≤ 3)%nat → bytes_ok k →
  ∃ there kv', KvStore.Get kv cf k = Ok (there, kv') ∧ (there = true ↔ (cf, k) ∈ H ∪ C ∪ P).
Proof.
  intros (ab&c&Hmt&Hl&Hst&Htl&Hn&Htr&Hhas) Hcf Hk. destruct (Hhas cf k Hcf) as (HH&HC&HP).
  assert ((cf, k) ∈ H ∪ C ∪ P ↔ (hotHas ab cf k ∨ coldHas ab cf k) ∨ k ∈ c cf) as Hu by (by rewrite !elem_of_union, HH, HC, HP).
  setoid_rewrite Hu.
  destruct (ContainsAny_spec (MT kv) ab cf k Hmt) as (found&Ef&Hf); [lia|]. unfold KvStore.Get. rewrite Ef, res_bind_ret. destruct found.
  { eexists _, _. split; [done|]. tauto. }
  destruct (lookup_lt_is_Some_2 (trees (PS kv)) cf) as [tr Htr1]; [lia|]. destruct (Htr cf tr Htr1) as [Hrep Hok].
  destruct (KeyExists_spec (PS kv) cf tr (c cf) k) as (th&s'&E1&Hth&_); [done|done|lia|done|done|done|].
  rewrite E1, res_bind_ret. eexists _, _. split; [done|]. rewrite Hth. split; [tauto|]. intros [Hx%Hf|?]; done.
Qed.

Lemma parts_same kv kv' H C P : MT kv' = MT kv → PS kv' = PS kv → holdsParts kv H C P → holdsParts kv' H C P.
Proof. unfold holdsParts. by intros -> ->. Qed.

Lemma parts_write kv H C P es kv' : holdsParts kv H C P → Forall storable es → batchWrite kv es = Ok kv' →
  holdsParts kv' (H ∪ list_to_set es) C P.
Proof.
  intros (ab&c&Hmt&Hl&Hst&Htl&Hn&Htr&Hhas) Hes E. cbn [batchWrite kvKeyStore] in E. unfold KvStore.BatchWrite in E. cbn [andb] in E.
  destruct (Batch_spec (MT kv) ab es Hmt) as (mt&size&Eb&Hmt'); [eapply Forall_impl; [exact Hes|apply storable_key]|].
  rewrite Eb, res_bind_ret in E. injection E as <-. destruct (maybeArmFlush_same (withMT kv mt size)) as (_&EP&EM&_).
  exists (batchAbs ab es), c. rewrite EM, EP. cbn [withMT MT PS]. rewrite length_batchAbs. split_and!; try done. intros cf k Hcf.
  destruct (Hhas cf k Hcf) as (HH&HC&HP). rewrite elem_of_union, elem_of_list_to_set, hotHas_batch, coldHas_batch, HH, HC, HP.
  assert ((cf < length ab)%nat) by lia. tauto.
Qed.

Lemma parts_journal kv H C P es : holdsParts kv H C P → holdsParts (journalOnly kv es) H C P.
Proof.
  intros Hp. cbn [journalOnly kvKeyStore]. unfold JournalOnly. destruct (_ && _); [|done].
  eapply parts_same; [apply journalDeliver_same..|done].
Qed.

(** A scan puts the memtable in order, and changes nothing else. *)
Lemma parts_scan kv H C P m cf target out kv' :
  holdsParts kv H C P → (cf ≤ 3)%nat → scanKeys m kv cf target = Ok (out, kv') → holdsParts kv' H C P.
Proof.
  intros (ab&c&Hmt&Hl&Hst&Htl&Hn&Htr&Hhas) Hcf E. cbn [scanKeys kvKeyStore] in E. unfold scanStore, OpenScanCursor in E.
  destruct (SnapshotRuns_spec (MT kv) ab cf Hmt) as (mt'&rs&Es&Hmt'&_); [lia|]. rewrite Es, !res_bind_ret in E. cbv beta iota zeta in E.
  apply res_bind_Ok in E as (mc&_&E). apply res_bind_Ok in E as (ks&_&[= <- <-]). exists ab, c. cbn [withMT MT PS]. by split_and!.
Qed.

Lemma parts_seal kv H C P kv' : holdsParts kv H C P → SealLiveToFlush kv = Ok kv' → holdsParts kv' ∅ H P.
Proof.
  intros (ab&c&Hmt&Hl&Hst&Htl&Hn&Htr&Hhas) E. unfold SealLiveToFlush in E. destruct (FreezeAllCapture_spec (MT kv) ab Hmt) as (mt'&cap&Ef&Hmt'&_).
  rewrite Ef, res_bind_ret in E. injection E as <-. exists (map freezeAbs ab), c. cbn [withActive withMT MT PS]. rewrite length_map. split_and!; try done.
  intros cf k Hcf. destruct (Hhas cf k Hcf) as (HH&HC&HP). rewrite coldHas_freeze, <- HH, HP. split_and!; [|done|done].
  split; [set_solver|]. intros ?. exfalso. by eapply hotHas_freeze.
Qed.

Lemma seal_succeeds kv H C P : holdsParts kv H C P → ∃ kv', SealLiveToFlush kv = Ok kv'.
Proof.
  intros (ab&c&Hmt&_). unfold SealLiveToFlush. destruct (FreezeAllCapture_spec (MT kv) ab Hmt) as (mt'&cap&->&_). rewrite res_bind_ret. eauto.
Qed.

(** What the transactor may do to the shared directory: what was given an
    identifier keeps it. *)
Record disk_grows (b b' : B) : Prop := {
  dg_inv : binv b';
  dg_used : ∀ u, used b u → used b' u;
  dg_objs : ∀ u, is_id u → used b u → objs b' u = objs b u;
}.

Lemma parts_disk kv H C P b' : holdsParts kv H C P → disk_grows (blobs (PS kv)) b' → holdsParts (withPS kv (withBlobs (PS kv) b')) H C P.
Proof.
  intros (ab&c&Hmt&Hl&Hst&Htl&Hn&Htr&Hhas) [Hb Hu Ho]. exists ab, c. cbn [withPS withBlobs MT PS trees numCf blobs].
  assert (PageTree.keeps (blobs (PS kv)) b') as Hk.
  { intros u Hid Hs. apply Ho; [done|]. apply obj_used; [apply Hst|done]. }
  split_and!; try done.
  - destruct Hst as [H1 H2 H3]. constructor; cbn [withBlobs blobs cache]; [done..|]. intros u e Hu'. destruct (H3 u e Hu') as [Hus Hd].
    split; [by apply Hu|]. intros data (Hid&Hz&z&Ez&Ed). apply Hd. split_and!; [done..|]. exists z. split; [|done]. by rewrite <- Ho.
  - intros cf t Ht. destruct (Htr cf t Ht) as [? ?]. split; [|done]. by eapply tree_repr_keeps.
Qed.

(** A root on disk whose trees hold [S]. *)
Definition rootHolds (b : B) (name : bytes) (num : nat) (S : gset CfKey) : Prop :=
  ∃ data z ts c, is_root_name name ∧ rootsOf b name = Some z ∧ Decompress z = Ok data ∧ DeserializeRoot data = Ok ts
    ∧ length ts = num ∧ trees_repr b ts c ∧ ∀ cf k, (cf ≤ 3)%nat → (cf, k) ∈ S ↔ k ∈ c cf.

Lemma parts_root kv H C P name S :
  holdsParts kv H C P → rootHolds (blobs (PS kv)) name (length (trees (PS kv))) S → holdsParts (PublishRoot kv name) H ∅ S.
Proof.
  intros (ab&c&Hmt&Hl&Hst&Htl&Hn&Htr&Hhas) (data&z&ts&c'&Hname&Hz&Hd&Hts&Hlen&Htr'&HS). unfold PublishRoot, LoadRoot, blobGetRoot.
  rewrite getRoot_law, res_bind_ret, Hz, Hd, !res_bind_ret by (apply Hst || done). cbv beta iota. rewrite Hts, res_bind_ret.
  exists (map publishAbs ab), c'. cbn [withActive withMT withPS MT PS trees numCf blobs]. rewrite length_map.
  assert (padTrees (numCf (PS kv)) ts = ts) as ->.
  { unfold padTrees. rewrite Hn, Nat2Z.id, Hlen, Htl, Nat.sub_diag. apply app_nil_r. }
  split_and!; try done.
  - by apply Publish_refines.
  - destruct Hst as [H1 H2 H3]. by constructor.
  - by rewrite Hlen, Htl.
  - intros cf k Hcf. destruct (Hhas cf k Hcf) as (HH&HC&HP). rewrite hotHas_publish, HH, HS by done. split_and!; [done| |done].
    split; [set_solver|]. intros ?. exfalso. by eapply coldHas_publish.
Qed.
End parts.

(** ** Engine operations that only write and scan *)

Section engine.
Context {B : Type} `{HB : BlobStore B} `{HL : !BlobLaws B} `{HZ : Zstd} `{HZL : !ZstdLaws}.
Implicit Types (H C P : gset CfKey) (e : @Engine (KVStore B)).

Lemma parts_batch e entries e' H C P :
  holdsParts (KV e) H C P → Forall storable (map cfKey entries) → Engine.BatchWrite e entries = Ok e' →
  holdsParts (KV e') (H ∪ list_to_set (map cfKey entries)) C P ∧ Res e' = Res e.
Proof.
  intros Hp Hs E. destruct entries as [|en entries]; [injection E as <-; split; [|done]; cbn; by rewrite union_empty_r_L|].
  cbn [Engine.BatchWrite] in E. remember (en :: entries) as ens. apply res_bind_Ok in E as (a&_&E). apply res_bind_Ok in E as (kv'&Ew&[= <-]).
  split; [|done]. cbn [KV]. eapply parts_write; [|done|exact Ew]. destruct (filter _ _); [done|]. by apply parts_journal.
Qed.

Lemma parts_prefix e m cf prefix ks e' H C P :
  holdsParts (KV e) H C P → (cf ≤ 3)%nat → ScanPrefix m e cf prefix = Ok (ks, e') → holdsParts (KV e') H C P.
Proof.
  intros Hp Hcf E. unfold ScanPrefix in E. apply res_bind_Ok in E as ([out kv]&Es&[= <- <-]). cbn [withKV KV]. by eapply parts_scan.
Qed.

Lemma parts_bootstrap e m mo e' H C P : holdsParts (KV e) H C P → BootstrapResolver m mo e = Ok e' → holdsParts (KV e') H C P.
Proof.
  intros Hp E. unfold BootstrapResolver in E.
  apply res_bind_Ok in E as ([k1 e1]&E1&E). apply (parts_prefix _ _ _ _ _ _ _ _ _ Hp) in E1 as H1; [|lia].
  apply res_bind_Ok in E as ([k2 e2]&E2&E). apply (parts_prefix _ _ _ _ _ _ _ _ _ H1) in E2 as H2; [|lia].
  apply res_bind_Ok in E as ([k3 e3]&E3&E). apply (parts_prefix _ _ _ _ _ _ _ _ _ H2) in E3 as H3; [|lia].
  apply res_bind_Ok in E as ([k4 e4]&E4&E). apply (parts_prefix _ _ _ _ _ _ _ _ _ H3) in E4 as H4; [|lia].
  apply res_bind_Ok in E as ([k5 e5]&E5&E). apply (parts_prefix _ _ _ _ _ _ _ _ _ H4) in E5 as H5; [|lia].
  unfold SeedPartitionCounters, scanAll in E. apply res_bind_Ok in E as ([k6 e6]&E6&[= <-]). apply res_bind_Ok in E6 as ([out kv]&E6&[= <- <-]).
  cbn [withRes withKV KV] in *. eapply parts_scan; [exact H5| |exact E6]; lia.
Qed.

Lemma cfKey_toEntries ks : map cfKey (toEntries ks) = ks.
Proof. unfold toEntries. rewrite map_map. rewrite <- (map_id ks) at 2. apply map_ext. intros [cf k]. unfold cfKey. cbn. by rewrite Nat2Z.id. Qed.

Lemma parts_foreign e ks e' H C P :
  holdsParts (KV e) H C P → Forall storable ks → BatchWriteForeign e (toEntries ks) = Ok e' →
  holdsParts (KV e') (H ∪ list_to_set ks) C P ∧ Res e' = Res e.
Proof.
  intros Hp Hs E. rewrite <- (cfKey_toEntries ks) at 1. eapply parts_batch; [done|by rewrite cfKey_toEntries|].
  unfold BatchWriteForeign in E. by destruct (toEntries ks).
Qed.
End engine.

(** ** A replica of a stream *)

Section stream.
Context {B : Type} `{HB : BlobStore B} `{HL : !BlobLaws B} `{HZ : Zstd} `{HZL : !ZstdLaws}.
Context (n : nat) (mapOrder : list (Z * bytes) → list (Z * bytes)).
Implicit Types (H C P D : gset CfKey) (r : @ReplicaEngine B).

(** Expansion keeps the record itself. *)
Lemma expandOne_has rs rec es : expandOne rs rec = Ok es → rec.1 = 0%nat → (20 ≤ length rec.2)%nat → rec ∈ es.
Proof.
  destruct rec as [cf k]. cbn [fst snd]. intros E -> Hl. unfold expandOne in E. cbn [fst snd Nat.eqb negb orb] in E.
  rewrite (proj2 (Nat.ltb_ge _ _)) in E by done. apply res_bind_Ok in E as (aid&_&E). apply res_bind_Ok in E as (ds&_&[= <-]). left.
Qed.

Lemma expand_has rs recs es rec : expand rs recs = Ok es → rec ∈ recs → rec.1 = 0%nat → (20 ≤ length rec.2)%nat → rec ∈ es.
Proof.
  revert es. induction recs as [|x recs IH]; intros es E Hin H0 Hl; [by apply elem_of_nil in Hin|]. cbn [expand] in E.
  apply res_bind_Ok in E as (a&Ea&E). apply res_bind_Ok in E as (b&Eb&[= <-]). apply elem_of_app.
  apply elem_of_cons in Hin as [->|Hin]; [left; by eapply expandOne_has|right; by eapply IH].
Qed.

(** The records written before the schema is read again are among those written
    after it. *)
Lemma parts_records r recs r' H C P :
  holdsParts (rKV r) H C P → applyRecords n mapOrder r recs = Ok r' →
  ∃ es, expand (Res (rEavt r')) recs = Ok es ∧ (Forall storable es → holdsParts (rKV r') (H ∪ list_to_set es) C P).
Proof.
  intros Hp E. unfold applyRecords in E. apply res_bind_Ok in E as (r1&E1&E). apply res_bind_Ok in E as (es&Ex&E). apply res_bind_Ok in E as (e2&E2&[= <-]).
  exists es. assert (Res e2 = Res (rEavt r1)) as HR.
  { unfold BatchWriteForeign in E2. destruct (toEntries es) as [|en ens] eqn:Et; [by injection E2 as <-|].
    cbn [Engine.BatchWrite] in E2. remember (en :: ens) as l. apply res_bind_Ok in E2 as (a&_&E2). by apply res_bind_Ok in E2 as (kv&_&[= <-]). }
  split; [unfold rEavt, withEngine, withEavt; cbn; by rewrite HR|]. intros Hes.
  assert (∃ H1, holdsParts (KV (rEavt r1)) H1 C P ∧ H1 ∪ list_to_set es = H ∪ list_to_set es) as (H1&Hp1&EH).
  { destruct (existsb isSchemaRec recs); [|injection E1 as <-; by exists H]. apply res_bind_Ok in E1 as (e1&Ew&E1).
    set (cf0 := List.filter _ recs) in *. unfold RefreshResolverOnSchemaWal in E1. apply res_bind_Ok in E1 as (e3&Eb&[= <-]).
    assert (∀ rec, rec ∈ cf0 → rec ∈ es) as Hsub.
    { intros rec [Hin Hc]%list_elem_of_In%filter_In. apply andb_prop in Hc as [H0%Nat.eqb_eq Hl%Nat.leb_le].
      eapply expand_has; [exact Ex|by apply list_elem_of_In|done|done]. }
    assert (Forall storable cf0) as Hs0 by (apply Forall_forall; intros rec Hr%Hsub; rewrite Forall_forall in Hes; by apply Hes).
    destruct (parts_foreign (rEavt r) cf0 e1 H C P Hp Hs0 Ew) as [Hp1 _]. exists (H ∪ list_to_set cf0). split.
    - cbn. eapply parts_bootstrap; [exact Hp1|exact Eb].
    - apply leibniz_equiv. intros rec. rewrite !elem_of_union, !elem_of_list_to_set. specialize (Hsub rec). tauto. }
  destruct (parts_foreign (rEavt r1) es e2 H1 C P Hp1 Hes E2) as [Hp2 _]. by rewrite <- EH.
Qed.

(** Whether a seal came after the last root, and what was held when it came. *)
Inductive streamPhase : Type :=
| Open
| Sealed (S : gset CfKey).

(** A replica with what it was sent, when every root holds what was sent before the
    seal it follows. *)
Inductive rreach : gset CfKey → streamPhase → ReplicaEngine → Prop :=
| RStart r P : holdsParts (rKV r) ∅ ∅ P → rreach P Open r
| RWal D p r data r' es :
    rreach D p r → ApplyWal n mapOrder r data = Ok r' → expand (Res (rEavt r')) (ParseJournalRecords data) = Ok es → Forall storable es →
    rreach (D ∪ list_to_set es) p r'
| RSeal D r r' : rreach D Open r → ApplySeal r = Ok r' → rreach D (Sealed D) r'
| RDisk D p r b : rreach D p r → disk_grows (blobs (PS (rKV r))) b → rreach D p (onDisk r b)
| RRoot D S r name :
    rreach D (Sealed S) r → rootHolds (blobs (PS (rKV r))) name (length (trees (PS (rKV r)))) S → rreach D Open (ApplyRoot r name)
| RRefresh D p r r' : rreach D p r → RefreshResolverOnSchemaWal n mapOrder r = Ok r' → rreach D p r'.

Definition streamInv D (p : streamPhase) r : Prop :=
  match p with
  | Open => ∃ H P, holdsParts (rKV r) H ∅ P ∧ D = H ∪ P
  | Sealed K => ∃ H C P, holdsParts (rKV r) H C P ∧ K = C ∪ P ∧ D = H ∪ K
  end.

Lemma streamInv_parts D (p : streamPhase) r : streamInv D p r → ∃ H C P, holdsParts (rKV r) H C P ∧ D = H ∪ C ∪ P.
Proof.
  destruct p as [|K]; cbn; [intros (H&P&Hp&->); exists H, ∅, P; by rewrite union_empty_r_L|].
  intros (H&C&P&Hp&->&->). exists H, C, P. by rewrite union_assoc_L.
Qed.

(** A step that keeps the frozen keys and those of the trees. *)
Lemma streamInv_hot D (p : streamPhase) r r' (N : gset CfKey) :
  (∀ H C P, holdsParts (rKV r) H C P → holdsParts (rKV r') (H ∪ N) C P) → streamInv D p r → streamInv (D ∪ N) p r'.
Proof.
  intros Hs. destruct p as [|K]; cbn.
  - intros (H&P&Hp&->). exists (H ∪ N), P. split; [by apply Hs|set_solver].
  - intros (H&C&P&Hp&->&->). exists (H ∪ N), C, P. split_and!; [by apply Hs|done|set_solver].
Qed.

Lemma streamInv_same D (p : streamPhase) r r' : (∀ H C P, holdsParts (rKV r) H C P → holdsParts (rKV r') H C P) → streamInv D p r → streamInv D p r'.
Proof.
  intros Hs Hi. rewrite <- (union_empty_r_L D). eapply streamInv_hot; [|exact Hi]. intros H C P Hp. rewrite union_empty_r_L. by apply Hs.
Qed.

Lemma parts_wal r data r' es H C P :
  holdsParts (rKV r) H C P → ApplyWal n mapOrder r data = Ok r' → expand (Res (rEavt r')) (ParseJournalRecords data) = Ok es → Forall storable es →
  holdsParts (rKV r') (H ∪ list_to_set es) C P.
Proof.
  intros Hp E Ex Hes. unfold ApplyWal, applyChunk in E. change (rKV r) with (rKV (countWal r data)) in Hp.
  destruct (ParseJournalRecords data) as [|rec recs].
  - injection E as <-. cbn [expand] in Ex. injection Ex as <-. cbn. by rewrite union_empty_r_L.
  - destruct (parts_records _ _ _ H C P Hp E) as (es'&Ex'&Hp'). rewrite Ex in Ex'. injection Ex' as <-. by apply Hp'.
Qed.

Lemma rreach_inv D (p : streamPhase) r : rreach D p r → streamInv D p r.
Proof.
  induction 1 as [r P Hp|D p r data r' es _ IH E Ex Hes|D r r' _ IH E|D p r b _ IH Hd|D K r name _ IH Hroot|D p r r' _ IH E].
  - exists ∅, P. split; [done|set_solver].
  - eapply streamInv_hot; [|exact IH]. intros H C P Hp. by eapply parts_wal.
  - destruct IH as (H&P&Hp&->). unfold ApplySeal in E. apply res_bind_Ok in E as (kv&Es&[= <-]). exists ∅, H, P.
    split_and!; [|done|set_solver]. cbn. by eapply parts_seal.
  - eapply streamInv_same; [|exact IH]. intros H C P Hp. cbn. by apply parts_disk.
  - destruct IH as (H&C&P&Hp&->&->). exists H, (C ∪ P). split; [|done]. cbn. by eapply parts_root.
  - eapply streamInv_same; [|exact IH]. intros H C P Hp. unfold RefreshResolverOnSchemaWal in E. apply res_bind_Ok in E as (e&Eb&[= <-]).
    cbn. by eapply parts_bootstrap.
Qed.

(** A datom as the transactor writes it: entity, attribute, value, transaction,
    whether it is a retraction, and the mode and index flag of its attribute. *)
Record written_datom : Type := mkWritten {
  wdE : Z; wdA : Z; wdV : bytes; wdT : Z; wdRetracted : bool; wdMode : EncodeMode; wdIndexed : bool;
}.
Definition datomEntries (d : written_datom) : list CfKey :=
  map cfKey (BuildEavtEntries (wdE d) (wdA d) (wdV d) (wdT d) (wdRetracted d) (wdMode d) (wdIndexed d)).
Definition logged (d : written_datom) : CfKey := (0%nat, BuildEavtKey (wdE d) (wdA d) (wdV d) (wdT d) (wdRetracted d)).

(** The resolver knows the attribute as the transactor did. *)
Definition agrees (rs : Resolver) (d : written_datom) : Prop :=
  is_u32 (wdA d) ∧ Resolver.IsIndexed rs (wdA d) = wdIndexed d ∧ (ValueTypeFor rs (wdA d) = Some DbTypeRef ↔ wdMode d = EmRef).

#[export] Instance agrees_dec rs d : Decision (agrees rs d).
Proof. unfold agrees, is_u32. apply _. Defined.

Lemma length_logged d : length (logged d).2 = (20 + length (wdV d))%nat.
Proof. unfold logged, BuildEavtKey. cbn [snd]. rewrite !length_app, length_EncodeEid, !length_be_put. lia. Qed.

Lemma expandOne_built rs d : agrees rs d → ∃ es, expandOne rs (logged d) = Ok es ∧ es ≡ₚ datomEntries d.
Proof.
  intros (Ha&Hi&Hr). unfold expandOne. rewrite (proj2 (Nat.ltb_ge _ _)) by (rewrite length_logged; lia). cbn [logged fst snd Nat.eqb negb orb].
  assert (BeUint32 (BuildEavtKey (wdE d) (wdA d) (wdV d) (wdT d) (wdRetracted d)) 8 = Ok (wdA d)) as ->
    by (unfold BuildEavtKey; apply BeUint32_attr; [by rewrite length_EncodeEid|exact Ha]).
  rewrite res_bind_ret, Hi, DeriveIndexKeys_built, res_bind_ret by done.
  eexists. split; [done|]. unfold datomEntries. rewrite BuildEavtEntries_keys. cbn [map app].
  assert (bool_decide (ValueTypeFor rs (wdA d) = Some DbTypeRef) = bool_decide (wdMode d = EmRef)) as ->.
  { destruct (bool_decide (wdMode d = EmRef)) eqn:E; [apply bool_decide_eq_true in E; by apply bool_decide_true, Hr|].
    apply bool_decide_eq_false in E. apply bool_decide_false. by rewrite Hr. }
  do 2 apply perm_skip. rewrite !map_app. apply Permutation_app_comm.
Qed.

Lemma expand_built rs ds : Forall (agrees rs) ds → ∃ es, expand rs (map logged ds) = Ok es ∧ es ≡ₚ concat (map datomEntries ds).
Proof.
  induction 1 as [|d ds Hd _ (es&E&Hp)]; [by exists []|]. destruct (expandOne_built rs d Hd) as (a&Ea&Hpa). exists (a ++ es).
  cbn [map expand concat]. rewrite Ea, res_bind_ret, E, res_bind_ret. split; [done|]. by rewrite Hpa, Hp.
Qed.

Lemma logged_in d : logged d ∈ datomEntries d.
Proof. unfold datomEntries. rewrite BuildEavtEntries_keys. cbn [app map]. left. Qed.

Lemma parse_logged ds : Forall storable (concat (map datomEntries ds)) → ParseJournalRecords (journalKeys (map logged ds)) = map logged ds.
Proof.
  intros Hs. apply parse_keys. apply Forall_map, Forall_forall. intros d Hd. rewrite Forall_forall in Hs.
  destruct (Hs (logged d)) as (H1&H2&H3).
  { apply list_elem_of_In, in_concat. exists (datomEntries d). split; [by apply in_map, list_elem_of_In|apply list_elem_of_In, logged_in]. }
  split; [|done]. split; [done|]. destruct H2 as [_ H2]. apply Nat2Z.inj_lt in H2. by eapply Z.lt_le_trans; [exact H2|vm_compute].
Qed.



(** A root of the trees of a store can be on the disk. *)
Lemma root_of_trees kv H C P (name : bytes) :
  holdsParts kv H C P → is_root_name name → DeserializeRoot (SerializeRoot (trees (PS kv))) = Ok (trees (PS kv)) →
  ∃ b, disk_grows (blobs (PS kv)) b ∧ rootHolds b name (length (trees (PS kv))) P.
Proof.
  intros (ab&c&Hmt&Hl&Hst&Htl&Hn&Htr&Hhas) Hname Hser. destruct Hst as [Hb _ _].
  destruct (putRoot_law (blobs (PS kv)) name (compress (SerializeRoot (trees (PS kv)))) Hb Hname) as (b&_&Hb'&_&Ho&Hu&Hro). exists b. split.
  - constructor; [done|by intros u ?; apply Hu|by intros u ? _; apply Ho].
  - exists (SerializeRoot (trees (PS kv))), (compress (SerializeRoot (trees (PS kv)))), (trees (PS kv)), c. split_and!; [done| |apply Decompress_compress|done|done| |].
    + by rewrite Hro, bool_decide_true.
    + intros i t Ht. destruct (Htr i t Ht) as [? ?]. split; [|done]. eapply tree_repr_keeps; [|done]. intros u Hid Hs. by apply Ho.
    + intros cf k Hcf. by destruct (Hhas cf k Hcf) as (_&_&?).
Qed.
End stream.

(** ** Events *)

Section events.
Context {B : Type} `{HB : BlobStore B} `{HZ : Zstd} (n : nat) (mapOrder : list (Z * bytes) → list (Z * bytes)) (files : bytes → option bytes).
Implicit Types r : @ReplicaEngine B.

Lemma event_wal r data : wf (Bin data) = true → onReplicationEvent n mapOrder files r (WalFrame data) = ApplyWal n mapOrder r data.
Proof. intros Hd. unfold onReplicationEvent, WalFrame. rewrite unmarshal_marshal; [done|]. cbn -[bs] in *. by rewrite Hd. Qed.

Lemma event_seal r idx : wf (Int idx) = true → onReplicationEvent n mapOrder files r (SealFrame idx) = ApplySeal r.
Proof. intros Hd. unfold onReplicationEvent, SealFrame. rewrite unmarshal_marshal; [done|]. cbn -[bs] in *. by rewrite Hd. Qed.

Lemma event_root r name maxT : wf (Str name) = true → wf (Int maxT) = true →
  onReplicationEvent n mapOrder files r (RootFrame name maxT) = Ok (ApplyRoot r name).
Proof. intros Hn Hd. unfold onReplicationEvent, RootFrame. rewrite unmarshal_marshal; [done|]. cbn -[bs] in *. by rewrite Hn, Hd. Qed.
End events.

(** ** Samples *)

Import samples kvSamples.

Module replicaSamples.
(** The configuration of transactor/server.go, and the replica's fuel. *)
Definition primaryCfg : Config :=
  {| CfgPath := bs "db"; CfgReadOnly := false; CfgNumCf := 64; CfgFlushThreshold := 0; CfgReplayOff := false; CfgPageCacheSize := 536870912 |}.
Definition sampleDatom (t : Z) : written_datom := mkWritten (MakeEntityID PartUser t) 100 (EncodeInt 7) t false EmVariable false.

(** Two datoms written by a transactor, the second while a flush is between its
    capture and its publication and before the log drained, and the frames its
    subscribers get. *)
Definition primaryRun : res (FileBlobStore * KVStore FileBlobStore * list bytes) :=
  kv0 ← KvStore.New primaryCfg sampleBlobs None ∅ (1700000000, 0);
  let write kv d := e ← Engine.BatchWrite (mkEngine kv NewResolver (Hydrated.New 0) (Anchor.New 0) false)
      (BuildEavtEntries (wdE d) (wdA d) (wdV d) (wdT d) (wdRetracted d) (wdMode d) (wdIndexed d)); Ok (KV e) in
  let frames kv d := match wal kv with Some w => sinkFrames w [logged d] | None => [] end in
  let kv := attachWal kv0 ∅ in
  let f1 := frames kv (sampleDatom 1) in
  kv ← write kv (sampleDatom 1);
  '(b, kv) ← CaptureFlush kv;
  match b with
  | None => Panic
  | Some b =>
      let f2 := frames kv (sampleDatom 2) in
      kv ← write kv (sampleDatom 2);
      '(b', ts, root, kv) ← PrepareFlush 5 kv b (1700000001, 0);
      Ok (blobs (PS kv0), PublishFlush kv b' ts root, f1 ++ f2 ++ [RootFrame root (MaxT b')])
  end.

(** The answer of a store to a lookup of a datom's entity key. *)
Definition hasDatom (kv : KVStore FileBlobStore) (d : written_datom) : option bool :=
  match KvStore.Get kv 0 (logged d).2 with Ok (there, _) => Some there | _ => None end.

(** A replica that opened the directory as the transactor made it, and got all the
    frames once the flush was on disk. *)
Definition replicaRun : res (ReplicaEngine * KVStore FileBlobStore) :=
  '(b0, kv, frames) ← primaryRun;
  o ← OpenConfig 50 id (bs "db") b0 (1700000000, 0) 4096 4096 true;
  match o with
  | None => Panic
  | Some r => r ← onEvents 50 id (fun _ => None) (onDisk r (blobs (PS kv))) frames; Ok (r, kv)
  end.
End replicaSamples.
Import replicaSamples.

(** A store just made, with nothing in it. *)
Lemma sample_empty : ∃ kv : KVStore FileBlobStore, KvStore.New sampleCfg sampleBlobs None ∅ (1700000000, 0) = Ok kv ∧ holdsParts kv ∅ ∅ ∅.
Proof.
  destruct sampleBlobs_ok as [Hb Hr].
  assert (match KvStore.New sampleCfg sampleBlobs None ∅ (1700000000, 0) with Ok _ => true | _ => false end = true) as Hc by (vm_compute; reflexivity).
  destruct (KvStore.New sampleCfg sampleBlobs None ∅ (1700000000, 0)) as [kv| | |] eqn:E; [|done..]. exists kv. split; [done|].
  assert (kreach [] (mkSys (attachWal kv ∅) Idle (nanos (1700000000, 0)))) as H0.
  { apply KInit, (KStart sampleCfg 4 sampleBlobs); done. }
  apply reach_inv in H0 as (ab&c&dc&m0&S&lost&gone&w&Hi). destruct Hi as [_ _ Hnum Htl Hncf [Hrg _] Hst Hmt Htr _ Hhas _ _ _ _ _ _ _ _ _].
  cbn [skv] in *. exists ab, c. split_and!; try done. intros cf k Hcf. specialize (Hhas cf k ltac:(lia)). set_solver.
Qed.


(** A transactor writes a datom, captures a flush, writes another datom before its log
    next drains, and publishes the flush. The transactor finds both datoms; the replica
    finds the first and not the second. *)
Example sample_lost_write :
  ∃ r kv, replicaRun = Ok (r, kv) ∧ hasDatom kv (sampleDatom 1) = Some true ∧ hasDatom kv (sampleDatom 2) = Some true
    ∧ hasDatom (rKV r) (sampleDatom 1) = Some true ∧ hasDatom (rKV r) (sampleDatom 2) = Some false.
Proof.
  assert (match replicaRun with
    | Ok (r, kv) => bool_decide (hasDatom kv (sampleDatom 1) = Some true) && bool_decide (hasDatom kv (sampleDatom 2) = Some true)
        && bool_decide (hasDatom (rKV r) (sampleDatom 1) = Some true) && bool_decide (hasDatom (rKV r) (sampleDatom 2) = Some false)
    | _ => false end = true) as Hc by (vm_compute; reflexivity).
  destruct replicaRun as [[r kv]| | |]; [|done..].
  apply andb_prop in Hc as [[[H1 H2]%andb_prop H3]%andb_prop H4]. apply bool_decide_eq_true in H1, H2, H3, H4. by exists r, kv.
Qed.

