(* ===== verification/Downstream.v ===== *)
(** * The link of the query server to the transactor (go/internal/downstream/downstream.go)

    One connection carries the requests the query server forwards, their responses
    and the replication stream. One goroutine reads it: events go to a queue that
    another goroutine applies, responses go to the channel of the request with their
    id. The goroutines are here the steps of a machine, each step a stretch of the
    code between two points where it can be interrupted or blocked. *)

From S2P Require Import Prelude Msgpack Frames.

(** ** Definitions *)

Definition responseQueueSize : nat := 4.
Definition eventQueueSize : nat := 256.

(** Decimal digits, the least first taken, put in front of [acc]; a 64-bit number has
    at most 20. *)
Fixpoint itoaLoop (fuel : nat) (n : Z) (acc : bytes) : bytes :=
  match fuel with
  | O => acc
  | S fuel' => if 0 <? n then itoaLoop fuel' (n / 10) ((48 + n mod 10) :: acc) else acc
  end.
Definition itoa (n : Z) : bytes := if n =? 0 then [48] else itoaLoop 20 n [].

Definition mapMore (m : list (value * value)) : bool := memberBool m "more".

Definition injectID (raw id : bytes) : res bytes := InjectTopPair raw (bs "id") id.

(** What the reader makes of a frame: an event, a response with its id and whether
    more follow, or nothing it knows. *)
Inductive frameKind : Type :=
| KEvent
| KResponse (id : bytes) (more : bool)
| KOther.

#[export] Instance frameKind_eq_dec : EqDecision frameKind.
Proof. solve_decision. Defined.

Definition kindOf (frame : bytes) : frameKind :=
  match Unmarshal frame with
  | Ok (Map m) =>
      match Member m (Str (bs "ev")), Member m (Str (bs "id")) with
      | Some _, _ => KEvent
      | None, Some (Str id) => KResponse id (mapMore m)
      | None, _ => KOther
      end
  | _ => KOther
  end.

(** Whether a request stops at a frame: [Request] also stops at one that does not
    parse, [RequestCollect] goes on. *)
Definition stopsAt (collect : bool) (frame : bytes) : bool :=
  match Unmarshal frame with
  | Ok (Map m) => negb (mapMore m)
  | Ok _ => false
  | _ => negb collect
  end.

(** A request: about to be sent, waiting for frames, relaying one, or returned, with
    an error or without. *)
Inductive reqState : Type :=
| QSend (body : bytes)
| QWait
| QRelay (frame : bytes)
| QDone (err : option string).

#[export] Instance reqState_eq_dec : EqDecision reqState.
Proof. solve_decision. Defined.

(** A call of [Request] or, with [rqCollect], [RequestCollect]: its channel [rqBuf],
    closed or not, and the frames it relayed or collected. [rqFrom] counts the frames
    read before it was registered. *)
Record request : Type := mkRequest {
  rqId : bytes;
  rqCollect : bool;
  rqBuf : list bytes;
  rqClosed : bool;
  rqGot : list bytes;
  rqState : reqState;
  rqFrom : nat;
}.

(** Where the goroutine of [connectLoop] is: dialing, reading, blocked with an event
    or a response in hand, or done with a connection and about to drop its events. *)
Inductive readerAt : Type :=
| RDial
| RRead
| RSendEv (frame : bytes)
| RDeliver (i : nat) (frame : bytes)
| RDrop.

#[export] Instance readerAt_eq_dec : EqDecision readerAt.
Proof. solve_decision. Defined.

(** [pending] gives the index of a request in [reqs]. [open] is false once [Close]
    closed the connection. [sent] are the bodies written to the connection. [applied]
    are the frames given to [onEvent], the first [appliedBefore] of them before the
    connection was made. [heard] are the frames read since [Open], the first
    [heardBefore] of them on earlier connections. *)
Record Conn : Type := mkConn {
  connected : bool;
  open : bool;
  stop : bool;
  nextID : Z;
  pending : gmap bytes nat;
  reqs : list request;
  evCh : list bytes;
  reader : readerAt;
  evDone : bool;
  sent : list bytes;
  applied : list bytes;
  appliedBefore : nat;
  heard : list bytes;
  heardBefore : nat;
}.
Implicit Types (c : Conn) (q : request).

Definition Open : Conn := mkConn false false false 0 ∅ [] [] RDial false [] [] 0 [] 0.

Definition withReader c (rd : readerAt) : Conn :=
  mkConn (connected c) (open c) (stop c) (nextID c) (pending c) (reqs c) (evCh c) rd (evDone c) (sent c) (applied c) (appliedBefore c) (heard c) (heardBefore c).
Definition withPending c (p : gmap bytes nat) : Conn :=
  mkConn (connected c) (open c) (stop c) (nextID c) p (reqs c) (evCh c) (reader c) (evDone c) (sent c) (applied c) (appliedBefore c) (heard c) (heardBefore c).
Definition withReqs c (l : list request) : Conn :=
  mkConn (connected c) (open c) (stop c) (nextID c) (pending c) l (evCh c) (reader c) (evDone c) (sent c) (applied c) (appliedBefore c) (heard c) (heardBefore c).
Definition withEvCh c (l : list bytes) : Conn :=
  mkConn (connected c) (open c) (stop c) (nextID c) (pending c) (reqs c) l (reader c) (evDone c) (sent c) (applied c) (appliedBefore c) (heard c) (heardBefore c).
Definition withEvDone c : Conn :=
  mkConn (connected c) (open c) (stop c) (nextID c) (pending c) (reqs c) (evCh c) (reader c) true (sent c) (applied c) (appliedBefore c) (heard c) (heardBefore c).
Definition withSent c (l : list bytes) : Conn :=
  mkConn (connected c) (open c) (stop c) (nextID c) (pending c) (reqs c) (evCh c) (reader c) (evDone c) l (applied c) (appliedBefore c) (heard c) (heardBefore c).
Definition withApplied c (l : list bytes) : Conn :=
  mkConn (connected c) (open c) (stop c) (nextID c) (pending c) (reqs c) (evCh c) (reader c) (evDone c) (sent c) l (appliedBefore c) (heard c) (heardBefore c).

Definition rqPush q (frame : bytes) : request := mkRequest (rqId q) (rqCollect q) (rqBuf q ++ [frame]) (rqClosed q) (rqGot q) (rqState q) (rqFrom q).
Definition rqClose q : request := mkRequest (rqId q) (rqCollect q) (rqBuf q) true (rqGot q) (rqState q) (rqFrom q).
Definition rqAt q (s : reqState) : request := mkRequest (rqId q) (rqCollect q) (rqBuf q) (rqClosed q) (rqGot q) s (rqFrom q).
Definition rqTaken q (buf got : list bytes) (s : reqState) : request := mkRequest (rqId q) (rqCollect q) buf (rqClosed q) got s (rqFrom q).

(** *** The loop of the connection *)

(** The body of a request for the stream: a map of type to replicate. *)
Definition replicateFrame : bytes := [0x81; 0xa4; 116; 121; 112; 101; 0xa9; 114; 101; 112; 108; 105; 99; 97; 116; 101].

(** A dial that succeeded. *)
Definition dial c : Conn :=
  mkConn true true (stop c) (nextID c) (pending c) (reqs c) (evCh c) RRead (evDone c) [replicateFrame] (applied c) (length (applied c))
    (heard c) (length (heard c)).

(** The first part of [deliver]. *)
Definition deliver c (id frame : bytes) (more : bool) : Conn :=
  match pending c !! id with
  | None => c
  | Some i => withReader (if more then c else withPending c (delete id (pending c))) (RDeliver i frame)
  end.

(** One turn of [readerLoop] up to the point where it may block. *)
Definition readerTurn c (frame : bytes) : Conn :=
  let c := mkConn (connected c) (open c) (stop c) (nextID c) (pending c) (reqs c) (evCh c) (reader c) (evDone c) (sent c) (applied c) (appliedBefore c)
             (heard c ++ [frame]) (heardBefore c) in
  match kindOf frame with
  | KEvent => withReader c (RSendEv frame)
  | KResponse id more => deliver c id frame more
  | KOther => c
  end.

(** The send the reader is blocked in, if there is room. *)
Definition readerSend c : option Conn :=
  match reader c with
  | RSendEv frame => if Nat.ltb (length (evCh c)) eventQueueSize then Some (withReader (withEvCh c (evCh c ++ [frame])) RRead) else None
  | RDeliver i frame =>
      match reqs c !! i with
      | Some q => if Nat.ltb (length (rqBuf q)) responseQueueSize then Some (withReader (withReqs c (<[i := rqPush q frame]> (reqs c))) RRead) else None
      | None => None
      end
  | _ => None
  end.

(** The end of a connection: the channels of all pending requests are closed. *)
Definition closePending (p : gmap bytes nat) (l : list request) : list request :=
  imap (fun i q => if bool_decide (p !! rqId q = Some i) then rqClose q else q) l.
Definition disconnect c : Conn :=
  mkConn false false (stop c) (nextID c) ∅ (closePending (pending c) (reqs c)) (evCh c) RDrop (evDone c) (sent c) (applied c) (appliedBefore c)
    (heard c) (heardBefore c).
Definition dropEvents c : Conn := withReader (withEvCh c []) RDial.

(** *** Requests *)

(** The first part of [register]: an id and a channel, and the body to send. *)
Definition register c (raw : bytes) (collect : bool) : Conn :=
  if connected c then
    let nid := (nextID c + 1) mod 2 ^ 64 in
    let id := itoa nid in
    let i := length (reqs c) in
    let c := mkConn (connected c) (open c) (stop c) nid (<[id := i]> (pending c)) (reqs c) (evCh c) (reader c) (evDone c) (sent c) (applied c)
               (appliedBefore c) (heard c) (heardBefore c) in
    match injectID raw id with
    | Ok body => withReqs c (reqs c ++ [mkRequest id collect [] false [] (QSend body) (length (heard c))])
    | _ => withReqs (withPending c (delete id (pending c))) (reqs c ++ [mkRequest id collect [] false [] (QDone (Some "bad request"%string)) (length (heard c))])
    end
  else withReqs c (reqs c ++ [mkRequest [] collect [] false [] (QDone (Some "transactor disconnected"%string)) (length (heard c))]).

Definition setReq c (i : nat) q : Conn := withReqs c (<[i := q]> (reqs c)).
Definition forget c q : Conn := withPending c (delete (rqId q) (pending c)).

(** Its second part, the send; [ok] is how the writes end on a connection that is
    open. *)
Definition sendRequest c (i : nat) (ok : bool) : option Conn :=
  q ← reqs c !! i;
  match rqState q with
  | QSend body =>
      if open c && ok then Some (setReq (withSent c (sent c ++ [body])) i (rqAt q QWait))
      else Some (setReq (forget c q) i (rqAt q (QDone (Some "disconnected"%string))))
  | _ => None
  end.

(** A request takes the next frame of its channel: [Request] goes on to relay it,
    [RequestCollect] keeps it. *)
Definition requestTake c (i : nat) : option Conn :=
  q ← reqs c !! i;
  match rqState q, rqBuf q with
  | QWait, frame :: buf =>
      Some (setReq c i (if rqCollect q then rqTaken q buf (rqGot q ++ [frame]) (if stopsAt true frame then QDone None else QWait)
                        else rqTaken q buf (rqGot q) (QRelay frame)))
  | QWait, [] =>
      if rqClosed q then Some (setReq c i (rqAt q (QDone (if rqCollect q then None else Some "transactor disconnected"%string)))) else None
  | _, _ => None
  end.

(** The end of a relay. *)
Definition requestRelayed c (i : nat) (ok : bool) : option Conn :=
  q ← reqs c !! i;
  match rqState q with
  | QRelay frame =>
      Some (if ok then setReq c i (rqTaken q (rqBuf q) (rqGot q ++ [frame]) (if stopsAt false frame then QDone None else QWait))
            else setReq (forget c q) i (rqAt q (QDone (Some "relay"%string))))
  | _ => None
  end.

(** What [RequestCollect] returns. *)
Definition collected q : bytes := writeFrames (rqGot q).

Definition Close c : Conn :=
  mkConn (connected c) false true (nextID c) (pending c) (reqs c) (evCh c) (reader c) (evDone c) (sent c) (applied c) (appliedBefore c) (heard c) (heardBefore c).

(** *** Steps *)

Inductive dop : Type :=
| DDial
| DHear (frame : bytes)
| DSend
| DLost
| DDrop
| DApply
| DEvStop
| DRegister (raw : bytes) (collect : bool)
| DRequest (i : nat) (ok : bool)
| DTake (i : nat)
| DRelayed (i : nat) (ok : bool)
| DClose.

(** [None] where the step is not possible. *)
Definition dstep c (o : dop) : option Conn :=
  match o with
  | DDial => if bool_decide (reader c = RDial) then Some (dial c) else None
  | DHear frame => if bool_decide (reader c = RRead) && open c then Some (readerTurn c frame) else None
  | DSend => readerSend c
  | DLost => if bool_decide (reader c = RRead) then Some (disconnect c) else None
  | DDrop => if bool_decide (reader c = RDrop) then Some (dropEvents c) else None
  | DApply =>
      match evCh c with
      | frame :: rest => if evDone c then None else Some (withApplied (withEvCh c rest) (applied c ++ [frame]))
      | [] => None
      end
  | DEvStop => if stop c then Some (withEvDone c) else None
  | DRegister raw collect => Some (register c raw collect)
  | DRequest i ok => sendRequest c i ok
  | DTake i => requestTake c i
  | DRelayed i ok => requestRelayed c i ok
  | DClose => Some (Close c)
  end.

Inductive creach : Conn → Prop :=
| COpen : creach Open
| CStep c o c' : creach c → dstep c o = Some c' → creach c'.

(** A sequence of steps, each possible. *)
Fixpoint runConn c (ops : list dop) : option Conn :=
  match ops with
  | [] => Some c
  | o :: ops' => c' ← dstep c o; runConn c' ops'
  end.

(** ** Decimal numbers *)

(** The number some digits stand for. *)
Definition digitsValue (l : bytes) : Z := fold_left (fun a d => a * 10 + (d - 48)) l 0.

Lemma linkDigits_app l l' : digitsValue (l ++ l') = fold_left (fun a d => a * 10 + (d - 48)) l' (digitsValue l).
Proof. unfold digitsValue. by rewrite fold_left_app. Qed.

Lemma itoaLoop_value fuel n acc : 0 ≤ n < 10 ^ Z.of_nat fuel → fold_left (fun a d => a * 10 + (d - 48)) acc n = digitsValue (itoaLoop fuel n acc).
Proof.
  revert n acc. induction fuel as [|fuel IH]; intros n acc Hn; cbn [itoaLoop].
  { assert (n = 0) as -> by (cbn in Hn; lia). done. }
  destruct (Z.ltb_spec 0 n); [|by assert (n = 0) as -> by lia]. rewrite Nat2Z.inj_succ, Z.pow_succ_r in Hn by lia. rewrite <- IH.
  - cbn [fold_left]. f_equal. pose proof (Z.div_mod n 10). lia.
  - split; [apply Z.div_pos; lia|apply Z.div_lt_upper_bound; lia].
Qed.

Lemma itoa_value n : 0 ≤ n < 2 ^ 64 → digitsValue (itoa n) = n.
Proof.
  intros Hn. unfold itoa. destruct (Z.eqb_spec n 0) as [->|]; [done|]. rewrite <- itoaLoop_value; [done|]. split; [lia|].
  eapply Z.lt_le_trans; [apply Hn|]. by vm_compute.
Qed.

Lemma itoa_inj n m : 0 ≤ n < 2 ^ 64 → 0 ≤ m < 2 ^ 64 → itoa n = itoa m → n = m.
Proof. intros Hn Hm E. by rewrite <- (itoa_value n), <- (itoa_value m), E. Qed.

Lemma itoa_cons n : 0 < n → itoa n ≠ [].
Proof.
  intros Hn. unfold itoa. destruct (Z.eqb_spec n 0); [lia|]. change (itoaLoop 20 n []) with (if 0 <? n then itoaLoop 19 (n / 10) [48 + n mod 10] else []).
  destruct (Z.ltb_spec 0 n); [|lia]. assert (∀ fuel k acc, acc ≠ [] → itoaLoop fuel k acc ≠ []) as G; [|by apply G].
  intros fuel. induction fuel as [|fuel IH]; intros k acc Ha; [done|]. cbn [itoaLoop]. destruct (0 <? k); [by apply IH|done].
Qed.

(** ** Events *)

Definition isEvent (frame : bytes) : bool := bool_decide (kindOf frame = KEvent).

(** The events of this connection, and those of them the event loop was given. *)
Definition eventsHeard c : list bytes := List.filter isEvent (drop (heardBefore c) (heard c)).
Definition eventsApplied c : list bytes := drop (appliedBefore c) (applied c).

Definition heldEvent c : list bytes := match reader c with RSendEv f => [f] | _ => [] end.

Record evInv c : Prop := {
  ei_before : (appliedBefore c ≤ length (applied c))%nat;
  ei_heard : (heardBefore c ≤ length (heard c))%nat;
  ei_dial : reader c = RDial → evCh c = [] ∧ eventsApplied c `prefix_of` eventsHeard c;
  ei_all : reader c ≠ RDial → eventsApplied c ++ evCh c ++ heldEvent c = eventsHeard c;
}.

(** A step that does not touch the events. *)
Lemma evInv_same c c' :
  applied c' = applied c → appliedBefore c' = appliedBefore c → heard c' = heard c → heardBefore c' = heardBefore c → evCh c' = evCh c → reader c' = reader c →
  evInv c → evInv c'.
Proof.
  intros E1 E2 E3 E4 E5 E6 [H1 H2 H3 H4]. unfold eventsApplied, eventsHeard, heldEvent in *.
  constructor; unfold eventsApplied, eventsHeard, heldEvent; rewrite ?E1, ?E2, ?E3, ?E4, ?E5, ?E6; done.
Qed.

Lemma hear_events c frame :
  (heardBefore c ≤ length (heard c))%nat → List.filter isEvent (drop (heardBefore c) (heard c ++ [frame])) = eventsHeard c ++ (if isEvent frame then [frame] else []).
Proof. intros H. rewrite drop_app_le by done. by rewrite List.filter_app. Qed.

Lemma evInv_turn c frame : reader c = RRead → evInv c → evInv (readerTurn c frame).
Proof.
  intros Er [H1 H2 H3 H4]. rewrite Er in H4. specialize (H4 ltac:(done)). unfold heldEvent in H4. rewrite Er, app_nil_r in H4.
  pose proof (hear_events c frame H2) as Hh. unfold isEvent in Hh at 2. unfold readerTurn.
  destruct (kindOf frame) as [|id more|] eqn:Ek; [|unfold deliver; cbn [pending]; destruct (pending c !! id) as [i|]; [destruct more|]|];
    (constructor; [done|cbn; rewrite length_app; lia|cbn [withReader withPending reader]; rewrite ?Er; done|intros _]);
    unfold eventsHeard, heldEvent, eventsApplied in *;
    cbn [withReader withPending reader evCh applied appliedBefore heard heardBefore] in *; rewrite ?Er, Hh, ?app_nil_r; try exact H4.
  by rewrite <- H4, <- !app_assoc.
Qed.

Lemma evInv_step c o c' : evInv c → dstep c o = Some c' → evInv c'.
Proof.
  intros Hi E. destruct o as [|frame| | | | | |raw collect|i ok|i|i ok|]; cbn [dstep] in E.
  - destruct (bool_decide_reflect (reader c = RDial)) as [Er|]; [|done]. injection E as <-. destruct Hi as [H1 H2 H3 H4]. destruct (H3 Er) as [Hq _].
    constructor; cbn [dial reader]; [done|done|done|]. intros _. unfold eventsApplied, eventsHeard, heldEvent. cbn. by rewrite Hq, !drop_all.
  - destruct (bool_decide_reflect (reader c = RRead)); [|done]. destruct (open c); [|done]. injection E as <-. by apply evInv_turn.
  - unfold readerSend in E. destruct Hi as [H1 H2 H3 H4]. destruct (reader c) as [| |f|i f|] eqn:Er; [done|done| | |done].
    + destruct (Nat.ltb _ _); [|done]. injection E as <-. constructor; [done..|]. intros _. unfold heldEvent in *. cbn. rewrite Er in H4. rewrite app_nil_r. by apply H4.
    + destruct (reqs c !! i); [|done]. destruct (Nat.ltb _ _); [|done]. injection E as <-. constructor; [done..|]. intros _. unfold heldEvent in *. cbn. rewrite Er in H4. by apply H4.
  - destruct (bool_decide_reflect (reader c = RRead)) as [Er|]; [|done]. injection E as <-. destruct Hi as [H1 H2 H3 H4].
    constructor; [done..|]. intros _. unfold heldEvent in *. cbn. rewrite Er in H4. by apply H4.
  - destruct (bool_decide_reflect (reader c = RDrop)) as [Er|]; [|done]. injection E as <-. destruct Hi as [H1 H2 H3 H4].
    constructor; cbn [dropEvents withReader withEvCh reader]; [done..| |done]. intros _. split; [done|]. rewrite Er in H4. specialize (H4 ltac:(done)).
    unfold eventsApplied, eventsHeard in *. cbn. rewrite <- H4. by eexists.
  - destruct (evCh c) as [|f rest] eqn:Eq; [done|]. destruct (evDone c); [done|]. injection E as <-. destruct Hi as [H1 H2 H3 H4].
    constructor; cbn [withApplied withEvCh reader applied appliedBefore heard heardBefore evCh]; [rewrite length_app; lia|done|intros Er; destruct (H3 Er); congruence|].
    intros Hr. specialize (H4 Hr). unfold eventsApplied, eventsHeard, heldEvent in *. cbn in *. rewrite drop_app_le by done. rewrite <- H4, Eq. by rewrite <- app_assoc.
  - destruct (stop c); [|done]. injection E as <-. by eapply evInv_same; [..|exact Hi].
  - injection E as <-. unfold register. destruct (connected c); [destruct (injectID _ _)|]; by eapply evInv_same; [..|exact Hi].
  - unfold sendRequest in E. destruct (reqs c !! i) as [q|]; [|done]. cbn [mbind option_bind] in E.
    destruct (rqState q); [|done..]. destruct (_ && _); injection E as <-; by eapply evInv_same; [..|exact Hi].
  - unfold requestTake in E. destruct (reqs c !! i) as [q|]; [|done]. cbn [mbind option_bind] in E.
    destruct (rqState q); [done| |done..]. destruct (rqBuf q); [destruct (rqClosed q); [|done]|]; injection E as <-; by eapply evInv_same; [..|exact Hi].
  - unfold requestRelayed in E. destruct (reqs c !! i) as [q|]; [|done]. cbn [mbind option_bind] in E.
    destruct (rqState q); [done..| |done]. injection E as <-. destruct ok; by eapply evInv_same; [..|exact Hi].
  - injection E as <-. by eapply evInv_same; [..|exact Hi].
Qed.

Lemma creach_evInv c : creach c → evInv c.
Proof. induction 1 as [|c o c' _ IH E]; [by constructor|]. by eapply evInv_step. Qed.

(** Events are applied in the order of the connection: what was given to the
    event handler since the connection was made is always a beginning of the events
    read on it, with none left out. While the connection is up, the rest is in the
    queue or in the reader's hand, and as many turns of the event loop as the queue
    is long apply all but the one in hand. *)
Theorem events_in_order c : creach c →
  eventsApplied c `prefix_of` eventsHeard c
  ∧ (reader c ≠ RDial → evDone c = false →
     ∃ c', runConn c (replicate (length (evCh c)) DApply) = Some c' ∧ eventsApplied c' ++ heldEvent c = eventsHeard c).
Proof.
  intros Hr. pose proof (creach_evInv c Hr) as Hi. split.
  - destruct (decide (reader c = RDial)) as [Er|Er]; [by apply (ei_dial c Hi)|]. rewrite <- (ei_all c Hi Er). by eexists.
  - intros Er Ed. assert (∀ l c, evCh c = l → evDone c = false → evInv c → reader c ≠ RDial →
      ∃ c', runConn c (replicate (length l) DApply) = Some c' ∧ eventsApplied c' ++ heldEvent c = eventsHeard c) as G; [|by eapply G].
    clear. intros l. induction l as [|f l IH]; intros c Eq Ed Hi Er.
    + exists c. split; [done|]. by rewrite <- (ei_all c Hi Er), Eq.
    + cbn [length replicate runConn]. destruct (dstep c DApply) as [c1|] eqn:E1; [|cbn in E1; by rewrite Eq, Ed in E1].
      pose proof (evInv_step c DApply c1 Hi E1) as Hi1. cbn [dstep] in E1. rewrite Eq, Ed in E1. injection E1 as <-.
      destruct (IH (withApplied (withEvCh c l) (applied c ++ [f])) eq_refl Ed Hi1 Er) as (c'&E'&Hc'). exists c'. split; [exact E'|exact Hc'].
Qed.

(** ** Responses *)

Definition isResponse (id frame : bytes) : bool := match kindOf frame with KResponse id' _ => bool_decide (id' = id) | _ => false end.
Definition isFinal (frame : bytes) : bool := match kindOf frame with KResponse _ more => negb more | _ => false end.

(** The frames of a response end with the first that says no more follow. *)
Fixpoint upToFinal (l : list bytes) : list bytes :=
  match l with
  | [] => []
  | f :: l' => if isFinal f then [f] else f :: upToFinal l'
  end.
(** The frame a request is relaying. *)
Definition inRelay q : list bytes := match rqState q with QRelay f => [f] | _ => [] end.

Definition responses (hd : list bytes) q : list bytes := List.filter (isResponse (rqId q)) (drop (rqFrom q) hd).

(** What a request is to get of the frames [hd]. *)
Definition expected (hd : list bytes) q : list bytes := upToFinal (responses hd q).

Lemma upToFinal_none l : existsb isFinal l = false → upToFinal l = l.
Proof. induction l as [|f l IH]; [done|]. cbn. destruct (isFinal f); [done|]. intros H. by rewrite IH. Qed.

Lemma upToFinal_prefix l l' : upToFinal l `prefix_of` upToFinal (l ++ l').
Proof. induction l as [|f l IH]; cbn; [apply prefix_nil|]. destruct (isFinal f); [done|]. by apply prefix_cons. Qed.

Lemma upToFinal_end l p f r : upToFinal l = p ++ f :: r → isFinal f = true → r = [].
Proof.
  revert p. induction l as [|g l IH]; intros p E Hf; [by destruct p|]. cbn in E. destruct p as [|a p]; cbn in E.
  - destruct (isFinal g) eqn:Eg; injection E as -> E; [done|congruence].
  - destruct (isFinal g) eqn:Eg; injection E as -> E; [by destruct p|]. by eapply IH.
Qed.

Lemma upToFinal_elem l f : f ∈ upToFinal l → f ∈ l.
Proof. induction l as [|g l IH]; cbn; [done|]. destruct (isFinal g); set_solver. Qed.

Lemma expected_mine hd q f : f ∈ expected hd q → isResponse (rqId q) f = true.
Proof. intros H%upToFinal_elem. unfold responses in H. apply list_elem_of_In, filter_In in H. tauto. Qed.

Lemma response_stops id f collect : isResponse id f = true → stopsAt collect f = isFinal f.
Proof.
  unfold isResponse, isFinal, stopsAt, kindOf. destruct (Unmarshal f) as [v| | |]; [|done..]. destruct v as [| | | | | | |m| |]; try done.
  destruct (Member m (Str (bs "ev"))); [done|]. by destruct (Member m (Str (bs "id"))) as [[]|].
Qed.

(** What holds of a request when [hd] was read, [pend] says whether it is pending and
    [held] is the frame the reader has for it. *)
Record rqInv (hd : list bytes) (nid : Z) (pend : bool) (held : list bytes) q : Prop := {
  ri_from : (rqFrom q ≤ length hd)%nat;
  ri_id : rqId q = [] ∨ ∃ k, 0 < k ≤ nid ∧ rqId q = itoa k;
  ri_got : rqGot q `prefix_of` expected hd q;
  ri_live : (∀ e, rqState q ≠ QDone (Some e)) → rqGot q ++ inRelay q ++ rqBuf q ++ held `prefix_of` expected hd q;
  ri_pend : pend = true → rqGot q ++ inRelay q ++ rqBuf q ++ held = responses hd q ∧ existsb isFinal (responses hd q) = false ∧ rqClosed q = false ∧ ∀ e, rqState q ≠ QDone e;
  ri_held : held ≠ [] → rqClosed q = false;
  ri_done : rqState q = QDone None → (rqCollect q = true ∧ rqClosed q = true) ∨ ∃ g f, rqGot q = g ++ [f] ∧ isFinal f = true;
}.

Lemma responses_hear hd q f : (rqFrom q ≤ length hd)%nat → responses (hd ++ [f]) q = responses hd q ++ (if isResponse (rqId q) f then [f] else []).
Proof. intros H. unfold responses. rewrite drop_app_le by done. by rewrite List.filter_app. Qed.

Lemma rqInv_weak hd nid nid' p held q : rqInv hd nid p held q → nid ≤ nid' → rqInv hd nid' false held q.
Proof.
  intros [H1 H2 H3 H4 H5 H6 H7] Hn. constructor; try done. destruct H2 as [?|(k&?&?)]; [by left|right]. exists k. split; [lia|done].
Qed.

Lemma rqInv_nid hd nid nid' p held q : rqInv hd nid p held q → nid ≤ nid' → rqInv hd nid' p held q.
Proof.
  intros [H1 H2 H3 H4 H5 H6 H7] Hn. constructor; try done. destruct H2 as [?|(k&?&?)]; [by left|right]. exists k. split; [lia|done].
Qed.

Lemma rqInv_hear_other hd nid p q f : isResponse (rqId q) f = false → rqInv hd nid p [] q → rqInv (hd ++ [f]) nid p [] q.
Proof.
  intros Hf [H1 H2 H3 H4 H5 H6 H7]. pose proof (responses_hear hd q f H1) as Er. rewrite Hf, app_nil_r in Er.
  constructor; unfold expected in *; rewrite ?Er; try done. rewrite length_app. lia.
Qed.

Lemma rqInv_hear_stale hd nid q f : rqInv hd nid false [] q → rqInv (hd ++ [f]) nid false [] q.
Proof.
  intros [H1 H2 H3 H4 H5 H6 H7].
  assert (expected hd q `prefix_of` expected (hd ++ [f]) q) as Hp by (unfold expected; rewrite responses_hear by done; apply upToFinal_prefix).
  constructor; try done; [rewrite length_app; lia|by etrans|]. intros Hs. etrans; [by apply H4|done].
Qed.

Lemma rqInv_hear_mine hd nid q f more : kindOf f = KResponse (rqId q) more → rqInv hd nid true [] q → rqInv (hd ++ [f]) nid more [f] q.
Proof.
  intros Hk [H1 H2 H3 H4 H5 H6 H7]. destruct (H5 eq_refl) as (Eq&Hn&Hc&Hd). pose proof (responses_hear hd q f H1) as Er.
  assert (isResponse (rqId q) f = true) as Hf by (unfold isResponse; rewrite Hk; by apply bool_decide_true). rewrite Hf in Er.
  assert (isFinal f = negb more) as Hm by (unfold isFinal; by rewrite Hk).
  assert (expected (hd ++ [f]) q = responses hd q ++ [f]) as Ee.
  { unfold expected. rewrite Er. clear -Hn. induction (responses hd q) as [|g l IH]; cbn in *; [by destruct (isFinal f)|].
    destruct (isFinal g); [done|]. by rewrite IH. }
  rewrite app_nil_r in Eq. constructor; try done.
  - rewrite length_app. lia.
  - rewrite Ee, <- Eq, <- app_assoc. by eexists.
  - intros _. by rewrite Ee, <- Eq, <- !app_assoc.
  - intros ->. rewrite Er. split_and!; [by rewrite <- Eq, <- !app_assoc| |done|done]. rewrite existsb_app, Hn. cbn. by rewrite Hm.
Qed.

Lemma rqInv_push hd nid p f q : rqInv hd nid p [f] q → rqInv hd nid p [] (rqPush q f).
Proof.
  intros [H1 H2 H3 H4 H5 H6 H7]. constructor; cbn [rqPush rqFrom rqId rqGot rqBuf rqState rqClosed rqCollect]; try done; by rewrite app_nil_r.
Qed.

Lemma rqInv_close hd nid p q : rqInv hd nid p [] q → rqInv hd nid false [] (rqClose q).
Proof. intros [H1 H2 H3 H4 H5 H6 H7]. constructor; try done. intros Hd. destruct (H7 Hd) as [[? ?]|?]; [by left|by right]. Qed.

Lemma rqInv_sent hd nid p held q body : rqState q = QSend body → rqInv hd nid p held q → rqInv hd nid p held (rqAt q QWait).
Proof.
  intros Es [H1 H2 H3 H4 H5 H6 H7]. unfold inRelay in *. rewrite Es in H4, H5. constructor; unfold inRelay; cbn [rqAt rqGot rqBuf rqState]; try done.
  - intros _. by apply H4.
  - intros Hp. destruct (H5 Hp) as (?&?&?&?). by split_and!.
Qed.

(** A request that returns with an error, with what it did not take. *)
Lemma rqInv_fail hd nid p held q e : rqInv hd nid p held q → rqInv hd nid false held (rqAt q (QDone (Some e))).
Proof. intros [H1 H2 H3 H4 H5 H6 H7]. constructor; try done. intros Hs. by destruct (Hs e). Qed.

Lemma rqInv_gone hd nid p q : rqState q = QWait → rqBuf q = [] → rqClosed q = true → rqInv hd nid p [] q →
  rqInv hd nid p [] (rqAt q (QDone (if rqCollect q then None else Some "transactor disconnected"%string))).
Proof.
  intros Es Eb Ec [H1 H2 H3 H4 H5 H6 H7]. constructor; try done.
  - intros _. unfold inRelay in *. rewrite Es in H4. cbn. by apply H4.
  - intros Hp. destruct (H5 Hp) as (_&_&Hc&_). congruence.
  - cbn. destruct (rqCollect q) eqn:Eq; [|done]. intros _. by left.
Qed.

(** The next frame of the channel goes to the relay. *)
Lemma rqInv_take hd nid p held q f buf : rqState q = QWait → rqBuf q = f :: buf → rqInv hd nid p held q →
  rqInv hd nid p held (rqTaken q buf (rqGot q) (QRelay f)).
Proof.
  intros Es Eb [H1 H2 H3 H4 H5 H6 H7]. unfold inRelay in *. rewrite Es, Eb in H4, H5. specialize (H4 ltac:(done)).
  constructor; unfold inRelay; cbn [rqTaken rqFrom rqId rqGot rqBuf rqState rqClosed rqCollect]; try done.
  intros Hp. destruct (H5 Hp) as (?&?&?&_). by split_and!.
Qed.

(** A frame is relayed. *)
Lemma rqInv_relayed hd nid p held q f collect : rqState q = QRelay f → rqInv hd nid p held q →
  rqInv hd nid p held (rqTaken q (rqBuf q) (rqGot q ++ [f]) (if stopsAt collect f then QDone None else QWait)).
Proof.
  intros Es [H1 H2 H3 H4 H5 H6 H7]. specialize (H4 ltac:(by rewrite Es)). unfold inRelay in *. rewrite Es in H4, H5.
  assert (isResponse (rqId q) f = true) as Hf. { destruct H4 as [r Hr]. apply (expected_mine hd). rewrite Hr. set_solver. }
  rewrite (response_stops _ _ collect Hf). rewrite app_assoc in H4, H5.
  assert ((if isFinal f then QDone None else QWait) = QWait ∨ (if isFinal f then QDone None else QWait) = QDone None) as Hst by (destruct (isFinal f); tauto).
  constructor; unfold inRelay; cbn [rqTaken rqFrom rqId rqGot rqBuf rqState rqClosed rqCollect]; try done.
  - destruct H4 as [r Hr]. exists ((rqBuf q ++ held) ++ r). unfold expected, responses in *. cbn. rewrite Hr. by rewrite <- !app_assoc.
  - intros _. by destruct Hst as [-> | ->].
  - intros Hp. destruct (H5 Hp) as (Eq&Hn&Hc&Hd). split_and!; [by destruct Hst as [-> | ->]|done|done|].
    destruct (isFinal f) eqn:Ef; [|done]. exfalso. assert (existsb isFinal (responses hd q) = true); [|congruence].
    apply existsb_exists. exists f. split; [|done]. rewrite <- Eq. apply in_or_app. left. apply in_or_app. right. by left.
  - destruct (isFinal f) eqn:Ef; [|done]. intros _. right. by exists (rqGot q), f.
Qed.

Lemma rqInv_collect hd nid p held q f buf collect : rqState q = QWait → rqBuf q = f :: buf → rqInv hd nid p held q →
  rqInv hd nid p held (rqTaken q buf (rqGot q ++ [f]) (if stopsAt collect f then QDone None else QWait)).
Proof. intros Es Eb Hi. exact (rqInv_relayed hd nid p held (rqTaken q buf (rqGot q) (QRelay f)) f collect eq_refl (rqInv_take _ _ _ _ _ _ _ Es Eb Hi)). Qed.

Definition held c (i : nat) : list bytes := match reader c with RDeliver j f => if Nat.eqb j i then [f] else [] | _ => [] end.

Record connInv c : Prop := {
  ci_next : 0 ≤ nextID c ≤ Z.of_nat (length (reqs c));
  ci_pend : ∀ id i, pending c !! id = Some i → id ≠ [] ∧ ∃ q, reqs c !! i = Some q ∧ rqId q = id;
  ci_ids : ∀ i j q q', reqs c !! i = Some q → reqs c !! j = Some q' → rqId q = rqId q' → rqId q ≠ [] → i = j;
  ci_reqs : ∀ i q, reqs c !! i = Some q → rqInv (heard c) (nextID c) (bool_decide (pending c !! rqId q = Some i)) (held c i) q;
  ci_held : ∀ i f, reader c = RDeliver i f → is_Some (reqs c !! i);
}.

(** A step that touches neither the requests nor what was read. *)
Lemma connInv_same c c' :
  nextID c' = nextID c → reqs c' = reqs c → pending c' = pending c → heard c' = heard c → (∀ i, held c' i = held c i) →
  (∀ i f, reader c' = RDeliver i f → reader c = RDeliver i f) → connInv c → connInv c'.
Proof.
  intros E1 E2 E3 E4 E5 E6 [H1 H2 H3 H4 H5]. constructor; rewrite ?E1, ?E2, ?E3, ?E4; try done.
  - intros i q Hq. rewrite E5. by apply H4.
  - intros i f Hf. eapply H5, E6, Hf.
Qed.

(** A step that changes one request, and maybe forgets it. *)
Lemma connInv_set c (i : nat) q q' (p : gmap bytes nat) (hl : list bytes) c' :
  connInv c → reqs c !! i = Some q → rqId q' = rqId q →
  reqs c' = <[i := q']> (reqs c) → pending c' = p → (p = pending c ∨ p = delete (rqId q) (pending c)) → (p ≠ pending c → rqId q ≠ []) →
  heard c' = heard c → nextID c' = nextID c → held c' i = hl → (∀ j, j ≠ i → held c' j = held c j) → (∀ j f, reader c' = RDeliver j f → is_Some (reqs c !! j)) →
  (rqInv (heard c) (nextID c) (bool_decide (pending c !! rqId q = Some i)) (held c i) q → rqInv (heard c) (nextID c) (bool_decide (p !! rqId q = Some i)) hl q') →
  connInv c'.
Proof.
  intros [H1 H2 H3 H4 H5] Hi Eid Er Ep Hp Hpn Eh En Ehl Ehj Erd Hq. pose proof (lookup_lt_Some _ _ _ Hi) as Hlt.
  constructor; rewrite ?Er, ?Ep, ?En, ?Eh; [by rewrite length_insert| | | |].
  - intros id j Hj. assert (pending c !! id = Some j) as Hj' by (destruct Hp as [-> | ->]; [done|by apply lookup_delete_Some in Hj as [_ ?]]).
    destruct (H2 id j Hj') as (Hn&q0&Hq0&E0). split; [done|]. destruct (decide (j = i)) as [->|].
    + exists q'. rewrite list_lookup_insert_eq by done. split; [done|]. congruence.
    + exists q0. by rewrite list_lookup_insert_ne.
  - intros j k a b Ha Hb Eab Hn.
    assert (∀ j a, <[i:=q']> (reqs c) !! j = Some a → ∃ a', reqs c !! j = Some a' ∧ rqId a' = rqId a) as G.
    { intros j0 a0 Ha0. destruct (decide (j0 = i)) as [->|]; [|rewrite list_lookup_insert_ne in Ha0 by done; eauto].
      rewrite list_lookup_insert_eq in Ha0 by done. injection Ha0 as <-. eauto. }
    destruct (G j a Ha) as (a'&Ha'&Ea). destruct (G k b Hb) as (b'&Hb'&Eb). eapply H3; [exact Ha'|exact Hb'|congruence..].
  - intros j a Ha. destruct (decide (j = i)) as [->|Hne].
    + rewrite list_lookup_insert_eq in Ha by done. injection Ha as <-. rewrite Ehl, Eid. by apply Hq, H4.
    + rewrite list_lookup_insert_ne in Ha by done. rewrite Ehj by done. replace (p !! rqId a) with (pending c !! rqId a); [by apply H4|].
      destruct Hp as [-> | Hp]; [done|]. destruct (decide (p = pending c)) as [->|Hd]; [done|]. rewrite Hp, lookup_delete_ne; [done|].
      intros E. apply Hne. symmetry. eapply H3; [exact Hi|exact Ha|done|by apply Hpn].
  - intros j f Hj. destruct (decide (j = i)) as [->|]; [by rewrite list_lookup_insert_eq|]. rewrite list_lookup_insert_ne by done. by eapply Erd.
Qed.

Lemma connInv_turn c frame : reader c = RRead → connInv c → connInv (readerTurn c frame).
Proof.
  intros Er [H1 H2 H3 H4 H5]. assert (∀ i, held c i = []) as Hno by (intros i; unfold held; by rewrite Er).
  assert (∀ i q, reqs c !! i = Some q → rqInv (heard c) (nextID c) (bool_decide (pending c !! rqId q = Some i)) [] q) as H4'.
  { intros i q Hq. rewrite <- (Hno i). by apply H4. } clear H4.
  unfold readerTurn. destruct (kindOf frame) as [|id more|] eqn:Ek.
  1,3: (constructor; cbn [withReader reader reqs pending nextID heard]; rewrite ?Er; try done; intros i q Hq; unfold held; cbn [withReader reader]; rewrite ?Er;
    apply rqInv_hear_other; [unfold isResponse; by rewrite Ek|by apply H4']).
  unfold deliver. cbn [pending]. destruct (pending c !! id) as [j|] eqn:Ej.
  - destruct (H2 id j Ej) as (Hid&qj&Hqj&Eid).
    assert (∀ i q, reqs c !! i = Some q → rqInv (heard c ++ [frame]) (nextID c)
      (bool_decide ((if more then pending c else delete id (pending c)) !! rqId q = Some i)) (if Nat.eqb j i then [frame] else []) q) as G.
    { intros i q Hq. pose proof (H4' i q Hq) as Hr. destruct (Nat.eqb_spec j i) as [<-|Hne].
      - rewrite Hqj in Hq. injection Hq as <-. rewrite Eid, Ej, bool_decide_true in Hr by done.
        replace (bool_decide _) with more; [by apply rqInv_hear_mine; [rewrite Eid|]|].
        rewrite Eid. destruct more; [by rewrite Ej, bool_decide_true|by rewrite lookup_delete_eq].
      - assert (rqId q ≠ id) as Hn. { intros <-. apply Hne. eapply H3; [exact Hqj|exact Hq|done|by rewrite Eid]. }
        replace ((if more then _ else _) !! rqId q) with (pending c !! rqId q) by (destruct more; [done|by rewrite lookup_delete_ne]).
        apply rqInv_hear_other; [|done]. unfold isResponse. rewrite Ek. by apply bool_decide_false. }
    destruct more; (constructor; cbn [withReader withPending reader reqs pending nextID heard]; [done| |done|exact G|intros i f [= <- _]; by eexists]); [done|].
    intros id' i Hi. apply lookup_delete_Some in Hi as [_ Hi]. by apply H2.
  - constructor; cbn [withReader withPending reader reqs pending nextID heard]; try done. intros i q Hq. unfold held. cbn [reader]. rewrite Er.
    destruct (decide (rqId q = id)) as [E|Hn].
    + specialize (H4' i q Hq). rewrite E, Ej in H4' |- *. rewrite bool_decide_false in H4' |- * by done. by apply rqInv_hear_stale.
    + apply rqInv_hear_other; [|by apply H4']. unfold isResponse. rewrite Ek. by apply bool_decide_false.
Qed.

Lemma closePending_lookup (p : gmap bytes nat) (l : list request) (i : nat) q : closePending p l !! i = Some q →
  ∃ q0, l !! i = Some q0 ∧ rqId q = rqId q0 ∧ q = if bool_decide (p !! rqId q0 = Some i) then rqClose q0 else q0.
Proof.
  unfold closePending. rewrite list_lookup_imap. destruct (l !! i) as [q0|]; [|done]. cbn. intros [= <-]. exists q0. split_and!; [done| |done].
  by destruct (bool_decide _).
Qed.

Lemma connInv_lost c : reader c = RRead → connInv c → connInv (disconnect c).
Proof.
  intros Er [H1 H2 H3 H4 H5]. unfold disconnect. constructor; cbn [reader reqs pending nextID heard].
  - unfold closePending. by rewrite length_imap.
  - intros id i Hi. by rewrite lookup_empty in Hi.
  - intros i j a b (a'&Ha&Ea&_)%closePending_lookup (b'&Hb&Eb&_)%closePending_lookup E Hn. eapply H3; [exact Ha|exact Hb|congruence..].
  - intros i a (a'&Ha&_&->)%closePending_lookup. rewrite lookup_empty. unfold held. cbn [reader]. specialize (H4 i a' Ha). unfold held in H4. rewrite Er in H4.
    rewrite (bool_decide_false (None = Some i)) by done.
    destruct (bool_decide (pending c !! rqId a' = Some i)); [by eapply rqInv_close|by eapply rqInv_weak].
  - done.
Qed.

Lemma connInv_register c raw collect : nextID c + 1 < 2 ^ 64 → connInv c → connInv (register c raw collect).
Proof.
  intros Hw [H1 H2 H3 H4 H5].
  assert (∀ nid (p : gmap bytes nat) id s c', nextID c ≤ nid ≤ nextID c + 1 → reqs c' = reqs c ++ [mkRequest id collect [] false [] s (length (heard c))] → nextID c' = nid →
      heard c' = heard c → reader c' = reader c → pending c' = p → (id = [] ∨ nid = nextID c + 1 ∧ id = itoa nid) →
      (p = pending c ∧ (∃ e, s = QDone (Some e)) ∨ p = <[id := length (reqs c)]> (pending c) ∧ id ≠ [] ∧ (∃ body, s = QSend body)) → connInv c') as G.
  { intros nid p id s c' Hnid Er En Eh Erd Ep Hid Hp. set (q := mkRequest _ _ _ _ _ _ _) in Er.
    assert (∀ i a, reqs c !! i = Some a → rqId a = id → id = []) as Hfresh.
    { intros i a Ha E. destruct Hid as [?|[-> ->]]; [done|]. destruct (ri_id _ _ _ _ _ (H4 i a Ha)) as [E0|(k&Hk&E0)]; [congruence|].
      rewrite E in E0. apply itoa_inj in E0; lia. }
    assert (∀ i a, reqs c' !! i = Some a → reqs c !! i = Some a ∧ i ≠ length (reqs c) ∨ i = length (reqs c) ∧ a = q) as Hcase.
    { intros i a Ha. rewrite Er in Ha. apply lookup_app_Some in Ha as [Ha|[Hl Ha]]; [left; split; [done|]; apply lookup_lt_Some in Ha; lia|].
      apply list_lookup_singleton_Some in Ha as [? <-]. right. split; [lia|done]. }
    constructor; rewrite ?En, ?Eh, ?Ep.
    - rewrite Er, length_app. cbn. lia.
    - intros id' i Hi. destruct Hp as [[-> _]|(->&Hne&_)].
      + destruct (H2 id' i Hi) as (?&a&Ha&?). split; [done|]. exists a. split; [|done]. rewrite Er. by apply lookup_app_l_Some.
      + apply lookup_insert_Some in Hi as [[<- <-]|[_ Hi]].
        * split; [done|]. exists q. split; [|done]. rewrite Er. by rewrite list_lookup_middle.
        * destruct (H2 id' i Hi) as (?&a&Ha&?). split; [done|]. exists a. split; [|done]. rewrite Er. by apply lookup_app_l_Some.
    - intros i j a b Ha Hb E Hn. destruct (Hcase i a Ha) as [[Ha' _]|[-> ->]], (Hcase j b Hb) as [[Hb' _]|[-> ->]]; [by eapply H3| | |done].
      + destruct Hn. rewrite E. eapply Hfresh; [exact Ha'|done].
      + destruct Hn. eapply Hfresh; [exact Hb'|done].
    - intros i a Ha. assert (held c' i = held c i) as -> by (unfold held; by rewrite Erd). destruct (Hcase i a Ha) as [[Ha' Hi]|[-> ->]].
      + eapply rqInv_nid; [|apply Hnid]. replace (bool_decide (p !! rqId a = Some i)) with (bool_decide (pending c !! rqId a = Some i)); [by apply H4|].
        destruct Hp as [[-> _]|(->&Hne&_)]; [done|]. destruct (decide (rqId a = id)) as [E|]; [by destruct Hne; eapply Hfresh|by rewrite lookup_insert_ne].
      + assert (held c (length (reqs c)) = []) as ->.
        { unfold held. destruct (reader c) as [| | |j f|] eqn:Erd0; try done. destruct (Nat.eqb_spec j (length (reqs c))) as [->|]; [|done].
          destruct (H5 _ _ eq_refl) as [x Hx]. apply lookup_lt_Some in Hx. lia. }
        assert (responses (heard c) q = []) as E0 by (unfold responses; cbn [q rqFrom]; by rewrite drop_all).
        assert (inRelay q = []) as Er0 by (unfold inRelay; cbn [q rqState]; by destruct Hp as [(_&?&->)|(_&_&?&->)]).
        constructor; rewrite ?Er0; cbn [q rqFrom rqId rqGot rqBuf rqState rqClosed rqCollect app].
        * done.
        * destruct Hid as [->|[-> ->]]; [by left|right]. eexists. split; [|done]. lia.
        * apply prefix_nil.
        * intros _. apply prefix_nil.
        * intros Hpd. rewrite E0. split_and!; [done..|]. destruct Hp as [[-> _]|(_&_&body&->)]; [|done]. apply bool_decide_eq_true in Hpd.
          destruct (H2 _ _ Hpd) as (_&x&Hx&_). apply lookup_lt_Some in Hx. lia.
        * done.
        * intros ->. by destruct Hp as [[_ [? ?]]|(_&_&?&?)].
    - intros i f Hi. rewrite Erd in Hi. destruct (H5 i f Hi) as [a Ha]. exists a. rewrite Er. by apply lookup_app_l_Some. }
  unfold register. destruct (connected c).
  - rewrite Z.mod_small by lia. assert (itoa (nextID c + 1) ≠ []) as Hne by (apply itoa_cons; lia).
    assert (pending c !! itoa (nextID c + 1) = None) as Hfree.
    { destruct (pending c !! _) as [i|] eqn:Ei; [|done]. destruct (H2 _ _ Ei) as (_&q&Hq&E). destruct (ri_id _ _ _ _ _ (H4 i q Hq)) as [E0|(k&Hk&E0)]; [congruence|].
      rewrite E in E0. apply itoa_inj in E0; lia. }
    destruct (injectID raw (itoa (nextID c + 1))) as [body| | |].
    1: (eapply G; cbn; [|done..|right; by split|right; by eauto]; lia).
    all: (eapply G; cbn; [|done..|right; by split|left; rewrite delete_insert_id by done; by eauto]; lia).
  - eapply (G (nextID c)); [|done..|by left|left; by eauto]. lia.
Qed.

Lemma held_ne c i j f : reader c = RDeliver i f → j ≠ i → held c j = [].
Proof. intros E Hn. unfold held. rewrite E. by destruct (Nat.eqb_spec i j). Qed.

Lemma rqInv_id_cons c i q : connInv c → reqs c !! i = Some q → pending c !! rqId q = Some i → rqId q ≠ [].
Proof. intros Hi Hq Hp. by destruct (ci_pend c Hi _ _ Hp). Qed.

(** A step of request [i] that leaves the rest as it is. *)
Lemma connInv_setReq c i q q' :
  connInv c → reqs c !! i = Some q → rqId q' = rqId q →
  (∀ p, rqInv (heard c) (nextID c) p (held c i) q → rqInv (heard c) (nextID c) p (held c i) q') → connInv (setReq c i q').
Proof.
  intros Hi Hq Eid H. eapply (connInv_set c i q q' (pending c)); [done|done|done|reflexivity|reflexivity|by left|done|reflexivity|reflexivity|reflexivity|done| |apply H].
  intros j f Hj. by eapply ci_held.
Qed.

Lemma connInv_forget c i q q' :
  connInv c → reqs c !! i = Some q → rqId q' = rqId q →
  (∀ p, rqInv (heard c) (nextID c) p (held c i) q → rqInv (heard c) (nextID c) false (held c i) q') → connInv (setReq (forget c q) i q').
Proof.
  intros Hi Hq Eid H. destruct (decide (rqId q = [])) as [E0|].
  { assert (pending c !! [] = None) as Hn.
    { destruct (pending c !! []) as [j|] eqn:Ej; [|done]. by destruct (ci_pend c Hi _ _ Ej). }
    eapply (connInv_set c i q q' (pending c)); [done|done|done|reflexivity| |by left|done|reflexivity|reflexivity|reflexivity|done|by intros j f Hj; eapply ci_held|].
    - cbn. rewrite E0. by apply delete_id.
    - intros Hr. rewrite E0, Hn in *. by eapply H. }
  eapply (connInv_set c i q q' (delete (rqId q) (pending c)));
    [done|done|done|reflexivity|reflexivity|by right|done|reflexivity|reflexivity|reflexivity|done|by intros j f Hj; eapply ci_held|].
  intros Hr. rewrite lookup_delete_eq. rewrite (bool_decide_false (None = Some i)) by done. by eapply H.
Qed.

Lemma connInv_step c o c' : (∀ raw collect, o = DRegister raw collect → nextID c + 1 < 2 ^ 64) → connInv c → dstep c o = Some c' → connInv c'.
Proof.
  intros Hw Hi E. destruct o as [|frame| | | | | |raw collect|i ok|i|i ok|]; cbn [dstep] in E.
  - destruct (bool_decide_reflect (reader c = RDial)) as [Er|]; [|done]. injection E as <-.
    apply (connInv_same c); [done..| |done|done]. intros i. unfold held. by rewrite Er.
  - destruct (bool_decide_reflect (reader c = RRead)); [|done]. destruct (open c); [|done]. injection E as <-. by apply connInv_turn.
  - unfold readerSend in E. destruct (reader c) as [| |f|i f|] eqn:Er; [done|done| | |done].
    + destruct (Nat.ltb _ _); [|done]. injection E as <-. apply (connInv_same c); [done..| |done|done]. intros i. unfold held. by rewrite Er.
    + destruct (reqs c !! i) as [q|] eqn:Eq; [|done]. destruct (Nat.ltb _ _); [|done]. injection E as <-.
      eapply (connInv_set c i q (rqPush q f) (pending c)); [done|done|done|reflexivity|reflexivity|by left|done|reflexivity|reflexivity|reflexivity| |done|].
      * intros j Hj. symmetry. by eapply held_ne.
      * unfold held. rewrite Er, Nat.eqb_refl. apply rqInv_push.
  - destruct (bool_decide_reflect (reader c = RRead)); [|done]. injection E as <-. by apply connInv_lost.
  - destruct (bool_decide_reflect (reader c = RDrop)) as [Er|]; [|done]. injection E as <-.
    apply (connInv_same c); [done..| |done|done]. intros i. unfold held. by rewrite Er.
  - destruct (evCh c); [done|]. destruct (evDone c); [done|]. injection E as <-. by apply (connInv_same c).
  - destruct (stop c); [|done]. injection E as <-. by apply (connInv_same c).
  - injection E as <-. apply connInv_register; [by eapply Hw|done].
  - unfold sendRequest in E. destruct (reqs c !! i) as [q|] eqn:Eq; [|done]. cbn [mbind option_bind] in E.
    destruct (rqState q) as [body| | |] eqn:Es; [|done..]. destruct (_ && _); injection E as <-.
    + apply (connInv_setReq (withSent c (sent c ++ [body])) i q); [by apply (connInv_same c)|done|done|]. intros p. by eapply rqInv_sent.
    + apply connInv_forget; [done|done|done|]. intros p. apply rqInv_fail.
  - unfold requestTake in E. destruct (reqs c !! i) as [q|] eqn:Eq; [|done]. cbn [mbind option_bind] in E.
    destruct (rqState q) eqn:Es; [done| |done..]. destruct (rqBuf q) as [|f buf] eqn:Eb.
    + destruct (rqClosed q) eqn:Ec; [|done]. injection E as <-. apply (connInv_setReq c i q); [done|done|done|]. intros p Hp.
      assert (held c i = []) as Eh by (destruct (held c i) eqn:Eh; [done|]; by pose proof (ri_held _ _ _ _ _ Hp ltac:(done)); congruence).
      rewrite Eh in *. by apply rqInv_gone.
    + injection E as <-. apply (connInv_setReq c i q); [done|done|by destruct (rqCollect q)|]. intros p Hp. destruct (rqCollect q); [by apply rqInv_collect|by apply rqInv_take].
  - unfold requestRelayed in E. destruct (reqs c !! i) as [q|] eqn:Eq; [|done]. cbn [mbind option_bind] in E.
    destruct (rqState q) as [| |f|] eqn:Es; [done..| |done]. injection E as <-. destruct ok.
    + apply (connInv_setReq c i q); [done|done|done|]. intros p. by apply rqInv_relayed.
    + apply connInv_forget; [done|done|done|]. intros p. apply rqInv_fail.
  - injection E as <-. by apply (connInv_same c).
Qed.

Lemma reqs_grow c o c' : dstep c o = Some c' → (length (reqs c) ≤ length (reqs c'))%nat ∧ (∀ raw collect, o = DRegister raw collect → length (reqs c') = S (length (reqs c))).
Proof.
  intros E. destruct o as [|frame| | | | | |raw collect|i ok|i|i ok|]; cbn [dstep] in E;
    try (split; [|done]); repeat (case_match; [|done] || (case_match; [done|])); simplify_eq; try done.
  - unfold readerTurn, deliver. by repeat case_match.
  - unfold readerSend in E. repeat case_match; simplify_eq; cbn; rewrite ?length_insert; done.
  - cbn. unfold closePending. by rewrite length_imap.
  - unfold register. by split; [|intros _ _ _]; repeat case_match; cbn; rewrite ?length_app; cbn; lia.
  - unfold sendRequest in E. destruct (reqs c !! i); [|done]. cbn [mbind option_bind] in E. repeat case_match; simplify_eq; cbn; by rewrite length_insert.
  - unfold requestTake in E. destruct (reqs c !! i); [|done]. cbn [mbind option_bind] in E. repeat case_match; simplify_eq; cbn; by rewrite length_insert.
  - unfold requestRelayed in E. destruct (reqs c !! i); [|done]. cbn [mbind option_bind] in E. repeat case_match; simplify_eq; cbn; by rewrite length_insert.
Qed.

Lemma creach_inv c : creach c → Z.of_nat (length (reqs c)) < 2 ^ 64 → connInv c.
Proof.
  induction 1 as [|c o c' _ IH E]; intros Hl.
  { constructor; [done| | | |done]; intros ? ? Hx; done. }
  destruct (reqs_grow c o c' E) as [Hg Hr]. assert (connInv c) as Hi by (apply IH; lia). eapply connInv_step; [|exact Hi|exact E].
  intros raw collect Ho. specialize (Hr _ _ Ho). pose proof (ci_next c Hi). lia.
Qed.

(** A channel never holds more than it can. *)
Lemma creach_room c i q : creach c → reqs c !! i = Some q → (length (rqBuf q) ≤ responseQueueSize)%nat.
Proof.
  intros Hr. revert i q. assert (Forall (fun q => (length (rqBuf q) ≤ responseQueueSize)%nat) (reqs c)) as G; [|intros i q; exact (Forall_lookup_1 _ _ i q G)].
  induction Hr as [|c o c' _ IH E]; [constructor|].
  assert (∀ i q q', reqs c !! i = Some q → (length (rqBuf q') ≤ length (rqBuf q))%nat → Forall (fun q => (length (rqBuf q) ≤ responseQueueSize)%nat) (<[i:=q']> (reqs c))) as Hset.
  { intros i q q' Hq Hb. apply Forall_insert; [done|]. etrans; [exact Hb|]. by eapply (Forall_lookup_1 _ _ _ _ IH). }
  destruct o as [|frame| | | | | |raw collect|i ok|i|i ok|]; cbn [dstep] in E;
    repeat (case_match; [|done] || (case_match; [done|])); simplify_eq; try done.
  - unfold readerTurn, deliver. by repeat case_match.
  - unfold readerSend in E. destruct (reader c) as [| |f|i f|]; [done|done| | |done]; repeat case_match; simplify_eq; cbn; [done|].
    apply Forall_insert; [done|]. cbn. rewrite length_app. cbn. match goal with H : Nat.ltb _ _ = true |- _ => apply Nat.ltb_lt in H end. lia.
  - cbn. apply Forall_lookup_2. intros i q (q0&Hq&_&->)%closePending_lookup. pose proof (Forall_lookup_1 _ _ _ _ IH Hq) as Hb. cbn beta in *.
    destruct (bool_decide (pending c !! rqId q0 = Some i)); exact Hb.
  - unfold register. repeat case_match; cbn; (apply Forall_app_2; [done|repeat constructor; cbn; unfold responseQueueSize; lia]).
  - unfold sendRequest in E. destruct (reqs c !! i) as [q|] eqn:Eq; [|done]. cbn [mbind option_bind] in E.
    repeat case_match; simplify_eq; cbn; by eapply Hset.
  - unfold requestTake in E. destruct (reqs c !! i) as [q|] eqn:Eq; [|done]. cbn [mbind option_bind] in E.
    repeat case_match; simplify_eq; cbn; (eapply Hset; [done|]); cbn; try match goal with H : rqBuf _ = _ |- _ => rewrite H end; cbn; lia.
  - unfold requestRelayed in E. destruct (reqs c !! i) as [q|] eqn:Eq; [|done]. cbn [mbind option_bind] in E.
    repeat case_match; simplify_eq; cbn; by eapply Hset.
Qed.

(** C15. Responses go where they belong: whatever the interleaving of the reader, the
    requests and the connection's ends, with fewer than 2^64 requests, a request is given a
    beginning of the frames with its own id read since it was registered, in order and
    up to the first that says no more follow. A relayed request (Request) that returns
    without an error was given all of them, the last included; a collected one
    (RequestCollect) that returns without an error was given all of them too, or its
    channel was closed by a disconnect and what it returns is cut short. A reader that
    holds a frame for a request that did not return with an error is not stuck: the
    request is yet to be sent, is busy with a relay, or there is room in its channel, or
    it makes room. *)
Theorem responses_routed c i q : creach c → Z.of_nat (length (reqs c)) < 2 ^ 64 → reqs c !! i = Some q →
  rqGot q `prefix_of` expected (heard c) q
  ∧ (rqState q = QDone None → rqCollect q = false → rqGot q = expected (heard c) q ∧ ∃ g f, rqGot q = g ++ [f] ∧ isFinal f = true)
  ∧ (rqState q = QDone None → rqCollect q = true →
       rqClosed q = true ∨ (rqGot q = expected (heard c) q ∧ ∃ g f, rqGot q = g ++ [f] ∧ isFinal f = true))
  ∧ (∀ f, reader c = RDeliver i f → (∀ e, rqState q ≠ QDone (Some e)) →
       (∃ body, rqState q = QSend body) ∨ (∃ f, rqState q = QRelay f)
       ∨ is_Some (readerSend c) ∨ ∃ c1, requestTake c i = Some c1 ∧ is_Some (readerSend c1)).
Proof.
  intros Hr Hl Hq. pose proof (creach_inv c Hr Hl) as Hi. destruct (ci_reqs c Hi i q Hq) as [H1 H2 H3 H4 H5 H6 H7].
  assert (∀ g f, rqGot q = g ++ [f] → isFinal f = true → (∀ e, rqState q ≠ QDone (Some e)) → rqGot q = expected (heard c) q ∧ held c i = []) as Hend.
  { intros g f Eg Hf Hs. specialize (H4 Hs). destruct H4 as [r Er]. rewrite Eg, <- !app_assoc in Er. pose proof (upToFinal_end _ _ _ _ Er Hf) as E0.
    apply app_eq_nil in E0 as [E0 E2]. apply app_eq_nil in E2 as [E1 E2]. apply app_eq_nil in E2 as [E2 E3].
    split; [|done]. by rewrite Er, E0, E1, E2, E3, Eg. }
  split_and!; [done| | |].
  - intros Hd Hc. destruct (H7 Hd) as [[? ?]|(g&f&Eg&Hf)]; [congruence|]. split; [|by exists g, f]. by eapply Hend; [..|rewrite Hd].
  - intros Hd Hc. destruct (H7 Hd) as [[? ?]|(g&f&Eg&Hf)]; [by left|right]. split; [|by exists g, f]. by eapply Hend; [..|rewrite Hd].
  - intros f Ef Hs. assert (held c i = [f]) as Eh by (unfold held; by rewrite Ef, Nat.eqb_refl).
    destruct (rqState q) as [body| |f'|e] eqn:Es; [by left; eexists|right; right|by right; left; eexists|].
    + unfold readerSend. rewrite Ef, Hq. destruct (Nat.ltb_spec (length (rqBuf q)) responseQueueSize) as [|Hfull]; [by left; eexists|right].
      destruct (rqBuf q) as [|g buf] eqn:Eb; [cbn in Hfull; unfold responseQueueSize in Hfull; lia|].
      unfold requestTake. rewrite Hq. cbn [mbind option_bind]. rewrite Es, Eb. eexists. split; [done|].
      cbn [setReq withReqs reader reqs]. rewrite Ef, list_lookup_insert_eq by (by eapply lookup_lt_Some).
      pose proof (creach_room c i q Hr Hq) as Hb. rewrite Eb in Hb. cbn [length] in Hb.
      destruct (rqCollect q); cbn [rqTaken rqBuf]; by rewrite (proj2 (Nat.ltb_lt _ _)) by lia.
    + destruct e as [e|]; [by destruct (Hs e)|]. destruct (H7 eq_refl) as [[_ Hc]|(g&f'&Eg&Hf)].
      * by rewrite H6 in Hc by (by rewrite Eh).
      * destruct (Hend g f' Eg Hf ltac:(done)) as [_ E0]. congruence.
Qed.

(** ** Samples *)

Module linkSamples.
Definition sampleRequest : bytes := Marshal (Map [(Str (bs "type"), Str (bs "tx"))]).
Definition sampleResponse (more : bool) : bytes := Marshal (Map [(Str (bs "tx"), Int 7); (Str (bs "more"), Bool more); (Str (bs "id"), Str (bs "1"))]).
Definition sampleRecord : bytes := Marshal (Map [(Str (bs "ev"), Str (bs "wal")); (Str (bs "data"), Bin (bs "record"))]).

(** A request sent on a new connection. *)
Definition sampleSent : list dop := [DDial; DRegister sampleRequest false; DRequest 0 true].

(** Its record and its response, in this order, and the relay of the response. *)
Definition sampleAnswered : list dop := sampleSent ++ [DHear sampleRecord; DSend; DHear (sampleResponse false); DSend; DTake 0; DRelayed 0 true].

(** A long answer to a client that goes away: the relay of the first frame waits for
    the client while the channel fills up and the reader gets a sixth frame. *)
Definition sampleFull : list dop :=
  sampleSent ++ [DHear (sampleResponse true); DSend; DTake 0] ++ concat (replicate 4 [DHear (sampleResponse true); DSend])
    ++ [DHear (sampleResponse true)].
End linkSamples.
Import linkSamples.

Definition runOpen (ops : list dop) : Conn := default Open (runConn Open ops).

Lemma runConn_reach c ops c' : creach c → runConn c ops = Some c' → creach c'.
Proof.
  revert c. induction ops as [|o ops IH]; intros c Hr E; cbn in E; [by injection E as <-|].
  destruct (dstep c o) as [c1|] eqn:E1; [|done]. eapply IH; [by eapply CStep|exact E].
Qed.

Lemma runOpen_reach ops : creach (runOpen ops).
Proof. unfold runOpen. destruct (runConn Open ops) eqn:E; [|constructor]. cbn. eapply runConn_reach; [constructor|done]. Qed.

Lemma events_in_order_witness :
  ∃ c', runConn (runOpen sampleAnswered) [DApply] = Some c' ∧ eventsApplied c' ++ heldEvent (runOpen sampleAnswered) = eventsHeard (runOpen sampleAnswered)
    ∧ eventsHeard (runOpen sampleAnswered) = [sampleRecord].
Proof.
  destruct (events_in_order (runOpen sampleAnswered) (runOpen_reach _)) as [_ H]. destruct H as (c'&E&Hc); [by vm_compute|by vm_compute|].
  exists c'. split; [exact E|]. split; [exact Hc|]. vm_compute. reflexivity.
Defined.

Lemma responses_routed_witness :
  ∃ q, reqs (runOpen sampleAnswered) !! 0%nat = Some q ∧ rqGot q = expected (heard (runOpen sampleAnswered)) q ∧ rqGot q = [sampleResponse false].
Proof.
  destruct (reqs (runOpen sampleAnswered) !! 0%nat) as [q|] eqn:E; [|by vm_compute in E]. exists q. split; [done|].
  assert (rqGot <$> (reqs (runOpen sampleAnswered) !! 0%nat) = Some [sampleResponse false]) as Hg by (vm_compute; reflexivity).
  assert ((fun q => (rqState q, rqCollect q)) <$> (reqs (runOpen sampleAnswered) !! 0%nat) = Some (QDone None, false)) as Hs by (vm_compute; reflexivity).
  rewrite E in Hg, Hs. injection Hg as Hg. injection Hs as Hs Hc.
  destruct (responses_routed (runOpen sampleAnswered) 0 q (runOpen_reach _) ltac:(by vm_compute) E) as (_&H&_). destruct (H Hs Hc) as [H1 _].
  split; [exact H1|exact Hg].
Defined.

(** A write is not always read by the one who wrote it: the record of a request and
    its response are read in that order from one connection, the request is given the
    response and returns without an error, and its record is not applied yet. *)
Theorem acknowledged_before_applied :
  ∃ c q, creach c ∧ heard c = [sampleRecord; sampleResponse false] ∧ kindOf sampleRecord = KEvent
    ∧ reqs c !! 0%nat = Some q ∧ rqState q = QDone None ∧ rqGot q = [sampleResponse false] ∧ applied c = [].
Proof.
  exists (runOpen sampleAnswered). destruct (reqs (runOpen sampleAnswered) !! 0%nat) as [q|] eqn:E; [|by vm_compute in E]. exists q.
  split; [apply runOpen_reach|]. split; [vm_compute; reflexivity|]. split; [vm_compute; reflexivity|]. split; [reflexivity|].
  assert ((fun q => (rqState q, rqGot q)) <$> (reqs (runOpen sampleAnswered) !! 0%nat) = Some (QDone None, [sampleResponse false])) as H by (vm_compute; reflexivity).
  rewrite E in H. clear E. injection H as -> ->. split; [reflexivity|]. split; [reflexivity|]. vm_compute. reflexivity.
Qed.

(** A reader blocked on the channel of a request that returned stays there. *)
Definition stuckOn c (i : nat) (frame : bytes) : Prop :=
  reader c = RDeliver i frame ∧ ∃ q e, reqs c !! i = Some q ∧ rqState q = QDone e ∧ (responseQueueSize ≤ length (rqBuf q))%nat.

Lemma stuck_set c i f j q q' : stuckOn c i f → reqs c !! j = Some q → (∀ e, rqState q ≠ QDone e) → ∀ c', reader c' = reader c → reqs c' = <[j := q']> (reqs c) → stuckOn c' i f.
Proof.
  intros (Er&q0&e&Hq0&Hs&Hb) Hq Hn c' Er' Eq'. split; [congruence|]. exists q0, e. split; [|done]. rewrite Eq', list_lookup_insert_ne; [done|].
  intros ->. rewrite Hq in Hq0. injection Hq0 as ->. by destruct (Hn e).
Qed.

Lemma stuck_same c c' i f : reader c' = reader c → (∃ l, reqs c' = reqs c ++ l) → stuckOn c i f → stuckOn c' i f.
Proof.
  intros Er [l Eq] (Er0&q&e&Hq&Hs&Hb). split; [congruence|]. exists q, e. split; [|done]. rewrite Eq. by apply lookup_app_l_Some.
Qed.

Lemma stuck_step c i f o c' : stuckOn c i f → dstep c o = Some c' → stuckOn c' i f ∧ heard c' = heard c.
Proof.
  intros Hs E. pose proof Hs as (Er&q&e&Hq&Hst&Hb). destruct o as [|frame| | | | | |raw collect|j ok|j|j ok|]; cbn [dstep] in E; rewrite ?Er in E; try done.
  - unfold readerSend in E. rewrite Er, Hq in E. by rewrite (proj2 (Nat.ltb_ge _ _) Hb) in E.
  - destruct (evCh c); [done|]. destruct (evDone c); [done|]. injection E as <-. split; [|done]. eapply stuck_same; [done|by exists []; rewrite app_nil_r|done].
  - destruct (stop c); [|done]. injection E as <-. split; [|done]. eapply stuck_same; [done|by exists []; rewrite app_nil_r|done].
  - injection E as <-. unfold register. destruct (connected c); [destruct (injectID _ _)|]; (split; [|done]); (apply (stuck_same c); [done|by eexists|done]).
  - unfold sendRequest in E. destruct (reqs c !! j) as [q'|] eqn:Ej; [|done]. cbn [mbind option_bind] in E. destruct (rqState q') eqn:Es; [|done..].
    destruct (_ && _); injection E as <-; (split; [|done]); (eapply (stuck_set c i f j q'); [done|done|by rewrite Es|done|reflexivity]).
  - unfold requestTake in E. destruct (reqs c !! j) as [q'|] eqn:Ej; [|done]. cbn [mbind option_bind] in E. destruct (rqState q') eqn:Es; [done| |done..].
    destruct (rqBuf q'); [destruct (rqClosed q'); [|done]|]; injection E as <-; (split; [|done]);
      (eapply (stuck_set c i f j q'); [done|done|by rewrite Es|done|reflexivity]).
  - unfold requestRelayed in E. destruct (reqs c !! j) as [q'|] eqn:Ej; [|done]. cbn [mbind option_bind] in E. destruct (rqState q') eqn:Es; [done..| |done].
    injection E as <-. destruct ok; (split; [|done]); (eapply (stuck_set c i f j q'); [done|done|by rewrite Es|done|reflexivity]).
  - injection E as <-. split; [|done]. eapply stuck_same; [done|by exists []; rewrite app_nil_r|done].
Qed.

(** C39. A failed relay can stop the link for good: in any state in which the reader
    holds a frame for a request whose channel is full while that request relays an
    earlier frame to its client, if the relay fails (the client went away), the request
    returns with the error and nobody takes from its channel again. Whatever the other
    goroutines then do, new requests, the events, Close and a loss of the connection
    included, the reader stays where it is and reads no other frame, so that no request is
    answered and no event reaches the replica any more. *)
Theorem link_stops c i frame relayed q c1 :
  reader c = RDeliver i frame → reqs c !! i = Some q → (responseQueueSize ≤ length (rqBuf q))%nat → rqState q = QRelay relayed →
  dstep c (DRelayed i false) = Some c1 →
  (rqState <$> reqs c1 !! i) = Some (QDone (Some "relay"%string))
  ∧ ∀ ops c', runConn c1 ops = Some c' → reader c' = RDeliver i frame ∧ heard c' = heard c.
Proof.
  intros Er Hq Hb Hs E. cbn [dstep] in E. unfold requestRelayed in E. rewrite Hq in E. cbn [mbind option_bind] in E. rewrite Hs in E. injection E as <-.
  pose proof (lookup_lt_Some _ _ _ Hq) as Hlt.
  set (c1 := setReq (forget c q) i (rqAt q (QDone (Some "relay"%string)))).
  assert (reqs c1 !! i = Some (rqAt q (QDone (Some "relay"%string)))) as Hi by (by apply list_lookup_insert_eq).
  split; [by rewrite Hi|]. assert (stuckOn c1 i frame) as Hst by (split; [exact Er|]; eexists _, _; split_and!; [exact Hi|done|exact Hb]).
  change (heard c) with (heard c1). clearbody c1. clear -Hst. intros ops. revert c1 Hst. induction ops as [|o ops IH]; intros c Hst c' E; cbn in E.
  - injection E as <-. split; [apply Hst|done].
  - destruct (dstep c o) as [c2|] eqn:E1; [|done]. destruct (stuck_step c i _ o c2 Hst E1) as [Hs1 Eh]. destruct (IH c2 Hs1 c' E) as (H1&H2).
    split; [done|congruence].
Qed.

Lemma link_stops_witness : ∃ c c1, creach c ∧ connected c = true ∧ dstep c (DRelayed 0 false) = Some c1 ∧
  ∀ ops c', runConn c1 ops = Some c' → reader c' = RDeliver 0 (sampleResponse true) ∧ heard c' = heard c.
Proof.
  assert ((fun q => (rqState q, length (rqBuf q))) <$> (reqs (runOpen sampleFull) !! 0%nat) = Some (QRelay (sampleResponse true), 4%nat)) as Hq by (vm_compute; reflexivity).
  assert (reader (runOpen sampleFull) = RDeliver 0 (sampleResponse true)) as Er by (vm_compute; reflexivity).
  assert (connected (runOpen sampleFull) = true) as Hc by (vm_compute; reflexivity).
  assert (is_Some (dstep (runOpen sampleFull) (DRelayed 0 false))) as [c1 E] by (vm_compute; by eexists).
  pose proof (runOpen_reach sampleFull) as Hr. revert Hq Er Hc E Hr. generalize (runOpen sampleFull) as c. intros c Hq Er Hc E Hr.
  exists c, c1. split; [exact Hr|]. split; [exact Hc|]. split; [exact E|].
  destruct (reqs c !! 0%nat) as [q|] eqn:E0; [|done]. apply (inj Some) in Hq. apply pair_equal_spec in Hq as [Hs Hl].
  assert (responseQueueSize ≤ length (rqBuf q))%nat as Hb by (rewrite Hl; unfold responseQueueSize; lia).
  exact (proj2 (link_stops c 0 (sampleResponse true) (sampleResponse true) q c1 Er E0 Hb Hs E)).
Defined.
