(* ===== verification/Runner.v ===== *)
(** * The flush and collection runner of the transactor (go/internal/transactor/server.go)

    One goroutine at a time captures, prepares and publishes flushes and runs the
    passes of the collector, as other goroutines ask for them. The goroutines are the
    steps of a machine: what the code does under one lock, or between two locks, is
    one step. *)

From S2P Require Import Prelude Pages FlatLeaf PageCache BlobStore PageStore PageTree PageCommit Gc NewestWins Memtable Journal Wal KvStore KvSpec.

(** ** Definitions *)

Section runner.
Context {B : Type} `{HB : BlobStore B} `{HZ : Zstd}.

(** A request for a pass; [gcDone] is what it got, once its channel is closed. A request
    of a flush has no channel. *)
Record gcRequest : Type := mkGcRequest {
  dryRun : bool;
  auto : bool;
  gcDone : option (option string * option bytes);
}.

(** Where a runner is: about to run a pass before or after a flush ([late]), with the
    request it took, about to take the wish for a flush, in the parts of a flush, or at
    the check at the end of a turn. *)
Inductive runnerAt : Type :=
| AtGc (late : bool)
| AtPass (late : bool) (req : nat)
| AtTake
| AtCapture
| AtPrepare (b : FlushBatch)
| AtAbort
| AtPublish (b : FlushBatch) (ts : list CfTree) (root : bytes)
| AtAuto
| AtCheck.

(** [gcReqs] are all requests made and [gcQueue] those that wait, by their place in
    [gcReqs]; [runners] are the goroutines of [flushLoop] that run. [GcMaxAgeSecs] and
    [GcMaxRootCount] are settings of the store. *)
Record Engine : Type := mkTE {
  KV : KVStore B;
  flushing : bool;
  flushWant : bool;
  gcReqs : list gcRequest;
  gcQueue : list nat;
  runners : list runnerAt;
}.
Context (GcMaxAgeSecs GcMaxRootCount : Z).
Implicit Types e : Engine.

Definition withKV e (kv : KVStore B) : Engine := mkTE kv (flushing e) (flushWant e) (gcReqs e) (gcQueue e) (runners e).
Definition withRunners e (l : list runnerAt) : Engine := mkTE (KV e) (flushing e) (flushWant e) (gcReqs e) (gcQueue e) l.

(** Sets [flushing] and starts a runner when there is none. *)
Definition start e : Engine :=
  if flushing e then e else mkTE (KV e) true (flushWant e) (gcReqs e) (gcQueue e) (runners e ++ [AtGc false]).

Definition requestFlush e : Engine := start (mkTE (KV e) (flushing e) true (gcReqs e) (gcQueue e) (runners e)).

(** Whether a request of a flush waits already. *)
Definition autoWaits e : bool := existsb (fun i => match gcReqs e !! i with Some r => auto r | None => false end) (gcQueue e).

Definition requestGc e (dry isAuto : bool) : Engine :=
  if isAuto && autoWaits e then e
  else start (mkTE (KV e) (flushing e) (flushWant e) (gcReqs e ++ [mkGcRequest dry isAuto None]) (gcQueue e ++ [length (gcReqs e)]) (runners e)).

(** The closing of a request's channel; a request of a flush has none. *)
Definition finish e (i : nat) (err : option string) (report : option bytes) : Engine :=
  match gcReqs e !! i with
  | Some r => if auto r then e
              else mkTE (KV e) (flushing e) (flushWant e) (<[i := mkGcRequest (dryRun r) (auto r) (Some (err, report))]> (gcReqs e)) (gcQueue e) (runners e)
  | None => e
  end.

(** A pass of the collector for a request taken from the queue. The store has pages. *)
Definition pass e (i : nat) : res Engine :=
  match gcReqs e !! i with
  | None => Ok e
  | Some r =>
      let kv := KV e in
      if kvReadOnly kv then Ok (finish e i (Some "read-only"%string) None)
      else if flushActive kv then
        if auto r then Ok (finish e i None None) else Ok (finish e i (Some "flush in progress"%string) None)
      else if auto r && negb (HasOldRoots (PS kv) GcMaxAgeSecs GcMaxRootCount) then Ok (finish e i None None)
      else match GcFull (PS kv) GcMaxAgeSecs GcMaxRootCount (dryRun r) with
           | Ok (report, s) => Ok (finish (withKV e (withPS kv s)) i None report)
           | Err msg => Ok (finish e i (Some msg) None)
           | Panic => Panic
           | Diverge => Diverge
           end
  end.

(** One step of a runner at [at_]: the state and where it goes on, if anywhere. [fuel]
    and [now] are for the preparation of a flush. *)
Definition runnerStep (fuel : nat) (now : clock) e (at_ : runnerAt) : res (Engine * option runnerAt) :=
  match at_ with
  | AtGc late =>
      match gcQueue e with
      | [] => Ok (e, Some (if late then AtCheck else AtTake))
      | i :: rest => Ok (mkTE (KV e) (flushing e) (flushWant e) (gcReqs e) rest (runners e), Some (AtPass late i))
      end
  | AtPass late i => e ← pass e i; Ok (e, Some (if late then AtCheck else AtTake))
  | AtTake =>
      let e' := mkTE (KV e) (flushing e) false (gcReqs e) (gcQueue e) (runners e) in
      Ok (e', Some (if flushWant e then AtCapture else AtCheck))
  | AtCapture =>
      '(b, kv) ← CaptureFlush (KV e);
      Ok (withKV e kv, Some (match b with Some b => AtPrepare b | None => AtGc true end))
  | AtPrepare b =>
      match PrepareFlush fuel (KV e) b now with
      | Ok (b, ts, root, kv) => Ok (withKV e kv, Some (AtPublish b ts root))
      | Err _ => Ok (e, Some AtAbort)
      | Panic => Panic
      | Diverge => Diverge
      end
  | AtAbort => Ok (withKV e (AbortFlush (KV e)), Some (AtGc true))
  | AtPublish b ts root => Ok (withKV e (PublishFlush (KV e) b ts root), Some AtAuto)
  | AtAuto => Ok (requestGc e false true, Some (AtGc true))
  | AtCheck =>
      if negb (flushWant e) && Nat.eqb (length (gcQueue e)) 0
      then Ok (mkTE (KV e) false (flushWant e) (gcReqs e) (gcQueue e) (runners e), None)
      else Ok (e, Some (AtGc false))
  end.

(** What [BatchWrite] of the datom engine (eavt/write.go) does to the store, under the
    lock of the engine: the entries of the first family are journalled, all are inserted. *)
Definition logged (entries : list CfKey) : list CfKey := filter (fun en => en.1 = 0%nat) entries.
Definition engineWrite (kv : KVStore B) (entries : list CfKey) : res (KVStore B) :=
  match entries with [] => Ok kv | _ => BatchWrite (JournalOnly kv (logged entries)) entries false end.

(** Steps: a request, a write of entries to the store with the request for a flush it
    may make, the index keys a start derives from the entries it finds
    ([RecoverWriteState]), and a step of the [k]th runner. *)
Inductive rop : Type :=
| OpFlush
| OpGc (dry : bool)
| OpWrite (entries : list CfKey)
| OpExpand (entries : list CfKey)
| OpRun (k : nat) (fuel : nat) (now : clock).

Definition rstep e (o : rop) : res Engine :=
  match o with
  | OpFlush => Ok (requestFlush e)
  | OpGc dry => Ok (requestGc e dry false)
  | OpWrite entries =>
      kv ← engineWrite (KV e) entries;
      let e' := withKV e kv in
      Ok (if Nat.ltb (flushRequests (KV e)) (flushRequests kv) then requestFlush e' else e')
  | OpExpand entries => kv ← ApplyJournalRecordsExpanded (KV e) entries; Ok (withKV e kv)
  | OpRun k fuel now =>
      match runners e !! k with
      | None => Ok e
      | Some at_ =>
          '(e', next) ← runnerStep fuel now e at_;
          Ok (withRunners e' (take k (runners e') ++ match next with Some a => [a] | None => [] end ++ drop (S k) (runners e')))
      end
  end.

(** [flushSync] and [Close] wait for this. *)
Definition drainedB e : bool := negb (flushing e).

Definition NewEngine (kv : KVStore B) : Engine := mkTE kv false false [] [] [].

Inductive treach : Engine → Prop :=
| TOpen kv : flushActive kv = false → treach (NewEngine kv)
| TStep e o e' : treach e → rstep e o = Ok e' → treach e'.

(** ** One runner, and its work *)

(** Whether a runner has captured a flush and not yet ended it. *)
Definition midFlush (a : runnerAt) : bool := match a with AtPrepare _ | AtAbort | AtPublish _ _ _ => true | _ => false end.

(** The request a runner has taken. *)
Definition inPass (a : runnerAt) : list nat := match a with AtPass _ i => [i] | _ => [] end.

Definition answered e (i : nat) : Prop := ∃ r, gcReqs e !! i = Some r ∧ (auto r = true ∨ is_Some (gcDone r)).

Record runInv e : Prop := {
  ru_one : (flushing e = false ∧ runners e = []) ∨ (flushing e = true ∧ ∃ a, runners e = [a]);
  ru_active : ∀ a, a ∈ runners e → flushActive (KV e) = midFlush a;
  ru_idle : flushing e = false → flushActive (KV e) = false ∧ flushWant e = false ∧ gcQueue e = [];
  ru_queue : Forall (fun i => (i < length (gcReqs e))%nat) (gcQueue e);
  ru_waits : ∀ i, (i < length (gcReqs e))%nat → answered e i ∨ i ∈ gcQueue e ∨ ∃ a, a ∈ runners e ∧ i ∈ inPass a;
}.

Lemma journalDeliver_active (kv : KVStore B) es : flushActive (journalDeliver kv es) = flushActive kv.
Proof. unfold journalDeliver. by destruct (wal kv). Qed.

Lemma BatchWrite_active (kv : KVStore B) es j kv' : BatchWrite kv es j = Ok kv' → flushActive kv' = flushActive kv.
Proof.
  unfold BatchWrite. intros E. apply res_bind_Ok in E as ([mt size]&_&[= <-]). unfold maybeArmFlush. destruct (_ && _); cbn;
    repeat (destruct (_ && _ && _)); by rewrite ?journalDeliver_active.
Qed.

Lemma engineWrite_active (kv : KVStore B) es kv' : engineWrite kv es = Ok kv' → flushActive kv' = flushActive kv.
Proof.
  unfold engineWrite. destruct es as [|en es]; [by intros [= <-]|]. intros E%BatchWrite_active. rewrite E. unfold JournalOnly.
  destruct (_ && _); [apply journalDeliver_active|done].
Qed.

Lemma CaptureFlush_active (kv : KVStore B) b kv' : CaptureFlush kv = Ok (b, kv') →
  match b with Some _ => flushActive kv' = true | None => flushActive kv' = flushActive kv end.
Proof.
  unfold CaptureFlush. destruct (_ || _); [by intros [= <- <-]|]. intros E. apply res_bind_Ok in E as ([mt cap]&_&E). cbv beta iota in E.
  revert E. cbn. destruct (wal kv) as [w|]; [|by intros [= <- <-]]. destruct (Seal w). by intros [= <- <-].
Qed.

Lemma PrepareFlush_active fuel (kv : KVStore B) b now b' ts root kv' : PrepareFlush fuel kv b now = Ok (b', ts, root, kv') → flushActive kv' = flushActive kv.
Proof.
  unfold PrepareFlush. intros E. apply res_bind_Ok in E as (b1&_&E). repeat (apply res_bind_Ok in E as ([[??]?]&_&E); cbv beta iota in E).
  destruct (_ || _) in E; [|by injection E as _ _ _ <-]. apply res_bind_Ok in E as ([[??]?]&_&E). cbv beta iota in E. by injection E as _ _ _ <-.
Qed.

Lemma finish_same e i err rep :
  KV (finish e i err rep) = KV e ∧ flushing (finish e i err rep) = flushing e ∧ flushWant (finish e i err rep) = flushWant e
  ∧ gcQueue (finish e i err rep) = gcQueue e ∧ runners (finish e i err rep) = runners e ∧ length (gcReqs (finish e i err rep)) = length (gcReqs e)
  ∧ (∀ j, answered e j → answered (finish e i err rep) j) ∧ ((i < length (gcReqs e))%nat → answered (finish e i err rep) i).
Proof.
  unfold finish. destruct (gcReqs e !! i) as [r|] eqn:Er; [destruct (auto r) eqn:Ea|]; split_and!; try done.
  - intros _. exists r. auto.
  - cbn. by rewrite length_insert.
  - intros j (r'&Hr'&Hd). unfold answered. cbn. destruct (decide (j = i)) as [->|]; [|rewrite list_lookup_insert_ne by done; eauto].
    rewrite list_lookup_insert_eq by (by eapply lookup_lt_Some). eexists. split; [done|]. right. by eexists.
  - intros Hi. unfold answered. cbn. rewrite list_lookup_insert_eq by done. eexists. split; [done|]. right. by eexists.
  - intros Hi. apply lookup_lt_is_Some_2 in Hi as [? ?]. congruence.
Qed.

(** A pass touches neither the flags nor the queue, and answers its request. *)
Lemma pass_same e i e' : pass e i = Ok e' →
  flushActive (KV e') = flushActive (KV e) ∧ flushing e' = flushing e ∧ flushWant e' = flushWant e ∧ gcQueue e' = gcQueue e ∧ runners e' = runners e
  ∧ length (gcReqs e') = length (gcReqs e) ∧ (∀ j, answered e j → answered e' j) ∧ ((i < length (gcReqs e))%nat → answered e' i).
Proof.
  intros E. unfold pass in E. destruct (gcReqs e !! i) as [r|] eqn:Er.
  2: { injection E as <-. split_and!; try done. intros Hi. apply lookup_lt_is_Some_2 in Hi as [? ?]. congruence. }
  assert (∀ err rep e0, KV e0 = KV e ∨ (∃ s, KV e0 = withPS (KV e) s) → flushing e0 = flushing e → flushWant e0 = flushWant e → gcQueue e0 = gcQueue e →
    runners e0 = runners e → gcReqs e0 = gcReqs e → e' = finish e0 i err rep →
    flushActive (KV e') = flushActive (KV e) ∧ flushing e' = flushing e ∧ flushWant e' = flushWant e ∧ gcQueue e' = gcQueue e ∧ runners e' = runners e
    ∧ length (gcReqs e') = length (gcReqs e) ∧ (∀ j, answered e j → answered e' j) ∧ ((i < length (gcReqs e))%nat → answered e' i)) as G.
  { intros err rep e0 Hk E1 E2 E3 E4 E5 ->. destruct (finish_same e0 i err rep) as (H1&H2&H3&H4&H5&H6&H7&H8). rewrite H1, H2, H3, H4, H5, H6, E1, E2, E3, E4, E5.
    split_and!; try done; [by destruct Hk as [-> |[s ->]]| |by rewrite E5 in H8]. intros j (r'&Hr'&Hd). apply H7. exists r'. by rewrite E5. }
  destruct (kvReadOnly (KV e)); [injection E as E; symmetry in E; by eapply (G _ _ e); [by left|done..|exact E]|].
  destruct (flushActive (KV e)); [destruct (auto r); injection E as E; symmetry in E; by eapply (G _ _ e); [by left|done..|exact E]|].
  destruct (auto r && _); [injection E as E; symmetry in E; by eapply (G _ _ e); [by left|done..|exact E]|].
  destruct (GcFull _ _ _ _) as [[rep s]|msg| |]; [| |done..]; injection E as E; symmetry in E.
  - eapply (G _ _ (withKV e (withPS (KV e) s))); [right; by eexists|done..|exact E].
  - by eapply (G _ _ e); [by left|done..|exact E].
Qed.

Lemma start_cases e : flushing e = true ∧ start e = e ∨ flushing e = false ∧ start e = mkTE (KV e) true (flushWant e) (gcReqs e) (gcQueue e) (runners e ++ [AtGc false]).
Proof. unfold start. destruct (flushing e) eqn:E; [by left|by right]. Qed.

(** New work, with or without a new request. *)
Lemma runInv_start e (want : bool) (more : list gcRequest) (q : list nat) :
  runInv e → Forall (fun i => (i < length (gcReqs e ++ more))%nat) (gcQueue e ++ q) → (∀ i, (length (gcReqs e) ≤ i < length (gcReqs e ++ more))%nat → i ∈ q) →
  runInv (start (mkTE (KV e) (flushing e) want (gcReqs e ++ more) (gcQueue e ++ q) (runners e))).
Proof.
  intros [H1 H2 H3 H4 H5] Hq Hm.
  assert (∀ i rs, (∀ a, a ∈ runners e → a ∈ rs) → (i < length (gcReqs e ++ more))%nat →
    answered (mkTE (KV e) true want (gcReqs e ++ more) (gcQueue e ++ q) rs) i ∨ i ∈ gcQueue e ++ q ∨ ∃ a, a ∈ rs ∧ i ∈ inPass a) as G.
  { intros i rs Hrs Hi. destruct (decide (i < length (gcReqs e))%nat) as [Hl|Hl]; [|right; left; apply elem_of_app; right; apply Hm; lia].
    destruct (H5 i Hl) as [(r&Hr&Hd)|[Hin|(a&Ha&Hin)]]; [left|right; left; set_solver|right; right; exists a; by split; [apply Hrs|]].
    exists r. split; [by apply lookup_app_l_Some|done]. }
  destruct (start_cases (mkTE (KV e) (flushing e) want (gcReqs e ++ more) (gcQueue e ++ q) (runners e))) as [[Ef ->]|[Ef ->]]; cbn [flushing] in Ef; rewrite ?Ef.
  - constructor; cbn [flushing flushWant runners KV gcQueue gcReqs]; [by rewrite Ef in H1|done|done|done|]. intros i Hi. by apply G.
  - destruct (H3 Ef) as (Ha&_). destruct H1 as [[_ Er]|[? _]]; [|congruence].
    constructor; cbn [flushing flushWant runners KV gcQueue gcReqs]; [right; rewrite Er; split; [done|by eexists]| |done|done|].
    + intros a Hin. rewrite Er in Hin. apply list_elem_of_singleton in Hin as ->. done.
    + intros i Hi. apply G; [set_solver|done].
Qed.

Lemma runInv_flush e : runInv e → runInv (requestFlush e).
Proof.
  intros Hi. unfold requestFlush. pose proof (runInv_start e true [] []) as H. rewrite !app_nil_r in H. apply H; [done|apply Hi|intros i Hx; lia].
Qed.

Lemma runInv_gc e dry a : runInv e → runInv (requestGc e dry a).
Proof.
  intros Hi. unfold requestGc. destruct (a && autoWaits e); [done|]. apply runInv_start; [done| |].
  - rewrite length_app. cbn. apply Forall_app. split; [|by constructor; [lia|constructor]]. eapply Forall_impl; [apply Hi|]. cbn. lia.
  - intros i Hx. rewrite length_app in Hx. cbn in Hx. apply list_elem_of_singleton. lia.
Qed.

(** A step of the one runner. *)
Lemma runInv_run e a fuel now e' next : runners e = [a] → runInv e → runnerStep fuel now e a = Ok (e', next) →
  runInv (withRunners e' (match next with Some a => [a] | None => [] end)).
Proof.
  intros Er [H1 H2 H3 H4 H5] E. destruct H1 as [[_ ?]|[Ef _]]; [congruence|]. specialize (H2 a ltac:(rewrite Er; by left)).
  assert (∀ i, (i < length (gcReqs e))%nat → answered e i ∨ i ∈ gcQueue e ∨ i ∈ inPass a) as H5'.
  { intros i Hi. destruct (H5 i Hi) as [?|[?|(a'&Ha'&?)]]; [tauto..|]. rewrite Er in Ha'. apply list_elem_of_singleton in Ha' as ->. tauto. }
  assert (∀ kv want b, flushActive kv = midFlush b → inPass a = [] → inPass b = [] → runInv (mkTE kv true want (gcReqs e) (gcQueue e) [b])) as Hgo.
  { intros kv want b Hk Hin Hin'. constructor; cbn; [right; split; [done|by eexists]| |done|done|].
    - intros x ->%list_elem_of_singleton. done.
    - intros i Hi. rewrite Hin in H5'. destruct (H5' i Hi) as [?|[?|?]]; [by left|by right; left|set_solver]. }
  destruct a as [late|late i| | |b| |b ts root| |]; cbn [runnerStep] in E.
  - destruct (gcQueue e) as [|i rest] eqn:Eq.
    + injection E as <- <-. unfold withRunners. rewrite Ef, Eq. pose proof (Hgo (KV e) (flushWant e) (if late then AtCheck else AtTake)) as H.
      apply H; by destruct late.
    + injection E as <- <-. constructor; cbn; [right; split; [done|by eexists]| |by rewrite Ef|by inversion H4|].
      * intros x ->%list_elem_of_singleton. done.
      * intros j Hj. destruct (H5' j Hj) as [?|[Hin|?]]; [by left| |set_solver]. apply elem_of_cons in Hin as [->|?]; [|by right; left].
        right; right. exists (AtPass late i). split; set_solver.
  - apply res_bind_Ok in E as (e1&Ep&[= <- <-]). apply pass_same in Ep as (P1&P2&P3&P4&P5&P6&P7&P8). cbn [inPass] in H5'.
    assert (∀ b, b = AtCheck ∨ b = AtTake → runInv (withRunners e1 [b])) as G; [|by apply G; destruct late; auto].
    intros b Hb. assert (inPass b = [] ∧ midFlush b = false) as [Hb1 Hb2] by (by destruct Hb as [-> | ->]).
    constructor; cbn; [right; rewrite P2; split; [done|by eexists]| |by rewrite P2, Ef|by rewrite P4, P6|].
    + intros x ->%list_elem_of_singleton. by rewrite P1, H2, Hb2.
    + intros j Hj. rewrite P6 in Hj. rewrite P4. destruct (H5' j Hj) as [Ha|[?| ->%list_elem_of_singleton]]; [left; by apply P7|by right; left|left; by apply P8].
  - injection E as <- <-. unfold withRunners. cbn. rewrite Ef. apply Hgo; by destruct (flushWant e).
  - apply res_bind_Ok in E as ([b kv]&Ec&[= <- <-]). apply CaptureFlush_active in Ec. unfold withRunners, withKV. cbn. rewrite Ef.
    destruct b; apply Hgo; try done. by rewrite Ec, H2.
  - destruct (PrepareFlush fuel (KV e) b now) as [[[[b' ts] root] kv]|msg| |] eqn:Ep; [| |done..]; injection E as <- <-; unfold withRunners, withKV; cbn; rewrite Ef;
      apply Hgo; try done. by rewrite (PrepareFlush_active _ _ _ _ _ _ _ _ Ep).
  - injection E as <- <-. unfold withRunners, withKV. cbn. rewrite Ef. by apply Hgo.
  - injection E as <- <-. unfold withRunners, withKV. cbn. rewrite Ef. apply Hgo; try done. unfold PublishFlush. by destruct (_ >=? _).
  - injection E as <- <-.
    assert (runInv (withRunners e [AtGc true])) as Hi by (unfold withRunners; rewrite Ef; by apply Hgo).
    pose proof (runInv_gc _ false true Hi) as Hg. replace (withRunners (requestGc e false true) [AtGc true]) with (requestGc (withRunners e [AtGc true]) false true); [done|].
    unfold requestGc, withRunners. cbn [KV flushing flushWant gcReqs gcQueue runners]. change (autoWaits (mkTE _ _ _ (gcReqs e) (gcQueue e) _)) with (autoWaits e).
    destruct (autoWaits e); cbn [andb]; [done|]. unfold start. cbn [KV flushing flushWant gcReqs gcQueue runners]. by rewrite Ef.
  - destruct (flushWant e) eqn:Ew; cbn [negb andb] in E; [|destruct (Nat.eqb_spec (length (gcQueue e)) 0) as [E0|]]; injection E as <- <-.
    + unfold withRunners. rewrite Ef. by apply Hgo.
    + apply length_zero_iff_nil in E0. constructor; cbn; [by left|intros x Hx; by apply not_elem_of_nil in Hx|done|done|].
      intros i Hi. destruct (H5' i Hi) as [?|[Hin|Hin]]; [by left|rewrite E0 in Hin|]; set_solver.
    + unfold withRunners. rewrite Ef. by apply Hgo.
Qed.

Lemma runnerStep_runners e a fuel now e' next : flushing e = true → runnerStep fuel now e a = Ok (e', next) → runners e' = runners e.
Proof.
  intros Ef E. destruct a as [late|late i| | |b| |b ts root| |]; cbn [runnerStep] in E.
  - by destruct (gcQueue e); injection E as <- _.
  - apply res_bind_Ok in E as (e1&Ep&[= <- _]). by apply pass_same in Ep as (_&_&_&_&P5&_).
  - by injection E as <- _.
  - by apply res_bind_Ok in E as ([? ?]&_&[= <- _]).
  - by destruct (PrepareFlush fuel (KV e) b now) as [[[[? ?] ?] ?]| | |]; [| |done..]; injection E as <- _.
  - by injection E as <- _.
  - by injection E as <- _.
  - injection E as <- _. unfold requestGc. destruct (true && autoWaits e); [done|]. unfold start. cbn. by rewrite Ef.
  - by destruct (_ && _); injection E as <- _.
Qed.

Lemma runInv_step e o e' : runInv e → rstep e o = Ok e' → runInv e'.
Proof.
  intros Hi E. destruct o as [|dry|entries|entries|k fuel now]; cbn [rstep] in E.
  - injection E as <-. by apply runInv_flush.
  - injection E as <-. by apply runInv_gc.
  - apply res_bind_Ok in E as (kv&Eb&[= <-]). apply engineWrite_active in Eb.
    assert (runInv (withKV e kv)) as Hk. { destruct Hi as [H1 H2 H3 H4 H5]. constructor; cbn; rewrite ?Eb; done. }
    destruct (Nat.ltb _ _); [by apply runInv_flush|done].
  - apply res_bind_Ok in E as (kv&Eb&[= <-]). assert (flushActive kv = flushActive (KV e)) as Ea.
    { unfold ApplyJournalRecordsExpanded in Eb. destruct (nonEmpty _); [|by injection Eb as <-]. by apply res_bind_Ok in Eb as ([? ?]&_&[= <-]). }
    destruct Hi as [H1 H2 H3 H4 H5]. constructor; cbn; rewrite ?Ea; done.
  - destruct (runners e !! k) as [a|] eqn:Ek; [|by injection E as <-]. apply res_bind_Ok in E as ([e1 next]&Es&[= <-]).
    destruct (ru_one e Hi) as [[_ Er]|[Ef [a' Er]]]; rewrite Er in Ek; [done|]. apply list_lookup_singleton_Some in Ek as [-> ->].
    pose proof (runInv_run e a fuel now e1 next Er Hi Es) as H.
    assert (runners e1 = [a]) as ->; [|by rewrite app_nil_r].
    by rewrite (runnerStep_runners e a fuel now e1 next Ef Es).
Qed.

Lemma treach_inv e : treach e → runInv e.
Proof.
  induction 1 as [kv Ha|e o e' _ IH E]; [|by eapply runInv_step]. constructor; cbn; [by left|intros a Hx; by apply not_elem_of_nil in Hx|done|done|lia].
Qed.

(** ** The end of the work *)

(** A bound on the steps a runner has left when nothing more is asked for. *)
Definition stepsLeft e (a : runnerAt) : nat :=
  let w := if flushWant e then 30%nat else 0%nat in
  let q := (8 * length (gcQueue e))%nat in
  let none := negb (flushWant e) && Nat.eqb (length (gcQueue e)) 0 in
  let take := (if flushWant e then 18 + q else if none then 2 else 4 + q)%nat in
  match a with
  | AtGc false => if none then 3%nat else (2 + q + w)%nat
  | AtPass false _ => S take
  | AtTake => take
  | AtCapture => (17 + q + w)%nat
  | AtPrepare _ => (16 + q + w)%nat
  | AtPublish _ _ _ => (15 + q + w)%nat
  | AtAuto => (14 + q + w)%nat
  | AtAbort => (6 + q + w)%nat
  | AtGc true => (5 + q + w)%nat
  | AtPass true _ => (4 + q + w)%nat
  | AtCheck => if none then 1%nat else (3 + q + w)%nat
  end.

Lemma stepsLeft_pos e a : (0 < stepsLeft e a)%nat.
Proof. unfold stepsLeft. destruct a as [[]|[] ?| | |?| |? ? ?| |]; destruct (flushWant e), (Nat.eqb (length (gcQueue e)) 0); cbn; lia. Qed.

Lemma requestGc_queue e : flushWant (requestGc e false true) = flushWant e ∧ (length (gcQueue (requestGc e false true)) ≤ S (length (gcQueue e)))%nat.
Proof. unfold requestGc. destruct (true && autoWaits e); [lia|]. unfold start. destruct (flushing _); cbn; rewrite length_app; cbn; lia. Qed.

Lemma stepsLeft_less fuel now e a e' a' : runnerStep fuel now e a = Ok (e', Some a') → (stepsLeft e' a' < stepsLeft e a)%nat.
Proof.
  intros E. destruct a as [late|late i| | |b| |b ts root| |]; cbn [runnerStep] in E.
  - destruct (gcQueue e) as [|i rest] eqn:Eq; injection E as <- <-; unfold stepsLeft; cbn [gcQueue flushWant]; rewrite ?Eq; cbn [length];
      destruct late, (flushWant e); cbn [negb andb Nat.eqb]; try lia. destruct (length rest); cbn; lia.
  - apply res_bind_Ok in E as (e1&Ep&[= <- <-]). apply pass_same in Ep as (_&_&P3&P4&_). unfold stepsLeft. rewrite P3, P4. destruct late; [|lia].
    destruct (_ && _); lia.
  - injection E as <- <-. unfold stepsLeft. cbn. destruct (flushWant e); cbn; [lia|]. destruct (Nat.eqb _ _); lia.
  - apply res_bind_Ok in E as ([b kv]&_&[= <- <-]). destruct b; unfold stepsLeft; cbn; lia.
  - destruct (PrepareFlush fuel (KV e) b now) as [[[[? ?] ?] ?]| | |]; [| |done..]; injection E as <- <-; unfold stepsLeft; cbn; lia.
  - injection E as <- <-. unfold stepsLeft; cbn; lia.
  - injection E as <- <-. unfold stepsLeft; cbn; lia.
  - injection E as <- <-. destruct (requestGc_queue e) as [E1 E2]. unfold stepsLeft. rewrite E1. lia.
  - destruct (negb (flushWant e) && Nat.eqb (length (gcQueue e)) 0) eqn:En; [done|]. injection E as <- <-. unfold stepsLeft. rewrite En. lia.
Qed.

(** The runner alone, with the fuel and the time of each step. *)
Fixpoint runAlone (sched : list (nat * clock)) e : res Engine :=
  match sched with
  | [] => Ok e
  | (fuel, now) :: sched' => e ← rstep e (OpRun 0 fuel now); runAlone sched' e
  end.

Definition allAnswered e : Prop := ∀ i, (i < length (gcReqs e))%nat → answered e i.

Lemma idle_answered e : runInv e → flushing e = false → allAnswered e.
Proof.
  intros [H1 H2 H3 H4 H5] Ef i Hi. destruct (H3 Ef) as (_&_&Hq). destruct H1 as [[_ Er]|[? _]]; [|congruence].
  destruct (H5 i Hi) as [?|[Hin|(a&Ha&_)]]; [done|rewrite Hq in Hin|rewrite Er in Ha]; set_solver.
Qed.

(** A pass of the collector and a flush never run at the same time, whatever is
    asked for and written meanwhile: there is at most one runner, and exactly one while
    the engine says it is flushing; when the runner runs a pass no flush is captured
    and unpublished, so that no pass is refused for one; and when there is no runner
    nothing is left to do: no flush is wanted, no pass waits, and every pass asked for
    by hand has its answer. *)
Theorem passes_between_flushes e : treach e →
  (length (runners e) = if flushing e then 1 else 0)%nat
  ∧ (∀ late i, AtPass late i ∈ runners e → flushActive (KV e) = false)
  ∧ (flushing e = false → flushWant e = false ∧ gcQueue e = [] ∧ allAnswered e).
Proof.
  intros Hi%treach_inv. split_and!.
  - destruct (ru_one e Hi) as [[-> ->]|[-> [a ->]]]; done.
  - intros late i Hin. by rewrite (ru_active e Hi _ Hin).
  - intros Ef. destruct (ru_idle e Hi Ef) as (_&?&?). split_and!; [done..|by apply idle_answered].
Qed.

Lemma runAlone_idle sched e : runners e = [] → runAlone sched e = Ok e.
Proof. intros E. induction sched as [|[fuel now] sched IH]; [done|]. cbn [runAlone rstep]. rewrite E. exact IH. Qed.
End runner.

Import samples kvSamples.

Module runnerSamples.
(** A store with entries, a pass asked for by hand and a flush. *)
Definition sampleWork : res Engine :=
  kv ← sampleWritten;
  e ← rstep 86400 10 (NewEngine kv) (OpGc true);
  rstep 86400 10 e OpFlush.

Lemma sample_work : ∃ e a, sampleWork = Ok e ∧ treach 86400 10 e ∧ runners e = [a].
Proof.
  unfold sampleWork. destruct sample_written as (kv&->&Hr). apply reach_inv in Hr as (ab&c&dc&m0&S&lost&gone&w&Hi). pose proof (ki_pend _ _ _ _ _ _ _ _ _ _ _ Hi) as [Ha _].
  rewrite !res_bind_ret. cbn [rstep]. rewrite res_bind_ret. eexists _, _. split; [done|]. split; [|reflexivity].
  eapply (TStep _ _ _ OpFlush); [|reflexivity]. eapply (TStep _ _ _ (OpGc true)); [|reflexivity]. by apply TOpen.
Qed.
End runnerSamples.
Import runnerSamples.

Lemma passes_between_flushes_witness :
  ∃ e, sampleWork = Ok e ∧ length (runners e) = 1%nat.
Proof.
  destruct sample_work as (e&a&E&Hr&Ea). exists e. split; [done|]. destruct (passes_between_flushes 86400 10 e Hr) as (H&_). rewrite H.
  destruct (flushing e); [done|]. rewrite Ea in H. discriminate.
Defined.
