(* ===== verification/RunnerSpec.v ===== *)
(** * The store under the runner

    Writes, reads, flushes, passes of the collector, turns of the log and crashes in any
    order: no entry is lost, and the runner comes to an end. *)

From S2P Require Import Prelude Pages FlatLeaf PageCache BlobStore PageStore PageTree PageCommit Gc NewestWins Memtable Journal Wal KvStore KvSpec Runner.

Section store.
Context {B : Type} `{HB : BlobStore B} `{HL : !BlobLaws B} `{HZ : Zstd} `{HZL : !ZstdLaws}.
Implicit Types (s : Store B) (kv : KVStore B) (b : FlushBatch) (W : list CfKey).

(** ** The roots on disk *)

(** Every root can be read, and the trees it lists can be walked. *)
Definition rootsWhole s : Prop :=
  ∀ name, is_root_name name → is_Some (rootsOf (blobs s) name) → ∃ ts, root_trees s name ts ∧ Forall (tree_whole (blobs s)) ts.

(** The newest root, which has the least name, lists [ts]. *)
Definition newestIs s (ts : list CfTree) : Prop :=
  ∃ name, is_root_name name ∧ root_trees s name ts ∧ ∀ r, is_root_name r → is_Some (rootsOf (blobs s) r) → name <=b r.

Lemma root_trees_there s name ts : binv (blobs s) → is_root_name name → root_trees s name ts → is_Some (rootsOf (blobs s) name).
Proof. intros Hb Hn (data&Hg&_). unfold blobGetRoot in Hg. rewrite getRoot_law, res_bind_ret in Hg by done. by destruct (rootsOf _ _). Qed.

Lemma root_trees_fun s name ts ts' : root_trees s name ts → root_trees s name ts' → ts = ts'.
Proof. intros (d&Hg&Hd) (d'&Hg'&Hd'). rewrite Hg in Hg'. injection Hg' as <-. rewrite Hd in Hd'. by injection Hd'. Qed.

Lemma root_trees_same s s' name ts :
  binv (blobs s) → binv (blobs s') → is_root_name name → rootsOf (blobs s') name = rootsOf (blobs s) name → root_trees s name ts → root_trees s' name ts.
Proof. intros Hb Hb' Hn E (d&Hg&Hd). exists d. by rewrite (blobGetRoot_same s s'). Qed.

(** The newest root is the one [diskRoot] is about. *)
Lemma disk_name s t n dc name ts : binv (blobs s) → is_root_name name → root_trees s name ts →
  (∀ r, is_root_name r → is_Some (rootsOf (blobs s) r) → name <=b r) → diskRoot (blobs s) t n dc →
  trees_repr (blobs s) ts dc ∧ length ts = n ∧ 0 < t < 2 ^ 63 ∧ ∃ now, nanos now = t ∧ name = MakeRootName now.1 now.2.
Proof.
  intros Hb Hn Hr Hl (now&data&ts0&s0&Ht&Hpos&Hbl&Hg&Hd&Htr&Hlen&Hleast).
  assert (is_root_name (MakeRootName now.1 now.2)) as Hn0 by (apply MakeRootName_root; unfold nanos in Ht; lia).
  assert (root_trees s (MakeRootName now.1 now.2) ts0) as Hr0 by (exists data; unfold blobGetRoot in *; by rewrite <- Hbl).
  assert (name = MakeRootName now.1 now.2) as ->.
  { apply (anti_symm ble); [apply Hl; [done|by eapply root_trees_there]|apply Hleast; [done|by eapply root_trees_there]]. }
  rewrite (root_trees_fun s _ ts ts0 Hr Hr0). split_and!; try done; try lia. by exists now.
Qed.

Lemma newest_disk s ts t n dc : binv (blobs s) → newestIs s ts → diskRoot (blobs s) t n dc → trees_repr (blobs s) ts dc ∧ length ts = n.
Proof. intros Hb (name&Hn&Hr&Hl) Hd. by destruct (disk_name s t n dc name ts Hb Hn Hr Hl Hd) as (?&?&_). Qed.

Lemma disk_kept s s' t n dc name ts : binv (blobs s) → is_root_name name → root_trees s name ts →
  (∀ r, is_root_name r → is_Some (rootsOf (blobs s) r) → name <=b r) → diskRoot (blobs s) t n dc →
  root_trees s' name ts → (∀ r, is_root_name r → is_Some (rootsOf (blobs s') r) → is_Some (rootsOf (blobs s) r)) → trees_repr (blobs s') ts dc →
  diskRoot (blobs s') t n dc.
Proof.
  intros Hb Hn Hr Hl Hd Hr' Hless Htr. destruct (disk_name s t n dc name ts Hb Hn Hr Hl Hd) as (_&Hlen&Hpos&now&Ht&->).
  destruct Hr' as (d&Hg&Hdd). exists now, d, ts, s'. split_and!; auto; lia.
Qed.

(** ** A pass of the collector *)

Lemma sweep_dry s live ids : sweep s live true ids = (0, s).
Proof. induction ids as [|id ids IH]; [done|]. cbn [sweep]. by rewrite orb_true_r. Qed.

Lemma newest_kept roots name rest age count keep remove : roots = name :: rest → 0 ≤ age < 2 ^ 40 → ClassifyRoots roots age count = (keep, remove) → name ∈ keep.
Proof.
  intros -> Ha. unfold ClassifyRoots. intros E. apply classifyFrom_spec in E as (_&_&Hk). apply Hk. exists 0%nat. split; [done|].
  unfold kept. rewrite Z.sub_diag, (i64_small age), !i64_small by (unfold is_i64; lia). split; lia.
Qed.

(** What a pass that deletes leaves behind. *)
Definition collected s s' : Prop :=
  s' = withBlobs s (blobs s') ∧ store_ok s' ∧ rootsWhole s' ∧ newestIs s' (trees s)
  ∧ (∀ c, trees_repr (blobs s) (trees s) c → trees_repr (blobs s') (trees s) c)
  ∧ ∀ t n dc, diskRoot (blobs s) t n dc → diskRoot (blobs s') t n dc.

Lemma collected_refl s : store_ok s → rootsWhole s → newestIs s (trees s) → collected s s.
Proof. intros. split_and!; try done. by destruct s. Qed.

Lemma repr_kept s s' c : Forall (tree_kept (blobs s) (blobs s')) (trees s) → trees_repr (blobs s) (trees s) c → trees_repr (blobs s') (trees s) c.
Proof.
  intros Hk Ht cf t Hl. destruct (Ht cf t Hl) as [[Hok Hr] Hks]. split; [|done]. split; [done|]. destruct Hr as [?|Hr]; [by left|right].
  rewrite Forall_forall in Hk. apply Hk; [by eapply list_elem_of_lookup_2|done].
Qed.

Lemma GcFull_collects s age count dry : store_ok s → sReadOnly s = false → 0 ≤ age < 2 ^ 40 → rootsWhole s → newestIs s (trees s) →
  ∃ report s', GcFull s age count dry = Ok (report, s') ∧ collected s s'.
Proof.
  intros Hst Hro Hage Hw Hnew. pose proof (so_blobs s Hst) as Hb. pose proof Hnew as (name&Hn&Hr&Hleast).
  destruct (listRoots_law (blobs s) Hb) as (roots&El&Hasc&Hin).
  destruct (ascending_head roots name) as [rest Hroots]; [done|apply Hin; split; [done|by eapply root_trees_there]|intros y [??]%Hin; by apply Hleast|].
  destruct (ClassifyRoots roots age count) as [keep remove] eqn:Ec. pose proof (newest_kept _ _ _ _ _ _ _ Hroots Hage Ec) as Hkept.
  destruct (ClassifyRoots_parts _ _ _ _ _ Ec (ascending_NoDup _ Hasc)) as (_&Hparts&_).
  assert (∀ n, n ∈ keep → is_root_name n ∧ is_Some (rootsOf (blobs s) n)) as Hkr by (intros n Hk; apply Hin, Hparts; by left).
  destruct (markRoots_spec s keep ∅ Hb) as (live&Em&_&Hkeep); [intros n Hk; destruct (Hkr n Hk); by apply Hw|].
  destruct dry.
  { unfold GcFull. rewrite Hro, El, res_bind_ret, Hroots, <- Hroots, Ec, Em, res_bind_ret.
    destruct (list_law (blobs s) Hb) as (ids&->&_). rewrite res_bind_ret, sweep_dry. eexists _, s. split; [done|]. by apply collected_refl. }
  destruct (GcFull_spec s age count roots keep remove live) as (report&s'&E&Hb'&Hs'&Hl'&Ho&Hu&Hg); [done..|by rewrite Hroots|done|done|].
  assert (agree live (blobs s) (blobs s')) as Hag by (intros v Hv Hid; rewrite Ho, bool_decide_true by done; done).
  exists (Some report), s'. split; [done|].
  assert (∀ n ts, n ∈ keep → root_trees s n ts → root_trees s' n ts) as Hrt by (intros n ts Hk (d&Hgd&Hdd); exists d; by rewrite Hg).
  assert (∀ r, is_root_name r → is_Some (rootsOf (blobs s') r) → r ∈ keep) as Hback.
  { intros r Hrn Hs. destruct (listRoots_law (blobs s') Hb') as (ns&E'&_&Hns). rewrite Hl' in E'. injection E' as <-. by apply Hns. }
  pose proof (Hkeep (blobs s') name (trees s) Hag Hkept Hr) as Hkt. split_and!; [done| | | |by intros c; apply repr_kept|].
  - destruct Hst as [_ Hca Hco]. rewrite Hs'. constructor; [done|done|]. cbn [cache blobs withBlobs]. intros u e Hue. destruct (Hco u e Hue) as [Hus Hd].
    split; [by apply Hu|]. intros data (Hid&Hz&z&Hz1&Hz2). apply Hd. split_and!; [done|done|]. exists z. rewrite Ho in Hz1 by done. split; [|done]. by case_bool_decide.
  - intros r Hrn Hs. pose proof (Hback r Hrn Hs) as Hk. destruct (Hkr r Hk) as [_ Hs0]. destruct (Hw r Hrn Hs0) as (ts&Hts&Hwh).
    exists ts. split; [by apply Hrt|]. pose proof (Hkeep (blobs s') r ts Hag Hk Hts) as Hk2. rewrite Forall_forall in Hwh, Hk2 |- *.
    intros t Ht. destruct (Hwh t Ht) as [?|[ks Hks]]; [by left|right]. exists ks. by apply Hk2.
  - exists name. split_and!; [done|by apply Hrt|]. intros r Hrn Hs. apply Hleast; [done|]. by apply Hkr, Hback.
  - intros t n dc Hd. eapply (disk_kept s s' t n dc name (trees s)); try done; [by apply Hrt|intros r Hrn Hs; by apply Hkr, Hback|].
    apply repr_kept; [done|]. by eapply newest_disk.
Qed.
(** ** The invariant of the store between its operations *)

(** The trees of the newest root on disk. *)
Definition onDisk kv (p : pending) : list CfTree := match p with Prepared _ ts _ => ts | _ => trees (PS kv) end.

Definition diskInv (J W : list CfKey) kv (p : pending) (t : Z) : Prop :=
  (∃ ab c dc m0 S lost gone w, kinv J W (mkSys kv p t) ab c dc m0 S lost gone w)
  ∧ rootsWhole (PS kv) ∧ newestIs (PS kv) (onDisk kv p).

(** A step that leaves the pages alone. *)
Lemma diskInv_same J J' W W' kv kv' p p' t : (∃ ab c dc m0 S lost gone w, kinv J' W' (mkSys kv' p' t) ab c dc m0 S lost gone w) →
  blobs (PS kv') = blobs (PS kv) → onDisk kv' p' = onDisk kv p → diskInv J W kv p t → diskInv J' W' kv' p' t.
Proof.
  intros Hk Eb Ed (_&Hw&Hn). split; [done|]. rewrite Ed. unfold rootsWhole, newestIs, root_trees, blobGetRoot in *. rewrite Eb. done.
Qed.

Lemma diskInv_write J W kv p t es : diskInv J W kv p t → Forall entry_good es →
  ∃ kv', engineWrite kv es = Ok kv' ∧ diskInv (J ++ logged es) (W ++ es) kv' p t.
Proof.
  intros Hd Hes. pose proof Hd as ((ab&c&dc&m0&S&lost&gone&w&Hi)&_). destruct es as [|en es]; [exists kv; by rewrite !app_nil_r|].
  destruct (logged_inv J W kv p t (en :: es) (logged (en :: es)) ab c dc m0 S lost gone w Hi Hes) as (kv'&w'&E&EP&_&Hi');
    [by intros x [_ ?]%list_elem_of_filter|].
  exists kv'. split; [done|]. eapply (diskInv_same J _ W); [do 8 eexists; exact Hi'|by rewrite EP|unfold onDisk; by rewrite EP|exact Hd].
Qed.

Lemma diskInv_expand J W kv p t es : diskInv J W kv p t → Forall entry_good es →
  ∃ kv', ApplyJournalRecordsExpanded kv es = Ok kv' ∧ flushActive kv' = flushActive kv ∧ diskInv J (W ++ es) kv' p t.
Proof.
  intros Hd Hes. pose proof Hd as ((ab&c&dc&m0&S&lost&gone&w&Hi)&_).
  destruct (expand_inv J W kv p t es ab c dc m0 S lost gone w Hi Hes) as (kv'&E&EP&Ea&Hi').
  exists kv'. split; [done|]. split; [done|]. eapply (diskInv_same J _ W); [do 8 eexists; exact Hi'|by rewrite EP|unfold onDisk; by rewrite EP|exact Hd].
Qed.

Lemma diskInv_get J W kv p t cf k : diskInv J W kv p t → (cf < kvNumCf kv)%nat → bytes_ok k →
  ∃ there kv', Get kv cf k = Ok (there, kv') ∧ diskInv J W kv' p t ∧ (there = true ↔ (cf, k) ∈ W).
Proof.
  intros Hd Hcf Hk. pose proof Hd as ((ab&c&dc&m0&S&lost&gone&w&Hi)&_).
  destruct (get_inv _ _ _ _ _ _ _ _ _ _ _ _ _ _ _ Hi Hcf Hk) as (there&kv'&E&Hi'&Ht&Eb&Et). exists there, kv'. split; [done|]. split; [|done].
  eapply (diskInv_same J J W W kv kv' p p); [do 8 eexists; exact Hi'|done|by destruct p|exact Hd].
Qed.

Lemma diskInv_capture J W kv t : diskInv J W kv Idle t → ∃ b kv', CaptureFlush kv = Ok (Some b, kv') ∧ diskInv J W kv' (Captured b) t.
Proof.
  intros Hd. pose proof Hd as ((ab&c&dc&m0&S&lost&gone&w&Hi)&_). destruct (capture_inv _ _ _ _ _ _ _ _ _ _ _ _ Hi) as (b&kv'&E&w'&Hi').
  exists b, kv'. split; [done|]. assert (PS kv' = PS kv) as EP.
  { unfold CaptureFlush in E. destruct (_ || _); [done|]. apply res_bind_Ok in E as ([mt cap]&_&E). cbn in E.
    destruct (wal kv) as [w0|]; [destruct (Seal w0)|]; by injection E as _ <-. }
  eapply (diskInv_same J J W W kv kv' Idle (Captured b)); [do 8 eexists; exact Hi'|by rewrite EP|cbn; by rewrite EP|exact Hd].
Qed.

Lemma tree_whole_keeps (b b' : B) t : keeps b b' → tree_whole b t → tree_whole b' t.
Proof. intros Hk [?|[ks Hks]]; [by left|right]. exists ks. by eapply tree_keys_keeps. Qed.

Lemma repr_whole (b : B) ts c : trees_repr b ts c → Forall (tree_whole b) ts.
Proof.
  intros Ht. apply Forall_forall. intros t [cf Hl]%list_elem_of_lookup. destruct (Ht cf t Hl) as [[_ [[? _]|?]] _]; [by left|right; by eexists].
Qed.

Lemma diskInv_prepare J W kv b t fuel now : diskInv J W kv (Captured b) t → t < nanos now < 2 ^ 63 → roomy W kv b →
  ∃ b' ts root kv', PrepareFlush fuel kv b now = Ok (b', ts, root, kv') ∧ diskInv J W kv' (Prepared b' ts root) (nanos now).
Proof.
  intros ((ab&c&dc&m0&S&lost&gone&w&Hi)&Hw&_) Hnow Hroom.
  destruct (prepare_inv _ _ _ _ _ fuel now _ _ _ _ _ _ _ _ Hi Hnow Hroom) as (b'&ts&root&kv'&E&(Hrn&Hrt&Hk&Hold&Hleast)&dc'&Hi').
  exists b', ts, root, kv'. split; [done|]. split; [by do 8 eexists; exact Hi'|].
  pose proof (ki_pend _ _ _ _ _ _ _ _ _ _ _ Hi') as (_&_&Htr&_). cbn [skv] in Htr. split; [|cbn [onDisk]; exists root; by split_and!].
  intros name Hn Hs. destruct (decide (name = root)) as [->|Hne]; [exists ts; split; [done|by eapply repr_whole]|].
  pose proof Hs as Hs0. rewrite Hold in Hs0 by done. destruct (Hw name Hn Hs0) as (ts0&Hts0&Hwh). exists ts0. split.
  - eapply root_trees_same; [apply (so_blobs _ (ki_store _ _ _ _ _ _ _ _ _ _ _ Hi))|apply (so_blobs _ (ki_store _ _ _ _ _ _ _ _ _ _ _ Hi'))|done| |done]. by apply Hold.
  - eapply Forall_impl; [exact Hwh|]. intros tr. by apply tree_whole_keeps.
Qed.

Lemma diskInv_publish J W kv b ts root t : diskInv J W kv (Prepared b ts root) t → diskInv J W (PublishFlush kv b ts root) Idle t.
Proof.
  intros Hd. pose proof Hd as ((ab&c&dc&m0&S&lost&gone&w&Hi)&_).
  eapply (diskInv_same J J W W kv _ (Prepared b ts root) Idle); [do 8 eexists; exact (publish_inv _ _ _ _ _ _ _ _ _ _ _ _ _ _ _ Hi)| | |exact Hd]; unfold PublishFlush; by destruct (_ >=? _).
Qed.

Lemma diskInv_cycle J W kv p t w : diskInv J W kv p t → wal kv = Some w → diskInv J W (withWal kv (cycle w (WalDurableUpTo kv))) p t.
Proof.
  intros Hd Hw. pose proof Hd as ((ab&c&dc&m0&S&lost&gone&w'&Hi)&_).
  pose proof (ki_wal _ _ _ _ _ _ _ _ _ _ _ Hi) as Hw'. cbn [skv] in Hw'. rewrite Hw in Hw'. injection Hw' as <-.
  destruct (cycle_inv _ _ _ _ _ _ _ _ _ _ _ _ _ Hi) as (lost'&gone'&Hi'). eapply (diskInv_same J J W W kv _ p p); [do 8 eexists; exact Hi'|done|by destruct p|exact Hd].
Qed.

Lemma diskInv_gc J W kv t age count dry : diskInv J W kv Idle t → 0 ≤ age < 2 ^ 40 →
  ∃ report s', GcFull (PS kv) age count dry = Ok (report, s') ∧ diskInv J W (withPS kv s') Idle t.
Proof.
  intros ((ab&c&dc&m0&S&lost&gone&w&Hi)&Hw&Hn) Ha. cbn [onDisk] in Hn.
  destruct (GcFull_collects (PS kv) age count dry) as (report&s'&E&Hs'&Hst&Hw'&Hn'&Htr'&Hdisk'); [apply Hi|apply Hi|done..|].
  exists report, s'. split; [done|]. assert (trees s' = trees (PS kv) ∧ numCf s' = numCf (PS kv) ∧ sReadOnly s' = sReadOnly (PS kv)) as (Et&En&Er) by (by rewrite Hs'). split; [|split; [done|cbn; by rewrite Et]].
  exists ab, c, dc, m0, S, lost, gone, w. destruct Hi as [Hro Hpath Hnum Htl Hncf Hrg _ Hmt Htr Hgood Hhas Hlog Hlgd Hwal Hh Hwk Hlost Hdur Hdisk Hpend].
  constructor; cbn [skv spend sclock withPS kvReadOnly PS kvPath kvNumCf MT wal WalDurableUpTo] in *; rewrite ?Et, ?En, ?Er; auto.
Qed.
(** ** Opening *)

Lemma replayFiles_PS kv files kv' : replayFiles kv files = Ok kv' → PS kv' = PS kv.
Proof.
  revert kv. induction files as [|d files IH]; intros kv E; cbn [replayFiles] in E; [by injection E as <-|].
  apply res_bind_Ok in E as (kv1&E1&E2). rewrite (IH kv1 E2). destruct (_ && _); [|by injection E1 as <-].
  by apply res_bind_Ok in E1 as ([mt size]&_&[= <-]).
Qed.

Lemma New_Open cfg bl m now kv n : config_ok cfg n → (0 < n)%nat → New cfg bl None m now = Ok kv →
  Open bl (Z.of_nat n) false (CfgPageCacheSize cfg) now = Ok (PS kv).
Proof.
  intros (Hp&Hro&Hn&Hoff&_) Hpos. unfold New. rewrite Hn, Hro, Hoff.
  rewrite (proj2 (Nat.eqb_neq n 0)), (proj2 (Nat.eqb_neq (length (CfgPath cfg)) 0)) by (try lia; by destruct (CfgPath cfg)).
  intros E. apply res_bind_Ok in E as (s&Es&E). apply res_bind_Ok in E as (mt&_&E). rewrite Es. cbn [negb andb] in E. cbv zeta in E.
  unfold replayJournals in E. apply replayFiles_PS in E. by rewrite E.
Qed.

(** Opening takes the trees of the newest root. *)
Lemma Open_newest s0 n ro cs now s ts : binv (blobs s0) → (0 < n)%nat → length ts = n → newestIs s0 ts →
  Open (blobs s0) (Z.of_nat n) ro cs now = Ok s → blobs s = blobs s0 ∧ trees s = ts.
Proof.
  intros Hb Hn Hl (name&Hrn&(data&Hg&Hd)&Hleast) E. unfold Open in E. replace (Z.of_nat n =? 0) with false in E by lia.
  destruct (listRoots_law (blobs s0) Hb) as (ns&El&Ha&Hns). rewrite El, res_bind_ret in E.
  destruct (ascending_head ns name) as [rest ->]; [done|apply Hns; split; [done|]; eapply root_trees_there; [done|done|by exists data]|intros y [??]%Hns; by apply Hleast|].
  unfold blobGetRoot in Hg, E. cbn [blobs] in E. rewrite Hg in E. rewrite Hd, res_bind_ret in E. injection E as <-. cbn [blobs trees]. split; [done|].
  unfold padTrees. by rewrite Nat2Z.id, Hl, Nat.sub_diag, app_nil_r.
Qed.

Lemma diskInv_crash J W kv p t w cfg now : diskInv J W kv p t → wal kv = Some w → config_ok cfg (kvNumCf kv) →
  ∃ kv' W', New cfg (blobs (PS kv)) None (segs w) now = Ok kv' ∧ (∀ en, en ∈ J → en ∈ W') ∧ W' `sublist_of` W
    ∧ diskInv J W' (attachWal kv' (segs w)) Idle t.
Proof.
  intros ((ab&c&dc&m0&S&lost&gone&w'&Hi)&Hw&Hn) Ew Hcfg.
  pose proof (ki_wal _ _ _ _ _ _ _ _ _ _ _ Hi) as Hw'. cbn [skv] in Hw'. rewrite Ew in Hw'. injection Hw' as <-.
  destruct (crash_inv _ _ _ _ _ _ _ _ _ _ _ _ _ cfg now Hi Hcfg) as (kv'&W'&E&Hup&Hdown&Hi'). exists kv', W'. split; [done|]. split; [done|]. split; [done|].
  apply (kinv_less W' J) in Hi'; [|done].
  pose proof (so_blobs _ (ki_store _ _ _ _ _ _ _ _ _ _ _ Hi)) as Hb. pose proof (ki_disk _ _ _ _ _ _ _ _ _ _ _ Hi) as Hdisk. cbn [skv sclock] in *.
  pose proof (ki_num _ _ _ _ _ _ _ _ _ _ _ Hi) as Hnum. pose proof (ki_range _ _ _ _ _ _ _ _ _ _ _ Hi) as Hrg. cbn [skv] in Hnum.
  destruct (newest_disk _ _ _ _ _ Hb Hn Hdisk) as [_ Hlen]. apply (New_Open _ _ _ _ _ _ Hcfg) in E; [|lia].
  apply (Open_newest _ _ _ _ _ _ (onDisk kv p)) in E as [Eb Et]; [|done|lia|lia|done].
  eapply (diskInv_same J J W W' kv _ p Idle); [do 8 eexists; exact Hi'|done|cbn; exact Et|]. split_and!; [by do 8 eexists; exact Hi|done|done].
Qed.

(** A new store has one root, of empty trees. *)
Lemma Open_empty bl n ro cs now s : binv bl → (∀ r, is_root_name r → rootsOf bl r = None) → (0 < n)%nat → Z.of_nat n < 65536 → 0 < nanos now < 2 ^ 63 →
  Open bl (Z.of_nat n) ro cs now = Ok s → rootsWhole s ∧ newestIs s (trees s).
Proof.
  intros Hb Hno Hn Hn2 Hnow E. unfold Open in E. replace (Z.of_nat n =? 0) with false in E by lia.
  set (s0 := mkStore _ _ _ _ _ _) in E. destruct (listRoots_law bl Hb) as (ns&El&Ha&Hns). rewrite El, res_bind_ret in E. destruct ns as [|r ns].
  2:{ destruct (proj1 (Hns r)) as [Hr Hs]; [left|]. rewrite Hno in Hs by done. by destruct Hs. }
  rewrite Nat2Z.id in E. set (ts := replicate n EmptyTree) in E.
  assert (is_root_name (MakeRootName now.1 now.2)) as Hname by (apply MakeRootName_root; unfold nanos in Hnow; lia).
  destruct (blobPutRoot_spec s0 (MakeRootName now.1 now.2) (SerializeRoot ts)) as (s1&E1&_&Hb1&_&_&Hg1&Hr1); [done|done|].
  rewrite E1 in E. cbn [negb] in E. injection E as <-.
  assert (∀ r, is_root_name r → is_Some (rootsOf (blobs s1) r) → r = MakeRootName now.1 now.2) as Honly.
  { intros r Hr Hs. destruct (decide (r = MakeRootName now.1 now.2)) as [->|Hne]; [done|]. rewrite Hr1 in Hs by done. cbn [s0 blobs] in Hs.
    rewrite Hno in Hs by done. by destruct Hs. }
  assert (DeserializeRoot (SerializeRoot ts) = Ok ts) as Hd.
  { apply DeserializeRoot_Serialize; [|unfold ts; by rewrite length_replicate]. apply Forall_forall. intros tr [i Hi]%list_elem_of_lookup.
    apply lookup_replicate in Hi as [-> _]. by split_and!. }
  split.
  - intros r Hr Hs. rewrite (Honly r Hr Hs). exists ts. split; [by exists (SerializeRoot ts)|]. apply Forall_forall. intros tr [i Hi]%list_elem_of_lookup.
    apply lookup_replicate in Hi as [-> _]. by left.
  - exists (MakeRootName now.1 now.2). split; [done|]. split; [by exists (SerializeRoot ts)|]. intros r Hr Hs. rewrite (Honly r Hr Hs). apply ble_refl.
Qed.

Lemma diskInv_start sy : kstart sy → diskInv [] [] (skv sy) Idle (sclock sy).
Proof.
  intros Hs. pose proof Hs as (ab&dc&Hi)%start_inv. destruct Hs as [cfg n bl now kv Hcfg H4 Hn Hb Hno Hnow E]. cbn [skv sclock].
  apply (New_Open _ _ _ _ _ _ Hcfg) in E; [|lia]. apply Open_empty in E as [Hw Hnew]; [|done|done|lia|done|done].
  split; [by do 8 eexists; exact Hi|done].
Qed.

(** ** The machine *)

Context (GcMaxAgeSecs GcMaxRootCount : Z).
Hypothesis age_ok : 0 ≤ GcMaxAgeSecs < 2 ^ 40.
Implicit Types e : Engine (B := B).
#[local] Abbreviation rstep := (rstep GcMaxAgeSecs GcMaxRootCount).
#[local] Abbreviation runnerStep := (runnerStep GcMaxAgeSecs GcMaxRootCount).
#[local] Abbreviation runAlone := (runAlone GcMaxAgeSecs GcMaxRootCount).

(** What a runner needs for its step: when it prepares a flush, a clock past the newest
    root and room for the pages. *)
Definition fed W e (t : Z) (now : clock) (a : runnerAt) : Prop :=
  match a with AtPrepare b => t < nanos now < 2 ^ 63 ∧ roomy W (KV e) b | _ => True end.

(** The time of the newest root after the step. *)
Definition clockAfter (t : Z) (now : clock) (a : runnerAt) : Z := match a with AtPrepare _ => nanos now | _ => t end.

(** The engine of the transactor with what a read must find, what was ever written, and
    the time of the newest root: requests, writes along the path of the datom engine, the
    index keys a start derives, reads, steps of the runner, turns of the log, crashes that
    keep the blobs and the segments. A crash forgets what was not logged: from then on
    only the entries of the first family have to be found. What a start writes after it,
    the schema and the keys of the other indexes, are writes and derived keys like any. *)
Inductive srun : list CfKey → list CfKey → Engine (B := B) → Z → Prop :=
| SOpen sy : kstart sy → srun [] [] (NewEngine (skv sy)) (sclock sy)
| SFlush A W e t : srun A W e t → srun A W (requestFlush e) t
| SGc A W e t dry : srun A W e t → srun A W (requestGc e dry false) t
| SWrite A W e t es e' : srun A W e t → Forall entry_good es → rstep e (OpWrite es) = Ok e' → srun (A ++ es) (W ++ es) e' t
| SExpand A W e t es e' :
    srun A W e t → Forall entry_good es → Forall (fun en => en.1 ≠ 0%nat) es → rstep e (OpExpand es) = Ok e' → srun (A ++ es) (W ++ es) e' t
| SGet A W e t cf k there kv' : srun A W e t → (cf < kvNumCf (KV e))%nat → bytes_ok k → Get (KV e) cf k = Ok (there, kv') → srun A W (withKV e kv') t
| SRun A W e t k a fuel now e' :
    srun A W e t → runners e !! k = Some a → fed W e t now a → rstep e (OpRun k fuel now) = Ok e' → srun A W e' (clockAfter t now a)
| SCycle A W e t w : srun A W e t → wal (KV e) = Some w → srun A W (withKV e (withWal (KV e) (cycle w (WalDurableUpTo (KV e))))) t
| SCrash A W e t w cfg now kv' :
    srun A W e t → wal (KV e) = Some w → config_ok cfg (kvNumCf (KV e)) → New cfg (blobs (PS (KV e))) None (segs w) now = Ok kv' →
    srun (logged W) W (NewEngine (attachWal kv' (segs w))) t.

(** The store holds [C], between what must be found and what was written. *)
Definition stores (A W : list CfKey) kv (p : pending) (t : Z) : Prop :=
  ∃ C, diskInv (logged W) C kv p t ∧ (∀ en, en ∈ A → en ∈ C) ∧ C `sublist_of` W ∧ ∀ en, en ∈ logged W → en ∈ C.

(** A step that does not change what the store holds. *)
Lemma stores_step A W kv kv' p p' t t' : (∀ C, C `sublist_of` W → diskInv (logged W) C kv p t → diskInv (logged W) C kv' p' t') →
  stores A W kv p t → stores A W kv' p' t'.
Proof. intros Hs (C&Hd&HA&HW&HJ). exists C. auto. Qed.

Lemma diskInv_logged J W kv p t : diskInv J W kv p t → ∀ en, en ∈ J → en ∈ W.
Proof. intros ((ab&c&dc&m0&S&lost&gone&w&Hi)&_) en He. by apply (ki_log _ _ _ _ _ _ _ _ _ _ _ Hi). Qed.

Lemma roomy_less C W kv b : C `sublist_of` W → roomy W kv b → roomy C kv b.
Proof. intros Hl%sublist_length (H1&H2&H3). split_and!; [lia|lia|done]. Qed.

Lemma stores_write A W kv p t es : stores A W kv p t → Forall entry_good es → ∃ kv', engineWrite kv es = Ok kv' ∧ stores (A ++ es) (W ++ es) kv' p t.
Proof.
  intros (C&Hd&HA&HW&HJ) Hes. destruct (diskInv_write _ _ _ _ _ es Hd Hes) as (kv'&E&Hd'). exists kv'. split; [done|]. exists (C ++ es).
  assert (logged (W ++ es) = logged W ++ logged es) as El by apply filter_app. rewrite El. split; [done|]. split.
  - intros en. rewrite !elem_of_app. intros [?|?]; [left; by apply HA|by right].
  - split; [by apply sublist_app|]. exact (diskInv_logged _ _ _ _ _ Hd').
Qed.

Lemma stores_expand A W kv p t es : stores A W kv p t → Forall entry_good es → Forall (fun en => en.1 ≠ 0%nat) es →
  ∃ kv', ApplyJournalRecordsExpanded kv es = Ok kv' ∧ flushActive kv' = flushActive kv ∧ stores (A ++ es) (W ++ es) kv' p t.
Proof.
  intros (C&Hd&HA&HW&HJ) Hes Hn. destruct (diskInv_expand _ _ _ _ _ es Hd Hes) as (kv'&E&Ea&Hd'). exists kv'. split; [done|]. split; [done|]. exists (C ++ es).
  assert (logged (W ++ es) = logged W) as El.
  { unfold logged. rewrite filter_app. assert (filter (fun en : CfKey => en.1 = 0%nat) es = []) as ->; [|by rewrite app_nil_r].
    apply elem_of_nil_inv. intros en [H0 Hin]%list_elem_of_filter. rewrite Forall_forall in Hn. by apply (Hn en). }
  rewrite El. split; [done|]. split.
  - intros en. rewrite !elem_of_app. intros [?|?]; [left; by apply HA|by right].
  - split; [by apply sublist_app|]. exact (diskInv_logged _ _ _ _ _ Hd').
Qed.

Lemma stores_get A W kv p t cf k : stores A W kv p t → (cf < kvNumCf kv)%nat → bytes_ok k →
  ∃ there kv', Get kv cf k = Ok (there, kv') ∧ stores A W kv' p t
    ∧ ((cf, k) ∈ A → there = true) ∧ (there = true → (cf, k) ∈ W) ∧ (cf = 0%nat → there = true ↔ (cf, k) ∈ W).
Proof.
  intros (C&Hd&HA&HW&HJ) Hcf Hk. destruct (diskInv_get _ _ _ _ _ cf k Hd Hcf Hk) as (there&kv'&E&Hd'&Ht). exists there, kv'. split; [done|].
  assert ((cf, k) ∈ C → (cf, k) ∈ W) as Hin by (intros He; by eapply elem_of_sublist). split; [by exists C|]. split; [|split]; rewrite ?Ht; auto.
  intros ->. split; [done|]. intros He. apply HJ, list_elem_of_filter. done.
Qed.

Lemma stores_crash A W kv p t w cfg now : stores A W kv p t → wal kv = Some w → config_ok cfg (kvNumCf kv) →
  ∃ kv', New cfg (blobs (PS kv)) None (segs w) now = Ok kv' ∧ stores (logged W) W (attachWal kv' (segs w)) Idle t.
Proof.
  intros (C&Hd&HA&HW&HJ) Ew Hc. destruct (diskInv_crash _ _ _ _ _ w cfg now Hd Ew Hc) as (kv'&C'&E&Hup&Hdown&Hd'). exists kv'. split; [done|].
  exists C'. split_and!; [done|done|by etransitivity|done].
Qed.

Lemma stores_prepare A W kv b t fuel now : stores A W kv (Captured b) t → t < nanos now < 2 ^ 63 → roomy W kv b →
  ∃ b' ts root kv', PrepareFlush fuel kv b now = Ok (b', ts, root, kv') ∧ stores A W kv' (Prepared b' ts root) (nanos now).
Proof.
  intros (C&Hd&HA&HW&HJ) Hnow Hroom. destruct (diskInv_prepare _ _ _ _ _ fuel now Hd Hnow (roomy_less _ _ _ _ HW Hroom)) as (b'&ts&root&kv'&E&Hd').
  exists b', ts, root, kv'. split; [done|]. by exists C.
Qed.

Lemma stores_capture A W kv t : stores A W kv Idle t → ∃ b kv', CaptureFlush kv = Ok (Some b, kv') ∧ stores A W kv' (Captured b) t.
Proof. intros (C&Hd&HC). destruct (diskInv_capture _ _ _ _ Hd) as (b&kv'&E&Hd'). exists b, kv'. split; [done|]. by exists C. Qed.

Lemma stores_gc A W kv t age count dry : stores A W kv Idle t → 0 ≤ age < 2 ^ 40 →
  ∃ report s', GcFull (PS kv) age count dry = Ok (report, s') ∧ stores A W (withPS kv s') Idle t.
Proof. intros (C&Hd&HC) Ha. destruct (diskInv_gc _ _ _ _ age count dry Hd Ha) as (report&s'&E&Hd'). exists report, s'. split; [done|]. by exists C. Qed.

(** Where the flush is, from where the runner is. *)
Definition pendingAt (a : runnerAt) : pending := match a with AtPrepare b => Captured b | AtPublish b ts root => Prepared b ts root | _ => Idle end.
Definition pendingOf e : pending := match runners e with a :: _ => pendingAt a | [] => Idle end.

Record sinv (A W : list CfKey) e (t : Z) : Prop := {
  si_run : runInv e;
  si_disk : stores A W (KV e) (pendingOf e) t;
  si_abort : AtAbort ∉ runners e;
}.

Lemma start_same e : KV (start e) = KV e ∧ pendingOf (start e) = pendingOf e ∧ (AtAbort ∈ runners (start e) → AtAbort ∈ runners e).
Proof.
  unfold start. destruct (flushing e); [done|]. cbn [KV runners]. split; [done|]. unfold pendingOf. cbn [runners]. destruct (runners e); cbn; [|set_solver].
  split; [done|]. set_solver.
Qed.

Lemma sinv_request A W e t e0 : KV e0 = KV e → runners e0 = runners e → runInv (start e0) → sinv A W e t → sinv A W (start e0) t.
Proof.
  intros Ek Er Hr [_ Hd Ha]. destruct (start_same e0) as (E1&E2&E3). constructor; [done| |].
  - rewrite E1, E2, Ek. unfold pendingOf. by rewrite Er.
  - intros H%E3. by rewrite Er in H.
Qed.

Lemma sinv_flush A W e t : sinv A W e t → sinv A W (requestFlush e) t.
Proof. intros Hs. apply (sinv_request A W e); [done|done|apply (runInv_flush e), Hs|done]. Qed.

Lemma sinv_gc A W e t dry a : sinv A W e t → sinv A W (requestGc e dry a) t.
Proof.
  intros Hs. pose proof (runInv_gc e dry a (si_run _ _ _ _ Hs)) as Hr. revert Hr. unfold requestGc. destruct (a && autoWaits e); [done|].
  intros Hr. by apply (sinv_request A W e).
Qed.

(** A new state of the store below the same runners. *)
Lemma sinv_store A A' W W' e t t' kv : flushActive kv = flushActive (KV e) → stores A' W' kv (pendingOf e) t' → sinv A W e t → sinv A' W' (withKV e kv) t'.
Proof.
  intros Ea Hd [[H1 H2 H3 H4 H5] _ Ha]. constructor; [|done|done]. constructor; cbn; rewrite ?Ea; done.
Qed.

Lemma pass_disk A W e t i : stores A W (KV e) Idle t → ∃ e', pass GcMaxAgeSecs GcMaxRootCount e i = Ok e' ∧ stores A W (KV e') Idle t.
Proof.
  intros Hd. unfold pass. destruct (gcReqs e !! i) as [r|]; [|by eexists].
  assert (∀ e0 err rep, KV (finish e0 i err rep) = KV e0) as Hf by (intros e0 err rep; apply (finish_same e0 i err rep)).
  destruct (kvReadOnly (KV e)); [eexists; split; [done|by rewrite Hf]|].
  destruct (flushActive (KV e)); [destruct (auto r); eexists; (split; [done|by rewrite Hf])|].
  destruct (auto r && _); [eexists; split; [done|by rewrite Hf]|].
  destruct (stores_gc A W (KV e) t GcMaxAgeSecs GcMaxRootCount (dryRun r) Hd age_ok) as (report&s'&->&Hd'). eexists. split; [done|]. by rewrite Hf.
Qed.

(** A fed runner always has a next step, and takes it without failing. *)
Lemma sinv_run A W e t a fuel now : sinv A W e t → runners e = [a] → fed W e t now a →
  ∃ e1 next, runnerStep fuel now e a = Ok (e1, next)
    ∧ sinv A W (withRunners e1 match next with Some a => [a] | None => [] end) (clockAfter t now a).
Proof.
  intros [Hr Hd Ha] Er Hfed. unfold pendingOf in Hd. rewrite Er in Hd.
  assert (∀ e1 next, runnerStep fuel now e a = Ok (e1, next) → next ≠ Some AtAbort →
    stores A W (KV e1) match next with Some a => pendingAt a | None => Idle end (clockAfter t now a) →
    ∃ e1 next, runnerStep fuel now e a = Ok (e1, next) ∧ sinv A W (withRunners e1 match next with Some a => [a] | None => [] end) (clockAfter t now a)) as G.
  { intros e1 next Es Hn Hd'. exists e1, next. split; [done|]. constructor; [by eapply runInv_run|by destruct next|].
    destruct next; cbn; [intros Hx%list_elem_of_singleton; by rewrite <- Hx in Hn|apply not_elem_of_nil]. }
  destruct a as [late|late i| | |b| |b ts root| |]; cbn [clockAfter pendingAt fed] in *.
  - destruct (gcQueue e) eqn:Eq; (eapply G; [cbn [Runner.runnerStep]; rewrite Eq; reflexivity|by destruct late|by destruct late]).
  - destruct (pass_disk A W e t i Hd) as (e1&Ep&Hd'). eapply G; [cbn [Runner.runnerStep]; rewrite Ep, res_bind_ret; reflexivity|by destruct late|by destruct late].
  - eapply G; [reflexivity|by destruct (flushWant e)|by destruct (flushWant e)].
  - destruct (stores_capture A W (KV e) t Hd) as (b&kv'&Ec&Hd'). eapply G; [cbn [Runner.runnerStep]; rewrite Ec, res_bind_ret; reflexivity|done|done].
  - destruct Hfed as [Hnow Hroom]. destruct (stores_prepare A W (KV e) b t fuel now Hd Hnow Hroom) as (b'&ts&root&kv'&Ep&Hd').
    eapply G; [cbn [Runner.runnerStep]; rewrite Ep; reflexivity|done|done].
  - rewrite Er in Ha. set_solver.
  - eapply G; [reflexivity|done|]. eapply stores_step; [|exact Hd]. intros C _. apply diskInv_publish.
  - eapply G; [reflexivity|done|]. cbn [pendingAt]. assert (KV (requestGc e false true) = KV e) as ->; [|done].
    unfold requestGc. destruct (true && autoWaits e); [done|]. by rewrite (proj1 (start_same _)).
  - destruct (negb (flushWant e) && Nat.eqb (length (gcQueue e)) 0) eqn:En; (eapply G; [cbn [Runner.runnerStep]; rewrite En; reflexivity|done|done]).
Qed.

Lemma rstep_run A W e t a fuel now e1 next : sinv A W e t → runners e = [a] → runnerStep fuel now e a = Ok (e1, next) →
  rstep e (OpRun 0 fuel now) = Ok (withRunners e1 match next with Some a => [a] | None => [] end).
Proof.
  intros Hs Er Es. cbn [Runner.rstep]. rewrite Er. cbn [lookup list_lookup]. rewrite Es, res_bind_ret. cbv beta iota.
  assert (flushing e = true) as Ef by (destruct (ru_one e (si_run _ _ _ _ Hs)) as [[_ ?]|[? _]]; [congruence|done]).
  rewrite (runnerStep_runners _ _ e a fuel now e1 next Ef Es), Er. cbn [take drop app]. by rewrite app_nil_r.
Qed.

Lemma sinv_new A W kv t : stores A W kv Idle t → sinv A W (NewEngine kv) t.
Proof.
  intros Hd. constructor; [|done|by apply not_elem_of_nil]. pose proof Hd as (C&((ab&c&dc&m0&S&lost&gone&w&Hi)&_)&_).
  pose proof (ki_pend _ _ _ _ _ _ _ _ _ _ _ Hi) as [Ha _]. apply (treach_inv GcMaxAgeSecs GcMaxRootCount). by apply TOpen.
Qed.

Lemma srun_inv A W e t : srun A W e t → sinv A W e t.
Proof.
  induction 1 as [sy Hs|A W e t _ IH|A W e t dry _ IH|A W e t es e' _ IH Hes E|A W e t es e' _ IH Hes Hn E|A W e t cf k there kv' _ IH Hcf Hk E
    |A W e t k a fuel now e' _ IH Hk Hf E|A W e t w _ IH Hw|A W e t w cfg now kv' _ IH Hw Hc E].
  - apply sinv_new. exists []. split; [by apply diskInv_start|]. split; [done|]. split; [constructor|]. intros en Hx. by apply not_elem_of_nil in Hx.
  - by apply sinv_flush.
  - by apply sinv_gc.
  - cbn [Runner.rstep] in E. apply res_bind_Ok in E as (kv&Eb&[= <-]).
    destruct (stores_write A W (KV e) (pendingOf e) t es (si_disk _ _ _ _ IH) Hes) as (kv1&E1&Hd). rewrite Eb in E1. injection E1 as <-.
    assert (sinv (A ++ es) (W ++ es) (withKV e kv) t) as Hs by (eapply (sinv_store A _ W); [by eapply engineWrite_active|done|done]).
    destruct (Nat.ltb _ _); [by apply sinv_flush|done].
  - cbn [Runner.rstep] in E. apply res_bind_Ok in E as (kv&Eb&[= <-]).
    destruct (stores_expand A W (KV e) (pendingOf e) t es (si_disk _ _ _ _ IH) Hes Hn) as (kv1&E1&Ea&Hd). rewrite Eb in E1. injection E1 as <-.
    by eapply (sinv_store A _ W).
  - destruct (stores_get A W (KV e) (pendingOf e) t cf k (si_disk _ _ _ _ IH) Hcf Hk) as (th&kv1&E1&Hd&_). rewrite E in E1. injection E1 as <- <-.
    eapply (sinv_store A _ W); [|done|done]. revert E. unfold KvStore.Get. intros E. apply res_bind_Ok in E as ([]&_&E); [by injection E as _ <-|].
    by apply res_bind_Ok in E as ([? ?]&_&[= _ <-]).
  - destruct (ru_one e (si_run _ _ _ _ IH)) as [[_ Er]|[_ [a' Er]]]; rewrite Er in Hk; [done|]. apply list_lookup_singleton_Some in Hk as [-> ->].
    destruct (sinv_run A W e t a fuel now IH Er Hf) as (e1&next&Es&Hs). rewrite (rstep_run A W e t a fuel now e1 next IH Er Es) in E. by injection E as <-.
  - eapply (sinv_store A _ W); [done| |done]. eapply stores_step; [|apply IH]. intros C _ Hd. by apply diskInv_cycle.
  - destruct (stores_crash A W (KV e) (pendingOf e) t w cfg now (si_disk _ _ _ _ IH) Hw Hc) as (kv1&E1&Hd). rewrite E in E1. injection E1 as <-. by apply sinv_new.
Qed.

(** ** The theorems *)

(** The runner alone is fed at every step of a schedule. *)
Fixpoint fedAlong W (t : Z) (sched : list (nat * clock)) e : Prop :=
  match sched, runners e with
  | (fuel, now) :: sched', [a] =>
      fed W e t now a ∧ ∀ e', rstep e (OpRun 0 fuel now) = Ok e' → fedAlong W (clockAfter t now a) sched' e'
  | _, _ => True
  end.

(** C11. Flushes and collections lose nothing that was logged: the engine writes its
    entries along the path of the transactor, where the entries of the first family are
    journalled and those of the other indexes only inserted. In every state reached by
    such writes, the index keys derived at a start, reads, requests for flushes and
    passes, the steps of the runner that serves them, turns of the log and crashes, in
    any order, no flush was given up and reading a key succeeds: in the first family it
    finds the key exactly when it was ever written, and in any index it finds the key
    when it was written or derived since the last crash, and only if it was ever written
    or derived. Every pass that deletes roots and pages does so while the engine writes
    and reads. Entries are keys of the four indexes that a page can hold, flushes have a
    clock past the newest root and room for their pages. *)
Theorem transactor_keeps_entries A W e t cf k :
  srun A W e t → (cf < kvNumCf (KV e))%nat → bytes_ok k →
  AtAbort ∉ runners e
  ∧ ∃ there kv', Get (KV e) cf k = Ok (there, kv')
    ∧ (cf = 0%nat → there = true ↔ (cf, k) ∈ W) ∧ ((cf, k) ∈ A → there = true) ∧ (there = true → (cf, k) ∈ W).
Proof.
  intros Hs%srun_inv Hcf Hk. split; [apply Hs|].
  destruct (stores_get A W (KV e) (pendingOf e) t cf k (si_disk _ _ _ _ Hs) Hcf Hk) as (there&kv'&E&_&H1&H2&H3). eauto 6.
Qed.

(** C16. The runner comes to an end: when no more is asked for, a bounded number of its
    steps, each flush with a later clock and room for its pages, leaves the engine
    idle, in a state of the machine with the same entries, with every wish for a flush
    and every pass asked for served. [flushSync] and [Close] wait for this. *)
Theorem runner_drains A W e t a sched :
  srun A W e t → runners e = [a] → (stepsLeft e a ≤ length sched)%nat → fedAlong W t sched e →
  ∃ e' t', runAlone sched e = Ok e' ∧ srun A W e' t' ∧ flushing e' = false ∧ flushWant e' = false ∧ gcQueue e' = [] ∧ allAnswered e'.
Proof.
  revert e t a. induction sched as [|[fuel now] sched IH]; intros e t a Hr Er Hl Hf.
  { pose proof (stepsLeft_pos e a). cbn in Hl. lia. }
  cbn [fedAlong] in Hf. rewrite Er in Hf. destruct Hf as [Hf Hrest]. pose proof (srun_inv A W e t Hr) as Hs.
  destruct (sinv_run A W e t a fuel now Hs Er Hf) as (e1&next&Es&Hs1). pose proof (rstep_run A W e t a fuel now e1 next Hs Er Es) as Est.
  assert (srun A W (withRunners e1 match next with Some a => [a] | None => [] end) (clockAfter t now a)) as Hr1 by (eapply (SRun A W e t 0); [done|by rewrite Er|done|done]).
  cbn [Runner.runAlone]. rewrite Est, res_bind_ret. destruct next as [a1|].
  - apply (IH _ (clockAfter t now a) a1); [done|done| |by apply Hrest]. pose proof (stepsLeft_less _ _ fuel now e a e1 a1 Es) as Hlt.
    change (stepsLeft (withRunners e1 [a1]) a1) with (stepsLeft e1 a1). cbn in Hl. lia.
  - rewrite runAlone_idle by done. eexists _, _. split; [done|]. split; [exact Hr1|]. pose proof (si_run _ _ _ _ Hs1) as Hi.
    destruct (ru_one _ Hi) as [[Ef1 _]|[_ [? ?]]]; [|done]. destruct (ru_idle _ Hi Ef1) as (_&?&?). split_and!; [done..|by apply idle_answered].
Qed.
End store.

(** ** Samples *)

Import samples kvSamples.

Module runnerSpecSamples.
(** Entries are written, a flush is asked for and a pass that keeps one root only; more
    is written when the runner has taken the pass. *)
Definition sampleBusy : res Engine :=
  kv ← New sampleCfg sampleBlobs None ∅ (1700000000, 0);
  e ← rstep 86400 1 (NewEngine (attachWal kv ∅)) (OpWrite sampleWrites);
  rstep 86400 1 (requestGc (requestFlush e) false false) (OpWrite sampleMore).

(** Sixty steps, a second apart. *)
Definition sampleClocks : list (nat * clock) := map (fun i => (5%nat, (1700000001 + Z.of_nat i, 0))) (seq 0 60).

Definition fedB (W : list CfKey) (e : Engine (B := FileBlobStore)) (t : Z) (now : clock) (a : runnerAt) : bool :=
  match a with AtPrepare b => (t <? nanos now) && (nanos now <? 2 ^ 63) && roomFor W (KV e) (BatchTrees b) | _ => true end.

Fixpoint fedAlongB (W : list CfKey) (t : Z) (sched : list (nat * clock)) (e : Engine (B := FileBlobStore)) : bool :=
  match sched, runners e with
  | (fuel, now) :: sched', [a] =>
      fedB W e t now a && match rstep 86400 1 e (OpRun 0 fuel now) with Ok e' => fedAlongB W (clockAfter t now a) sched' e' | _ => true end
  | _, _ => true
  end.

Lemma fedAlongB_spec W t sched e : fedAlongB W t sched e = true → fedAlong 86400 1 W t sched e.
Proof.
  revert t e. induction sched as [|[fuel now] sched IH]; intros t e H; [done|]. cbn [fedAlongB fedAlong] in *.
  destruct (runners e) as [|a [|]]; [done| |done]. apply andb_prop in H as [H1 H2]. split.
  - unfold fed. destruct a; try done. unfold fedB in H1. apply andb_prop in H1 as [[?%Z.ltb_lt ?%Z.ltb_lt]%andb_prop ?]. split; [done|]. by apply roomFor_spec.
  - intros e' E. rewrite E in H2. by apply IH.
Qed.

Lemma sample_busy : ∃ e, sampleBusy = Ok e ∧ srun 86400 1 (sampleWrites ++ sampleMore) (sampleWrites ++ sampleMore) e (nanos (1700000000, 0)).
Proof.
  destruct sampleBlobs_ok as [Hb Hr]. assert (match sampleBusy with Ok _ => true | _ => false end = true) as Hc by (vm_compute; reflexivity).
  destruct sampleBusy as [e| | |] eqn:E; [|done..]. clear Hc. exists e. split; [done|]. unfold sampleBusy in E.
  apply res_bind_Ok in E as (kv&E1&E). apply res_bind_Ok in E as (e1&E2&E3).
  assert (Forall entry_good sampleWrites) as Hg by (apply sampleEntries_good; repeat constructor; by vm_compute).
  eapply SWrite; [|exact sampleMore_good|exact E3]. apply SGc, SFlush. eapply (SWrite _ _ [] []); [|exact Hg|exact E2].
  apply (SOpen _ _ (mkSys (attachWal kv ∅) Idle (nanos (1700000000, 0)))). by apply (KStart sampleCfg 4 sampleBlobs).
Qed.

(** The runner's work is done in the sixty steps, and the first root is gone. *)
Definition sampleRootsLeft : res (list bytes) := e ← sampleBusy; e ← runAlone 86400 1 sampleClocks e; ListRoots (blobs (PS (KV e))).

Example sample_collected : sampleRootsLeft = Ok [MakeRootName 1700000005 0].
Proof. vm_compute. reflexivity. Qed.
End runnerSpecSamples.
Import runnerSpecSamples.

Lemma transactor_keeps_entries_witness :
  ∃ e there kv', sampleBusy = Ok e ∧ KvStore.Get (KV e) 0 (bs "entity-0002") = Ok (there, kv') ∧ there = true.
Proof.
  destruct sample_busy as (e&E&Hr). exists e.
  assert (match sampleBusy with Ok e => Nat.eqb (kvNumCf (KV e)) 4 | _ => false end = true) as Hc by (vm_compute; reflexivity).
  rewrite E in Hc. apply Nat.eqb_eq in Hc.
  destruct (transactor_keeps_entries 86400 1 ltac:(lia) _ _ _ _ 0 (bs "entity-0002") Hr) as (_&there&kv'&Eg&Ht&_);
    [rewrite Hc; lia|repeat constructor; by vm_compute|].
  exists there, kv'. split; [done|]. split; [done|]. apply Ht; [done|]. right. right. left.
Defined.

Lemma runner_drains_witness :
  ∃ e e', sampleBusy = Ok e ∧ runAlone 86400 1 sampleClocks e = Ok e' ∧ flushing e' = false ∧ allAnswered e'.
Proof.
  destruct sample_busy as (e&E&Hr). exists e.
  assert (match sampleBusy with
          | Ok e => fedAlongB (sampleWrites ++ sampleMore) (nanos (1700000000, 0)) sampleClocks e
                    && match runners e with [a] => Nat.leb (stepsLeft e a) (length sampleClocks) | _ => false end
          | _ => false end = true) as Hc by (vm_compute; reflexivity).
  rewrite E in Hc. apply andb_prop in Hc as [Hf Hl]. destruct (runners e) as [|a [|]] eqn:Er; [done| |done].
  destruct (runner_drains 86400 1 ltac:(lia) _ _ e _ a sampleClocks Hr Er) as (e'&t'&E'&_&Hi&_&_&Ha);
    [by apply Nat.leb_le|by apply fedAlongB_spec|].
  by exists e'.
Defined.
