(* ===== verification/Transactor.v ===== *)
(** * The requests of the transactor (go/internal/transactor/server.go)

    What the data server does with a request: transactions, programs, the schema, the
    commands of an administrator and the key-value families, each answered by frames
    with the id of the request. The engine lock orders the requests that write; here a
    request is one step. The texts of some errors are left out by the models below
    this one, and of those [ErrorText] stands for the text. *)

From Stdlib Require Import String.
From S2P Require Import Prelude Msgpack Sexpr Keys Numfmt Pages FlatLeaf PageCache BlobStore PageStore PageTree PageCommit Gc NewestWins Memtable MinHeap Hydrated.
From S2P Require Import Cursors MergedCursor PageCursor Journal Wal KvStore KvSpec KvScan KeyStore Anchor Resolver Engine EngineSpec QueryStore Txw Scanner Scheme HostFns Tx Session Datalog Stats KvEngine.
From S2P Require Import Frames Replication Downstream Runner.
Open Scope string_scope.
Open Scope list_scope.
Open Scope Z_scope.

(** ** Responses *)

Definition idField (id : bytes) : list (value * value) := match id with [] => [] | _ => [(Str (bs "id"), Str id)] end.
Definition moreField (more : bool) : value * value := (Str (bs "more"), Bool more).

Definition rowsValue (rows : list (list Expr)) : value := Array (map (fun row => Array (map ToPlainValue row)) rows).

Definition writeResponse (id : bytes) (columns : list bytes) (rows : list (list Expr)) (more : bool) (errMsg : bytes) : value :=
  Map (idField id ++ match errMsg with
                     | [] => [(Str (bs "columns"), Array (map Str columns)); (Str (bs "rows"), rowsValue rows); moreField more]
                     | _ => [(Str (bs "error"), Str errMsg); moreField false]
                     end).

(** Rows in responses of a hundred, then the rest with the end. *)
Fixpoint rowsLoop (id : bytes) (columns : list bytes) (rows : list (list Expr)) (acc : list (list Expr)) : list value :=
  match rows with
  | [] => [writeResponse id columns acc false []]
  | row :: rows' =>
      let acc := acc ++ [row] in
      if Nat.leb 100 (length acc) then writeResponse id columns acc true [] :: rowsLoop id columns rows' []
      else rowsLoop id columns rows' acc
  end.

Definition bytesField (m : list (value * value)) (key : string) : bytes :=
  match Member m (Str (bs key)) with Some (Str s) => s | Some (Bin b) => b | _ => [] end.

(** Eight bytes, the least significant first. *)
Definition u64At (rep : bytes) (off : nat) : Z := be_get (reverse (take 8 (drop off rep))).

Definition gcReportText (rep : bytes) : bytes :=
  if Nat.ltb (length rep) 41 then bs "gc: no report"
  else bs "roots_scanned=" ++ FormatInt (u64At rep 0) ++ bs " roots_removed=" ++ FormatInt (u64At rep 8)
       ++ bs " blobs_scanned=" ++ FormatInt (u64At rep 16) ++ bs " blobs_removed=" ++ FormatInt (u64At rep 24)
       ++ bs " live_blobs=" ++ FormatInt (u64At rep 32) ++ bs " dry_run=" ++ FormatInt (default 0 (rep !! 40%nat)).

(** [strings.Fields] of a text of ASCII characters. *)
Definition isSpace (c : Z) : bool := (c =? 32) || ((9 <=? c) && (c <=? 13)).
Fixpoint fieldsLoop (s : bytes) (cur : bytes) : list bytes :=
  match s with
  | [] => match cur with [] => [] | _ => [cur] end
  | c :: s' => if isSpace c then match cur with [] => fieldsLoop s' [] | _ => cur :: fieldsLoop s' [] end else fieldsLoop s' (cur ++ [c])
  end.
Definition Fields (s : bytes) : list bytes := fieldsLoop s [].
Definition ToUpper (s : bytes) : bytes := map (fun c => if (97 <=? c) && (c <=? 122) then c - 32 else c) s.

(** The index a dump command names. *)
Definition dumpFamily (command : bytes) : nat :=
  let index := match Fields command with _ :: p :: _ => ToUpper p | _ => bs "EAVT" end in
  if bool_decide (index = bs "AEVT") then 1%nat else if bool_decide (index = bs "AVET") then 2%nat else if bool_decide (index = bs "VAET") then 3%nat else 0%nat.

Section transactor.
Context {B : Type} `{HB : BlobStore B} `{HZ : Zstd}.
Variable ParseFloat : bytes → option Z.
Variables FormatG FormatE : Z → bytes.
Variable nan : Z.
Variable huge : Z → Z.
Variable ErrorText : string → bytes.
(** The order in which Go walks a map. *)
Variable walk : ∀ A : Type, list A → list A.
(** The clock, in microseconds for transactions and as it is kept for the snapshot. *)
Variables nowMicros nowStats : Z.
(** The fuel of scans, of programs and of merges. *)
Variable n : nat.
(** What [statsText] and [perfText] show of the counters, which are not modelled. *)
Variables statsText perfText : bytes.

Abbreviation Store := (@QueryStore (KVStore B)).
#[local] Instance ops : EngineOps Store keysCursor := queryOps ParseFloat FormatG FormatE nowMicros.

(** [runners] and the fields about them are of the runner (Runner.v); its store is the
    one of [tStore]. *)
Record Transactor : Type := mkTr {
  tStore : Store;
  tStats : statsCache;
  tFlushing : bool;
  tWant : bool;
  tReqs : list gcRequest;
  tQueue : list nat;
  tRunners : list runnerAt;
}.
Implicit Types t : Transactor.

Definition withStore t (s : Store) : Transactor := mkTr s (tStats t) (tFlushing t) (tWant t) (tReqs t) (tQueue t) (tRunners t).
Definition kvOf t : KVStore B := Engine.KV (Eavt (tStore t)).
Definition withKv t (kv : KVStore B) : Transactor := withStore t (withEavt (tStore t) (Engine.withKV (Eavt (tStore t)) kv)).
Definition workOf t : Runner.Engine := mkTE (kvOf t) (tFlushing t) (tWant t) (tReqs t) (tQueue t) (tRunners t).
Definition withWork t (e : Runner.Engine) : Transactor :=
  let t := withKv t (Runner.KV e) in
  mkTr (tStore t) (tStats t) (flushing e) (flushWant e) (gcReqs e) (gcQueue e) (runners e).

(** ** Opening *)

(** [OnFlushRequest] is set. *)
Definition arm (kv : KVStore B) : KVStore B :=
  mkKV (PS kv) (MT kv) (memSize kv) (kvReadOnly kv) (kvNumCf kv) (FlushThreshold kv) (flushActive kv) (kvPath kv) (wal kv) (legacy kv)
    (WalDurableUpTo kv) true (flushRequests kv).

Definition engineCfg (dbPath : bytes) (threshold : Z) : Config :=
  {| CfgPath := dbPath; CfgReadOnly := false; CfgNumCf := 64; CfgFlushThreshold := threshold; CfgReplayOff := false; CfgPageCacheSize := 536870912 |}.

(** The directory holds [b], the old journal and the segments of the log; the settings
    are those of the environment. *)
Definition NewEngineConfig (dbPath : bytes) (threshold : Z) (hydMax anchorMax : Z) (enabled : bool)
    (b : B) (legacyFile : option bytes) (segments : gmap nat bytes) (now : clock) : res Transactor :=
  kv ← KvStore.New (engineCfg dbPath threshold) b legacyFile segments now;
  let kv := attachWal kv segments in
  e ← Engine.NewEngine n (walk _) kv hydMax anchorMax enabled;
  e ← BootstrapSystemAttrs ParseFloat n e;
  e ← BootstrapResolver n (walk _) e;
  e ← RecoverWriteState n e;
  Ok (mkTr (Session.New (Engine.withKV e (arm (Engine.KV e)))) (mkStatsCache None 0) false false [] [] []).

(** The text of an error the store or a program gives. *)
Definition shown (msg : bytes) : bytes := match msg with [] => ErrorText "" | _ => msg end.

Definition failure (id msg : bytes) : list value := [writeResponse id [] [] false msg].

(** ** Transactions and programs *)

Definition execTx t (v : value) (id : bytes) : res (Transactor * list value) :=
  let '(txops, tab) := TxOpsFromValue v (symtab (tStore t)) in
  let s := mkQS (Eavt (tStore t)) tab in
  match txops with
  | None => Ok (withStore t s, failure id (ErrorText "wire"))
  | Some txops =>
      '(s, r) ← TransactTx (EO := ops) ParseFloat FormatE n txops s;
      match r with
      | inl msg => Ok (withStore t s, failure id (shown msg))
      | inr report =>
          let tempids := Map (map (fun p => (Int p.1, Int p.2)) (walk _ (map_to_list (Tempids report)))) in
          Ok (withStore t s, [Map (idField id ++ [(Str (bs "tempids"), tempids); (Str (bs "tx"), Int (TxOf report)); moreField false])])
      end
  end.

(** Parameters that cannot be read are left out. *)
Definition paramsOf (m : list (value * value)) : list Expr :=
  omap (fun p => match UnmarshalWire (Marshal p) with Ok e => Some e | _ => None end) (memberArray m "params").

(** The batches of a stream, each a response. *)
Fixpoint streamLoop (turns : nat) (ss : StreamingSession (E := Store) (C := keysCursor)) (id : bytes) : res (Store * list value) :=
  match turns with
  | O => Diverge
  | S turns' =>
      '(ss, r) ← nextBatch (EO := ops) FormatE nan huge {| keys := []; kpos := 0 |} n n ss 100;
      match r with
      | inl msg => Ok (engine (host (vm ss)), failure id (shown msg))
      | inr (rows, more) =>
          if more : bool then
            '(s, out) ← streamLoop turns' ss id;
            Ok (s, writeResponse id [] rows more [] :: out)
          else Ok (engine (host (vm ss)), [writeResponse id [] rows more []])
      end
  end.

(** The response to what a program gave. *)
Definition resultFrames (id : bytes) (r : Expr) : list value :=
  let unexpected := failure id (bs "unexpected result: " ++ String_ FormatE r) in
  match r with
  | sexpr.List (sexpr.Symbol r0 :: x :: row) => if bool_decide (r0 = bs "result") then [writeResponse id [] [x :: row] false []] else unexpected
  | _ => unexpected
  end.

Definition execScheme t (m : list (value * value)) (id : bytes) : res (Transactor * list value) :=
  let mode := memberStr m "mode" in
  if negb (bool_decide (mode = bs "query")) && negb (bool_decide (mode = bs "exec")) then Ok (t, failure id (bs "unknown scheme mode: " ++ mode))
  else
    match Member m (Str (bs "program")) with
    | None => Ok (t, failure id (bs "scheme request is missing program"))
    | Some progVal =>
        match UnmarshalWire (Marshal progVal) with
        | Ok body =>
            let params := paramsOf m in
            if bool_decide (mode = bs "query") then
              '(s, out) ← streamLoop n (NewStreamingSession (NewQuerySession (tStore t) body params 1 0 false)) id;
              Ok (withStore t s, out)
            else
              '(tx, s) ← AllocateTx (EngineOps := ops) (tStore t);
              '(sess, r) ← ExecuteProgram (EO := ops) FormatE nan huge {| keys := []; kpos := 0 |} n (NewQuerySession s body params tx 0 false);
              let t := withStore t (engine (qHost sess)) in
              Ok (t, match r with inl msg => failure id (shown msg) | inr r => resultFrames id r end)
        | Panic => Panic
        | Diverge => Diverge
        | Err e => Ok (t, failure id (bs "bad program wire (" ++ ErrorText e ++ bs ")"))
        end
    end.

(** The snapshot on the wire. *)
Definition statsBytes (s : CompileStats) : bytes :=
  EncodeCompileStats (walk _ (map_to_list (AttrIDs s))) (walk _ (map_to_list (IndexEstimates s))) (walk _ (map_to_list (PartitionIDs s)))
    (walk _ (elements (RefAttrs s))) (walk _ (elements (IndexedAttrs s))).

Definition handleSchema t (id : bytes) : res (Transactor * list value) :=
  '(s, (e, c)) ← BuildCompileStats n (Eavt (tStore t)) (tStats t) nowStats;
  let t := mkTr (withEavt (tStore t) e) c (tFlushing t) (tWant t) (tReqs t) (tQueue t) (tRunners t) in
  Ok (t, [Map (idField id ++ [(Str (bs "schema"), Raw (statsBytes s)); moreField false])]).

(** ** Commands *)

Definition treeLine (cf : nat) (tr : CfTree) : bytes :=
  if (NumLeaves tr =? 0) && (Height tr =? 0) && bool_decide (RootUUID tr = zeroUUID) then []
  else bs "cf=" ++ FormatInt (Z.of_nat cf) ++ bs " height=" ++ FormatInt (Height tr) ++ bs " leaves=" ++ FormatInt (NumLeaves tr)
       ++ bs " root=" ++ idToHex (RootUUID tr) ++ [10].
Definition treeText t : bytes :=
  match concat (imap treeLine (trees (PS (kvOf t)))) with
  | [] => bs "no committed trees"
  | text => take (length text - 1) text
  end.

(** A command is answered, or waits: for the runner to end, or for its pass. *)
Inductive reply : Type :=
| Frames (l : list value)
| WaitDrain
| WaitPass (i : nat).

Definition outputFrame (id output : bytes) : value := Map (idField id ++ [(Str (bs "output"), Str output); moreField false]).

Definition dumpRow (d : Datom) : option (list Expr) :=
  if datomRetracted d then None
  else Some [sexpr.Int (datomE d); sexpr.Str (datomAttr d ++ bs "(" ++ FormatInt (datomA d) ++ bs ")"); datomValue d; sexpr.Int (datomT d)].

Definition handleAdmin t (command id : bytes) : res (Transactor * reply) :=
  let say output := Ok (t, Frames [outputFrame id output]) in
  let named s := bool_decide (command = bs s) in
  if has_prefix command (bs "dump") then
    '(ds, e) ← ScanDatoms n (Eavt (tStore t)) (dumpFamily command);
    Ok (withStore t (withEavt (tStore t) e), Frames (rowsLoop id (map bs ["e"; "attr"; "value"; "t"]) (omap dumpRow ds) []))
  else if named "flush" then
    if kvReadOnly (kvOf t) then say (bs "error: read-only") else Ok (withWork t (requestFlush (workOf t)), Frames [outputFrame id (bs "ok: flush requested")])
  else if named "flush-sync" then
    if kvReadOnly (kvOf t) then say (bs "error: read-only") else Ok (withWork t (requestFlush (workOf t)), WaitDrain)
  else if named "gc" || named "gc-dry" then
    if kvReadOnly (kvOf t) then say (bs "error: read-only")
    else Ok (withWork t (requestGc (workOf t) (named "gc-dry") false), WaitPass (length (tReqs t)))
  else if named "status" then say (bs "memtable: " ++ FormatInt (memSize (kvOf t)) ++ bs " bytes")
  else if named "memtable" then say (FormatInt (memSize (kvOf t)))
  else if named "tree" then say (treeText t)
  else if named "stats" then say statsText
  else if named "stats-reset" then say (bs "ok: counters reset")
  else if named "perf" then say perfText
  else if named "perf-reset" then say (bs "ok: perf counters reset")
  else say (bs "unknown admin command: " ++ command).

(** The answer of a command that waited, once it can go on. *)
Definition resume t (r : reply) (id : bytes) : option (list value) :=
  match r with
  | Frames l => Some l
  | WaitDrain => if tFlushing t then None else Some [outputFrame id (bs "ok: flushed")]
  | WaitPass i =>
      match tReqs t !! i with
      | Some {| gcDone := Some (err, report) |} =>
          Some [outputFrame id (match err with Some e => bs "error: " ++ ErrorText e | None => gcReportText (default [] report) end)]
      | _ => None
      end
  end.

(** ** Key-value families *)

Fixpoint kvScanLoop (turns : nat) (mc : MergedCursor (scanSource B n)) (acc : list (list Expr)) (id : bytes) : res (list value) :=
  match turns with
  | O => Diverge
  | S turns' =>
      '(mc, p) ← MergedCursor.NextKv n mc;
      match p with
      | None => Ok [writeResponse id (map bs ["key"; "value"]) acc false []]
      | Some (k, v) =>
          let acc := acc ++ [[sexpr.Bytes k; sexpr.Bytes v]] in
          if Nat.leb 100 (length acc) then out ← kvScanLoop turns' mc [] id; Ok (writeResponse id (map bs ["key"; "value"]) acc true [] :: out)
          else kvScanLoop turns' mc acc id
      end
  end.

(** A family is used as an index: below zero there is none. *)
Definition familyOf (m : list (value * value)) : Z := match Member m (Str (bs "cf")) with Some (Int z) => z | _ => 0 end.
Definition index (cf : Z) : res nat := if cf <? 0 then Panic else Ok (Z.to_nat cf).

(** The write to a family may ask for a flush. *)
Definition written t (kv : KVStore B) : Transactor :=
  let t' := withKv t kv in
  if Nat.ltb (flushRequests (kvOf t)) (flushRequests kv) then withWork t' (requestFlush (workOf t')) else t'.

Definition handleKv t (m : list (value * value)) (id : bytes) : res (Transactor * list value) :=
  let op := memberStr m "op" in
  let key := bytesField m "key" in
  let value := bytesField m "value" in
  if bool_decide (op = bs "put") then
    cf ← index (familyOf m); kv ← KvStore.PutKv (kvOf t) cf key value; Ok (written t kv, failure id [])
  else if bool_decide (op = bs "get") then
    cf ← index (familyOf m);
    match KvStore.GetKv n (kvOf t) cf key with
    | Ok (Some val, kv) => Ok (withKv t kv, [writeResponse id [] [[sexpr.Bytes val]] false []])
    | Ok (None, kv) => Ok (withKv t kv, failure id [])
    | Err _ => Ok (t, failure id [])
    | Panic => Panic
    | Diverge => Diverge
    end
  else if bool_decide (op = bs "scan") then
    cf ← index (familyOf m);
    '(kv, mc) ← OpenScanCursorKv n (kvOf t) cf;
    out ← kvScanLoop n mc [] id;
    Ok (withKv t kv, out)
  else if bool_decide (op = bs "delete") then
    cf ← index (familyOf m); kv ← KvStore.DeleteKv (kvOf t) cf key; Ok (written t kv, failure id [])
  else Ok (t, failure id (bs "unknown kv op: " ++ op)).

(** ** Requests *)

Definition framesOf (r : res (Transactor * list value)) : res (Transactor * reply) := '(t, l) ← r; Ok (t, Frames l).

Definition processFrame t (m : list (value * value)) (id : bytes) : res (Transactor * reply) :=
  let typ := memberStr m "type" in
  let named s := bool_decide (typ = bs s) in
  if named "tx" then framesOf (execTx t (Map m) id)
  else if named "scheme" then framesOf (execScheme t m id)
  else if named "schema" then framesOf (handleSchema t id)
  else if named "admin" then handleAdmin t (memberStr m "command") id
  else if named "kv" then framesOf (handleKv t m id)
  else Ok (t, Frames (failure id (bs "unknown request type: " ++ typ))).

(** ** Connections *)

(** The server with its hub, and what was written straight to each connection. *)
Record server : Type := mkServer { srvT : Transactor; srvHub : Hub; srvOut : gmap nat bytes }.
Implicit Types srv : server.

Definition writeFrameQueued srv (conn : nat) (body : bytes) : server :=
  match Find (srvHub srv) conn with
  | Some i => mkServer (srvT srv) (withSub (srvHub srv) i (EnqueueResponse body)) (srvOut srv)
  | None => mkServer (srvT srv) (srvHub srv) (<[conn := default [] (srvOut srv !! conn) ++ WriteFrame body]> (srvOut srv))
  end.
Definition writeReply srv (conn : nat) (l : list value) : server := fold_left (fun srv v => writeFrameQueued srv conn (Marshal v)) l srv.

(** The path of a segment: five digits or more. The path of the store is clean. *)
Definition segPath (dbPath : bytes) (idx : nat) : bytes :=
  let digits := FormatInt (Z.of_nat idx) in
  dbPath ++ bs "/journal/journal." ++ replicate (5 - length digits) 48 ++ digits.

(** A connection asks for the stream: the snapshot of the log is taken, the connection
    registered and the snapshot queued in one step. *)
Definition subscribe srv (conn : nat) : server :=
  let t := srvT srv in
  let root := currentRoot (PS (kvOf t)) in
  match wal (kvOf t) with
  | Some w =>
      let '(w', (sealed, live)) := SnapshotLocked w in
      let h := fold_left (fun h s => BroadcastSeal h (Z.of_nat s.1)) (drop (length (Wal.sealed w)) (Wal.sealed w')) (srvHub srv) in
      let '(h, i) := Register h conn in
      mkServer (withKv t (withWal (kvOf t) w')) (SendSnapshot h i (map (segPath (kvPath (kvOf t))) sealed) live root) (srvOut srv)
  | None => let '(h, i) := Register (srvHub srv) conn in mkServer t (SendSnapshot h i [] [] root) (srvOut srv)
  end.

(** One frame of a connection. What the log broadcasts while a transaction runs are
    steps of the hub of their own (Replication.v). The result is the server, whether the connection has the stream, and
    the reply that waits with its id. *)
Definition serveFrame srv (conn : nat) (isReplication : bool) (raw : bytes) : res (server * bool * option (reply * bytes)) :=
  match Unmarshal raw with
  | Ok (Map m) =>
      if negb isReplication && bool_decide (memberStr m "type" = bs "replicate") then Ok (subscribe srv conn, true, None)
      else
        let id := memberStr m "id" in
        '(t, r) ← processFrame (srvT srv) m id;
        let srv := mkServer t (srvHub srv) (srvOut srv) in
        match r with
        | Frames l => Ok (writeReply srv conn l, isReplication, None)
        | _ => Ok (srv, isReplication, Some (r, id))
        end
  | _ => Ok (srv, isReplication, None)
  end.

(** ** What a request is answered *)

(** A frame that answers the request [id], and whether it says that more follow. A
    request without an id gets frames without one. *)
Definition isReply (id : bytes) (more : bool) (v : value) : Prop :=
  ∃ m, v = Map m ∧ Member m (Str (bs "id")) = (match id with [] => None | _ => Some (Str id) end) ∧ Member m (Str (bs "ev")) = None
    ∧ Member m (Str (bs "more")) = Some (Bool more).

(** Frames that say more follow, and a last one that says none do. *)
Definition answers (id : bytes) (l : list value) : Prop := ∃ fs f, l = fs ++ [f] ∧ Forall (isReply id true) fs ∧ isReply id false f.

Lemma answers_one id f : isReply id false f → answers id [f].
Proof. intros H. exists [], f. done. Qed.

Lemma answers_cons id f l : isReply id true f → answers id l → answers id (f :: l).
Proof. intros H (fs&g&->&Hfs&Hg). exists (f :: fs), g. split_and!; [done|by constructor|done]. Qed.

Lemma isReply_fields id more (fields : list (value * value)) :
  Member fields (Str (bs "id")) = None → Member fields (Str (bs "ev")) = None → Member fields (Str (bs "more")) = Some (Bool more) →
  isReply id more (Map (idField id ++ fields)).
Proof. intros H1 H2 H3. eexists. split; [done|]. by destruct id. Qed.

Lemma isReply_response id columns rows more err : isReply id (match err with [] => more | _ => false end) (writeResponse id columns rows more err).
Proof. unfold writeResponse. by destruct err; apply isReply_fields. Qed.

Lemma answers_failure id msg : answers id (failure id msg).
Proof. apply answers_one. pose proof (isReply_response id [] [] false msg) as H. by destruct msg. Qed.

Lemma answers_rows id columns rows acc : answers id (rowsLoop id columns rows acc).
Proof.
  revert acc. induction rows as [|row rows IH]; intros acc; cbn [rowsLoop]; [apply answers_one, (isReply_response id columns acc false [])|].
  destruct (Nat.leb _ _); [|by apply IH]. apply answers_cons; [apply (isReply_response id columns _ true [])|apply IH].
Qed.

Lemma answers_stream turns ss id s out : streamLoop turns ss id = Ok (s, out) → answers id out.
Proof.
  revert ss s out. induction turns as [|turns IH]; intros ss s out E; [done|]. cbn [streamLoop] in E. apply res_bind_Ok in E as ([ss' r]&_&E). cbv beta iota in E.
  destruct r as [msg|[rows more]]; [injection E as <- <-; apply answers_failure|]. destruct more.
  - apply res_bind_Ok in E as ([s' out']&E'&[= <- <-]). apply answers_cons; [apply (isReply_response id [] rows true [])|by eapply IH].
  - injection E as <- <-. apply answers_one, (isReply_response id [] rows false []).
Qed.

Lemma answers_kvScan turns mc acc id out : kvScanLoop turns mc acc id = Ok out → answers id out.
Proof.
  revert mc acc out. induction turns as [|turns IH]; intros mc acc out E; [done|]. cbn [kvScanLoop] in E. apply res_bind_Ok in E as ([mc' p]&_&E). cbv beta iota in E.
  destruct p as [[k v]|]; [|injection E as <-; apply answers_one, (isReply_response id _ acc false [])]. destruct (Nat.leb _ _); [|by eapply IH].
  apply res_bind_Ok in E as (out'&E'&[= <-]). apply answers_cons; [apply (isReply_response id _ _ true [])|by eapply IH].
Qed.

Lemma answers_tx t v id t' out : execTx t v id = Ok (t', out) → answers id out.
Proof.
  unfold execTx. destruct (TxOpsFromValue _ _) as [[txops|] tab]; [|intros [= <- <-]; apply answers_failure]. intros E.
  apply res_bind_Ok in E as ([s r]&_&E). cbv beta iota in E. destruct r as [msg|report]; injection E as <- <-; [apply answers_failure|].
  apply answers_one. by apply isReply_fields.
Qed.

Lemma answers_result id r : answers id (resultFrames id r).
Proof.
  unfold resultFrames. destruct r; try apply answers_failure. do 2 (case_match; try apply answers_failure). case_match; try apply answers_failure.
  case_match; [|apply answers_failure]. eapply answers_one, (isReply_response id [] _ false []).
Qed.

Lemma answers_scheme t m id t' out : execScheme t m id = Ok (t', out) → answers id out.
Proof.
  unfold execScheme. destruct (_ && _); [intros [= <- <-]; apply answers_failure|]. destruct (Member m (Str (bs "program"))) as [p|]; [|intros [= <- <-]; apply answers_failure].
  destruct (UnmarshalWire (Marshal p)) as [body| | |]; [|intros [= <- <-]; apply answers_failure|done..]. destruct (bool_decide _); intros E.
  - apply res_bind_Ok in E as ([s out']&E'&[= <- <-]). by eapply answers_stream.
  - apply res_bind_Ok in E as ([tx s]&_&E). cbv beta iota in E. apply res_bind_Ok in E as ([sess r]&_&E). cbv beta iota zeta in E.
    injection E as _ <-. destruct r as [msg|r]; [apply answers_failure|apply answers_result].
Qed.

Lemma answers_kv t m id t' out : handleKv t m id = Ok (t', out) → answers id out.
Proof.
  unfold handleKv. repeat destruct (bool_decide _); intros E.
  - apply res_bind_Ok in E as (cf&_&E). apply res_bind_Ok in E as (kv&_&[= <- <-]). apply answers_failure.
  - apply res_bind_Ok in E as (cf&_&E). destruct (KvStore.GetKv _ _ _ _) as [[[val|] kv]| | |]; [| | |done..]; injection E as <- <-; [|apply answers_failure..].
    apply answers_one, (isReply_response id [] [[sexpr.Bytes val]] false []).
  - apply res_bind_Ok in E as (cf&_&E). apply res_bind_Ok in E as ([kv mc]&_&E). cbv beta iota in E. apply res_bind_Ok in E as (out'&Eo&[= <- <-]).
    by eapply answers_kvScan.
  - apply res_bind_Ok in E as (cf&_&E). apply res_bind_Ok in E as (kv&_&[= <- <-]). apply answers_failure.
  - injection E as <- <-. apply answers_failure.
Qed.

Definition answersSoon (id : bytes) (r : reply) : Prop :=
  match r with
  | Frames l => answers id l
  | WaitDrain | WaitPass _ => ∀ t l, resume t r id = Some l → answers id l
  end.

Lemma answers_output id output : answers id [outputFrame id output].
Proof. apply answers_one. by apply isReply_fields. Qed.

Lemma answers_resume t r id l : (∀ fs, r = Frames fs → answers id fs) → resume t r id = Some l → answers id l.
Proof.
  intros Hf. destruct r as [fs| |i]; cbn [resume]; [intros [= <-]; by apply Hf| |].
  - destruct (tFlushing t); [done|]. intros [= <-]. apply answers_output.
  - destruct (tReqs t !! i) as [[? ? [[err report]|]]|]; [|done..]. intros [= <-]. apply answers_output.
Qed.

(** A frame that answers is one the link takes for a response. *)
Lemma reply_kind id more v : isReply id more v → wf v = true → id ≠ [] → kindOf (Marshal v) = KResponse id more.
Proof.
  intros (m&->&Hid&Hev&Hmore) Hw Hne. unfold kindOf. rewrite unmarshal_marshal by done. rewrite Hev, Hid. destruct id; [done|].
  unfold mapMore, memberBool. by rewrite Hmore.
Qed.

(** *** The reply to a schema request *)

(** The frame holds the bytes of the snapshot; a reader sees their tree in its place. *)
Definition schemaFrame (id : bytes) (s : CompileStats) : value := Map (idField id ++ [(Str (bs "schema"), Raw (statsBytes s)); moreField false]).
Definition statsTree (s : CompileStats) : value :=
  statsValue (walk _ (map_to_list (AttrIDs s))) (walk _ (map_to_list (IndexEstimates s))) (walk _ (map_to_list (PartitionIDs s)))
    (walk _ (elements (RefAttrs s))) (walk _ (elements (IndexedAttrs s))).
Definition schemaTree (id : bytes) (s : CompileStats) : value := Map (idField id ++ [(Str (bs "schema"), statsTree s); moreField false]).

Lemma marshal_schema id s : Marshal (schemaFrame id s) = Marshal (schemaTree id s).
Proof.
  unfold schemaFrame, schemaTree, statsBytes, statsTree. rewrite encode_stats. unfold Marshal. cbn [Encoder.Encode]. rewrite !length_app, !flat_map_app. f_equal.
Qed.

Lemma isReply_schema id s : isReply id false (schemaTree id s).
Proof. by apply isReply_fields. Qed.

(** A frame of the sizes MessagePack can write: its own, or for the reply to a schema
    request those of the tree of the snapshot. *)
Definition replyFits (id : bytes) (v : value) : Prop := wf v = true ∨ ∃ s, v = schemaFrame id s ∧ wf (schemaTree id s) = true.

Lemma replyFits_kind id more v : isReply id more v → replyFits id v → id ≠ [] → kindOf (Marshal v) = KResponse id more.
Proof.
  intros Hr [Hw|(s&->&Hw)] Hne; [by apply reply_kind|]. rewrite marshal_schema. apply reply_kind; [|done|done].
  assert (isReply id false (schemaFrame id s)) as (m'&[= <-]&_&_&Hm') by (by apply isReply_fields). destruct Hr as (m&[= <-]&_&_&Hm).
  assert (more = false) as -> by congruence. apply isReply_schema.
Qed.

Lemma answers_routed id l : answers id l → Forall (replyFits id) l → id ≠ [] →
  forallb (isResponse id) (map Marshal l) = true ∧ upToFinal (map Marshal l) = map Marshal l.
Proof.
  intros (fs&f&->&Hfs&Hf) [Hw Hwf]%Forall_app Hne. apply Forall_cons_1 in Hwf as [Hwf _].
  assert (∀ v more, isReply id more v → replyFits id v → isResponse id (Marshal v) = true ∧ isFinal (Marshal v) = negb more) as G.
  { intros v more Hr Hv. unfold isResponse, isFinal. rewrite (replyFits_kind id more v Hr Hv Hne). split; [by apply bool_decide_true|done]. }
  rewrite map_app. cbn [map]. rewrite forallb_app. cbn [forallb]. destruct (G f false Hf Hwf) as [-> Ef]. rewrite andb_true_r.
  induction Hfs as [|v fs Hv Hfs IH]; [by cbn; rewrite Ef|]. apply Forall_cons in Hw as [Hw Hws]. destruct (G v true Hv Hw) as [E1 E2].
  destruct (IH Hws) as [H1 H2]. cbn. rewrite E1, E2, H1, H2. done.
Qed.

Lemma processFrame_answers t m id t' r t'' l : processFrame t m id = Ok (t', r) → resume t'' r id = Some l → answers id l.
Proof.
  intros E. apply answers_resume. intros fs ->. revert E. unfold processFrame.
  assert (∀ m0, (∀ t1 l1, m0 = Ok (t1, l1) → answers id l1) → framesOf m0 = Ok (t', Frames fs) → answers id fs) as G.
  { intros m0 H E. unfold framesOf in E. apply res_bind_Ok in E as ([t1 l1]&E1&[= <- <-]). by eapply H. }
  destruct (bool_decide _); [apply G; intros t1 l1; apply answers_tx|]. destruct (bool_decide _); [apply G; intros t1 l1; apply answers_scheme|].
  destruct (bool_decide _).
  { apply G. unfold handleSchema. intros t1 l1 E. apply res_bind_Ok in E as ([s [e c]]&_&[= <- <-]). apply answers_one. by apply isReply_fields. }
  destruct (bool_decide _).
  { unfold handleAdmin. destruct (has_prefix _ _).
    { intros E. apply res_bind_Ok in E as ([ds e]&_&[= <- <-]). apply answers_rows. }
    repeat (case_match; try (intros [= <- <-]; apply answers_output)); try done; intros [= <- <-]; apply answers_output. }
  destruct (bool_decide _); [apply G; intros t1 l1; apply answers_kv|]. intros [= <- <-]. apply answers_failure.
Qed.

(** The reply to a schema request is the frame of the snapshot that was built. *)
Lemma processFrame_schema t m id t' r : memberStr m "type" = bs "schema" → processFrame t m id = Ok (t', r) →
  ∃ s e c, BuildCompileStats n (Eavt (tStore t)) (tStats t) nowStats = Ok (s, (e, c)) ∧ r = Frames [schemaFrame id s].
Proof.
  intros Ht E. unfold processFrame in E. rewrite Ht in E. cbv zeta in E. rewrite !bool_decide_false in E by done. rewrite bool_decide_true in E by done.
  unfold framesOf, handleSchema in E. apply res_bind_Ok in E as ([t1 l1]&E1&[= <- <-]). apply res_bind_Ok in E1 as ([s [e c]]&E2&[= _ <-]). eauto.
Qed.

(** What a reader of that frame takes out of it is the snapshot. *)
Lemma schema_read id s : (∀ A (x : list A), walk A x ≡ₚ x) → map_Forall (fun _ a => is_i32 a) (AttrIDs s) → wf (schemaTree id s) = true →
  ∃ fields v, Unmarshal (Marshal (schemaFrame id s)) = Ok (Map fields) ∧ Member fields (Str (bs "schema")) = Some v ∧ DecodeCompileStats v = s.
Proof.
  intros Hwalk H32 Hw. eexists _, (statsTree s). rewrite marshal_schema. split; [by apply unmarshal_marshal|]. split; [by destruct id|].
  apply decode_statsValue; try apply Hwalk. apply Forall_forall. intros [a i] Hin. rewrite Hwalk in Hin. apply elem_of_map_to_list in Hin. exact (H32 a i Hin).
Qed.


Lemma index_range t m : familyOf m < 0 ∨ Z.of_nat (NumCf (MT (kvOf t))) ≤ familyOf m →
  index (familyOf m) = Panic ∨ ∃ cf, index (familyOf m) = Ok cf ∧ families (MT (kvOf t)) !! cf = None.
Proof.
  intros H. unfold index. destruct (Z.ltb_spec (familyOf m) 0) as [|Hp]; [by left|right]. eexists. split; [done|]. apply lookup_ge_None. unfold NumCf in H. lia.
Qed.

(** A request can stop the transactor: a key-value request, of any kind, with a
    family the store does not have is used as an index without a check, and the panic
    of one connection ends the process. *)
Theorem family_request_panics t m id :
  memberStr m "type" = bs "kv" → memberStr m "op" ∈ map bs ["put"; "get"; "scan"; "delete"] →
  familyOf m < 0 ∨ Z.of_nat (NumCf (MT (kvOf t))) ≤ familyOf m → processFrame t m id = Panic.
Proof.
  intros Ht Hop Hr. unfold processFrame. rewrite Ht. cbn -[bs]. unfold framesOf, handleKv.
  assert (∀ del key v, ∀ cf, families (MT (kvOf t)) !! cf = None → appendRecLocked (MT (kvOf t)) cf del key v = Panic) as Ha.
  { intros del key v cf Hc. unfold appendRecLocked, onCf. by rewrite Hc. }
  destruct (index_range t m Hr) as [->|(cf&->&Hc)].
  - cbn [map] in Hop. rewrite !elem_of_cons, elem_of_nil in Hop. by destruct Hop as [->|[->|[->|[->|[]]]]].
  - cbn [map] in Hop. rewrite !elem_of_cons, elem_of_nil in Hop. destruct Hop as [->|[->|[->|[->|[]]]]]; cbn -[bs]; rewrite ?res_bind_ret.
    + unfold KvStore.PutKv, Memtable.PutKv. by rewrite Ha.
    + unfold KvStore.GetKv, LookupKv. by rewrite Hc.
    + unfold OpenScanCursorKv, SnapshotRuns, materializeMerge, materializeLocked, onCf. by rewrite Hc.
    + unfold KvStore.DeleteKv, Memtable.DeleteKv. by rewrite Ha.
Qed.
End transactor.

Import samples kvSamples.

Module transactorSamples.
Definition sampleKvRequest (op : string) (family : list (value * value)) : list (value * value) :=
  [(Str (bs "type"), Str (bs "kv")); (Str (bs "op"), Str (bs op)); (Str (bs "key"), Str (bs "key-0001")); (Str (bs "value"), Str (bs "v"))] ++ family.
Definition family (cf : Z) : list (value * value) := [(Str (bs "cf"), Int cf)].
Definition sampleOpen : res Transactor :=
  NewEngineConfig (B := FileBlobStore) (fun _ => None) (fun _ l => l) 400 (bs "db") 0 4096 4096 true sampleBlobs None ∅ (1700000000, 0).
Abbreviation run := (processFrame (B := FileBlobStore) (fun _ => None) (fun _ => []) (fun _ => []) 0 (fun _ => 0) bs (fun _ l => l) 0 0 400 [] []).

(** A pair written and read back. *)
Definition sampleSession (fam : list (value * value)) : res (list value) :=
  t ← sampleOpen;
  '(t, _) ← run t (sampleKvRequest "put" fam) (bs "7");
  '(t, r) ← run t (sampleKvRequest "get" fam) (bs "8");
  match resume bs t r (bs "8") with Some l => Ok l | None => Diverge end.
End transactorSamples.
Import transactorSamples.

Example sample_session : sampleSession (family 10) = Ok [writeResponse (bs "8") [] [[sexpr.Bytes (bs "v")]] false []].
Proof. vm_compute. reflexivity. Qed.

(** Without a family the pair goes to the first, whose records have no values: reading
    it back is a panic. *)
Example default_family_panics : sampleSession [] = Panic.
Proof. vm_compute. reflexivity. Qed.

Definition sampleSchema : list (value * value) := [(Str (bs "type"), Str (bs "schema"))].


Lemma family_request_panics_witness : ∃ t, sampleOpen = Ok t ∧ run t (sampleKvRequest "get" (family 64)) [] = Panic.
Proof.
  assert (match sampleOpen with Ok t => bool_decide (Z.of_nat (NumCf (MT (kvOf t))) ≤ 64) | _ => false end = true) as Hc by (vm_compute; reflexivity).
  destruct sampleOpen as [t| | |]; [|done..]. apply bool_decide_eq_true in Hc. exists t. split; [done|].
  apply family_request_panics; [vm_compute; reflexivity|apply (bool_decide_unpack _); vm_compute; exact I|right; exact Hc].
Defined.
