(* ===== verification/Gateway.v ===== *)
(** * The query server and the front (go/internal/querysrv, go/internal/front)

    The query server compiles queries with the schema of its replica and runs them
    there, forwards writes to the transactor, and serves programs on its internal
    socket. The front compiles queries itself and sends the programs to that socket.
    Where a model below leaves the text of an error out, [ErrorText] stands for it. *)

From Stdlib Require Import String.
From S2P Require Import Prelude Msgpack Sexpr Keys Numfmt Pages FlatLeaf PageCache BlobStore PageStore PageTree PageCommit NewestWins Memtable MinHeap Hydrated.
From S2P Require Import Cursors MergedCursor PageCursor Journal Wal KvStore KvSpec KvScan KeyStore Anchor Resolver Engine EngineSpec QueryStore Txw Edn Scanner Scheme HostFns Tx Session.
From S2P Require Import Datalog Planner SchemeCompile Stats KvEngine Frames Replication Replica Downstream Transactor.
Open Scope string_scope.
Open Scope list_scope.
Open Scope Z_scope.

(** ** The writer of a client connection (querysrv/writer.go) *)

Module frameWriter.

Inductive drainAt : Type :=
| Idle
| Take
| Write (frames : list bytes).

(** [out] is what the connection was given. *)
Record t : Type := mk {
  queue : list bytes;
  pendingBytes : Z;
  maxBytes : Z;
  draining : bool;
  closed : bool;
  at_ : drainAt;
  out : bytes;
}.
Implicit Types w : t.

Definition defaultClientQueueMax : Z := 64 * 2 ^ 20.
Definition new (maxBytes : Z) : t := mk [] 0 maxBytes false false Idle [].

(** Whether a producer waits: the queue is at its cap. *)
Definition blocked w : bool := negb (closed w) && (maxBytes w <=? pendingBytes w).

(** [None] while the producer is blocked, and [false] when the client is gone. *)
Definition enqueue w (frame : bytes) : option (t * bool) :=
  if blocked w then None
  else if closed w then Some (w, false)
  else Some (mk (queue w ++ [frame]) (pendingBytes w + Z.of_nat (length frame)) (maxBytes w) true false (if draining w then at_ w else Take) (out w), true).

Definition close w : t :=
  if closed w then w else mk [] 0 (maxBytes w) (draining w) true (at_ w) (out w).

(** One step of the drain; [io] is how a write ends, in full or after some bytes. *)
Definition drain (io : option nat) w : t :=
  match at_ w with
  | Idle => w
  | Take =>
      if closed w || Nat.eqb (length (queue w)) 0 then mk (queue w) (pendingBytes w) (maxBytes w) false (closed w) Idle (out w)
      else mk [] 0 (maxBytes w) (draining w) (closed w) (Write (queue w)) (out w)
  | Write frames =>
      match io with
      | None => mk (queue w) (pendingBytes w) (maxBytes w) (draining w) (closed w) Take (out w ++ writeFrames frames)
      | Some k => close (mk (queue w) (pendingBytes w) (maxBytes w) (draining w) (closed w) Idle (out w ++ take k (writeFrames frames)))
      end
  end.
End frameWriter.

(** [strings.Contains]. *)
Fixpoint Contains (s sub : bytes) : bool := has_prefix s sub || match s with [] => false | _ :: s' => Contains s' sub end.

Fixpoint ednToMsgpack (v : edn.Value) : value :=
  match v with
  | edn.Int x => Int x
  | edn.Float x => Float x
  | edn.Str x => Str x
  | edn.Bool x => Bool x
  | edn.Nil => Nil
  | edn.Keyword x => Ext ExtKeyword x
  | edn.Symbol x => Ext ExtSymbol x
  | edn.List l => Array (map ednToMsgpack l)
  end.

Section gateway.
Context {B : Type} `{HB : BlobStore B} `{HZ : Zstd}.
Variable ParseFloat : bytes → option Z.
Variables FormatG FormatE oneDecimal : Z → bytes.
Variable nan : Z.
Variable huge : Z → Z.
Variable ErrorText : string → bytes.
Variable walk : ∀ A : Type, list A → list A.
Variable nowMicros : Z.
Variable n : nat.

Abbreviation Store := (@QueryStore (KVStore B)).
#[local] Instance gwOps : EngineOps Store keysCursor := queryOps ParseFloat FormatG FormatE nowMicros.

Definition schemaTTL : Z := 30 * 10 ^ 9.
Definition batchSize : nat := 100.

(** [fetchedAt] is [None] for the zero time. *)
Record Gateway : Type := mkGw {
  gReplica : option (@ReplicaEngine B);
  gStats : option CompileStats;
  fetchedAt : option Z;
}.
Implicit Types g : Gateway.

Definition fresh (now : Z) (at_ : option Z) : bool := match at_ with Some t => now - t <? schemaTTL | None => false end.

Definition GetSnapshot (now : Z) g : res (option CompileStats * Gateway) :=
  match gReplica g with
  | None => Ok (gStats g, g)
  | Some r =>
      let kept := match gStats g with Some s => negb (SchemaDirty r) && fresh now (fetchedAt g) && negb (bool_decide (AttrIDs s = ∅)) | None => false end in
      if kept then Ok (gStats g, g)
      else
        '(s, r) ← GetStats n (walk _) r now;
        Ok (Some s, mkGw (Some (ClearSchemaDirty r)) (Some s) (Some now))
  end.
Definition InvalidateSnapshot g : Gateway := mkGw (gReplica g) (gStats g) None.
Definition refreshResolver g : res Gateway :=
  match gReplica g with
  | None => Ok g
  | Some r => r ← RefreshResolverOnSchemaWal n (walk _) r; Ok (mkGw (Some r) (gStats g) (fetchedAt g))
  end.

(** *** Answers *)

(** A request is answered by frames, or its bytes are sent to the transactor and what
    comes back is relayed (downstream.go). *)
Inductive answer : Type :=
| Reply (frames : list bytes)
| Relay (raw : bytes).

Definition errorReply (msg : bytes) : answer := Reply [ErrorFrame msg].
Definition errText (msg : bytes) : bytes := match msg with [] => ErrorText "" | _ => msg end.

Definition wireValue_ (v : value) : option Expr := match UnmarshalWire (Marshal v) with Ok e => Some e | _ => None end.
Definition wireParams (m : list (value * value)) : list Expr := omap wireValue_ (memberArray m "params").

(** *** Running a program *)

Definition batchFrame (columns : list bytes) (rows : list (list Expr)) (more : bool) : bytes :=
  Marshal (Map [(Str (bs "columns"), Array (map Str columns)); (Str (bs "rows"), rowsValue rows); (Str (bs "more"), Bool more)]).

(** The batches of a session, the first with the columns. Each is written as it is made;
    when the client is gone the rest is not made. *)
Fixpoint streamTurns (turns : nat) (ss : StreamingSession (E := Store) (C := keysCursor)) (columns : list bytes) : res (Store * list bytes) :=
  match turns with
  | O => Diverge
  | S turns' =>
      '(ss, r) ← nextBatch (EO := gwOps) FormatE nan huge {| keys := []; kpos := 0 |} n n ss batchSize;
      match r with
      | inl msg => Ok (engine (host (vm ss)), [ErrorFrame (errText msg)])
      | inr (rows, more) =>
          if more : bool then '(s, out) ← streamTurns turns' ss []; Ok (s, batchFrame columns rows true :: out)
          else Ok (engine (host (vm ss)), [batchFrame columns rows false])
      end
  end.

Definition withStore_ (r : @ReplicaEngine B) (s : Store) : ReplicaEngine :=
  mkReplica s (rStats r) (Connected r) (schemaDirty r) (EvWalCount r) (EvWalBytes r) (EvSealCount r) (EvRootCount r).

Definition streamProgram g (r : ReplicaEngine) (prog : Expr) (params : list Expr) (columns : list bytes) : res (answer * Gateway) :=
  '(s, out) ← streamTurns n (NewStreamingSession (NewQuerySession (rStore r) prog params 1 0 false)) columns;
  Ok (Reply out, mkGw (Some (withStore_ r s)) (gStats g) (fetchedAt g)).

(** *** Requests *)

(** An attempt, and another with a new snapshot when an attribute is not known. *)
Definition attempt {A} (now : Z) (compileWith : CompileStats → res (bytes + A)) g : res ((bytes + A) * Gateway) :=
  '(s, g) ← GetSnapshot now g;
  r ← compileWith (default NewCompileStats s);
  match r with
  | inl msg =>
      if Contains msg (bs "attribute resolution failed") then
        g ← refreshResolver (InvalidateSnapshot g);
        '(s, g) ← GetSnapshot now g;
        r ← compileWith (default NewCompileStats s);
        Ok (r, g)
      else Ok (r, g)
  | inr _ => Ok (r, g)
  end.

Definition compile (now : Z) (query : bytes) g : res ((bytes + (Expr * list bytes)) * Gateway) :=
  attempt now (CompileDatalogQuery ParseFloat nan query) g.

Definition forwardTxData (query : bytes) : res answer :=
  match ReadVector ParseFloat query with
  | Ok ops => Ok (Relay (Marshal (Map [(Str (bs "type"), Str (bs "tx")); (Str (bs "txdata"), Array (map ednToMsgpack ops))])))
  | Err e => Ok (errorReply (bs "EDN parse: " ++ ErrorText e))
  | Panic => Panic
  | Diverge => Diverge
  end.

Definition explainFrame (text : bytes) : bytes :=
  Marshal (Map [(Str (bs "columns"), Array []); (Str (bs "rows"), Array [Array [Str text]]); (Str (bs "more"), Bool false)]).

Definition handleExplain (now : Z) (query : bytes) g : res (answer * Gateway) :=
  match gReplica g with
  | None => Ok (errorReply (bs "replica unavailable"), g)
  | Some _ =>
      '(r, g) ← attempt now (CompileDatalogQueryResult ParseFloat nan query) g;
      Ok (match r with inl msg => errorReply (errText msg) | inr c => Reply [explainFrame (RenderExplain oneDecimal FormatE c)] end, g)
  end.

Definition isTxText (query : bytes) : bool := Contains query (bs ":db/add") || Contains query (bs ":db/retract").

(** [up] says whether the link to the transactor is connected. *)
Definition forward (up : bool) (raw : bytes) : answer := if up then Relay raw else errorReply (bs "transactor disconnected").

Definition handleDatalog (now : Z) (up : bool) (m : list (value * value)) g : res (answer * Gateway) :=
  let query := memberStr m "query" in
  if Nat.eqb (length query) 0 then Ok (errorReply (bs "datalog request missing query field"), g)
  else if isTxText query then
    a ← forwardTxData query;
    Ok (match a with Relay raw => forward up raw | Reply _ => a end, g)
  else if memberBool m "explain" then handleExplain now query g
  else match gReplica g with
       | None => Ok (errorReply (bs "replica unavailable"), g)
       | Some _ =>
           '(r, g) ← compile now query g;
           match r, gReplica g with
           | inl msg, _ => Ok (errorReply (errText msg), g)
           | inr (prog, findVars), Some r => streamProgram g r prog (wireParams m) findVars
           | inr _, None => Ok (errorReply (bs "replica unavailable"), g)
           end
       end.

Definition handleSchemeLocal (m : list (value * value)) g : res (answer * Gateway) :=
  let mode := memberStr m "mode" in
  if negb (Nat.eqb (length mode) 0) && negb (bool_decide (mode = bs "query"))
  then Ok (errorReply (bs "scheme-local: only mode " ++ [34] ++ bs "query" ++ [34] ++ bs " is served locally; exec goes to the transactor"), g)
  else
    match Member m (Str (bs "program")) with
    | None => Ok (errorReply (bs "scheme-local: request is missing program"), g)
    | Some progVal =>
        match UnmarshalWire (Marshal progVal) with
        | Ok body =>
            match gReplica g with
            | None => Ok (errorReply (bs "replica unavailable"), g)
            | Some r => streamProgram g r body (wireParams m) (memberStrs m "columns")
            end
        | Err e => Ok (errorReply (bs "scheme-local: bad program wire (" ++ ErrorText e ++ bs ")"), g)
        | Panic => Panic
        | Diverge => Diverge
        end
    end.

Definition handleSchema (now : Z) g : res (answer * Gateway) :=
  match gReplica g with
  | None => Ok (errorReply (bs "replica unavailable"), g)
  | Some _ =>
      '(s, g) ← GetSnapshot now g;
      Ok (Reply [Marshal (Map [(Str (bs "schema"), Raw (statsBytes walk (default NewCompileStats s))); (Str (bs "more"), Bool false)])], g)
  end.

(** A frame of a client, or of the internal socket. *)
Definition serve (now : Z) (internal up : bool) (raw : bytes) g : res (answer * Gateway) :=
  match Unmarshal raw with
  | Ok (Map m) =>
      let typ := memberStr m "type" in
      let typed s := bool_decide (typ = bs s) in
      if typed "datalog" then handleDatalog now up m g
      else if internal && typed "scheme-local" then handleSchemeLocal m g
      else if typed "schema" then handleSchema now g
      else if typed "tx" || typed "admin" || typed "kv" || typed "scheme" then Ok (forward up raw, g)
      else if internal then Ok (errorReply (bs "internal socket: unknown request type: " ++ typ), g)
      else if Nat.eqb (length typ) 0 then Ok (errorReply (bs "parse error: request must be an object with a type"), g)
      else Ok (errorReply (bs "unknown request type: " ++ typ), g)
  | _ => Ok (errorReply (bs "parse error: request must be an object"), g)
  end.

(** ** The front (front/front.go)

    A connection to the back is what the query server does with one request on its
    internal socket. *)

Record Front : Type := mkFront { fStats : option CompileStats; statsAt : Z; TTL : Z }.
Implicit Types f : Front.

Definition NewFront (ttl : Z) : Front := mkFront None 0 (if ttl <=? 0 then 30 * 10 ^ 9 else ttl).

Definition schemaRequest : bytes := Marshal (Map [(Str (bs "type"), Str (bs "schema"))]).

(** [frame] is the first frame of the back's answer. *)
Definition statsIn (frame : bytes) : option CompileStats :=
  match Unmarshal frame with
  | Ok (Map m) => DecodeCompileStats <$> Member m (Str (bs "schema"))
  | _ => None
  end.

(** [fetched] is what a fetch gives, [None] for an error. *)
Definition getStats (now : Z) (fetched : option CompileStats) f : option CompileStats * Front :=
  match fStats f with
  | Some s => if now - statsAt f <? TTL f then (Some s, f) else match fetched with Some s => (Some s, mkFront (Some s) now (TTL f)) | None => (None, f) end
  | None => match fetched with Some s => (Some s, mkFront (Some s) now (TTL f)) | None => (None, f) end
  end.
Definition invalidateStats f : Front := mkFront None (statsAt f) (TTL f).
Definition setStats (now : Z) (s : CompileStats) f : Front := mkFront (Some s) now (TTL f).

(** The program on the wire and the columns of the result. *)
Definition compileOnce (query : bytes) (s : CompileStats) : res (bytes + (bytes * list bytes)) :=
  r ← CompileDatalogQuery ParseFloat nan query s;
  match r with
  | inl msg => Ok (inl msg)
  | inr (prog, cols) => w ← ToWire prog; Ok (inr (w, cols))
  end.
Definition compileQuery (now : Z) (fetched1 fetched2 : option CompileStats) (query : bytes) f : res ((bytes + (bytes * list bytes)) * Front) :=
  let try fetched f :=
    let '(s, f) := getStats now fetched f in
    match s with
    | None => Ok (inl (ErrorText "stats"), f)
    | Some s => r ← compileOnce query s; Ok (r, f)
    end in
  '(r, f) ← try fetched1 f;
  match r with
  | inl msg => if Contains msg (bs "attribute resolution failed") then try fetched2 (invalidateStats f) else Ok (r, f)
  | inr _ => Ok (r, f)
  end.

Definition buildSchemeLocal (progWire : bytes) (params : list value) (columns : list bytes) : bytes :=
  Marshal (Map [(Str (bs "type"), Str (bs "scheme-local")); (Str (bs "program"), Raw progWire); (Str (bs "params"), Array params);
                (Str (bs "mode"), Str (bs "query")); (Str (bs "columns"), Array (map Str columns))]).

(** What the front does with a query: an error, or a request for the back. *)
Definition frontDatalog (now : Z) (fetched1 fetched2 : option CompileStats) (raw : bytes) (m : list (value * value)) f : res (answer * Front) :=
  let query := memberStr m "query" in
  if Nat.eqb (length query) 0 then Ok (errorReply (bs "datalog request missing query field"), f)
  else if isTxText query then Ok (Relay raw, f)
  else if memberBool m "explain" then Ok (Relay raw, f)
  else
    '(r, f) ← compileQuery now fetched1 fetched2 query f;
    Ok (match r with inl msg => errorReply (errText msg) | inr (w, cols) => Relay (buildSchemeLocal w (memberArray m "params") cols) end, f).

(** The frames of the back that reach the client. *)
Fixpoint relayed (frames : list bytes) : list bytes :=
  match frames with
  | [] => []
  | fr :: frames' =>
      match Unmarshal fr with
      | Ok (Map m) => if memberBool m "more" then fr :: relayed frames' else [fr]
      | Ok _ => [fr]
      | _ => [fr]
      end
  end.

(** The answer to a request for the schema; [resp] is the back's. *)
Definition frontSchema (now : Z) (resp : option value) f : answer * Front :=
  match resp with
  | None => (errorReply (ErrorText "back"), f)
  | Some v =>
      let f := match v with
               | Map m => match Member m (Str (bs "schema")) with Some nested => setStats now (DecodeCompileStats nested) f | None => f end
               | _ => f
               end in
      (Reply [Marshal v], f)
  end.

Definition frontServe (now : Z) (fetched1 fetched2 : option CompileStats) (resp : option value) (raw : bytes) f : res (answer * Front) :=
  match Unmarshal raw with
  | Ok (Map m) =>
      let typ := memberStr m "type" in
      let typed s := bool_decide (typ = bs s) in
      if typed "datalog" then frontDatalog now fetched1 fetched2 raw m f
      else if typed "schema" then Ok (frontSchema now resp f)
      else if typed "tx" || typed "admin" || typed "kv" || typed "scheme" then Ok (Relay raw, f)
      else if bool_decide (Member m (Str (bs "type")) = None) then Ok (errorReply (bs "parse error: request must be an object with a type"), f)
      else Ok (errorReply (bs "unknown request type: " ++ typ), f)
  | _ => Ok (errorReply (bs "parse error: request must be an object"), f)
  end.

(** ** The two ways to run a query *)

Lemma strs_back (l : list bytes) : omap (fun v => match v with Str s => Some s | _ => None end) (map Str l) = l.
Proof. induction l as [|x l IH]; [done|]. cbn. by rewrite IH. Qed.

(** The request the front makes is read back by the query server. *)
Definition localMap (prog : Expr) (params : list value) (columns : list bytes) : list (value * value) :=
  [(Str (bs "type"), Str (bs "scheme-local")); (Str (bs "program"), wireValue prog); (Str (bs "params"), Array params);
   (Str (bs "mode"), Str (bs "query")); (Str (bs "columns"), Array (map Str columns))].

Lemma buildSchemeLocal_read prog params columns : sendable prog = true → wf (Array params) = true → wf (Array (map Str columns)) = true →
  Unmarshal (buildSchemeLocal (Marshal (wireValue prog)) params columns) = Ok (Map (localMap prog params columns)).
Proof.
  intros Hp Hw Hc. replace (buildSchemeLocal _ _ _) with (Marshal (Map (localMap prog params columns))); [|reflexivity].
  apply unmarshal_marshal. pose proof (sendable_wf prog Hp) as Hs. cbn [wf localMap forallb] in *. rewrite Hs, Hw, Hc. done.
Qed.

(** C18. A query gives the same answer through the front as from the query server: when
    both hold the same snapshot of the schema and neither has expired, for a query that
    compiles to a program, columns and parameters MessagePack can write, the request the front sends to the internal socket is
    answered with the frames, and leaves the server in the state, that the query server
    itself gives for the query. The one difference is a program nested deeper than the
    wire allows: the front's request is then refused. *)
Theorem front_equals_gateway now up raw m g r f s prog columns :
  gReplica g = Some r → GetSnapshot now g = Ok (Some s, g) → fStats f = Some s → now - statsAt f < TTL f →
  isTxText (memberStr m "query") = false → memberBool m "explain" = false → memberStr m "query" ≠ [] →
  CompileDatalogQuery ParseFloat nan (memberStr m "query") s = Ok (inr (prog, columns)) →
  sendable prog = true → wf (Array (memberArray m "params")) = true → wf (Array (map Str columns)) = true →
  ∃ req, frontDatalog now None None raw m f = Ok (Relay req, f)
    ∧ serve now true up req g = if Z.of_nat (nesting prog) >? MaxWireDepth
        then Ok (errorReply (bs "scheme-local: bad program wire (" ++ ErrorText "wire node nesting deeper than 64" ++ bs ")"), g)
        else handleDatalog now up m g.
Proof.
  intros Hr Hs Hf Ht Htx Hex Hq Hc Hp Hw Hcol. exists (buildSchemeLocal (Marshal (wireValue prog)) (memberArray m "params") columns). split.
  - unfold frontDatalog. rewrite Htx, Hex. destruct (Nat.eqb_spec (length (memberStr m "query")) 0) as [E%nil_length_inv|_]; [done|].
    unfold compileQuery, getStats. rewrite Hf, (proj2 (Z.ltb_lt _ _) Ht). unfold compileOnce. rewrite Hc, res_bind_ret, ToWire_eq, !res_bind_ret by done. done.
  - unfold serve. rewrite buildSchemeLocal_read by done.
    change (memberStr (localMap prog (memberArray m "params") columns) "type") with (bs "scheme-local").
    rewrite (bool_decide_false (bs "scheme-local" = bs "datalog")), (bool_decide_true (bs "scheme-local" = bs "scheme-local")) by done. cbn [andb].
    unfold handleSchemeLocal. change (memberStr (localMap prog (memberArray m "params") columns) "mode") with (bs "query").
    change (Member (localMap prog (memberArray m "params") columns) (Str (bs "program"))) with (Some (wireValue prog)).
    change (negb (Nat.eqb (length (bs "query")) 0) && negb (bool_decide (bs "query" = bs "query"))) with false. cbv beta iota.
    unfold UnmarshalWire. rewrite unmarshal_marshal by (by apply sendable_wf). rewrite res_bind_ret, wireFromValue_eq by (done || lia).
    replace (0 + Z.of_nat (nesting prog)) with (Z.of_nat (nesting prog)) by lia. destruct (_ >? _); [done|]. rewrite Hr.
    unfold handleDatalog. rewrite Htx, Hex. destruct (Nat.eqb_spec (length (memberStr m "query")) 0) as [E%nil_length_inv|_]; [done|]. rewrite Hr.
    unfold compile, attempt. rewrite Hs, res_bind_ret. cbv beta iota. cbn [default from_option]. unfold id. rewrite Hc, !res_bind_ret. cbv beta iota. rewrite Hr.
    f_equal. unfold memberStrs, memberArray. change (Member (localMap prog _ columns) (Str (bs "columns"))) with (Some (Array (map Str columns))). apply strs_back.
Qed.
End gateway.

(** ** The id of a forwarded request *)

Lemma Member_app_l m m' k v : Member m k = Some v → Member (m ++ m') k = Some v.
Proof. induction m as [|[k' v'] m IH]; [done|]. cbn. destruct (Equal k' k); [done|apply IH]. Qed.

Lemma Member_app_r m m' k : Member m k = None → Member (m ++ m') k = Member m' k.
Proof. induction m as [|[k' v'] m IH]; [done|]. cbn. destruct (Equal k' k); [done|apply IH]. Qed.

(** A request that brings an id of its own is never answered: the link adds its id
    behind the one the client chose, the transactor reads the first of the two and
    answers with the client's, and none of the frames of that answer is one the link
    takes for the response to the request. *)
Theorem client_id_unanswered m c id body :
  wf (Map m) = true → Z.of_nat (length m) < 2 ^ 32 - 1 → len32 id = true → memberStr m "id" = c → c ≠ [] → c ≠ id →
  injectID (Marshal (Map m)) id = Ok body →
  (∃ m', Unmarshal body = Ok (Map m') ∧ memberStr m' "type" = memberStr m "type" ∧ memberStr m' "id" = c)
  ∧ ∀ l, answers c l → Forall (fun v => wf v = true) l → List.filter (isResponse id) (map Marshal l) = [].
Proof.
  intros Hw Hl Hid Hc Hne Hdiff E. split.
  - unfold injectID in E. rewrite InjectTopPair_correct in E by done.
    assert (body = Marshal (Map (m ++ [(Str (bs "id"), Str id)]))) as -> by congruence. clear E. exists (m ++ [(Str (bs "id"), Str id)]). split.
    + apply unmarshal_marshal. cbn [wf] in *. apply andb_prop in Hw as [H1 H2]. rewrite forallb_app, H2. cbn [forallb wf]. rewrite Hid. cbn.
      rewrite andb_true_r. unfold len32 in *. apply Z.ltb_lt. rewrite length_app. cbn. lia.
    + unfold memberStr in *. destruct (Member m (Str (bs "id"))) as [v|] eqn:Ev; [|by subst]. rewrite (Member_app_l _ _ _ _ Ev). split; [|done].
      destruct (Member m (Str (bs "type"))) as [ty|] eqn:Et; [by rewrite (Member_app_l _ _ _ _ Et)|].
      by rewrite (Member_app_r _ _ _ Et).
  - intros l (fs&f&->&Hfs&Hf) Hwf. assert (∀ v more, isReply c more v → wf v = true → isResponse id (Marshal v) = false) as G.
    { intros v more Hr Hv. unfold isResponse. rewrite (reply_kind c more v Hr Hv Hne). by apply bool_decide_false. }
    apply Forall_app in Hwf as [Hwfs Hwf]. apply Forall_cons_1 in Hwf as [Hwf _]. rewrite map_app, List.filter_app. cbn. rewrite (G f false Hf Hwf), app_nil_r.
    induction Hfs as [|v fs Hv Hfs IH]; [done|]. apply Forall_cons in Hwfs as [Hv' Hwfs]. cbn. rewrite (G v true Hv Hv'). by apply IH.
Qed.

(** ** The writer *)

Section writer.
Import frameWriter.

Inductive wop : Type :=
| WEnqueue (frame : bytes)
| WDrain (io : option nat)
| WClose.

(** The writer with the frames it accepted; a blocked producer makes no step. *)
Inductive wreach (cap : Z) : t → list bytes → Prop :=
| WStart : wreach cap (new cap) []
| WAccept w acc frame w' ok : wreach cap w acc → enqueue w frame = Some (w', ok) → wreach cap w' (if ok then acc ++ [frame] else acc)
| WStep w acc io : wreach cap w acc → wreach cap (drain io w) acc
| WEnd w acc : wreach cap w acc → wreach cap (close w) acc.

Definition inflight_ w : list bytes := match at_ w with Write fs => fs | _ => [] end.

Record wInv (cap : Z) w (acc : list bytes) : Prop := {
  wi_max : maxBytes w = cap;
  wi_open : closed w = false → writeFrames acc = out w ++ writeFrames (inflight_ w ++ queue w);
  wi_out : out w ++ writeFrames (inflight_ w) `prefix_of` writeFrames acc ∨ closed w = true ∧ at_ w = Idle ∧ out w `prefix_of` writeFrames acc;
  wi_idle : closed w = false → at_ w = Idle → queue w = [];
  wi_draining : closed w = false → draining w = true ↔ at_ w ≠ Idle;
  wi_bytes : pendingBytes w = Z.of_nat (length (concat (queue w)));
}.

Lemma wInv_prefix cap w acc : wInv cap w acc → out w `prefix_of` writeFrames acc.
Proof. intros [_ _ [H|(_&_&H)] _ _ _]; [|done]. etrans; [|exact H]. by eexists. Qed.

Lemma wInv_close cap w acc : wInv cap w acc → wInv cap (close w) acc.
Proof.
  intros Hi. unfold close. destruct (closed w) eqn:Ec; [done|]. destruct Hi as [H1 H2 H3 H4 H5 H6]. constructor; cbn; try done.
  left. destruct H3 as [H|(?&_)]; [exact H|congruence].
Qed.

Lemma wInv_drain cap w acc io : wInv cap w acc → wInv cap (drain io w) acc.
Proof.
  intros Hi. pose proof (wInv_prefix _ _ _ Hi) as Hp. unfold drain. destruct Hi as [H1 H2 H3 H4 H5 H6]. unfold inflight_ in *.
  destruct (at_ w) as [| |frames] eqn:Ea.
  - constructor; unfold inflight_; rewrite ?Ea; done.
  - cbn in H2, H3. destruct (closed w) eqn:Ec; cbn [orb].
    { constructor; unfold inflight_; cbn; try done. right. done. }
    destruct (Nat.eqb_spec (length (queue w)) 0) as [E0%nil_length_inv|E0].
    + constructor; unfold inflight_; cbn; [done|done|left; by rewrite app_nil_r|done|by split|done].
    + constructor; unfold inflight_; cbn.
      * done.
      * intros _. rewrite app_nil_r. by apply H2.
      * left. by rewrite (H2 eq_refl).
      * done.
      * intros _. split; [done|]. intros _. by apply H5.
      * done.
  - destruct io as [k|].
    + assert (out w ++ take k (writeFrames frames) `prefix_of` writeFrames acc) as Hk.
      { destruct H3 as [[r Hr]|(_&?&_)]; [|done]. rewrite Hr. exists (drop k (writeFrames frames) ++ r). rewrite <- !app_assoc. f_equal. by rewrite app_assoc, take_drop. }
      unfold close. cbn [closed]. destruct (closed w) eqn:Ec; constructor; unfold inflight_; cbn; try done; by right.
    + assert (out w ++ writeFrames frames `prefix_of` writeFrames acc) as Hk by (destruct H3 as [?|(_&?&_)]; done).
      constructor; unfold inflight_; cbn; try done.
      * intros Ec. rewrite (H2 Ec), writeFrames_app. by rewrite <- app_assoc.
      * left. by rewrite app_nil_r.
      * intros Ec. rewrite (H5 Ec). done.
Qed.

Lemma wInv_enqueue cap w acc frame w' ok : wInv cap w acc → enqueue w frame = Some (w', ok) → wInv cap w' (if ok then acc ++ [frame] else acc).
Proof.
  intros Hi. unfold enqueue. destruct (blocked w); [done|]. destruct (closed w) eqn:Ec; [by intros [= <- <-]|]. intros [= <- <-].
  destruct Hi as [H1 H2 H3 H4 H5 H6]. unfold inflight_ in *. constructor; unfold inflight_; cbn [queue pendingBytes maxBytes draining closed at_ out].
  - done.
  - intros _. rewrite writeFrames_app, (H2 Ec). destruct (draining w) eqn:Ed.
    + rewrite !writeFrames_app. by rewrite <- !app_assoc.
    + destruct (at_ w) eqn:Ea; [|by assert (false = true) by (by apply H5)..]. cbn [app]. by rewrite <- app_assoc, writeFrames_app.
  - left. destruct H3 as [H3|(?&_)]; [|congruence]. rewrite writeFrames_app. destruct (draining w) eqn:Ed; [etrans; [exact H3|by eexists]|].
    change (writeFrames []) with (@nil Z). rewrite app_nil_r. etrans; [|by eexists]. etrans; [|exact H3]. by eexists.
  - intros _. destruct (draining w) eqn:Ed; [|done]. intros E. exfalso. by apply (proj1 (H5 Ec) eq_refl).
  - intros _. split; [|done]. intros _. destruct (draining w) eqn:Ed; [|done]. by apply H5.
  - rewrite H6, concat_app, length_app. cbn. rewrite app_nil_r. lia.
Qed.

Lemma wreach_inv cap w acc : wreach cap w acc → wInv cap w acc.
Proof.
  induction 1 as [|w acc frame w' ok _ IH E|w acc io _ IH|w acc _ IH]; [|by eapply wInv_enqueue|by apply wInv_drain|by apply wInv_close].
  constructor; unfold inflight_; cbn; try done. by left.
Qed.

(** Frames reach the client in the order in which handlers wrote them, whole and with
    none between them, up to where the connection broke; a producer waits only when the
    queue holds as many bytes as its cap, and then at most three steps of the drain make
    room. *)
Lemma writer_in_order cap w acc : 0 < cap → wreach cap w acc →
  out w `prefix_of` writeFrames acc
  ∧ (closed w = false → ∃ k, (k ≤ 3)%nat ∧ out (Nat.iter k (drain None) w) = writeFrames acc)
  ∧ (blocked w = true → cap ≤ Z.of_nat (length (concat (queue w))) ∧ ∃ k, (k ≤ 2)%nat ∧ blocked (Nat.iter k (drain None) w) = false).
Proof.
  intros Hcap Hr%wreach_inv. split_and!; [by eapply wInv_prefix| |].
  - intros Ec. pose proof (wi_open _ _ _ Hr Ec) as Ho. pose proof (wi_idle _ _ _ Hr Ec) as Hid. destruct w as [q pb mb dr cl at0 o]. cbn in *. subst cl.
    destruct at0 as [| |frames]; cbn [app] in *.
    + exists 0%nat. split; [lia|]. rewrite Hid in Ho by done. rewrite Ho. symmetry. apply app_nil_r.
    + exists 2%nat. split; [lia|]. change (Nat.iter 2 (drain None) ?x) with (drain None (drain None x)).
      cbn [drain at_ closed queue orb]. rewrite Ho. destruct (Nat.eqb_spec (length q) 0) as [->%nil_length_inv|]; [symmetry; apply app_nil_r|done].
    + exists 3%nat. split; [lia|]. change (Nat.iter 3 (drain None) ?x) with (drain None (drain None (drain None x))).
      cbn [drain at_ closed queue orb out]. rewrite Ho, writeFrames_app, app_assoc.
      destruct (Nat.eqb_spec (length q) 0) as [->%nil_length_inv|]; [symmetry; apply app_nil_r|done].
  - unfold blocked. intros [Ec Hb]%andb_prop. apply negb_true_iff in Ec. apply Z.leb_le in Hb. rewrite (wi_max _ _ _ Hr), (wi_bytes _ _ _ Hr) in Hb. split; [done|].
    pose proof (wi_idle _ _ _ Hr Ec) as Hid. pose proof (wi_max _ _ _ Hr) as Hm. pose proof (wi_bytes _ _ _ Hr) as Hby.
    destruct w as [q pb mb dr cl at0 o]. cbn in *. subst cl mb pb.
    assert (Nat.eqb (length q) 0 = false) as Hq by (destruct q; [cbn in Hb; lia|done]).
    destruct at0 as [| |frames].
    + rewrite Hid in Hq by done. done.
    + exists 1%nat. split; [lia|]. change (Nat.iter 1 (drain None) ?x) with (drain None x). cbn [drain at_ closed queue orb]. rewrite Hq. cbn. apply Z.leb_gt. lia.
    + exists 2%nat. split; [lia|]. change (Nat.iter 2 (drain None) ?x) with (drain None (drain None x)). cbn [drain at_ closed queue orb]. rewrite Hq. cbn. apply Z.leb_gt. lia.
Qed.
End writer.

Import samples kvSamples.

Module gatewaySamples.
Definition sampleSchema : CompileStats := mkStats {[bs "person/email" := 100]} ∅ ∅ ∅ ∅.
Definition sampleQuery : list (value * value) :=
  [(Str (bs "type"), Str (bs "datalog")); (Str (bs "query"), Str (bs "[:find ?e ?v :where [?e :person/email ?v]]")); (Str (bs "params"), Array [Int 7])].
Definition sampleFront : Front := mkFront (Some sampleSchema) 0 (30 * 10 ^ 9).
Definition sampleGateway (kv : KVStore FileBlobStore) : Gateway :=
  mkGw (Some (mkReplica (Session.New (mkEngine kv NewResolver (Hydrated.New 4096) (Anchor.New 4096) true)) (mkStatsCache None 0) true false 0 0 0 0)) (Some sampleSchema) (Some 0).
Definition noNumber : bytes → option Z := fun _ => None.
Definition noText : Z → bytes := fun _ => [].
End gatewaySamples.
Import gatewaySamples.

Lemma front_equals_gateway_witness :
  ∃ kv req, sampleWritten = Ok kv ∧ frontDatalog noNumber 0 bs 5 None None [] sampleQuery sampleFront = Ok (Relay req, sampleFront)
    ∧ serve noNumber noText noText noText 0 (fun _ => 0) bs (fun _ l => l) 0 100 5 true true req (sampleGateway kv)
      = handleDatalog noNumber noText noText noText 0 (fun _ => 0) bs (fun _ l => l) 0 100 5 true sampleQuery (sampleGateway kv).
Proof.
  destruct sample_written as (kv&E&_). exists kv.
  assert (match CompileDatalogQuery noNumber 0 (memberStr sampleQuery "query") sampleSchema with
    | Ok (inr (prog, columns)) => sendable prog && wf (Array (map Str columns)) && negb (Z.of_nat (nesting prog) >? MaxWireDepth) | _ => false end = true) as Hc by (vm_compute; reflexivity).
  destruct (CompileDatalogQuery noNumber 0 (memberStr sampleQuery "query") sampleSchema) as [[msg|[prog columns]]| | |] eqn:Ep; [done| |done..].
  apply andb_prop in Hc as [[H1 H2]%andb_prop H3%negb_true_iff].
  destruct (front_equals_gateway noNumber noText noText noText 0 (fun _ => 0) bs (fun _ l => l) 0 100 5 true [] sampleQuery (sampleGateway kv) _ sampleFront sampleSchema prog columns
    eq_refl eq_refl eq_refl) as (req&Ef&Es); [done|by vm_compute|by vm_compute|by vm_compute|exact Ep|exact H1|by vm_compute|exact H2|].
  exists req. rewrite H3 in Es. split; [exact E|]. split; [exact Ef|exact Es].
Defined.

Lemma client_id_unanswered_witness : ∃ body m',
  injectID (Marshal (Map [(Str (bs "type"), Str (bs "tx")); (Str (bs "id"), Str (bs "mine"))])) (bs "1") = Ok body
  ∧ Unmarshal body = Ok (Map m') ∧ memberStr m' "id" = bs "mine".
Proof.
  destruct (injectID (Marshal (Map [(Str (bs "type"), Str (bs "tx")); (Str (bs "id"), Str (bs "mine"))])) (bs "1")) as [body| | |] eqn:E; [|by vm_compute in E..].
  destruct (client_id_unanswered [(Str (bs "type"), Str (bs "tx")); (Str (bs "id"), Str (bs "mine"))] (bs "mine") (bs "1") body) as [(m'&E'&_&Hm) _];
    [by vm_compute|by vm_compute|by vm_compute|by vm_compute|done|done|exact E|]. by exists body, m'.
Defined.

(** ** From the log to the replica *)

Lemma filter_prefix (f : bytes → bool) l l' : l `prefix_of` l' → List.filter f l `prefix_of` List.filter f l'.
Proof. intros [k ->]. rewrite List.filter_app. by eexists. Qed.

(** C13. What a replica applies is what the hub was told, in order: on a connection that
    has read a beginning of what the hub wrote to a subscriber, the events given to the
    replica are a beginning of the events among the frames the hub made of the records,
    seals, roots and snapshots it was told for that subscriber, with nothing left out
    and nothing in another order, however goroutines and failing writes interleave on
    either side. *)
Theorem stream_reaches_replica h logs i s c :
  hreach h logs → heap h !! i = Some s → Forall fits (framed (logs i)).1 →
  creach c → drop (heardBefore c) (heard c) `prefix_of` framesIn (Replication.sent s) →
  eventsApplied c `prefix_of` List.filter isEvent (framed (logs i)).1.
Proof.
  intros Hr Hi Hf Hc Hh. pose proof (hreach_ok h logs Hr) as Hok.
  assert (Replication.sent s `prefix_of` writeFrames (framed (logs i)).1) as Hp.
  { destruct (ho_sub _ _ Hok i s Hi) as [Hl|Hg]; [|apply Hg]. etrans; [|by apply live_prefix]. by eexists. }
  apply framesIn_prefix in Hp; [|done]. pose proof (creach_evInv c Hc) as He.
  etrans; [|apply filter_prefix; etrans; [exact Hh|exact Hp]]. change (List.filter isEvent (drop (heardBefore c) (heard c))) with (eventsHeard c).
  destruct (decide (Downstream.reader c = RDial)) as [Er|Er]; [by apply (ei_dial c He)|]. rewrite <- (ei_all c He Er). by eexists.
Qed.

(** The hub writes to a subscriber, and the link reads it and applies an event. *)
Definition sampleStream : list bytes := match heap (runHubs (NewHub (bs "blobs")) Replication.sampleOps) !! 0%nat with Some s => framesIn (Replication.sent s) | None => [] end.
Definition sampleLink : Conn := runOpen ([DDial] ++ concat (map (fun f => [DHear f; DSend]) (take 2 sampleStream)) ++ [DApply]).

Lemma stream_reaches_replica_witness :
  eventsApplied sampleLink ≠ [] ∧ eventsApplied sampleLink `prefix_of` List.filter isEvent (framed (logsOf (NewHub (bs "blobs")) (fun _ => []) Replication.sampleOps 0%nat)).1.
Proof.
  split; [by vm_compute|].
  destruct (heap (runHubs (NewHub (bs "blobs")) Replication.sampleOps) !! 0%nat) as [s|] eqn:E; [|by vm_compute in E].
  apply (stream_reaches_replica (runHubs (NewHub (bs "blobs")) Replication.sampleOps) (logsOf (NewHub (bs "blobs")) (fun _ => []) Replication.sampleOps) 0 s sampleLink).
  - exact sample_hub_reach.
  - exact E.
  - apply (bool_decide_unpack _). vm_compute. reflexivity.
  - apply runOpen_reach.
  - assert (framesIn (Replication.sent s) = sampleStream) as -> by (unfold sampleStream; by rewrite E). apply (bool_decide_unpack _). vm_compute. exact I.
Defined.
