(* ===== verification/S3.v ===== *)
(** * The S3 backend (go/internal/blobstore/s3.go, sigv4.go)

    Blobs and roots as objects of a bucket: the requests, their signatures and their
    pages of listings. The service is a parameter, a state and what a request does to it;
    [S3Laws] says what the backend relies on of it, in the terms of its documentation: the
    address a request reads as, decoded, its query, and Signature Version 4 as the
    service computes it from the request it receives ([signedBy]). What the
    configuration must be is [s3_configured]. A request that fails leaves the caller with
    the store it had. *)

From Stdlib Require Import String.
From S2P Require Import Prelude Pages BlobStore Sorting.
Open Scope string_scope.
Open Scope list_scope.
Open Scope Z_scope.

(** ** Texts *)

Definition upperHex : bytes := bs "0123456789ABCDEF".

Definition unreserved (c : Z) : bool :=
  ((65 <=? c) && (c <=? 90)) || ((97 <=? c) && (c <=? 122)) || ((48 <=? c) && (c <=? 57))
  || (c =? 45) || (c =? 95) || (c =? 46) || (c =? 126).

Definition percent (c : Z) : bytes := [37; nth (Z.to_nat (Z.shiftr c 4)) upperHex 0; nth (Z.to_nat (Z.land c 0x0f)) upperHex 0].
Definition escapeBy (keep : Z → bool) (s : bytes) : bytes := flat_map (fun c => if keep c then [c] else percent c) s.

Definition encodePathSegment : bytes → bytes := escapeBy (fun c => unreserved c || (c =? 47)).
Definition encodeQueryKey : bytes → bytes := escapeBy (fun c => unreserved c || (c =? 37)).
Definition awsQueryEscape : bytes → bytes := escapeBy unreserved.

(** [strings.Split] on one byte, [strings.Join], [strings.IndexByte] as a cut,
    [strings.ToLower], [strings.ToUpper] and [strings.TrimSpace] of ASCII texts. *)
Fixpoint Split (s : bytes) (sep : Z) : list bytes :=
  match s with
  | [] => [[]]
  | c :: s' =>
      match Split s' sep with
      | p :: ps => if c =? sep then [] :: p :: ps else (c :: p) :: ps
      | [] => []
      end
  end.
Definition Join (parts : list bytes) (sep : bytes) : bytes :=
  match parts with [] => [] | p :: ps => p ++ flat_map (fun x => sep ++ x) ps end.
Fixpoint cutAt (s : bytes) (sep : Z) : option (bytes * bytes) :=
  match s with
  | [] => None
  | c :: s' => if c =? sep then Some ([], s') else match cutAt s' sep with Some (a, b) => Some (c :: a, b) | None => None end
  end.
Definition ToLower (s : bytes) : bytes := map (fun c => if (65 <=? c) && (c <=? 90) then c + 32 else c) s.
Definition ToUpper (s : bytes) : bytes := map (fun c => if (97 <=? c) && (c <=? 122) then c - 32 else c) s.
Definition isSpace (c : Z) : bool := (c =? 32) || ((9 <=? c) && (c <=? 13)).
Fixpoint trimLeft (s : bytes) : bytes := match s with c :: s' => if isSpace c then trimLeft s' else s | [] => [] end.
Definition TrimSpace (s : bytes) : bytes := reverse (trimLeft (reverse (trimLeft s))).

(** [strings.LastIndexByte] with what follows. *)
Definition lastSegment (s : bytes) : bytes := List.last (Split s 47) [].

(** [hex.EncodeToString]. *)
Definition hexText (s : bytes) : bytes := flat_map hexByte s.

(** ** Reading the texts back *)

(** What a service reads of an escaped text. *)
Fixpoint percentDecode (s : bytes) : option bytes :=
  match s with
  | [] => Some []
  | c :: s' =>
      if c =? 37 then
        match s' with
        | x :: y :: s'' =>
            hi ← hexNibble x; lo ← hexNibble y; t ← percentDecode s''; Some (Z.lor (Z.shiftl hi 4) lo :: t)
        | _ => None
        end
      else t ← percentDecode s'; Some (c :: t)
  end.

Lemma hexNibble_upper n : 0 ≤ n < 16 → hexNibble (nth (Z.to_nat n) upperHex 0) = Some n.
Proof.
  intros Hn. assert (n = 0 ∨ n = 1 ∨ n = 2 ∨ n = 3 ∨ n = 4 ∨ n = 5 ∨ n = 6 ∨ n = 7 ∨ n = 8 ∨ n = 9
    ∨ n = 10 ∨ n = 11 ∨ n = 12 ∨ n = 13 ∨ n = 14 ∨ n = 15) as Hc by lia.
  repeat (destruct Hc as [->|Hc]; [done|]). by subst.
Qed.

Lemma decode_escape keep s : keep 37 = false → bytes_ok s → percentDecode (escapeBy keep s) = Some s.
Proof.
  intros Hk. induction 1 as [|c s Hc Hs IH]; [done|]. unfold escapeBy. cbn [flat_map]. fold (escapeBy keep s). destruct (keep c) eqn:E.
  - cbn [app percentDecode]. destruct (Z.eqb_spec c 37) as [->|_]; [congruence|]. by rewrite IH.
  - unfold percent. cbn [app percentDecode]. change (37 =? 37) with true. cbv iota. destruct (nibbles c) as [-> ->]. unfold is_u8 in Hc.
    rewrite !hexNibble_upper by mlia. cbn [mbind option_bind]. rewrite IH. cbn [mbind option_bind].
    do 2 f_equal. rewrite Z.shiftl_mul_pow2, lor_low by mlia. mlia.
Qed.

Lemma upperHex_in n : 0 ≤ n < 16 → nth (Z.to_nat n) upperHex 0 ∈ upperHex.
Proof. intros Hn. apply list_elem_of_In, nth_In. change (length upperHex) with 16%nat. lia. Qed.

(** An escaped text has what is kept, percent signs and digits. *)
Lemma escape_avoids keep s x : keep x = false → x ≠ 37 → x ∉ upperHex → bytes_ok s → x ∉ escapeBy keep s.
Proof.
  intros Hk H37 Hx. induction 1 as [|c s Hc Hs IH]; [apply not_elem_of_nil|]. unfold escapeBy. cbn [flat_map]. fold (escapeBy keep s).
  intros [H|H]%elem_of_app; [|by apply IH]. destruct (keep c) eqn:E; [apply list_elem_of_singleton in H; congruence|].
  unfold percent in H. destruct (nibbles c) as [E1 E2]. rewrite E1, E2 in H. unfold is_u8 in Hc. apply elem_of_cons in H as [?|H]; [done|].
  apply elem_of_cons in H as [->|H]; [apply Hx, upperHex_in; mlia|]. apply list_elem_of_singleton in H as ->. apply Hx, upperHex_in. mlia.
Qed.

Lemma Split_nonempty s sep : Split s sep ≠ [].
Proof. induction s as [|c s IH]; [done|]. cbn [Split]. destruct (Split s sep); [done|]. by destruct (c =? sep). Qed.

Lemma Split_app a b sep : Split (a ++ sep :: b) sep = Split a sep ++ Split b sep.
Proof.
  induction a as [|c a IH]; cbn [app Split].
  - pose proof (Split_nonempty b sep). destruct (Split b sep); [done|]. by rewrite Z.eqb_refl.
  - rewrite IH. pose proof (Split_nonempty a sep). destruct (Split a sep) as [|p ps]; [done|]. cbn [app]. by destruct (c =? sep).
Qed.

Lemma Split_single s sep : sep ∉ s → Split s sep = [s].
Proof.
  induction s as [|c s IH]; [done|]. intros H. cbn [Split]. rewrite IH by set_solver. destruct (Z.eqb_spec c sep) as [->|_]; [|done].
  destruct H. left.
Qed.

Lemma cutAt_app a b sep : sep ∉ a → cutAt (a ++ sep :: b) sep = Some (a, b).
Proof.
  induction a as [|c a IH]; cbn [app cutAt]; [by rewrite Z.eqb_refl|]. intros H. destruct (Z.eqb_spec c sep) as [->|_]; [destruct H; left|].
  by rewrite IH by set_solver.
Qed.

Lemma lastSegment_slash pre s : 47 ∉ s → lastSegment (pre ++ 47 :: s) = s.
Proof. intros H. unfold lastSegment. rewrite Split_app, (Split_single s) by done. apply last_last. Qed.

(** A property of the first numbers, from the list of them. *)
Lemma small_Z (n : nat) (P : Z → Prop) c : Forall P (map Z.of_nat (seq 0 n)) → 0 ≤ c < Z.of_nat n → P c.
Proof.
  intros H Hc. rewrite Forall_forall in H. apply H. rewrite <- (Z2Nat.id c) by lia. apply list_elem_of_fmap_2, elem_of_seq. lia.
Qed.

Record S3Config : Type := {
  Endpoint : bytes; Bucket : bytes; Region : bytes; AccessKey : bytes; SecretKey : bytes; Prefix : bytes; PathStyle : bool;
}.

Record signedRequest : Type := { authorization : bytes; amzDate : bytes; contentSha256 : bytes }.

(** What [url.Parse] tells of an endpoint. *)
Record URL : Type := { Scheme : bytes; Host : bytes; Hostname : bytes; Port : bytes }.

(** An HTTP request as it is sent. *)
Record request : Type := { rqMethod : bytes; rqURL : bytes; rqHost : bytes; rqSigned : signedRequest; rqBody : bytes }.

(** [s3ListResult]. *)
Record listResult : Type := { Contents : list bytes; IsTruncated : bool; NextContinuationToken : bytes }.

Section s3.
Variable sha256 : bytes → bytes.
Variable hmacSHA256 : bytes → bytes → bytes.
Variable ParseURL : bytes → option URL.
Variable UnmarshalXML : bytes → option listResult.

(** ** Signatures (sigv4.go) *)

Definition sha256Hex (data : bytes) : bytes := hexText (sha256 data).

(** The host name and the host that is signed. *)
Definition endpointHost (endpoint : bytes) : bytes * bytes :=
  match ParseURL endpoint with
  | Some u =>
      if Nat.eqb (length (Hostname u)) 0 then ([], [])
      else if negb (Nat.eqb (length (Port u)) 0) && negb (bool_decide (Port u = bs "80")) && negb (bool_decide (Port u = bs "443"))
      then (Hostname u, Hostname u ++ bs ":" ++ Port u)
      else (Hostname u, Hostname u)
  | None => ([], [])
  end.

Definition deriveSigningKey (secretKey dateStamp region service : bytes) : bytes :=
  let kDate := hmacSHA256 (bs "AWS4" ++ secretKey) dateStamp in
  let kRegion := hmacSHA256 kDate region in
  let kService := hmacSHA256 kRegion service in
  hmacSHA256 kService (bs "aws4_request").

(** The pairs of a query string. *)
Definition queryPair (part : bytes) : option (bytes * bytes) :=
  match part with
  | [] => None
  | _ => match cutAt part 61 with Some kv => Some kv | None => Some (part, []) end
  end.
Definition queryPairs (queryString : bytes) : list (bytes * bytes) :=
  match queryString with [] => [] | _ => omap queryPair (Split queryString 38) end.

Definition canonicalQuery (queryString : bytes) : bytes :=
  let qs := sortStable (fun a b => bool_decide (a.1 <b b.1)) (queryPairs queryString) in
  Join (map (fun p => encodeQueryKey p.1 ++ bs "=" ++ encodeQueryKey p.2) qs) (bs "&").

Definition newline : bytes := [10].

(** [now] is the time as [20060102T150405Z] writes it; its first eight bytes are the
    date. *)
Definition signV4 (now : bytes) (accessKey secretKey region service endpoint bucket method objectKey queryString : bytes)
    (extraHeaders : list (bytes * bytes)) (payload : bytes) : signedRequest :=
  let payloadHash := sha256Hex payload in
  let dateStamp := take 8 now in
  let signHost := (endpointHost endpoint).2 in
  let canonicalURI := match objectKey with
                      | [] => encodePathSegment (bs "/" ++ bucket)
                      | _ => encodePathSegment (bs "/" ++ bucket ++ bs "/" ++ objectKey)
                      end in
  let headers := [(bs "host", signHost); (bs "x-amz-content-sha256", payloadHash); (bs "x-amz-date", now)] ++ extraHeaders in
  let sorted := sortStable (fun a b => bool_decide (ToLower a.1 <b ToLower b.1)) headers in
  let named := map (fun h => (ToLower (TrimSpace h.1), TrimSpace h.2)) sorted in
  let canonicalHeaders := flat_map (fun h => h.1 ++ bs ":" ++ h.2 ++ newline) named in
  let signedHeaders := Join (map fst named) (bs ";") in
  let canonicalRequest := Join [ToUpper method; canonicalURI; canonicalQuery queryString; canonicalHeaders; signedHeaders; payloadHash] newline in
  let credentialScope := dateStamp ++ bs "/" ++ region ++ bs "/" ++ service ++ bs "/aws4_request" in
  let stringToSign := bs "AWS4-HMAC-SHA256" ++ newline ++ now ++ newline ++ credentialScope ++ newline ++ sha256Hex canonicalRequest in
  let signature := hexText (hmacSHA256 (deriveSigningKey secretKey dateStamp region service) stringToSign) in
  {| authorization := bs "AWS4-HMAC-SHA256 " ++ bs "Credential=" ++ accessKey ++ bs "/" ++ credentialScope ++ bs ", "
                        ++ bs "SignedHeaders=" ++ signedHeaders ++ bs ", " ++ bs "Signature=" ++ signature;
     amzDate := now; contentSha256 := payloadHash |}.

(** ** The store (s3.go) *)

(** The world a request meets: the service and the clock. *)
Context {Sv : Type}.
Variable Do : Sv → request → option (Z * bytes) * Sv.
Variable nowUTC : Sv → bytes.
(** A number of pages no listing has more of; the loop of the code has no bound. *)
Variable listFuel : Sv → nat.

(** [conf] has its region filled in; [ids] is what the coming reads of crypto/rand give. *)
Record S3BlobStore : Type := mkS3 { conf : S3Config; s3ReadOnly : bool; service : Sv; ids : list bytes }.
Implicit Types b : S3BlobStore.

Definition NewS3 (cfg : S3Config) (readOnly : bool) (sv : Sv) (rand : list bytes) : res S3BlobStore :=
  if Nat.eqb (length (Endpoint cfg)) 0 then Err "s3 init: missing endpoint"
  else if Nat.eqb (length (Bucket cfg)) 0 then Err "s3 init: missing bucket_name"
  else if Nat.eqb (length (AccessKey cfg)) 0 then Err "s3 init: missing access_key"
  else if Nat.eqb (length (SecretKey cfg)) 0 then Err "s3 init: missing secret_key"
  else
    let region := match Region cfg with [] => bs "us-east-1" | r => r end in
    Ok (mkS3 {| Endpoint := Endpoint cfg; Bucket := Bucket cfg; Region := region; AccessKey := AccessKey cfg; SecretKey := SecretKey cfg;
                Prefix := Prefix cfg; PathStyle := PathStyle cfg |} readOnly sv rand).

Definition prefixedKey (cfg : S3Config) (key : bytes) : bytes := match Prefix cfg with [] => key | p => p ++ bs "/" ++ key end.
Definition blobKeyForID (cfg : S3Config) (id : bytes) : bytes :=
  let hex := idToHex id in prefixedKey cfg (bs "blobs/" ++ take 2 hex ++ bs "/" ++ take 2 (drop 2 hex) ++ bs "/" ++ hex).
Definition rootKeyForName (cfg : S3Config) (name : bytes) : bytes := prefixedKey cfg (bs "roots/" ++ name).

(** The scheme and the host an endpoint names. *)
Definition schemeHost (endpoint : bytes) : bytes * bytes :=
  match ParseURL endpoint with
  | Some u => if Nat.eqb (length (Host u)) 0 then (bs "https", endpoint)
              else (match Scheme u with [] => bs "https" | s => s end, Host u)
  | None => (bs "https", endpoint)
  end.

Definition objectURL (cfg : S3Config) (objectKey queryString : bytes) : bytes :=
  let '(scheme, host) := schemeHost (Endpoint cfg) in
  (if PathStyle cfg then
     scheme ++ bs "://" ++ host
       ++ match objectKey with [] => bs "/" ++ Bucket cfg | _ => bs "/" ++ Bucket cfg ++ bs "/" ++ encodePathSegment objectKey end
   else scheme ++ bs "://" ++ Bucket cfg ++ bs "." ++ host ++ bs "/" ++ encodePathSegment objectKey)
  ++ match queryString with [] => [] | _ => bs "?" ++ queryString end.

Definition buildHost (cfg : S3Config) : bytes :=
  match ParseURL (Endpoint cfg) with
  | Some u => if Nat.eqb (length (Host u)) 0 then Endpoint cfg else Host u
  | None => Endpoint cfg
  end.

Definition requestOf (cfg : S3Config) (now method objectKey queryString payload : bytes) : request :=
  {| rqMethod := method; rqURL := objectURL cfg objectKey queryString; rqHost := buildHost cfg;
     rqSigned := signV4 now (AccessKey cfg) (SecretKey cfg) (Region cfg) (bs "s3") (Endpoint cfg) (Bucket cfg) method objectKey queryString [] payload;
     rqBody := payload |}.

Definition withService b (sv : Sv) : S3BlobStore := mkS3 (conf b) (s3ReadOnly b) sv (ids b).

Definition doRequest b (method objectKey queryString payload : bytes) : res (Z * bytes * S3BlobStore) :=
  match Do (service b) (requestOf (conf b) (nowUTC (service b)) method objectKey queryString payload) with
  | (None, _) => Err "s3 http"
  | (Some (code, body), sv) => Ok (code, body, withService b sv)
  end.

Definition s3FailReadOnly b : res unit := if s3ReadOnly b then Err "read-only" else Ok tt.

(** The pages of a listing, from [token] on. *)
Fixpoint listLoop (fuel : nat) b (prefix token : bytes) : res (list bytes) :=
  match fuel with
  | O => Diverge
  | S fuel' =>
      let qs := bs "list-type=2&prefix=" ++ awsQueryEscape prefix
                ++ match token with [] => [] | _ => bs "&continuation-token=" ++ awsQueryEscape token end in
      '(code, body, _) ← doRequest b (bs "GET") [] qs [];
      if code >=? 300 then Err "s3 list failed"
      else
        match (match body with [] => Some {| Contents := []; IsTruncated := false; NextContinuationToken := [] |} | _ => UnmarshalXML body end) with
        | None => Err "s3 list xml"
        | Some r =>
            if IsTruncated r && negb (Nat.eqb (length (NextContinuationToken r)) 0)
            then more ← listLoop fuel' b prefix (NextContinuationToken r); Ok (Contents r ++ more)
            else Ok (Contents r)
        end
  end.
Definition listAll b (prefix : bytes) : res (list bytes) := listLoop (listFuel (service b)) b prefix [].

(** A PUT of an object. *)
Definition putObject b (key data : bytes) (failed : string) : res S3BlobStore :=
  _ ← s3FailReadOnly b;
  '(code, _, b') ← doRequest b (bs "PUT") key [] data;
  if code >=? 300 then Err failed else Ok b'.

Definition getObject b (key : bytes) (failed : string) : res (option bytes) :=
  '(code, body, _) ← doRequest b (bs "GET") key [] [];
  if code =? 404 then Ok None else if code >=? 300 then Err failed else Ok (Some body).

Definition deleteObject b (key : bytes) (failed : string) : res S3BlobStore :=
  _ ← s3FailReadOnly b;
  '(code, _, b') ← doRequest b (bs "DELETE") key [] [];
  if code =? 404 then Ok b' else if code >=? 300 then Err failed else Ok b'.

Definition s3PutAt b (id data : bytes) : res S3BlobStore := putObject b (blobKeyForID (conf b) id) data "s3 put failed".
Definition s3Put b (data : bytes) : res (bytes * S3BlobStore) :=
  _ ← s3FailReadOnly b;
  match ids b with
  | [] => Err "urandom"
  | id :: r => b' ← s3PutAt (mkS3 (conf b) (s3ReadOnly b) (service b) r) id data; Ok (id, b')
  end.
Definition s3Get b (id : bytes) : res (option bytes) := getObject b (blobKeyForID (conf b) id) "s3 get failed".
Definition s3Delete b (id : bytes) : res S3BlobStore := deleteObject b (blobKeyForID (conf b) id) "s3 delete failed".
Definition s3List b : res (list bytes) :=
  res_map (fun keys : list bytes => omap (fun k => hexToID (lastSegment k)) keys) (listAll b (prefixedKey (conf b) (bs "blobs/"))).
Definition s3PutRoot b (name data : bytes) : res S3BlobStore := putObject b (rootKeyForName (conf b) name) data "s3 putRoot failed".
Definition s3GetRoot b (name : bytes) : res (option bytes) := getObject b (rootKeyForName (conf b) name) "s3 getRoot failed".
Definition s3ListRoots b : res (list bytes) :=
  res_map (fun keys => merge_sort ble (filter (fun n => has_prefix n (bs "root_") = true) (map lastSegment keys)))
    (listAll b (prefixedKey (conf b) (bs "roots/"))).
Definition s3DeleteRoot b (name : bytes) : res S3BlobStore := deleteObject b (rootKeyForName (conf b) name) "s3 deleteRoot failed".

#[export] Instance S3BlobStore_ops : BlobStore S3BlobStore := {|
  Put := s3Put; PutAt := s3PutAt; Get := s3Get; Delete := s3Delete; List_ := s3List;
  PutRoot := s3PutRoot; GetRoot := s3GetRoot; ListRoots := s3ListRoots; DeleteRoot := s3DeleteRoot |}.

(** *** The choice of a backend (open.go) *)

Record BackendConfig : Type := { Backend : bytes; BackendReadOnly : bool; S3Cfg : S3Config }.

(** [fs] is what the directory of the configuration holds. *)
Definition OpenBackend (cfg : BackendConfig) (fs : gmap (list bytes) bytes) (sv : Sv) (rand : list bytes) : res (FileBlobStore + S3BlobStore) :=
  if bool_decide (Backend cfg = []) || bool_decide (Backend cfg = bs "file")
  then Ok (inl {| files := fs; readOnly := BackendReadOnly cfg; BlobStore.rand := rand |})
  else if bool_decide (Backend cfg = bs "s3") then res_map inr (NewS3 (S3Cfg cfg) (BackendReadOnly cfg) sv rand)
  else Err "blobstore: unknown backend".

(** ** What the service documents *)

(** Signature Version 4 as the service documents it, written from the request it
    receives and not from the signer: the encoding of texts, the reading of a query, the
    canonical request and the authorization. *)

(** [UriEncode]: the unreserved characters stay, every other byte becomes a percent sign
    and two capital digits; the slashes of a path stay too. *)
Definition plainChars : bytes := bs "ABCDEFGHIJKLMNOPQRSTUVWXYZabcdefghijklmnopqrstuvwxyz0123456789-._~".
Definition capitalDigit (n : Z) : Z := if n <? 10 then 48 + n else 55 + n.
Definition uriEncode (isPath : bool) (s : bytes) : bytes :=
  flat_map (fun c => if bool_decide (c ∈ plainChars) || (isPath && (c =? 47)) then [c] else [37; capitalDigit (c / 16); capitalDigit (c `mod` 16)]) s.

(** [Hex]: two small digits for a byte. *)
Definition smallDigit (n : Z) : Z := if n <? 10 then 48 + n else 87 + n.
Definition baseHex (s : bytes) : bytes := flat_map (fun c => [smallDigit (c / 16); smallDigit (c `mod` 16)]) s.

(** The pairs a query string says. *)
Definition decodePair (kv : bytes * bytes) : option (bytes * bytes) :=
  k ← percentDecode kv.1; v ← percentDecode kv.2; Some (k, v).
Definition writePair (kv : bytes * bytes) : bytes := kv.1 ++ bs "=" ++ kv.2.
Definition pairPlain (kv : bytes * bytes) : Prop := 38 ∉ writePair kv ∧ 61 ∉ kv.1 ∧ 35 ∉ writePair kv.
Definition querySays (q : bytes) (ps : list (bytes * bytes)) : Prop :=
  ∃ raw, q = Join (map writePair raw) (bs "&") ∧ Forall pairPlain raw ∧ mapM decodePair raw = Some ps.

(** A request for [path] at [host] with the pairs [ps] for its query. *)
Definition reaches (rq : request) (host path : bytes) (ps : list (bytes * bytes)) : Prop :=
  ∃ scheme raw q, rqURL rq = scheme ++ bs "://" ++ host ++ raw ++ match ps with [] => [] | _ => bs "?" ++ q end
    ∧ 58 ∉ scheme ∧ rqHost rq = host ∧ (∃ raw', raw = 47 :: raw') ∧ 63 ∉ raw ∧ 35 ∉ raw ∧ percentDecode raw = Some path ∧ querySays q ps.

(** The encoded pairs in the order of their names, and of their values under one name. *)
Definition pairBefore (a b : bytes * bytes) : Prop := a.1 <b b.1 ∨ (a.1 = b.1 ∧ a.2 <=b b.2).
Definition canonicalPairs (ps : list (bytes * bytes)) (enc : list (bytes * bytes)) : Prop :=
  enc ≡ₚ map (fun kv => (uriEncode false kv.1, uriEncode false kv.2)) ps ∧ StronglySorted pairBefore enc.

Definition canonicalForm (method path : bytes) (enc : list (bytes * bytes)) (host date hash : bytes) : bytes :=
  method ++ newline ++ uriEncode true path ++ newline ++ Join (map writePair enc) (bs "&") ++ newline
    ++ bs "host:" ++ host ++ newline ++ bs "x-amz-content-sha256:" ++ hash ++ newline ++ bs "x-amz-date:" ++ date ++ newline ++ newline
    ++ bs "host;x-amz-content-sha256;x-amz-date" ++ newline ++ hash.

Definition signingKey (secret day region : bytes) : bytes :=
  hmacSHA256 (hmacSHA256 (hmacSHA256 (hmacSHA256 (bs "AWS4" ++ secret) day) region) (bs "s3")) (bs "aws4_request").

Definition authorizationOf (account : S3Config) (date form : bytes) : bytes :=
  let day := take 8 date in
  let scope := day ++ bs "/" ++ Region account ++ bs "/s3/aws4_request" in
  bs "AWS4-HMAC-SHA256 Credential=" ++ AccessKey account ++ bs "/" ++ scope
    ++ bs ", SignedHeaders=host;x-amz-content-sha256;x-amz-date, Signature="
    ++ baseHex (hmacSHA256 (signingKey (SecretKey account) day (Region account))
         (bs "AWS4-HMAC-SHA256" ++ newline ++ date ++ newline ++ scope ++ newline ++ baseHex (sha256 form))).

(** The request for [path] with [ps] carries, for the moment [date], the digest of its
    body and the authorization the keys of the account give it. *)
Definition signedBy (account : S3Config) (date : bytes) (rq : request) (path : bytes) (ps : list (bytes * bytes)) : Prop :=
  ∃ enc, canonicalPairs ps enc
    ∧ amzDate (rqSigned rq) = date ∧ contentSha256 (rqSigned rq) = baseHex (sha256 (rqBody rq))
    ∧ authorization (rqSigned rq)
      = authorizationOf account date (canonicalForm (rqMethod rq) path enc (rqHost rq) date (baseHex (sha256 (rqBody rq)))).

(** The paths of an object and of the bucket, and the query of a listing. *)
Definition objectPath (account : S3Config) (key : bytes) : bytes := bs "/" ++ Bucket account ++ bs "/" ++ key.
Definition bucketPath (account : S3Config) : bytes := bs "/" ++ Bucket account.
Definition listPairs (prefix token : bytes) : list (bytes * bytes) :=
  [(bs "list-type", bs "2"); (bs "prefix", prefix)] ++ match token with [] => [] | _ => [(bs "continuation-token", token)] end.

(** The service at [sv_host] keeps the objects of the bucket of [account]. It serves a
    request that reaches it and is signed, for the moment it is sent, with the keys of the
    account; it answers a listing in pages, each but the last with the token of the next.
    Digests are bytes and the clock is written in digits, a T and a Z. *)
Class S3Laws (account : S3Config) := {
  sv_inv : Sv → Prop;
  sv_host : bytes;
  stored : Sv → bytes → option bytes;
  pages : Sv → bytes → list (list bytes);
  token : Sv → bytes → nat → bytes;
  digest_bytes : ∀ d, bytes_ok (sha256 d);
  hmac_bytes : ∀ k d, bytes_ok (hmacSHA256 k d);
  clock_text : ∀ sv, Forall (fun c => 48 ≤ c ≤ 57 ∨ c = 84 ∨ c = 90) (nowUTC sv);
  put_object : ∀ sv rq key, sv_inv sv → rqMethod rq = bs "PUT" → key ≠ [] →
    reaches rq sv_host (objectPath account key) [] → signedBy account (nowUTC sv) rq (objectPath account key) [] →
    ∃ body sv', Do sv rq = (Some (200, body), sv') ∧ sv_inv sv' ∧ ∀ k, stored sv' k = if bool_decide (k = key) then Some (rqBody rq) else stored sv k;
  get_object : ∀ sv rq key, sv_inv sv → rqMethod rq = bs "GET" → key ≠ [] →
    reaches rq sv_host (objectPath account key) [] → signedBy account (nowUTC sv) rq (objectPath account key) [] →
    match stored sv key with Some d => (Do sv rq).1 = Some (200, d) | None => ∃ body, (Do sv rq).1 = Some (404, body) end;
  delete_object : ∀ sv rq key, sv_inv sv → rqMethod rq = bs "DELETE" → key ≠ [] →
    reaches rq sv_host (objectPath account key) [] → signedBy account (nowUTC sv) rq (objectPath account key) [] →
    ∃ code body sv', Do sv rq = (Some (code, body), sv') ∧ (code = 204 ∨ code = 404) ∧ sv_inv sv'
      ∧ ∀ k, stored sv' k = if bool_decide (k = key) then None else stored sv k;
  list_page : ∀ sv rq prefix i ks, sv_inv sv → rqMethod rq = bs "GET" →
    let ps := listPairs prefix (match i with O => [] | S _ => token sv prefix i end) in
    reaches rq sv_host (bucketPath account) ps → signedBy account (nowUTC sv) rq (bucketPath account) ps → pages sv prefix !! i = Some ks →
    ∃ body, (Do sv rq).1 = Some (200, body) ∧ body ≠ []
      ∧ UnmarshalXML body = Some {| Contents := ks; IsTruncated := bool_decide (S i < length (pages sv prefix))%nat;
                                    NextContinuationToken := if bool_decide (S i < length (pages sv prefix))%nat then token sv prefix (S i) else [] |};
  pages_ok : ∀ sv prefix, sv_inv sv → (0 < length (pages sv prefix) ≤ listFuel sv)%nat ∧ NoDup (concat (pages sv prefix))
    ∧ ∀ k, k ∈ concat (pages sv prefix) ↔ has_prefix k prefix = true ∧ is_Some (stored sv k);
  token_ok : ∀ sv prefix i, sv_inv sv → (0 < i < length (pages sv prefix))%nat → token sv prefix i ≠ [] ∧ bytes_ok (token sv prefix i);
}.

(** What the configuration must be for the requests to be signed as they are sent: paths
    name the bucket ([PathStyle]), the bucket needs no escapes, and the endpoint is a URL
    of the service whose host is signed as it is written, which leaves out the ports 80
    and 443 and addresses in brackets. *)
Record s3_configured {account : S3Config} {HS : S3Laws account} : Prop := {
  path_style : PathStyle account = true;
  prefix_bytes : bytes_ok (Prefix account);
  bucket_plain : Forall (fun c => c ∈ plainChars) (Bucket account);
  endpoint_host : ∃ u, ParseURL (Endpoint account) = Some u ∧ 58 ∉ Scheme u ∧ Host u = sv_host ∧ Hostname u ≠ []
    ∧ Forall (fun c => 32 < c) (Host u)
    ∧ ((Port u = [] ∧ Host u = Hostname u) ∨ (Port u ∉ [[]; bs "80"; bs "443"] ∧ Host u = Hostname u ++ bs ":" ++ Port u));
}.
#[global] Arguments s3_configured : clear implicits.
Existing Class s3_configured.

(** ** The laws of a blob store *)

Section laws.
Context {account : S3Config} {HS : S3Laws account}.
Hypothesis Hconf : s3_configured account HS.

(** *** The encodings of the code are those of the documentation *)

Lemma upperHex_digit n : 0 ≤ n < 16 → nth (Z.to_nat n) upperHex 0 = capitalDigit n.
Proof. intros Hn. apply (small_Z 16 (fun n => nth (Z.to_nat n) upperHex 0 = capitalDigit n)); [by repeat constructor|lia]. Qed.

Lemma unreserved_plain c : is_u8 c → unreserved c = bool_decide (c ∈ plainChars).
Proof. intros Hc. refine (small_Z 256 (fun c => unreserved c = bool_decide (c ∈ plainChars)) c _ _); [apply (bool_decide_unpack _); by vm_compute|unfold is_u8 in Hc; lia]. Qed.

Lemma percent_spec c : is_u8 c → percent c = [37; capitalDigit (c / 16); capitalDigit (c `mod` 16)].
Proof. intros Hc. unfold percent. destruct (nibbles c) as [-> ->]. unfold is_u8 in Hc. rewrite !upperHex_digit by mlia. done. Qed.

Lemma escape_uri keep isPath s : (∀ c, is_u8 c → keep c = bool_decide (c ∈ plainChars) || (isPath && (c =? 47))) → bytes_ok s →
  escapeBy keep s = uriEncode isPath s.
Proof.
  intros Hk. induction 1 as [|c s Hc Hs IH]; [done|]. unfold escapeBy, uriEncode in *. cbn [flat_map]. rewrite IH, (Hk c Hc), (percent_spec c Hc). done.
Qed.

Lemma path_uri s : bytes_ok s → encodePathSegment s = uriEncode true s.
Proof. apply escape_uri. intros c Hc. by rewrite (unreserved_plain c Hc). Qed.
Lemma query_uri s : bytes_ok s → awsQueryEscape s = uriEncode false s.
Proof. apply escape_uri. intros c Hc. by rewrite (unreserved_plain c Hc), orb_false_r. Qed.

(** What is escaped already is not escaped again. *)
Lemma escape_once s : bytes_ok s → encodeQueryKey (awsQueryEscape s) = awsQueryEscape s.
Proof.
  induction 1 as [|c s Hc Hs IH]; [done|]. unfold awsQueryEscape, encodeQueryKey, escapeBy in *. cbn [flat_map]. rewrite flat_map_app, IH. f_equal.
  destruct (unreserved c) eqn:E; [cbn [flat_map]; by rewrite E|]. rewrite (percent_spec c Hc). cbn [flat_map].
  assert (∀ n, 0 ≤ n < 16 → unreserved (capitalDigit n) = true) as Hn.
  { intros n Hn. apply (small_Z 16 (fun n => unreserved (capitalDigit n) = true)); [by repeat constructor|lia]. }
  unfold is_u8 in Hc. rewrite !Hn by mlia. done.
Qed.

Lemma hexText_spec s : bytes_ok s → hexText s = baseHex s.
Proof.
  induction 1 as [|c s Hc Hs IH]; [done|]. unfold hexText, baseHex in *. cbn [flat_map]. rewrite IH. f_equal. unfold hexByte. by destruct (nibbles c) as [-> ->].
Qed.

Lemma trim_plain s : Forall (fun c => 32 < c) s → TrimSpace s = s.
Proof.
  assert (∀ s, Forall (fun c => 32 < c) s → trimLeft s = s) as H.
  { intros [|c s']; [done|]. intros [Hc _]%Forall_cons. cbn [trimLeft]. unfold isSpace. replace ((c =? 32) || ((9 <=? c) && (c <=? 13))) with false by lia. done. }
  intros Hs. unfold TrimSpace. rewrite (H s Hs), H by (by apply Forall_reverse). apply reverse_involutive.
Qed.

Lemma baseHex_plain s : bytes_ok s → Forall (fun c => 32 < c) (baseHex s).
Proof.
  induction 1 as [|c s Hc Hs IH]; [constructor|]. unfold baseHex in *. cbn [flat_map app].
  assert (∀ n, 0 ≤ n < 16 → 32 < smallDigit n) as Hn by (intros n Hn; unfold smallDigit; destruct (n <? 10); lia). unfold is_u8 in Hc.
  constructor; [apply Hn; mlia|]. constructor; [apply Hn; mlia|done].
Qed.

(** The pairs the signer splits off a query are those it says. *)
Lemma queryPairs_says raw : Forall pairPlain raw → queryPairs (Join (map writePair raw) (bs "&")) = raw.
Proof.
  intros H. destruct raw as [|kv raw]; [done|]. assert (∀ kv, pairPlain kv → queryPair (writePair kv) = Some kv) as Hp.
  { intros [k v] (_&Hk&_). unfold queryPair, writePair in *. cbn [fst snd] in *. change (bs "=" ++ v) with (61 :: v). rewrite cutAt_app by done. by destruct k. }
  assert (∀ raw kv, Forall pairPlain (kv :: raw) → omap queryPair (Split (Join (map writePair (kv :: raw)) (bs "&")) 38) = kv :: raw) as G.
  { clear raw kv H. induction raw as [|kv' raw IH]; intros kv [H1 H2]%Forall_cons.
    - cbn [map Join flat_map]. rewrite app_nil_r, Split_single by (apply H1). cbn [omap list_omap]. by rewrite (Hp kv H1).
    - change (Join (map writePair (kv :: kv' :: raw)) (bs "&")) with (writePair kv ++ 38 :: Join (map writePair (kv' :: raw)) (bs "&")).
      rewrite Split_app, Split_single by (apply H1). cbn [app omap list_omap]. rewrite (Hp kv H1). f_equal. by apply IH. }
  rewrite <- (G raw kv H) at 2. unfold queryPairs. destruct (Join _ _) eqn:E; [|done].
  cbn [map Join] in E. unfold writePair in E. destruct kv.1; discriminate.
Qed.

(** *** Requests are signed as the service reads them *)

Lemma host_spec : (endpointHost (Endpoint account)).2 = sv_host ∧ buildHost account = sv_host ∧ Forall (fun c => 32 < c) sv_host
  ∧ ∃ scheme, schemeHost (Endpoint account) = (scheme, sv_host) ∧ 58 ∉ scheme.
Proof.
  destruct (endpoint_host Hconf) as (u&Eu&Hs&Hh&Hn&Hsp&Hport). unfold endpointHost, buildHost, schemeHost. rewrite Eu.
  assert (length (Hostname u) ≠ 0%nat) as Hl by (by destruct (Hostname u)).
  assert (length (Host u) ≠ 0%nat) as Hl'.
  { destruct Hport as [[_ ->]|[_ ->]]; [done|]. rewrite length_app. lia. }
  apply Nat.eqb_neq in Hl, Hl'. rewrite Hl, Hl', <- Hh. split_and!; [|done|done|].
  - destruct Hport as [[-> ->]|[Hp ->]]; [done|]. rewrite !bool_decide_false by (intros E; apply Hp; rewrite E; set_solver).
    replace (Nat.eqb (length (Port u)) 0) with false; [done|]. symmetry. apply Nat.eqb_neq. intros E%length_zero_iff_nil. apply Hp. rewrite E. left.
  - eexists. split; [done|]. destruct (Scheme u); [apply (bool_decide_unpack _); by vm_compute|done].
Qed.

Lemma headers_sorted (a b c : bytes) :
  sortStable (fun x y : bytes * bytes => bool_decide (ToLower x.1 <b ToLower y.1)) ([(bs "host", a); (bs "x-amz-content-sha256", b); (bs "x-amz-date", c)] ++ [])
  = [(bs "host", a); (bs "x-amz-content-sha256", b); (bs "x-amz-date", c)].
Proof. vm_compute. reflexivity. Qed.

Lemma signed_request sv method key qs payload path ps enc : ToUpper method = method →
  match key with [] => encodePathSegment (bucketPath account) | _ => encodePathSegment (objectPath account key) end = uriEncode true path →
  canonicalQuery qs = Join (map writePair enc) (bs "&") → canonicalPairs ps enc →
  signedBy account (nowUTC sv) (requestOf account (nowUTC sv) method key qs payload) path ps.
Proof.
  intros Hm Hpath Hq Henc. exists enc. split; [done|]. destruct host_spec as (Eh&Eb&Hh&_). cbn [rqSigned rqBody rqMethod rqHost requestOf].
  assert (∀ d, sha256Hex d = baseHex (sha256 d)) as Hsha by (intros d; apply hexText_spec, digest_bytes).
  split; [done|]. split; [apply Hsha|]. unfold signV4. cbn [authorization]. unfold objectPath, bucketPath in Hpath. rewrite Eh, Eb, !Hsha, headers_sorted, Hq, Hm, Hpath.
  rewrite hexText_spec by apply hmac_bytes. cbn [map fst snd].
  rewrite (trim_plain sv_host), (trim_plain (baseHex (sha256 payload))), (trim_plain (nowUTC sv));
    [|eapply Forall_impl; [apply clock_text|cbn; lia]|by apply baseHex_plain, digest_bytes|done].
  change (ToLower (TrimSpace (bs "host"))) with (bs "host"). change (ToLower (TrimSpace (bs "x-amz-content-sha256"))) with (bs "x-amz-content-sha256").
  change (ToLower (TrimSpace (bs "x-amz-date"))) with (bs "x-amz-date").
  unfold authorizationOf, canonicalForm, deriveSigningKey, signingKey. cbv zeta. cbn [Join flat_map map fst snd]. rewrite !app_nil_r. rewrite <- !app_assoc.
  reflexivity.
Qed.

Lemma plain_u8 c : c ∈ plainChars → is_u8 c ∧ c ≠ 47 ∧ c ≠ 63 ∧ c ≠ 35.
Proof. revert c. apply (Forall_forall (fun c => is_u8 c ∧ c ≠ 47 ∧ c ≠ 63 ∧ c ≠ 35)). apply (bool_decide_unpack _). by vm_compute. Qed.

Lemma bucket_ok : bytes_ok (Bucket account).
Proof. eapply Forall_impl; [apply (bucket_plain Hconf)|]. intros c Hc. by apply plain_u8. Qed.

Lemma bucket_escape : encodePathSegment (Bucket account) = Bucket account.
Proof.
  assert (∀ s, Forall (fun c => c ∈ plainChars) s → encodePathSegment s = s) as H; [|apply H, (bucket_plain Hconf)].
  induction 1 as [|c s Hc Hs IH]; [done|]. unfold encodePathSegment, escapeBy in *. cbn [flat_map].
  rewrite (unreserved_plain c), bool_decide_true by (done || by apply plain_u8). cbn [orb app]. by rewrite IH.
Qed.

Lemma objectPath_ok key : bytes_ok key → bytes_ok (objectPath account key).
Proof. intros Hk. unfold objectPath. repeat (apply Forall_app; split); [by repeat constructor|apply bucket_ok|by repeat constructor|done]. Qed.
Lemma bucketPath_ok : bytes_ok (bucketPath account).
Proof. unfold bucketPath. apply Forall_app. split; [by repeat constructor|apply bucket_ok]. Qed.

(** The path that is sent is the escaped path. *)
Lemma objectPath_escape key : encodePathSegment (objectPath account key) = bs "/" ++ Bucket account ++ bs "/" ++ encodePathSegment key.
Proof. unfold objectPath. rewrite <- bucket_escape at 2. unfold encodePathSegment, escapeBy. by rewrite !flat_map_app. Qed.
Lemma bucketPath_escape : encodePathSegment (bucketPath account) = bs "/" ++ Bucket account.
Proof. unfold bucketPath. rewrite <- bucket_escape at 2. unfold encodePathSegment, escapeBy. by rewrite !flat_map_app. Qed.

Lemma path_reaches path raw' q ps rq : bytes_ok path → encodePathSegment path = 47 :: raw' → querySays q ps → rqHost rq = sv_host →
  rqURL rq = (schemeHost (Endpoint account)).1 ++ bs "://" ++ sv_host ++ encodePathSegment path ++ match ps with [] => [] | _ => bs "?" ++ q end →
  reaches rq sv_host path ps.
Proof.
  intros Hp Eraw Hq Hh EU. destruct host_spec as (_&_&_&scheme&Es&H58). rewrite Es in EU. exists scheme, (encodePathSegment path), q.
  split_and!; [done|done|done|by eexists| | |by apply decode_escape|done].
  - apply escape_avoids; [done|done|apply (bool_decide_unpack _); by vm_compute|done].
  - apply escape_avoids; [done|done|apply (bool_decide_unpack _); by vm_compute|done].
Qed.

Lemma object_request sv method key payload : ToUpper method = method → key ≠ [] → bytes_ok key →
  reaches (requestOf account (nowUTC sv) method key [] payload) sv_host (objectPath account key) []
  ∧ signedBy account (nowUTC sv) (requestOf account (nowUTC sv) method key [] payload) (objectPath account key) [].
Proof.
  intros Hm Hne Hk. destruct host_spec as (_&Eb&_&scheme&Es&_). split.
  - eapply (path_reaches _ _ []); [by apply objectPath_ok|by rewrite objectPath_escape|by exists []|done|].
    cbn [rqURL requestOf]. unfold objectURL. rewrite Es, (path_style Hconf), objectPath_escape. cbn [fst]. destruct key; [done|]. by rewrite <- !app_assoc.
  - apply (signed_request sv method key [] payload _ [] []); [done| |done|split; [done|constructor]].
    destruct key; [done|]. by apply path_uri, objectPath_ok.
Qed.

(** *** Listings *)

Definition listQuery (prefix tok : bytes) : bytes :=
  bs "list-type=2&prefix=" ++ awsQueryEscape prefix ++ match tok with [] => [] | _ => bs "&continuation-token=" ++ awsQueryEscape tok end.
Definition rawPairs (prefix tok : bytes) : list (bytes * bytes) :=
  [(bs "list-type", bs "2"); (bs "prefix", awsQueryEscape prefix)] ++ match tok with [] => [] | _ => [(bs "continuation-token", awsQueryEscape tok)] end.
Definition sortedPairs (prefix tok : bytes) : list (bytes * bytes) :=
  match tok with [] => [] | _ => [(bs "continuation-token", awsQueryEscape tok)] end ++ [(bs "list-type", bs "2"); (bs "prefix", awsQueryEscape prefix)].

Lemma listQuery_raw prefix tok : listQuery prefix tok = Join (map writePair (rawPairs prefix tok)) (bs "&").
Proof. unfold listQuery, rawPairs. destruct tok as [|c tok]; cbn [app map Join flat_map writePair fst snd]; unfold writePair; rewrite ?app_nil_r, <- ?app_assoc; reflexivity. Qed.

Lemma escaped_pair k s : 38 ∉ k → 61 ∉ k → 35 ∉ k → bytes_ok s → pairPlain (k, awsQueryEscape s).
Proof.
  intros H1 H2 H3 Hs. assert (∀ x, x = 38 ∨ x = 35 → x ∉ awsQueryEscape s) as He.
  { intros x [-> | ->]; apply escape_avoids; try done; apply (bool_decide_unpack _); by vm_compute. }
  unfold pairPlain, writePair. cbn [fst snd]. split_and!; [|done|]; rewrite !not_elem_of_app; split_and!; try done;
    first [by apply He; auto|apply (bool_decide_unpack _); by vm_compute].
Qed.

Lemma rawPairs_plain prefix tok : bytes_ok prefix → bytes_ok tok → Forall pairPlain (rawPairs prefix tok).
Proof.
  intros Hp Ht. unfold rawPairs. apply Forall_app. split.
  - constructor; [apply (bool_decide_unpack _); by vm_compute|]. constructor; [|constructor].
    apply escaped_pair; [apply (bool_decide_unpack _); by vm_compute..|done].
  - destruct tok; constructor; [|constructor]. apply escaped_pair; [apply (bool_decide_unpack _); by vm_compute..|done].
Qed.

Lemma rawPairs_says prefix tok : bytes_ok prefix → bytes_ok tok → querySays (listQuery prefix tok) (listPairs prefix tok).
Proof.
  intros Hp Ht. exists (rawPairs prefix tok). split_and!; [apply listQuery_raw|by apply rawPairs_plain|].
  assert (∀ k v v', percentDecode k = Some k → percentDecode v = Some v' → decodePair (k, v) = Some (k, v')) as Hd.
  { intros k v v' E1 E2. unfold decodePair. cbn [fst snd]. rewrite E1. cbn [mbind option_bind]. by rewrite E2. }
  assert (∀ s, bytes_ok s → percentDecode (awsQueryEscape s) = Some s) as He by (intros s Hs; by apply decode_escape).
  unfold rawPairs, listPairs. destruct tok as [|c tok]; cbn [app mapM]; rewrite (Hd (bs "list-type") (bs "2") (bs "2")), (Hd (bs "prefix") _ prefix) by auto; [done|].
  cbn [mbind option_bind]. by rewrite (Hd (bs "continuation-token") _ (c :: tok)) by auto.
Qed.

Lemma sort_list (a b c : bytes) : let sort := sortStable (fun x y : bytes * bytes => bool_decide (x.1 <b y.1)) in
  sort [(bs "list-type", a); (bs "prefix", b)] = [(bs "list-type", a); (bs "prefix", b)]
  ∧ sort [(bs "list-type", a); (bs "prefix", b); (bs "continuation-token", c)] = [(bs "continuation-token", c); (bs "list-type", a); (bs "prefix", b)].
Proof. by vm_compute. Qed.

Lemma canonicalQuery_list prefix tok : bytes_ok prefix → bytes_ok tok →
  canonicalQuery (listQuery prefix tok) = Join (map writePair (sortedPairs prefix tok)) (bs "&").
Proof.
  intros Hp Ht. unfold canonicalQuery. rewrite listQuery_raw, queryPairs_says by (by apply rawPairs_plain).
  destruct (sort_list (bs "2") (awsQueryEscape prefix) (awsQueryEscape tok)) as [E1 E2]. cbv zeta. unfold rawPairs, sortedPairs.
  destruct tok as [|c tok]; cbn [app]; [rewrite E1|rewrite E2]; cbn [map fst snd]; rewrite ?escape_once by done; done.
Qed.

Lemma sortedPairs_canonical prefix tok : bytes_ok prefix → bytes_ok tok → canonicalPairs (listPairs prefix tok) (sortedPairs prefix tok).
Proof.
  intros Hp Ht. unfold sortedPairs. rewrite !query_uri by done.
  assert (∀ a b : bytes * bytes, bool_decide (a.1 <b b.1) = true → pairBefore a b) as Hb by (intros a' b' H; left; by apply bool_decide_eq_true in H).
  split.
  - unfold listPairs. rewrite (Permutation_app_comm (match tok with [] => [] | _ => _ end)). rewrite fmap_app. by destruct tok.
  - destruct tok; cbn [app]; repeat constructor; apply Hb; by vm_compute.
Qed.

Lemma list_request sv prefix tok : bytes_ok prefix → bytes_ok tok →
  reaches (requestOf account (nowUTC sv) (bs "GET") [] (listQuery prefix tok) []) sv_host (bucketPath account) (listPairs prefix tok)
  ∧ signedBy account (nowUTC sv) (requestOf account (nowUTC sv) (bs "GET") [] (listQuery prefix tok) []) (bucketPath account) (listPairs prefix tok).
Proof.
  intros Hp Ht. destruct host_spec as (_&Eb&_&scheme&Es&_). split.
  - eapply (path_reaches _ _ (listQuery prefix tok)); [apply bucketPath_ok|by rewrite bucketPath_escape|by apply rawPairs_says|done|].
    cbn [rqURL requestOf]. unfold objectURL. rewrite Es, (path_style Hconf), bucketPath_escape. cbn [fst]. by rewrite <- !app_assoc.
  - apply (signed_request sv (bs "GET") [] _ [] _ _ (sortedPairs prefix tok)); [done|apply path_uri, bucketPath_ok|by apply canonicalQuery_list|by apply sortedPairs_canonical].
Qed.

(** *** Keys *)

Abbreviation blobKey := (blobKeyForID account).
Abbreviation rootKey := (rootKeyForName account).

Lemma prefixed_ok key : bytes_ok key → bytes_ok (prefixedKey account key).
Proof.
  intros Hk. pose proof (prefix_bytes Hconf) as Hp. unfold prefixedKey. destruct (Prefix account); [done|]. apply Forall_app. split; [done|]. by constructor.
Qed.

Lemma prefixed_ne key : key ≠ [] → prefixedKey account key ≠ [].
Proof. unfold prefixedKey. by destruct (Prefix account). Qed.

Lemma prefixed_has x y : has_prefix (prefixedKey account x) (prefixedKey account y) = has_prefix x y.
Proof.
  unfold prefixedKey. destruct (Prefix account) as [|c p]; [done|]. apply eq_true_iff_eq. rewrite !has_prefix_spec. split; intros [z E].
  - exists z. rewrite <- !app_assoc in E. do 2 apply app_inv_head in E. done.
  - exists z. by rewrite E, <- !app_assoc.
Qed.

Lemma prefixed_slash x y : ∃ pre, prefixedKey account (x ++ bs "/" ++ y) = pre ++ 47 :: y.
Proof.
  unfold prefixedKey. destruct (Prefix account) as [|c p]; [by exists x|]. exists ((c :: p) ++ bs "/" ++ x). by rewrite <- !app_assoc.
Qed.

Lemma hex_ok u : is_id u → bytes_ok (idToHex u) ∧ 47 ∉ idToHex u.
Proof. intros [_ Hu]. rewrite idToHex_hexByte by done. split; [by apply hexBytes_ok|by apply hexBytes_no_slash]. Qed.

Lemma blobKey_ok u : is_id u → bytes_ok (blobKey u) ∧ blobKey u ≠ [] ∧ has_prefix (blobKey u) (prefixedKey account (bs "blobs/")) = true.
Proof.
  intros Hu. destruct (hex_ok u Hu) as [Hh _]. unfold blobKeyForID. cbv zeta. split_and!.
  - assert (∀ (a b : bytes), bytes_ok a → bytes_ok b → bytes_ok (a ++ b)) as G by (intros a b' Ha Hb; by apply Forall_app).
    apply prefixed_ok. apply G; [by repeat constructor|]. apply G; [by apply Forall_take|]. apply G; [by repeat constructor|].
    apply G; [by apply Forall_take, Forall_drop|]. apply G; [by repeat constructor|done].
  - by apply prefixed_ne.
  - rewrite prefixed_has. apply has_prefix_spec. eauto.
Qed.

Lemma blobKey_id u : is_id u → hexToID (lastSegment (blobKey u)) = Some u.
Proof.
  intros Hu. unfold blobKeyForID. cbv zeta. set (hex := idToHex u).
  destruct (prefixed_slash (bs "blobs/" ++ take 2 hex ++ bs "/" ++ take 2 (drop 2 hex)) hex) as [pre E]. rewrite <- !app_assoc in E. rewrite E.
  rewrite lastSegment_slash by (by apply hex_ok). by apply hexToID_idToHex.
Qed.

Lemma blobKey_inj u v : is_id u → is_id v → blobKey u = blobKey v → u = v.
Proof. intros Hu Hv E. apply (f_equal (fun k => hexToID (lastSegment k))) in E. rewrite !blobKey_id in E by done. congruence. Qed.

Lemma rootKey_ok n : is_root_name n → bytes_ok (rootKey n) ∧ rootKey n ≠ [] ∧ has_prefix (rootKey n) (prefixedKey account (bs "roots/")) = true
  ∧ lastSegment (rootKey n) = n.
Proof.
  intros (_&_&Hok&Hs). unfold rootKeyForName. split_and!; [apply prefixed_ok, Forall_app; split; [by repeat constructor|done]|by apply prefixed_ne| |].
  - rewrite prefixed_has. apply has_prefix_spec. eauto.
  - destruct (prefixed_slash (bs "roots") n) as [pre E]. change (bs "roots/" ++ n) with (bs "roots" ++ bs "/" ++ n). rewrite E. by apply lastSegment_slash.
Qed.

Lemma rootKey_inj n m : is_root_name n → is_root_name m → rootKey n = rootKey m → n = m.
Proof. intros Hn Hm E. apply (f_equal lastSegment) in E. by rewrite (proj2 (proj2 (proj2 (rootKey_ok n Hn)))), (proj2 (proj2 (proj2 (rootKey_ok m Hm)))) in E. Qed.

(** Neither kind of key is below the prefix of the other. *)
Lemma blobKey_apart u : has_prefix (blobKey u) (prefixedKey account (bs "roots/")) = false.
Proof. unfold blobKeyForID. cbv zeta. by rewrite prefixed_has. Qed.
Lemma rootKey_apart n : has_prefix (rootKey n) (prefixedKey account (bs "blobs/")) = false.
Proof. unfold rootKeyForName. by rewrite prefixed_has. Qed.
Lemma blob_not_root u n : is_id u → blobKey u ≠ rootKey n.
Proof. intros Hu E. destruct (blobKey_ok u Hu) as (_&_&H). rewrite E, rootKey_apart in H. done. Qed.

(** *** Requests *)

(** A store of the account that may write. *)
Definition ready b : Prop := conf b = account ∧ s3ReadOnly b = false ∧ sv_inv (service b).

(** What a request for an object leaves: the same store over the service after it. *)
Definition changed b b' (key : bytes) (v : option bytes) : Prop :=
  b' = withService b (service b') ∧ ready b' ∧ ∀ k, stored (service b') k = if bool_decide (k = key) then v else stored (service b) k.

Lemma ready_service b sv : ready b → sv_inv sv → ready (withService b sv).
Proof. by intros (?&?&_) ?. Qed.

Lemma putObject_spec b key data failed : ready b → key ≠ [] → bytes_ok key → ∃ b', putObject b key data failed = Ok b' ∧ changed b b' key (Some data).
Proof.
  intros Hr Hne Hk. pose proof Hr as (Hc&Hro&Hs). unfold putObject, s3FailReadOnly, doRequest. rewrite Hro, res_bind_ret, Hc.
  destruct (object_request (service b) (bs "PUT") key data eq_refl Hne Hk) as [Hre Hsi].
  destruct (put_object (service b) (requestOf account (nowUTC (service b)) (bs "PUT") key [] data) key Hs eq_refl Hne Hre Hsi) as (body&sv'&E&Hs'&Hst).
  rewrite E, res_bind_ret. eexists. split; [done|]. split; [done|]. split; [by apply ready_service|done].
Qed.

Lemma getObject_spec b key failed : ready b → key ≠ [] → bytes_ok key → getObject b key failed = Ok (stored (service b) key).
Proof.
  intros (Hc&Hro&Hs) Hne Hk. unfold getObject, doRequest. rewrite Hc.
  destruct (object_request (service b) (bs "GET") key [] eq_refl Hne Hk) as [Hre Hsi].
  pose proof (get_object (service b) (requestOf account (nowUTC (service b)) (bs "GET") key [] []) key Hs eq_refl Hne Hre Hsi) as H.
  destruct (Do _ _) as [r sv']. cbn [fst] in H. destruct (stored (service b) key) as [d|]; [|destruct H as [body H]]; rewrite H, res_bind_ret; done.
Qed.

Lemma deleteObject_spec b key failed : ready b → key ≠ [] → bytes_ok key → ∃ b', deleteObject b key failed = Ok b' ∧ changed b b' key None.
Proof.
  intros Hr Hne Hk. pose proof Hr as (Hc&Hro&Hs). unfold deleteObject, s3FailReadOnly, doRequest. rewrite Hro, res_bind_ret, Hc.
  destruct (object_request (service b) (bs "DELETE") key [] eq_refl Hne Hk) as [Hre Hsi].
  destruct (delete_object (service b) (requestOf account (nowUTC (service b)) (bs "DELETE") key [] []) key Hs eq_refl Hne Hre Hsi) as (code&body&sv'&E&Hcode&Hs'&Hst).
  rewrite E, res_bind_ret. exists (withService b sv'). split; [by destruct Hcode as [-> | ->]|]. split; [done|]. split; [by apply ready_service|done].
Qed.

(** The loop over the pages ends, with all of them. *)
Lemma listLoop_spec b prefix fuel i : ready b → bytes_ok prefix → (i < length (pages (service b) prefix))%nat →
  (length (pages (service b) prefix) ≤ fuel + i)%nat →
  listLoop fuel b prefix (match i with O => [] | S _ => token (service b) prefix i end) = Ok (concat (drop i (pages (service b) prefix))).
Proof.
  intros (Hc&Hro&Hs) Hp. revert i. induction fuel as [|fuel IH]; intros i Hi Hf; [lia|].
  destruct (lookup_lt_is_Some_2 _ _ Hi) as [ks Hks]. set (tok := match i with O => [] | S _ => token (service b) prefix i end).
  assert (bytes_ok tok) as Htok by (unfold tok; destruct i; [constructor|by apply token_ok; [done|lia]]).
  cbn [listLoop]. change (bs "list-type=2&prefix=" ++ awsQueryEscape prefix ++ _) with (listQuery prefix tok). unfold doRequest. rewrite Hc.
  destruct (list_request (service b) prefix tok Hp Htok) as [Hre Hsi].
  destruct (list_page (service b) (requestOf account (nowUTC (service b)) (bs "GET") [] (listQuery prefix tok) []) prefix i ks Hs eq_refl Hre Hsi Hks) as (body&E&Hb&Ex).
  destruct (Do _ _) as [r sv']. cbn [fst] in E. subst r. rewrite res_bind_ret. cbv beta iota. change (200 >=? 300) with false. cbv iota.
  destruct body as [|c0 body0] eqn:Eb; [done|]. rewrite <- Eb in *. clear Eb c0 body0. rewrite Ex. cbn [IsTruncated NextContinuationToken Contents].
  rewrite (drop_S _ ks) by done. cbn [concat]. case_bool_decide as Hlast; cbn [andb].
  - destruct (token_ok (service b) prefix (S i) Hs) as [Hne _]; [lia|]. replace (Nat.eqb (length (token (service b) prefix (S i))) 0) with false
      by (symmetry; apply Nat.eqb_neq; by destruct (token (service b) prefix (S i))).
    cbn [negb]. by rewrite (IH (S i)), res_bind_ret by lia.
  - rewrite (drop_ge _ (S i)) by lia. cbn. by rewrite app_nil_r.
Qed.

Lemma listAll_spec b prefix : ready b → bytes_ok prefix → listAll b prefix = Ok (concat (pages (service b) prefix)).
Proof.
  intros Hr Hp. destruct (pages_ok (service b) prefix) as ([H0 Hf]&_); [apply Hr|]. unfold listAll. apply (listLoop_spec b prefix _ 0); [done|done|lia|lia].
Qed.

(** *** The invariant and the operations *)

Record s3_inv b : Prop := {
  s3_ready : ready b;
  s3_fresh : ∀ id, id ∈ ids b → is_id id ∧ id ≠ zeroUUID ∧ stored (service b) (blobKey id) = None;
  s3_distinct : NoDup (ids b);
  s3_blobs : ∀ k, is_Some (stored (service b) k) → has_prefix k (prefixedKey account (bs "blobs/")) = true → ∃ id, is_id id ∧ k = blobKey id;
  s3_roots : ∀ k, is_Some (stored (service b) k) → has_prefix k (prefixedKey account (bs "roots/")) = true → ∃ n, is_root_name n ∧ k = rootKey n;
}.

Definition s3_used b (u : bytes) : Prop := u ∉ ids b.

(** A request for a blob that was drawn, or for a root, keeps it. *)
Lemma s3_inv_changed b b' key v : s3_inv b → changed b b' key v →
  ((∃ id, is_id id ∧ key = blobKey id ∧ (v = None ∨ s3_used b id)) ∨ (∃ n, is_root_name n ∧ key = rootKey n)) → s3_inv b'.
Proof.
  intros [H1 H2 H3 H4 H5] (Eb&Hr&Hst) Hkey. assert (ids b' = ids b) as Ei by (by rewrite Eb). constructor; rewrite ?Ei; try done.
  - intros id Hid. destruct (H2 id Hid) as (Hi&Hz&Hn). split_and!; [done|done|]. rewrite Hst. case_bool_decide as E; [|done].
    destruct Hkey as [(u&Hu&->&[->|Hused])|(n&Hn'&->)]; [done| |by apply blob_not_root in E]. apply blobKey_inj in E; [|done..]. by subst u.
  - intros k Hs Hp. rewrite Hst in Hs. case_bool_decide as E; [|by apply H4]. subst k.
    destruct Hkey as [(u&Hu&->&_)|(n&Hn&->)]; [eauto|]. by rewrite rootKey_apart in Hp.
  - intros k Hs Hp. rewrite Hst in Hs. case_bool_decide as E; [|by apply H5]. subst k.
    destruct Hkey as [(u&Hu&->&_)|(n&Hn&->)]; [by rewrite blobKey_apart in Hp|eauto].
Qed.

Lemma changed_objs b b' key v u : changed b b' key v → (∀ w, is_id w → key = blobKey w → is_id u → stored (service b') (blobKey u) = if bool_decide (u = w) then v else stored (service b) (blobKey u)).
Proof.
  intros (_&_&Hst) w Hw -> Hu. rewrite Hst. assert (bool_decide (blobKey u = blobKey w) = bool_decide (u = w)) as ->; [|done].
  apply bool_decide_ext. split; [by apply blobKey_inj|by intros ->].
Qed.

Lemma s3Put_spec b d : s3_inv b → (0 < length (ids b))%nat → ∃ id b', s3Put b d = Ok (id, b') ∧ s3_inv b'
    ∧ length (ids b) = S (length (ids b')) ∧ is_id id ∧ id ≠ zeroUUID ∧ ¬ s3_used b id
    ∧ (∀ u, is_id u → stored (service b') (blobKey u) = if bool_decide (u = id) then Some d else stored (service b) (blobKey u))
    ∧ (∀ u, s3_used b' u ↔ u = id ∨ s3_used b u)
    ∧ (∀ n, is_root_name n → stored (service b') (rootKey n) = stored (service b) (rootKey n)).
Proof.
  intros Hi Hl. pose proof Hi as [H1 H2 H3 H4 H5]. unfold s3Put. pose proof H1 as (Hc&Hro&Hs). unfold s3FailReadOnly. rewrite Hro, res_bind_ret.
  destruct (ids b) as [|id r] eqn:Er; [cbn in Hl; lia|]. destruct (H2 id) as (Hid&Hz&Hn); [left|]. apply NoDup_cons in H3 as [Hnew H3].
  set (b1 := mkS3 (conf b) false (service b) r). assert (s3_inv b1) as Hi1.
  { constructor; cbn; [by split_and!| |done|done|done]. intros i Hin. apply H2. by right. }
  unfold s3PutAt. change (conf b1) with (conf b). rewrite Hc. destruct (blobKey_ok id Hid) as (Hk1&Hk2&_).
  destruct (putObject_spec b1 (blobKey id) d "s3 put failed") as (b'&E&Hch); [apply Hi1|done|done|]. rewrite E, res_bind_ret.
  exists id, b'. split; [done|]. assert (ids b' = r) as Ei by (destruct Hch as (->&_); done). split_and!.
  - eapply (s3_inv_changed b1 b'); [done|done|]. left. exists id. split_and!; [done|done|by right].
  - by rewrite Ei.
  - done.
  - done.
  - unfold s3_used. rewrite Er. intros Hx. apply Hx. left.
  - intros u Hu. by apply (changed_objs b1 b' (blobKey id) (Some d) u Hch).
  - intros u. unfold s3_used. rewrite Ei, Er, elem_of_cons. destruct (decide (u = id)) as [->|]; naive_solver.
  - intros n Hn'. destruct Hch as (_&_&Hst). rewrite Hst, bool_decide_false; [done|]. intros E'. symmetry in E'. by apply blob_not_root in E'.
Qed.

(** The keys under one of the two prefixes are those of a list of names. *)
Lemma keys_named {X} (key : X → bytes) (P : X → Prop) (keys : list bytes) :
  (∀ k, k ∈ keys → ∃ x, P x ∧ k = key x) → ∃ xs, keys = map key xs ∧ Forall P xs.
Proof.
  induction keys as [|k keys IH]; intros H; [by exists []|]. destruct (H k) as (x&Hx&->); [left|].
  destruct IH as (xs&->&Hxs); [intros k' Hk'; apply H; by right|]. exists (x :: xs). split; [done|]. by constructor.
Qed.

Lemma prefixes_ok : bytes_ok (prefixedKey account (bs "blobs/")) ∧ bytes_ok (prefixedKey account (bs "roots/")).
Proof. split; apply prefixed_ok; by repeat constructor. Qed.

Lemma s3List_spec b : s3_inv b → ∃ us, s3List b = Ok us ∧ NoDup us ∧ ∀ u, u ∈ us ↔ is_id u ∧ is_Some (stored (service b) (blobKey u)).
Proof.
  intros [H1 H2 H3 H4 H5]. pose proof H1 as (Hc&_&Hs). unfold s3List. rewrite Hc, listAll_spec by (done || apply prefixes_ok).
  destruct (pages_ok (service b) (prefixedKey account (bs "blobs/")) Hs) as (_&Hnd&Hin).
  destruct (keys_named blobKey is_id (concat (pages (service b) (prefixedKey account (bs "blobs/"))))) as (us&E&Hus); [intros k [??]%Hin; by apply H4|].
  rewrite E in *. exists us. split; [|split].
  - unfold res_map. rewrite res_bind_ret. f_equal. clear E Hnd Hin. induction Hus as [|u us Hu Hus IH]; [done|]. set (f := fun k => hexToID (lastSegment k)) in *. change (omap f (map blobKey (u :: us))) with (match f (blobKey u) with Some y => y :: omap f (map blobKey us) | None => omap f (map blobKey us) end).
    rewrite IH. unfold f. by rewrite blobKey_id.
  - by apply NoDup_fmap_1 in Hnd.
  - intros u. split.
    + intros Hu. rewrite Forall_forall in Hus. split; [by apply Hus|]. by apply Hin, list_elem_of_fmap_2.
    + intros [Hid Hst]. assert (blobKey u ∈ map blobKey us) as (v&Ev&Hv)%list_elem_of_fmap; [apply Hin; split; [by apply blobKey_ok|done]|].
      rewrite Forall_forall in Hus. apply blobKey_inj in Ev as ->; auto.
Qed.

Lemma s3ListRoots_spec b : s3_inv b → ∃ ns, s3ListRoots b = Ok ns ∧ ascending ns ∧ ∀ n, n ∈ ns ↔ is_root_name n ∧ is_Some (stored (service b) (rootKey n)).
Proof.
  intros [H1 H2 H3 H4 H5]. pose proof H1 as (Hc&_&Hs). unfold s3ListRoots. rewrite Hc, listAll_spec by (done || apply prefixes_ok).
  destruct (pages_ok (service b) (prefixedKey account (bs "roots/")) Hs) as (_&Hnd&Hin).
  destruct (keys_named rootKey is_root_name (concat (pages (service b) (prefixedKey account (bs "roots/"))))) as (ns&E&Hns); [intros k [??]%Hin; by apply H5|].
  rewrite E in *. unfold res_map. rewrite res_bind_ret. eexists. split; [done|].
  assert (filter (fun n => has_prefix n (bs "root_") = true) (map lastSegment (map rootKey ns)) = ns) as ->.
  { clear E Hnd Hin. induction Hns as [|n ns Hn Hns IH]; [done|]. cbn [map]. rewrite (proj2 (proj2 (proj2 (rootKey_ok n Hn)))).
    rewrite filter_cons_True by (apply Hn). by rewrite IH. }
  split; [apply sorted_ascending; by apply NoDup_fmap_1 in Hnd|]. intros n. rewrite (merge_sort_Permutation ble). rewrite Forall_forall in Hns. split.
  - intros Hn. split; [by apply Hns|]. by apply Hin, list_elem_of_fmap_2.
  - intros [Hn Hst]. assert (rootKey n ∈ map rootKey ns) as (m&Em&Hm)%list_elem_of_fmap; [apply Hin; split; [by apply rootKey_ok|done]|].
    apply rootKey_inj in Em as ->; auto.
Qed.

Lemma changed_root b b' n v : s3_inv b → is_root_name n → changed b b' (rootKey n) v →
  s3_inv b' ∧ length (ids b') = length (ids b) ∧ (∀ u, is_id u → stored (service b') (blobKey u) = stored (service b) (blobKey u))
  ∧ (∀ u, s3_used b' u ↔ s3_used b u)
  ∧ ∀ m, is_root_name m → stored (service b') (rootKey m) = if bool_decide (m = n) then v else stored (service b) (rootKey m).
Proof.
  intros Hi Hn Hch. pose proof Hch as (Eb&_&Hst). assert (ids b' = ids b) as Ei by (by rewrite Eb). unfold s3_used. rewrite Ei. split_and!; try done.
  - eapply s3_inv_changed; [done|done|]. right. eauto.
  - intros u Hu. rewrite Hst, bool_decide_false; [done|]. by apply blob_not_root.
  - intros m Hm. rewrite Hst. assert (bool_decide (rootKey m = rootKey n) = bool_decide (m = n)) as ->; [|done].
    apply bool_decide_ext. split; [by apply rootKey_inj|by intros ->].
Qed.

Lemma s3Get_spec b u : s3_inv b → is_id u → s3Get b u = Ok (stored (service b) (blobKey u)).
Proof. intros Hi Hu. unfold s3Get. rewrite (proj1 (s3_ready b Hi)). destruct (blobKey_ok u Hu) as (?&?&_). apply getObject_spec; [apply Hi|done|done]. Qed.

Lemma s3GetRoot_spec b n : s3_inv b → is_root_name n → s3GetRoot b n = Ok (stored (service b) (rootKey n)).
Proof. intros Hi Hn. unfold s3GetRoot. rewrite (proj1 (s3_ready b Hi)). destruct (rootKey_ok n Hn) as (?&?&_). apply getObject_spec; [apply Hi|done|done]. Qed.

#[export] Instance S3BlobStore_laws : BlobLaws S3BlobStore.
Proof.
  refine {| binv := s3_inv; objs := fun b u => stored (service b) (blobKey u); rootsOf := fun b n => stored (service b) (rootKey n);
            used := s3_used; room := fun b => length (ids b) |}.
  - intros b u Hi [d Hd] Hin. destruct (s3_fresh b Hi u Hin) as (_&_&Hn). congruence.
  - intros b d Hi Hroom. destruct (s3Put_spec b d Hi Hroom) as (id&b'&E&?&?&?&?&?&?&?&Hr). exists id, b'. by split_and!.
  - apply s3Get_spec.
  - intros b u Hi Hu. cbn. unfold s3Delete. rewrite (proj1 (s3_ready b Hi)). destruct (blobKey_ok u Hu) as (?&?&_).
    destruct (deleteObject_spec b (blobKey u) "s3 delete failed") as (b'&E&Hch); [apply Hi|done|done|]. exists b'. split; [done|].
    assert (ids b' = ids b) as Ei by (destruct Hch as (->&_); done). split_and!; [|by rewrite Ei| |intros v; unfold s3_used; by rewrite Ei|].
    + eapply s3_inv_changed; [done|done|]. left. exists u. split_and!; [done|done|by left].
    + intros v Hv. by apply (changed_objs b b' (blobKey u) None v Hch).
    + intros n Hn. destruct Hch as (_&_&Hst). rewrite Hst, bool_decide_false; [done|]. intros E'. symmetry in E'. by apply blob_not_root in E'.
  - intros b Hi. cbn. apply (s3List_spec b Hi).
  - intros b n d Hi Hn. cbn. unfold s3PutRoot. rewrite (proj1 (s3_ready b Hi)). destruct (rootKey_ok n Hn) as (?&?&_).
    destruct (putObject_spec b (rootKey n) d "s3 putRoot failed") as (b'&E&Hch); [apply Hi|done|done|]. exists b'. split; [done|]. by apply changed_root.
  - apply s3GetRoot_spec.
  - intros b Hi. cbn. apply (s3ListRoots_spec b Hi).
  - intros b n Hi Hn. cbn. unfold s3DeleteRoot. rewrite (proj1 (s3_ready b Hi)). destruct (rootKey_ok n Hn) as (?&?&_).
    destruct (deleteObject_spec b (rootKey n) "s3 deleteRoot failed") as (b'&E&Hch); [apply Hi|done|done|]. exists b'. split; [done|]. by apply changed_root.
Defined.

(** C37. The requests of the backend are signed as they are sent, by the documentation of
    Signature Version 4 and for any digests, under a configuration that is
    [s3_configured]: for an object of any key that is not empty, with any method in
    capitals and any body, and for any page of a listing, the address reads back as the
    path and the query that are meant, and the authorization is the one the keys of the
    account give the request as the service receives it. *)
Theorem requests_verify sv :
  (∀ method key payload, ToUpper method = method → key ≠ [] → bytes_ok key →
     let rq := requestOf account (nowUTC sv) method key [] payload in
     reaches rq sv_host (objectPath account key) [] ∧ signedBy account (nowUTC sv) rq (objectPath account key) [])
  ∧ (∀ prefix tok, bytes_ok prefix → bytes_ok tok →
     let rq := requestOf account (nowUTC sv) (bs "GET") [] (listQuery prefix tok) [] in
     reaches rq sv_host (bucketPath account) (listPairs prefix tok) ∧ signedBy account (nowUTC sv) rq (bucketPath account) (listPairs prefix tok)).
Proof. split; [intros; by apply object_request|intros; by apply list_request]. Qed.

(** C19. The S3 backend keeps blobs. The service is any that documents [S3Laws]: it serves
    the requests that reach it and carry the Signature Version 4 the documentation
    defines, and the proof shows that the requests of the backend do. The configuration
    is [s3_configured]: paths name the bucket, its name needs no escapes, and the
    endpoint is a URL whose host is signed as it is sent (no port 80 or 443, no address
    in brackets). Over a store that may write, whose coming identifiers are new, and
    with no transport failure, a put succeeds under a new identifier, getting it returns
    the data, every other blob and every root reads as before, and a listing, over
    however many pages the service breaks it into, has the new identifier beside the old
    ones. *)
Theorem s3_keeps_blobs b d : s3_inv b → (0 < length (ids b))%nat →
  ∃ id b' us us', s3Put b d = Ok (id, b') ∧ s3_inv b' ∧ s3Get b' id = Ok (Some d)
    ∧ (∀ u, is_id u → u ≠ id → s3Get b' u = s3Get b u) ∧ (∀ n, is_root_name n → s3GetRoot b' n = s3GetRoot b n)
    ∧ s3List b = Ok us ∧ s3List b' = Ok us' ∧ us' ≡ₚ id :: us.
Proof.
  intros Hi Hl. destruct (s3Put_spec b d Hi Hl) as (id&b'&E&Hi'&_&Hid&_&Hnew&Ho&_&Hr).
  destruct (s3List_spec b Hi) as (us&E1&Hnd&Hus), (s3List_spec b' Hi') as (us'&E2&Hnd'&Hus').
  exists id, b', us, us'. split_and!; try done.
  - rewrite s3Get_spec, Ho, bool_decide_true by done. done.
  - intros u Hu Hne. rewrite !s3Get_spec, Ho, bool_decide_false by done. done.
  - intros n Hn. rewrite !s3GetRoot_spec, Hr by done. done.
  - assert (id ∉ us) as Hnot.
    { intros [_ Hs]%Hus. apply Hnew. intros Hin. destruct (s3_fresh b Hi id Hin) as (_&_&Hn). rewrite Hn in Hs. by destruct Hs. }
    apply NoDup_Permutation; [done|by apply NoDup_cons|]. intros u. rewrite elem_of_cons, Hus, Hus'. split.
    + intros [Hu Hs]. rewrite Ho in Hs by done. case_bool_decide; auto.
    + intros [->|[Hu Hs]]; (split; [done|]); rewrite Ho by done; case_bool_decide; first [done|by eexists].
Qed.
End laws.
End s3.

(** ** A service *)

(** A service in memory that answers listings in pages of two keys. *)
Module s3Samples.
Definition sampleURL : URL := {| Scheme := bs "http"; Host := bs "localhost:9000"; Hostname := bs "localhost"; Port := bs "9000" |}.
Definition sampleParse (_ : bytes) : option URL := Some sampleURL.
Definition sampleSha (d : bytes) : bytes := [Z.of_nat (length d) `mod` 256].
Definition sampleHmac (k m : bytes) : bytes := [Z.of_nat (length k + length m) `mod` 256].
Definition sampleAccount : S3Config :=
  {| Endpoint := bs "http://localhost:9000"; Bucket := bs "pages"; Region := bs "us-east-1"; AccessKey := bs "key"; SecretKey := bs "secret";
     Prefix := bs "db"; PathStyle := true |}.
Definition sampleHost : bytes := bs "localhost:9000".

Fixpoint pagesOf (l : list bytes) : list (list bytes) :=
  match l with
  | x :: ((y :: ((_ :: _) as rest)) as l') => [x; y] :: pagesOf rest
  | _ => [l]
  end.

Definition keysUnder (sv : gmap bytes bytes) (prefix : bytes) : list bytes := filter (fun k => has_prefix k prefix = true) (map fst (map_to_list sv)).
Definition samplePages (sv : gmap bytes bytes) (prefix : bytes) : list (list bytes) := pagesOf (keysUnder sv prefix).
Definition sampleToken (i : nat) : bytes := replicate i 49.

(** Bodies of listings: whether there is more, the token, and the keys, each text with
    its length before it. *)
Definition counted (s : bytes) : bytes := Z.of_nat (length s) :: s.
Fixpoint uncount (fuel : nat) (s : bytes) : list bytes :=
  match fuel, s with S fuel', n :: s' => take (Z.to_nat n) s' :: uncount fuel' (drop (Z.to_nat n) s') | _, _ => [] end.
Definition sampleBody (more : bool) (tok : bytes) (ks : list bytes) : bytes := (if more then 1 else 0) :: flat_map counted (tok :: ks).
Definition sampleXML (body : bytes) : option listResult :=
  match body with
  | m :: s => match uncount (length s) s with
              | tok :: ks => Some {| Contents := ks; IsTruncated := m =? 1; NextContinuationToken := tok |}
              | [] => None
              end
  | [] => None
  end.

Definition samplePage (sv : gmap bytes bytes) (prefix : bytes) (i : nat) : bytes :=
  let more := bool_decide (S i < length (samplePages sv prefix))%nat in
  sampleBody more (if more then sampleToken (S i) else []) (nth i (samplePages sv prefix) []).

(** The path and the query of an address at [sampleHost]. *)
Definition afterHost (url : bytes) : bytes := match cutAt url 58 with Some (_, r) => drop (2 + length sampleHost) r | None => [] end.
Definition pathQuery (r : bytes) : bytes * bytes := match cutAt r 63 with Some pq => pq | None => (r, []) end.

Definition sampleDo (sv : gmap bytes bytes) (rq : request) : option (Z * bytes) * gmap bytes bytes :=
  let '(raw, q) := pathQuery (afterHost (rqURL rq)) in
  match percentDecode raw with
  | None => (None, sv)
  | Some path =>
      if has_prefix path (bs "/pages/") then
        let key := drop 7 path in
        if bool_decide (rqMethod rq = bs "PUT") then (Some (200, []), <[key := rqBody rq]> sv)
        else if bool_decide (rqMethod rq = bs "GET") then (Some (match sv !! key with Some d => (200, d) | None => (404, []) end), sv)
        else (Some (204, []), delete key sv)
      else
        match mapM decodePair (queryPairs q) with
        | Some (_ :: (_, prefix) :: rest) =>
            (Some (200, samplePage sv prefix (match rest with (_, tok) :: _ => length tok | [] => 0%nat end)), sv)
        | _ => (None, sv)
        end
  end.
Definition sampleNow (_ : gmap bytes bytes) : bytes := bs "20260101T000000Z".
Definition sampleFuel (sv : gmap bytes bytes) : nat := S (base.size sv).

Lemma pagesOf_concat l : concat (pagesOf l) = l ∧ (0 < length (pagesOf l) ≤ S (length l))%nat.
Proof.
  induction l as [l IH] using (well_founded_induction (well_founded_ltof _ (@length bytes))). unfold ltof in IH.
  destruct l as [|x [|y [|z l]]]; [cbn; split; [done|lia]..|]. destruct (IH (z :: l)) as [E [H1 H2]]; [cbn; lia|].
  change (pagesOf (x :: y :: z :: l)) with ([x; y] :: pagesOf (z :: l)). cbn [concat length app] in *. rewrite E. split; [done|lia].
Qed.

Lemma uncount_counted l fuel : (length (flat_map counted l) ≤ fuel)%nat → uncount fuel (flat_map counted l) = l.
Proof.
  revert fuel. induction l as [|s l IH]; intros fuel Hf; [by destruct fuel|]. change (flat_map counted (s :: l)) with (Z.of_nat (length s) :: (s ++ flat_map counted l)) in *. cbn [length] in Hf.
  destruct fuel as [|fuel]; [lia|]. cbn [uncount]. rewrite Nat2Z.id, take_app_length, drop_app_length. rewrite length_app in Hf. by rewrite IH by lia.
Qed.

Lemma sampleXML_body more tok ks : sampleXML (sampleBody more tok ks) = Some {| Contents := ks; IsTruncated := more; NextContinuationToken := tok |}.
Proof. unfold sampleBody, sampleXML. rewrite uncount_counted by lia. by destruct more. Qed.

Lemma keysUnder_spec sv prefix : NoDup (keysUnder sv prefix) ∧ (length (keysUnder sv prefix) ≤ base.size sv)%nat
  ∧ ∀ k, k ∈ keysUnder sv prefix ↔ has_prefix k prefix = true ∧ is_Some (sv !! k).
Proof.
  unfold keysUnder. split_and!.
  - apply NoDup_filter, NoDup_fst_map_to_list.
  - etrans; [apply length_filter|]. rewrite length_map. by rewrite length_map_to_list.
  - intros k. rewrite list_elem_of_filter. apply and_iff_compat_l. rewrite list_elem_of_fmap. split.
    + intros ([k' d]&->&H%elem_of_map_to_list). eauto.
    + intros [d Hd]. exists (k, d). split; [done|]. by apply elem_of_map_to_list.
Qed.

Lemma afterHost_spec scheme r : 58 ∉ scheme → afterHost (scheme ++ bs "://" ++ sampleHost ++ r) = r.
Proof. intros H. unfold afterHost. change (bs "://" ++ sampleHost ++ r) with (58 :: (bs "//" ++ sampleHost ++ r)). by rewrite cutAt_app. Qed.

Lemma cutAt_none s sep : sep ∉ s → cutAt s sep = None.
Proof.
  induction s as [|c s IH]; [done|]. intros H. cbn [cutAt]. destruct (Z.eqb_spec c sep) as [->|_]; [destruct H; left|]. by rewrite IH by (intros ?; apply H; by right).
Qed.

Lemma reaches_reads rq path ps : reaches rq sampleHost path ps →
  ∃ raw q, pathQuery (afterHost (rqURL rq)) = (raw, q) ∧ percentDecode raw = Some path ∧ (ps ≠ [] → mapM decodePair (queryPairs q) = Some ps).
Proof.
  intros (scheme&raw&q&EU&H58&_&_&H63&_&Hd&pairs&->&Hpl&Hm). rewrite EU, afterHost_spec by done. unfold pathQuery. destruct ps as [|p0 ps].
  - rewrite app_nil_r, cutAt_none by done. by exists raw, [].
  - change (raw ++ bs "?" ++ ?q) with (raw ++ 63 :: q). rewrite cutAt_app by done. eexists _, _. split; [done|]. split; [done|]. intros _. by rewrite queryPairs_says.
Qed.

Lemma sampleDo_object sv rq key : reaches rq sampleHost (objectPath sampleAccount key) [] →
  sampleDo sv rq = if bool_decide (rqMethod rq = bs "PUT") then (Some (200, []), <[key := rqBody rq]> sv)
    else if bool_decide (rqMethod rq = bs "GET") then (Some (match sv !! key with Some d => (200, d) | None => (404, []) end), sv)
    else (Some (204, []), delete key sv).
Proof.
  intros (raw&q&E&Hd&_)%reaches_reads. unfold sampleDo. rewrite E, Hd. change (objectPath sampleAccount key) with (bs "/pages/" ++ key).
  rewrite (proj2 (has_prefix_spec _ _)) by eauto. by change (drop 7 (bs "/pages/" ++ key)) with key.
Qed.

Lemma samplePage_spec sv prefix i ks : samplePages sv prefix !! i = Some ks →
  sampleXML (samplePage sv prefix i) = Some {| Contents := ks; IsTruncated := bool_decide (S i < length (samplePages sv prefix))%nat;
    NextContinuationToken := if bool_decide (S i < length (samplePages sv prefix))%nat then sampleToken (S i) else [] |}.
Proof. intros Hi. unfold samplePage. cbv zeta. rewrite sampleXML_body. by rewrite (nth_lookup_Some _ _ _ _ Hi). Qed.

#[export] Instance sample_laws : S3Laws sampleSha sampleHmac sampleXML sampleDo sampleNow sampleFuel sampleAccount.
Proof.
  refine {| sv_inv := fun _ => True; sv_host := sampleHost; stored := fun sv k => sv !! k; pages := samplePages; token := fun _ _ i => sampleToken i |}.
  - intros d. constructor; [|constructor]. unfold is_u8. mlia.
  - intros k d. constructor; [|constructor]. unfold is_u8. mlia.
  - intros sv. apply (bool_decide_unpack _). by vm_compute.
  - intros sv rq key _ Em _ Ha _. rewrite (sampleDo_object sv rq key Ha), Em. rewrite bool_decide_true by done. eexists _, _. split; [done|]. split; [done|].
    intros k. case_bool_decide as Ek; [subst; apply lookup_insert_eq|by apply lookup_insert_ne].
  - intros sv rq key _ Em _ Ha _. rewrite (sampleDo_object sv rq key Ha), Em. rewrite bool_decide_false, bool_decide_true by done. cbn [fst].
    destruct (sv !! key); [done|by eexists].
  - intros sv rq key _ Em _ Ha _. rewrite (sampleDo_object sv rq key Ha), Em. rewrite !bool_decide_false by done. eexists _, _, _. split; [done|].
    split; [by left|]. split; [done|]. intros k. case_bool_decide as Ek; [subst; apply lookup_delete_eq|by apply lookup_delete_ne].
  - intros sv rq prefix i ks _ Em ps (raw&q&E&Hd&Hq)%reaches_reads _ Hi. unfold sampleDo. rewrite E, Hd, Hq by done.
    change (has_prefix (bucketPath sampleAccount) (bs "/pages/")) with false. cbv iota. unfold ps, listPairs.
    exists (samplePage sv prefix i). split; [|split; [done|by apply samplePage_spec]].
    destruct i as [|i]; [done|]. change (sampleToken (S i)) with (49 :: sampleToken i). cbn [app fst].
    change (length (49 :: sampleToken i)) with (S (length (sampleToken i))). unfold sampleToken. by rewrite length_replicate.
  - intros sv prefix _. destruct (keysUnder_spec sv prefix) as (Hnd&Hl&Hin), (pagesOf_concat (keysUnder sv prefix)) as (E&H1&H2).
    unfold samplePages. rewrite E. split_and!; [done|unfold sampleFuel; lia|done|done].
  - intros sv prefix i _ [Hi _]. split; [destruct i; [lia|done]|]. by apply Forall_replicate.
Defined.

Lemma sample_configured : s3_configured sampleSha sampleHmac sampleParse sampleXML sampleDo sampleNow sampleFuel sampleAccount sample_laws.
Proof.
  constructor; [done|by repeat constructor|apply (bool_decide_unpack _); by vm_compute|]. exists sampleURL.
  split_and!; [done|apply (bool_decide_unpack _); by vm_compute|done|done|apply (bool_decide_unpack _); by vm_compute|].
  right. split; [apply (bool_decide_unpack _); by vm_compute|done].
Qed.

Definition sampleIDs : list bytes := map (fun i => replicate 15 7 ++ [i]) [1; 2; 3; 4; 5; 6].
Definition sampleStore : S3BlobStore (Sv := gmap bytes bytes) := mkS3 sampleAccount false ∅ sampleIDs.
#[export] Instance sample_ops : BlobStore (S3BlobStore (Sv := gmap bytes bytes)) := S3BlobStore_ops sampleSha sampleHmac sampleParse sampleXML sampleDo sampleNow sampleFuel.

Fixpoint putAll (b : S3BlobStore (Sv := gmap bytes bytes)) (l : list bytes) : res S3BlobStore :=
  match l with [] => Ok b | d :: l' => '(_, b) ← Put b d; putAll b l' end.

(** Five blobs are listed, over three pages; a root is found by its name. *)
Example sample_listing :
  (b ← putAll sampleStore [bs "a"; bs "b"; bs "c"; bs "d"; bs "e"]; b ← PutRoot b (bs "root_00") (bs "r");
   us ← List_ b; ns ← ListRoots b; d ← Get b (replicate 15 7 ++ [3]); Ok (length us, ns, d, length (samplePages (service b) (bs "db/blobs/"))))
  = Ok (5%nat, [bs "root_00"], Some (bs "c"), 3%nat).
Proof. vm_compute. reflexivity. Qed.

Lemma sampleStore_inv : s3_inv sampleSha sampleHmac sampleXML sampleDo sampleNow sampleFuel sampleStore.
Proof.
  constructor.
  - by split_and!.
  - intros id Hid. assert (Forall (fun id => is_id id ∧ id ≠ zeroUUID) sampleIDs) as H by (repeat constructor; by vm_compute).
    rewrite Forall_forall in H. destruct (H id Hid). split_and!; [done|done|]. apply lookup_empty.
  - apply (bool_decide_unpack _). by vm_compute.
  - intros k [d Hd]. cbn in Hd. by rewrite lookup_empty in Hd.
  - intros k [d Hd]. cbn in Hd. by rewrite lookup_empty in Hd.
Qed.
End s3Samples.
Import s3Samples.

Lemma s3_keeps_blobs_witness :
  ∃ id b', s3Put sampleSha sampleHmac sampleParse sampleDo sampleNow sampleStore (bs "page") = Ok (id, b')
    ∧ s3Get sampleSha sampleHmac sampleParse sampleDo sampleNow b' id = Ok (Some (bs "page")).
Proof.
  destruct (s3_keeps_blobs sampleSha sampleHmac sampleParse sampleXML sampleDo sampleNow sampleFuel
    sample_configured sampleStore (bs "page")) as (id&b'&us&us'&E&_&Eg&_); [apply sampleStore_inv|cbn; lia|].
  exists id, b'. by split.
Defined.

Lemma requests_verify_witness :
  let rq := requestOf sampleSha sampleHmac sampleParse sampleAccount (sampleNow ∅) (bs "PUT") (bs "db/a b") [] (bs "page") in
  reaches rq sampleHost (bs "/pages/db/a b") [] ∧ signedBy sampleSha sampleHmac sampleAccount (sampleNow ∅) rq (bs "/pages/db/a b") []
  ∧ rqURL rq = bs "http://localhost:9000/pages/db/a%20b".
Proof.
  destruct (requests_verify sampleSha sampleHmac sampleParse sampleXML sampleDo sampleNow sampleFuel sample_configured ∅) as [H _].
  destruct (H (bs "PUT") (bs "db/a b") (bs "page") eq_refl ltac:(done) ltac:(apply (bool_decide_unpack _); by vm_compute)) as [H1 H2].
  split; [exact H1|]. split; [exact H2|]. by vm_compute.
Defined.
