(* ===== verification/BlobJournal.v ===== *)
(** * The marker journal (go/internal/blobstore/journal.go)

    A file of frames, each a key and a value with their lengths before them. The file
    may be absent; a write may stop anywhere, which leaves a beginning of its frame. *)

From S2P Require Import Prelude.

(** ** Definitions *)

Record Entry : Type := mkEntry { Key : bytes; Value : bytes }.

(** The file of a journal, when there is one. *)
Definition Journal : Type := option bytes.

(** A path, and the file found there. *)
Definition NewJournal (path : bytes) (file : option bytes) : res Journal :=
  if Nat.eqb (length path) 0 then Err "journal path is empty" else Ok file.

Definition frame (key value : bytes) : bytes := be_put 4 (Z.of_nat (length key)) ++ key ++ be_put 4 (Z.of_nat (length value)) ++ value.

(** [written] is how many bytes of the frame came to the file, when a write failed. *)
Definition Append (j : Journal) (key value : bytes) (written : option nat) : bool * Journal :=
  let f := frame key value in
  match written with
  | None => (true, Some (default [] j ++ f))
  | Some n => (false, Some (default [] j ++ take n f))
  end.

Fixpoint readLoop (fuel : nat) (data : bytes) : res (list Entry) :=
  match fuel with
  | O => Diverge
  | S fuel' =>
      if Nat.ltb (length data) 4 then
        if Nat.eqb (length data) 0 then Ok [] else Err "journal read: trailing garbage after last frame"
      else
        let klen := Z.to_nat (be_get (take 4 data)) in
        let data := drop 4 data in
        if Nat.ltb (length data) klen then Err "journal read: truncated key"
        else
          let key := take klen data in
          let data := drop klen data in
          if Nat.ltb (length data) 4 then Err "journal read: truncated vlen"
          else
            let vlen := Z.to_nat (be_get (take 4 data)) in
            let data := drop 4 data in
            if Nat.ltb (length data) vlen then Err "journal read: truncated value"
            else more ← readLoop fuel' (drop vlen data); Ok (mkEntry key (take vlen data) :: more)
  end.

(** Every frame has eight bytes or more. *)
Definition ReadAll (j : Journal) : res (list Entry) := match j with None => Ok [] | Some data => readLoop (S (length data)) data end.

Definition Truncate (_ : Journal) : Journal := None.
Definition Len (j : Journal) : Z := Z.of_nat (length (default [] j)).

(** ** Reading back *)

Definition frames (es : list Entry) : bytes := flat_map (fun e => frame (Key e) (Value e)) es.
Definition entry_fits (e : Entry) : Prop := Z.of_nat (length (Key e)) < 2 ^ 32 ∧ Z.of_nat (length (Value e)) < 2 ^ 32.

Lemma header_get (s rest : bytes) : Z.of_nat (length s) < 2 ^ 32 → Z.to_nat (be_get (take 4 (be_put 4 (Z.of_nat (length s)) ++ rest))) = length s.
Proof. intros Hs. rewrite take_app_le, take_ge by (rewrite length_be_put; lia). rewrite be_get_put, Z.mod_small by lia. apply Nat2Z.id. Qed.

Lemma header_drop n (rest : bytes) : drop 4 (be_put 4 n ++ rest) = rest.
Proof. apply drop_app_length'. by rewrite length_be_put. Qed.

Lemma readLoop_frame fuel e rest : entry_fits e → readLoop (S fuel) (frame (Key e) (Value e) ++ rest) = (more ← readLoop fuel rest; Ok (e :: more)).
Proof.
  intros [Hk Hv]. cbn [readLoop]. unfold frame. rewrite <- !app_assoc. rewrite header_get, header_drop by done.
  replace (Nat.ltb _ 4) with false by (symmetry; apply Nat.ltb_ge; rewrite length_app, length_be_put; lia).
  replace (Nat.ltb _ (length (Key e))) with false by (symmetry; apply Nat.ltb_ge; rewrite length_app; lia).
  rewrite take_app_length, drop_app_length, header_get, header_drop by done.
  replace (Nat.ltb _ 4) with false by (symmetry; apply Nat.ltb_ge; rewrite length_app, length_be_put; lia).
  replace (Nat.ltb _ (length (Value e))) with false by (symmetry; apply Nat.ltb_ge; rewrite length_app; lia).
  rewrite take_app_length, drop_app_length. by destruct e.
Qed.

Lemma readLoop_frames fuel es rest : Forall entry_fits es → (length es ≤ fuel)%nat →
  readLoop fuel (frames es ++ rest) = (more ← readLoop (fuel - length es) rest; Ok (es ++ more)).
Proof.
  intros Hes. revert fuel. induction Hes as [|e es He Hes IH]; intros fuel Hf; cbn [length] in *.
  - cbn [frames flat_map app]. rewrite Nat.sub_0_r. by destruct (readLoop fuel rest).
  - destruct fuel as [|fuel]; [lia|]. unfold frames. cbn [flat_map]. fold (frames es). rewrite <- app_assoc, readLoop_frame, IH by (done || lia).
    cbn [Nat.sub]. by destruct (readLoop (fuel - length es) rest).
Qed.

Lemma frames_length es : (8 * length es ≤ length (frames es))%nat.
Proof. induction es as [|e es IH]; [done|]. unfold frames. cbn [flat_map length]. fold (frames es). unfold frame. rewrite !length_app, !length_be_put. lia. Qed.

(** A journal of whole frames is read back as it was written, and one whose last frame is
    cut short is refused. *)
Theorem journal_reads_frames es e n : Forall entry_fits (e :: es) →
  ReadAll (Some (frames es)) = Ok es
  ∧ ((0 < n < length (frame (Key e) (Value e)))%nat → ∃ msg, ReadAll (Append (Some (frames es)) (Key e) (Value e) (Some n)).2 = Err msg).
Proof.
  intros [[Hk Hv] Hes]%Forall_cons. pose proof (frames_length es) as Hl. split.
  - cbn [ReadAll]. pose proof (readLoop_frames (S (length (frames es))) es [] Hes ltac:(lia)) as H. rewrite app_nil_r in H. rewrite H.
    replace (S (length (frames es)) - length es)%nat with (S (length (frames es) - length es)) by lia. cbn [readLoop length Nat.ltb Nat.leb Nat.eqb].
    by rewrite res_bind_ret, app_nil_r.
  - intros [Hn0 Hn]. unfold Append, ReadAll. cbv zeta. cbn [snd]. change (default [] (Some (frames es))) with (frames es). rewrite readLoop_frames by (done || (rewrite length_app; lia)).
    set (p := take n (frame (Key e) (Value e))). assert (length p = n) as Hp by (apply length_take_le; lia). rewrite length_app, Hp.
    replace (S (length (frames es) + n) - length es)%nat with (S (length (frames es) + n - length es)) by lia. set (fuel := (_ + n - length es)%nat). clearbody fuel.
    assert (∃ msg, readLoop (S fuel) p = Err msg) as [msg ->]; [|by eexists]. cbn [readLoop]. rewrite Hp.
    destruct (Nat.ltb_spec n 4) as [|H4]; [destruct (Nat.eqb_spec n 0); [lia|by eexists]|].
    assert (∃ q, p ++ q = frame (Key e) (Value e)) as [q Hq] by (exists (drop n (frame (Key e) (Value e))); apply take_drop).
    assert (Z.to_nat (be_get (take 4 p)) = length (Key e)) as ->.
    { rewrite <- (header_get (Key e) (Key e ++ be_put 4 (Z.of_nat (length (Value e))) ++ Value e) Hk). change (be_put 4 _ ++ _) with (frame (Key e) (Value e)).
      rewrite <- Hq. by rewrite take_app_le by lia. }
    assert (drop 4 p ++ q = Key e ++ be_put 4 (Z.of_nat (length (Value e))) ++ Value e) as Hq1.
    { rewrite <- drop_app_le by lia. rewrite Hq. apply header_drop. }
    destruct (Nat.ltb_spec (length (drop 4 p)) (length (Key e))) as [|H1]; [by eexists|].
    assert (drop (length (Key e)) (drop 4 p) ++ q = be_put 4 (Z.of_nat (length (Value e))) ++ Value e) as Hq2.
    { rewrite <- drop_app_le by lia. rewrite Hq1. apply drop_app_length. }
    set (p2 := drop (length (Key e)) (drop 4 p)) in *. destruct (Nat.ltb_spec (length p2) 4) as [|H2]; [by eexists|].
    assert (Z.to_nat (be_get (take 4 p2)) = length (Value e)) as ->.
    { rewrite <- (header_get (Value e) (Value e) Hv), <- Hq2. by rewrite take_app_le by lia. }
    replace (Nat.ltb (length (drop 4 p2)) (length (Value e))) with true; [by eexists|]. symmetry. apply Nat.ltb_lt.
    apply (f_equal length) in Hq. apply (f_equal length) in Hq2. rewrite !length_app, !length_be_put in *. unfold frame in Hq, Hn.
    rewrite !length_app, !length_be_put in Hq, Hn. rewrite length_drop. lia.
Qed.

Lemma journal_reads_frames_witness :
  ReadAll (Some (frames [mkEntry (bs "k") (bs "v")])) = Ok [mkEntry (bs "k") (bs "v")].
Proof. apply (journal_reads_frames [mkEntry (bs "k") (bs "v")] (mkEntry (bs "a") (bs "b")) 0). repeat constructor; by vm_compute. Defined.
