(* ===== verification/Client.v ===== *)
(** * The client (go/internal/client)

    Requests to a query server over one connection, the frames of their responses, and
    the texts a shell shows for the values in them. A connection is what the server
    writes to it and what was sent to it; a response is in [input] before the request
    is, since nothing the client does depends on when it comes. *)

From Stdlib Require Import String.
From S2P Require Import Prelude Msgpack Sexpr Numfmt BlobStore PageStore KvStore Cursors QueryStore Scheme HostFns Session Edn Datalog SchemeCompile Stats PageCommit KvSpec KvEngine Frames Downstream Transactor Gateway.
Open Scope string_scope.
Open Scope list_scope.
Open Scope Z_scope.

(** ** Definitions *)

(** [base64.StdEncoding.EncodeToString]. *)
Definition base64Chars : bytes := bs "ABCDEFGHIJKLMNOPQRSTUVWXYZabcdefghijklmnopqrstuvwxyz0123456789+/".
Definition base64Char (n : Z) : Z := nth (Z.to_nat (Z.land n 63)) base64Chars 0.
Fixpoint base64 (s : bytes) : bytes :=
  match s with
  | a :: b :: c :: s' =>
      let n := Z.lor (Z.lor (Z.shiftl a 16) (Z.shiftl b 8)) c in
      base64Char (Z.shiftr n 18) :: base64Char (Z.shiftr n 12) :: base64Char (Z.shiftr n 6) :: base64Char n :: base64 s'
  | [a; b] =>
      let n := Z.lor (Z.shiftl a 16) (Z.shiftl b 8) in
      [base64Char (Z.shiftr n 18); base64Char (Z.shiftr n 12); base64Char (Z.shiftr n 6); 61]
  | [a] => let n := Z.shiftl a 16 in [base64Char (Z.shiftr n 18); base64Char (Z.shiftr n 12); 61; 61]
  | [] => []
  end.

(** [FormatE] is the float format of Numfmt.v; [QuoteJSON] is [json.Marshal] of a
    string. *)
Section client.
Variable FormatE : Z → bytes.
Variable QuoteJSON : bytes → bytes.

(** *** Texts of values (render.go) *)

Definition q (s : string) : bytes := quote ++ bs s ++ quote.

Definition binStr (b : bytes) : bytes :=
  bs "{" ++ q "type" ++ bs ":" ++ q "bin" ++ bs "," ++ q "len" ++ bs ":" ++ FormatInt (Z.of_nat (length b)) ++ bs "," ++ q "data" ++ bs ":"
    ++ quote ++ base64 b ++ quote ++ bs "}".

Definition extStr (ty : Z) (data : bytes) : bytes :=
  bs "{" ++ q "type" ++ bs ":" ++ q "ext" ++ bs "," ++ q "len" ++ bs ":" ++ FormatInt (Z.of_nat (length data)) ++ bs ","
    ++ q "exttype" ++ bs ":" ++ FormatInt ty ++ bs "," ++ q "data" ++ bs ":" ++ quote ++ base64 data ++ quote ++ bs "}".

Definition isInt (v : value) : bool := match v with Int _ => true | _ => false end.
Definition allInts (l : list value) : bool := forallb isInt l.

(** Strings inside arrays and maps are quoted, so that [valueJSON] of the code is
    [ValueString] of the elements with [inner] set. *)
Fixpoint valueText (inner : bool) (v : value) : bytes :=
  match v with
  | Str s => if inner then QuoteJSON s else s
  | Bin b => binStr b
  | Ext ty data => extStr ty data
  | Int n => FormatInt n
  | Float f => FloatString FormatE f
  | Bool b => boolText b
  | Nil => bs "null"
  | Array l =>
      if negb (Nat.eqb (length l) 0) && allInts l then map (fun e => match e with Int n => u8 n | _ => 0 end) l
      else bs "[" ++ joinBytes (bs ",") (map (valueText true) l) ++ bs "]"
  | Map m => bs "{" ++ joinBytes (bs ",") (map (fun '(k, x) => valueText true k ++ bs ":" ++ valueText true x) m) ++ bs "}"
  | Raw _ => bs "null"
  end.
Definition ValueString : value → bytes := valueText false.

(** *** The connection (client.go) *)

Inductive clientError : Type :=
| ServerError (msg : bytes)
| DisconnectedError (msg : string)
| OtherError (msg : string).

(** [writable] is whether a write to the connection succeeds. *)
Record netConn : Type := mkNet { input : bytes; output : bytes; writable : bool }.

(** [conn] is [None] once the client is closed. *)
Record Client : Type := mkClient { conn : option netConn; path : bytes }.
Implicit Types c : Client.

Definition outcome (A : Type) : Type := (clientError + A) * Client.

Definition Dial (server : option netConn) (path : bytes) : option Client := match server with Some n => Some (mkClient (Some n) path) | None => None end.
Definition Close c : Client := mkClient None (path c).

Definition sendFrame c (body : bytes) : outcome unit :=
  match conn c with
  | None => (inl (DisconnectedError "server disconnected (closed)"), c)
  | Some n =>
      if writable n then (inr tt, mkClient (Some (mkNet (input n) (output n ++ WriteFrame body) true)) (path c))
      else (inl (DisconnectedError "server disconnected (send)"), c)
  end.

(** What was read of a frame that is not whole is gone. *)
Definition recvFrame c : outcome bytes :=
  match conn c with
  | None => (inl (DisconnectedError "server disconnected (closed)"), c)
  | Some n =>
      let c' (rest : bytes) := mkClient (Some (mkNet rest (output n) (writable n))) (path c) in
      if Nat.ltb (length (input n)) 4 then (inl (DisconnectedError "server disconnected (recv)"), c' [])
      else
        let len := be_get (take 4 (input n)) in
        let rest := drop 4 (input n) in
        if len =? 0 then (inl (DisconnectedError "server disconnected (empty frame)"), c' rest)
        else if len >? maxFrame then (inl (DisconnectedError "server disconnected (oversize frame)"), c' rest)
        else if Nat.ltb (length rest) (Z.to_nat len) then (inl (DisconnectedError "server disconnected (read body)"), c' [])
        else (inr (take (Z.to_nat len) rest), c' (drop (Z.to_nat len) rest))
  end.

Definition req (typ : string) (fields : list (value * value)) : value := Map ((Str (bs "type"), Str (bs typ)) :: fields).

Definition recvMapRaw c : outcome (list (value * value)) :=
  match recvFrame c with
  | (inl e, c) => (inl e, c)
  | (inr body, c) =>
      match Unmarshal body with
      | Ok (Map m) => (inr m, c)
      | Ok _ => (inl (OtherError "malformed response (not a map)"), c)
      | _ => (inl (OtherError "bad response"), c)
      end
  end.

(** The error of a response, when it has one. *)
Definition serverError (m : list (value * value)) : option bytes :=
  match Member m (Str (bs "error")) with Some (Str (b :: s)) => Some (b :: s) | _ => None end.

Definition recvMap c : outcome (list (value * value)) :=
  match recvMapRaw c with
  | (inl e, c) => (inl e, c)
  | (inr m, c) => match serverError m with Some msg => (inl (ServerError msg), c) | None => (inr m, c) end
  end.

Record Chunk : Type := mkChunk { Columns : list bytes; Rows : list (list bytes) }.

Definition rowStrings (row : value) : list bytes := match row with Array cells => map ValueString cells | v => [ValueString v] end.

Definition chunkOf (m : list (value * value)) : Chunk :=
  mkChunk (map ValueString (memberArray m "columns")) (map rowStrings (memberArray m "rows")).

Definition recvChunk c : outcome (Chunk * bool) :=
  match recvMap c with
  | (inl e, c) => (inl e, c)
  | (inr m, c) => (inr (chunkOf m, memberBool m "more"), c)
  end.

(** [onChunk] with its state, which is kept when there is an error; the loop takes at
    most as many turns as there are bytes to read. *)
Fixpoint streamLoop {S} (fuel : nat) (onChunk : S → Chunk → option clientError * S) (s : S) c : option clientError * S * Client :=
  match fuel with
  | O => (Some (OtherError "fuel"), s, c)
  | Datatypes.S fuel' =>
      match recvChunk c with
      | (inl e, c) => (Some e, s, c)
      | (inr (ch, more), c) =>
          match onChunk s ch with
          | (Some e, s) => (Some e, s, c)
          | (None, s) => if more then streamLoop fuel' onChunk s c else (None, s, c)
          end
      end
  end.

Definition turns c : nat := match conn c with Some n => Datatypes.S (length (input n)) | None => 1%nat end.

Definition stream {S} c (r : value) (onChunk : S → Chunk → option clientError * S) (s : S) : option clientError * S * Client :=
  match sendFrame c (Marshal r) with
  | (inl e, c) => (Some e, s, c)
  | (inr _, c) => streamLoop (turns c) onChunk s c
  end.

(** The chunks read before an error are returned with it. *)
Definition collect c (r : value) : option clientError * list Chunk * Client := stream c r (fun chunks ch => (None, chunks ++ [ch])) [].

(** *** Requests *)

Definition strField (key : string) (v : bytes) : value * value := (Str (bs key), Str v).
Definition datalogReq (query : bytes) : value := req "datalog" [strField "query" query].

Definition Datalog {S} c (query : bytes) (onChunk : S → Chunk → option clientError * S) (s : S) : option clientError * S * Client := stream c (datalogReq query) onChunk s.
Definition DatalogAll c (query : bytes) : option clientError * list Chunk * Client := collect c (datalogReq query).
Definition Dump {S} c (index : bytes) (onChunk : S → Chunk → option clientError * S) (s : S) : option clientError * S * Client :=
  stream c (req "admin" [strField "command" (bs "dump " ++ index)]) onChunk s.
Definition KVScan {S} c (cf : Z) (onChunk : S → Chunk → option clientError * S) (s : S) : option clientError * S * Client :=
  stream c (req "kv" [strField "op" (bs "scan"); (Str (bs "cf"), Int cf)]) onChunk s.

(** An error of the server is not looked at. *)
Definition Admin c (command : bytes) : outcome bytes :=
  match sendFrame c (Marshal (req "admin" [strField "command" command])) with
  | (inl e, c) => (inl e, c)
  | (inr _, c) => match recvMapRaw c with (inl e, c) => (inl e, c) | (inr m, c) => (inr (memberStr m "output"), c) end
  end.

Definition kvOp c (op : string) (cf : Z) (key value_ : option bytes) : outcome (list (value * value)) :=
  let fields := [strField "op" (bs op); (Str (bs "cf"), Int cf)]
    ++ match key with Some k => [strField "key" k] | None => [] end ++ match value_ with Some v => [strField "value" v] | None => [] end in
  match sendFrame c (Marshal (req "kv" fields)) with
  | (inl e, c) => (inl e, c)
  | (inr _, c) => recvMap c
  end.

(** Errors of the server become part of the text. *)
Definition folded {A} (r : outcome A) (text : A → bytes) : outcome bytes :=
  match r with
  | (inl (ServerError msg), c) => (inr (bs "error: " ++ msg), c)
  | (inl e, c) => (inl e, c)
  | (inr a, c) => (inr (text a), c)
  end.

Definition KVPut c (cf : Z) (key value_ : bytes) : outcome bytes := folded (kvOp c "put" cf (Some key) (Some value_)) (fun _ => bs "ok").
Definition KVDelete c (cf : Z) (key : bytes) : outcome bytes := folded (kvOp c "delete" cf (Some key) None) (fun _ => bs "ok").
Definition KVGet c (cf : Z) (key : bytes) : outcome bytes :=
  folded (kvOp c "get" cf (Some key) None)
    (fun m => match memberArray m "rows" with Array (v :: _) :: _ => ValueString v | _ => bs "(none)" end).

Fixpoint ednToWire (v : edn.Value) : value :=
  match v with
  | edn.Int x => Int x
  | edn.Float x => Float x
  | edn.Str x => Str x
  | edn.Bool x => Bool x
  | edn.Nil => Nil
  | edn.Keyword x => Ext ExtKeyword x
  | edn.Symbol x => Ext ExtSymbol x
  | edn.List l => Array (map ednToWire l)
  end.

Definition txReq (ops : list edn.Value) : value := req "tx" [(Str (bs "txdata"), Array (map ednToWire ops))].

Definition Tx c (ops : list edn.Value) : outcome bytes :=
  folded (match sendFrame c (Marshal (txReq ops)) with (inl e, c) => (inl e, c) | (inr _, c) => recvMap c end)
    (fun m =>
      let txID := match Member m (Str (bs "tx")) with Some (Int n) => n | _ => 0 end in
      let parts := [bs "tx=" ++ FormatInt txID] ++ match Member m (Str (bs "tempids")) with Some _ => [bs "tempids resolved"] | None => [] end in
      bs "tx-report: " ++ joinBytes (bs ", ") parts).

Definition TxData c (ops : list edn.Value) : outcome unit :=
  match sendFrame c (Marshal (txReq ops)) with
  | (inl e, c) => (inl e, c)
  | (inr _, c) => match recvMap c with (inl e, c) => (inl e, c) | (inr _, c) => (inr tt, c) end
  end.
End client.

(** ** Responses are read whole *)

Section responses.
Variable FormatE : Z → bytes.
Variable QuoteJSON : bytes → bytes.
Abbreviation collect := (collect FormatE QuoteJSON).
Abbreviation chunkOf := (chunkOf FormatE QuoteJSON).
Abbreviation recvChunk := (recvChunk FormatE QuoteJSON).
Implicit Types c : Client.

(** A client on a connection that will bring [inp] and has sent [out]. *)
Definition on (p inp out : bytes) : Client := mkClient (Some (mkNet inp out true)) p.

(** A frame a server can send and a client can read. *)
Definition sendable (v : value) : Prop := wf v = true ∧ fits (Marshal v).

Definition chunk (v : value) : Chunk := match v with Map m => chunkOf m | _ => mkChunk [] [] end.
Definition errorIn (v : value) : option bytes := match v with Map m => serverError m | _ => None end.

Lemma recvFrame_write p body rest out : fits body → recvFrame (on p (WriteFrame body ++ rest) out) = (inr body, on p rest out).
Proof.
  intros Hf. unfold recvFrame, on. cbn [conn input output writable path]. rewrite header_WriteFrame, body_WriteFrame by done. destruct Hf as [H0 Hm].
  rewrite length_app, length_WriteFrame. replace (Nat.ltb (4 + length body + length rest) 4) with false by (symmetry; apply Nat.ltb_ge; lia).
  replace (Z.of_nat (length body) =? 0) with false by lia. replace (Z.of_nat (length body) >? maxFrame) with false by lia.
  rewrite Nat2Z.id, length_app. replace (Nat.ltb (length body + length rest) (length body)) with false by (symmetry; apply Nat.ltb_ge; lia).
  by rewrite take_app_length, drop_app_length.
Qed.

Lemma recvMap_write p m rest out : sendable (Map m) →
  recvMap (on p (WriteFrame (Marshal (Map m)) ++ rest) out)
  = match serverError m with Some msg => (inl (ServerError msg), on p rest out) | None => (inr m, on p rest out) end.
Proof. intros [Hw Hf]. unfold recvMap, recvMapRaw. rewrite recvFrame_write, unmarshal_marshal by done. done. Qed.

Lemma recvChunk_reply id more p v rest out : isReply id more v → sendable v →
  recvChunk (on p (WriteFrame (Marshal v) ++ rest) out)
  = match errorIn v with Some msg => (inl (ServerError msg), on p rest out) | None => (inr (chunk v, more), on p rest out) end.
Proof.
  intros (m&->&_&_&Hm) Hs. unfold Client.recvChunk. rewrite recvMap_write by done. cbn [errorIn chunk].
  destruct (serverError m); [done|]. unfold memberBool. by rewrite Hm.
Qed.

(** One more frame of a response. *)
Lemma streamLoop_more {S} id p v rest out fuel (f : S → Chunk → option clientError * S) s s' : isReply id true v → sendable v → errorIn v = None →
  f s (chunk v) = (None, s') →
  streamLoop FormatE QuoteJSON (Datatypes.S fuel) f s (on p (WriteFrame (Marshal v) ++ rest) out) = streamLoop FormatE QuoteJSON fuel f s' (on p rest out).
Proof. intros Hr Hs He Hf. cbn [streamLoop]. by rewrite (recvChunk_reply id true), He, Hf by done. Qed.

Lemma streamLoop_last {S} id p v rest out fuel (f : S → Chunk → option clientError * S) s : isReply id false v → sendable v →
  streamLoop FormatE QuoteJSON (Datatypes.S fuel) f s (on p (WriteFrame (Marshal v) ++ rest) out)
  = (match errorIn v with Some msg => (Some (ServerError msg), s) | None => f s (chunk v) end, on p rest out).
Proof. intros Hr Hs. cbn [streamLoop]. rewrite (recvChunk_reply id false) by done. destruct (errorIn v); [done|]. by destruct (f s (chunk v)) as [[e|] s']. Qed.

Lemma collectLoop_reads id p fs f rest out fuel chunks : (length fs < fuel)%nat →
  Forall (isReply id true) fs → isReply id false f → Forall sendable (fs ++ [f]) → Forall (fun v => errorIn v = None) fs →
  streamLoop FormatE QuoteJSON fuel (fun chunks ch => (None, chunks ++ [ch])) chunks (on p (writeFrames (map Marshal (fs ++ [f])) ++ rest) out)
  = (match errorIn f with Some msg => (Some (ServerError msg), chunks ++ map chunk fs) | None => (None, chunks ++ map chunk (fs ++ [f])) end, on p rest out).
Proof.
  intros Hl Hfs Hf Hs He. revert fuel chunks Hl Hs He. induction Hfs as [|v fs Hv Hfs IH]; intros [|fuel] chunks Hl Hs He; cbn [length] in Hl; [lia| |lia|].
  - apply Forall_cons_1 in Hs as [Hs _]. unfold writeFrames. cbn [app map concat]. rewrite !app_nil_r. by rewrite (streamLoop_last id).
  - cbn [app] in Hs. apply Forall_cons_1 in Hs as [Hs1 Hs], He as [He1 He]. unfold writeFrames. cbn [app map concat]. rewrite <- app_assoc.
    rewrite (streamLoop_more id p v _ out fuel _ chunks (chunks ++ [chunk v])) by done. fold (writeFrames (map Marshal (fs ++ [f]))).
    rewrite IH by (done || lia). destruct (errorIn f); by rewrite <- app_assoc.
Qed.

Lemma writeFrames_length (fs : list value) rest : (length fs ≤ length (writeFrames (map Marshal fs) ++ rest))%nat.
Proof.
  rewrite length_app. induction fs as [|f fs IH]; [cbn; lia|]. unfold writeFrames. cbn [map concat length]. rewrite !length_app, length_WriteFrame.
  fold (writeFrames (map Marshal fs)). lia.
Qed.

(** A whole response is read, however many frames it has, and the connection is then at
    the next one, an error of the server included. *)
Lemma collect_reads id p r fs f rest out :
  Forall (isReply id true) fs → isReply id false f → Forall sendable (fs ++ [f]) → Forall (fun v => errorIn v = None) fs →
  collect (on p (writeFrames (map Marshal (fs ++ [f])) ++ rest) out) r
  = (match errorIn f with Some msg => (Some (ServerError msg), map chunk fs) | None => (None, map chunk (fs ++ [f])) end, on p rest (out ++ WriteFrame (Marshal r))).
Proof.
  intros Hfs Hf Hs He. unfold Client.collect, stream, sendFrame. cbn [on conn writable input output path]. unfold turns. cbn [conn input].
  apply (collectLoop_reads id p fs f rest (out ++ WriteFrame (Marshal r)) _ []); [|done..].
  pose proof (writeFrames_length (fs ++ [f]) rest) as H. rewrite length_app in H at 1. cbn in H. lia.
Qed.

Lemma response_chunk id columns rows more :
  errorIn (writeResponse id columns rows more []) = None
  ∧ chunk (writeResponse id columns rows more []) = mkChunk columns (map (map (fun e => ValueString FormatE QuoteJSON (ToPlainValue e))) rows).
Proof.
  unfold writeResponse, errorIn, chunk, serverError, Client.chunkOf, memberArray. set (fields := [(Str (bs "columns"), _); _; _]).
  assert (∀ key, bs key ≠ bs "id" → Member (idField id ++ fields) (Str (bs key)) = Member fields (Str (bs key))) as Hm.
  { intros key Hk. destruct id as [|b id]; [done|]. cbn [idField app Member Equal]. by rewrite bool_decide_false by (intros E; by symmetry in E). }
  rewrite !Hm by done. split; [reflexivity|].
  assert (Member fields (Str (bs "columns")) = Some (Array (map Str columns)) ∧ Member fields (Str (bs "rows")) = Some (rowsValue rows)) as [-> ->] by done.
  unfold rowsValue. f_equal; rewrite map_map; [apply map_id|]. apply map_ext. intros row. cbn [rowStrings]. by rewrite map_map.
Qed.

(** The frames of rows carry the rows, with no error. *)
Lemma rowsLoop_chunks id columns rows acc :
  ∃ fs f, rowsLoop id columns rows acc = fs ++ [f] ∧ Forall (isReply id true) fs ∧ isReply id false f
    ∧ Forall (fun v => errorIn v = None) (fs ++ [f]) ∧ Forall (fun v => Columns (chunk v) = columns) (fs ++ [f])
    ∧ concat (map (fun v => Rows (chunk v)) (fs ++ [f])) = map (map (fun e => ValueString FormatE QuoteJSON (ToPlainValue e))) (acc ++ rows).
Proof.
  revert acc. induction rows as [|row rows IH]; intros acc; cbn [rowsLoop].
  { exists [], (writeResponse id columns acc false []). destruct (response_chunk id columns acc false) as [E1 E2]. cbn [app map concat].
    rewrite E2, !app_nil_r. split_and!; [done|constructor|apply (isReply_response id columns acc false [])|by repeat constructor|by repeat constructor; rewrite E2|done]. }
  destruct (Nat.leb 100 (length (acc ++ [row]))).
  - destruct (IH []) as (fs&f&->&H1&H2&H3&H4&H5). exists (writeResponse id columns (acc ++ [row]) true [] :: fs), f.
    destruct (response_chunk id columns (acc ++ [row]) true) as [E1 E2]. cbn [app map concat]. rewrite E2, H5. cbn [Rows app].
    split_and!; [done|constructor; [apply (isReply_response id columns (acc ++ [row]) true [])|done]|done|by constructor|by constructor; [rewrite E2|]|].
    by rewrite <- map_app, <- app_assoc.
  - destruct (IH (acc ++ [row])) as (fs&f&->&H1&H2&H3&H4&H5). exists fs, f. rewrite H5, <- app_assoc. by split_and!.
Qed.

(** *** The batches of a query *)

Definition texts (rows : list (list Expr)) : list (list bytes) := map (map (fun e => ValueString FormatE QuoteJSON (ToPlainValue e))) rows.

Definition batchValue (columns : list bytes) (rows : list (list Expr)) (more : bool) : value :=
  Map [(Str (bs "columns"), Array (map Str columns)); (Str (bs "rows"), rowsValue rows); (Str (bs "more"), Bool more)].
Definition errorValue (msg : bytes) : value := Map [(Str (bs "error"), Str msg); (Str (bs "more"), Bool false)].

(** The frames of a response: the batches, the columns with the first, and after them
    the error that ended it, if one did. *)
Fixpoint batchValues (columns : list bytes) (batches : list (list (list Expr))) (err : option bytes) : list value :=
  match batches, err with
  | [], None => []
  | [], Some msg => [errorValue msg]
  | [rows], None => [batchValue columns rows false]
  | rows :: batches', _ => batchValue columns rows true :: batchValues [] batches' err
  end.

(** What a client makes of the batches. *)
Definition batchChunks (columns : list bytes) (batches : list (list (list Expr))) : list Chunk :=
  match batches with [] => [] | rows :: batches' => mkChunk columns (texts rows) :: map (fun rows => mkChunk [] (texts rows)) batches' end.

Lemma batch_chunk columns rows more : isReply [] more (batchValue columns rows more) ∧ errorIn (batchValue columns rows more) = None
  ∧ chunk (batchValue columns rows more) = mkChunk columns (texts rows).
Proof.
  split; [eexists; done|]. split; [done|]. unfold chunk, batchValue, Client.chunkOf, memberArray. set (fields := [(Str (bs "columns"), _); _; _]).
  assert (Member fields (Str (bs "columns")) = Some (Array (map Str columns)) ∧ Member fields (Str (bs "rows")) = Some (rowsValue rows)) as [-> ->] by done.
  unfold rowsValue, texts. f_equal; rewrite map_map; [apply map_id|]. apply map_ext. intros row. cbn [rowStrings]. by rewrite map_map.
Qed.

Lemma error_chunk msg : msg ≠ [] → isReply [] false (errorValue msg) ∧ errorIn (errorValue msg) = Some msg.
Proof. intros Hm. split; [eexists; done|]. unfold errorIn, errorValue, serverError. by destruct msg. Qed.

(** A response of batches that is not empty is one the client can read. *)
Lemma batchValues_reply columns batches err : (batches ≠ [] ∨ err ≠ None) → err ≠ Some [] →
  ∃ fs f, batchValues columns batches err = fs ++ [f] ∧ Forall (isReply [] true) fs ∧ isReply [] false f ∧ Forall (fun v => errorIn v = None) fs
    ∧ errorIn f = err ∧ match err with Some _ => map chunk fs | None => map chunk (fs ++ [f]) end = batchChunks columns batches.
Proof.
  intros Hne He. revert columns Hne. induction batches as [|rows batches IH]; intros columns Hne.
  { destruct err as [msg|]; [|by destruct Hne]. destruct (error_chunk msg) as [H1 H2]; [congruence|]. exists [], (errorValue msg). by split_and!. }
  destruct (batch_chunk columns rows true) as (T1&T2&T3), (batch_chunk columns rows false) as (F1&F2&F3).
  assert ((batches = [] ∧ err = None) ∨ (batches ≠ [] ∨ err ≠ None)) as [[-> ->]|Hm] by (destruct batches, err; auto; right; by right).
  { exists [], (batchValue columns rows false). cbn [app map batchChunks]. rewrite F3. by split_and!. }
  destruct (IH [] Hm) as (fs&f&E&H1&H2&H3&H4&H5). exists (batchValue columns rows true :: fs), f.
  assert (batchValues columns (rows :: batches) err = batchValue columns rows true :: batchValues [] batches err) as ->
    by (destruct batches, err; try done; by destruct Hm). rewrite E. split_and!; [done|by constructor|done|by constructor|done|].
  cbn [batchChunks]. assert (map (fun rows => mkChunk [] (texts rows)) batches = batchChunks [] batches) as -> by (by destruct batches).
  rewrite <- H5. cbn [app map]. rewrite T3. by destruct err.
Qed.

Section batches.
Context {B : Type} `{HB : BlobStore B} `{HZ : Zstd}.
Variable ParseFloat : bytes → option Z.
Variable FormatG : Z → bytes.
Variable nan : Z.
Variable huge : Z → Z.
Variable ErrorText : string → bytes.
Variable nowMicros : Z.
Variable n : nat.
Abbreviation Session := (StreamingSession (E := @QueryStore (KVStore B)) (C := keysCursor)).
Abbreviation serverTurns := (streamTurns ParseFloat FormatG FormatE nan huge ErrorText nowMicros n).

(** The batches a session gives, a hundred rows at most in each, and how it ends. *)
Fixpoint sessionBatches (turns : nat) (ss : Session) : res (list (list (list Expr)) * option bytes) :=
  match turns with
  | O => Diverge
  | S turns' =>
      '(ss, r) ← nextBatch (EO := gwOps ParseFloat FormatG FormatE nowMicros) FormatE nan huge {| keys := []; kpos := 0 |} n n ss 100;
      match r with
      | inl msg => Ok ([], Some (errText ErrorText msg))
      | inr (rows, true) => '(batches, err) ← sessionBatches turns' ss; Ok (rows :: batches, err)
      | inr (rows, false) => Ok ([rows], None)
      end
  end.

Lemma serverTurns_values turns ss columns s out : serverTurns turns ss columns = Ok (s, out) →
  ∃ batches err, sessionBatches turns ss = Ok (batches, err) ∧ out = map Marshal (batchValues columns batches err) ∧ (batches ≠ [] ∨ err ≠ None).
Proof.
  revert ss columns s out. induction turns as [|turns IH]; intros ss columns s out E; [done|]. cbn [streamTurns sessionBatches] in *.
  apply res_bind_Ok in E as ([ss' r]&E1&E). unfold batchSize in E1. rewrite E1, res_bind_ret. cbv beta iota in *. destruct r as [msg|[rows more]].
  { injection E as _ <-. exists [], (Some (errText ErrorText msg)). split_and!; [done|done|by right]. }
  destruct more; [|injection E as _ <-; exists [rows], None; split_and!; [done|done|by left]].
  apply res_bind_Ok in E as ([s' out']&E2&[= _ <-]). destruct (IH _ _ _ _ E2) as (batches&err&E3&->&Hne). rewrite E3, res_bind_ret.
  exists (rows :: batches), err. split; [done|]. split; [|by left]. destruct batches, err; try done. by destruct Hne.
Qed.

(** C20. Rows arrive. The frames of a response are ones the client can take when each is
    a value MessagePack can write and has at most 100,000,000 bytes ([sendable]). When a
    server answers a request with the rows of a dump, in frames of a hundred that all
    carry the columns, the client sends the request, returns chunks that hold the
    columns and, together, the text of every value of every row, in order, and leaves
    the connection where the next response begins. When the query server answers with
    the batches of a session, whose first frame alone carries the columns, the client
    returns a chunk for each batch with the columns in the first, in order; an error
    that ends the session, if its text is not empty, is returned as an error of the
    server with the chunks before it; and the connection is at the next response. *)
Theorem client_reads_rows p r rest out :
  (∀ id columns rows, Forall sendable (rowsLoop id columns rows []) →
     ∃ chunks, collect (on p (writeFrames (map Marshal (rowsLoop id columns rows [])) ++ rest) out) r
         = (None, chunks, on p rest (out ++ WriteFrame (Marshal r)))
       ∧ Forall (fun ch => Columns ch = columns) chunks ∧ concat (map Rows chunks) = texts rows)
  ∧ (∀ turns ss columns s frames, serverTurns turns ss columns = Ok (s, frames) →
     ∃ batches err, sessionBatches turns ss = Ok (batches, err) ∧ frames = map Marshal (batchValues columns batches err)
       ∧ (Forall sendable (batchValues columns batches err) → err ≠ Some [] →
          collect (on p (writeFrames frames ++ rest) out) r
          = (ServerError <$> err, batchChunks columns batches, on p rest (out ++ WriteFrame (Marshal r))))).
Proof.
  split.
  - intros id columns rows. destruct (rowsLoop_chunks id columns rows []) as (fs&f&->&H1&H2&H3&H4&H5). intros Hs. pose proof (proj1 (Forall_app _ _ _) H3) as [H3a H3b].
    apply Forall_cons_1 in H3b as [H3b _]. eexists. rewrite (collect_reads id), H3b by done. split; [done|]. split; [by apply Forall_map|].
    by rewrite map_map.
  - intros turns ss columns s frames E. destruct (serverTurns_values turns ss columns s frames E) as (batches&err&E1&->&Hne). exists batches, err.
    split; [done|]. split; [done|]. intros Hs He. destruct (batchValues_reply columns batches err Hne He) as (fs&f&E2&H1&H2&H3&H4&H5). rewrite E2 in Hs |- *.
    rewrite (collect_reads []), H4, <- H5 by done. by destruct err.
Qed.
End batches.

(** A caller that stops in the middle of a response leaves its frames on the connection:
    the next request is answered with them, and its own response is left for the request
    after it. *)
Theorem stopped_response_stays {S} id p r r' v fs f l rest out (g : S → Chunk → option clientError * S) s s' e :
  isReply id true v → Forall (isReply id true) fs → isReply id false f → Forall sendable (v :: fs ++ [f]) → Forall (fun v => errorIn v = None) (v :: fs ++ [f]) →
  g s (chunk v) = (Some e, s') →
  ∃ c, stream FormatE QuoteJSON (on p (writeFrames (map Marshal (v :: fs ++ [f])) ++ writeFrames (map Marshal l) ++ rest) out) r g s = (Some e, s', c)
    ∧ collect c r' = (None, map chunk (fs ++ [f]), on p (writeFrames (map Marshal l) ++ rest) (out ++ WriteFrame (Marshal r) ++ WriteFrame (Marshal r'))).
Proof.
  intros Hv Hfs Hf [Hs1 Hs]%Forall_cons_1 [He1 He]%Forall_cons_1 Hg.
  exists (on p (writeFrames (map Marshal (fs ++ [f])) ++ writeFrames (map Marshal l) ++ rest) (out ++ WriteFrame (Marshal r))). split.
  - unfold stream, sendFrame. cbn [on conn writable input output path]. unfold turns. cbn [conn input streamLoop]. unfold writeFrames at 1. cbn [map concat].
    fold (writeFrames (map Marshal (fs ++ [f]))). rewrite <- app_assoc.
    change (mkClient (Some (mkNet ?i ?o true)) p) with (on p i o). by rewrite (recvChunk_reply id true), He1, Hg by done.
  - pose proof (proj1 (Forall_app _ _ _) He) as [Hea Heb]. apply Forall_cons_1 in Heb as [Heb _].
    rewrite (collect_reads id), Heb by done. by rewrite <- app_assoc.
Qed.
End responses.

Import samples kvSamples transactorSamples.

Module clientSamples.
Definition sampleRows : list (list Expr) := map (fun i => [sexpr.Int (Z.of_nat i); sexpr.Str (bs "x")]) (seq 0 150).
Definition sampleFrames : list value := rowsLoop [] [bs "e"; bs "v"] sampleRows [].
Definition sampleFormat : Z → bytes := fun _ => bs "1e+00".
Definition sampleQuote : bytes → bytes := fun s => quote ++ s ++ quote.

Lemma sendable_all (l : list value) : forallb (fun v => wf v && bool_decide (fits (Marshal v))) l = true → Forall sendable l.
Proof.
  intros H. apply Forall_forall. intros v Hv%list_elem_of_In. apply (proj1 (forallb_forall _ _) H) in Hv. apply andb_prop in Hv as [Hw Hf].
  split; [done|]. by apply bool_decide_eq_true in Hf.
Qed.

(** Two frames, and what they are read as. *)
Example sample_chunks :
  match (collect sampleFormat sampleQuote (on [] (writeFrames (map Marshal sampleFrames)) []) (datalogReq (bs "[:find ?e ?v]"))).1 with
  | (None, chunks) => map (fun ch => length (Rows ch)) chunks = [100; 50]%nat ∧ take 1 (concat (map Rows chunks)) = [[bs "0"; bs "x"]]
  | _ => False
  end.
Proof. vm_compute. split; reflexivity. Qed.

(** A query over the store a transactor opens: the identifiers and the names of its
    attributes. *)
Definition sampleAsked : res (StreamingSession (E := @QueryStore (KVStore FileBlobStore)) (C := keysCursor) * list bytes) :=
  t ← sampleOpen;
  '(stats, _) ← BuildCompileStats 400 (Eavt (tStore t)) (tStats t) 0;
  c ← CompileDatalogQuery (fun _ => None) 0 (bs "[:find ?e ?n :where [?e :db/ident ?n]]") stats;
  match c with
  | inl _ => Diverge
  | inr (prog, columns) => Ok (NewStreamingSession (NewQuerySession (tStore t) prog [] 1 0 false), columns)
  end.
Abbreviation serverRun := (streamTurns (fun _ => None) (fun _ => []) sampleFormat 0 (fun _ => 0) bs 0 400).
Abbreviation askedBatches := (sessionBatches (B := FileBlobStore) sampleFormat (fun _ => None) (fun _ => []) 0 (fun _ => 0) bs 0 400).
End clientSamples.
Import clientSamples.

Lemma client_reads_rows_witness :
  (∃ chunks, collect sampleFormat sampleQuote (on [] (writeFrames (map Marshal sampleFrames) ++ [7]) []) (datalogReq (bs "[:find ?e ?v]"))
      = (None, chunks, on [] [7] ([] ++ WriteFrame (Marshal (datalogReq (bs "[:find ?e ?v]")))))
    ∧ length (concat (map Rows chunks)) = 150%nat)
  ∧ ∃ ss columns s frames chunks, sampleAsked = Ok (ss, columns) ∧ serverRun 400 ss columns = Ok (s, frames)
    ∧ DatalogAll sampleFormat sampleQuote (on [] (writeFrames frames ++ [7]) []) (bs "q")
      = (None, chunks, on [] [7] ([] ++ WriteFrame (Marshal (datalogReq (bs "q")))))
    ∧ map Columns chunks = [[bs "e"; bs "n"]] ∧ [bs "1"; bs "db/ident"] ∈ concat (map Rows chunks).
Proof.
  split.
  - destruct (client_reads_rows (B := FileBlobStore) sampleFormat sampleQuote (fun _ => None) (fun _ => []) 0 (fun _ => 0) bs 0 100 [] (datalogReq (bs "[:find ?e ?v]")) [7] []) as [H _].
    destruct (H [] [bs "e"; bs "v"] sampleRows) as (chunks&E&_&Hr); [apply sendable_all; vm_compute; reflexivity|].
    exists chunks. split; [exact E|]. rewrite Hr. reflexivity.
  - assert (match sampleAsked with
      | Ok (ss, columns) =>
          match serverRun 400 ss columns, askedBatches 400 ss with
          | Ok _, Ok (batches, None) =>
              forallb (fun v => wf v && bool_decide (fits (Marshal v))) (batchValues columns batches None)
              && bool_decide (map Columns (batchChunks sampleFormat sampleQuote columns batches) = [[bs "e"; bs "n"]])
              && bool_decide ([bs "1"; bs "db/ident"] ∈ concat (map Rows (batchChunks sampleFormat sampleQuote columns batches)))
          | _, _ => false
          end
      | _ => false end = true) as Hc by (vm_compute; reflexivity).
    destruct sampleAsked as [[ss columns]| | |]; [|done..]. destruct (serverRun 400 ss columns) as [[s frames]| | |] eqn:Er; [|done..].
    destruct (client_reads_rows (B := FileBlobStore) sampleFormat sampleQuote (fun _ => None) (fun _ => []) 0 (fun _ => 0) bs 0 400 [] (datalogReq (bs "q")) [7] []) as [_ H].
    destruct (H 400%nat ss columns s frames Er) as (batches&err&Eb&_&Hread). rewrite Eb in Hc. destruct err; [done|].
    apply andb_prop in Hc as [[Hs Hcol%bool_decide_eq_true]%andb_prop Hin%bool_decide_eq_true].
    exists ss, columns, s, frames, (batchChunks sampleFormat sampleQuote columns batches). split; [done|]. split; [done|]. split; [|by split].
    apply Hread; [by apply sendable_all|done].
Defined.
