(* ===== verification/Texts.v ===== *)
(** * White space in texts (the functions of package strings the tools use)

    Texts are bytes in UTF-8. A byte of the encoding of a character never begins one of
    the white spaces, so that a text can be searched for them byte by byte, damaged
    encodings included. *)

From Stdlib Require Import String.
From S2P Require Import Prelude.
Open Scope list_scope.
Open Scope Z_scope.

(** The characters of [unicode.IsSpace], encoded. *)
Definition whiteSpace : list bytes :=
  map (fun c => [c]) [9; 10; 11; 12; 13; 32] ++ [[0xc2; 0x85]; [0xc2; 0xa0]; [0xe1; 0x9a; 0x80]]
  ++ map (fun c => [0xe2; 0x80; c]) [0x80; 0x81; 0x82; 0x83; 0x84; 0x85; 0x86; 0x87; 0x88; 0x89; 0x8a; 0xa8; 0xa9; 0xaf]
  ++ [[0xe2; 0x81; 0x9f]; [0xe3; 0x80; 0x80]].

Definition hasSuffix (s suffix : bytes) : bool := has_prefix (reverse s) (reverse suffix).
Definition spaceAt (s : bytes) : option nat := length <$> find (has_prefix s) whiteSpace.
Definition spaceEnd (s : bytes) : option nat := length <$> find (hasSuffix s) whiteSpace.

(** [strings.Fields]. *)
Fixpoint fieldsFrom (fuel : nat) (s cur : bytes) : list bytes :=
  match fuel with
  | O => []
  | S fuel' =>
      match s with
      | [] => match cur with [] => [] | _ => [cur] end
      | c :: s' =>
          match spaceAt s with
          | Some n => match cur with [] => fieldsFrom fuel' (drop n s) [] | _ => cur :: fieldsFrom fuel' (drop n s) [] end
          | None => fieldsFrom fuel' s' (cur ++ [c])
          end
      end
  end.
Definition Fields (s : bytes) : list bytes := fieldsFrom (S (length s)) s [].

(** [strings.TrimSpace]. *)
Fixpoint trimStart (fuel : nat) (s : bytes) : bytes :=
  match fuel with
  | O => s
  | S fuel' => match spaceAt s with Some n => trimStart fuel' (drop n s) | None => s end
  end.
Fixpoint trimEnd (fuel : nat) (s : bytes) : bytes :=
  match fuel with
  | O => s
  | S fuel' => match spaceEnd s with Some n => trimEnd fuel' (take (length s - n) s) | None => s end
  end.
Definition TrimSpace (s : bytes) : bytes := let s := trimStart (length s) s in trimEnd (length s) s.

(** [strings.Contains]. *)
Fixpoint Contains (s sub : bytes) : bool := has_prefix s sub || match s with [] => false | _ :: s' => Contains s' sub end.

(** ** What is left has no space at its ends *)

Lemma spaceAt_spec s n : spaceAt s = Some n → ∃ w s', w ∈ whiteSpace ∧ s = w ++ s' ∧ n = length w.
Proof.
  unfold spaceAt. intros (w & E & ->)%fmap_Some. apply find_some in E as [Hin (s' & ->)%has_prefix_spec]. exists w, s'. by rewrite list_elem_of_In.
Qed.
Lemma spaceAt_none s : spaceAt s = None ↔ ∀ w s', w ∈ whiteSpace → s ≠ w ++ s'.
Proof.
  unfold spaceAt. rewrite fmap_None. split.
  - intros E w s' Hin ->. rewrite list_elem_of_In in Hin. pose proof (find_none _ _ E _ Hin) as H.
    assert (has_prefix (w ++ s') w = true) by (apply has_prefix_spec; by exists s'). congruence.
  - intros H. destruct (find _ _) as [w|] eqn:E; [|done]. exfalso. apply find_some in E as [Hin (s' & Es)%has_prefix_spec].
    apply (H w s'); [by apply list_elem_of_In|done].
Qed.
Lemma whiteSpace_length w : w ∈ whiteSpace → (0 < length w)%nat.
Proof.
  assert (Forall (fun w : bytes => Nat.ltb 0 (length w) = true) whiteSpace) as H by (apply (bool_decide_unpack _); by vm_compute).
  rewrite Forall_forall in H. intros Hin. by apply Nat.ltb_lt, H.
Qed.
Lemma spaceEnd_spec s n : spaceEnd s = Some n → ∃ w s', w ∈ whiteSpace ∧ s = s' ++ w ∧ n = length w.
Proof.
  unfold spaceEnd, hasSuffix. intros (w & E & ->)%fmap_Some. apply find_some in E as [Hin (s' & Es)%has_prefix_spec].
  exists w, (reverse s'). rewrite list_elem_of_In. split_and!; [done| |done]. by rewrite <- (reverse_involutive s), Es, reverse_app, reverse_involutive.
Qed.

Lemma trimStart_done fuel s : (length s ≤ fuel)%nat → spaceAt (trimStart fuel s) = None.
Proof.
  revert s. induction fuel as [|fuel IH]; intros s Hl; cbn [trimStart]; [by destruct s; [|cbn in Hl; lia]|].
  destruct (spaceAt s) as [n|] eqn:E; [|done]. apply IH. apply spaceAt_spec in E as (w & s' & Hin%whiteSpace_length & -> & ->).
  rewrite drop_app_length. rewrite length_app in Hl. lia.
Qed.
Lemma trimEnd_done fuel s : (length s ≤ fuel)%nat → spaceEnd (trimEnd fuel s) = None.
Proof.
  revert s. induction fuel as [|fuel IH]; intros s Hl; cbn [trimEnd]; [by destruct s; [|cbn in Hl; lia]|].
  destruct (spaceEnd s) as [n|] eqn:E; [|done]. apply IH. apply spaceEnd_spec in E as (w & s' & Hin%whiteSpace_length & -> & ->).
  rewrite length_take. rewrite length_app in Hl |- *. lia.
Qed.
Lemma trimEnd_prefix fuel s : ∃ s', s = trimEnd fuel s ++ s'.
Proof.
  revert s. induction fuel as [|fuel IH]; intros s; cbn [trimEnd]; [by exists []; rewrite app_nil_r|].
  destruct (spaceEnd s) as [n|]; [|by exists []; rewrite app_nil_r]. destruct (IH (take (length s - n) s)) as [s' E].
  exists (s' ++ drop (length s - n) s). by rewrite app_assoc, <- E, take_drop.
Qed.

Lemma TrimSpace_ends s : spaceAt (TrimSpace s) = None ∧ spaceEnd (TrimSpace s) = None.
Proof.
  unfold TrimSpace. cbv zeta. set (t := trimStart (length s) s). split; [|by apply trimEnd_done].
  pose proof (trimStart_done (length s) s ltac:(done)) as Ht. fold t in Ht. destruct (trimEnd_prefix (length t) t) as [s' E].
  rewrite spaceAt_none in Ht |- *. intros w s1 Hin E1. apply (Ht w (s1 ++ s') Hin). by rewrite E at 1; rewrite E1, <- app_assoc.
Qed.
Lemma trimStart_id fuel s : spaceAt s = None → trimStart fuel s = s.
Proof. intros H. destruct fuel; cbn [trimStart]; [done|]. by rewrite H. Qed.
Lemma trimEnd_id fuel s : spaceEnd s = None → trimEnd fuel s = s.
Proof. intros H. destruct fuel; cbn [trimEnd]; [done|]. by rewrite H. Qed.
Lemma TrimSpace_idem s : TrimSpace (TrimSpace s) = TrimSpace s.
Proof. destruct (TrimSpace_ends s) as [H1 H2]. unfold TrimSpace at 1. cbv zeta. by rewrite trimStart_id, trimEnd_id. Qed.

(** *** Texts that begin with a character of ASCII *)

Definition plain (c : Z) : Prop := c < 128 ∧ ∀ w, w ∈ whiteSpace → head w ≠ Some c.
Lemma plain_ascii c : (c <? 128) && negb ((c =? 32) || ((9 <=? c) && (c <=? 13))) = true → plain c.
Proof.
  intros H. split; [lia|]. intros w Hin E.
  assert (Forall (fun w => match head w with Some c => (128 <=? c) || (c =? 32) || ((9 <=? c) && (c <=? 13)) | None => true end = true) whiteSpace) as Hf
    by (apply (bool_decide_unpack _); by vm_compute).
  rewrite Forall_forall in Hf. specialize (Hf _ Hin). rewrite E in Hf. lia.
Qed.
Lemma plain_start c s : plain c → spaceAt (c :: s) = None.
Proof.
  intros [_ H]. apply spaceAt_none. intros w s' Hin E. apply (H w Hin). pose proof (whiteSpace_length w Hin).
  destruct w; [cbn in *; lia|]. by injection E as -> _.
Qed.
Lemma trimEnd_plain c : plain c → ∀ fuel s, ∃ s', trimEnd fuel (c :: s) = c :: s'.
Proof.
  intros [_ Hc]. induction fuel as [|fuel IH]; intros s; cbn [trimEnd]; [by eexists|].
  destruct (spaceEnd (c :: s)) as [n|] eqn:E; [|by eexists]. apply spaceEnd_spec in E as (w & s' & Hin & Es & ->).
  destruct s' as [|c' s']; [exfalso; apply (Hc w Hin); cbn in Es; by rewrite <- Es|]. injection Es as <- Es.
  replace (take _ (c :: s)) with (c :: s'); [apply IH|]. rewrite Es. change (c :: s' ++ w) with ((c :: s') ++ w). rewrite length_app.
  replace (length (c :: s') + length w - length w)%nat with (length (c :: s')) by lia. by rewrite take_app_length.
Qed.

(** Spaces of ASCII and then [c]. *)
Definition blank (s : bytes) : Prop := Forall (fun c => c ∈ [9; 10; 11; 12; 13; 32]) s.
Definition leads (c : Z) (s : bytes) : Prop := ∃ sp r, s = sp ++ c :: r ∧ blank sp.
Lemma leads_app c s t : leads c s → leads c (s ++ t).
Proof. intros (sp & r & -> & H). exists sp, (r ++ t). by rewrite <- app_assoc. Qed.
Lemma leads_blank c s t : blank s → leads c t → leads c (s ++ t).
Proof. intros Hs (sp & r & -> & H). exists (s ++ sp), r. by rewrite <- app_assoc; split; [|apply Forall_app]. Qed.

Lemma spaceAt_blank c s : c ∈ [9; 10; 11; 12; 13; 32] → spaceAt (c :: s) = Some 1%nat.
Proof. rewrite !elem_of_cons, elem_of_nil. intros [->|[->|[->|[->|[->|[->|[]]]]]]]; reflexivity. Qed.
Lemma trimStart_blank sp : blank sp → ∀ fuel s, spaceAt s = None → (length sp ≤ fuel)%nat → trimStart fuel (sp ++ s) = s.
Proof.
  induction 1 as [|c sp Hc _ IH]; intros fuel s Hs Hl; [by apply trimStart_id|]. destruct fuel as [|fuel]; cbn [length] in Hl; [lia|].
  cbn [app trimStart]. rewrite spaceAt_blank by done. cbn [drop]. apply IH; [done|lia].
Qed.
Lemma TrimSpace_blank s : blank s → TrimSpace s = [].
Proof. intros H. pose proof (trimStart_blank s H (length s) [] eq_refl ltac:(done)) as E. rewrite app_nil_r in E. unfold TrimSpace. by rewrite E. Qed.
Lemma TrimSpace_leads c s : plain c → leads c s → ∃ s', TrimSpace s = c :: s'.
Proof.
  intros Hc (sp & r & -> & Hb). unfold TrimSpace. cbv zeta. rewrite trimStart_blank by (done || by apply plain_start || by rewrite length_app; lia).
  by apply trimEnd_plain.
Qed.
