(* ===== verification/Loader.v ===== *)
(** * The bulk loader (go/internal/loader/receita.go)

    Tables of companies, read row by row and written as transactions through the
    interface [Txer], in batches whose entities are negative tempids. The directory is
    the names in it and what their archives hold: a table is the rows its reader gives,
    [None] where it gives an error. What the loader prints is left out.

    [append(ops, addOp(..., refs.ref(&ops, ...)))] reads [ops] after the call that
    appends to it, as the compiler of Go orders it. *)

From Stdlib Require Import String.
From S2P Require Import Prelude Edn S3 Client Texts.
Open Scope string_scope.
Open Scope list_scope.
Open Scope Z_scope.

(** ** Texts *)

(** [b.WriteRune(rune(c))] of a byte. *)
Definition writeRune (c : Z) : bytes := if c <? 128 then [c] else [Z.lor 0xc0 (Z.shiftr c 6); Z.lor 0x80 (Z.land c 0x3f)].
Definition latin1ToUTF8 (s : bytes) : bytes := if forallb (fun c => c <? 128) s then s else flat_map writeRune s.

Definition upperASCII (s : bytes) : bytes := map (fun c => if (97 <=? c) && (c <=? 122) then c - 0x20 else c) s.
Definition collapseWS (s : bytes) : bytes := Join (Fields s) (bs " ").
(** [strings.ReplaceAll] of one byte. *)
Definition replaceByte (s : bytes) (old : Z) (new : bytes) : bytes := flat_map (fun c => if c =? old then new else [c]) s.

(** [base64.RawURLEncoding.EncodeToString]. *)
Definition urlChars : bytes := bs "ABCDEFGHIJKLMNOPQRSTUVWXYZabcdefghijklmnopqrstuvwxyz0123456789-_".
Definition urlChar (n : Z) : Z := nth (Z.to_nat (Z.land n 63)) urlChars 0.
Fixpoint base64RawURL (s : bytes) : bytes :=
  match s with
  | a :: b :: c :: s' =>
      let n := Z.lor (Z.lor (Z.shiftl a 16) (Z.shiftl b 8)) c in
      urlChar (Z.shiftr n 18) :: urlChar (Z.shiftr n 12) :: urlChar (Z.shiftr n 6) :: urlChar n :: base64RawURL s'
  | [a; b] => let n := Z.lor (Z.shiftl a 16) (Z.shiftl b 8) in [urlChar (Z.shiftr n 18); urlChar (Z.shiftr n 12); urlChar (Z.shiftr n 6)]
  | [a] => let n := Z.shiftl a 16 in [urlChar (Z.shiftr n 18); urlChar (Z.shiftr n 12)]
  | [] => []
  end.

Definition nth_ (row : list bytes) (i : nat) : bytes := default [] (row !! i).
Definition zfill (s : bytes) (w : nat) : bytes := replicate (w - length s) 48 ++ s.
Definition allDigits (s : bytes) : bool := negb (Nat.eqb (length s) 0) && forallb (fun c => (48 <=? c) && (c <=? 57)) s.

(** ** Transactions *)

(** The text of an error, or none. *)
Class Txer (T : Type) := TxData : T → list edn.Value → option string * T.

(** The client is one. *)
#[export] Instance Client_Txer : Txer Client := fun c ops =>
  match Client.TxData c ops with
  | (inl (ServerError _), c) => (Some "server error", c)
  | (inl (DisconnectedError e), c) => (Some e, c)
  | (inl (OtherError e), c) => (Some e, c)
  | (inr _, c) => (None, c)
  end.

Definition addOp (eid : Z) (attr : bytes) (v : edn.Value) : edn.Value := edn.List [edn.Keyword (bs "db/add"); edn.Int eid; edn.Keyword attr; v].

(** [flush], which empties the operations whatever comes of them. *)
Definition flush {T} `{Txer T} (t : T) (ops : list edn.Value) : option string * T :=
  match ops with [] => (None, t) | _ => TxData t ops end.

Record refTids : Type := mkRefs { next : Z; byKey : gmap (bytes * bytes) Z }.
Definition newRefTids : refTids := mkRefs (-1) ∅.

(** The state a batch is built in. *)
Record building : Type := mkBuilding { ops : list edn.Value; refs : refTids }.
Definition newBatch : building := mkBuilding [] newRefTids.
Definition emit (w : building) (op : edn.Value) : building := mkBuilding (ops w ++ [op]) (refs w).

Definition fresh (w : building) : Z * building :=
  (next (refs w), mkBuilding (ops w) (mkRefs (next (refs w) - 1) (byKey (refs w)))).

Definition ref (w : building) (anchor code : bytes) : Z * building :=
  match byKey (refs w) !! (anchor, code) with
  | Some t => (t, w)
  | None =>
      let '(t, w) := fresh w in
      (t, emit (mkBuilding (ops w) (mkRefs (next (refs w)) (<[(anchor, code) := t]> (byKey (refs w))))) (addOp t anchor (edn.Str code)))
  end.

(** A text and a reference to an entity with a unique text, when they are not empty. *)
Definition addStr (w : building) (tid : Z) (attr v : bytes) : building := match v with [] => w | _ => emit w (addOp tid attr (edn.Str v)) end.
Definition addRef (w : building) (tid : Z) (attr anchor code : bytes) : building :=
  match code with [] => w | _ => let '(r, w) := ref w anchor code in emit w (addOp tid attr (edn.Int r)) end.

Definition zeroDate : bytes := bs "00000000".
Definition addDate (w : building) (tid : Z) (attr v : bytes) : building := if bool_decide (v = zeroDate) then w else addStr w tid attr v.

(** ** The directory *)

(** [sort.Strings] and the first of [filepath.Glob]: the names in a directory that a
    pattern of a prefix, a star and a suffix matches. *)
Definition least (l : list bytes) : option bytes := head (merge_sort ble l).
Definition globStar (names : list bytes) (pre suf : bytes) : list bytes :=
  filter (fun n => has_prefix n pre && hasSuffix n suf && Nat.leb (length pre + length suf) (length n) = true) names.

Definition findZip (names : list bytes) (prefix : bytes) : res bytes :=
  if bool_decide (prefix ++ bs ".zip" ∈ names) then Ok (prefix ++ bs ".zip")
  else match least (globStar names (prefix ++ bs "__") (bs ".zip")) with
       | Some n => Ok n
       | None => match least (globStar names prefix (bs ".zip")) with Some n => Ok n | None => Err "no zip matching" end
       end.

Section loader.
Context {T : Type} `{HT : Txer T}.
Variable ParseFloat : bytes → option Z.
Variable sha256 : bytes → bytes.
(** The names in the directory, and the rows of an archive before they are decoded. *)
Variable names : list bytes.
Variable archive : bytes → res (list (option (list bytes))).

Definition openRows (prefix : bytes) : res (list (option (list bytes))) :=
  path ← findZip names prefix;
  rows ← archive path;
  Ok (map (fun r => match r with Some row => Some (map latin1ToUTF8 row) | None => None end) rows).

(** An error, the count, and the interface. *)
Definition loaded : Type := option string * nat * T.

(** ** Schema and lookups *)

Record attrSpec : Type := mkAttr { aname : string; vt : string; many : bool; unique : bool }.
Definition one (n t : string) : attrSpec := mkAttr n t false false.
Definition uniq (n : string) : attrSpec := mkAttr n "string" false true.
Definition schemaAttrs : list attrSpec :=
  [uniq "cnae/codigo"; one "cnae/descricao" "string"; uniq "municipio/codigo"; one "municipio/nome" "string";
   uniq "natureza/codigo"; one "natureza/descricao" "string"; uniq "qualificacao/codigo"; one "qualificacao/descricao" "string";
   uniq "pais/codigo"; one "pais/nome" "string"; uniq "motivo/codigo"; one "motivo/descricao" "string";
   uniq "empresa/cnpj_base"; one "empresa/razao_social" "string"; one "empresa/natureza_juridica" "ref"; one "empresa/qualificacao_resp" "ref";
   one "empresa/capital_social" "float"; one "empresa/porte" "string"; one "empresa/optante_simples" "string"; one "empresa/data_opcao_simples" "string";
   one "empresa/data_exclusao_simples" "string"; one "empresa/optante_mei" "string"; one "empresa/data_opcao_mei" "string"; one "empresa/data_exclusao_mei" "string";
   uniq "estab/cnpj_completo"; one "estab/empresa" "ref"; one "estab/matriz_filial" "string"; one "estab/nome_fantasia" "string";
   one "estab/situacao" "string"; one "estab/data_situacao" "string"; one "estab/motivo" "ref"; one "estab/pais" "ref"; one "estab/data_inicio_ativ" "string";
   one "estab/cnae_principal" "ref"; mkAttr "estab/cnae_secundario" "ref" true false; one "estab/tipo_logradouro" "string"; one "estab/logradouro" "string";
   one "estab/numero" "string"; one "estab/complemento" "string"; one "estab/bairro" "string"; one "estab/cep" "string"; one "estab/uf" "string";
   one "estab/municipio" "ref"; one "estab/ddd1" "string"; one "estab/telefone1" "string"; one "estab/ddd2" "string"; one "estab/telefone2" "string";
   one "estab/email" "string"; one "socio/empresa" "ref"; one "socio/pessoa" "ref"; one "socio/tipo_pessoa" "string"; one "socio/nome" "string";
   one "socio/cpf_cnpj" "string"; uniq "socio/chave"; uniq "socio/chave_rel"; one "socio/qualificacao" "ref"; one "socio/data_entrada" "string";
   one "socio/pais" "ref"; one "socio/faixa_etaria" "string"].

Definition declareOps (i : nat) (a : attrSpec) : list edn.Value :=
  let eid := 1000 + Z.of_nat i in
  [addOp eid (bs "db/ident") (edn.Keyword (bs (aname a))); addOp eid (bs "db/valueType") (edn.Keyword (bs "db.type/" ++ bs (vt a)));
   addOp eid (bs "db/cardinality") (edn.Keyword (if many a then bs "db.cardinality/many" else bs "db.cardinality/one"))]
  ++ if unique a then [addOp eid (bs "db/unique") (edn.Keyword (bs "db.unique/identity"))] else [].
Definition declareSchema (t : T) : option string * T := flush t (concat (imap declareOps schemaAttrs)).

Definition lookups : list (string * string * string) :=
  [("Cnaes", "cnae", "descricao"); ("Municipios", "municipio", "nome"); ("Naturezas", "natureza", "descricao");
   ("Qualificacoes", "qualificacao", "descricao"); ("Paises", "pais", "nome"); ("Motivos", "motivo", "descricao")].

Fixpoint lookupLoop (rows : list (option (list bytes))) (prefix descAttr : string) (batch : nat) (t : T) (acc : list edn.Value) (rowInTx : nat)
  : option string * T :=
  match rows with
  | [] => flush t acc
  | None :: _ => (Some "csv", t)
  | Some row :: rows' =>
      if Nat.leb 2 (length row) && negb (Nat.eqb (length (nth_ row 0)) 0) then
        let tid := - Z.of_nat (S rowInTx) in
        let acc := acc ++ [addOp tid (bs prefix ++ bs "/codigo") (edn.Str (nth_ row 0))]
                   ++ match nth_ row 1 with [] => [] | d => [addOp tid (bs prefix ++ bs "/" ++ bs descAttr) (edn.Str d)] end in
        if Nat.leb (batch * 2) (length acc) then
          match flush t acc with
          | (Some e, t) => (Some e, t)
          | (None, t) => lookupLoop rows' prefix descAttr batch t [] 0
          end
        else lookupLoop rows' prefix descAttr batch t acc (S rowInTx)
      else lookupLoop rows' prefix descAttr batch t acc rowInTx
  end.

Fixpoint loadLookups (tables : list (string * string * string)) (batch : nat) (t : T) : option string * T :=
  match tables with
  | [] => (None, t)
  | (zipPrefix, prefix, descAttr) :: tables' =>
      match openRows (bs zipPrefix) with
      | Ok rows =>
          match lookupLoop rows prefix descAttr batch t [] 0 with
          | (Some e, t) => (Some e, t)
          | (None, t) => loadLookups tables' batch t
          end
      | _ => (Some "open", t)
      end
  end.

(** ** Companies *)

Definition cnpjOk (s : bytes) : bool := Nat.eqb (length s) 8 && allDigits s.

Definition empresaRow (w : building) (row : list bytes) : building :=
  let '(tid, w) := fresh w in
  let w := emit w (addOp tid (bs "empresa/cnpj_base") (edn.Str (nth_ row 0))) in
  let w := addStr w tid (bs "empresa/razao_social") (nth_ row 1) in
  let w := addRef w tid (bs "empresa/natureza_juridica") (bs "natureza/codigo") (nth_ row 2) in
  let w := addRef w tid (bs "empresa/qualificacao_resp") (bs "qualificacao/codigo") (nth_ row 3) in
  let w := match nth_ row 4 with
           | [] => w
           | cap => match ParseFloat (replaceByte cap 44 (bs ".")) with Some f => emit w (addOp tid (bs "empresa/capital_social") (edn.Float f)) | None => w end
           end in
  addStr w tid (bs "empresa/porte") (nth_ row 5).

(** [batch] is not zero: the code divides by it. *)
Fixpoint empresaLoop (rows : list (option (list bytes))) (n batch total : nat) (w : building) (t : T) : res loaded :=
  if Nat.leb n total then Ok (let '(e, t) := flush t (ops w) in (e, total, t))
  else
    match rows with
    | [] => Ok (let '(e, t) := flush t (ops w) in (e, total, t))
    | None :: _ => Ok (Some "csv", total, t)
    | Some row :: rows' =>
        if Nat.ltb (length row) 6 || negb (cnpjOk (nth_ row 0)) then empresaLoop rows' n batch total w t
        else
          let w := empresaRow w row in
          let total := S total in
          if Nat.eqb batch 0 then Panic
          else if Nat.eqb (total mod batch) 0 then
            match flush t (ops w) with
            | (Some e, t) => Ok (Some e, total, t)
            | (None, t) => empresaLoop rows' n batch total newBatch t
            end
          else empresaLoop rows' n batch total w t
    end.

Definition loadEmpresas (n batch : nat) (t : T) : res loaded :=
  match openRows (bs "Empresas0") with Ok rows => empresaLoop rows n batch 0 newBatch t | _ => Ok (Some "open", 0%nat, t) end.

(** ** Simples *)

Definition simplesSets (row : list bytes) : list (bytes * bytes) :=
  let v i := nth_ row i in
  let text i (attr : string) := match v i with [] => [] | s => [(bs attr, s)] end in
  let date i (attr : string) := if bool_decide (v i = zeroDate) then [] else text i attr in
  text 1%nat "empresa/optante_simples" ++ date 2%nat "empresa/data_opcao_simples" ++ date 3%nat "empresa/data_exclusao_simples"
  ++ text 4%nat "empresa/optante_mei" ++ date 5%nat "empresa/data_opcao_mei" ++ date 6%nat "empresa/data_exclusao_mei".

(** [maxRows] is zero for no limit; [matched] grows when a batch is flushed. *)
Fixpoint simplesLoop (rows : list (option (list bytes))) (batch maxRows matched pending : nat) (acc : list edn.Value) (t : T) : loaded :=
  let finish := let '(e, t) := flush t acc in match e with Some e => (Some e, matched, t) | None => (None, (matched + pending)%nat, t) end in
  if negb (Nat.eqb maxRows 0) && Nat.leb maxRows matched then finish
  else
    match rows with
    | [] => finish
    | None :: _ => (Some "csv", matched, t)
    | Some row :: rows' =>
        if Nat.ltb (length row) 7 then simplesLoop rows' batch maxRows matched pending acc t
        else match simplesSets row with
             | [] => simplesLoop rows' batch maxRows matched pending acc t
             | sets =>
                 let tid := - Z.of_nat (S pending) in
                 let acc := acc ++ [addOp tid (bs "empresa/cnpj_base") (edn.Str (nth_ row 0))] ++ map (fun s => addOp tid s.1 (edn.Str s.2)) sets in
                 if Nat.leb (batch * 2) (length acc) then
                   match flush t acc with
                   | (Some e, t) => (Some e, matched, t)
                   | (None, t) => simplesLoop rows' batch maxRows (matched + S pending) 0 [] t
                   end
                 else simplesLoop rows' batch maxRows matched (S pending) acc t
             end
    end.

Definition mergeSimples (batch maxRows : nat) (t : T) : loaded :=
  match openRows (bs "Simples") with Ok rows => simplesLoop rows batch maxRows 0 0 [] t | _ => (Some "open", 0%nat, t) end.

(** ** Establishments *)

Definition estabStrAttrs : list (nat * string) :=
  [(3, "estab/matriz_filial"); (4, "estab/nome_fantasia"); (5, "estab/situacao"); (6, "estab/data_situacao"); (10, "estab/data_inicio_ativ");
   (13, "estab/tipo_logradouro"); (14, "estab/logradouro"); (15, "estab/numero"); (16, "estab/complemento"); (17, "estab/bairro"); (18, "estab/cep");
   (19, "estab/uf"); (21, "estab/ddd1"); (22, "estab/telefone1"); (23, "estab/ddd2"); (24, "estab/telefone2"); (27, "estab/email")]%nat.
Definition estabRefAttrs : list (nat * string * string) :=
  [(7, "estab/motivo", "motivo/codigo"); (9, "estab/pais", "pais/codigo"); (11, "estab/cnae_principal", "cnae/codigo");
   (20, "estab/municipio", "municipio/codigo")]%nat.

Definition estabRow (w : building) (row : list bytes) : building :=
  let cnpjFull := nth_ row 0 ++ zfill (nth_ row 1) 4 ++ zfill (nth_ row 2) 2 in
  let '(tid, w) := fresh w in
  let w := emit w (addOp tid (bs "estab/cnpj_completo") (edn.Str cnpjFull)) in
  let '(etid, w) := ref w (bs "empresa/cnpj_base") (nth_ row 0) in
  let w := emit w (addOp tid (bs "estab/empresa") (edn.Int etid)) in
  let w := fold_left (fun w '(i, attr) => addStr w tid (bs attr) (nth_ row i)) estabStrAttrs w in
  let w := fold_left (fun w '(i, attr, uattr) => addRef w tid (bs attr) (bs uattr) (nth_ row i)) estabRefAttrs w in
  match nth_ row 12 with
  | [] => w
  | cnaes => fold_left (fun w code => addRef w tid (bs "estab/cnae_secundario") (bs "cnae/codigo") (Texts.TrimSpace code)) (Split cnaes 44) w
  end.

Definition flushEstabBatch (t : T) (batch : list (list bytes)) : option string * T := flush t (ops (fold_left estabRow batch newBatch)).

Fixpoint estabLoop (rows : list (option (list bytes))) (maxRows batch saved : nat) (buf : list (list bytes)) (t : T) : loaded :=
  match rows with
  | [] =>
      if negb (Nat.eqb (length buf) 0) && Nat.ltb saved maxRows then
        match flushEstabBatch t buf with (Some e, t) => (Some e, saved, t) | (None, t) => (None, (saved + length buf)%nat, t) end
      else (None, saved, t)
  | None :: _ => (Some "csv", saved, t)
  | Some row :: rows' =>
      let buf := if Nat.leb 30 (length row) && cnpjOk (nth_ row 0) then buf ++ [row] else buf in
      if Nat.leb batch (length buf) then
        match flushEstabBatch t buf with
        | (Some e, t) => (Some e, saved, t)
        | (None, t) => let saved := (saved + length buf)%nat in
                       if Nat.leb maxRows saved then (None, saved, t) else estabLoop rows' maxRows batch saved [] t
        end
      else estabLoop rows' maxRows batch saved buf t
  end.
Definition loadEstabs (maxRows batch : nat) (t : T) : loaded :=
  match openRows (bs "Estabelecimentos0") with Ok rows => estabLoop rows maxRows batch 0 [] t | _ => (Some "open", 0%nat, t) end.

(** ** Partners *)

Definition socioChave (cpfCnpj nome : bytes) : bytes :=
  let visible := replaceByte cpfCnpj 42 [] in
  let norm := upperASCII (collapseWS (Texts.TrimSpace nome)) in
  visible ++ bs "-" ++ take 6 (base64RawURL (sha256 norm)).

Definition refOrFresh (w : building) (chave anchor code : bytes) : Z * building := if Nat.ltb (length chave) 4 then fresh w else ref w anchor code.

Definition socioRow (w : building) (row : list bytes) : building :=
  let chave := socioChave (nth_ row 3) (nth_ row 2) in
  let '(pessoaTid, w) := refOrFresh w chave (bs "socio/chave") chave in
  let w := addStr w pessoaTid (bs "socio/tipo_pessoa") (nth_ row 1) in
  let w := addStr w pessoaTid (bs "socio/nome") (nth_ row 2) in
  let w := addStr w pessoaTid (bs "socio/cpf_cnpj") (nth_ row 3) in
  let w := addRef w pessoaTid (bs "socio/pais") (bs "pais/codigo") (nth_ row 6) in
  let w := addStr w pessoaTid (bs "socio/faixa_etaria") (nth_ row 10) in
  let '(etid, w) := ref w (bs "empresa/cnpj_base") (nth_ row 0) in
  let '(relTid, w) := refOrFresh w chave (bs "socio/chave_rel") (chave ++ bs "-" ++ nth_ row 0) in
  let w := emit w (addOp relTid (bs "socio/empresa") (edn.Int etid)) in
  let w := emit w (addOp relTid (bs "socio/pessoa") (edn.Int pessoaTid)) in
  let w := addRef w relTid (bs "socio/qualificacao") (bs "qualificacao/codigo") (nth_ row 4) in
  addDate w relTid (bs "socio/data_entrada") (nth_ row 5).

Definition flushSocioBatch (t : T) (batch : list (list bytes)) : option string * T := flush t (ops (fold_left socioRow batch newBatch)).

(** [maxScan] is zero for no limit. *)
Fixpoint socioLoop (rows : list (option (list bytes))) (batch maxScan total scanned : nat) (buf : list (list bytes)) (t : T) : loaded :=
  let finish := match buf with
                | [] => (None, total, t)
                | _ => match flushSocioBatch t buf with (Some e, t) => (Some e, total, t) | (None, t) => (None, (total + length buf)%nat, t) end
                end in
  if negb (Nat.eqb maxScan 0) && Nat.ltb maxScan scanned then finish
  else
    match rows with
    | [] => finish
    | None :: _ => (Some "csv", total, t)
    | Some row :: rows' =>
        if Nat.ltb (length row) 11 || negb (cnpjOk (nth_ row 0)) then socioLoop rows' batch maxScan total scanned buf t
        else
          let buf := buf ++ [row] in
          if Nat.leb batch (length buf) then
            match flushSocioBatch t buf with
            | (Some e, t) => (Some e, total, t)
            | (None, t) => socioLoop rows' batch maxScan (total + length buf) (S scanned) [] t
            end
          else socioLoop rows' batch maxScan total (S scanned) buf t
    end.
Definition loadSocios (batch maxScan : nat) (t : T) : loaded :=
  match openRows (bs "Socios0") with Ok rows => socioLoop rows batch maxScan 0 0 [] t | _ => (Some "open", 0%nat, t) end.

(** ** The whole load *)

(** [DataDir] is the directory, whose names and archives are given. *)
Record Opts : Type := { N : nat; Batch : nat; SkipSimples : bool; SkipEstabs : bool; SkipSocios : bool; MaxEstabs : nat; MaxSimples : nat; MaxSocios : nat }.

(** The next stage, when the one before it had no error. *)
Definition after (r : res (option string * T)) (f : T → res (option string * T)) : res (option string * T) :=
  '(e, t) ← r; match e with Some e => Ok (Some e, t) | None => f t end.
Definition stage (skip : bool) (f : T → res loaded) (t : T) : res (option string * T) :=
  if skip then Ok (None, t) else '(e, _, t) ← f t; Ok (e, t).

Definition Load (t : T) (o : Opts) : res (option string * T) :=
  after (after (after (after (after (Ok (declareSchema t)) (fun t => Ok (loadLookups lookups (Batch o) t)))
    (stage false (loadEmpresas (N o) (Batch o))))
    (stage (SkipSimples o) (fun t => Ok (mergeSimples (Batch o) (MaxSimples o) t))))
    (stage (SkipEstabs o) (fun t => Ok (loadEstabs (MaxEstabs o) (Batch o) t))))
    (stage (SkipSocios o) (fun t => Ok (loadSocios (Batch o) (MaxSocios o) t))).
End loader.

(** ** Closed batches

    What a batch promises the transactor: every operation is on a tempid and has an
    attribute of the declared schema with a value of its type; the first operation on a
    tempid, and only that one, gives it a unique text; a reference is to a tempid that has
    had its unique text before. [seen] are the tempids with one. *)

Inductive attrKind : Type := KeyAttr | TextAttr | RefAttr | FloatAttr.
Definition kindOf (a : bytes) : option attrKind :=
  match find (fun s => bool_decide (bs (aname s) = a)) schemaAttrs with
  | Some s => if unique s then Some KeyAttr
              else if String.eqb (vt s) "string" then Some TextAttr else if String.eqb (vt s) "ref" then Some RefAttr
              else if String.eqb (vt s) "float" then Some FloatAttr else None
  | None => None
  end.

Definition checkOp (seen : list Z) (op : edn.Value) : option (list Z) :=
  match op with
  | edn.List [edn.Keyword f; edn.Int e; edn.Keyword a; v] =>
      if bool_decide (f = bs "db/add") && (e <? 0) then
        match kindOf a, v with
        | Some KeyAttr, edn.Str _ => if bool_decide (e ∈ seen) then None else Some (e :: seen)
        | Some TextAttr, edn.Str _ => if bool_decide (e ∈ seen) then Some seen else None
        | Some FloatAttr, edn.Float _ => if bool_decide (e ∈ seen) then Some seen else None
        | Some RefAttr, edn.Int r => if bool_decide (e ∈ seen) && bool_decide (r ∈ seen) then Some seen else None
        | _, _ => None
        end
      else None
  | _ => None
  end.
Fixpoint checkOps (seen : list Z) (l : list edn.Value) : option (list Z) :=
  match l with [] => Some seen | op :: l => match checkOp seen op with Some seen => checkOps seen l | None => None end end.
Definition closedBatch (b : list edn.Value) : Prop := b ≠ [] ∧ is_Some (checkOps [] b).

Lemma checkOps_snoc l op : ∀ seen, checkOps seen (l ++ [op]) = match checkOps seen l with Some s => checkOp s op | None => None end.
Proof. induction l as [|o l IH]; intros seen; cbn; [by destruct (checkOp seen op)|]. by destruct (checkOp seen o). Qed.

(** A batch in the making, in which the tempids [need] have their unique text. *)
Record made (w : building) (seen : list Z) : Prop := {
  md_ops : checkOps [] (ops w) = Some seen;
  md_next : next (refs w) < 0;
  md_seen : ∀ e, e ∈ seen → next (refs w) < e < 0;
  md_key : ∀ k t, byKey (refs w) !! k = Some t → t ∈ seen }.
Definition holds (need : list Z) (w : building) : Prop := ∃ seen, made w seen ∧ need ⊆ seen.

Lemma holds_new : holds [] newBatch.
Proof. exists []. split; [|done]. constructor; cbn; [done|lia|set_solver|]. intros k t H. by rewrite lookup_empty in H. Qed.
Lemma holds_less need need' w : holds need w → need' ⊆ need → holds need' w.
Proof. intros (seen & H & Hs) Hn. exists seen. split; [done|set_solver]. Qed.
Lemma holds_none need w : holds need w → holds [] w.
Proof. intros H. apply (holds_less need); [done|set_solver]. Qed.

Lemma emit_holds need w op : holds need w → (∀ seen, need ⊆ seen → (∀ e, e ∈ seen → e < 0) → checkOp seen op = Some seen) → holds need (emit w op).
Proof.
  intros (seen & [Ho Hn Hs Hk] & Hsub) Hop. exists seen. split; [|done]. constructor; cbn; try done.
  rewrite checkOps_snoc, Ho. apply Hop; [done|]. intros e He. by apply Hs in He as [_ ?].
Qed.

Lemma tempid_op (need seen : list Z) (tid : Z) : need ⊆ seen → (∀ e, e ∈ seen → e < 0) → tid ∈ need → (tid <? 0) = true ∧ bool_decide (tid ∈ seen) = true.
Proof. intros Hs Hneg Hin. specialize (Hs _ Hin). split; [by apply Z.ltb_lt, Hneg|by apply bool_decide_eq_true]. Qed.

Lemma text_holds need w tid a v : holds need w → tid ∈ need → kindOf a = Some TextAttr → holds need (emit w (addOp tid a (edn.Str v))).
Proof.
  intros H Hin Ha. apply emit_holds; [done|]. intros seen Hs Hneg. destruct (tempid_op _ _ _ Hs Hneg Hin) as [H1 H2].
  unfold addOp, checkOp. rewrite bool_decide_eq_true_2 by done. by rewrite H1, Ha, H2.
Qed.
Lemma float_holds need w tid a v : holds need w → tid ∈ need → kindOf a = Some FloatAttr → holds need (emit w (addOp tid a (edn.Float v))).
Proof.
  intros H Hin Ha. apply emit_holds; [done|]. intros seen Hs Hneg. destruct (tempid_op _ _ _ Hs Hneg Hin) as [H1 H2].
  unfold addOp, checkOp. rewrite bool_decide_eq_true_2 by done. by rewrite H1, Ha, H2.
Qed.
Lemma link_holds need w tid a r : holds need w → tid ∈ need → r ∈ need → kindOf a = Some RefAttr → holds need (emit w (addOp tid a (edn.Int r))).
Proof.
  intros H Hin Hr Ha. apply emit_holds; [done|]. intros seen Hs Hneg. destruct (tempid_op _ _ _ Hs Hneg Hin) as [H1 H2].
  destruct (tempid_op _ _ _ Hs Hneg Hr) as [_ H3].
  unfold addOp, checkOp. rewrite bool_decide_eq_true_2 by done. by rewrite H1, Ha, H2, H3.
Qed.

(** A tempid drawn and given its unique text at once. *)
Lemma key_made w seen a v : made w seen → kindOf a = Some KeyAttr →
  checkOps [] (ops w ++ [addOp (next (refs w)) a (edn.Str v)]) = Some (next (refs w) :: seen).
Proof.
  intros [Ho Hn Hs Hk] Ha. rewrite checkOps_snoc, Ho. unfold addOp, checkOp. rewrite bool_decide_eq_true_2 by done.
  rewrite (proj2 (Z.ltb_lt _ _) Hn), Ha. cbn [andb]. rewrite bool_decide_eq_false_2; [done|]. intros He. apply Hs in He. lia.
Qed.
Lemma drawn_holds need w a v : holds need w → kindOf a = Some KeyAttr →
  holds ((fresh w).1 :: need) (emit (fresh w).2 (addOp (fresh w).1 a (edn.Str v))).
Proof.
  intros (seen & Hm & Hsub) Ha. pose proof (key_made w seen a v Hm Ha) as Hk. destruct Hm as [Ho Hn Hs Hb].
  exists (next (refs w) :: seen). split; [|cbn; set_solver]. constructor; cbn; [done|lia| |].
  - intros e [->|He]%elem_of_cons; [lia|]. apply Hs in He. lia.
  - intros k t Ht. apply Hb in Ht. set_solver.
Qed.
Lemma ref_holds need w a c : holds need w → kindOf a = Some KeyAttr → holds ((ref w a c).1 :: need) (ref w a c).2.
Proof.
  intros (seen & Hm & Hsub) Ha. unfold ref. destruct (byKey (refs w) !! (a, c)) as [t|] eqn:E.
  - exists seen. split; [done|]. apply (md_key _ _ Hm) in E. cbn. set_solver.
  - pose proof (key_made w seen a c Hm Ha) as Hk. destruct Hm as [Ho Hn Hs Hb].
    exists (next (refs w) :: seen). split; [|cbn; set_solver]. constructor; cbn; [done|lia| |].
    + intros e [->|He]%elem_of_cons; [lia|]. apply Hs in He. lia.
    + intros k t Ht. apply lookup_insert_Some in Ht as [[_ <-]|[_ Ht]]; [set_solver|]. apply Hb in Ht. set_solver.
Qed.

Lemma addStr_holds need w tid a v : holds need w → tid ∈ need → kindOf a = Some TextAttr → holds need (addStr w tid a v).
Proof. intros. destruct v; [done|]. by apply text_holds. Qed.
Lemma addDate_holds need w tid a v : holds need w → tid ∈ need → kindOf a = Some TextAttr → holds need (addDate w tid a v).
Proof. intros. unfold addDate. case_bool_decide; [done|]. by apply addStr_holds. Qed.
Lemma addRef_holds need w tid a u c : holds need w → tid ∈ need → kindOf a = Some RefAttr → kindOf u = Some KeyAttr → holds need (addRef w tid a u c).
Proof.
  intros H Hin Ha Hu. destruct c as [|c0 c]; [done|]. cbn [addRef]. pose proof (ref_holds _ _ _ (c0 :: c) H Hu) as Hr.
  destruct (ref w u (c0 :: c)) as [r w']; cbn [fst snd] in Hr. apply (holds_less (r :: need)); [|set_solver].
  apply link_holds; [done|set_solver|set_solver|done].
Qed.
Lemma fold_holds {A} (f : building → A → building) need l w :
  (∀ w x, x ∈ l → holds need w → holds need (f w x)) → holds need w → holds need (fold_left f l w).
Proof. revert w. induction l as [|x l IH]; intros w Hf H; cbn; [done|]. apply IH; [set_solver|]. apply Hf; [set_solver|done]. Qed.

Create HintDb batches.
#[export] Hint Resolve addStr_holds addDate_holds addRef_holds text_holds float_holds link_holds : batches.
#[export] Hint Extern 1 (kindOf _ = _) => vm_compute; reflexivity : batches.
#[export] Hint Extern 1 (_ ∈ _) => set_solver : batches.

(** Every row leaves a batch that can go on. *)
Lemma empresaRow_holds ParseFloat w row : holds [] w → holds [] (empresaRow ParseFloat w row).
Proof.
  intros H. unfold empresaRow. pose proof (drawn_holds [] w (bs "empresa/cnpj_base") (nth_ row 0) H eq_refl) as Hd.
  destruct (fresh w) as [tid w1]; cbn [fst snd] in Hd. apply (holds_none [tid]).
  apply addStr_holds; [|set_solver|by vm_compute]. destruct (nth_ row 4) as [|c cap]; [auto 6 with batches|].
  destruct (ParseFloat _); auto 7 with batches.
Qed.

Lemma estabRow_holds w row : holds [] w → holds [] (estabRow w row).
Proof.
  intros H. unfold estabRow. set (full := nth_ row 0 ++ _).
  pose proof (drawn_holds [] w (bs "estab/cnpj_completo") full H eq_refl) as Hd.
  destruct (fresh w) as [tid w1]; cbn [fst snd] in Hd. pose proof (ref_holds _ _ (bs "empresa/cnpj_base") (nth_ row 0) Hd eq_refl) as He.
  destruct (ref _ _ _) as [etid w2]; cbn [fst snd] in He. apply (holds_none [etid; tid]).
  assert (Hb : holds [etid; tid] (fold_left (fun w '(i, attr, uattr) => addRef w tid (bs attr) (bs uattr) (nth_ row i)) estabRefAttrs
    (fold_left (fun w '(i, attr) => addStr w tid (bs attr) (nth_ row i)) estabStrAttrs (emit w2 (addOp tid (bs "estab/empresa") (edn.Int etid)))))).
  { apply fold_holds.
    - intros w' [[i a] u] Hin H'. apply addRef_holds; [done|set_solver| |]; revert Hin; unfold estabRefAttrs; rewrite !elem_of_cons, elem_of_nil;
        (intros [[= -> -> ->]|[[= -> -> ->]|[[= -> -> ->]|[[= -> -> ->]|[]]]]]; by vm_compute).
    - apply fold_holds; [|auto with batches]. intros w' [i a] Hin H'. apply addStr_holds; [done|set_solver|].
      assert (Hall : Forall (fun x => kindOf (bs x.2) = Some TextAttr) estabStrAttrs) by (repeat constructor).
      rewrite Forall_forall in Hall. exact (Hall _ Hin). }
  destruct (nth_ row 12); [done|]. apply fold_holds; [|done]. auto with batches.
Qed.

Lemma socioChave_long sha256 cpf nome : (∀ s, length (sha256 s) = 32%nat) → Nat.ltb (length (socioChave sha256 cpf nome)) 4 = false.
Proof.
  intros H32. apply Nat.ltb_ge. unfold socioChave. rewrite !length_app, length_take. set (norm := upperASCII _).
  specialize (H32 norm). destruct (sha256 norm) as [|? [|? [|? ?]]]; [discriminate H32..|]. cbn. lia.
Qed.

Lemma socioRow_holds sha256 w row : (∀ s, length (sha256 s) = 32%nat) → holds [] w → holds [] (socioRow sha256 w row).
Proof.
  intros H32 H. unfold socioRow, refOrFresh. set (chave := socioChave sha256 _ _).
  assert (Hl : Nat.ltb (length chave) 4 = false) by by apply socioChave_long.
  rewrite Hl. pose proof (ref_holds _ _ (bs "socio/chave") chave H eq_refl) as Hp.
  destruct (ref _ _ _) as [p w1]; cbn [fst snd] in Hp.
  set (w2 := addStr (addRef _ _ _ _ _) _ _ _). assert (H2 : holds [p] w2) by (subst w2; auto 8 with batches).
  pose proof (ref_holds _ _ (bs "empresa/cnpj_base") (nth_ row 0) H2 eq_refl) as He.
  destruct (ref w2 _ _) as [e w3]; cbn [fst snd] in He.
  pose proof (ref_holds _ _ (bs "socio/chave_rel") (chave ++ bs "-" ++ nth_ row 0) He eq_refl) as Hr.
  destruct (ref w3 _ _) as [r w4]; cbn [fst snd] in Hr.
  apply (holds_none [r; e; p]). auto 8 with batches.
Qed.

Lemma rows_hold (f : building → list bytes → building) rows : (∀ w row, holds [] w → holds [] (f w row)) → holds [] (fold_left f rows newBatch).
Proof. intros Hf. apply fold_holds; [auto|apply holds_new]. Qed.

(** ** What a stage sends

    The interface with a record of the batches it is given. *)

#[export] Instance logged {T} `{Txer T} : Txer (T * list (list edn.Value)) :=
  fun '(t, sent) ops => let '(e, t) := TxData t ops in (e, (t, sent ++ [ops])).

Section sent.
Context {T : Type} `{HT : Txer T}.
Notation sender := (T * list (list edn.Value))%type.

(** From one sender to the next, only closed batches were sent. *)
Definition sends (s s' : sender) : Prop := ∃ more, s'.2 = s.2 ++ more ∧ Forall closedBatch more.
#[global] Instance sends_preorder : PreOrder sends.
Proof.
  split; [intros s; exists []; by rewrite app_nil_r|]. intros a b c (m1 & E1 & F1) (m2 & E2 & F2).
  exists (m1 ++ m2). split; [by rewrite E2, E1, app_assoc|by apply Forall_app].
Qed.

Lemma flush_sends (s : sender) w need : holds need w → sends s (flush s (ops w)).2.
Proof.
  intros (seen & Hm & _). unfold flush. destruct (ops w) as [|o l] eqn:E; [done|]. rewrite <- E.
  destruct s as [t sent]. unfold TxData at 1, logged. destruct (TxData t (ops w)) as [e t']. exists [ops w].
  split; [done|]. constructor; [|done]. split; [by rewrite E|]. rewrite (md_ops _ _ Hm). by eexists.
Qed.

(** Operations with their own tempids, counted down. *)
Definition counted (acc : list edn.Value) (n : nat) : building := mkBuilding acc (mkRefs (- Z.of_nat (S n)) ∅).
Lemma counted_new : holds [] (counted [] 0).
Proof. exact holds_new. Qed.
Lemma counted_key acc n a v : holds [] (counted acc n) → kindOf a = Some KeyAttr →
  holds [- Z.of_nat (S n)] (counted (acc ++ [addOp (- Z.of_nat (S n)) a (edn.Str v)]) (S n)).
Proof.
  intros H Ha. pose proof (drawn_holds [] _ a v H Ha) as Hd. unfold counted in *. cbn in Hd.
  replace (- Z.of_nat (S (S n))) with (- Z.of_nat (S n) - 1) by lia. exact Hd.
Qed.
Lemma counted_text need acc n tid a v : holds need (counted acc n) → tid ∈ need → kindOf a = Some TextAttr →
  holds need (counted (acc ++ [addOp tid a (edn.Str v)]) n).
Proof. intros. by apply (text_holds need (counted acc n)). Qed.
Lemma counted_sends (s : sender) acc n need : holds need (counted acc n) → sends s (flush s acc).2.
Proof. intros. by eapply (flush_sends s (counted acc n)). Qed.

Lemma lookupLoop_sends prefix desc batch : kindOf (bs prefix ++ bs "/codigo") = Some KeyAttr → kindOf (bs prefix ++ bs "/" ++ bs desc) = Some TextAttr →
  ∀ rows (s : sender) acc n, holds [] (counted acc n) → sends s (lookupLoop rows prefix desc batch s acc n).2.
Proof.
  intros Hk Ht. induction rows as [|[row|] rows IH]; intros s acc n H; cbn [lookupLoop]; [by eapply counted_sends| |done].
  destruct (_ && _); [|by apply IH]. cbv zeta.
  set (acc' := acc ++ _ ++ _). assert (H' : holds [] (counted acc' (S n))).
  { subst acc'. pose proof (counted_key acc n _ (nth_ row 0) H Hk) as Hc. destruct (nth_ row 1) as [|d0 d].
    - rewrite app_nil_r. by apply holds_none in Hc.
    - rewrite app_assoc. apply (holds_none _ _ (counted_text _ _ _ _ _ (d0 :: d) Hc (list_elem_of_here _ _) Ht)). }
  destruct (Nat.leb _ _); [|by apply IH]. pose proof (counted_sends s acc' (S n) [] H') as Hf.
  destruct (flush s acc') as [[e|] s']; cbn [snd] in Hf; [done|]. etrans; [exact Hf|]. apply IH, counted_new.
Qed.

Section stages.
Variable ParseFloat : bytes → option Z.
Variable sha256 : bytes → bytes.
Hypothesis sha256_length : ∀ s, length (sha256 s) = 32%nat.
Variable names : list bytes.
Variable archive : bytes → res (list (option (list bytes))).

Lemma loadLookups_sends batch tables (s : sender) :
  Forall (fun '(_, p, d) => kindOf (bs p ++ bs "/codigo") = Some KeyAttr ∧ kindOf (bs p ++ bs "/" ++ bs d) = Some TextAttr) tables →
  sends s (loadLookups names archive tables batch s).2.
Proof.
  intros Ht. revert s. induction Ht as [|[[z p] d] tables [Hk Hd] _ IH]; intros s; cbn [loadLookups]; [done|].
  destruct (openRows _ _ _) as [rows| | |]; [|done..]. pose proof (lookupLoop_sends p d batch Hk Hd rows s [] 0 counted_new) as Hl.
  destruct (lookupLoop _ _ _ _ s _ _) as [[e|] s']; cbn [snd] in Hl; [done|]. by etrans.
Qed.

Lemma empresaLoop_sends n batch : batch ≠ 0%nat → ∀ rows total w (s : sender), holds [] w →
  ∃ r, empresaLoop ParseFloat rows n batch total w s = Ok r ∧ sends s r.2.
Proof.
  intros Hb. assert (Hfin : ∀ w (s : sender) (total : nat), holds [] w →
    ∃ r, Ok (let '(e, t) := flush s (ops w) in (e, total, t)) = Ok r ∧ sends s r.2 : Prop).
  { intros w s total H. pose proof (flush_sends s w [] H) as Hf. destruct (flush s (ops w)) as [e s']. by eexists. }
  induction rows as [|[row|] rows IH]; intros total w s H; cbn [empresaLoop]; (destruct (Nat.leb n total); [by apply Hfin|]); [by apply Hfin| |].
  - destruct (_ || _); [by apply IH|]. rewrite (proj2 (Nat.eqb_neq batch 0) Hb). cbv zeta.
    pose proof (empresaRow_holds ParseFloat w row H) as Hr. destruct (Nat.eqb _ 0); [|by apply IH].
    pose proof (flush_sends s _ [] Hr) as Hf. destruct (flush s _) as [[e|] s']; cbn [snd] in Hf; [by eexists|].
    destruct (IH (S total) newBatch s' holds_new) as (r & Er & Hs). exists r. split; [done|]. by etrans.
  - by eexists.
Qed.

Lemma simplesSets_text row : Forall (fun x => kindOf x.1 = Some TextAttr) (simplesSets row).
Proof. unfold simplesSets. repeat apply Forall_app_2; repeat case_bool_decide; repeat (destruct (nth_ row _)); repeat constructor. Qed.
Lemma counted_texts need acc n tid sets : tid ∈ need → Forall (fun x => kindOf x.1 = Some TextAttr) sets → holds need (counted acc n) →
  holds need (counted (acc ++ map (fun x => addOp tid x.1 (edn.Str x.2)) sets) n).
Proof.
  intros Hin Hs. revert acc. induction Hs as [|[a v] sets Ha _ IH]; intros acc H; cbn [map]; [by rewrite app_nil_r|].
  rewrite cons_middle, app_assoc. apply IH. by apply counted_text.
Qed.
Lemma simplesLoop_sends batch maxRows : ∀ rows matched n acc (s : sender), holds [] (counted acc n) →
  sends s (simplesLoop rows batch maxRows matched n acc s).2.
Proof.
  induction rows as [|[row|] rows IH]; intros matched n acc s H; cbn [simplesLoop]; cbv zeta;
    pose proof (counted_sends s acc n [] H) as Hf; destruct (flush s acc) as [[e|] s1] eqn:E; cbn [snd] in Hf; (destruct (_ && _); [done|]); try done.
  all: destruct (Nat.ltb _ 7); [by apply IH|]; pose proof (simplesSets_text row) as Hs; destruct (simplesSets row) as [|s0 sets]; [by apply IH|].
  all: set (acc' := acc ++ _ ++ _).
  all: assert (H' : holds [] (counted acc' (S n))) by
    (subst acc'; rewrite app_assoc; exact (holds_none _ _ (counted_texts _ _ _ _ _ (list_elem_of_here _ _) Hs (counted_key acc n (bs "empresa/cnpj_base") (nth_ row 0) H eq_refl)))).
  all: destruct (Nat.leb _ _); [|by apply IH]; pose proof (counted_sends s acc' (S n) [] H') as Hf'.
  all: destruct (flush s acc') as [[e'|] s']; cbn [snd] in Hf'; [done|]; etrans; [exact Hf'|]; apply IH, counted_new.
Qed.

Lemma flushEstabBatch_sends (s : sender) rows : sends s (flushEstabBatch s rows).2.
Proof. apply (flush_sends s _ []), rows_hold, estabRow_holds. Qed.
Lemma flushSocioBatch_sends (s : sender) rows : sends s (flushSocioBatch sha256 s rows).2.
Proof. apply (flush_sends s _ []), rows_hold. intros. by apply socioRow_holds. Qed.

Lemma estabLoop_sends maxRows batch : ∀ rows saved buf (s : sender), sends s (estabLoop rows maxRows batch saved buf s).2.
Proof.
  induction rows as [|[row|] rows IH]; intros saved buf s; cbn [estabLoop]; [| |done].
  - destruct (_ && _); [|done]. pose proof (flushEstabBatch_sends s buf) as Hf. by destruct (flushEstabBatch s buf) as [[e|] s'].
  - cbv zeta. set (buf' := if _ && _ then _ else _). destruct (Nat.leb batch _); [|by apply IH].
    pose proof (flushEstabBatch_sends s buf') as Hf. destruct (flushEstabBatch s buf') as [[e|] s']; cbn [snd] in Hf; [done|].
    destruct (Nat.leb maxRows _); [done|]. etrans; [exact Hf|]. apply IH.
Qed.
Lemma socioLoop_sends batch maxScan : ∀ rows total scanned buf (s : sender), sends s (socioLoop sha256 rows batch maxScan total scanned buf s).2.
Proof.
  assert (Hfin : ∀ total buf (s : sender), sends s (match buf with
    | [] => (None, total, s)
    | _ => match flushSocioBatch sha256 s buf with (Some e, t) => (Some e, total, t) | (None, t) => (None, (total + length buf)%nat, t) end
    end).2).
  { intros total buf s. pose proof (flushSocioBatch_sends s buf) as Hf. destruct buf; [done|]. by destruct (flushSocioBatch _ s _) as [[e|] s']. }
  induction rows as [|[row|] rows IH]; intros total scanned buf s; cbn [socioLoop]; (destruct (_ && _); [apply Hfin|]); [apply Hfin| |done].
  destruct (_ || _); [by apply IH|]. cbv zeta. destruct (Nat.leb batch _); [|by apply IH].
  pose proof (flushSocioBatch_sends s (buf ++ [row])) as Hf. destruct (flushSocioBatch _ s _) as [[e|] s']; cbn [snd] in Hf; [done|].
  etrans; [exact Hf|]. apply IH.
Qed.

(** The stages in order: each begins where the one before it ended. *)
Definition running (s : sender) (r : res (option string * sender)) : Prop := ∃ e s', r = Ok (e, s') ∧ sends s s'.
Lemma after_running (s : sender) r f : running s r → (∀ s1, running s1 (f s1)) → running s (after r f).
Proof.
  intros (e & s1 & -> & H1) Hf. unfold after. rewrite res_bind_ret. cbv beta iota.
  destruct e as [e|]; [by exists (Some e), s1|]. destruct (Hf s1) as (e & s2 & -> & H2). exists e, s2. split; [done|by etrans].
Qed.
Lemma stage_running (s : sender) skip (f : sender → res loaded) : (∃ r, f s = Ok r ∧ sends s r.2) → running s (stage skip f s).
Proof.
  intros ([[e n] s'] & E & H). unfold stage. destruct skip; [by exists None, s|]. rewrite E, res_bind_ret. cbv beta iota. by exists e, s'.
Qed.

Lemma loadEmpresas_running n batch (s : sender) : batch ≠ 0%nat → ∃ r, loadEmpresas ParseFloat names archive n batch s = Ok r ∧ sends s r.2.
Proof. intros Hb. unfold loadEmpresas. destruct (openRows _ _ _); [|by eexists..]. apply empresaLoop_sends; [done|apply holds_new]. Qed.
Lemma mergeSimples_sends batch maxRows (s : sender) : sends s (mergeSimples names archive batch maxRows s).2.
Proof. unfold mergeSimples. destruct (openRows _ _ _); [|done..]. apply simplesLoop_sends, counted_new. Qed.
Lemma loadEstabs_sends maxRows batch (s : sender) : sends s (loadEstabs names archive maxRows batch s).2.
Proof. unfold loadEstabs. destruct (openRows _ _ _); [|done..]. apply estabLoop_sends. Qed.
Lemma loadSocios_sends batch maxScan (s : sender) : sends s (loadSocios sha256 names archive batch maxScan s).2.
Proof. unfold loadSocios. destruct (openRows _ _ _); [|done..]. apply socioLoop_sends. Qed.

Lemma lookups_declared :
  Forall (fun '(_, p, d) => kindOf (bs p ++ bs "/codigo") = Some KeyAttr ∧ kindOf (bs p ++ bs "/" ++ bs d) = Some TextAttr) lookups.
Proof. repeat constructor. Qed.
End stages.
End sent.

(** What declares the schema. *)
Definition schemaBatch : list edn.Value := concat (imap declareOps schemaAttrs).
Lemma declareSchema_first {T} `{Txer T} (t : T) : ∃ e t1, declareSchema (t, []) = (e, (t1, [schemaBatch])).
Proof.
  unfold declareSchema, flush. fold schemaBatch. destruct (TxData t schemaBatch) as [e t1] eqn:E. exists e, t1.
  change (match schemaBatch with [] => _ | _ => ?x end) with x. unfold TxData, logged. by rewrite E.
Qed.

(** C21. The loader sends closed batches: whatever the directory holds, whatever its tables
    say and whichever transaction or row fails, a load with batches of some length sends
    first the declaration of the schema and then only batches that stand on their own. In
    each of them every operation is on a tempid and gives an attribute of the schema a value
    of its type, the first operation on a tempid, and only that one, gives it a unique text
    by which the transactor finds or makes its entity, and a reference is to a tempid that
    had its unique text before. *)
Theorem load_batches_closed {T} `{HT : Txer T} ParseFloat sha256 names archive (t : T) (o : Opts) :
  (∀ s, length (sha256 s) = 32%nat) → Batch o ≠ 0%nat →
  ∃ e t' more, Load ParseFloat sha256 names archive (t, []) o = Ok (e, (t', schemaBatch :: more)) ∧ Forall closedBatch more.
Proof.
  intros H32 Hb. unfold Load. destruct (declareSchema_first t) as (e & t1 & ->).
  assert (Hr : running (t1, [schemaBatch]) (Ok (e, (t1, [schemaBatch])))) by (exists e, (t1, [schemaBatch]); done).
  eapply after_running in Hr; [eapply after_running in Hr; [eapply after_running in Hr; [eapply after_running in Hr; [eapply after_running in Hr|]|]|]|].
  - destruct Hr as (e' & [t' sent] & E & more & Hm & Hc). exists e', t', more. split; [|done]. cbn [snd] in Hm. rewrite Hm in E. exact E.
  - intros s. apply stage_running. eexists. split; [reflexivity|]. by apply loadSocios_sends.
  - intros s. apply stage_running. eexists. split; [reflexivity|]. apply loadEstabs_sends.
  - intros s. apply stage_running. eexists. split; [reflexivity|]. apply mergeSimples_sends.
  - intros s. apply stage_running. by apply loadEmpresas_running.
  - intros s. pose proof (loadLookups_sends names archive (Batch o) lookups s lookups_declared) as Hl.
    eexists _, _. split; [|exact Hl]. by rewrite <- surjective_pairing.
Qed.

(** ** Samples *)

Module loaderSamples.
(** A transactor that takes everything, a digest of the right length, and a directory with
    one archive for each table. *)
#[export] Instance taker : Txer unit := fun t _ => (None, t).
Definition digest (_ : bytes) : bytes := replicate 32 7.
Definition float0 (_ : bytes) : option Z := Some 0.
Definition row (l : list string) : option (list bytes) := Some (map bs l).
Definition dir : list bytes :=
  map bs ["Cnaes__2.zip"; "Cnaes__1.zip"; "Municipios.zip"; "Naturezas.zip"; "Qualificacoes.zip"; "Paises.zip"; "Motivos.zip"; "Empresas0.zip"; "Simples.zip";
          "Estabelecimentos0.zip"; "Socios0x.zip"].
Definition estab (order : string) : option (list bytes) :=
  row (["11111111"; order; "5"; "1"; "NAME"; "2"; "20200101"; "01"; ""; ""; "20100101"; "0111"; "0112, 0111"] ++ repeat "x" 17).
Definition partner (name : string) : option (list bytes) := row ["11111111"; "2"; name; "***123456**"; "49"; "20100101"; "105"; ""; ""; ""; "5"].
Definition zip (path : bytes) : res (list (option (list bytes))) :=
  if bool_decide (path = bs "Cnaes__1.zip") then Ok [row ["0111"; "Rice"]; row ["0112"]; row ["0113"; ""]]
  else if bool_decide (path = bs "Empresas0.zip") then Ok [row ["11111111"; "A"; "2062"; "49"; "1000,00"; "01"]; row ["short"]; row ["22222222"; "B"; "2062"; "49"; ""; ""]]
  else if bool_decide (path = bs "Simples.zip") then Ok [row ["11111111"; "S"; "20100101"; "00000000"; "N"; "00000000"; "00000000"]]
  else if bool_decide (path = bs "Estabelecimentos0.zip") then Ok [estab "1"; estab "12"]
  else if bool_decide (path = bs "Socios0x.zip") then Ok [partner "ANA"; partner " ana "; partner "BIA"]
  else Ok [].
Definition opts (maxEstabs maxSocios : nat) : Opts :=
  {| N := 10; Batch := 5; SkipSimples := false; SkipEstabs := false; SkipSocios := false; MaxEstabs := maxEstabs; MaxSimples := 0; MaxSocios := maxSocios |}.

(** Five batches follow the schema, each closed. *)
Example load_runs : match Load float0 digest dir zip ((), []) (opts 100 0) with
  | Ok (None, (_, sent)) => map length (tail sent) = [3; 12; 4; 53; 32]%nat ∧ forallb (fun b => bool_decide (is_Some (checkOps [] b))) (tail sent) = true
  | _ => False
  end.
Proof. vm_compute. split; reflexivity. Qed.

(** With no bound on the establishments to save, none of a table shorter than a batch is
    saved, and with one of a full batch the whole batch is. *)
Example estabs_unbounded_short : fst (loadEstabs dir zip 0 5 ()) = (None, 0%nat) ∧ fst (loadEstabs dir zip 0 2 ()) = (None, 2%nat).
Proof. vm_compute. split; reflexivity. Qed.
(** A bound of one partner takes two. *)
Example socios_one_more : fst (loadSocios digest dir zip 5 1 ()) = (None, 2%nat).
Proof. vm_compute. reflexivity. Qed.
(** Companies in batches of none divide by zero. *)
Example empresas_no_batch : loadEmpresas float0 dir zip 10 0 () = Panic.
Proof. vm_compute. reflexivity. Qed.
(** A partner with neither a document nor a name has the key of every other such partner. *)
Example nameless_key : socioChave digest [] [] = socioChave digest (bs "***") (bs "  ") ∧ length (socioChave digest [] []) = 7%nat.
Proof. vm_compute. split; reflexivity. Qed.
End loaderSamples.

Import loaderSamples.
Lemma load_batches_closed_witness : ∃ e t' more,
  Load float0 digest dir zip ((), []) (opts 100 0) = Ok (e, (t', schemaBatch :: more))
  ∧ Forall closedBatch more.
Proof.
  exact (load_batches_closed float0 digest dir zip () (opts 100 0)
    (fun _ => eq_refl) ltac:(done)).
Defined.
