(* ===== verification/Repl.v ===== *)
(** * The shell (go/internal/repl)

    Statements collected from lines until their brackets close, sent through the client,
    and the commands that begin with a dot. The console is what was printed to it, in
    order; what is read is the lines to come and how the input ends. Readline, the
    history and whether the input is a terminal are below this model, as the choice
    among [Mode]s in [Run] shows. *)

From Stdlib Require Import String.
From S2P Require Import Prelude Msgpack Sexpr Keys QueryStore Scheme Edn Frames Transactor Client Texts.
Open Scope string_scope.
Open Scope list_scope.
Open Scope Z_scope.

(** ** Statements *)

(** The scan with its depth and where it stands in a string. *)
Fixpoint depthFrom (s : bytes) (depth : Z) (inStr esc : bool) : Z :=
  match s with
  | [] => depth
  | c :: s =>
      if esc then depthFrom s depth inStr false
      else if inStr then (if c =? 92 then depthFrom s depth inStr true else if c =? 34 then depthFrom s depth false esc else depthFrom s depth inStr esc)
      else if c =? 34 then depthFrom s depth true esc
      else if c =? 91 then depthFrom s (depth + 1) inStr esc
      else if c =? 93 then depthFrom s (depth - 1) inStr esc
      else depthFrom s depth inStr esc
  end.
Definition BracketDepth (s : bytes) : Z := depthFrom s 0 false false.
Definition IsCompleteStatement (s : bytes) : bool := has_prefix s (bs "[") && (BracketDepth s =? 0).
Definition IsTxData (s : bytes) : bool := Contains s (bs ":db/add") || Contains s (bs ":db/retract").

(** [strings.ToLower], in the letters whose lower case is of ASCII: those of ASCII, the
    sign of the kelvin and the I with a dot. A command has no other letters. *)
Fixpoint ToLower (s : bytes) : bytes :=
  match s with
  | 0xe2 :: 0x84 :: 0xaa :: s' => 107 :: ToLower s'
  | 0xc4 :: 0xb0 :: s' => 105 :: ToLower s'
  | c :: s' => (if (65 <=? c) && (c <=? 90) then c + 32 else c) :: ToLower s'
  | [] => []
  end.
(** [strings.ToUpper], in the letters whose upper case is one of a name of an index. *)
Definition ToUpper (s : bytes) : bytes := map (fun c => if (97 <=? c) && (c <=? 122) then c - 32 else c) s.

(** ** The console *)

Inductive shown : Type := Stdout (s : bytes) | Stderr (s : bytes).
Record shell : Type := mkShell { client : Client; console : list shown }.
Definition Print (sh : shell) (s : bytes) : shell := mkShell (client sh) (console sh ++ [Stdout s]).
Definition Println (sh : shell) (s : bytes) : shell := Print sh (s ++ [10]).
Definition Complain (sh : shell) (s : bytes) : shell := mkShell (client sh) (console sh ++ [Stderr (s ++ [10])]).

Section repl.
Variable FormatE : Z → bytes.
Variable QuoteJSON : bytes → bytes.
Variable ParseFloat : bytes → option Z.
Variable helpText : bytes.
Implicit Types sh : shell.

Definition answer : Type := option clientError * shell.

(** Errors of the server are printed and forgotten. *)
Definition reportError (err : option clientError) sh : answer :=
  match err with Some (ServerError msg) => (None, Complain sh (bs "Error: " ++ msg)) | _ => (err, sh) end.

Definition printRows (con : list shown) (ch : Chunk) : option clientError * list shown :=
  (None, con ++ map (fun row => Stdout (joinBytes [9] row ++ [10])) (Rows ch)).
Definition streamed (r : option clientError * list shown * Client) : answer := let '(err, con, c) := r in reportError err (mkShell c con).

Definition executeDatalog sh (query : bytes) : answer := streamed (Datalog FormatE QuoteJSON (client sh) query printRows (console sh)).
Definition dumpCmd sh (index : bytes) : answer := streamed (Dump FormatE QuoteJSON (client sh) index printRows (console sh)).
Definition kvScan sh (cf : Z) : answer := streamed (KVScan FormatE QuoteJSON (client sh) cf printRows (console sh)).

(** A text, or an error that is reported. *)
Definition printed sh (r : outcome bytes) : answer :=
  match r with
  | (inl e, c) => reportError (Some e) (mkShell c (console sh))
  | (inr out, c) => (None, Println (mkShell c (console sh)) out)
  end.
Definition kvPut sh (cf : Z) (key value_ : bytes) : answer := printed sh (KVPut (client sh) cf key value_).
Definition kvGet sh (cf : Z) (key : bytes) : answer := printed sh (KVGet FormatE QuoteJSON (client sh) cf key).
Definition kvDelete sh (cf : Z) (key : bytes) : answer := printed sh (KVDelete (client sh) cf key).

(** Here every error is returned. *)
Definition adminCmd sh (command : string) : answer :=
  match Admin (client sh) (bs command) with
  | (inl e, c) => (Some e, mkShell c (console sh))
  | (inr out, c) => (None, Println (mkShell c (console sh)) out)
  end.

Definition executeTx sh (text : bytes) : answer :=
  match ReadVector ParseFloat text with
  | Ok ops => printed sh (Tx (client sh) ops)
  | Err e => (None, Complain sh (bs "Error: EDN parse: " ++ bs e))
  | _ => (None, sh)
  end.
Definition processStatement sh (stmt : bytes) : answer := if IsTxData stmt then executeTx sh stmt else executeDatalog sh stmt.

(** ** Dot commands *)

Definition adminNames : list string :=
  ["flush"; "flush-sync"; "gc"; "gc-dry"; "status"; "tree"; "memtable"; "stats"; "stats-reset"; "perf"; "perf-reset"].
Definition usage sh (u : string) : answer := (None, Complain sh (bs "Usage: " ++ bs u)).
Definition badCF sh : answer := (None, Complain sh (bs "Error: cf must be >= 10 for key-value operations")).
(** A command with a column family and [n] arguments, the first of them the family. *)
Definition withCF sh (args : list bytes) (n : nat) (u : string) (f : Z → answer) : answer :=
  if Nat.ltb (length args) n then usage sh u
  else match ParseInt (nth 0 args []) with Some cf => if cf <? 10 then badCF sh else f cf | None => badCF sh end.

Definition dot sh (line cmd : bytes) (args : list bytes) : bool * answer :=
  let named (n : string) := bool_decide (cmd = bs n) in
  let arg i := nth i args [] in
  if named ".quit" || named ".exit" then (true, (None, sh))
  else if named ".help" then (false, (None, Println (Print sh helpText) []))
  else match find (fun n => bool_decide (cmd = bs "." ++ bs n)) adminNames with
  | Some n => (false, adminCmd sh n)
  | None =>
    (false,
      if named ".dump" then
        let a := match args with [] => bs "EAVT" | a :: _ => a end in
        if match ParseInt a with Some n => 10 <=? n | None => false end then kvScan sh (default 0 (ParseInt a))
        else
          let index := ToUpper a in
          if bool_decide (index ∈ map bs ["EAVT"; "AEVT"; "AVET"; "VAET"]) then dumpCmd sh index
          else (None, Complain sh (bs "Error: index must be one of EAVT, AEVT, AVET, VAET or a CF number >= 10"))
      else if named ".kv-put" then withCF sh args 3 ".kv-put <cf> <key> <value>" (fun cf => kvPut sh cf (arg 1%nat) (arg 2%nat))
      else if named ".kv-get" then withCF sh args 2 ".kv-get <cf> <key>" (fun cf => kvGet sh cf (arg 1%nat))
      else if named ".kv-delete" then withCF sh args 2 ".kv-delete <cf> <key>" (fun cf => kvDelete sh cf (arg 1%nat))
      else if named ".kv-scan" then withCF sh args 1 ".kv-scan <cf>" (fun cf => kvScan sh cf)
      else (None, Complain sh (bs "Unknown command: " ++ line)))
  end.
(** Whether to quit, an error, and the shell. *)
Definition handleDot sh (line : bytes) : bool * answer :=
  match Fields line with [] => (false, (None, sh)) | cmd :: args => dot sh line (ToLower cmd) args end.

(** ** The loop *)

Definition prompt (accumulated : bytes) : bytes := match accumulated with [] => bs "eavt-dl> " | _ => bs "       -> " end.

(** The lines to come, and an error of the reader where the input does not just end. *)
Fixpoint loop (lines : list bytes) (ending : option clientError) sh (accumulated : bytes) : answer :=
  let sh := Print sh (prompt accumulated) in
  match lines with
  | [] => match ending with Some e => (Some e, sh) | None => (None, Println sh []) end
  | line :: lines =>
      let stripped := TrimSpace line in
      if bool_decide (accumulated = []) && has_prefix stripped (bs ".") then
        match handleDot sh stripped with
        | (_, (Some e, sh)) => (Some e, sh)
        | (true, (None, sh)) => (None, sh)
        | (false, (None, sh)) => loop lines ending sh accumulated
        end
      else if has_prefix stripped (bs "--") then loop lines ending sh accumulated
      else
        let accumulated := accumulated ++ line ++ bs " " in
        let trimmed := TrimSpace accumulated in
        if negb (bool_decide (trimmed = [])) && IsCompleteStatement trimmed then
          match processStatement sh trimmed with (Some e, sh) => (Some e, sh) | (None, sh) => loop lines ending sh [] end
        else loop lines ending sh accumulated
  end.

Definition runExec sh (cmd : bytes) : answer :=
  let trimmed := TrimSpace cmd in
  if bool_decide (trimmed = []) then (None, sh)
  else if has_prefix trimmed (bs ".") then snd (handleDot sh trimmed)
  else if IsCompleteStatement trimmed then processStatement sh trimmed
  else (None, Complain sh (bs "Error: incomplete statement")).

Inductive Mode : Type := Interactive | Pipe | Exec.
Definition printBanner sh (socketPath : bytes) : shell :=
  Println (Println (Println (Println sh (bs "eavt datalog repl: socket=" ++ socketPath)) (bs "Queries: [:find ?v :where [?e :attr ?v]];"))
    (bs "Type .help for commands, .quit to exit")) [].
(** Both ways to read lines show the prompt before each. *)
Definition Run (server : option netConn) (socketPath : bytes) (mode : Mode) (execCmd : bytes) (lines : list bytes) (ending : option clientError)
  (con : list shown) : answer + list shown :=
  match Dial server socketPath with
  | None => inr (con ++ [Stderr (bs "Error: cannot connect to " ++ socketPath ++ [10])])
  | Some c =>
      let '(err, sh) := match mode with
        | Exec => runExec (mkShell c con) execCmd
        | _ => loop lines ending (printBanner (mkShell c con) socketPath) []
        end in
      inl (err, mkShell (Close (client sh)) (console sh))
  end.
End repl.

(** ** What the loop does with lines *)

Section loops.
Variable FormatE : Z → bytes.
Variable QuoteJSON : bytes → bytes.
Variable ParseFloat : bytes → option Z.
Variable helpText : bytes.
Abbreviation loop := (loop FormatE QuoteJSON ParseFloat helpText).
Abbreviation processStatement := (processStatement FormatE QuoteJSON ParseFloat).
Implicit Types sh : shell.

Definition show (sh : shell) (l : list shown) : shell := mkShell (client sh) (console sh ++ l).
Lemma show_show sh l l' : show (show sh l) l' = show sh (l ++ l').
Proof. unfold show. cbn [client console]. by rewrite app_assoc. Qed.

Definition again : shown := Stdout (bs "       -> ").
Lemma prompt_again sh acc : acc ≠ [] → Print sh (prompt acc) = show sh [again].
Proof. by destruct acc. Qed.

Lemma hasPrefix_cons c s p ps : has_prefix (c :: s) (p :: ps) = true → c = p.
Proof. intros (s' & [= -> _])%has_prefix_spec. done. Qed.
Lemma hasPrefix_other c s p ps : c ≠ p → has_prefix (c :: s) (p :: ps) = false.
Proof. intros H. destruct (has_prefix _ _) eqn:E; [|done]. by apply hasPrefix_cons in E. Qed.

(** Lines that go on with a statement that began. *)
Definition goesOn (line : bytes) : Prop := has_prefix (TrimSpace line) (bs "--") = false.
Definition complete (text : bytes) : bool := negb (bool_decide (TrimSpace text = [])) && IsCompleteStatement (TrimSpace text).
Definition joined (lines : list bytes) : bytes := flat_map (fun l => l ++ bs " ") lines.

Lemma loop_takes line lines ending sh acc : (acc ≠ [] ∨ has_prefix (TrimSpace line) (bs ".") = false) → goesOn line →
  loop (line :: lines) ending sh acc
  = let sh := Print sh (prompt acc) in
    if complete (acc ++ line ++ bs " ") then match processStatement sh (TrimSpace (acc ++ line ++ bs " ")) with (Some e, sh) => (Some e, sh) | (None, sh) => loop lines ending sh [] end
    else loop lines ending sh (acc ++ line ++ bs " ").
Proof.
  intros Hd Hg. cbn [Repl.loop]. unfold goesOn in Hg. rewrite Hg.
  assert (bool_decide (acc = []) && has_prefix (TrimSpace line) (bs ".") = false) as ->; [|done].
  destruct Hd as [H| ->]; [by rewrite bool_decide_false|apply andb_false_r].
Qed.

(** Text that begins with something else than a bracket is never a statement, whatever
    comes after it. *)
Lemma complete_leads c acc : plain c → c ≠ 91 → leads c acc → complete acc = false.
Proof.
  intros Hp Hc Hl. destruct (TrimSpace_leads c acc Hp Hl) as [s' E]. unfold complete, IsCompleteStatement. rewrite E.
  change (bs "[") with [91]. rewrite (hasPrefix_other c s' 91 []) by done. apply andb_false_r.
Qed.
Lemma leads_nonempty c s : leads c s → s ≠ [].
Proof. intros (sp & r & -> & _) E. by destruct sp. Qed.

Definition closing (ending : option clientError) : list shown := match ending with Some _ => [] | None => [Stdout [10]] end.

Lemma loop_waits c : plain c → c ≠ 91 → ∀ lines ending sh acc, leads c acc →
  loop lines ending sh acc = (ending, show sh (replicate (S (length lines)) again ++ closing ending)).
Proof.
  intros Hp Hc. induction lines as [|line lines IH]; intros ending sh acc Hl; pose proof (leads_nonempty c acc Hl) as Hn.
  - cbn [Repl.loop]. rewrite prompt_again by done. destruct ending as [e|]; cbn [closing length replicate app]; [done|].
    unfold Println, Print, show. cbn [client console]. by rewrite <- app_assoc.
  - assert (Hstep : loop (line :: lines) ending sh acc = loop lines ending (show sh [again]) acc
      ∨ loop (line :: lines) ending sh acc = loop lines ending (show sh [again]) (acc ++ line ++ bs " ")).
    { destruct (has_prefix (TrimSpace line) (bs "--")) eqn:Eg.
      - left. cbn [Repl.loop]. rewrite bool_decide_false, Eg, prompt_again by done. done.
      - right. rewrite loop_takes by (done || by left). rewrite prompt_again by done. cbv zeta.
        by rewrite (complete_leads c) by (done || by apply leads_app). }
    destruct Hstep as [-> | ->]; rewrite IH by (done || by apply leads_app); by rewrite show_show.
Qed.

(** The end of a statement that began. *)
Lemma loop_ends acc line ls rest ending sh : acc ≠ [] → Forall goesOn (line :: ls) →
  (∀ k, (k ≤ length ls)%nat → (0 < k)%nat → complete (acc ++ joined (take k (line :: ls))) = false) → complete (acc ++ joined (line :: ls)) = true →
  loop ((line :: ls) ++ rest) ending sh acc
  = let sh := show sh (replicate (S (length ls)) again) in
    match processStatement sh (TrimSpace (acc ++ joined (line :: ls))) with (Some e, sh) => (Some e, sh) | (None, sh) => loop rest ending sh [] end.
Proof.
  revert acc line sh. induction ls as [|l ls IH]; intros acc line sh Hn [Hg1 Hg]%Forall_cons_1 Hk Hc; cbn [app];
    rewrite loop_takes by (done || by left); rewrite prompt_again by done; cbv zeta.
  - unfold joined in Hc |- *. cbn [flat_map] in Hc |- *. rewrite app_nil_r in Hc |- *. by rewrite Hc.
  - pose proof (Hk 1%nat ltac:(cbn; lia) ltac:(lia)) as H1. unfold joined in H1. cbn [take flat_map] in H1. rewrite app_nil_r in H1. rewrite H1.
    assert (Ej : ∀ l', acc ++ joined (line :: l') = (acc ++ line ++ bs " ") ++ joined l') by (intros; unfold joined; cbn [flat_map]; by rewrite !app_assoc).
    change (l :: ls ++ rest) with ((l :: ls) ++ rest). rewrite (IH (acc ++ line ++ bs " ") l (show sh [again])), show_show; [by rewrite Ej|by destruct acc|done| |by rewrite <- Ej].
    intros k Hle Hpos. rewrite <- Ej. apply (Hk (S k)); cbn; lia.
Qed.

(** A statement may take several lines: it is run when, and only when, its text is
    complete, as it would be run from one line, and the loop then begins anew. *)
Theorem statement_over_lines line ls rest ending sh : has_prefix (TrimSpace line) (bs ".") = false → Forall goesOn (line :: ls) →
  (∀ k, (k ≤ length ls)%nat → (0 < k)%nat → complete (joined (take k (line :: ls))) = false) → complete (joined (line :: ls)) = true →
  loop ((line :: ls) ++ rest) ending sh []
  = let sh := show sh (Stdout (bs "eavt-dl> ") :: replicate (length ls) again) in
    match processStatement sh (TrimSpace (joined (line :: ls))) with (Some e, sh) => (Some e, sh) | (None, sh) => loop rest ending sh [] end.
Proof.
  intros Hd Hg Hk Hc. pose proof (Forall_cons_1 _ _ _ Hg) as [Hg1 Hg2]. cbn [app]. rewrite loop_takes by (done || by right). cbv zeta. cbn [app].
  destruct ls as [|l ls].
  - unfold joined in Hc |- *. cbn [flat_map] in Hc |- *. rewrite app_nil_r in Hc |- *. by rewrite Hc.
  - pose proof (Hk 1%nat ltac:(cbn; lia) ltac:(lia)) as H1. unfold joined in H1. cbn [take flat_map] in H1. rewrite app_nil_r in H1. rewrite H1.
    assert (Ej : ∀ l', joined (line :: l') = (line ++ bs " ") ++ joined l') by done.
    change (l :: ls ++ rest) with ((l :: ls) ++ rest). rewrite (loop_ends (line ++ bs " ") l ls); [|by destruct line|done| |by rewrite <- Ej].
    + cbv zeta. change (Print sh (prompt [])) with (show sh [Stdout (bs "eavt-dl> ")]). by rewrite show_show, Ej.
    + intros k Hle Hpos. rewrite <- Ej. apply (Hk (S k)); cbn; lia.
Qed.

(** An empty line ends the session in all but name: after an empty line, a command
    that begins with a dot, [.quit] among them, is not run, and no statement is ever run
    again. Whatever lines follow, the shell only shows the prompt of an unfinished
    statement for each, and the connection stays as it was. *)
Theorem blank_line_stops_shell b cmd lines ending sh : blank b → leads 46 cmd →
  loop (b :: cmd :: lines) ending sh [] = (ending, show sh (Stdout (bs "eavt-dl> ") :: replicate (S (S (length lines))) again ++ closing ending)).
Proof.
  intros Hb Hcmd. assert (Hp : plain 46) by by apply plain_ascii. destruct (TrimSpace_leads 46 cmd Hp Hcmd) as [s' Ecmd].
  assert (Hblank : blank (b ++ bs " ")) by (apply Forall_app; split; [done|]; apply Forall_singleton; set_solver).
  rewrite loop_takes; [|by right; rewrite TrimSpace_blank|by unfold goesOn; rewrite TrimSpace_blank]. cbn [app]. cbv zeta.
  unfold complete. rewrite TrimSpace_blank, bool_decide_true by done. cbn [negb andb].
  assert (Hl : leads 46 ((b ++ bs " ") ++ cmd ++ bs " ")) by (apply leads_blank; [done|]; by apply leads_app).
  rewrite loop_takes; [|left; by destruct b|unfold goesOn; rewrite Ecmd; by apply (hasPrefix_other 46 s' 45)]. cbv zeta.
  rewrite (complete_leads 46) by done. rewrite prompt_again by by destruct b. rewrite (loop_waits 46) by done.
  unfold Print, show. cbn [client console prompt replicate app]. by rewrite <- !app_assoc.
Qed.
End loops.

Module replSamples.
Definition format : Z → bytes := fun _ => [].
Definition quoted : bytes → bytes := fun s => s.
Definition float : bytes → option Z := fun _ => None.
Definition help : bytes := bs "help".
(** A server that answers with one row. *)
Definition reply : value := writeResponse [] [bs "v"] [[sexpr.Int 7]] false [].
Definition there : shell := mkShell (on [] (writeFrames (map Marshal [reply; reply])) []) [].
Definition run (lines : list string) : option clientError * list shown :=
  let '(e, sh) := loop format quoted float help (map bs lines) None there [] in (e, console sh).

(** A statement in two lines with a comment between them, and a command. *)
Example shell_runs : run ["[:find ?v"; "-- all of them"; " :where [?e :a ?v]];"; ".help"; ".quit"; "[:never]"]
  = (None, map Stdout [bs "eavt-dl> "; bs "       -> "; bs "       -> "; bs "7" ++ [10]; bs "eavt-dl> "; bs "help"; [10]; bs "eavt-dl> "]).
Proof. vm_compute. reflexivity. Qed.
(** Brackets in a text do not count. *)
Example brackets_in_texts : BracketDepth (bs "[1 " ++ [34] ++ bs "[[" ++ [92; 34] ++ bs "]" ++ [34] ++ bs "]") = 0.
Proof. vm_compute. reflexivity. Qed.
End replSamples.
Import replSamples.

Lemma blank_line_stops_shell_witness :
  loop format quoted float help (map bs [""; ".quit"; "[:find ?v :where [?e :a ?v]]"]) None there []
  = (None, show there (Stdout (bs "eavt-dl> ") :: replicate 3 again ++ closing None)).
Proof.
  apply (blank_line_stops_shell format quoted float help [] (bs ".quit") [bs "[:find ?v :where [?e :a ?v]]"] None there); [constructor|].
  exists [], (bs "quit"). split; [reflexivity|constructor].
Defined.
